(* ===== verification/_CoqProject ===== *)
-Q . S2P
Prelude.v
Atomic.v
Bytes.v
Schema.v
Alloc.v
Header.v
HeaderConc.v
RootConc.v
Mem.v
Heap.v
TalcGeo.v
Talc.v
TalcList.v
TalcBits.v
TalcFree.v
TalcHeap.v
TalcHole.v
TalcSearch.v
TalcAlloc.v
TalcInit.v
TalcSpec.v
TalcSafe.v
TalcConf.v
HeapConc.v
Dir.v
DirWalk.v
DirCrash.v
DirSafe.v
Queue.v
QueueInv.v
QueueConc.v
QueueFifo.v
QueueSeq.v
QueueEnd.v
QueueRepair.v
Token.v
Pool.v
PoolGeo.v
PoolOps.v
PoolConc.v
PoolSeq.v
PoolDeath.v
PoolBlock.v
PoolBlockConc.v
PoolBlockRun.v
Channel.v
ChannelGeo.v
Duplex.v
RoleConc.v
DuplexSeq.v
DuplexClose.v
DuplexRecover.v
Transfer.v
TransferSeq.v
Session.v
SessionSafe.v
SessionOpen.v
SessionAgree.v
SessionPool.v
PoolOpen.v
SessionRecover.v
Notify.v
Events.v
NotifyWake.v
NotifyConc.v
Boxed.v
BoxedConc.v
BoxedRun.v
Process.v
HandoffUnix.v
HandoffWindows.v
Ready.v
MapUnix.v
MapConc.v
RegionMap.v
MapWindows.v
HandoffBind.v
Index.v
IndexRun.v
IndexLive.v
