(* ===== verification/Prelude.v ===== *)
(** * Evering, verified

    Evering is a library for processes that share one memory mapping.  This
    development models the part of it that every process must get right for the
    others to be safe, and proves what that part promises.

    ** The program and its parts

    A mapping starts with a [Root] header that names the region and its
    participants (src/header.rs).  Behind it the pieces of a composition are
    placed one after the other (src/mem.rs), each behind an [RcHeader] that
    records what the piece is and which participants hold it (src/header.rs,
    src/schema.rs).  Two pieces are always there: a general heap (src/talc.rs)
    and a directory of layouts allocated in that heap (src/dir.rs).  Channels
    built on the directory are bounded queues of tokens (src/queue.rs,
    src/token.rs), and message bodies live in pools of blocks (src/pool.rs).
    A process hands the mapping and the events of a session to another one with
    a control message (src/process.rs, src/os).
    Any process may die at any instruction; the others then recover what it
    held.

    ** The model

    A routine that touches shared memory is a program of type [prog S A]
    (Atomic): a tree of atomic accesses to a state [S].  The same term is run
    alone ([run]), interleaved with any number of others ([threads], [sched]),
    or stopped after any access ([crash]).  Accesses are sequentially
    consistent.  Machine words are integers of [Z] kept in range by the
    operations of the prelude ([wrap], [wrapping_add], [checked_add], ...);
    [usize] has 64 bits.  Panics are [None].  Loops that only repeat when
    another participant moved take their turns from an argument: a list of
    spurious failures for a weak exchange, a number of slabs for a walk of the
    directory (as many as the chain has are enough, [idle_fuel]).

    ** The files

    - Prelude: results, options, machine integers, packed words, tactics.
    - Bytes, Schema: little-endian bytes (of the records and identifiers), UTF-8,
      schema identifiers and layout identities of src/schema.rs, src/msg.rs.
    - Atomic: programs, interleavings, the rely-guarantee rule [wp] that the
      files named Conc use, and [crash].
    - Alloc: [core::alloc::Layout], alignment, bits.
    - Header, HeaderConc, RootConc: src/header.rs.  [header_admission]: of any
      participants that admit, leave and close one header, one initializes it,
      all that are admitted agree on it, and it is closed only when alone.
      [members_unique]: participants of a region never share a slot and a
      generation, whatever identities the calls name (a word keeps the low 62
      bits of a generation).
    - Mem: src/mem.rs, placement and projection.  [composition_apart].
    - Heap: the mutation word and the records of src/talc.rs, and what the
      directory and the boxes rely on of the heap, as the classes [HeapLaws] and
      [HeapBytesLaws].
    - TalcGeo, TalcBits, Talc, TalcList, TalcHeap, TalcHole, TalcSearch,
      TalcAlloc, TalcFree, TalcInit, TalcSpec, TalcSafe, TalcConf, HeapConc: the
      allocator of src/talc.rs.  TalcGeo has the geometry and its
      bounds, Talc the chunks, tags, bins and every operation, TalcSafe what a
      client sees ([talc_blocks_disjoint], [talc_allocate_exact],
      [talc_release_restores], [talc_blocks_untouched]), TalcConf the composition into a region, HeapConc
      participants that allocate, release and die ([heap_serialized],
      [heap_crash_recovered]).  The allocator discharges both classes.
    - Dir, DirWalk, DirCrash, DirSafe: src/dir.rs.  [create_crash_recovered]
      and [remove_crash_recovered]: wherever a participant dies in a creation
      or a removal, one recovery settles the directory, with and without debug
      assertions; without them a quarantine keeps the transaction.
    - Queue, QueueInv, QueueConc, QueueFifo, QueueSeq, QueueEnd, QueueRepair:
      src/queue.rs.  [queue_fifo]: any interleaving of senders and receivers
      is one bounded FIFO.  [queue_refines_fifo]: used by one caller it
      answers as the abstract bounded queue does.  QueueEnd has closing and
      clients that stop anywhere; QueueRepair the repair of slots of a
      dead participant, and three schedules on which it goes wrong.
    - Token: src/token.rs.
    - Pool, PoolGeo, PoolOps, PoolConc, PoolSeq, PoolDeath: src/pool.rs.
      [pool_exclusive]: in any interleaving no two live allocations name one
      block.  [pool_death_recovered]: nor when participants die at any access
      and are recovered; [pool_words_typed].  PoolGeo has the geometry, PoolSeq
      each operation alone.
    - PoolBlock, PoolBlockConc, PoolBlockRun: the blocks of src/pool.rs with
      their bytes.  [blocks_keep_contents]: a block holds what its owner wrote.
    - Channel, ChannelGeo, Duplex, RoleConc, DuplexSeq, DuplexClose,
      DuplexRecover: src/channel.rs.  Role words and ports ([roles_exclusive],
      with threads that die and are recovered, [port_bytes_roundtrip]), the two directions ([duplex_refines_two_fifos]),
      closing, of idle queues ([close_releases_all], [close_retry_finishes]), and recovery
      ([duplex_recover_releases]).
    - Transfer, TransferSeq: blocks of a pool sent through a channel.
      [transfers_refine]: no block is lost, doubled or freed on the way, messages
      that are refused for their type or shape included.
    - Session, SessionSafe, SessionOpen, SessionAgree,
      SessionPool, PoolOpen, SessionRecover: src/session.rs, and what src/mem.rs,
      src/dir.rs and src/pool.rs do for it.  [remove_after_close],
      [open_after_create], [open_pool_aligned].  SessionSafe is proved against
      the class [RecoveryLaws] of recovery handlers; SessionRecover discharges it
      for a channel, and for a channel and the pool its messages lie in
      ([reap_frees_dead]).
    - Boxed, BoxedConc, BoxedRun: src/boxed.rs and the general heap of
      src/session.rs.  [boxes_keep_contents]: a box holds what its owner wrote.
      The bytes of a box lie in the memory the allocator works in; its work under
      the mutation word is one access there, where HeapConc has it in parts.
    - Notify, Events, NotifyWake, NotifyConc: src/notify.rs over the
      class [EventLaws], which the events of src/os/eventfd.rs, src/os/pipe.rs and
      src/os/event.rs discharge in Events ([events_sticky], [event_owns]).
      [claim_wakes]: a waiting receiver is never left asleep with a message to
      claim; two schedules on which a waiter is.
    - Ready: the future of src/runtime.rs that waits for a Windows event, as a
      step relation.  [ready_wakes_and_frees].
    - Process, HandoffUnix, HandoffWindows, HandoffBind: src/process.rs and the
      processes and handoffs of src/os.  [supervisor_evidence_final] over the contract of a
      child process ([ChildLaws]); [recv_accepts_sent], [handoff_receive_owns],
      [win_send_to_child] and [pipe_recv_pads] over the contracts of the system
      calls ([SocketLaws], [PipeLaws]), which a small system discharges in each
      file; [handoff_names_apart]: however threads and processes interleave, no two
      handoffs have one name.
    - MapUnix, MapConc, RegionMap, MapWindows: the mappings of src/os/unix.rs and
      src/os/windows.rs and their owners in src/mem.rs, over the contracts
      [FileLaws] and [SectionLaws].  [mappings_stay_backed]: mappings of files
      that grow stay within them, unless participants ask for different lengths
      ([map_race_cuts]).  [mapping_released], [section_released]: a mapping ends
      with its region on every path, and without MAP_FIXED disturbs no other; with
      it the safe interface can replace one ([fixed_replaces]).
    - Index, IndexRun, IndexLive: examples/index.rs, a coordinator and
      its workers on top of the library.  Index has what a worker computes of a
      file, over the contract [ReadLaws] of files ([inspect_any_chunks]), and the
      bytes that are exchanged ([boot_roundtrip], [messages_roundtrip]); IndexRun
      the coordinator and the workers as a step relation over bounded queues and
      latches, one event for both workers, where every call of the library may fail,
      with the invariant and [outcomes_once]; IndexLive that every run is finite
      and the three ways in which it halts without an answer ([index_finishes]),
      with a run for the event the workers share ([shared_event_hangs]) and one for a
      worker that fails on a slot reserved too long ([reserved_slot_fails_worker]).

    ** Fuel

    A walk of the directory takes the number of slabs; as many as the chain has
    are enough ([idle_fuel]).  The allocator's walks take [area_turns], one turn
    per unit of the area, and never run out of them.  Draining a direction takes
    one more turn than it has entries, closing again more tries than its
    capacity.  A weak exchange takes the list of its spurious failures, and a
    future the polls it is given; the reading of a file takes one turn per byte
    and one more.  The theorems that an operation ends state how many suffice.

    ** Not modelled

    The hardware's weaker memory orders; formatting, panics of formatting, and
    destructors that only drop reference counts; the registration with an executor
    on Unix (src/runtime.rs); typed wrappers that project a modelled operation to
    a Rust type; the set-up of the index example (create, spawn, attach, main),
    which only calls the library in a row; benchmarks and tests.  The kernel
    objects of the operating system are parameters, with their documented behaviour
    as the laws of a class.  A creation that dies while the chain of slabs grows is
    modelled (Dir) but outside [create_crash_recovered], which has a vacant
    entry.  The manifest lists every component with what is left out of it. *)

From stdpp Require Export base tactics option list list_numbers numbers gmap.
From Stdlib Require Export ZArith Lia.

#[global] Open Scope Z_scope.

(** ** Results

    Rust's [Result<T, E>]; [?] is the [let?] notation. *)

Inductive result (T E : Type) : Type :=
| Ok (t : T)
| Err (e : E).
Arguments Ok {T E} t.
Arguments Err {T E} e.

Definition is_ok {T E} (r : result T E) : bool :=
  match r with Ok _ => true | Err _ => false end.

Definition map_err {T E F} (f : E → F) (r : result T E) : result T F :=
  match r with Ok t => Ok t | Err e => Err (f e) end.

Definition ok_or {T E} (o : option T) (e : E) : result T E :=
  match o with Some t => Ok t | None => Err e end.

Definition res_ok {T E} (r : result T E) : option T :=
  match r with Ok t => Some t | Err _ => None end.

Declare Scope evering_scope.
Delimit Scope evering_scope with ev.
#[global] Open Scope evering_scope.

Notation "'let?' x := e 'in' k" :=
  (match e with Ok x => k | Err err => Err err end)
  (at level 10, x name, e at level 100, k at level 200) : evering_scope.

Notation "'let!' x := e 'in' k" :=
  (match e with Some x => k | None => None end)
  (at level 10, x name, e at level 100, k at level 200) : evering_scope.

(** ** Machine integers

    A [w]-bit unsigned integer is a [Z] in [[0, 2^w)]; the target is a 64-bit
    one, so [usize] has 64 bits. *)

Definition usize_bits : Z := 64.
Definition usize_max : Z := 2 ^ usize_bits - 1.
Definition u16_max : Z := 2 ^ 16 - 1.
Definition u32_max : Z := 2 ^ 32 - 1.

(** [header::PARTICIPANT_CAPACITY]: the participants of a region. *)
Definition PARTICIPANT_CAPACITY : Z := usize_bits - 1.

Definition is_word (w x : Z) : Prop := 0 ≤ x < 2 ^ w.

#[export] Instance is_word_dec w x : Decision (is_word w x).
Proof. unfold is_word. apply _. Defined.

Definition wrap (w x : Z) : Z := x mod 2 ^ w.

Definition wrapping_add (x y : Z) : Z := wrap usize_bits (x + y).
Definition wrapping_sub (x y : Z) : Z := wrap usize_bits (x - y).
Definition wrapping_mul (x y : Z) : Z := wrap usize_bits (x * y).

Definition checked_add (x y : Z) : option Z :=
  if x + y <=? usize_max then Some (x + y) else None.
Definition checked_mul (x y : Z) : option Z :=
  if x * y <=? usize_max then Some (x * y) else None.
Definition checked_sub (x y : Z) : option Z :=
  if y <=? x then Some (x - y) else None.
Definition saturating_sub (x y : Z) : Z := Z.max 0 (x - y).

(** [usize::checked_shl]: [None] only for a shift of the whole width; bits
    shifted out are lost. *)
Definition checked_shl (x n : Z) : option Z :=
  if n <? usize_bits then Some (wrap usize_bits (Z.shiftl x n)) else None.

(** [rotate_left] of a [w]-bit word. *)
Definition rotate_left (w x n : Z) : Z :=
  Z.lor (wrap w (Z.shiftl x n)) (Z.shiftr x (w - n)).

(** [!x] on a [w]-bit word. *)
Definition wnot (w x : Z) : Z := 2 ^ w - 1 - x.

Definition is_power_of_two (x : Z) : bool := (0 <? x) && (2 ^ Z.log2 x =? x).

(** [checked_next_power_of_two]. *)
Definition checked_next_power_of_two (x : Z) : option Z :=
  let p := if x <=? 1 then 1 else 2 ^ Z.log2_up x in
  if p <=? usize_max then Some p else None.

(** ** Packed fields

    Every control word of the program is built as [(hi << n) | lo] with
    [lo] below [2^n]. *)

Definition pack (hi n lo : Z) : Z := Z.lor (Z.shiftl hi n) lo.

Create HintDb word.

Lemma pow2_pos n : 0 ≤ n → 0 < 2 ^ n.
Proof. intros. apply Z.pow_pos_nonneg; lia. Qed.
#[export] Hint Resolve pow2_pos : word.

Lemma shiftr_small b n : 0 ≤ n → 0 ≤ b < 2 ^ n → Z.shiftr b n = 0.
Proof. intros. rewrite Z.shiftr_div_pow2 by lia. apply Z.div_small; lia. Qed.

Lemma pack_hi hi n lo : 0 ≤ n → 0 ≤ lo < 2 ^ n → Z.shiftr (pack hi n lo) n = hi.
Proof.
  intros Hn Hlo. unfold pack.
  rewrite Z.shiftr_lor, Z.shiftr_shiftl_l, Z.sub_diag, Z.shiftl_0_r by lia.
  by rewrite shiftr_small, Z.lor_0_r by lia.
Qed.

Lemma pack_lo hi n lo :
  0 ≤ n → 0 ≤ lo < 2 ^ n → Z.land (pack hi n lo) (Z.ones n) = lo.
Proof.
  intros Hn Hlo. unfold pack.
  rewrite Z.land_lor_distr_l, !Z.land_ones, Z.shiftl_mul_pow2 by lia.
  rewrite Z.mod_mul by (pose proof (pow2_pos n Hn); lia).
  by rewrite Z.mod_small, Z.lor_0_l by lia.
Qed.

Lemma pack_add hi n lo : 0 ≤ n → 0 ≤ lo < 2 ^ n → pack hi n lo = hi * 2 ^ n + lo.
Proof.
  intros Hn Hlo.
  rewrite (Z.div_mod (pack hi n lo) (2 ^ n)) by (pose proof (pow2_pos n Hn); lia).
  rewrite <- Z.shiftr_div_pow2, <- Z.land_ones, pack_hi, pack_lo by lia. lia.
Qed.

Lemma pack_word hi n lo w :
  0 ≤ n ≤ w → 0 ≤ lo < 2 ^ n → 0 ≤ hi < 2 ^ (w - n) → is_word w (pack hi n lo).
Proof.
  intros Hn Hlo Hhi. unfold is_word. rewrite pack_add by lia.
  replace w with ((w - n) + n) by lia. rewrite Z.pow_add_r by lia. nia.
Qed.

Lemma unpack_pack x n :
  0 ≤ n → 0 ≤ x → pack (Z.shiftr x n) n (Z.land x (Z.ones n)) = x.
Proof.
  intros Hn Hx. pose proof (pow2_pos n Hn).
  rewrite Z.land_ones by lia.
  rewrite pack_add by (try apply Z.mod_pos_bound; lia).
  rewrite Z.shiftr_div_pow2 by lia.
  pose proof (Z.div_mod x (2 ^ n)). lia.
Qed.

Lemma pack_inj hi lo hi' lo' n :
  0 ≤ n → 0 ≤ lo < 2 ^ n → 0 ≤ lo' < 2 ^ n →
  pack hi n lo = pack hi' n lo' → hi = hi' ∧ lo = lo'.
Proof.
  intros Hn Hlo Hlo' E. split.
  - by rewrite <- (pack_hi hi n lo), E, pack_hi by lia.
  - by rewrite <- (pack_lo hi n lo), E, pack_lo by lia.
Qed.

Lemma wrap_word w x : 0 ≤ w → is_word w (wrap w x).
Proof. intros. apply Z.mod_pos_bound. by apply pow2_pos. Qed.

Lemma wrap_small w x : is_word w x → wrap w x = x.
Proof. apply Z.mod_small. Qed.

#[export] Hint Resolve wrap_word : word.

(** ** Bijections on words *)

Lemma lxor_inj_l a b c : Z.lxor a b = Z.lxor a c → b = c.
Proof.
  intros E. apply (f_equal (Z.lxor a)) in E.
  by rewrite <- !Z.lxor_assoc, Z.lxor_nilpotent, !Z.lxor_0_l in E.
Qed.

Lemma lxor_inj_r a b c : Z.lxor b a = Z.lxor c a → b = c.
Proof. rewrite !(Z.lxor_comm _ a). apply lxor_inj_l. Qed.

Lemma lxor_word w a b : 0 ≤ w → is_word w a → is_word w b → is_word w (Z.lxor a b).
Proof.
  intros Hw [Ha Ha'] [Hb Hb']. split; [by apply Z.lxor_nonneg|].
  destruct (decide (Z.lxor a b = 0)) as [->|Hne]; [by apply pow2_pos|].
  assert (0 < Z.lxor a b) by (assert (0 ≤ Z.lxor a b) by (by apply Z.lxor_nonneg); lia).
  apply Z.log2_lt_pow2; [done|].
  eapply Z.le_lt_trans; [by apply Z.log2_lxor|].
  destruct (decide (a = 0)) as [->|]; destruct (decide (b = 0)) as [->|].
  - by rewrite Z.lxor_0_l in Hne.
  - rewrite Z.max_r by apply Z.log2_nonneg. apply Z.log2_lt_pow2; lia.
  - rewrite Z.max_l by apply Z.log2_nonneg. apply Z.log2_lt_pow2; lia.
  - apply Z.max_lub_lt; apply Z.log2_lt_pow2; lia.
Qed.

Lemma wrap_mul_inj w k ki a b :
  0 ≤ w → wrap w (ki * k) = 1 → is_word w a → is_word w b →
  wrap w (a * k) = wrap w (b * k) → a = b.
Proof.
  intros Hw Hk Ha Hb E.
  assert (Hc : ∀ x, is_word w x → wrap w (wrap w (x * k) * ki) = x).
  { intros x Hx. unfold wrap in *. rewrite Z.mul_mod_idemp_l, <- Z.mul_assoc.
    - rewrite (Z.mul_comm k), <- Z.mul_mod_idemp_r, Hk, Z.mul_1_r.
      + by apply Z.mod_small.
      + pose proof (pow2_pos w Hw); lia.
    - pose proof (pow2_pos w Hw); lia. }
  by rewrite <- (Hc a Ha), E, (Hc b Hb).
Qed.

Lemma rotate_left_split w x n :
  0 ≤ n ≤ w → is_word w x →
  rotate_left w x n = pack (x mod 2 ^ (w - n)) n (x / 2 ^ (w - n)) ∧
  0 ≤ x / 2 ^ (w - n) < 2 ^ n.
Proof.
  intros Hn [Hx Hx']. pose proof (pow2_pos (w - n)). pose proof (pow2_pos n).
  assert (Hw : 2 ^ w = 2 ^ (w - n) * 2 ^ n).
  { rewrite <- Z.pow_add_r by lia. f_equal. lia. }
  split.
  - unfold rotate_left, pack, wrap.
    rewrite Z.shiftr_div_pow2, !Z.shiftl_mul_pow2 by lia.
    f_equal. rewrite Hw. rewrite Z.mul_mod_distr_r by lia. done.
  - split; [apply Z.div_pos; lia|]. apply Z.div_lt_upper_bound; lia.
Qed.

Lemma rotate_left_word w x n :
  0 ≤ n ≤ w → is_word w x → is_word w (rotate_left w x n).
Proof.
  intros Hn Hx. destruct (rotate_left_split w x n Hn Hx) as [-> Hlo].
  apply pack_word; [lia|done|]. apply Z.mod_pos_bound. apply pow2_pos; lia.
Qed.

Lemma rotate_left_inj w x y n :
  0 ≤ n ≤ w → is_word w x → is_word w y →
  rotate_left w x n = rotate_left w y n → x = y.
Proof.
  intros Hn Hx Hy.
  destruct (rotate_left_split w x n Hn Hx) as [-> Hlx].
  destruct (rotate_left_split w y n Hn Hy) as [-> Hly].
  intros [Hm Hd]%pack_inj; [|lia|done|done].
  rewrite (Z.div_mod x (2 ^ (w - n))), (Z.div_mod y (2 ^ (w - n)))
    by (pose proof (pow2_pos (w - n)); lia).
  congruence.
Qed.

#[export] Hint Resolve lxor_word rotate_left_word : word.

(** Decides a statement about every integer of a bounded range by
    evaluation. *)
Definition all_below (n : Z) (f : Z → bool) : bool :=
  forallb f (seqZ 0 n).

Lemma all_below_spec n f i : all_below n f = true → 0 ≤ i < n → f i = true.
Proof.
  unfold all_below. rewrite forallb_forall. intros H Hi. apply H.
  apply list_elem_of_In, elem_of_seqZ. lia.
Qed.

(** ** Automation shared by the components *)

(** Closes "this expression stays in its width" goals. *)
Ltac in_word :=
  repeat match goal with
  | |- is_word _ (Z.lxor _ _) => apply lxor_word
  | |- is_word _ (rotate_left _ _ _) => apply rotate_left_word
  | |- is_word _ (wrap _ _) => apply wrap_word
  | |- is_word _ _ => solve [assumption | eauto with word]
  | |- _ => solve [clear; lia | lia]
  end.

(** Proves a decidable closed statement by evaluation. *)
Ltac by_eval := apply (bool_decide_unpack _); vm_compute; exact I.

(** Turns boolean tests of the code into propositions. *)
Ltac bools :=
  repeat match goal with
  | H : (_ && _) = true |- _ => apply andb_true_iff in H as [? ?]
  | H : (_ || _) = false |- _ => apply orb_false_iff in H as [? ?]
  | H : negb _ = true |- _ => apply negb_true_iff in H
  | H : negb _ = false |- _ => apply negb_false_iff in H
  | H : (_ =? _) = true |- _ => apply Z.eqb_eq in H
  | H : (_ =? _) = false |- _ => apply Z.eqb_neq in H
  | H : (_ <=? _) = true |- _ => apply Z.leb_le in H
  | H : (_ <=? _) = false |- _ => apply Z.leb_gt in H
  | H : (_ <? _) = true |- _ => apply Z.ltb_lt in H
  | H : (_ <? _) = false |- _ => apply Z.ltb_ge in H
  | H : bool_decide _ = true |- _ => apply bool_decide_eq_true in H
  | H : bool_decide _ = false |- _ => apply bool_decide_eq_false in H
  end.

(** Case analysis on the innermost test of the goal. *)
Ltac split_if :=
  match goal with
  | |- context [if ?b then _ else _] =>
    lazymatch b with
    | context [if _ then _ else _] => fail
    | _ => destruct b eqn:?
    end
  end; bools.

(** The same in a hypothesis. *)
Ltac split_if_in H :=
  match type of H with
  | context [if ?b then _ else _] =>
    lazymatch b with
    | context [if _ then _ else _] => fail
    | _ => destruct b eqn:?
    end
  end; bools.
