(* ===== verification/Atomic.v ===== *)
(** * Programs of atomic accesses

    Shared state is only touched through atomics ([core::sync::atomic]) and
    through cells an atomic word protects.  A routine is modelled as a [prog]:
    a tree of atomic actions in program order, each a function from the shared
    state to an answer and a new shared state.  The same [prog] has two
    readings:

    - [run] executes it alone, which is the functional reading of the code;
    - [cstep] interleaves the actions of any number of threads, which is the
      concurrent reading (sequentially consistent interleaving: the memory
      orderings of the code are not modelled below that).

    [wp] is a rely/guarantee predicate on programs with auxiliary state, and
    [rg_sound] says that an invariant it maintains holds in every reachable
    state of every interleaving. *)

From S2P Require Import Prelude.

Inductive prog (S A : Type) : Type :=
| Ret (a : A)
| Act {B : Type} (f : S → B * S) (k : B → prog S A).
Arguments Ret {S A} a.
Arguments Act {S A B} f k.

Fixpoint bind {S A B} (p : prog S A) (k : A → prog S B) : prog S B :=
  match p with
  | Ret a => k a
  | Act f c => Act f (λ b, bind (c b) k)
  end.

Notation "'do' x '<-' p ';' k" := (bind p (λ x, k))
  (at level 10, x binder, p at level 100, k at level 200,
   format "'do'  x  '<-'  p ';' '//' k") : evering_scope.
Notation "'act' x '<-' f ';' k" := (Act f (λ x, k))
  (at level 10, x binder, f at level 100, k at level 200,
   format "'act'  x  '<-'  f ';' '//' k") : evering_scope.
Notation "'act_' f ';' k" := (Act f (λ _, k))
  (at level 10, f at level 100, k at level 200,
   format "'act_'  f ';' '//' k") : evering_scope.

(** ** Alone *)

Fixpoint run {S A} (p : prog S A) (s : S) : A * S :=
  match p with
  | Ret a => (a, s)
  | Act f k => let '(b, s') := f s in run (k b) s'
  end.

Lemma run_bind {S A B} (p : prog S A) (k : A → prog S B) s :
  run (bind p k) s = let '(a, s') := run p s in run (k a) s'.
Proof.
  revert s. induction p as [a|C f c IH]; intros s; [done|].
  simpl. destruct (f s) as [b s']. apply IH.
Qed.

Lemma run_act {S A B} (f : S → B * S) (k : B → prog S A) s : run (Act f k) s = run (k (f s).1) (f s).2.
Proof. cbn [run]. by destruct (f s). Qed.

(** ** Programs on a part of a state *)

Fixpoint on_part {S T A} (get : S → T) (put : T → S → S) (p : prog T A) : prog S A :=
  match p with
  | Ret a => Ret a
  | Act f k => Act (λ s, let '(b, t) := f (get s) in (b, put t s)) (λ b, on_part get put (k b))
  end.

Lemma run_on_part {S T A} (get : S → T) (put : T → S → S) (p : prog T A) s :
  (∀ t s, get (put t s) = t) → (∀ s, put (get s) s = s) → (∀ t t' s, put t (put t' s) = put t s) →
  run (on_part get put p) s = ((run p (get s)).1, put (run p (get s)).2 s).
Proof.
  intros Hgp Hpg Hpp. revert s. induction p as [a|B f k IH]; intros s; cbn [on_part run fst snd]; [by rewrite Hpg|].
  destruct (f (get s)) as [b t]. rewrite IH, Hgp. by rewrite Hpp.
Qed.

(** ** Crashes *)

(** The shared state when the caller dies after [n] actions. *)
Fixpoint crash {S A} (n : nat) (p : prog S A) (s : S) : S :=
  match n, p with
  | Datatypes.S n, Act f k => crash n (k (f s).1) (f s).2
  | _, _ => s
  end.

(** Every state [p] goes through alone, the first and the last included. *)
Fixpoint always {S A} (p : prog S A) (P : S → Prop) (s : S) : Prop :=
  match p with
  | Ret _ => P s
  | Act f k => P s ∧ always (k (f s).1) P (f s).2
  end.

Lemma always_crash {S A} (p : prog S A) P s n : always p P s → P (crash n p s).
Proof.
  revert p s. induction n as [|n IH]; intros [a|B f k] s H; simpl in *; [done|by destruct H|done|].
  apply IH. by destruct H.
Qed.

Lemma always_bind {S A B} (p : prog S A) (k : A → prog S B) P s :
  always p P s → always (k (run p s).1) P (run p s).2 → always (bind p k) P s.
Proof.
  revert s. induction p as [a|C f c IH]; intros s Hp Hk; simpl in *; [done|].
  destruct Hp as [? Hp]. split; [done|]. apply IH; [done|]. by destruct (f s).
Qed.

Lemma always_end {S A} (p : prog S A) P s : always p P s → P (run p s).2.
Proof.
  revert s. induction p as [a|C f c IH]; intros s H; simpl in *; [done|].
  destruct H as [_ H]. apply IH in H. by destruct (f s).
Qed.

(** Programs that only read. *)
Inductive reads {S A} : prog S A → Prop :=
| reads_ret a : reads (Ret a)
| reads_act B (f : S → B * S) k : (∀ s, (f s).2 = s) → (∀ b, reads (k b)) → reads (Act f k).

Lemma reads_bind {S A B} (p : prog S A) (k : A → prog S B) :
  reads p → (∀ a, reads (k a)) → reads (bind p k).
Proof. intros Hp Hk. induction Hp as [|C f c Hf _ IH]; simpl; [done|by constructor]. Qed.

Lemma reads_run {S A} (p : prog S A) s : reads p → (run p s).2 = s.
Proof.
  intros Hp. revert s. induction Hp as [|C f c Hf _ IH]; intros s; [done|]. rewrite run_act, Hf. apply IH.
Qed.

Lemma reads_always {S A} (p : prog S A) (P : S → Prop) s : reads p → P s → always p P s.
Proof.
  intros Hp. revert s. induction Hp as [|C f c Hf _ IH]; intros s Hs; simpl; [done|].
  split; [done|]. rewrite Hf. by apply IH.
Qed.

(** ** Interleaved *)

Section Interleaving.
Context {S A : Type}.

(** A shared state and the rest of each thread's program. *)
Definition cfg : Type := S * list (prog S A).

Inductive cstep : nat → cfg → cfg → Prop :=
| cstep_act t s ps B (f : S → B * S) k :
    ps !! t = Some (Act f k) →
    cstep t (s, ps) ((f s).2, <[t := k (f s).1]> ps).

Inductive creach (c : cfg) : cfg → Prop :=
| creach_refl : creach c c
| creach_step c1 c2 t : creach c c1 → cstep t c1 c2 → creach c c2.

(** One scheduled step as a function, so that a schedule evaluates. *)
Definition sched_step (t : nat) (c : cfg) : cfg :=
  match c.2 !! t with
  | Some (Act f k) => ((f c.1).2, <[t := k (f c.1).1]> c.2)
  | _ => c
  end.

Definition sched (ts : list nat) (c : cfg) : cfg :=
  fold_left (λ c t, sched_step t c) ts c.

Lemma sched_reach ts c : creach c (sched ts c).
Proof.
  assert (H : ∀ c', creach c c' → creach c (sched ts c')).
  { unfold sched. induction ts as [|t ts IH]; intros c' Hc; [done|].
    simpl. apply IH. unfold sched_step.
    destruct c' as [s ps]. simpl. destruct (ps !! t) as [[a|B f k]|] eqn:E; [done| |done].
    eapply creach_step; [done|]. by constructor. }
  apply H. constructor.
Qed.

(** ** Rely and guarantee *)

Section RG.
(** [inv g s]: the auxiliary state [g] describes [s];
    [rely t g g']: what thread [t] lets the others do to [g]. *)
Context {G : Type} (inv : G → S → Prop) (rely : nat → G → G → Prop).
Context (rely_refl : ∀ t g, rely t g g).
Context (rely_trans : ∀ t g1 g2 g3, rely t g1 g2 → rely t g2 g3 → rely t g1 g3).

(** [wp t p Q g]: from auxiliary state [g], each action of [p] by [t] keeps
    the invariant, respects what every other thread relies on, and [p] ends
    with [Q], whatever the others do in between. *)
Fixpoint wp (t : nat) {X} (p : prog S X) (Q : X → G → Prop) (g : G) : Prop :=
  match p with
  | Ret a => Q a g
  | Act f k =>
    ∀ g1 s, rely t g g1 → inv g1 s →
      ∃ g2, inv g2 (f s).2 ∧ (∀ t', t' ≠ t → rely t' g1 g2) ∧
        wp t (k (f s).1) Q g2
  end.

Lemma wp_ret t {X} (a : X) Q g : Q a g → wp t (Ret a) Q g.
Proof using. done. Qed.

Definition stable (t : nat) (P : G → Prop) : Prop :=
  ∀ g g', rely t g g' → P g → P g'.

Lemma wp_stable {X} t (p : prog S X) Q :
  (∀ a, stable t (Q a)) → stable t (wp t p Q).
Proof using rely_trans.
  intros HQ. destruct p as [a|B f k]; intros g g' HR; simpl; [by apply HQ|].
  intros Hwp g1 s HR1 Hinv. apply Hwp; [|done]. eauto.
Qed.

Lemma wp_bind {X Y} t (p : prog S X) (k : X → prog S Y) Q g :
  wp t p (λ a, wp t (k a) Q) g → wp t (bind p k) Q g.
Proof using.
  revert g. induction p as [a|B f c IH]; intros g; simpl; [done|].
  intros Hwp g1 s HR Hinv. destruct (Hwp g1 s HR Hinv) as (g2 & ? & ? & ?). eauto.
Qed.

Lemma wp_mono {X} t (p : prog S X) (Q Q' : X → G → Prop) g :
  (∀ a g', Q a g' → Q' a g') → wp t p Q g → wp t p Q' g.
Proof using.
  intros HQ. revert g. induction p as [a|B f c IH]; intros g; simpl; [eauto|].
  intros Hwp g1 s HR Hinv. destruct (Hwp g1 s HR Hinv) as (g2 & ? & ? & ?). eauto.
Qed.

(** A fact that survives what every thread may see is carried along. *)
Lemma wp_frame {X} t (p : prog S X) (Q : X → G → Prop) (R : G → Prop) g :
  (∀ t', stable t' R) → R g → wp t p Q g → wp t p (λ a g, Q a g ∧ R g) g.
Proof using.
  intros HR. revert g. induction p as [a|B f c IH]; intros g Hg; simpl; [by split|].
  intros Hwp g1 s Hr Hinv. destruct (Hwp g1 s Hr Hinv) as (g2 & ? & Hlook & ?).
  exists g2. split_and!; [done|done|]. apply IH; [|done].
  apply (HR (Datatypes.S t) g1); [apply Hlook; lia|]. by apply (HR t g).
Qed.

(** Sequencing by a specification of the first part. *)
Lemma wp_seq {X Y} t (p : prog S X) (k : X → prog S Y) Q Q' g :
  wp t p Q g → (∀ a g', Q a g' → wp t (k a) Q' g') → wp t (bind p k) Q' g.
Proof using. intros Hp Hk. apply wp_bind. by eapply wp_mono. Qed.

(** Sequencing on a part of the state. *)
Lemma wp_on_part_seq {T X Y} t (get : S → T) put (p : prog T X) (k : X → prog T Y) Q Q' g :
  wp t (on_part get put p) Q g → (∀ a g', Q a g' → wp t (on_part get put (k a)) Q' g') → wp t (on_part get put (bind p k)) Q' g.
Proof using.
  intros Hp Hk. revert g Hp. induction p as [a|B f c IH]; intros g Hp; [by apply Hk|]. cbn [bind on_part] in *.
  intros g1 s HR HI. destruct (Hp g1 s HR HI) as (g2 & ? & ? & Hp2). exists g2. split_and!; [done|done|]. by apply IH.
Qed.

(** Every thread of a configuration meets its [wp], under one auxiliary state
    that describes the shared state. *)
Definition rg_ok (Q : nat → A → G → Prop) (g : G) (c : cfg) : Prop :=
  inv g c.1 ∧ ∀ t p, c.2 !! t = Some p → wp t p (Q t) g.

Lemma rg_step Q g c c' t :
  (∀ t a, stable t (Q t a)) → rg_ok Q g c → cstep t c c' →
  ∃ g', rg_ok Q g' c' ∧ ∀ t', t' ≠ t → rely t' g g'.
Proof using rely_refl rely_trans.
  intros HQ [Hinv Hwp] Hstep. destruct Hstep as [t s ps B f k Ht]. simpl in *.
  destruct (Hwp t _ Ht g s (rely_refl t g) Hinv) as (g2 & Hinv2 & Hothers & Hk).
  exists g2. split; [|done]. split; [done|]. simpl. intros t' p' Hp'.
  destruct (decide (t' = t)) as [->|Hne].
  - rewrite list_lookup_insert_eq in Hp' by (by eapply lookup_lt_Some).
    by injection Hp' as <-.
  - rewrite list_lookup_insert_ne in Hp' by done.
    eapply wp_stable; [apply HQ|by apply Hothers|]. by apply Hwp.
Qed.

(** A number [t0] no thread has is an onlooker: it sees what it may rely on. *)
Lemma rg_sound Q g c c' :
  (∀ t a, stable t (Q t a)) → rg_ok Q g c → creach c c' →
  ∃ g', rg_ok Q g' c' ∧ ∀ t0, c.2 !! t0 = None → rely t0 g g' ∧ c'.2 !! t0 = None.
Proof using rely_refl rely_trans.
  intros HQ Hok Hreach.
  induction Hreach as [|c1 c2 t Hreach (g1 & Hok1 & Hlook) Hstep]; [eauto|].
  destruct (rg_step _ _ _ _ _ HQ Hok1 Hstep) as (g2 & Hok2 & HR2).
  exists g2. split; [done|]. intros t0 Ht0. destruct (Hlook t0 Ht0) as [HR Hn].
  destruct Hstep as [t s ps B f k Ht]. simpl in *. assert (t0 ≠ t) by congruence.
  split; [by eapply rely_trans; [|apply HR2]|]. by rewrite list_lookup_insert_ne.
Qed.
End RG.
End Interleaving.

Arguments cfg : clear implicits.

Lemma creach_length {S A} (c c' : cfg S A) : creach c c' → length c'.2 = length c.2.
Proof. induction 1 as [|c1 c2 t _ IH Hs]; [done|]. destruct Hs. cbn in *. by rewrite length_insert. Qed.

#[global] Arguments wp : simpl never.

(** ** Reliance derived from guarantees

    When each thread's actions are described by a step relation on the
    auxiliary state, a thread relies on the steps of the others. *)

Section Guarantee.
Context {S G : Type} (inv : G → S → Prop) (guar : nat → G → G → Prop).
Context (guar_refl : ∀ t g, guar t g g).

Definition rely_of (t : nat) : G → G → Prop := rtc (λ g g', ∃ t', t' ≠ t ∧ guar t' g g').

Lemma rely_of_refl t g : rely_of t g g.
Proof using. apply rtc_refl. Qed.

Lemma rely_of_trans t g1 g2 g3 : rely_of t g1 g2 → rely_of t g2 g3 → rely_of t g1 g3.
Proof using. unfold rely_of. intros. by etrans. Qed.

Lemma rely_of_guar t t' g g' : t' ≠ t → guar t' g g' → rely_of t g g'.
Proof using. intros. apply rtc_once. eauto. Qed.

Lemma stable_of t (P : G → Prop) :
  (∀ t' g g', t' ≠ t → guar t' g g' → P g → P g') → stable rely_of t P.
Proof using.
  intros HP g g' HR. induction HR as [|g g1 g2 (t' & Ht & Hg) HR IH]; eauto.
Qed.

Lemma stable_conj t (P Q : G → Prop) :
  stable rely_of t P → stable rely_of t Q → stable rely_of t (λ g, P g ∧ Q g).
Proof using. intros HP HQ g g' HR [? ?]. split; [by eapply HP|by eapply HQ]. Qed.

(** One action under a stable assertion. *)
Lemma wp_act (P : G → Prop) t A B (f : S → B * S) (k : B → prog S A) Q g :
  P g → stable rely_of t P →
  (∀ g1 s, P g1 → inv g1 s →
    ∃ g2, inv g2 (f s).2 ∧ guar t g1 g2 ∧ wp inv rely_of t (k (f s).1) Q g2) →
  wp inv rely_of t (Act f k) Q g.
Proof using.
  intros HP Hst Hk g1 s HR HI.
  destruct (Hk g1 s) as (g2 & ? & Hg & ?); [by eapply Hst|done|].
  exists g2. split_and!; [done| |done]. intros t' Ht. by eapply rely_of_guar.
Qed.

(** One action that only reads. *)
Lemma wp_read (P : G → Prop) t A B (f : S → B * S) (k : B → prog S A) Q g :
  P g → stable rely_of t P → (∀ s, (f s).2 = s) →
  (∀ g1 s, P g1 → inv g1 s → wp inv rely_of t (k (f s).1) Q g1) →
  wp inv rely_of t (Act f k) Q g.
Proof using guar_refl.
  intros HP Hst Hf Hk. apply (wp_act P); [done|done|].
  intros g1 s HP1 HI. exists g1. rewrite Hf. split_and!; [done|apply guar_refl|by apply Hk].
Qed.
End Guarantee.
