(* ===== verification/Bytes.v ===== *)
(** * Byte strings

    [to_le_bytes] and [from_le_bytes] of the fixed-width integers, and the
    [char]-free byte strings of the wire formats: a byte is a [Z] in
    [[0, 256)]; which of them are UTF-8; and the bytes of a storage beside the words
    that say who may touch them. *)

From S2P Require Import Prelude Atomic.

(** [x.to_le_bytes()] of an [n]-byte integer. *)
Fixpoint to_le_bytes (n : nat) (x : Z) : list Z :=
  match n with
  | O => []
  | S n => x mod 256 :: to_le_bytes n (x / 256)
  end.

(** [from_le_bytes] *)
Fixpoint from_le_bytes (bs : list Z) : Z :=
  match bs with
  | [] => 0
  | b :: bs => b + 256 * from_le_bytes bs
  end.

Definition is_byte (b : Z) : Prop := 0 ≤ b < 256.

#[export] Instance is_byte_dec b : Decision (is_byte b).
Proof. unfold is_byte. apply _. Defined.

(** ** Facts *)

Lemma length_to_le_bytes n x : length (to_le_bytes n x) = n.
Proof. revert x. induction n as [|n IH]; intros x; simpl; [done|]. by rewrite IH. Qed.

Lemma to_le_bytes_bytes n x : Forall is_byte (to_le_bytes n x).
Proof.
  revert x. induction n as [|n IH]; intros x; simpl; constructor; [|apply IH].
  by apply Z.mod_pos_bound.
Qed.

Lemma bytes_pow n : 2 ^ (8 * Z.of_nat (S n)) = 256 * 2 ^ (8 * Z.of_nat n).
Proof.
  replace (8 * Z.of_nat (S n)) with (8 + 8 * Z.of_nat n) by lia.
  by rewrite Z.pow_add_r by lia.
Qed.

Lemma from_to_le_bytes n x : is_word (8 * Z.of_nat n) x → from_le_bytes (to_le_bytes n x) = x.
Proof.
  revert x. induction n as [|n IH]; intros x Hx; simpl.
  - unfold is_word in Hx. simpl in Hx. lia.
  - unfold is_word in *. rewrite bytes_pow in Hx. rewrite IH.
    + pose proof (Z.div_mod x 256). lia.
    + split; [apply Z.div_pos; lia|]. apply Z.div_lt_upper_bound; lia.
Qed.

Lemma to_from_le_bytes bs : Forall is_byte bs → to_le_bytes (length bs) (from_le_bytes bs) = bs.
Proof.
  induction 1 as [|b bs Hb Hbs IH]; simpl; [done|]. unfold is_byte in Hb.
  replace (b + 256 * from_le_bytes bs) with (b + from_le_bytes bs * 256) by lia.
  rewrite Z.mod_add, Z.mod_small, Z.div_add, Z.div_small, Z.add_0_l by lia. by rewrite IH.
Qed.

Lemma from_le_bytes_word bs : Forall is_byte bs → is_word (8 * Z.of_nat (length bs)) (from_le_bytes bs).
Proof.
  induction 1 as [|b bs Hb Hbs IH]; simpl; [done|]. unfold is_byte, is_word in *.

  assert (E := bytes_pow (length bs)). simpl in E. rewrite E. lia.
Qed.

Lemma to_le_bytes_inj n x y :
  is_word (8 * Z.of_nat n) x → is_word (8 * Z.of_nat n) y → to_le_bytes n x = to_le_bytes n y → x = y.
Proof. intros Hx Hy E. by rewrite <- (from_to_le_bytes n x), E, from_to_le_bytes. Qed.

(** ** Text *)

(** The bytes that continue a character. *)
Definition continues (b : Z) : bool := (0x80 <=? b) && (b <=? 0xBF).

Definition within (lo hi b : Z) : bool := (lo <=? b) && (b <=? hi).

(** The second byte of a character of three and of four bytes. *)
Definition second_of_three (b0 b1 : Z) : bool :=
  (b0 =? 0xE0) && within 0xA0 0xBF b1 || within 0xE1 0xEC b0 && continues b1 ||
  (b0 =? 0xED) && within 0x80 0x9F b1 || within 0xEE 0xEF b0 && continues b1.

Definition second_of_four (b0 b1 : Z) : bool :=
  (b0 =? 0xF0) && within 0x90 0xBF b1 || within 0xF1 0xF3 b0 && continues b1 ||
  (b0 =? 0xF4) && within 0x80 0x8F b1.

(** Whether [core::str::from_utf8] accepts the bytes. *)
Fixpoint utf8 (bs : list Z) : bool :=
  match bs with
  | [] => true
  | b0 :: r0 =>
    if b0 <? 0x80 then utf8 r0 else
    match r0 with
    | [] => false
    | b1 :: r1 =>
      if within 0xC2 0xDF b0 then continues b1 && utf8 r1 else
      match r1 with
      | [] => false
      | b2 :: r2 =>
        if within 0xE0 0xEF b0 then second_of_three b0 b1 && continues b2 && utf8 r2 else
        match r2 with
        | [] => false
        | b3 :: r3 => second_of_four b0 b1 && continues b2 && continues b3 && utf8 r3
        end
      end
    end
  end.

(** ** Bytes beside other shared state

    The bytes of a storage by their offset, next to the words [W] that say who may
    touch them; every byte is read and written by an action of its own. *)

Definition byte_at (m : gmap Z Z) (at_ : Z) : Z := default 0 (m !! at_).
Definition load_byte {W} (at_ : Z) (s : (W * gmap Z Z)) : Z * (W * gmap Z Z) := (byte_at s.2 at_, s).
Definition store_byte {W} (at_ v : Z) (s : (W * gmap Z Z)) : unit * (W * gmap Z Z) := (tt, (s.1, <[at_ := v]> s.2)).

Fixpoint write_bytes {W} (at_ : Z) (bs : list Z) : prog (W * gmap Z Z) unit :=
  match bs with
  | [] => Ret tt
  | b :: bs => act_ (store_byte at_ b); write_bytes (at_ + 1) bs
  end.

Fixpoint read_bytes {W} (at_ : Z) (n : nat) : prog (W * gmap Z Z) (list Z) :=
  match n with
  | O => Ret []
  | S n => act b <- load_byte at_; do bs <- read_bytes (at_ + 1) n; Ret (b :: bs)
  end.

(** ** Facts about buffers *)

Lemma inserts_all {A} (bs cs : list A) : length bs = length cs → list_inserts 0 bs cs = bs.
Proof. intros E. rewrite <- (app_nil_r cs), list_inserts_0_r, app_nil_r by done. done. Qed.

Lemma inserts_prefix {A} (bs cs : list A) : (length bs ≤ length cs)%nat → take (length bs) (list_inserts 0 bs cs) = bs.
Proof.
  intros E. rewrite <- (take_drop (length bs) cs), list_inserts_0_r by (rewrite length_take; lia). by rewrite take_app_length.
Qed.

(** Reading a list by index gives the list. *)
Lemma index_all {A} `{Inhabited A} (values : list A) : (λ i, values !!! Z.to_nat i) <$> seqZ 0 (Z.of_nat (length values)) = values.
Proof.
  apply list_eq. intros i. rewrite list_lookup_fmap. destruct (decide (i < length values)%nat) as [Hi|Hi].
  - rewrite lookup_seqZ_lt by lia. cbn [fmap option_fmap option_map]. replace (Z.to_nat (0 + Z.of_nat i)) with i by lia. symmetry. by apply list_lookup_lookup_total_lt.
  - rewrite lookup_seqZ_ge, lookup_ge_None_2 by lia. done.
Qed.

Lemma concat_length {A} (n : Z) (values : list (list A)) : (∀ v, v ∈ values → Z.of_nat (length v) = n) → Z.of_nat (length (concat values)) = n * Z.of_nat (length values).
Proof.
  intros Hv. induction values as [|v values IH]; cbn [concat length]; [lia|]. rewrite length_app, Nat2Z.inj_add, IH by (intros; apply Hv, elem_of_cons; by right).
  rewrite (Hv v) by (apply elem_of_cons; by left). lia.
Qed.
