(* ===== verification/Schema.v ===== *)
(** * Identities of shared representations

    Models [src/src/schema.rs] and [src/src/msg.rs]: region and layout
    identities, the FNV-1a hash that names a schema, schema composition, and
    the runtime type identifiers derived from a protocol and a body schema.
    The theorems show that composition keeps every change of a nested schema
    visible in the enclosing one, and that the schemas the repository itself
    declares do not collide. *)

From Stdlib Require Import String Ascii.
From S2P Require Import Prelude.

(** ** Data *)

Record RegionId := mkRegionId { high : Z; low : Z }.

Record LayoutId := mkLayoutId { layout_region : RegionId; layout_offset : Z }.

Inductive RegionAdmission :=
| Create (id : RegionId)
| Expect (id : RegionId)
| Discover.

Record SchemaKey := mkSchemaKey { schema_id_of : Z; revision : Z }.

Record LayoutContext := mkLayoutContext {
  ctx_region : RegionId;
  ctx_offset : Z;
  allow_init : bool;
}.

#[export] Instance RegionId_eq_dec : EqDecision RegionId.
Proof. solve_decision. Defined.
#[export] Instance LayoutId_eq_dec : EqDecision LayoutId.
Proof. solve_decision. Defined.
#[export] Instance SchemaKey_eq_dec : EqDecision SchemaKey.
Proof. solve_decision. Defined.

(** A key whose fields are a [u64] and a [u32]. *)
Definition key_wf (k : SchemaKey) : Prop :=
  is_word 64 (schema_id_of k) ∧ is_word 32 (revision k).

#[export] Instance key_wf_dec k : Decision (key_wf k).
Proof. unfold key_wf. apply _. Defined.

(** ** Operations *)

Definition bytes_of (name : string) : list Z :=
  (λ c, Z.of_N (N_of_ascii c)) <$> list_ascii_of_string name.

(** One turn of the hashing loop. *)
Definition hash_byte (hash byte : Z) : Z :=
  wrap 64 (Z.lxor hash byte * 0x100000001b3).

Definition schema_id (name : string) : Z :=
  fold_left hash_byte (bytes_of name) 0xcbf29ce484222325.

Definition compose_schema (domain part : SchemaKey) : SchemaKey :=
  mkSchemaKey
    (wrap 64
       (Z.lxor
          (Z.lxor (schema_id_of domain) (rotate_left 64 (schema_id_of part) 17))
          (rotate_left 64 (revision part) 41)
        * 0x9E3779B97F4A7C15))
    (Z.lxor (wrap 32 (rotate_left 32 (revision domain) 7 * 0x9E3779B9))
       (revision part)).

Definition type_id_for (protocol body : SchemaKey) : Z :=
  wrap 64
    (Z.lxor
       (Z.lxor
          (Z.lxor
             (Z.lxor (schema_id "evering.type")
                (rotate_left 64 (schema_id_of protocol) 7))
             (rotate_left 64 (revision protocol) 19))
          (rotate_left 64 (schema_id_of body) 31))
       (rotate_left 64 (revision body) 47)
     * 0x9E3779B97F4A7C15).

(** [Encoded::SCHEMA] and [Encoded::id]. *)
Definition Encoded_SCHEMA : SchemaKey :=
  mkSchemaKey (schema_id "evering.encoded") 2.

Definition Encoded_id (schema body : SchemaKey) : Z :=
  type_id_for (compose_schema Encoded_SCHEMA schema) body.

(** The primitive representations of the [repr!] table. *)
Definition repr_names : list string :=
  ["core.u8"; "core.u16"; "core.u32"; "core.u64"; "core.f32"; "core.f64";
   "core.i8"; "core.i16"; "core.i32"; "core.i64"; "core.bool"; "core.unit"]%string.

Definition repr_schema (name : string) : SchemaKey :=
  mkSchemaKey (schema_id name) 1.

(** [<[T] as Repr>::SCHEMA]. *)
Definition slice_schema (element : SchemaKey) : SchemaKey :=
  compose_schema (mkSchemaKey (schema_id "evering.slice") 1) element.

(** ** Properties *)

Lemma hash_byte_word h b : is_word 64 (hash_byte h b).
Proof. by apply wrap_word. Qed.

Lemma schema_id_word name : is_word 64 (schema_id name).
Proof.
  unfold schema_id. induction (bytes_of name) as [|b bs IH] using rev_ind.
  - vm_compute. split; [discriminate|done].
  - rewrite fold_left_app. apply hash_byte_word.
Qed.

Lemma word_32_64 x : is_word 32 x → is_word 64 x.
Proof. unfold is_word. intros [? ?]. split; [done|]. assert (2^32 < 2^64) by done. lia. Qed.

#[export] Hint Resolve schema_id_word word_32_64 : word.

#[local] Opaque schema_id rotate_left wrap.

Lemma mul_golden_inj a b :
  is_word 64 a → is_word 64 b →
  wrap 64 (a * 0x9E3779B97F4A7C15) = wrap 64 (b * 0x9E3779B97F4A7C15) → a = b.
Proof. apply (wrap_mul_inj 64 _ 0xF1DE83E19937733D); done. Qed.

Lemma rotl64_inj x y n :
  0 ≤ n ≤ 64 → is_word 64 x → is_word 64 y →
  rotate_left 64 x n = rotate_left 64 y n → x = y.
Proof. apply rotate_left_inj. Qed.

(** The composition of a schema domain with a nested part loses nothing of
    the part: two parts that differ in their identifier or in their revision
    never compose to the same key under one domain, so a nested incompatible
    change always changes the enclosing identity. *)
Theorem compose_schema_injective (domain part part' : SchemaKey)
    (Hd : key_wf domain) (Hp : key_wf part) (Hp' : key_wf part') :
  compose_schema domain part = compose_schema domain part' → part = part'.
Proof.
  destruct Hd as [Hdi Hdr], Hp as [Hi Hr], Hp' as [Hi' Hr'].
  intros E. pose proof (f_equal revision E) as Er. apply lxor_inj_l in Er.
  pose proof (f_equal schema_id_of E) as Ei. simpl in Ei.
  apply mul_golden_inj in Ei; [|in_word..].
  rewrite Er in Ei. apply lxor_inj_r, lxor_inj_l, rotl64_inj in Ei; [|lia|done..].
  destruct part, part'; simpl in *; congruence.
Qed.

Lemma compose_schema_injective_witness :
  compose_schema (mkSchemaKey 1 1) (mkSchemaKey 2 1)
    ≠ compose_schema (mkSchemaKey 1 1) (mkSchemaKey 2 2).
Proof.
  intros E.
  assert (H : mkSchemaKey 2 1 = mkSchemaKey 2 2).
  { apply (compose_schema_injective (mkSchemaKey 1 1) _ (mkSchemaKey 2 2)); [by_eval..|exact E]. }
  discriminate H.
Defined.

(** Under one protocol, bodies of one revision with different schema
    identifiers, and bodies with one identifier and different revisions, get
    different runtime type identifiers; the same holds of the protocol, so a
    token admitted under the wrong protocol or body is told apart. *)
Theorem type_id_for_separates (protocol protocol' body body' : SchemaKey)
    (Hp : key_wf protocol) (Hp' : key_wf protocol')
    (Hb : key_wf body) (Hb' : key_wf body') :
  type_id_for protocol body = type_id_for protocol' body' →
  (protocol = protocol' → revision body = revision body' → body = body') ∧
  (protocol = protocol' → schema_id_of body = schema_id_of body' → body = body') ∧
  (body = body' → revision protocol = revision protocol' → protocol = protocol') ∧
  (body = body' → schema_id_of protocol = schema_id_of protocol' → protocol = protocol').
Proof.
  destruct Hp as [Hpi Hpr], Hp' as [Hpi' Hpr'], Hb as [Hbi Hbr], Hb' as [Hbi' Hbr'].
  intros E. apply mul_golden_inj in E; [|in_word..].
  destruct protocol as [pi pr], protocol' as [pi' pr'], body as [bi br], body' as [bi' br'].
  simpl in *.
  repeat split; intros [= ??] ?; subst; f_equal.
  - by apply lxor_inj_r, lxor_inj_l, rotl64_inj in E; [|lia|in_word..].
  - apply lxor_inj_l, rotl64_inj in E; [done|lia|in_word..].
  - by apply lxor_inj_r, lxor_inj_r, lxor_inj_r, lxor_inj_l, rotl64_inj in E; [|lia|in_word..].
  - apply lxor_inj_r, lxor_inj_r, lxor_inj_l, rotl64_inj in E; [done|lia|in_word..].
Qed.

Lemma type_id_for_separates_witness :
  type_id_for (mkSchemaKey 0x100 1) (mkSchemaKey 0x300 1)
    ≠ type_id_for (mkSchemaKey 0x200 1) (mkSchemaKey 0x300 1).
Proof.
  intros E.
  destruct (type_id_for_separates (mkSchemaKey 0x100 1) (mkSchemaKey 0x200 1)
    (mkSchemaKey 0x300 1) (mkSchemaKey 0x300 1)) as (_ & _ & H & _); [by_eval..|exact E|].
  discriminate (H eq_refl eq_refl).
Defined.

(** The names every [SharedSchema] and [Repr] of the repository hashes. *)
Definition declared_names : list string :=
  repr_names ++
  ["evering.root"; "evering.directory"; "evering.pool"; "evering.pool.info";
   "evering.talc"; "evering.talc.info"; "evering.talc.meta"; "evering.duplex";
   "evering.duplex.info"; "evering.transfer"; "evering.unit"; "evering.slice";
   "evering.encoded"; "evering.type"]%string.

(** The schema identifiers the repository declares are pairwise distinct,
    and so are the type identifiers that the unit protocol gives to the
    primitive bodies and to slices of them. *)
Theorem declared_schemas_distinct :
  NoDup (schema_id <$> declared_names) ∧
  NoDup (type_id_for (repr_schema "core.unit") <$>
    ((repr_schema <$> repr_names) ++ (slice_schema ∘ repr_schema <$> repr_names))).
Proof. split; by_eval. Qed.
