(* ===== verification/Alloc.v ===== *)
(** * Memory layouts and alignment arithmetic

    [core::alloc::Layout] as the program uses it, and the bit and alignment
    helpers of [src/src/lib.rs] ([mod numeric]). *)

From S2P Require Import Prelude.

(** ** [core::alloc::Layout] *)

Record Layout := mkLayout { size : Z; align : Z }.

#[export] Instance Layout_eq_dec : EqDecision Layout.
Proof. solve_decision. Defined.

Definition isize_max : Z := 2 ^ (usize_bits - 1) - 1.

(** [Layout::from_size_align] *)
Definition from_size_align (sz al : Z) : option Layout :=
  if is_power_of_two al && (sz <=? isize_max + 1 - al) then Some (mkLayout sz al) else None.

(** [size] rounded up to a multiple of [al]. *)
Definition round_up (sz al : Z) : Z := (sz + al - 1) / al * al.

(** [Layout::array::<T>(n)] for a [T] of layout [elem]. *)
Definition layout_array (elem : Layout) (n : Z) : option Layout :=
  if size elem * n <=? isize_max + 1 - align elem then Some (mkLayout (size elem * n) (align elem))
  else None.

(** [Layout::extend]: the joint layout and the offset of [next] in it. *)
Definition extend (self next : Layout) : option (Layout * Z) :=
  let offset := round_up (size self) (align next) in
  match from_size_align (offset + size next) (Z.max (align self) (align next)) with
  | Some l => Some (l, offset)
  | None => None
  end.

(** [Layout::pad_to_align] *)
Definition pad_to_align (l : Layout) : Layout := mkLayout (round_up (size l) (align l)) (align l).

(** A value of type [Layout]. *)
Definition layout_wf (l : Layout) : Prop :=
  is_power_of_two (align l) = true ∧ 0 ≤ size l ≤ isize_max + 1 - align l.

#[export] Instance layout_wf_dec l : Decision (layout_wf l).
Proof. unfold layout_wf. apply _. Defined.

(** ** Alignment of addresses and offsets *)

Definition align_down (x al : Z) : Z := Z.land x (wnot usize_bits (al - 1)).

Definition align_up (x al : Z) : Z := Z.land (x + al - 1) (wnot usize_bits (al - 1)).

(** [numeric::bit] *)
Definition bit_check (word bit : Z) : bool := negb (Z.land (Z.shiftr word bit) 1 =? 0).

Definition bit_flip (word bit : Z) : Z := Z.lxor word (Z.shiftl 1 bit).

(** ** Facts *)

Lemma pow2_form al : is_power_of_two al = true → ∃ n, 0 ≤ n ∧ al = 2 ^ n.
Proof.
  unfold is_power_of_two. intros H. bools. exists (Z.log2 al). split; [apply Z.log2_nonneg|done].
Qed.

Lemma pow2_is_power n : 0 ≤ n → is_power_of_two (2 ^ n) = true.
Proof.
  intros Hn. unfold is_power_of_two. rewrite Z.log2_pow2, Z.eqb_refl by done.
  destruct (Z.ltb_spec 0 (2 ^ n)); [done|]. pose proof (pow2_pos n Hn). lia.
Qed.

Lemma power_pos al : is_power_of_two al = true → 0 < al.
Proof. intros (n & ? & ->)%pow2_form. by apply pow2_pos. Qed.
#[export] Hint Resolve power_pos pow2_is_power : word.

Lemma power_divide a b :
  is_power_of_two a = true → is_power_of_two b = true → a ≤ b → (a | b).
Proof.
  intros (n & Hn & ->)%pow2_form (m & Hm & ->)%pow2_form Hle.
  assert (n ≤ m) by (by apply (Z.pow_le_mono_r_iff 2)).
  exists (2 ^ (m - n)). rewrite <- Z.pow_add_r by lia. f_equal. lia.
Qed.

Lemma power_max a b : is_power_of_two a = true → is_power_of_two b = true →
  is_power_of_two (Z.max a b) = true.
Proof. intros. by destruct (Z.max_spec a b) as [[_ ->]|[_ ->]]. Qed.

Lemma round_up_spec sz al : 0 < al → 0 ≤ sz →
  sz ≤ round_up sz al < sz + al ∧ (al | round_up sz al).
Proof.
  intros Ha Hs. unfold round_up. split; [|by exists ((sz + al - 1) / al)].
  pose proof (Z.div_mod (sz + al - 1) al ltac:(lia)). pose proof (Z.mod_pos_bound (sz + al - 1) al Ha).
  lia.
Qed.

Lemma round_up_mono sz sz' al : 0 < al → sz ≤ sz' → round_up sz al ≤ round_up sz' al.
Proof.
  intros Ha Hs. unfold round_up. apply Z.mul_le_mono_nonneg_r; [lia|].
  apply Z.div_le_mono; lia.
Qed.

Lemma round_up_aligned sz al : 0 < al → (al | sz) → round_up sz al = sz.
Proof.
  intros Ha [k ->]. unfold round_up. f_equal.
  replace (k * al + al - 1) with (al - 1 + k * al) by lia.
  rewrite Z.div_add, Z.div_small by lia. done.
Qed.

Lemma from_size_align_spec sz al l :
  0 ≤ sz → from_size_align sz al = Some l → l = mkLayout sz al ∧ layout_wf l.
Proof.
  unfold from_size_align. intros Hs H. split_if_in H; [|done]. injection H as <-.
  split; [done|]. by split.
Qed.

Lemma extend_spec self next l off :
  layout_wf self → layout_wf next → extend self next = Some (l, off) →
  layout_wf l ∧ off = round_up (size self) (align next) ∧ size l = off + size next ∧
  align l = Z.max (align self) (align next) ∧ size self ≤ off ∧ (align next | off).
Proof.
  intros [Ha Hs] [Hb Ht] H. unfold extend in H.
  pose proof (power_pos _ Hb) as Hpos.
  destruct (round_up_spec (size self) (align next) Hpos (proj1 Hs)) as [[? ?] Hd].
  destruct (from_size_align _ _) as [l'|] eqn:E; [|done]. injection H as -> <-.
  apply from_size_align_spec in E as [-> Hwf]; [|lia]. simpl. by split_and!.
Qed.

(** [align_up] of the code and rounding up agree where the sum stays in the
    word. *)
Lemma mask_low_bits x n :
  0 ≤ n ≤ usize_bits → is_word usize_bits x →
  Z.land x (wnot usize_bits (2 ^ n - 1)) = x / 2 ^ n * 2 ^ n.
Proof.
  intros Hn Hx. unfold wnot. rewrite !Z.sub_1_r, <- !Z.ones_equiv, Z.sub_nocarry_ldiff.
  - rewrite Z.ldiff_land, Z.land_assoc, Z.land_ones, Z.mod_small by (done || lia).
    rewrite <- Z.ldiff_land, Z.ldiff_ones_r, Z.shiftl_mul_pow2, Z.shiftr_div_pow2 by lia. done.
  - apply Z.bits_inj'. intros m Hm. rewrite Z.ldiff_spec, Z.bits_0.
    destruct (Z.lt_ge_cases m n).
    + rewrite (Z.ones_spec_low usize_bits) by lia. by rewrite andb_false_r.
    + by rewrite Z.ones_spec_high by lia.
Qed.

Lemma align_down_spec x al :
  is_power_of_two al = true → al ≤ usize_max → is_word usize_bits x →
  align_down x al = x / al * al.
Proof.
  intros (n & Hn & ->)%pow2_form Hal Hx. apply mask_low_bits; [|done]. split; [done|].
  apply (Z.pow_le_mono_r_iff 2); [done|done|]. unfold usize_max in Hal. lia.
Qed.

Lemma align_up_round x al :
  is_power_of_two al = true → al ≤ usize_max → 0 ≤ x → x + al - 1 ≤ usize_max →
  align_up x al = round_up x al.
Proof.
  intros Hp Hal Hx Hs. pose proof (power_pos _ Hp).
  apply align_down_spec; [done|done|]. unfold is_word, usize_max in *. lia.
Qed.
