(* ===== verification/Header.v ===== *)
(** * Layout headers, admission and participants

    Models [src/src/header.rs]: the record in front of every shared layout,
    the admission of a participant to it, its membership word, and the root's
    table of participants. *)

From Stdlib Require Import String.
From S2P Require Import Prelude Atomic Alloc Bytes Schema.

(** ** The record *)

Definition RECORD_FORMAT : Z := 1.

Record AbiProfile := mkAbiProfile { word_bytes : Z; atomic_bytes : Z; little_endian : bool }.

(** [AbiProfile::NATIVE] of the 64-bit little-endian target. *)
Definition NATIVE : AbiProfile := mkAbiProfile 8 8 true.

(** [Record]: single bytes and little-endian byte arrays. *)
Record record := mkRecord {
  rec_status : Z;
  rec_format : Z;
  rec_profile : Z * Z * Z;
  rec_magic : list Z;
  rec_revision : list Z;
  rec_schema : list Z;
  rec_extent : list Z;
  rec_extent_align : list Z;
}.

Definition RECORD_SIZE : Z := 35.

Inductive Status := Uninitialized | Initializing | Initialized | Corrupted.

(** [status as u8] *)
Definition Status_u8 (s : Status) : Z :=
  match s with Uninitialized => 0 | Initializing => 1 | Initialized => 2 | Corrupted => 3 end.

Definition Status_from_u8 (v : Z) : Status :=
  if v =? 0 then Uninitialized else if v =? 1 then Initializing
  else if v =? 2 then Initialized else Corrupted.

Inductive LayoutField :=
| FState | FFormat | FProfile | FMagic | FRevision | FSchema | FRegion | FOffset
| FHeaderSize | FHeaderAlign | FExtent | FExtentAlign | FInfoSchema | FInfoRevision
| FInfoSize | FInfoAlign | FSize | FAlign | FInfo.

Inductive AdmitError :=
| Contention
| Closed
| DuplicateMember
| InvalidHeader
| Mismatch (field : LayoutField).

Inductive CloseError := CloseContention | MissingMember | CloseClosed.

Record RecordedLayout := mkRecordedLayout {
  rl_schema : SchemaKey;
  rl_profile : AbiProfile;
  rl_magic : Z;
  rl_extent : Z;
  rl_extent_align : Z;
}.

#[export] Instance AbiProfile_eq_dec : EqDecision AbiProfile.
Proof. solve_decision. Defined.
#[export] Instance Status_eq_dec : EqDecision Status.
Proof. solve_decision. Defined.
#[export] Instance LayoutField_eq_dec : EqDecision LayoutField.
Proof. solve_decision. Defined.
#[export] Instance AdmitError_eq_dec : EqDecision AdmitError.
Proof. solve_decision. Defined.
#[export] Instance RecordedLayout_eq_dec : EqDecision RecordedLayout.
Proof. solve_decision. Defined.

(** ** The [Layout] trait *)

(** A shared layout body [T].  [init] gives the body it leaves and the status
    it returns, [None] when it unwinds; the same for [attach].  The layouts of
    [T], of its info and of [RcHeader<T>] are the compiler's. *)
Class SharedLayout (T : Type) := {
  Config : Type;
  Info : Type;
  Info_eq_dec :: EqDecision Info;
  SCHEMA : SchemaKey;
  MAGIC : Z;
  INFO_SCHEMA : SchemaKey;
  body_layout : Layout;
  info_layout : Layout;
  header_layout : Layout;
  storage : Config → option Layout;
  info : Config → LayoutContext → Info;
  init : Config → option (T * Status);
  attach : T → Config → option Status;
}.

(** [Record::initialize]: every field but the status. *)
Definition Record_initialize (T : Type) `{SharedLayout T} (layout : Layout) (r : record) : record :=
  mkRecord (rec_status r) RECORD_FORMAT
    (word_bytes NATIVE, atomic_bytes NATIVE, Z.b2z (little_endian NATIVE))
    (to_le_bytes 2 MAGIC)
    (to_le_bytes 4 (revision SCHEMA))
    (to_le_bytes 8 (schema_id_of SCHEMA))
    (to_le_bytes 8 (size layout))
    (to_le_bytes 8 (align layout)).

(** [Record::profile] *)
Definition profile (r : record) : AbiProfile :=
  let '(word, atomic, little) := rec_profile r in mkAbiProfile word atomic (negb (little =? 0)).

(** [recorded_at] of the record at address [addr]; [u64] to [usize] is total
    on the target. *)
Definition recorded_at (addr : Z) (r : record) : result RecordedLayout AdmitError :=
  if negb (bool_decide (Status_from_u8 (rec_status r) = Initialized)) then Err (Mismatch FState)
  else if negb (rec_format r =? RECORD_FORMAT) then Err (Mismatch FFormat)
  else if negb (bool_decide (profile r = NATIVE)) then Err (Mismatch FProfile)
  else
    let extent := from_le_bytes (rec_extent r) in
    let extent_align := from_le_bytes (rec_extent_align r) in
    if extent <? RECORD_SIZE then Err (Mismatch FExtent)
    else if negb (is_power_of_two extent_align) || negb (addr mod extent_align =? 0) then
      Err (Mismatch FExtentAlign)
    else Ok (mkRecordedLayout
      (mkSchemaKey (from_le_bytes (rec_schema r)) (from_le_bytes (rec_revision r)))
      (profile r) (from_le_bytes (rec_magic r)) extent extent_align).

(** [RecordedLayout::mismatch] *)
Definition mismatch (T : Type) `{SharedLayout T} (r : RecordedLayout) : option LayoutField :=
  if negb (rl_magic r =? MAGIC) then Some FMagic
  else if negb (schema_id_of (rl_schema r) =? schema_id_of SCHEMA) then Some FSchema
  else if negb (revision (rl_schema r) =? revision SCHEMA) then Some FRevision
  else None.

(** ** The header *)

(** The highest bit of the membership word. *)
Definition CLOSED : Z := Z.shiftl 1 (usize_bits - 1).

(** [RcHeader<T>] *)
Record RcHeader (T : Type) `{SharedLayout T} := mkRcHeader {
  h_record : record;
  h_members : Z;
  h_region : RegionId;
  h_offset : Z;
  h_header_size : Z;
  h_header_align : Z;
  h_info_schema : Z;
  h_info_revision : Z;
  h_info_size : Z;
  h_info_align : Z;
  h_body_size : Z;
  h_body_align : Z;
  h_info : Info;
  h_inner : T;
}.
Arguments mkRcHeader {T _}.
Arguments h_record {T _}. Arguments h_members {T _}. Arguments h_region {T _}.
Arguments h_offset {T _}. Arguments h_header_size {T _}. Arguments h_header_align {T _}.
Arguments h_info_schema {T _}. Arguments h_info_revision {T _}. Arguments h_info_size {T _}.
Arguments h_info_align {T _}. Arguments h_body_size {T _}. Arguments h_body_align {T _}.
Arguments h_info {T _}. Arguments h_inner {T _}.

Section Header.
Context {T : Type} `{HT : SharedLayout T}.
Implicit Types h : RcHeader T.

(** *** Accesses *)

Definition with_record (r : record) h : RcHeader T :=
  mkRcHeader r (h_members h) (h_region h) (h_offset h) (h_header_size h) (h_header_align h)
    (h_info_schema h) (h_info_revision h) (h_info_size h) (h_info_align h) (h_body_size h)
    (h_body_align h) (h_info h) (h_inner h).

Definition with_members (m : Z) h : RcHeader T :=
  mkRcHeader (h_record h) m (h_region h) (h_offset h) (h_header_size h) (h_header_align h)
    (h_info_schema h) (h_info_revision h) (h_info_size h) (h_info_align h) (h_body_size h)
    (h_body_align h) (h_info h) (h_inner h).

Definition with_inner (b : T) h : RcHeader T :=
  mkRcHeader (h_record h) (h_members h) (h_region h) (h_offset h) (h_header_size h) (h_header_align h)
    (h_info_schema h) (h_info_revision h) (h_info_size h) (h_info_align h) (h_body_size h)
    (h_body_align h) (h_info h) b.

Definition with_status (v : Z) (r : record) : record :=
  mkRecord v (rec_format r) (rec_profile r) (rec_magic r) (rec_revision r) (rec_schema r)
    (rec_extent r) (rec_extent_align r).

Definition load_status h : Status * RcHeader T := (Status_from_u8 (rec_status (h_record h)), h).

Definition cas_status (old new : Status) h : bool * RcHeader T :=
  if rec_status (h_record h) =? Status_u8 old
  then (true, with_record (with_status (Status_u8 new) (h_record h)) h) else (false, h).

Definition store_status (s : Status) h : unit * RcHeader T :=
  (tt, with_record (with_status (Status_u8 s) (h_record h)) h).

Definition load_members h : Z * RcHeader T := (h_members h, h).

Definition cas_members (old new : Z) h : result unit Z * RcHeader T :=
  if h_members h =? old then (Ok tt, with_members new h) else (Err (h_members h), h).

Definition fetch_and_members (m : Z) h : Z * RcHeader T :=
  (h_members h, with_members (Z.land (h_members h) m) h).

Definition slot_bit (slot : Z) : Z := Z.shiftl 1 slot.

(** *** Membership *)

(** [RcHeader::close_unique] *)
Definition close_error (observed bit : Z) : CloseError :=
  if negb (Z.land observed CLOSED =? 0) then CloseClosed
  else if Z.land observed bit =? 0 then MissingMember
  else CloseContention.

Definition close_unique (slot : Z) : prog (RcHeader T) (result unit CloseError) :=
  let bit := slot_bit slot in
  act r <- cas_members bit CLOSED;
  Ret (map_err (λ observed, close_error observed bit) r).

(** [RcHeader::recover_member] *)
Definition recover_member (slot : Z) : prog (RcHeader T) bool :=
  let bit := slot_bit slot in
  act old <- fetch_and_members (wnot usize_bits bit);
  Ret (negb (Z.land old bit =? 0)).

(** [RcHeader::has_member] *)
Definition has_member (slot : Z) : prog (RcHeader T) bool :=
  act m <- load_members; Ret (negb (Z.land m (slot_bit slot) =? 0)).

(** [closed_at] *)
Definition closed_at : prog (RcHeader T) bool :=
  act m <- load_members; Ret (negb (Z.land m CLOSED =? 0)).

(** [AdmitLayout::leave] *)
Definition leave (slot : Z) : prog (RcHeader T) unit :=
  act_ (fetch_and_members (wnot usize_bits (slot_bit slot))); Ret tt.

(** [Drop for Membership] *)
Definition drop_membership (bit : Z) : prog (RcHeader T) unit :=
  if bit =? 0 then Ret tt else act_ (fetch_and_members (wnot usize_bits bit)); Ret tt.

(** [Drop for InitClaim] *)
Definition drop_init_claim : prog (RcHeader T) unit := act_ (store_status Corrupted); Ret tt.

(** [RcHeader::claim]: the bit of the membership it returns. *)
Definition claim (slot : option Z) : prog (RcHeader T) (result Z AdmitError) :=
  match slot with
  | None => Ret (Ok 0)
  | Some slot =>
    let bit := slot_bit slot in
    act observed <- load_members;
    if negb (Z.land observed CLOSED =? 0) then Ret (Err Closed)
    else if negb (Z.land observed bit =? 0) then Ret (Err DuplicateMember)
    else
      act r <- cas_members observed (Z.lor observed bit);
      Ret (match r with Ok _ => Ok bit | Err _ => Err Contention end)
  end.

(** *** Inspection *)

(** [RcHeader::inspect_at], the checks in order. *)
Definition inspect_fields (addr : Z) (ctx : LayoutContext) h : result Info AdmitError :=
  let? recorded := recorded_at addr (h_record h) in
  match mismatch T recorded with
  | Some field => Err (Mismatch field)
  | None =>
    if negb (bool_decide (h_region h = ctx_region ctx)) then Err (Mismatch FRegion)
    else if negb (h_offset h =? ctx_offset ctx) then Err (Mismatch FOffset)
    else if negb (h_header_size h =? size header_layout) then Err (Mismatch FHeaderSize)
    else if negb (h_header_align h =? align header_layout) then Err (Mismatch FHeaderAlign)
    else if negb (h_info_schema h =? schema_id_of INFO_SCHEMA) then Err (Mismatch FInfoSchema)
    else if negb (h_info_revision h =? revision INFO_SCHEMA) then Err (Mismatch FInfoRevision)
    else if negb (h_info_size h =? size info_layout) then Err (Mismatch FInfoSize)
    else if negb (h_info_align h =? align info_layout) then Err (Mismatch FInfoAlign)
    else if negb (h_body_size h =? size body_layout) then Err (Mismatch FSize)
    else if negb (h_body_align h =? align body_layout) then Err (Mismatch FAlign)
    else Ok (h_info h)
  end.

Definition inspect_at (addr : Z) (ctx : LayoutContext) : prog (RcHeader T) (result Info AdmitError) :=
  act r <- (λ h, (inspect_fields addr ctx h, h)); Ret r.

(** [RcHeader::published_region_at] *)
Definition published_region_at (addr : Z) : prog (RcHeader T) (option RegionId) :=
  act r <- (λ h, (match recorded_at addr (h_record h) with
                  | Ok _ => Some (h_region h) | Err _ => None end, h));
  Ret r.

(** [RcHeader::mismatch_at] *)
Definition mismatch_at (addr : Z) (conf : Config) (ctx : LayoutContext) h : option LayoutField :=
  match inspect_fields addr ctx h with
  | Err (Mismatch field) => Some field
  | Err _ => Some FState
  | Ok i =>
    match storage conf with
    | None => Some FExtent
    | Some layout =>
      if negb (bool_decide (rec_extent (h_record h) = to_le_bytes 8 (size layout))) then Some FExtent
      else if negb (bool_decide (rec_extent_align (h_record h) = to_le_bytes 8 (align layout))) then
        Some FExtentAlign
      else if negb (bool_decide (i = info conf ctx)) then Some FInfo
      else None
    end
  end.

(** *** Admission *)

(** How [admit] ends: with a result, by unwinding out of [init] or [attach],
    or still in its loop after the given number of turns. *)
Inductive admission := Done (r : result unit AdmitError) | Unwound | Spinning.

(** The plain writes of a fresh header after its record and members. *)
Definition write_fields (ctx : LayoutContext) (i : Info) h : RcHeader T :=
  mkRcHeader (h_record h) (h_members h) (ctx_region ctx) (ctx_offset ctx)
    (size header_layout) (align header_layout) (schema_id_of INFO_SCHEMA) (revision INFO_SCHEMA)
    (size info_layout) (align info_layout) (size body_layout) (align body_layout) i (h_inner h).

(** The end of [admit] on a fresh header, after its claim of the status; the
    guards [InitClaim] and [Membership] run their drops on failure. *)
Definition initialize (layout : Layout) (conf : Config) (ctx : LayoutContext) (slot : option Z)
    : prog (RcHeader T) admission :=
  let i := info conf ctx in
  let bit := match slot with None => 0 | Some slot => slot_bit slot end in
  act_ (λ h, (tt, with_record (Record_initialize T layout (h_record h)) h));
  act_ (λ h, (tt, with_members bit h));
  act_ (λ h, (tt, write_fields ctx i h));
  match init conf with
  | None => do _ <- drop_membership bit; do _ <- drop_init_claim; Ret Unwound
  | Some (body, status) =>
    act_ (λ h, (tt, with_inner body h));
    if bool_decide (status = Initialized) then
      act_ (store_status Initialized); Ret (Done (Ok tt))
    else
      do _ <- drop_membership bit; do _ <- drop_init_claim; Ret (Done (Err InvalidHeader))
  end.

(** The arm of [admit] on an initialized header. *)
Definition attach_to (addr : Z) (conf : Config) (ctx : LayoutContext) (slot : option Z)
    : prog (RcHeader T) admission :=
  act field <- (λ h, (mismatch_at addr conf ctx h, h));
  match field with
  | Some field => Ret (Done (Err (Mismatch field)))
  | None =>
    do m <- claim slot;
    match m with
    | Err e => Ret (Done (Err e))
    | Ok bit =>
      act inner <- (λ h, (h_inner h, h));
      match attach inner conf with
      | Some Initialized => Ret (Done (Ok tt))
      | Some Initializing => do _ <- drop_membership bit; Ret (Done (Err Contention))
      | Some _ => do _ <- drop_membership bit; Ret (Done (Err InvalidHeader))
      | None => do _ <- drop_membership bit; Ret Unwound
      end
    end
  end.

(** The loop of [admit]. *)
Fixpoint admit_loop (fuel : nat) (addr : Z) (layout : Layout) (conf : Config) (ctx : LayoutContext)
    (slot : option Z) : prog (RcHeader T) admission :=
  match fuel with
  | O => Ret Spinning
  | S fuel =>
    act status <- load_status;
    match status with
    | Uninitialized =>
      if negb (allow_init ctx) then Ret (Done (Err (Mismatch FState)))
      else
        act won <- cas_status Uninitialized Initializing;
        if won then initialize layout conf ctx slot
        else admit_loop fuel addr layout conf ctx slot
    | Initializing => Ret (Done (Err Contention))
    | Corrupted => Ret (Done (Err InvalidHeader))
    | Initialized => attach_to addr conf ctx slot
    end
  end.

(** [AdmitLayout::admit]; the loop turns once, or twice when it loses the
    race for the status. *)
Definition admit_layout (addr : Z) (conf : Config) (ctx : LayoutContext) (slot : option Z)
    : prog (RcHeader T) admission :=
  match storage conf with
  | None => Ret (Done (Err InvalidHeader))
  | Some layout => admit_loop 2 addr layout conf ctx slot
  end.
End Header.

(** ** Participants: the root *)

Definition MEMBER_STATE_BITS : Z := 2.
Definition MEMBER_STATE_MASK : Z := Z.shiftl 1 MEMBER_STATE_BITS - 1.
Definition MEMBER_FREE : Z := 0.
Definition MEMBER_LIVE : Z := 1.
Definition MEMBER_DEAD : Z := 2.
Definition MEMBER_RETIRED : Z := 3.
Definition MEMBER_GENERATION_MAX : Z := Z.shiftr usize_max MEMBER_STATE_BITS.

Record Member := mkMember { member_slot : Z; member_generation : Z }.

#[export] Instance Member_eq_dec : EqDecision Member.
Proof. solve_decision. Defined.

(** [Root]: the participants' words. *)
Abbreviation Root := (list Z).

(** [<Root as Layout>::init] *)
Definition Root_init : Root := replicate (Z.to_nat PARTICIPANT_CAPACITY) 0.

Definition Root_SCHEMA : SchemaKey := mkSchemaKey (schema_id "evering.root") 1.
Definition Root_MAGIC : Z := 0xABCD.

Definition load_slot (slot : Z) (r : Root) : Z * Root := (default 0 (r !! Z.to_nat slot), r).

Definition cas_slot (slot old new : Z) (r : Root) : bool * Root :=
  if default 0 (r !! Z.to_nat slot) =? old then (true, <[Z.to_nat slot := new]> r) else (false, r).

(** [Root::word] *)
Definition member_word (m : Member) (state : Z) : Z :=
  Z.lor (wrap usize_bits (Z.shiftl (member_generation m) MEMBER_STATE_BITS)) state.

(** The loop of [Root::join] over the slots. *)
Fixpoint join_from (slots : list Z) : prog Root (option Member) :=
  match slots with
  | [] => Ret None
  | slot :: slots =>
    act observed <- load_slot slot;
    if negb (Z.land observed MEMBER_STATE_MASK =? MEMBER_FREE) then join_from slots
    else
      let prior := Z.shiftr observed MEMBER_STATE_BITS in
      if prior =? MEMBER_GENERATION_MAX then
        act_ (cas_slot slot observed (member_word (mkMember slot prior) MEMBER_RETIRED));
        join_from slots
      else
        let generation := prior + 1 in
        let live := Z.lor (wrap usize_bits (Z.shiftl generation MEMBER_STATE_BITS)) MEMBER_LIVE in
        act won <- cas_slot slot observed live;
        if won then Ret (Some (mkMember slot generation)) else join_from slots
  end.

(** [Root::join] *)
Definition join : prog Root (option Member) := join_from (seqZ 0 PARTICIPANT_CAPACITY).

(** [Root::member]: whether the slot is in the table. *)
Definition has_slot (m : Member) : bool := member_slot m <? PARTICIPANT_CAPACITY.

(** [Root::leave] *)
Definition root_leave (m : Member) : prog Root bool :=
  if has_slot m then
    act won <- cas_slot (member_slot m) (member_word m MEMBER_LIVE) (member_word m MEMBER_FREE); Ret won
  else Ret false.

(** [Root::mark_dead] *)
Definition mark_dead (m : Member) : prog Root bool :=
  if has_slot m then
    act won <- cas_slot (member_slot m) (member_word m MEMBER_LIVE) (member_word m MEMBER_DEAD); Ret won
  else Ret false.

(** [Root::is_dead] *)
Definition is_dead (m : Member) : prog Root bool :=
  if has_slot m then
    act w <- load_slot (member_slot m); Ret (w =? member_word m MEMBER_DEAD)
  else Ret false.

(** [Root::release_dead] *)
Definition release_dead (m : Member) : prog Root bool :=
  if has_slot m then
    let next := if member_generation m =? MEMBER_GENERATION_MAX
                then member_word m MEMBER_RETIRED else member_word m MEMBER_FREE in
    act won <- cas_slot (member_slot m) (member_word m MEMBER_DEAD) next; Ret won
  else Ret false.
