(* ===== verification/HeaderConc.v ===== *)
(** * Admission under concurrency

    Any number of participants admit themselves to one header, leave it and
    try to close it, in every interleaving of their atomic accesses. *)

From S2P Require Import Prelude Atomic Alloc Bytes Schema Header.

(** ** Bits of the membership word *)

Section Bits.
Lemma slot_bit_pow s : 0 ≤ s → slot_bit s = 2 ^ s.
Proof. intros Hs. unfold slot_bit. by rewrite Z.shiftl_1_l. Qed.

Lemma land_slot m s : 0 ≤ s → (Z.land m (slot_bit s) =? 0) = negb (Z.testbit m s).
Proof.
  intros Hs. rewrite slot_bit_pow by done. destruct (Z.testbit m s) eqn:E; simpl.
  - apply Z.eqb_neq. intros H0. apply (f_equal (λ x, Z.testbit x s)) in H0.
    rewrite Z.land_spec, E, Z.pow2_bits_true, Z.bits_0 in H0 by done. done.
  - apply Z.eqb_eq. apply Z.bits_inj'. intros i Hi. rewrite Z.land_spec, Z.bits_0, Z.pow2_bits_eqb by done.
    destruct (Z.eqb_spec s i) as [->|]; [by rewrite E|by rewrite andb_false_r].
Qed.

Lemma set_slot m s : 0 ≤ s → Z.lor m (slot_bit s) = Z.setbit m s.
Proof. intros Hs. by rewrite slot_bit_pow, Z.setbit_spec'. Qed.

Lemma clear_slot m s : is_word usize_bits m → 0 ≤ s < usize_bits →
  Z.land m (wnot usize_bits (slot_bit s)) = Z.clearbit m s.
Proof.
  intros Hm Hs. rewrite slot_bit_pow by lia. unfold wnot. rewrite Z.sub_1_r, <- Z.ones_equiv.
  rewrite Z.sub_nocarry_ldiff.
  - rewrite Z.ldiff_land, Z.land_assoc, Z.land_ones, Z.mod_small by (done || unfold usize_bits; lia).
    by rewrite Z.clearbit_spec', Z.ldiff_land.
  - apply Z.bits_inj'. intros i Hi. rewrite Z.ldiff_spec, Z.bits_0, Z.pow2_bits_eqb by lia.
    destruct (Z.eqb_spec s i) as [->|]; [|done]. rewrite Z.ones_spec_low by lia. done.
Qed.

Lemma is_word_mono w w' m : 0 ≤ w ≤ w' → is_word w m → is_word w' m.
Proof. unfold is_word. intros Hw Hm. pose proof (Z.pow_le_mono_r 2 w w'). lia. Qed.

(** A word from its bits. *)
Lemma bits_word w m : 0 ≤ w → 0 ≤ m → (∀ i, w ≤ i → Z.testbit m i = false) → is_word w m.
Proof.
  intros Hw Hm H. split; [done|]. destruct (decide (m = 0)) as [->|]; [by apply pow2_pos|].
  apply Z.log2_lt_pow2; [lia|]. destruct (Z.lt_ge_cases (Z.log2 m) w) as [|Hge]; [done|].
  apply H in Hge. rewrite Z.bit_log2 in Hge by lia. done.
Qed.

Lemma word_bits w m i : is_word w m → 0 ≤ w ≤ i → Z.testbit m i = false.
Proof.
  intros [Hm Hm'] Hi. destruct (decide (m = 0)) as [->|]; [apply Z.bits_0|].
  apply Z.bits_above_log2; [done|]. assert (Z.log2 m < w) by (apply Z.log2_lt_pow2; lia). lia.
Qed.
End Bits.

Section Admission.
Context {T : Type} `{HT : SharedLayout T}.
(** The header's address, the context of every admission, and each thread's
    slot. *)
Context (addr : Z) (region : RegionId) (offset : Z) (slot : nat → Z).
Context (Hslot : ∀ t, 0 ≤ slot t) (Hdistinct : ∀ t t', slot t = slot t' → t = t').

(** A thread whose slot is in the table. *)
Definition seated (t : nat) : Prop := slot t < PARTICIPANT_CAPACITY.

Definition ctx (allow : bool) : LayoutContext := mkLayoutContext region offset allow.

(** What the trait promises of the layouts it is asked for. *)
Record trait_ok : Prop := {
  trait_storage conf l : storage conf = Some l →
    layout_wf l ∧ RECORD_SIZE ≤ size l ∧ addr mod align l = 0;
  trait_info conf a b : info conf (ctx a) = info conf (ctx b);
  trait_schema : key_wf SCHEMA;
  trait_magic : is_word 16 MAGIC;
}.
Context (Htrait : trait_ok).

(** The header that admission publishes for [conf]. *)
Definition published (conf : Config) (layout : Layout) (body : T) (m : Z) : RcHeader T :=
  mkRcHeader
    (mkRecord (Status_u8 Initialized) RECORD_FORMAT
       (word_bytes NATIVE, atomic_bytes NATIVE, Z.b2z (little_endian NATIVE))
       (to_le_bytes 2 MAGIC) (to_le_bytes 4 (revision SCHEMA)) (to_le_bytes 8 (schema_id_of SCHEMA))
       (to_le_bytes 8 (size layout)) (to_le_bytes 8 (align layout)))
    m region offset (size header_layout) (align header_layout) (schema_id_of INFO_SCHEMA)
    (revision INFO_SCHEMA) (size info_layout) (align info_layout) (size body_layout)
    (align body_layout) (info conf (ctx true)) body.

(** ** Auxiliary state *)

Inductive phase :=
| Fresh
| Initing (t : nat) (h : RcHeader T)
| Ready (conf : Config)
| Bad.

Record hghost := mkHghost { ph : phase; hclosed : bool; mem : gset nat }.

Inductive hguar (t : nat) : hghost → hghost → Prop :=
| hguar_skip g : hguar t g g
| hguar_start c m h : hguar t (mkHghost Fresh c m) (mkHghost (Initing t h) false ∅)
| hguar_write c m h h' : hguar t (mkHghost (Initing t h) c m) (mkHghost (Initing t h') c m)
| hguar_publish conf h : hguar t (mkHghost (Initing t h) false ∅) (mkHghost (Ready conf) false {[t]})
| hguar_fail h : hguar t (mkHghost (Initing t h) false ∅) (mkHghost Bad false ∅)
| hguar_enter conf m : t ∉ m → hguar t (mkHghost (Ready conf) false m) (mkHghost (Ready conf) false ({[t]} ∪ m))
| hguar_exit conf m : t ∈ m → hguar t (mkHghost (Ready conf) false m) (mkHghost (Ready conf) false (m ∖ {[t]}))
| hguar_close conf : hguar t (mkHghost (Ready conf) false {[t]}) (mkHghost (Ready conf) true ∅).

Abbreviation hrely := (rely_of hguar).

(** The membership word of a set of threads. *)
Definition mem_word (m : Z) (c : bool) (ts : gset nat) : Prop :=
  if c then m = CLOSED ∧ ts = ∅
  else is_word 63 m ∧ ∀ i, 0 ≤ i → Z.testbit m i = true ↔ ∃ t, t ∈ ts ∧ slot t = i.

Definition hinv (g : hghost) (h : RcHeader T) : Prop :=
  match ph g with
  | Fresh => rec_status (h_record h) = Status_u8 Uninitialized
  | Initing _ h' => h = h' ∧ rec_status (h_record h) = Status_u8 Initializing ∧ hclosed g = false ∧ mem g = ∅
  | Bad => rec_status (h_record h) = Status_u8 Corrupted
  | Ready conf => ∃ layout body m, h = published conf layout body m ∧ storage conf = Some layout ∧
      init conf = Some (body, Initialized) ∧ mem_word m (hclosed g) (mem g)
  end.

Lemma mem_word_testbit m ts t : mem_word m false ts → Z.testbit m (slot t) = bool_decide (t ∈ ts).
Proof.
  intros [_ Hm]. specialize (Hm (slot t) ltac:(apply Hslot)). case_bool_decide as Ht.
  - apply Hm. eauto.
  - apply not_true_is_false. rewrite Hm. intros (t' & Ht' & E%Hdistinct). by subst.
Qed.

Lemma mem_word_closed m c ts : mem_word m c ts → (Z.land m CLOSED =? 0) = negb c.
Proof.
  intros Hm. change CLOSED with (slot_bit 63). rewrite land_slot by lia. f_equal. destruct c.
  - destruct Hm as [-> _]. done.
  - destruct Hm as [Hm _]. apply (word_bits 63); [done|lia].
Qed.

Lemma mem_word_add m ts t : seated t → mem_word m false ts → mem_word (Z.lor m (slot_bit (slot t))) false ({[t]} ∪ ts).
Proof.
  intros Hs' [Hw Hm]. pose proof (Hslot t) as Hs. unfold seated, PARTICIPANT_CAPACITY, usize_bits in Hs'.
  rewrite set_slot by lia.
  assert (Hbit : ∀ i, 0 ≤ i → Z.testbit (Z.setbit m (slot t)) i = true ↔ ∃ t', t' ∈ {[t]} ∪ ts ∧ slot t' = i).
  { intros i Hi. rewrite Z.setbit_eqb by lia. rewrite orb_true_iff, Z.eqb_eq, Hm by done. split.
    - intros [<-|(t' & ? & ?)]; [exists t|exists t']; set_solver.
    - intros (t' & [->%elem_of_singleton|?]%elem_of_union & ?); [by left|right; eauto]. }
  split; [|done]. apply bits_word; [lia|rewrite Z.setbit_spec'; destruct Hw; apply Z.lor_nonneg; split; [lia|apply Z.pow_nonneg; lia]|].
  intros i Hi. rewrite Z.setbit_eqb, (word_bits 63 m) by (done || lia). rewrite orb_false_r. apply Z.eqb_neq. lia.
Qed.

Lemma mem_word_remove m ts t : seated t → mem_word m false ts →
  mem_word (Z.land m (wnot usize_bits (slot_bit (slot t)))) false (ts ∖ {[t]}).
Proof.
  intros Hs' [Hw Hm]. pose proof (Hslot t) as Hs. unfold seated, PARTICIPANT_CAPACITY in Hs'.
  rewrite clear_slot; [|by eapply is_word_mono; [|done]; unfold usize_bits; lia|lia].
  assert (Hbit : ∀ i, 0 ≤ i → Z.testbit (Z.clearbit m (slot t)) i = true ↔ ∃ t', t' ∈ ts ∖ {[t]} ∧ slot t' = i).
  { intros i Hi. rewrite Z.clearbit_eqb. rewrite andb_true_iff, Hm, negb_true_iff, Z.eqb_neq by done. split.
    - intros [(t' & Ht' & <-) Hne]. exists t'. split; [|done].
      apply elem_of_difference. split; [done|]. intros ->%elem_of_singleton. done.
    - intros (t' & [Ht' Hn]%elem_of_difference & <-). split; [eauto|]. intros E%Hdistinct. subst.
      by apply Hn, elem_of_singleton. }
  split; [|done]. apply bits_word; [lia|rewrite Z.clearbit_spec'; destruct Hw; apply Z.ldiff_nonneg; left; lia|].
  intros i Hi. by rewrite Z.clearbit_eqb, (word_bits 63 m) by (done || lia).
Qed.

Lemma mem_word_only m c ts t : seated t → mem_word m c ts → m = slot_bit (slot t) → c = false ∧ ts = {[t]}.
Proof.
  intros Hs' Hm E. pose proof (Hslot t) as Hs. unfold seated, PARTICIPANT_CAPACITY, usize_bits in Hs'.
  rewrite slot_bit_pow in E by lia. destruct c.
  - destruct Hm as [Hm _]. rewrite E in Hm. change CLOSED with (2 ^ 63) in Hm.
    apply Z.pow_inj_r in Hm; lia.
  - split; [done|]. destruct Hm as [_ Hm]. apply set_eq. intros t'. rewrite elem_of_singleton.
    specialize (Hm (slot t') ltac:(apply Hslot)). rewrite E, Z.pow2_bits_eqb, Z.eqb_eq in Hm by lia. split.
    + intros Ht'. symmetry. apply Hdistinct, Hm. eauto.
    + intros ->. destruct Hm as [Hm _]. destruct (Hm eq_refl) as (t'' & ? & E'%Hdistinct). by subst.
Qed.

Lemma mem_word_single t : seated t → mem_word (slot_bit (slot t)) false {[t]}.
Proof.
  intros Hs. rewrite <- (union_empty_r_L {[t]}). rewrite <- (Z.lor_0_l (slot_bit _)). apply mem_word_add; [done|].
  split; [done|]. intros i Hi. rewrite Z.bits_0. split; [done|]. by intros (t' & ?%elem_of_empty & _).
Qed.

(** ** What a published header says *)

Lemma layout_words l : layout_wf l → is_word 64 (size l) ∧ is_word 64 (align l).
Proof.
  intros [Ha Hs]. pose proof (power_pos _ Ha). unfold is_word, isize_max, usize_bits in *.
  change (2 ^ (64 - 1)) with 9223372036854775808 in *. change (2 ^ 64) with 18446744073709551616. lia.
Qed.

(** What a published record says where it is mapped. *)
Lemma recorded_made conf l body m : layout_wf l → RECORD_SIZE ≤ size l → key_wf SCHEMA → is_word 16 MAGIC →
  recorded_at addr (h_record (published conf l body m)) =
    if addr mod align l =? 0 then Ok (mkRecordedLayout SCHEMA NATIVE MAGIC (size l) (align l)) else Err (Mismatch FExtentAlign).
Proof.
  intros Hwf Hsz [H1 H2] H3. destruct (layout_words _ Hwf) as [Hs Ha].
  unfold recorded_at. cbn [published h_record rec_status rec_format rec_extent rec_extent_align rec_schema
    rec_revision rec_magic].
  rewrite !from_to_le_bytes by done. rewrite bool_decide_true by done. rewrite bool_decide_true by done.
  cbn [negb]. rewrite Z.eqb_refl. cbn [negb].
  destruct (Z.ltb_spec (size l) RECORD_SIZE); [lia|]. destruct Hwf as [Hp _]. rewrite Hp. cbn [negb orb].
  destruct (_ =? 0); [|done]. by destruct SCHEMA.
Qed.

Lemma inspect_made conf l body m a : layout_wf l → RECORD_SIZE ≤ size l → key_wf SCHEMA → is_word 16 MAGIC → addr mod align l = 0 →
  inspect_fields addr (ctx a) (published conf l body m) = Ok (info conf (ctx true)).
Proof.
  intros Hwf Hsz Hk Hm Hal. unfold inspect_fields. rewrite recorded_made, Hal by done. unfold mismatch.
  cbn [rl_magic rl_schema published h_region h_offset h_header_size h_header_align h_info_schema h_info_revision
    h_info_size h_info_align h_body_size h_body_align h_info ctx ctx_region ctx_offset Z.eqb].
  rewrite !Z.eqb_refl, bool_decide_true by done. done.
Qed.

Lemma recorded_published conf l body m : storage conf = Some l →
  recorded_at addr (h_record (published conf l body m)) = Ok (mkRecordedLayout SCHEMA NATIVE MAGIC (size l) (align l)).
Proof. intros Hl. destruct (trait_storage Htrait _ _ Hl) as (Hwf & Hsz & Hal). rewrite recorded_made, Hal by (done || apply Htrait). done. Qed.

Lemma inspect_published conf l body m a : storage conf = Some l →
  inspect_fields addr (ctx a) (published conf l body m) = Ok (info conf (ctx true)).
Proof. intros Hl. destruct (trait_storage Htrait _ _ Hl) as (Hwf & Hsz & Hal). apply inspect_made; try done; apply Htrait. Qed.

Lemma mismatch_published conf conf' l body m a : storage conf = Some l →
  mismatch_at addr conf' (ctx a) (published conf l body m) = None →
  storage conf' = Some l ∧ info conf' (ctx true) = info conf (ctx true).
Proof.
  intros Hl. unfold mismatch_at. rewrite inspect_published by done.
  destruct (storage conf') as [l'|] eqn:Hl'; [|done].
  destruct (trait_storage Htrait _ _ Hl) as (Hwf & _). destruct (layout_words _ Hwf) as [Hs Ha].
  destruct (trait_storage Htrait _ _ Hl') as (Hwf' & _). destruct (layout_words _ Hwf') as [Hs' Ha'].
  cbn [published h_record rec_extent rec_extent_align].
  case_bool_decide as E1; [|done]. case_bool_decide as E2; [|done]. case_bool_decide as E3; [|done]. intros _.
  apply (to_le_bytes_inj 8) in E1; [|done..]. apply (to_le_bytes_inj 8) in E2; [|done..].
  destruct l, l'. simpl in *. subst. split; [done|]. by rewrite E3, (trait_info Htrait _ true a).
Qed.

(** ** Stable facts *)

Definition outside (t : nat) (g : hghost) : Prop := (t ∉ mem g) ∧ ∀ h, ph g ≠ Initing t h.
Definition inside (t : nat) (g : hghost) : Prop := t ∈ mem g ∧ hclosed g = false ∧ (∃ conf, ph g = Ready conf).
Definition standing (b : bool) (t : nat) (g : hghost) : Prop := if b then inside t g else outside t g.
Definition not_fresh (g : hghost) : Prop := ph g ≠ Fresh.
Definition ready (conf : Config) (g : hghost) : Prop := ph g = Ready conf.
Definition agrees (conf : Config) (g : hghost) : Prop :=
  ∃ conf0, ready conf0 g ∧ storage conf = storage conf0 ∧ info conf (ctx true) = info conf0 (ctx true).
Definition shut (g : hghost) : Prop := hclosed g = true ∧ ∃ conf, ready conf g.
Definition initing (t : nat) (h : RcHeader T) (g : hghost) : Prop :=
  ph g = Initing t h ∧ hclosed g = false ∧ mem g = ∅.

Lemma standing_stable b t : stable hrely t (standing b t).
Proof.
  apply stable_of. intros t' g g' Hne Hg. destruct b; simpl; unfold inside, outside.
  - intros (Hm & Hc & conf & Hp). destruct Hg; simpl in *; try done; split_and!; eauto; set_solver.
  - intros (Hm & Hp). destruct Hg; simpl in *; try done; split_and!; try set_solver; congruence.
Qed.

Lemma not_fresh_stable t : stable hrely t not_fresh.
Proof. apply stable_of. intros t' g g' Hne Hg. unfold not_fresh. by destruct Hg. Qed.

Lemma ready_stable t conf : stable hrely t (ready conf).
Proof. apply stable_of. intros t' g g' Hne Hg. unfold ready. by destruct Hg. Qed.

Lemma agrees_stable t conf : stable hrely t (agrees conf).
Proof. intros g g' HR (c0 & Hr & ?). exists c0. split; [by eapply ready_stable|done]. Qed.

Lemma shut_stable t : stable hrely t shut.
Proof.
  apply stable_of. intros t' g g' Hne Hg. unfold shut, ready. intros (Hc & conf & Hp).
  destruct Hg; simpl in *; try done; eauto.
Qed.

Lemma initing_stable t h : stable hrely t (initing t h).
Proof.
  apply stable_of. intros t' g g' Hne Hg. unfold initing. intros (Hp & Hc & Hm).
  destruct Hg; simpl in *; split_and!; try done; congruence.
Qed.

Abbreviation hwp := (wp hinv hrely).

(** ** Initialization *)

Lemma init_write t h f F A (k : unit → prog (RcHeader T) A) Q g :
  initing t h g → (∀ h, f h = (tt, F h)) → rec_status (h_record (F h)) = rec_status (h_record h) →
  (∀ g, initing t (F h) g → hwp t (k tt) Q g) → hwp t (Act f k) Q g.
Proof.
  intros Hi Hf Hst Hk. apply (wp_act hinv hguar (initing t h)); [done|apply initing_stable|].
  intros g1 s (Hp & Hc & Hm) HI. unfold hinv in HI. rewrite Hp in HI. destruct HI as (-> & Hs & _).
  rewrite Hf. simpl. destruct g1 as [p c m]. simpl in *. subst.
  exists (mkHghost (Initing t (F h)) false ∅). split_and!; [|apply hguar_write|by apply Hk].
  unfold hinv. simpl. by rewrite Hst.
Qed.

Lemma init_fail t h A (a : A) Q g :
  initing t h g → (∀ g, outside t g → Q a g) →
  hwp t (do _ <- drop_membership (slot_bit (slot t)); do _ <- drop_init_claim; Ret a) Q g.
Proof.
  intros Hi HQ. unfold drop_membership.
  destruct (Z.eqb_spec (slot_bit (slot t)) 0) as [E|_].
  { pose proof (Hslot t). rewrite slot_bit_pow in E by lia. pose proof (pow2_pos (slot t)). lia. }
  cbn [bind]. unfold fetch_and_members.
  eapply (wp_act hinv hguar (initing t h)); [done|apply initing_stable|].
  intros g1 s (Hp & Hc & Hm) HI. unfold hinv in HI. rewrite Hp in HI. destruct HI as (-> & Hs & _).
  destruct g1 as [p c m]. simpl in *. subst. eexists (mkHghost (Initing t _) false ∅).
  split_and!; [unfold hinv; simpl; split_and!; [reflexivity|exact Hs|done|done]|apply hguar_write|].
  unfold drop_init_claim. cbn [bind].
  eapply (wp_act hinv hguar (initing t _)); [by split_and!|apply initing_stable|].
  intros g1 s (Hp & Hc & Hm) HI. unfold hinv in HI. rewrite Hp in HI. destruct HI as (-> & Hs' & _).
  destruct g1 as [p c m]. simpl in *. subst. exists (mkHghost Bad false ∅).
  split_and!; [done|apply hguar_fail|]. apply wp_ret, HQ. split; simpl; [set_solver|done].
Qed.

Definition admitted (b : bool) (t : nat) (conf : Config) (r : admission) (g : hghost) : Prop :=
  match r with
  | Done (Ok _) => b = false ∧ inside t g ∧ agrees conf g
  | Done (Err _) | Unwound => standing b t g
  | Spinning => False
  end.

Lemma initialize_spec t conf l a h g :
  seated t → storage conf = Some l → initing t h g → rec_status (h_record h) = Status_u8 Initializing →
  hwp t (initialize l conf (ctx a) (Some (slot t))) (admitted false t conf) g.
Proof.
  intros Hseat Hl Hi Hs. unfold initialize.
  eapply init_write; [exact Hi|reflexivity|done|]. clear g Hi. intros g Hi.
  eapply init_write; [exact Hi|reflexivity|done|]. clear g Hi. intros g Hi.
  eapply init_write; [exact Hi|reflexivity|done|]. clear g Hi. intros g Hi.
  destruct (init conf) as [[body st]|] eqn:Einit; [|by eapply init_fail].
  eapply init_write; [exact Hi|reflexivity|done|]. clear g Hi. intros g Hi.
  case_bool_decide as Est; [subst st|by eapply init_fail].
  eapply (wp_act hinv hguar (initing t _)); [exact Hi|apply initing_stable|].
  intros g1 s (Hp & Hc & Hm) HI. unfold hinv in HI. rewrite Hp in HI. destruct HI as (-> & _).
  destruct g1 as [p c m]. cbn [ph hclosed mem] in *. subst.
  exists (mkHghost (Ready conf) false {[t]}). split_and!; [|apply hguar_publish|].
  - unfold hinv. cbn [ph hclosed mem]. exists l, body, (slot_bit (slot t)). split_and!; [|done|done|by apply mem_word_single].
    cbn. unfold published. rewrite (trait_info Htrait conf true a). done.
  - apply wp_ret. split_and!; [done|split_and!; cbn; [set_solver|done|by eexists]|]. by exists conf.
Qed.

(** ** Admission to a published header *)

Lemma ready_inv conf0 g h : ready conf0 g → hinv g h →
  ∃ l body m, h = published conf0 l body m ∧ storage conf0 = Some l ∧
    init conf0 = Some (body, Initialized) ∧ mem_word m (hclosed g) (mem g).
Proof. unfold ready, hinv. by intros ->. Qed.

Lemma standing_ready_stable b t conf0 : stable hrely t (λ g, standing b t g ∧ ready conf0 g).
Proof. apply stable_conj; [apply standing_stable|apply ready_stable]. Qed.

(** The exit of a member from the membership word. *)
Lemma exit_spec t A (k : Z → prog (RcHeader T) A) Q g :
  seated t → inside t g → (∀ v g, outside t g → hwp t (k v) Q g) →
  hwp t (Act (fetch_and_members (wnot usize_bits (slot_bit (slot t)))) k) Q g.
Proof.
  intros Hseat Hin Hk. apply (wp_act hinv hguar (inside t)); [done|apply (standing_stable true)|].
  intros g1 s (Hm & Hc & conf & Hp) HI. destruct (ready_inv _ _ _ Hp HI) as (l & body & m & -> & Hl & Hb & Hw).
  destruct g1 as [p c ts]. unfold ready in Hp. simpl in Hp, Hm, Hc, Hw. subst p c.
  exists (mkHghost (Ready conf) false (ts ∖ {[t]})). split_and!; [|by apply hguar_exit|].
  - exists l, body. eexists. split_and!; [reflexivity|done|done|]. by apply mem_word_remove.
  - apply Hk. split; simpl; [set_solver|done].
Qed.

Lemma drop_membership_spec t A (a : A) Q g :
  seated t → inside t g → (∀ g, outside t g → Q a g) →
  hwp t (do _ <- drop_membership (slot_bit (slot t)); Ret a) Q g.
Proof.
  intros Hseat Hin HQ. unfold drop_membership.
  destruct (Z.eqb_spec (slot_bit (slot t)) 0) as [E|_].
  { pose proof (Hslot t). rewrite slot_bit_pow in E by lia. pose proof (pow2_pos (slot t)). lia. }
  cbn [bind]. apply exit_spec; [done|done|]. intros v g' Ho. by apply wp_ret, HQ.
Qed.

Lemma claim_member_spec b t conf0 g :
  seated t → standing b t g → ready conf0 g →
  hwp t (claim (Some (slot t)))
    (λ r g, match r with
     | Ok bit => b = false ∧ bit = slot_bit (slot t) ∧ inside t g ∧ ready conf0 g
     | Err _ => standing b t g
     end) g.
Proof.
  intros Hseat Hst Hr. pose proof (Hslot t) as Hs. unfold claim.
  eapply (wp_read hinv hguar hguar_skip (λ g, standing b t g ∧ ready conf0 g));
    [done|apply standing_ready_stable|done|].
  intros g1 s [Hst1 Hr1] HI. destruct (ready_inv _ _ _ Hr1 HI) as (l & body & m & -> & Hl & Hb & Hw).
  cbn [load_members fst published h_members].
  rewrite (mem_word_closed _ _ _ Hw). destruct (hclosed g1) eqn:Hc; cbn [negb]; [by apply wp_ret|].
  rewrite land_slot, (mem_word_testbit _ _ _ Hw), negb_involutive by lia.
  case_bool_decide as Hin; [by apply wp_ret|].
  destruct b; [by destruct Hst1 as [? _]|].
  apply (wp_act hinv hguar (λ g, standing false t g ∧ ready conf0 g)); [done|apply standing_ready_stable|].
  intros g2 s [Hst2 Hr2] HI2. destruct (ready_inv _ _ _ Hr2 HI2) as (l2 & body2 & m2 & -> & Hl2 & Hb2 & Hw2).
  unfold cas_members. cbn [published h_members]. destruct (Z.eqb_spec m2 m) as [->|Hne]; cbn [fst snd].
  - assert (Hc2 : hclosed g2 = false).
    { apply mem_word_closed in Hw, Hw2. rewrite Hw in Hw2. by destruct (hclosed g2). }
    destruct g2 as [p c ts]. unfold ready in Hr2. simpl in *. subst.
    exists (mkHghost (Ready conf0) false ({[t]} ∪ ts)). split_and!; [|apply hguar_enter; apply Hst2|].
    + exists l2, body2. eexists. split_and!; [reflexivity|done|done|]. by apply mem_word_add.
    + apply wp_ret. split_and!; [done|done| |done]. split_and!; simpl; [set_solver|done|by eexists].
  - exists g2. split_and!; [done|constructor|by apply wp_ret].
Qed.

Lemma attach_spec b t conf conf0 a g :
  seated t → standing b t g → ready conf0 g →
  hwp t (attach_to addr conf (ctx a) (Some (slot t))) (admitted b t conf) g.
Proof.
  intros Hseat Hst Hr. unfold attach_to.
  eapply (wp_read hinv hguar hguar_skip (λ g, standing b t g ∧ ready conf0 g));
    [done|apply standing_ready_stable|done|].
  intros g1 s [Hst1 Hr1] HI. destruct (ready_inv _ _ _ Hr1 HI) as (l & body & m & -> & Hl & Hb & Hw). cbn [fst].
  destruct (mismatch_at addr conf (ctx a) _) as [field|] eqn:Hmis; [by apply wp_ret|].
  apply mismatch_published in Hmis as [Hl' Hinfo]; [|done].
  eapply wp_seq; [by apply (claim_member_spec b t conf0)|].
  clear dependent g1 g. intros [bit|e] g1 Hg1; [|by apply wp_ret].
  destruct Hg1 as (-> & -> & Hin & Hr1).
  eapply (wp_read hinv hguar hguar_skip (λ g, standing true t g ∧ ready conf0 g));
    [done|apply standing_ready_stable|done|].
  intros g2 s [Hst2 Hr2] _. cbn [fst].
  destruct (attach (h_inner s) conf) as [[]|]; try (by apply drop_membership_spec).
  apply wp_ret. split_and!; [done|done|]. exists conf0. by rewrite Hl'.
Qed.

Lemma status_phase g h : hinv g h →
  Status_from_u8 (rec_status (h_record h)) =
    match ph g with Fresh => Uninitialized | Initing _ _ => Initializing | Ready _ => Initialized | Bad => Corrupted end.
Proof.
  unfold hinv. destruct (ph g); [intros ->|intros (_ & -> & _)|intros (l & b & m & -> & _)|intros ->]; done.
Qed.

(** One turn of the loop once the header is no longer fresh. *)
Lemma settled_spec b t conf l a n g :
  seated t → standing b t g → not_fresh g →
  hwp t (admit_loop (S n) addr l conf (ctx a) (Some (slot t))) (admitted b t conf) g.
Proof.
  intros Hseat Hst Hnf. cbn [admit_loop].
  eapply (wp_read hinv hguar hguar_skip (λ g, standing b t g ∧ not_fresh g));
    [done|apply stable_conj; [apply standing_stable|apply not_fresh_stable]|done|].
  intros g1 s [Hst1 Hnf1] HI. cbn [load_status fst]. rewrite (status_phase _ _ HI).
  destruct (ph g1) eqn:Hp; [done|by apply wp_ret| |by apply wp_ret]. by eapply attach_spec.
Qed.

Lemma admit_spec b t conf a g :
  seated t → standing b t g → hwp t (admit_layout addr conf (ctx a) (Some (slot t))) (admitted b t conf) g.
Proof.
  intros Hseat Hst. unfold admit_layout. destruct (storage conf) as [l|] eqn:Hl; [|by apply wp_ret].
  remember 1%nat as one eqn:E1. cbn [admit_loop].
  eapply (wp_read hinv hguar hguar_skip (standing b t)); [done|apply standing_stable|done|].
  intros g1 s Hst1 HI. cbn [load_status fst]. rewrite (status_phase _ _ HI).
  destruct (ph g1) eqn:Hp; [|by apply wp_ret|by eapply attach_spec|by apply wp_ret].
  cbn [ctx allow_init]. destruct a; cbn [negb]; [|by apply wp_ret].
  clear dependent s g. apply (wp_act hinv hguar (standing b t)); [done|apply standing_stable|].
  intros g2 s Hst2 HI2. unfold cas_status. pose proof (status_phase _ _ HI2) as Hs.
  destruct (Z.eqb_spec (rec_status (h_record s)) (Status_u8 Uninitialized)) as [E|E]; cbn [fst snd].
  - rewrite E in Hs. destruct g2 as [p c ts]. cbn [ph] in Hs. destruct p; try discriminate Hs.
    destruct b; [destruct Hst2 as (_ & _ & c0 & Hc); discriminate Hc|].
    eexists. split_and!; [|by eapply hguar_start|].
    + unfold hinv. cbn [ph hclosed mem]. by split_and!.
    + by eapply initialize_spec.
  - exists g2. split_and!; [done|constructor|]. subst one. apply settled_spec; [done|done|]. intros Hp2.
    unfold hinv in HI2. by rewrite Hp2 in HI2.
Qed.

Lemma close_spec t g :
  seated t → inside t g →
  hwp t (close_unique (slot t)) (λ r g, if is_ok r then outside t g ∧ shut g else inside t g) g.
Proof.
  intros Hseat Hin. unfold close_unique. apply (wp_act hinv hguar (inside t)); [done|apply (standing_stable true)|].
  intros g1 s Hin1 HI. destruct Hin1 as (Hm & Hc & conf & Hp).
  destruct (ready_inv _ _ _ Hp HI) as (l & body & m & -> & Hl & Hb & Hw).
  unfold cas_members. cbn [published h_members].
  destruct (Z.eqb_spec m (slot_bit (slot t))) as [E|_]; cbn [fst snd map_err].
  - destruct (mem_word_only _ _ _ _ Hseat Hw E) as [_ Hts]. destruct g1 as [p c ts]. simpl in *. subst.
    exists (mkHghost (Ready conf) true ∅). split_and!; [|apply hguar_close|].
    + exists l, body. eexists. split_and!; [reflexivity|done|done|done].
    + apply wp_ret. split; split; simpl; [set_solver|done|done|by exists conf].
  - exists g1. split_and!; [done|constructor|]. apply wp_ret. split_and!; eauto.
Qed.

(** ** Clients *)

Inductive hcmd := HAdmit (conf : Config) (allow : bool) | HLeave | HClose.

Inductive hout := HAdmitted (conf : Config) (r : admission) | HLeft | HClosed (r : result unit CloseError) | HNothing.

(** A client that keeps track of its membership: it leaves or closes only a
    header it is a member of, as a view does. *)
Definition hexec (t : nat) (c : hcmd) (b : bool) : prog (RcHeader T) (hout * bool) :=
  match c with
  | HAdmit conf allow =>
    do r <- admit_layout addr conf (ctx allow) (Some (slot t));
    Ret (HAdmitted conf r, match r with Done (Ok _) => true | _ => b end)
  | HLeave =>
    if b then do _ <- leave (slot t); Ret (HLeft, false) else Ret (HNothing, false)
  | HClose =>
    if b then do r <- close_unique (slot t); Ret (HClosed r, negb (is_ok r)) else Ret (HNothing, false)
  end.

Fixpoint hclient (t : nat) (cs : list hcmd) (b : bool) (os : list hout) : prog (RcHeader T) (list hout * bool) :=
  match cs with
  | [] => Ret (os, b)
  | c :: cs => do r <- hexec t c b; hclient t cs r.2 (os ++ [r.1])
  end.

Definition hstart (h : RcHeader T) (css : list (list hcmd)) : cfg (RcHeader T) (list hout * bool) :=
  (h, imap (λ t cs, hclient t cs false []) css).

(** What an outcome lets its thread rely on from then on. *)
Definition out_fact (o : hout) (g : hghost) : Prop :=
  match o with
  | HAdmitted conf Spinning => False
  | HAdmitted conf (Done (Ok _)) => agrees conf g
  | HClosed (Ok _) => shut g
  | _ => True
  end.

Definition hdone (t : nat) (r : list hout * bool) (g : hghost) : Prop :=
  standing r.2 t g ∧ ∀ o, o ∈ r.1 → out_fact o g.

Lemma out_fact_stable t o : stable hrely t (out_fact o).
Proof.
  destruct o as [conf [[]| |]| |[]|]; simpl; try (by intros ? ? ? ?); [apply agrees_stable|apply shut_stable].
Qed.

Lemma hexec_spec t c b g :
  seated t → standing b t g → hwp t (hexec t c b) (λ r g, standing r.2 t g ∧ out_fact r.1 g) g.
Proof.
  intros Hseat Hst. destruct c as [conf a| |]; cbn [hexec].
  - eapply wp_seq; [by apply (admit_spec b)|]. intros r g' HQ. apply wp_ret.
    destruct r as [[]| |]; simpl in *; tauto.
  - destruct b; [|by apply wp_ret]. eapply wp_seq with (Q := λ _, outside t);
      [|intros r g' HQ; by apply wp_ret]. apply exit_spec; [done|done|]. intros. by apply wp_ret.
  - destruct b; [|by apply wp_ret]. eapply wp_seq; [by apply close_spec|]. intros [] g' HQ; apply wp_ret; simpl in *; tauto.
Qed.

Lemma hclient_spec t cs b os g :
  seated t → hdone t (os, b) g → hwp t (hclient t cs b os) (hdone t) g.
Proof.
  intros Hseat. revert b os g. induction cs as [|c cs IH]; intros b os g [Hst Hos]; cbn [hclient]; [by apply wp_ret|].
  eapply wp_seq.
  - eapply (wp_frame hinv hrely) with (R := λ g, ∀ o, o ∈ os → out_fact o g); [|exact Hos|by apply hexec_spec].
    intros t' g1 g2 HR Ho o Hin. eapply out_fact_stable; [exact HR|by apply Ho].
  - intros [o b'] g' [[Hst' Ho] Hos']. apply IH. split; [done|]. simpl.
    intros o' [?| ->%list_elem_of_singleton]%elem_of_app; [by apply Hos'|done].
Qed.
End Admission.

(** C29: participants with distinct slots admit themselves to one fresh header,
    leave it and try to close it, in any interleaving of their accesses.  No
    admission spins.  Every successful admission agrees with one published
    header: its configuration asks for the recorded extent and carries the
    recorded info, the body is the one a successful [init] left, and the
    record reads back.  A client that believes to be a member has its bit set
    in a word that is not closed, one that does not has it clear.  After a
    successful close the word stays closed: nobody is or becomes a member. *)
Theorem header_admission {T} `{SharedLayout T} addr region offset slot h0 css h ps :
  (∀ t, 0 ≤ slot t) → (∀ t t', slot t = slot t' → t = t') →
  (∀ t, (t < length css)%nat → slot t < PARTICIPANT_CAPACITY) →
  trait_ok (T := T) addr region offset → rec_status (h_record h0) = Status_u8 Uninitialized →
  creach (hstart addr region offset slot h0 css) (h, ps) →
  ∀ t os b, ps !! t = Some (Ret (os, b)) →
    (∀ conf r, HAdmitted conf r ∈ os → r ≠ Spinning) ∧
    (∀ conf u, HAdmitted conf (Done (Ok u)) ∈ os → ∃ conf0 layout body m,
      h = published region offset conf0 layout body m ∧ init conf0 = Some (body, Initialized) ∧
      storage conf = Some layout ∧ info conf (ctx region offset true) = h_info h ∧
      recorded_at addr (h_record h) = Ok (mkRecordedLayout SCHEMA NATIVE MAGIC (size layout) (align layout))) ∧
    (b = true → Z.testbit (h_members h) (slot t) = true ∧ Z.land (h_members h) CLOSED = 0) ∧
    (b = false → rec_status (h_record h) = Status_u8 Initialized → Z.testbit (h_members h) (slot t) = false) ∧
    (∀ u, HClosed (Ok u) ∈ os → h_members h = CLOSED).
Proof.
  intros Hslot Hdist Hseat Htrait Hfresh Hreach.
  eapply (rg_sound (hinv region offset slot) (rely_of (hguar (T := T)))) with (Q := hdone region offset)
    in Hreach as (g & [HI Hwp] & Hlook).
  - simpl in *. intros t os b Ht. destruct (Hwp _ _ Ht) as [Hst Hos]. simpl in Hst, Hos.
    assert (Hs63 : slot t < PARTICIPANT_CAPACITY).
    { apply Hseat. destruct (lt_dec t (length css)) as [|Hge]; [done|].
      destruct (Hlook t) as [_ Hn]; [|congruence]. apply lookup_ge_None. rewrite length_imap. lia. }
    split_and!.
    + intros conf r Hin. apply Hos in Hin. by destruct r.
    + intros conf u Hin. apply Hos in Hin as (conf0 & Hr & Hsto & Hinfo).
      destruct (ready_inv _ _ _ _ _ _ Hr HI) as (l & body & m & -> & Hl & Hb & Hw).
      exists conf0, l, body, m. split_and!; [done|done|congruence|done|by apply recorded_published].
    + intros ->. destruct Hst as (Hm & Hc & conf & Hp).
      destruct (ready_inv _ _ _ _ _ _ Hp HI) as (l & body & m & -> & Hl & Hb & Hw). cbn [published h_members].
      rewrite Hc in Hw. split; [|by apply Z.eqb_eq; rewrite (mem_word_closed slot _ _ _ Hw)].
      rewrite (mem_word_testbit slot Hslot Hdist _ _ _ Hw). by rewrite bool_decide_true.
    + intros -> Hs. pose proof (status_phase _ _ _ _ _ HI) as Hph. rewrite Hs in Hph.
      destruct (ph g) eqn:Hp; try discriminate Hph.
      destruct (ready_inv _ _ _ _ _ _ Hp HI) as (l & body & m & -> & Hl & Hb & Hw). cbn [published h_members].
      destruct Hst as [Hst _]. destruct (hclosed g).
      * destruct Hw as [-> _]. pose proof (Hslot t). change CLOSED with (2 ^ 63).
        rewrite Z.pow2_bits_eqb by lia. apply Z.eqb_neq. unfold PARTICIPANT_CAPACITY, usize_bits in *. lia.
      * rewrite (mem_word_testbit slot Hslot Hdist _ _ _ Hw). by rewrite bool_decide_false.
    + intros u Hin. apply Hos in Hin as [Hc (conf & Hr)].
      destruct (ready_inv _ _ _ _ _ _ Hr HI) as (l & body & m & -> & Hl & Hb & Hw). rewrite Hc in Hw.
      by destruct Hw.
  - apply rely_of_refl.
  - apply rely_of_trans.
  - intros t r g1 g2 HR [Hst Ho]. split; [by eapply standing_stable|].
    intros o Hin. eapply out_fact_stable; [exact HR|by apply Ho].
  - assert (Hi : hinv region offset slot (mkHghost Fresh false ∅) h0) by done.
    split; [exact Hi|]. intros t p Hp. simpl in Hp. apply list_lookup_imap_Some in Hp as (cs & Hcs & ->).
    apply hclient_spec; [done..|by apply Hseat; eapply lookup_lt_Some|]. split; [|by intros o ?%not_elem_of_nil]. split; simpl; [set_solver|done].
Qed.

(** A layout of one word whose body must be even to attach. *)
#[local] Instance demo_layout : SharedLayout Z := {|
  Config := Z;
  Info := Z;
  SCHEMA := mkSchemaKey 5 1;
  MAGIC := 0x1234;
  INFO_SCHEMA := mkSchemaKey 6 1;
  body_layout := mkLayout 8 8;
  info_layout := mkLayout 8 8;
  header_layout := mkLayout 160 8;
  storage := λ conf, if conf <? 100 then Some (mkLayout 192 64) else None;
  info := λ conf _, conf;
  init := λ conf, if conf =? 7 then None else Some (2 * conf, Initialized);
  attach := λ body _, Some (if Z.even body then Initialized else Corrupted);
|}.

Definition demo_header : RcHeader Z :=
  mkRcHeader (mkRecord 0 0 (0, 0, 0) [] [] [] [] []) 0 (mkRegionId 0 0) 0 0 0 0 0 0 0 0 0 0 0.


Lemma header_admission_witness :
  let css := [[HAdmit 3 true; HClose]; [HAdmit 3 true; HLeave]] in
  let c := sched (replicate 8 0%nat ++ replicate 6 1%nat ++ replicate 9 0%nat)
    (hstart 4096 (mkRegionId 1 2) 4096 Z.of_nat demo_header css) in
  c.2 = [Ret ([HAdmitted 3 (Done (Ok tt)); HClosed (Ok tt)], false);
         Ret ([HAdmitted 3 (Done (Err Closed)); HNothing], false)] ∧
  h_members c.1 = CLOSED.
Proof.
  intros css c.
  assert (E : c.2 = [Ret ([HAdmitted 3 (Done (Ok tt)); HClosed (Ok tt)], false);
         Ret ([HAdmitted 3 (Done (Err Closed)); HNothing], false)]) by (vm_compute; reflexivity).
  split; [exact E|].
  destruct (header_admission (T := Z) 4096 (mkRegionId 1 2) 4096 Z.of_nat demo_header css c.1 c.2)
    with (t := 0%nat) (os := [HAdmitted (HT := demo_layout) 3 (Done (Ok tt)); HClosed (Ok tt)]) (b := false)
    as (_ & _ & _ & _ & Hclosed).
  - lia.
  - lia.
  - intros t Ht. simpl in Ht. unfold PARTICIPANT_CAPACITY, usize_bits. lia.
  - split; [|done|by_eval|by_eval]. intros conf l Hl. cbn [storage demo_layout] in Hl.
    destruct (conf <? 100); [injection Hl as <-; by_eval|discriminate Hl].
  - reflexivity.
  - rewrite <- surjective_pairing. apply sched_reach.
  - rewrite E. reflexivity.
  - apply (Hclosed tt). right. left.
Defined.
