(* ===== verification/RootConc.v ===== *)
(** * Participants under concurrency

    Any number of threads join, leave, declare others dead and release dead
    participants of one root, in every interleaving.  The auxiliary state is
    the list of the members issued so far and of those whose end was asked
    for. *)

From S2P Require Import Prelude Atomic Alloc Schema Header.

(** ** Words *)

Definition gen_max : Z := 2 ^ 62 - 1.

Definition mword (gen state : Z) : Z := pack gen 2 state.

Definition wgen (w : Z) : Z := Z.shiftr w 2.
Definition wstate (w : Z) : Z := Z.land w 3.

Definition member_ok (m : Member) : Prop :=
  0 ≤ member_slot m < PARTICIPANT_CAPACITY ∧ 0 ≤ member_generation m ≤ gen_max.

#[export] Instance member_ok_dec m : Decision (member_ok m).
Proof. unfold member_ok. apply _. Defined.

Section Words.
Lemma shifted_gen gen : 0 ≤ gen ≤ gen_max → wrap usize_bits (Z.shiftl gen MEMBER_STATE_BITS) = Z.shiftl gen 2.
Proof.
  intros Hg. apply wrap_small. change MEMBER_STATE_BITS with 2. unfold is_word, gen_max, usize_bits in *.
  rewrite Z.shiftl_mul_pow2 by lia. change (2 ^ 64) with (2 ^ 62 * 2 ^ 2). lia.
Qed.

(** The part of a generation that a word holds. *)
Lemma member_word_mod m state : member_word m state = mword (member_generation m mod 2 ^ 62) state.
Proof.
  unfold member_word, mword, pack, wrap, usize_bits. change MEMBER_STATE_BITS with 2. f_equal. rewrite !Z.shiftl_mul_pow2 by lia.
  change (2 ^ 64) with (2 ^ 62 * 2 ^ 2). by rewrite Z.mul_mod_distr_r.
Qed.

Lemma member_word_pack m state : member_ok m → member_word m state = mword (member_generation m) state.
Proof. intros [_ Hg]. unfold member_word, mword, pack. by rewrite shifted_gen. Qed.

Lemma mword_gen gen state : 0 ≤ state < 4 → wgen (mword gen state) = gen.
Proof. intros. by apply pack_hi. Qed.

Lemma mword_state gen state : 0 ≤ state < 4 → wstate (mword gen state) = state.
Proof. intros. by apply (pack_lo gen 2). Qed.

Lemma mword_inj g s g' s' : 0 ≤ s < 4 → 0 ≤ s' < 4 → mword g s = mword g' s' → g = g' ∧ s = s'.
Proof. intros. by apply (pack_inj _ _ _ _ 2). Qed.

Lemma mword_eta w : 0 ≤ w → mword (wgen w) (wstate w) = w ∧ 0 ≤ wstate w < 4.
Proof.
  intros Hw. split; [by apply (unpack_pack w 2)|]. unfold wstate. change 3 with (Z.ones 2).
  rewrite Z.land_ones by lia. by apply Z.mod_pos_bound.
Qed.
End Words.

(** ** Auxiliary state *)

Record ghost := mkGhost { issued : list (nat * Member); ended : list Member }.

(** What thread [t] may do, if it asks only for the ends in [ends t]. *)
Inductive rguar (ends : nat → Member → Prop) (t : nat) : ghost → ghost → Prop :=
| rguar_skip g : rguar ends t g g
| rguar_issue g m : rguar ends t g (mkGhost (issued g ++ [(t, m)]) (ended g))
| rguar_end g m : ends t m → rguar ends t g (mkGhost (issued g) (m :: ended g)).

Section Root.
Context (ends : nat → Member → Prop).
Abbreviation rrely := (rely_of (rguar ends)).

Record rinv (g : ghost) (r : Root) : Prop := {
  rinv_len : length r = Z.to_nat PARTICIPANT_CAPACITY;
  rinv_words i w : r !! i = Some w → 0 ≤ w ∧ 0 ≤ wgen w ≤ gen_max;
  rinv_issued m : m ∈ (issued g).*2 → member_ok m ∧
    (∃ w, r !! Z.to_nat (member_slot m) = Some w ∧ member_generation m ≤ wgen w) ∧
    (m ∈ ended g ∨ r !! Z.to_nat (member_slot m) = Some (mword (member_generation m) MEMBER_LIVE));
  rinv_nodup : NoDup (issued g).*2;
  rinv_who m : m ∈ ended g → ∃ t, ends t m;
}.

Lemma rely_issued t g g' : rrely t g g' → filter (λ p, p.1 = t) (issued g') = filter (λ p, p.1 = t) (issued g).
Proof.
  intros HR. induction HR as [|g g1 g2 (t' & Hne & Hg) _ IH]; [done|]. rewrite IH.
  destruct Hg; [done| |done]. simpl. rewrite filter_app, filter_cons_False by done. by rewrite app_nil_r.
Qed.

(** A word changes and keeps its generation. *)
Lemma rinv_keep g r i old new e :
  rinv g r → r !! i = Some old → 0 ≤ new → wgen new = wgen old →
  (wstate old = MEMBER_LIVE → mkMember (Z.of_nat i) (wgen old) ∈ e) →
  (∀ m, m ∈ ended g → m ∈ e) → (∀ m, m ∈ e → ∃ t, ends t m) →
  rinv (mkGhost (issued g) e) (<[i := new]> r).
Proof.
  intros [Hlen Hw Hiss Hnd Hwho] Hi Hnew Hgen Hlive Hsub He.
  assert (Hbound := lookup_lt_Some _ _ _ Hi).
  split; simpl; [by rewrite length_insert| | |done|done].
  - intros j w [[<- [<- _]]|[_ Hj]]%list_lookup_insert_Some; [|by eapply Hw].
    rewrite Hgen. split; [done|]. by eapply Hw.
  - intros m Hm. destruct (Hiss m Hm) as (Hok & (w & Hmw & Hle) & Hst). split; [done|].
    destruct (decide (Z.to_nat (member_slot m) = i)) as [<-|Hne].
    + rewrite list_lookup_insert_eq by done. rewrite Hmw in Hi. injection Hi as ->. split.
      * exists new. by rewrite Hgen.
      * destruct Hst as [?|Hst]; [left; by apply Hsub|]. rewrite Hmw in Hst. injection Hst as ->. left.
        rewrite mword_gen, mword_state, Z2Nat.id in Hlive by (destruct Hok; unfold MEMBER_LIVE; lia).
        destruct m as [sl ge]. by apply Hlive.
    + rewrite list_lookup_insert_ne by done. split; [by eexists|].
      destruct Hst as [?|?]; [left; by apply Hsub|by right].
Qed.

(** A free word goes live at the next generation. *)
Lemma rinv_join t g r i old :
  rinv g r → r !! i = Some old → wstate old = MEMBER_FREE → wgen old + 1 ≤ gen_max →
  rinv (mkGhost (issued g ++ [(t, mkMember (Z.of_nat i) (wgen old + 1))]) (ended g))
    (<[i := mword (wgen old + 1) MEMBER_LIVE]> r).
Proof.
  intros [Hlen Hw Hiss Hnd Hwho] Hi Hfree Hmax.
  assert (Hbound := lookup_lt_Some _ _ _ Hi). destruct (Hw _ _ Hi) as (Hold & Hog).
  assert (Hgen : wgen (mword (wgen old + 1) MEMBER_LIVE) = wgen old + 1) by (by apply mword_gen).
  split; simpl; [by rewrite length_insert| | | |done].
  - intros j w [[<- [<- _]]|[_ Hj]]%list_lookup_insert_Some; [|by eapply Hw].
    rewrite Hgen. split; [|lia]. unfold mword. rewrite pack_add by (unfold MEMBER_LIVE; lia).
    unfold MEMBER_LIVE. lia.
  - intros m. rewrite fmap_app, elem_of_app. intros [Hm|Hm].
    + destruct (Hiss m Hm) as (Hok & (w & Hmw & Hle) & Hst). split; [done|].
      destruct (decide (Z.to_nat (member_slot m) = i)) as [<-|Hne].
      * rewrite list_lookup_insert_eq by done. rewrite Hmw in Hi. injection Hi as ->. split.
        -- eexists. split; [done|]. lia.
        -- destruct Hst as [?|Hst]; [by left|]. rewrite Hmw in Hst. injection Hst as ->.
           by rewrite mword_state in Hfree.
      * rewrite list_lookup_insert_ne by done. split; [by eexists|done].
    + apply list_elem_of_singleton in Hm as ->. simpl. rewrite Nat2Z.id, list_lookup_insert_eq by done.
      split_and!; [split; simpl; unfold gen_max in *; lia|eexists; split; [done|lia]|by right].
  - rewrite fmap_app. apply NoDup_app. split_and!; [done| |apply NoDup_singleton].
    intros m Hm [= ->]%list_elem_of_singleton. destruct (Hiss _ Hm) as (_ & (w & Hmw & Hle) & _). simpl in *.
    rewrite Nat2Z.id, Hi in Hmw. injection Hmw as <-. lia.
Qed.

(** ** Routines *)

Abbreviation rwp := (wp rinv rrely).

(** What thread [t] has been issued. *)
Definition joined (t : nat) (g : ghost) : list Member := (filter (λ p, p.1 = t) (issued g)).*2.

Lemma joined_stable t ms : stable rrely t (λ g, joined t g = ms).
Proof. intros g g' HR. unfold joined. by rewrite (rely_issued _ _ _ HR). Qed.

Lemma rinv_slot g r slot : rinv g r → 0 ≤ slot < PARTICIPANT_CAPACITY →
  ∃ w, r !! Z.to_nat slot = Some w.
Proof. intros HI Hs. apply lookup_lt_is_Some. rewrite (rinv_len _ _ HI). lia. Qed.

Lemma join_spec t ms slots g :
  (∀ s, s ∈ slots → 0 ≤ s < PARTICIPANT_CAPACITY) → joined t g = ms →
  rwp t (join_from slots) (λ r g, joined t g = ms ++ option_list r) g.
Proof.
  intros Hs. revert g. induction slots as [|slot slots IH]; intros g Hg; cbn [join_from].
  { apply wp_ret. by rewrite app_nil_r. }
  assert (Hslot := Hs slot ltac:(by left)). assert (IH' := IH ltac:(intros; apply Hs; by right)). clear IH.
  eapply (wp_read rinv (rguar ends) (rguar_skip ends) (λ g, joined t g = ms)); [done|apply joined_stable|done|].
  intros g1 r Hg1 HI. cbn [load_slot fst].
  destruct (rinv_slot _ _ _ HI Hslot) as [w Hw]. rewrite Hw. cbn [from_option id].
  destruct (rinv_words _ _ HI _ _ Hw) as (Hw0 & Hwg).
  destruct (mword_eta w Hw0) as [Heta Hst].
  change (Z.land w MEMBER_STATE_MASK) with (wstate w). change (Z.shiftr w MEMBER_STATE_BITS) with (wgen w).
  change MEMBER_GENERATION_MAX with gen_max.
  destruct (Z.eqb_spec (wstate w) MEMBER_FREE) as [Hfree|]; cbn [negb]; [|by apply IH'].
  destruct (Z.eqb_spec (wgen w) gen_max) as [Hmax|Hmax].
  - apply (wp_act rinv (rguar ends) (λ g, joined t g = ms)); [done|apply joined_stable|].
    intros g2 r2 Hg2 HI2. exists g2. split_and!; [|constructor|by apply IH'].
    unfold cas_slot. destruct (rinv_slot _ _ _ HI2 Hslot) as [w2 Hw2]. rewrite Hw2. cbn [from_option id].
    destruct (Z.eqb_spec w2 w) as [->|]; [|done]. cbn [snd].
    rewrite member_word_pack by (split; [done|cbn [member_generation]; lia]). cbn [member_generation].
    destruct g2 as [i2 e2]. eapply (rinv_keep (mkGhost i2 e2)); [done|done| | | |done|apply (rinv_who _ _ HI2)].
    + unfold mword. rewrite pack_add by (unfold MEMBER_RETIRED; lia). unfold MEMBER_RETIRED. lia.
    + by apply mword_gen.
    + rewrite Hfree. done.
  - apply (wp_act rinv (rguar ends) (λ g, joined t g = ms)); [done|apply joined_stable|].
    intros g2 r2 Hg2 HI2. unfold cas_slot. destruct (rinv_slot _ _ _ HI2 Hslot) as [w2 Hw2]. rewrite Hw2. cbn [from_option id].
    destruct (Z.eqb_spec w2 w) as [->|]; cbn [fst snd].
    + eexists. split_and!.
      * rewrite shifted_gen by lia. apply (rinv_join t g2 r2 (Z.to_nat slot) w); [done|done|done|lia].
      * apply rguar_issue.
      * apply wp_ret. unfold joined in *. cbn [issued]. rewrite filter_app, fmap_app, Hg2.
        rewrite filter_cons_True by done. cbn. by rewrite Z2Nat.id by lia.
    + exists g2. split_and!; [done|constructor|by apply IH'].
Qed.

(** The member an identity names: a word holds 62 bits of its generation. *)
Definition named (m : Member) : Member := mkMember (member_slot m) (member_generation m mod 2 ^ 62).

(** An exchange of member [m]'s word that keeps its generation. *)
Lemma exchange_spec t ms m from to g :
  0 ≤ member_slot m < PARTICIPANT_CAPACITY → 0 ≤ from < 4 → 0 ≤ to < 4 → (from = MEMBER_LIVE → ends t (named m)) → joined t g = ms →
  rwp t (act won <- cas_slot (member_slot m) (member_word m from) (member_word m to); Ret won)
    (λ _ g, joined t g = ms) g.
Proof.
  intros Hslot Hf Ht Hend Hg. apply (wp_act rinv (rguar ends) (λ g, joined t g = ms)); [done|apply joined_stable|].
  intros g1 r Hg1 HI. unfold cas_slot. destruct (rinv_slot _ _ _ HI Hslot) as [w Hw]. rewrite Hw. cbn [from_option id].
  rewrite !member_word_mod.
  destruct (Z.eqb_spec w (mword (member_generation m mod 2 ^ 62) from)) as [->|]; cbn [fst snd].
  - destruct (decide (from = MEMBER_LIVE)) as [Hl|Hl].
    + exists (mkGhost (issued g1) (named m :: ended g1)). split_and!; [|by apply rguar_end, Hend|by apply wp_ret].
      eapply rinv_keep; [done|done| |by rewrite !mword_gen| | |].
      * unfold mword. rewrite pack_add by lia. pose proof (Z.mod_pos_bound (member_generation m) (2 ^ 62)). lia.
      * intros _. rewrite mword_gen, Z2Nat.id by lia. by left.
      * intros. by right.
      * intros m' [->|Hm']%elem_of_cons; [exists t; by apply Hend|by apply (rinv_who _ _ HI)].
    + exists g1. split_and!; [|constructor|by apply wp_ret]. destruct g1 as [i1 e1].
      eapply (rinv_keep (mkGhost i1 e1)); [done|done| |by rewrite !mword_gen| |done|apply (rinv_who _ _ HI)].
      * unfold mword. rewrite pack_add by lia. pose proof (Z.mod_pos_bound (member_generation m) (2 ^ 62)). lia.
      * by rewrite mword_state.
  - exists g1. split_and!; [done|constructor|by apply wp_ret].
Qed.
End Root.

(** ** Clients *)

Inductive rcmd := RJoin | RLeave (m : Member) | RDead (m : Member) | RRelease (m : Member) | RCheck (m : Member).

Inductive rout := RJoined (r : option Member) | RAnswer (b : bool).

Definition rexec (c : rcmd) : prog Root rout :=
  match c with
  | RJoin => do r <- join; Ret (RJoined r)
  | RLeave m => do b <- root_leave m; Ret (RAnswer b)
  | RDead m => do b <- mark_dead m; Ret (RAnswer b)
  | RRelease m => do b <- release_dead m; Ret (RAnswer b)
  | RCheck m => do b <- is_dead m; Ret (RAnswer b)
  end.

Fixpoint rclient (cs : list rcmd) (os : list rout) : prog Root (list rout) :=
  match cs with
  | [] => Ret os
  | c :: cs => do o <- rexec c; rclient cs (os ++ [o])
  end.

(** A fresh root and one client per command list. *)
Definition rstart (css : list (list rcmd)) : cfg Root (list rout) :=
  (Root_init, (λ cs, rclient cs []) <$> css).

Definition out_joined (o : rout) : list Member :=
  match o with RJoined r => option_list r | RAnswer _ => [] end.

Definition joined_of (os : list rout) : list Member := concat (out_joined <$> os).

Definition cmd_member (c : rcmd) : option Member :=
  match c with RJoin => None | RLeave m | RDead m | RRelease m | RCheck m => Some m end.

(** The identities are any values of [Member]'s fields, a [u8] and a [usize]. *)
Definition cmds_typed (css : list (list rcmd)) : Prop :=
  Forall (Forall (λ c, ∀ m, cmd_member c = Some m → is_word 8 (member_slot m) ∧ is_word usize_bits (member_generation m))) css.

(** Client [t] has an identity of [m] leave or declares it dead. *)
Definition asks_end (css : list (list rcmd)) (t : nat) (m : Member) : Prop :=
  ∃ cs m', css !! t = Some cs ∧ named m' = m ∧ (RLeave m' ∈ cs ∨ RDead m' ∈ cs).

Section Clients.
Context (ends : nat → Member → Prop).

Lemma rexec_spec t ms c g :
  (∀ m, cmd_member c = Some m → is_word 8 (member_slot m) ∧ is_word usize_bits (member_generation m)) →
  (∀ m, c = RLeave m ∨ c = RDead m → ends t (named m)) → joined t g = ms →
  wp (rinv ends) (rely_of (rguar ends)) t (rexec c) (λ o g, joined t g = ms ++ out_joined o) g.
Proof.
  intros Hok Hend Hg. destruct c as [|m|m|m|m]; cbn [rexec cmd_member] in *.
  { eapply wp_seq; [apply join_spec; [|done]|intros r g' HQ; by apply wp_ret].
    intros s Hs%elem_of_seqZ. lia. }
  all: eapply wp_seq; [|intros r g' HQ; apply wp_ret; cbn [out_joined]; rewrite app_nil_r; exact HQ].
  all: destruct (Hok m eq_refl) as [[Hlo _] _]; unfold root_leave, mark_dead, release_dead, is_dead, has_slot.
  all: destruct (Z.ltb_spec (member_slot m) PARTICIPANT_CAPACITY) as [Hs|]; [|by apply wp_ret].
  - apply exchange_spec; [done|done|done|intros _; apply Hend; by left|done].
  - apply exchange_spec; [done|done|done|intros _; apply Hend; by right|done].
  - cbv zeta. destruct (_ =? _); by apply exchange_spec.
  - eapply (wp_read _ _ (rguar_skip ends) (λ g, joined t g = ms)); [done|apply joined_stable|done|].
    intros g1 r Hg1 _. by apply wp_ret.
Qed.

Lemma rclient_spec t cs os g :
  Forall (λ c, ∀ m, cmd_member c = Some m → is_word 8 (member_slot m) ∧ is_word usize_bits (member_generation m)) cs →
  (∀ m, RLeave m ∈ cs ∨ RDead m ∈ cs → ends t (named m)) → joined t g = joined_of os →
  wp (rinv ends) (rely_of (rguar ends)) t (rclient cs os) (λ os g, joined t g = joined_of os) g.
Proof.
  intros Hok. revert os g. induction Hok as [|c cs Hc Hcs IH]; intros os g Hend Hg; cbn [rclient].
  { by apply wp_ret. }
  eapply wp_seq; [apply (rexec_spec t (joined_of os)); [done| |done]|].
  { intros m [-> | ->]; apply Hend; [left|right]; by left. }
  intros o g' HQ. apply IH; [|rewrite HQ; unfold joined_of; rewrite fmap_app, concat_app; cbn; by rewrite app_nil_r].
  intros m [?|?]; apply Hend; [left|right]; by right.
Qed.

Lemma rinv_init : rinv ends (mkGhost [] []) Root_init.
Proof.
  split; simpl; [done| | |constructor|by intros m ?%not_elem_of_nil].
  - intros i w [-> _]%lookup_replicate. done.
  - by intros m ?%not_elem_of_nil.
Qed.
End Clients.

(** C30: however threads interleave, and whatever identities their calls name, no
    two calls of [Root::join] ever return the same member; and a member whose
    identity nobody uses to leave or to declare it dead stays live in its slot.
    An identity stands for the member with its slot and the low 62 bits of its
    generation, which is all a word holds; [Root::join] only issues generations that
    fit, so an issued identity that is stale never ends or frees the
    membership of a later one. *)
Theorem members_unique css r ps :
  cmds_typed css → creach (rstart css) (r, ps) →
  (∀ t os, ps !! t = Some (Ret os) → NoDup (joined_of os)) ∧
  (∀ t t' os os' m, t ≠ t' → ps !! t = Some (Ret os) → ps !! t' = Some (Ret os') →
    m ∈ joined_of os → m ∉ joined_of os') ∧
  ∀ t os m, ps !! t = Some (Ret os) → m ∈ joined_of os →
    (∀ t', ¬ asks_end css t' m) →
    member_ok m ∧ r !! Z.to_nat (member_slot m) = Some (member_word m MEMBER_LIVE).
Proof.
  intros Hok Hreach. set (ends := asks_end css).
  eapply (rg_sound (rinv ends) (rely_of (rguar ends))) with (Q := λ t os g, joined t g = joined_of os)
    in Hreach as (g & [HI Hwp] & _).
  - simpl in *.
    assert (Hin : ∀ t os m, ps !! t = Some (Ret os) → m ∈ joined_of os → (t, m) ∈ issued g).
    { intros t os m Ht Hm. rewrite <- (Hwp _ _ Ht) in Hm. unfold joined in Hm.
      apply list_elem_of_fmap in Hm as ([t' m'] & -> & Hm). apply list_elem_of_filter in Hm as [Hm1 Hm].
      simpl in *. by subst. }
    assert (Hnd := rinv_nodup _ _ _ HI).
    split_and!.
    + intros t os Ht. rewrite <- (Hwp _ _ Ht). unfold joined.
      eapply sublist_NoDup; [exact Hnd|]. apply fmap_sublist, sublist_filter.
    + intros t t' os os' m Hne Ht Ht' Hm Hm'. apply (Hin _ _ _ Ht) in Hm. apply (Hin _ _ _ Ht') in Hm'.
      apply list_elem_of_lookup_1 in Hm as [i Hi]. apply list_elem_of_lookup_1 in Hm' as [j Hj].
      assert (i = j) as ->; [|congruence].
      eapply (NoDup_lookup (issued g).*2); [done|by rewrite list_lookup_fmap, Hi|by rewrite list_lookup_fmap, Hj].
    + intros t os m Ht Hm Hno.
      destruct (rinv_issued _ _ _ HI m) as (Hmok & _ & Hst).
      { apply list_elem_of_fmap. eexists. split; [|by eapply Hin]. done. }
      split; [done|]. rewrite member_word_pack by done. destruct Hst as [He|]; [|done].
      apply (rinv_who _ _ _ HI) in He as [t' He]. by apply Hno in He.
  - apply rely_of_refl.
  - apply rely_of_trans.
  - intros t os. apply joined_stable.
  - split; [apply rinv_init|]. intros t p Hp. simpl in Hp. apply list_lookup_fmap_Some in Hp as (cs & -> & Hcs).
    apply rclient_spec; [by eapply (Forall_lookup_1 _ css)| |done].
    intros m Hm. by exists cs, m.
Qed.

Lemma members_unique_witness :
  let css := [[RJoin; RLeave (mkMember 0 1); RJoin]; [RJoin; RDead (mkMember 0 (1 + 2 ^ 62)); RRelease (mkMember 200 1)]] in
  let c := sched (concat (replicate 12 [0; 1]%nat)) (rstart css) in
  (c.2 = [Ret [RJoined (Some (mkMember 0 1)); RAnswer true; RJoined (Some (mkMember 0 2))];
          Ret [RJoined (Some (mkMember 1 1)); RAnswer false; RAnswer false]]) ∧
  c.1 !! 0%nat = Some (member_word (mkMember 0 2) MEMBER_LIVE).
Proof.
  intros css c.
  assert (E : c.2 = [Ret [RJoined (Some (mkMember 0 1)); RAnswer true; RJoined (Some (mkMember 0 2))];
          Ret [RJoined (Some (mkMember 1 1)); RAnswer false; RAnswer false]]) by (vm_compute; reflexivity).
  split; [exact E|].
  destruct (members_unique css c.1 c.2) as (_ & _ & H).
  - repeat first [apply Forall_nil_2|apply Forall_cons_2]; intros m Hm; first [discriminate Hm|injection Hm as <-; vm_compute; repeat split; discriminate].
  - rewrite <- surjective_pairing. apply sched_reach.
  - apply (H 0%nat [RJoined (Some (mkMember 0 1)); RAnswer true; RJoined (Some (mkMember 0 2))] (mkMember 0 2)).
    + rewrite E. reflexivity.
    + right; left.
    + intros t' (cs & m' & Hcs & Hn & Hm). destruct t' as [|[|t']]; simpl in Hcs; [..|done]; injection Hcs as <-;
        destruct Hm as [Hm|Hm]; apply list_elem_of_In in Hm; simpl in Hm;
        repeat (destruct Hm as [Hm|Hm]; [try discriminate Hm; injection Hm as <-; discriminate Hn|]); done.
Defined.
