(* ===== verification/Mem.v ===== *)
(** * Mapped regions and their composition

    Models [src/src/mem.rs]: a mapping with its access rights, the placement of
    headers one after the other in it, region admission, and the checks of
    every projection from an offset. *)

From S2P Require Import Prelude Atomic Alloc Bytes Schema Header.

(** ** Data *)

(** [Access], a bit set. *)
Definition READ : Z := 1.
Definition WRITE : Z := Z.shiftl 1 1.
Definition EXEC : Z := Z.shiftl 1 2.

(** [Access::contains] *)
Definition contains (self other : Z) : bool := Z.land self other =? other.

Record Request := mkRequest { req_len : Z; req_access : Z }.

(** [mem::Error] *)
Inductive MemError :=
| PermissionDenied (requested : Z)
| UnenoughSpace (requested allocated : Z)
| MemContention
| LayoutClosed
| DuplicateAttachment
| MemInvalidHeader
| LayoutMismatch (field : LayoutField)
| PoisonedComposition
| ArithmeticOverflow
| ParticipantExhausted.

Inductive ProjectionError :=
| ReadOnly
| ProjectionOverflow
| OutOfBounds
| Misaligned
| Admission (e : AdmitError).

#[export] Instance MemError_eq_dec : EqDecision MemError.
Proof. solve_decision. Defined.
#[export] Instance ProjectionError_eq_dec : EqDecision ProjectionError.
Proof. solve_decision. Defined.

(** [Map]: where the mapping starts, its length and what it permits. *)
Record Map := mkMap { map_start : Z; map_len : Z; map_access : Z }.

(** [AddrSpan<usize>] *)
Record AddrSpan := mkAddrSpan { start_offset : Z; span_size : Z }.

Definition AddrSpan_null : AddrSpan := mkAddrSpan 0 0.
Definition is_null (s : AddrSpan) : bool := (start_offset s =? 0) || (span_size s =? 0).

(** [Region]: the mapping, the participant and the identity. *)
Record Region := mkRegion {
  rg_map : Map;
  rg_member : Member;
  rg_region : RegionId;
  rg_allow_init : bool;
}.

(** [Build]: the cursor of a composition. *)
Record Build := mkBuild { b_offset : Z; poisoned : bool }.

(** ** Mappings *)

(** [Map::permits] *)
Definition permits (m : Map) (access : Z) : result unit MemError :=
  if negb (contains (map_access m) access) then Err (PermissionDenied access) else Ok tt.

Definition overflow {T} (o : option T) : result T MemError := ok_or o ArithmeticOverflow.

(** [Map::reserve] of a type of layout [t]: the offset it gets and the next
    free one. *)
Definition reserve (m : Map) (t : Layout) (offset : Z) : result (Z * Z) MemError :=
  let? _u := permits m WRITE in
  let? candidate := overflow (checked_add (map_start m) offset) in
  let? padded := overflow (checked_add candidate (align t - 1)) in
  let aligned_address := Z.land padded (wnot usize_bits (align t - 1)) in
  let? end_ := overflow (checked_add aligned_address (size t)) in
  let? aligned := overflow (checked_sub aligned_address (map_start m)) in
  let? next := overflow (checked_sub end_ (map_start m)) in
  if map_len m <? next then Err (UnenoughSpace next (map_len m)) else Ok (aligned, next).

(** The error of an admission. *)
Definition admit_error (e : AdmitError) : MemError :=
  match e with
  | Contention => MemContention
  | Closed => LayoutClosed
  | DuplicateMember => DuplicateAttachment
  | InvalidHeader => MemInvalidHeader
  | Mismatch field => LayoutMismatch field
  end.

(** [Map::commit] and [Region::commit], given what [T::admit] answers. *)
Definition commit (m : Map) (admitted : result unit AdmitError) : result unit MemError :=
  let? _u := permits m WRITE in map_err admit_error admitted.

(** ** Regions *)

(** [Region::new] up to the admission of the root: the identity to ask for;
    [discovered] is what [published_region_at] answers. *)
Definition region_of (admission : RegionAdmission) (discovered : option RegionId) : result RegionId MemError :=
  match admission with
  | Create id | Expect id => Ok id
  | Discover => ok_or discovered MemInvalidHeader
  end.

Definition may_init (admission : RegionAdmission) : bool :=
  match admission with Create _ => true | _ => false end.

(** [Region::new]: the region and the offset after its root of layout [root];
    [admit_root] is the root's admission, [joined] what [join] answers. *)
Definition Region_new (m : Map) (root : Layout) (admission : RegionAdmission)
    (discovered : option RegionId) (admit_root : LayoutContext → result unit AdmitError)
    (joined : option Member) : result (Region * Z) MemError :=
  let? r := reserve m root 0 in
  let? region := region_of admission discovered in
  let ctx := mkLayoutContext region 0 (may_init admission) in
  let? _u := commit m (admit_root ctx) in
  let? member := ok_or joined ParticipantExhausted in
  Ok (mkRegion m member region (may_init admission), r.2).

(** ** Composition *)

(** [Build::reserve]: offset and end of the next piece. *)
Definition build_reserve (rg : Region) (t : Layout) (b : Build) : result (Z * Z) MemError :=
  if poisoned b then Err PoisonedComposition else reserve (rg_map rg) t (b_offset b).

Definition poison (b : Build) : Build := mkBuild (b_offset b) true.

(** [Build::commit_reserved] *)
Definition commit_reserved (rg : Region) (t : Layout) (admit_ : LayoutContext → result unit AdmitError)
    (offset expected_next : Z) (b : Build) : result Z MemError * Build :=
  if poisoned b then (Err PoisonedComposition, b) else
  match reserve (rg_map rg) t (b_offset b) with
  | Err e => (Err e, poison b)
  | Ok (at_, next) =>
    if negb (at_ =? offset) || negb (next =? expected_next) then (Err MemInvalidHeader, poison b) else
    let ctx := mkLayoutContext (rg_region rg) offset (rg_allow_init rg) in
    match commit (rg_map rg) (admit_ ctx) with
    | Err e => (Err e, poison b)
    | Ok _ => (Ok offset, mkBuild next (poisoned b))
    end
  end.

(** [Reservation::remaining_after] *)
Definition remaining_after (rg : Region) (next : Z) : Z := saturating_sub (map_len (rg_map rg)) next.

(** [Build::push] *)
Definition push (rg : Region) (t : Layout) (admit_ : LayoutContext → result unit AdmitError) (b : Build)
    : result Z MemError * Build :=
  match build_reserve rg t b with
  | Err e => (Err e, b)
  | Ok (offset, next) => commit_reserved rg t admit_ offset next b
  end.

(** ** Projections *)

(** [Mapped::offset_of] of the address [pointer]. *)
Definition offset_of (rg : Region) (pointer size_ : Z) : result Z ProjectionError :=
  let? offset := ok_or (checked_sub pointer (map_start (rg_map rg))) OutOfBounds in
  let? end_ := ok_or (checked_add offset size_) ProjectionOverflow in
  if end_ <=? map_len (rg_map rg) then Ok offset else Err OutOfBounds.

(** [Mapped::ref_at::<U>] for a [U] of layout [u]: the address. *)
Definition ref_at (rg : Region) (u : Layout) (offset : Z) : result Z ProjectionError :=
  let? end_ := ok_or (checked_add offset (size u)) ProjectionOverflow in
  if map_len (rg_map rg) <? end_ then Err OutOfBounds else
  let pointer := map_start (rg_map rg) + offset in
  if negb (pointer mod align u =? 0) then Err Misaligned else Ok pointer.

(** [Mapped::admit_at] up to the admission: the address and context. *)
Definition admit_target (rg : Region) (storage_ : option Layout) (offset : Z) (allow : bool)
    : result (Z * LayoutContext) ProjectionError :=
  match permits (rg_map rg) WRITE with
  | Err _ => Err ReadOnly
  | Ok _ =>
    let? layout := ok_or storage_ (Admission InvalidHeader) in
    let? end_ := ok_or (checked_add offset (size layout)) ProjectionOverflow in
    if map_len (rg_map rg) <? end_ then Err OutOfBounds else
    let pointer := map_start (rg_map rg) + offset in
    if negb (pointer mod align layout =? 0) then Err Misaligned else
    Ok (pointer, mkLayoutContext (rg_region rg) offset allow)
  end.

(** [Mapped::admit_at] as a program over the header at the offset. *)
Definition admit_at {T} `{SharedLayout T} (rg : Region) (offset : Z) (conf : Config) (allow : bool)
    : prog (RcHeader T) (option (result unit ProjectionError)) :=
  match admit_target rg (storage conf) offset allow with
  | Err e => Ret (Some (Err e))
  | Ok (pointer, ctx) =>
    do r <- admit_layout pointer conf ctx (Some (member_slot (rg_member rg)));
    Ret (match r with Done r => Some (map_err Admission r) | Unwound | Spinning => None end)
  end.

(** [Region::mark_dead] *)
Definition Region_mark_dead (peer : Member) : prog Root (option Member) :=
  do marked <- mark_dead peer;
  if marked then Ret (Some peer) else
  do dead <- is_dead peer;
  Ret (if dead then Some peer else None).

(** [Region::detach] of a region not yet detached. *)
Definition Region_detach (rg : Region) : prog Root bool := root_leave (rg_member rg).

(** ** Placement *)

(** A mapping that lies in the address space. *)
Definition map_ok (m : Map) : Prop := 0 ≤ map_start m ∧ 0 ≤ map_len m ∧ map_start m + map_len m ≤ usize_max.

#[export] Instance map_ok_dec m : Decision (map_ok m).
Proof. unfold map_ok. apply _. Defined.

Lemma checked_add_spec x y r : checked_add x y = Some r → r = x + y ∧ x + y ≤ usize_max.
Proof. unfold checked_add. intros H. split_if_in H; [|done]. by injection H as <-. Qed.

Lemma checked_sub_spec x y r : checked_sub x y = Some r → r = x - y ∧ y ≤ x.
Proof. unfold checked_sub. intros H. split_if_in H; [|done]. by injection H as <-. Qed.

Lemma map_reserve_spec m t offset at_ next :
  map_ok m → layout_wf t → 0 ≤ offset → reserve m t offset = Ok (at_, next) →
  contains (map_access m) WRITE = true ∧
  offset ≤ at_ < offset + align t ∧ (map_start m + at_) mod align t = 0 ∧
  next = at_ + size t ∧ next ≤ map_len m.
Proof.
  intros (Hs & Hl & Hm) [Hp Hsz] Ho H. pose proof (power_pos _ Hp) as Hal.
  unfold reserve, permits, overflow in H. destruct (contains _ _) eqn:Hc; [|done]. simpl in H.
  destruct (checked_add (map_start m) offset) as [cand|] eqn:E1; [|done]. simpl in H.
  destruct (checked_add cand _) as [padded|] eqn:E2; [|done]. simpl in H.
  apply checked_add_spec in E1 as [-> H1]. apply checked_add_spec in E2 as [-> H2].
  change (Z.land ?p (wnot usize_bits (align t - 1))) with (align_down p (align t)) in H.
  assert (Hmax : align t ≤ usize_max).
  { unfold isize_max, usize_max, usize_bits in *. change (2 ^ (64 - 1)) with 9223372036854775808 in *.
    change (2 ^ 64 - 1) with 18446744073709551615. lia. }
  assert (Hround : align_down (map_start m + offset + (align t - 1)) (align t) = round_up (map_start m + offset) (align t)).
  { rewrite <- align_up_round by (done || lia). unfold align_up, align_down. do 2 f_equal. lia. }
  rewrite Hround in H. destruct (round_up_spec (map_start m + offset) (align t)) as [Hr Hd]; [lia|lia|].
  destruct (checked_add (round_up _ _) _) as [end_|] eqn:E3; [|done]. simpl in H.
  apply checked_add_spec in E3 as [-> H3].
  destruct (checked_sub (round_up _ _) _) as [al|] eqn:E4; [|done]. simpl in H.
  apply checked_sub_spec in E4 as [-> H4].
  destruct (checked_sub (_ + _) _) as [nx|] eqn:E5; [|done]. simpl in H.
  apply checked_sub_spec in E5 as [-> H5].
  split_if_in H; [done|]. injection H as <- <-.
  split_and!; [done|lia|lia| |lia|lia].
  apply Z.mod_divide; [lia|]. by replace (map_start m + (round_up (map_start m + offset) (align t) - map_start m))
    with (round_up (map_start m + offset) (align t)) by lia.
Qed.

(** ** Composition, piece by piece *)

(** The pieces of a composition: the layout and admission of each. *)
Abbreviation pieces := (list (Layout * (LayoutContext → result unit AdmitError))).

(** Pushes them in order, whatever each answers. *)
Fixpoint compose (rg : Region) (ps : pieces) (b : Build) : list (result Z MemError) * Build :=
  match ps with
  | [] => ([], b)
  | (t, a) :: ps =>
    let '(r, b) := push rg t a b in
    let '(rs, b) := compose rg ps b in (r :: rs, b)
  end.

Lemma push_cases rg t a b :
  map_ok (rg_map rg) → layout_wf t → 0 ≤ b_offset b →
  (∃ at_, push rg t a b = (Ok at_, mkBuild (at_ + size t) false) ∧ poisoned b = false ∧
    b_offset b ≤ at_ ∧ at_ + size t ≤ map_len (rg_map rg) ∧
    (map_start (rg_map rg) + at_) mod align t = 0 ∧
    a (mkLayoutContext (rg_region rg) at_ (rg_allow_init rg)) = Ok tt) ∨
  (∃ e, push rg t a b = (Err e, b) ∨ push rg t a b = (Err e, poison b)) ∧
    (poisoned b = true → push rg t a b = (Err PoisonedComposition, b)).
Proof.
  intros Hm Ht Hb. unfold push, build_reserve. destruct (poisoned b) eqn:Hp; [right; split; [eauto|done]|].
  destruct (reserve (rg_map rg) t (b_offset b)) as [[at_ next]|e] eqn:E; [|right; split; [eauto|done]].
  unfold commit_reserved. rewrite Hp, E, !Z.eqb_refl. cbn [negb orb].
  destruct (map_reserve_spec _ _ _ _ _ Hm Ht Hb E) as (Hw & Hat & Hal & -> & Hn).
  unfold commit, permits. rewrite Hw. cbn [negb].
  destruct (a _) as [[]|e] eqn:Ea; cbn [map_err]; [left|right; split; [eauto|done]].
  exists at_. split_and!; try done; lia.
Qed.

Lemma compose_from rg ps b rs b' :
  map_ok (rg_map rg) → Forall (λ p, layout_wf p.1) ps → 0 ≤ b_offset b →
  compose rg ps b = (rs, b') →
  length rs = length ps ∧ b_offset b ≤ b_offset b' ∧
  (poisoned b = true → Forall (eq (Err PoisonedComposition)) rs) ∧
  (∀ i at_ p, rs !! i = Some (Ok at_) → ps !! i = Some p →
    b_offset b ≤ at_ ∧ at_ + size p.1 ≤ map_len (rg_map rg) ∧ at_ + size p.1 ≤ b_offset b' ∧
    (map_start (rg_map rg) + at_) mod align p.1 = 0) ∧
  (∀ i j at_ at' p, (i < j)%nat → rs !! i = Some (Ok at_) → rs !! j = Some (Ok at') → ps !! i = Some p →
    at_ + size p.1 ≤ at').
Proof.
  intros Hm. revert b rs. induction ps as [|[t a] ps IH]; intros b rs Hwf Hb H; simpl in H.
  { injection H as <- <-. split_and!; [done|lia|constructor|done|done]. }
  apply Forall_cons in Hwf as [Ht Hwf]. simpl in Ht.
  destruct (push rg t a b) as [r b1] eqn:Ep. destruct (compose rg ps b1) as [rs1 b2] eqn:Ec. injection H as <- <-.
  assert (Hb1 : b_offset b ≤ b_offset b1 ∧ (poisoned b = true → poisoned b1 = true ∧ r = Err PoisonedComposition) ∧
    ∀ at_, r = Ok at_ → b_offset b ≤ at_ ∧ b_offset b1 = at_ + size t ∧ at_ + size t ≤ map_len (rg_map rg) ∧
      (map_start (rg_map rg) + at_) mod align t = 0).
  { destruct Ht as [? Hsz].
    destruct (push_cases rg t a b Hm ltac:(by split) Hb) as [(at_ & E & Hp & ? & ? & ? & _)|[[e [E|E]] Hpo]];
      rewrite E in Ep; injection Ep as <- <-; simpl.
    - split_and!; [lia|by rewrite Hp|]. by intros ? [= <-].
    - split_and!; [lia| |done]. intros Hp. by rewrite (Hpo Hp) in E; injection E as <-.
    - split_and!; [lia| |done]. intros Hp. by rewrite (Hpo Hp) in E; injection E as <-. }
  destruct Hb1 as (Hle & Hpo & Hok).
  destruct (IH b1 rs1 Hwf ltac:(lia) Ec) as (Hlen & Hle2 & Hpo2 & Hin & Hdis).
  split_and!; [simpl; lia|lia| | |].
  - intros Hp. destruct (Hpo Hp) as [Hp1 ->]. constructor; [done|by apply Hpo2].
  - intros [|i] at_ p Hi Hp; simpl in Hi, Hp.
    + injection Hi as ->. injection Hp as <-. destruct (Hok at_ eq_refl) as (? & ? & ? & ?). simpl. split_and!; try done; lia.
    + destruct (Hin i at_ p Hi Hp) as (? & ? & ? & ?). split_and!; try done; lia.
  - intros [|i] [|j] at_ at' p Hij Hi Hj Hp; simpl in Hi, Hj, Hp; try lia.
    + injection Hi as ->. injection Hp as <-. simpl. destruct (Hok at_ eq_refl) as (? & ? & ? & ?).
      destruct (lookup_lt_is_Some_2 ps j) as [q Hq]; [apply lookup_lt_Some in Hj; lia|].
      destruct (Hin j at' q Hj Hq) as (? & _). lia.
    + eapply (Hdis i j); [lia|done..].
Qed.

(** Pieces pushed one after the other after the root of a region: each
    piece that is admitted is aligned for its type, inside the mapping, after
    the root and after every piece before it, and once a commit has failed
    nothing more is placed. *)
Theorem composition_apart m root adm disc ar j rg off ps rs b' :
  map_ok m → layout_wf root → Forall (λ p, layout_wf p.1) ps →
  Region_new m root adm disc ar j = Ok (rg, off) →
  compose rg ps (mkBuild off false) = (rs, b') →
  size root ≤ off ≤ map_len m ∧ map_access m = map_access (rg_map rg) ∧
  contains (map_access m) WRITE = true ∧
  (∀ i at_ p, rs !! i = Some (Ok at_) → ps !! i = Some p →
    off ≤ at_ ∧ at_ + size p.1 ≤ map_len m ∧ (map_start m + at_) mod align p.1 = 0) ∧
  (∀ i j at_ at' p, (i < j)%nat → rs !! i = Some (Ok at_) → rs !! j = Some (Ok at') → ps !! i = Some p →
    at_ + size p.1 ≤ at') ∧
  (poisoned b' = true → ∀ q, fst (push rg q.1 q.2 b') = Err PoisonedComposition).
Proof.
  intros Hm Hroot Hwf Hnew Hc. unfold Region_new in Hnew.
  destruct (reserve m root 0) as [[a0 n0]|] eqn:E; [|done]. simpl in Hnew.
  destruct (region_of adm disc) as [region|]; [|done]. destruct (commit m _) as [u|]; [|done].
  destruct j as [member|]; [|done]. simpl in Hnew. injection Hnew as <- <-.
  destruct (map_reserve_spec m root 0 a0 n0 Hm Hroot ltac:(lia) E) as (Hw & Ha & _ & -> & Hn).
  assert (Hsz := proj1 (proj2 Hroot)). cbn [snd] in Hc.
  assert (Hoff : 0 ≤ b_offset (mkBuild (a0 + size root) false)) by (cbn [b_offset]; lia).
  destruct (compose_from (mkRegion m member region (may_init adm)) ps _ rs b' Hm Hwf Hoff Hc) as (Hlen & Hle & _ & Hin & Hdis). simpl in *.
  split_and!; [lia|lia|done|done| |done|].
  - intros i at_ p Hi Hp. destruct (Hin i at_ p Hi Hp) as (? & ? & _ & ?). done.
  - intros Hp q. unfold push, build_reserve. by rewrite Hp.
Qed.

Lemma composition_apart_witness :
  let m := mkMap 4096 65536 3 in
  let ok := λ _ : LayoutContext, Ok (E := AdmitError) tt in
  let ps := [(mkLayout 200 8, ok); (mkLayout 96 64, ok); (mkLayout 100000 8, ok); (mkLayout 32 32, λ _, Err Contention);
             (mkLayout 8 8, ok)] in
  ∃ rg off rs b', Region_new m (mkLayout 640 8) (Create (mkRegionId 1 2)) None ok (Some (mkMember 0 1)) = Ok (rg, off) ∧
    compose rg ps (mkBuild off false) = (rs, b') ∧
    rs = [Ok 640; Ok 896; Err (UnenoughSpace 100992 65536); Err MemContention; Err PoisonedComposition] ∧
    640 + 200 ≤ 896.
Proof.
  intros m ok ps. do 4 eexists. split; [reflexivity|]. split; [vm_compute; reflexivity|]. split; [reflexivity|].
  refine (proj1 (proj2 (proj2 (proj2 (proj2 (composition_apart m (mkLayout 640 8) (Create (mkRegionId 1 2)) None ok
    (Some (mkMember 0 1)) _ _ ps _ _ _ _ _ eq_refl _))))) 0%nat 1%nat 640 896 (mkLayout 200 8, ok) _ _ _ _).
  - by_eval.
  - by_eval.
  - repeat constructor; by_eval.
  - vm_compute. reflexivity.
  - lia.
  - reflexivity.
  - reflexivity.
  - reflexivity.
Defined.
