(* ===== verification/Heap.v ===== *)
(** * The heap as its clients see it

    The interface of the region's allocator ([src/src/talc.rs], the [MapTalc]
    handle): allocation records, the operations under a mutation, and the word
    that says who is mutating the heap.  The allocator behind it is the class
    [HeapOps]; what its clients rely on are the laws of [HeapLaws]. *)

From S2P Require Import Prelude Alloc Mem.

(** ** Records and errors *)

(** [Meta]: the span of an allocation, from the heap's base. *)
Record Meta := mkMeta { view : AddrSpan }.

Definition Meta_null : Meta := mkMeta AddrSpan_null.
Definition Meta_is_null (m : Meta) : bool := is_null (view m).

(** [Meta::layout]: the size, at alignment one. *)
Definition Meta_layout (m : Meta) : Layout := mkLayout (span_size (view m)) 1.

(** [Meta::from_ptr] of an offset from the base. *)
Definition Meta_from (offset size_ : Z) : Meta := mkMeta (mkAddrSpan offset size_).

Inductive MutationError := HeapBusy (owner : Z) | HeapPoisoned | Exhausted | LayoutOverflow.

Inductive MutationState := MClean | MOwned (owner : Z) | MPoisoned.

#[export] Instance AddrSpan_eq_dec : EqDecision AddrSpan.
Proof. solve_decision. Defined.
#[export] Instance Meta_eq_dec : EqDecision Meta.
Proof. solve_decision. Defined.
#[export] Instance MutationError_eq_dec : EqDecision MutationError.
Proof. solve_decision. Defined.
#[export] Instance MutationState_eq_dec : EqDecision MutationState.
Proof. solve_decision. Defined.

(** ** The mutation word *)

Definition MUTATION_CLEAN : Z := 0.
Definition MUTATION_POISONED : Z := usize_max.

(** [owner_word] *)
Definition mutation_owner_word (slot : Z) : Z := slot + 1.

(** [MapTalc::mutation_state]; an owner is read back as a [u8]. *)
Definition mutation_state_of (word : Z) : MutationState :=
  if word =? MUTATION_CLEAN then MClean
  else if word =? MUTATION_POISONED then MPoisoned
  else MOwned (wrap 8 (word - 1)).

(** [Mutation::claim]: the answer and the word afterwards. *)
Definition mutation_claim (owner word : Z) : result unit MutationError * Z :=
  if word =? MUTATION_CLEAN then (Ok tt, mutation_owner_word owner)
  else if word =? MUTATION_POISONED then (Err HeapPoisoned, word)
  else (Err (HeapBusy (wrap 8 (word - 1))), word).

(** [poison_mutation] *)
Definition poison_mutation (owner word : Z) : bool * Z :=
  if word =? mutation_owner_word owner then (true, MUTATION_POISONED) else (false, word).

(** [MapTalc::clear_dead_owner] *)
Definition clear_dead_owner (owner word : Z) : bool * Z :=
  if word =? mutation_owner_word owner then (true, MUTATION_CLEAN)
  else (word =? MUTATION_CLEAN, word).

(** ** The allocator *)

(** [Talc::allocate] and [Talc::deallocate], on offsets from the heap's base. *)
Class HeapOps (H : Type) := {
  talc_allocate : Layout → H → option (Z * H);
  talc_deallocate : Z → Z → H → H;
}.

(** What clients rely on: a well-formed heap has a finite map of live blocks,
    from offset to size; allocation adds a block apart from the others,
    deallocation removes it. *)
Class HeapLaws (H : Type) `{HeapOps H} := {
  heap_wf : H → Prop;
  blocks : H → gmap Z Z;
  alloc_wf l h o h' : heap_wf h → layout_wf l → 0 < size l → talc_allocate l h = Some (o, h') →
    heap_wf h' ∧ 0 < o ∧ blocks h !! o = None ∧ blocks h' = <[o := size l]> (blocks h) ∧
    (∀ o' n', blocks h !! o' = Some n' → o + size l ≤ o' ∨ o' + n' ≤ o);
  free_wf o n h : heap_wf h → blocks h !! o = Some n →
    heap_wf (talc_deallocate o n h) ∧ blocks (talc_deallocate o n h) = delete o (blocks h);
}.

(** The bytes of the heap's memory, the allocator's own words among them. *)
Class HeapBytes (H : Type) := {
  heap_byte : Z → H → Z;
  set_heap_byte : Z → Z → H → H;
}.

(** What the holder of a block relies on: it may write any byte of it, and neither an
    allocation nor the release of another block writes one. *)
Class HeapBytesLaws (H : Type) `{HeapLaws H} `{HeapBytes H} := {
  byte_range x h : 0 ≤ heap_byte x h < 256;
  byte_set x v y h : heap_byte y (set_heap_byte x v h) = if y =? x then wrap 8 v else heap_byte y h;
  set_byte_wf x v h p n : heap_wf h → blocks h !! p = Some n → p ≤ x < p + n →
    heap_wf (set_heap_byte x v h) ∧ blocks (set_heap_byte x v h) = blocks h;
  alloc_keeps l h o h' p n x : heap_wf h → layout_wf l → 0 < size l → talc_allocate l h = Some (o, h') →
    blocks h !! p = Some n → p ≤ x < p + n → heap_byte x h' = heap_byte x h;
  free_keeps o n h p m x : heap_wf h → blocks h !! o = Some n → blocks h !! p = Some m → p ≠ o → p ≤ x < p + m →
    heap_byte x (talc_deallocate o n h) = heap_byte x h;
}.

(** ** Facts about the word *)

Lemma mutation_state_owner s : 0 ≤ s < PARTICIPANT_CAPACITY →
  mutation_state_of (mutation_owner_word s) = MOwned s.
Proof.
  unfold PARTICIPANT_CAPACITY, usize_bits. intros Hs. unfold mutation_state_of, mutation_owner_word, MUTATION_CLEAN.
  change MUTATION_POISONED with 18446744073709551615.
  destruct (Z.eqb_spec (s + 1) 0); [lia|]. destruct (Z.eqb_spec (s + 1) 18446744073709551615); [lia|].
  rewrite wrap_small; [f_equal; lia|]. unfold is_word. change (2 ^ 8) with 256. lia.
Qed.
