(* ===== verification/TalcGeo.v ===== *)
(** * The size classes of the heap

    [Geometry] of [src/src/talc.rs]: the bins of free chunks, linear below a
    threshold and logarithmic above it, and the choice of a geometry for an
    extent. *)

From S2P Require Import Prelude Alloc.

Definition WORD_BITS : Z := usize_bits.
Definition WORD_ALIGN : Z := 8.
Definition WORD_SIZE : Z := 8.

(** [size_of::<Tag>()], [size_of::<FreeNodeLink>()] (a nullable offset is two
    words) and [size_of::<FreeNode>()] (a link and an offset). *)
Definition TAG_SIZE : Z := 8.
Definition LINK_SIZE : Z := 16.
Definition FREE_NODE_SIZE : Z := 24.

(** [Chunk::MIN_TAG_OFFSET], [Chunk::MIN_CHUNK_SIZE] *)
Definition MIN_TAG_OFFSET : Z := FREE_NODE_SIZE.
Definition MIN_CHUNK_SIZE : Z := MIN_TAG_OFFSET + TAG_SIZE.

Inductive GeometryError := TooSmall | TooManyBins | InvalidGeometry.

#[export] Instance GeometryError_eq_dec : EqDecision GeometryError.
Proof. solve_decision. Defined.

Record HeapGeometry := mkHeapGeometry {
  g_bins : Z;
  g_linear : Z;
  g_linear_shift : Z;
  g_exponential_log : Z;
  g_divisions_log : Z;
  g_reserved : Z;
}.

#[export] Instance HeapGeometry_eq_dec : EqDecision HeapGeometry.
Proof. solve_decision. Defined.

Definition MIN_METADATA : Z := 512.
Definition MAX_METADATA : Z := Z.shiftl 16 10.
Definition METADATA_RATIO_SHIFT : Z := 10.
Definition MIN_LINEAR_SHIFT : Z := 4.
Definition MAX_DIVISIONS_LOG : Z := 3.
Definition DEFAULT_EXPONENTIAL_LOG : Z := 10.
Definition CANONICAL_BIN_BITS : Z := 129.

(** [usize::div_ceil] *)
Definition div_ceil (x y : Z) : Z := (x + y - 1) / y.

(** [Geometry::divisions] *)
Definition divisions (g : HeapGeometry) : Z := Z.shiftl 1 (g_divisions_log g).

(** [Geometry::availability_words] *)
Definition availability_words (g : HeapGeometry) (word_bits : Z) : Z := div_ceil (g_bins g) word_bits.

(** [Geometry::metadata_bytes] *)
Definition metadata_bytes (g : HeapGeometry) : Z :=
  g_bins g * LINK_SIZE + availability_words g WORD_BITS * WORD_SIZE.

(** [Geometry::budget] *)
Definition budget (extent : Z) : Z :=
  let budget := Z.shiftr extent METADATA_RATIO_SHIFT in
  if budget <? MIN_METADATA then MIN_METADATA
  else if MAX_METADATA <? budget then MAX_METADATA
  else budget.

(** [Geometry::bin] *)
Definition bin (g : HeapGeometry) (size : Z) : Z :=
  let size := Z.max size 1 in
  let exponential_start := Z.shiftl 1 (g_exponential_log g) in
  let index :=
    if size <? exponential_start then Z.shiftr (size - 1) (g_linear_shift g)
    else
      let octave := Z.log2 size in
      let base := Z.shiftl 1 octave in
      let division := Z.shiftr (wrap usize_bits (Z.shiftl (size - base) (g_divisions_log g))) octave in
      g_linear g + (octave - g_exponential_log g) * divisions g + division in
  Z.min index (g_bins g - 1).

(** [Geometry::validate]; the subtraction of one wraps. *)
Definition validate (g : HeapGeometry) (extent : Z) : result unit GeometryError :=
  if (extent <? MIN_CHUNK_SIZE)
     || negb (g_reserved g =? 0)
     || (g_bins g =? 0)
     || (g_linear g =? 0)
     || (g_exponential_log g <? g_linear_shift g)
     || (usize_bits <=? g_exponential_log g)
     || (MAX_DIVISIONS_LOG <? g_divisions_log g)
     || (WORD_BITS <? availability_words g WORD_BITS)
     || (extent <? metadata_bytes g + MIN_METADATA)
  then Err InvalidGeometry else
  let expected_linear := Z.shiftl 1 (g_exponential_log g - g_linear_shift g) in
  if negb (g_linear g =? expected_linear) || (g_bins g <? expected_linear) then Err InvalidGeometry else
  let max_log := Z.log2 extent in
  if max_log <? g_exponential_log g then Err InvalidGeometry else
  let exponential := g_bins g - g_linear g in
  if negb (exponential mod divisions g =? 0) then Err InvalidGeometry else
  let covered_log := wrapping_sub (g_exponential_log g + exponential / divisions g) 1 in
  if (covered_log <? max_log) || (g_bins g <=? bin g extent) then Err InvalidGeometry else
  Ok tt.

(** The answer of [new] and [auto] once a geometry is chosen. *)
Definition validated (g : HeapGeometry) (extent : Z) : result HeapGeometry GeometryError :=
  match validate g extent with Ok _ => Ok g | Err e => Err e end.

(** [Geometry::new] *)
Definition Geometry_new (extent linear_shift exponential_log divisions_log : Z)
    : result HeapGeometry GeometryError :=
  if (extent <? MIN_CHUNK_SIZE)
     || (exponential_log <? linear_shift)
     || (usize_bits <=? exponential_log)
     || (Z.log2 extent <? exponential_log)
     || (MAX_DIVISIONS_LOG <? divisions_log)
  then Err InvalidGeometry else
  let linear := Z.shiftl 1 (exponential_log - linear_shift) in
  let exponential := (Z.log2 extent - exponential_log + 1) * Z.shiftl 1 divisions_log in
  let bins := linear + exponential in
  if u16_max <? bins then Err TooManyBins else
  validated (mkHeapGeometry bins linear linear_shift exponential_log divisions_log 0) extent.

(** The inner loop of [Geometry::auto], down from [divisions_log]; [None] when
    it breaks. *)
Fixpoint auto_divisions (max_log exponential_log linear_shift max_bins : Z) (divisions_log : nat)
    : option HeapGeometry :=
  let linear := Z.shiftl 1 (exponential_log - linear_shift) in
  let divisions := Z.shiftl 1 (Z.of_nat divisions_log) in
  let exponential := (max_log - exponential_log + 1) * divisions in
  let bins := linear + exponential in
  if bins <=? max_bins then
    Some (mkHeapGeometry (wrap 16 bins) (wrap 16 linear) (wrap 8 linear_shift) (wrap 8 exponential_log)
            (wrap 8 (Z.of_nat divisions_log)) 0)
  else match divisions_log with
       | O => None
       | S divisions_log => auto_divisions max_log exponential_log linear_shift max_bins divisions_log
       end.

(** The outer loop, up from [linear_shift] for [turns] turns. *)
Fixpoint auto_linear (max_log exponential_log max_bins : Z) (turns : nat) (linear_shift : Z)
    : option HeapGeometry :=
  match turns with
  | O => None
  | S turns =>
    match auto_divisions max_log exponential_log linear_shift max_bins (Z.to_nat MAX_DIVISIONS_LOG) with
    | Some g => Some g
    | None => auto_linear max_log exponential_log max_bins turns (linear_shift + 1)
    end
  end.

Definition auto_choice (max_log max_bins : Z) : option HeapGeometry :=
  let exponential_log := Z.min max_log DEFAULT_EXPONENTIAL_LOG in
  let linear_shift := Z.min MIN_LINEAR_SHIFT exponential_log in
  auto_linear max_log exponential_log max_bins (Z.to_nat (exponential_log - linear_shift + 1)) linear_shift.

(** [max_bins] of [Geometry::auto] *)
Definition auto_bins (extent : Z) : Z :=
  Z.min (Z.min (budget extent * 8 / CANONICAL_BIN_BITS) (WORD_BITS * WORD_BITS)) u16_max.

(** [Geometry::auto] *)
Definition auto (extent : Z) : result HeapGeometry GeometryError :=
  if extent <? MIN_CHUNK_SIZE then Err TooSmall else
  match auto_choice (Z.log2 extent) (auto_bins extent) with
  | Some g => validated g extent
  | None => Err TooManyBins
  end.

(** ** Facts *)

(** What [validate] leaves behind. *)
Record geometry_wf (g : HeapGeometry) : Prop := {
  gwf_bins : 0 < g_bins g;
  gwf_words : availability_words g WORD_BITS ≤ WORD_BITS;
  gwf_shift : 0 ≤ g_linear_shift g ≤ g_exponential_log g;
  gwf_exp : g_exponential_log g < usize_bits;
  gwf_div : 0 ≤ g_divisions_log g ≤ MAX_DIVISIONS_LOG;
  gwf_linear : g_linear g = 2 ^ (g_exponential_log g - g_linear_shift g);
}.

(** The fields are unsigned. *)
Definition geometry_unsigned (g : HeapGeometry) : Prop :=
  0 ≤ g_bins g ∧ 0 ≤ g_linear g ∧ 0 ≤ g_linear_shift g ∧ 0 ≤ g_exponential_log g ∧ 0 ≤ g_divisions_log g.

#[export] Instance geometry_unsigned_dec g : Decision (geometry_unsigned g).
Proof. unfold geometry_unsigned. apply _. Defined.

Lemma validate_wf g extent : geometry_unsigned g → validate g extent = Ok tt →
  geometry_wf g ∧ metadata_bytes g + MIN_METADATA ≤ extent.
Proof.
  intros Hu Hv. unfold geometry_unsigned in Hu. unfold validate in Hv. repeat (split_if_in Hv; [discriminate Hv|]).
  rewrite Z.shiftl_1_l in *.
  split; [|lia]. split; done || lia.
Qed.

(** The exponential index of a size, unclamped. *)
Definition octave_index (g : HeapGeometry) (size : Z) : Z :=
  g_linear g + (Z.log2 size - g_exponential_log g) * divisions g +
  (size - 2 ^ Z.log2 size) * divisions g / 2 ^ Z.log2 size.

Lemma octave_rest size : 0 < size → 0 ≤ size - 2 ^ Z.log2 size < 2 ^ Z.log2 size.
Proof.
  intros H. pose proof (Z.log2_spec size H) as [? Hlt]. rewrite Z.pow_succ_r in Hlt by apply Z.log2_nonneg. lia.
Qed.

Lemma bin_unfold g size : geometry_wf g → size < 2 ^ 61 →
  bin g size = Z.min (if Z.max size 1 <? 2 ^ g_exponential_log g
                      then (Z.max size 1 - 1) / 2 ^ g_linear_shift g
                      else octave_index g (Z.max size 1)) (g_bins g - 1).
Proof.
  intros [] Hs. unfold bin. rewrite Z.shiftl_1_l. f_equal. destruct (Z.ltb_spec (Z.max size 1) (2 ^ g_exponential_log g)).
  - by rewrite Z.shiftr_div_pow2 by lia.
  - unfold octave_index, divisions. rewrite !Z.shiftl_1_l. f_equal.
    set (s := Z.max size 1) in *. pose proof (octave_rest s ltac:(lia)) as Hr. pose proof (Z.log2_nonneg s).
    assert (Hlog : Z.log2 s < 61) by (apply Z.log2_lt_pow2; lia).
    rewrite Z.shiftr_div_pow2, Z.shiftl_mul_pow2 by lia. rewrite wrap_small; [done|].
    unfold MAX_DIVISIONS_LOG in *. split; [pose proof (pow2_pos (g_divisions_log g)); nia|].
    assert (2 ^ Z.log2 s ≤ 2 ^ 60) by (apply Z.pow_le_mono_r; lia).
    assert (2 ^ g_divisions_log g ≤ 2 ^ 3) by (apply Z.pow_le_mono_r; lia).
    pose proof (pow2_pos (g_divisions_log g)). unfold usize_bits.
    change (2 ^ 64) with (2 ^ 60 * 16). change (2 ^ 3) with 8 in *. nia.
Qed.

Lemma divisions_pos g : geometry_wf g → 0 < divisions g.
Proof. intros []. unfold divisions. rewrite Z.shiftl_1_l. apply pow2_pos. lia. Qed.

Lemma octave_division g s : geometry_wf g → 0 < s →
  0 ≤ (s - 2 ^ Z.log2 s) * divisions g / 2 ^ Z.log2 s < divisions g.
Proof.
  intros Hg Hs. pose proof (octave_rest s Hs). pose proof (divisions_pos g Hg).
  split; [apply Z.div_pos; nia|]. apply Z.div_lt_upper_bound; nia.
Qed.

Lemma octave_index_mono g a b : geometry_wf g → 0 < a → a ≤ b → octave_index g a ≤ octave_index g b.
Proof.
  intros Hg Ha Hab. unfold octave_index.
  pose proof (octave_division g a Hg Ha). pose proof (octave_division g b Hg ltac:(lia)).
  pose proof (divisions_pos g Hg). pose proof (Z.log2_le_mono a b Hab).
  destruct (decide (Z.log2 a = Z.log2 b)) as [E|].
  - rewrite <- E in *. pose proof (octave_rest a Ha).
    assert ((a - 2 ^ Z.log2 a) * divisions g / 2 ^ Z.log2 a ≤ (b - 2 ^ Z.log2 a) * divisions g / 2 ^ Z.log2 a).
    { apply Z.div_le_mono; nia. }
    lia.
  - nia.
Qed.

Lemma bin_mono g a b : geometry_wf g → a ≤ b → b < 2 ^ 61 → bin g a ≤ bin g b.
Proof.
  intros Hg Hab Hb. rewrite !bin_unfold by (done || lia).
  assert (Hm : Z.max a 1 ≤ Z.max b 1) by lia. set (x := Z.max a 1) in *. set (y := Z.max b 1) in *.
  apply Z.min_le_compat_r. pose proof (pow2_pos (g_linear_shift g) ltac:(destruct Hg; lia)).
  destruct (Z.ltb_spec x (2 ^ g_exponential_log g)) as [Hx|Hx];
    destruct (Z.ltb_spec y (2 ^ g_exponential_log g)) as [Hy|Hy]; [|..|lia|].
  - apply Z.div_le_mono; lia.
  - pose proof (octave_division g y Hg ltac:(lia)). pose proof (divisions_pos g Hg). unfold octave_index.
    assert (g_exponential_log g ≤ Z.log2 y) by (apply Z.log2_le_pow2; lia).
    assert ((x - 1) / 2 ^ g_linear_shift g < g_linear g); [|nia].
    destruct Hg as [_ _ ? _ _ ->]. apply Z.div_lt_upper_bound; [lia|].
    rewrite <- Z.pow_add_r by lia. replace (_ + _) with (g_exponential_log g) by lia. lia.
  - apply octave_index_mono; [done|lia|done].
Qed.

Lemma bin_range g a : geometry_wf g → a < 2 ^ 61 → 0 ≤ bin g a < g_bins g.
Proof.
  intros Hg Ha. rewrite bin_unfold by done. pose proof Hg as []. split; [|lia].
  apply Z.min_glb; [|lia]. split_if.
  - apply Z.div_pos; [lia|]. apply pow2_pos. lia.
  - pose proof (octave_division g (Z.max a 1) Hg ltac:(lia)). pose proof (divisions_pos g Hg). unfold octave_index.
    assert (g_exponential_log g ≤ Z.log2 (Z.max a 1)) by (apply Z.log2_le_pow2; lia).
    pose proof (pow2_pos (g_exponential_log g - g_linear_shift g)). nia.
Qed.

(** Size classes respect sizes: with a validated geometry every size has a
    bin, a larger size never has a smaller bin, so that every chunk of a higher
    bin is larger than the size asked for. *)
Theorem bin_classes_ordered g extent a b :
  geometry_unsigned g → validate g extent = Ok tt → a < 2 ^ 61 → b < 2 ^ 61 →
  0 ≤ bin g a < g_bins g ∧ (a ≤ b → bin g a ≤ bin g b) ∧ (bin g a < bin g b → a < b).
Proof.
  intros Hu [Hg _]%validate_wf Ha Hb; [|done]. split_and!; [by apply bin_range|by apply bin_range|..].
  - intros. by apply bin_mono.
  - intros Hlt. apply Z.nle_gt. intros Hle. pose proof (bin_mono g b a Hg Hle Ha). lia.
Qed.

Lemma bin_classes_ordered_witness :
  let g := mkHeapGeometry 54 32 5 10 1 0 in
  validate g 1048576 = Ok tt ∧ bin g 1000 = 31 ∧ bin g 3000 = 34 ∧ 1000 < 3000.
Proof.
  intros g. assert (Hv : validate g 1048576 = Ok tt) by (vm_compute; reflexivity).
  split_and!; [exact Hv|vm_compute; reflexivity|vm_compute; reflexivity|].
  apply (bin_classes_ordered g 1048576 1000 3000); [by_eval|exact Hv|lia|lia|]. by_eval.
Defined.

(** ** The automatic choice *)

(** What makes a choice valid for every extent of the given logarithm, when
    there is room for the metadata. *)
Definition choice_valid (max_log budget_ : Z) (g : HeapGeometry) : bool :=
  bool_decide (geometry_unsigned g) && (g_reserved g =? 0) && negb (g_bins g =? 0) && negb (g_linear g =? 0) &&
  (g_linear_shift g <=? g_exponential_log g) && (g_exponential_log g <? usize_bits) &&
  (g_divisions_log g <=? MAX_DIVISIONS_LOG) && (availability_words g WORD_BITS <=? WORD_BITS) &&
  (g_linear g =? Z.shiftl 1 (g_exponential_log g - g_linear_shift g)) && (g_linear g <=? g_bins g) &&
  (g_exponential_log g <=? max_log) && ((g_bins g - g_linear g) mod divisions g =? 0) &&
  (max_log <=? wrapping_sub (g_exponential_log g + (g_bins g - g_linear g) / divisions g) 1) &&
  (metadata_bytes g + MIN_METADATA <=? Z.max 904 (2 ^ max_log)) && (metadata_bytes g <? budget_ + 8).

Definition budget_bins (b : Z) : Z := Z.min (Z.min (b * 8 / CANONICAL_BIN_BITS) (WORD_BITS * WORD_BITS)) u16_max.

Definition choice_good (max_log b : Z) : bool :=
  match auto_choice max_log (budget_bins b) with Some g => choice_valid max_log b g | None => false end.

(** Every logarithm with every budget its extents have. *)
Lemma choices_good :
  forallb (λ k, let lo := budget (2 ^ k) in let hi := budget (2 ^ (k + 1) - 1) in
    forallb (choice_good k) (seqZ lo (hi - lo + 1))) (seqZ 9 55) = true.
Proof. vm_compute. reflexivity. Qed.

Lemma budget_mono a b : 0 ≤ a ≤ b → budget a ≤ budget b.
Proof.
  intros H. unfold budget. rewrite !Z.shiftr_div_pow2 by done.
  assert (a / 2 ^ METADATA_RATIO_SHIFT ≤ b / 2 ^ METADATA_RATIO_SHIFT) by (apply Z.div_le_mono; [done|lia]).
  change MAX_METADATA with 16384. unfold MIN_METADATA. repeat split_if; lia.
Qed.

Lemma choice_good_at extent : 512 ≤ extent ≤ usize_max → choice_good (Z.log2 extent) (budget extent) = true.
Proof.
  intros [H1 H2]. pose proof (Z.log2_spec extent ltac:(lia)) as [Hlo Hhi].
  assert (9 ≤ Z.log2 extent) by (apply Z.log2_le_pow2; [lia|exact H1]).
  assert (Z.log2 extent < 64) by (apply Z.log2_lt_pow2; [lia|]; change usize_max with (2 ^ 64 - 1) in H2; lia).
  pose proof choices_good as G. rewrite forallb_forall in G.
  specialize (G (Z.log2 extent)). cbv zeta in G. rewrite forallb_forall in G. apply G.
  - apply list_elem_of_In, elem_of_seqZ. lia.
  - apply list_elem_of_In, elem_of_seqZ.
    pose proof (budget_mono (2 ^ Z.log2 extent) extent ltac:(lia)).
    pose proof (budget_mono extent (2 ^ (Z.log2 extent + 1) - 1) ltac:(unfold Z.succ in Hhi; lia)). lia.
Qed.

Lemma choice_valid_validate k b g extent :
  choice_valid k b g = true → k = Z.log2 extent → 904 ≤ extent → validate g extent = Ok tt.
Proof.
  intros Hc -> He. unfold choice_valid in Hc. bools. unfold validate. unfold geometry_unsigned in *.
  assert (2 ^ Z.log2 extent ≤ extent) by (apply Z.log2_spec; lia).
  repeat match goal with H : _ ∧ _ |- _ => destruct H end.
  repeat match goal with |- context [?x <? ?y] => destruct (Z.ltb_spec x y); try (unfold MIN_CHUNK_SIZE, MIN_TAG_OFFSET, FREE_NODE_SIZE, TAG_SIZE in *; lia) end.
  repeat match goal with |- context [?x =? ?y] => destruct (Z.eqb_spec x y); try lia end.
  repeat match goal with |- context [?x <=? ?y] => destruct (Z.leb_spec x y); try lia end; [|done].
  unfold bin in *. lia.
Qed.

Lemma auto_bins_budget extent : auto_bins extent = budget_bins (budget extent).
Proof. done. Qed.

(** The automatic geometry, on every extent. *)
Lemma auto_spec extent :
  0 ≤ extent ≤ usize_max →
  (is_ok (auto extent) = true ↔ 904 ≤ extent) ∧
  ∀ g, auto extent = Ok g →
    validate g extent = Ok tt ∧ geometry_unsigned g ∧ metadata_bytes g < budget extent + 8.
Proof.
  intros He. destruct (Z.lt_ge_cases extent 904) as [Hlt|Hge].
  - assert (Hno : is_ok (auto extent) = false).
    { apply negb_true_iff. apply (all_below_spec 904 (λ e, negb (is_ok (auto e)))); [vm_compute; reflexivity|lia]. }
    rewrite Hno. split; [split; [discriminate|lia]|]. intros g Hg. by rewrite Hg in Hno.
  - pose proof (choice_good_at extent ltac:(lia)) as Hc. unfold choice_good in Hc. unfold auto.
    rewrite auto_bins_budget. destruct (Z.ltb_spec extent MIN_CHUNK_SIZE) as [Hs|_];
      [unfold MIN_CHUNK_SIZE, MIN_TAG_OFFSET, FREE_NODE_SIZE, TAG_SIZE in Hs; lia|].
    destruct (auto_choice _ _) as [g|]; [|discriminate Hc].
    pose proof (choice_valid_validate _ _ _ _ Hc eq_refl Hge) as Hv. unfold validated. rewrite Hv.
    split; [done|]. intros g' [= <-]. unfold choice_valid in Hc. bools. split_and!; done || lia.
Qed.

(** The automatic geometry of an extent of 581 KiB has tables of 584 bytes,
    more than its budget of 581. *)
Lemma auto_exceeds_budget :
  ∃ g, auto (581 * 1024) = Ok g ∧ budget (581 * 1024) = 581 ∧ metadata_bytes g = 584.
Proof. eexists. split_and!; vm_compute; reflexivity. Qed.

(** C35: the automatic geometry exists exactly from 904 bytes on.  It is then
    valid for the extent, and its tables exceed the budget of the extent by less
    than one word; for an extent of 581 KiB they do exceed it, by three bytes. *)
Theorem auto_geometry_exists extent :
  0 ≤ extent ≤ usize_max →
  (is_ok (auto extent) = true ↔ 904 ≤ extent) ∧
  (∀ g, auto extent = Ok g →
    validate g extent = Ok tt ∧ geometry_unsigned g ∧ metadata_bytes g < budget extent + 8) ∧
  ∃ g, auto (581 * 1024) = Ok g ∧ budget (581 * 1024) = 581 ∧ metadata_bytes g = 584.
Proof. intros He. destruct (auto_spec extent He). split_and!; [done|done|apply auto_exceeds_budget]. Qed.

Lemma auto_geometry_exists_witness :
  is_ok (auto 1048576) = true ∧ validate (mkHeapGeometry 54 32 5 10 1 0) 1048576 = Ok tt.
Proof.
  destruct (auto_geometry_exists 1048576) as (H1 & H2 & _); [by_eval|]. split; [apply H1; lia|]. apply H2. vm_compute. reflexivity.
Defined.

