(* ===== verification/Talc.v ===== *)
(** * The general heap

    [src/src/talc.rs]: boundary tags, free lists, the bitmap of bins, and
    allocation and release of chunks.

    A pointer is its offset from the [TalcMeta] header ([base_ptr]), whose
    address is [base_addr]; memory is a map from offsets to words, all accesses
    are of aligned words.  A nullable offset ([FreeNodeLink]) is two words, the
    discriminant and the offset.  Assertions of debug builds are not part of
    the routines; [scan_errors] is modelled as the check it is. *)

From S2P Require Import Prelude Alloc TalcGeo.

(** ** Memory *)

(** [TalcMeta] and the memory behind it; [Rel::null] is [usize_max]. *)
Record TalcMeta := mkTalcMeta { summary : Z; avails : Z; bins : Z; memory : gmap Z Z }.

Definition REL_NULL : Z := usize_max.

(** [TalcMeta::null] over the given memory. *)
Definition TalcMeta_null (m : gmap Z Z) : TalcMeta := mkTalcMeta 0 REL_NULL REL_NULL m.

(** [size_of::<TalcMeta>()] *)
Definition META_SIZE : Z := 24.

Definition read (a : Z) (t : TalcMeta) : Z := default 0 (memory t !! a).

Definition write (a v : Z) (t : TalcMeta) : TalcMeta :=
  mkTalcMeta (summary t) (avails t) (bins t) (<[a := v]> (memory t)).

(** A [FreeNodeLink]. *)
Definition read_link (a : Z) (t : TalcMeta) : option Z :=
  if read a t =? 0 then None else Some (read (a + 8) t).

Definition write_link (a : Z) (l : option Z) (t : TalcMeta) : TalcMeta :=
  match l with
  | None => write a 0 t
  | Some r => write (a + 8) r (write a 1 t)
  end.

(** ** Tags *)

Definition ALLOCATED_FLAG : Z := Z.shiftl 1 0.
Definition IS_ABOVE_FREE_FLAG : Z := Z.shiftl 1 1.
Definition ALL_FLAG : Z := Z.lor IS_ABOVE_FREE_FLAG ALLOCATED_FLAG.
Definition TAG_BASE_MASK : Z := wnot usize_bits (Z.lor IS_ABOVE_FREE_FLAG ALLOCATED_FLAG).

Definition Tag_from_acme (acme : Z) : Z := acme - TAG_SIZE.
Definition Tag_to_acme (tag : Z) : Z := tag + TAG_SIZE.
Definition to_base_rel (tag_word : Z) : Z := Z.land tag_word TAG_BASE_MASK.
Definition is_above_free (tag_word : Z) : bool := negb (Z.land tag_word IS_ABOVE_FREE_FLAG =? 0).
Definition is_allocated (tag_word : Z) : bool := negb (Z.land tag_word ALLOCATED_FLAG =? 0).

(** [Tag::init] *)
Definition Tag_init (tag chunk_base : Z) (above_free : bool) (t : TalcMeta) : TalcMeta :=
  write tag (Z.lor chunk_base (if above_free then ALL_FLAG else ALLOCATED_FLAG)) t.

(** [Tag::acme_tag] *)
Definition acme_tag (tag chunk_acme : Z) (t : TalcMeta) : TalcMeta :=
  if negb (tag =? chunk_acme) then write chunk_acme tag t else t.

(** [Tag::toggle_above_free] *)
Definition toggle_above_free (tag : Z) (should_free : bool) (t : TalcMeta) : TalcMeta :=
  let cur := read tag t in
  write tag (if should_free then Z.lor cur IS_ABOVE_FREE_FLAG
             else Z.land cur (wnot usize_bits IS_ABOVE_FREE_FLAG)) t.

Definition set_above_free (tag : Z) : TalcMeta → TalcMeta := toggle_above_free tag true.
Definition clear_above_free (tag : Z) : TalcMeta → TalcMeta := toggle_above_free tag false.

(** ** Free lists

    A node is three words: its link, then [prev_next]; the head of a free chunk
    has its size behind the node, the tail the size again in its last word. *)

(** [FreeNode::insert]; the link of a node is at the node. *)
Definition node_insert (node : Z) (next : option Z) (prev_next : Z) (t : TalcMeta) : TalcMeta :=
  let t := write (node + LINK_SIZE) prev_next (write_link node next t) in
  let t := write_link prev_next (Some node) t in
  match next with
  | Some next => write (next + LINK_SIZE) node t
  | None => t
  end.

(** [FreeNode::insert_by] *)
Definition node_insert_by (node prev_next : Z) (t : TalcMeta) : TalcMeta :=
  node_insert node (read_link prev_next t) prev_next t.

(** [FreeNode::remove] *)
Definition node_remove (node : Z) (t : TalcMeta) : TalcMeta :=
  let next := read_link node t in
  let prev_next := read (node + LINK_SIZE) t in
  let t := write_link prev_next next t in
  match next with
  | Some next => write (next + LINK_SIZE) prev_next t
  | None => t
  end.

(** [FreeHead::size_low], [FreeHead::to_acme], [FreeHead::to_tail] *)
Definition size_low (head : Z) (t : TalcMeta) : Z := read (head + FREE_NODE_SIZE) t.
Definition head_to_acme (head : Z) (t : TalcMeta) : Z := head + size_low head t.
Definition head_to_tail (head : Z) (t : TalcMeta) : Z := head_to_acme head t - TAG_SIZE.

(** [FreeHead::init] *)
Definition FreeHead_init (head prev_next size : Z) (t : TalcMeta) : TalcMeta :=
  write (head + FREE_NODE_SIZE) size (node_insert_by head prev_next t).

(** [FreeHead::deinit] *)
Definition FreeHead_deinit (head : Z) (t : TalcMeta) : TalcMeta := node_remove head t.

(** [FreeTail::init] *)
Definition FreeTail_init (tail size_high : Z) (t : TalcMeta) : TalcMeta := write tail size_high t.

(** [FreeTail::to_head] *)
Definition tail_to_head (tail : Z) (t : TalcMeta) : Z := tail - (read tail t - TAG_SIZE).

(** ** Chunks *)

Record Chunk := mkChunk { chunk_base : Z; chunk_acme : Z }.

Definition size_by_range (c : Chunk) : Z := chunk_acme c - chunk_base c.
Definition prev_tag (c : Chunk) : Z := Tag_from_acme (chunk_base c).

Definition is_chunk_size (size : Z) : bool := MIN_CHUNK_SIZE <=? size.

(** [Chunk::is_chunk] *)
Definition is_chunk (base acme : Z) : bool := if acme <? base then false else is_chunk_size (acme - base).

Definition is_valid (c : Chunk) : bool := is_chunk (chunk_base c) (chunk_acme c).

(** [Chunk::chunk_size] *)
Definition chunk_size (size : Z) : Z :=
  if size <=? FREE_NODE_SIZE then MIN_CHUNK_SIZE else align_up (size + TAG_SIZE) WORD_ALIGN.

(** [Chunk::split_prefix]: the prefix, if any, and what is left. *)
Definition split_prefix (self : Chunk) (alloc_base : Z) : option Chunk * Chunk :=
  let prefix_acme := Z.min alloc_base (chunk_acme self - MIN_CHUNK_SIZE) in
  let prefix := mkChunk (chunk_base self) prefix_acme in
  if is_valid prefix then (Some prefix, mkChunk prefix_acme (chunk_acme self)) else (None, self).

(** [Chunk::split_suffix]: the suffix, if any, the tag, and what is left. *)
Definition split_suffix (self : Chunk) (alloc_acme : Z) : option Chunk * Z * Chunk :=
  let tag := Z.max (chunk_base self + MIN_TAG_OFFSET) alloc_acme in
  let suffix_base := tag + TAG_SIZE in
  let suffix := mkChunk suffix_base (chunk_acme self) in
  if is_valid suffix then (Some suffix, tag, mkChunk (chunk_base self) suffix_base)
  else (None, chunk_acme self - TAG_SIZE, self).

(** ** Searching words *)

Fixpoint pos_trailing (p : positive) : Z :=
  match p with
  | xO p => 1 + pos_trailing p
  | _ => 0
  end.

(** [usize::trailing_zeros] *)
Definition trailing_zeros (x : Z) : Z :=
  match x with Zpos p => pos_trailing p | _ => WORD_BITS end.

Section Talc.
Context (base_addr : Z) (g : HeapGeometry).

(** [AlignPtr::align_up] of a pointer. *)
Definition ptr_align_up (p al : Z) : Z := align_up (base_addr + p) al - base_addr.

(** [Tag::from_alloc_base] *)
Definition from_alloc_base (ptr size : Z) (t : TalcMeta) : Z :=
  let post := ptr_align_up (ptr + size) WORD_ALIGN in
  let tag_or_tag_rel := read post t in
  if post <? tag_or_tag_rel then tag_or_tag_rel else post.

(** [Tag::chunk] *)
Definition Tag_chunk (tag : Z) (t : TalcMeta) : Chunk := mkChunk (to_base_rel (read tag t)) (Tag_to_acme tag).

(** ** The bitmap *)

(** [TalcMeta::word_bit_idx] *)
Definition word_bit_idx (idx : Z) : Z * Z := (idx / WORD_BITS, idx mod WORD_BITS).

(** [TalcMeta::toggle_avail]; the flag only serves its assertions. *)
Definition toggle_avail (idx : Z) (t : TalcMeta) : TalcMeta :=
  let '(word_idx, bit_idx) := word_bit_idx idx in
  let at_ := avails t + WORD_SIZE * word_idx in
  let word := read at_ t in
  let was_empty := word =? 0 in
  let word := bit_flip word bit_idx in
  let is_empty := word =? 0 in
  let t := write at_ word t in
  if negb (Bool.eqb was_empty is_empty) then
    mkTalcMeta (if is_empty then Z.land (summary t) (wnot usize_bits (Z.shiftl 1 word_idx))
                else Z.lor (summary t) (Z.shiftl 1 word_idx)) (avails t) (bins t) (memory t)
  else t.

Definition set_avail : Z → TalcMeta → TalcMeta := toggle_avail.
Definition clear_avail : Z → TalcMeta → TalcMeta := toggle_avail.

(** [TalcMeta::bin_by_idx] *)
Definition bin_by_idx (idx : Z) (t : TalcMeta) : Z := bins t + LINK_SIZE * idx.

(** [TalcMeta::next_avail_bin_idx] *)
Definition next_avail_bin_idx (idx : Z) (t : TalcMeta) : option Z :=
  if g_bins g <=? idx then None else
  let word_idx := idx / WORD_BITS in
  let bit_idx := idx mod WORD_BITS in
  let shift_avails := Z.shiftr (read (avails t + WORD_SIZE * word_idx) t) bit_idx in
  if negb (shift_avails =? 0) then Some (idx + trailing_zeros shift_avails) else
  let next_word := word_idx + 1 in
  if availability_words g WORD_BITS <=? next_word then None else
  let summary := Z.land (summary t) (wrap usize_bits (Z.shiftl usize_max next_word)) in
  if summary =? 0 then None else
  let next_word := trailing_zeros summary in
  let word := read (avails t + WORD_SIZE * next_word) t in
  Some (next_word * WORD_BITS + trailing_zeros word).

(** ** Free chunks *)

(** [TalcMeta::insert_free] *)
Definition insert_free (head size : Z) (t : TalcMeta) : TalcMeta :=
  let bin_idx := bin g size in
  let bin_ptr := bin_by_idx bin_idx t in
  let t := if bool_decide (read_link bin_ptr t = None) then set_avail bin_idx t else t in
  let t := FreeHead_init head bin_ptr size t in
  FreeTail_init (head_to_tail head t) size t.

(** [TalcMeta::remove_free] *)
Definition remove_free (head bin_idx : Z) (t : TalcMeta) : TalcMeta :=
  let bin := bin_by_idx bin_idx t in
  let t := FreeHead_deinit head t in
  if bool_decide (read_link bin t = None) then clear_avail bin_idx t else t.

(** [TalcMeta::remove_free_by_head] *)
Definition remove_free_by_head (head : Z) (t : TalcMeta) : TalcMeta :=
  remove_free head (bin g (size_low head t)) t.

(** [TalcMeta::remove_free_by_tail]: the head and the state. *)
Definition remove_free_by_tail (tail : Z) (t : TalcMeta) : Z * TalcMeta :=
  let head := tail_to_head tail t in
  (head, remove_free_by_head head t).

(** ** Acquiring *)

(** The body of the search of [acquire_chunk]: whether the chunk at [head]
    serves, and then the chunk, the block and its end. *)
Definition fit (size align_ head : Z) (t : TalcMeta) : option (Chunk * Z * Z) :=
  let req_size := chunk_size size in
  let base := head in
  let acme := head_to_acme head t in
  if (req_size <=? size_low head t) && negb (WORD_ALIGN <? align_) then
    Some (mkChunk base acme, base, ptr_align_up (base + size) WORD_ALIGN)
  else
    let alloc_base := ptr_align_up base align_ in
    if alloc_base + req_size <=? acme then
      Some (mkChunk base acme, alloc_base, ptr_align_up (alloc_base + size) WORD_ALIGN)
    else None.

(** The free list from [cur] on; [None] when the turns run out. *)
Fixpoint search_list (turns : nat) (size align_ : Z) (cur : option Z) (t : TalcMeta)
    : option (option (Z * (Chunk * Z * Z))) :=
  match cur, turns with
  | None, _ => Some None
  | Some _, O => None
  | Some head, S turns =>
    match fit size align_ head t with
    | Some r => Some (Some (head, r))
    | None => search_list turns size align_ (read_link head t) t
    end
  end.

(** The loop over the bins from [bin_idx], which is available, on. *)
Fixpoint search_bins (rounds turns : nat) (size align_ bin_idx : Z) (t : TalcMeta)
    : option (option (Z * Z * (Chunk * Z * Z))) :=
  match rounds with
  | O => None
  | S rounds =>
    match search_list turns size align_ (read_link (bin_by_idx bin_idx t) t) t with
    | None => None
    | Some (Some (head, r)) => Some (Some (head, bin_idx, r))
    | Some None =>
      match next_avail_bin_idx (bin_idx + 1) t with
      | None => Some None
      | Some bin_idx => search_bins rounds turns size align_ bin_idx t
      end
    end
  end.

(** [TalcMeta::acquire_chunk]; there are as many rounds as bins. *)
Definition acquire_chunk (turns : nat) (size align_ : Z) (t : TalcMeta)
    : option (option (Chunk * Z * Z * TalcMeta)) :=
  match next_avail_bin_idx (bin g (chunk_size size)) t with
  | None => Some None
  | Some bin_idx =>
    match search_bins (Z.to_nat (g_bins g)) turns size align_ bin_idx t with
    | None => None
    | Some None => Some None
    | Some (Some (head, bin_idx, r)) => Some (Some (r, remove_free head bin_idx t))
    end
  end.

(** ** Allocation *)

(** [NonNull::dangling] as an offset. *)
Definition DANGLING : Z := 1 - base_addr.

(** What [allocate] does with the chunk it acquired. *)
Definition carve (free : Chunk) (alloc_base alloc_acme : Z) (t : TalcMeta) : TalcMeta :=
  let '(prefix, free) := split_prefix free alloc_base in
  let t := match prefix with
           | Some prefix => insert_free (chunk_base prefix) (size_by_range prefix) t
           | None => clear_above_free (prev_tag free) t
           end in
  let '(suffix, tag, free) := split_suffix free alloc_acme in
  let t := match suffix with
           | Some suffix =>
             Tag_init tag (chunk_base free) true (insert_free (chunk_base suffix) (size_by_range suffix) t)
           | None => Tag_init tag (chunk_base free) false t
           end in
  acme_tag tag alloc_acme t.

(** [TalcMeta::allocate]; [None] when the turns run out. *)
Definition allocate (turns : nat) (layout : Layout) (t : TalcMeta) : option (result Z unit * TalcMeta) :=
  if size layout =? 0 then Some (Ok DANGLING, t) else
  match acquire_chunk turns (size layout) (align layout) t with
  | None => None
  | Some None => Some (Err tt, t)
  | Some (Some (free, alloc_base, alloc_acme, t)) => Some (Ok alloc_base, carve free alloc_base alloc_acme t)
  end.

(** [TalcMeta::deallocate] *)
Definition deallocate (ptr size : Z) (t : TalcMeta) : TalcMeta :=
  if size =? 0 then t else
  let tag := from_alloc_base ptr size t in
  let chunk := Tag_chunk tag t in
  let prev := prev_tag chunk in
  let '(base, t) :=
    if negb (is_allocated (read prev t)) then remove_free_by_tail prev t
    else (chunk_base chunk, set_above_free prev t) in
  let '(acme, t) :=
    if is_above_free (read tag t) then
      let next_head := chunk_acme chunk in
      let next_size := size_low next_head t in
      (chunk_acme chunk + next_size, remove_free_by_head next_head t)
    else (chunk_acme chunk, t) in
  insert_free base (acme - base) t.

(** ** Initialization *)

Fixpoint write_words (a : Z) (n : nat) (t : TalcMeta) : TalcMeta :=
  match n with O => t | S n => write_words (a + WORD_SIZE) n (write a 0 t) end.

Fixpoint write_links (a : Z) (n : nat) (t : TalcMeta) : TalcMeta :=
  match n with O => t | S n => write_links (a + LINK_SIZE) n (write_link a None t) end.

(** [TalcMeta::claim_metadata]: the end of the tables. *)
Definition claim_metadata (ptr : Z) (t : TalcMeta) : Z * TalcMeta :=
  let words := availability_words g WORD_BITS in
  let t := write_words ptr (Z.to_nat words) t in
  let bins := ptr + WORD_SIZE * words in
  let t := write_links bins (Z.to_nat (g_bins g)) t in
  (bins + LINK_SIZE * g_bins g, mkTalcMeta (summary t) ptr bins (memory t)).

(** [TalcMeta::MIN_HEAP_SIZE] *)
Definition MIN_HEAP_SIZE : Z := MIN_CHUNK_SIZE + TAG_SIZE.

(** [TalcMeta::claim], the geometry of the configuration known. *)
Definition claim_heap (forward size : Z) (t : TalcMeta) : result unit unit * TalcMeta :=
  let base := ptr_align_up (META_SIZE + forward) WORD_ALIGN in
  let size := align_down size WORD_ALIGN in
  if negb (bins t =? REL_NULL) then
    if size <=? MIN_HEAP_SIZE then (Err tt, t) else
    (Ok tt, insert_free (base + TAG_SIZE) size (Tag_init base 0 true t))
  else
    if size <? metadata_bytes g + 2 * TAG_SIZE then (Err tt, t) else
    let t := Tag_init base 0 true t in
    let '(metadata_acme, t) := claim_metadata (base + TAG_SIZE) t in
    let metadata_tag_acme := metadata_acme + TAG_SIZE in
    let free_size := size - (metadata_tag_acme - base) in
    if is_chunk_size free_size then
      (Ok tt, Tag_init metadata_acme base true (insert_free metadata_tag_acme free_size t))
    else
      let acme := base + size in
      let tag := Tag_from_acme acme in
      (Ok tt, acme_tag tag acme (Tag_init tag base false t)).

(** ** The check of debug builds *)

(** [TalcMeta::scan_errors] on the list of one bin. *)
Fixpoint scan_list (turns : nat) (idx : Z) (cur : option Z) (t : TalcMeta) : option bool :=
  match cur, turns with
  | None, _ => Some true
  | Some _, O => None
  | Some head, S turns =>
    let '(word_idx, bit_idx) := word_bit_idx idx in
    let size_high := read (head_to_tail head t) t in
    let size_real := head_to_acme head t - head in
    let prev := read (Tag_from_acme head) t in
    if bit_check (read (avails t + WORD_SIZE * word_idx) t) bit_idx
       && (size_low head t =? size_high) && (size_high =? size_real)
       && is_above_free prev && is_allocated prev
    then scan_list turns idx (read_link head t) t
    else Some false
  end.

Fixpoint scan_bins (turns : nat) (idxs : list Z) (t : TalcMeta) : option bool :=
  match idxs with
  | [] => Some true
  | idx :: idxs =>
    match scan_list turns idx (read_link (bin_by_idx idx t) t) t with
    | Some true => scan_bins turns idxs t
    | r => r
    end
  end.

Definition scan_errors (turns : nat) (t : TalcMeta) : option bool := scan_bins turns (seqZ 0 (g_bins g)) t.
End Talc.
