(* ===== verification/TalcList.v ===== *)
(** * The free lists of the heap

    Each bin is a doubly linked list threaded through the free chunks, whose
    back links point at the link that leads to the node.  [node_insert_by] and
    [node_remove] are push and deletion on these lists; the bitmap says which of
    them are empty, and [next_avail_bin_idx] finds the next that is not. *)

From S2P Require Import Prelude Alloc TalcGeo Talc.

(** ** Memory *)

Lemma read_write a b v t : read a (write b v t) = if decide (a = b) then v else read a t.
Proof.
  unfold read, write. cbn [memory]. case_decide as E.
  - subst. by rewrite lookup_insert_eq.
  - by rewrite lookup_insert_ne by done.
Qed.

Lemma read_write_eq a v t : read a (write a v t) = v.
Proof. rewrite read_write. by rewrite decide_True. Qed.

Lemma read_write_ne a b v t : a ≠ b → read a (write b v t) = read a t.
Proof. intros. rewrite read_write. by rewrite decide_False. Qed.

(** Reads past a link that is written. *)
Lemma read_write_link_ne a b l t : a ≠ b → a ≠ b + 8 → read a (write_link b l t) = read a t.
Proof. intros. unfold write_link. destruct l; by rewrite !read_write_ne. Qed.

Lemma read_link_same a t t' : read a t' = read a t → read (a + 8) t' = read (a + 8) t →
  read_link a t' = read_link a t.
Proof. unfold read_link. by intros -> ->. Qed.

Lemma read_link_write_ne a b v t : a ≠ b → a + 8 ≠ b → read_link a (write b v t) = read_link a t.
Proof. intros. apply read_link_same; by apply read_write_ne. Qed.

Lemma read_link_eq a l t : read_link a (write_link a l t) = l.
Proof.
  unfold read_link, write_link. destruct l as [r|].
  - rewrite read_write_ne by lia. rewrite !read_write_eq. done.
  - by rewrite read_write_eq.
Qed.

Lemma read_link_ne a b l t : a + 16 ≤ b ∨ b + 16 ≤ a → read_link a (write_link b l t) = read_link a t.
Proof. intros. apply read_link_same; apply read_write_link_ne; lia. Qed.

(** A write changes memory only. *)
Lemma write_link_meta a l t :
  summary (write_link a l t) = summary t ∧ avails (write_link a l t) = avails t ∧ bins (write_link a l t) = bins t.
Proof. by destruct l. Qed.

Lemma node_insert_by_meta n p t :
  summary (node_insert_by n p t) = summary t ∧ avails (node_insert_by n p t) = avails t ∧
  bins (node_insert_by n p t) = bins t.
Proof. unfold node_insert_by, node_insert. destruct (read_link p t); by destruct (read_link p t). Qed.

Lemma node_remove_meta n t :
  summary (node_remove n t) = summary t ∧ avails (node_remove n t) = avails t ∧ bins (node_remove n t) = bins t.
Proof. unfold node_remove. by destruct (read_link n t). Qed.

(** ** Doubly linked lists *)

(** The last link of a list that starts at link [p]. *)
Definition end_link (p : Z) (l : list Z) : Z := default p (last l).

(** The links from [p] through the nodes of [l], forth and back. *)
Fixpoint dseg (t : TalcMeta) (p : Z) (l : list Z) : Prop :=
  match l with
  | [] => True
  | n :: l => read_link p t = Some n ∧ read (n + LINK_SIZE) t = p ∧ dseg t n l
  end.

Definition dll (t : TalcMeta) (p : Z) (l : list Z) : Prop :=
  dseg t p l ∧ read_link (end_link p l) t = None.

Lemma end_link_cons p n l : end_link p (n :: l) = end_link n l.
Proof. unfold end_link. rewrite last_cons. by destruct (last l). Qed.

Lemma end_link_in p l : end_link p l = p ∨ end_link p l ∈ l.
Proof.
  unfold end_link. destruct (last l) as [x|] eqn:E; [right|by left]. cbn.
  by apply last_Some_elem_of.
Qed.

Lemma dseg_app t p l1 l2 : dseg t p (l1 ++ l2) ↔ dseg t p l1 ∧ dseg t (end_link p l1) l2.
Proof.
  revert p. induction l1 as [|n l1 IH]; intros p.
  - cbn. change (end_link p []) with p. tauto.
  - cbn [dseg app]. rewrite end_link_cons, IH. tauto.
Qed.

Lemma end_link_app p l1 l2 : end_link p (l1 ++ l2) = end_link (end_link p l1) l2.
Proof.
  revert p. induction l1 as [|n l1 IH]; intros p; [done|]. cbn [app]. by rewrite !end_link_cons, IH.
Qed.

(** A segment reads the back links of its nodes and every link but its last. *)
Lemma dseg_frame t t' p l :
  NoDup (p :: l) → dseg t p l →
  (∀ n, n ∈ l → read (n + LINK_SIZE) t' = read (n + LINK_SIZE) t) →
  (∀ x, x ∈ p :: l → x ≠ end_link p l → read_link x t' = read_link x t) →
  dseg t' p l.
Proof.
  revert p. induction l as [|n l IH]; intros p Hnd Hs Hb Hl; [done|].
  destruct Hs as (H1 & H2 & H3). apply NoDup_cons in Hnd as [Hp Hnd]. cbn [dseg]. split_and!.
  - rewrite Hl; [done|by left|]. intros E. rewrite end_link_cons in E. apply Hp. rewrite E.
    destruct (end_link_in n l) as [->|]; [by left|by right].
  - by rewrite Hb by set_solver.
  - apply IH; [done|done|set_solver|]. intros x Hx Hne. apply Hl; [set_solver|]. by rewrite end_link_cons.
Qed.

(** Two words or more between nodes. *)
Definition apart (l : list Z) : Prop := ∀ x y, x ∈ l → y ∈ l → x ≠ y → x + FREE_NODE_SIZE ≤ y ∨ y + FREE_NODE_SIZE ≤ x.

(** The link [p] is not in a node. *)
Definition off_nodes (p : Z) (l : list Z) : Prop := ∀ n, n ∈ l → p + LINK_SIZE ≤ n ∨ n + FREE_NODE_SIZE ≤ p.

Lemma off_nodes_nodup p l : NoDup l → off_nodes p l → NoDup (p :: l).
Proof.
  intros. constructor; [|done]. intros Hp. destruct (H0 p Hp); unfold LINK_SIZE, FREE_NODE_SIZE in *; lia.
Qed.

(** A list whose own words are untouched. *)
Lemma dll_frame t t' p l :
  dll t p l →
  read p t' = read p t → read (p + 8) t' = read (p + 8) t →
  (∀ n a, n ∈ l → n ≤ a < n + FREE_NODE_SIZE → read a t' = read a t) →
  dll t' p l.
Proof.
  unfold FREE_NODE_SIZE. intros [Hs He] Hp Hp8 Hn.
  assert (Hl : ∀ x, x = p ∨ x ∈ l → read_link x t' = read_link x t).
  { intros x [->|Hx]; apply read_link_same; try done; apply (Hn x); done || lia. }
  split.
  - clear He. revert p Hs Hp Hp8 Hl. induction l as [|n l IH]; intros p Hs Hp Hp8 Hl; [done|].
    destruct Hs as (H1 & H2 & H3). cbn [dseg]. split_and!.
    + by rewrite Hl by (by left).
    + rewrite (Hn n); [done|by left|unfold LINK_SIZE; lia].
    + apply IH; [set_solver|done|apply (Hn n); [by left|lia]|apply (Hn n); [by left|lia]|set_solver].
  - rewrite Hl; [done|]. apply end_link_in.
Qed.

Ltac mem_ne := repeat first
  [ rewrite read_write_eq
  | rewrite read_write_ne by (unfold LINK_SIZE, FREE_NODE_SIZE in *; lia)
  | rewrite read_write_link_ne by (unfold LINK_SIZE, FREE_NODE_SIZE in *; lia) ].

(** *** Insertion *)

(** The words an insertion before [l] may change. *)
Lemma node_insert_by_frame n p l t a :
  dll t p l →
  (a < n ∨ n + FREE_NODE_SIZE ≤ a) → (a < p ∨ p + LINK_SIZE ≤ a) →
  (∀ x, x ∈ l → a ≠ x + LINK_SIZE) →
  read a (node_insert_by n p t) = read a t.
Proof.
  unfold node_insert_by, node_insert. intros [Hs He] Hn Hp Hl.
  assert (Hx : ∀ x, read_link p t = Some x → a ≠ x + LINK_SIZE).
  { intros x E. destruct l as [|y l]; [unfold end_link in He; cbn in He; by rewrite He in E|].
    destruct Hs as (E' & _). rewrite E' in E. injection E as ->. apply Hl. by left. }
  destruct (read_link p t) as [x|]; [specialize (Hx x eq_refl)|]; by mem_ne.
Qed.

Lemma node_insert_by_dll n p l t :
  dll t p l → NoDup l → apart (n :: l) → n ∉ l → off_nodes p (n :: l) →
  dll (node_insert_by n p t) p (n :: l).
Proof.
  intros Hd Hnd Hap Hnl Hoff. pose proof Hd as [Hs He].
  pose proof (Hoff n ltac:(by left)) as Hpn.
  assert (Hx : ∀ x, x ∈ l → n + FREE_NODE_SIZE ≤ x ∨ x + FREE_NODE_SIZE ≤ n).
  { intros x Hx. apply Hap; [by left|by right|set_solver]. }
  assert (Hpx : ∀ x, x ∈ l → p + LINK_SIZE ≤ x ∨ x + FREE_NODE_SIZE ≤ p) by (intros; apply Hoff; by right).
  unfold apart, off_nodes, LINK_SIZE, FREE_NODE_SIZE in *.
  destruct l as [|x l].
  - unfold end_link in He. cbn in He. unfold node_insert_by, node_insert. rewrite He.
    split; [|change (end_link p [n]) with n].
    + cbn [dseg]. split_and!; [apply read_link_eq| |done]. mem_ne. done.
    + rewrite read_link_ne by lia. rewrite read_link_write_ne by (unfold LINK_SIZE; lia). apply read_link_eq.
  - destruct Hs as (H1 & H2 & H3). unfold node_insert_by, node_insert. rewrite H1.
    pose proof (Hx x ltac:(by left)). pose proof (Hpx x ltac:(by left)).
    match goal with |- dll ?t' _ _ => set (t1 := t') end.
    assert (Hframe : ∀ a, (a < n ∨ n + 24 ≤ a) → (a < p ∨ p + 16 ≤ a) → a ≠ x + 16 → read a t1 = read a t).
    { intros a Ha Hb Hc. unfold t1. by mem_ne. }
    assert (Hlx : ∀ y, y ∈ x :: l → read_link y t1 = read_link y t).
    { intros y Hy. pose proof (Hx y Hy). pose proof (Hpx y Hy).
      apply read_link_same; apply Hframe; try lia; (destruct (decide (y = x)); [lia|]);
        pose proof (Hap y x ltac:(by right) ltac:(by right; left) ltac:(done)); lia. }
    split.
    + cbn [dseg]. split_and!.
      * unfold t1. rewrite read_link_write_ne by (unfold LINK_SIZE; lia). apply read_link_eq.
      * unfold t1. by mem_ne.
      * unfold t1. rewrite read_link_write_ne by (unfold LINK_SIZE; lia). rewrite read_link_ne by lia.
        rewrite read_link_write_ne by (unfold LINK_SIZE; lia). apply read_link_eq.
      * unfold t1. by mem_ne.
      * apply (dseg_frame t); [|done| |].
        { done. }
        { intros y Hy. assert (y ≠ x) by (apply NoDup_cons in Hnd as [? _]; set_solver).
          pose proof (Hx y ltac:(by right)). pose proof (Hpx y ltac:(by right)).
          pose proof (Hap y x ltac:(by right; right) ltac:(by right; left) ltac:(done)).
          unfold LINK_SIZE. apply Hframe; lia. }
        { intros y Hy _. by apply Hlx. }
    + rewrite !end_link_cons in *. rewrite Hlx; [done|].
      destruct (end_link_in x l) as [->|]; [by left|by right].
Qed.

(** *** Removal *)

Lemma end_link_head t p l : dll t p l → read_link p t = head l.
Proof. intros [Hs He]. destruct l as [|n l]; [exact He|apply Hs]. Qed.

Lemma dll_split t p l1 n l2 : dll t p (l1 ++ n :: l2) →
  dseg t p l1 ∧ read_link (end_link p l1) t = Some n ∧ read (n + LINK_SIZE) t = end_link p l1 ∧ dll t n l2.
Proof.
  intros [Hs He]. apply dseg_app in Hs as [H1 (H2 & H3 & H4)]. rewrite end_link_app, end_link_cons in He. done.
Qed.

(** Removal changes one link and one back link of the list. *)
Lemma node_remove_frame n p l1 l2 t a :
  dll t p (l1 ++ n :: l2) →
  (a < end_link p l1 ∨ end_link p l1 + LINK_SIZE ≤ a) → (∀ x, x ∈ l2 → a ≠ x + LINK_SIZE) →
  read a (node_remove n t) = read a t.
Proof.
  intros Hd Hq Hl. destruct (dll_split _ _ _ _ _ Hd) as (_ & _ & Hb & Hd2). unfold node_remove. rewrite Hb.
  rewrite (end_link_head _ _ _ Hd2). destruct l2 as [|x l2]; cbn [head]; [by mem_ne|].
  pose proof (Hl x ltac:(by left)). by mem_ne.
Qed.

Section Remove.
Context (n p : Z) (l1 l2 : list Z) (t : TalcMeta).
Context (Hd : dll t p (l1 ++ n :: l2)) (Hnd : NoDup (l1 ++ n :: l2)).
Context (Hap : apart (l1 ++ n :: l2)) (Hoff : off_nodes p (l1 ++ n :: l2)).
Abbreviation q := (end_link p l1).
Abbreviation t' := (node_remove n t).

Lemma removed_frame a :
  (a < q ∨ q + 16 ≤ a) → (∀ x, x ∈ l2 → a ≠ x + 16) → read a t' = read a t.
Proof using Hd. intros. by apply (node_remove_frame n p l1 l2). Qed.

Lemma removed_apart x y : x ∈ l1 → y ∈ l2 → x + 24 ≤ y ∨ y + 24 ≤ x.
Proof using Hd Hnd Hap Hoff.
  intros Hx Hy. apply NoDup_app in Hnd as (_ & Hdis & _). apply Hap; [set_solver|set_solver|].
  intros ->. apply (Hdis y Hx). set_solver.
Qed.

(** The link that led to the node is in none of the later nodes, *)
Lemma removed_link_later x : x ∈ l2 → q + 16 ≤ x ∨ x + 24 ≤ q.
Proof using Hd Hnd Hap Hoff.
  intros Hx. destruct (end_link_in p l1) as [E|E].
  - rewrite E. apply Hoff. set_solver.
  - pose proof (removed_apart q x E Hx). lia.
Qed.

(** and is apart from every earlier link. *)
Lemma removed_link_earlier x : x ∈ p :: l1 → x ≠ q → x + 16 ≤ q ∨ q + 16 ≤ x.
Proof using Hd Hnd Hap Hoff.
  intros Hx Hne. unfold apart, off_nodes, LINK_SIZE, FREE_NODE_SIZE in *.
  destruct (end_link_in p l1) as [E|E].
  - apply elem_of_cons in Hx as [->|Hx]; [congruence|]. pose proof (Hoff x ltac:(set_solver)). rewrite E. lia.
  - apply elem_of_cons in Hx as [->|Hx].
    + pose proof (Hoff q ltac:(set_solver)). lia.
    + pose proof (Hap x q ltac:(set_solver) ltac:(set_solver) Hne). lia.
Qed.

Lemma removed_prefix : dseg t' p l1.
Proof using Hd Hnd Hap Hoff.
  pose proof (dll_split _ _ _ _ _ Hd) as (Hs1 & _). apply (dseg_frame t); [|done| |].
  - apply NoDup_app in Hnd as (? & _). apply off_nodes_nodup; [done|]. intros x Hx. apply Hoff. set_solver.
  - intros x Hx. unfold LINK_SIZE. apply removed_frame.
    + destruct (decide (x = q)) as [->|Hne]; [lia|].
      unfold apart, off_nodes, LINK_SIZE, FREE_NODE_SIZE in *. destruct (end_link_in p l1) as [E|E].
      * pose proof (Hoff x ltac:(set_solver)). rewrite E. lia.
      * pose proof (Hap x q ltac:(set_solver) ltac:(set_solver) Hne). lia.
    + intros y Hy. pose proof (removed_apart x y Hx Hy). lia.
  - intros x Hx Hne. pose proof (removed_link_earlier x Hx Hne).
    assert (∀ y, y ∈ l2 → x ≠ y + 16 ∧ x + 8 ≠ y + 16).
    { intros y Hy. apply elem_of_cons in Hx as [->|Hx]; [|pose proof (removed_apart x y Hx Hy); lia].
      pose proof (Hoff y ltac:(set_solver)) as Ho. unfold LINK_SIZE, FREE_NODE_SIZE in Ho. lia. }
    apply read_link_same; apply removed_frame; (lia || naive_solver).
Qed.

Lemma removed_later x : x ∈ l2 → read_link x t' = read_link x t.
Proof using Hd Hnd Hap Hoff.
  intros Hx. pose proof (removed_link_later x Hx).
  assert (∀ y, y ∈ l2 → x ≠ y + 16 ∧ x + 8 ≠ y + 16).
  { intros y Hy. destruct (decide (x = y)) as [->|Hne]; [lia|].
    pose proof (Hap x y ltac:(set_solver) ltac:(set_solver) Hne) as Ha. unfold FREE_NODE_SIZE in Ha. lia. }
  apply read_link_same; apply removed_frame; (lia || naive_solver).
Qed.

Lemma removed_suffix : dll t' q l2.
Proof using Hd Hnd Hap Hoff.
  pose proof (dll_split _ _ _ _ _ Hd) as (_ & _ & Hb & Hd2). pose proof removed_later as Hl2. pose proof removed_link_later as Hql.
  apply NoDup_app in Hnd as (_ & _ & [_ Hnd2]%NoDup_cons).
  assert (E : t' = match head l2 with
    | Some x => write (x + LINK_SIZE) q (write_link q (Some x) t)
    | None => write_link q None t
    end).
  { unfold node_remove. rewrite Hb, (end_link_head _ _ _ Hd2). by destruct l2. }
  destruct l2 as [|y l] eqn:El; cbn [head] in E.
  { split; [done|]. change (end_link q []) with q. rewrite E. apply read_link_eq. }
  pose proof (Hql y ltac:(by left)). destruct Hd2 as [(H1 & H2 & H3) He]. split.
  - cbn [dseg]. split_and!.
    + rewrite E. rewrite read_link_write_ne by (unfold LINK_SIZE; lia). apply read_link_eq.
    + rewrite E. by mem_ne.
    + apply (dseg_frame t); [done|done| |intros x Hx _; by apply Hl2].
      intros x Hx. pose proof (Hql x ltac:(by right)).
      assert (x ≠ y) by (apply NoDup_cons in Hnd2 as [? _]; set_solver).
      pose proof (Hap x y ltac:(set_solver) ltac:(set_solver) ltac:(done)). rewrite E. by mem_ne.
  - rewrite !end_link_cons in *. rewrite Hl2; [done|]. destruct (end_link_in y l) as [->|]; [by left|by right].
Qed.

Lemma node_remove_dll : dll t' p (l1 ++ l2).
Proof using Hd Hnd Hap Hoff.
  destruct removed_suffix as [H1 H2]. unfold dll. rewrite dseg_app, end_link_app. split; [|done].
  split; [exact removed_prefix|done].
Qed.
End Remove.
