(* ===== verification/TalcBits.v ===== *)
(** * The bitmap of the heap

    A word of bits per sixty-four bins and a summary word over these.
    [toggle_avail] keeps both levels in step, and [next_avail_bin_idx] answers
    the least available bin from an index on. *)

From S2P Require Import Prelude Alloc TalcGeo Talc TalcList.

(** ** Trailing zeros *)

Lemma pos_trailing_spec p :
  0 ≤ pos_trailing p ∧ Z.testbit (Zpos p) (pos_trailing p) = true ∧
  ∀ k, 0 ≤ k < pos_trailing p → Z.testbit (Zpos p) k = false.
Proof.
  induction p as [p _|p (H1 & H2 & H3)|]; cbn [pos_trailing].
  - split_and!; [done|done|lia].
  - change (Zpos p~0) with (2 * Zpos p). split_and!; [lia| |].
    + rewrite Z.add_1_l, Z.testbit_even_succ by lia. done.
    + intros k Hk. destruct (decide (k = 0)) as [->|]; [apply Z.testbit_even_0|].
      replace k with (Z.succ (k - 1)) by lia. rewrite Z.testbit_even_succ by lia. apply H3. lia.
  - split_and!; [done|done|lia].
Qed.

Lemma trailing_zeros_spec x : 0 < x →
  0 ≤ trailing_zeros x ∧ Z.testbit x (trailing_zeros x) = true ∧
  ∀ k, 0 ≤ k < trailing_zeros x → Z.testbit x k = false.
Proof. destruct x as [|p|p]; [lia|intros _; apply pos_trailing_spec|lia]. Qed.

Lemma testbit_word w x k : is_word w x → w ≤ k → Z.testbit x k = false.
Proof.
  intros [H0 Hx] Hk. destruct (Z.lt_ge_cases k 0); [by apply Z.testbit_neg_r|].
  destruct (decide (x = 0)) as [->|]; [apply Z.bits_0|].
  apply Z.bits_above_log2; [done|]. assert (Z.log2 x < w) by (apply Z.log2_lt_pow2; lia). lia.
Qed.

(** A word is zero exactly when it has no bit. *)
Lemma word_zero w x : is_word w x → (∀ k, 0 ≤ k < w → Z.testbit x k = false) → x = 0.
Proof.
  intros Hx Hk. apply Z.bits_inj_0. intros k.
  destruct (Z.lt_ge_cases k 0); [by apply Z.testbit_neg_r|].
  destruct (Z.lt_ge_cases k w); [apply Hk; lia|]. by apply (testbit_word w).
Qed.

Lemma land_word_l w x y : is_word w x → is_word w (Z.land x y).
Proof.
  intros [H0 Hx]. split; [apply Z.land_nonneg; by left|].
  destruct (Z.lt_ge_cases w 0); [rewrite Z.pow_neg_r in Hx by done; lia|].
  assert (Z.land x y = Z.land (Z.land x y) (Z.ones w)) as ->.
  { rewrite <- Z.land_assoc, (Z.land_comm y), Z.land_assoc. by rewrite Z.land_ones, Z.mod_small by done. }
  rewrite Z.land_ones by done. by apply Z.mod_pos_bound, pow2_pos.
Qed.

Lemma lor_word w x y : is_word w x → is_word w y → is_word w (Z.lor x y).
Proof.
  intros [H0 Hx] [H1 Hy]. split; [by apply Z.lor_nonneg|].
  destruct (Z.lt_ge_cases w 0); [rewrite Z.pow_neg_r in Hx by done; lia|].
  assert (Z.lor x y = Z.land (Z.lor x y) (Z.ones w)) as ->.
  { by rewrite Z.land_lor_distr_l, !Z.land_ones, !Z.mod_small by done. }
  rewrite Z.land_ones by done. by apply Z.mod_pos_bound, pow2_pos.
Qed.

(** ** The two levels *)

Section Bitmap.
Context (g : HeapGeometry) (Hg : geometry_wf g).

Abbreviation words := (availability_words g WORD_BITS).

Lemma words_cover i : 0 ≤ i < g_bins g → 0 ≤ i / WORD_BITS < words.
Proof using Hg.
  intros Hi. unfold availability_words, div_ceil, WORD_BITS, usize_bits. split; [apply Z.div_pos; lia|].
  apply Z.lt_le_trans with (i / 64 + 1); [lia|].
  replace (g_bins g + 64 - 1) with (g_bins g - 1 + 1 * 64) by lia. rewrite Z.div_add by done.
  pose proof (Z.div_le_mono i (g_bins g - 1) 64 ltac:(done) ltac:(lia)). lia.
Qed.

Definition avail_word (t : TalcMeta) (w : Z) : Z := read (avails t + WORD_SIZE * w) t.

(** The bitmap of [t] says [f]. *)
Record bitmap (t : TalcMeta) (f : Z → bool) : Prop := {
  bm_out i : i < 0 ∨ g_bins g ≤ i → f i = false;
  bm_word w : 0 ≤ w < words → is_word WORD_BITS (avail_word t w);
  bm_bit w k : 0 ≤ w < words → 0 ≤ k < WORD_BITS → Z.testbit (avail_word t w) k = f (w * WORD_BITS + k);
  bm_sum : is_word WORD_BITS (summary t);
  bm_sum_bit w : 0 ≤ w < WORD_BITS →
    Z.testbit (summary t) w = (w <? words) && negb (avail_word t w =? 0);
}.

Lemma bitmap_ext t f f' : (∀ i, f i = f' i) → bitmap t f → bitmap t f'.
Proof. intros E []. split; intros; rewrite <- ?E; auto. Qed.

(** The bitmap reads its own words. *)
Lemma bitmap_frame t t' f :
  bitmap t f → summary t' = summary t → avails t' = avails t →
  (∀ a, avails t ≤ a < avails t + WORD_SIZE * words → read a t' = read a t) →
  bitmap t' f.
Proof.
  intros [] Hs Ha Hr.
  assert (Hw : ∀ w, 0 ≤ w < words → avail_word t' w = avail_word t w).
  { intros w Hw. unfold avail_word. rewrite Ha. apply Hr. unfold WORD_SIZE. lia. }
  split; [done|intros w H; rewrite Hw by done; auto|intros w k H Hk; rewrite Hw by done; auto|by rewrite Hs|].
  intros w H. rewrite Hs, bm_sum_bit0 by done. destruct (Z.ltb_spec w words); [|done]. by rewrite Hw by lia.
Qed.

Lemma toggle_meta idx t : avails (toggle_avail idx t) = avails t ∧ bins (toggle_avail idx t) = bins t.
Proof. unfold toggle_avail. cbn [word_bit_idx]. by split_if. Qed.

Lemma toggle_frame idx t a :
  a ≠ avails t + WORD_SIZE * (idx / WORD_BITS) → read a (toggle_avail idx t) = read a t.
Proof.
  intros Ha. unfold toggle_avail. cbn [word_bit_idx]. split_if; unfold read; cbn [memory write];
    by rewrite lookup_insert_ne.
Qed.

Lemma toggle_word idx t w : 0 ≤ w → 0 ≤ idx →
  avail_word (toggle_avail idx t) w =
    if decide (w = idx / WORD_BITS) then bit_flip (avail_word t w) (idx mod WORD_BITS) else avail_word t w.
Proof.
  intros Hw Hi. unfold avail_word. rewrite (proj1 (toggle_meta idx t)). case_decide as E.
  - subst w. unfold toggle_avail. cbn [word_bit_idx]. split_if; unfold read; cbn [memory write]; by rewrite lookup_insert_eq.
  - apply toggle_frame. unfold WORD_SIZE. lia.
Qed.

Lemma toggle_summary idx t :
  summary (toggle_avail idx t) =
    let w := idx / WORD_BITS in
    let old := avail_word t w in let new := bit_flip old (idx mod WORD_BITS) in
    if Bool.eqb (old =? 0) (new =? 0) then summary t
    else if new =? 0 then Z.land (summary t) (wnot usize_bits (Z.shiftl 1 w)) else Z.lor (summary t) (Z.shiftl 1 w).
Proof.
  unfold toggle_avail, avail_word. cbn [word_bit_idx].
  destruct (Bool.eqb _ _) eqn:E; cbn [negb]; cbv zeta; by rewrite ?E.
Qed.

Lemma bit_flip_word x k : is_word WORD_BITS x → 0 ≤ k < WORD_BITS → is_word WORD_BITS (bit_flip x k).
Proof.
  intros Hx Hk. unfold bit_flip. apply lxor_word; [done|done|]. rewrite Z.shiftl_1_l. unfold is_word.
  split; [apply Z.pow_nonneg; lia|]. apply Z.pow_lt_mono_r; [done|done|lia].
Qed.

Lemma bit_flip_bit x k j : 0 ≤ k → 0 ≤ j →
  Z.testbit (bit_flip x k) j = xorb (Z.testbit x j) (bool_decide (j = k)).
Proof.
  intros Hk Hj. unfold bit_flip. rewrite Z.lxor_spec, Z.shiftl_1_l. f_equal. case_bool_decide as E.
  - subst. by apply Z.pow2_bits_true.
  - apply Z.pow2_bits_false. lia.
Qed.

(** Setting and clearing one bit of the summary. *)
Lemma summary_set x w j : 0 ≤ w → 0 ≤ j →
  Z.testbit (Z.lor x (Z.shiftl 1 w)) j = Z.testbit x j || bool_decide (j = w).
Proof.
  intros Hw Hj. rewrite Z.lor_spec, Z.shiftl_1_l. f_equal. case_bool_decide as E; [subst; by apply Z.pow2_bits_true|].
  apply Z.pow2_bits_false. lia.
Qed.

Lemma summary_clear x w j : 0 ≤ w < usize_bits → 0 ≤ j < usize_bits →
  Z.testbit (Z.land x (wnot usize_bits (Z.shiftl 1 w))) j = Z.testbit x j && negb (bool_decide (j = w)).
Proof.
  intros Hw Hj. rewrite Z.land_spec. f_equal. unfold wnot. rewrite Z.shiftl_1_l, Z.sub_1_r, <- Z.ones_equiv.
  rewrite Z.sub_nocarry_ldiff.
  - rewrite Z.ldiff_spec, Z.ones_spec_low by lia. cbn [andb]. case_bool_decide as E.
    + subst. by rewrite Z.pow2_bits_true by lia.
    + by rewrite Z.pow2_bits_false by lia.
  - apply Z.bits_inj'. intros k Hk. rewrite Z.ldiff_spec, Z.bits_0. destruct (decide (k = w)) as [->|].
    + rewrite Z.ones_spec_low by lia. apply andb_false_r.
    + by rewrite Z.pow2_bits_false by lia.
Qed.

(** A summary bit follows its word from [old] to [new]. *)
Lemma toggled_summary_bit x old new wi w :
  Z.testbit x wi = negb (old =? 0) → 0 ≤ wi < WORD_BITS → 0 ≤ w < WORD_BITS →
  Z.testbit (if Bool.eqb (old =? 0) (new =? 0) then x
    else if new =? 0 then Z.land x (wnot usize_bits (Z.shiftl 1 wi)) else Z.lor x (Z.shiftl 1 wi)) w =
  if decide (w = wi) then negb (new =? 0) else Z.testbit x w.
Proof.
  intros Hs Hwi Hw. case_decide as E.
  - subst w. destruct (old =? 0), (new =? 0); cbn [Bool.eqb negb] in *; [done| | |done].
    + rewrite summary_set by lia. rewrite bool_decide_true by done. apply orb_true_r.
    + rewrite summary_clear by done. rewrite bool_decide_true by done. apply andb_false_r.
  - split_if; [done|]. split_if.
    + rewrite summary_clear by done. rewrite bool_decide_false by done. apply andb_true_r.
    + rewrite summary_set by lia. rewrite bool_decide_false by done. apply orb_false_r.
Qed.

(** [toggle_avail] flips one bin. *)
Lemma toggle_bitmap idx t f :
  bitmap t f → 0 ≤ idx < g_bins g →
  bitmap (toggle_avail idx t) (λ i, if decide (i = idx) then negb (f i) else f i).
Proof using Hg.
  intros [Hout Hword Hbit Hsum Hsb] Hi. pose proof (words_cover idx Hi) as Hwi.
  pose proof (Z.mod_pos_bound idx WORD_BITS ltac:(done)) as Hk. set (wi := idx / WORD_BITS) in *.
  assert (Hidx : idx = wi * WORD_BITS + idx mod WORD_BITS) by (pose proof (Z.div_mod idx WORD_BITS ltac:(done)); lia).
  assert (Hw64 : words ≤ WORD_BITS) by apply Hg.
  split.
  - intros i Hio. rewrite decide_False by lia. by apply Hout.
  - intros w Hw. rewrite toggle_word by lia. case_decide; [|by apply Hword]. apply bit_flip_word; [by apply Hword|done].
  - intros w k Hw Hkk. rewrite toggle_word by lia. fold wi. case_decide as E.
    + subst w. rewrite bit_flip_bit, Hbit by lia. case_bool_decide as Ek.
      * rewrite decide_True by (rewrite Hidx; subst k; lia). apply xorb_true_r.
      * rewrite decide_False by lia. apply xorb_false_r.
    + rewrite Hbit by done. rewrite decide_False; [done|]. unfold WORD_BITS, usize_bits in *. lia.
  - rewrite toggle_summary. cbv zeta. fold wi. split_if; [done|]. split_if.
    + apply land_word_l. done.
    + apply lor_word; [done|]. rewrite Z.shiftl_1_l. split; [apply Z.pow_nonneg; lia|apply Z.pow_lt_mono_r; lia].
  - intros w Hw. rewrite toggle_summary. cbv zeta. fold wi. rewrite toggle_word by lia. fold wi.
    pose proof (Hsb wi ltac:(lia)) as Hs. destruct (Z.ltb_spec wi words) as [Hlt|]; [|lia]. cbn [andb] in Hs.
    rewrite (toggled_summary_bit _ _ _ _ w Hs) by lia. case_decide as E.
    + subst w. by destruct (Z.ltb_spec wi words); [|lia].
    + by apply Hsb.
Qed.

(** The mask [Word::MAX << n]. *)
Lemma high_mask n k : 0 ≤ n < usize_bits → 0 ≤ k < usize_bits →
  Z.testbit (wrap usize_bits (Z.shiftl usize_max n)) k = (n <=? k).
Proof.
  intros Hn Hk. unfold wrap. rewrite Z.mod_pow2_bits_low, Z.shiftl_spec by lia.
  change usize_max with (Z.ones usize_bits). destruct (Z.leb_spec n k).
  - apply Z.ones_spec_low. lia.
  - by rewrite Z.testbit_neg_r by lia.
Qed.

(** The answer of a search from [idx]: the least available bin. *)
Definition least_from (f : Z → bool) (idx : Z) (r : option Z) : Prop :=
  match r with
  | Some j => idx ≤ j < g_bins g ∧ f j = true ∧ ∀ i, idx ≤ i < j → f i = false
  | None => ∀ i, idx ≤ i → f i = false
  end.

Lemma bitmap_true t f i : bitmap t f → f i = true → 0 ≤ i < g_bins g.
Proof. intros [] Hf. destruct (decide (0 ≤ i < g_bins g)); [done|]. rewrite bm_out0 in Hf by lia. done. Qed.

(** The rest of the word of [idx]. *)
Lemma shifted_avails t f idx k : bitmap t f → 0 ≤ idx < g_bins g → 0 ≤ k < WORD_BITS - idx mod WORD_BITS →
  Z.testbit (Z.shiftr (avail_word t (idx / WORD_BITS)) (idx mod WORD_BITS)) k = f (idx + k).
Proof using Hg.
  intros Hb Hi Hk. pose proof (words_cover idx Hi) as Hw. pose proof (Z.mod_pos_bound idx WORD_BITS ltac:(done)).
  rewrite Z.shiftr_spec by lia. rewrite (bm_bit _ _ Hb) by (done || lia). f_equal.
  pose proof (Z.div_mod idx WORD_BITS ltac:(done)). lia.
Qed.

(** The search through the summary, when nothing is left in the word. *)
Lemma next_words_spec t f idx : bitmap t f → 0 ≤ idx < g_bins g →
  (∀ i, idx ≤ i < (idx / WORD_BITS + 1) * WORD_BITS → f i = false) →
  least_from f idx
    (if words <=? idx / WORD_BITS + 1 then None else
     let summary := Z.land (summary t) (wrap usize_bits (Z.shiftl usize_max (idx / WORD_BITS + 1))) in
     if summary =? 0 then None else
     let next_word := trailing_zeros summary in
     Some (next_word * WORD_BITS + trailing_zeros (avail_word t next_word))).
Proof using Hg.
  intros Hb Hi Hrest. pose proof (words_cover idx Hi) as Hw. set (nw := idx / WORD_BITS + 1) in *.
  assert (Hw64 : words ≤ WORD_BITS) by apply Hg.
  assert (Hin : ∀ i, f i = true → idx ≤ i → nw ≤ i / WORD_BITS < words).
  { intros i Hf Hle. pose proof (words_cover i (bitmap_true _ _ _ Hb Hf)).
    destruct (Z.lt_ge_cases i (nw * WORD_BITS)); [by rewrite Hrest in Hf|].
    split; [|lia]. apply Z.div_le_lower_bound; [done|lia]. }
  assert (Hbit : ∀ i, f i = true → idx ≤ i → Z.testbit (avail_word t (i / WORD_BITS)) (i mod WORD_BITS) = true).
  { intros i Hf Hle. pose proof (Hin i Hf Hle). pose proof (Z.mod_pos_bound i WORD_BITS ltac:(done)).
    rewrite (bm_bit _ _ Hb) by (done || lia). rewrite <- Hf. f_equal. pose proof (Z.div_mod i WORD_BITS ltac:(done)). lia. }
  destruct (Z.leb_spec words nw) as [Hge|Hlt].
  { intros i Hle. destruct (f i) eqn:Ef; [|done]. pose proof (Hin i Ef Hle). lia. }
  cbv zeta. set (sm := Z.land _ _).
  assert (Hsm : ∀ w, 0 ≤ w < WORD_BITS → Z.testbit sm w = (nw <=? w) && (w <? words) && negb (avail_word t w =? 0)).
  { intros w Hww. unfold sm. rewrite Z.land_spec, high_mask, (bm_sum_bit _ _ Hb) by (unfold WORD_BITS in *; lia).
    destruct (nw <=? w); cbn [andb]; [apply andb_true_r|apply andb_false_r]. }
  assert (Hsw : is_word WORD_BITS sm) by apply land_word_l, (bm_sum _ _ Hb).
  assert (Hset : ∀ i, f i = true → idx ≤ i → Z.testbit sm (i / WORD_BITS) = true).
  { intros i Hf Hle. pose proof (Hin i Hf Hle). rewrite Hsm by lia.
    destruct (Z.leb_spec nw (i / WORD_BITS)); [|lia]. destruct (Z.ltb_spec (i / WORD_BITS) words); [|lia]. cbn [andb].
    destruct (Z.eqb_spec (avail_word t (i / WORD_BITS)) 0) as [E|]; [|done].
    pose proof (Hbit i Hf Hle) as Hb1. by rewrite E, Z.bits_0 in Hb1. }
  destruct (Z.eqb_spec sm 0) as [E|Hne].
  { intros i Hle. destruct (f i) eqn:Ef; [|done]. pose proof (Hset i Ef Hle) as Hb1. by rewrite E, Z.bits_0 in Hb1. }
  destruct (trailing_zeros_spec sm) as (H0 & H1 & H2); [destruct Hsw; lia|]. set (w := trailing_zeros sm) in *.
  assert (Hw1 : w < WORD_BITS) by (apply Z.nle_gt; intros Hle; by rewrite (testbit_word WORD_BITS) in H1).
  rewrite Hsm in H1 by lia. bools. assert (Hword := bm_word _ _ Hb w ltac:(lia)).
  destruct (trailing_zeros_spec (avail_word t w)) as (G0 & G1 & G2); [destruct Hword; lia|].
  set (k := trailing_zeros (avail_word t w)) in *.
  assert (Hk1 : k < WORD_BITS) by (apply Z.nle_gt; intros Hle; by rewrite (testbit_word WORD_BITS) in G1).
  rewrite (bm_bit _ _ Hb) in G1 by lia. pose proof (bitmap_true _ _ _ Hb G1).
  assert (nw * WORD_BITS ≤ w * WORD_BITS) by (apply Z.mul_le_mono_nonneg_r; [done|lia]).
  pose proof (Z.div_mod idx WORD_BITS ltac:(done)). pose proof (Z.mod_pos_bound idx WORD_BITS ltac:(done)).
  split_and!; [lia|lia|done|]. intros i Hi'. destruct (f i) eqn:Ef; [|done].
  pose proof (Hset i Ef ltac:(lia)) as Hs. pose proof (Hbit i Ef ltac:(lia)) as Hbb.
  pose proof (Z.div_mod i WORD_BITS ltac:(done)). pose proof (Z.mod_pos_bound i WORD_BITS ltac:(done)).
  destruct (Z.lt_trichotomy (i / WORD_BITS) w) as [Hc|[Hc|Hc]].
  - rewrite H2 in Hs by (pose proof (Hin i Ef ltac:(lia)); lia). done.
  - rewrite Hc in Hbb. rewrite G2 in Hbb by lia. done.
  - unfold WORD_BITS, usize_bits in *. lia.
Qed.

Lemma next_avail_spec t f idx : bitmap t f → 0 ≤ idx → least_from f idx (next_avail_bin_idx g idx t).
Proof using Hg.
  intros Hb Hi0. unfold next_avail_bin_idx. destruct (Z.leb_spec (g_bins g) idx) as [Hge|Hlt].
  { intros i Hi. apply (bm_out _ _ Hb). lia. }
  fold (avail_word t (idx / WORD_BITS)). pose proof (shifted_avails t f idx) as Hsh.
  pose proof (words_cover idx ltac:(lia)) as Hw. pose proof (Z.mod_pos_bound idx WORD_BITS ltac:(done)) as Hm.
  pose proof (Z.div_mod idx WORD_BITS ltac:(done)) as Hdm.
  set (sh := Z.shiftr (avail_word t (idx / WORD_BITS)) (idx mod WORD_BITS)) in *.
  assert (Hword := bm_word _ _ Hb _ Hw).
  assert (Hsh0 : 0 ≤ sh) by (apply Z.shiftr_nonneg; apply Hword).
  assert (Hhigh : ∀ k, WORD_BITS - idx mod WORD_BITS ≤ k → Z.testbit sh k = false).
  { intros k Hk. unfold sh. rewrite Z.shiftr_spec by lia. apply (testbit_word WORD_BITS); [done|lia]. }
  destruct (Z.eqb_spec sh 0) as [E0|Hne]; cbn [negb].
  - assert (Hrest : ∀ i, idx ≤ i < (idx / WORD_BITS + 1) * WORD_BITS → f i = false).
    { intros i Hi. replace i with (idx + (i - idx)) by lia. rewrite <- Hsh by (done || lia). rewrite E0. apply Z.bits_0. }
    by apply next_words_spec.
  - destruct (trailing_zeros_spec sh ltac:(lia)) as (Ht0 & Ht1 & Ht2).
    assert (Htz : trailing_zeros sh < WORD_BITS - idx mod WORD_BITS).
    { apply Z.nle_gt. intros Hle. by rewrite Hhigh in Ht1. }
    rewrite Hsh in Ht1 by (done || lia). pose proof (bitmap_true _ _ _ Hb Ht1). split_and!; [lia|lia|done|].
    intros i Hi. replace i with (idx + (i - idx)) by lia. rewrite <- Hsh by (done || lia). apply Ht2. lia.
Qed.
End Bitmap.
