(* ===== verification/TalcFree.v ===== *)
(** * The bins of the heap

    The free lists of all bins together with their bitmap, and what
    [insert_free] and [remove_free] make of them. *)

From S2P Require Import Prelude Alloc TalcGeo Talc TalcList TalcBits.

(** Replacing one list of a list of lists. *)
Lemma concat_insert (bs : list (list Z)) (i : nat) l l' : bs !! i = Some l →
  ∃ rest, concat bs ≡ₚ l ++ rest ∧ concat (<[i := l']> bs) ≡ₚ l' ++ rest.
Proof.
  intros Hi. exists (concat (take i bs) ++ concat (drop (S i) bs)).
  rewrite insert_take_drop by (by eapply lookup_lt_Some).
  rewrite <- (take_drop_middle bs i l Hi) at 1. rewrite !concat_app, !concat_cons. split; solve_Permutation.
Qed.

Lemma elem_of_concat (bs : list (list Z)) x : x ∈ concat bs ↔ ∃ i l, bs !! i = Some l ∧ x ∈ l.
Proof.
  rewrite list_elem_of_In, in_concat. split.
  - intros (l & Hl & Hx). apply list_elem_of_In, list_elem_of_lookup in Hl as [i Hi]. exists i, l. by rewrite list_elem_of_In.
  - intros (i & l & Hi & Hx). exists l. split; [by apply list_elem_of_In, list_elem_of_lookup; exists i|by apply list_elem_of_In].
Qed.

Lemma apart_perm l l' : l ≡ₚ l' → apart l → apart l'.
Proof. intros E H x y Hx Hy. rewrite <- E in Hx, Hy. by apply H. Qed.

(** Whether bin [i] has a chunk. *)
Definition avail (bs : list (list Z)) (i : Z) : bool :=
  (0 <=? i) && match bs !! Z.to_nat i with Some (_ :: _) => true | _ => false end.

Definition nonempty (l : list Z) : bool := match l with [] => false | _ => true end.

Lemma avail_at bs i l : bs !! i = Some l → avail bs (Z.of_nat i) = nonempty l.
Proof.
  intros Hi. unfold avail. destruct (Z.leb_spec 0 (Z.of_nat i)); [|lia]. rewrite Nat2Z.id, Hi. by destruct l.
Qed.

Lemma avail_insert bs i l l' j : bs !! i = Some l →
  avail (<[i := l']> bs) j = if decide (j = Z.of_nat i) then nonempty l' else avail bs j.
Proof.
  intros Hi. case_decide as E.
  - subst j. apply avail_at. apply list_lookup_insert_eq. by eapply lookup_lt_Some.
  - unfold avail. destruct (Z.leb_spec 0 j); [|done]. by rewrite list_lookup_insert_ne by lia.
Qed.

Section Free.
Context (g : HeapGeometry) (Hg : geometry_wf g).

Lemma words_nonneg : 0 ≤ availability_words g WORD_BITS.
Proof using Hg.
  destruct Hg. unfold availability_words, div_ceil, WORD_BITS, usize_bits. apply Z.div_pos; lia.
Qed.

(** The end of the tables of the heap. *)
Definition table_end (t : TalcMeta) : Z := bins t + LINK_SIZE * g_bins g.

(** The tables of [t] hold the lists [bs]. *)
Record lists (t : TalcMeta) (bs : list (list Z)) : Prop := {
  ls_len : Z.of_nat (length bs) = g_bins g;
  ls_tables : bins t = avails t + WORD_SIZE * availability_words g WORD_BITS;
  ls_dll i l : bs !! i = Some l → dll t (bins t + LINK_SIZE * Z.of_nat i) l;
  ls_above n : n ∈ concat bs → table_end t ≤ n;
  ls_apart : apart (concat bs);
  ls_nodup : NoDup (concat bs);
  ls_map : bitmap g t (avail bs);
}.

(** Outside the cells of the nodes. *)
Definition outside (l : list Z) (a : Z) : Prop := ∀ n, n ∈ l → a < n ∨ n + FREE_NODE_SIZE ≤ a.

(** Tables and nodes untouched. *)
Lemma lists_frame t t' bs :
  lists t bs → summary t' = summary t → avails t' = avails t → bins t' = bins t →
  (∀ a, avails t ≤ a < table_end t → read a t' = read a t) →
  (∀ n a, n ∈ concat bs → n ≤ a < n + FREE_NODE_SIZE → read a t' = read a t) →
  lists t' bs.
Proof.
  intros [Hlen Htab Hdll Hab Hap Hnd Hmap] Hs Ha Hb Ht Hn. unfold table_end, LINK_SIZE, WORD_SIZE in *.
  pose proof words_nonneg.
  split; unfold table_end; rewrite ?Ha, ?Hb; try done.
  - intros i l Hi. assert (Z.of_nat i < g_bins g) by (apply lookup_lt_Some in Hi; lia). unfold LINK_SIZE.
    eapply dll_frame; [by apply Hdll|apply Ht; lia|apply Ht; lia|].
    intros n a Hnl Hr. apply (Hn n); [|done]. apply elem_of_concat. eauto.
  - eapply bitmap_frame; [done|done|done|]. intros a Har. apply Ht. unfold WORD_SIZE in *. destruct Hg. lia.
Qed.

(** A write that is neither in the tables nor in a node. *)
Lemma lists_write t bs a v : lists t bs → table_end t ≤ a → outside (concat bs) a → lists (write a v t) bs.
Proof.
  intros Hl Ha Ho. apply (lists_frame t); [done..| |].
  - intros b Hb. apply read_write_ne. lia.
  - intros n b Hn Hb. apply read_write_ne. pose proof (Ho n Hn). lia.
Qed.

(** The list of bin [i], and its address. *)
Lemma lists_off t bs i l : lists t bs → bs !! i = Some l → off_nodes (bins t + LINK_SIZE * Z.of_nat i) l.
Proof.
  intros Hl Hi n Hn. left. assert (Z.of_nat i < g_bins g) by (apply lookup_lt_Some in Hi; pose proof (ls_len _ _ Hl); lia).
  pose proof (ls_above _ _ Hl n ltac:(apply elem_of_concat; eauto)) as Ha. unfold table_end, LINK_SIZE in *. lia.
Qed.

Lemma lists_sub t bs i l : lists t bs → bs !! i = Some l → NoDup l ∧ apart l.
Proof.
  intros Hl Hi. destruct (concat_insert bs i l l Hi) as (rest & E & _). split.
  - pose proof (ls_nodup _ _ Hl) as Hnd. rewrite E in Hnd. by apply NoDup_app in Hnd as (? & _).
  - intros x y Hx Hy. apply (ls_apart _ _ Hl); apply elem_of_concat; eauto.
Qed.

(** Bins of distinct lists are disjoint. *)
Lemma lists_disjoint t bs i j l l' x y :
  lists t bs → i ≠ j → bs !! i = Some l → bs !! j = Some l' → x ∈ l → y ∈ l' → x ≠ y.
Proof.
  intros Hl Hij Hi Hj Hx Hy ->. destruct (concat_insert bs i l l Hi) as (rest & E & _).
  pose proof (ls_nodup _ _ Hl) as Hnd. destruct (concat_insert bs i l [] Hi) as (rest' & E1 & E2).
  assert (Hr : y ∈ rest').
  { cbn in E2. rewrite <- E2. apply elem_of_concat. exists j, l'. split; [|done]. by rewrite list_lookup_insert_ne. }
  rewrite E1 in Hnd. apply NoDup_app in Hnd as (_ & Hdis & _). by apply (Hdis y).
Qed.

Abbreviation bin_at t i := (bins t + LINK_SIZE * Z.of_nat i).

(** One list changed, the others untouched. *)
Lemma lists_update t t' bs i l l' :
  lists t bs → bs !! i = Some l → avails t' = avails t → bins t' = bins t →
  dll t' (bin_at t i) l' →
  (∀ a, bins t ≤ a < table_end t → a < bin_at t i ∨ bin_at t i + LINK_SIZE ≤ a → read a t' = read a t) →
  (∀ j m x a, j ≠ i → bs !! j = Some m → x ∈ m → x ≤ a < x + FREE_NODE_SIZE → read a t' = read a t) →
  (∀ n, n ∈ l' → table_end t ≤ n) → apart (concat (<[i := l']> bs)) → NoDup (concat (<[i := l']> bs)) →
  bitmap g t' (avail (<[i := l']> bs)) →
  lists t' (<[i := l']> bs).
Proof.
  intros Hl Hi Ha Hb Hd Hcells Hothers Hab Hap Hnd Hbm. pose proof (lookup_lt_Some _ _ _ Hi) as Hlt.
  pose proof (ls_len _ _ Hl) as Hlen.
  split; rewrite ?Ha, ?Hb; try done.
  - by rewrite length_insert.
  - apply Hl.
  - intros j m Hj. destruct (decide (i = j)) as [<-|Hne].
    + rewrite list_lookup_insert_eq in Hj by done. by injection Hj as <-.
    + rewrite list_lookup_insert_ne in Hj by done. pose proof (lookup_lt_Some _ _ _ Hj).
      eapply dll_frame; [by apply Hl|..].
      * apply Hcells; unfold table_end, LINK_SIZE; lia.
      * apply Hcells; unfold table_end, LINK_SIZE; lia.
      * intros x a Hx Hr. by eapply (Hothers j).
  - intros n (j & m & Hj & Hn)%elem_of_concat. unfold table_end. rewrite Hb. destruct (decide (i = j)) as [<-|Hne].
    + rewrite list_lookup_insert_eq in Hj by done. injection Hj as <-. by apply Hab.
    + rewrite list_lookup_insert_ne in Hj by done. apply (ls_above _ _ Hl). apply elem_of_concat. eauto.
Qed.

(** *** Insertion *)

(** The bitmap before an insertion into bin [i]. *)
Definition mark (i : nat) (t : TalcMeta) : TalcMeta :=
  if bool_decide (read_link (bin_at t i) t = None) then toggle_avail (Z.of_nat i) t else t.

Lemma mark_meta i t : avails (mark i t) = avails t ∧ bins (mark i t) = bins t.
Proof. unfold mark. split_if; [apply toggle_meta|done]. Qed.

Lemma mark_frame i t bs a : lists t bs → (i < length bs)%nat → bins t ≤ a → read a (mark i t) = read a t.
Proof using Hg.
  intros Hl Hi Ha. unfold mark. split_if; [|done]. apply toggle_frame. rewrite (ls_tables _ _ Hl) in Ha.
  pose proof (words_cover g Hg (Z.of_nat i) ltac:(pose proof (ls_len _ _ Hl); lia)). unfold WORD_SIZE in *. lia.
Qed.

Lemma mark_bitmap i t bs l n : lists t bs → bs !! i = Some l → bitmap g (mark i t) (avail (<[i := n :: l]> bs)).
Proof using Hg.
  intros Hl Hi. assert (Hr : 0 ≤ Z.of_nat i < g_bins g) by (apply lookup_lt_Some in Hi; pose proof (ls_len _ _ Hl); lia).
  unfold mark. rewrite (end_link_head _ _ _ (ls_dll _ _ Hl _ _ Hi)).
  pose proof (λ j, avail_insert bs i l (n :: l) j Hi) as Hav. pose proof (avail_at _ _ _ Hi) as Hat.
  destruct l as [|x l]; cbn [head].
  - rewrite bool_decide_true by done. eapply bitmap_ext; [|apply toggle_bitmap; [done|apply Hl|done]].
    intros j. rewrite Hav. cbn beta. case_decide; [subst; by rewrite Hat|done].
  - rewrite bool_decide_false by done. eapply bitmap_ext; [|apply Hl]. intros j. rewrite Hav. case_decide; [by subst|done].
Qed.

Lemma mark_dll i t bs j m : lists t bs → (i < length bs)%nat → bs !! j = Some m → dll (mark i t) (bin_at t j) m.
Proof using Hg.
  intros Hl Hi Hj. assert (Hbm : ∀ n, n ∈ m → bins t ≤ n).
  { intros n Hn. pose proof (ls_above _ _ Hl n ltac:(apply elem_of_concat; eauto)). unfold table_end, LINK_SIZE in *.
    pose proof (gwf_bins _ Hg). lia. }
  eapply dll_frame; [by apply Hl|eapply mark_frame; [done..|unfold LINK_SIZE; lia]|eapply mark_frame; [done..|unfold LINK_SIZE; lia]|].
  intros n a Hn Ha. eapply mark_frame; [done..|]. specialize (Hbm n Hn). lia.
Qed.

Section Insert.
Context (t : TalcMeta) (bs : list (list Z)) (n size : Z) (i : nat) (l : list Z).
Context (Hl : lists t bs) (Hi : bs !! i = Some l) (Hbin : bin g size = Z.of_nat i).
Context (Hn : table_end t ≤ n) (Hsz : MIN_CHUNK_SIZE ≤ size).
Context (Hfree : ∀ x, x ∈ concat bs → x + FREE_NODE_SIZE ≤ n ∨ n + size ≤ x).

Abbreviation t' := (insert_free g n size t).

(** The state after the node is in its list. *)
Abbreviation t2 := (node_insert_by n (bin_at t i) (mark i t)).

Lemma insert_free_steps : t' = write (n + size - TAG_SIZE) size (write (n + FREE_NODE_SIZE) size t2).
Proof using Hbin.
  unfold insert_free, set_avail, bin_by_idx, FreeHead_init, FreeTail_init. rewrite Hbin. fold (mark i t).
  unfold head_to_tail, head_to_acme, size_low. by rewrite read_write_eq.
Qed.

Lemma insert_free_meta : avails t' = avails t ∧ bins t' = bins t.
Proof using Hbin.
  rewrite insert_free_steps. cbn [avails bins write].
  destruct (node_insert_by_meta n (bin_at t i) (mark i t)) as (_ & -> & ->). apply mark_meta.
Qed.

Lemma insert_range : (i < length bs)%nat ∧ Z.of_nat i < g_bins g.
Proof using Hl Hi. apply lookup_lt_Some in Hi. pose proof (ls_len _ _ Hl). lia. Qed.

(** What an insertion leaves alone. *)
Lemma insert_free_frame a :
  bins t ≤ a → a < bin_at t i ∨ bin_at t i + LINK_SIZE ≤ a → a < n ∨ n + FREE_NODE_SIZE ≤ a →
  a ≠ n + FREE_NODE_SIZE → a ≠ n + size - TAG_SIZE → (∀ x, x ∈ l → a ≠ x + LINK_SIZE) → read a t' = read a t.
Proof using Hg Hl Hi Hbin.
  intros H1 H2 H3 H4 H5 H6. rewrite insert_free_steps. rewrite !read_write_ne by done.
  destruct insert_range. rewrite (node_insert_by_frame n (bin_at t i) l); [|by eapply mark_dll|done..].
  by eapply mark_frame.
Qed.

Lemma insert_free_sizes : read (n + FREE_NODE_SIZE) t' = size ∧ read (n + size - TAG_SIZE) t' = size.
Proof using Hbin.
  rewrite insert_free_steps, read_write_eq. split; [|done]. rewrite read_write. case_decide; [done|]. apply read_write_eq.
Qed.

Lemma insert_fresh : (n ∉ concat bs) ∧ apart (n :: concat bs).
Proof using Hg Hl Hi Hbin Hn Hsz Hfree.
  unfold MIN_CHUNK_SIZE, MIN_TAG_OFFSET, TAG_SIZE, FREE_NODE_SIZE in *. split.
  - intros Hin. pose proof (Hfree n Hin). lia.
  - pose proof (ls_apart _ _ Hl) as Hap. unfold apart, FREE_NODE_SIZE in *.
    intros x y [->|Hx]%elem_of_cons [->|Hy]%elem_of_cons Hne; [done|..].
    + pose proof (Hfree y Hy). lia.
    + pose proof (Hfree x Hx). lia.
    + by apply Hap.
Qed.

Lemma insert_free_dll : dll t' (bin_at t i) (n :: l).
Proof using Hg Hl Hi Hbin Hn Hsz Hfree.
  destruct insert_range as [Hlen Hlt]. destruct insert_fresh as [Hnin Hap].
  assert (Hsub : ∀ x, x ∈ l → x ∈ concat bs) by (intros; apply elem_of_concat; eauto).
  assert (Hd2 : dll t2 (bin_at t i) (n :: l)).
  { apply node_insert_by_dll; [by eapply mark_dll|by eapply lists_sub| |by intros ?%Hsub|].
    - intros x y Hx Hy. apply Hap; set_solver.
    - intros x [->|Hx]%elem_of_cons; [|by eapply (lists_off t bs)]. left. unfold table_end, LINK_SIZE in *. lia. }
  rewrite insert_free_steps. unfold table_end, MIN_CHUNK_SIZE, MIN_TAG_OFFSET, LINK_SIZE, FREE_NODE_SIZE, TAG_SIZE in *.
  eapply dll_frame; [exact Hd2|by rewrite !read_write_ne by lia|by rewrite !read_write_ne by lia|].
  unfold FREE_NODE_SIZE. intros x a [->|Hx]%elem_of_cons Ha; [by rewrite !read_write_ne by lia|].
  pose proof (Hfree x (Hsub x Hx)). by rewrite !read_write_ne by lia.
Qed.

Lemma insert_free_lists : lists t' (<[i := n :: l]> bs).
Proof using Hg Hl Hi Hbin Hn Hsz Hfree.
  destruct insert_range as [Hlen Hlt]. destruct insert_fresh as [Hnin Hap]. destruct insert_free_meta as [Hma Hmb].
  destruct (concat_insert bs i l (n :: l) Hi) as (rest & E1 & E2).
  assert (E : concat (<[i := n :: l]> bs) ≡ₚ n :: concat bs) by (rewrite E2, E1; done).
  unfold table_end, MIN_CHUNK_SIZE, MIN_TAG_OFFSET, LINK_SIZE, FREE_NODE_SIZE, TAG_SIZE in *.
  apply (lists_update t t' bs i l); [done|done|done|done|exact insert_free_dll|..]; unfold table_end, LINK_SIZE, FREE_NODE_SIZE.
  - intros a Ha Hc. apply insert_free_frame; unfold LINK_SIZE, FREE_NODE_SIZE, TAG_SIZE; try lia.
    intros x Hx. pose proof (ls_above _ _ Hl x ltac:(apply elem_of_concat; eauto)) as Hx'. unfold table_end, LINK_SIZE in Hx'. lia.
  - intros j m x a Hne Hj Hx Ha. assert (Hxc : x ∈ concat bs) by (apply elem_of_concat; eauto).
    pose proof (Hfree x Hxc). pose proof (ls_above _ _ Hl x Hxc) as Hx'. unfold table_end, LINK_SIZE in Hx'.
    apply insert_free_frame; unfold LINK_SIZE, FREE_NODE_SIZE, TAG_SIZE; try lia.
    intros y Hy. pose proof (ls_apart _ _ Hl x y Hxc ltac:(apply elem_of_concat; eauto)) as Hxy. unfold FREE_NODE_SIZE in Hxy.
    pose proof (lists_disjoint _ _ _ _ _ _ _ _ Hl Hne Hj Hi Hx Hy). lia.
  - intros x [->|Hx]%elem_of_cons; [done|]. apply (ls_above _ _ Hl). apply elem_of_concat. eauto.
  - by apply (apart_perm (n :: concat bs)).
  - rewrite E. constructor; [done|apply Hl].
  - pose proof (mark_bitmap i t bs l n Hl Hi) as Hbm. rewrite insert_free_steps.
    destruct (node_insert_by_meta n (bin_at t i) (mark i t)) as (Hs & Ha & Hb). destruct (mark_meta i t) as [Hmka _].
    eapply bitmap_frame; [exact Hbm|done|done|]. intros a Hr. pose proof (ls_tables _ _ Hl) as Htab. rewrite Hmka in Hr.
    rewrite !read_write_ne by (unfold FREE_NODE_SIZE, TAG_SIZE; lia).
    apply (node_insert_by_frame n (bin_at t i) l); [by eapply mark_dll|unfold FREE_NODE_SIZE, LINK_SIZE; lia|unfold LINK_SIZE; lia|].
    intros x Hx. pose proof (ls_above _ _ Hl x ltac:(apply elem_of_concat; eauto)) as Hx'. unfold table_end, LINK_SIZE in *. lia.
Qed.
End Insert.

(** *** Removal *)

Section Remove.
Context (t : TalcMeta) (bs : list (list Z)) (n : Z) (i : nat) (l1 l2 : list Z).
Context (Hl : lists t bs) (Hi : bs !! i = Some (l1 ++ n :: l2)).

Abbreviation t' := (remove_free n (Z.of_nat i) t).
Abbreviation t1 := (node_remove n t).

Lemma unlink_range : (i < length bs)%nat ∧ Z.of_nat i < g_bins g.
Proof using Hl Hi. apply lookup_lt_Some in Hi. pose proof (ls_len _ _ Hl). lia. Qed.

Lemma unlink_dll : dll t1 (bin_at t i) (l1 ++ l2).
Proof using Hl Hi.
  apply node_remove_dll; [by apply Hl|by eapply lists_sub|by eapply lists_sub|by eapply lists_off].
Qed.

Lemma remove_free_steps : t' = if nonempty (l1 ++ l2) then t1 else toggle_avail (Z.of_nat i) t1.
Proof using Hl Hi.
  unfold remove_free, FreeHead_deinit, clear_avail, bin_by_idx. rewrite (end_link_head _ _ _ unlink_dll).
  by destruct (l1 ++ l2).
Qed.

Lemma remove_free_meta : avails t' = avails t ∧ bins t' = bins t.
Proof using Hl Hi.
  rewrite remove_free_steps. destruct (node_remove_meta n t) as (_ & <- & <-). split_if; [done|]. apply toggle_meta.
Qed.

(** Only the link that led to the node and the back link of the next change. *)
Lemma remove_free_frame a :
  bins t ≤ a → a < bin_at t i ∨ bin_at t i + LINK_SIZE ≤ a → outside (l1 ++ n :: l2) a → read a t' = read a t.
Proof using Hg Hl Hi.
  intros Hb Hc Ho. assert (Hr : read a t1 = read a t).
  { apply (node_remove_frame n (bin_at t i) l1 l2); [by apply Hl| |].
    - destruct (end_link_in (bin_at t i) l1) as [->|Hin]; [done|].
      pose proof (Ho _ ltac:(apply elem_of_app; left; exact Hin)). unfold LINK_SIZE, FREE_NODE_SIZE in *. lia.
    - intros x Hx. pose proof (Ho x ltac:(set_solver)). unfold LINK_SIZE, FREE_NODE_SIZE in *. lia. }
  rewrite remove_free_steps. split_if; [done|]. rewrite toggle_frame; [done|].
  destruct (node_remove_meta n t) as (_ & -> & _). rewrite (ls_tables _ _ Hl) in Hb. destruct unlink_range.
  pose proof (words_cover g Hg (Z.of_nat i) ltac:(lia)). unfold WORD_SIZE in *. lia.
Qed.

Lemma remove_free_bitmap : bitmap g t' (avail (<[i := l1 ++ l2]> bs)).
Proof using Hg Hl Hi.
  destruct unlink_range as [Hlen Hlt]. pose proof (λ j, avail_insert bs i _ (l1 ++ l2) j Hi) as Hav.
  pose proof (avail_at _ _ _ Hi) as Hat. assert (Hne : nonempty (l1 ++ n :: l2) = true) by (by destruct l1).
  destruct (node_remove_meta n t) as (Hs & Ha & _).
  assert (Hb1 : bitmap g t1 (avail bs)).
  { eapply bitmap_frame; [apply Hl|done|done|]. intros a Hr. pose proof (ls_tables _ _ Hl) as Htab.
    apply (node_remove_frame n (bin_at t i) l1 l2); [by apply Hl| |].
    - destruct (end_link_in (bin_at t i) l1) as [->|Hin]; [unfold LINK_SIZE; lia|].
      pose proof (lists_off t bs i _ Hl Hi _ ltac:(apply elem_of_app; left; exact Hin)).
      pose proof (ls_above _ _ Hl _ ltac:(apply elem_of_concat; eexists i, _; split; [exact Hi|apply elem_of_app; left; exact Hin])) as Hab.
      unfold table_end, LINK_SIZE, FREE_NODE_SIZE in *. lia.
    - intros x Hx. pose proof (ls_above _ _ Hl x ltac:(apply elem_of_concat; eexists i, _; split; [exact Hi|set_solver])) as Hab.
      unfold table_end, LINK_SIZE in *. lia. }
  rewrite remove_free_steps. destruct (nonempty (l1 ++ l2)) eqn:En.
  - eapply bitmap_ext; [|exact Hb1]. intros j. rewrite Hav. case_decide; [subst; by rewrite Hat|done].
  - eapply bitmap_ext; [|apply toggle_bitmap; [done|exact Hb1|lia]]. intros j. rewrite Hav. cbn beta.
    case_decide; [subst; by rewrite Hat, Hne|done].
Qed.

Lemma remove_free_lists : lists t' (<[i := l1 ++ l2]> bs).
Proof using Hg Hl Hi.
  destruct unlink_range as [Hlen Hlt]. destruct remove_free_meta as [Hma Hmb].
  destruct (concat_insert bs i _ (l1 ++ l2) Hi) as (rest & E1 & E2).
  assert (E : concat bs ≡ₚ n :: concat (<[i := l1 ++ l2]> bs)) by (rewrite E2, E1; solve_Permutation).
  assert (Hsub : ∀ x, x ∈ l1 ++ n :: l2 → x ∈ concat bs) by (intros; apply elem_of_concat; eauto).
  apply (lists_update t t' bs i (l1 ++ n :: l2)); [done|done|done|done| | | | | | |exact remove_free_bitmap].
  - pose proof unlink_dll as Hd. rewrite remove_free_steps. split_if; [done|]. destruct (l1 ++ l2) eqn:El; [|done].
    destruct Hd as [_ He]. split; [done|]. change (end_link (bin_at t i) []) with (bin_at t i) in *. rewrite <- He.
    pose proof (words_cover g Hg (Z.of_nat i) ltac:(lia)). pose proof (ls_tables _ _ Hl).
    destruct (node_remove_meta n t) as (_ & Ha & _).
    apply read_link_same; apply toggle_frame; rewrite Ha; unfold WORD_SIZE, LINK_SIZE in *; lia.
  - intros a Ha Hc. apply remove_free_frame; [lia|done|]. intros x Hx. pose proof (ls_above _ _ Hl x (Hsub x Hx)). lia.
  - intros j m x a Hne Hj Hx Ha. assert (Hxc : x ∈ concat bs) by (apply elem_of_concat; eauto).
    pose proof (ls_above _ _ Hl x Hxc) as Hx'. unfold table_end, LINK_SIZE in Hx'.
    apply remove_free_frame; [lia|unfold LINK_SIZE; lia|]. intros y Hy.
    pose proof (ls_apart _ _ Hl x y Hxc (Hsub y Hy)). pose proof (lists_disjoint _ _ _ _ _ _ _ _ Hl Hne Hj Hi Hx Hy).
    unfold FREE_NODE_SIZE in *. lia.
  - intros x Hx. apply (ls_above _ _ Hl), Hsub. set_solver.
  - intros x y Hx Hy. apply (ls_apart _ _ Hl); rewrite E; by right.
  - pose proof (ls_nodup _ _ Hl) as Hnd. rewrite E in Hnd. by apply NoDup_cons in Hnd as [_ ?].
Qed.
End Remove.
End Free.
