(* ===== verification/TalcHeap.v ===== *)
(** * The chunks of the heap

    The heap area as a row of pieces, each free or allocated: what their tags
    and sizes say, and that the bins hold exactly the free ones.  [holed] is the
    same with a stretch of the row out of use, which is how [allocate] and
    [deallocate] work: they take a stretch out and fill it again. *)

From S2P Require Import Prelude Alloc TalcGeo Talc TalcList TalcBits TalcFree.

(** ** Tag words *)

(** The tag of an allocated chunk at [b], and whether the next one is free. *)
Definition tag_word (b : Z) (above : bool) : Z := Z.lor b (if above then ALL_FLAG else ALLOCATED_FLAG).

(** An aligned offset below the top of the address space. *)
Definition word_aligned (b : Z) : Prop := 0 ≤ b < 2 ^ 62 ∧ (8 | b).

Lemma aligned_pack b f : word_aligned b → 0 ≤ f < 4 → Z.lor b f = pack (b / 4) 2 f ∧ Z.lor b f = b + f.
Proof.
  intros [Hb [k ->]] Hf. assert (E : k * 8 = Z.shiftl (k * 8 / 4) 2).
  { rewrite Z.shiftl_mul_pow2 by done. change (2 ^ 2) with 4. replace (k * 8) with (k * 2 * 4) by lia.
    by rewrite Z.div_mul. }
  assert (E2 : Z.lor (k * 8) f = pack (k * 8 / 4) 2 f) by (unfold pack; by rewrite <- E).
  split; [done|]. rewrite E2, pack_add by done. change (2 ^ 2) with 4. replace (k * 8) with (k * 2 * 4) by lia.
  rewrite Z.div_mul by done. lia.
Qed.

Lemma tag_word_add b f : word_aligned b → tag_word b f = b + (if f then 3 else 1).
Proof. intros Hb. unfold tag_word. destruct f; by apply aligned_pack. Qed.

Lemma tag_word_low b f j : word_aligned b → 0 ≤ j < 2 →
  Z.testbit (tag_word b f) j = (if decide (j = 0) then true else f).
Proof.
  intros Hb Hj. unfold tag_word. rewrite Z.lor_spec.
  assert (Hz : Z.testbit b j = false).
  { destruct Hb as [_ [k ->]]. change 8 with (2 ^ 3). rewrite <- Z.shiftl_mul_pow2 by done.
    apply Z.shiftl_spec_low. lia. }
  rewrite Hz. cbn [orb]. assert (j = 0 ∨ j = 1) as [->| ->] by lia; by destruct f.
Qed.

Lemma land_pow2 x n : 0 ≤ n → (Z.land x (Z.shiftl 1 n) =? 0) = negb (Z.testbit x n).
Proof.
  intros Hn. rewrite Z.shiftl_1_l. destruct (Z.testbit x n) eqn:E.
  - apply Z.eqb_neq. intros E0. apply (f_equal (λ z, Z.testbit z n)) in E0.
    rewrite Z.land_spec, E, Z.pow2_bits_true, Z.bits_0 in E0 by done. done.
  - apply Z.eqb_eq. apply Z.bits_inj'. intros k Hk. rewrite Z.land_spec, Z.bits_0.
    destruct (decide (k = n)) as [->|]; [by rewrite E|]. rewrite Z.pow2_bits_false by done. apply andb_false_r.
Qed.

Lemma tag_is_allocated b f : word_aligned b → is_allocated (tag_word b f) = true.
Proof.
  intros Hb. unfold is_allocated, ALLOCATED_FLAG. rewrite land_pow2, negb_involutive by done.
  rewrite tag_word_low by (done || lia). done.
Qed.

Lemma tag_is_above_free b f : word_aligned b → is_above_free (tag_word b f) = f.
Proof.
  intros Hb. unfold is_above_free, IS_ABOVE_FREE_FLAG. rewrite land_pow2, negb_involutive by done.
  rewrite tag_word_low by (done || lia). done.
Qed.

Lemma size_not_allocated s : (8 | s) → is_allocated s = false.
Proof.
  intros [k ->]. unfold is_allocated, ALLOCATED_FLAG. rewrite land_pow2, negb_involutive by done.
  change 8 with (2 ^ 3). rewrite <- Z.shiftl_mul_pow2 by done. apply Z.shiftl_spec_low. done.
Qed.

Lemma tag_to_base b f : word_aligned b → to_base_rel (tag_word b f) = b.
Proof.
  intros Hb. unfold to_base_rel, TAG_BASE_MASK. change (Z.lor IS_ABOVE_FREE_FLAG ALLOCATED_FLAG) with (2 ^ 2 - 1).
  rewrite mask_low_bits.
  - rewrite tag_word_add by done. destruct Hb as [_ [k ->]]. change (2 ^ 2) with 4.
    replace (k * 8 + (if f then 3 else 1)) with ((if f then 3 else 1) + k * 2 * 4) by lia.
    rewrite Z.div_add by done. destruct f; cbn [Z.div]; [change (3 / 4) with 0|change (1 / 4) with 0]; lia.
  - unfold usize_bits. lia.
  - rewrite tag_word_add by done. unfold is_word, usize_bits. destruct Hb as [Hb _]. change (2 ^ 64) with (2 ^ 62 * 4).
    destruct f; lia.
Qed.

Lemma set_above_word b f : Z.lor (tag_word b f) IS_ABOVE_FREE_FLAG = tag_word b true.
Proof. unfold tag_word. rewrite <- Z.lor_assoc. by destruct f. Qed.

Lemma clear_above_word b f : word_aligned b → Z.land (tag_word b f) (wnot usize_bits IS_ABOVE_FREE_FLAG) = tag_word b false.
Proof.
  intros Hb. unfold IS_ABOVE_FREE_FLAG. apply Z.bits_inj'. intros j Hj.
  destruct (Z.lt_ge_cases j usize_bits) as [Hlt|Hge].
  - rewrite summary_clear by (unfold usize_bits in *; lia). case_bool_decide as E.
    + subst j. rewrite (tag_word_low b false) by (done || lia). apply andb_false_r.
    + cbn [negb]. rewrite andb_true_r. unfold tag_word. rewrite !Z.lor_spec. f_equal. destruct f; [|done].
      change ALL_FLAG with (Z.lor (Z.shiftl 1 1) ALLOCATED_FLAG). rewrite Z.lor_spec, Z.shiftl_1_l, Z.pow2_bits_false by done. done.
  - assert (Hw : ∀ f, is_word usize_bits (tag_word b f)).
    { intros f'. rewrite tag_word_add by done. unfold is_word, usize_bits. destruct Hb as [Hb _]. change (2 ^ 64) with (2 ^ 62 * 4).
      destruct f'; lia. }
    rewrite Z.land_spec, !(testbit_word usize_bits) by done. done.
Qed.

Lemma round_up_bounds x al : 0 < al → x ≤ round_up x al < x + al.
Proof.
  intros Ha. unfold round_up. pose proof (Z.div_mod (x + al - 1) al ltac:(lia)).
  pose proof (Z.mod_pos_bound (x + al - 1) al Ha). lia.
Qed.

(** ** Pieces *)

(** A chunk: free, or allocated for a block (its pointer and size). *)
Record piece := mkPiece { p_base : Z; p_size : Z; p_use : option (Z * Z) }.

Definition p_end (c : piece) : Z := p_base c + p_size c.
Definition p_free (c : piece) : bool := match p_use c with None => true | Some _ => false end.

(** A row of pieces from [lo] to [hi]. *)
Fixpoint tiles (lo : Z) (cs : list piece) (hi : Z) : Prop :=
  match cs with
  | [] => lo = hi
  | c :: cs => p_base c = lo ∧ MIN_CHUNK_SIZE ≤ p_size c ∧ (8 | p_size c) ∧ tiles (p_end c) cs hi
  end.

(** Whether the row starts with a free piece, before [nf]. *)
Definition head_free (nf : bool) (cs : list piece) : bool :=
  match cs with [] => nf | c :: _ => p_free c end.

(** Whether it ends with one. *)
Definition last_free (cs : list piece) : bool :=
  match last cs with Some c => p_free c | None => false end.

Lemma tiles_app lo a b hi : tiles lo (a ++ b) hi ↔ ∃ mid, tiles lo a mid ∧ tiles mid b hi.
Proof.
  revert lo. induction a as [|c a IH]; intros lo; cbn [app tiles].
  - split; [intros H; by exists lo|by intros (? & -> & ?)].
  - rewrite IH. naive_solver.
Qed.

Lemma tiles_le lo cs hi : tiles lo cs hi → lo ≤ hi.
Proof.
  revert lo. induction cs as [|c cs IH]; intros lo; cbn [tiles]; [lia|].
  intros (<- & Hs & _ & H%IH). unfold p_end, MIN_CHUNK_SIZE, MIN_TAG_OFFSET, TAG_SIZE, FREE_NODE_SIZE in *. lia.
Qed.

Lemma tiles_aligned lo cs hi : tiles lo cs hi → (8 | lo) → (8 | hi).
Proof.
  revert lo. induction cs as [|c cs IH]; intros lo; cbn [tiles]; [by intros ->|].
  intros (<- & _ & Hs & Ht) Hl. apply (IH _ Ht). unfold p_end. by apply Z.divide_add_r.
Qed.

Lemma tiles_in lo cs hi c : tiles lo cs hi → (8 | lo) → c ∈ cs →
  lo ≤ p_base c ∧ p_end c ≤ hi ∧ 32 ≤ p_size c ∧ (8 | p_base c) ∧ (8 | p_size c).
Proof.
  intros Ht Hd (a & b & ->)%list_elem_of_split. apply tiles_app in Ht as (mid & Ha & <- & Hs & Hd2 & Hb).
  pose proof (tiles_le _ _ _ Ha). pose proof (tiles_le _ _ _ Hb). split_and!; [done|done|done| |done].
  by eapply tiles_aligned.
Qed.

(** Two pieces of a row are the same or apart. *)
Lemma tiles_apart lo cs hi c d : tiles lo cs hi → (8 | lo) → c ∈ cs → d ∈ cs →
  c = d ∨ p_end c ≤ p_base d ∨ p_end d ≤ p_base c.
Proof.
  intros Ht Hd (a & b & ->)%list_elem_of_split Hin. apply tiles_app in Ht as (mid & Ha & Hc & Hs & Hd2 & Hb).
  assert (Hmid : (8 | mid)).
  { subst mid. apply (tiles_in lo (a ++ c :: b) hi); [|done|set_solver]. apply tiles_app. by exists (p_base c). }
  apply elem_of_app in Hin as [Hin|[->|Hin]%elem_of_cons]; [|by left|].
  - right. right. apply (tiles_in _ _ _ _ Ha Hd) in Hin. lia.
  - right. left. apply (tiles_in _ _ _ d Hb) in Hin; [lia|]. unfold p_end. rewrite Hc. by apply Z.divide_add_r.
Qed.

Section Heap.
Context (base_addr : Z) (g : HeapGeometry).

(** The end of a block, rounded up to a word. *)
Abbreviation word_up x := (round_up x 8).

(** What memory says of a piece, [nf] telling whether the next one is free. *)
Definition piece_ok (t : TalcMeta) (nf : bool) (c : piece) : Prop :=
  match p_use c with
  | None => read (p_base c + FREE_NODE_SIZE) t = p_size c ∧ read (p_end c - TAG_SIZE) t = p_size c
  | Some (p, n) =>
    read (p_end c - TAG_SIZE) t = tag_word (p_base c) nf ∧
    p_base c ≤ p ∧ 0 < n ∧ word_up (p + n) ≤ p_end c - TAG_SIZE ∧
    (word_up (p + n) ≠ p_end c - TAG_SIZE → read (word_up (p + n)) t = p_end c - TAG_SIZE)
  end.

(** No two free pieces are neighbours. *)
Fixpoint pieces_ok (t : TalcMeta) (nf : bool) (cs : list piece) : Prop :=
  match cs with
  | [] => True
  | c :: cs => piece_ok t (head_free nf cs) c ∧ (p_free c = true → head_free nf cs = false) ∧ pieces_ok t nf cs
  end.

Lemma head_free_app nf a b : head_free nf (a ++ b) = head_free (head_free nf b) a.
Proof. by destruct a. Qed.

Lemma pieces_ok_app t nf a b : pieces_ok t nf (a ++ b) ↔ pieces_ok t (head_free nf b) a ∧ pieces_ok t nf b.
Proof. induction a as [|c a IH]; cbn [app pieces_ok]; [tauto|]. rewrite IH, head_free_app. tauto. Qed.

(** The words that say so. *)
Definition piece_word (c : piece) (a : Z) : Prop :=
  a = p_end c - TAG_SIZE ∨
  match p_use c with
  | None => a = p_base c + FREE_NODE_SIZE
  | Some (p, n) => a = word_up (p + n)
  end.

Lemma piece_ok_frame t t' nf c :
  piece_ok t nf c → (∀ a, piece_word c a → read a t' = read a t) → piece_ok t' nf c.
Proof.
  unfold piece_ok, piece_word. intros H Hr. destruct (p_use c) as [[p n]|].
  - destruct H as (H1 & H2 & H3 & H4 & H5). rewrite !Hr by auto. done.
  - rewrite !Hr by auto. done.
Qed.

Lemma pieces_ok_frame t t' nf cs :
  pieces_ok t nf cs → (∀ c a, c ∈ cs → piece_word c a → read a t' = read a t) → pieces_ok t' nf cs.
Proof.
  induction cs as [|c cs IH]; [done|]. intros (H1 & H2 & H3) Hr. split_and!; [|done|].
  - eapply piece_ok_frame; [done|]. intros a Ha. apply (Hr c); [by left|done].
  - apply IH; [done|]. intros d a Hd. apply Hr. by right.
Qed.

(** The last piece of a row can be told another neighbour. *)
Lemma pieces_ok_last_free t nf nf' cs :
  pieces_ok t nf cs → last_free cs = true → nf' = false → pieces_ok t nf' cs.
Proof.
  induction cs as [|c cs IH]; [done|]. intros (H1 & H2 & H3) Hl ->. destruct cs as [|d cs].
  - unfold last_free in Hl. cbn in Hl. split_and!; [|done|done]. unfold piece_ok, p_free in *. by destruct (p_use c).
  - split_and!; [done|done|]. apply IH; [done| |done]. unfold last_free in *. by rewrite last_cons_cons in Hl.
Qed.

(** A piece's own words are inside it, past the cells of its node if free. *)
Lemma piece_word_in t nf c a : piece_ok t nf c → 32 ≤ p_size c → piece_word c a →
  p_base c ≤ a < p_end c ∧ (p_free c = true → p_base c + FREE_NODE_SIZE ≤ a).
Proof.
  unfold piece_ok, piece_word, p_free, p_end, FREE_NODE_SIZE, TAG_SIZE. intros H Hs Ha. destruct (p_use c) as [[p n]|].
  - destruct H as (H1 & H2 & H3 & H4 & H5). split; [|done].
    pose proof (round_up_bounds (p + n) 8 ltac:(done)). lia.
  - lia.
Qed.

(** ** The heap *)

Context (lo hi : Z).

(** The piece that holds the tables. *)
Definition table_piece (t : TalcMeta) : piece :=
  mkPiece lo (table_end g t + TAG_SIZE - lo) (Some (lo, table_end g t - lo)).

(** The heap area fits the address space. *)
Record heap_area : Prop := {
  ha_base : 0 ≤ base_addr ∧ (8 | base_addr);
  ha_lo : 0 < lo ∧ (8 | lo);
  ha_order : lo ≤ hi;
  ha_hi : base_addr + hi ≤ 2 ^ 60 ∧ (8 | hi);
}.

(** The bins hold the free pieces of a row, each in the bin of its size. *)
Definition binned (bs : list (list Z)) (cs : list piece) : Prop :=
  ∀ i b, (∃ l, bs !! i = Some l ∧ b ∈ l) ↔ ∃ s, mkPiece b s None ∈ cs ∧ bin g s = Z.of_nat i.

(** A heap with the stretch from [b] to [e] out of use, between the rows [pre]
    and [post]; [nf] is what the tag before it says of it. *)
Record holed (t : TalcMeta) (pre : list piece) (b e : Z) (post : list piece) (nf : bool) (bs : list (list Z)) : Prop := {
  ho_lists : lists g t bs;
  ho_table : ∃ rest, pre = table_piece t :: rest;
  ho_avails : lo + TAG_SIZE = avails t;
  ho_pre : tiles lo pre b;
  ho_post : tiles e post hi;
  ho_gap : b ≤ e ∧ (8 | e);
  ho_pre_ok : pieces_ok t nf pre;
  ho_post_ok : pieces_ok t false post;
  ho_bins : binned bs (pre ++ post);
}.

(** A whole heap. *)
Definition heap_rep (t : TalcMeta) (cs : list piece) (bs : list (list Z)) : Prop := holed t cs hi hi [] false bs.

Context (Hg : geometry_wf g) (Harea : heap_area).

Lemma pieces_ok_in t nf cs c : pieces_ok t nf cs → c ∈ cs → ∃ nf', piece_ok t nf' c.
Proof.
  induction cs as [|d cs IH]; [by intros _ ?%elem_of_nil|]. intros (H1 & _ & H3) [->|Hc]%elem_of_cons; [eauto|by apply IH].
Qed.

Section Facts.
Context (t : TalcMeta) (pre : list piece) (b e : Z) (post : list piece) (nf : bool) (bs : list (list Z)).
Context (Hh : holed t pre b e post nf bs).

Lemma holed_aligned : (8 | b) ∧ (8 | e) ∧ lo ≤ b ∧ e ≤ hi.
Proof using Harea Hh.
  destruct Hh. destruct ho_gap0 as [_ He]. pose proof (tiles_le _ _ _ ho_pre0). pose proof (tiles_le _ _ _ ho_post0).
  split_and!; [|done|done|done]. eapply tiles_aligned; [done|]. apply ha_lo, Harea.
Qed.

Lemma holed_piece c : c ∈ pre ++ post →
  32 ≤ p_size c ∧ (8 | p_base c) ∧ (8 | p_size c) ∧ lo ≤ p_base c ∧ p_end c ≤ hi ∧ (p_end c ≤ b ∨ e ≤ p_base c).
Proof using Harea Hh.
  destruct holed_aligned as (_ & ? & ? & ?). pose proof (ho_gap _ _ _ _ _ _ _ Hh) as [? _].
  intros [Hc|Hc]%elem_of_app.
  - destruct (tiles_in _ _ _ c (ho_pre _ _ _ _ _ _ _ Hh)) as (? & ? & ? & ? & ?); [apply ha_lo, Harea|done|].
    split_and!; [done|done|done|done|lia|by left].
  - destruct (tiles_in _ _ _ c (ho_post _ _ _ _ _ _ _ Hh)) as (? & ? & ? & ? & ?); [done|done|].
    split_and!; [done|done|done|lia|done|by right].
Qed.

Lemma holed_apart c d : c ∈ pre ++ post → d ∈ pre ++ post → c = d ∨ p_end c ≤ p_base d ∨ p_end d ≤ p_base c.
Proof using Harea Hh.
  destruct holed_aligned as (_ & ? & ? & ?). pose proof (ho_gap _ _ _ _ _ _ _ Hh) as [? _].
  intros Hc Hd. apply elem_of_app in Hc as [Hc|Hc], Hd as [Hd|Hd].
  - apply (tiles_apart _ _ _ c d (ho_pre _ _ _ _ _ _ _ Hh)); [apply ha_lo, Harea|done|done].
  - destruct (tiles_in _ _ _ c (ho_pre _ _ _ _ _ _ _ Hh)) as (? & ? & _); [apply ha_lo, Harea|done|].
    destruct (tiles_in _ _ _ d (ho_post _ _ _ _ _ _ _ Hh)) as (? & ? & _); [done|done|]. lia.
  - destruct (tiles_in _ _ _ d (ho_pre _ _ _ _ _ _ _ Hh)) as (? & ? & _); [apply ha_lo, Harea|done|].
    destruct (tiles_in _ _ _ c (ho_post _ _ _ _ _ _ _ Hh)) as (? & ? & _); [done|done|]. lia.
  - by apply (tiles_apart _ _ _ c d (ho_post _ _ _ _ _ _ _ Hh)).
Qed.

Lemma holed_same_base c d : c ∈ pre ++ post → d ∈ pre ++ post → p_base c = p_base d → c = d.
Proof using Harea Hh.
  intros Hc Hd E. destruct (holed_apart c d Hc Hd) as [|H]; [done|].
  pose proof (holed_piece c Hc). pose proof (holed_piece d Hd). unfold p_end in *. lia.
Qed.

Lemma holed_node x : x ∈ concat bs → ∃ s, mkPiece x s None ∈ pre ++ post.
Proof using Hh.
  intros (i & l & Hi & Hx)%elem_of_concat. destruct (ho_bins _ _ _ _ _ _ _ Hh i x) as [H _].
  destruct H as (s & Hs & _); eauto.
Qed.

(** A node is outside the gap. *)
Lemma holed_node_gap x : x ∈ concat bs → x + 32 ≤ b ∨ e ≤ x.
Proof using Harea Hh.
  intros (s & Hs)%holed_node. pose proof (holed_piece _ Hs) as H. unfold p_end in H. cbn [p_base p_size] in H. lia.
Qed.

Lemma holed_table : table_end g t + 8 ≤ b ∧ (8 | table_end g t) ∧ avails t ≤ table_end g t.
Proof using Hg Harea Hh.
  destruct (ho_table _ _ _ _ _ _ _ Hh) as [rest E].
  assert (Hin : table_piece t ∈ pre) by (rewrite E; by left).
  destruct (tiles_in _ _ _ _ (ho_pre _ _ _ _ _ _ _ Hh) ltac:(apply ha_lo, Harea) Hin) as (H1 & H2 & H3 & H4 & [k Hk]).
  pose proof (ls_tables _ _ _ (ho_lists _ _ _ _ _ _ _ Hh)) as Ht. pose proof (words_nonneg g Hg).
  unfold table_piece, p_end, TAG_SIZE in *. cbn [p_base p_size] in *. split_and!; [lia| |].
  - destruct (ha_lo Harea) as [_ [j Hj]]. exists (k + j - 1). lia.
  - unfold table_end, LINK_SIZE, WORD_SIZE in *. pose proof (gwf_bins _ Hg). lia.
Qed.

(** The words of a piece are in no table, no node and not in the gap. *)
Lemma holed_word c a : c ∈ pre ++ post → piece_word c a →
  table_end g t ≤ a ∧ outside (concat bs) a ∧ (a + 8 ≤ b ∨ e ≤ a).
Proof using Hg Harea Hh.
  intros Hc Ha. pose proof (holed_piece c Hc) as (H1 & H2 & H3 & H4 & H5 & H6).
  assert (Hok : ∃ nf', piece_ok t nf' c).
  { apply elem_of_app in Hc as [Hc|Hc].
    - eapply pieces_ok_in; [apply Hh|done].
    - eapply pieces_ok_in; [apply (ho_post_ok _ _ _ _ _ _ _ Hh)|done]. }
  destruct Hok as [nf' Hok]. destruct (piece_word_in _ _ _ _ Hok H1 Ha) as [Hin Hfr].
  destruct holed_table as (Ht1 & Ht2 & _). destruct (ho_table _ _ _ _ _ _ _ Hh) as [rest E].
  assert (Htp : table_piece t ∈ pre ++ post) by (rewrite E; set_solver).
  split_and!.
  - destruct (holed_apart c (table_piece t) Hc Htp) as [->|Hap].
    + unfold piece_word, table_piece, p_end, TAG_SIZE in Ha. cbn [p_base p_size p_use] in Ha.
      destruct Ha as [->| ->]; [lia|]. replace (lo + (table_end g t - lo)) with (table_end g t) by lia.
      by rewrite round_up_aligned by done.
    + unfold p_end, table_piece, TAG_SIZE in *. cbn [p_base p_size] in *. lia.
  - intros x (s & Hs)%holed_node. unfold FREE_NODE_SIZE in *. destruct (holed_apart _ _ Hc Hs) as [->|Hap].
    + cbn [p_base p_free p_use] in Hfr. right. by apply Hfr.
    + pose proof (holed_piece _ Hs) as Hx. unfold p_end in *. cbn [p_base p_size] in *. lia.
  - destruct H6 as [H6|H6]; [left|right; lia].
    assert (Hal : (8 | a)).
    { destruct Ha as [->|Ha]; [apply Z.divide_sub_r; [by apply Z.divide_add_r|by exists 1]|]. destruct (p_use c) as [[p n]|]; subst a.
      - by exists ((p + n + 8 - 1) / 8).
      - apply Z.divide_add_r; [done|by exists 3]. }
    destruct Hal as [k ->]. destruct holed_aligned as ([j ->] & _). unfold p_end in *. destruct H2 as [u Hu], H3 as [v Hv]. lia.
Qed.
End Facts.
End Heap.
