(* ===== verification/TalcHole.v ===== *)
(** * Taking stretches of the heap out of use and filling them

    The steps of allocation and release on a heap with a hole: removing a free
    neighbour widens the hole, inserting a free chunk and writing a tag narrow
    or close it. *)

From S2P Require Import Prelude Alloc TalcGeo Talc TalcList TalcBits TalcFree TalcHeap.

Section Hole.
Context (base_addr : Z) (g : HeapGeometry) (lo hi : Z).
Context (Hg : geometry_wf g) (Harea : heap_area base_addr lo hi).

Abbreviation holed := (holed g lo hi).
Abbreviation heap_rep := (heap_rep g lo hi).
Abbreviation free_piece b s := (mkPiece b s None).

(** ** Opening and closing *)

Lemma holed_close t pre b post nf bs :
  holed t pre b b post nf bs → nf = head_free false post → heap_rep t (pre ++ post) bs.
Proof using Hg Harea.
  intros Hh ->. pose proof Hh as []. split; try done.
  - destruct ho_table as [rest ->]. by exists (rest ++ post).
  - apply tiles_app. eauto.
  - split; [done|]. apply ha_hi in Harea as [_ ?]. done.
  - apply pieces_ok_app. done.
  - by rewrite app_nil_r.
Qed.

Lemma holed_split t pre post bs : pre ≠ [] → heap_rep t (pre ++ post) bs →
  ∃ b, holed t pre b b post (head_free false post) bs.
Proof using Hg Harea.
  intros Hne [Hl [rest Ht] Ha Hp _ _ Hok _ Hb]. apply tiles_app in Hp as (b & H1 & H2). exists b.
  apply pieces_ok_app in Hok as [? ?]. rewrite app_nil_r in Hb. split; try done.
  - destruct pre as [|c pre]; [done|]. injection Ht as -> _. by exists pre.
  - split; [done|]. eapply tiles_aligned; [exact H1|]. apply ha_lo in Harea as [_ ?]. done.
Qed.

Lemma binned_used bs pre c post : p_free c = false → binned g bs (pre ++ c :: post) → binned g bs (pre ++ post).
Proof.
  intros Hc H i b. rewrite (H i b). split; intros (s & Hs & E); exists s; (split; [|done]).
  - apply elem_of_app in Hs as [?|[Es|?]%elem_of_cons]; [set_solver| |set_solver]. by subst c.
  - set_solver.
Qed.

(** An allocated piece taken out. *)
Lemma holed_open t pre c post bs : pre ≠ [] → p_free c = false → heap_rep t (pre ++ c :: post) bs →
  holed t pre (p_base c) (p_end c) post false bs ∧ piece_ok t (head_free false post) c.
Proof using Hg Harea.
  intros Hne Hc Hr. destruct (holed_split _ _ _ _ Hne Hr) as (b & Hh). destruct Hh as [Hl Ht Ha Hp Hq [_ Hg8] Hok Hok2 Hb].
  cbn [head_free tiles pieces_ok] in *. rewrite Hc in Hok. destruct Hq as (<- & Hs & Hd & Hq). destruct Hok2 as (H1 & _ & H3).
  split; [|done]. split; try done; [|by eapply binned_used].
  unfold p_end, MIN_CHUNK_SIZE, MIN_TAG_OFFSET, FREE_NODE_SIZE, TAG_SIZE in *. split; [lia|]. by apply Z.divide_add_r.
Qed.

(** ** The bins when a piece joins or leaves *)

Lemma binned_insert bs cs cs' n s i l :
  bs !! i = Some l → bin g s = Z.of_nat i → (∀ c, c ∈ cs' ↔ c = free_piece n s ∨ c ∈ cs) →
  binned g bs cs → binned g (<[i := n :: l]> bs) cs'.
Proof.
  intros Hi Hs Hcs H j x. assert (Hlt : (i < length bs)%nat) by (by eapply lookup_lt_Some). split.
  - intros (m & Hm & Hx). destruct (decide (i = j)) as [<-|Hne].
    + rewrite list_lookup_insert_eq in Hm by done. injection Hm as <-. apply elem_of_cons in Hx as [->|Hx].
      * exists s. rewrite Hcs. auto.
      * destruct (H i x) as [(s' & ? & ?) _]; [eauto|]. exists s'. rewrite Hcs. auto.
    + rewrite list_lookup_insert_ne in Hm by done. destruct (H j x) as [(s' & ? & ?) _]; [eauto|]. exists s'. rewrite Hcs. auto.
  - intros (s' & [E|Hin]%Hcs & Hb).
    + injection E as -> ->. assert (j = i) as -> by lia. exists (n :: l). rewrite list_lookup_insert_eq by done. split; [done|by left].
    + destruct (H j x) as [_ (m & Hm & Hx)]; [eauto|]. destruct (decide (i = j)) as [<-|Hne].
      * exists (n :: l). rewrite list_lookup_insert_eq by done. split; [done|]. right. congruence.
      * exists m. by rewrite list_lookup_insert_ne.
Qed.

Lemma binned_remove bs cs cs' n s i l1 l2 :
  bs !! i = Some (l1 ++ n :: l2) → NoDup (l1 ++ n :: l2) → bin g s = Z.of_nat i →
  (∀ c, c ∈ cs ↔ c = free_piece n s ∨ c ∈ cs') → (∀ c, c ∈ cs' → p_base c ≠ n) →
  binned g bs cs → binned g (<[i := l1 ++ l2]> bs) cs'.
Proof.
  intros Hi Hnd Hs Hcs Hdis H j x. assert (Hlt : (i < length bs)%nat) by (by eapply lookup_lt_Some).
  apply NoDup_app in Hnd as (_ & Hd1 & [Hd2 _]%NoDup_cons). split.
  - intros (m & Hm & Hx).
    destruct (decide (i = j)) as [<-|Hne].
    + rewrite list_lookup_insert_eq in Hm by done. injection Hm as <-.
      assert (x ≠ n) by (intros ->; apply elem_of_app in Hx as [Hx|Hx]; [by apply (Hd1 n Hx); left|done]).
      destruct (H i x) as [(s' & [E|?]%Hcs & ?) _]; [eexists; split; [done|set_solver]|by injection E|eauto].
    + rewrite list_lookup_insert_ne in Hm by done.
      destruct (H j x) as [(s' & [E|?]%Hcs & Hb) _]; [eauto| |eauto]. injection E as -> ->. lia.
  - intros (s' & Hin & Hb). pose proof (Hdis _ Hin) as Hne. cbn in Hne.
    destruct (H j x) as [_ (m & Hm & Hx)]; [exists s'; rewrite Hcs; auto|]. destruct (decide (i = j)) as [<-|Hij].
    + rewrite Hi in Hm. injection Hm as <-. exists (l1 ++ l2). rewrite list_lookup_insert_eq by done. split; [done|set_solver].
    + exists m. by rewrite list_lookup_insert_ne.
Qed.

(** ** Memory outside the hole *)

Lemma holed_frame t t' pre b e post nf bs :
  holed t pre b e post nf bs →
  (∀ a, table_end g t ≤ a → outside (concat bs) a → a + 8 ≤ b ∨ e ≤ a → read a t' = read a t) →
  pieces_ok t' nf pre ∧ pieces_ok t' false post.
Proof using Hg Harea.
  intros Hh Hr.
  assert (Hw : ∀ c a, c ∈ pre ++ post → piece_word c a → read a t' = read a t).
  { intros c a Hc Ha. destruct (holed_word _ _ _ _ Hg Harea _ _ _ _ _ _ _ Hh c a Hc Ha) as (? & ? & ?). by apply Hr. }
  split; (eapply pieces_ok_frame; [apply Hh|]); intros c a Hc; apply Hw; set_solver.
Qed.

Lemma holed_bin_range t pre b e post nf bs s :
  holed t pre b e post nf bs → s ≤ hi → ∃ l, bs !! Z.to_nat (bin g s) = Some l ∧ bin g s = Z.of_nat (Z.to_nat (bin g s)).
Proof using Hg Harea.
  intros Hh Hs. destruct (ha_hi _ _ _ Harea) as [Hhi _]. destruct (ha_base _ _ _ Harea) as [Hb _].
  destruct (bin_range g s Hg) as [H0 H1]; [change (2 ^ 61) with (2 ^ 60 * 2); lia|].
  pose proof (ls_len _ _ _ (ho_lists _ _ _ _ _ _ _ _ _ _ Hh)) as Hlen.
  destruct (lookup_lt_is_Some_2 bs (Z.to_nat (bin g s))) as [l Hl]; [lia|]. exists l. split; [done|lia].
Qed.

(** A free chunk in the hole. *)
Lemma hole_insert t pre b e post nf bs n m :
  holed t pre b e post nf bs → b ≤ n → n + 32 ≤ m → m ≤ e →
  let t' := insert_free g n (m - n) t in
  avails t' = avails t ∧ bins t' = bins t ∧ pieces_ok t' nf pre ∧ pieces_ok t' false post ∧
  piece_ok t' false (free_piece n (m - n)) ∧
  ∃ bs', lists g t' bs' ∧
    ∀ cs', (∀ c, c ∈ cs' ↔ c = free_piece n (m - n) ∨ c ∈ pre ++ post) → binned g bs' cs'.
Proof using Hg Harea.
  intros Hh Hbn Hnm Hme t'. pose proof (holed_aligned _ _ _ _ Harea _ _ _ _ _ _ _ Hh) as (_ & _ & Hlo & Hhi).
  pose proof (holed_table _ _ _ _ Hg Harea _ _ _ _ _ _ _ Hh) as (Ht & _).
  destruct (ha_lo _ _ _ Harea) as [Hlo0 _].
  destruct (holed_bin_range _ _ _ _ _ _ _ (m - n) Hh ltac:(lia)) as (l & Hi & Hbin).
  set (i := Z.to_nat (bin g (m - n))) in *. pose proof (ho_lists _ _ _ _ _ _ _ _ _ _ Hh) as Hl.
  assert (Hfree : ∀ x, x ∈ concat bs → x + FREE_NODE_SIZE ≤ n ∨ n + (m - n) ≤ x).
  { intros x Hx. pose proof (holed_node_gap _ _ _ _ Harea _ _ _ _ _ _ _ Hh x Hx). unfold FREE_NODE_SIZE. lia. }
  assert (Hsz : MIN_CHUNK_SIZE ≤ m - n) by (unfold MIN_CHUNK_SIZE, MIN_TAG_OFFSET, FREE_NODE_SIZE, TAG_SIZE; lia).
  destruct (insert_free_meta g t n (m - n) i Hbin) as [Ha Hb].
  destruct (insert_free_sizes g t n (m - n) i Hbin) as [Hs1 Hs2].
  assert (Hlt : Z.of_nat i < g_bins g) by (apply lookup_lt_Some in Hi; pose proof (ls_len _ _ _ Hl); lia).
  split_and!; [done|done|..].
  1, 2: eapply holed_frame; [exact Hh|]; intros a Hta Hout Hgap; unfold table_end, LINK_SIZE in *;
    apply (insert_free_frame g Hg t bs n (m - n) i l); unfold LINK_SIZE, FREE_NODE_SIZE, TAG_SIZE in *; try done; try lia;
    intros x Hx; pose proof (Hout x ltac:(apply elem_of_concat; eauto)); unfold FREE_NODE_SIZE in *; lia.
  - unfold piece_ok, p_end. cbn [p_use p_base p_size]. done.
  - exists (<[i := n :: l]> bs). split; [apply (insert_free_lists g Hg t bs n (m - n) i l); done || lia|].
    intros cs' Hcs. eapply binned_insert; [done|done|done|]. apply Hh.
Qed.

(** A free piece unlinked. *)
Lemma hole_unlink t pre b e post nf bs f cs' :
  holed t pre b e post nf bs → p_free f = true → (∀ c, c ∈ pre ++ post ↔ c = f ∨ c ∈ cs') → f ∉ cs' →
  let t' := remove_free (p_base f) (bin g (p_size f)) t in
  avails t' = avails t ∧ bins t' = bins t ∧ (∀ a, b ≤ a < e → read a t' = read a t) ∧
  pieces_ok t' nf pre ∧ pieces_ok t' false post ∧ ∃ bs', lists g t' bs' ∧ binned g bs' cs'.
Proof using Hg Harea.
  intros Hh Hf Hcs Hni t'. assert (Hin : f ∈ pre ++ post) by (apply Hcs; by left).
  destruct f as [n s [u|]]; [discriminate Hf|]. cbn [p_base p_size] in *.
  pose proof (holed_piece _ _ _ _ Harea _ _ _ _ _ _ _ Hh _ Hin) as (H1 & _ & _ & H4 & H5 & _).
  unfold p_end in H5. cbn [p_base p_size] in *. destruct (ha_lo _ _ _ Harea) as [Hlo0 _].
  destruct (holed_bin_range _ _ _ _ _ _ _ s Hh ltac:(lia)) as (l & Hi & Hbin).
  set (i := Z.to_nat (bin g s)) in *. pose proof (ho_lists _ _ _ _ _ _ _ _ _ _ Hh) as Hl.
  destruct (ho_bins _ _ _ _ _ _ _ _ _ _ Hh i n) as [_ (l' & Hi' & Hn)]; [by exists s|].
  rewrite Hi in Hi'. injection Hi' as <-. apply list_elem_of_split in Hn as (l1 & l2 & ->).
  unfold t'. rewrite Hbin. destruct (remove_free_meta g t bs n i l1 l2 Hl Hi) as [Ha Hb].
  assert (Hlt : Z.of_nat i < g_bins g) by (apply lookup_lt_Some in Hi; pose proof (ls_len _ _ _ Hl); lia).
  assert (Hfr : ∀ a, table_end g t ≤ a → outside (concat bs) a → read a (remove_free n (Z.of_nat i) t) = read a t).
  { intros a Hta Hout. unfold table_end, LINK_SIZE in *.
    apply (remove_free_frame g Hg t bs n i l1 l2); unfold LINK_SIZE in *; try done; try lia.
    intros x Hx. apply Hout. apply elem_of_concat. eauto. }
  split_and!; [done|done|..].
  { intros a Hab. pose proof (holed_table _ _ _ _ Hg Harea _ _ _ _ _ _ _ Hh) as (Ht & _). apply Hfr; [lia|].
    intros x Hx. pose proof (holed_node_gap _ _ _ _ Harea _ _ _ _ _ _ _ Hh x Hx). unfold FREE_NODE_SIZE. lia. }
  1, 2: eapply holed_frame; [exact Hh|]; intros a Hta Hout _; by apply Hfr.
  exists (<[i := l1 ++ l2]> bs). split; [by apply remove_free_lists|].
  eapply binned_remove; [done|by eapply lists_sub|done|exact Hcs| |apply Hh].
  intros c Hc E. apply Hni. assert (c = free_piece n s) as <-; [|done].
  apply (holed_same_base _ _ _ _ Harea _ _ _ _ _ _ _ Hh); [apply Hcs; by right|done|done].
Qed.

(** ** Filling and widening *)

Lemma table_piece_same t t' : bins t' = bins t → table_piece g lo t' = table_piece g lo t.
Proof. unfold table_piece, table_end. by intros ->. Qed.

Lemma put_front t pre b e post bs m :
  holed t pre b e post true bs → b + 32 ≤ m → m ≤ e → (8 | m) →
  ∃ bs', holed (insert_free g b (m - b) t) (pre ++ [free_piece b (m - b)]) m e post false bs'.
Proof using Hg Harea.
  intros Hh Hbm Hme Hm. destruct (hole_insert _ _ _ _ _ _ _ b m Hh) as (Ha & Hb & H1 & H2 & H3 & bs' & H4 & H5); [lia|lia|lia|].
  exists bs'. pose proof (holed_aligned _ _ _ _ Harea _ _ _ _ _ _ _ Hh) as (Hb8 & _). destruct Hh. split; try done.
  - destruct ho_table as [rest ->]. exists (rest ++ [free_piece b (m - b)]). by rewrite (table_piece_same _ _ Hb).
  - congruence.
  - apply tiles_app. exists b. split; [done|]. cbn [tiles p_base p_size].
    unfold p_end, MIN_CHUNK_SIZE, MIN_TAG_OFFSET, FREE_NODE_SIZE, TAG_SIZE. cbn [p_base p_size]. split_and!; [done|lia|by apply Z.divide_sub_r|lia].
  - split; [done|]. apply ho_gap.
  - apply pieces_ok_app. cbn [pieces_ok head_free p_free p_use]. done.
  - apply H5. set_solver.
Qed.

Lemma put_back t pre b e post nf bs m :
  holed t pre b e post nf bs → head_free false post = false → b ≤ m → m + 32 ≤ e → (8 | m) →
  ∃ bs', holed (insert_free g m (e - m) t) pre b m (free_piece m (e - m) :: post) nf bs'.
Proof using Hg Harea.
  intros Hh Hpf Hbm Hme Hm. destruct (hole_insert _ _ _ _ _ _ _ m e Hh) as (Ha & Hb & H1 & H2 & H3 & bs' & H4 & H5); [lia|lia|lia|].
  exists bs'. pose proof (holed_aligned _ _ _ _ Harea _ _ _ _ _ _ _ Hh) as (Hb8 & He8 & _). destruct Hh. split; try done.
  - destruct ho_table as [rest ->]. exists rest. by rewrite (table_piece_same _ _ Hb).
  - congruence.
  - cbn [tiles p_base p_size]. unfold p_end, MIN_CHUNK_SIZE, MIN_TAG_OFFSET, FREE_NODE_SIZE, TAG_SIZE. cbn [p_base p_size].
    split_and!; [done|lia|by apply Z.divide_sub_r|]. by replace (m + (e - m)) with e by lia.
  - apply H5. set_solver.
Qed.

(** No piece is twice in a row. *)
Lemma tiles_nodup lo' cs hi' : tiles lo' cs hi' → NoDup cs ∧ ∀ c, c ∈ cs → lo' ≤ p_base c < hi'.
Proof.
  revert lo'. induction cs as [|c cs IH]; intros lo'; cbn [tiles].
  - split; [by constructor|]. by intros ? ?%elem_of_nil.
  - intros (<- & Hs & _ & Ht). destruct (IH _ Ht) as [Hnd Hin]. pose proof (tiles_le _ _ _ Ht).
    unfold p_end, MIN_CHUNK_SIZE, MIN_TAG_OFFSET, FREE_NODE_SIZE, TAG_SIZE in *. split.
    + constructor; [|done]. intros Hc. apply Hin in Hc. lia.
    + intros d [->|Hd]%elem_of_cons; [lia|]. apply Hin in Hd. lia.
Qed.

Lemma holed_nodup t pre b e post nf bs : holed t pre b e post nf bs → NoDup (pre ++ post).
Proof.
  intros [_ _ _ Hp Hq [Hgap _] _ _ _]. destruct (tiles_nodup _ _ _ Hp) as [H1 H2]. destruct (tiles_nodup _ _ _ Hq) as [H3 H4].
  apply NoDup_app. split_and!; [done| |done]. intros c Hc Hd. apply H2 in Hc. apply H4 in Hd. lia.
Qed.

(** A free piece before the hole joins it, *)
Lemma take_front t pre f b e post nf bs :
  holed t (pre ++ [f]) b e post nf bs → p_free f = true →
  let t' := remove_free (p_base f) (bin g (p_size f)) t in
  (∀ a, b ≤ a < e → read a t' = read a t) ∧ ∃ bs', holed t' pre (p_base f) e post true bs'.
Proof using Hg Harea.
  intros Hh Hf t'. pose proof (holed_nodup _ _ _ _ _ _ _ Hh) as Hnd.
  destruct (hole_unlink _ _ _ _ _ _ _ f (pre ++ post) Hh Hf) as (Ha & Hb & Hr & H1 & H2 & bs' & H3 & H4).
  { set_solver. }
  { rewrite <- app_assoc in Hnd. apply NoDup_app in Hnd as (_ & Hd & [Hd2 _]%NoDup_cons). set_solver. }
  split; [exact Hr|]. exists bs'. destruct Hh. apply tiles_app in ho_pre as (mid & Hp & <- & Hs & Hd & He). split; try done.
  - destruct ho_table as [rest E]. destruct pre as [|c pre]; cbn [app] in E; injection E as -> E; [discriminate Hf|].
    exists pre. by rewrite (table_piece_same t t' Hb).
  - unfold t'. congruence.
  - destruct ho_gap as [Hbe He8]. split; [|done]. cbn [tiles] in He.
    unfold p_end, MIN_CHUNK_SIZE, MIN_TAG_OFFSET, FREE_NODE_SIZE, TAG_SIZE in *. lia.
  - apply pieces_ok_app in H1 as [H1 _]. cbn [head_free] in H1. by rewrite Hf in H1.
Qed.

(** and so does one behind it. *)
Lemma take_back t pre f b e post nf bs :
  holed t pre b e (f :: post) nf bs → p_free f = true →
  ∃ bs', holed (remove_free (p_base f) (bin g (p_size f)) t) pre b (p_end f) post nf bs'.
Proof using Hg Harea.
  intros Hh Hf. pose proof (holed_nodup _ _ _ _ _ _ _ Hh) as Hnd.
  destruct (hole_unlink _ _ _ _ _ _ _ f (pre ++ post) Hh Hf) as (Ha & Hb & _ & H1 & H2 & bs' & H3 & H4).
  { set_solver. }
  { apply NoDup_app in Hnd as (_ & Hd & [Hd2 _]%NoDup_cons). set_solver. }
  exists bs'. destruct Hh. destruct ho_post as (He & Hs & Hd & Hq). split; try done.
  - destruct ho_table as [rest ->]. exists rest. by rewrite (table_piece_same _ _ Hb).
  - congruence.
  - unfold p_end, MIN_CHUNK_SIZE, MIN_TAG_OFFSET, FREE_NODE_SIZE, TAG_SIZE in *. split; [lia|]. apply Z.divide_add_r; [|done].
    rewrite He. apply ho_gap.
  - apply H2.
Qed.

(** Writes in the hole change nothing else. *)
Lemma hole_write t pre b e post nf bs a v :
  holed t pre b e post nf bs → b ≤ a → a + 8 ≤ e → holed (write a v t) pre b e post nf bs.
Proof using Hg Harea.
  intros Hh Hba Hae. pose proof (holed_table _ _ _ _ Hg Harea _ _ _ _ _ _ _ Hh) as (Ht & _).
  destruct (holed_frame t (write a v t) _ _ _ _ _ _ Hh) as [H1 H2].
  { intros a' _ _ Ha'. apply read_write_ne. lia. }
  pose proof (holed_node_gap _ _ _ _ Harea _ _ _ _ _ _ _ Hh) as Hng. destruct Hh. split; try done.
  apply lists_write; [done|done|lia|]. intros x Hx. unfold FREE_NODE_SIZE. pose proof (Hng x Hx). lia.
Qed.

(** The tag before the hole is told whether what follows is free. *)
Lemma retag t pre b e post nf nf' bs :
  holed t pre b e post nf bs → last_free pre = false →
  holed (toggle_above_free (b - TAG_SIZE) nf' t) pre b e post nf' bs.
Proof using Hg Harea.
  intros Hh Hlast. destruct (ho_table _ _ _ _ _ _ _ _ _ _ Hh) as [rest Erest].
  destruct (last pre) as [c|] eqn:El; [|apply last_None in El; subst; discriminate].
  apply last_Some in El as [pre' ->]. unfold last_free in Hlast. rewrite last_snoc in Hlast.
  assert (Hc : c ∈ (pre' ++ [c]) ++ post) by set_solver.
  pose proof (ho_pre _ _ _ _ _ _ _ _ _ _ Hh) as Hp. apply tiles_app in Hp as (mid & Hp & <- & Hs & Hd & He). cbn [tiles] in He. subst b.
  pose proof (holed_piece _ _ _ _ Harea _ _ _ _ _ _ _ Hh c Hc) as (H1 & H2 & H3 & H4 & H5 & _).
  destruct (holed_word _ _ _ _ Hg Harea _ _ _ _ _ _ _ Hh c (p_end c - TAG_SIZE) Hc ltac:(by left)) as (W1 & W2 & _).
  pose proof (ho_pre_ok _ _ _ _ _ _ _ _ _ _ Hh) as Hok. apply pieces_ok_app in Hok as [Hok1 (Hok2 & _ & _)].
  cbn [head_free] in *. rewrite Hlast in Hok1. unfold toggle_above_free.
  assert (Hw : word_aligned (p_base c)).
  { destruct (ha_lo _ _ _ Harea), (ha_hi _ _ _ Harea), (ha_base _ _ _ Harea). split; [|done].
    unfold p_end in *. change (2 ^ 62) with (2 ^ 60 * 4). lia. }
  assert (Hv : read (p_end c - TAG_SIZE) t = tag_word (p_base c) nf).
  { unfold piece_ok, p_free in *. destruct (p_use c) as [[p n]|]; [apply Hok2|discriminate]. }
  rewrite Hv. assert (E : (if nf' then Z.lor (tag_word (p_base c) nf) IS_ABOVE_FREE_FLAG
      else Z.land (tag_word (p_base c) nf) (wnot usize_bits IS_ABOVE_FREE_FLAG)) = tag_word (p_base c) nf').
  { destruct nf'; [apply set_above_word|by apply clear_above_word]. }
  rewrite E. set (t' := write _ _ t).
  assert (Hfr : ∀ d a, d ∈ (pre' ++ [c]) ++ post → d ≠ c → piece_word d a → read a t' = read a t).
  { intros d a Hin Hne Ha. apply read_write_ne.
    destruct (holed_word _ _ _ _ Hg Harea _ _ _ _ _ _ _ Hh d a Hin Ha) as (_ & _ & Hgap).
    destruct (holed_apart _ _ _ _ Harea _ _ _ _ _ _ _ Hh c d Hc Hin) as [|Hap]; [congruence|].
    pose proof (holed_piece _ _ _ _ Harea _ _ _ _ _ _ _ Hh d Hin) as (D1 & _).
    assert (Hdok : ∃ nf', piece_ok t nf' d).
    { apply elem_of_app in Hin as [Hin|Hin]; eapply pieces_ok_in; [apply Hh|done|apply (ho_post_ok _ _ _ _ _ _ _ _ _ _ Hh)|done]. }
    destruct Hdok as [? Hdok]. destruct (piece_word_in _ _ _ _ Hdok D1 Ha) as [Hin' _]. unfold p_end, TAG_SIZE in *. lia. }
  pose proof (holed_nodup _ _ _ _ _ _ _ Hh) as Hnd. rewrite <- app_assoc in Hnd. apply NoDup_app in Hnd as (_ & Hd1 & [Hd2 _]%NoDup_cons).
  destruct Hh. split; try done.
  - by apply lists_write.
  - apply pieces_ok_app. cbn [head_free pieces_ok]. rewrite Hlast. split_and!; [| |done|done].
    + eapply pieces_ok_frame; [done|]. intros d a Hin. apply Hfr; [set_solver|]. intros ->. apply (Hd1 c Hin). by left.
    + unfold piece_ok, p_free in *. destruct (p_use c) as [[p n]|]; [|discriminate]. destruct Hok2 as (_ & K2 & K3 & K4 & K5).
      split_and!; [apply read_write_eq|done|done|done|]. intros Hne. unfold t'. rewrite read_write_ne by done. by apply K5.
  - eapply pieces_ok_frame; [done|]. intros d a Hin. apply Hfr; [set_solver|]. intros ->. by apply Hd2.
Qed.

(** The hole becomes an allocated piece. *)
Lemma close_used t pre b e post bs u :
  holed t pre b e post false bs → b + 32 ≤ e → piece_ok t (head_free false post) (mkPiece b (e - b) (Some u)) →
  heap_rep t (pre ++ mkPiece b (e - b) (Some u) :: post) bs.
Proof using Hg Harea.
  intros Hh Hbe Hok. pose proof (holed_aligned _ _ _ _ Harea _ _ _ _ _ _ _ Hh) as (Hb8 & He8 & _). destruct Hh.
  split; try done.
  - destruct ho_table as [rest ->]. by exists (rest ++ mkPiece b (e - b) (Some u) :: post).
  - apply tiles_app. exists b. split; [done|]. cbn [tiles p_base p_size].
    unfold p_end, MIN_CHUNK_SIZE, MIN_TAG_OFFSET, FREE_NODE_SIZE, TAG_SIZE. cbn [p_base p_size].
    split_and!; [done|lia|by apply Z.divide_sub_r|]. by replace (b + (e - b)) with e by lia.
  - split; [done|]. by destruct (ha_hi _ _ _ Harea).
  - apply pieces_ok_app. done.
  - rewrite app_nil_r. intros i x. rewrite (ho_bins i x). split; intros (s & Hs & E); exists s; (split; [|done]); [set_solver|].
    apply elem_of_app in Hs as [?|[Es|?]%elem_of_cons]; [set_solver|discriminate Es|set_solver].
Qed.

(** [Tag::init] and [Tag::acme_tag] at the end of the hole. *)
Lemma fill_used t pre b e post bs p n :
  holed t pre b e post false bs → b + 32 ≤ e → b ≤ p → 0 < n → round_up (p + n) 8 ≤ e - TAG_SIZE →
  heap_rep (acme_tag (e - TAG_SIZE) (round_up (p + n) 8) (Tag_init (e - TAG_SIZE) b (head_free false post) t))
    (pre ++ mkPiece b (e - b) (Some (p, n)) :: post) bs.
Proof using Hg Harea.
  intros Hh Hbe Hbp Hn Hal. pose proof (round_up_bounds (p + n) 8 ltac:(done)) as Hr.
  fold (tag_word b (head_free false post)). unfold acme_tag, Tag_init. fold (tag_word b (head_free false post)).
  set (t1 := write (e - TAG_SIZE) (tag_word b (head_free false post)) t).
  assert (Hh1 : holed t1 pre b e post false bs) by (apply hole_write; [done|unfold TAG_SIZE; lia..]).
  assert (E1 : read (e - TAG_SIZE) t1 = tag_word b (head_free false post)) by apply read_write_eq.
  destruct (Z.eqb_spec (e - TAG_SIZE) (round_up (p + n) 8)) as [E|Hne]; cbn [negb].
  - apply close_used; [done|done|]. unfold piece_ok, p_end. cbn [p_use p_base p_size]. replace (b + (e - b)) with e by lia.
    split_and!; [done|done|done|done|]. congruence.
  - apply close_used; [apply hole_write; [done|lia|unfold TAG_SIZE in *; lia]|done|].
    unfold piece_ok, p_end. cbn [p_use p_base p_size]. replace (b + (e - b)) with e by lia.
    split_and!; [by rewrite read_write_ne by done|done|done|done|]. intros _. apply read_write_eq.
Qed.
(** ** What the steps leave alone *)

(** A word of a live block, the tables' piece apart; the words before the block
    belong to its piece alone. *)
Definition live_word (cs : list piece) (a : Z) : Prop :=
  ∃ c p n, c ∈ cs ∧ p_base c ≠ lo ∧ p_use c = Some (p, n) ∧ p_base c ≤ a < p + n ∧ (8 | a).

Lemma live_word_mono cs cs' a : (∀ c, p_free c = false → c ∈ cs → c ∈ cs') → live_word cs a → live_word cs' a.
Proof using. intros Hs (c & p & n & Hc & Hb & Hu & Ha). exists c, p, n. split; [apply Hs; [unfold p_free; by rewrite Hu|done]|done]. Qed.

(** It is in no table, no node, not in the hole, and no tag. *)
Lemma live_word_out t pre b e post nf bs a : holed t pre b e post nf bs → live_word (pre ++ post) a →
  table_end g t ≤ a ∧ outside (concat bs) a ∧ (a + 8 ≤ b ∨ e ≤ a) ∧ ∀ c' a', c' ∈ pre ++ post → piece_word c' a' → a ≠ a'.
Proof using Hg Harea.
  intros Hh (c & p & n & Hc & Hb & Hu & Ha & Ha8).
  pose proof (holed_piece _ _ _ _ Harea _ _ _ _ _ _ _ Hh c Hc) as (H1 & H2 & H3 & H4 & H5 & H6).
  assert (Hsome : ∀ d, d ∈ pre ++ post → ∃ nf', piece_ok t nf' d).
  { intros d [Hd|Hd]%elem_of_app; eapply pieces_ok_in; [apply Hh|done|apply (ho_post_ok _ _ _ _ _ _ _ _ _ _ Hh)|done]. }
  destruct (Hsome c Hc) as [nf' Hok]. unfold piece_ok in Hok. rewrite Hu in Hok. destruct Hok as (_ & K2 & K3 & K4 & _).
  pose proof (round_up_bounds (p + n) 8 ltac:(done)) as Hr. unfold TAG_SIZE in *.
  assert (Hap : ∀ d, d ∈ pre ++ post → c = d ∨ p_end c ≤ p_base d ∨ p_end d ≤ p_base c).
  { intros d Hd. by apply (holed_apart _ _ _ _ Harea _ _ _ _ _ _ _ Hh). }
  split_and!.
  - destruct (ho_table _ _ _ _ _ _ _ _ _ _ Hh) as [rest E]. destruct (Hap (table_piece g lo t)) as [->|Hx]; [rewrite E; set_solver|done|].
    unfold table_piece, p_end, TAG_SIZE in *. cbn [p_base p_size] in *. lia.
  - intros x Hx. destruct (holed_node g lo hi _ _ _ _ _ _ _ Hh x Hx) as [s Hs]. pose proof (holed_piece _ _ _ _ Harea _ _ _ _ _ _ _ Hh _ Hs) as (X1 & _).
    destruct (Hap _ Hs) as [->|Hy]; [discriminate Hu|]. unfold p_end, FREE_NODE_SIZE in *. cbn [p_base p_size] in *. lia.
  - lia.
  - intros d w Hd Hw ->. destruct (Hap d Hd) as [<-|Hx].
    + unfold piece_word in Hw. rewrite Hu in Hw. unfold TAG_SIZE in Hw. destruct Hw as [->| ->]; lia.
    + pose proof (holed_piece _ _ _ _ Harea _ _ _ _ _ _ _ Hh d Hd) as (D1 & _). destruct (Hsome d Hd) as [nf2 Hok].
      destruct (piece_word_in _ _ _ _ Hok D1 Hw) as [Hin _]. lia.
Qed.

Lemma insert_keeps t pre b e post nf bs n m a :
  holed t pre b e post nf bs → b ≤ n → n + 32 ≤ m → m ≤ e → live_word (pre ++ post) a → read a (insert_free g n (m - n) t) = read a t.
Proof using Hg Harea.
  intros Hh Hbn Hnm Hme Ha. destruct (live_word_out _ _ _ _ _ _ _ _ Hh Ha) as (Hta & Hout & Hgap & _).
  pose proof (holed_aligned _ _ _ _ Harea _ _ _ _ _ _ _ Hh) as (_ & _ & Hlo & Hhi). destruct (ha_lo _ _ _ Harea) as [Hlo0 _].
  destruct (holed_bin_range _ _ _ _ _ _ _ (m - n) Hh ltac:(lia)) as (l & Hi & Hbin).
  set (i := Z.to_nat (bin g (m - n))) in *. pose proof (ho_lists _ _ _ _ _ _ _ _ _ _ Hh) as Hl.
  assert (Hlt : Z.of_nat i < g_bins g) by (apply lookup_lt_Some in Hi; pose proof (ls_len _ _ _ Hl); lia).
  unfold table_end, LINK_SIZE in *. apply (insert_free_frame g Hg t bs n (m - n) i l); unfold LINK_SIZE, FREE_NODE_SIZE, TAG_SIZE in *; try done; try lia.
  intros x Hx. pose proof (Hout x ltac:(apply elem_of_concat; eauto)). unfold FREE_NODE_SIZE in *. lia.
Qed.

Lemma unlink_keeps t pre b e post nf bs f a :
  holed t pre b e post nf bs → p_free f = true → f ∈ pre ++ post → live_word (pre ++ post) a →
  read a (remove_free (p_base f) (bin g (p_size f)) t) = read a t.
Proof using Hg Harea.
  intros Hh Hf Hin Ha. destruct (live_word_out _ _ _ _ _ _ _ _ Hh Ha) as (Hta & Hout & _ & _). destruct f as [n s [u|]]; [discriminate Hf|]. cbn [p_base p_size].
  pose proof (holed_piece _ _ _ _ Harea _ _ _ _ _ _ _ Hh _ Hin) as (H1 & _ & _ & H4 & H5 & _).
  unfold p_end in H5. cbn [p_base p_size] in *. destruct (ha_lo _ _ _ Harea) as [Hlo0 _].
  destruct (holed_bin_range _ _ _ _ _ _ _ s Hh ltac:(lia)) as (l & Hi & Hbin).
  set (i := Z.to_nat (bin g s)) in *. pose proof (ho_lists _ _ _ _ _ _ _ _ _ _ Hh) as Hl.
  destruct (ho_bins _ _ _ _ _ _ _ _ _ _ Hh i n) as [_ (l' & Hi' & Hn)]; [by exists s|].
  rewrite Hi in Hi'. injection Hi' as <-. apply list_elem_of_split in Hn as (l1 & l2 & ->). rewrite Hbin.
  assert (Hlt : Z.of_nat i < g_bins g) by (apply lookup_lt_Some in Hi; pose proof (ls_len _ _ _ Hl); lia).
  unfold table_end, LINK_SIZE in *. apply (remove_free_frame g Hg t bs n i l1 l2); unfold LINK_SIZE in *; try done; try lia.
  intros x Hx. apply Hout. apply elem_of_concat. eauto.
Qed.

Lemma retag_keeps t pre b e post nf nf' bs a :
  holed t pre b e post nf bs → live_word (pre ++ post) a → read a (toggle_above_free (b - TAG_SIZE) nf' t) = read a t.
Proof using Hg Harea.
  intros Hh Ha. destruct (live_word_out _ _ _ _ _ _ _ _ Hh Ha) as (_ & _ & _ & Hw). unfold toggle_above_free. apply read_write_ne.
  destruct (ho_table _ _ _ _ _ _ _ _ _ _ Hh) as [rest Erest]. destruct (last pre) as [c|] eqn:El; [|apply last_None in El; subst; discriminate].
  apply last_Some in El as [pre' ->]. pose proof (ho_pre _ _ _ _ _ _ _ _ _ _ Hh) as Hp. apply tiles_app in Hp as (mid & _ & _ & _ & _ & He). cbn [tiles] in He. subst b.
  apply (Hw c); [set_solver|by left].
Qed.

Lemma fill_keeps t pre b e post nf bs p n f a :
  holed t pre b e post nf bs → b + 32 ≤ e → b ≤ p → 0 < n → round_up (p + n) 8 ≤ e - TAG_SIZE → live_word (pre ++ post) a →
  read a (acme_tag (e - TAG_SIZE) (round_up (p + n) 8) (Tag_init (e - TAG_SIZE) b f t)) = read a t.
Proof using Hg Harea.
  intros Hh Hbe Hbp Hn Hal Ha. destruct (live_word_out _ _ _ _ _ _ _ _ Hh Ha) as (_ & _ & Hgap & _).
  pose proof (round_up_bounds (p + n) 8 ltac:(done)). unfold acme_tag, Tag_init, TAG_SIZE in *. destruct (negb _); rewrite !read_write_ne by lia; done.
Qed.
End Hole.
