(* ===== verification/TalcSearch.v ===== *)
(** * Finding a chunk

    [acquire_chunk] answers the first free chunk that can hold the block, from
    the bin of the size asked for upwards, and nothing only if no free chunk of
    the heap can. *)

From S2P Require Import Prelude Alloc TalcGeo Talc TalcList TalcBits TalcFree TalcHeap TalcHole.

Lemma bin_nonneg g s : geometry_wf g → 0 ≤ bin g s.
Proof.
  intros []. unfold bin. rewrite Z.shiftl_1_l. apply Z.min_glb; [|lia].
  destruct (Z.ltb_spec (Z.max s 1) (2 ^ g_exponential_log g)); [apply Z.shiftr_nonneg; lia|].
  assert (g_exponential_log g ≤ Z.log2 (Z.max s 1)) by (apply Z.log2_le_pow2; lia).
  assert (0 ≤ divisions g) by (unfold divisions; apply Z.shiftl_nonneg; lia).
  assert (0 ≤ g_linear g) by (rewrite gwf_linear; apply Z.pow_nonneg; lia).
  match goal with |- 0 ≤ _ + Z.shiftr ?x ?k => assert (0 ≤ Z.shiftr x k) by (apply Z.shiftr_nonneg; apply wrap_word; done) end.
  nia.
Qed.

(** [chunk_size] leaves room for the block, rounded up, and the tag. *)
Lemma chunk_size_spec n : 0 < n ≤ isize_max →
  32 ≤ chunk_size n ∧ round_up n 8 + 8 ≤ chunk_size n.
Proof.
  intros Hn. unfold chunk_size, FREE_NODE_SIZE, MIN_CHUNK_SIZE, MIN_TAG_OFFSET, TAG_SIZE, FREE_NODE_SIZE, WORD_ALIGN.
  pose proof (round_up_bounds n 8 ltac:(done)). destruct (Z.leb_spec n 24).
  - split; [done|]. pose proof (round_up_mono n 24 8 ltac:(done) ltac:(done)). change (round_up 24 8) with 24 in *. lia.
  - rewrite align_up_round; [|done|done|lia|change usize_max with (isize_max * 2 + 1); change isize_max with 9223372036854775807 in *; lia].
    pose proof (round_up_bounds (n + 8) 8 ltac:(done)). split; [lia|].
    unfold round_up. replace (n + 8 + 8 - 1) with (n + 8 - 1 + 1 * 8) by lia. rewrite Z.div_add by done. lia.
Qed.

Section Search.
Context (base_addr : Z) (g : HeapGeometry) (lo hi : Z).
Context (Hg : geometry_wf g) (Harea : heap_area base_addr lo hi).
Context (l : Layout) (Hlayout : layout_wf l) (Hsize : 0 < size l).

Abbreviation up := (ptr_align_up base_addr).
Abbreviation req := (chunk_size (size l)).

Lemma layout_bounds : size l ≤ isize_max ∧ 0 < align l ≤ isize_max + 1.
Proof using Hlayout Hsize. destruct Hlayout as [Hp Hs]. pose proof (power_pos _ Hp). lia. Qed.

Lemma up_round x : 0 ≤ x ≤ 2 ^ 61 → up x (align l) = round_up (base_addr + x) (align l) - base_addr.
Proof using Hlayout Hsize Harea.
  intros Hx. unfold ptr_align_up. destruct layout_bounds as [_ Ha]. pose proof (ha_order _ _ _ Harea). destruct (ha_base _ _ _ Harea), (ha_hi _ _ _ Harea), (ha_lo _ _ _ Harea).
  destruct Hlayout as [Hp _]. rewrite align_up_round; [done|done|..].
  all: change usize_max with (isize_max * 2 + 1); change isize_max with 9223372036854775807 in *; change (2 ^ 61) with 2305843009213693952 in *; change (2 ^ 60) with 1152921504606846976 in *; lia.
Qed.

Lemma up_word x : 0 ≤ x ≤ 2 ^ 61 → up x WORD_ALIGN = round_up x 8.
Proof using Hlayout Hsize Harea.
  intros Hx. unfold ptr_align_up, WORD_ALIGN. destruct (ha_base _ _ _ Harea) as [? [k Hk]]. pose proof (ha_order _ _ _ Harea). destruct (ha_hi _ _ _ Harea), (ha_lo _ _ _ Harea).
  rewrite align_up_round; [|done|done|lia|].
  - unfold round_up. rewrite Hk. replace (k * 8 + x + 8 - 1) with (x + 8 - 1 + k * 8) by lia. rewrite Z.div_add by done. lia.
  - unfold usize_max, usize_bits. change (2 ^ 64) with (2 ^ 60 * 16). change (2 ^ 61) with (2 ^ 60 * 2) in Hx. lia.
Qed.

(** Where the block would be in a chunk at [x]. *)
Definition block_at (x : Z) : Z := up x (align l).

(** Whether the chunk of size [s] at [x] can hold it. *)
Definition fits (x s : Z) : bool := block_at x + req <=? x + s.

Lemma block_at_spec x : 0 ≤ x ≤ 2 ^ 61 → (8 | x) →
  x ≤ block_at x ∧ (8 | block_at x) ∧ (align l | base_addr + block_at x) ∧ (align l ≤ 8 → block_at x = x).
Proof using Hlayout Hsize Harea.
  intros Hx [k Hk]. unfold block_at. rewrite up_round by done. destruct layout_bounds as [_ [Ha _]]. destruct Hlayout as [Hp _].
  destruct (ha_base _ _ _ Harea) as [Hb [j Hj]]. pose proof (round_up_bounds (base_addr + x) (align l) Ha).
  assert (Hd : (align l | round_up (base_addr + x) (align l))) by (by exists ((base_addr + x + align l - 1) / align l)).
  assert (Hsmall : align l ≤ 8 → round_up (base_addr + x) (align l) = base_addr + x).
  { intros Hle. apply round_up_aligned; [done|]. apply Z.divide_trans with 8; [by apply power_divide|]. exists (j + k). lia. }
  split_and!; [lia| | |].
  - destruct (Z.le_gt_cases (align l) 8) as [Hle|Hgt]; [rewrite Hsmall by done; exists k; lia|].
    apply Z.divide_sub_r; [|by exists j]. apply Z.divide_trans with (align l); [|done]. by apply power_divide; [..|lia].
  - by replace (base_addr + (round_up (base_addr + x) (align l) - base_addr)) with (round_up (base_addr + x) (align l)) by lia.
  - intros Hle. rewrite Hsmall by done. lia.
Qed.

Lemma fit_spec t x s : read (x + FREE_NODE_SIZE) t = s → 0 ≤ x → 0 ≤ s → (8 | x) → x + s ≤ hi →
  fit base_addr (size l) (align l) x t =
    if fits x s then Some (mkChunk x (x + s), block_at x, round_up (block_at x + size l) 8) else None.
Proof using Hlayout Hsize Harea.
  intros Hs Hx Hs0 Hx8 Hhi. pose proof (ha_order _ _ _ Harea). destruct (ha_hi _ _ _ Harea), (ha_lo _ _ _ Harea), (ha_base _ _ _ Harea).
  destruct (chunk_size_spec (size l)) as [Hr1 Hr2]; [split; [done|apply layout_bounds]|].
  pose proof (round_up_bounds (size l) 8 ltac:(done)).
  unfold fit, fits, head_to_acme, size_low. rewrite Hs. unfold block_at. destruct (Z.leb_spec req s) as [Hle|Hgt].
  - destruct (block_at_spec x) as (B1 & B2 & _ & B4); [change (2 ^ 61) with (2 ^ 60 * 2); lia|done|]. unfold block_at in *.
    destruct (Z.ltb_spec WORD_ALIGN (align l)) as [Hal|Hal]; cbn [negb andb].
    + destruct (Z.leb_spec (up x (align l) + req) (x + s)); [|done]. do 2 f_equal. apply up_word.
      change (2 ^ 61) with (2 ^ 60 * 2). lia.
    + rewrite B4 by done. destruct (Z.leb_spec (x + req) (x + s)); [|lia]. do 2 f_equal. apply up_word.
      change (2 ^ 61) with (2 ^ 60 * 2). lia.
  - cbn [andb]. destruct (Z.leb_spec (up x (align l) + req) (x + s)) as [Hfit|]; [|done].
    destruct (block_at_spec x) as (B1 & _); [change (2 ^ 61) with (2 ^ 60 * 2); lia|done|]. unfold block_at in B1. lia.
Qed.

(** ** Lists *)

Section State.
Context (t : TalcMeta) (cs : list piece) (bs : list (list Z)).
Context (Hrep : heap_rep g lo hi t cs bs).

(** What a fitting free chunk yields. *)
Definition yields (x s : Z) : Chunk * Z * Z :=
  (mkChunk x (x + s), block_at x, round_up (block_at x + size l) 8).

Lemma free_fit x s : mkPiece x s None ∈ cs →
  fit base_addr (size l) (align l) x t = if fits x s then Some (yields x s) else None.
Proof using Hg Hlayout Hsize Harea Hrep.
  intros Hin. assert (Hin' : mkPiece x s None ∈ cs ++ []) by (by rewrite app_nil_r).
  pose proof (holed_piece _ _ _ _ Harea _ _ _ _ _ _ _ Hrep _ Hin') as (H1 & H2 & H3 & H4 & H5 & _).
  destruct (pieces_ok_in _ _ _ _ (ho_pre_ok _ _ _ _ _ _ _ _ _ _ Hrep) Hin) as [nf [Hs _]].
  unfold p_end in *. cbn [p_base p_size] in *. destruct (ha_lo _ _ _ Harea). by apply fit_spec; [..|lia|lia| |].
Qed.

(** A node of bin [i]. *)
Lemma bin_piece i m x : bs !! i = Some m → x ∈ m → ∃ s, mkPiece x s None ∈ cs ∧ bin g s = Z.of_nat i.
Proof using Hrep.
  intros Hi Hx. destruct (ho_bins _ _ _ _ _ _ _ _ _ _ Hrep i x) as [H _]. rewrite app_nil_r in H. apply H. eauto.
Qed.

(** The search of a list finds its first fitting node. *)
Lemma search_list_spec m : (∀ x, x ∈ m → ∃ s, mkPiece x s None ∈ cs) → ∀ p turns,
  dll t p m → (length m ≤ turns)%nat →
  search_list base_addr turns (size l) (align l) (read_link p t) t = Some None ∧
    (∀ x s, x ∈ m → mkPiece x s None ∈ cs → fits x s = false) ∨
  ∃ m1 x m2 s, m = m1 ++ x :: m2 ∧ mkPiece x s None ∈ cs ∧ fits x s = true ∧
    search_list base_addr turns (size l) (align l) (read_link p t) t = Some (Some (x, yields x s)).
Proof using Hg Hlayout Hsize Harea Hrep.
  induction m as [|x m IH]; intros Hm p turns [Hs He] Hlen.
  - left. change (end_link p []) with p in He. rewrite He. split; [by destruct turns|]. by intros ? ? ?%elem_of_nil.
  - destruct Hs as (H1 & H2 & H3). rewrite end_link_cons in He. rewrite H1.
    destruct turns as [|turns]; [cbn [length] in Hlen; lia|]. cbn [search_list].
    destruct (Hm x ltac:(by left)) as [s Hs]. rewrite (free_fit x s Hs). destruct (fits x s) eqn:Ef.
    + right. exists [], x, m, s. done.
    + destruct (IH ltac:(intros; apply Hm; by right) x turns (conj H3 He) ltac:(cbn [length] in Hlen; lia))
        as [[E Hno]|(m1 & y & m2 & s' & -> & Hy & Hf & E)].
      * left. split; [done|]. intros y s' [->|Hy]%elem_of_cons Hc; [|by apply Hno].
        assert (mkPiece x s' None = mkPiece x s None) as [= ->]; [|done].
        apply (holed_same_base _ _ _ _ Harea _ _ _ _ _ _ _ Hrep); [set_solver|set_solver|done].
      * right. exists (x :: m1), y, m2, s'. done.
Qed.

(** ** Bins *)

Lemma search_bins_spec turns rounds idx :
  (length (concat bs) ≤ turns)%nat → g_bins g - idx ≤ Z.of_nat rounds → 0 ≤ idx < g_bins g →
  let r := search_bins base_addr g rounds turns (size l) (align l) idx t in
  r = Some None ∧ (∀ x s, mkPiece x s None ∈ cs → idx ≤ bin g s → fits x s = false) ∨
  ∃ i m1 x m2 s, bs !! i = Some (m1 ++ x :: m2) ∧ mkPiece x s None ∈ cs ∧ bin g s = Z.of_nat i ∧ fits x s = true ∧
    r = Some (Some (x, Z.of_nat i, yields x s)).
Proof using Hg Hlayout Hsize Harea Hrep.
  intros Hturns. revert idx. induction rounds as [|rounds IH]; intros idx Hr Hidx r; [lia|].
  pose proof (ho_lists _ _ _ _ _ _ _ _ _ _ Hrep) as Hl. pose proof (ls_len _ _ _ Hl) as Hlen.
  destruct (lookup_lt_is_Some_2 bs (Z.to_nat idx)) as [m Hm]; [lia|].
  assert (Hmt : (length m ≤ turns)%nat).
  { destruct (concat_insert bs _ m m Hm) as (rest & E & _). apply Permutation_length in E. rewrite length_app in E. lia. }
  assert (Hall : ∀ x, x ∈ m → ∃ s, mkPiece x s None ∈ cs) by (intros x Hx; destruct (bin_piece _ _ _ Hm Hx) as (s & ? & _); eauto).
  assert (Hhere : ∀ x s, mkPiece x s None ∈ cs → bin g s = idx → x ∈ m).
  { intros x s Hin Hb. destruct (ho_bins _ _ _ _ _ _ _ _ _ _ Hrep (Z.to_nat idx) x) as [_ H]. rewrite app_nil_r in H.
    destruct H as (m' & Hm' & Hx); [exists s; split; [done|lia]|]. by rewrite Hm in Hm'; injection Hm' as ->. }
  unfold r. cbn [search_bins]. unfold bin_by_idx.
  replace (bins t + LINK_SIZE * idx) with (bins t + LINK_SIZE * Z.of_nat (Z.to_nat idx)) by (rewrite Z2Nat.id; lia).
  destruct (search_list_spec m Hall _ turns (ls_dll _ _ _ Hl _ _ Hm) Hmt) as [[E Hno]|(m1 & x & m2 & s & -> & Hx & Hf & E)]; rewrite E.
  - assert (Hno' : ∀ x s, mkPiece x s None ∈ cs → bin g s = idx → fits x s = false).
    { intros x s Hin Hb. apply Hno; [by eapply Hhere|done]. }
    pose proof (next_avail_spec g Hg t _ (idx + 1) (ls_map _ _ _ Hl) ltac:(lia)) as Hn.
    assert (Hgap : ∀ x s, mkPiece x s None ∈ cs → idx ≤ bin g s → (avail bs (bin g s) = false ∧ bin g s ≠ idx) → False).
    { intros x s Hin Hle [Hav Hne]. pose proof (bin_nonneg g s Hg).
      destruct (ho_bins _ _ _ _ _ _ _ _ _ _ Hrep (Z.to_nat (bin g s)) x) as [_ H']. rewrite app_nil_r in H'.
      destruct H' as (m' & Hm' & Hx); [exists s; split; [done|lia]|]. apply avail_at in Hm'. rewrite Z2Nat.id in Hm' by done.
      rewrite Hav in Hm'. by destruct m'; [apply elem_of_nil in Hx|]. }
    destruct (next_avail_bin_idx g (idx + 1) t) as [j|]; cbn [least_from] in Hn.
    + destruct Hn as (Hj & Hjt & Hjl). destruct (IH j ltac:(lia) ltac:(lia)) as [[E2 Hno2]|Hyes]; [left|by right].
      split; [done|]. intros x s Hin Hle. destruct (decide (bin g s = idx)); [by apply Hno'|].
      destruct (Z.lt_ge_cases (bin g s) j); [|by apply Hno2]. exfalso. apply (Hgap x s Hin Hle). split; [|done]. apply Hjl. lia.
    + left. split; [done|]. intros x s Hin Hle. destruct (decide (bin g s = idx)); [by apply Hno'|].
      exfalso. apply (Hgap x s Hin Hle). split; [|done]. apply Hn. lia.
  - right. destruct (bin_piece _ _ _ Hm ltac:(apply elem_of_app; right; by left)) as (s' & Hs' & Hb').
    assert (mkPiece x s' None = mkPiece x s None) as [= ->].
    { apply (holed_same_base _ _ _ _ Harea _ _ _ _ _ _ _ Hrep); [set_solver|set_solver|done]. }
    exists (Z.to_nat idx), m1, x, m2, s. split_and!; [done|done|done|done|]. do 4 f_equal. lia.
Qed.

(** [acquire_chunk]: nothing only if nothing fits. *)
Lemma acquire_chunk_spec turns : (length (concat bs) ≤ turns)%nat →
  acquire_chunk base_addr g turns (size l) (align l) t = Some None ∧
    (∀ x s, mkPiece x s None ∈ cs → fits x s = false) ∨
  ∃ x s, mkPiece x s None ∈ cs ∧ fits x s = true ∧
    acquire_chunk base_addr g turns (size l) (align l) t = Some (Some (yields x s, remove_free x (bin g s) t)).
Proof using Hg Hlayout Hsize Harea Hrep.
  intros Hturns. unfold acquire_chunk. pose proof (ho_lists _ _ _ _ _ _ _ _ _ _ Hrep) as Hl.
  destruct (chunk_size_spec (size l)) as [Hr1 Hr2]; [split; [done|apply layout_bounds]|].
  assert (Hbig : ∀ x s, mkPiece x s None ∈ cs → fits x s = true → bin g req ≤ bin g s ∧ avail bs (bin g s) = true).
  { intros x s Hin Hf. assert (Hin' : mkPiece x s None ∈ cs ++ []) by (by rewrite app_nil_r).
    pose proof (holed_piece _ _ _ _ Harea _ _ _ _ _ _ _ Hrep _ Hin') as (H1 & H2 & _ & H4 & H5 & _).
    unfold p_end in *. cbn [p_base p_size] in *. destruct (ha_lo _ _ _ Harea), (ha_hi _ _ _ Harea), (ha_base _ _ _ Harea).
    unfold fits in Hf. bools. destruct (block_at_spec x) as (B1 & _); [change (2 ^ 61) with (2 ^ 60 * 2); lia|done|].
    split; [apply bin_mono; [done|lia|change (2 ^ 61) with (2 ^ 60 * 2); lia]|]. pose proof (bin_nonneg g s Hg).
    destruct (ho_bins _ _ _ _ _ _ _ _ _ _ Hrep (Z.to_nat (bin g s)) x) as [_ H']. rewrite app_nil_r in H'.
    destruct H' as (m' & Hm' & Hx); [exists s; split; [done|lia]|]. apply avail_at in Hm'. rewrite Z2Nat.id in Hm' by done.
    rewrite Hm'. by destruct m'; [apply elem_of_nil in Hx|]. }
  pose proof (next_avail_spec g Hg t _ (bin g req) (ls_map _ _ _ Hl) (bin_nonneg g _ Hg)) as Hn.
  destruct (next_avail_bin_idx g (bin g req) t) as [j|]; cbn [least_from] in Hn.
  - destruct Hn as (Hj & Hjt & Hjl). pose proof (bin_nonneg g req Hg).
    destruct (search_bins_spec turns (Z.to_nat (g_bins g)) j Hturns) as [[E Hno]|(i & m1 & x & m2 & s & Hi & Hx & Hb & Hf & E)];
      [lia|lia|rewrite E..].
    + left. split; [done|]. intros x s Hin. destruct (fits x s) eqn:Ef; [|done]. destruct (Hbig x s Hin Ef) as [Hle Hav].
      destruct (Z.lt_ge_cases (bin g s) j); [rewrite Hjl in Hav by lia; done|]. rewrite <- Ef. by apply Hno.
    + right. exists x, s. rewrite Hb. done.
  - left. split; [done|]. intros x s Hin. destruct (fits x s) eqn:Ef; [|done]. destruct (Hbig x s Hin Ef) as [Hle Hav].
    by rewrite Hn in Hav.
Qed.
End State.
End Search.
