(* ===== verification/TalcAlloc.v ===== *)
(** * Allocation and release

    [allocate] and [deallocate] keep the heap well formed.  Allocation succeeds
    exactly when some free chunk can hold the block, and the block it answers is
    aligned, inside the heap and apart from every other; release takes exactly
    that block away. *)

From S2P Require Import Prelude Alloc TalcGeo Talc TalcList TalcBits TalcFree TalcHeap TalcHole TalcSearch.

(** The blocks of a row of pieces. *)
Definition uses (cs : list piece) : list (Z * Z) := omap p_use cs.

Lemma uses_app a b : uses (a ++ b) = uses a ++ uses b.
Proof. apply omap_app. Qed.

Lemma uses_cons c cs : uses (c :: cs) = match p_use c with Some u => u :: uses cs | None => uses cs end.
Proof. unfold uses. cbn. by destruct (p_use c). Qed.

Lemma elem_of_uses cs u : u ∈ uses cs ↔ ∃ c, c ∈ cs ∧ p_use c = Some u.
Proof. apply list_elem_of_omap. Qed.

(** What is in use is still there without a free piece. *)
Lemma used_of a x s b c : p_free c = false → c ∈ a ++ mkPiece x s None :: b → c ∈ a ++ b.
Proof. intros Hc Hi. apply elem_of_app in Hi as [?|[->|?]%elem_of_cons]; [set_solver|discriminate Hc|set_solver]. Qed.

Lemma pieces_ok_last t cs : pieces_ok t true cs → last_free cs = false.
Proof.
  destruct (last cs) as [c|] eqn:El; unfold last_free; rewrite El; [|done]. apply last_Some in El as [pre ->].
  intros [_ (_ & H & _)]%pieces_ok_app. cbn [head_free] in H. by destruct (p_free c); [rewrite H by done|].
Qed.

Section Alloc.
Context (base_addr : Z) (g : HeapGeometry) (lo hi : Z).
Context (Hg : geometry_wf g) (Harea : heap_area base_addr lo hi).

Abbreviation holed := (holed g lo hi).
Abbreviation heap_rep := (heap_rep g lo hi).

(** ** Blocks *)

(** A block is inside its piece, before its tag. *)
Lemma use_inside t cs bs c p n : heap_rep t cs bs → c ∈ cs → p_use c = Some (p, n) →
  p_base c ≤ p ∧ 0 < n ∧ p + n ≤ p_end c - TAG_SIZE.
Proof using Hg Harea.
  intros Hr Hc Hu. destruct (pieces_ok_in _ _ _ _ (ho_pre_ok _ _ _ _ _ _ _ _ _ _ Hr) Hc) as [nf Hok].
  unfold piece_ok in Hok. rewrite Hu in Hok. destruct Hok as (_ & H1 & H2 & H3 & _).
  pose proof (round_up_bounds (p + n) 8 ltac:(done)). lia.
Qed.

(** Blocks are in the heap and no two overlap. *)
Lemma uses_apart t cs bs : heap_rep t cs bs →
  NoDup (uses cs) ∧ (∀ p n, (p, n) ∈ uses cs → lo ≤ p ∧ 0 < n ∧ p + n ≤ hi) ∧
  ∀ p n p' n', (p, n) ∈ uses cs → (p', n') ∈ uses cs → (p, n) = (p', n') ∨ p + n ≤ p' ∨ p' + n' ≤ p.
Proof using Hg Harea.
  intros Hr. pose proof (holed_nodup _ _ _ _ _ _ _ _ _ _ Hr) as Hnd. rewrite app_nil_r in Hnd.
  assert (Hpair : ∀ c d p n p' n', c ∈ cs → d ∈ cs → p_use c = Some (p, n) → p_use d = Some (p', n') →
    c = d ∨ p + n ≤ p' ∨ p' + n' ≤ p).
  { intros c d p n p' n' Hc Hd Hu Hv. pose proof (use_inside _ _ _ _ _ _ Hr Hc Hu). pose proof (use_inside _ _ _ _ _ _ Hr Hd Hv).
    unfold TAG_SIZE in *. destruct (holed_apart _ _ _ _ Harea _ _ _ _ _ _ _ Hr c d); [set_solver|set_solver|by left|right; lia]. }
  split_and!.
  - assert (Hin : ∀ c, c ∈ cs → c ∈ cs) by done. revert Hnd Hin. generalize cs at 1 2 4. intros l. induction l as [|c l IH]; intros Hnd Hin; [constructor|].
    apply NoDup_cons in Hnd as [Hc Hnd]. unfold uses. cbn [omap list_omap]. destruct (p_use c) as [[p n]|] eqn:Hu; [|apply IH; [done|set_solver]].
    constructor; [|apply IH; [done|set_solver]]. intros (d & Hd & Hv)%elem_of_uses.
    destruct (Hpair c d p n p n ltac:(set_solver) ltac:(set_solver) Hu Hv) as [->|Hp]; [done|].
    pose proof (use_inside _ _ _ _ _ _ Hr (Hin c ltac:(by left)) Hu). lia.
  - intros p n (c & Hc & Hu)%elem_of_uses. pose proof (use_inside _ _ _ _ _ _ Hr Hc Hu).
    pose proof (holed_piece _ _ _ _ Harea _ _ _ _ _ _ _ Hr c ltac:(set_solver)) as (_ & _ & _ & ? & ? & _). unfold TAG_SIZE in *. lia.
  - intros p n p' n' (c & Hc & Hu)%elem_of_uses (d & Hd & Hv)%elem_of_uses.
    destruct (Hpair c d p n p' n' Hc Hd Hu Hv) as [->|]; [left; congruence|by right].
Qed.

(** ** Carving a block out of a hole *)

Section Carve.
Context (l : Layout) (Hlayout : layout_wf l) (Hsize : 0 < size l).
Abbreviation req := (chunk_size (size l)).
Abbreviation block x := (block_at base_addr l x).
Abbreviation block_end x := (round_up (block x + size l) 8).

(** What the block needs of the hole it is put in. *)
Lemma block_room x s : 0 ≤ x → (8 | x) → x + s ≤ hi → 0 ≤ s → fits base_addr l x s = true →
  x ≤ block x ∧ (8 | block x) ∧ block x + 32 ≤ x + s ∧ block_end x + TAG_SIZE ≤ x + s ∧ block x + size l ≤ block_end x.
Proof using Hg Harea Hlayout Hsize.
  intros Hx Hx8 Hhi Hs Hf. unfold fits in Hf. bools.
  destruct (chunk_size_spec (size l)) as [Hr1 Hr2]; [split; [done|apply (layout_bounds l Hlayout Hsize)]|].
  destruct (ha_lo _ _ _ Harea), (ha_hi _ _ _ Harea), (ha_base _ _ _ Harea).
  destruct (block_at_spec base_addr lo hi Harea l Hlayout Hsize x) as (B1 & B2 & _ & _); [change (2 ^ 61) with (2 ^ 60 * 2); lia|done|].
  pose proof (round_up_bounds (block x + size l) 8 ltac:(done)).
  assert (block_end x = block x + round_up (size l) 8).
  { destruct B2 as [k Hk]. rewrite Hk. unfold round_up. replace (k * 8 + size l + 8 - 1) with (size l + 8 - 1 + k * 8) by lia.
    rewrite Z.div_add by done. lia. }
  unfold TAG_SIZE. split_and!; lia || done.
Qed.

(** The prefix goes back to the bins, or the tag before the chunk is told. *)
Lemma carve_prefix t pre x e post bs ab :
  holed t pre x e post true bs → x ≤ ab → (8 | ab) → ab + 32 ≤ e →
  let '(prefix, free) := split_prefix (mkChunk x e) ab in
  let t' := match prefix with
            | Some prefix => insert_free g (chunk_base prefix) (size_by_range prefix) t
            | None => clear_above_free (prev_tag free) t
            end in
  ∃ pre' bs', holed t' pre' (chunk_base free) e post false bs' ∧ chunk_acme free = e ∧
    x ≤ chunk_base free ≤ ab ∧ uses pre' = uses pre ∧
    ∀ a, live_word lo (pre ++ post) a → live_word lo (pre' ++ post) a ∧ read a t' = read a t.
Proof using Hg Harea.
  intros Hh Hxa Ha8 Hae. unfold split_prefix, is_valid, is_chunk, is_chunk_size, MIN_CHUNK_SIZE, MIN_TAG_OFFSET, FREE_NODE_SIZE, TAG_SIZE.
  cbn [chunk_base chunk_acme]. rewrite Z.min_l by lia. destruct (Z.ltb_spec ab x); [lia|]. destruct (Z.leb_spec (24 + 8) (ab - x)).
  - unfold size_by_range. cbn [chunk_base chunk_acme].
    destruct (put_front _ _ _ _ Hg Harea _ _ _ _ _ _ ab Hh) as [bs' Hh']; [lia|lia|done|].
    exists (pre ++ [mkPiece x (ab - x) None]), bs'. split_and!; [done|done|lia|lia| |]; [rewrite uses_app; unfold uses at 2; cbn; apply app_nil_r|].
    intros a Ha. split; [eapply live_word_mono; [|exact Ha]; clear; set_solver|]. apply (insert_keeps base_addr g lo hi Hg Harea t pre x e post true bs x ab a Hh); [clear Hsize; lia|clear Hsize; lia|clear Hsize; lia|exact Ha].
  - unfold prev_tag, Tag_from_acme, clear_above_free. cbn [chunk_base chunk_acme]. exists pre, bs. split_and!; [|done|lia|lia|done|].
    2: { intros a Ha. split; [exact Ha|]. exact (retag_keeps base_addr g lo hi Hg Harea t pre x e post true false bs a Hh Ha). }
    apply (retag base_addr g lo hi Hg Harea t pre x e post true false bs Hh). eapply pieces_ok_last, Hh.
Qed.

(** The suffix too, and the block gets its tag. *)
Lemma carve_suffix t pre b e post bs ab :
  holed t pre b e post false bs → head_free false post = false → b ≤ ab → b + 32 ≤ e →
  round_up (ab + size l) 8 + TAG_SIZE ≤ e →
  let ae := round_up (ab + size l) 8 in
  let '(suffix, tag, free) := split_suffix (mkChunk b e) ae in
  let t' := match suffix with
            | Some suffix =>
              Tag_init tag (chunk_base free) true (insert_free g (chunk_base suffix) (size_by_range suffix) t)
            | None => Tag_init tag (chunk_base free) false t
            end in
  ∃ cs' bs', heap_rep (acme_tag tag ae t') cs' bs' ∧ uses cs' = uses pre ++ (ab, size l) :: uses post ∧
    ∀ a, live_word lo (pre ++ post) a → read a (acme_tag tag ae t') = read a t.
Proof using Hg Harea Hsize.
  intros Hh Hpost Hba Hbe Hae ae. pose proof (holed_aligned _ _ _ _ Harea _ _ _ _ _ _ _ Hh) as (Hb8 & He8 & _).
  assert (Hae8 : (8 | ae)) by (by exists ((ab + size l + 8 - 1) / 8)).
  unfold split_suffix, is_valid, is_chunk, is_chunk_size, MIN_CHUNK_SIZE, MIN_TAG_OFFSET, FREE_NODE_SIZE, TAG_SIZE in *.
  cbn [chunk_base chunk_acme] in *. set (tag := Z.max (b + 24) ae).
  assert (Ht8 : (8 | tag)) by (unfold tag; destruct (Z.max_spec (b + 24) ae) as [[_ ->]|[_ ->]]; [done|apply Z.divide_add_r; [done|by exists 3]]).
  destruct (Z.ltb_spec e (tag + 8)); [lia|]. destruct (Z.leb_spec (24 + 8) (e - (tag + 8))); unfold size_by_range; cbn [chunk_base chunk_acme].
  - destruct (put_back _ _ _ _ Hg Harea _ _ _ _ _ _ _ (tag + 8) Hh Hpost) as [bs' Hh']; [lia|lia|apply Z.divide_add_r; [done|by exists 1]|].
    pose proof (fill_used _ _ _ _ Hg Harea _ _ _ _ _ _ ab (size l) Hh' ltac:(lia) Hba Hsize ltac:(unfold TAG_SIZE; lia)) as Hr.
    assert (Hk : ∀ a, live_word lo (pre ++ post) a → read a (acme_tag (tag + 8 - TAG_SIZE) ae (Tag_init (tag + 8 - TAG_SIZE) b true (insert_free g (tag + 8) (e - (tag + 8)) t))) = read a t).
    { intros a Ha. etrans; [eapply (fill_keeps base_addr); [done|done|exact Hh'|lia|exact Hba|done|unfold TAG_SIZE; lia|]|].
      - eapply live_word_mono; [|exact Ha]. clear. set_solver.
      - eapply insert_keeps; [done|done|exact Hh|lia|lia|lia|done]. }
    unfold TAG_SIZE in Hr, Hk. replace (tag + 8 - 8) with tag in Hr, Hk by lia. cbn [head_free p_free p_use] in Hr.
    eexists _, _. split; [exact Hr|]. split; [|exact Hk]. rewrite uses_app. f_equal.
  - pose proof (fill_used _ _ _ _ Hg Harea _ _ _ _ _ _ ab (size l) Hh ltac:(lia) Hba Hsize ltac:(unfold TAG_SIZE; lia)) as Hr.
    rewrite Hpost in Hr. unfold TAG_SIZE in Hr. eexists _, _. split; [exact Hr|]. split; [rewrite uses_app; f_equal|].
    intros a Ha. change 8 with TAG_SIZE. eapply (fill_keeps base_addr); [done|done|exact Hh|lia|exact Hba|done|unfold TAG_SIZE; lia|done].
Qed.

(** A free piece taken out of a whole heap. *)
Lemma open_free t cs bs x s : heap_rep t cs bs → mkPiece x s None ∈ cs →
  ∃ pre post bs', cs = pre ++ mkPiece x s None :: post ∧ head_free false post = false ∧
    holed (remove_free x (bin g s) t) pre x (x + s) post true bs' ∧
    ∀ a, live_word lo cs a → live_word lo (pre ++ post) a ∧ read a (remove_free x (bin g s) t) = read a t.
Proof using Hg Harea.
  intros Hr (pre & post & ->)%list_elem_of_split. set (f := mkPiece x s None).
  assert (Hr' : heap_rep t ((pre ++ [f]) ++ post) bs) by (by rewrite <- app_assoc).
  destruct (holed_split base_addr g lo hi Hg Harea t (pre ++ [f]) post bs) as (b & Hh); [by destruct pre|done|].
  assert (Hb : b = x + s) by (pose proof (ho_pre _ _ _ _ _ _ _ _ _ _ Hh) as Hp; apply tiles_app in Hp as (mid & _ & _ & _ & _ & Hp); by cbn in Hp).
  subst b. pose proof (ho_pre_ok _ _ _ _ _ _ _ _ _ _ Hh) as Hok. apply pieces_ok_app in Hok as [_ (_ & Hnf & _)].
  destruct (take_front _ _ _ _ Hg Harea _ _ _ _ _ _ _ _ Hh eq_refl) as (_ & bs' & Hh').
  exists pre, post, bs'. split_and!; [done|by apply Hnf|done|]. intros a Ha. split.
  - eapply live_word_mono; [|exact Ha]. apply used_of.
  - change x with (p_base f). change s with (p_size f). apply (unlink_keeps base_addr g lo hi Hg Harea t (pre ++ [f]) (x + s) (x + s) post _ bs f a Hh eq_refl); [clear; set_solver|].
    by rewrite <- app_assoc.
Qed.

(** [allocate] *)
Lemma allocate_spec t cs bs turns : heap_rep t cs bs → (length (concat bs) ≤ turns)%nat →
  allocate base_addr g turns l t = Some (Err tt, t) ∧
    (∀ x s, mkPiece x s None ∈ cs → fits base_addr l x s = false) ∨
  ∃ o t' cs' bs', allocate base_addr g turns l t = Some (Ok o, t') ∧ heap_rep t' cs' bs' ∧
    uses cs' ≡ₚ (o, size l) :: uses cs ∧ (align l | base_addr + o) ∧ (8 | o) ∧ ∀ a, live_word lo cs a → read a t' = read a t.
Proof using Hg Harea Hlayout Hsize.
  intros Hr Hturns. unfold allocate. destruct (Z.eqb_spec (size l) 0); [lia|].
  destruct (acquire_chunk_spec base_addr g lo hi Hg Harea l Hlayout Hsize t cs bs Hr turns Hturns) as [[-> Hno]|(x & s & Hin & Hf & ->)].
  { left. done. }
  right. cbn [yields]. destruct (open_free _ _ _ _ _ Hr Hin) as (pre & post & bs1 & -> & Hpost & Hh & Hk1).
  pose proof (holed_piece _ _ _ _ Harea _ _ _ _ _ _ _ Hr (mkPiece x s None) ltac:(set_solver)) as (H1 & H2 & H3 & H4 & H5 & _).
  unfold p_end in *. cbn [p_base p_size] in *. destruct (ha_lo _ _ _ Harea) as [Hlo _].
  destruct (block_room x s) as (B1 & B2 & B3 & B4 & B5); [lia|done|lia|lia|done|].
  pose proof (carve_prefix _ _ _ _ _ _ (block x) Hh B1 B2 B3) as Hc. unfold carve.
  destruct (split_prefix (mkChunk x (x + s)) (block x)) as [prefix free]. destruct Hc as (pre' & bs2 & Hh2 & Hacme & Hfb & Hu & Hk2).
  set (t2 := match prefix with Some _ => _ | None => _ end) in *.
  destruct free as [b e]. cbn [chunk_base chunk_acme] in *. subst e.
  pose proof (carve_suffix _ _ _ _ _ _ (block x) Hh2 Hpost ltac:(lia) ltac:(lia) B4) as Hc.
  cbv zeta in Hc.
  destruct (split_suffix (mkChunk b (x + s)) (block_end x)) as [[suffix tag] free]. destruct Hc as (cs' & bs3 & Hr3 & Hu3 & Hk3).
  eexists (block x), _, cs', bs3. split_and!; [reflexivity|exact Hr3|..].
  - rewrite Hu3, Hu, uses_app, uses_cons. cbn [p_use]. solve_Permutation.
  - destruct (ha_hi _ _ _ Harea), (ha_base _ _ _ Harea). apply (block_at_spec base_addr lo hi Harea l Hlayout Hsize x); [change (2 ^ 61) with (2 ^ 60 * 2); lia|done].
  - done.
  - intros a Ha. destruct (Hk1 a Ha) as [Ha1 E1]. destruct (Hk2 a Ha1) as [Ha2 E2]. by rewrite (Hk3 a Ha2), E2.
Qed.
End Carve.

(** ** Release *)

(** The tag of an allocated chunk is found from its block. *)
Lemma find_tag t pre c post nf bs p n b e :
  holed t pre b e post nf bs → b = p_base c → e = p_end c → p_use c = Some (p, n) →
  piece_ok t (head_free false post) c → 32 ≤ p_size c →
  from_alloc_base base_addr p n t = p_end c - TAG_SIZE ∧
  Tag_chunk (p_end c - TAG_SIZE) t = mkChunk (p_base c) (p_end c) ∧
  read (p_end c - TAG_SIZE) t = tag_word (p_base c) (head_free false post).
Proof using Hg Harea.
  intros Hh -> -> Hu Hok Hs. unfold piece_ok in Hok. rewrite Hu in Hok. destruct Hok as (H1 & H2 & H3 & H4 & H5).
  pose proof (holed_aligned _ _ _ _ Harea _ _ _ _ _ _ _ Hh) as ([k Hk] & _ & Hlo & Hhi).
  destruct (ha_lo _ _ _ Harea), (ha_hi _ _ _ Harea), (ha_base _ _ _ Harea). pose proof (round_up_bounds (p + n) 8 ltac:(done)).
  assert (Hw : word_aligned (p_base c)).
  { split; [|by exists k]. unfold p_end in *. change (2 ^ 62) with (2 ^ 60 * 4). lia. }
  split_and!; [| |done].
  - unfold from_alloc_base, ptr_align_up.
    assert (Eup : align_up (base_addr + (p + n)) WORD_ALIGN - base_addr = round_up (p + n) 8).
    { apply (up_word base_addr lo hi Harea (mkLayout 8 8)); [by_eval|done|]. unfold p_end in *. change (2 ^ 61) with (2 ^ 60 * 2). unfold TAG_SIZE in *. lia. }
    rewrite Eup. destruct (decide (round_up (p + n) 8 = p_end c - TAG_SIZE)) as [E|Hne].
    + rewrite E, H1, tag_word_add by done. destruct (Z.ltb_spec (p_end c - TAG_SIZE) (p_base c + (if head_free false post then 3 else 1))) as [Hlt|]; [|done].
      unfold p_end, TAG_SIZE in *. destruct (head_free false post); lia.
    + rewrite H5 by done. destruct (Z.ltb_spec (round_up (p + n) 8) (p_end c - TAG_SIZE)); [done|lia].
  - unfold Tag_chunk, Tag_to_acme. rewrite H1, tag_to_base by done. f_equal. unfold TAG_SIZE. lia.
Qed.

(** The chunk before the hole joins it, or its tag is told. *)
Lemma merge_before t pre b e post bs : holed t pre b e post false bs → b ≤ e →
  let prev := b - TAG_SIZE in
  let '(base, t') := if negb (is_allocated (read prev t)) then remove_free_by_tail g prev t else (b, set_above_free prev t) in
  ∃ pre' bs', holed t' pre' base e post true bs' ∧ base ≤ b ∧ uses pre' = uses pre ∧
    (∀ a, b ≤ a < e → read a t' = read a t) ∧
    ∀ a, live_word lo (pre ++ post) a → live_word lo (pre' ++ post) a ∧ read a t' = read a t.
Proof using Hg Harea.
  intros Hh Hbe prev. destruct (ho_table _ _ _ _ _ _ _ _ _ _ Hh) as [rest Erest].
  destruct (last pre) as [c|] eqn:El; [|apply last_None in El; subst; discriminate].
  apply last_Some in El as [pre' Epre]. assert (Hc : c ∈ pre ++ post) by (rewrite Epre; set_solver).
  pose proof (holed_piece _ _ _ _ Harea _ _ _ _ _ _ _ Hh c Hc) as (H1 & H2 & H3 & H4 & H5 & _).
  assert (Eend : p_end c = b).
  { pose proof (ho_pre _ _ _ _ _ _ _ _ _ _ Hh) as Hp. rewrite Epre in Hp. apply tiles_app in Hp as (mid & _ & _ & _ & _ & Hp). by cbn in Hp. }
  assert (Hok : piece_ok t false c).
  { pose proof (ho_pre_ok _ _ _ _ _ _ _ _ _ _ Hh) as Hok. rewrite Epre in Hok. by apply pieces_ok_app in Hok as [_ (? & _)]. }
  destruct (p_use c) as [u|] eqn:Hu.
  - assert (Ha : is_allocated (read prev t) = true).
    { unfold piece_ok in Hok. rewrite Hu in Hok. destruct u as [p n]. destruct Hok as [Htag _]. unfold prev. rewrite <- Eend, Htag.
      apply tag_is_allocated. destruct (ha_lo _ _ _ Harea), (ha_hi _ _ _ Harea), (ha_base _ _ _ Harea). split; [|done].
      unfold p_end in *. change (2 ^ 62) with (2 ^ 60 * 4). lia. }
    rewrite Ha. cbn [negb]. exists pre, bs. split_and!; [|lia|done| |].
    + apply (retag base_addr g lo hi Hg Harea t pre b e post false true bs Hh).
      unfold last_free. rewrite Epre, last_snoc. unfold p_free. by rewrite Hu.
    + intros a Ha'. unfold set_above_free, toggle_above_free. apply read_write_ne. unfold prev, TAG_SIZE. lia.
    + intros a Ha'. split; [done|]. by eapply (retag_keeps base_addr).
  - destruct c as [x s u]. cbn [p_use] in Hu. subst u. unfold piece_ok in Hok. unfold p_end in *. cbn [p_use p_base p_size] in *.
    destruct Hok as [Hlow Hhigh]. assert (Ha : read prev t = s) by (unfold prev; by rewrite <- Eend).
    rewrite Ha, size_not_allocated by done. cbn [negb]. unfold remove_free_by_tail, tail_to_head, remove_free_by_head, size_low. rewrite Ha.
    assert (Ex : prev - (s - TAG_SIZE) = x) by (unfold prev, TAG_SIZE in *; lia). rewrite Ex, Hlow.
    rewrite Epre in Hh. destruct (take_front _ _ _ _ Hg Harea _ _ _ _ _ _ _ _ Hh eq_refl) as (Hr & bs' & Hh'). cbn [p_base p_size] in *.
    exists pre', bs'. split_and!; [done|lia| |done|]; [rewrite Epre, uses_app; unfold uses at 3; cbn; symmetry; apply app_nil_r|].
    intros a Ha'. rewrite Epre in Ha'. split; [eapply live_word_mono; [|exact Ha']; rewrite <- app_assoc; apply used_of|].
    apply (unlink_keeps base_addr g lo hi Hg Harea _ _ _ _ _ _ _ (mkPiece x s None) a Hh eq_refl); [set_solver|done].
Qed.

(** [deallocate] of any block but the tables. *)
Lemma deallocate_spec t cs bs p n : heap_rep t cs bs → (p, n) ∈ uses (tail cs) →
  ∃ cs' bs', heap_rep (deallocate base_addr g p n t) cs' bs' ∧
    uses cs ≡ₚ (p, n) :: uses cs' ∧
    ∀ c' p' n' a, c' ∈ tail cs → p_use c' = Some (p', n') → p' ≠ p → p_base c' ≤ a < p' + n' → (8 | a) →
      read a (deallocate base_addr g p n t) = read a t.
Proof using Hg Harea.
  intros Hr (c & (r1 & r2 & Etl)%list_elem_of_split & Hu)%elem_of_uses. destruct (ho_table _ _ _ _ _ _ _ _ _ _ Hr) as [rest E].
  subst cs. cbn [tail] in Etl. subst rest. set (pre := table_piece g lo t :: r1) in *. change (_ :: r1 ++ c :: r2) with (pre ++ c :: r2) in *.
  pose proof (use_inside _ _ _ c p n Hr ltac:(set_solver) Hu) as (U1 & U2 & U3).
  pose proof (holed_piece _ _ _ _ Harea _ _ _ _ _ _ _ Hr c ltac:(set_solver)) as (H1 & _).
  destruct (holed_open _ _ _ _ Hg Harea t pre c r2 bs ltac:(done) ltac:(unfold p_free; by rewrite Hu) Hr) as [Hh Hok].
  destruct (find_tag t pre c r2 false bs p n _ _ Hh eq_refl eq_refl Hu Hok H1) as (E1 & E2 & E3).
  unfold deallocate. destruct (Z.eqb_spec n 0); [lia|]. rewrite E1, E2. unfold prev_tag, Tag_from_acme. cbn [chunk_base chunk_acme].
  pose proof (merge_before _ _ _ _ _ _ Hh ltac:(unfold p_end; lia)) as Hm. cbv zeta in Hm.
  match type of Hm with match ?d with _ => _ end => destruct d as [b t1] end. destruct Hm as (pre' & bs1 & Hh1 & Hb & Hu1 & Hfr & Hk1).
  rewrite Hfr, E3 by (unfold p_end, TAG_SIZE; lia).
  assert (Hw : word_aligned (p_base c)).
  { pose proof (holed_piece _ _ _ _ Harea _ _ _ _ _ _ _ Hr c ltac:(set_solver)) as (_ & ? & _ & ? & ? & _).
    destruct (ha_lo _ _ _ Harea), (ha_hi _ _ _ Harea), (ha_base _ _ _ Harea). split; [|done]. unfold p_end in *. change (2 ^ 62) with (2 ^ 60 * 4). lia. }
  rewrite tag_is_above_free by done.
  assert (Hlive : ∀ c' p' n' a, c' ∈ tail (pre ++ c :: r2) → p_use c' = Some (p', n') → p' ≠ p → p_base c' ≤ a < p' + n' → (8 | a) → live_word lo (pre ++ r2) a).
  { intros c' p' n' a Hc' Hu' Hne Ha Ha8. exists c', p', n'. cbn [pre app tail] in Hc'. assert (Hcc : c' ≠ c) by congruence. split_and!; try done.
    - set_solver.
    - pose proof (ho_pre _ _ _ _ _ _ _ _ _ _ Hr) as Ht. cbn [pre app tiles] in Ht. destruct Ht as (_ & Hmin & _ & Ht). destruct (tiles_nodup _ _ _ Ht) as [_ Hbs].
      specialize (Hbs c' Hc'). unfold p_end, table_piece, MIN_CHUNK_SIZE, MIN_TAG_OFFSET, FREE_NODE_SIZE, TAG_SIZE in *. cbn [p_base p_size] in *. lia.
    - lia.
    - lia. }
  assert (Hfin : ∀ t2 e post bs2, holed t2 pre' b e post true bs2 → p_end c ≤ e → head_free false post = false → uses post = uses r2 →
    (∀ a, live_word lo (pre' ++ r2) a → live_word lo (pre' ++ post) a ∧ read a t2 = read a t1) →
    ∃ cs' bs', heap_rep (insert_free g b (e - b) t2) cs' bs' ∧ uses (pre ++ c :: r2) ≡ₚ (p, n) :: uses cs' ∧
      ∀ c' p' n' a, c' ∈ tail (pre ++ c :: r2) → p_use c' = Some (p', n') → p' ≠ p → p_base c' ≤ a < p' + n' → (8 | a) → read a (insert_free g b (e - b) t2) = read a t).
  { intros t2 e post bs2 Hh2 He Hpost Hup Hk2.
    destruct (put_front _ _ _ _ Hg Harea _ _ _ _ _ _ e Hh2) as [bs3 Hh3]; [unfold p_end in *; lia|lia|apply Hh2|].
    exists ((pre' ++ [mkPiece b (e - b) None]) ++ post), bs3. split.
    - apply (holed_close _ _ _ _ Hg Harea _ _ _ _ _ _ Hh3). by rewrite Hpost.
    - split; [rewrite !uses_app, Hu1, Hup, !uses_cons, Hu; cbn [p_use]; rewrite app_nil_r; solve_Permutation|].
      intros c' p' n' a Hc' Hu' Hne Ha Ha8. destruct (Hk1 a (Hlive c' p' n' a Hc' Hu' Hne Ha Ha8)) as [Ha1 E4]. destruct (Hk2 a Ha1) as [Ha2 E5].
      rewrite <- E4, <- E5. eapply (insert_keeps base_addr); [done|done|exact Hh2|lia|unfold p_end in *; lia|lia|done]. }
  destruct r2 as [|f post]; [by apply (Hfin _ _ [] bs1 Hh1)|]. cbn [head_free]. destruct (p_free f) eqn:Hf; [|by apply (Hfin _ _ (f :: post) bs1 Hh1)].
  destruct f as [x s [u|]]; [discriminate|]. pose proof (ho_post _ _ _ _ _ _ _ _ _ _ Hh1) as (Ex & _). cbn [p_base] in Ex.
  pose proof (ho_post_ok _ _ _ _ _ _ _ _ _ _ Hh1) as ((Hlow & _) & Hnf & _). cbn [p_base p_size] in Hlow.
  destruct (take_back _ _ _ _ Hg Harea _ _ _ _ _ _ _ _ Hh1 eq_refl) as [bs2 Hh2]. cbn [p_base p_size] in Hh2.
  unfold remove_free_by_head, size_low. rewrite <- Ex, Hlow. apply (Hfin _ _ post bs2 Hh2).
  - unfold p_end at 2. cbn [p_base p_size]. rewrite Ex. pose proof (holed_piece _ _ _ _ Harea _ _ _ _ _ _ _ Hh1 (mkPiece x s None) ltac:(set_solver)) as (Hs & _).
    cbn [p_size] in Hs. lia.
  - by apply Hnf.
  - done.
  - intros a Ha. split; [eapply live_word_mono; [|exact Ha]; apply used_of|].
    apply (unlink_keeps base_addr g lo hi Hg Harea _ _ _ _ _ _ _ (mkPiece x s None) a Hh1 eq_refl); [set_solver|done].
Qed.
End Alloc.
