(* ===== verification/TalcInit.v ===== *)
(** * A fresh heap

    [claim] on an empty header lays out the tables and one free chunk that
    takes the rest. *)

From S2P Require Import Prelude Alloc TalcGeo Talc TalcList TalcBits TalcFree TalcHeap TalcHole TalcSearch TalcAlloc.

(** ** Zeroing *)

Lemma write_words_meta a n t : summary (write_words a n t) = summary t ∧ avails (write_words a n t) = avails t ∧ bins (write_words a n t) = bins t.
Proof. revert a t. induction n as [|n IH]; intros a t; [done|]. cbn [write_words]. destruct (IH (a + WORD_SIZE) (write a 0 t)) as (-> & -> & ->). done. Qed.

Lemma write_words_frame a n t x : x < a ∨ a + 8 * Z.of_nat n ≤ x → read x (write_words a n t) = read x t.
Proof.
  revert a t. induction n as [|n IH]; intros a t Hx; [done|]. cbn [write_words]. unfold WORD_SIZE. rewrite IH by lia. apply read_write_ne. lia.
Qed.

Lemma write_words_zero a n t k : 0 ≤ k < Z.of_nat n → read (a + 8 * k) (write_words a n t) = 0.
Proof.
  revert a t k. induction n as [|n IH]; intros a t k Hk; [lia|]. cbn [write_words]. unfold WORD_SIZE. destruct (decide (k = 0)) as [->|].
  - rewrite write_words_frame by lia. replace (a + 8 * 0) with a by lia. apply read_write_eq.
  - replace (a + 8 * k) with (a + 8 + 8 * (k - 1)) by lia. apply IH. lia.
Qed.

Lemma write_links_meta a n t : summary (write_links a n t) = summary t ∧ avails (write_links a n t) = avails t ∧ bins (write_links a n t) = bins t.
Proof. revert a t. induction n as [|n IH]; intros a t; [done|]. cbn [write_links]. destruct (IH (a + LINK_SIZE) (write_link a None t)) as (-> & -> & ->). done. Qed.

Lemma write_links_frame a n t x : x < a ∨ a + 16 * Z.of_nat n ≤ x → read x (write_links a n t) = read x t.
Proof.
  revert a t. induction n as [|n IH]; intros a t Hx; [done|]. cbn [write_links write_link]. unfold LINK_SIZE. rewrite IH by lia. apply read_write_ne. lia.
Qed.

Lemma write_links_none a n t k : 0 ≤ k < Z.of_nat n → read_link (a + 16 * k) (write_links a n t) = None.
Proof.
  intros Hk. unfold read_link. assert (Hz : read (a + 16 * k) (write_links a n t) = 0); [|by rewrite Hz].
  revert a t k Hk. induction n as [|n IH]; intros a t k Hk; [lia|]. cbn [write_links write_link]. unfold LINK_SIZE. destruct (decide (k = 0)) as [->|].
  - rewrite write_links_frame by lia. replace (a + 16 * 0) with a by lia. apply read_write_eq.
  - replace (a + 16 * k) with (a + 16 + 16 * (k - 1)) by lia. apply IH. lia.
Qed.

Section Init.
Context (base_addr : Z) (g : HeapGeometry) (Hg : geometry_wf g).

(** Empty tables at [p]. *)
Lemma claim_metadata_spec p t : summary t = 0 →
  let '(acme, t') := claim_metadata g p t in
  lists g t' (replicate (Z.to_nat (g_bins g)) []) ∧ avails t' = p ∧ acme = table_end g t' ∧
  acme = p + metadata_bytes g ∧ (∀ x, x < p ∨ acme ≤ x → read x t' = read x t).
Proof using Hg.
  intros Hs. unfold claim_metadata. set (words := availability_words g WORD_BITS). pose proof (words_nonneg g Hg) as Hw0. fold words in Hw0.
  pose proof (gwf_bins _ Hg) as Hb0. set (t1 := write_words p (Z.to_nat words) t).
  set (t2 := write_links (p + WORD_SIZE * words) (Z.to_nat (g_bins g)) t1).
  set (t' := mkTalcMeta (summary t2) p (p + WORD_SIZE * words) (memory t2)).
  assert (Hread : ∀ x, read x t' = read x t2) by done.
  assert (Hnil : ∀ i l, replicate (Z.to_nat (g_bins g)) ([] : list Z) !! i = Some l → l = [] ∧ (i < Z.to_nat (g_bins g))%nat).
  { intros i l Hi. by apply lookup_replicate in Hi. }
  assert (Hcc : concat (replicate (Z.to_nat (g_bins g)) ([] : list Z)) = []) by (clear; induction (Z.to_nat (g_bins g)); done).
  assert (Hword : ∀ w, 0 ≤ w < words → avail_word t' w = 0).
  { intros w Hw. unfold avail_word. rewrite Hread. unfold t2, WORD_SIZE. cbn [avails t']. rewrite write_links_frame by lia.
    apply write_words_zero. lia. }
  assert (Havail : ∀ i, avail (replicate (Z.to_nat (g_bins g)) []) i = false).
  { intros i. unfold avail. destruct (replicate _ _ !! _) as [l|] eqn:E; [|by rewrite andb_false_r].
    apply Hnil in E as [-> _]. by rewrite andb_false_r. }
  split_and!; [split| | | |].
  - rewrite length_replicate. lia.
  - done.
  - intros i l Hi. apply Hnil in Hi as [-> Hlt]. split; [done|]. cbn [bins t']. change (end_link ?x []) with x.
    unfold read_link. rewrite !Hread. apply (write_links_none (p + WORD_SIZE * words)). lia.
  - intros n Hn. rewrite Hcc in Hn. by apply elem_of_nil in Hn.
  - rewrite Hcc. by intros x y ?%elem_of_nil.
  - rewrite Hcc. constructor.
  - split.
    + intros. apply Havail.
    + intros w Hw. rewrite Hword by done. done.
    + intros w k Hw Hk. rewrite Hword, Havail by done. apply Z.bits_0.
    + cbn [summary t']. destruct (write_links_meta (p + WORD_SIZE * words) (Z.to_nat (g_bins g)) t1) as (E & _). unfold t2. rewrite E.
      destruct (write_words_meta p (Z.to_nat words) t) as (E1 & _). unfold t1. by rewrite E1, Hs.
    + intros w Hw. cbn [summary t']. destruct (write_links_meta (p + WORD_SIZE * words) (Z.to_nat (g_bins g)) t1) as (E & _). unfold t2. rewrite E.
      destruct (write_words_meta p (Z.to_nat words) t) as (E1 & _). unfold t1. rewrite E1, Hs, Z.bits_0. fold words.
      destruct (Z.ltb_spec w words); [|done]. by rewrite Hword by lia.
  - done.
  - done.
  - unfold metadata_bytes, LINK_SIZE, WORD_SIZE. fold words. lia.
  - intros x Hx. rewrite Hread. unfold t2, t1, WORD_SIZE, LINK_SIZE in *. rewrite write_links_frame by lia. apply write_words_frame. lia.
Qed.

(** The area a configuration describes. *)
Definition area_lo (forward : Z) : Z := ptr_align_up base_addr (META_SIZE + forward) WORD_ALIGN.
Definition area_hi (forward size : Z) : Z := area_lo forward + align_down size WORD_ALIGN.

Section Claim.
Context (forward size : Z) (m : gmap Z Z).
Abbreviation lo := (area_lo forward).
Abbreviation hi := (area_hi forward size).
Context (Harea : heap_area base_addr lo hi) (Hroom : metadata_bytes g + MIN_METADATA ≤ align_down size WORD_ALIGN).

(** The one free chunk of a fresh heap. *)
Abbreviation first_free := (lo + TAG_SIZE + metadata_bytes g + TAG_SIZE).

Lemma metadata_positive : 24 ≤ metadata_bytes g ∧ (8 | metadata_bytes g).
Proof using Hg.
  pose proof (words_cover g Hg 0 ltac:(destruct Hg; lia)). unfold metadata_bytes, LINK_SIZE, WORD_SIZE. destruct Hg. split; [lia|].
  exists (g_bins g * 2 + availability_words g WORD_BITS). lia.
Qed.

Lemma claim_heap_spec :
  ∃ t' bs, claim_heap base_addr g forward size (TalcMeta_null m) = (Ok tt, t') ∧
    heap_rep g lo hi t' [mkPiece lo (TAG_SIZE + metadata_bytes g + TAG_SIZE) (Some (lo, TAG_SIZE + metadata_bytes g));
                         mkPiece first_free (hi - first_free) None] bs.
Proof using Hg Harea Hroom.
  destruct metadata_positive as [Hm1 Hm8]. destruct (ha_lo _ _ _ Harea) as [Hlo0 Hlo8]. destruct (ha_hi _ _ _ Harea) as [Hhi Hhi8].
  destruct (ha_base _ _ _ Harea) as [Hb0 _]. unfold MIN_METADATA in Hroom.
  assert (Ehi : hi = lo + align_down size WORD_ALIGN) by done.
  unfold claim_heap. fold (area_lo forward). cbn [bins TalcMeta_null]. rewrite Z.eqb_refl. cbn [negb].
  destruct (Z.ltb_spec (align_down size WORD_ALIGN) (metadata_bytes g + 2 * TAG_SIZE)) as [Hlt|_]; [unfold TAG_SIZE in Hlt; lia|].
  pose proof (claim_metadata_spec (lo + TAG_SIZE) (Tag_init lo 0 true (TalcMeta_null m)) eq_refl) as Hc.
  destruct (claim_metadata g (lo + TAG_SIZE) _) as [acme t1]. destruct Hc as (Hl & Ha & Eacme & Eacme2 & _).
  assert (Ha8 : (8 | acme)) by (rewrite Eacme2; apply Z.divide_add_r; [apply Z.divide_add_r; [done|by exists 1]|done]).
  replace (align_down size WORD_ALIGN - (acme + TAG_SIZE - lo)) with (hi - (acme + TAG_SIZE)) by lia.
  unfold is_chunk_size. destruct (Z.leb_spec MIN_CHUNK_SIZE (hi - (acme + TAG_SIZE))) as [Hsz|Hbad];
    [|unfold MIN_CHUNK_SIZE, MIN_TAG_OFFSET, FREE_NODE_SIZE, TAG_SIZE in *; lia].
  set (n := acme + TAG_SIZE) in *. assert (En : n = first_free) by (unfold n; lia).
  destruct (bin_range g (hi - n) Hg) as [Hbin0 Hbin1]; [change (2 ^ 61) with (2 ^ 60 * 2); unfold TAG_SIZE in *; lia|].
  set (i := Z.to_nat (bin g (hi - n))). assert (Hbin : bin g (hi - n) = Z.of_nat i) by lia.
  assert (Hi : replicate (Z.to_nat (g_bins g)) ([] : list Z) !! i = Some []) by (apply lookup_replicate_2; lia).
  assert (Hnil : ∀ x, x ∈ concat (replicate (Z.to_nat (g_bins g)) ([] : list Z)) → False).
  { intros x (j & l & [-> _]%lookup_replicate & Hx)%elem_of_concat. by apply elem_of_nil in Hx. }
  assert (Hte : table_end g t1 ≤ n) by (unfold n, TAG_SIZE; lia).
  assert (Hfresh : ∀ x, x ∈ concat (replicate (Z.to_nat (g_bins g)) []) → x + FREE_NODE_SIZE ≤ n ∨ n + (hi - n) ≤ x) by (by intros x ?%Hnil).
  pose proof (insert_free_lists g Hg t1 _ n (hi - n) i [] Hl Hi Hbin Hte Hsz Hfresh) as Hl2.
  destruct (insert_free_meta g t1 n (hi - n) i Hbin) as [Ma Mb]. destruct (insert_free_sizes g t1 n (hi - n) i Hbin) as [Hs1 Hs2].
  set (t2 := insert_free g n (hi - n) t1) in *.
  destruct (concat_insert _ i _ [n] Hi) as (rest & E1 & E2).
  assert (Hnodes : ∀ x, x ∈ concat (<[i := [n]]> (replicate (Z.to_nat (g_bins g)) ([] : list Z))) ↔ x = n).
  { intros x. rewrite E2. cbn [app]. rewrite elem_of_cons. split; [|by left]. intros [->|Hx]; [done|].
    exfalso. apply (Hnil x). rewrite E1. done. }
  assert (Ete : table_end g t2 = acme) by (unfold table_end in *; rewrite Mb; lia).
  eexists _, _. split; [reflexivity|]. unfold Tag_init. fold (tag_word lo true).
  replace (TAG_SIZE + metadata_bytes g + TAG_SIZE) with (acme + TAG_SIZE - lo) by lia.
  replace (TAG_SIZE + metadata_bytes g) with (acme - lo) by lia. rewrite <- En.
  split.
  - apply lists_write; [done|exact Hl2|lia|]. intros x ->%Hnodes. left. unfold n, TAG_SIZE. lia.
  - eexists. unfold table_piece. change (table_end g (write acme (tag_word lo true) t2)) with (table_end g t2). rewrite Ete. reflexivity.
  - cbn [avails write]. congruence.
  - cbn [tiles]. unfold p_end. cbn [p_base p_size]. unfold MIN_CHUNK_SIZE, MIN_TAG_OFFSET, FREE_NODE_SIZE, TAG_SIZE, n in *.
    split_and!; [done|lia| |unfold TAG_SIZE; lia|lia| |unfold TAG_SIZE; lia].
    + apply Z.divide_sub_r; [|done]. apply Z.divide_add_r; [done|by exists 1].
    + apply Z.divide_sub_r; [done|]. apply Z.divide_add_r; [done|by exists 1].
  - cbn [tiles]. done.
  - split; [lia|done].
  - cbn [pieces_ok head_free p_free p_use]. unfold piece_ok, p_end. cbn [p_use p_base p_size].
    replace (lo + (acme + TAG_SIZE - lo) - TAG_SIZE) with acme by lia. replace (lo + (acme - lo)) with acme by lia.
    rewrite round_up_aligned; [|done|done].
    unfold TAG_SIZE, FREE_NODE_SIZE in *. rewrite read_write_eq, !read_write_ne by (unfold n; lia). split_and!; done || lia.
  - done.
  - rewrite app_nil_r. intros j x. split.
    + intros (l & Hj & Hx). assert (x = n) as -> by (apply Hnodes, elem_of_concat; eauto). exists (hi - n). split; [right; by left|].
      destruct (decide (i = j)) as [<-|Hne]; [done|]. rewrite list_lookup_insert_ne in Hj by done. apply lookup_replicate in Hj as [-> _].
      by apply elem_of_nil in Hx.
    + intros (s & Hin & Hb). apply elem_of_cons in Hin as [[=]|[[= -> ->]|Hin%elem_of_nil]%elem_of_cons]; [|done].
      assert (j = i) as -> by lia. exists [n]. split; [|by left]. apply list_lookup_insert_eq. rewrite length_replicate. lia.
Qed.
End Claim.
End Init.
