(* ===== verification/TalcSpec.v ===== *)
(** * What the general heap promises

    The heap as a set of live blocks.  A run of a client that only releases
    blocks it holds and only writes inside them keeps the heap well formed; the
    directory's laws of a heap hold of it; the check of debug builds never
    fails. *)

From S2P Require Import Prelude Alloc Mem Heap TalcGeo Talc TalcList TalcBits TalcFree TalcHeap TalcHole TalcSearch TalcAlloc TalcInit.

Section Spec.
Context (base_addr : Z) (g : HeapGeometry) (lo hi : Z).
Context (Hg : geometry_wf g) (Harea : heap_area base_addr lo hi).

Abbreviation heap_rep := (heap_rep g lo hi).

(** ** Enough turns *)

Lemma tiles_count lo' cs hi' : tiles lo' cs hi' → 32 * Z.of_nat (length cs) ≤ hi' - lo'.
Proof.
  revert lo'. induction cs as [|c cs IH]; intros lo'; cbn [tiles length]; [lia|].
  intros (<- & Hs & _ & Ht%IH). unfold p_end, MIN_CHUNK_SIZE, MIN_TAG_OFFSET, FREE_NODE_SIZE, TAG_SIZE in *. lia.
Qed.

(** A list is never longer than the chunks the area has room for. *)
Definition area_turns : nat := Z.to_nat ((hi - lo) / MIN_CHUNK_SIZE).

Lemma turns_enough t cs bs : heap_rep t cs bs → (length (concat bs) ≤ area_turns)%nat.
Proof using Hg Harea.
  intros Hr. pose proof (tiles_count _ _ _ (ho_pre _ _ _ _ _ _ _ _ _ _ Hr)) as Hc.
  pose proof (ls_nodup _ _ _ (ho_lists _ _ _ _ _ _ _ _ _ _ Hr)) as Hnd.
  assert (Hle : (length (concat bs) ≤ length (p_base <$> cs))%nat).
  { apply NoDup_incl_length; [by apply NoDup_ListNoDup|]. intros x Hx%list_elem_of_In.
    destruct (holed_node _ _ _ _ _ _ _ _ _ _ Hr x Hx) as [s Hs]. rewrite app_nil_r in Hs.
    apply list_elem_of_In, list_elem_of_fmap. by exists (mkPiece x s None). }
  rewrite length_fmap in Hle. unfold area_turns, MIN_CHUNK_SIZE, MIN_TAG_OFFSET, FREE_NODE_SIZE, TAG_SIZE. change (24 + 8) with 32.
  assert (Z.of_nat (length cs) ≤ (hi - lo) / 32) by (apply Z.div_le_lower_bound; lia). lia.
Qed.

(** ** The tables are where they were *)

Lemma table_piece_fixed t t' cs cs' bs bs' : heap_rep t cs bs → heap_rep t' cs' bs' → table_piece g lo t = table_piece g lo t'.
Proof.
  intros Hr Hr'. unfold table_piece, table_end.
  rewrite (ls_tables _ _ _ (ho_lists _ _ _ _ _ _ _ _ _ _ Hr)), (ls_tables _ _ _ (ho_lists _ _ _ _ _ _ _ _ _ _ Hr')).
  by rewrite <- (ho_avails _ _ _ _ _ _ _ _ _ _ Hr), <- (ho_avails _ _ _ _ _ _ _ _ _ _ Hr').
Qed.

Lemma table_end_metadata t cs bs : heap_rep t cs bs →
  p_end (table_piece g lo t) = lo + TAG_SIZE + metadata_bytes g + TAG_SIZE.
Proof.
  intros Hr. unfold p_end, table_piece, table_end, metadata_bytes. cbn [p_base p_size].
  rewrite (ls_tables _ _ _ (ho_lists _ _ _ _ _ _ _ _ _ _ Hr)), <- (ho_avails _ _ _ _ _ _ _ _ _ _ Hr). lia.
Qed.

Lemma uses_tail t cs bs : heap_rep t cs bs → uses cs = (lo, table_end g t - lo) :: uses (tail cs).
Proof. intros Hr. destruct (ho_table _ _ _ _ _ _ _ _ _ _ Hr) as [rest ->]. by rewrite uses_cons. Qed.

(** ** Stores *)

(** A word that has a byte of a block is of its piece. *)
Lemma block_word_base t cs bs c p n a : heap_rep t cs bs → c ∈ cs → p_use c = Some (p, n) → p - 8 < a < p + n → (8 | a) → p_base c ≤ a.
Proof using Hg Harea.
  intros Hr Hc Hu Ha [k ->]. destruct (use_inside base_addr g lo hi Hg Harea _ _ _ _ _ _ Hr Hc Hu) as (U1 & _).
  pose proof (holed_piece _ _ _ _ Harea _ _ _ _ _ _ _ Hr c ltac:(set_solver)) as (_ & [j Hj] & _). lia.
Qed.

Lemma store_spec t cs bs p n a v : heap_rep t cs bs → (p, n) ∈ uses (tail cs) → p - 8 < a < p + n → (8 | a) →
  heap_rep (write a v t) cs bs.
Proof using Hg Harea.
  intros Hr (c & Htl & Hu)%elem_of_uses Ha Ha8. pose proof (holed_nodup _ _ _ _ _ _ _ _ _ _ Hr) as Hnd. rewrite app_nil_r in Hnd.
  destruct (ho_table _ _ _ _ _ _ _ _ _ _ Hr) as [rest E]. assert (Hc : c ∈ cs) by (rewrite E in *; by right).
  assert (Htp : table_piece g lo t ∈ cs) by (rewrite E; by left).
  destruct (use_inside base_addr g lo hi Hg Harea _ _ _ _ _ _ Hr Hc Hu) as (U1 & U2 & U3).
  pose proof (block_word_base _ _ _ _ _ _ _ Hr Hc Hu Ha Ha8) as Hba.
  pose proof (holed_piece _ _ _ _ Harea _ _ _ _ _ _ _ Hr c ltac:(set_solver)) as (H1 & H2 & H3 & H4 & H5 & _).
  assert (Hok : ∃ nf, piece_ok t nf c) by (eapply pieces_ok_in; [apply Hr|done]). destruct Hok as [nf Hok].
  unfold piece_ok in Hok. rewrite Hu in Hok. destruct Hok as (_ & _ & _ & K4 & _). pose proof (round_up_bounds (p + n) 8 ltac:(done)).
  assert (Hap : ∀ d, d ∈ cs → c = d ∨ p_end c ≤ p_base d ∨ p_end d ≤ p_base c).
  { intros d Hd. apply (holed_apart _ _ _ _ Harea _ _ _ _ _ _ _ Hr); set_solver. }
  assert (Hword : ∀ d w, d ∈ cs → piece_word d w → w ≠ a).
  { intros d w Hd Hw. destruct (Hap d Hd) as [<-|Hx].
    - unfold piece_word in Hw. rewrite Hu in Hw. destruct Hw as [->| ->]; lia.
    - pose proof (holed_piece _ _ _ _ Harea _ _ _ _ _ _ _ Hr d ltac:(set_solver)) as (D1 & _).
      destruct (pieces_ok_in _ _ _ _ (ho_pre_ok _ _ _ _ _ _ _ _ _ _ Hr) Hd) as [nf' Hok].
      destruct (piece_word_in _ _ _ _ Hok D1 Hw) as [Hin _]. unfold TAG_SIZE in *. lia. }
  assert (Hcne : c ≠ table_piece g lo t) by (rewrite E in Htl, Hnd; cbn [tail] in Htl; apply NoDup_cons in Hnd as [? _]; by intros ->).
  pose proof (holed_node g lo hi _ _ _ _ _ _ _ Hr) as Hnode. destruct Hr. split; try done.
  - apply lists_write; [done|done| |].
    + destruct (Hap _ Htp) as [|Hx]; [done|]. unfold table_piece, p_end, TAG_SIZE in *. cbn [p_base p_size] in *.
      pose proof (gwf_bins _ Hg). pose proof (words_nonneg g Hg). unfold table_end, LINK_SIZE, WORD_SIZE in *.
      rewrite (ls_tables _ _ _ ho_lists), <- ho_avails in *. unfold WORD_SIZE in *. lia.
    + intros x Hx. destruct (Hnode x Hx) as [s Hs]. rewrite app_nil_r in Hs.
      destruct (Hap _ Hs) as [->|Hy]; [discriminate Hu|]. pose proof (tiles_in _ _ _ _ ho_pre ltac:(apply (ha_lo _ _ _ Harea)) Hs) as (_ & _ & X & _).
      unfold p_end, FREE_NODE_SIZE, TAG_SIZE in *. cbn [p_base p_size] in *. lia.
  - eapply pieces_ok_frame; [done|]. intros d w Hd Hw. apply read_write_ne. by apply (Hword d).
Qed.

(** ** The check of debug builds *)

Lemma bit_check_testbit w k : 0 ≤ k → bit_check w k = Z.testbit w k.
Proof.
  intros Hk. unfold bit_check. change 1 with (Z.ones 1) at 1. rewrite Z.land_ones by done. change (2 ^ 1) with 2.
  rewrite <- Z.bit0_mod, Z.shiftr_spec by done. rewrite Z.add_0_l. by destruct (Z.testbit w k).
Qed.

(** The tag before a free chunk says so. *)
Lemma before_free t cs bs x s : heap_rep t cs bs → mkPiece x s None ∈ cs →
  is_above_free (read (x - TAG_SIZE) t) = true ∧ is_allocated (read (x - TAG_SIZE) t) = true.
Proof using Hg Harea.
  intros Hr (pre & post & E)%list_elem_of_split. destruct (ho_table _ _ _ _ _ _ _ _ _ _ Hr) as [rest E'].
  destruct (last pre) as [c|] eqn:El; [|apply last_None in El; subst pre; rewrite E' in E; discriminate E].
  apply last_Some in El as [pre' ->]. pose proof (ho_pre_ok _ _ _ _ _ _ _ _ _ _ Hr) as Hok. pose proof (ho_pre _ _ _ _ _ _ _ _ _ _ Hr) as Ht.
  rewrite E, <- app_assoc in Hok, Ht. apply pieces_ok_app in Hok as [_ (Hc & Hcf & _)]. cbn [app head_free p_free p_use] in *.
  apply tiles_app in Ht as (mid & _ & _ & _ & _ & Hx & _). cbn [p_base] in Hx.
  pose proof (holed_piece _ _ _ _ Harea _ _ _ _ _ _ _ Hr c ltac:(rewrite E; set_solver)) as (H1 & H2 & _ & H4 & H5 & _).
  assert (Hw : word_aligned (p_base c)).
  { destruct (ha_lo _ _ _ Harea), (ha_hi _ _ _ Harea), (ha_base _ _ _ Harea). split; [|done]. unfold p_end in *. change (2 ^ 62) with (2 ^ 60 * 4). lia. }
  unfold piece_ok, p_free in *. destruct (p_use c) as [[p n]|]; [|by specialize (Hcf eq_refl)].
  destruct Hc as [Htag _]. rewrite Hx, Htag. by rewrite tag_is_above_free, tag_is_allocated.
Qed.

Lemma scan_list_spec t cs bs i m : heap_rep t cs bs → bs !! i = Some m → ∀ m' p turns,
  (∀ x, x ∈ m' → x ∈ m) → dll t p m' → (length m' ≤ turns)%nat →
  scan_list turns (Z.of_nat i) (read_link p t) t = Some true.
Proof using Hg Harea.
  intros Hr Hi m'. pose proof (ho_lists _ _ _ _ _ _ _ _ _ _ Hr) as Hl. induction m' as [|x m' IH]; intros p turns Hsub [Hs He] Hlen.
  - change (end_link p []) with p in He. rewrite He. by destruct turns.
  - destruct Hs as (H1 & H2 & H3). rewrite end_link_cons in He. rewrite H1. destruct turns as [|turns]; [cbn [length] in Hlen; lia|].
    cbn [scan_list word_bit_idx]. assert (Hx : x ∈ m) by (apply Hsub; by left).
    destruct (ho_bins _ _ _ _ _ _ _ _ _ _ Hr i x) as [(s & Hs & Hb) _]; [eauto|]. rewrite app_nil_r in Hs.
    destruct (pieces_ok_in _ _ _ _ (ho_pre_ok _ _ _ _ _ _ _ _ _ _ Hr) Hs) as [nf [Hlow Hhigh]]. unfold p_end in Hhigh. cbn [p_base p_size] in *.
    destruct (before_free _ _ _ _ _ Hr Hs) as [B1 B2].
    assert (Hrange : 0 ≤ Z.of_nat i < g_bins g) by (apply lookup_lt_Some in Hi; pose proof (ls_len _ _ _ Hl); lia).
    assert (Hbit : bit_check (read (avails t + WORD_SIZE * (Z.of_nat i / WORD_BITS)) t) (Z.of_nat i mod WORD_BITS) = true).
    { pose proof (Z.mod_pos_bound (Z.of_nat i) WORD_BITS ltac:(done)). rewrite bit_check_testbit by lia.
      fold (avail_word t (Z.of_nat i / WORD_BITS)).
      rewrite (bm_bit _ _ _ (ls_map _ _ _ Hl)) by (done || by apply words_cover).
      replace (Z.of_nat i / WORD_BITS * WORD_BITS + Z.of_nat i mod WORD_BITS) with (Z.of_nat i)
        by (pose proof (Z.div_mod (Z.of_nat i) WORD_BITS ltac:(done)); lia).
      rewrite (avail_at _ _ _ Hi). by destruct m; [apply elem_of_nil in Hx|]. }
    rewrite Hbit. unfold head_to_tail, head_to_acme, size_low, Tag_from_acme. rewrite Hlow, Hhigh, B1, B2, Z.eqb_refl.
    replace (x + s - x) with s by lia. rewrite Z.eqb_refl. cbn [andb]. apply IH; [set_solver|by split|cbn [length] in Hlen; lia].
Qed.

Lemma scan_errors_spec t cs bs turns : heap_rep t cs bs → (length (concat bs) ≤ turns)%nat → scan_errors g turns t = Some true.
Proof using Hg Harea.
  intros Hr Hturns. unfold scan_errors. assert (Hall : ∀ i, i ∈ seqZ 0 (g_bins g) → 0 ≤ i < g_bins g) by (intros i Hi%elem_of_seqZ; lia).
  revert Hall. generalize (seqZ 0 (g_bins g)). intros is_. induction is_ as [|i is_ IH]; intros Hall; [done|]. cbn [scan_bins].
  pose proof (ho_lists _ _ _ _ _ _ _ _ _ _ Hr) as Hl. pose proof (ls_len _ _ _ Hl). pose proof (Hall i ltac:(by left)).
  destruct (lookup_lt_is_Some_2 bs (Z.to_nat i)) as [m Hm]; [lia|]. unfold bin_by_idx.
  replace i with (Z.of_nat (Z.to_nat i)) by lia.
  rewrite (scan_list_spec t cs bs (Z.to_nat i) m Hr Hm m); [apply IH; set_solver|done|by apply Hl|].
  destruct (concat_insert bs _ m m Hm) as (rest & E & _). apply Permutation_length in E. rewrite length_app in E. lia.
Qed.

(** ** Live blocks *)

Lemma live_keys t cs bs : heap_rep t cs bs → NoDup (uses (tail cs)).*1.
Proof using Hg Harea.
  intros Hr. destruct (uses_apart base_addr g lo hi Hg Harea _ _ _ Hr) as (Hnd & Hin & Hap).
  rewrite (uses_tail _ _ _ Hr) in Hnd, Hin, Hap. apply NoDup_cons in Hnd as [_ Hnd].
  apply NoDup_fmap_2_strong; [|done]. intros [p n] [p' n'] Hp Hp' E. cbn in E. subst p'.
  destruct (Hap p n p n') as [|Hx]; [by right|by right|done|].
  pose proof (Hin p n ltac:(by right)). pose proof (Hin p n' ltac:(by right)). lia.
Qed.

Definition live_blocks (cs : list piece) : gmap Z Z := list_to_map (uses (tail cs)).

Lemma live_spec t cs bs p n : heap_rep t cs bs → live_blocks cs !! p = Some n ↔ (p, n) ∈ uses (tail cs).
Proof using Hg Harea. intros Hr. symmetry. by apply elem_of_list_to_map, (live_keys _ _ _ Hr). Qed.

Lemma live_tail t t' cs cs' bs bs' u : heap_rep t cs bs → heap_rep t' cs' bs' → uses cs' ≡ₚ u :: uses cs →
  uses (tail cs') ≡ₚ u :: uses (tail cs).
Proof.
  intros Hr Hr' E. rewrite (uses_tail _ _ _ Hr), (uses_tail _ _ _ Hr') in E.
  pose proof (table_piece_fixed _ _ _ _ _ _ Hr Hr') as [= Et]. assert (table_end g t = table_end g t') as Et' by lia. rewrite Et' in E.
  apply (Permutation_cons_inv (a := (lo, table_end g t' - lo))). rewrite E. apply Permutation_swap.
Qed.

Lemma live_insert t t' cs cs' bs bs' p n : heap_rep t cs bs → heap_rep t' cs' bs' → uses cs' ≡ₚ (p, n) :: uses cs →
  live_blocks cs' = <[p := n]> (live_blocks cs) ∧ live_blocks cs !! p = None.
Proof using Hg Harea.
  intros Hr Hr' E. pose proof (live_tail _ _ _ _ _ _ _ Hr Hr' E) as E'. pose proof (live_keys _ _ _ Hr') as Hnd. split.
  - unfold live_blocks. rewrite (list_to_map_proper _ _ Hnd E'). done.
  - apply not_elem_of_list_to_map. rewrite E' in Hnd. by apply NoDup_cons in Hnd as [? _].
Qed.

(** ** Well-formed heaps *)

(** The state of the heap and the blocks its clients hold. *)
Record talc_heap := mkTalcHeap { th_meta : TalcMeta; th_live : gmap Z Z }.

Definition talc_wf (h : talc_heap) : Prop := ∃ cs bs, heap_rep (th_meta h) cs bs ∧ th_live h = live_blocks cs.

Lemma talc_blocks_apart h : talc_wf h →
  (∀ p n, th_live h !! p = Some n → lo + TAG_SIZE + metadata_bytes g + TAG_SIZE ≤ p ∧ 0 < n ∧ p + n ≤ hi) ∧
  ∀ p n p' n', th_live h !! p = Some n → th_live h !! p' = Some n' → p = p' ∨ p + n ≤ p' ∨ p' + n' ≤ p.
Proof using Hg Harea.
  intros (cs & bs & Hr & E). destruct (uses_apart base_addr g lo hi Hg Harea _ _ _ Hr) as (_ & Hin & Hap).
  rewrite (uses_tail _ _ _ Hr) in Hin, Hap. rewrite E. split.
  - intros p n Hp%(live_spec _ _ _ _ _ Hr). destruct (Hin p n ltac:(by right)) as (_ & ? & ?). split; [|done].
    apply elem_of_uses in Hp as (c & Hc & Hu). destruct (ho_table _ _ _ _ _ _ _ _ _ _ Hr) as [rest Er].
    pose proof (ho_pre _ _ _ _ _ _ _ _ _ _ Hr) as Ht. rewrite Er in Ht, Hc. cbn [tail tiles] in *. destruct Ht as (_ & _ & _ & Ht).
    destruct (tiles_nodup _ _ _ Ht) as [_ Hb]. pose proof (Hb c Hc) as [Hlow _].
    destruct (use_inside base_addr g lo hi Hg Harea _ _ _ c p n Hr) as [Hp _]; [rewrite Er; right; done|done|].
    rewrite (table_end_metadata _ _ _ Hr) in Hlow. lia.
  - intros p n p' n' Hp%(live_spec _ _ _ _ _ Hr) Hp'%(live_spec _ _ _ _ _ Hr).
    destruct (Hap p n p' n') as [[= -> ->]|]; [by right|by right|by left|by right].
Qed.

Lemma talc_allocate_wf h l : talc_wf h → layout_wf l → 0 < size l →
  allocate base_addr g area_turns l (th_meta h) = Some (Err tt, th_meta h) ∧
    (∃ cs bs, heap_rep (th_meta h) cs bs ∧ ∀ x s, mkPiece x s None ∈ cs → fits base_addr l x s = false) ∨
  ∃ o t', allocate base_addr g area_turns l (th_meta h) = Some (Ok o, t') ∧
    talc_wf (mkTalcHeap t' (<[o := size l]> (th_live h))) ∧ th_live h !! o = None ∧ (align l | base_addr + o).
Proof using Hg Harea.
  intros (cs & bs & Hr & E) Hl Hs.
  destruct (allocate_spec base_addr g lo hi Hg Harea l Hl Hs _ _ _ _ Hr (turns_enough _ _ _ Hr)) as [[Ea Hno]|(o & t' & cs' & bs' & Ea & Hr' & Hu & Hal & _ & _)].
  - left. split; [done|]. eauto.
  - right. exists o, t'. destruct (live_insert _ _ _ _ _ _ _ _ Hr Hr' Hu) as [E1 E2]. rewrite E. split_and!; [done| |done|done].
    exists cs', bs'. done.
Qed.

Lemma talc_free_wf h p n : talc_wf h → th_live h !! p = Some n →
  talc_wf (mkTalcHeap (deallocate base_addr g p n (th_meta h)) (delete p (th_live h))).
Proof using Hg Harea.
  intros (cs & bs & Hr & E) Hp. rewrite E in Hp. apply (live_spec _ _ _ _ _ Hr) in Hp.
  destruct (deallocate_spec base_addr g lo hi Hg Harea _ _ _ _ _ Hr Hp) as (cs' & bs' & Hr' & Hu & _).
  exists cs', bs'. split; [done|]. cbn [th_live]. rewrite E. destruct (live_insert _ _ _ _ _ _ _ _ Hr' Hr Hu) as [-> Hn].
  by rewrite delete_insert_id.
Qed.

(** The words of a block that stays live are left alone. *)
Lemma talc_allocate_keeps h l o t' p n a : talc_wf h → layout_wf l → 0 < size l → allocate base_addr g area_turns l (th_meta h) = Some (Ok o, t') →
  th_live h !! p = Some n → p - 8 < a < p + n → (8 | a) → read a t' = read a (th_meta h).
Proof using Hg Harea.
  intros (cs & bs & Hr & E) Hl Hs Ea Hp Ha Ha8. rewrite E in Hp. apply (live_spec _ _ _ _ _ Hr), elem_of_uses in Hp as (c & Hc & Hu).
  destruct (allocate_spec base_addr g lo hi Hg Harea l Hl Hs _ _ _ _ Hr (turns_enough _ _ _ Hr)) as [[Ea' _]|(o' & t2 & cs' & bs' & Ea' & _ & _ & _ & _ & Hk)];
    rewrite Ea in Ea'; [discriminate|]. injection Ea' as <- <-.
  destruct (ho_table _ _ _ _ _ _ _ _ _ _ Hr) as [rest Er]. assert (Hcs : c ∈ cs) by (rewrite Er in *; by right).
  apply Hk. exists c, p, n. split; [done|]. split; [|split; [done|]; split; [split; [|lia]; by eapply block_word_base|done]].
  pose proof (ho_pre _ _ _ _ _ _ _ _ _ _ Hr) as Ht. rewrite Er in Ht, Hc. cbn [tail tiles] in *. destruct Ht as (_ & Hmin & _ & Ht).
  destruct (tiles_nodup _ _ _ Ht) as [_ Hb]. specialize (Hb c Hc). unfold p_end, table_piece, MIN_CHUNK_SIZE, MIN_TAG_OFFSET, FREE_NODE_SIZE, TAG_SIZE in *.
  cbn [p_base p_size] in *. lia.
Qed.

Lemma talc_free_keeps h p n p' n' a : talc_wf h → th_live h !! p = Some n → th_live h !! p' = Some n' → p' ≠ p → p' - 8 < a < p' + n' → (8 | a) →
  read a (deallocate base_addr g p n (th_meta h)) = read a (th_meta h).
Proof using Hg Harea.
  intros (cs & bs & Hr & E) Hp Hp' Hne Ha Ha8. rewrite E in Hp, Hp'. apply (live_spec _ _ _ _ _ Hr) in Hp. apply (live_spec _ _ _ _ _ Hr), elem_of_uses in Hp' as (c & Hc & Hu).
  destruct (deallocate_spec base_addr g lo hi Hg Harea _ _ _ _ _ Hr Hp) as (cs' & bs' & _ & _ & Hk). apply (Hk c p' n'); [done|done|done|split; [|lia]|done].
  eapply block_word_base; [exact Hr| |exact Hu|done|done]. destruct (ho_table _ _ _ _ _ _ _ _ _ _ Hr) as [rest Er]. rewrite Er in *. by right.
Qed.

Lemma talc_store_wf h p n a v : talc_wf h → th_live h !! p = Some n → p - 8 < a < p + n → (8 | a) →
  talc_wf (mkTalcHeap (write a v (th_meta h)) (th_live h)).
Proof using Hg Harea.
  intros (cs & bs & Hr & E) Hp Ha Ha8. rewrite E in Hp. apply (live_spec _ _ _ _ _ Hr) in Hp.
  exists cs, bs. split; [|done]. by apply (store_spec _ _ _ p n).
Qed.

(** A client that keeps to its blocks. *)
Inductive client_step : talc_heap → talc_heap → Prop :=
| step_alloc h l o t :
    layout_wf l → 0 < size l → allocate base_addr g area_turns l (th_meta h) = Some (Ok o, t) →
    client_step h (mkTalcHeap t (<[o := size l]> (th_live h)))
| step_free h p n :
    th_live h !! p = Some n →
    client_step h (mkTalcHeap (deallocate base_addr g p n (th_meta h)) (delete p (th_live h)))
| step_store h p n a v :
    th_live h !! p = Some n → p ≤ a < p + n → (8 | a) →
    client_step h (mkTalcHeap (write a v (th_meta h)) (th_live h)).

Lemma client_step_wf h h' : talc_wf h → client_step h h' → talc_wf h'.
Proof using Hg Harea.
  intros Hw Hs. destruct Hs as [h l o t Hl Hs E|h p n Hp|h p n a v Hp Ha Ha8].
  - destruct (talc_allocate_wf h l Hw Hl Hs) as [[E' _]|(o' & t' & E' & Hw' & _)]; [congruence|].
    rewrite E in E'. by injection E' as -> ->.
  - by apply talc_free_wf.
  - eapply talc_store_wf; [done|done|lia|done].
Qed.

(** ** Coalescing *)

(** With nothing live there is one free chunk. *)
Lemma all_free t cs bs : heap_rep t cs bs → uses (tail cs) = [] → table_end g t + TAG_SIZE < hi →
  cs = [table_piece g lo t; mkPiece (table_end g t + TAG_SIZE) (hi - (table_end g t + TAG_SIZE)) None].
Proof using Hg Harea.
  intros Hr Hu Hroom. destruct (ho_table _ _ _ _ _ _ _ _ _ _ Hr) as [rest E].
  pose proof (ho_pre _ _ _ _ _ _ _ _ _ _ Hr) as Ht. pose proof (ho_pre_ok _ _ _ _ _ _ _ _ _ _ Hr) as Hok.
  rewrite E in *. cbn [tail tiles pieces_ok] in *. destruct Ht as (_ & _ & _ & Ht). destruct Hok as (_ & _ & Hok). f_equal.
  replace (p_end (table_piece g lo t)) with (table_end g t + TAG_SIZE) in Ht by (unfold p_end, table_piece; cbn [p_base p_size]; lia).
  destruct rest as [|[x s u] rest]; cbn [tiles] in Ht; [lia|]. rewrite uses_cons in Hu. cbn [p_use] in Hu. destruct u as [u|]; [discriminate|].
  destruct Ht as (Hx & _ & _ & Ht). destruct Hok as (_ & Hnf & _). cbn [p_base p_free p_use] in *. specialize (Hnf eq_refl).
  destruct rest as [|[x' s' u'] rest].
  - cbn [tiles] in Ht. unfold p_end in Ht. cbn [p_base p_size] in Ht. subst x. do 2 f_equal. lia.
  - rewrite uses_cons in Hu. cbn [p_use head_free p_free] in *. destruct u'; discriminate.
Qed.
End Spec.
