(* ===== verification/TalcSafe.v ===== *)
(** * The general heap: theorems

    From a fresh heap, through any run of a client that keeps to its blocks:
    what is live never overlaps, allocation answers exactly when there is room,
    release gives everything back, and the checks of debug builds pass.  The
    heap meets the laws the directory relies on. *)

From S2P Require Import Prelude Alloc Mem Heap TalcGeo Talc TalcList TalcBits TalcFree TalcHeap TalcHole TalcSearch TalcAlloc TalcInit TalcSpec.

(** A configuration [claim] is given: a validated geometry, and an area in the
    address space. *)
Record heap_ready (base_addr : Z) (g : HeapGeometry) (forward size : Z) : Prop := {
  hd_unsigned : geometry_unsigned g;
  hd_valid : validate g size = Ok tt;
  hd_base : 0 ≤ base_addr ∧ (8 | base_addr);
  hd_forward : 0 ≤ forward;
  hd_size : base_addr + META_SIZE + forward + size + 8 ≤ 2 ^ 60;
}.

Section Ready.
Context (base_addr : Z) (g : HeapGeometry) (forward size : Z) (m : gmap Z Z).
Context (Hready : heap_ready base_addr g forward size).

Abbreviation lo := (area_lo base_addr forward).
Abbreviation hi := (area_hi base_addr forward size).
Abbreviation step := (client_step base_addr g lo hi).

(** The heap [claim] leaves, nothing live. *)
Definition fresh_heap : talc_heap := mkTalcHeap (claim_heap base_addr g forward size (TalcMeta_null m)).2 ∅.

Lemma ready_wf : geometry_wf g ∧ metadata_bytes g + MIN_METADATA ≤ size.
Proof using Hready. destruct Hready. by apply validate_wf. Qed.

Lemma size_down : align_down size WORD_ALIGN = size / 8 * 8.
Proof using Hready.
  destruct ready_wf as [Hg Hm]. destruct (metadata_positive g Hg) as [Hm1 _]. destruct Hready. unfold MIN_METADATA, META_SIZE in *.
  apply align_down_spec; [done|done|]. unfold is_word, usize_bits. change (2 ^ 64) with (2 ^ 60 * 16). lia.
Qed.

Lemma ready_lo : lo = round_up (META_SIZE + forward) 8.
Proof using Hready.
  destruct ready_wf as [Hg Hm]. destruct (metadata_positive g Hg) as [Hm1 _]. destruct Hready as [_ _ [Hb [k Hk]] Hf Hs]. unfold area_lo, ptr_align_up, WORD_ALIGN, META_SIZE, MIN_METADATA in *.
  rewrite align_up_round; [|done|done|lia|unfold usize_max, usize_bits; change (2 ^ 64) with (2 ^ 60 * 16); lia].
  unfold round_up. rewrite Hk. replace (k * 8 + (24 + forward) + 8 - 1) with (24 + forward + 8 - 1 + k * 8) by lia. rewrite Z.div_add by done. lia.
Qed.

Lemma ready_area : heap_area base_addr lo hi.
Proof using Hready.
  destruct ready_wf as [Hg Hm]. destruct (metadata_positive g Hg) as [Hm1 _].
  pose proof (round_up_bounds (META_SIZE + forward) 8 ltac:(done)) as Hr. rewrite <- ready_lo in Hr.
  assert (Hlo8 : (8 | lo)) by (rewrite ready_lo; by exists ((META_SIZE + forward + 8 - 1) / 8)).
  pose proof (Z.div_mod size 8 ltac:(done)). pose proof (Z.mod_pos_bound size 8 ltac:(done)). destruct Hready. unfold MIN_METADATA, META_SIZE in *.
  split; [done|split; [lia|done]|unfold area_hi; rewrite size_down; lia|].
  split; unfold area_hi; rewrite size_down; [lia|]. apply Z.divide_add_r; [done|]. by exists (size / 8).
Qed.

Lemma ready_room : metadata_bytes g + MIN_METADATA ≤ align_down size WORD_ALIGN.
Proof using Hready.
  destruct ready_wf as [Hg Hm]. destruct (metadata_positive g Hg) as [Hm1 [k Hk]]. rewrite size_down. unfold MIN_METADATA in *.
  assert (k + 64 ≤ size / 8) by (apply Z.div_le_lower_bound; lia). lia.
Qed.

Lemma fresh_rep : ∃ bs, (claim_heap base_addr g forward size (TalcMeta_null m)).1 = Ok tt ∧
  heap_rep g lo hi (th_meta fresh_heap) [mkPiece lo (TAG_SIZE + metadata_bytes g + TAG_SIZE) (Some (lo, TAG_SIZE + metadata_bytes g));
    mkPiece (lo + TAG_SIZE + metadata_bytes g + TAG_SIZE) (hi - (lo + TAG_SIZE + metadata_bytes g + TAG_SIZE)) None] bs.
Proof using Hready.
  destruct ready_wf as [Hg _]. destruct (claim_heap_spec base_addr g Hg forward size m ready_area ready_room) as (t & bs & E & Hr).
  exists bs. unfold fresh_heap. rewrite E. done.
Qed.

(** Every heap a client reaches is well formed. *)
Lemma reachable_wf h : rtc step fresh_heap h → talc_wf g lo hi h.
Proof using Hready.
  assert (H0 : talc_wf g lo hi fresh_heap) by (destruct fresh_rep as (bs & _ & Hr); by eexists _, bs).
  intros Hrtc. induction Hrtc as [h|h1 h2 h3 Hs _ IH]; [done|]. apply IH.
  eapply client_step_wf; [apply ready_wf|apply ready_area|done|done].
Qed.

(** C23: a client allocates, releases what it holds and writes inside what it
    holds, in any order.  Then the blocks it holds lie behind the tables and
    inside the area, and no two of them overlap. *)
Theorem talc_blocks_disjoint h : rtc step fresh_heap h →
  (∀ p n, th_live h !! p = Some n → lo + TAG_SIZE + metadata_bytes g + TAG_SIZE ≤ p ∧ 0 < n ∧ p + n ≤ hi) ∧
  ∀ p n p' n', th_live h !! p = Some n → th_live h !! p' = Some n' → p = p' ∨ p + n ≤ p' ∨ p' + n' ≤ p.
Proof using Hready. intros Hr. apply (talc_blocks_apart base_addr); [apply ready_wf|apply ready_area|by apply reachable_wf]. Qed.

(** C24: in such a run an allocation always returns.  It fails only if no free
    chunk of the heap can hold the block with its tag at the alignment asked
    for; otherwise it answers an aligned block, apart from every block held. *)
Theorem talc_allocate_exact h l : rtc step fresh_heap h → layout_wf l → 0 < Alloc.size l →
  (∃ cs bs, heap_rep g lo hi (th_meta h) cs bs ∧ (∀ x s, mkPiece x s None ∈ cs → fits base_addr l x s = false) ∧
    allocate base_addr g (area_turns lo hi) l (th_meta h) = Some (Err tt, th_meta h)) ∨
  ∃ o t, allocate base_addr g (area_turns lo hi) l (th_meta h) = Some (Ok o, t) ∧
    (align l | base_addr + o) ∧ lo + TAG_SIZE + metadata_bytes g + TAG_SIZE ≤ o ∧ o + Alloc.size l ≤ hi ∧
    ∀ p n, th_live h !! p = Some n → o + Alloc.size l ≤ p ∨ p + n ≤ o.
Proof using Hready.
  intros Hr%reachable_wf Hl Hs. destruct ready_wf as [Hg _]. pose proof ready_area as Ha.
  destruct (talc_allocate_wf base_addr g lo hi Hg Ha h l Hr Hl Hs) as [[E (cs & bs & Hrep & Hno)]|(o & t & E & Hw & Hnew & Hal)].
  - left. eauto 6.
  - right. exists o, t. destruct (talc_blocks_apart base_addr g lo hi Hg Ha _ Hw) as [Hin Hap]. cbn [th_live] in *.
    destruct (Hin o (Alloc.size l)) as (? & ? & ?); [apply lookup_insert_eq|]. split_and!; [done|done|done|done|].
    intros p n Hp. assert (p ≠ o) by (intros ->; congruence).
    destruct (Hap o (Alloc.size l) p n) as [|?]; [apply lookup_insert_eq|by rewrite lookup_insert_ne|congruence|done].
Qed.

(** C26: when a client has released all its blocks, free chunks have coalesced
    into one: every layout the fresh heap had room for is allocated again. *)
Theorem talc_release_restores h l : rtc step fresh_heap h → th_live h = ∅ → layout_wf l → 0 < Alloc.size l →
  fits base_addr l (lo + TAG_SIZE + metadata_bytes g + TAG_SIZE) (hi - (lo + TAG_SIZE + metadata_bytes g + TAG_SIZE)) = true →
  ∃ o t, allocate base_addr g (area_turns lo hi) l (th_meta h) = Some (Ok o, t).
Proof using Hready.
  intros (cs & bs & Hrep & E)%reachable_wf Hlive Hl Hs Hfit. destruct ready_wf as [Hg _]. pose proof ready_area as Ha.
  assert (Hu : uses (tail cs) = []).
  { destruct (uses (tail cs)) as [|[p n] us] eqn:Eu; [done|]. exfalso.
    assert (Hp : live_blocks cs !! p = Some n) by (apply (live_spec base_addr g lo hi Hg Ha _ _ _ _ _ Hrep); rewrite Eu; by left).
    by rewrite <- E, Hlive in Hp. }
  pose proof (table_end_metadata _ _ _ _ _ _ Hrep) as Hte. unfold p_end, table_piece in Hte. cbn [p_base p_size] in Hte.
  pose proof ready_room as Hroom. unfold MIN_METADATA in Hroom.
  pose proof (all_free base_addr g lo hi Hg Ha _ _ _ Hrep Hu ltac:(unfold area_hi, TAG_SIZE in *; lia)) as Ecs.
  replace (table_end g (th_meta h) + TAG_SIZE) with (lo + TAG_SIZE + metadata_bytes g + TAG_SIZE) in Ecs by lia.
  destruct (allocate_spec base_addr g lo hi Hg Ha l Hl Hs _ _ _ _ Hrep (turns_enough base_addr _ _ _ Hg Ha _ _ _ Hrep))
    as [[_ Hno]|(o & t & _ & _ & Ea & _)]; [|eauto].
  rewrite Hno in Hfit; [done|]. rewrite Ecs. right. by left.
Qed.

(** C25: in such a run neither an allocation nor a release writes into a block that is
    held before and after it: every word with a byte of such a block, also one
    that the block only shares with the padding around it, is what it was. *)
Theorem talc_blocks_untouched h p n a : rtc step fresh_heap h → th_live h !! p = Some n → p - 8 < a < p + n → (8 | a) →
  (∀ l o t, layout_wf l → 0 < Alloc.size l → allocate base_addr g (area_turns lo hi) l (th_meta h) = Some (Ok o, t) → read a t = read a (th_meta h)) ∧
  (∀ p' n', th_live h !! p' = Some n' → p' ≠ p → read a (deallocate base_addr g p' n' (th_meta h)) = read a (th_meta h)).
Proof using Hready.
  intros Hr%reachable_wf Hp Ha Ha8. destruct ready_wf as [Hg _]. pose proof ready_area as Harea. split.
  - intros l o t Hl Hs E. by eapply (talc_allocate_keeps base_addr).
  - intros p' n' Hp' Hne. eapply (talc_free_keeps base_addr); [done|done|done|done|exact Hp|done|exact Ha|done].
Qed.

(** In such a run the checks of debug builds ([scan_errors]) never fail:
    the sizes at both ends of a free chunk agree, its bin is marked, and the tag
    before it says that it is free. *)
Theorem talc_scan_errors_pass h : rtc step fresh_heap h → scan_errors g (area_turns lo hi) (th_meta h) = Some true.
Proof using Hready.
  intros (cs & bs & Hrep & _)%reachable_wf. destruct ready_wf as [Hg _]. pose proof ready_area as Ha.
  apply (scan_errors_spec base_addr g lo hi Hg Ha _ _ _ _ Hrep). by eapply turns_enough.
Qed.
End Ready.

(** ** The bytes of the heap *)

(** Byte [k] of a word, and the word with another byte there. *)
Definition word_byte (k w : Z) : Z := wrap 8 (Z.shiftr w (8 * k)).
Definition put_byte (k v w : Z) : Z := Z.lor (Z.ldiff w (Z.shiftl 255 (8 * k))) (Z.shiftl (wrap 8 v) (8 * k)).

Lemma wrap_bits w x j : 0 ≤ w → 0 ≤ j → Z.testbit (wrap w x) j = (j <? w) && Z.testbit x j.
Proof. intros Hw Hj. unfold wrap. destruct (Z.ltb_spec j w); [by rewrite Z.mod_pow2_bits_low|]. by rewrite Z.mod_pow2_bits_high by lia. Qed.

Lemma byte_ones j : 0 ≤ j → Z.testbit 255 j = (j <? 8).
Proof. intros Hj. change 255 with (Z.ones 8). destruct (Z.ltb_spec j 8); [by apply Z.ones_spec_low|by apply Z.ones_spec_high]. Qed.

Lemma put_byte_bits k v w j : 0 ≤ k → 0 ≤ j →
  Z.testbit (put_byte k v w) j = if (8 * k <=? j) && (j <? 8 * k + 8) then Z.testbit (wrap 8 v) (j - 8 * k) else Z.testbit w j.
Proof.
  intros Hk Hj. unfold put_byte. rewrite Z.lor_spec, Z.ldiff_spec, !Z.shiftl_spec by done. destruct (Z.leb_spec (8 * k) j); cbn [andb].
  - rewrite byte_ones by lia. destruct (Z.ltb_spec j (8 * k + 8)).
    + rewrite (proj2 (Z.ltb_lt _ _)) by lia. cbn [negb]. by rewrite andb_false_r.
    + rewrite (proj2 (Z.ltb_ge _ _)) by lia. cbn [negb]. rewrite andb_true_r, wrap_bits by lia. rewrite (proj2 (Z.ltb_ge _ _)) by lia. apply orb_false_r.
  - rewrite !(Z.testbit_neg_r _ (j - 8 * k)) by lia. cbn [negb]. by rewrite andb_true_r, orb_false_r.
Qed.

Lemma byte_put k j v w : 0 ≤ k → 0 ≤ j → word_byte j (put_byte k v w) = if j =? k then wrap 8 v else word_byte j w.
Proof.
  intros Hk Hj. apply Z.bits_inj'. intros n Hn. unfold word_byte. rewrite wrap_bits, Z.shiftr_spec, put_byte_bits by lia.
  destruct (Z.ltb_spec n 8); cbn [andb].
  - destruct (Z.eqb_spec j k) as [->|Hne].
    + rewrite (proj2 (Z.leb_le _ _)), (proj2 (Z.ltb_lt _ _)) by lia. cbn [andb]. f_equal. lia.
    + rewrite (wrap_bits 8 (Z.shiftr w (8 * j)) n), Z.shiftr_spec by lia. rewrite (proj2 (Z.ltb_lt n 8)) by lia. cbn [andb].
      destruct (Z.leb_spec (8 * k) (n + 8 * j)), (Z.ltb_spec (n + 8 * j) (8 * k + 8)); cbn [andb]; [lia|done..].
  - destruct (j =? k); rewrite wrap_bits by lia; by rewrite (proj2 (Z.ltb_ge n 8)).
Qed.

(** A byte of the heap is one of the aligned word it lies in. *)
Definition talc_byte (x : Z) (h : talc_heap) : Z := word_byte (x mod 8) (read (8 * (x / 8)) (th_meta h)).
Definition set_talc_byte (x v : Z) (h : talc_heap) : talc_heap :=
  mkTalcHeap (write (8 * (x / 8)) (put_byte (x mod 8) v (read (8 * (x / 8)) (th_meta h))) (th_meta h)) (th_live h).

Lemma byte_word x : 8 * (x / 8) = x - x mod 8 ∧ 0 ≤ x mod 8 < 8 ∧ (8 | 8 * (x / 8)).
Proof. pose proof (Z.div_mod x 8 ltac:(done)). pose proof (Z.mod_pos_bound x 8 ltac:(done)). split_and!; [lia|lia|lia|]. exists (x / 8). lia. Qed.

Lemma talc_byte_set x v y h : talc_byte y (set_talc_byte x v h) = if y =? x then wrap 8 v else talc_byte y h.
Proof.
  unfold talc_byte, set_talc_byte. cbn [th_meta]. destruct (byte_word x) as (Ex & Hx & _), (byte_word y) as (Ey & Hy & _). rewrite read_write. case_decide as E.
  - rewrite byte_put by lia. destruct (Z.eqb_spec (y mod 8) (x mod 8)), (Z.eqb_spec y x); first [lia|by rewrite E].
  - destruct (Z.eqb_spec y x) as [->|]; [done|]. done.
Qed.

(** ** Instances *)

(** An area of 4096 bytes behind a base at address 12288, with the automatic geometry. *)
Definition demo_geometry : HeapGeometry := mkHeapGeometry 28 16 6 10 2 0.

Lemma demo_ready : heap_ready 12288 demo_geometry 0 4096.
Proof. by split; [unfold geometry_unsigned, demo_geometry; cbn; lia|vm_compute|split; [|exists 1536]|..]. Qed.

Definition demo_heap : talc_heap := fresh_heap 12288 demo_geometry 0 4096 ∅.
Abbreviation demo_lo := (area_lo 12288 0).
Abbreviation demo_hi := (area_hi 12288 0 4096).
Abbreviation demo_step := (client_step 12288 demo_geometry demo_lo demo_hi).
Abbreviation demo_turns := (area_turns demo_lo demo_hi).

(** One allocation of a client, as a function. *)
Definition demo_alloc (l : Layout) (h : talc_heap) : talc_heap :=
  match allocate 12288 demo_geometry demo_turns l (th_meta h) with
  | Some (Ok o, t) => mkTalcHeap t (<[o := size l]> (th_live h))
  | _ => h
  end.

Definition demo_free (p n : Z) (h : talc_heap) : talc_heap :=
  mkTalcHeap (deallocate 12288 demo_geometry p n (th_meta h)) (delete p (th_live h)).

Lemma demo_alloc_run l h0 h : layout_wf l → 0 < size l → rtc demo_step h0 h → rtc demo_step h0 (demo_alloc l h).
Proof.
  intros Hl Hs Hr. unfold demo_alloc. destruct (allocate _ _ _ l _) as [[[o|] t]|] eqn:E; [|done..].
  eapply rtc_r; [done|]. by apply step_alloc.
Qed.

Lemma demo_free_run p n h0 h : th_live h !! p = Some n → rtc demo_step h0 h → rtc demo_step h0 (demo_free p n h).
Proof. intros Hp Hr. eapply rtc_r; [done|]. by apply step_free. Qed.

(** A client that holds two blocks, and the same client when it has released
    them, the first one first. *)
Definition demo_two : talc_heap := demo_alloc (mkLayout 20 64) (demo_alloc (mkLayout 100 8) demo_heap).
Definition demo_none : talc_heap := demo_free 640 20 (demo_free 496 100 demo_two).

Lemma demo_layout_ok s a : bool_decide (layout_wf (mkLayout s a)) = true → layout_wf (mkLayout s a).
Proof. apply bool_decide_eq_true. Qed.

Lemma demo_two_run : rtc demo_step demo_heap demo_two.
Proof. by repeat apply demo_alloc_run; [by apply demo_layout_ok|done|apply demo_layout_ok|..]. Qed.

Lemma demo_none_run : rtc demo_step demo_heap demo_none.
Proof. apply demo_free_run; [by vm_compute|]. apply demo_free_run; [by vm_compute|]. apply demo_two_run. Qed.

Lemma talc_blocks_disjoint_witness : map_to_list (th_live demo_two) = [(496, 100); (640, 20)] ∧ (496 + 100 ≤ 640).
Proof.
  split; [by vm_compute|].
  destruct (proj2 (talc_blocks_disjoint 12288 demo_geometry 0 4096 ∅ demo_ready demo_two demo_two_run) 496 100 640 20) as [?|[?|?]];
    [by vm_compute|by vm_compute|lia|done|lia].
Defined.

Lemma talc_allocate_exact_witness : ∃ o t, allocate 12288 demo_geometry demo_turns (mkLayout 4000 8) (th_meta demo_two) = Some (Err o, t).
Proof.
  destruct (talc_allocate_exact 12288 demo_geometry 0 4096 ∅ demo_ready demo_two (mkLayout 4000 8) demo_two_run)
    as [(cs & bs & _ & _ & E)|(o & t & _ & _ & H & H' & _)]; [by apply demo_layout_ok|done|by eauto|].
  exfalso. change (496 ≤ o) in H. change (o + 4000 ≤ 4120) in H'. lia.
Defined.

Lemma talc_release_restores_witness : th_live demo_none = ∅ ∧
  ∃ o t, allocate 12288 demo_geometry demo_turns (mkLayout 3600 8) (th_meta demo_none) = Some (Ok o, t).
Proof.
  assert (E : th_live demo_none = ∅) by by vm_compute. split; [done|].
  apply (talc_release_restores 12288 demo_geometry 0 4096 ∅ demo_ready demo_none (mkLayout 3600 8) demo_none_run E);
    [by apply demo_layout_ok|done|by vm_compute].
Defined.

Lemma talc_blocks_untouched_witness :
  read 504 (th_meta (demo_free 640 20 demo_two)) = read 504 (th_meta demo_two) ∧
  read 504 (th_meta (demo_alloc (mkLayout 24 8) demo_two)) = read 504 (th_meta demo_two).
Proof.
  destruct (talc_blocks_untouched 12288 demo_geometry 0 4096 ∅ demo_ready demo_two 496 100 504 demo_two_run) as [Ha Hf]; [by vm_compute|lia|by exists 63|].
  split; [apply (Hf 640 20); [by vm_compute|done]|]. unfold demo_alloc.
  destruct (allocate 12288 demo_geometry demo_turns (mkLayout 24 8) (th_meta demo_two)) as [[[o|] t]|] eqn:E; [|reflexivity|reflexivity].
  apply (Ha (mkLayout 24 8) o t); [by apply demo_layout_ok|done|exact E].
Defined.

Lemma talc_scan_errors_pass_witness : scan_errors demo_geometry demo_turns (th_meta demo_two) = Some true.
Proof. exact (talc_scan_errors_pass 12288 demo_geometry 0 4096 ∅ demo_ready demo_two demo_two_run). Defined.

(** ** The laws of a heap *)

Section Laws.
Context (base_addr : Z) (g : HeapGeometry) (lo hi : Z).

#[export] Instance talc_ops : HeapOps talc_heap := {|
  talc_allocate l h :=
    match allocate base_addr g (area_turns lo hi) l (th_meta h) with
    | Some (Ok o, t) => Some (o, mkTalcHeap t (<[o := size l]> (th_live h)))
    | _ => None
    end;
  talc_deallocate o n h := mkTalcHeap (deallocate base_addr g o n (th_meta h)) (delete o (th_live h));
|}.

Context (Hg : geometry_wf g) (Harea : heap_area base_addr lo hi).

#[export] Program Instance talc_laws : HeapLaws talc_heap := {| heap_wf := talc_wf g lo hi; blocks := th_live |}.
Next Obligation.
  intros l h o h' Hw Hl Hs E. cbn in E. destruct (talc_allocate_wf base_addr g lo hi Hg Harea h l Hw Hl Hs) as [[Ea _]|(o' & t & Ea & Hw' & Hnew & _)];
    rewrite Ea in E; [done|]. injection E as <- <-. destruct (talc_blocks_apart base_addr g lo hi Hg Harea _ Hw') as [Hin Hap].
  cbn [th_live] in *. destruct (Hin o' (size l)) as (? & ? & ?); [apply lookup_insert_eq|]. pose proof (ha_lo _ _ _ Harea).
  assert (0 ≤ metadata_bytes g).
  { pose proof (words_nonneg g Hg). unfold metadata_bytes, LINK_SIZE, WORD_SIZE. destruct Hg. lia. }
  split_and!; [done|unfold TAG_SIZE in *; lia|done|done|]. intros p n Hp. assert (p ≠ o') by (intros ->; congruence).
  destruct (Hap o' (size l) p n) as [|?]; [apply lookup_insert_eq|by rewrite lookup_insert_ne|congruence|done].
Qed.
Next Obligation. intros o n h Hw Ho. split; [|done]. by apply talc_free_wf. Qed.

#[export] Instance talc_bytes : HeapBytes talc_heap := {| heap_byte := talc_byte; set_heap_byte := set_talc_byte |}.

#[export] Program Instance talc_bytes_laws : HeapBytesLaws talc_heap.
Next Obligation. intros x h. unfold heap_byte, talc_bytes, talc_byte, word_byte, wrap. apply Z.mod_pos_bound. done. Qed.
Next Obligation. intros. apply talc_byte_set. Qed.
Next Obligation.
  intros x v h p n Hw Hp Hx. destruct (byte_word x) as (Ex & Hm & H8). split; [|done].
  apply (talc_store_wf base_addr g lo hi Hg Harea h p n); [done|done|lia|done].
Qed.
Next Obligation.
  intros l h o h' p n x Hw Hl Hs E Hp Hx. destruct (byte_word x) as (Ex & Hm & H8). cbn in E |- *.
  destruct (allocate _ _ _ _ _) as [[[o'|] t]|] eqn:Ea; [|done..]. injection E as <- <-. unfold talc_byte. cbn [th_meta]. f_equal.
  eapply (talc_allocate_keeps base_addr g lo hi Hg Harea h l o' t p n); [done|done|done|exact Ea|exact Hp|lia|done].
Qed.
Next Obligation.
  intros o n h p m x Hw Ho Hp Hne Hx. destruct (byte_word x) as (Ex & Hm & H8). cbn. unfold talc_byte. cbn [th_meta]. f_equal.
  apply (talc_free_keeps base_addr g lo hi Hg Harea h o n p m); [done|done|done|done|lia|done].
Qed.
End Laws.
