(* ===== verification/TalcConf.v ===== *)
(** * The general heap as a shared layout

    The configuration of a heap and its admission as a layout of a region
    ([src/src/talc.rs], [Config], [TalckMeta], [MapTalc::from_layout]), on the
    header of [Header] and the composition of [Mem].  The theorems show which
    area a composed heap takes: it starts right behind its header and stays in
    the mapping. *)

From Stdlib Require Import String.
From S2P Require Import Prelude Atomic Alloc Bytes Schema Header HeaderConc Mem Heap.
From S2P Require Import TalcGeo Talc TalcHeap TalcInit TalcSpec TalcSafe.

(** ** Layouts of the compiler *)

(** [repr(C)]: each field at the next offset of its alignment, the whole padded
    to the strictest one. *)
Definition repr_c (fields : list Layout) : Layout :=
  pad_to_align (fold_left (λ acc f, mkLayout (round_up (size acc) (align f) + size f) (Z.max (align acc) (align f)))
    fields (mkLayout 0 1)).

Definition u64_layout : Layout := mkLayout 8 8.

(** [RcHeader<T>] in front of its info and its body. *)
Definition header_fields : list Layout :=
  [mkLayout RECORD_SIZE 1; u64_layout; mkLayout 16 8; u64_layout; u64_layout; u64_layout; u64_layout; mkLayout 4 4;
   u64_layout; u64_layout; u64_layout; u64_layout].

Definition RcHeader_layout (info body : Layout) : Layout := repr_c (header_fields ++ [info; body]).

(** Where the body of [RcHeader<T>] starts. *)
Definition inner_offset (info body : Layout) : Z :=
  round_up (size (fold_left (λ acc f, mkLayout (round_up (size acc) (align f) + size f) (Z.max (align acc) (align f)))
    (header_fields ++ [info]) (mkLayout 0 1))) (align body).

(** [Geometry] of two [u16] and four [u8], then two [u64]. *)
Definition TalcInfo_layout : Layout := repr_c [mkLayout 8 2; u64_layout; u64_layout].

(** The mutation word, then [TalcMeta]. *)
Definition TalckMeta_layout : Layout := repr_c [u64_layout; mkLayout META_SIZE 8].

(** ** The configuration *)

(** [Config] *)
Record TalcConfig := mkTalcConfig { c_forward : Z; c_size : Z; c_geometry : option HeapGeometry }.

Definition Config_new (size : Z) : TalcConfig := mkTalcConfig 0 size None.

Definition with_geometry (g : HeapGeometry) (c : TalcConfig) : TalcConfig := mkTalcConfig (c_forward c) (c_size c) (Some g).

(** [Config::geometry] *)
Definition conf_geometry (c : TalcConfig) : result HeapGeometry GeometryError :=
  match c_geometry c with
  | Some g => match validate g (c_size c) with Ok _ => Ok g | Err e => Err e end
  | None => auto (c_size c)
  end.

(** [Config::with_bound]; [None] when the assertion or the subtraction panics. *)
Definition with_bound (bound : Z) (c : TalcConfig) : option TalcConfig :=
  if negb (c_forward c <? bound) then None else
  match checked_sub (Z.min (c_size c) bound) (c_forward c) with
  | Some size => Some (mkTalcConfig (c_forward c) size (c_geometry c))
  | None => None
  end.

(** ** The layout *)

Record TalcInfo := mkTalcInfo { ti_geometry : HeapGeometry; usable_offset : Z; usable_length : Z }.

#[export] Instance TalcInfo_eq_dec : EqDecision TalcInfo.
Proof. solve_decision. Defined.

Record TalckMeta := mkTalckMeta { mutation : Z; talc : TalcMeta }.

(** [TalckMeta::null] over the memory behind it. *)
Definition TalckMeta_null (m : gmap Z Z) : TalckMeta := mkTalckMeta MUTATION_CLEAN (TalcMeta_null m).

(** [TalcMeta::claim] at the address [base_addr]. *)
Definition claim_conf (base_addr : Z) (c : TalcConfig) (t : TalcMeta) : result unit unit * TalcMeta :=
  match conf_geometry c with
  | Err _ => (Err tt, t)
  | Ok g => claim_heap base_addr g (c_forward c) (c_size c) t
  end.

(** [TalckMeta::claim] *)
Definition talck_claim (base_addr : Z) (c : TalcConfig) (t : TalckMeta) : result unit unit * TalckMeta :=
  let '(r, h) := claim_conf base_addr c (talc t) in (r, mkTalckMeta (mutation t) h).

Definition fallback_geometry : HeapGeometry := mkHeapGeometry 1 1 0 0 0 0.

(** [<TalckMeta as Layout>::info] *)
Definition talck_info (c : TalcConfig) (_ : LayoutContext) : TalcInfo :=
  mkTalcInfo (match conf_geometry c with Ok g => g | Err _ => fallback_geometry end) (c_forward c) (c_size c).

(** [<TalckMeta as Layout>::init] *)
Definition talck_init (base_addr : Z) (m : gmap Z Z) (c : TalcConfig) : option (TalckMeta * Status) :=
  let '(r, t) := talck_claim base_addr c (TalckMeta_null m) in
  Some (t, match r with Ok _ => Initialized | Err _ => Corrupted end).

(** [<TalckMeta as Layout>::attach] *)
Definition talck_attach (_ : TalckMeta) (_ : TalcConfig) : option Status := Some Initialized.

Definition TalckMeta_SCHEMA : SchemaKey := mkSchemaKey (schema_id "evering.talc") 2.
Definition TalcInfo_SCHEMA : SchemaKey := mkSchemaKey (schema_id "evering.talc.info") 2.
Definition TalckMeta_MAGIC : Z := 0x1234.

Definition talck_header : Layout := RcHeader_layout TalcInfo_layout TalckMeta_layout.

(** The heap's own pointer, for a header at address [addr]. *)
Definition talc_base (addr : Z) : Z := addr + inner_offset TalcInfo_layout TalckMeta_layout + 8.

(** A heap whose header is at [addr], over the memory [m]. *)
#[export] Instance TalckMeta_Layout (addr : Z) (m : gmap Z Z) : SharedLayout TalckMeta := {|
  Config := TalcConfig;
  Info := TalcInfo;
  SCHEMA := TalckMeta_SCHEMA;
  MAGIC := TalckMeta_MAGIC;
  INFO_SCHEMA := TalcInfo_SCHEMA;
  body_layout := TalckMeta_layout;
  info_layout := TalcInfo_layout;
  header_layout := talck_header;
  storage := λ _, Some talck_header;
  info := talck_info;
  init := talck_init (talc_base addr) m;
  attach := talck_attach;
|}.

(** ** Handles *)

(** [MapTalc]: where its header is, the caller's slot, and the geometry. *)
Record MapTalc := mkMapTalc { mt_header : Z; mt_owner : Z; mt_geometry : HeapGeometry }.

Section Compose.
Context (addr : Z) (m : gmap Z Z).
#[local] Existing Instance TalckMeta_Layout.
Abbreviation Header := (RcHeader (H := TalckMeta_Layout addr m) TalckMeta).

(** [MapTalc::from_handle] of the header at [offset]. *)
Definition from_handle (rg : Region) (offset : Z) (h : Header) : MapTalc :=
  mkMapTalc offset (member_slot (rg_member rg)) (ti_geometry (h_info h)).

(** [MapTalc::from_layout] on the header that the composition reaches; [None]
    when it panics. *)
Definition from_layout (rg : Region) (b : Build) (conf : TalcConfig) (h : Header)
    : option (result MapTalc MemError) * Header :=
  match build_reserve rg talck_header b with
  | Err e => (Some (Err e), h)
  | Ok (offset, next) =>
    match with_bound (remaining_after rg next) conf with
    | None => (None, h)
    | Some conf =>
      let ctx := mkLayoutContext (rg_region rg) offset (rg_allow_init rg) in
      match run (admit_layout (HT := TalckMeta_Layout addr m) addr conf ctx (Some (member_slot (rg_member rg)))) h with
      | (Done r, h') =>
        (Some (match (commit_reserved rg talck_header (λ _, r) offset next b).1 with
               | Ok offset => Ok (from_handle rg offset h')
               | Err e => Err e
               end), h')
      | (_, h') => (None, h')
      end
    end
  end.

(** [TryFrom<Build> for MapTalc] *)
Definition try_from (rg : Region) (b : Build) (h : Header) : option (result MapTalc MemError) * Header :=
  from_layout rg b (Config_new (map_len (rg_map rg))) h.
End Compose.

(** ** Facts *)

Lemma talck_header_layout : talck_header = mkLayout 192 8.
Proof. done. Qed.

Lemma talc_base_at addr : talc_base addr = addr + 168.
Proof. unfold talc_base. change (inner_offset _ _) with 160. lia. Qed.

(** The trait of a header aligned to eight bytes. *)
Lemma talck_trait addr m region offset : addr mod 8 = 0 → trait_ok (HT := TalckMeta_Layout addr m) addr region offset.
Proof. intros Ha. split; [|done|by_eval|by_eval]. intros conf l [= <-]. rewrite talck_header_layout. split_and!; by_eval || done. Qed.

(** [init] of the automatic geometry. *)
Lemma talck_init_spec addr m len : 0 ≤ addr → (8 | addr) → 0 ≤ len → addr + 200 + len ≤ 2 ^ 60 →
  let base := talc_base addr in
  (len < 904 → ∃ t, talck_init base m (Config_new len) = Some (t, Corrupted)) ∧
  (904 ≤ len → ∃ g, auto len = Ok g ∧ heap_ready base g 0 len ∧
    talck_init base m (Config_new len) = Some (mkTalckMeta MUTATION_CLEAN (th_meta (fresh_heap base g 0 len m)), Initialized)).
Proof.
  intros Ha H8 Hl Hmax base. unfold base in *. rewrite talc_base_at. clear base.
  destruct (auto_spec len) as [Hex Hv]; [unfold usize_max, usize_bits; change (2 ^ 64) with (2 ^ 60 * 16); lia|].
  unfold talck_init, talck_claim, claim_conf. cbn [Config_new conf_geometry c_geometry c_size c_forward TalckMeta_null talc mutation].
  split; intros Hlen.
  - destruct (auto len) as [g|e]; [cbn in Hex; lia|eauto].
  - destruct (auto len) as [g|e] eqn:E; [|cbn in Hex; apply Hex in Hlen; discriminate]. exists g.
    destruct (Hv g eq_refl) as (Hval & Hu & _).
    assert (Hrdy : heap_ready (addr + 168) g 0 len).
    { split; [done|done| |lia|unfold META_SIZE; lia]. split; [lia|]. apply Z.divide_add_r; [done|by exists 21]. }
    split_and!; [done|done|]. destruct (fresh_rep _ _ _ _ m Hrdy) as (bs & Eok & _). unfold fresh_heap. cbn [th_meta].
    destruct (claim_heap _ _ _ _ _) as [r t]. cbn in Eok. by subst.
Qed.

(** Admission to a fresh header, alone. *)
Lemma run_admit_fresh {T} `{HT : SharedLayout T} addr conf ctx slot (h : RcHeader T) layout :
  storage conf = Some layout → allow_init ctx = true → rec_status (h_record h) = Status_u8 Uninitialized →
  let '(r, h') := run (admit_layout addr conf ctx slot) h in
  match init conf with
  | Some (t, Initialized) =>
      r = Done (Ok tt) ∧ h_inner h' = t ∧ h_info h' = info conf ctx ∧ rec_status (h_record h') = Status_u8 Initialized
  | Some _ => r = Done (Err InvalidHeader) ∧ rec_status (h_record h') = Status_u8 Corrupted
  | None => r = Unwound ∧ rec_status (h_record h') = Status_u8 Corrupted
  end.
Proof.
  intros Hst Ha Hs. unfold admit_layout. rewrite Hst. cbn [admit_loop]. rewrite run_act. change ((load_status h).2) with h. change ((load_status h).1) with (Status_from_u8 (rec_status (h_record h))). rewrite Hs.
  change (Status_from_u8 (Status_u8 Uninitialized)) with Uninitialized. cbn match. rewrite Ha. cbn [negb]. rewrite run_act. unfold cas_status at 1 3. rewrite Hs, Z.eqb_refl. cbn [fst snd].
  unfold initialize. rewrite !run_act. cbn [fst snd].
  destruct (init conf) as [[t st]|]; [|unfold drop_membership; by destruct (_ =? 0)].
  rewrite run_act. cbn [fst snd]. destruct st; unfold drop_membership; by destruct (_ =? 0).
Qed.

Section Compose_spec.
Context (addr : Z) (m : gmap Z Z).
Abbreviation Header := (RcHeader (H := TalckMeta_Layout addr m) TalckMeta).

(** composing a heap into a region with a fresh header at the next offset.
    With nothing left behind the header it panics; with less than 904 bytes it
    answers [InvalidHeader] and leaves the header corrupted; otherwise it hands
    out the automatic geometry, a clean mutation word and a fresh heap, whose
    area starts where the header ends and stays in the mapping. *)
Theorem from_layout_takes_the_rest rg b len (h : Header) offset next :
  map_ok (rg_map rg) → map_start (rg_map rg) + map_len (rg_map rg) + 8 ≤ 2 ^ 60 → 0 ≤ b_offset b → 0 ≤ len →
  build_reserve rg talck_header b = Ok (offset, next) → addr = map_start (rg_map rg) + offset → rg_allow_init rg = true →
  rec_status (h_record h) = Status_u8 Uninitialized →
  let take := Z.min len (map_len (rg_map rg) - next) in
  let base := talc_base addr in
  let '(r, h') := from_layout addr m rg b (Config_new len) h in
  (map_len (rg_map rg) = next → r = None ∧ h' = h) ∧
  (next < map_len (rg_map rg) → take < 904 → r = Some (Err MemInvalidHeader) ∧ rec_status (h_record h') = Status_u8 Corrupted) ∧
  (904 ≤ take → ∃ g, auto take = Ok g ∧ r = Some (Ok (mkMapTalc offset (member_slot (rg_member rg)) g)) ∧
    heap_ready base g 0 take ∧ h_inner h' = mkTalckMeta MUTATION_CLEAN (th_meta (fresh_heap base g 0 take m)) ∧
    base + area_lo base 0 = map_start (rg_map rg) + next ∧
    base + area_hi base 0 take ≤ map_start (rg_map rg) + map_len (rg_map rg)).
Proof.
  intros Hm Hmax Hb Hl Hres Eaddr Hinit Hst take base. unfold from_layout. rewrite Hres. unfold build_reserve in Hres.
  destruct (poisoned b) eqn:Hp; [done|].
  assert (Hwf : layout_wf talck_header) by by_eval.
  destruct (map_reserve_spec _ _ _ _ _ Hm Hwf Hb Hres) as (Hw & Hat & Hal & En & Hn). rewrite talck_header_layout in Hat, Hal, En. cbn [size align] in *.
  assert (Hrem : remaining_after rg next = map_len (rg_map rg) - next) by (unfold remaining_after, saturating_sub; lia). rewrite Hrem.
  unfold with_bound. cbn [Config_new c_forward c_size c_geometry]. fold take. unfold checked_sub. rewrite Z.sub_0_r.
  assert (Hm' := Hm). destruct Hm' as (Hs0 & Hl0 & _).
  destruct (Z.ltb_spec 0 (map_len (rg_map rg) - next)) as [Hpos|Hz]; cbn [negb]; [|split_and!; [done|lia|unfold take; lia]].
  destruct (Z.leb_spec 0 take) as [Ht0|?]; [|unfold take in *; lia].
  change (mkTalcConfig 0 take None) with (Config_new take).
  set (ctx := mkLayoutContext (rg_region rg) offset (rg_allow_init rg)).
  assert (H8 : (8 | addr)) by (apply Z.mod_divide; [done|by rewrite Eaddr]).
  destruct (talck_init_spec addr m take) as [Hsmall Hbig]; [lia|done|done|unfold take; lia|].
  pose proof (run_admit_fresh (HT := TalckMeta_Layout addr m) addr (Config_new take) ctx (Some (member_slot (rg_member rg))) h talck_header eq_refl Hinit Hst) as Hrun.
  destruct (run _ h) as [r h'].
  assert (Hcommit : ∀ a, (commit_reserved rg talck_header (λ _, a) offset next b).1 =
    match a with Ok _ => Ok offset | Err e => Err (admit_error e) end).
  { intros a. unfold commit_reserved. rewrite Hp, Hres, !Z.eqb_refl. cbn [negb orb]. unfold commit, permits. rewrite Hw. cbn [negb]. by destruct a. }
  cbn [init TalckMeta_Layout] in Hrun. destruct (Z.lt_ge_cases take 904) as [Ht|Ht].
  - destruct (Hsmall Ht) as [t E]. rewrite E in Hrun. destruct Hrun as [-> Hc]. rewrite Hcommit. by split_and!; [lia|..|lia].
  - destruct (Hbig Ht) as (g & Eg & Hrdy & E). rewrite E in Hrun. destruct Hrun as (-> & Hin & Hinfo & _). rewrite Hcommit. split_and!; [lia|lia|intros _].
    assert (Eg' : ti_geometry (h_info h') = g) by (rewrite Hinfo; cbn [info TalckMeta_Layout talck_info conf_geometry Config_new c_geometry c_size ti_geometry]; by rewrite Eg).
    pose proof (ready_lo _ _ _ _ Hrdy) as Elo. rewrite Z.add_0_r in Elo. unfold base in *. rewrite talc_base_at in *.
    change (round_up META_SIZE 8) with 24 in Elo. exists g. unfold from_handle. rewrite Eg'. split_and!; [done|done|done|done|lia|].
    unfold area_hi. rewrite Elo. pose proof (size_down _ _ _ _ Hrdy). pose proof (Z.mul_div_le take 8 ltac:(lia)). unfold take in *. lia.
Qed.
End Compose_spec.

(** A region of 16 KiB whose root takes the first 680 bytes. *)
Definition demo_area : Region := mkRegion (mkMap 4096 16384 3) (mkMember 5 1) (mkRegionId 1 2) true.

Definition demo_talck (addr : Z) : RcHeader (H := TalckMeta_Layout addr ∅) TalckMeta :=
  mkRcHeader (H := TalckMeta_Layout addr ∅) (mkRecord 0 0 (0, 0, 0) [] [] [] [] []) 0 (mkRegionId 0 0) 0 0 0 0 0 0 0 0 0 (mkTalcInfo fallback_geometry 0 0) (TalckMeta_null ∅).

Lemma from_layout_takes_the_rest_witness :
  let r := try_from 4776 ∅ demo_area (mkBuild 680 false) (demo_talck 4776) in
  r.1 = Some (Ok (mkMapTalc 680 5 (mkHeapGeometry 24 16 6 10 1 0))) ∧ talc_base 4776 + area_lo (talc_base 4776) 0 = 4096 + 872.
Proof.
  assert (E : build_reserve demo_area talck_header (mkBuild 680 false) = Ok (680, 872)) by reflexivity.
  pose proof (from_layout_takes_the_rest 4776 ∅ demo_area (mkBuild 680 false) 16384 (demo_talck 4776) 680 872) as H.
  unfold try_from. change (map_len (rg_map demo_area)) with 16384 in *.
  destruct (from_layout 4776 ∅ demo_area (mkBuild 680 false) (Config_new 16384) (demo_talck 4776)) as [r h'].
  destruct H as (_ & _ & H); [by_eval|by_eval|by_eval|by_eval|exact E|reflexivity|reflexivity|reflexivity|].
  destruct H as (g & Eg & Er & _ & _ & Elo & _); [by_eval|]. split; [|exact Elo].
  cbn [fst]. rewrite Er. vm_compute in Eg. injection Eg as <-. reflexivity.
Defined.
