(* ===== verification/HeapConc.v ===== *)
(** * The heap shared by its participants

    The operations of the heap's handle ([src/src/talc.rs], [Talc::allocate],
    [Talc::release_value], [MapTalc::finish_recovery]) as programs of single
    accesses.  The allocator behind them is any instance of [HeapOps]; while a
    participant mutates it, what others could read there is arbitrary ([torn];
    [at_once] is for the boxes, whose holders look at their blocks only).
    The theorems show that the mutation word serialises the participants, and
    what is left when one of them dies. *)

From S2P Require Import Prelude Atomic Alloc Header HeaderConc Mem Heap TalcGeo Talc TalcInit TalcSpec TalcSafe.

(** ** Operations *)

(** The words and the cells of the heap's header that its operations touch. *)
Record shared (H : Type) := mkShared { sh_mutation : Z; sh_members : Z; sh_heap : H }.
Arguments mkShared {H}. Arguments sh_mutation {H}. Arguments sh_members {H}. Arguments sh_heap {H}.

Section Ops.
Context {H : Type} `{HO : HeapOps H} (torn : H).
Abbreviation S := (shared H).

Definition set_mutation (m : Z) (s : S) : S := mkShared m (sh_members s) (sh_heap s).
Definition set_heap (h : H) (s : S) : S := mkShared (sh_mutation s) (sh_members s) h.
Definition set_members (m : Z) (s : S) : S := mkShared (sh_mutation s) m (sh_heap s).

Definition claim_word (owner : Z) (s : S) : result unit MutationError * S :=
  let '(r, m) := mutation_claim owner (sh_mutation s) in (r, set_mutation m s).

Definition load_heap (s : S) : H * S := (sh_heap s, s).
Definition store_heap (h : H) (s : S) : unit * S := (tt, set_heap h s).
Definition store_word (m : Z) (s : S) : unit * S := (tt, set_mutation m s).
Definition load_word (s : S) : MutationState * S := (mutation_state_of (sh_mutation s), s).
Definition poison_word (owner : Z) (s : S) : bool * S :=
  let '(r, m) := poison_mutation owner (sh_mutation s) in (r, set_mutation m s).

(** The body of a mutation: the heap it finds, the one it leaves. *)
Definition mutate {A} (f : H → A * H) : prog S A :=
  act h <- load_heap;
  act_ (store_heap torn);
  act_ (store_heap (f h).2);
  Ret (f h).1.

(** What [allocate_during] does to the heap. *)
Definition alloc_answer (l : Layout) (h : H) : result Meta MutationError * H :=
  match talc_allocate l h with
  | Some (o, h') => (Ok (Meta_from o (size l)), h')
  | None => (Err Exhausted, h)
  end.

(** The body of a mutation as one access, for the participants that never look at
    the allocator's words. *)
Definition at_once {A} (f : H → A * H) : prog S A :=
  act a <- (λ s, ((f (sh_heap s)).1, set_heap (f (sh_heap s)).2 s));
  Ret a.

(** [Talc::allocate], the allocator's work done by [body] *)
Definition allocate_with (body : (H → result Meta MutationError * H) → prog S (result Meta MutationError)) (owner : Z) (l : Layout)
    : prog S (result Meta MutationError) :=
  act c <- claim_word owner;
  match c with
  | Err e => Ret (Err e)
  | Ok _ =>
    do r <- body (alloc_answer l);
    act_ (store_word MUTATION_CLEAN);
    Ret r
  end.

Definition heap_allocate : Z → Layout → prog S (result Meta MutationError) := allocate_with mutate.

(** [Talc::release_value] of a value of [n] bytes whose destructor leaves the
    heap alone. *)
Definition release_with (body : (H → unit * H) → prog S unit) (owner : Z) (m : Meta) (n : Z) : prog S (result unit Meta) :=
  act c <- claim_word owner;
  match c with
  | Err _ => Ret (Err m)
  | Ok _ =>
    do _ <- body (λ h, (tt, talc_deallocate (start_offset (view m)) n h));
    act_ (store_word MUTATION_CLEAN);
    Ret (Ok tt)
  end.

Definition release_value : Z → Meta → Z → prog S (result unit Meta) := release_with mutate.

(** The end of [MapTalc::finish_recovery]. *)
Definition forget_member (dead : Z) : prog S bool :=
  act_ (λ s, (tt, set_members (Z.land (sh_members s) (wnot usize_bits (slot_bit dead))) s));
  act m <- (λ s, (sh_members s, s));
  Ret (Z.land m (slot_bit dead) =? 0).

(** [MapTalc::finish_recovery] *)
Definition finish_recovery (dead : Z) : prog S bool :=
  act st <- load_word;
  match st with
  | MClean | MPoisoned => forget_member dead
  | MOwned owner =>
    if negb (owner =? dead) then Ret false else
    act p <- poison_word dead;
    if p then forget_member dead else
    act st <- load_word;
    if bool_decide (st = MPoisoned) then forget_member dead else Ret false
  end.
End Ops.

(** ** A participant dies *)

Section Crash.
Context {H : Type} `{HO : HeapOps H} (torn : H).

Lemma run_mutate {A} (f : H → A * H) s : run (mutate torn f) s = ((f (sh_heap s)).1, set_heap (f (sh_heap s)).2 s).
Proof. done. Qed.

(** Both operations: claim the word, mutate, store the clean word. *)
Abbreviation guarded owner f x y :=
  (act c <- claim_word owner; match c with
   | Err e => Ret (x e)
   | Ok _ => do r <- mutate torn f; act_ (store_word MUTATION_CLEAN); Ret (y r)
   end).

(** The heap when the caller of a guarded mutation dies after [n] accesses:
    untouched, under mutation, or done. *)
Lemma crash_guarded {A B} owner (f : H → A * H) (x : MutationError → B) (y : A → B) s n : sh_mutation s = MUTATION_CLEAN →
  let s1 := crash n (guarded owner f x y) s in
  sh_members s1 = sh_members s ∧
  match n with
  | 0 => s1 = s
  | 1 | 2 | 3 | 4 => sh_mutation s1 = mutation_owner_word owner
  | _ => sh_mutation s1 = MUTATION_CLEAN ∧ sh_heap s1 = (f (sh_heap s)).2
  end%nat.
Proof.
  intros Hc. do 6 (destruct n as [|n]; [cbn; unfold claim_word, mutation_claim; rewrite ?Hc; by cbn|]).
  cbn. unfold claim_word, mutation_claim. rewrite Hc. cbn. by destruct n.
Qed.

Lemma owner_word_poison owner : 0 ≤ owner < PARTICIPANT_CAPACITY → poison_mutation owner (mutation_owner_word owner) = (true, MUTATION_POISONED).
Proof. intros Ho. unfold poison_mutation. by rewrite Z.eqb_refl. Qed.

(** The end of recovery, alone. *)
Lemma run_forget dead (s : shared H) : is_word usize_bits (sh_members s) → 0 ≤ dead < usize_bits →
  run (forget_member dead) s = (true, set_members (Z.clearbit (sh_members s) dead) s).
Proof.
  intros Hm Hd. unfold forget_member. rewrite !run_act. cbn [run fst snd]. unfold set_members at 1. cbn [sh_members].
  rewrite clear_slot by done. rewrite land_slot by lia. by rewrite Z.clearbit_eq.
Qed.

(** Recovery of a participant that left the word clean, or owned by itself. *)
Lemma run_recovery dead (s : shared H) : is_word usize_bits (sh_members s) → 0 ≤ dead < PARTICIPANT_CAPACITY →
  sh_mutation s = MUTATION_CLEAN ∨ sh_mutation s = mutation_owner_word dead →
  run (finish_recovery dead) s = (true, mkShared
    (if sh_mutation s =? MUTATION_CLEAN then MUTATION_CLEAN else MUTATION_POISONED) (Z.clearbit (sh_members s) dead) (sh_heap s)).
Proof.
  intros Hm Hd Hw. assert (Hd' : 0 ≤ dead < usize_bits) by (unfold PARTICIPANT_CAPACITY in Hd; lia).
  unfold finish_recovery. rewrite run_act. change (load_word s).2 with s. change (load_word s).1 with (mutation_state_of (sh_mutation s)). destruct Hw as [E|E]; rewrite E.
  - change (mutation_state_of MUTATION_CLEAN) with MClean. cbn match. rewrite run_forget by done. unfold set_members. by rewrite E.
  - rewrite mutation_state_owner by done. rewrite Z.eqb_refl. cbn [negb]. rewrite run_act. unfold poison_word at 1 2. rewrite E, owner_word_poison by done. cbn [fst snd].
    rewrite run_forget by done. unfold set_members, set_mutation. cbn [sh_heap sh_members sh_mutation].
    unfold mutation_owner_word, MUTATION_CLEAN. destruct (Z.eqb_spec (dead + 1) 0); [lia|done].
Qed.

(** On a poisoned heap every operation is refused. *)
Lemma poisoned_refuses owner l m n (s : shared H) : sh_mutation s = MUTATION_POISONED →
  run (heap_allocate torn owner l) s = (Err HeapPoisoned, s) ∧ run (release_value torn owner m n) s = (Err m, s).
Proof. intros E. split; cbn; unfold claim_word, mutation_claim; rewrite E; cbn; unfold set_mutation; by destruct s; cbn in E; subst. Qed.

(** What recovery leaves when the dead participant was to apply [f]. *)
Definition recovered_heap {A} (dead : Z) (f : H → A * H) (s s' : shared H) : Prop :=
  sh_members s' = Z.clearbit (sh_members s) dead ∧
  ((sh_mutation s' = MUTATION_CLEAN ∧ (sh_heap s' = sh_heap s ∨ sh_heap s' = (f (sh_heap s)).2)) ∨
   (sh_mutation s' = MUTATION_POISONED ∧
    ∀ owner l m n, run (heap_allocate torn owner l) s' = (Err HeapPoisoned, s') ∧ run (release_value torn owner m n) s' = (Err m, s'))).

Lemma guarded_recovered {A B} owner (f : H → A * H) (x : MutationError → B) (y : A → B) s n :
  sh_mutation s = MUTATION_CLEAN → is_word usize_bits (sh_members s) → 0 ≤ owner < PARTICIPANT_CAPACITY →
  let '(ok, s') := run (finish_recovery owner) (crash n (guarded owner f x y) s) in
  ok = true ∧ recovered_heap owner f s s'.
Proof.
  intros Hc Hm Ho. destruct (crash_guarded owner f x y s n Hc) as [Hmem Hn]. set (s1 := crash _ _ _) in *.
  assert (Hw : sh_mutation s1 = mutation_owner_word owner ∨
    sh_mutation s1 = MUTATION_CLEAN ∧ (sh_heap s1 = sh_heap s ∨ sh_heap s1 = (f (sh_heap s)).2)).
  { destruct n as [|[|[|[|[|n]]]]]; [right; by rewrite Hn; auto|by left|by left|by left|by left|destruct Hn; auto]. }
  rewrite run_recovery; [|by rewrite Hmem|done|destruct Hw as [?|[? _]]; auto]. split; [done|]. rewrite Hmem. split; [done|]. cbn [sh_mutation sh_heap].
  destruct Hw as [Ew|[Ew Eh]]; rewrite Ew.
  - right. unfold mutation_owner_word, MUTATION_CLEAN. destruct (Z.eqb_spec (owner + 1) 0); [lia|]. split; [done|]. intros. by apply poisoned_refuses.
  - left. by rewrite Z.eqb_refl.
Qed.

(** C28: a participant dies after any number of accesses of an allocation or of a
    release.  Its recovery by another one succeeds and ends its membership; the
    heap is then as before the operation or as after it, or it is poisoned: every
    operation on it is refused, and nothing of a half-done mutation is read. *)
Theorem heap_crash_recovered owner l m n (s : shared H) steps :
  sh_mutation s = MUTATION_CLEAN → is_word usize_bits (sh_members s) → 0 ≤ owner < PARTICIPANT_CAPACITY →
  (let '(ok, s') := run (finish_recovery owner) (crash steps (heap_allocate torn owner l) s) in
   ok = true ∧ recovered_heap owner (alloc_answer l) s s') ∧
  (let '(ok, s') := run (finish_recovery owner) (crash steps (release_value torn owner m n) s) in
   ok = true ∧ recovered_heap owner (λ h, (tt, talc_deallocate (start_offset (view m)) n h)) s s').
Proof. intros Hc Hm Ho. split; [by apply (guarded_recovered owner (alloc_answer l) Err id)|by apply (guarded_recovered owner _ (λ _, Err m) (λ _, Ok tt))]. Qed.
End Crash.

(** ** Many participants *)

(** The place of a record. *)
Abbreviation moff m := (start_offset (view m)).
Abbreviation mlen m := (span_size (view m)).

Inductive tcmd :=
| TAlloc (l : Layout)      (** allocate *)
| TFree (i : nat).         (** release the [i]-th block held *)

Inductive tout := TAllocated (m : Meta) | TRefused (e : MutationError) | TReleased | TKept (m : Meta) | TNothing.

Section Clients.
Context {H : Type} `{HO : HeapOps H} (torn : H).

Definition texec (owner : Z) (c : tcmd) (ms : list Meta) : prog (shared H) (tout * list Meta) :=
  match c with
  | TAlloc l =>
    do r <- heap_allocate torn owner l;
    Ret (match r with Ok m => (TAllocated m, m :: ms) | Err e => (TRefused e, ms) end)
  | TFree i =>
    match ms !! i with
    | None => Ret (TNothing, ms)
    | Some m =>
      do r <- release_value torn owner m (mlen m);
      Ret (match r with Ok _ => (TReleased, delete i ms) | Err m => (TKept m, ms) end)
    end
  end.

Fixpoint tclient (owner : Z) (cs : list tcmd) (ms : list Meta) (os : list tout) : prog (shared H) (list tout * list Meta) :=
  match cs with
  | [] => Ret (os, ms)
  | c :: cs => do r <- texec owner c ms; tclient owner cs r.2 (os ++ [r.1])
  end.

(** A clean heap and one client per command list. *)
Definition tstart (h : H) (members : Z) (slot : nat → Z) (css : list (list tcmd)) : cfg (shared H) (list tout * list Meta) :=
  (mkShared MUTATION_CLEAN members h, imap (λ t cs, tclient (slot t) cs [] []) css).

(** Clients ask for values of some size. *)
Definition cmd_ok (c : tcmd) : Prop := match c with TAlloc l => layout_wf l ∧ 0 < size l | TFree _ => True end.
End Clients.

Section Serial.
Context {H : Type} `{HL : HeapLaws H} (torn : H) (slot : nat → Z) (N : nat).
Context (Hslot : ∀ t, (t < N)%nat → 0 ≤ slot t < PARTICIPANT_CAPACITY).

(** Auxiliary state: who mutates, the heap between mutations, the heap as it
    is, and who holds each live block. *)
Record hg := mkHg { holder : option nat; settled : H; current : H; owned : gmap Z (nat * Z) }.

(** A heap and the holders of its live blocks. *)
Record good (h : H) (o : gmap Z (nat * Z)) : Prop := {
  gd_wf : heap_wf h;
  gd_blocks : blocks h = snd <$> o;
  gd_apart p t n p' t' n' : o !! p = Some (t, n) → o !! p' = Some (t', n') → p = p' ∨ p + n ≤ p' ∨ p' + n' ≤ p;
  gd_size p t n : o !! p = Some (t, n) → (t < N)%nat ∧ 0 < p ∧ 0 < n;
}.

Record ginv (g : hg) (s : shared H) : Prop := {
  gi_good : good (settled g) (owned g);
  gi_heap : sh_heap s = current g;
  gi_word : match holder g with
            | None => sh_mutation s = MUTATION_CLEAN ∧ current g = settled g
            | Some t => sh_mutation s = mutation_owner_word (slot t) ∧ (t < N)%nat
            end;
}.

(** What the blocks of the other participants see of a commit by [t]. *)
Definition others_keep (t : nat) (o o' : gmap Z (nat * Z)) : Prop :=
  ∀ t' p n, t' ≠ t → (o !! p = Some (t', n) ↔ o' !! p = Some (t', n)).

Inductive gguar (t : nat) : hg → hg → Prop :=
| gu_skip g : gguar t g g
| gu_claim h o : gguar t (mkHg None h h o) (mkHg (Some t) h h o)
| gu_write h c c' o : gguar t (mkHg (Some t) h c o) (mkHg (Some t) h c' o)
| gu_commit h h' c o o' : others_keep t o o' → gguar t (mkHg (Some t) h c o) (mkHg None h' h' o').

Abbreviation twp t p Q g := (wp ginv (rely_of gguar) t p Q g).

(** The blocks [t] holds, and that it is not mutating. *)
Record held (t : nat) (ms : list Meta) (g : hg) : Prop := {
  hl_nodup : NoDup ((λ m, moff m) <$> ms);
  hl_mine m : m ∈ ms → owned g !! moff m = Some (t, mlen m);
  hl_all o n : owned g !! o = Some (t, n) → Meta_from o n ∈ ms;
  hl_out : holder g ≠ Some t;
}.

(** [t] is mutating: it holds [ms], the heap was [h] and is [c]. *)
Definition inside (t : nat) (ms : list Meta) (h c : H) (o : gmap Z (nat * Z)) (g : hg) : Prop :=
  g = mkHg (Some t) h c o ∧ held t ms (mkHg None h h o).

Lemma held_stable t ms : stable (rely_of gguar) t (held t ms).
Proof.
  apply stable_of. intros t' g g' Ht Hg [Hn Hm Ha Ho]. destruct Hg as [g|h o|h c c' o|h h' c o o' Hk]; [done|..].
  - split; try done. cbn. congruence.
  - by split.
  - split; [done| | |done]; cbn [owned] in *; intros; [apply (Hk t); eauto|apply Ha, (Hk t); eauto].
Qed.

Lemma inside_stable t ms h c o : stable (rely_of gguar) t (inside t ms h c o).
Proof. apply stable_of. intros t' g g' Ht Hg [-> Hh]. inversion Hg; subst; [done|congruence..]. Qed.

(** What a mutation must do to the heap: keep it good for some new holders. *)
Definition step_ok {A} (t : nat) (ms : list Meta) (f : H → A * H) (R : A → list Meta → Prop) : Prop :=
  ∀ h o, good h o → held t ms (mkHg None h h o) → ∃ o' ms',
    good (f h).2 o' ∧ others_keep t o o' ∧ held t ms' (mkHg None (f h).2 (f h).2 o') ∧ R (f h).1 ms'.

(** A guarded mutation keeps everyone's blocks. *)
Lemma guarded_spec {A B} t ms (f : H → A * H) (x : MutationError → B) (y : A → B) R Q g : (t < N)%nat → held t ms g →
  step_ok t ms f R → (∀ e g, held t ms g → Q (x e) g) → (∀ a ms' g, R a ms' → held t ms' g → Q (y a) g) →
  twp t (act c <- claim_word (slot t); match c with
    | Err e => Ret (x e)
    | Ok _ => do r <- mutate torn f; act_ (store_word MUTATION_CLEAN); Ret (y r)
    end) Q g.
Proof using Hslot.
  intros Ht Hh Hf Hx Hy. apply (wp_act _ _ (held t ms)); [done|apply held_stable|]. clear g Hh.
  intros [ho h c o] s Hh [Hgood Hheap Hword]. cbn [settled current owned holder] in *.
  destruct ho as [t'|].
  { destruct Hword as [Hw Ht']. pose proof (Hslot t' Ht') as Hs'. unfold claim_word, mutation_claim, mutation_owner_word in *. rewrite Hw.
    unfold MUTATION_CLEAN, PARTICIPANT_CAPACITY, usize_bits in *. change MUTATION_POISONED with 18446744073709551615.
    destruct (Z.eqb_spec (slot t' + 1) 0); [lia|]. destruct (Z.eqb_spec (slot t' + 1) 18446744073709551615); [lia|]. cbn [fst snd].
    eexists. split_and!; [|apply gu_skip|by apply Hx]. by split. }
  destruct Hword as [Hw ->]. unfold claim_word, mutation_claim. rewrite Hw. cbn [Z.eqb MUTATION_CLEAN fst snd].
  exists (mkHg (Some t) h h o). split_and!; [by split|constructor|].
  assert (Hin : held t ms (mkHg None h h o)) by (by destruct Hh; split).
  cbn [mutate bind]. apply (wp_act _ _ (inside t ms h h o)); [by split|apply inside_stable|].
  intros g1 s1 [-> _] I1. exists (mkHg (Some t) h h o). split_and!; [exact I1|constructor|]. destruct I1 as [_ E1 _]. cbn [load_heap fst snd]. rewrite E1. cbn [current].
  apply (wp_act _ _ (inside t ms h h o)); [by split|apply inside_stable|].
  intros g2 s2 [-> _] [_ E2 W2]. exists (mkHg (Some t) h torn o). split_and!; [by split|constructor|].
  apply (wp_act _ _ (inside t ms h torn o)); [by split|apply inside_stable|].
  intros g3 s3 [-> _] [_ E3 W3]. exists (mkHg (Some t) h (f h).2 o). split_and!; [by split|constructor|].
  apply (wp_act _ _ (inside t ms h (f h).2 o)); [by split|apply inside_stable|].
  intros g4 s4 [-> _] [_ E4 W4]. destruct (Hf h o Hgood Hin) as (o' & ms' & Hg' & Hk & Hh' & HR).
  exists (mkHg None (f h).2 (f h).2 o'). split_and!; [by split|by constructor|]. by eapply Hy.
Qed.

Lemma alloc_step t ms l : (t < N)%nat → layout_wf l → 0 < size l →
  step_ok t ms (alloc_answer l) (λ r ms', ms' = match r with Ok m => m :: ms | Err _ => ms end).
Proof using.
  intros Ht Hl Hs h o [Hwf Hb Hap Hsz] [Hn Hm Ha Ho]. unfold alloc_answer. destruct (talc_allocate l h) as [[p h']|] eqn:E; cbn [fst snd];
    [|by exists o, ms].
  destruct (alloc_wf l h p h' Hwf Hl Hs E) as (Hwf' & Hp & Hnew & Hb' & Hfree). rewrite Hb, lookup_fmap in Hnew. apply fmap_None in Hnew.
  assert (Hfree' : ∀ q t' n, o !! q = Some (t', n) → p + size l ≤ q ∨ q + n ≤ p).
  { intros q t' n Hq. apply Hfree. by rewrite Hb, lookup_fmap, Hq. }
  exists (<[p := (t, size l)]> o), (Meta_from p (size l) :: ms). split_and!; [| | |done].
  - split; [done|by rewrite Hb', Hb, fmap_insert| |].
    + intros p1 t1 n1 p2 t2 n2 [[<- [= <- <-]]|[? Hq1]]%lookup_insert_Some [[<- [= <- <-]]|[? Hq2]]%lookup_insert_Some; [auto| | |eauto].
      * destruct (Hfree' _ _ _ Hq2); auto.
      * destruct (Hfree' _ _ _ Hq1); auto.
    + intros q t' n [[<- [= <- <-]]|[? Hq]]%lookup_insert_Some; [done|eauto].
  - intros t' q n Hne. rewrite lookup_insert_Some. split; [intros Hq; right; split; [congruence|done]|]. intros [[_ [= <- _]]|[_ Hq]]; done.
  - split; cbn [owned holder]; [| | |done].
    + rewrite fmap_cons. apply NoDup_cons. split; [|done]. intros (m & E' & Hin)%list_elem_of_fmap. cbn in E'. apply Hm in Hin. cbn in Hin. congruence.
    + intros m [->|Hin]%elem_of_cons; [by rewrite lookup_insert_eq|]. pose proof (Hm m Hin) as Hq. cbn in Hq. rewrite lookup_insert_ne; [done|congruence].
    + intros q n [[<- [= <-]]|[? Hq]]%lookup_insert_Some; [by left|right; by apply Ha].
Qed.

Lemma free_step t ms i m : ms !! i = Some m →
  step_ok t ms (λ h, (tt, talc_deallocate (moff m) (mlen m) h)) (λ _ ms', ms' = delete i ms).
Proof using.
  intros Hi h o [Hwf Hb Hap Hsz] [Hn Hm Ha Ho]. cbn [fst snd owned] in *. pose proof (list_elem_of_lookup_2 _ _ _ Hi) as Hin.
  pose proof (Hm m Hin) as Hq. destruct (free_wf (moff m) (mlen m) h Hwf) as [Hwf' Hb']; [by rewrite Hb, lookup_fmap, Hq|].
  exists (delete (moff m) o), (delete i ms).
  pose proof (delete_Permutation ms i m Hi) as Hperm.
  assert (Hoff : moff m ∉ ((λ m, moff m) <$> delete i ms)).
  { rewrite Hperm in Hn. rewrite fmap_cons in Hn. by apply NoDup_cons in Hn as [? _]. }
  split_and!; [| | |done].
  - split; [done|by rewrite Hb', Hb, fmap_delete| |].
    + intros p1 t1 n1 p2 t2 n2 [_ ?]%lookup_delete_Some [_ ?]%lookup_delete_Some. eauto.
    + intros q t' n [_ ?]%lookup_delete_Some. eauto.
  - intros t' q n Hne. rewrite lookup_delete_Some. split; [intros Hq'; split; [congruence|done]|by intros [_ ?]].
  - split; cbn [owned holder]; [| | |done].
    + rewrite Hperm in Hn. rewrite fmap_cons in Hn. by apply NoDup_cons in Hn as [_ ?].
    + intros m' Hin'. rewrite lookup_delete_ne; [apply Hm; rewrite Hperm; by right|]. intros E. apply Hoff. rewrite E. apply list_elem_of_fmap. eauto.
    + intros q n [Hne Hq']%lookup_delete_Some. apply Ha in Hq'. rewrite Hperm in Hq'. apply elem_of_cons in Hq' as [<-|?]; [by cbn in Hne|done].
Qed.

Lemma texec_spec t ms c g : (t < N)%nat → cmd_ok c → held t ms g → twp t (texec torn (slot t) c ms) (λ r g, held t r.2 g) g.
Proof using Hslot HL.
  intros Ht Hc Hh. destruct c as [l|i]; cbn [texec].
  - destruct Hc as [Hl Hs]. eapply wp_seq.
    + apply (guarded_spec t ms (alloc_answer l) Err id _ (λ r g, held t (match r with Ok m => m :: ms | Err _ => ms end) g) g Ht Hh (alloc_step t ms l Ht Hl Hs)); [done|].
      by intros a ms' g' -> Hg.
    + intros [m|e] g' Hg; by apply wp_ret.
  - destruct (ms !! i) as [m|] eqn:Hi; [|by apply wp_ret]. eapply wp_seq.
    + apply (guarded_spec t ms _ (λ _, Err m) (λ _, Ok tt) _ (λ r g, held t (match r with Ok _ => delete i ms | Err _ => ms end) g) g Ht Hh (free_step t ms i m Hi)); [done|].
      by intros a ms' g' -> Hg.
    + intros [[]|e] g' Hg; by apply wp_ret.
Qed.

Lemma tclient_spec t cs ms os g : (t < N)%nat → Forall cmd_ok cs → held t ms g → twp t (tclient torn (slot t) cs ms os) (λ r g, held t r.2 g) g.
Proof using Hslot HL.
  intros Ht. revert ms os g. induction cs as [|c cs IH]; intros ms os g Hcs Hh; cbn [tclient]; [by apply wp_ret|].
  apply Forall_cons in Hcs as [Hc Hcs]. eapply wp_seq; [by apply texec_spec|]. intros r g' Hg. by apply IH.
Qed.
End Serial.

Section Done.
Context {H : Type} `{HL : HeapLaws H} (slot : nat → Z) (N : nat).

Lemma held_apart t t' ms ms' i i' m m' (g : hg (H := H)) : good N (settled g) (owned g) → (t = t' → ms = ms') → held t ms g → held t' ms' g → ms !! i = Some m → ms' !! i' = Some m' →
  0 < mlen m ∧ ((t, i) = (t', i') ∨ moff m + mlen m ≤ moff m' ∨ moff m' + mlen m' ≤ moff m).
Proof using.
  intros [_ _ Hap Hsz] Hsame Hh Hh' Hi Hi'. pose proof (hl_mine _ _ _ Hh m (list_elem_of_lookup_2 _ _ _ Hi)) as Hm.
  pose proof (hl_mine _ _ _ Hh' m' (list_elem_of_lookup_2 _ _ _ Hi')) as Hm'. split; [by eapply Hsz|].
  destruct (Hap _ _ _ _ _ _ Hm Hm') as [E|?]; [left|by right]. rewrite E, Hm' in Hm. injection Hm as -> _. f_equal.
  specialize (Hsame eq_refl) as <-. eapply (NoDup_lookup _ _ _ _ (hl_nodup _ _ _ Hh)); rewrite list_lookup_fmap; [by rewrite Hi|by rewrite Hi', E].
Qed.

(** When everyone is done, with what [done] says they hold. *)
Lemma all_done (done : nat → list Meta → Prop) s (g : hg (H := H)) :
  (∀ t ms, done t ms → held t ms g) → ginv slot N g s → (∀ t, (t < N)%nat → ∃ ms, done t ms) →
  sh_mutation s = MUTATION_CLEAN ∧ heap_wf (sh_heap s) ∧
  ∀ o n, blocks (sh_heap s) !! o = Some n ↔ ∃ t ms, done t ms ∧ Meta_from o n ∈ ms.
Proof using.
  intros Hd [Hgood Hheap Hword] Hall.
  destruct (holder g) as [t|] eqn:Eh. { destruct Hword as [_ Ht]. destruct (Hall t Ht) as (ms & Hp). by destruct (hl_out _ _ _ (Hd _ _ Hp)). }
  destruct Hword as [Hw Ec]. destruct Hgood as [Hwf Hb Hap Hsz]. rewrite Hheap, Ec. split; [exact Hw|]. split; [exact Hwf|]. intros o n. rewrite Hb, lookup_fmap, fmap_Some. split.
  - intros ([t n'] & Ho & ->). destruct (Hsz _ _ _ Ho) as [Ht _]. destruct (Hall t Ht) as (ms & Hp). exists t, ms. split; [exact Hp|]. by apply (hl_all _ _ _ (Hd _ _ Hp)).
  - intros (t & ms & Hp & Hin). exists (t, n). split; [|reflexivity]. exact (hl_mine _ _ _ (Hd _ _ Hp) _ Hin).
Qed.
End Done.

(** Participants allocate and release in any interleaving, each mutation
    leaving arbitrary intermediate states behind it.  The blocks held by those
    who are done never overlap, one participant's or two's; and when all are done
    the word is clean, the heap is well formed, and its live blocks are exactly
    the ones held. *)
Theorem heap_serialized {H} `{HL : HeapLaws H} (torn : H) slot h members css s ps :
  (∀ t, (t < length css)%nat → 0 ≤ slot t < PARTICIPANT_CAPACITY) → heap_wf h → blocks h = ∅ → Forall (Forall cmd_ok) css →
  creach (tstart torn h members slot css) (s, ps) →
  (∀ t t' os os' ms ms' i i' m m', ps !! t = Some (Ret (os, ms)) → ps !! t' = Some (Ret (os', ms')) → ms !! i = Some m → ms' !! i' = Some m' →
    0 < mlen m ∧ ((t, i) = (t', i') ∨ moff m + mlen m ≤ moff m' ∨ moff m' + mlen m' ≤ moff m)) ∧
  ((∀ t p, ps !! t = Some p → ∃ r, p = Ret r) →
    sh_mutation s = MUTATION_CLEAN ∧ heap_wf (sh_heap s) ∧
    ∀ o n, blocks (sh_heap s) !! o = Some n ↔ ∃ t os ms, ps !! t = Some (Ret (os, ms)) ∧ Meta_from o n ∈ ms).
Proof.
  intros Hslot Hwf Hb Hcs Hreach. pose proof (creach_length _ _ Hreach) as Hlen. cbn in Hlen. rewrite length_imap in Hlen.
  eapply (rg_sound (ginv slot (length css)) (rely_of gguar)) with (Q := λ t r g, held t r.2 g) (g := mkHg None h h ∅) in Hreach as (g & [[Hgood Hheap Hword] Hwp] & _).
  - cbn [fst snd] in *. assert (Hd : ∀ t os ms, ps !! t = Some (Ret (os, ms)) → held t ms g) by (intros t os ms Ht; exact (Hwp _ _ Ht)). split.
    + intros t t' os os' ms ms' i i' m m' Ht Ht' Hi Hi'.
      eapply held_apart; [done|intros <-; rewrite Ht in Ht'; by injection Ht' as _ ->|by eapply Hd|by eapply Hd|done|done].
    + intros Hall. destruct (all_done slot (length css) (λ t ms, ∃ os, ps !! t = Some (Ret (os, ms))) s g) as (Hw & Hwf' & Hbl); [intros t ms [os Hp]; by eapply Hd|by split| |].
      { intros t Ht. destruct (lookup_lt_is_Some_2 ps t) as [p Hp]; [lia|]. destruct (Hall _ _ Hp) as [[os ms] ->]. eauto. }
      split_and!; [done|done|]. intros o n. rewrite Hbl. naive_solver.
  - apply rely_of_refl.
  - apply rely_of_trans.
  - intros t r. apply held_stable.
  - split; [split; [split|..]|]; cbn [settled owned current holder]; [done|by rewrite Hb, fmap_empty|by intros ??? ??? ?%lookup_empty_Some|by intros ??? ?%lookup_empty_Some|done|done|].
    intros t p Hp. cbn in Hp. apply list_lookup_imap_Some in Hp as (cs & Hcst & ->).
    apply (tclient_spec torn slot (length css) Hslot); [by eapply lookup_lt_Some|by eapply Forall_lookup_1|]. split; cbn [owned holder]; [constructor|by intros m ?%elem_of_nil|by intros ?? ?%lookup_empty_Some|done].
Qed.

(** Two clients of a heap of 4096 bytes: the first allocates and releases, the
    second allocates in between; half-way through each mutation the heap is
    unreadable. *)
Definition demo_torn : talc_heap := mkTalcHeap (TalcMeta_null ∅) ∅.

Definition demo_cmds : list (list tcmd) := [[TAlloc (mkLayout 100 8); TFree 0; TAlloc (mkLayout 24 8)]; [TAlloc (mkLayout 20 64)]].

#[local] Instance demo_ops : HeapOps talc_heap := talc_ops 12288 demo_geometry demo_lo demo_hi.
#[local] Instance demo_laws : HeapLaws talc_heap :=
  talc_laws 12288 demo_geometry demo_lo demo_hi (proj1 (ready_wf _ _ _ _ demo_ready)) (ready_area _ _ _ _ demo_ready).

Definition demo_final := sched (replicate 5 0 ++ replicate 5 1 ++ replicate 10 0)%nat (tstart demo_torn demo_heap 3 Z.of_nat demo_cmds).

Lemma heap_serialized_witness :
  (∃ os os', demo_final.2 = [Ret (os, [Meta_from 496 24]); Ret (os', [Meta_from 640 20])]) ∧
  sh_mutation demo_final.1 = MUTATION_CLEAN ∧ blocks (sh_heap demo_final.1) !! 640 = Some 20.
Proof.
  assert (E : ∃ os os', demo_final.2 = [Ret (os, [Meta_from 496 24]); Ret (os', [Meta_from 640 20])]) by (eexists _, _; vm_compute; reflexivity).
  split; [exact E|]. destruct E as (os & os' & E).
  destruct (heap_serialized (H := talc_heap) demo_torn Z.of_nat demo_heap 3 demo_cmds demo_final.1 demo_final.2) as [_ Hall].
  - intros t Ht. cbn in Ht. unfold PARTICIPANT_CAPACITY, usize_bits. lia.
  - apply (reachable_wf _ _ _ _ ∅ demo_ready), rtc_refl.
  - reflexivity.
  - repeat constructor; by_eval || done.
  - rewrite <- surjective_pairing. apply sched_reach.
  - destruct Hall as (Hw & _ & Hbl).
    + intros t p Hp. rewrite E in Hp. destruct t as [|[|t]]; [injection Hp as <-; eauto|injection Hp as <-; eauto|discriminate Hp].
    + split; [exact Hw|]. apply Hbl. exists 1%nat, os', [Meta_from 640 20]. rewrite E. split; [reflexivity|by left].
Defined.

(** The participant of slot 1 dies after its third access, the heap torn. *)
Lemma heap_crash_recovered_witness :
  let s := mkShared MUTATION_CLEAN 3 demo_heap in
  let '(ok, s') := run (finish_recovery 1) (crash 3 (heap_allocate demo_torn 1 (mkLayout 100 8)) s) in
  ok = true ∧ sh_members s' = 1 ∧ sh_mutation s' = MUTATION_POISONED.
Proof.
  intros s. destruct (heap_crash_recovered demo_torn 1 (mkLayout 100 8) Meta_null 0 s 3) as [H _]; [reflexivity|by_eval|by_eval|].
  assert (E : sh_mutation (run (finish_recovery 1) (crash 3 (heap_allocate demo_torn 1 (mkLayout 100 8)) s)).2 = MUTATION_POISONED) by reflexivity.
  destruct (run _ _) as [ok s']. destruct H as [Hok [Hm _]]. split; [exact Hok|]. split; [exact Hm|exact E].
Defined.
