(* ===== verification/Dir.v ===== *)
(** * The directory

    Models [src/src/dir.rs]: the region's table of published layouts, the
    transaction word that makes creation, removal and growth recoverable, and
    the recovery of a transaction whose owner died.  The operations are
    programs over the part of the region the directory touches: its own words,
    the linked slabs, the record and membership word of each header, the
    heap's mutation word and the heap. *)

From Stdlib Require Import String.
From S2P Require Import Prelude Atomic Alloc Bytes Schema Header Mem Heap.

(** ** Constants *)

Definition CAPACITY : Z := 32.
Definition CLEAN : Z := 0.
Definition HELD : Z := 1.
Definition EVIDENCE : Z := 2.
Definition ROLLING_BACK : Z := 3.
Definition TRANSACTION_BITS : Z := 2.
Definition VACANT : Z := 0.
Definition PENDING : Z := 1.
Definition PUBLISHED : Z := 2.
Definition CLOSING : Z := 3.
Definition REMOVING : Z := 4.
Definition RELEASED : Z := 5.
Definition QUARANTINED : Z := 6.
Definition CREATE : Z := 0.
Definition REMOVE : Z := 1.
Definition GROW : Z := 2.
Definition STATE_BITS : Z := 3.
Definition STATE_MASK : Z := Z.shiftl 1 STATE_BITS - 1.
Definition GENERATION_MAX : Z := Z.shiftr usize_max STATE_BITS.
Definition ID_BYTES : Z := 32.

(** [dir::Error] *)
Inductive DirError :=
| Busy (owner : Z)
| Full
| Stale
| AdmissionFailed (e : ProjectionError)
| HeapFailed (e : MutationError)
| RolledBackFirst
| InUse
| CloseFailed (e : CloseError).

Inductive Recovered := RolledBack | Released | Retained | Quarantined.

#[export] Instance CloseError_eq_dec : EqDecision CloseError.
Proof. solve_decision. Defined.
#[export] Instance DirError_eq_dec : EqDecision DirError.
Proof. solve_decision. Defined.
#[export] Instance Recovered_eq_dec : EqDecision Recovered.
Proof. solve_decision. Defined.

(** ** Identifiers *)

(** [Id<L>] *)
Record Id := mkId { id_region : RegionId; id_slab : Z; id_entry : Z; id_generation : Z }.

#[export] Instance Id_eq_dec : EqDecision Id.
Proof. solve_decision. Defined.

(** [Id::to_bytes] *)
Definition Id_to_bytes (i : Id) : list Z :=
  to_le_bytes 8 (high (id_region i)) ++ to_le_bytes 8 (low (id_region i)) ++
  to_le_bytes 4 (id_slab i) ++ to_le_bytes 4 (id_entry i) ++ to_le_bytes 8 (id_generation i).

(** [Id::from_bytes] *)
Definition Id_from_bytes (bs : list Z) : option Id :=
  if negb (Z.of_nat (length bs) =? ID_BYTES) then None else
  Some (mkId
    (mkRegionId (from_le_bytes (take 8 bs)) (from_le_bytes (take 8 (drop 8 bs))))
    (from_le_bytes (take 4 (drop 16 bs)))
    (from_le_bytes (take 4 (drop 20 bs)))
    (from_le_bytes (drop 24 bs))).

(** ** State *)

Record Entry := mkEntry { e_state : Z; e_offset : Z }.

Definition Entry_vacant : Entry := mkEntry VACANT 0.

(** [Slab]; the directory's own first slab has the same shape. *)
Record Slab := mkSlab { s_next : Z; s_entries : list Entry }.

Definition Slab_new : Slab := mkSlab 0 (replicate (Z.to_nat CAPACITY) Entry_vacant).

(** The layout of [Slab]: a word and thirty-two pairs of words. *)
Definition SLAB_LAYOUT : Layout := mkLayout 520 8.

Record Directory := mkDirectory {
  transaction : Z;
  pending_slab : Z;
  pending_entry : Z;
  pending_kind : Z;
  pending : Meta;
  root_slab : Slab;
}.

(** [<Directory as Layout>::init]; [pending] is not initialized. *)
Definition Directory_init (uninit : Meta) : Directory := mkDirectory CLEAN 0 0 CREATE uninit Slab_new.

Definition Directory_SCHEMA : SchemaKey := mkSchemaKey (schema_id "evering.directory") 4.
Definition Directory_MAGIC : Z := 0xD1EC.

(** [SlabRef] *)
Inductive SlabRef := SRoot | SLinked (offset : Z).

#[export] Instance SlabRef_eq_dec : EqDecision SlabRef.
Proof. solve_decision. Defined.

Record Slot := mkSlot { slot_slab : Z; slot_entry : Z; slot_generation : Z; slot_vacant : Z }.

(** What the directory's operations touch: its words, the linked slabs by
    offset, the record and membership word of the header at an offset, and the
    heap with its mutation word. *)
Record world (H : Type) := mkWorld {
  w_dir : Directory;
  w_slabs : gmap Z Slab;
  w_headers : gmap Z (record * Z);
  w_mutation : Z;
  w_heap : H;
}.
Arguments mkWorld {H}. Arguments w_dir {H}. Arguments w_slabs {H}. Arguments w_headers {H}.
Arguments w_mutation {H}. Arguments w_heap {H}.

(** [Directory::owner_word] and [Directory::word_owner] *)
Definition owner_word (owner phase : Z) : Z := Z.lor (Z.shiftl (owner + 1) TRANSACTION_BITS) phase.

Definition holder (word : Z) : Z := wrap 8 (saturating_sub (Z.shiftr word TRANSACTION_BITS) 1).

Definition word_owner (word : Z) : option Z := if word =? CLEAN then None else Some (holder word).

(** An entry's word. *)
Definition entry_word (generation state : Z) : Z :=
  Z.lor (wrap usize_bits (Z.shiftl generation STATE_BITS)) state.

Section Directory.
Context {H : Type} `{HO : HeapOps H}.
(** The caller's view: its region, the region offset of the heap's base, the
    identity of the heap's region, and the usable part of the heap. *)
Context (rg : Region) (heap_base : Z) (heap_region : RegionId) (usable_lower usable_length : Z).

Abbreviation W := (world H).
Definition me : Z := member_slot (rg_member rg).

(** *** Accesses *)

Definition with_dir (d : Directory) (w : W) : W :=
  mkWorld d (w_slabs w) (w_headers w) (w_mutation w) (w_heap w).
Definition with_mutation (m : Z) (w : W) : W :=
  mkWorld (w_dir w) (w_slabs w) (w_headers w) m (w_heap w).
Definition with_heap (h : H) (w : W) : W :=
  mkWorld (w_dir w) (w_slabs w) (w_headers w) (w_mutation w) h.
Definition with_header (o : Z) (x : record * Z) (w : W) : W :=
  mkWorld (w_dir w) (w_slabs w) (<[o := x]> (w_headers w)) (w_mutation w) (w_heap w).
Definition with_slabs (s : gmap Z Slab) (w : W) : W :=
  mkWorld (w_dir w) s (w_headers w) (w_mutation w) (w_heap w).

Definition set_transaction (v : Z) (w : W) : W :=
  let d := w_dir w in
  with_dir (mkDirectory v (pending_slab d) (pending_entry d) (pending_kind d) (pending d) (root_slab d)) w.

Definition slab_at (w : W) (r : SlabRef) : Slab :=
  match r with
  | SRoot => root_slab (w_dir w)
  | SLinked o => default (mkSlab 0 []) (w_slabs w !! o)
  end.

Definition set_slab (r : SlabRef) (s : Slab) (w : W) : W :=
  match r with
  | SRoot =>
    let d := w_dir w in
    with_dir (mkDirectory (transaction d) (pending_slab d) (pending_entry d) (pending_kind d) (pending d) s) w
  | SLinked o => with_slabs (<[o := s]> (w_slabs w)) w
  end.

Definition entry_at (w : W) (r : SlabRef) (i : Z) : Entry :=
  default Entry_vacant (s_entries (slab_at w r) !! Z.to_nat i).

Definition load_transaction (w : W) : Z * W := (transaction (w_dir w), w).

Definition cas_transaction (old new : Z) (w : W) : result unit Z * W :=
  if transaction (w_dir w) =? old then (Ok tt, set_transaction new w)
  else (Err (transaction (w_dir w)), w).

Definition store_transaction (v : Z) (w : W) : unit * W := (tt, set_transaction v w).

Definition load_next (r : SlabRef) (w : W) : Z * W := (s_next (slab_at w r), w).

Definition store_next (r : SlabRef) (o : Z) (w : W) : unit * W :=
  (tt, set_slab r (mkSlab o (s_entries (slab_at w r))) w).

Definition load_state (r : SlabRef) (i : Z) (w : W) : Z * W := (e_state (entry_at w r i), w).

Definition load_offset (r : SlabRef) (i : Z) (w : W) : Z * W := (e_offset (entry_at w r i), w).

Definition set_entry (r : SlabRef) (i : Z) (e : Entry) (w : W) : W :=
  set_slab r (mkSlab (s_next (slab_at w r)) (<[Z.to_nat i := e]> (s_entries (slab_at w r)))) w.

Definition store_state (r : SlabRef) (i v : Z) (w : W) : unit * W :=
  (tt, set_entry r i (mkEntry v (e_offset (entry_at w r i))) w).

Definition store_offset (r : SlabRef) (i v : Z) (w : W) : unit * W :=
  (tt, set_entry r i (mkEntry (e_state (entry_at w r i)) v) w).

(** *** The heap under its mutation word *)

Definition begin_mutation : prog W (result unit MutationError) :=
  act r <- (λ w, let '(r, m) := mutation_claim me (w_mutation w) in (r, with_mutation m w)); Ret r.

(** [Mutation::commit] and [Drop for Mutation] *)
Definition mutation_commit (w : W) : unit * W := (tt, with_mutation MUTATION_CLEAN w).
Definition mutation_drop (w : W) : unit * W := (tt, with_mutation MUTATION_POISONED w).

Definition load_mutation (w : W) : MutationState * W := (mutation_state_of (w_mutation w), w).

Definition poison_owner (dead : Z) (w : W) : bool * W :=
  let '(r, m) := poison_mutation dead (w_mutation w) in (r, with_mutation m w).

Definition clear_owner (dead : Z) (w : W) : bool * W :=
  let '(r, m) := clear_dead_owner dead (w_mutation w) in (r, with_mutation m w).

(** [MapTalc::allocate_during] *)
Definition allocate_during (l : Layout) (w : W) : result Meta MutationError * W :=
  match talc_allocate l (w_heap w) with
  | Some (o, h) => (Ok (Meta_from o (size l)), with_heap h w)
  | None => (Err Exhausted, w)
  end.

(** [MapTalc::deallocate_during] of what [m] stands for, of [n] bytes. *)
Definition deallocate_during (m : Meta) (n : Z) (w : W) : unit * W :=
  (tt, with_heap (talc_deallocate (start_offset (view m)) n (w_heap w)) w).

(** [MapTalc::pointer] as an address; the null record is dangling. *)
Definition pointer (m : Meta) : Z :=
  if Meta_is_null m then 1 else map_start (rg_map rg) + heap_base + start_offset (view m).

(** [MapTalc::meta_for] of an address. *)
Definition meta_for (address n : Z) : option Meta :=
  let! offset := checked_sub address (map_start (rg_map rg) + heap_base) in
  let! bound := checked_add usable_lower usable_length in
  let! end_ := checked_add offset n in
  if (usable_lower <=? offset) && (end_ <=? bound) then Some (Meta_from offset n) else None.

(** *** The transaction *)

(** [Directory::claim] *)
Definition tx_claim (owner : Z) : prog W (result unit DirError) :=
  act r <- cas_transaction CLEAN (owner_word owner HELD);
  Ret (map_err (λ word, Busy (holder word)) r).

(** [Transaction::persist] *)
Definition persist (owner slab entry : Z) (m : Meta) (kind : Z) : prog W unit :=
  act_ (λ w, (tt, let d := w_dir w in with_dir
    (mkDirectory (transaction d) slab (pending_entry d) (pending_kind d) (pending d) (root_slab d)) w));
  act_ (λ w, (tt, let d := w_dir w in with_dir
    (mkDirectory (transaction d) (pending_slab d) entry (pending_kind d) (pending d) (root_slab d)) w));
  act_ (λ w, (tt, let d := w_dir w in with_dir
    (mkDirectory (transaction d) (pending_slab d) (pending_entry d) kind (pending d) (root_slab d)) w));
  act_ (λ w, (tt, let d := w_dir w in with_dir
    (mkDirectory (transaction d) (pending_slab d) (pending_entry d) (pending_kind d) m (root_slab d)) w));
  act_ (store_transaction (owner_word owner EVIDENCE));
  Ret tt.

(** [Transaction::pending] *)
Definition load_pending (w : W) : Meta * W := (pending (w_dir w), w).

(** [Transaction::clear_pending] *)
Definition clear_pending (owner : Z) (w : W) : unit * W := store_transaction (owner_word owner HELD) w.

(** [Transaction::commit] *)
Definition tx_commit (owner phase : Z) : prog W bool :=
  act r <- cas_transaction (owner_word owner phase) CLEAN; Ret (is_ok r).

(** [Drop for Transaction] *)
Definition tx_drop (owner phase : Z) : prog W unit :=
  if phase =? EVIDENCE then
    act_ (cas_transaction (owner_word owner EVIDENCE) (owner_word owner ROLLING_BACK)); Ret tt
  else Ret tt.

(** *** Walking the slabs *)

(** A walk that may not end: [None] when the turns given to it run out. *)
Abbreviation walk A := (prog W (option (result A DirError))).

(** [MapDirectory::next_slab] *)
Definition next_slab (r : SlabRef) : prog W (result (option SlabRef) DirError) :=
  act offset <- load_next r;
  Ret (if offset =? 0 then Ok None else
       match ref_at rg SLAB_LAYOUT offset with
       | Ok _ => Ok (Some (SLinked offset))
       | Err e => Err (AdmissionFailed e)
       end).

(** [MapDirectory::slab] *)
Fixpoint slab_from (n : nat) (r : SlabRef) : prog W (result SlabRef DirError) :=
  match n with
  | O => Ret (Ok r)
  | S n =>
    do next <- next_slab r;
    match next with
    | Err e => Ret (Err e)
    | Ok None => Ret (Err Stale)
    | Ok (Some r) => slab_from n r
    end
  end.

Definition slab (index : Z) : prog W (result SlabRef DirError) := slab_from (Z.to_nat index) SRoot.

(** [MapDirectory::entry]: where entry [i] of slab [index] is. *)
Definition entry (index i : Z) : prog W (result (SlabRef * Z) DirError) :=
  do s <- slab index;
  Ret (let? r := s in if i <? CAPACITY then Ok (r, i) else Err Stale).

(** To the next slab of a walk, or its end. *)
Definition step_walk {A} (r : SlabRef) (index : Z) (at_end : result A DirError)
    (k : SlabRef → Z → walk A) : walk A :=
  do next <- next_slab r;
  match next with
  | Err e => Ret (Some (Err e))
  | Ok None => Ret (Some at_end)
  | Ok (Some r) => if u32_max <? index + 1 then Ret (Some (Err Full)) else k r (index + 1)
  end.

(** [MapDirectory::reserve]: the entries of one slab, then the next. *)
Fixpoint reserve_entries (r : SlabRef) (index : Z) (todo : list Z) (next : walk Slot) : walk Slot :=
  match todo with
  | [] => next
  | i :: todo =>
    act state <- load_state r i;
    if negb (Z.land state STATE_MASK =? VACANT) then reserve_entries r index todo next
    else
      let generation := Z.shiftr state STATE_BITS in
      if negb (generation =? GENERATION_MAX) then
        Ret (Some (Ok (mkSlot index i (generation + 1) state)))
      else reserve_entries r index todo next
  end.

Fixpoint reserve_from (fuel : nat) (r : SlabRef) (index : Z) : walk Slot :=
  match fuel with
  | O => Ret None
  | S fuel =>
    reserve_entries r index (seqZ 0 CAPACITY)
      (step_walk r index (Err Full) (reserve_from fuel))
  end.

Definition dir_reserve (fuel : nat) : walk Slot := reserve_from fuel SRoot 0.

(** [MapDirectory::tail] *)
Fixpoint tail_from (fuel : nat) (r : SlabRef) (index : Z) : walk (Z * SlabRef) :=
  match fuel with
  | O => Ret None
  | S fuel => step_walk r index (Ok (index, r)) (tail_from fuel)
  end.

Definition tail (fuel : nat) : walk (Z * SlabRef) := tail_from fuel SRoot 0.

(** [MapDirectory::transition] *)
Definition settled_state (state : Z) : bool :=
  let s := Z.land state STATE_MASK in (s =? VACANT) || (s =? PUBLISHED) || (s =? QUARANTINED).

Fixpoint transition_entries (r : SlabRef) (index : Z) (todo : list Z) (next : walk (option (Z * Z)))
    : walk (option (Z * Z)) :=
  match todo with
  | [] => next
  | i :: todo =>
    act state <- load_state r i;
    if settled_state state then transition_entries r index todo next
    else Ret (Some (Ok (Some (index, i))))
  end.

Fixpoint transition_from (fuel : nat) (r : SlabRef) (index : Z) : walk (option (Z * Z)) :=
  match fuel with
  | O => Ret None
  | S fuel =>
    transition_entries r index (seqZ 0 CAPACITY)
      (step_walk r index (Ok None) (transition_from fuel))
  end.

Definition transition (fuel : nat) : walk (option (Z * Z)) := transition_from fuel SRoot 0.

(** [MapDirectory::offset] *)
Definition id_offset (id : Id) : prog W (result Z DirError) :=
  if negb (bool_decide (id_region id = rg_region rg)) then Ret (Err Stale) else
  do e <- entry (id_slab id) (id_entry id);
  match e with
  | Err e => Ret (Err e)
  | Ok (r, i) =>
    act state <- load_state r i;
    if negb (Z.land state STATE_MASK =? PUBLISHED) || negb (Z.shiftr state STATE_BITS =? id_generation id)
    then Ret (Err Stale)
    else act o <- load_offset r i; Ret (Ok o)
  end.

(** [MapDirectory::matches] *)
Definition id_matches (id : Id) (layout : LayoutId) : prog W bool :=
  do o <- id_offset id;
  Ret (match o with
       | Ok offset => bool_decide (layout_region layout = rg_region rg) && (layout_offset layout =? offset)
       | Err _ => false
       end).

(** [MapDirectory::scan]: the visitor gets each published layout and says
    whether to go on, or that it is still working. *)
Definition RECORD_LAYOUT : Layout := mkLayout RECORD_SIZE 1.

Definition load_record (offset : Z) (w : W) : record * W :=
  (fst (default (mkRecord 0 0 (0, 0, 0) [] [] [] [] [], 0) (w_headers w !! offset)), w).

Section Scan.
(** A state the directory is a part of. *)
Context {S : Type} (on_dir : ∀ A, prog W A → prog S A).
Arguments on_dir {A}.

Definition visitor : Type := Id → RecordedLayout → prog S (option bool).

Fixpoint scan_entries (visit : visitor) (r : SlabRef) (index : Z) (todo : list Z)
    (next : prog S (option (result bool DirError))) : prog S (option (result bool DirError)) :=
  match todo with
  | [] => next
  | i :: todo =>
    do word <- on_dir (act word <- load_state r i; Ret word);
    let s := Z.land word STATE_MASK in
    if (s =? VACANT) || (s =? QUARANTINED) then scan_entries visit r index todo next
    else if s =? PUBLISHED then
      do offset <- on_dir (act offset <- load_offset r i; Ret offset);
      match ref_at rg RECORD_LAYOUT offset with
      | Err e => Ret (Some (Err (AdmissionFailed e)))
      | Ok address =>
        do rec <- on_dir (act rec <- load_record offset; Ret rec);
        match recorded_at address rec with
        | Err e => Ret (Some (Err (AdmissionFailed (Admission e))))
        | Ok recorded =>
          match offset_of rg address (rl_extent recorded) with
          | Err e => Ret (Some (Err (AdmissionFailed e)))
          | Ok _ =>
            do more <- visit (mkId (rg_region rg) index i (Z.shiftr word STATE_BITS)) recorded;
            match more with
            | None => Ret None
            | Some true => scan_entries visit r index todo next
            | Some false => Ret (Some (Ok false))
            end
          end
        end
      end
    else Ret (Some (Err InUse))
  end.

Fixpoint scan_from (visit : visitor) (fuel : nat) (r : SlabRef) (index : Z)
    : prog S (option (result bool DirError)) :=
  match fuel with
  | O => Ret None
  | Datatypes.S fuel =>
    scan_entries visit r index (seqZ 0 CAPACITY)
      (do next <- on_dir (next_slab r);
       match next with
       | Err e => Ret (Some (Err e))
       | Ok None => Ret (Some (Ok true))
       | Ok (Some r) =>
         if u32_max <? index + 1 then Ret (Some (Err Full)) else scan_from visit fuel r (index + 1)
       end)
  end.

Definition scan (visit : visitor) (fuel : nat) : prog S (option (result bool DirError)) :=
  scan_from visit fuel SRoot 0.

(** *** Layouts behind their records *)

Context {T : Type} `{HT : SharedLayout T} (on_header : ∀ A, Z → prog (RcHeader T) A → prog S A).
Arguments on_header {A}.

(** [MapDirectory::recover_layout] of a layout whose [Layout::recover] is
    [recover], by the info, the extent, the dead and the live participant. *)
Definition recover_layout (recover : Info → Z → Z → Z → prog S (option bool))
    (id : Id) (recorded : RecordedLayout) (dead live : Z) : prog S (option bool) :=
  if bool_decide (is_Some (mismatch T recorded)) then Ret (Some false) else
  do o <- on_dir (id_offset id);
  match o with
  | Err _ => Ret (Some false)
  | Ok offset =>
    match ref_at rg header_layout offset with
    | Err _ => Ret (Some false)
    | Ok address =>
      do seen <- on_header offset (inspect_at address (mkLayoutContext (rg_region rg) offset false));
      match seen with
      | Err _ => Ret (Some false)
      | Ok info =>
        do ok <- recover info (rl_extent recorded) dead live;
        match ok with
        | None => Ret None
        | Some false => Ret (Some false)
        | Some true =>
          do _ <- on_header offset (recover_member dead);
          do member <- on_header offset (has_member dead);
          Ret (Some (negb member))
        end
      end
    end
  end.

(** [MapDirectory::open]: the offset of the layout and its admission. *)
Definition open (id : Id) (conf : Config) : prog S (option (result Z DirError)) :=
  do o <- on_dir (id_offset id);
  match o with
  | Err e => Ret (Some (Err e))
  | Ok offset =>
    do r <- on_header offset (admit_at rg offset conf false);
    Ret (match r with
         | None => None
         | Some (Err e) => Some (Err (AdmissionFailed e))
         | Some (Ok _) => Some (Ok offset)
         end)
  end.
End Scan.

(** [MapDirectory::transaction_owner] *)
Definition transaction_owner : prog W (option Z) :=
  act word <- load_transaction; Ret (word_owner word).

(** *** Growth *)

(** [MapDirectory::grow] under the transaction of [owner]. *)
Definition grow (fuel : nat) (owner : Z) : walk unit :=
  do t <- tail fuel;
  match t with
  | None => Ret None
  | Some (Err e) => Ret (Some (Err e))
  | Some (Ok (tail_index, last)) =>
    if u32_max <? tail_index + 1 then Ret (Some (Err Full)) else
    do m <- begin_mutation;
    match m with
    | Err e => Ret (Some (Err (HeapFailed e)))
    | Ok _ =>
      act a <- allocate_during SLAB_LAYOUT;
      match a with
      | Err e => act_ mutation_commit; Ret (Some (Err (HeapFailed e)))
      | Ok meta =>
        act_ (λ w, (tt, with_slabs (<[heap_base + start_offset (view meta) := Slab_new]> (w_slabs w)) w));
        match offset_of rg (pointer meta) (size SLAB_LAYOUT) with
        | Err e =>
          act_ (deallocate_during meta (size SLAB_LAYOUT));
          act_ mutation_commit;
          Ret (Some (Err (AdmissionFailed e)))
        | Ok offset =>
          if offset =? 0 then Ret None else
          do _ <- persist owner (tail_index + 1) 0 meta GROW;
          act_ mutation_commit;
          act_ (store_next last offset);
          act_ (clear_pending owner);
          Ret (Some (Ok tt))
        end
      end
    end
  end.

(** *** Taking over a transaction *)

(** [MapDirectory::transfer] *)
Definition transfer (word dead phase : Z) : prog W (result unit DirError) :=
  act r <- cas_transaction word (owner_word me phase);
  Ret (map_err (λ current, Busy (default dead (word_owner current))) r).

(** [MapDirectory::transfer_and_clear] *)
Definition transfer_and_clear (word dead : Z) : prog W (result unit DirError) :=
  do r <- transfer word dead HELD;
  match r with
  | Err e => Ret (Err e)
  | Ok _ => do _ <- tx_commit me HELD; Ret (Ok tt)
  end.

(** [MapDirectory::claim_heap_and_transfer] *)
Definition claim_heap_and_transfer (dead word phase : Z) : prog W (result unit DirError) :=
  do m <- begin_mutation;
  match m with
  | Err e => Ret (Err (HeapFailed e))
  | Ok _ =>
    do r <- transfer word dead phase;
    match r with
    | Err e => act_ mutation_commit; Ret (Err e)
    | Ok _ => Ret (Ok tt)
    end
  end.

Definition phase_of (word : Z) : Z := Z.land word (Z.shiftl 1 TRANSACTION_BITS - 1).

(** [MapDirectory::quarantine] of an entry.  The commit is the argument of a
    [debug_assert!]: without debug assertions ([debug = false]) it is not
    evaluated and the transaction is dropped instead. *)
Definition quarantine (debug : bool) (word : Z) (r : SlabRef) (i : Z) : walk Recovered :=
  match word_owner word with
  | None => Ret (Some (Err Stale))
  | Some dead =>
    let phase := phase_of word in
    do held <- transfer word dead phase;
    match held with
    | Err e => Ret (Some (Err e))
    | Ok _ =>
      act state <- load_state r i;
      act_ (store_state r i (entry_word (Z.shiftr state STATE_BITS) QUARANTINED));
      if debug then
        do committed <- tx_commit me phase;
        if committed then Ret (Some (Ok Quarantined)) else Ret None
      else
        do _ <- tx_drop me phase; Ret (Some (Ok Quarantined))
    end
  end.

(** Ends a transaction taken over: [clear_pending] and [commit]. *)
Definition finish {A} (a : A) : walk A :=
  act_ (clear_pending me);
  do _ <- tx_commit me HELD;
  Ret (Some (Ok a)).

(** [MapDirectory::recover_growth] *)
Definition recover_growth (owner word phase : Z) (dead : bool) : walk Recovered :=
  act slab_index <- (λ w, (pending_slab (w_dir w), w));
  if u32_max <? slab_index then Ret (Some (Err Stale)) else
  if slab_index <? 1 then Ret (Some (Err Stale)) else
  act meta <- load_pending;
  match offset_of rg (pointer meta) (size SLAB_LAYOUT) with
  | Err e => Ret (Some (Err (AdmissionFailed e)))
  | Ok offset =>
    do s <- slab (slab_index - 1);
    match s with
    | Err e => Ret (Some (Err e))
    | Ok pred =>
      act link <- load_next pred;
      if link =? offset then
        do t <- transfer word owner phase;
        match t with Err e => Ret (Some (Err e)) | Ok _ => finish Retained end
      else if negb (link =? 0) then
        do t <- transfer word owner phase;
        match t with Err e => Ret (Some (Err e)) | Ok _ => finish Quarantined end
      else
        do _ <- (if dead then
            act st <- load_mutation;
            if bool_decide (st = MOwned owner) then (act_ (poison_owner owner); Ret tt) else Ret tt
          else Ret tt);
        act st <- load_mutation;
        match st with
        | MClean =>
          do c <- claim_heap_and_transfer owner word phase;
          match c with
          | Err e => Ret (Some (Err e))
          | Ok _ =>
            act_ (deallocate_during meta (size SLAB_LAYOUT));
            act_ (clear_pending me);
            act_ mutation_commit;
            do _ <- tx_commit me HELD;
            Ret (Some (Ok RolledBack))
          end
        | MOwned found => Ret (Some (Err (Busy found)))
        | MPoisoned =>
          do t <- transfer word owner phase;
          match t with Err e => Ret (Some (Err e)) | Ok _ => finish Quarantined end
        end
    end
  end.

(** [MapDirectory::resume_rollback]; its guards are dropped on the way out. *)
Definition resume_rollback (owner : Z) : walk unit :=
  let expected := owner_word owner ROLLING_BACK in
  act word <- load_transaction;
  if negb (word =? expected) then Ret (Some (Err (Busy owner))) else
  act kind <- (λ w, (pending_kind (w_dir w), w));
  if kind =? GROW then
    do r <- recover_growth owner expected ROLLING_BACK false;
    Ret (match r with None => None | Some (Err e) => Some (Err e) | Some (Ok _) => Some (Ok tt) end)
  else if negb (kind =? CREATE) then Ret (Some (Err (Busy owner)))
  else
    do m <- begin_mutation;
    match m with
    | Err e => do _ <- tx_drop owner ROLLING_BACK; Ret (Some (Err (HeapFailed e)))
    | Ok _ =>
      act meta <- load_pending;
      act_ (deallocate_during meta (size (Meta_layout meta)));
      act s <- (λ w, (pending_slab (w_dir w), w));
      if u32_max <? s then act_ mutation_drop; Ret (Some (Err Stale)) else
      act i <- (λ w, (pending_entry (w_dir w), w));
      do e <- entry s i;
      match e with
      | Err e => act_ mutation_drop; do _ <- tx_drop owner ROLLING_BACK; Ret (Some (Err e))
      | Ok (r, i) =>
        act state <- load_state r i;
        act_ (store_state r i (entry_word (saturating_sub (Z.shiftr state STATE_BITS) 1) VACANT));
        act_ (clear_pending owner);
        act_ mutation_commit;
        do _ <- tx_commit owner HELD;
        Ret (Some (Ok tt))
      end
    end.

(** *** Creation *)

Section Create.
Context {T : Type} `{HT : SharedLayout T}.

(** The accesses of [p] on the header [h] in memory that nobody else knows of
    yet. *)
Fixpoint on_fresh {A} (offset : Z) (p : prog (RcHeader T) A) (h : RcHeader T) : prog W A :=
  match p with
  | Ret a => Ret a
  | Act f c => Act (λ w, let '(b, h') := f h in ((b, h'), with_header offset (h_record h', h_members h') w))
                 (λ x, on_fresh offset (c x.1) x.2)
  end.

(** The admission of the header in freshly zeroed memory: [zeroed] is what an
    [RcHeader<L>] of zero bytes is. *)
Definition admit_fresh (zeroed : RcHeader T) (offset : Z) (conf : Config) : prog W (option (result unit ProjectionError)) :=
  on_fresh offset (admit_at rg offset conf true) zeroed.

(** The end of [create_in], the block on record: admission, then publication
    of the entry at [(r, i)] or its undoing. *)
Definition create_admitted (zeroed : RcHeader T) (conf : Config) (layout : Layout) (s : Slot)
    (r : SlabRef) (i offset : Z) : walk Id :=
  let owner := me in
  do adm <- admit_fresh zeroed offset conf;
  match adm with
  | None => do _ <- tx_drop owner EVIDENCE; Ret None
  | Some (Err e) =>
    do m <- begin_mutation;
    match m with
    | Err e' => do _ <- tx_drop owner EVIDENCE; Ret (Some (Err (HeapFailed e')))
    | Ok _ =>
      act meta <- load_pending;
      act_ (deallocate_during meta (size layout));
      act_ (store_state r i (slot_vacant s));
      act_ (clear_pending owner);
      act_ mutation_commit;
      do _ <- tx_commit owner HELD;
      Ret (Some (Err (AdmissionFailed e)))
    end
  | Some (Ok _) =>
    act_ (store_offset r i offset);
    act_ (store_state r i (entry_word (slot_generation s) PUBLISHED));
    act_ (clear_pending owner);
    do _ <- tx_commit owner HELD;
    Ret (Some (Ok (mkId (rg_region rg) (slot_slab s) (slot_entry s) (slot_generation s))))
  end.

(** [create_in] once an entry is reserved. *)
Definition create_at (zeroed : RcHeader T) (conf : Config) (layout : Layout) (s : Slot) : walk Id :=
  let owner := me in
  do e <- entry (slot_slab s) (slot_entry s);
  match e with
  | Err e => do _ <- tx_commit owner HELD; Ret (Some (Err e))
  | Ok (r, i) =>
    act_ (store_state r i (entry_word (slot_generation s) PENDING));
    do m <- begin_mutation;
    match m with
    | Err e =>
      act_ (store_state r i (slot_vacant s));
      do _ <- tx_commit owner HELD;
      Ret (Some (Err (HeapFailed e)))
    | Ok _ =>
      act a <- allocate_during layout;
      match a with
      | Err e =>
        act_ mutation_commit;
        act_ (store_state r i (slot_vacant s));
        do _ <- tx_commit owner HELD;
        Ret (Some (Err (HeapFailed e)))
      | Ok meta =>
        act_ (λ w, (tt, with_header (heap_base + start_offset (view meta)) (h_record zeroed, h_members zeroed) w));
        match offset_of rg (pointer meta) (size layout) with
        | Err e =>
          act_ (deallocate_during meta (size layout));
          act_ mutation_commit;
          act_ (store_state r i (slot_vacant s));
          do _ <- tx_commit owner HELD;
          Ret (Some (Err (AdmissionFailed e)))
        | Ok offset =>
          do _ <- persist owner (slot_slab s) (slot_entry s) meta CREATE;
          act_ mutation_commit;
          create_admitted zeroed conf layout s r i offset
        end
      end
    end
  end.

(** [MapDirectory::create_in] *)
Definition create_in (zeroed : RcHeader T) (fuel : nat) (conf : Config) (layout : Layout) : walk Id :=
  if negb (bool_decide (rg_region rg = heap_region)) then Ret (Some (Err Stale)) else
  if negb (bool_decide (storage conf = Some layout)) then Ret (Some (Err Stale)) else
  let owner := me in
  do c <- tx_claim owner;
  match c with
  | Err (Busy busy) =>
    if busy =? owner then
      act word <- load_transaction;
      if word =? owner_word owner ROLLING_BACK then
        do r <- resume_rollback owner;
        Ret (match r with
             | None => None
             | Some (Err e) => Some (Err e)
             | Some (Ok _) => Some (Err RolledBackFirst)
             end)
      else Ret (Some (Err (Busy busy)))
    else Ret (Some (Err (Busy busy)))
  | Err e => Ret (Some (Err e))
  | Ok _ =>
    do s <- dir_reserve fuel;
    match s with
    | None => Ret None
    | Some (Ok s) => create_at zeroed conf layout s
    | Some (Err Full) =>
      do g <- grow fuel owner;
      match g with
      | None => Ret None
      | Some (Err e) => do _ <- tx_commit owner HELD; Ret (Some (Err e))
      | Some (Ok _) =>
        do s <- dir_reserve fuel;
        match s with
        | None => Ret None
        | Some (Ok s) => create_at zeroed conf layout s
        | Some (Err e) => do _ <- tx_commit owner HELD; Ret (Some (Err e))
        end
      end
    | Some (Err e) => do _ <- tx_commit owner HELD; Ret (Some (Err e))
    end
  end.
End Create.

(** *** Removal *)

(** [RcHeader::close_unique] on the membership word at [offset]. *)
Definition close_at (offset : Z) (w : W) : result unit CloseError * W :=
  let '(rec, m) := default (mkRecord 0 0 (0, 0, 0) [] [] [] [] [], 0) (w_headers w !! offset) in
  if m =? slot_bit me then (Ok tt, with_header offset (rec, CLOSED) w)
  else (Err (close_error m (slot_bit me)), w).

(** The end of [remove_in] under the transaction and the heap mutation: the
    entry closes, the header closes, the block is freed. *)
Definition remove_entry (id : Id) (r : SlabRef) (i mapped : Z) (meta : Meta) (layout : Layout) : walk unit :=
  let owner := me in
  act_ (store_state r i (entry_word (id_generation id) CLOSING));
  do _ <- persist owner (id_slab id) (id_entry id) meta REMOVE;
  act closed <- close_at mapped;
  match closed with
  | Err e =>
    act_ (store_state r i (entry_word (id_generation id) PUBLISHED));
    act_ (clear_pending owner);
    act_ mutation_commit;
    do _ <- tx_commit owner HELD;
    Ret (Some (Err (CloseFailed e)))
  | Ok _ =>
    act_ (store_state r i (entry_word (id_generation id) REMOVING));
    act_ (deallocate_during meta (size layout));
    act_ (store_state r i (entry_word (id_generation id) RELEASED));
    act_ mutation_commit;
    act_ (store_state r i (entry_word (id_generation id) VACANT));
    act_ (clear_pending owner);
    do _ <- tx_commit owner HELD;
    Ret (Some (Ok tt))
  end.

(** [MapDirectory::remove_in] of a header of layout [header] mapped at
    [mapped] in region [mapped_region]; whether the view stays attached. *)
Definition remove_in (id : Id) (mapped_region : RegionId) (mapped : Z) (header layout : Layout)
    : walk unit :=
  if negb (bool_decide (rg_region rg = heap_region)) then Ret (Some (Err Stale)) else
  if (size layout <? size header) || (align layout <? align header) then Ret (Some (Err Stale)) else
  do o <- id_offset id;
  match o with
  | Err e => Ret (Some (Err e))
  | Ok offset =>
    if negb (bool_decide (mapped_region = rg_region rg)) || negb (mapped =? offset) then
      Ret (Some (Err Stale))
    else
    let owner := me in
    do c <- tx_claim owner;
    match c with
    | Err e => Ret (Some (Err e))
    | Ok _ =>
      do e <- entry (id_slab id) (id_entry id);
      match e with
      | Err e => do _ <- tx_commit owner HELD; Ret (Some (Err e))
      | Ok (r, i) =>
        let published := entry_word (id_generation id) PUBLISHED in
        act state <- load_state r i;
        if negb (state =? published) then do _ <- tx_commit owner HELD; Ret (Some (Err Stale)) else
        match meta_for (map_start (rg_map rg) + mapped) (size layout) with
        | None => do _ <- tx_commit owner HELD; Ret (Some (Err Stale))
        | Some meta =>
          do m <- begin_mutation;
          match m with
          | Err e => do _ <- tx_commit owner HELD; Ret (Some (Err (HeapFailed e)))
          | Ok _ =>
            remove_entry id r i mapped meta layout
          end
        end
      end
    end
  end.

(** *** Recovery *)

(** [closed_at] of the header of a pending record. *)
Definition load_closed (m : Meta) (w : W) : bool * W :=
  (negb (Z.land (snd (default (mkRecord 0 0 (0, 0, 0) [] [] [] [] [], 0)
                   (w_headers w !! (heap_base + start_offset (view m))))) CLOSED =? 0), w).

(** A removal past its point of no return: the block is freed, then the entry. *)
Definition release_entry (r : SlabRef) (i generation : Z) : walk Recovered :=
  act meta <- load_pending;
  act_ (deallocate_during meta (size (Meta_layout meta)));
  act_ (store_state r i (entry_word generation RELEASED));
  act_ mutation_commit;
  act_ (store_state r i (entry_word generation VACANT));
  finish Released.

(** What stands in the way of clearing the heap for a dead owner. *)
Definition heap_in_the_way (debug : bool) (word : Z) (r : SlabRef) (i : Z) : walk Recovered :=
  act st <- load_mutation;
  match st with
  | MOwned owner => Ret (Some (Err (Busy owner)))
  | MPoisoned => quarantine debug word r i
  | MClean => Ret None
  end.

(** The arms of [recover] on the entry in transition. *)
Definition recover_entry (debug : bool) (dead word phase kind : Z) (r : SlabRef) (i : Z) : walk Recovered :=
  act state <- load_state r i;
  let generation := Z.shiftr state STATE_BITS in
  let s := Z.land state STATE_MASK in
  let late := (phase =? EVIDENCE) || (phase =? ROLLING_BACK) in
  if (kind =? REMOVE) && (s =? CLOSING) && late then
    act cleared <- clear_owner dead;
    if negb cleared then heap_in_the_way debug word r i else
    act meta <- load_pending;
    act closed <- load_closed meta;
    if negb closed then
      do t <- transfer word dead phase;
      match t with
      | Err e => Ret (Some (Err e))
      | Ok _ => act_ (store_state r i (entry_word generation PUBLISHED)); finish RolledBack
      end
    else
      do t <- claim_heap_and_transfer dead word phase;
      match t with Err e => Ret (Some (Err e)) | Ok _ => release_entry r i generation end
  else if (kind =? REMOVE) && (s =? RELEASED) && late then
    act cleared <- clear_owner dead;
    if negb cleared then heap_in_the_way debug word r i else
    do t <- transfer word dead phase;
    match t with
    | Err e => Ret (Some (Err e))
    | Ok _ => act_ (store_state r i (entry_word generation VACANT)); finish Released
    end
  else if (kind =? REMOVE) && (s =? VACANT) && late then
    act st <- load_mutation;
    match st with
    | MOwned owner =>
      if negb (owner =? dead) then Ret (Some (Err (Busy owner))) else
      do t <- transfer word dead phase;
      match t with Err e => Ret (Some (Err e)) | Ok _ => finish Released end
    | _ =>
      do t <- transfer word dead phase;
      match t with Err e => Ret (Some (Err e)) | Ok _ => finish Released end
    end
  else
    act st <- load_mutation;
    do _ <- (if bool_decide (st = MOwned dead) then (act_ (poison_owner dead); Ret tt) else Ret tt);
    let blocked := ((kind =? CREATE) && (s =? PENDING) || (kind =? REMOVE) && (s =? REMOVING)) && late in
    do stop <- (if blocked then
        act st <- load_mutation;
        match st with
        | MOwned owner => Ret (Some (Some (Err (Busy owner))))
        | MPoisoned => do q <- quarantine debug word r i; Ret (Some q)
        | MClean => Ret None
        end
      else Ret None);
    match stop with
    | Some out => Ret out
    | None =>
      if (s =? PENDING) && (phase =? HELD) then
        if generation =? 0 then quarantine debug word r i else
        do t <- transfer word dead phase;
        match t with
        | Err e => Ret (Some (Err e))
        | Ok _ =>
          act_ (store_state r i (entry_word (generation - 1) VACANT));
          do _ <- tx_commit me phase;
          Ret (Some (Ok RolledBack))
        end
      else if (kind =? CREATE) && (s =? PENDING) && late then
        if generation =? 0 then quarantine debug word r i else
        do t <- claim_heap_and_transfer dead word phase;
        match t with
        | Err e => Ret (Some (Err e))
        | Ok _ =>
          act meta <- load_pending;
          act_ (deallocate_during meta (size (Meta_layout meta)));
          act_ (store_state r i (entry_word (generation - 1) VACANT));
          act_ (clear_pending me);
          act_ mutation_commit;
          do _ <- tx_commit me HELD;
          Ret (Some (Ok RolledBack))
        end
      else if (kind =? REMOVE) && (s =? REMOVING) && late then
        do t <- claim_heap_and_transfer dead word phase;
        match t with Err e => Ret (Some (Err e)) | Ok _ => release_entry r i generation end
      else quarantine debug word r i
    end.

(** [MapDirectory::recover] of the transaction of participant [dead]. *)
Definition recover (debug : bool) (fuel : nat) (dead : Z) : walk Recovered :=
  if negb (bool_decide (rg_region rg = heap_region)) then Ret (Some (Err Stale)) else
  act word <- load_transaction;
  if word =? CLEAN then Ret (Some (Err Stale)) else
  let owner := holder word in
  if negb (owner =? dead) then Ret (Some (Err (Busy owner))) else
  let phase := phase_of word in
  act kind <- (λ w, (pending_kind (w_dir w), w));
  let late := (phase =? EVIDENCE) || (phase =? ROLLING_BACK) in
  if late && (kind =? GROW) then recover_growth dead word phase true else
  do location <- (if late then
      act s <- (λ w, (wrap 32 (pending_slab (w_dir w)), w));
      act i <- (λ w, (pending_entry (w_dir w), w));
      Ret (Some (Ok (Some (s, i))))
    else transition fuel);
  match location with
  | None => Ret None
  | Some (Err e) => Ret (Some (Err e))
  | Some (Ok None) =>
    if negb (phase =? HELD) then Ret (Some (Err Stale)) else
    act st <- load_mutation;
    if bool_decide (st = MOwned dead) then
      act_ (poison_owner dead);
      do t <- transfer_and_clear word dead;
      Ret (match t with Err e => Some (Err e) | Ok _ => Some (Ok Quarantined) end)
    else
      do t <- transfer_and_clear word dead;
      Ret (match t with Err e => Some (Err e) | Ok _ => Some (Ok RolledBack) end)
  | Some (Ok (Some (s, i))) =>
    do e <- entry s i;
    match e with
    | Err e => Ret (Some (Err e))
    | Ok (r, i) => recover_entry debug dead word phase kind r i
    end
  end.
End Directory.
