(* ===== verification/DirWalk.v ===== *)
(** * Directory words and walks

    The words of the directory as packed fields, the chain of slabs, and what
    the walks over it find. *)

From S2P Require Import Prelude Atomic Alloc Bytes Schema Header Mem Heap Dir.

(** ** Words *)

Section Words.
Lemma owner_word_pack o ph : owner_word o ph = pack (o + 1) 2 ph.
Proof. done. Qed.

Lemma phase_owner_word o ph : 0 ≤ ph < 4 → phase_of (owner_word o ph) = ph.
Proof. intros. by apply (pack_lo _ 2). Qed.

Lemma holder_owner_word o ph : 0 ≤ o < PARTICIPANT_CAPACITY → 0 ≤ ph < 4 → holder (owner_word o ph) = o.
Proof.
  unfold PARTICIPANT_CAPACITY, usize_bits. intros Ho Hp. unfold holder, TRANSACTION_BITS.
  rewrite owner_word_pack, pack_hi by lia. unfold saturating_sub.
  rewrite Z.max_r by lia. replace (o + 1 - 1) with o by lia. apply wrap_small. unfold is_word.
  change (2 ^ 8) with 256. lia.
Qed.

Lemma owner_word_clean o ph : 0 ≤ o → 0 ≤ ph < 4 → (owner_word o ph =? CLEAN) = false.
Proof.
  intros Ho Hp. apply Z.eqb_neq. rewrite owner_word_pack, pack_add by lia. unfold CLEAN. lia.
Qed.

Lemma word_owner_word o ph : 0 ≤ o < PARTICIPANT_CAPACITY → 0 ≤ ph < 4 → word_owner (owner_word o ph) = Some o.
Proof.
  intros Ho Hp. unfold word_owner. rewrite owner_word_clean by lia. by rewrite holder_owner_word.
Qed.

Definition gen_ok (g : Z) : Prop := 0 ≤ g ≤ GENERATION_MAX.

Lemma entry_word_pack g s : gen_ok g → entry_word g s = pack g 3 s.
Proof.
  intros Hg. unfold entry_word, pack. rewrite wrap_small; [done|]. unfold is_word, gen_ok in *.
  change GENERATION_MAX with (2 ^ 61 - 1) in Hg. unfold usize_bits, STATE_BITS. rewrite Z.shiftl_mul_pow2 by lia.
  change (2 ^ 64) with (2 ^ 61 * 2 ^ 3). lia.
Qed.

Lemma entry_state g s : gen_ok g → 0 ≤ s < 8 → Z.land (entry_word g s) STATE_MASK = s.
Proof. intros Hg Hs. rewrite entry_word_pack by done. by apply (pack_lo _ 3). Qed.

Lemma entry_gen g s : gen_ok g → 0 ≤ s < 8 → Z.shiftr (entry_word g s) STATE_BITS = g.
Proof. intros Hg Hs. rewrite entry_word_pack by done. by apply (pack_hi _ 3). Qed.

(** A vacant word is the word of its generation. *)
Lemma vacant_word v : 0 ≤ v ≤ usize_max → Z.land v STATE_MASK = VACANT →
  v = entry_word (Z.shiftr v STATE_BITS) VACANT ∧ gen_ok (Z.shiftr v STATE_BITS).
Proof.
  intros Hv Hs. assert (Hg : gen_ok (Z.shiftr v STATE_BITS)).
  { unfold gen_ok. split; [apply Z.shiftr_nonneg; lia|]. unfold GENERATION_MAX, STATE_BITS.
    rewrite !Z.shiftr_div_pow2 by lia. apply Z.div_le_mono; [done|lia]. }
  split; [|done]. rewrite entry_word_pack by done. rewrite <- (unpack_pack v 3) at 1 by lia.
  unfold STATE_MASK, STATE_BITS, VACANT in *. change (Z.shiftl 1 3 - 1) with (Z.ones 3) in Hs. by rewrite Hs.
Qed.

Lemma settled_word g s : gen_ok g → 0 ≤ s < 8 →
  settled_state (entry_word g s) = ((s =? VACANT) || (s =? PUBLISHED) || (s =? QUARANTINED)).
Proof. intros Hg Hs. unfold settled_state. by rewrite entry_state. Qed.
End Words.

(** ** The chain of slabs *)

Section Walk.
Context {H : Type} `{HO : HeapOps H} (rg : Region).
Abbreviation W := (world H).
Implicit Types w : W.

(** The slabs from [r] on, in order. *)
Inductive chain (w : W) : SlabRef → list SlabRef → Prop :=
| chain_last r : s_next (slab_at w r) = 0 → chain w r [r]
| chain_next r o rs a :
    s_next (slab_at w r) = o → o ≠ 0 → ref_at rg SLAB_LAYOUT o = Ok a → chain w (SLinked o) rs →
    chain w r (r :: rs).

(** Two worlds with the same links have the same chain. *)
Lemma chain_links w w' r rs :
  (∀ r, s_next (slab_at w' r) = s_next (slab_at w r)) → chain w r rs → chain w' r rs.
Proof. intros Hl. induction 1; [constructor|econstructor]; rewrite ?Hl; eauto. Qed.

Lemma run_next_slab w r rs : chain w r rs →
  run (next_slab rg r) w = (Ok (rs !! 1%nat), w) ∧ rs !! 0%nat = Some r.
Proof.
  intros Hc. destruct Hc as [r Hn|r o rs a Hn Ho Ha Hc]; unfold next_slab; rewrite run_act; cbn [load_next fst snd run].
  - by rewrite Hn.
  - rewrite Hn. destruct (Z.eqb_spec o 0); [done|]. rewrite Ha. by destruct Hc.
Qed.

Lemma chain_tail w r r' rs : chain w r (r :: r' :: rs) → chain w r' (r' :: rs).
Proof.
  intros Hc. inversion Hc as [|? o ? a Hn Ho Ha Hc']; subst. by inversion Hc'; subst.
Qed.

Lemma chain_nonempty w r rs : chain w r rs → ∃ rs', rs = r :: rs'.
Proof. destruct 1; eauto. Qed.

Lemma run_slab_from w r rs k r' : chain w r rs → rs !! k = Some r' → run (slab_from rg k r) w = (Ok r', w).
Proof.
  revert r rs. induction k as [|k IH]; intros r rs Hc Hk; destruct (chain_nonempty _ _ _ Hc) as [rs' ->].
  { by injection Hk as ->. }
  cbn [slab_from]. rewrite run_bind. destruct (run_next_slab _ _ _ Hc) as [-> _]. simpl in Hk.
  destruct rs' as [|r1 rs']; [done|]. cbn [lookup list_lookup]. apply (IH r1 (r1 :: rs')); [by eapply chain_tail|done].
Qed.

Lemma run_entry w rs k i r : chain w SRoot rs → 0 ≤ k → rs !! Z.to_nat k = Some r → 0 ≤ i < CAPACITY →
  run (entry rg k i) w = (Ok (r, i), w).
Proof.
  intros Hc Hk Hr Hi. unfold entry, slab. rewrite run_bind, (run_slab_from _ _ _ _ _ Hc Hr). cbn [run].
  destruct (Z.ltb_spec i CAPACITY); [done|lia].
Qed.

Lemma reads_next_slab r : reads (S := W) (next_slab rg r).
Proof. constructor; [done|]. intros. constructor. Qed.

Lemma reads_slab_from k r : reads (S := W) (slab_from rg k r).
Proof.
  revert r. induction k as [|k IH]; intros r; [constructor|]. cbn [slab_from].
  apply reads_bind; [apply reads_next_slab|]. intros [[r'|]|]; [apply IH|constructor|constructor].
Qed.

Lemma reads_entry k i : reads (S := W) (entry rg k i).
Proof. apply reads_bind; [apply reads_slab_from|]. intros. constructor. Qed.

Lemma reads_id_offset id : reads (S := W) (id_offset rg id).
Proof.
  unfold id_offset. destruct (negb _); [constructor|]. apply reads_bind; [apply reads_entry|].
  intros [[r i]|]; [|constructor]. constructor; [done|]. intros state. destruct (_ || _); [constructor|].
  constructor; [done|]. constructor.
Qed.

Lemma reads_step_walk {A} r index (e : result A DirError) (k : SlabRef → Z → _) :
  (∀ r i, reads (k r i)) → reads (S := W) (step_walk rg r index e k).
Proof.
  intros Hk. apply reads_bind; [apply reads_next_slab|]. intros [[r'|]|]; [|constructor|constructor].
  destruct (_ <? _); [constructor|apply Hk].
Qed.

Lemma reads_reserve fuel r index : reads (S := W) (reserve_from rg fuel r index).
Proof.
  revert r index. induction fuel as [|fuel IH]; intros r index; [constructor|]. cbn [reserve_from].
  generalize (seqZ 0 CAPACITY). intros todo. induction todo as [|i todo IHt]; cbn [reserve_entries].
  - by apply reads_step_walk.
  - constructor; [done|]. intros state. repeat case_match; try done; constructor.
Qed.

Lemma reads_transition fuel r index : reads (S := W) (transition_from rg fuel r index).
Proof.
  revert r index. induction fuel as [|fuel IH]; intros r index; [constructor|]. cbn [transition_from].
  generalize (seqZ 0 CAPACITY). intros todo. induction todo as [|i todo IHt]; cbn [transition_entries].
  - by apply reads_step_walk.
  - constructor; [done|]. intros state. repeat case_match; try done; constructor.
Qed.

(** *** What a walk finds *)

(** To the next slab of a chain. *)
Lemma run_step_walk {A} w r rs index (e : result A DirError) (k : SlabRef → Z → _) :
  chain w r rs → index + 1 ≤ u32_max →
  run (step_walk rg r index e k) w =
    match rs !! 1%nat with None => (Some e, w) | Some r' => run (k r' (index + 1)) w end.
Proof.
  intros Hc Hi. unfold step_walk. rewrite run_bind. destruct (run_next_slab _ _ _ Hc) as [-> _]. cbn [run].
  destruct (rs !! 1%nat) as [r'|]; [|done]. destruct (Z.ltb_spec u32_max (index + 1)); [lia|done].
Qed.

Lemma run_transition_entries w r index todo next :
  run (transition_entries r index todo next) w =
    match filter (λ i, settled_state (e_state (entry_at w r i)) = false) todo with
    | [] => run next w
    | i :: _ => (Some (Ok (Some (index, i))), w)
    end.
Proof.
  induction todo as [|i todo IH]; [done|]. cbn [transition_entries]. rewrite run_act. cbn [load_state fst snd].
  destruct (settled_state (e_state (entry_at w r i))) eqn:E.
  - rewrite IH, filter_cons_False by congruence. done.
  - by rewrite filter_cons_True.
Qed.

(** The walk from slab [r] of the chain on, when only entry [i] of the slab
    [n] further down may be unsettled. *)
Lemma run_transition_from w fuel r rs index (found : option (nat * Z)) :
  chain w r rs → (length rs ≤ fuel)%nat → index + Z.of_nat (length rs) ≤ u32_max →
  (∀ n r' i, rs !! n = Some r' → 0 ≤ i < CAPACITY →
    settled_state (e_state (entry_at w r' i)) = negb (bool_decide (found = Some (n, i)))) →
  (∀ n i, found = Some (n, i) → (n < length rs)%nat ∧ 0 ≤ i < CAPACITY) →
  run (transition_from rg fuel r index) w =
    (Some (Ok (match found with None => None | Some (n, i) => Some (index + Z.of_nat n, i) end)), w).
Proof.
  revert r rs index found. induction fuel as [|fuel IH]; intros r rs index found Hc Hf Hu Hs Hin;
    destruct (chain_nonempty _ _ _ Hc) as [rs' ->]; [simpl in Hf; lia|]. cbn [transition_from].
  rewrite run_transition_entries.
  assert (Hmem : ∀ x, x ∈ filter (λ i, settled_state (e_state (entry_at w r i)) = false) (seqZ 0 CAPACITY) →
    found = Some (0%nat, x)).
  { intros x [Hx Hx']%list_elem_of_filter. apply elem_of_seqZ in Hx'. rewrite (Hs 0%nat r x) in Hx by (done || lia).
    apply negb_false_iff in Hx. by bools. }
  destruct (filter _ _) as [|x l] eqn:E.
  - simpl in Hu, Hf. rewrite (run_step_walk _ _ _ _ _ _ Hc) by lia. cbn [lookup list_lookup].
    assert (Hne : ∀ i, found ≠ Some (0%nat, i)).
    { intros i ->. destruct (Hin 0%nat i eq_refl) as [_ Hi].
      assert (Hx : i ∈ filter (λ i, settled_state (e_state (entry_at w r i)) = false) (seqZ 0 CAPACITY)).
      { apply list_elem_of_filter. split; [|apply elem_of_seqZ; lia]. rewrite (Hs 0%nat r i) by done.
        by rewrite bool_decide_true. }
      rewrite E in Hx. by apply not_elem_of_nil in Hx. }
    destruct rs' as [|r1 rs'].
    + destruct found as [[[|n] i]|]; [by destruct (Hne i)| |done].
      destruct (Hin _ _ eq_refl) as [Hn _]. simpl in Hn. lia.
    + cbn [lookup list_lookup]. destruct found as [[[|n] i]|]; [by destruct (Hne i)| |].
      * rewrite (IH r1 (r1 :: rs') (index + 1) (Some (n, i))); [|by eapply chain_tail|simpl in *; lia|simpl in *; lia| |].
        -- do 4 f_equal. f_equal. lia.
        -- intros n' r' i' Hn Hi. rewrite (Hs (S n') r' i') by done. f_equal. apply bool_decide_ext.
           split; intros [= -> ->]; done.
        -- intros n' i' [= <- <-]. destruct (Hin _ _ eq_refl) as [Hn ?]. simpl in *. split; [lia|done].
      * apply (IH r1 (r1 :: rs') (index + 1) None); [by eapply chain_tail|simpl in *; lia|simpl in *; lia| |done].
        intros n' r' i' Hn Hi. by rewrite (Hs (S n') r' i').
  - rewrite (Hmem x) by left. by rewrite Z.add_0_r.
Qed.

Lemma run_reserve_entries w r index todo next s :
  run (reserve_entries r index todo next) w = (Some (Ok s), w) →
  (∃ i, i ∈ todo ∧ s = mkSlot index i (Z.shiftr (e_state (entry_at w r i)) STATE_BITS + 1) (e_state (entry_at w r i)) ∧
    Z.land (e_state (entry_at w r i)) STATE_MASK = VACANT ∧
    Z.shiftr (e_state (entry_at w r i)) STATE_BITS ≠ GENERATION_MAX) ∨
  run next w = (Some (Ok s), w).
Proof.
  induction todo as [|i todo IH]; cbn [reserve_entries]; [by right|]. rewrite run_act. cbn [load_state fst snd].
  assert (Hskip : (run (reserve_entries r index todo next) w = (Some (Ok s), w)) →
    (∃ i', i' ∈ i :: todo ∧ s = mkSlot index i' (Z.shiftr (e_state (entry_at w r i')) STATE_BITS + 1) (e_state (entry_at w r i')) ∧
    Z.land (e_state (entry_at w r i')) STATE_MASK = VACANT ∧
    Z.shiftr (e_state (entry_at w r i')) STATE_BITS ≠ GENERATION_MAX) ∨ run next w = (Some (Ok s), w)).
  { intros Hr. destruct (IH Hr) as [(i' & Hi & ?)|?]; [left; exists i'; split; [by right|done]|by right]. }
  destruct (Z.eqb_spec (Z.land (e_state (entry_at w r i)) STATE_MASK) VACANT) as [Hv|]; cbn [negb]; [|done].
  destruct (Z.eqb_spec (Z.shiftr (e_state (entry_at w r i)) STATE_BITS) GENERATION_MAX); cbn [negb]; [done|].
  cbn [run]. intros [= <-]. left. exists i. split; [by left|done].
Qed.

Lemma reserve_from_S fuel r index :
  reserve_from rg (S fuel) r index =
    reserve_entries (H := H) r index (seqZ 0 CAPACITY) (step_walk rg r index (Err Full) (reserve_from rg fuel)).
Proof. reflexivity. Qed.

(** A slot that [reserve] offers is vacant, in the chain, with a generation
    left. *)
Lemma run_reserve_from w fuel r rs index s :
  chain w r rs → run (reserve_from rg fuel r index) w = (Some (Ok s), w) →
  ∃ n r', rs !! n = Some r' ∧ slot_slab s = index + Z.of_nat n ∧ 0 ≤ slot_entry s < CAPACITY ∧
    slot_vacant s = e_state (entry_at w r' (slot_entry s)) ∧
    Z.land (slot_vacant s) STATE_MASK = VACANT ∧
    Z.shiftr (slot_vacant s) STATE_BITS ≠ GENERATION_MAX ∧
    slot_generation s = Z.shiftr (slot_vacant s) STATE_BITS + 1.
Proof.
  revert r rs index. induction fuel as [|fuel IH]; intros r rs index Hc Hr; [done|].
  rewrite reserve_from_S in Hr. apply run_reserve_entries in Hr as [(i & Hi & -> & Hv & Hg)|Hr].
  { destruct (chain_nonempty _ _ _ Hc) as [rs' ->]. apply elem_of_seqZ in Hi.
    exists 0%nat, r. cbn [slot_slab slot_entry slot_vacant slot_generation].
    split; [done|]. split; [lia|]. split; [lia|]. split; [done|]. split; [exact Hv|]. split; [exact Hg|done]. }
  unfold step_walk in Hr. rewrite run_bind in Hr. destruct (run_next_slab _ _ _ Hc) as [E _]. rewrite E in Hr.
  destruct (chain_nonempty _ _ _ Hc) as [rs' ->]. cbn [lookup list_lookup] in Hr.
  destruct rs' as [|r1 rs']; [done|]. cbn [lookup list_lookup] in Hr. destruct (_ <? _); [done|].
  destruct (IH r1 (r1 :: rs') (index + 1)) as (n & r' & Hn & Hsl & ?); [by eapply chain_tail|done|].
  exists (S n), r'. split; [exact Hn|]. split; [lia|assumption].
Qed.

(** Walks see only the slabs. *)
Lemma reserve_same w w' fuel r index :
  (∀ r, slab_at w' r = slab_at w r) →
  (run (reserve_from rg fuel r index) w').1 = (run (reserve_from rg fuel r index) w).1.
Proof.
  intros Hs. revert r index. induction fuel as [|fuel IH]; intros r index; [done|]. cbn [reserve_from].
  generalize (seqZ 0 CAPACITY). intros todo. induction todo as [|i todo IHt]; cbn [reserve_entries].
  - unfold step_walk, next_slab. rewrite !run_bind, !run_act. cbn [load_next fst snd run]. rewrite Hs.
    destruct (_ =? 0); [done|]. destruct (ref_at _ _ _); [|done]. destruct (_ <? _); [done|apply IH].
  - rewrite !run_act. cbn [load_state fst snd]. unfold entry_at. rewrite Hs. repeat case_match; done.
Qed.
End Walk.
