(* ===== verification/DirCrash.v ===== *)
(** * Crashes in the middle of a directory operation

    A participant dies after any number of its accesses inside [create_in] or
    [remove_in]; a live one then recovers the transaction.  Every state on the
    way is described by a few fields over the directory as it was before. *)

From S2P Require Import Prelude Atomic Alloc Bytes Schema Header Mem Heap Dir DirWalk.

(** ** States during one operation *)

Section States.
Context {H : Type} `{HO : HeapOps H}.
Abbreviation W := (world H).

(** The directory before: its slabs, and the place of the entry worked on. *)
Context (root0 : Slab) (slabs0 : gmap Z Slab) (r : SlabRef) (i : Z).

(** What changes during the operation: the transaction word, what it records,
    the entry, the headers, the mutation word and the heap. *)
Definition canon (tx ps pe pk : Z) (pm : Meta) (e : Entry) (hd : gmap Z (record * Z)) (mu : Z) (h : H) : W :=
  set_entry r i e (mkWorld (mkDirectory tx ps pe pk pm root0) slabs0 hd mu h).

Definition slab0 (r' : SlabRef) : Slab :=
  match r' with SRoot => root0 | SLinked o => default (mkSlab 0 []) (slabs0 !! o) end.

Definition entry0 (r' : SlabRef) (i' : Z) : Entry :=
  default Entry_vacant (s_entries (slab0 r') !! Z.to_nat i').

Context (Hlen : (Z.to_nat i < length (s_entries (slab0 r)))%nat).

Section Fields.
Context (tx ps pe pk : Z) (pm : Meta) (e : Entry) (hd : gmap Z (record * Z)) (mu : Z) (h : H).
Abbreviation c := (canon tx ps pe pk pm e hd mu h).

Lemma canon_tx : transaction (w_dir c) = tx.
Proof using. clear Hlen. unfold canon. by destruct r. Qed.
Lemma canon_ps : pending_slab (w_dir c) = ps.
Proof using. clear Hlen. unfold canon. by destruct r. Qed.
Lemma canon_pe : pending_entry (w_dir c) = pe.
Proof using. clear Hlen. unfold canon. by destruct r. Qed.
Lemma canon_pk : pending_kind (w_dir c) = pk.
Proof using. clear Hlen. unfold canon. by destruct r. Qed.
Lemma canon_pm : pending (w_dir c) = pm.
Proof using. clear Hlen. unfold canon. by destruct r. Qed.
Lemma canon_hd : w_headers c = hd.
Proof using. clear Hlen. unfold canon. by destruct r. Qed.
Lemma canon_mu : w_mutation c = mu.
Proof using. clear Hlen. unfold canon. by destruct r. Qed.
Lemma canon_heap : w_heap c = h.
Proof using. clear Hlen. unfold canon. by destruct r. Qed.

Lemma canon_set_tx v : set_transaction v c = canon v ps pe pk pm e hd mu h.
Proof using. clear Hlen. unfold canon. by destruct r. Qed.
Lemma canon_set_mu v : with_mutation v c = canon tx ps pe pk pm e hd v h.
Proof using. clear Hlen. unfold canon. by destruct r. Qed.
Lemma canon_set_heap v : with_heap v c = canon tx ps pe pk pm e hd mu v.
Proof using. clear Hlen. unfold canon. by destruct r. Qed.
Lemma canon_set_header o x : with_header o x c = canon tx ps pe pk pm e (<[o := x]> hd) mu h.
Proof using. clear Hlen. unfold canon. by destruct r. Qed.

Lemma canon_slab r' : slab_at c r' =
  if decide (r' = r) then mkSlab (s_next (slab0 r)) (<[Z.to_nat i := e]> (s_entries (slab0 r))) else slab0 r'.
Proof using.
  clear Hlen. unfold canon, set_entry. destruct r as [|o], r' as [|o']; simpl; try done.
  destruct (decide (o' = o)) as [->|Hne].
  - rewrite lookup_insert_eq. by rewrite decide_True.
  - rewrite lookup_insert_ne by done. rewrite decide_False; [done|]. congruence.
Qed.

Lemma canon_next r' : s_next (slab_at c r') = s_next (slab0 r').
Proof using. rewrite canon_slab. by case_decide; subst. Qed.

Lemma canon_entry : entry_at c r i = e.
Proof using Hlen.
  unfold entry_at. rewrite canon_slab, decide_True by done. simpl. by rewrite list_lookup_insert_eq.
Qed.

Lemma canon_other r' i' : 0 ≤ i → 0 ≤ i' → (r', i') ≠ (r, i) → entry_at c r' i' = entry0 r' i'.
Proof using.
  intros Hi0 Hi' Hne. unfold entry_at. rewrite canon_slab. case_decide as E; [|done]. subst r'. simpl.
  rewrite list_lookup_insert_ne; [done|]. intros E. apply Hne. f_equal. clear - Hi0 Hi' E. lia.
Qed.

Lemma canon_set_entry e' : set_entry r i e' c = canon tx ps pe pk pm e' hd mu h.
Proof using.
  unfold set_entry at 1. rewrite canon_slab, decide_True by done. cbn [s_next s_entries].
  rewrite list_insert_insert_eq. unfold canon, set_entry. clear Hlen. destruct r as [|o]; simpl; [done|].
  unfold with_slabs. simpl. by rewrite insert_insert_eq.
Qed.

(** *** The accesses *)

(** The stores of [Transaction::persist]. *)
Lemma canon_pend tx' ps' pe' pk' pm' :
  with_dir (mkDirectory tx' ps' pe' pk' pm' (root_slab (w_dir c))) c = canon tx' ps' pe' pk' pm' e hd mu h.
Proof using. clear Hlen. unfold canon. by destruct r. Qed.

Lemma act_load_tx : load_transaction c = (tx, c).
Proof using. unfold load_transaction. by rewrite canon_tx. Qed.
Lemma act_store_tx v : store_transaction v c = (tt, canon v ps pe pk pm e hd mu h).
Proof using. unfold store_transaction. by rewrite canon_set_tx. Qed.
Lemma act_clear o : clear_pending o c = (tt, canon (owner_word o HELD) ps pe pk pm e hd mu h).
Proof using. apply act_store_tx. Qed.
Lemma act_cas_tx old new :
  cas_transaction old new c =
    if tx =? old then (Ok tt, canon new ps pe pk pm e hd mu h) else (Err tx, c).
Proof using. unfold cas_transaction. by rewrite canon_tx, canon_set_tx. Qed.
Lemma act_load_state : load_state r i c = (e_state e, c).
Proof using Hlen. unfold load_state. by rewrite canon_entry. Qed.
Lemma act_store_state v : store_state r i v c = (tt, canon tx ps pe pk pm (mkEntry v (e_offset e)) hd mu h).
Proof using Hlen. unfold store_state. by rewrite canon_entry, canon_set_entry. Qed.
Lemma act_store_offset v : store_offset r i v c = (tt, canon tx ps pe pk pm (mkEntry (e_state e) v) hd mu h).
Proof using Hlen. unfold store_offset. by rewrite canon_entry, canon_set_entry. Qed.
Lemma act_load_pending : load_pending c = (pm, c).
Proof using. unfold load_pending. by rewrite canon_pm. Qed.
Lemma act_load_mu : load_mutation c = (mutation_state_of mu, c).
Proof using. unfold load_mutation. by rewrite canon_mu. Qed.
Lemma act_mu_commit : mutation_commit c = (tt, canon tx ps pe pk pm e hd MUTATION_CLEAN h).
Proof using. unfold mutation_commit. by rewrite canon_set_mu. Qed.
Lemma act_free m n :
  deallocate_during m n c = (tt, canon tx ps pe pk pm e hd mu (talc_deallocate (start_offset (view m)) n h)).
Proof using. unfold deallocate_during. by rewrite canon_heap, canon_set_heap. Qed.
End Fields.

(** ** Recovery from each of them *)

Section Recover.
(** The live participant, and the place of the entry in the chain. *)
Context (rg : Region) (heap_base : Z) (heap_region : RegionId) (fuel : nat) (rs : list SlabRef) (k : nat) (d : Z).
Abbreviation l := (me rg).

Record scene : Prop := {
  sc_region : rg_region rg = heap_region;
  sc_live : 0 ≤ me rg < PARTICIPANT_CAPACITY;
  sc_dead : 0 ≤ d < PARTICIPANT_CAPACITY;
  sc_entry : 0 ≤ i < CAPACITY;
  sc_chain (w : W) : (∀ r', s_next (slab_at w r') = s_next (slab0 r')) → chain rg w SRoot rs;
  sc_fuel : (length rs ≤ fuel)%nat;
  sc_index : Z.of_nat (length rs) ≤ u32_max;
  sc_place : rs !! k = Some r;
  sc_nodup : NoDup rs;
  sc_settled n r' i' : rs !! n = Some r' → 0 ≤ i' < CAPACITY → (r', i') ≠ (r, i) →
    settled_state (e_state (entry0 r' i')) = true;
}.
Context (Hsc : scene).

Lemma run_entry_canon tx ps pe pk pm e hd mu h :
  run (entry rg (Z.of_nat k) i) (canon tx ps pe pk pm e hd mu h) =
    (Ok (r, i), canon tx ps pe pk pm e hd mu h).
Proof using Hsc Hlen.
  destruct Hsc. eapply run_entry; [apply sc_chain0; intros; apply canon_next|lia|by rewrite Nat2Z.id|done].
Qed.

Lemma run_transition_canon tx ps pe pk pm e hd mu h b :
  settled_state (e_state e) = b →
  run (transition rg fuel) (canon tx ps pe pk pm e hd mu h) =
    (Some (Ok (if b then None else Some (Z.of_nat k, i))), canon tx ps pe pk pm e hd mu h).
Proof using Hsc Hlen.
  intros Hb. destruct Hsc. unfold transition.
  rewrite (run_transition_from rg _ _ _ rs 0 (if b then None else Some (k, i))).
  - destruct b; [done|]. by rewrite Z.add_0_l.
  - apply sc_chain0. intros. apply canon_next.
  - done.
  - lia.
  - intros n r' i' Hn Hi'. destruct (decide ((r', i') = (r, i))) as [E|Hne].
    + injection E as -> ->. rewrite canon_entry, Hb. assert (n = k) as -> by (by eapply NoDup_lookup).
      destruct b; [done|]. by rewrite bool_decide_true.
    + rewrite canon_other by (done || lia). rewrite (sc_settled0 n) by done. symmetry. apply negb_true_iff.
      apply bool_decide_false. destruct b; [done|]. intros E. injection E as -> ->. apply Hne. congruence.
  - intros n i' E. destruct b; [done|]. injection E as <- <-. split; [by eapply lookup_lt_Some|done].
Qed.

Lemma act_begin_mutation rg' tx ps pe pk pm e hd h :
  run (begin_mutation rg') (canon tx ps pe pk pm e hd MUTATION_CLEAN h) =
    (Ok tt, canon tx ps pe pk pm e hd (mutation_owner_word (me rg')) h).
Proof using. unfold begin_mutation. rewrite run_act, canon_mu. cbn. by rewrite canon_set_mu. Qed.

(** Symbolic execution over the states. *)
(** One access of a program whose states are watched. *)
Ltac next := cbn [always bind]; split; [|rewrite ?run_act; cbn [fst snd]].

Ltac is_name x :=
  first [constr_eq x HELD | constr_eq x EVIDENCE | constr_eq x ROLLING_BACK | constr_eq x CREATE
        | constr_eq x REMOVE | constr_eq x GROW | constr_eq x VACANT | constr_eq x PENDING
        | constr_eq x PUBLISHED | constr_eq x CLOSING | constr_eq x REMOVING | constr_eq x RELEASED
        | constr_eq x QUARANTINED | constr_eq x MUTATION_CLEAN | constr_eq x MUTATION_POISONED].

Ltac consts :=
  match goal with
  | |- context [?a =? ?b] =>
    is_name a; is_name b;
    let v := eval vm_compute in (a =? b) in change (a =? b) with v
  end.

Ltac crun :=
  repeat first
    [ rewrite run_bind | rewrite run_act
    | progress cbn [run fst snd is_ok map_err negb andb orb]
    | rewrite act_load_tx | rewrite act_cas_tx | rewrite act_clear | rewrite act_store_tx
    | rewrite act_load_state | rewrite act_store_state | rewrite act_store_offset
    | rewrite act_load_pending | rewrite act_load_mu | rewrite act_mu_commit | rewrite act_free | rewrite act_begin_mutation
    | progress change (mutation_state_of MUTATION_CLEAN) with MClean
    | progress change (mutation_state_of MUTATION_POISONED) with MPoisoned
    | rewrite canon_pk | rewrite canon_ps | rewrite canon_pe | rewrite Z.eqb_refl | consts ].

(** The mutation word after recovery has looked at it. *)
Definition mu_after (mu : Z) : Z := if mu =? mutation_owner_word d then MUTATION_POISONED else mu.

(** The mutation words of the time: clean, the dead one's, or poisoned. *)
Definition mu_known (mu : Z) : Prop := mu = MUTATION_CLEAN ∨ mu = mutation_owner_word d ∨ mu = MUTATION_POISONED.

Lemma mu_state mu : mu_known mu →
  mutation_state_of mu = if mu =? mutation_owner_word d then MOwned d
                         else if mu =? MUTATION_CLEAN then MClean else MPoisoned.
Proof using Hsc Hlen.
  destruct Hsc. intros [->|[->| ->]].
  - unfold mutation_owner_word, MUTATION_CLEAN. destruct (Z.eqb_spec 0 (d + 1)); [lia|done].
  - rewrite Z.eqb_refl. by apply mutation_state_owner.
  - unfold mutation_owner_word. unfold PARTICIPANT_CAPACITY, usize_bits in *. change MUTATION_POISONED with 18446744073709551615.
    destruct (Z.eqb_spec 18446744073709551615 (d + 1)); [lia|done].
Qed.

Lemma act_poison tx ps pe pk pm e hd mu h :
  poison_owner d (canon tx ps pe pk pm e hd mu h) =
    (mu =? mutation_owner_word d, canon tx ps pe pk pm e hd (mu_after mu) h).
Proof using.
  unfold poison_owner, poison_mutation, mu_after. rewrite canon_mu. destruct (mu =? _); by rewrite canon_set_mu.
Qed.

(** Held, and no entry in transition. *)
Lemma recover_held_settled debug ps pe pk pm e hd mu h :
  mu_known mu → settled_state (e_state e) = true →
  run (recover rg heap_base heap_region debug fuel d) (canon (owner_word d HELD) ps pe pk pm e hd mu h) =
    (Some (Ok (if mu =? mutation_owner_word d then Quarantined else RolledBack)),
     canon CLEAN ps pe pk pm e hd (mu_after mu) h).
Proof using Hsc Hlen.
  intros Hmu He. destruct Hsc. unfold recover. rewrite bool_decide_true by done. crun.
  rewrite owner_word_clean, holder_owner_word, phase_owner_word by (done || lia). crun.
  rewrite (run_transition_canon _ _ _ _ _ _ _ _ _ true) by done. crun.
  rewrite (mu_state mu) by done. unfold mu_after.
  destruct (mu =? mutation_owner_word d) eqn:E.
  - rewrite bool_decide_true by done. crun. rewrite act_poison. unfold transfer_and_clear, transfer, tx_commit. crun.
    unfold mu_after. by rewrite E.
  - rewrite bool_decide_false by (destruct (mu =? MUTATION_CLEAN); discriminate). unfold transfer_and_clear, transfer, tx_commit. crun. done.
Qed.

Lemma recover_late debug phase kind pe pm e hd mu h :
  (phase = EVIDENCE ∨ phase = ROLLING_BACK) → kind ≠ GROW → pe = i →
  run (recover rg heap_base heap_region debug fuel d)
      (canon (owner_word d phase) (Z.of_nat k) pe kind pm e hd mu h) =
  run (recover_entry rg heap_base debug d (owner_word d phase) phase kind r i)
      (canon (owner_word d phase) (Z.of_nat k) pe kind pm e hd mu h).
Proof using Hsc Hlen.
  intros Hp Hk ->. destruct Hsc. unfold recover. rewrite bool_decide_true by done.
  assert (Hph : 0 ≤ phase < 4) by (destruct Hp as [-> | ->]; done).
  assert (Hl : (phase =? EVIDENCE) || (phase =? ROLLING_BACK) = true) by (by destruct Hp as [-> | ->]).
  crun. rewrite owner_word_clean, holder_owner_word, phase_owner_word by (done || lia). crun. rewrite Hl.
  destruct (Z.eqb_spec kind GROW); [done|]. crun.
  assert (Hkw : wrap 32 (Z.of_nat k) = Z.of_nat k).
  { apply wrap_small. apply lookup_lt_Some in sc_place0. unfold is_word, u32_max in *. lia. }
  rewrite Hkw, run_entry_canon. crun. done.
Qed.

Lemma recover_held_transition debug ps pe pk pm e hd mu h :
  settled_state (e_state e) = false →
  run (recover rg heap_base heap_region debug fuel d) (canon (owner_word d HELD) ps pe pk pm e hd mu h) =
  run (recover_entry rg heap_base debug d (owner_word d HELD) HELD pk r i)
      (canon (owner_word d HELD) ps pe pk pm e hd mu h).
Proof using Hsc Hlen.
  intros He. destruct Hsc. unfold recover. rewrite bool_decide_true by done. crun.
  rewrite owner_word_clean, holder_owner_word, phase_owner_word by (done || lia). crun.
  rewrite (run_transition_canon _ _ _ _ _ _ _ _ _ false) by done. crun.
  rewrite run_entry_canon. crun. done.
Qed.

(** The transaction word [quarantine] leaves: clean when debug assertions are on;
    without them its [commit] is not compiled, and the transaction is dropped. *)
Definition quarantined_tx (debug : bool) (phase : Z) : Z :=
  if debug then CLEAN else owner_word l (if phase =? EVIDENCE then ROLLING_BACK else phase).

Lemma run_quarantine debug phase ps pe pk pm g st o hd mu h :
  (phase = HELD ∨ phase = EVIDENCE ∨ phase = ROLLING_BACK) → gen_ok g → 0 ≤ st < 8 →
  run (quarantine rg debug (owner_word d phase) r i)
      (canon (owner_word d phase) ps pe pk pm (mkEntry (entry_word g st) o) hd mu h) =
    (Some (Ok Quarantined), canon (quarantined_tx debug phase) ps pe pk pm (mkEntry (entry_word g QUARANTINED) o) hd mu h).
Proof using Hsc Hlen.
  intros Hp Hg Hs. destruct Hsc.
  assert (Hph : 0 ≤ phase < 4) by (destruct Hp as [->|[->| ->]]; done).
  unfold quarantine. rewrite word_owner_word, phase_owner_word by done. unfold transfer, tx_commit, tx_drop, quarantined_tx. crun.
  cbn [e_state e_offset]. rewrite entry_gen by done. destruct debug; crun; [done|]. destruct Hp as [->|[->| ->]]; crun; done.
Qed.

(** An entry in creation, held without evidence. *)
Lemma recover_held_pending debug ps pe pk pm g o hd mu h :
  mu_known mu → gen_ok g → 1 ≤ g →
  run (recover rg heap_base heap_region debug fuel d)
      (canon (owner_word d HELD) ps pe pk pm (mkEntry (entry_word g PENDING) o) hd mu h) =
    (Some (Ok RolledBack),
     canon CLEAN ps pe pk pm (mkEntry (entry_word (g - 1) VACANT) o) hd (mu_after mu) h).
Proof using Hsc Hlen.
  intros Hmu Hg Hg1. destruct Hsc.
  rewrite recover_held_transition by (cbn [e_state]; by rewrite settled_word).
  unfold recover_entry. crun. cbn [e_state]. rewrite entry_state, entry_gen by done.
  assert (Hk : ∀ b : bool, b && false = false) by (by intros []). crun. rewrite !Hk. crun.
  rewrite (mu_state mu) by done. unfold mu_after.
  destruct (mu =? mutation_owner_word d) eqn:E.
  - rewrite bool_decide_true by done. crun. rewrite act_poison. unfold mu_after. rewrite E. crun. rewrite ?Hk. crun.
    destruct (Z.eqb_spec g 0); [lia|]. unfold transfer, tx_commit. crun. done.
  - rewrite bool_decide_false by (destruct (mu =? MUTATION_CLEAN); discriminate). crun. rewrite ?Hk. crun.
    destruct (Z.eqb_spec g 0); [lia|]. unfold transfer, tx_commit. crun. done.
Qed.

(** An entry in creation whose block is on record. *)
Lemma recover_pending_clean debug phase pm g o hd h :
  phase = EVIDENCE ∨ phase = ROLLING_BACK → gen_ok g → 1 ≤ g →
  run (recover rg heap_base heap_region debug fuel d)
      (canon (owner_word d phase) (Z.of_nat k) i CREATE pm (mkEntry (entry_word g PENDING) o) hd MUTATION_CLEAN h) =
    (Some (Ok RolledBack),
     canon CLEAN (Z.of_nat k) i CREATE pm (mkEntry (entry_word (g - 1) VACANT) o) hd MUTATION_CLEAN
       (talc_deallocate (start_offset (view pm)) (span_size (view pm)) h)).
Proof using Hsc Hlen.
  intros Hph Hg Hg1. destruct Hsc. rewrite recover_late by done.
  assert (Hl : (phase =? EVIDENCE) || (phase =? ROLLING_BACK) = true) by (by destruct Hph as [-> | ->]).
  assert (Hh : (phase =? HELD) = false) by (by destruct Hph as [-> | ->]).
  unfold recover_entry. rewrite Hl. crun. cbn [e_state]. rewrite entry_state, entry_gen by done. crun.
  rewrite bool_decide_false by discriminate. crun. rewrite Hh. crun.
  destruct (Z.eqb_spec g 0); [lia|]. unfold claim_heap_and_transfer, transfer, tx_commit. crun. done.
Qed.

(** The same while the dead one was still mutating the heap. *)
Lemma recover_pending_busy debug pm g o hd mu h :
  gen_ok g → mu = mutation_owner_word d ∨ mu = MUTATION_POISONED →
  run (recover rg heap_base heap_region debug fuel d)
      (canon (owner_word d EVIDENCE) (Z.of_nat k) i CREATE pm (mkEntry (entry_word g PENDING) o) hd mu h) =
    (Some (Ok Quarantined),
     canon (quarantined_tx debug EVIDENCE) (Z.of_nat k) i CREATE pm (mkEntry (entry_word g QUARANTINED) o) hd MUTATION_POISONED h).
Proof using Hsc Hlen.
  intros Hg Hmu. destruct Hsc. rewrite recover_late by (by left || done).
  unfold recover_entry. crun. cbn [e_state]. rewrite entry_state, entry_gen by done. crun.
  destruct Hmu as [-> | ->].
  - rewrite (mu_state (mutation_owner_word d)) by (by right; left). crun. rewrite bool_decide_true by done. crun.
    rewrite act_poison. unfold mu_after. crun. rewrite run_quarantine by (done || by right; left). crun. done.
  - crun. rewrite bool_decide_false by discriminate. crun.
    rewrite run_quarantine by (done || by right; left). crun. done.
Qed.

(** A creation whose entry is settled already, its record still there. *)
Lemma recover_create_settled debug pm g st o hd mu h :
  gen_ok g → st = PUBLISHED ∨ st = VACANT → mu_known mu →
  run (recover rg heap_base heap_region debug fuel d)
      (canon (owner_word d EVIDENCE) (Z.of_nat k) i CREATE pm (mkEntry (entry_word g st) o) hd mu h) =
    (Some (Ok Quarantined),
     canon (quarantined_tx debug EVIDENCE) (Z.of_nat k) i CREATE pm (mkEntry (entry_word g QUARANTINED) o) hd (mu_after mu) h).
Proof using Hsc Hlen.
  intros Hg Hst Hmu. destruct Hsc. rewrite recover_late by (by left || done).
  assert (Hs8 : 0 ≤ st < 8) by (destruct Hst as [-> | ->]; done).
  unfold recover_entry. crun. cbn [e_state]. rewrite entry_state, entry_gen by done.
  rewrite (mu_state mu) by done. unfold mu_after.
  assert (Hp : (st =? PENDING) = false) by (by destruct Hst as [-> | ->]). crun. rewrite Hp. crun.
  destruct (mu =? mutation_owner_word d) eqn:E.
  - rewrite bool_decide_true by done. crun. rewrite act_poison. unfold mu_after. rewrite E. crun.
    by rewrite run_quarantine by (done || by right; left).
  - rewrite bool_decide_false by (destruct (mu =? MUTATION_CLEAN); discriminate). crun.
    by rewrite run_quarantine by (done || by right; left).
Qed.

Lemma mu_after_clean : mu_after MUTATION_CLEAN = MUTATION_CLEAN.
Proof using Hsc Hlen.
  destruct Hsc. unfold mu_after, mutation_owner_word, MUTATION_CLEAN. by destruct (Z.eqb_spec 0 (d + 1)); [lia|].
Qed.

Lemma mu_after_cases mu : mu_known mu → mu_after mu = MUTATION_POISONED ∨ mu = MUTATION_CLEAN ∧ mu_after mu = MUTATION_CLEAN.
Proof using Hsc Hlen.
  intros [->|[->| ->]]; [right; by rewrite mu_after_clean| |]; unfold mu_after.
  - left. by rewrite Z.eqb_refl.
  - left. by destruct (_ =? _).
Qed.

(** ** Creation *)

Section Create.
Context `{HL : !HeapLaws H} {T : Type} `{HT : SharedLayout T}.
(** The creator that dies, and what it creates. *)
Context (rgD : Region) (zeroed : RcHeader T) (conf : Config) (layout : Layout).
Context (g0 : Z) (h0 : H).

Record creation : Prop := {
  cr_owner : me rgD = d;
  cr_region : rg_region rgD = heap_region;
  cr_chain (w : W) : (∀ r', s_next (slab_at w r') = s_next (slab0 r')) → chain rgD w SRoot rs;
  cr_storage : storage conf = Some layout;
  cr_layout : layout_wf layout;
  cr_size : 0 < size layout;
  cr_gen : 0 ≤ g0 < GENERATION_MAX;
  cr_heap : heap_wf h0;
}.
Context (Hcr : creation).

(** What may be left of a creation once the transaction is settled: nothing;
    the published layout with its block; or a quarantined entry.  A block is
    out of the directory's sight only behind a quarantined entry or a poisoned
    heap. *)
Definition create_outcome (e : Entry) (mu : Z) (h : H) : Prop :=
  (e_state e = entry_word g0 VACANT ∧ (mu = MUTATION_CLEAN ∧ blocks h = blocks h0 ∨ mu = MUTATION_POISONED)) ∨
  (e_state e = entry_word (g0 + 1) PUBLISHED ∧ mu = MUTATION_CLEAN ∧
    ∃ o, e_offset e = heap_base + o ∧ blocks h0 !! o = None ∧ blocks h = <[o := size layout]> (blocks h0)) ∨
  ((∃ g, e_state e = entry_word g QUARANTINED) ∧
    (mu = MUTATION_POISONED ∨ mu = MUTATION_CLEAN ∧ ∃ o, blocks h = <[o := size layout]> (blocks h0))).

(** A directory whose transaction word is [tx], around one entry. *)
Definition settled (tx : Z) (out : Entry → Z → H → Prop) (w : W) : Prop :=
  transaction (w_dir w) = tx ∧ out (entry_at w r i) (w_mutation w) (w_heap w) ∧
  (∀ r', s_next (slab_at w r') = s_next (slab0 r')) ∧
  ∀ r' i', 0 ≤ i' → (r', i') ≠ (r, i) → entry_at w r' i' = entry0 r' i'.

(** After the recovery answered [v]: clean, or, without debug assertions, the word
    still with the recovering participant and the entry quarantined. *)
Definition recovered_to (debug : bool) (v : Recovered) (out : Entry → Z → H → Prop) (w : W) : Prop :=
  settled CLEAN out w ∨
  debug = false ∧ v = Quarantined ∧ ∃ phase, settled (owner_word l phase) (λ e mu h, out e mu h ∧ ∃ g, e_state e = entry_word g QUARANTINED) w.

(** Settled, or settled by recovery. *)
Definition recoverable (debug : bool) (out : Entry → Z → H → Prop) (w : W) : Prop :=
  settled CLEAN out w ∨
  ∃ v w', run (recover rg heap_base heap_region debug fuel d) w = (Some (Ok v), w') ∧ recovered_to debug v out w'.

Lemma canon_settled tx (out : Entry → Z → H → Prop) ps pe pk pm e hd mu h :
  out e mu h → settled tx out (canon tx ps pe pk pm e hd mu h).
Proof using Hsc Hlen.
  intros Ho. destruct Hsc. unfold settled. rewrite canon_tx, canon_entry, canon_mu, canon_heap.
  split_and!; [done|done|intros; apply canon_next|]. intros. apply canon_other; [lia|done|done].
Qed.

Context (debug : bool).
Abbreviation R := (recoverable debug create_outcome).

Lemma recovered (out : Entry → Z → H → Prop) w v ps pe pk pm e hd mu h :
  run (recover rg heap_base heap_region debug fuel d) w = (Some (Ok v), canon CLEAN ps pe pk pm e hd mu h) →
  out e mu h → recoverable debug out w.
Proof using Hsc Hlen. intros Hr Ho. right. eexists _, _. split; [exact Hr|]. left. by apply canon_settled. Qed.

Lemma quarantined (out : Entry → Z → H → Prop) w phase ps pe pk pm g o hd mu h :
  run (recover rg heap_base heap_region debug fuel d) w =
    (Some (Ok Quarantined), canon (quarantined_tx debug phase) ps pe pk pm (mkEntry (entry_word g QUARANTINED) o) hd mu h) →
  out (mkEntry (entry_word g QUARANTINED) o) mu h → recoverable debug out w.
Proof using Hsc Hlen.
  intros Hr Ho. right. eexists _, _. split; [exact Hr|]. unfold quarantined_tx, recovered_to. destruct debug; [left; by apply canon_settled|].
  right. split; [done|]. split; [done|]. eexists. apply canon_settled. split; [done|]. by eexists.
Qed.

Lemma gen0 : gen_ok g0 ∧ gen_ok (g0 + 1).
Proof using Hcr. destruct Hcr. unfold gen_ok. clear - cr_gen0. lia. Qed.

(** The four kinds of state on the way. *)
Lemma rec_vacant ps pe pk pm o hd mu h :
  mu_known mu → (mu = MUTATION_CLEAN → blocks h = blocks h0) →
  R (canon (owner_word d HELD) ps pe pk pm (mkEntry (entry_word g0 VACANT) o) hd mu h).
Proof using Hsc Hlen Hcr.
  intros Hmu Hb. destruct gen0 as [Hg _]. eapply recovered; [apply recover_held_settled; [done|]|].
  { cbn [e_state]. by rewrite settled_word. }
  left. split; [done|]. destruct (mu_after_cases mu Hmu) as [->|[E ->]]; [by right|left; by split; [|apply Hb]].
Qed.

Lemma rec_pending ps pe pk pm o hd mu h :
  mu_known mu → (mu = MUTATION_CLEAN → blocks h = blocks h0) →
  R (canon (owner_word d HELD) ps pe pk pm (mkEntry (entry_word (g0 + 1) PENDING) o) hd mu h).
Proof using Hsc Hlen Hcr.
  intros Hmu Hb. destruct gen0 as [_ Hg]. destruct (Hcr) as [_ _ _ _ _ _ [Hg0 _] _].
  eapply recovered; [apply recover_held_pending; [done|done|clear - Hg0; lia]|].
  replace (g0 + 1 - 1) with g0 by (clear; lia).
  left. split; [done|]. destruct (mu_after_cases mu Hmu) as [->|[E ->]]; [by right|left; by split; [|apply Hb]].
Qed.

Lemma rec_evidence phase pm o hd mu h :
  phase = EVIDENCE ∨ phase = ROLLING_BACK ∧ mu = MUTATION_CLEAN →
  mu = mutation_owner_word d ∨
    mu = MUTATION_CLEAN ∧ blocks (talc_deallocate (start_offset (view pm)) (span_size (view pm)) h) = blocks h0 →
  R (canon (owner_word d phase) (Z.of_nat k) i CREATE pm (mkEntry (entry_word (g0 + 1) PENDING) o) hd mu h).
Proof using Hsc Hlen Hcr.
  intros Hph Hmu. destruct gen0 as [_ Hg]. destruct (Hcr) as [_ _ _ _ _ _ [Hg0 _] _]. destruct (Hsc).
  destruct Hmu as [->|[-> Hb]].
  - destruct Hph as [->|[_ E]]; [|unfold MUTATION_CLEAN, mutation_owner_word in E; lia].
    eapply quarantined; [apply recover_pending_busy; [done|by left]|]. right. right. split; [by eexists|by left].
  - eapply recovered; [apply recover_pending_clean; [tauto|done|clear - Hg0; lia]|].
    replace (g0 + 1 - 1) with g0 by (clear; lia). left. split; [done|by left].
Qed.

Lemma rec_done ps pe pk pm o hd h :
  blocks h0 !! o = None → blocks h = <[o := size layout]> (blocks h0) →
  R (canon (owner_word d EVIDENCE) (Z.of_nat k) i CREATE pm (mkEntry (entry_word (g0 + 1) PUBLISHED) (heap_base + o)) hd MUTATION_CLEAN h) ∧
  R (canon (owner_word d HELD) ps pe pk pm (mkEntry (entry_word (g0 + 1) PUBLISHED) (heap_base + o)) hd MUTATION_CLEAN h) ∧
  R (canon CLEAN ps pe pk pm (mkEntry (entry_word (g0 + 1) PUBLISHED) (heap_base + o)) hd MUTATION_CLEAN h).
Proof using Hsc Hlen Hcr.
  intros Hn Hb. destruct gen0 as [_ Hg].
  assert (Hmu : mu_known MUTATION_CLEAN) by (by left).
  assert (Ha := mu_after_clean).
  assert (Hout : create_outcome (mkEntry (entry_word (g0 + 1) PUBLISHED) (heap_base + o)) MUTATION_CLEAN h).
  { right. left. split; [done|]. split; [done|]. by exists o. }
  split_and!.
  - eapply quarantined; [apply recover_create_settled; [done|by left|done]|]. rewrite Ha. right. right.
    split; [by eexists|]. right. split; [done|by eexists].
  - eapply recovered; [apply recover_held_settled; [done|cbn [e_state]; by rewrite settled_word]|]. by rewrite Ha.
  - left. by apply canon_settled.
Qed.

Lemma rec_restored ps pe pk pm o hd h :
  blocks h = blocks h0 → R (canon CLEAN ps pe pk pm (mkEntry (entry_word g0 VACANT) o) hd MUTATION_CLEAN h).
Proof using Hsc Hlen. intros Hb. left. apply canon_settled. left. split; [done|by left]. Qed.

Lemma busy_not_clean : mutation_owner_word d = MUTATION_CLEAN → False.
Proof using Hsc. destruct Hsc. clear - sc_dead0. unfold mutation_owner_word, MUTATION_CLEAN. lia. Qed.

Lemma rec_pending_busy ps pe pk pm o hd h :
  R (canon (owner_word d HELD) ps pe pk pm (mkEntry (entry_word (g0 + 1) PENDING) o) hd (mutation_owner_word d) h).
Proof using Hsc Hlen Hcr. apply rec_pending; [by right; left|]. by intros ?%busy_not_clean. Qed.

(** Giving up before the block is on record: the heap is let go, the entry is
    vacant again, the transaction ends. *)
Lemma give_up_always A (a : A) ps pe pk pm o hd h :
  blocks h = blocks h0 →
  always (act_ mutation_commit; act_ (store_state r i (entry_word g0 VACANT)); do _ <- tx_commit d HELD; Ret a) R
    (canon (owner_word d HELD) ps pe pk pm (mkEntry (entry_word (g0 + 1) PENDING) o) hd (mutation_owner_word d) h).
Proof using Hsc Hlen Hcr.
  intros Hb. next; [apply rec_pending_busy|]. rewrite act_mu_commit. cbn [fst snd].
  next; [apply rec_pending; [by left|done]|]. rewrite act_store_state. cbn [fst snd e_offset].
  unfold tx_commit. next; [apply rec_vacant; [by left|done]|]. rewrite act_cas_tx, Z.eqb_refl. cbn [fst snd always].
  by apply rec_restored.
Qed.

(** The states of [begin_mutation] on a clean heap. *)
Lemma begin_always P tx ps pe pk pm e hd h :
  me rgD = d → P (canon tx ps pe pk pm e hd MUTATION_CLEAN h) →
  P (canon tx ps pe pk pm e hd (mutation_owner_word d) h) →
  always (begin_mutation rgD) P (canon tx ps pe pk pm e hd MUTATION_CLEAN h).
Proof using.
  intros Hme H1 H2. unfold begin_mutation. cbn [always]. split; [done|]. rewrite canon_mu. cbn. by rewrite canon_set_mu, Hme.
Qed.

(** The accesses on the new header change the headers and nothing else. *)
Lemma on_fresh_canon {A} (p : prog (RcHeader T) A) hz offset (P : W → Prop) tx ps pe pk pm e hd mu h :
  (∀ hd', P (canon tx ps pe pk pm e hd' mu h)) →
  ∃ hd', always (on_fresh offset p hz) P (canon tx ps pe pk pm e hd mu h) ∧
    run (on_fresh offset p hz) (canon tx ps pe pk pm e hd mu h) = ((run p hz).1, canon tx ps pe pk pm e hd' mu h).
Proof using.
  intros HP. revert hz hd. induction p as [a|B f c IH]; intros hz hd; cbn [on_fresh].
  - exists hd. split; [apply HP|done].
  - cbn [always]. rewrite !run_act. destruct (f hz) as [b h'] eqn:Ef. cbn [fst snd]. rewrite canon_set_header.
    destruct (IH b h' (<[offset := (h_record h', h_members h')]> hd)) as (hd' & H1 & H2). exists hd'. split; [by split; [apply HP|]|exact H2].
Qed.

(** From the admission on. *)
Lemma create_admitted_always o hd o0 h1 :
  blocks h0 !! o = None → blocks h1 = <[o := size layout]> (blocks h0) →
  blocks (talc_deallocate o (size layout) h1) = blocks h0 →
  always (create_admitted rgD zeroed conf layout (mkSlot (Z.of_nat k) i (g0 + 1) (entry_word g0 VACANT)) r i
      (heap_base + o)) R
    (canon (owner_word d EVIDENCE) (Z.of_nat k) i CREATE (Meta_from o (size layout))
       (mkEntry (entry_word (g0 + 1) PENDING) o0) hd MUTATION_CLEAN h1).
Proof using Hsc Hlen Hcr.
  intros Hfresh Hb1 Hb0. destruct (Hcr) as [Hme _ _ _ _ _ _ _]. unfold create_admitted.
  cbn [slot_slab slot_entry slot_generation slot_vacant]. rewrite Hme.
  assert (Hclean : ∀ ph ob hd, ph = EVIDENCE ∨ ph = ROLLING_BACK →
    R (canon (owner_word d ph) (Z.of_nat k) i CREATE (Meta_from o (size layout))
       (mkEntry (entry_word (g0 + 1) PENDING) ob) hd MUTATION_CLEAN h1)).
  { intros ph ob hd' Hph. apply rec_evidence; [tauto|by right]. }
  destruct (on_fresh_canon (admit_at rgD (heap_base + o) conf true) zeroed (heap_base + o) R (owner_word d EVIDENCE) (Z.of_nat k) i CREATE
    (Meta_from o (size layout)) (mkEntry (entry_word (g0 + 1) PENDING) o0) hd MUTATION_CLEAN h1) as (hd1 & Hall & Hrun).
  { intros hd'. apply Hclean. by left. }
  unfold admit_fresh. apply always_bind; [exact Hall|]. rewrite Hrun. cbn [fst snd]. clear Hall Hrun.
  destruct (run (admit_at rgD (heap_base + o) conf true) zeroed) as [adm hz]. cbn [fst snd].
  destruct adm as [[[]|e]|].
  - next; [apply Hclean; by left|]. rewrite act_store_offset. cbn [fst snd e_state].
    next; [apply Hclean; by left|]. rewrite act_store_state. cbn [fst snd e_offset].
    destruct (rec_done (Z.of_nat k) i CREATE (Meta_from o (size layout)) o
      hd1 h1 Hfresh Hb1) as (H1 & H2 & H3).
    next; [exact H1|]. rewrite act_clear. cbn [fst snd]. unfold tx_commit.
    next; [exact H2|]. rewrite act_cas_tx, Z.eqb_refl. cbn [fst snd always]. exact H3.
  - apply always_bind; [apply begin_always; [done|apply Hclean; by left|apply rec_evidence; by left]|].
    rewrite act_begin_mutation, Hme. cbn [fst snd].
    next; [apply rec_evidence; by left|]. rewrite act_load_pending. cbn [fst snd].
    next; [apply rec_evidence; by left|]. rewrite act_free. cbn [fst snd].
    next; [apply rec_evidence; by left|]. rewrite act_store_state. cbn [fst snd e_offset].
    next.
    { destruct gen0 as [Hg0 _]. eapply quarantined; [apply recover_create_settled; [done|by right|by right; left]|].
      right. right. split; [by eexists|]. left. unfold mu_after. by rewrite Z.eqb_refl. }
    rewrite act_clear. cbn [fst snd].
    next; [apply rec_vacant; [by right; left|by intros ?%busy_not_clean]|]. rewrite act_mu_commit. cbn [fst snd].
    unfold tx_commit.
    next; [apply rec_vacant; [by left|done]|]. rewrite act_cas_tx, Z.eqb_refl. cbn [fst snd always]. by apply rec_restored.
  - unfold tx_drop. cbn [Z.eqb EVIDENCE Pos.eqb bind]. next; [apply Hclean; by left|].
    rewrite act_cas_tx, Z.eqb_refl. cbn [fst snd always]. apply Hclean. by right.
Qed.

Lemma heap_offset o offset : 0 < o →
  offset_of rgD (pointer rgD heap_base (Meta_from o (size layout))) (size layout) = Ok offset → offset = heap_base + o.
Proof using Hcr.
  destruct Hcr. clear - cr_size0. intros Ho E.
  unfold offset_of, pointer, Meta_from, Meta_is_null, is_null in E. cbn [view start_offset span_size] in E.
  destruct (Z.eqb_spec o 0); [lia|]. destruct (Z.eqb_spec (size layout) 0); [lia|]. cbn [orb] in E.
  destruct (checked_sub _ _) as [x|] eqn:E1; [|done]. apply checked_sub_spec in E1 as [-> _]. cbn [ok_or] in E.
  destruct (checked_add _ _); [|done]. cbn [ok_or] in E. split_if_in E; [|done]. injection E as <-. lia.
Qed.

(** Every state of [create_in] after it has reserved the entry. *)
Lemma create_at_always ps pe pk pm o0 hd :
  always (create_at rgD heap_base zeroed conf layout (mkSlot (Z.of_nat k) i (g0 + 1) (entry_word g0 VACANT))) R
    (canon (owner_word d HELD) ps pe pk pm (mkEntry (entry_word g0 VACANT) o0) hd MUTATION_CLEAN h0).
Proof using Hsc Hlen Hcr.
  destruct (Hcr) as [Hme Hreg Hch Hsto Hlay Hsz Hg Hwf]. destruct (Hsc) as [_ _ Hd Hi _ _ _ Hplace _ _].
  assert (Hmc : mu_known MUTATION_CLEAN) by (by left).
  unfold create_at. cbn [slot_slab slot_entry slot_generation slot_vacant]. rewrite Hme.
  apply always_bind; [apply reads_always; [apply reads_entry|by apply rec_vacant]|].
  rewrite (run_entry rgD _ rs (Z.of_nat k) i r); [|apply Hch; intros; apply canon_next|lia|by rewrite Nat2Z.id|done].
  cbn [fst snd]. next; [by apply rec_vacant|]. rewrite act_store_state. cbn [fst snd e_offset].
  apply always_bind; [apply begin_always; [done|by apply rec_pending|apply rec_pending_busy]|].
  rewrite act_begin_mutation, Hme. cbn [fst snd].
  next; [apply rec_pending_busy|]. unfold allocate_during. rewrite canon_heap.
  destruct (talc_allocate layout h0) as [[o h1]|] eqn:Ealloc; cbn [fst snd]; [|by apply give_up_always].
  rewrite canon_set_heap.
  destruct (alloc_wf _ _ _ _ Hwf Hlay Hsz Ealloc) as (Hwf1 & Ho & Hfresh & Hb1 & _).
  destruct (free_wf o (size layout) h1 Hwf1) as [Hwf2 Hb2]; [by rewrite Hb1, lookup_insert_eq|].
  assert (Hb0 : blocks (talc_deallocate o (size layout) h1) = blocks h0).
  { rewrite Hb2, Hb1, delete_insert_eq. by apply delete_id. }
  next; [apply rec_pending_busy|]. cbn [fst snd]. rewrite canon_set_header.
  destruct (offset_of rgD _ _) as [offset|e] eqn:Eoff.
  2:{ next; [apply rec_pending_busy|]. rewrite act_free. cbn [fst snd]. by apply give_up_always. }
  apply heap_offset in Eoff as ->; [|done]. unfold persist.
  do 4 (next; [apply rec_pending_busy|];
    rewrite ?canon_tx, ?canon_ps, ?canon_pe, ?canon_pk, ?canon_pm, canon_pend; cbn [fst snd]).
  next; [apply rec_pending_busy|]. rewrite act_store_tx. cbn [fst snd].
  next; [apply rec_evidence; by left|]. rewrite act_mu_commit. cbn [fst snd]. by apply create_admitted_always.
Qed.
End Create.

(** ** Removal *)

Section Remove.
Context `{HL : !HeapLaws H}.
(** The remover that dies, and what it removes: the layout of generation [g]
    at offset [heap_base + o], whose block has [n] bytes. *)
Context (rgD : Region) (usable_lower usable_length : Z) (mapped_region : RegionId) (header layout : Layout).
Context (g o : Z) (h0 : H) (hd0 : gmap Z (record * Z)) (rec0 : record) (m0 : Z).

Record removal : Prop := {
  rm_owner : me rgD = d;
  rm_region : rg_region rgD = heap_region;
  rm_chain (w : W) : (∀ r', s_next (slab_at w r') = s_next (slab0 r')) → chain rgD w SRoot rs;
  rm_gen : gen_ok g;
  rm_heap : heap_wf h0;
  rm_block : blocks h0 !! o = Some (size layout);
  rm_header : hd0 !! (heap_base + o) = Some (rec0, m0);
  rm_open : Z.land m0 CLOSED = 0;
  rm_meta : meta_for rgD heap_base usable_lower usable_length (map_start (rg_map rgD) + (heap_base + o)) (size layout)
    = Some (Meta_from o (size layout));
}.
Context (Hrm : removal).

Abbreviation entry_of st := (mkEntry (entry_word g st) (heap_base + o)).

(** What may be left of a removal: the published layout, open and with its
    block; nothing; or a quarantined entry behind a poisoned heap. *)
Definition remove_outcome (e : Entry) (mu : Z) (h : H) (hd : gmap Z (record * Z)) : Prop :=
  (e = entry_of PUBLISHED ∧ blocks h !! o = Some (size layout) ∧ hd !! (heap_base + o) = Some (rec0, m0) ∧
    (mu = MUTATION_CLEAN ∨ mu = MUTATION_POISONED)) ∨
  (e = entry_of VACANT ∧ mu = MUTATION_CLEAN ∧ blocks h = delete o (blocks h0)) ∨
  (e = entry_of QUARANTINED ∧ mu = MUTATION_POISONED).

Definition removed (tx : Z) (w : W) : Prop :=
  settled tx (λ e mu h, remove_outcome e mu h (w_headers w)) w.

Definition removable (debug : bool) (w : W) : Prop :=
  removed CLEAN w ∨
  ∃ v w', run (recover rg heap_base heap_region debug fuel d) w = (Some (Ok v), w') ∧
    recovered_to debug v (λ e mu h, remove_outcome e mu h (w_headers w')) w'.

Context (debug : bool).
Abbreviation R := (removable debug).

Lemma canon_removed ps pe pk pm e hd mu h :
  remove_outcome e mu h hd → removed CLEAN (canon CLEAN ps pe pk pm e hd mu h).
Proof using Hsc Hlen. intros Ho. unfold removed. apply canon_settled. by rewrite canon_hd. Qed.

Lemma recovered_removed w v ps pe pk pm e hd mu h :
  run (recover rg heap_base heap_region debug fuel d) w = (Some (Ok v), canon CLEAN ps pe pk pm e hd mu h) →
  remove_outcome e mu h hd → R w.
Proof using Hsc Hlen. intros Hr Ho. right. eexists _, _. split; [exact Hr|]. left. by apply canon_removed. Qed.

Lemma act_clear_owner tx ps pe pk pm e hd mu h :
  mu = MUTATION_CLEAN ∨ mu = mutation_owner_word d →
  clear_owner d (canon tx ps pe pk pm e hd mu h) = (true, canon tx ps pe pk pm e hd MUTATION_CLEAN h).
Proof using Hsc Hlen.
  intros Hmu. unfold clear_owner, clear_dead_owner. rewrite canon_mu. destruct Hmu as [-> | ->].
  - destruct (_ =? _); by rewrite canon_set_mu.
  - rewrite Z.eqb_refl. by rewrite canon_set_mu.
Qed.

Lemma act_load_closed tx ps pe pk pm e hd mu h m rec :
  hd !! (heap_base + o) = Some (rec, m) →
  load_closed heap_base (Meta_from o (size layout)) (canon tx ps pe pk pm e hd mu h) =
    (negb (Z.land m CLOSED =? 0), canon tx ps pe pk pm e hd mu h).
Proof using. intros E. unfold load_closed. cbn [Meta_from view start_offset]. by rewrite canon_hd, E. Qed.

(** A removal whose entry is still closing is undone while the header is open
    and completed once it is closed. *)
Lemma recover_closing hd mu h m :
  mu = MUTATION_CLEAN ∨ mu = mutation_owner_word d → hd !! (heap_base + o) = Some (rec0, m) →
  run (recover rg heap_base heap_region debug fuel d)
      (canon (owner_word d EVIDENCE) (Z.of_nat k) i REMOVE (Meta_from o (size layout)) (entry_of CLOSING) hd mu h) =
    if Z.land m CLOSED =? 0 then
      (Some (Ok RolledBack), canon CLEAN (Z.of_nat k) i REMOVE (Meta_from o (size layout)) (entry_of PUBLISHED) hd MUTATION_CLEAN h)
    else
      (Some (Ok Released), canon CLEAN (Z.of_nat k) i REMOVE (Meta_from o (size layout)) (entry_of VACANT) hd MUTATION_CLEAN
         (talc_deallocate o (size layout) h)).
Proof using Hsc Hlen Hrm.
  intros Hmu Hh. destruct (Hrm) as [_ _ _ Hg _ _ _ _ _]. rewrite recover_late by (by left || done).
  unfold recover_entry. crun. cbn [e_state]. rewrite entry_state, entry_gen by done. crun.
  rewrite act_clear_owner by done. crun. rewrite (act_load_closed _ _ _ _ _ _ _ _ _ _ _ Hh). crun.
  destruct (Z.land m CLOSED =? 0); cbn [negb].
  - unfold transfer, finish, tx_commit. crun. done.
  - unfold claim_heap_and_transfer, transfer, release_entry, finish, tx_commit. crun. done.
Qed.

Lemma recover_released hd mu h :
  mu = MUTATION_CLEAN ∨ mu = mutation_owner_word d →
  run (recover rg heap_base heap_region debug fuel d)
      (canon (owner_word d EVIDENCE) (Z.of_nat k) i REMOVE (Meta_from o (size layout)) (entry_of RELEASED) hd mu h) =
    (Some (Ok Released), canon CLEAN (Z.of_nat k) i REMOVE (Meta_from o (size layout)) (entry_of VACANT) hd MUTATION_CLEAN h).
Proof using Hsc Hlen Hrm.
  intros Hmu. destruct (Hrm) as [_ _ _ Hg _ _ _ _ _]. rewrite recover_late by (by left || done).
  unfold recover_entry. crun. cbn [e_state]. rewrite entry_state, entry_gen by done. crun.
  rewrite act_clear_owner by done. crun. unfold transfer, finish, tx_commit. crun. done.
Qed.

Lemma recover_vacated hd h :
  run (recover rg heap_base heap_region debug fuel d)
      (canon (owner_word d EVIDENCE) (Z.of_nat k) i REMOVE (Meta_from o (size layout)) (entry_of VACANT) hd MUTATION_CLEAN h) =
    (Some (Ok Released), canon CLEAN (Z.of_nat k) i REMOVE (Meta_from o (size layout)) (entry_of VACANT) hd MUTATION_CLEAN h).
Proof using Hsc Hlen Hrm.
  destruct (Hrm) as [_ _ _ Hg _ _ _ _ _]. rewrite recover_late by (by left || done).
  unfold recover_entry. crun. cbn [e_state]. rewrite entry_state, entry_gen by done. crun.
  unfold transfer, finish, tx_commit. crun. done.
Qed.

(** Every other state of a removal with the heap still in the dead one's
    hands is quarantined. *)
Lemma recover_quarantined phase ps pe pk st hd h :
  (phase = EVIDENCE ∧ ps = Z.of_nat k ∧ pe = i ∧ pk = REMOVE ∧ (st = REMOVING ∨ st = PUBLISHED)) ∨
    (phase = HELD ∧ st = CLOSING) →
  ∀ pm,
  run (recover rg heap_base heap_region debug fuel d)
      (canon (owner_word d phase) ps pe pk pm (entry_of st) hd (mutation_owner_word d) h) =
    (Some (Ok Quarantined), canon (quarantined_tx debug phase) ps pe pk pm (entry_of QUARANTINED) hd MUTATION_POISONED h).
Proof using Hsc Hlen Hrm.
  intros Hst pm. destruct (Hrm) as [_ _ _ Hg _ _ _ _ _]. assert (Hf : ∀ b : bool, b && false = false) by (by intros []).
  destruct Hst as [(-> & -> & -> & -> & Hst)|[-> ->]].
  - rewrite recover_late by (by left || done). unfold recover_entry. crun. cbn [e_state].
    rewrite entry_state, entry_gen by (done || by destruct Hst as [-> | ->]).
    destruct Hst as [-> | ->]; crun; rewrite (mu_state (mutation_owner_word d)) by (by right; left); crun;
      rewrite bool_decide_true by done; crun; rewrite act_poison; unfold mu_after; crun;
      rewrite run_quarantine by (done || by right; left); crun; done.
  - rewrite recover_held_transition by (cbn [e_state]; by rewrite settled_word).
    unfold recover_entry. crun. cbn [e_state]. rewrite entry_state, entry_gen by done. crun. rewrite ?Hf. crun.
    rewrite (mu_state (mutation_owner_word d)) by (by right; left). crun.
    rewrite bool_decide_true by done. crun. rewrite act_poison. unfold mu_after. crun. rewrite ?Hf. crun.
    rewrite run_quarantine by (done || by left). done.
Qed.

Lemma rm_published ps pe pk pm hd mu h :
  mu_known mu → hd !! (heap_base + o) = Some (rec0, m0) → blocks h !! o = Some (size layout) →
  R (canon (owner_word d HELD) ps pe pk pm (entry_of PUBLISHED) hd mu h).
Proof using Hsc Hlen Hrm.
  intros Hmu Hh Hb. destruct (Hrm) as [_ _ _ Hg _ _ _ _ _].
  eapply recovered_removed; [apply recover_held_settled; [done|cbn [e_state]; by rewrite settled_word]|].
  left. split_and!; try done. destruct (mu_after_cases mu Hmu) as [->|[_ ->]]; [by right|by left].
Qed.

Lemma rm_vacant ps pe pk pm hd h :
  blocks h = delete o (blocks h0) →
  R (canon (owner_word d HELD) ps pe pk pm (entry_of VACANT) hd MUTATION_CLEAN h).
Proof using Hsc Hlen Hrm.
  intros Hb. destruct (Hrm) as [_ _ _ Hg _ _ _ _ _].
  eapply recovered_removed; [apply recover_held_settled; [by left|cbn [e_state]; by rewrite settled_word]|].
  right. left. by rewrite mu_after_clean.
Qed.

Lemma rm_quarantined phase ps pe pk pm st hd h :
  (phase = EVIDENCE ∧ ps = Z.of_nat k ∧ pe = i ∧ pk = REMOVE ∧ (st = REMOVING ∨ st = PUBLISHED)) ∨
    (phase = HELD ∧ st = CLOSING) →
  R (canon (owner_word d phase) ps pe pk pm (entry_of st) hd (mutation_owner_word d) h).
Proof using Hsc Hlen Hrm.
  intros Hst. right. eexists _, _. split; [by apply recover_quarantined|]. unfold recovered_to, quarantined_tx. rewrite canon_hd. destruct debug.
  - left. apply canon_settled. by right; right.
  - right. split; [done|]. split; [done|]. eexists. apply canon_settled. split; [by right; right|]. by eexists.
Qed.

Lemma close_at_canon tx ps pe pk pm e mu h :
  me rgD = d →
  close_at rgD (heap_base + o) (canon tx ps pe pk pm e hd0 mu h) =
    if m0 =? slot_bit d then (Ok tt, canon tx ps pe pk pm e (<[heap_base + o := (rec0, CLOSED)]> hd0) mu h)
    else (Err (close_error m0 (slot_bit d)), canon tx ps pe pk pm e hd0 mu h).
Proof using Hrm.
  intros Hme. destruct Hrm. unfold close_at. rewrite canon_hd, rm_header0, Hme. cbn [from_option id].
  destruct (m0 =? _); [|done]. by rewrite canon_set_header.
Qed.

(** From the closing of the entry on. *)
Lemma remove_entry_always ps pe pk pm :
  always (remove_entry rgD (mkId heap_region (Z.of_nat k) i g) r i (heap_base + o) (Meta_from o (size layout)) layout) R
    (canon (owner_word d HELD) ps pe pk pm (entry_of PUBLISHED) hd0 (mutation_owner_word d) h0).
Proof using Hsc Hlen Hrm.
  destruct (Hrm) as [Hme _ _ Hg Hwf Hb Hh Hopen _].
  assert (Hmd : mu_known (mutation_owner_word d)) by (by right; left).
  assert (Hh1 : <[heap_base + o := (rec0, CLOSED)]> hd0 !! (heap_base + o) = Some (rec0, CLOSED))
    by (by rewrite lookup_insert_eq).
  destruct (free_wf o (size layout) h0 Hwf Hb) as [_ Hfree].
  unfold remove_entry. cbn [id_slab id_entry id_generation]. rewrite Hme.
  next; [by apply rm_published|]. rewrite act_store_state. cbn [fst snd e_offset]. unfold persist.
  do 4 (next; [apply rm_quarantined; by right|];
    rewrite ?canon_tx, ?canon_ps, ?canon_pe, ?canon_pk, ?canon_pm, canon_pend; cbn [fst snd]).
  next; [apply rm_quarantined; by right|]. rewrite act_store_tx. cbn [fst snd].
  next.
  { eapply recovered_removed; [rewrite (recover_closing _ _ _ m0) by (by right || done); rewrite Hopen; reflexivity|].
    left. split_and!; try done. by left. }
  rewrite close_at_canon by done. destruct (m0 =? slot_bit d); cbn [fst snd].
  - next.
    { eapply recovered_removed; [rewrite (recover_closing _ _ _ CLOSED) by (by right || done); reflexivity|].
      right. left. split_and!; done. }
    rewrite act_store_state. cbn [fst snd e_offset].
    next; [apply rm_quarantined; left; split_and!; try done; by left|]. rewrite act_free. cbn [fst snd].
    next; [apply rm_quarantined; left; split_and!; try done; by left|]. rewrite act_store_state. cbn [fst snd e_offset].
    next; [eapply recovered_removed; [apply recover_released; by right|]; right; left; by split_and!|].
    rewrite act_mu_commit. cbn [fst snd].
    next; [eapply recovered_removed; [apply recover_released; by left|]; right; left; by split_and!|].
    rewrite act_store_state. cbn [fst snd e_offset].
    next; [eapply recovered_removed; [apply recover_vacated|]; right; left; by split_and!|].
    rewrite act_clear. cbn [fst snd]. unfold tx_commit.
    next; [by apply rm_vacant|]. rewrite act_cas_tx, Z.eqb_refl. cbn [fst snd always].
    left. apply canon_removed. right. left. by split_and!.
  - next.
    { eapply recovered_removed; [rewrite (recover_closing _ _ _ m0) by (by right || done); rewrite Hopen; reflexivity|].
      left. split_and!; try done. by left. }
    rewrite act_store_state. cbn [fst snd e_offset].
    next; [apply rm_quarantined; left; split_and!; try done; by right|]. rewrite act_clear. cbn [fst snd].
    next; [by apply rm_published|]. rewrite act_mu_commit. cbn [fst snd]. unfold tx_commit.
    next; [apply rm_published; [by left|done..]|]. rewrite act_cas_tx, Z.eqb_refl. cbn [fst snd always].
    left. apply canon_removed. left. split_and!; try done. by left.
Qed.

(** Every state of [remove_in]. *)
Lemma remove_in_always ps pe pk pm :
  mapped_region = heap_region → size header ≤ size layout → align header ≤ align layout →
  always (remove_in rgD heap_base heap_region usable_lower usable_length (mkId heap_region (Z.of_nat k) i g)
            mapped_region (heap_base + o) header layout) R
    (canon CLEAN ps pe pk pm (entry_of PUBLISHED) hd0 MUTATION_CLEAN h0).
Proof using Hsc Hlen Hrm.
  intros Hreg Hsz Hal. destruct (Hrm) as [Hme HrD Hch Hg Hwf Hb Hh Hopen Hmeta]. destruct (Hsc) as [_ _ Hd Hi _ _ _ Hplace _ _].
  assert (H0 : R (canon CLEAN ps pe pk pm (entry_of PUBLISHED) hd0 MUTATION_CLEAN h0)).
  { left. apply canon_removed. left. split_and!; try done. by left. }
  assert (H1 : R (canon (owner_word d HELD) ps pe pk pm (entry_of PUBLISHED) hd0 MUTATION_CLEAN h0))
    by (apply rm_published; [by left|done..]).
  assert (Hent : ∀ tx mu, run (entry rgD (Z.of_nat k) i) (canon tx ps pe pk pm (entry_of PUBLISHED) hd0 mu h0) =
    (Ok (r, i), canon tx ps pe pk pm (entry_of PUBLISHED) hd0 mu h0)).
  { intros. eapply run_entry; [apply Hch; intros; apply canon_next|lia|by rewrite Nat2Z.id|done]. }
  unfold remove_in. rewrite bool_decide_true by done. cbn [negb].
  destruct (Z.ltb_spec (size layout) (size header)); [lia|]. destruct (Z.ltb_spec (align layout) (align header)); [lia|].
  cbn [orb]. apply always_bind; [apply reads_always; [apply reads_id_offset|done]|].
  unfold id_offset at 1 2. cbn [id_region id_slab id_entry id_generation]. rewrite !bool_decide_true by congruence.
  cbn [negb]. rewrite !run_bind, Hent, !run_act, act_load_state. cbn [fst snd e_state]. rewrite entry_state, entry_gen by done.
  rewrite !Z.eqb_refl. cbn [negb orb]. rewrite !run_act. unfold load_offset. rewrite canon_entry. cbn [fst snd run e_offset].
  rewrite Z.eqb_refl. cbn [negb orb]. rewrite Hme.
  apply always_bind; [unfold tx_claim; cbn [always]; split; [done|]; by rewrite act_cas_tx, Z.eqb_refl|].
  unfold tx_claim. rewrite run_act, act_cas_tx, Z.eqb_refl. cbn [fst snd run map_err].
  apply always_bind; [apply reads_always; [apply reads_entry|done]|]. rewrite Hent. cbn [fst snd].
  next; [done|]. rewrite act_load_state. cbn [fst snd e_state]. rewrite Z.eqb_refl. cbn [negb]. rewrite Hmeta.
  apply always_bind; [unfold begin_mutation; cbn [always]; split; [done|]|].
  { rewrite canon_mu. cbn. rewrite canon_set_mu, Hme. apply rm_published; [by right; left|done..]. }
  rewrite act_begin_mutation, Hme. cbn [fst snd]. apply remove_entry_always.
Qed.
End Remove.
End Recover.
End States.

(** ** Creation as a whole *)

(** A directory between operations, as two participants see it. *)
Record idle_dir {H} (rgD rgL : Region) (fuel : nat) (rs : list SlabRef) (w0 : world H) : Prop := {
  idle_tx : transaction (w_dir w0) = CLEAN;
  idle_mutation : w_mutation w0 = MUTATION_CLEAN;
  idle_chainD : chain rgD w0 SRoot rs;
  idle_chainL : chain rgL w0 SRoot rs;
  idle_nodup : NoDup rs;
  idle_fuel : (length rs ≤ fuel)%nat;
  idle_index : Z.of_nat (length rs) ≤ u32_max;
  idle_len r : r ∈ rs → length (s_entries (slab_at w0 r)) = Z.to_nat CAPACITY;
  idle_settled r i : r ∈ rs → 0 ≤ i < CAPACITY → settled_state (e_state (entry_at w0 r i)) = true;
  idle_words r i : r ∈ rs → 0 ≤ i < CAPACITY → 0 ≤ e_state (entry_at w0 r i) ≤ usize_max;
}.

(** Two participants of one region: the one that dies and the live one. *)
Record two_peers (rgD rgL : Region) (heap_region : RegionId) : Prop := {
  peers_dead : 0 ≤ me rgD < PARTICIPANT_CAPACITY;
  peers_live : 0 ≤ me rgL < PARTICIPANT_CAPACITY;
  peers_regionD : rg_region rgD = heap_region;
  peers_regionL : rg_region rgL = heap_region;
}.

(** The transaction word of [w] is [tx] and its directory as in [w0] but for one entry,
    the heap and the headers; [out] says what became of these. *)
Definition settled_around {H} (tx : Z) (w0 : world H) (r : SlabRef) (i : Z) (out : Entry → Z → H → Prop) (w : world H) : Prop :=
  transaction (w_dir w) = tx ∧ out (entry_at w r i) (w_mutation w) (w_heap w) ∧
  (∀ r', s_next (slab_at w r') = s_next (slab_at w0 r')) ∧
  ∀ r' i', 0 ≤ i' → (r', i') ≠ (r, i) → entry_at w r' i' = entry_at w0 r' i'.

(** After the recovery by [rgL] answered [v]: clean; or, in a build without debug
    assertions, with the entry quarantined and the word still with [rgL]. *)
Definition recovered_around {H} (debug : bool) (v : Recovered) (rgL : Region) (w0 : world H) (r : SlabRef) (i : Z)
    (out : Entry → Z → H → Prop) (w : world H) : Prop :=
  settled_around CLEAN w0 r i out w ∨
  debug = false ∧ v = Quarantined ∧
  ∃ phase, settled_around (owner_word (me rgL) phase) w0 r i (λ e mu h, out e mu h ∧ ∃ g, e_state e = entry_word g QUARANTINED) w.

Lemma canon_self {H} (w0 : world H) r i :
  (Z.to_nat i < length (s_entries (slab_at w0 r)))%nat →
  canon (root_slab (w_dir w0)) (w_slabs w0) r i (transaction (w_dir w0)) (pending_slab (w_dir w0))
    (pending_entry (w_dir w0)) (pending_kind (w_dir w0)) (pending (w_dir w0)) (entry_at w0 r i)
    (w_headers w0) (w_mutation w0) (w_heap w0) = w0.
Proof.
  intros Hi. destruct w0 as [[tx ps pe pk pm root0] slabs hd mu h].
  unfold canon, set_entry, entry_at in *. cbn [w_dir w_slabs w_headers w_mutation w_heap transaction pending_slab
    pending_entry pending_kind pending root_slab] in *.
  destruct r as [|o]; cbn [slab_at set_slab w_dir root_slab w_slabs] in *.
  - destruct (s_entries root0 !! Z.to_nat i) as [e|] eqn:E; [|apply lookup_ge_None in E; lia]. cbn [from_option id].
    rewrite list_insert_id by done. by destruct root0.
  - destruct (slabs !! o) as [s|] eqn:Eo; cbn [from_option id] in *; [|simpl in Hi; lia].
    destruct (s_entries s !! Z.to_nat i) as [e|] eqn:E; [|apply lookup_ge_None in E; lia]. cbn [from_option id].
    rewrite list_insert_id by done. unfold with_slabs. cbn. destruct s. by rewrite insert_id.
Qed.

Lemma idle_scene {H} rgD rgL heap_region fuel rs (w0 : world H) k r i :
  idle_dir rgD rgL fuel rs w0 → two_peers rgD rgL heap_region → rs !! k = Some r → 0 ≤ i < CAPACITY →
  scene (H := H) (root_slab (w_dir w0)) (w_slabs w0) r i rgL heap_region fuel rs k (me rgD) ∧
  (Z.to_nat i < length (s_entries (slab0 (root_slab (w_dir w0)) (w_slabs w0) r)))%nat.
Proof.
  intros [Htx Hmu HcD HcL Hnd Hf Hix Hlen Hset _] [Hd Hl HrD HrL] Hk Hi. split.
  - split; try done.
    + intros w Hw. eapply chain_links; [|exact HcL]. exact Hw.
    + intros n r' i' Hn Hi' _. apply Hset; [by eapply list_elem_of_lookup_2|done].
  - change (slab0 _ _ r) with (slab_at w0 r). rewrite Hlen by (by eapply list_elem_of_lookup_2).
    unfold CAPACITY in *. lia.
Qed.

Section Create.
Context {H : Type} `{HO : HeapOps H} `{HL : !HeapLaws H} {T : Type} `{HT : SharedLayout T}.

(** C31: a participant dies after any number of accesses of [create_in], in a
    directory that has a vacant entry, the accesses of the header's admission
    included.  Then the directory is settled already, or a live participant's
    [recover] settles it: the transaction word is clean, every other entry and
    every link is as before, and the reserved entry is either vacant again with
    the heap as before (or poisoned), or published with its block allocated,
    or quarantined.  No published entry ever names a freed block.  In a build
    without debug assertions all of this holds too, except that after an answer
    [Quarantined] the transaction word may still be the recovering participant's. *)
Theorem create_crash_recovered debug rgD rgL heap_base heap_region fuel rs (w0 : world H)
    (zeroed : RcHeader T) conf layout s n :
  idle_dir rgD rgL fuel rs w0 → two_peers rgD rgL heap_region →
  storage conf = Some layout → layout_wf layout → 0 < size layout → heap_wf (w_heap w0) →
  run (dir_reserve rgD fuel) w0 = (Some (Ok s), w0) →
  let w := crash n (create_in rgD heap_base heap_region zeroed fuel conf layout) w0 in
  let out := create_outcome heap_base layout (Z.shiftr (slot_vacant s) STATE_BITS) (w_heap w0) in
  ∃ r, rs !! Z.to_nat (slot_slab s) = Some r ∧
    (settled_around CLEAN w0 r (slot_entry s) out w ∨
     ∃ v w', run (recover rgL heap_base heap_region debug fuel (me rgD)) w = (Some (Ok v), w') ∧
       recovered_around debug v rgL w0 r (slot_entry s) out w').
Proof.
  intros Hidle Hpeers Hsto Hlay Hsz Hwf Hres w out. unfold w. clear w.
  destruct (run_reserve_from rgD _ _ _ _ _ _ (idle_chainD _ _ _ _ _ Hidle) Hres)
    as (k & r & Hk & Hslab & Hi & Hv & Hvac & Hmax & Hgen).
  exists r. rewrite Hslab, Z.add_0_l, Nat2Z.id. split; [done|].
  destruct (idle_scene _ _ _ _ _ _ _ _ _ Hidle Hpeers Hk Hi) as [Hsc Hlen].
  assert (Hwords := idle_words _ _ _ _ _ Hidle r (slot_entry s) ltac:(by eapply list_elem_of_lookup_2) Hi).
  rewrite <- Hv in Hwords. destruct (vacant_word _ Hwords Hvac) as [Hvw Hg0].
  set (g0 := Z.shiftr (slot_vacant s) STATE_BITS) in *.
  assert (Hcr : creation (root_slab (w_dir w0)) (w_slabs w0) heap_region rs (me rgD) rgD conf layout g0 (w_heap w0)).
  { destruct Hpeers, Hidle. split; try done; [|unfold gen_ok in Hg0; lia]. intros w' Hw'. eapply chain_links; [|exact idle_chainD0]. exact Hw'. }
  apply always_crash with (P := recoverable (root_slab (w_dir w0)) (w_slabs w0) r (slot_entry s) rgL heap_base heap_region
    fuel (me rgD) debug out).
  assert (E0 : w0 = canon (root_slab (w_dir w0)) (w_slabs w0) r (slot_entry s) CLEAN (pending_slab (w_dir w0))
    (pending_entry (w_dir w0)) (pending_kind (w_dir w0)) (pending (w_dir w0))
    (mkEntry (entry_word g0 VACANT) (e_offset (entry_at w0 r (slot_entry s)))) (w_headers w0) MUTATION_CLEAN (w_heap w0)).
  { rewrite <- (idle_mutation _ _ _ _ _ Hidle), <- (idle_tx _ _ _ _ _ Hidle), <- Hvw, Hv.
    rewrite <- (canon_self w0 r (slot_entry s)) at 1 by done. by destruct (entry_at w0 r (slot_entry s)). }
  assert (Es : s = mkSlot (Z.of_nat k) (slot_entry s) (g0 + 1) (entry_word g0 VACANT)).
  { destruct s. cbn in *. by rewrite Hslab, Hgen, <- Hvw. }
  rewrite E0 at 3. unfold create_in. rewrite !bool_decide_true by (done || by destruct Hpeers). cbn [negb].
  apply always_bind.
  { unfold tx_claim. cbn [always]. split; [by eapply rec_restored|]. rewrite act_cas_tx, Z.eqb_refl. cbn [fst snd].
    eapply rec_vacant; [done..|by left|done]. }
  unfold tx_claim. rewrite run_act, act_cas_tx, Z.eqb_refl. cbn [fst snd run map_err].
  apply always_bind; [apply reads_always; [apply reads_reserve|eapply rec_vacant; [done..|by left|done]]|].
  unfold dir_reserve in *. rewrite (reads_run _ _ (reads_reserve _ _ _ _)).
  rewrite (reserve_same rgD w0).
  2:{ intros r'. rewrite canon_slab. pose proof (f_equal (λ w, slab_at w r') E0) as E'. cbv beta in E'.
      rewrite canon_slab in E'. symmetry. exact E'. }
  rewrite Hres. cbn [fst].
  rewrite Es at 1. by eapply create_at_always.
Qed.
End Create.

Section Remove.
Context {H : Type} `{HO : HeapOps H} `{HL : !HeapLaws H}.

(** The published layout a removal names: entry [i] of slab [k], of
    generation [g], at offset [heap_base + o] with a block of the size of
    [layout] inside the usable heap, and an open header. *)
Record published_at (rgD : Region) (heap_base lower length_ : Z) (w0 : world H) (r : SlabRef) (i g o : Z)
    (layout : Layout) (rec : record) (m : Z) : Prop := {
  pub_entry : entry_at w0 r i = mkEntry (entry_word g PUBLISHED) (heap_base + o);
  pub_gen : gen_ok g;
  pub_block : blocks (w_heap w0) !! o = Some (size layout);
  pub_header : w_headers w0 !! (heap_base + o) = Some (rec, m);
  pub_open : Z.land m CLOSED = 0;
  pub_usable : lower ≤ o ∧ o + size layout ≤ lower + length_ ∧ lower + length_ ≤ usize_max;
}.

Lemma published_meta rgD heap_base lower length_ w0 r i g o layout rec m :
  published_at rgD heap_base lower length_ w0 r i g o layout rec m → 0 ≤ lower →
  meta_for rgD heap_base lower length_ (map_start (rg_map rgD) + (heap_base + o)) (size layout) =
    Some (Meta_from o (size layout)).
Proof.
  intros [_ _ _ _ _ (H1 & H2 & H3)] Hl. unfold meta_for, checked_sub, checked_add.
  destruct (Z.leb_spec (map_start (rg_map rgD) + heap_base) (map_start (rg_map rgD) + (heap_base + o))); [|lia].
  destruct (Z.leb_spec (lower + length_) usize_max); [|lia].
  replace (map_start (rg_map rgD) + (heap_base + o) - (map_start (rg_map rgD) + heap_base)) with o by lia.
  destruct (Z.leb_spec (o + size layout) usize_max); [|lia].
  destruct (Z.leb_spec lower o); [|lia]. destruct (Z.leb_spec (o + size layout) (lower + length_)); [done|lia].
Qed.

(** C32: a participant dies after any number of accesses of [remove_in].  Then
    the directory is settled already, or a live participant's [recover]
    settles it: the transaction word is clean, every other entry and every
    link is as before, and the entry is either still published, its header
    open and its block allocated, or vacant with the block freed, or
    quarantined behind a poisoned heap.  A block is never freed twice and a
    published entry never names a freed block.  In a build without debug
    assertions all of this holds too, except that after an answer [Quarantined]
    the transaction word may still be the recovering participant's. *)
Theorem remove_crash_recovered debug rgD rgL heap_base heap_region lower length_ fuel rs (w0 : world H)
    k r i g o header layout rec m n :
  idle_dir rgD rgL fuel rs w0 → two_peers rgD rgL heap_region → heap_wf (w_heap w0) →
  rs !! k = Some r → 0 ≤ i < CAPACITY → 0 ≤ lower →
  published_at rgD heap_base lower length_ w0 r i g o layout rec m →
  size header ≤ size layout → align header ≤ align layout →
  let w := crash n (remove_in rgD heap_base heap_region lower length_ (mkId heap_region (Z.of_nat k) i g)
             heap_region (heap_base + o) header layout) w0 in
  let out w := λ e mu h, remove_outcome heap_base layout g o (w_heap w0) rec m e mu h (w_headers w) in
  settled_around CLEAN w0 r i (out w) w ∨
  ∃ v w', run (recover rgL heap_base heap_region debug fuel (me rgD)) w = (Some (Ok v), w') ∧
    recovered_around debug v rgL w0 r i (out w') w'.
Proof.
  intros Hidle Hpeers Hwf Hk Hi Hlow Hpub Hsz Hal w out. unfold w. clear w.
  destruct (idle_scene _ _ _ _ _ _ _ _ _ Hidle Hpeers Hk Hi) as [Hsc Hlen].
  assert (Hrm : removal (root_slab (w_dir w0)) (w_slabs w0) heap_base heap_region rs (me rgD) rgD lower length_
    layout g o (w_heap w0) (w_headers w0) rec m).
  { pose proof (published_meta _ _ _ _ _ _ _ _ _ _ _ _ Hpub Hlow).
    destruct Hpeers, Hidle, Hpub. split; try done. intros w' Hw'. eapply chain_links; [|exact idle_chainD0]. exact Hw'. }
  apply always_crash with (P := removable (root_slab (w_dir w0)) (w_slabs w0) r i rgL heap_base heap_region fuel (me rgD)
    layout g o (w_heap w0) rec m debug).
  assert (E0 : w0 = canon (root_slab (w_dir w0)) (w_slabs w0) r i CLEAN (pending_slab (w_dir w0))
    (pending_entry (w_dir w0)) (pending_kind (w_dir w0)) (pending (w_dir w0))
    (mkEntry (entry_word g PUBLISHED) (heap_base + o)) (w_headers w0) MUTATION_CLEAN (w_heap w0)).
  { rewrite <- (idle_mutation _ _ _ _ _ Hidle), <- (idle_tx _ _ _ _ _ Hidle), <- (pub_entry _ _ _ _ _ _ _ _ _ _ _ _ Hpub).
    by rewrite (canon_self w0 r i). }
  pose proof (remove_in_always _ _ _ _ Hlen rgL heap_base heap_region fuel rs k (me rgD) Hsc rgD lower length_ heap_region
    header layout g o (w_heap w0) (w_headers w0) rec m Hrm debug (pending_slab (w_dir w0)) (pending_entry (w_dir w0))
    (pending_kind (w_dir w0)) (pending (w_dir w0)) eq_refl Hsz Hal) as Hall.
  rewrite <- E0 in Hall. exact Hall.
Qed.
End Remove.
