(* ===== verification/DirSafe.v ===== *)
(** * Directory identifiers and examples of recovery

    The byte form of an identifier, the recoveries of [DirCrash] at concrete
    crash points, and what [quarantine] leaves behind in a build without debug
    assertions. *)

From S2P Require Import Prelude Alloc TalcGeo Talc TalcSpec TalcSafe.
From S2P Require Import Atomic Alloc Bytes Schema Header HeaderConc Mem Heap Dir DirWalk DirCrash.

(** ** Identifiers *)

Definition id_wf (i : Id) : Prop :=
  is_word 64 (high (id_region i)) ∧ is_word 64 (low (id_region i)) ∧ is_word 32 (id_slab i) ∧
  is_word 32 (id_entry i) ∧ is_word 64 (id_generation i).

#[export] Instance id_wf_dec i : Decision (id_wf i).
Proof. unfold id_wf. apply _. Defined.

Lemma take_le n x rest : take n (to_le_bytes n x ++ rest) = to_le_bytes n x.
Proof. by rewrite take_app_length' by (by rewrite length_to_le_bytes). Qed.

Lemma drop_le n x rest : drop n (to_le_bytes n x ++ rest) = rest.
Proof. by rewrite drop_app_length' by (by rewrite length_to_le_bytes). Qed.

Lemma drop_le_add n m x rest : drop (n + m) (to_le_bytes n x ++ rest) = drop m rest.
Proof. rewrite drop_app_add'; [done|]. by rewrite length_to_le_bytes. Qed.

(** The fields of thirty-two bytes. *)
Lemma id_fields (bs : list Z) : length bs = 32%nat →
  bs = take 8 bs ++ take 8 (drop 8 bs) ++ take 4 (drop 16 bs) ++ take 4 (drop 20 bs) ++ drop 24 bs.
Proof.
  intros Hlen. rewrite <- (take_drop 8 bs) at 1. f_equal.
  rewrite <- (take_drop 8 (drop 8 bs)) at 1. f_equal. rewrite drop_drop. simpl (8 + 8)%nat.
  rewrite <- (take_drop 4 (drop 16 bs)) at 1. f_equal. rewrite drop_drop. simpl (16 + 4)%nat.
  rewrite <- (take_drop 4 (drop 20 bs)) at 1. f_equal. by rewrite drop_drop.
Qed.

Lemma le_bytes_id n bs : length bs = n → Forall is_byte bs → to_le_bytes n (from_le_bytes bs) = bs.
Proof. intros <- Hb. by apply to_from_le_bytes. Qed.

(** The byte form of identifiers. *)
Lemma id_bytes_spec :
  (∀ i, id_wf i → Id_from_bytes (Id_to_bytes i) = Some i ∧ length (Id_to_bytes i) = 32%nat) ∧
  (∀ bs i, Forall is_byte bs → Id_from_bytes bs = Some i → Id_to_bytes i = bs ∧ id_wf i) ∧
  (∀ bs, Id_from_bytes bs = None ↔ length bs ≠ 32%nat).
Proof.
  split_and!.
  - intros i (H1 & H2 & H3 & H4 & H5).
    assert (Hlen : length (Id_to_bytes i) = 32%nat).
    { unfold Id_to_bytes. rewrite !length_app, !length_to_le_bytes. done. }
    split; [|done]. unfold Id_from_bytes. rewrite Hlen.
    change (negb (Z.of_nat 32 =? ID_BYTES)) with false. cbv iota.
    unfold Id_to_bytes.
    change 24%nat with (8 + (8 + (4 + (4 + 0))))%nat. change 20%nat with (8 + (8 + (4 + 0)))%nat.
    change 16%nat with (8 + (8 + 0))%nat.
    rewrite !drop_le_add, !drop_0, !drop_le, !take_le, !from_to_le_bytes by done. by destruct i as [[]].
  - intros bs i Hb. unfold Id_from_bytes. destruct (Z.eqb_spec (Z.of_nat (length bs)) ID_BYTES) as [E|]; [|done].
    cbn [negb]. intros [= <-]. assert (Hlen : length bs = 32%nat) by (unfold ID_BYTES in E; lia).
    assert (Hs : ∀ n m, (n + m ≤ 32)%nat → length (take n (drop m bs)) = n).
    { intros n m Hnm. rewrite length_take, length_drop. lia. }
    assert (Hf : ∀ n m, Forall is_byte (take n (drop m bs))) by (intros; by apply Forall_take, Forall_drop).
    assert (H24 : drop 24 bs = take 8 (drop 24 bs)) by (rewrite take_ge; [done|rewrite length_drop; lia]).
    split.
    + rewrite (id_fields bs Hlen) at 6. unfold Id_to_bytes. cbn [id_region high low id_slab id_entry id_generation].
      rewrite <- (drop_0 bs) at 1. rewrite H24.
      rewrite !le_bytes_id by (first [by apply Hf | apply Hs; lia]). done.
    + assert (Hw : ∀ n m, (n + m ≤ 32)%nat → is_word (8 * Z.of_nat n) (from_le_bytes (take n (drop m bs)))).
      { intros n m Hnm. rewrite <- (Hs n m Hnm) at 1. by apply from_le_bytes_word. }
      rewrite H24. rewrite <- (drop_0 bs) at 1. split_and!; cbn [id_region high low id_slab id_entry id_generation];
        apply (Hw 8%nat) || apply (Hw 4%nat); lia.
  - intros bs. unfold Id_from_bytes. destruct (Z.eqb_spec (Z.of_nat (length bs)) ID_BYTES) as [E|E]; cbn [negb];
      unfold ID_BYTES in E; split; intros; try done; lia.
Qed.

(** An identifier survives its byte form, and every string of thirty-two
    bytes is the byte form of exactly the identifier it is read as; strings of
    other lengths are refused. *)
Theorem id_bytes_roundtrip :
  (∀ i, id_wf i → Id_from_bytes (Id_to_bytes i) = Some i ∧ length (Id_to_bytes i) = 32%nat) ∧
  (∀ bs i, Forall is_byte bs → Id_from_bytes bs = Some i → Id_to_bytes i = bs ∧ id_wf i) ∧
  (∀ bs, Id_from_bytes bs = None ↔ length bs ≠ 32%nat).
Proof. exact id_bytes_spec. Qed.

(** ** Examples *)

Definition demo_region (slot : Z) : Region := mkRegion (mkMap 4096 1048576 3) (mkMember slot 1) (mkRegionId 1 2) true.
Definition demo_id : RegionId := mkRegionId 1 2.
Definition demo_block : Layout := mkLayout 192 64.

(** The general heap, eight kilobytes into the region. *)
#[local] Instance demo_ops : HeapOps talc_heap := talc_ops 12288 demo_geometry demo_lo demo_hi.
#[local] Instance demo_laws : HeapLaws talc_heap :=
  talc_laws 12288 demo_geometry demo_lo demo_hi (proj1 (ready_wf _ _ _ _ demo_ready)) (ready_area _ _ _ _ demo_ready).

(** A fresh directory over an empty heap. *)
Definition demo_dir : world talc_heap := mkWorld (Directory_init Meta_null) ∅ ∅ MUTATION_CLEAN demo_heap.

#[local] Existing Instance demo_layout.

Definition demo_create : prog (world talc_heap) _ :=
  create_in (demo_region 0) 8192 demo_id demo_header 4 3 demo_block.

(** The directory after one creation. *)
Definition demo_created : world talc_heap := (run demo_create demo_dir).2.

Lemma demo_dir_heap : heap_wf (w_heap demo_dir).
Proof. apply (reachable_wf _ _ _ _ ∅ demo_ready), rtc_refl. Qed.

Lemma demo_created_heap : heap_wf (w_heap demo_created).
Proof.
  replace (w_heap demo_created) with (demo_alloc demo_block demo_heap) by (vm_compute; reflexivity).
  by apply (reachable_wf _ _ _ _ ∅ demo_ready), demo_alloc_run; [apply demo_layout_ok|..].
Qed.

(** A directory of one slab is idle when its words say so. *)
Definition root_idle (w : world talc_heap) : bool :=
  bool_decide (transaction (w_dir w) = CLEAN) && bool_decide (w_mutation w = MUTATION_CLEAN) &&
  bool_decide (s_next (root_slab (w_dir w)) = 0) &&
  bool_decide (length (s_entries (root_slab (w_dir w))) = Z.to_nat CAPACITY) &&
  forallb (λ e, settled_state (e_state e) && bool_decide (0 ≤ e_state e ≤ usize_max)) (s_entries (root_slab (w_dir w))).

Lemma root_idle_dir rgD rgL (w : world talc_heap) : root_idle w = true → idle_dir rgD rgL 4 [SRoot] w.
Proof.
  unfold root_idle. rewrite !andb_true_iff, !bool_decide_eq_true, forallb_forall.
  intros ((((Htx & Hmu) & Hn) & Hlen) & Hall).
  assert (Hin : ∀ r i, r ∈ [SRoot] → 0 ≤ i < CAPACITY → In (entry_at w r i) (s_entries (root_slab (w_dir w)))).
  { intros r i ->%list_elem_of_singleton Hi. unfold entry_at. cbn [slab_at].
    destruct (lookup_lt_is_Some_2 (s_entries (root_slab (w_dir w))) (Z.to_nat i)) as [e He]; [lia|].
    rewrite He. by eapply list_elem_of_In, list_elem_of_lookup_2. }
  split; try done.
  - by apply chain_last.
  - by apply chain_last.
  - apply NoDup_singleton.
  - cbn. lia.
  - intros r ->%list_elem_of_singleton. done.
  - intros r i Hr Hi. by destruct (andb_prop _ _ (Hall _ (Hin r i Hr Hi))).
  - intros r i Hr Hi. by destruct (andb_prop _ _ (Hall _ (Hin r i Hr Hi))) as [_ ?%bool_decide_eq_true].
Qed.

Lemma demo_peers : two_peers (demo_region 0) (demo_region 1) demo_id.
Proof. by split. Qed.

Definition demo_remove : prog (world talc_heap) _ :=
  remove_in (demo_region 0) 8192 demo_id 24 65536 (mkId demo_id 0 0 1) demo_id (8192 + 512) demo_block demo_block.

Definition demo_recover (debug : bool) : prog (world talc_heap) _ :=
  recover (demo_region 1) 8192 demo_id debug 4 0.

Definition demo_found : record * Z := default (h_record demo_header, 0) (w_headers demo_created !! (8192 + 512)).

(** The creator dies after its fifteenth access, and in a build without debug
    assertions after its eleventh. *)
Lemma create_crash_recovered_witness :
  let out := create_outcome 8192 demo_block 0 (w_heap demo_dir) in
  (∃ v w', run (demo_recover true) (crash 15 demo_create demo_dir) = (Some (Ok v), w') ∧
    settled_around CLEAN demo_dir SRoot 0 out w') ∧
  ∃ w', run (demo_recover false) (crash 11 demo_create demo_dir) = (Some (Ok Quarantined), w') ∧
    settled_around (owner_word 1 ROLLING_BACK) demo_dir SRoot 0 out w'.
Proof.
  assert (Hi : idle_dir (demo_region 0) (demo_region 1) 4 [SRoot] demo_dir) by (apply root_idle_dir; by_eval).
  intros out. split.
  - destruct (create_crash_recovered true (demo_region 0) (demo_region 1) 8192 demo_id 4 [SRoot] demo_dir demo_header 3 demo_block
      (mkSlot 0 0 1 0) 15 Hi demo_peers eq_refl ltac:(by_eval) ltac:(by_eval) demo_dir_heap eq_refl) as (r & Hr & [Hs|(v & w' & E & [Hs|[Hf _]])]).
    + destruct Hs as [Htx _]. vm_compute in Htx. discriminate Htx.
    + injection Hr as <-. exists v, w'. split; [exact E|exact Hs].
    + discriminate Hf.
  - destruct (create_crash_recovered false (demo_region 0) (demo_region 1) 8192 demo_id 4 [SRoot] demo_dir demo_header 3 demo_block
      (mkSlot 0 0 1 0) 11 Hi demo_peers eq_refl ltac:(by_eval) ltac:(by_eval) demo_dir_heap eq_refl) as (r & Hr & [Hs|(v & w' & E & Hs)]).
    + destruct Hs as [Htx _]. vm_compute in Htx. discriminate Htx.
    + injection Hr as <-. assert (Et : transaction (w_dir w') = owner_word 1 ROLLING_BACK).
      { pose proof (f_equal snd E) as E2. cbn [snd] in E2. rewrite <- E2. vm_compute. reflexivity. }
      destruct Hs as [[Htx _]|(_ & -> & phase & Htx & [Ho _] & Hn & He)]; [rewrite Et in Htx; discriminate Htx|].
      exists w'. split; [exact E|]. split; [exact Et|]. split; [exact Ho|]. split; [exact Hn|exact He].
Defined.

(** The remover dies after its twelfth access, the block still allocated. *)
Lemma remove_crash_recovered_witness :
  ∃ v w', run (demo_recover true) (crash 12 demo_remove demo_created) = (Some (Ok v), w') ∧
    settled_around CLEAN demo_created SRoot 0 (λ e mu h,
      remove_outcome 8192 demo_block 1 512 (w_heap demo_created) demo_found.1 demo_found.2 e mu h (w_headers w')) w'.
Proof.
  destruct (remove_crash_recovered true (demo_region 0) (demo_region 1) 8192 demo_id 24 65536 4 [SRoot] demo_created
    0 SRoot 0 1 512 demo_block demo_block demo_found.1 demo_found.2 12) as [Hs|(v & w' & E & [Hs|[Hf _]])].
  - apply root_idle_dir. by_eval.
  - exact demo_peers.
  - exact demo_created_heap.
  - reflexivity.
  - by_eval.
  - by_eval.
  - split; by_eval || (vm_compute; reflexivity).
  - by_eval.
  - by_eval.
  - destruct Hs as [Htx _]. vm_compute in Htx. discriminate Htx.
  - exists v, w'. split; [exact E|exact Hs].
  - discriminate Hf.
Defined.

(** Without debug assertions [quarantine] answers [Quarantined] and leaves
    the transaction word owned by the recovering participant, so that the next
    creation and the next recovery answer [Busy]; with them the word is clean.
    The case is a creator that dies after eleven accesses. *)
Theorem quarantine_release_keeps_transaction :
  let w := crash 11 demo_create demo_dir in
  let released := run (demo_recover false) w in
  let checked := run (demo_recover true) w in
  released.1 = Some (Ok Quarantined) ∧ checked.1 = Some (Ok Quarantined) ∧
  transaction (w_dir released.2) = owner_word 1 ROLLING_BACK ∧ transaction (w_dir checked.2) = CLEAN ∧
  (run demo_create released.2).1 = Some (Err (Busy 1)) ∧
  (run (demo_recover false) released.2).1 = Some (Err (Busy 1)).
Proof. intros w released checked. split_and!; vm_compute; reflexivity. Qed.
