(* ===== verification/Queue.v ===== *)
(** * The bounded queue

    Models [src/src/queue.rs]: the slot control word, the two cursors, and the
    routines that reserve, stage, publish, cancel, claim, take, close and
    repair.  Every load, store, compare-exchange and cell access of the code is
    one action of a [prog], in the order of the code.

    An out-of-range [buf()[index]] panics in the code; the routines return
    [None] there.  [QueueInv] shows it does not happen. *)

From S2P Require Import Prelude Atomic.

(** ** Control words *)

Definition EMPTY : Z := 0.
Definition PRODUCER : Z := 1.
Definition AVAILABLE : Z := 2.
Definition CONSUMER : Z := 3.
Definition BASE_MASK : Z := 3.
Definition COMPLETE : Z := Z.shiftl 1 2.
Definition SOURCE_SHIFT : Z := 3.
Definition SOURCE_MASK : Z := Z.shiftl 0x3f SOURCE_SHIFT.
Definition REAPER_SHIFT : Z := 9.
Definition REAPER_MASK : Z := Z.shiftl 0x3f REAPER_SHIFT.
Definition RESERVED_MASK : Z := Z.shiftl 1 15.

Definition owned (base : Z) (complete : bool) (owner : Z) : Z :=
  Z.lor (Z.lor base (if complete then COMPLETE else 0))
    (Z.shiftl (owner + 1) SOURCE_SHIFT).

Definition base (control : Z) : Z := Z.land control BASE_MASK.

Definition source_of (control : Z) : Z :=
  Z.shiftr (Z.land control SOURCE_MASK) SOURCE_SHIFT.
Definition reaper_of (control : Z) : Z :=
  Z.shiftr (Z.land control REAPER_MASK) REAPER_SHIFT.

Definition canonical (control : Z) : bool :=
  if negb (Z.land control RESERVED_MASK =? 0) then false
  else
    let source := source_of control in
    let reaper := reaper_of control in
    if base control =? EMPTY then control =? EMPTY
    else if (base control =? PRODUCER) || (base control =? CONSUMER) then
      negb (source =? 0) && (source <=? PARTICIPANT_CAPACITY)
        && (reaper <=? PARTICIPANT_CAPACITY)
    else if base control =? AVAILABLE then (source =? 0) && (reaper =? 0)
    else false.

(** ** Data *)

Inductive ReserveError := Full | Busy | Closed.
Inductive ClaimError := ClaimEmpty | ClaimBusy | ClaimClosed.
Inductive Repair := RepairNone | Recovered | RepairBusy (owner : Z) | Corrupted.

#[export] Instance ReserveError_eq_dec : EqDecision ReserveError.
Proof. solve_decision. Defined.
#[export] Instance ClaimError_eq_dec : EqDecision ClaimError.
Proof. solve_decision. Defined.
#[export] Instance Repair_eq_dec : EqDecision Repair.
Proof. solve_decision. Defined.

Record Slot (T : Type) := mkSlot {
  turn : Z;
  control : Z;
  value : option T;  (** [None]: uninitialized bytes *)
}.
Arguments mkSlot {T} turn control value.
Arguments turn {T} _.
Arguments control {T} _.
Arguments value {T} _.

(** The shared words of one queue: [Header], the slot buffer and the lifecycle
    byte. *)
Record qstate (T : Type) := mkQ {
  head : Z;
  tail : Z;
  lifecycle : Z;
  buf : list (Slot T);
}.
Arguments mkQ {T} head tail lifecycle buf.
Arguments head {T} _.
Arguments tail {T} _.
Arguments lifecycle {T} _.
Arguments buf {T} _.

(** What the implementor of [trait Queue] supplies besides the shared words:
    the bit fields of its direction, its participant slot, the lap and the
    number of slots. *)
Record Endpoint := mkEndpoint {
  send_field : Z;
  recv_field : Z;
  owner : Z;
  one_lap : Z;
  capacity : Z;
}.

(** [Claim]; a [Reserved] and a [Staged] are the index of their slot. *)
Record Claim := mkClaim {
  claim_slot : nat;
  next_turn : Z;
  initialized : bool;
}.

Definition Slot_new {T} (t : Z) : Slot T := mkSlot t EMPTY None.

(** [Header::new] with the slots [Slot::new(0..capacity)]. *)
Definition queue_new {T} (capacity : Z) : qstate T :=
  mkQ 0 0 0 (Slot_new <$> seqZ 0 capacity).

(** [(capacity + 1).next_power_of_two()] *)
Definition lap_for (capacity : Z) : Z := 2 ^ Z.log2_up (capacity + 1).

(** ** Atomic accesses *)

Section Accesses.
Context {T : Type}.
Implicit Types q : qstate T.

Definition slot_at (i : nat) q : Slot T := default (Slot_new 0) (buf q !! i).

Definition set_slot (i : nat) (s : Slot T) q : qstate T :=
  mkQ (head q) (tail q) (lifecycle q) (<[i := s]> (buf q)).

Definition load_head q : Z * qstate T := (head q, q).
Definition load_tail q : Z * qstate T := (tail q, q).
Definition load_life q : Z * qstate T := (lifecycle q, q).
Definition load_turn (i : nat) q : Z * qstate T := (turn (slot_at i q), q).
Definition load_control (i : nat) q : Z * qstate T := (control (slot_at i q), q).

Definition store_turn (i : nat) (t : Z) q : unit * qstate T :=
  let s := slot_at i q in (tt, set_slot i (mkSlot t (control s) (value s)) q).
Definition store_control (i : nat) (c : Z) q : unit * qstate T :=
  let s := slot_at i q in (tt, set_slot i (mkSlot (turn s) c (value s)) q).

Definition cas_control (i : nat) (old new : Z) q : bool * qstate T :=
  if control (slot_at i q) =? old then (true, (store_control i new q).2)
  else (false, q).
Definition cas_tail (old new : Z) q : bool * qstate T :=
  if tail q =? old then (true, mkQ (head q) new (lifecycle q) (buf q))
  else (false, q).
Definition cas_head (old new : Z) q : bool * qstate T :=
  if head q =? old then (true, mkQ new (tail q) (lifecycle q) (buf q))
  else (false, q).

Definition fetch_or_life (bits : Z) q : Z * qstate T :=
  (lifecycle q, mkQ (head q) (tail q) (Z.lor (lifecycle q) bits) (buf q)).

Definition read_value (i : nat) q : option T * qstate T := (value (slot_at i q), q).
Definition write_value (i : nat) (v : T) q : unit * qstate T :=
  let s := slot_at i q in (tt, set_slot i (mkSlot (turn s) (control s) (Some v)) q).
End Accesses.

(** ** Reservation *)

Section Routines.
Context {T : Type}.
Implicit Types e : Endpoint.

Definition field_state (field : Z) : prog (qstate T) Z :=
  act l <- load_life; Ret (Z.land (Z.shiftr l field) 3).

Definition state e : prog (qstate T) Z :=
  do send <- field_state (send_field e);
  do recv <- field_state (recv_field e);
  Ret (Z.lor send recv).

Definition index_of e (position : Z) : Z := Z.land position (one_lap e - 1).

(** The cursor after [position]. *)
Definition advance e (position : Z) : Z :=
  let index := index_of e position in
  let lap := Z.land position (wnot usize_bits (one_lap e - 1)) in
  if index + 1 <? capacity e then position + 1
  else wrapping_add lap (one_lap e).

(** Gives the slot back and reports [error]. *)
Definition reserve_undo (i : nat) (error : ReserveError)
    : prog (qstate T) (option (result nat ReserveError)) :=
  act_ store_control i EMPTY; Ret (Some (Err error)).

Definition reserve e : prog (qstate T) (option (result nat ReserveError)) :=
  do st <- state e;
  if negb (st =? 0) then Ret (Some (Err Closed)) else
  act tail <- load_tail;
  let index := index_of e tail in
  let new_tail := advance e tail in
  if negb (index <? capacity e) then Ret None else
  let i := Z.to_nat index in
  act won <- cas_control i EMPTY (owned PRODUCER false (owner e));
  if negb won then
    act head <- load_head;
    Ret (Some (Err (if wrapping_add head (one_lap e) =? tail then Full else Busy)))
  else
  act turn <- load_turn i;
  if negb (turn =? tail) then reserve_undo i Busy else
  act tail_now <- load_tail;
  if negb (tail_now =? tail) then reserve_undo i Busy else
  do st' <- state e;
  if negb (st' =? 0) then reserve_undo i Closed else
  act moved <- cas_tail tail new_tail;
  if negb moved then reserve_undo i Busy else
  Ret (Some (Ok i)).

(** [Reserved::reserved_owner] *)
Definition reserved_owner (i : nat) : prog (qstate T) Z :=
  act c <- load_control i; Ret (wrap 8 (source_of c - 1)).

(** [Reserved::stage] *)
Definition stage (i : nat) (v : T) : prog (qstate T) unit :=
  act_ write_value i v;
  do o <- reserved_owner i;
  act_ store_control i (owned PRODUCER true o);
  Ret tt.

(** [Reserved::skip], which is also the drop of an unfinished [Reserved] or
    [Staged]. *)
Definition skip (i : nat) : prog (qstate T) unit :=
  act_ store_control i AVAILABLE; Ret tt.

(** [Staged::publish] *)
Definition publish (i : nat) : prog (qstate T) unit :=
  act_ store_control i (Z.lor AVAILABLE COMPLETE); Ret tt.

(** [Staged::cancel] *)
Definition cancel (i : nat) : prog (qstate T) (option T) :=
  act v <- read_value i;
  do _ <- skip i;
  Ret v.

(** ** Claims *)

(** [Claim::recycle], which is also the drop of an unfinished [Claim]. *)
Definition recycle (c : Claim) : prog (qstate T) unit :=
  act_ store_turn (claim_slot c) (next_turn c);
  act_ store_control (claim_slot c) EMPTY;
  Ret tt.

(** [Claim::item] *)
Definition item (c : Claim) : prog (qstate T) (option T) :=
  act v <- read_value (claim_slot c); Ret v.

(** [Claim::take] *)
Definition take (c : Claim) : prog (qstate T) (option T) :=
  act v <- read_value (claim_slot c);
  do _ <- recycle c;
  Ret v.

Definition claim_undo (i : nat) (available : Z)
    : prog (qstate T) (option (result Claim ClaimError)) :=
  act_ store_control i available; Ret (Some (Err ClaimBusy)).

Definition claim e : prog (qstate T) (option (result Claim ClaimError)) :=
  do st <- field_state (recv_field e);
  if negb (st =? 0) then Ret (Some (Err ClaimClosed)) else
  act head <- load_head;
  let index := index_of e head in
  let new := advance e head in
  if negb (index <? capacity e) then Ret None else
  let i := Z.to_nat index in
  act available <- load_control i;
  if negb (available =? AVAILABLE) && negb (available =? Z.lor AVAILABLE COMPLETE) then
    act tail <- load_tail;
    Ret (Some (Err (if tail =? head then ClaimEmpty else ClaimBusy)))
  else
  let initialized := negb (Z.land available COMPLETE =? 0) in
  act won <- cas_control i available (owned CONSUMER initialized (owner e));
  if negb won then Ret (Some (Err ClaimBusy)) else
  act turn <- load_turn i;
  if negb (turn =? head) then claim_undo i available else
  act head_now <- load_head;
  if negb (head_now =? head) then claim_undo i available else
  act moved <- cas_head head new;
  if negb moved then claim_undo i available else
  let c := mkClaim i (wrapping_add head (one_lap e)) initialized in
  if negb initialized then
    do _ <- recycle c;
    Ret (Some (Err ClaimBusy))
  else Ret (Some (Ok c)).

(** ** Closing *)

Definition is_empty : prog (qstate T) bool :=
  act h <- load_head;
  act t <- load_tail;
  Ret (t =? h).

Definition close_field (field : Z) : prog (qstate T) unit :=
  act_ fetch_or_life (Z.shiftl 1 field); Ret tt.

(** [buf().iter().all(|slot| base(control) != owned_base)], from slot [i] on. *)
Fixpoint all_not_based (owned_base : Z) (slots : list nat) : prog (qstate T) bool :=
  match slots with
  | [] => Ret true
  | i :: slots =>
    act c <- load_control i;
    if base c =? owned_base then Ret false else all_not_based owned_base slots
  end.

Definition finish_field e (field owned_base : Z) : prog (qstate T) Z :=
  do st <- field_state field;
  if st =? 1 then
    do clear <- all_not_based owned_base (seq 0 (Z.to_nat (capacity e)));
    if clear then act_ fetch_or_life (Z.shiftl 2 field); Ret 3
    else Ret st
  else Ret st.

Definition close_send e : prog (qstate T) unit := close_field (send_field e).
Definition close_recv e : prog (qstate T) unit := close_field (recv_field e).

Definition send_closed e : prog (qstate T) bool :=
  do st <- finish_field e (send_field e) PRODUCER; Ret (st =? 3).
Definition recv_closed e : prog (qstate T) bool :=
  do st <- finish_field e (recv_field e) CONSUMER; Ret (st =? 3).

Definition terminal e : prog (qstate T) bool :=
  do r <- recv_closed e;
  if r then Ret true else
  do s <- send_closed e;
  if s then is_empty else Ret false.

(** ** Whole transfers

    [QueueTx::try_send] and [QueueRx::try_recv]. *)

Inductive TrySendError := SendFull (v : T) | SendBusy (v : T) | Disconnected (v : T).
Inductive TryRecvError := RecvEmpty | RecvBusy | RecvDisconnected.

Definition try_send e (v : T) : prog (qstate T) (option (result unit TrySendError)) :=
  do r <- reserve e;
  match r with
  | None => Ret None
  | Some (Ok i) =>
    do _ <- stage i v;
    do _ <- publish i;
    Ret (Some (Ok tt))
  | Some (Err Closed) => Ret (Some (Err (Disconnected v)))
  | Some (Err Full) => Ret (Some (Err (SendFull v)))
  | Some (Err Busy) => Ret (Some (Err (SendBusy v)))
  end.

Definition try_recv e : prog (qstate T) (option (result (option T) TryRecvError)) :=
  do r <- claim e;
  match r with
  | None => Ret None
  | Some (Ok c) => do v <- take c; Ret (Some (Ok v))
  | Some (Err ClaimClosed) => Ret (Some (Err RecvDisconnected))
  | Some (Err ClaimEmpty) =>
    do t <- terminal e;
    Ret (Some (Err (if t then RecvDisconnected else RecvEmpty)))
  | Some (Err ClaimBusy) => Ret (Some (Err RecvBusy))
  end.
End Routines.

Arguments TrySendError : clear implicits.

(** ** Repair after a participant's death

    The [release] callback resolves the storage a token stands for; it acts on
    a state [X] of its own, beside the queue. *)

Section RepairSlot.
Context {T X : Type}.
Context (release : T → Z → X → bool * X).

Definition on_queue {B} (f : qstate T → B * qstate T) (s : qstate T * X)
    : B * (qstate T * X) :=
  let '(b, q) := f s.1 in (b, (q, s.2)).

(** Reads the slot's value and hands it to [release]. *)
Definition release_value (i : nat) (owner : Z) (s : qstate T * X)
    : bool * (qstate T * X) :=
  match value (slot_at i s.1) with
  | Some v => let '(ok, x) := release v owner s.2 in (ok, (s.1, x))
  | None => (true, s)
  end.

Definition half_range : Z := Z.shiftl 1 (usize_bits - 1).

(** The [PRODUCER] arm: [complete] is the completion bit, [source] the owner
    field of the observed word. *)
Definition repair_producer (i : nat) (complete source : Z)
    : prog (qstate T * X) Repair :=
  act turn <- on_queue (load_turn i);
  act tail <- on_queue load_tail;
  let distance := wrapping_sub tail turn in
  if distance =? 0 then
    if negb (complete =? 0) then Ret Corrupted
    else act_ on_queue (store_control i EMPTY); Ret Recovered
  else if distance <? half_range then
    if negb (complete =? 0) then
      act ok <- release_value i (source - 1);
      if ok then act_ on_queue (store_control i AVAILABLE); Ret Recovered
      else Ret Corrupted
    else act_ on_queue (store_control i AVAILABLE); Ret Recovered
  else Ret Corrupted.

(** The end of the [CONSUMER] arm: the claim had moved [head]. *)
Definition repair_recycle (lap : Z) (i : nat) (head turn : Z)
    : prog (qstate T * X) Repair :=
  let distance := wrapping_sub head turn in
  if negb (distance =? 0) && (distance <? half_range) then
    act_ on_queue (store_turn i (wrapping_add turn lap));
    act_ on_queue (store_control i EMPTY); Ret Recovered
  else act_ on_queue (store_control i EMPTY); Ret Recovered.

Definition repair_consumer (lap : Z) (i : nat) (complete source : Z)
    : prog (qstate T * X) Repair :=
  act turn <- on_queue (load_turn i);
  act head <- on_queue load_head;
  if head =? turn then
    act_ on_queue (store_control i (Z.lor AVAILABLE complete)); Ret Recovered
  else if negb (complete =? 0) then
    act ok <- release_value i (source - 1);
    if ok then repair_recycle lap i head turn else Ret Corrupted
  else repair_recycle lap i head turn.

(** The word that records [live] as the reaper of the slot, or the verdict
    when there is nothing to repair. *)
Definition repair_next (control dead live : Z) : Repair + Z :=
  let source := source_of control in
  let reaper := reaper_of control in
  if (source =? dead + 1) && (reaper =? live + 1) then inr control
  else if reaper =? dead + 1 then
    inr (Z.lor (Z.land control (wnot 16 REAPER_MASK)) (Z.shiftl (live + 1) REAPER_SHIFT))
  else if (source =? dead + 1) && (reaper =? 0) then
    inr (Z.lor control (Z.shiftl (live + 1) REAPER_SHIFT))
  else if source =? dead + 1 then inl (RepairBusy (reaper - 1))
  else inl RepairNone.

Definition repair_slot_with (lap cap index dead live : Z) : prog (qstate T * X) Repair :=
  if (PARTICIPANT_CAPACITY <=? dead) || (PARTICIPANT_CAPACITY <=? live) then Ret Corrupted
  else if negb (index <? cap) then Ret Corrupted
  else
  let i := Z.to_nat index in
  act control <- on_queue (load_control i);
  if negb (canonical control) then Ret Corrupted
  else if negb ((base control =? PRODUCER) || (base control =? CONSUMER)) then Ret RepairNone
  else
  match repair_next control dead live with
  | inl verdict => Ret verdict
  | inr next =>
    let finish :=
      let complete := Z.land control COMPLETE in
      if base control =? PRODUCER then repair_producer i complete (source_of control)
      else repair_consumer lap i complete (source_of control) in
    if negb (next =? control) then
      act won <- on_queue (cas_control i control next);
      if won then finish else Ret (RepairBusy live)
    else finish
  end.
End RepairSlot.

(** ** Control-word facts *)

Section Words.
Lemma owned_fields b c o :
  b = PRODUCER ∨ b = CONSUMER → 0 ≤ o < PARTICIPANT_CAPACITY →
  base (owned b c o) = b ∧ source_of (owned b c o) = o + 1 ∧
  reaper_of (owned b c o) = 0 ∧
  Z.land (owned b c o) COMPLETE = (if c then COMPLETE else 0) ∧
  canonical (owned b c o) = true.
Proof.
  intros Hb Ho. unfold PARTICIPANT_CAPACITY, usize_bits in Ho.
  assert (Hall : all_below 63 (λ o,
    forallb (λ b, forallb (λ c : bool,
      (base (owned b c o) =? b) && (source_of (owned b c o) =? o + 1)
      && (reaper_of (owned b c o) =? 0)
      && (Z.land (owned b c o) COMPLETE =? (if c then COMPLETE else 0))
      && canonical (owned b c o))
      [true; false]) [PRODUCER; CONSUMER]) = true) by reflexivity.
  apply (all_below_spec _ _ o) in Hall; [|lia].
  cbn [forallb] in Hall. bools.
  destruct Hb as [-> | ->], c; bools; auto.
Qed.

Lemma owned_not_others b c o :
  b = PRODUCER ∨ b = CONSUMER → 0 ≤ o < PARTICIPANT_CAPACITY →
  owned b c o ≠ EMPTY ∧ owned b c o ≠ AVAILABLE ∧
  owned b c o ≠ Z.lor AVAILABLE COMPLETE.
Proof.
  intros Hb Ho. destruct (owned_fields b c o Hb Ho) as (Hbase & _).
  assert (base EMPTY = EMPTY ∧ base AVAILABLE = AVAILABLE ∧
    base (Z.lor AVAILABLE COMPLETE) = AVAILABLE) as (E1 & E2 & E3) by done.
  destruct Hb as [-> | ->]; repeat split; intros E; rewrite E in Hbase; done.
Qed.
End Words.
