(* ===== verification/QueueInv.v ===== *)
(** * The queue under any interleaving

    Auxiliary state and invariant for [Queue]: a log of cells, one per granted
    reservation, in reservation order.  Cell [k] lives in slot [k mod cap] and
    is stamped with position [pos k]; the cursors stand at the number of
    claimed cells and at the number of reserved ones.  [rely t] is what a
    thread may assume of the others. *)

From S2P Require Import Prelude Atomic Queue.

(** ** Positions *)

Section Indices.
Context (cap : nat) (Hcap : (0 < cap)%nat).

Lemma idx_lt (k : nat) : (k mod cap < cap)%nat.
Proof. apply Nat.mod_upper_bound. lia. Qed.

Lemma succ_same k : (S (k mod cap) < cap)%nat →
  (S k / cap = k / cap ∧ S k mod cap = S (k mod cap))%nat.
Proof.
  intros H. pose proof (Nat.div_mod_eq k cap).
  assert (E : (S k = cap * (k / cap) + S (k mod cap))%nat) by lia.
  split.
  - symmetry. eapply Nat.div_unique; eauto.
  - symmetry. eapply Nat.mod_unique; eauto.
Qed.

Lemma succ_wrap k : S (k mod cap) = cap →
  (S k / cap = S (k / cap) ∧ S k mod cap = 0)%nat.
Proof.
  intros H. pose proof (Nat.div_mod_eq k cap).
  assert (E : (S k = cap * S (k / cap) + 0)%nat) by lia.
  split.
  - symmetry. eapply Nat.div_unique; [|exact E]; lia.
  - symmetry. eapply Nat.mod_unique; [|exact E]; lia.
Qed.

Lemma add_cap k : ((k + cap) / cap = S (k / cap) ∧ (k + cap) mod cap = k mod cap)%nat.
Proof.
  replace (k + cap)%nat with (k + 1 * cap)%nat by lia.
  rewrite Nat.div_add, Nat.Div0.mod_add by lia. lia.
Qed.

Lemma same_index k k' : (k ≤ k' < k + cap)%nat → (k mod cap = k' mod cap)%nat → k = k'.
Proof.
  intros. pose proof (Nat.div_mod_eq k cap). pose proof (Nat.div_mod_eq k' cap).
  assert (k / cap = k' / cap)%nat as E; [|rewrite E in *; lia].
  assert (k / cap ≤ k' / cap)%nat by (apply Nat.Div0.div_le_mono; lia).
  assert (¬ (k / cap < k' / cap)%nat); [|lia]. intros ?. nia.
Qed.

Lemma window_inj h k k' :
  (h ≤ k < h + cap)%nat → (h ≤ k' < h + cap)%nat → (k mod cap = k' mod cap)%nat → k = k'.
Proof.
  intros. destruct (Nat.le_ge_cases k k').
  - apply same_index; [lia|done].
  - symmetry. apply same_index; [lia|done].
Qed.
End Indices.

Section Positions.
Context (lapbits : Z) (cap : nat).
Context (Hlap : 0 ≤ lapbits < usize_bits).
Context (Hcap : (0 < cap)%nat).
Context (Hfit : Z.of_nat cap < 2 ^ lapbits).

(** The stamp of the [k]-th cell: its lap, modulo the number of laps a
    [usize] holds, and its index in the lap. *)
Definition pos (k : nat) : Z :=
  (Z.of_nat (k / cap) mod 2 ^ (usize_bits - lapbits)) * 2 ^ lapbits
  + Z.of_nat (k mod cap).

Definition geometry_ok (e : Endpoint) : Prop :=
  one_lap e = 2 ^ lapbits ∧ capacity e = Z.of_nat cap.

Lemma laps_pow : 2 ^ usize_bits = 2 ^ (usize_bits - lapbits) * 2 ^ lapbits.
Proof. rewrite <- Z.pow_add_r by lia. f_equal. lia. Qed.

Lemma pos_pack k : pos k =
  pack (Z.of_nat (k / cap) mod 2 ^ (usize_bits - lapbits)) lapbits (Z.of_nat (k mod cap)).
Proof.
  rewrite pack_add; [done|lia|]. pose proof (idx_lt cap Hcap k). lia.
Qed.

Lemma pos_word k : is_word usize_bits (pos k).
Proof.
  rewrite pos_pack. pose proof (idx_lt cap Hcap k). apply pack_word; [lia|lia|].
  apply Z.mod_pos_bound, pow2_pos. lia.
Qed.

Lemma pos_index e k : geometry_ok e → index_of e (pos k) = Z.of_nat (k mod cap).
Proof.
  intros [HL _]. unfold index_of. rewrite HL, Z.sub_1_r, <- Z.ones_equiv, pos_pack.
  apply pack_lo; [lia|]. pose proof (idx_lt cap Hcap k). lia.
Qed.

Lemma mask_high p :
  is_word usize_bits p →
  Z.land p (wnot usize_bits (2 ^ lapbits - 1)) = Z.shiftl (Z.shiftr p lapbits) lapbits.
Proof.
  intros Hp. rewrite <- Z.ldiff_ones_r by lia. unfold wnot.
  rewrite !Z.sub_1_r, <- !Z.ones_equiv.
  rewrite Z.sub_nocarry_ldiff.
  - rewrite !Z.ldiff_land, Z.land_assoc, (Z.land_ones p), Z.mod_small by (done || lia). done.
  - apply Z.bits_inj'. intros n Hn. rewrite Z.ldiff_spec, Z.bits_0.
    destruct (Z.lt_ge_cases n lapbits).
    + rewrite (Z.ones_spec_low usize_bits) by lia. by rewrite andb_false_r.
    + by rewrite Z.ones_spec_high by lia.
Qed.

Lemma pos_advance e k : geometry_ok e → advance e (pos k) = pos (S k).
Proof.
  intros He. pose proof He as [HL HC]. pose proof (idx_lt cap Hcap k).
  unfold advance. rewrite (pos_index e k He), HC, HL.
  destruct (Z.ltb_spec (Z.of_nat (k mod cap) + 1) (Z.of_nat cap)).
  - destruct (succ_same cap Hcap k) as [Eq Er]; [lia|].
    unfold pos. rewrite Eq, Er. lia.
  - destruct (succ_wrap cap Hcap k) as [Eq Er]; [lia|].
    rewrite mask_high by apply pos_word.
    rewrite pos_pack, pack_hi, Z.shiftl_mul_pow2 by lia.
    unfold wrapping_add, wrap, pos. rewrite laps_pow.
    set (N := 2 ^ (usize_bits - lapbits)). set (L := 2 ^ lapbits).
    assert (0 < N) by (apply pow2_pos; lia). assert (0 < L) by (apply pow2_pos; lia).
    replace ((Z.of_nat (k / cap) mod N) * L + L)
      with ((Z.of_nat (k / cap) mod N + 1) * L) by lia.
    rewrite Z.mul_mod_distr_r, Z.add_mod_idemp_l by lia.
    rewrite Eq, Er, Nat2Z.inj_succ. simpl. rewrite Z.add_0_r. done.
Qed.

Lemma pos_lap e k : geometry_ok e → wrapping_add (pos k) (one_lap e) = pos (k + cap).
Proof.
  intros [-> _]. destruct (add_cap cap Hcap k) as [Eq Er]. pose proof (idx_lt cap Hcap k).
  unfold wrapping_add, wrap, pos. rewrite laps_pow, Eq, Er.
  set (N := 2 ^ (usize_bits - lapbits)). set (L := 2 ^ lapbits).
  assert (0 < N) by (apply pow2_pos; lia). assert (0 < L) by (apply pow2_pos; lia).
  set (q := Z.of_nat (k / cap)). set (r := Z.of_nat (k mod cap)).
  replace (q mod N * L + r + L) with ((q mod N + 1) * L + r) by lia.
  rewrite Nat2Z.inj_succ. fold q. fold L in Hfit. subst r.
  rewrite <- (Z.add_mod_idemp_l ((q mod N + 1) * L)) by lia.
  rewrite Z.mul_mod_distr_r, Z.add_mod_idemp_l, <- Z.add_1_r by lia.
  apply Z.mod_small. pose proof (Z.mod_pos_bound (q + 1) N).
  assert ((q + 1) mod N * L ≤ (N - 1) * L) by (apply Z.mul_le_mono_nonneg_r; lia). lia.
Qed.

(** Stamps tell apart the positions of a window and the one a lap later. *)
Lemma pos_inj k k' : (k ≤ k' ≤ k + cap)%nat → pos k = pos k' → k = k'.
Proof.
  intros Hk E. rewrite !pos_pack in E.
  pose proof (idx_lt cap Hcap k). pose proof (idx_lt cap Hcap k').
  apply pack_inj in E as [Eq Er]; [|lia..]. apply Nat2Z.inj in Er.
  destruct (decide (k' = k + cap)%nat) as [->|].
  - exfalso. destruct (add_cap cap Hcap k) as [E' _]. rewrite E', Nat2Z.inj_succ in Eq.
    set (N := 2 ^ (usize_bits - lapbits)) in *.
    assert (1 < N) by (apply Z.pow_gt_1; lia).
    rewrite <- Z.add_1_r, <- Z.add_mod_idemp_l in Eq by lia.
    pose proof (Z.mod_pos_bound (Z.of_nat (k / cap)) N).
    destruct (decide (Z.of_nat (k / cap) mod N + 1 = N)) as [E|].
    + rewrite E, Z.mod_same in Eq by lia. lia.
    + rewrite (Z.mod_small (_ + 1)) in Eq by lia. lia.
  - apply (same_index cap Hcap); [lia|done].
Qed.


(** Cursors a lap apart at most are a lap apart at most as words. *)
Lemma pos_distance k k' : (k < k' ≤ k + cap)%nat →
  1 ≤ wrapping_sub (pos k') (pos k) ≤ 2 ^ lapbits ∧
  wrapping_sub (pos k) (pos k') = 2 ^ usize_bits - wrapping_sub (pos k') (pos k).
Proof.
  intros Hk. pose proof (idx_lt cap Hcap k). pose proof (idx_lt cap Hcap k').
  set (N := 2 ^ (usize_bits - lapbits)). set (L := 2 ^ lapbits).
  assert (HN : 1 < N) by (apply Z.pow_gt_1; lia). assert (HL : 0 < L) by (apply pow2_pos; lia).
  assert (HNL : 2 ^ usize_bits = N * L) by apply laps_pow.
  assert (Hd : ∃ d u, pos k' - pos k = d + u * 2 ^ usize_bits ∧ 1 ≤ d ≤ L).
  { unfold pos. fold N L.
    pose proof (Nat.div_mod_eq k cap). pose proof (Nat.div_mod_eq k' cap).
    pose proof (Z.div_mod (Z.of_nat (k / cap)) N). pose proof (Z.div_mod (Z.of_nat (k' / cap)) N).
    assert (k / cap ≤ k' / cap ≤ S (k / cap))%nat.
    { split; [apply Nat.Div0.div_le_mono; lia|].
      replace (S (k / cap)) with ((k + cap) / cap)%nat by apply (add_cap cap Hcap).
      apply Nat.Div0.div_le_mono. lia. }
    exists ((Z.of_nat (k' / cap) - Z.of_nat (k / cap)) * L + (Z.of_nat (k' mod cap) - Z.of_nat (k mod cap))),
      (Z.of_nat (k / cap) / N - Z.of_nat (k' / cap) / N).
    split; [rewrite HNL; nia|].
    assert (k' / cap = k / cap ∨ k' / cap = S (k / cap))%nat as [E|E] by lia; rewrite E in *.
    - rewrite Z.sub_diag, Z.mul_0_l. fold L in Hfit. nia.
    - replace (Z.of_nat (S (k / cap)) - Z.of_nat (k / cap)) with 1 by lia. fold L in Hfit. nia. }
  destruct Hd as (d & u & E & Hd). unfold wrapping_sub, wrap. fold L.
  assert (E' : pos k - pos k' = (2 ^ usize_bits - d) + (- u - 1) * 2 ^ usize_bits) by lia.
  assert (d < 2 ^ usize_bits) by nia.
  rewrite E, E', !Z.mod_add, (Z.mod_small d), Z.mod_small by lia. lia.
Qed.
End Positions.

(** ** Auxiliary state *)

Section Ghost.
Context {V : Type}.

(** What has become of a granted reservation; [Trying] is a consumer that
    holds the slot and has not moved the head, [Rewound] one that has stored
    the next turn and not yet emptied the slot.  A [None] payload is a skipped
    cell. *)
Inductive cst :=
| Reserved
| Written (v : V)
| Staged (v : V)
| Ready (o : option V)
| Trying (c : nat) (o : option V)
| Claimed (c : nat) (o : option V)
| Rewound (c : nat) (o : option V)
| Done (c : nat) (o : option V).

Record gcell := mkCell { prod : nat; st : cst }.

(** A slot waits for position [k], perhaps held by a producer whose
    reservation is not granted yet (with a flag: it has passed the second
    closing check), or it holds cell [k]. *)
Inductive gslot := Fr (k : nat) (o : option (nat * bool)) | Oc (k : nat).

Record gst := mkG { cells : list gcell; slots : list gslot; gH : nat; glife : Z }.

Definition gT (g : gst) : nat := length (cells g).

Definition holder (c : gcell) : option nat :=
  match st c with
  | Reserved | Written _ | Staged _ => Some (prod c)
  | Trying t _ | Claimed t _ | Rewound t _ => Some t
  | Ready _ | Done _ _ => None
  end.

Definition payload (c : gcell) : option V :=
  match st c with
  | Reserved | Written _ | Staged _ => None
  | Ready o | Trying _ o | Claimed _ o | Rewound _ o | Done _ o => o
  end.

Definition taker (c : gcell) : option nat :=
  match st c with
  | Claimed t _ | Rewound t _ | Done t _ => Some t
  | _ => None
  end.

Definition producing (c : gcell) : bool :=
  match st c with Reserved | Written _ | Staged _ => true | _ => false end.

Definition set_cell (k : nat) (c : gcell) (g : gst) : gst :=
  mkG (<[k := c]> (cells g)) (slots g) (gH g) (glife g).
Definition set_gslot (i : nat) (w : gslot) (g : gst) : gst :=
  mkG (cells g) (<[i := w]> (slots g)) (gH g) (glife g).
Definition or_life (bits : Z) (g : gst) : gst :=
  mkG (cells g) (slots g) (gH g) (Z.lor (glife g) bits).

(** The message [t] has published in, or claimed from, a cell. *)
Definition sent_one (t : nat) (c : gcell) : option V :=
  if decide (prod c = t) then payload c else None.
Definition recv_one (t : nat) (c : gcell) : option V :=
  if decide (taker c = Some t) then payload c else None.

(** The messages [t] has published and the ones it has claimed, in the order
    of the log. *)
Definition sent_by (t : nat) (g : gst) : list V := omap (sent_one t) (cells g).
Definition recv_by (t : nat) (g : gst) : list V := omap (recv_one t) (cells g).

(** ** Interference *)

Context (sf : Z) (cap : nat).

Definition closed (g : gst) : bool := Z.testbit (glife g) sf.
Definition finished (g : gst) : bool := Z.testbit (glife g) (sf + 1).

Inductive try_step (t : nat) (g : gst) : option (nat * bool) → option (nat * bool) → Prop :=
| try_hold : try_step t g None (Some (t, false))
| try_drop b : try_step t g (Some (t, b)) None
| try_pass b : closed g = false → try_step t g (Some (t, b)) (Some (t, true)).

Inductive cell_step (t : nat) : gcell → gcell → Prop :=
| cs_write v : cell_step t (mkCell t Reserved) (mkCell t (Written v))
| cs_stage v : cell_step t (mkCell t (Written v)) (mkCell t (Staged v))
| cs_publish v : cell_step t (mkCell t (Staged v)) (mkCell t (Ready (Some v)))
| cs_skip : cell_step t (mkCell t Reserved) (mkCell t (Ready None))
| cs_cancel v : cell_step t (mkCell t (Staged v)) (mkCell t (Ready None))
| cs_drop v : cell_step t (mkCell t (Written v)) (mkCell t (Ready None))
| cs_try p o : cell_step t (mkCell p (Ready o)) (mkCell p (Trying t o))
| cs_untry p o : cell_step t (mkCell p (Trying t o)) (mkCell p (Ready o))
| cs_rewind p o : cell_step t (mkCell p (Claimed t o)) (mkCell p (Rewound t o)).

(** What one atomic action of thread [t] does to the auxiliary state. *)
Inductive guar (t : nat) (g : gst) : gst → Prop :=
| gu_id : guar t g g
| gu_try i k o o' :
    slots g !! i = Some (Fr k o) → try_step t g o o' →
    guar t g (set_gslot i (Fr k o') g)
| gu_reserve i :
    slots g !! i = Some (Fr (gT g) (Some (t, true))) → finished g = false →
    guar t g (mkG (cells g ++ [mkCell t Reserved]) (<[i := Oc (gT g)]> (slots g)) (gH g) (glife g))
| gu_cell k c c' :
    cells g !! k = Some c → cell_step t c c' → guar t g (set_cell k c' g)
| gu_claim p o :
    cells g !! gH g = Some (mkCell p (Trying t o)) →
    guar t g (mkG (<[gH g := mkCell p (Claimed t o)]> (cells g)) (slots g) (S (gH g)) (glife g))
| gu_done i k p o :
    cells g !! k = Some (mkCell p (Rewound t o)) → slots g !! i = Some (Oc k) →
    guar t g (mkG (<[k := mkCell p (Done t o)]> (cells g))
                  (<[i := Fr (k + cap) None]> (slots g)) (gH g) (glife g))
| gu_life bits : 0 ≤ bits → guar t g (or_life bits g).

(** What [t] must tolerate: any actions of the other threads. *)
Definition rely (t : nat) : gst → gst → Prop := rely_of guar t.

Lemma rely_refl t g : rely t g g.
Proof. apply rely_of_refl. Qed.

Lemma rely_trans t g1 g2 g3 : rely t g1 g2 → rely t g2 g3 → rely t g1 g3.
Proof. apply rely_of_trans. Qed.

Lemma guar_rely t t' g g' : t' ≠ t → guar t' g g' → rely t g g'.
Proof. apply rely_of_guar. Qed.

Lemma stable_guar t (P : gst → Prop) :
  (∀ t' g g', t' ≠ t → guar t' g g' → P g → P g') → stable rely t P.
Proof. apply stable_of. Qed.
End Ghost.
(** Evaluates the accessors of cells with a known status. *)
Ltac cell_eval :=
  unfold sent_one, recv_one, holder, payload, taker, producing in *; simpl in *.

Arguments cst : clear implicits.
Arguments gcell : clear implicits.
Arguments gst : clear implicits.


(** ** The invariant *)

Section Invariant.
Context {V : Type} (lapbits : Z) (cap : nat) (sf : Z) (own : nat → Z).
Context (Hlap : 0 ≤ lapbits < usize_bits).
Context (Hcap : (0 < cap)%nat).
Context (Hfit : Z.of_nat cap < 2 ^ lapbits).

#[local] Abbreviation pos := (pos lapbits cap).
#[local] Abbreviation guar := (guar (V:=V) sf cap).
#[local] Abbreviation rely := (rely (V:=V) sf cap).
Implicit Types (g : gst V) (q : qstate V) (c : gcell V).

Definition avail (o : option V) : Z :=
  match o with Some _ => Z.lor AVAILABLE COMPLETE | None => AVAILABLE end.

Definition holds_value (o : option V) (s : Slot V) : Prop :=
  match o with Some v => value s = Some v | None => True end.

(** How cell [k] sits in its slot, with the head at [h] and the tail at [tl]. *)
Definition cell_ok (h tl k : nat) c (s : Slot V) : Prop :=
  match st c with
  | Reserved => (h ≤ k)%nat ∧ turn s = pos k ∧
      control s = owned PRODUCER false (own (prod c))
  | Written v => (h ≤ k)%nat ∧ turn s = pos k ∧ value s = Some v ∧
      control s = owned PRODUCER false (own (prod c))
  | Staged v => (h ≤ k)%nat ∧ turn s = pos k ∧ value s = Some v ∧
      control s = owned PRODUCER true (own (prod c))
  | Ready o => (h ≤ k)%nat ∧ turn s = pos k ∧ holds_value o s ∧ control s = avail o
  | Trying t o => (h ≤ k)%nat ∧ turn s = pos k ∧ holds_value o s ∧
      control s = owned CONSUMER (bool_decide (is_Some o)) (own t)
  | Claimed t o => (k < h)%nat ∧ (tl ≤ k + cap)%nat ∧ turn s = pos k ∧ holds_value o s ∧
      control s = owned CONSUMER (bool_decide (is_Some o)) (own t)
  | Rewound t o => (k < h)%nat ∧ (tl ≤ k + cap)%nat ∧ turn s = pos (k + cap) ∧
      holds_value o s ∧ control s = owned CONSUMER (bool_decide (is_Some o)) (own t)
  | Done _ _ => False
  end.

(** The control word of a cell that is not done. *)
Definition cell_control c : Z :=
  match st c with
  | Reserved | Written _ => owned PRODUCER false (own (prod c))
  | Staged _ => owned PRODUCER true (own (prod c))
  | Ready o => avail o
  | Trying t o | Claimed t o | Rewound t o =>
    owned CONSUMER (bool_decide (is_Some o)) (own t)
  | Done _ _ => EMPTY
  end.

Lemma cell_ok_control h tl k c s :
  cell_ok h tl k c s → control s = cell_control c ∧ ∀ t o, st c ≠ Done t o.
Proof.
  unfold cell_ok, cell_control. destruct (st c); intros Hok; [..|done];
    (split; [apply Hok|done]).
Qed.

Definition try_control (o : option (nat * bool)) : Z :=
  match o with Some (t, _) => owned PRODUCER false (own t) | None => EMPTY end.

Definition slot_ok g (i : nat) (w : gslot) (s : Slot V) : Prop :=
  match w with
  | Fr k o => (k mod cap = i)%nat ∧ (gT g ≤ k < gH g + cap)%nat ∧ turn s = pos k ∧
      control s = try_control o
  | Oc k => (k mod cap = i)%nat ∧
      ∃ c, cells g !! k = Some c ∧ cell_ok (gH g) (gT g) k c s
  end.

(** The slot may still receive a message from a producer that got past the
    closing check. *)
Definition live_producer g (w : gslot) : Prop :=
  match w with
  | Fr _ (Some (_, b)) => b = true
  | Fr _ None => False
  | Oc k => ∃ c, cells g !! k = Some c ∧ producing c = true
  end.

Record inv g q : Prop := {
  inv_buf : length (buf q) = cap;
  inv_slots : length (slots g) = cap;
  inv_head : head q = pos (gH g);
  inv_tail : tail q = pos (gT g);
  inv_life : lifecycle q = glife g;
  inv_order : (gH g ≤ gT g ≤ gH g + cap)%nat;
  inv_slot i w s : slots g !! i = Some w → buf q !! i = Some s → slot_ok g i w s;
  inv_cell k c : cells g !! k = Some c →
    (∃ t o, st c = Done t o ∧ (k < gH g)%nat) ∨ slots g !! (k mod cap)%nat = Some (Oc k);
  inv_fin : finished sf g = true → ∀ i w, slots g !! i = Some w → ¬ live_producer g w;
}.

Lemma inv_at g q i : inv g q → (i < cap)%nat →
  ∃ w s, slots g !! i = Some w ∧ buf q !! i = Some s ∧ slot_ok g i w s ∧ slot_at i q = s.
Proof.
  intros HI Hi.
  destruct (lookup_lt_is_Some_2 (slots g) i) as [w Hw]; [by rewrite (inv_slots _ _ HI)|].
  destruct (lookup_lt_is_Some_2 (buf q) i) as [s Hs]; [by rewrite (inv_buf _ _ HI)|].
  exists w, s. split_and!; try done.
  - by eapply inv_slot.
  - unfold slot_at. by rewrite Hs.
Qed.

Lemma idx_bound i g q w : inv g q → slots g !! i = Some w → (i < cap)%nat.
Proof. intros HI Hw. rewrite <- (inv_slots _ _ HI). by eapply lookup_lt_Some. Qed.

Lemma slot_at_lookup q i s : buf q !! i = Some s → slot_at i q = s.
Proof. unfold slot_at. by intros ->. Qed.

(** *** The invariant across the ghost updates *)

Lemma inv_try g q i k o o' :
  inv g q → slots g !! i = Some (Fr k o) →
  (∀ t, o' = Some (t, true) → finished sf g = false) →
  inv (set_gslot i (Fr k o') g) (store_control i (try_control o') q).2.
Proof.
  intros HI Hi Ho'. pose proof (idx_bound _ _ _ _ HI Hi) as Hlt.
  destruct (inv_at _ _ _ HI Hlt) as (w & s & Hw & Hs & Hok & Hat).
  rewrite Hi in Hw. injection Hw as <-.
  destruct HI; split; simpl; try done.
  - by rewrite length_insert.
  - by rewrite length_insert.
  - intros j w s' Hw Hs'. rewrite Hat in Hs'.
    apply list_lookup_insert_Some in Hw as [(<- & <- & _)|[Hne Hw]].
    + rewrite list_lookup_insert_eq in Hs' by lia. injection Hs' as <-.
      destruct Hok as (? & ? & ? & ?). done.
    + rewrite list_lookup_insert_ne in Hs' by done. by eapply inv_slot0.
  - intros k' c Hc. destruct (inv_cell0 _ _ Hc) as [?|Hk']; [by left|right].
    rewrite list_lookup_insert_ne; [done|]. intros ->. congruence.
  - intros Hf j w Hw.
    apply list_lookup_insert_Some in Hw as [(<- & <- & _)|[Hne Hw]].
    + simpl. destruct o' as [[t []]|]; [|by intros ?..].
      specialize (Ho' t eq_refl). unfold finished in *. simpl in Hf. congruence.
    + by eapply inv_fin0.
Qed.

Lemma store_control_id q i s : buf q !! i = Some s → (store_control i (control s) q).2 = q.
Proof.
  intros Hs. unfold store_control, set_slot. rewrite (slot_at_lookup _ _ _ Hs). simpl.
  destruct s, q. simpl in *. by rewrite list_insert_id.
Qed.

Lemma inv_pass g q i k t b :
  inv g q → slots g !! i = Some (Fr k (Some (t, b))) → finished sf g = false →
  inv (set_gslot i (Fr k (Some (t, true))) g) q.
Proof.
  intros HI Hi Hf. pose proof (idx_bound _ _ _ _ HI Hi) as Hlt.
  destruct (inv_at _ _ _ HI Hlt) as (w & s & Hw & Hs & Hok & _).
  rewrite Hi in Hw. injection Hw as <-. destruct Hok as (_ & _ & _ & Hctl).
  rewrite <- (store_control_id _ _ _ Hs), Hctl.
  by apply (inv_try _ _ _ _ (Some (t, b)) (Some (t, true))).
Qed.

Lemma inv_set_cell g q i k c c' s' :
  inv g q → slots g !! i = Some (Oc k) → cells g !! k = Some c →
  cell_ok (gH g) (gT g) k c' s' → (producing c' = true → producing c = true) →
  inv (set_cell k c' g) (set_slot i s' q).
Proof.
  intros HI Hi Hc Hok' Hprod. pose proof (idx_bound _ _ _ _ HI Hi) as Hlt.
  destruct (inv_at _ _ _ HI Hlt) as (w & s & Hw & Hs & Hok & Hat).
  rewrite Hi in Hw. injection Hw as <-. destruct Hok as [Hki _].
  pose proof (lookup_lt_Some _ _ _ Hc) as Hk.
  assert (HT : gT (set_cell k c' g) = gT g) by (unfold gT; simpl; apply length_insert).
  destruct HI; split; simpl; rewrite ?HT; try done.
  - by rewrite length_insert.
  - intros j w s1 Hw Hs1. apply list_lookup_insert_Some in Hs1 as [(<- & <- & _)|[Hne Hs1]].
    + rewrite Hi in Hw. injection Hw as <-. split; [done|].
      exists c'. simpl. rewrite list_lookup_insert_eq by done. by rewrite HT.
    + pose proof (inv_slot0 _ _ _ Hw Hs1) as Hj. destruct w as [k' o'|k']; simpl in *.
      * by rewrite HT.
      * destruct Hj as [Hk'j (c1 & Hc1 & Hok1)]. split; [done|]. exists c1.
        rewrite list_lookup_insert_ne by congruence. by rewrite HT.
  - intros k1 c1 [(<- & <- & _)|[Hne Hc1]]%list_lookup_insert_Some; [|by apply inv_cell0].
    right. by rewrite Hki.
  - intros Hf j w Hw Hlive. apply (inv_fin0 Hf j w Hw). destruct w as [|k1]; [done|].
    destruct Hlive as (c1 & [(<- & <- & _)|[Hne Hc1]]%list_lookup_insert_Some & Hp).
    + exists c. auto.
    + by exists c1.
Qed.

Lemma inv_reserve g q i t :
  inv g q → slots g !! i = Some (Fr (gT g) (Some (t, true))) →
  inv (mkG (cells g ++ [mkCell t Reserved]) (<[i := Oc (gT g)]> (slots g)) (gH g) (glife g))
      (mkQ (head q) (pos (S (gT g))) (lifecycle q) (buf q)) ∧ finished sf g = false.
Proof.
  intros HI Hi. pose proof (idx_bound _ _ _ _ HI Hi) as Hlt.
  destruct (inv_at _ _ _ HI Hlt) as (w & s & Hw & Hs & Hok & Hat).
  rewrite Hi in Hw. injection Hw as <-. destruct Hok as (Hmod & Hrange & Hturn & Hctl).
  assert (Hfin : finished sf g = false).
  { destruct (finished sf g) eqn:E; [|done]. by destruct (inv_fin _ _ HI E i _ Hi). }
  split; [|done].
  assert (HT : ∀ l h b, gT (mkG (cells g ++ [mkCell t Reserved]) l h b) = S (gT g)).
  { intros. unfold gT. simpl. rewrite length_app. simpl. lia. }
  destruct HI; split; simpl; rewrite ?HT; try done; try lia.
  - by rewrite length_insert.
  - intros j w s1 Hw Hs1. apply list_lookup_insert_Some in Hw as [(<- & <- & _)|[Hne Hw]].
    + rewrite Hs in Hs1. injection Hs1 as <-. split; [done|].
      exists (mkCell t Reserved). rewrite HT. split; [apply list_lookup_middle; done|].
      split_and!; [simpl;lia|done|done].
    + pose proof (inv_slot0 _ _ _ Hw Hs1) as Hj. destruct w as [k' o'|k']; simpl in *.
      * rewrite HT. destruct Hj as (Hj & ? & ?). split_and!; try (done || lia).
        destruct (decide (k' = gT g)) as [->|]; [congruence|lia].
      * destruct Hj as [Hk'j (c1 & Hc1 & Hok1)]. split; [done|]. exists c1. rewrite HT.
        split; [by apply lookup_app_l_Some|].
        assert (k' + cap ≠ gT g)%nat.
        { intros E. destruct (add_cap cap Hcap k') as [_ E']. congruence. }
        unfold cell_ok in *. destruct (st c1); try done;
          (destruct Hok1 as (? & ? & ? & ? & ?); split_and!; done || lia).
  - intros k1 c1 [Hc1|[Hge Hc1]]%lookup_app_Some.
    + destruct (inv_cell0 _ _ Hc1) as [?|Hs1]; [by left|right].
      rewrite list_lookup_insert_ne; [done|]. intros ->. congruence.
    + right. assert (k1 = gT g) as ->.
      { apply list_lookup_singleton_Some in Hc1 as [? _]. unfold gT. lia. }
      rewrite Hmod. apply list_lookup_insert_eq. lia.
  - intros Hf. unfold finished in *. simpl in Hf. congruence.
Qed.

Lemma cell_ok_claim h tl k c s : cell_ok h tl k c s → (k ≠ h)%nat → cell_ok (S h) tl k c s.
Proof.
  unfold cell_ok. intros Hok Hk.
  destruct (st c); try done; destruct Hok as [? ?]; (split; [lia|done]).
Qed.

Lemma inv_claim g q i p t o :
  inv g q → slots g !! i = Some (Oc (gH g)) →
  cells g !! gH g = Some (mkCell p (Trying t o)) →
  inv (mkG (<[gH g := mkCell p (Claimed t o)]> (cells g)) (slots g) (S (gH g)) (glife g))
      (mkQ (pos (S (gH g))) (tail q) (lifecycle q) (buf q)).
Proof.
  intros HI Hi Hc. pose proof (idx_bound _ _ _ _ HI Hi) as Hlt.
  destruct (inv_at _ _ _ HI Hlt) as (w & s & Hw & Hs & Hok & Hat).
  rewrite Hi in Hw. injection Hw as <-. destruct Hok as (Hmod & c & Hc' & Hok).
  rewrite Hc in Hc'. injection Hc' as <-.
  pose proof (lookup_lt_Some _ _ _ Hc) as HltT. fold (gT g) in HltT.
  assert (HT : ∀ x l h b, gT (mkG (<[gH g := x]> (cells g)) l h b) = gT g).
  { intros. unfold gT. simpl. apply length_insert. }
  destruct HI; split; simpl; rewrite ?HT; try done; try lia.
  - intros j w s1 Hw Hs1. pose proof (inv_slot0 _ _ _ Hw Hs1) as Hj.
    destruct w as [k' o'|k']; simpl in *; rewrite HT.
    + destruct Hj as (? & ? & ? & ?). split_and!; done || lia.
    + destruct Hj as [Hk'j (c1 & Hc1 & Hok1)]. split; [done|].
      destruct (decide (k' = gH g)) as [->|Hne].
      * exists (mkCell p (Claimed t o)). rewrite list_lookup_insert_eq by done.
        split; [done|]. assert (s1 = s) as -> by congruence.
        destruct Hok as (? & ? & ? & ?). simpl. split_and!; done || lia.
      * exists c1. rewrite list_lookup_insert_ne by done. split; [done|].
        by apply cell_ok_claim.
  - intros k1 c1 [(<- & <- & _)|[Hne Hc1]]%list_lookup_insert_Some.
    + right. by rewrite Hmod.
    + destruct (inv_cell0 _ _ Hc1) as [(?&?&?&?)|?]; [left|by right]. eauto with lia.
  - intros Hf j w Hw Hlive. apply (inv_fin0 Hf j w Hw). destruct w as [|k1]; [done|].
    destruct Hlive as (c1 & [(<- & <- & _)|[Hne Hc1]]%list_lookup_insert_Some & Hp); [done|].
    by exists c1.
Qed.

Lemma inv_done g q i k p t o :
  inv g q → slots g !! i = Some (Oc k) → cells g !! k = Some (mkCell p (Rewound t o)) →
  inv (mkG (<[k := mkCell p (Done t o)]> (cells g))
           (<[i := Fr (k + cap) None]> (slots g)) (gH g) (glife g))
      (store_control i EMPTY q).2.
Proof.
  intros HI Hi Hc. pose proof (idx_bound _ _ _ _ HI Hi) as Hlt.
  destruct (inv_at _ _ _ HI Hlt) as (w & s & Hw & Hs & Hok & Hat).
  rewrite Hi in Hw. injection Hw as <-. destruct Hok as (Hmod & c & Hc' & Hok).
  rewrite Hc in Hc'. injection Hc' as <-. destruct Hok as (? & ? & ? & ? & ?).
  assert (HT : ∀ x l h b, gT (mkG (<[k := x]> (cells g)) l h b) = gT g).
  { intros. unfold gT. simpl. apply length_insert. }
  destruct HI; split; simpl; rewrite ?HT; try done; try lia.
  - by rewrite length_insert.
  - by rewrite length_insert.
  - intros j w s1 Hw Hs1. rewrite Hat in Hs1.
    apply list_lookup_insert_Some in Hw as [(<- & <- & _)|[Hne Hw]].
    + rewrite list_lookup_insert_eq in Hs1 by lia. injection Hs1 as <-.
      simpl. rewrite HT. destruct (add_cap cap Hcap k) as [_ ->].
      split_and!; done || lia.
    + rewrite list_lookup_insert_ne in Hs1 by done.
      pose proof (inv_slot0 _ _ _ Hw Hs1) as Hj.
      destruct w as [k' o'|k']; simpl in *; rewrite HT; [done|].
      destruct Hj as [Hk'j (c1 & Hc1 & Hok1)]. split; [done|]. exists c1.
      rewrite list_lookup_insert_ne by congruence. done.
  - intros k1 c1 [(<- & <- & _)|[Hne Hc1]]%list_lookup_insert_Some.
    + left. eauto.
    + destruct (inv_cell0 _ _ Hc1) as [?|Hk1]; [by left|right].
      rewrite list_lookup_insert_ne; [done|]. intros ->. congruence.
  - intros Hf j w Hw Hlive.
    apply list_lookup_insert_Some in Hw as [(<- & <- & _)|[Hne Hw]]; [done|].
    apply (inv_fin0 Hf j w Hw). destruct w as [|k1]; [done|].
    destruct Hlive as (c1 & [(<- & <- & _)|[Hne' Hc1]]%list_lookup_insert_Some & Hp); [done|].
    by exists c1.
Qed.

Lemma inv_or_life g q bits :
  inv g q → 
  (Z.testbit bits (sf + 1) = true → finished sf g = false →
    ∀ i w, slots g !! i = Some w → ¬ live_producer g w) →
  inv (or_life bits g) (fetch_or_life bits q).2.
Proof.
  intros HI Hbits. destruct HI; split; simpl; try done; [congruence|].
  intros Hf. unfold finished, or_life in Hf. simpl in Hf. rewrite Z.lor_spec in Hf.
  destruct (finished sf g) eqn:E; [by apply inv_fin0|].
  apply orb_prop in Hf as [Hf|Hf]; [|by apply Hbits].
  unfold finished in E. congruence.
Qed.

(** Cells are claimed in order: exactly those before the head are taken. *)
Lemma not_taken g q k c : inv g q → (gH g ≤ k)%nat → cells g !! k = Some c → taker c = None.
Proof.
  intros HI Hk Hc. destruct (inv_cell _ _ HI _ _ Hc) as [(t & o & ? & ?)|Hs]; [lia|].
  pose proof (idx_bound _ _ _ _ HI Hs) as Hlt.
  destruct (inv_at _ _ _ HI Hlt) as (w & s & Hw & _ & Hok & _).
  rewrite Hs in Hw. injection Hw as <-. destruct Hok as (_ & c1 & Hc1 & Hok).
  rewrite Hc in Hc1. injection Hc1 as <-. unfold cell_ok in Hok. cell_eval.
  destruct (st c); try done; destruct Hok; lia.
Qed.

Lemma taken_all g q k c : inv g q → (k < gH g)%nat → cells g !! k = Some c → is_Some (taker c).
Proof.
  intros HI Hk Hc. destruct (inv_cell _ _ HI _ _ Hc) as [(t & o & E & _)|Hs].
  { unfold taker. rewrite E. eauto. }
  destruct (inv_at _ _ (k mod cap)%nat HI) as (w & s & Hw & _ & Hsl & _);
    [by eapply idx_bound|].
  rewrite Hs in Hw. injection Hw as <-. destruct Hsl as (_ & c1 & Hc1 & Hcell).
  rewrite Hc in Hc1. injection Hc1 as <-. unfold cell_ok in Hcell. unfold taker.
  destruct (st c); try (destruct Hcell; lia); eauto.
Qed.

(** A queue just built, seen by threads that have done nothing. *)
Definition ginit : gst V := mkG [] ((λ k, Fr k None) <$> seq 0 cap) 0 0.

Lemma inv_init : inv ginit (queue_new (Z.of_nat cap)).
Proof.
  split; simpl; try done; try lia.
  - by rewrite length_fmap, length_seqZ, Nat2Z.id.
  - by rewrite length_fmap, length_seq.
  - unfold QueueInv.pos. by rewrite Nat.Div0.div_0_l, Nat.Div0.mod_0_l.
  - unfold QueueInv.pos. by rewrite Nat.Div0.div_0_l, Nat.Div0.mod_0_l.
  - unfold gT. simpl. lia.
  - intros i w s Hw Hs. apply list_lookup_fmap_Some in Hw as (k & -> & Hk).
    apply lookup_seq in Hk as [-> Hi].
    apply list_lookup_fmap_Some in Hs as (z & -> & Hz).
    apply lookup_seqZ in Hz as [-> _]. simpl.
    unfold QueueInv.pos. rewrite Nat.mod_small, Nat.div_small by lia.
    simpl. unfold gT. simpl. split_and!; try (done || lia).
  - intros Hf. unfold finished in Hf. simpl in Hf. by rewrite Z.testbit_0_l in Hf.
Qed.
End Invariant.
