(* ===== verification/QueueConc.v ===== *)
(** * Queue clients under any interleaving

    Threads that send, receive, abandon and close on one queue, interleaved at
    every atomic access: what they see is one bounded FIFO log. *)

From S2P Require Import Prelude Atomic Queue QueueInv.

Section Lists.
Context {A B : Type} (f : A → option B).

Lemma omap_insert_same (l : list A) k x y :
  l !! k = Some x → f x = f y → omap f (<[k := y]> l) = omap f l.
Proof.
  revert k. induction l as [|z l IH]; intros [|k] Hk Hf; try done; csimpl in *.
  - injection Hk as ->. by rewrite Hf.
  - by rewrite (IH k Hk Hf).
Qed.

Lemma omap_none (l : list A) : (∀ k x, l !! k = Some x → f x = None) → omap f l = [].
Proof.
  induction l as [|z l IH]; intros H; [done|]. csimpl. rewrite (H 0%nat z) by done.
  apply IH. intros k x Hk. by apply (H (S k)).
Qed.

Lemma omap_insert_last (l : list A) k x y b :
  l !! k = Some x → f x = None → f y = Some b →
  (∀ k' z, (k < k')%nat → l !! k' = Some z → f z = None) →
  omap f (<[k := y]> l) = omap f l ++ [b].
Proof.
  revert k. induction l as [|z l IH]; intros [|k] Hk Hx Hy Hlater; try done; csimpl in *.
  - injection Hk as ->. rewrite Hx, Hy. rewrite (omap_none l); [done|].
    intros k z' Hz'. apply (Hlater (S k)); [lia|done].
  - rewrite (IH k Hk Hx Hy) by (intros k' z' ? ?; apply (Hlater (S k')); [lia|done]).
    by destruct (f z).
Qed.
End Lists.

(** ** What a client does *)

Section Clients.
Context {V : Type}.

Inductive cmd :=
| CSend (v : V)      (** [try_send] *)
| CRecv              (** [try_recv] *)
| CPeek              (** claim, read the item, drop the claim *)
| CAbandon           (** reserve and drop the reservation *)
| CCancel (v : V)    (** reserve, stage and take the value back *)
| CCloseSend
| CCloseRecv
| CPoll.             (** [terminal] *)

Inductive out :=
| Sent (v : V)
| Got (v : V)
| Back (v : V)
| Nothing
| Panicked.

#[export] Instance panicked_dec (o : out) : Decision (o = Panicked).
Proof. destruct o; (by left) || by right. Defined.

Definition exec (e : Endpoint) (c : cmd) : prog (qstate V) out :=
  match c with
  | CSend v =>
    do r <- try_send e v;
    Ret (match r with Some (Ok _) => Sent v | Some (Err _) => Nothing | None => Panicked end)
  | CRecv =>
    do r <- try_recv e;
    Ret (match r with
         | Some (Ok (Some v)) => Got v
         | Some (Ok None) => Panicked
         | Some (Err _) => Nothing
         | None => Panicked
         end)
  | CPeek =>
    do r <- claim e;
    match r with
    | Some (Ok c) =>
      do v <- item c;
      do _ <- recycle c;
      Ret (match v with Some v => Got v | None => Panicked end)
    | Some (Err _) => Ret Nothing
    | None => Ret Panicked
    end
  | CAbandon =>
    do r <- reserve e;
    match r with
    | Some (Ok i) => do _ <- skip i; Ret Nothing
    | Some (Err _) => Ret Nothing
    | None => Ret Panicked
    end
  | CCancel v =>
    do r <- reserve e;
    match r with
    | Some (Ok i) =>
      do _ <- stage i v;
      do w <- cancel i;
      Ret (match w with Some w => Back w | None => Panicked end)
    | Some (Err _) => Ret Nothing
    | None => Ret Panicked
    end
  | CCloseSend => do _ <- close_send e; Ret Nothing
  | CCloseRecv => do _ <- close_recv e; Ret Nothing
  | CPoll => do _ <- terminal e; Ret Nothing
  end.

Fixpoint client (e : Endpoint) (cs : list cmd) (done : list out) : prog (qstate V) (list out) :=
  match cs with
  | [] => Ret done
  | c :: cs => do o <- exec e c; client e cs (done ++ [o])
  end.

Definition sent (os : list out) : list V :=
  omap (λ o, match o with Sent v => Some v | _ => None end) os.
Definition got (os : list out) : list V :=
  omap (λ o, match o with Got v => Some v | _ => None end) os.
End Clients.
Arguments cmd : clear implicits.
Arguments out : clear implicits.

(** ** Assertions a thread keeps *)

Section Assertions.
Context {V : Type} (cap : nat) (sf : Z).
#[local] Abbreviation guar := (guar (V:=V) sf cap).
#[local] Abbreviation rely := (rely (V:=V) sf cap).
Implicit Types (g : gst V) (c : gcell V).

(** [t] holds no slot for a reservation except [oi] and no cell except [ok];
    it has published [S] and claimed [R]. *)
Record acct (t : nat) (oi ok : option nat) (S R : list V) g : Prop := {
  acct_try i k b : slots g !! i = Some (Fr k (Some (t, b))) → oi = Some i;
  acct_cell k c : cells g !! k = Some c → holder c = Some t → ok = Some k;
  acct_sent : sent_by t g = S;
  acct_recv : recv_by t g = R;
}.

Definition last_mine_list (t k : nat) (l : list (gcell V)) : Prop :=
  ∀ k' c, (k < k')%nat → l !! k' = Some c → prod c ≠ t.

(** An update of one cell that leaves [t]'s account alone. *)
Lemma acct_set_cell t oi ok S R g k c c' l h b :
  acct t oi ok S R g → cells g !! k = Some c →
  (holder c' = Some t → ok = Some k) →
  (∀ i k b, l !! i = Some (Fr k (Some (t, b))) → oi = Some i) →
  sent_one t c = sent_one t c' → recv_one t c = recv_one t c' →
  acct t oi ok S R (mkG (<[k := c']> (cells g)) l h b).
Proof.
  intros [Htry Hcell HS HR] Hk Hh Hl Hs Hr. split.
  - done.
  - intros k1 c1 [(<- & <- & _)|[_ ?]]%list_lookup_insert_Some ?; eauto.
  - rewrite <- HS. by apply (omap_insert_same (sent_one t) _ _ _ _ Hk).
  - rewrite <- HR. by apply (omap_insert_same (recv_one t) _ _ _ _ Hk).
Qed.

(** [t] gives up the cell it holds. *)
Lemma acct_release t oi k S R g c c' l h b :
  acct t oi (Some k) S R g → cells g !! k = Some c → holder c' ≠ Some t →
  (∀ i k b, l !! i = Some (Fr k (Some (t, b))) → oi = Some i) →
  sent_one t c = sent_one t c' → recv_one t c = recv_one t c' →
  acct t oi None S R (mkG (<[k := c']> (cells g)) l h b).
Proof.
  intros HA Hk Hh Hl Hs Hr.
  assert (HA' : acct t oi (Some k) S R (mkG (<[k := c']> (cells g)) l h b))
    by (by eapply acct_set_cell).
  destruct HA' as [Htry Hcell HS HR]. split; try done. simpl. intros k1 c1 Hc1 Hh1.
  pose proof (Hcell _ _ Hc1 Hh1) as [= <-].
  rewrite list_lookup_insert_eq in Hc1 by (by eapply lookup_lt_Some). congruence.
Qed.

(** [t] publishes the last cell it reserved. *)
Lemma acct_publish t oi k S R g v :
  acct t oi (Some k) S R g → cells g !! k = Some (mkCell t (Staged v)) → last_mine_list t k (cells g) →
  acct t oi None (S ++ [v]) R (set_cell k (mkCell t (Ready (Some v))) g).
Proof.
  intros [Htry Hcell HS HR] Hk Hlast. split; simpl.
  - done.
  - intros k1 c1 [(<- & <- & _)|[Hne ?]]%list_lookup_insert_Some Hh; [done|].
    exfalso. by pose proof (Hcell _ _ ltac:(done) Hh) as [= <-].
  - rewrite <- HS. apply (omap_insert_last (sent_one t) _ _ _ _ _ Hk);
      cell_eval; [by rewrite decide_True..|].
    intros k' z Hk' Hz. rewrite decide_False; [done|]. by eapply Hlast.
  - rewrite <- HR. apply (omap_insert_same (recv_one t) _ _ _ _ Hk). done.
Qed.

Lemma acct_weaken t oi ok S R g : acct t oi None S R g → acct t oi ok S R g.
Proof. intros [Htry Hcell HS HR]. split; try done. intros k c Hc Hh. by specialize (Hcell k c Hc Hh). Qed.

Lemma acct_snoc t oi oi' ok S R g t' l :
  acct t oi ok S R g → (t' = t → ok = Some (gT g)) →
  (∀ i k b, l !! i = Some (Fr k (Some (t, b))) → oi' = Some i) →
  acct t oi' ok S R (mkG (cells g ++ [mkCell t' Reserved]) l (gH g) (glife g)).
Proof.
  intros [Htry Hcell HS HR] Hne Hl. split; simpl.
  - done.
  - intros k c [Hc|[Hge Hc]]%lookup_app_Some Hh; [eauto|].
    apply list_lookup_singleton_Some in Hc as [Hk <-].
    assert (k = gT g) as -> by (unfold gT; lia).
    apply Hne. by injection Hh.
  - rewrite <- HS. unfold sent_by. simpl. rewrite omap_app. csimpl.
    cell_eval. case_decide; by rewrite app_nil_r.
  - rewrite <- HR. unfold recv_by. simpl. rewrite omap_app. csimpl. by rewrite app_nil_r.
Qed.

Lemma acct_slots t oi oi' ok S R g l :
  acct t oi ok S R g → (∀ i k b, l !! i = Some (Fr k (Some (t, b))) → oi' = Some i) →
  acct t oi' ok S R (mkG (cells g) l (gH g) (glife g)).
Proof. intros [Htry Hcell HS HR] Hl. by split. Qed.

Lemma other_cell_step t t' c c' :
  t' ≠ t → cell_step t' c c' →
  holder c' ≠ Some t ∧ sent_one t c = sent_one t c' ∧ recv_one t c = recv_one t c'.
Proof.
  intros Hne Hstep. destruct Hstep; cell_eval; split_and!; repeat case_decide; congruence.
Qed.

Lemma acct_stable t oi ok S R : stable rely t (acct t oi ok S R).
Proof.
  apply stable_guar. intros t' g g' Hne Hg HA. pose proof HA as [Htry _ _ _].
  destruct Hg as [|i k o o' Hi Hs|i Hi Hf|k c c' Hc Hs|p o Hc|i k p o Hc Hi|bits].
  - done.
  - eapply acct_slots; [done|]. intros j k' b [(<- & [= <- ->] & _)|[_ ?]]%list_lookup_insert_Some.
    + inversion Hs; congruence.
    + eauto.
  - eapply acct_snoc; [done|congruence|].
    intros j k' b [(_ & ? & _)|[_ ?]]%list_lookup_insert_Some; [congruence|eauto].
  - destruct (other_cell_step _ _ _ _ Hne Hs) as (? & ? & ?).
    eapply acct_set_cell; eauto; done.
  - eapply acct_set_cell; eauto; cell_eval; repeat case_decide; congruence.
  - eapply acct_set_cell; eauto;
      [|intros j k' b [(_ & ? & _)|[_ ?]]%list_lookup_insert_Some; [congruence|eauto]|..];
      cell_eval; repeat case_decide; congruence.
  - by destruct HA.
Qed.

(** Facts about [t]'s own slot, cell and place in the log. *)
Definition trying (t i k : nat) (b : bool) g : Prop :=
  slots g !! i = Some (Fr k (Some (t, b))).
Definition holding (t i k : nat) c g : Prop :=
  slots g !! i = Some (Oc k) ∧ cells g !! k = Some c ∧ holder c = Some t.
Definition last_mine (t k : nat) g : Prop := last_mine_list t k (cells g).

Lemma trying_stable t i k b : stable rely t (trying t i k b).
Proof.
  apply stable_guar. unfold trying.
  intros t' g g' Hne [|j k' o o' Hj Hs|j Hj Hf|k1 c c' Hc Hs|p o Hc|j k1 p o Hc Hj|bits] HT;
    simpl; try done;
    (rewrite list_lookup_insert_ne; [done|]; intros ->; rewrite HT in Hj; try done).
  - injection Hj as <- <-. inversion Hs; congruence.
  - congruence.
Qed.

Lemma holding_stable t i k c : stable rely t (holding t i k c).
Proof.
  apply stable_guar. unfold holding.
  intros t' g g' Hne [|j k' o o' Hj Hs|j Hj Hf|k1 c1 c' Hc Hs|p o Hc|j k1 p o Hc Hj|bits]
    (Hi & Hk & Hh); simpl; try done.
  - rewrite list_lookup_insert_ne; [done|]. congruence.
  - rewrite list_lookup_insert_ne by congruence. split_and!; try done.
    by apply lookup_app_l_Some.
  - split_and!; try done. rewrite list_lookup_insert_ne; [done|]. intros ->.
    rewrite Hk in Hc. injection Hc as ->. inversion Hs; subst; cell_eval; congruence.
  - split_and!; try done. rewrite list_lookup_insert_ne; [done|]. intros <-.
    rewrite Hk in Hc. injection Hc as ->. cell_eval. congruence.
  - assert (k1 ≠ k).
    { intros ->. rewrite Hk in Hc. injection Hc as ->. cell_eval. congruence. }
    rewrite !list_lookup_insert_ne; [done|done|congruence].
Qed.

Lemma prod_insert k c c' g k' (c1 : gcell V) :
  cells g !! k = Some c → prod c' = prod c → <[k := c']> (cells g) !! k' = Some c1 →
  ∃ c0, cells g !! k' = Some c0 ∧ prod c0 = prod c1.
Proof. intros ? ? [(<- & <- & _)|[_ ?]]%list_lookup_insert_Some; eauto. Qed.

Lemma last_mine_stable t k : stable rely t (last_mine t k).
Proof.
  apply stable_guar. unfold last_mine, last_mine_list.
  intros t' g g' Hne Hg HL k' c' Hk' Hc'.
  destruct Hg as [|j k1 o o' Hj Hs|j Hj Hf|k1 c1 c2 Hc Hs|p o Hc|j k1 p o Hc Hj|bits];
    simpl in Hc'; eauto.
  - apply lookup_app_Some in Hc' as [?|[_ Hc']]; [eauto|].
    apply list_lookup_singleton_Some in Hc' as [_ <-]. done.
  - destruct (prod_insert _ c1 c2 _ k' c' Hc) as (c0 & ? & <-); [by inversion Hs|done|eauto].
  - destruct (prod_insert _ _ (mkCell p (Claimed t' o)) _ k' c' Hc) as (c0 & ? & <-); eauto.
  - destruct (prod_insert _ _ (mkCell p (Done t' o)) _ k' c' Hc) as (c0 & ? & <-); eauto.
Qed.
End Assertions.

(** ** Specifications of the routines *)

Create HintDb stab.
#[export] Hint Resolve acct_stable trying_stable holding_stable last_mine_stable : stab.

Section Specs.
Context {V : Type} (lapbits : Z) (cap : nat) (sf rf : Z) (own : nat → Z).
Context (Hlap : 0 ≤ lapbits < usize_bits).
Context (Hcap : (0 < cap)%nat).
Context (Hfit : Z.of_nat cap < 2 ^ lapbits).
Context (Hsf : 0 ≤ sf) (Hrf : 0 ≤ rf) (Hrs : rf ≠ sf) (Hrs1 : rf ≠ sf + 1).
Context (Hown : ∀ t, 0 ≤ own t < PARTICIPANT_CAPACITY).

#[local] Abbreviation pos := (pos lapbits cap).
#[local] Abbreviation guar := (guar (V:=V) sf cap).
#[local] Abbreviation rely := (rely (V:=V) sf cap).
#[local] Abbreviation inv := (inv (V:=V) lapbits cap sf own).
#[local] Abbreviation wp := (wp inv rely).
Implicit Types (g : gst V) (q : qstate V) (c : gcell V).

(** The endpoint of thread [t]: all threads share the geometry and the closing
    fields of the queue. *)
Definition ep (t : nat) : Endpoint := mkEndpoint sf rf (own t) (2 ^ lapbits) (Z.of_nat cap).

Lemma ep_geometry t : geometry_ok lapbits cap (ep t).
Proof. done. Qed.

Lemma stable_and t (P Q : gst V → Prop) :
  stable rely t P → stable rely t Q → stable rely t (λ g, P g ∧ Q g).
Proof. apply stable_conj. Qed.

Lemma stable_true t : stable rely t (λ _ : gst V, True).
Proof. done. Qed.

Lemma stable_pure t (φ : Prop) : stable rely t (λ _ : gst V, φ).
Proof. by intros g g' _. Qed.

#[local] Hint Resolve stable_and stable_true stable_pure : stab.

Lemma wp_step (P : gst V → Prop) t A B (f : qstate V → B * qstate V) (k : B → prog (qstate V) A) Q g :
  P g → stable rely t P →
  (∀ g1 q, P g1 → inv g1 q →
    ∃ g2, inv g2 (f q).2 ∧ guar t g1 g2 ∧ wp t (k (f q).1) Q g2) →
  wp t (Act f k) Q g.
Proof. apply wp_act. Qed.

Lemma wp_load (P : gst V → Prop) t A B (f : qstate V → B * qstate V) (k : B → prog (qstate V) A) Q g :
  P g → stable rely t P → (∀ q, (f q).2 = q) →
  (∀ g1 q, P g1 → inv g1 q → wp t (k (f q).1) Q g1) →
  wp t (Act f k) Q g.
Proof. apply wp_read. constructor. Qed.

Lemma owned_word_ne b d t : b = PRODUCER ∨ b = CONSUMER →
  owned b d (own t) ≠ EMPTY ∧ owned b d (own t) ≠ AVAILABLE ∧
  owned b d (own t) ≠ Z.lor AVAILABLE COMPLETE.
Proof. intros Hb. apply owned_not_others; [done|apply Hown]. Qed.

Lemma avail_cases (o : option V) :
  avail o ≠ EMPTY ∧ (avail o = AVAILABLE ∨ avail o = Z.lor AVAILABLE COMPLETE).
Proof. destruct o; split; (done || by left) || by right. Qed.

(** An empty slot is free. *)
Lemma slot_empty g i w (s : Slot V) :
  slot_ok lapbits cap own g i w s → control s = EMPTY → ∃ k, w = Fr k None.
Proof.
  intros Hok Hc. destruct w as [k [[t b]|]|k]; [| by eexists |]; exfalso.
  - destruct Hok as (_ & _ & _ & E). simpl in E.
    destruct (owned_word_ne PRODUCER false t (or_introl eq_refl)) as [? _]. congruence.
  - destruct Hok as (_ & c & _ & [Hctl Hnd]%cell_ok_control).
    rewrite Hc in Hctl. symmetry in Hctl. revert Hctl. unfold cell_control.
    destruct (st c) as [|v|v|o|t o|t o|t o|t o];
      first [apply owned_word_ne; by auto | apply avail_cases | by destruct (Hnd t o)].
Qed.

(** A published slot holds a cell nobody works on. *)
Lemma slot_available g i w (s : Slot V) :
  slot_ok lapbits cap own g i w s →
  control s = AVAILABLE ∨ control s = Z.lor AVAILABLE COMPLETE →
  ∃ k p o, w = Oc k ∧ cells g !! k = Some (mkCell p (Ready o)) ∧ avail o = control s ∧
    cell_ok lapbits cap own (gH g) (gT g) k (mkCell p (Ready o)) s.
Proof.
  intros Hok Hc. destruct w as [k [[t b]|]|k].
  - exfalso. destruct Hok as (_ & _ & _ & E). simpl in E.
    destruct (owned_word_ne PRODUCER false t (or_introl eq_refl)) as (? & ? & ?).
    destruct Hc; congruence.
  - exfalso. destruct Hok as (_ & _ & _ & E). simpl in E. rewrite E in Hc. by destruct Hc.
  - destruct Hok as (_ & [p st] & Hk & Hok).
    destruct (cell_ok_control _ _ _ _ _ _ _ _ Hok) as [Hctl Hnd].
    assert (Hne : ∀ b d t, b = PRODUCER ∨ b = CONSUMER → control s ≠ owned b d (own t)).
    { intros b d t Hb E. destruct (owned_word_ne b d t Hb) as (? & ? & ?).
      destruct Hc; congruence. }
    unfold cell_control in Hctl. simpl in *.
    destruct st as [|v|v|o|t o|t o|t o|t o]; try (by eapply Hne in Hctl; auto);
      [|by destruct (Hnd t o)].
    by exists k, p, o.
Qed.

Lemma trying_slot t i k b g q :
  inv g q → trying t i k b g →
  (i < cap)%nat ∧ (k mod cap)%nat = i ∧ (gT g ≤ k < gH g + cap)%nat ∧ turn (slot_at i q) = pos k.
Proof.
  intros HI Ht. pose proof (idx_bound _ _ _ _ _ _ _ _ HI Ht) as Hlt.
  destruct (inv_at _ _ _ _ _ _ _ HI Hlt) as (w & s & Hw & Hs & Hok & ->).
  unfold trying in Ht. rewrite Ht in Hw. injection Hw as <-. by destruct Hok as (? & ? & ? & _).
Qed.

Lemma acct_retry t oi oi' ok S R g i k b o :
  acct t oi ok S R g → trying t i k b g → o = None ∨ (∃ b', o = Some (t, b')) →
  oi' = (if o is Some _ then Some i else None) → oi = Some i →
  acct t oi' ok S R (set_gslot i (Fr k o) g).
Proof.
  intros HA Ht Ho -> ->. eapply acct_slots; [done|].
  intros j k' b' [(<- & [= <- ->] & _)|[Hne Hj]]%list_lookup_insert_Some; [done|].
  pose proof (acct_try _ _ _ _ _ _ HA _ _ _ Hj) as [= <-]. done.
Qed.

(** What a call of [reserve] leaves behind. *)
Definition reserve_post (t : nat) (S R : list V) (r : option (result nat ReserveError)) g : Prop :=
  match r with
  | Some (Ok i) => ∃ k, acct t None (Some k) S R g ∧
      holding t i k (mkCell t Reserved) g ∧ last_mine t k g
  | Some (Err _) => acct t None None S R g
  | None => False
  end.

(** [t] holds free slot [i], which waits for position [k]. *)
Definition has_slot (t i k : nat) (b : bool) (S R : list V) g : Prop :=
  acct t (Some i) None S R g ∧ trying t i k b g.

Lemma has_slot_stable t i k b S R : stable rely t (has_slot t i k b S R).
Proof. apply stable_and; auto with stab. Qed.
#[local] Hint Resolve has_slot_stable : stab.

Lemma reserve_undo_spec t i k b S R g err :
  has_slot t i k b S R g → wp t (reserve_undo i err) (reserve_post t S R) g.
Proof.
  intros HP. apply (wp_step (has_slot t i k b S R)); [done|auto with stab|].
  intros g1 q [HA1 Ht1] HI. exists (set_gslot i (Fr k None) g1). split_and!.
  - by eapply inv_try.
  - econstructor; [done|constructor].
  - apply wp_ret. eapply acct_retry; eauto.
Qed.

(** Bits of a closing field. *)
Lemma field_bit l f n : 0 ≤ f → 0 ≤ n < 2 →
  Z.testbit (Z.land (Z.shiftr l f) 3) n = Z.testbit l (f + n).
Proof.
  intros Hf Hn. rewrite Z.land_spec, Z.shiftr_spec, (Z.add_comm n) by lia.
  assert (n = 0 ∨ n = 1) as [-> | ->] by lia; apply andb_true_r.
Qed.

Lemma field_zero l f :
  0 ≤ f → Z.land (Z.shiftr l f) 3 = 0 → Z.testbit l f = false ∧ Z.testbit l (f + 1) = false.
Proof.
  intros Hf E. rewrite <- (field_bit l f 1), E by lia.
  by rewrite <- (Z.add_0_r f), <- (field_bit l f 0), E by lia.
Qed.

Lemma field_one l f : 0 ≤ f → Z.land (Z.shiftr l f) 3 = 1 → Z.testbit l f = true.
Proof. intros Hf E. by rewrite <- (Z.add_0_r f), <- (field_bit l f 0), E by lia. Qed.

Lemma lor_zero a b : Z.lor a b = 0 → a = 0 ∧ b = 0.
Proof. intros E. by apply Z.lor_eq_0_iff in E. Qed.

(** The move of the tail. *)
Lemma reserve_move_spec t i k T0 S R g :
  has_slot t i k true S R g → pos k = pos T0 →
  wp t
    (act moved <- cas_tail (pos T0) (advance (ep t) (pos T0));
     if negb moved then reserve_undo i Busy else Ret (Some (Ok i)))
    (reserve_post t S R) g.
Proof.
  intros HP Hk. apply (wp_step (has_slot t i k true S R)); [done|auto with stab|].
  clear g HP. intros g q HP HI. unfold cas_tail.
  destruct (Z.eqb_spec (tail q) (pos T0)) as [Et|Et]; simpl;
    [|exists g; split_and!; [done|constructor|by eapply reserve_undo_spec]].
  destruct HP as [HA Ht]. destruct (trying_slot _ _ _ _ _ _ HI Ht) as (Hi & Hmod & Hrange & _).
  pose proof (inv_order _ _ _ _ _ _ HI).
  assert (k = gT g) as ->.
  { symmetry. apply (pos_inj lapbits cap); [done..|lia|].
    rewrite Hk, <- Et. symmetry. apply (inv_tail _ _ _ _ _ _ HI). }
  pose proof HI as HI2. eapply inv_reserve in HI2 as [HI2 Hf]; [|done..].
  rewrite <- Hk, (pos_advance lapbits cap) by done.
  eexists. split_and!; [exact HI2|by constructor|].
  apply wp_ret. exists (gT g). split_and!; [|split_and!|]; simpl.
  - eapply acct_snoc; [by apply acct_weaken|done|].
    intros j k b [(_ & ? & _)|[Hne Hj]]%list_lookup_insert_Some; [done|].
    by pose proof (acct_try _ _ _ _ _ _ HA _ _ _ Hj) as [= ->].
  - apply list_lookup_insert_eq. by rewrite (inv_slots _ _ _ _ _ _ HI).
  - by apply list_lookup_middle.
  - done.
  - intros k' c Hk' Hc%lookup_lt_Some. simpl in Hc. rewrite length_app in Hc.
    unfold gT in Hk'. simpl in Hc. lia.
Qed.

(** Holding a free slot, the second look at the lifecycle and the move of the
    tail: a reservation, or the slot is given back. *)
Lemma reserve_commit_spec t i k T0 S R g :
  has_slot t i k false S R g → pos k = pos T0 →
  wp t
    (do st' <- state (ep t);
     if negb (st' =? 0) then reserve_undo i Closed else
     act moved <- cas_tail (pos T0) (advance (ep t) (pos T0));
     if negb moved then reserve_undo i Busy else Ret (Some (Ok i)))
    (reserve_post t S R) g.
Proof.
  intros HP Hk. unfold state, field_state. simpl.
  apply (wp_step (has_slot t i k false S R)); [done|auto with stab|].
  clear g HP. intros g q HP HI. simpl.
  destruct (decide (Z.land (Z.shiftr (lifecycle q) sf) 3 = 0)) as [E|E].
  - destruct HP as [HA Ht]. destruct (field_zero _ _ Hsf E) as [Hc Hf].
    rewrite (inv_life _ _ _ _ _ _ HI) in Hc, Hf.
    exists (set_gslot i (Fr k (Some (t, true))) g).
    split_and!; [by eapply inv_pass|by econstructor; [|apply try_pass]|].
    apply (wp_load (has_slot t i k true S R)); [|auto with stab|done|].
    { split; [|by apply list_lookup_insert_eq, (lookup_lt_Some _ _ _ Ht)].
      eapply acct_retry; eauto. }
    clear g HA Ht Hc Hf HI. intros g q' HP HI.
    split_if; [by eapply reserve_undo_spec|by apply (reserve_move_spec _ _ k)].
  - exists g. split_and!; [done|constructor|].
    apply (wp_load (has_slot t i k false S R)); [done|auto with stab|done|].
    clear g HP HI. intros g q' HP HI. split_if; [by eapply reserve_undo_spec|].
    by match goal with H : Z.lor _ _ = 0 |- _ => apply lor_zero in H as [? _] end.
Qed.

Lemma reserve_spec t S R g :
  acct t None None S R g → wp t (reserve (ep t)) (reserve_post t S R) g.
Proof.
  intros HA. unfold reserve. unfold state at 1, field_state at 1 2. simpl.
  set (P := acct (V:=V) t None None S R). assert (HP : stable rely t P) by apply acct_stable.
  apply (wp_load P); [done|done|done|]. clear g HA. intros g1 q1 HA1 HI1.
  apply (wp_load P); [done|done|done|]. clear g1 HA1 HI1. intros g1 q2 HA1 HI1.
  split_if; [done|].
  apply (wp_load P); [done|done|done|]. clear g1 q1 q2 HA1 HI1 Heqb. intros g q HA HI.
  cbn [load_tail fst]. rewrite (inv_tail _ _ _ _ _ _ HI). set (T0 := gT g).
  rewrite (pos_index lapbits cap), Nat2Z.id by done. pose proof (idx_lt cap Hcap T0) as HiT.
  split_if; [simpl in *; lia|]. clear Heqb.
  set (i := (T0 mod cap)%nat) in *. clearbody T0 i.
  apply (wp_step P); [done|done|]. clear g q HA HI. intros g q HA HI.
  destruct (inv_at _ _ _ _ _ _ _ HI HiT) as (w & s & Hw & Hs & Hok & Hat).
  unfold cas_control. rewrite Hat.
  destruct (Z.eqb_spec (control s) EMPTY) as [Ec|Ec]; simpl.
  - destruct (slot_empty _ _ _ _ Hok Ec) as [k ->].
    exists (set_gslot i (Fr k (Some (t, false))) g).
    split_and!; [by eapply inv_try with (o' := Some (t, false))|
      by econstructor; [|apply try_hold]|].
    apply (wp_load (has_slot t i k false S R)); [|auto with stab|done|].
    { split; [|by apply list_lookup_insert_eq, (lookup_lt_Some _ _ _ Hw)].
      eapply acct_slots; [done|].
      intros j k' b [(-> & _ & _)|[_ Hj]]%list_lookup_insert_Some; [done|].
      by pose proof (acct_try _ _ _ _ _ _ HA _ _ _ Hj). }
    clear g q s HA HI Hw Hs Hok Hat Ec. intros g q HS HI. unfold load_turn. cbn [fst].
    destruct (trying_slot _ _ _ _ _ _ HI (proj2 HS)) as (_ & _ & _ & ->).
    split_if; [by eapply reserve_undo_spec|].
    apply (wp_load (has_slot t i k false S R)); [done|auto with stab|done|].
    clear g q HS HI. intros g q HS HI. split_if; [by eapply reserve_undo_spec|].
    by apply (reserve_commit_spec _ _ k).
  - exists g. split_and!; [done|constructor|].
    apply (wp_load P); [done|done|done|]. intros. done.
Qed.

(** *** Producers *)

(** A store to the slot of a cell [t] holds moves the cell to its next status. *)
Lemma wp_cell_store (P : gst V → Prop) t A i k c c' (upd : Slot V → Slot V)
    (f : qstate V → unit * qstate V) (K : unit → prog (qstate V) A) Q g :
  P g → stable rely t P → (∀ g, P g → holding t i k c g) →
  (∀ q, (f q).2 = set_slot i (upd (slot_at i q)) q) →
  (∀ h tl s, cell_ok lapbits cap own h tl k c s → cell_ok lapbits cap own h tl k c' (upd s)) →
  cell_step t c c' → (producing c' = true → producing c = true) →
  (∀ g, P g → wp t (K tt) Q (set_cell k c' g)) →
  wp t (Act f K) Q g.
Proof.
  intros HP Hst Hh Hf Hok Hstep Hpr HK. apply (wp_step P); [done|done|].
  clear g HP. intros g q HP HI. destruct (Hh g HP) as (Hi & Hk & _).
  pose proof (idx_bound _ _ _ _ _ _ _ _ HI Hi) as Hlt.
  destruct (inv_at _ _ _ _ _ _ _ HI Hlt) as (w & s & Hw & Hs & Hslot & Hat).
  rewrite Hi in Hw. injection Hw as <-. destruct Hslot as (_ & c1 & Hc1 & Hcell).
  rewrite Hk in Hc1. injection Hc1 as <-.
  exists (set_cell k c' g). rewrite Hf, Hat. split_and!.
  - eapply inv_set_cell; eauto.
  - by econstructor.
  - destruct (f q).1. by apply HK.
Qed.

(** A read of the slot of a cell [t] holds. *)
Lemma wp_cell_load (P : gst V → Prop) t A B i k c (r : Slot V → B)
    (f : qstate V → B * qstate V) (K : B → prog (qstate V) A) Q g :
  P g → stable rely t P → (∀ g, P g → holding t i k c g) →
  (∀ q, f q = (r (slot_at i q), q)) →
  (∀ g s h tl, P g → cell_ok lapbits cap own h tl k c s → wp t (K (r s)) Q g) →
  wp t (Act f K) Q g.
Proof.
  intros HP Hst Hh Hf HK. apply (wp_load P); [done|done|intros q; by rewrite Hf|].
  clear g HP. intros g q HP HI. destruct (Hh g HP) as (Hi & Hk & _).
  pose proof (idx_bound _ _ _ _ _ _ _ _ HI Hi) as Hlt.
  destruct (inv_at _ _ _ _ _ _ _ HI Hlt) as (w & s & Hw & Hs & Hslot & Hat).
  rewrite Hi in Hw. injection Hw as <-. destruct Hslot as (_ & c1 & Hc1 & Hcell).
  rewrite Hk in Hc1. injection Hc1 as <-. rewrite Hf, Hat. by eapply HK.
Qed.

(** [t] holds cell [k] in slot [i] and nothing else; [last] adds that it has
    reserved none since. *)
Definition has_cell (t i k : nat) c (S R : list V) g : Prop :=
  acct t None (Some k) S R g ∧ holding t i k c g ∧ last_mine t k g.

Lemma has_cell_stable t i k c S R : stable rely t (has_cell t i k c S R).
Proof. apply stable_and; [auto with stab|]. apply stable_and; auto with stab. Qed.
#[local] Hint Resolve has_cell_stable : stab.

Lemma has_cell_holding t i k c S R g : has_cell t i k c S R g → holding t i k c g.
Proof. by intros (_ & ? & _). Qed.
#[local] Hint Resolve has_cell_holding : stab.

Lemma has_cell_set t i k c c' S R g :
  has_cell t i k c S R g → holder c' = Some t → prod c' = prod c →
  sent_one t c = sent_one t c' → recv_one t c = recv_one t c' →
  has_cell t i k c' S R (set_cell k c' g).
Proof.
  intros (HA & (Hi & Hk & Hh) & HL) Hh' Hp Hs Hr. split_and!; [|split_and!|].
  - eapply acct_set_cell; eauto. apply HA.
  - done.
  - apply list_lookup_insert_eq. by eapply lookup_lt_Some.
  - done.
  - intros k' c1 Hk' Hc1. simpl in Hc1. rewrite list_lookup_insert_ne in Hc1 by lia. eauto.
Qed.

Lemma has_cell_release t i k c c' S R g :
  has_cell t i k c S R g → holder c' ≠ Some t →
  sent_one t c = sent_one t c' → recv_one t c = recv_one t c' →
  acct t None None S R (set_cell k c' g).
Proof.
  intros (HA & (Hi & Hk & Hh) & HL) Hh' Hs Hr. eapply acct_release; eauto. apply HA.
Qed.

Lemma stage_spec t i k v S R g :
  has_cell t i k (mkCell t Reserved) S R g →
  wp t (stage i v) (λ _, has_cell t i k (mkCell t (Staged v)) S R) g.
Proof.
  intros HP. unfold stage, reserved_owner. simpl.
  eapply (wp_cell_store (has_cell t i k (mkCell t Reserved) S R) _ _ _ _ _ (mkCell t (Written v))
    (λ s, mkSlot (turn s) (control s) (Some v))); eauto with stab; [by intros ? ? ? (?&?&?)|constructor|].
  clear g HP. intros g HP.
  eapply (wp_cell_load (has_cell t i k (mkCell t (Written v)) S R) _ _ _ _ _ _ control);
    [by eapply has_cell_set|eauto with stab..|done|].
  clear g HP. intros g s h tl HP (_ & _ & _ & ->). simpl.
  destruct (owned_fields PRODUCER false (own t) (or_introl eq_refl) (Hown t)) as (_ & -> & _).
  rewrite Z.add_simpl_r, wrap_small by (pose proof (Hown t); unfold is_word, PARTICIPANT_CAPACITY, usize_bits in *; lia).
  eapply (wp_cell_store (has_cell t i k (mkCell t (Written v)) S R) _ _ _ _ _ (mkCell t (Staged v))
    (λ s, mkSlot (turn s) (owned PRODUCER true (own t)) (value s))); eauto with stab;
    [by intros ? ? ? (?&?&?&?)|constructor|].
  clear g HP. intros g HP. apply wp_ret. by eapply has_cell_set.
Qed.

Lemma skip_spec t i k c S R g :
  has_cell t i k c S R g → cell_step t c (mkCell t (Ready None)) → producing c = true →
  wp t (skip i) (λ _, acct t None None S R) g.
Proof.
  intros HP Hstep Hpr. unfold skip.
  eapply (wp_cell_store (has_cell t i k c S R) _ _ _ _ _ (mkCell t (Ready None))
    (λ s, mkSlot (turn s) AVAILABLE (value s))); eauto with stab.
  - intros h tl s. inversion Hstep; subst; try done; intros (? & ? & ?); by split_and!.
  - clear g HP. intros g HP. apply wp_ret. eapply has_cell_release; [exact HP|by intros ?|..];
      inversion Hstep; subst; try done; cell_eval; by case_decide.
Qed.

Lemma publish_spec t i k v S R g :
  has_cell t i k (mkCell t (Staged v)) S R g →
  wp t (publish i) (λ _, acct t None None (S ++ [v]) R) g.
Proof.
  intros HP. unfold publish.
  eapply (wp_cell_store (has_cell t i k (mkCell t (Staged v)) S R) _ _ _ _ _ (mkCell t (Ready (Some v)))
    (λ s, mkSlot (turn s) (Z.lor AVAILABLE COMPLETE) (value s))); eauto with stab;
    [by intros ? ? ? (?&?&?&?)|constructor|].
  clear g HP. intros g (HA & (Hi & Hk & Hh) & HL). apply wp_ret. by apply acct_publish.
Qed.

Lemma cancel_spec t i k v S R g :
  has_cell t i k (mkCell t (Staged v)) S R g →
  wp t (cancel i) (λ w g, w = Some v ∧ acct t None None S R g) g.
Proof.
  intros HP. unfold cancel.
  eapply (wp_cell_load (has_cell t i k (mkCell t (Staged v)) S R) _ _ _ _ _ _ value); eauto with stab.
  clear g HP. intros g s h tl HP (_ & _ & -> & _).
  apply wp_bind. eapply wp_mono; [|by eapply skip_spec; [|constructor|]].
  intros ? g' HA. by apply wp_ret.
Qed.

(** *** Consumers *)

Definition has_claim (t i k : nat) c (S R : list V) g : Prop :=
  acct t None (Some k) S R g ∧ holding t i k c g.

Lemma has_claim_stable t i k c S R : stable rely t (has_claim t i k c S R).
Proof. apply stable_and; auto with stab. Qed.
Lemma has_claim_holding t i k c S R g : has_claim t i k c S R g → holding t i k c g.
Proof. by intros [_ ?]. Qed.
#[local] Hint Resolve has_claim_stable has_claim_holding : stab.

Lemma has_claim_set t i k c c' S R g :
  has_claim t i k c S R g → holder c' = Some t →
  sent_one t c = sent_one t c' → recv_one t c = recv_one t c' →
  has_claim t i k c' S R (set_cell k c' g).
Proof.
  intros (HA & (Hi & Hk & Hh)) Hh' Hs Hr. split; [|split_and!].
  - eapply acct_set_cell; eauto. apply HA.
  - done.
  - apply list_lookup_insert_eq. by eapply lookup_lt_Some.
  - done.
Qed.

Lemma recycle_spec t i k p o S R g (cl : Claim) :
  has_claim t i k (mkCell p (Claimed t o)) S R g →
  claim_slot cl = i → next_turn cl = pos (k + cap) →
  wp t (recycle cl) (λ _, acct t None None S R) g.
Proof.
  intros HP Hi Hn. unfold recycle. rewrite Hi, Hn.
  eapply (wp_cell_store (has_claim t i k (mkCell p (Claimed t o)) S R) _ _ _ _ _
    (mkCell p (Rewound t o)) (λ s, mkSlot (pos (k + cap)) (control s) (value s))); eauto with stab;
    [by intros ? ? ? (?&?&?&?)|constructor|].
  clear g HP. intros g HP.
  apply (wp_step (has_claim t i k (mkCell p (Rewound t o)) S R));
    [by eapply has_claim_set|auto with stab|].
  clear g HP. intros g q (HA & Hs & Hc & Hh) HI.
  eexists. split_and!; [by eapply inv_done|by constructor|]. apply wp_ret.
  eapply acct_release; [exact HA|exact Hc|by intros ?|..].
  - intros j k' b [(_ & ? & _)|[_ Hj]]%list_lookup_insert_Some; [done|].
    by pose proof (acct_try _ _ _ _ _ _ HA _ _ _ Hj).
  - done.
  - done.
Qed.

Lemma take_spec t i k p v S R g (cl : Claim) :
  has_claim t i k (mkCell p (Claimed t (Some v))) S R g →
  claim_slot cl = i → next_turn cl = pos (k + cap) →
  wp t (take cl) (λ w g, w = Some v ∧ acct t None None S R g) g.
Proof.
  intros HP Hi Hn. unfold take. rewrite Hi.
  eapply (wp_cell_load (has_claim t i k (mkCell p (Claimed t (Some v))) S R) _ _ _ _ _ _ value);
    eauto with stab.
  clear g HP. intros g s h tl HP (_ & _ & _ & -> & _).
  apply wp_bind. eapply wp_mono; [|by eapply recycle_spec]. intros ? g' HA. by apply wp_ret.
Qed.

Lemma peek_spec t i k p v S R g (cl : Claim) (K : option V → prog (qstate V) (out V)) Q :
  has_claim t i k (mkCell p (Claimed t (Some v))) S R g → claim_slot cl = i →
  (∀ g, has_claim t i k (mkCell p (Claimed t (Some v))) S R g → wp t (K (Some v)) Q g) →
  wp t (bind (item cl) K) Q g.
Proof.
  intros HP Hi HK. unfold item. rewrite Hi. simpl.
  eapply (wp_cell_load (has_claim t i k (mkCell p (Claimed t (Some v))) S R) _ _ _ _ _ _ value);
    eauto with stab.
  clear g HP. intros g s h tl HP (_ & _ & _ & -> & _). by apply HK.
Qed.

(** What a call of [claim] leaves behind. *)
Definition claim_post (t : nat) (S R : list V) (r : option (result Claim ClaimError)) g : Prop :=
  match r with
  | Some (Ok c) => ∃ k p v, next_turn c = pos (k + cap) ∧ initialized c = true ∧
      has_claim t (claim_slot c) k (mkCell p (Claimed t (Some v))) S (R ++ [v]) g
  | Some (Err _) => acct t None None S R g
  | None => False
  end.

Lemma claim_undo_spec t i k p o S R g :
  has_claim t i k (mkCell p (Trying t o)) S R g →
  wp t (claim_undo i (avail o)) (claim_post t S R) g.
Proof.
  intros HP. unfold claim_undo.
  eapply (wp_cell_store (has_claim t i k (mkCell p (Trying t o)) S R) _ _ _ _ _
    (mkCell p (Ready o)) (λ s, mkSlot (turn s) (avail o) (value s))); eauto with stab;
    [by intros ? ? ? (?&?&?&?)|constructor|].
  clear g HP. intros g (HA & Hs & Hc & Hh). apply wp_ret.
  eapply acct_release; [exact HA|exact Hc|by intros ?|apply HA|done|done].
Qed.

Lemma acct_claim t k p o S R g q :
  inv g q → acct t None (Some k) S R g → k = gH g →
  cells g !! k = Some (mkCell p (Trying t o)) →
  acct t None (Some k) S (R ++ option_list o)
    (mkG (<[k := mkCell p (Claimed t o)]> (cells g)) (slots g) (Datatypes.S (gH g)) (glife g)).
Proof.
  intros HI [Htry Hcell HS HR] -> Hk. split; simpl.
  - done.
  - intros k1 c1 [(<- & <- & _)|[Hne ?]]%list_lookup_insert_Some Hh; [done|eauto].
  - rewrite <- HS. by apply (omap_insert_same (sent_one t) _ _ _ _ Hk).
  - rewrite <- HR. destruct o as [v|]; simpl.
    + apply (omap_insert_last (recv_one t) _ _ _ _ _ Hk); [done|cell_eval; by rewrite decide_True|].
      intros k' z Hk' Hz. unfold recv_one. assert (taker z = None) as ->; [|done]. eapply not_taken; [..|eassumption]; eauto; lia.
    + rewrite app_nil_r. apply (omap_insert_same (recv_one t) _ _ _ _ Hk).
      cell_eval. by case_decide.
Qed.

(** The move of the head. *)
Lemma claim_move_spec t i k p o H0 S R g :
  has_claim t i k (mkCell p (Trying t o)) S R g → pos k = pos H0 →
  wp t
    (act moved <- cas_head (pos H0) (advance (ep t) (pos H0));
     if negb moved then claim_undo i (avail o) else
     let c := mkClaim i (wrapping_add (pos H0) (one_lap (ep t))) (bool_decide (is_Some o)) in
     if negb (bool_decide (is_Some o)) then
       do _ <- recycle c; Ret (Some (Err ClaimBusy))
     else Ret (Some (Ok c)))
    (claim_post t S R) g.
Proof.
  intros HP Hk. apply (wp_step (has_claim t i k (mkCell p (Trying t o)) S R));
    [done|auto with stab|].
  clear g HP. intros g q HP HI. unfold cas_head.
  destruct (Z.eqb_spec (head q) (pos H0)) as [Eh|Eh]; cbn [fst snd negb];
    [|exists g; split_and!; [done|constructor|by eapply claim_undo_spec]].
  destruct HP as (HA & Hs & Hc & Hh).
  assert (k = gH g) as E.
  { symmetry. pose proof (inv_order _ _ _ _ _ _ HI). pose proof (lookup_lt_Some _ _ _ Hc).
    destruct (inv_at _ _ _ _ _ _ i HI) as (w & s & Hw & _ & Hok & _); [by eapply idx_bound|].
    rewrite Hs in Hw. injection Hw as <-. destruct Hok as (_ & c & Hc' & Hok).
    rewrite Hc in Hc'. injection Hc' as <-. destruct Hok as [? _].
    apply (pos_inj lapbits cap); [done..|unfold gT in *; lia|].
    rewrite Hk, <- Eh. symmetry. apply (inv_head _ _ _ _ _ _ HI). }
  pose proof (acct_claim _ _ _ _ _ _ _ _ HI HA E Hc) as HA'.
  rewrite <- Hk, (pos_advance lapbits cap) by done.
  rewrite (pos_lap lapbits cap Hlap Hcap Hfit (ep t) k) by done. subst k.
  eexists. split_and!; [by eapply inv_claim|by constructor|].
  assert (HC : has_claim t i (gH g) (mkCell p (Claimed t o)) S (R ++ option_list o)
    (mkG (<[gH g := mkCell p (Claimed t o)]> (cells g)) (slots g) (Datatypes.S (gH g)) (glife g))).
  { split; [done|]. split_and!; [done| |done].
    apply list_lookup_insert_eq. by eapply lookup_lt_Some. }
  destruct o as [v|]; cbn [option_list] in HC.
  - apply wp_ret. simpl. eauto 10.
  - rewrite app_nil_r in HC. change (bool_decide (is_Some (@None V))) with false. cbn [negb].
    apply (wp_bind inv rely t (recycle _)).
    eapply wp_mono; [|by eapply recycle_spec]. intros ? g' HA''. by apply wp_ret.
Qed.

Lemma claim_spec t S R g :
  acct t None None S R g → wp t (claim (ep t)) (claim_post t S R) g.
Proof.
  intros HA. unfold claim, field_state. simpl.
  set (P := acct (V:=V) t None None S R). assert (HP : stable rely t P) by apply acct_stable.
  apply (wp_load P); [done|done|done|]. clear g HA. intros g1 q1 HA1 HI1. split_if; [done|].
  apply (wp_load P); [done|done|done|]. clear g1 q1 HA1 HI1 Heqb. intros g q HA HI.
  cbn [load_head fst]. rewrite (inv_head _ _ _ _ _ _ HI). set (H0 := gH g).
  rewrite (pos_index lapbits cap), Nat2Z.id by done. pose proof (idx_lt cap Hcap H0) as HiT.
  split_if; [simpl in *; lia|]. clear Heqb.
  set (i := (H0 mod cap)%nat) in *. clearbody H0 i.
  apply (wp_load P); [done|done|done|]. clear g q HA HI. intros g q HA HI.
  cbn [load_control fst]. set (a := control (slot_at i q)).
  destruct (negb (a =? AVAILABLE) && negb (a =? Z.lor AVAILABLE COMPLETE)) eqn:Ea.
  { apply (wp_load P); [done|done|done|]. intros. done. }
  assert (Ha : a = AVAILABLE ∨ a = Z.lor AVAILABLE COMPLETE).
  { apply andb_false_iff in Ea as [?|?]; bools; auto. }
  clearbody a. clear Ea. apply (wp_step P); [done|done|].
  clear g q HA HI. intros g q HA HI.
  destruct (inv_at _ _ _ _ _ _ _ HI HiT) as (w & s & Hw & Hs & Hok & Hat).
  unfold cas_control. rewrite Hat.
  destruct (Z.eqb_spec (control s) a) as [Ec|Ec]; simpl;
    [|exists g; split_and!; [done|constructor|by apply wp_ret]].
  rewrite <- Ec in Ha.
  destruct (slot_available _ _ _ _ Hok Ha) as (k & p & o & -> & Hk & Hav & Hcell).
  rewrite <- Ec, <- Hav. clear a Ec Ha Hav.
  assert (negb (Z.land (avail o) COMPLETE =? 0) = bool_decide (is_Some o)) as -> by (by destruct o).
  exists (set_cell k (mkCell p (Trying t o)) g). split_and!.
  { unfold store_control. rewrite Hat. eapply inv_set_cell; eauto.
    destruct Hcell as (? & ? & ? & ?). by split_and!. }
  { econstructor; [done|constructor]. }
  assert (HC : has_claim t i k (mkCell p (Trying t o)) S R (set_cell k (mkCell p (Trying t o)) g)).
  { split; [|split_and!]; [|done| |done].
    - eapply acct_set_cell; [by apply acct_weaken|exact Hk|done|apply HA|done|done].
    - apply list_lookup_insert_eq. by eapply lookup_lt_Some. }
  eapply (wp_cell_load (has_claim t i k (mkCell p (Trying t o)) S R) _ _ _ _ _ _ turn);
    eauto with stab.
  clear g q s HA HI Hw Hs Hok Hat Hk Hcell HC. intros g s h tl HC (_ & -> & _).
  split_if; [by eapply claim_undo_spec|].
  apply (wp_load (has_claim t i k (mkCell p (Trying t o)) S R)); [done|auto with stab|done|].
  clear g HC. intros g q HC HI. split_if; [by eapply claim_undo_spec|].
  by eapply claim_move_spec.
Qed.

(** *** Closing *)

(** Whoever holds the slot has not passed the closing check. *)
Definition quiet g (w : gslot) : Prop :=
  match w with
  | Fr _ (Some (_, b)) => b = false
  | Fr _ None => True
  | Oc k => ∃ c, cells g !! k = Some c ∧ producing c = false
  end.

Definition quiet_below (n : nat) g : Prop :=
  closed sf g = true ∧ ∀ i w, (i < n)%nat → slots g !! i = Some w → quiet g w.

Lemma quiet_not_live g w : quiet g w → ¬ live_producer g w.
Proof.
  destruct w as [k [[t []]|]|k]; simpl; try done; [by intros ? ?..|].
  intros (c & Hc & Hp) (c' & Hc' & Hp'). congruence.
Qed.

Lemma quiet_set_cell g k c c' l h b w :
  cells g !! k = Some c → (producing c = false → producing c' = false) →
  quiet g w → quiet (mkG (<[k := c']> (cells g)) l h b) w.
Proof.
  intros Hk Hp. destruct w as [|k']; [done|]. intros (c1 & Hc1 & Hp1). simpl.
  destruct (decide (k = k')) as [<-|Hne].
  - rewrite list_lookup_insert_eq by (by eapply lookup_lt_Some). exists c'.
    split; [done|]. apply Hp. congruence.
  - rewrite list_lookup_insert_ne by done. eauto.
Qed.

Lemma quiet_below_stable t n : stable rely t (quiet_below n).
Proof.
  apply stable_guar. intros t' g g' Hne Hg [Hcl Hq].
  destruct Hg as [|i k o o' Hi Hs|i Hi Hf|k c c' Hc Hs|p o Hc|i k p o Hc Hi|bits];
    (split; [done || (unfold closed in *; simpl; by rewrite Z.lor_spec, Hcl)|]).
  - done.
  - intros j w Hj [(<- & <- & _)|[_ Hw]]%list_lookup_insert_Some; [|by eapply Hq].
    inversion Hs; simpl; first [done | congruence].
  - intros j w Hj [(<- & <- & _)|[Hne' Hw]]%list_lookup_insert_Some.
    + by specialize (Hq _ _ Hj Hi).
    + specialize (Hq _ _ Hj Hw). destruct w as [|k']; [done|].
      destruct Hq as (c & Hc & Hp). exists c. split; [by apply lookup_app_l_Some|done].
  - intros j w Hj Hw. eapply quiet_set_cell; [done| |by eapply Hq]. by inversion Hs.
  - intros j w Hj Hw. eapply quiet_set_cell; [done|done|by eapply Hq].
  - intros j w Hj [(<- & <- & _)|[_ Hw]]%list_lookup_insert_Some; [done|].
    eapply quiet_set_cell; [done|done|by eapply Hq].
  - done.
Qed.
#[local] Hint Resolve quiet_below_stable : stab.

Lemma slot_quiet g i w (s : Slot V) :
  slot_ok lapbits cap own g i w s → base (control s) ≠ PRODUCER → quiet g w.
Proof.
  assert (HB : ∀ d t, base (owned PRODUCER d (own t)) = PRODUCER)
    by (intros; apply (owned_fields PRODUCER); [by left|apply Hown]).
  intros Hok Hb. destruct w as [k [[t b]|]|k]; simpl; [|done|].
  - destruct Hok as (_ & _ & _ & E). rewrite E in Hb. by destruct (Hb (HB _ _)).
  - destruct Hok as (_ & c & Hc & [Hctl _]%cell_ok_control). exists c. split; [done|].
    rewrite Hctl in Hb. unfold cell_control in Hb. cell_eval.
    by destruct (st c); try destruct (Hb (HB _ _)).
Qed.

Lemma all_not_based_spec (P : gst V → Prop) t n m g :
  stable rely t P → (n + m = cap)%nat → P g → quiet_below n g →
  wp t (all_not_based PRODUCER (seq n m)) (λ r g, P g ∧ (r = true → quiet_below cap g)) g.
Proof.
  intros HP. revert n g. induction m as [|m IH]; intros n g Hn HPg Hq; simpl.
  - apply wp_ret. replace cap with n by lia. done.
  - apply (wp_load (λ g, P g ∧ quiet_below n g)); [done|auto with stab|done|].
    clear g HPg Hq. intros g q [HPg Hq] HI.
    destruct (inv_at _ _ _ _ _ _ n HI) as (w & s & Hw & _ & Hok & Hat); [lia|].
    cbn [load_control fst]. rewrite Hat. split_if; [by apply wp_ret|].
    apply IH; [lia|done|]. destruct Hq as [Hcl Hq]. split; [done|]. intros i w' Hi Hw'.
    destruct (decide (i = n)) as [->|]; [|apply (Hq i); [lia|done]].
    rewrite Hw in Hw'. injection Hw' as <-. by eapply slot_quiet.
Qed.

Lemma all_based_frame (P : gst V → Prop) t b l g :
  stable rely t P → P g → wp t (all_not_based b l) (λ _, P) g.
Proof.
  intros HP. revert g. induction l as [|i l IH]; intros g HPg; simpl; [by apply wp_ret|].
  apply (wp_load P); [done|done|done|]. intros. split_if; [by apply wp_ret|by apply IH].
Qed.

Lemma testbit_field n f m : 0 ≤ f → 0 ≤ m → 0 ≤ n →
  Z.testbit (Z.shiftl (2 ^ n) f) m = bool_decide (m = f + n).
Proof.
  intros. rewrite Z.shiftl_mul_pow2, <- Z.pow_add_r by lia.
  case_bool_decide as E; subst.
  - rewrite Z.add_comm. apply Z.pow2_bits_true. lia.
  - apply Z.pow2_bits_false. lia.
Qed.

(** A set of the lifecycle, when it may finish the send side only over a quiet
    buffer. *)
Lemma wp_or_life (P : gst V → Prop) t A bits (K : Z → prog (qstate V) A) Q g :
  0 ≤ bits → stable rely t P → (∀ g, P g → P (or_life bits g)) → P g →
  (∀ g, P g → Z.testbit bits (sf + 1) = true → quiet_below cap g) →
  (∀ z g, P g → wp t (K z) Q g) →
  wp t (Act (fetch_or_life bits) K) Q g.
Proof.
  intros Hb Hst Hor HP Hq HK. apply (wp_step P); [done|done|].
  clear g HP. intros g q HP HI. exists (or_life bits g).
  split_and!; [|by constructor|by apply HK, Hor].
  apply inv_or_life; [done|]. intros Hbit _ i w Hw. apply quiet_not_live.
  destruct (Hq g HP Hbit) as [_ Hq']. apply (Hq' i); [by eapply idx_bound|done].
Qed.

Lemma acct_or_life t oi ok S R bits g : acct t oi ok S R g → acct t oi ok S R (or_life bits g).
Proof. by intros []. Qed.
#[local] Hint Resolve acct_or_life : stab.

Lemma close_field_spec t f S R g :
  f = sf ∨ f = rf → acct t None None S R g →
  wp t (close_field f) (λ _, acct t None None S R) g.
Proof.
  intros Hf HA. unfold close_field. change 1 with (2 ^ 0).
  eapply (wp_or_life (acct t None None S R)); [|auto with stab..| |].
  - apply Z.shiftl_nonneg. lia.
  - intros g' _. rewrite testbit_field by lia. rewrite bool_decide_false; [done|]. lia.
  - intros z g' HA'. by apply wp_ret.
Qed.

Lemma finish_send_spec t S R g :
  acct t None None S R g →
  wp t (finish_field (ep t) sf PRODUCER) (λ _, acct t None None S R) g.
Proof.
  intros HA. unfold finish_field, field_state. simpl. set (P := acct (V:=V) t None None S R).
  assert (HP : stable rely t P) by apply acct_stable.
  apply (wp_load P); [done|done|done|]. clear g HA. intros g q HA HI. simpl.
  split_if; [|by apply wp_ret].
  apply (wp_bind inv rely t (all_not_based _ _)). rewrite Nat2Z.id.
  eapply wp_mono; [|eapply (all_not_based_spec P t 0 cap); [done|done|done|]].
  2: { split; [|lia]. rewrite (inv_life _ _ _ _ _ _ HI) in Heqb. by apply field_one. }
  clear g HA HI. intros [] g [HA Hq]; simpl; [|by apply wp_ret].
  eapply (wp_or_life (λ g, P g ∧ quiet_below cap g)); [| | |by auto| |].
  - apply Z.shiftl_nonneg. lia.
  - apply stable_and; auto with stab.
  - intros g' [HA' [Hcl Hq']]. split; [by apply acct_or_life|].
    split; [|done]. unfold closed in *. simpl. by rewrite Z.lor_spec, Hcl.
  - by intros g' [_ ?].
  - intros z g' [? _]. by apply wp_ret.
Qed.

Lemma finish_recv_spec t S R g :
  acct t None None S R g →
  wp t (finish_field (ep t) rf CONSUMER) (λ _, acct t None None S R) g.
Proof.
  intros HA. unfold finish_field, field_state. simpl. set (P := acct (V:=V) t None None S R).
  assert (HP : stable rely t P) by apply acct_stable.
  apply (wp_load P); [done|done|done|]. clear g HA. intros g q HA HI. simpl.
  split_if; [|by apply wp_ret].
  apply (wp_bind inv rely t (all_not_based _ _)).
  eapply wp_mono; [|by eapply (all_based_frame P)].
  clear g HA HI. intros [] g HA; simpl; [|by apply wp_ret].
  change 2 with (2 ^ 1). eapply (wp_or_life P); [|done| |done| |].
  - apply Z.shiftl_nonneg. lia.
  - intros g' HA'. by apply acct_or_life.
  - intros g' _. rewrite testbit_field by lia. rewrite bool_decide_false; [done|]. lia.
  - intros z g' HA'. by apply wp_ret.
Qed.

Lemma terminal_spec t S R g :
  acct t None None S R g → wp t (terminal (ep t)) (λ _, acct t None None S R) g.
Proof.
  intros HA. unfold terminal, recv_closed, send_closed. set (P := acct (V:=V) t None None S R).
  apply wp_bind, wp_bind. eapply wp_mono; [|by eapply finish_recv_spec].
  clear g HA. intros r g HA. cbv beta in HA. apply wp_ret. split_if; [by apply wp_ret|].
  apply wp_bind, wp_bind. eapply wp_mono; [|by eapply finish_send_spec].
  clear g HA. intros r' g HA. apply wp_ret. split_if; [|by apply wp_ret].
  unfold is_empty.
  apply (wp_load P); [done|apply acct_stable|done|]. clear g HA. intros g q HA _.
  apply (wp_load P); [done|apply acct_stable|done|]. clear g HA. intros g q' HA _.
  by apply wp_ret.
Qed.

(** *** Commands and clients *)

(** The account after a command answered [o]. *)
Definition after (t : nat) (S R : list V) (o : out V) g : Prop :=
  o ≠ Panicked ∧ acct t None None (S ++ sent [o]) (R ++ got [o]) g.

Lemma after_nothing t S R o g :
  sent [o] = [] → got [o] = [] → bool_decide (o = Panicked) = false →
  acct t None None S R g → after t S R o g.
Proof.
  intros Hs Hg Hp HA. split; [by bools|]. by rewrite Hs, Hg, !app_nil_r.
Qed.

Lemma exec_spec t (cm : cmd V) S R g :
  acct t None None S R g → wp t (exec (ep t) cm) (after t S R) g.
Proof.
  intros HA. destruct cm as [v| | | |v| | |]; cbn [exec].
  - (* send *)
    unfold try_send. apply wp_bind. eapply wp_seq; [by eapply reserve_spec|cbv beta].
    clear g HA. intros [[i|[]]|] g HP; try (apply wp_ret, wp_ret; by apply after_nothing).
    destruct HP as (k & HP). eapply wp_seq; [by eapply stage_spec|cbv beta].
    clear g HP. intros ? g HP. eapply wp_seq; [by eapply publish_spec|cbv beta].
    clear g HP. intros ? g HP. apply wp_ret, wp_ret. split; [done|]. simpl. by rewrite app_nil_r.
  - (* receive *)
    unfold try_recv. apply wp_bind. eapply wp_seq; [by eapply claim_spec|cbv beta].
    clear g HA. intros [[cl|[]]|] g HP; [| | | |done].
    + destruct HP as (k & p & v & Hn & _ & HP). 
      eapply wp_seq; [by eapply take_spec|cbv beta]. clear g HP. intros w g [-> HA].
      apply wp_ret, wp_ret. split; [done|]. simpl. by rewrite app_nil_r.
    + eapply wp_seq; [by eapply terminal_spec|cbv beta]. clear g HP. intros b g HA.
      apply wp_ret, wp_ret. by apply after_nothing.
    + apply wp_ret, wp_ret. by apply after_nothing.
    + apply wp_ret, wp_ret. by apply after_nothing.
  - (* peek *)
    eapply wp_seq; [by eapply claim_spec|cbv beta].
    clear g HA. intros [[cl|err]|] g HP; [|apply wp_ret; by apply after_nothing|done].
    destruct HP as (k & p & v & Hn & _ & HP). eapply peek_spec; [exact HP|done|].
    clear g HP. intros g HP. eapply wp_seq; [by eapply recycle_spec|cbv beta].
    clear g HP. intros ? g HA. apply wp_ret. split; [done|]. simpl. by rewrite app_nil_r.
  - (* abandon *)
    eapply wp_seq; [by eapply reserve_spec|cbv beta].
    clear g HA. intros [[i|err]|] g HP; [|apply wp_ret; by apply after_nothing|done].
    destruct HP as (k & HP). eapply wp_seq; [by eapply skip_spec; [|constructor|]|cbv beta].
    clear g HP. intros ? g HA. apply wp_ret. by apply after_nothing.
  - (* cancel *)
    eapply wp_seq; [by eapply reserve_spec|cbv beta].
    clear g HA. intros [[i|err]|] g HP; [|apply wp_ret; by apply after_nothing|done].
    destruct HP as (k & HP). eapply wp_seq; [by eapply stage_spec|cbv beta].
    clear g HP. intros ? g HP. eapply wp_seq; [by eapply cancel_spec|cbv beta].
    clear g HP. intros ? g [-> HA]. apply wp_ret. by apply after_nothing.
  - eapply wp_seq; [by eapply close_field_spec; [left|]|cbv beta].
    clear g HA. intros ? g HA. apply wp_ret. by apply after_nothing.
  - eapply wp_seq; [by eapply close_field_spec; [right|]|cbv beta].
    clear g HA. intros ? g HA. apply wp_ret. by apply after_nothing.
  - eapply wp_seq; [by eapply terminal_spec|cbv beta].
    clear g HA. intros ? g HA. apply wp_ret. by apply after_nothing.
Qed.

(** The account of a client that answered [os]. *)
Definition accounted (t : nat) (os : list (out V)) g : Prop :=
  (∀ o, In o os → o ≠ Panicked) ∧ acct t None None (sent os) (got os) g.

Lemma accounted_stable t os : stable rely t (accounted t os).
Proof. apply stable_and; auto with stab. Qed.

Lemma client_spec t cs os g :
  accounted t os g → wp t (client (ep t) cs os) (accounted t) g.
Proof.
  revert os g. induction cs as [|c cs IH]; intros os g [Hp HA]; simpl; [by apply wp_ret|].
  eapply wp_seq; [by eapply exec_spec|cbv beta].
  clear g HA. intros o g [Ho HA]. apply IH. split.
  - intros o' [?|[<-|[]]]%in_app_or; auto.
  - unfold sent, got in *. by rewrite !omap_app.
Qed.
End Specs.
