(* ===== verification/QueueFifo.v ===== *)
(** * The queue is a bounded FIFO

    The theorems on [Queue] that quantify over every interleaving of any
    number of clients, proved with the invariant of [QueueInv] and the
    specifications of [QueueConc]. *)

From S2P Require Import Prelude Atomic Queue QueueInv QueueConc.

Section Fifo.
Context {V : Type}.

(** The geometry the code uses: a lap is [(capacity + 1).next_power_of_two()]. *)
Definition lap_bits (cap : nat) : Z := Z.log2_up (Z.of_nat cap + 1).
Definition position (cap k : nat) : Z := pos (lap_bits cap) cap k.

Definition endpoint (sf rf : Z) (own : nat → Z) (cap t : nat) : Endpoint :=
  mkEndpoint sf rf (own t) (lap_for (Z.of_nat cap)) (Z.of_nat cap).

(** A fresh queue and one client per command list. *)
Definition start (sf rf : Z) (own : nat → Z) (cap : nat) (css : list (list (cmd V)))
    : cfg (qstate V) (list (out V)) :=
  (queue_new (Z.of_nat cap), imap (λ t cs, client (endpoint sf rf own cap t) cs []) css).

(** A queue of at least one slot and less than half the address space, two
    separate closing fields, and owners that are participant slots. *)
Record setup_ok (sf rf : Z) (own : nat → Z) (cap : nat) : Prop := {
  setup_cap : (0 < cap)%nat;
  setup_fit : Z.of_nat cap < 2 ^ (usize_bits - 1);
  setup_sf : 0 ≤ sf;
  setup_rf : 0 ≤ rf;
  setup_apart : rf ≠ sf ∧ rf ≠ sf + 1;
  setup_own t : 0 ≤ own t < PARTICIPANT_CAPACITY;
}.

(** The messages a log attributes to one producer, and to one consumer. *)
Definition from (t : nat) (log : list (nat * option V)) : list V :=
  omap (λ m, if decide (m.1 = t) then m.2 else None) log.
Definition taken_by (t : nat) (log : list (nat * option V)) (takers : list nat) : list V :=
  omap (λ m, if decide (m.2 = t) then m.1.2 else None) (zip log takers).

Section Setup.
Context (sf rf : Z) (own : nat → Z) (cap : nat) (Hok : setup_ok sf rf own cap).

#[local] Abbreviation inv := (inv (V:=V) (lap_bits cap) cap sf own).
#[local] Abbreviation rely := (rely (V:=V) sf cap).

Lemma lap_bits_range : 0 ≤ lap_bits cap < usize_bits.
Proof.
  split; [apply Z.log2_up_nonneg|]. apply (Z.le_lt_trans _ (usize_bits - 1)); [|done].
  apply Z.log2_up_le_pow2; [lia|]. pose proof (setup_fit _ _ _ _ Hok). lia.
Qed.

Lemma lap_bits_fit : Z.of_nat cap < 2 ^ lap_bits cap.
Proof.
  assert (Z.of_nat cap + 1 ≤ 2 ^ lap_bits cap); [|lia].
  apply Z.log2_up_le_pow2; [lia|done].
Qed.

(** The final account of every thread is part of every reachable state; a
    number no thread has stays out of the queue. *)
Lemma reach_ok css c :
  creach (start sf rf own cap css) c →
  ∃ g, rg_ok inv rely (accounted (V:=V)) g c ∧
    ∀ t, c.2 !! t = None → acct t None None [] [] g.
Proof.
  intros Hreach. pose proof lap_bits_range. pose proof lap_bits_fit. destruct Hok.
  assert (Hinit : ∀ t, acct (V:=V) t None None [] [] (ginit cap)).
  { intros t. split; simpl; try done.
    intros i k b Hi. apply list_lookup_fmap_Some in Hi as (? & ? & ?). congruence. }
  assert (Hlen : length c.2 = length css).
  { clear -Hreach. induction Hreach as [|c1 c2 t _ IH Hs]; [apply length_imap|].
    destruct Hs. simpl in *. by rewrite length_insert. }
  eapply (rg_sound inv rely) with (Q := accounted (V:=V)) (g := ginit cap) in Hreach
    as (g & Hg & Hlook); [|apply rely_refl|apply rely_trans|intros; apply accounted_stable|].
  - exists g. split; [done|]. intros t Ht. eapply acct_stable; [|apply Hinit].
    apply Hlook. simpl. apply lookup_ge_None_2. rewrite length_imap.
    rewrite <- Hlen. by apply lookup_ge_None_1.
  - split; [by apply inv_init|]. intros t p Hp. simpl in Hp.
    apply list_lookup_imap_Some in Hp as (cs & _ & ->).
    apply (client_spec (lap_bits cap) cap sf rf own); try done; lia.
Qed.

(** *** The log of a ghost state *)

Definition log_of (g : gst V) : list (nat * option V) := (λ c, (prod c, payload c)) <$> cells g.
Definition takers_of (g : gst V) : list nat := omap taker (firstn (gH g) (cells g)).

Lemma sent_from g t : sent_by t g = from t (log_of g).
Proof.
  unfold sent_by, from, log_of. induction (cells g) as [|c l IH]; [done|]. csimpl.
  rewrite IH. done.
Qed.

Lemma zip_takers (l : list (gcell V)) n t :
  (∀ k c, (k < n)%nat → l !! k = Some c → is_Some (taker c)) →
  length (omap taker (firstn n l)) = Nat.min n (length l) ∧
  taken_by t ((λ c, (prod c, payload c)) <$> l) (omap taker (firstn n l)) =
    omap (recv_one t) (firstn n l).
Proof.
  revert n. induction l as [|c l IH]; intros [|n] Hl; try done.
  destruct (Hl 0%nat c) as [c' Hc']; [lia|done|].
  destruct (IH n) as [IHl IHt]; [intros k c1 ? ?; apply (Hl (S k)); [lia|done]|].
  csimpl. rewrite Hc'. unfold taken_by in *. csimpl. split; [lia|].
  unfold recv_one at 1. rewrite Hc', IHt.
  destruct (decide (c' = t)) as [->|Hne]; [by rewrite decide_True|].
  rewrite decide_False by congruence. done.
Qed.

Lemma takers_ok g q t :
  inv g q → length (takers_of g) = gH g ∧ recv_by t g = taken_by t (log_of g) (takers_of g).
Proof.
  intros HI. pose proof lap_bits_range. pose proof lap_bits_fit.
  pose proof (setup_cap _ _ _ _ Hok). destruct (zip_takers (cells g) (gH g) t) as [Hl Ht].
  { intros k c Hk Hc. by eapply taken_all; [..|exact HI|exact Hk|exact Hc]. }
  pose proof (inv_order _ _ _ _ _ _ HI). unfold gT in *. split; [unfold takers_of; lia|].
  unfold takers_of, log_of. rewrite Ht. unfold recv_by.
  rewrite <- (take_drop (gH g) (cells g)) at 1. rewrite omap_app.
  rewrite (omap_none _ (drop _ _)); [by rewrite app_nil_r|].
  intros k c Hc. rewrite lookup_drop in Hc. unfold recv_one.
  assert (taker c = None) as ->; [|done]. eapply not_taken; [..|exact HI| |exact Hc]; done || lia.
Qed.
End Setup.

(** C1: any number of clients, interleaved in any way at the granularity of
    single atomic accesses, share one bounded FIFO.  In every reachable state
    there is a single log of granted reservations (with the message each
    carries, or none for a skipped one) and a list of claimers of its first
    entries, such that the cursors stand at the ends of the two, at most
    [cap] entries are unclaimed, and every client that has finished has sent
    exactly what the log attributes to it, has received exactly the messages of
    the entries it claimed, both in the order of the log, and has met neither
    an index out of range nor an uninitialized message. *)
Theorem queue_fifo sf rf own cap css q ps :
  setup_ok sf rf own cap →
  creach (start sf rf own cap css) (q, ps) →
  ∃ log takers,
    (length takers ≤ length log ≤ length takers + cap)%nat ∧
    head q = position cap (length takers) ∧ tail q = position cap (length log) ∧
    ∀ t os, ps !! t = Some (Ret os) →
      ¬ In Panicked os ∧ sent os = from t log ∧ got os = taken_by t log takers.
Proof.
  intros Hok Hreach. destruct (reach_ok _ _ _ _ Hok _ _ Hreach) as (g & [HI Hwp] & _). simpl in *.
  exists (log_of g), (takers_of g).
  destruct (takers_ok _ _ _ _ Hok _ _ 0%nat HI) as [Hlen _]. rewrite Hlen.
  assert (length (log_of g) = gT g) as -> by apply length_fmap.
  do 3 (split; [apply HI|]).
  intros t os Ht. destruct (Hwp _ _ Ht) as [Hp [_ _ HS HR]]. split_and!.
  - intros Hin. by apply (Hp _ Hin).
  - by rewrite <- HS, sent_from.
  - rewrite <- HR. by apply (takers_ok _ _ _ _ Hok _ _ t HI).
Qed.
End Fifo.

(** ** A run

    Two slots, a sender of three messages and a receiver, in turns. *)

Definition demo_own (t : nat) : Z := Z.of_nat t mod 63.

Lemma demo_setup : setup_ok 0 6 demo_own 2.
Proof.
  split; try (done || lia). intros t. apply Z.mod_pos_bound. done.
Qed.

Definition demo_clients : list (list (cmd Z)) :=
  [[CSend 7; CSend 8; CSend 9; CCloseSend; CPoll]; [CRecv; CRecv; CRecv; CRecv; CRecv; CRecv]].

Definition demo_schedule : list nat :=
  concat (replicate 40 [0; 1]%nat) ++ replicate 80 0%nat ++ replicate 80 1%nat.

Definition demo_end : cfg (qstate Z) (list (out Z)) :=
  sched demo_schedule (start 0 6 demo_own 2 demo_clients).

Lemma demo_reach : creach (start 0 6 demo_own 2 demo_clients) (demo_end.1, demo_end.2).
Proof. rewrite <- surjective_pairing. apply sched_reach. Qed.

Lemma queue_fifo_witness :
  (∃ os0 os1, demo_end.2 = [Ret os0; Ret os1] ∧ sent os0 = [7; 8; 9] ∧ got os1 = [7; 8]) ∧
  ∃ log takers,
    (length takers ≤ length log ≤ length takers + 2)%nat ∧
    head demo_end.1 = position 2 (length takers) ∧
    tail demo_end.1 = position 2 (length log) ∧
    ∀ t os, demo_end.2 !! t = Some (Ret os) →
      ¬ In Panicked os ∧ sent os = from t log ∧ got os = taken_by t log takers.
Proof.
  split; [eexists _, _; split; [vm_compute; reflexivity|split; reflexivity]|].
  exact (queue_fifo 0 6 demo_own 2 demo_clients _ _ demo_setup demo_reach).
Defined.
