(* ===== verification/QueueSeq.v ===== *)
(** * The queue refines a bounded FIFO

    An abstract bounded queue and the refinement theorem: a queue operated by
    one caller at a time answers exactly as the abstract one, [Full], [Empty],
    [Busy] and [Disconnected] included. *)

From S2P Require Import Prelude Atomic Queue QueueInv QueueConc QueueFifo.

(** ** Abstract specification *)

Section Spec.
Context {V : Type}.

(** The reservations not yet claimed, oldest first ([None] is an abandoned
    one), and the lifecycle byte. *)
Record aqueue := mkA { items : list (option V); alife : Z }.

Definition fstate (life field : Z) : Z := Z.land (Z.shiftr life field) 3.

Inductive qop := OSend (v : V) | ORecv | OAbandon | OCloseSend | OCloseRecv | OTerminal.
Inductive qres :=
| RSend (r : result unit (TrySendError V))
| RRecv (r : result V TryRecvError)
| RReserve (r : result unit ReserveError)
| RUnit
| RBool (b : bool)
| RPanic.

Definition afinish (field : Z) (a : aqueue) : Z * aqueue :=
  if fstate (alife a) field =? 1 then (3, mkA (items a) (Z.lor (alife a) (Z.shiftl 2 field)))
  else (fstate (alife a) field, a).

Definition aterminal (sf rf : Z) (a : aqueue) : bool * aqueue :=
  let '(r, a) := afinish rf a in
  if r =? 3 then (true, a) else
  let '(s, a) := afinish sf a in
  if s =? 3 then (match items a with [] => true | _ => false end, a) else (false, a).

Definition areserve (sf rf : Z) (cap : nat) (o : option V) (a : aqueue)
    : result unit ReserveError * aqueue :=
  if negb (Z.lor (fstate (alife a) sf) (fstate (alife a) rf) =? 0) then (Err Closed, a)
  else if bool_decide (length (items a) = cap) then (Err Full, a)
  else (Ok tt, mkA (items a ++ [o]) (alife a)).

(** One operation of the abstract queue. *)
Definition spec_op (sf rf : Z) (cap : nat) (op : qop) (a : aqueue) : qres * aqueue :=
  match op with
  | OSend v =>
    let '(r, a) := areserve sf rf cap (Some v) a in
    (RSend (map_err (λ err, match err with
       | Closed => Disconnected v | Full => SendFull v | Busy => SendBusy v end) r), a)
  | OAbandon => let '(r, a) := areserve sf rf cap None a in (RReserve r, a)
  | ORecv =>
    if negb (fstate (alife a) rf =? 0) then (RRecv (Err RecvDisconnected), a)
    else match items a with
    | [] => let '(b, a) := aterminal sf rf a in
            (RRecv (Err (if b then RecvDisconnected else RecvEmpty)), a)
    | None :: l => (RRecv (Err RecvBusy), mkA l (alife a))
    | Some v :: l => (RRecv (Ok v), mkA l (alife a))
    end
  | OCloseSend => (RUnit, mkA (items a) (Z.lor (alife a) (Z.shiftl 1 sf)))
  | OCloseRecv => (RUnit, mkA (items a) (Z.lor (alife a) (Z.shiftl 1 rf)))
  | OTerminal => let '(b, a) := aterminal sf rf a in (RBool b, a)
  end.

Fixpoint spec_ops (sf rf : Z) (cap : nat) (ops : list qop) (a : aqueue) : list qres * aqueue :=
  match ops with
  | [] => ([], a)
  | op :: ops =>
    let '(r, a) := spec_op sf rf cap op a in
    let '(rs, a) := spec_ops sf rf cap ops a in (r :: rs, a)
  end.

(** The same operations on the shared words. *)
Definition exec_op (e : Endpoint) (op : qop) : prog (qstate V) qres :=
  match op with
  | OSend v =>
    do r <- try_send e v; Ret (match r with Some r => RSend r | None => RPanic end)
  | ORecv =>
    do r <- try_recv e;
    Ret (match r with
         | Some (Ok (Some v)) => RRecv (Ok v)
         | Some (Ok None) => RPanic
         | Some (Err err) => RRecv (Err err)
         | None => RPanic
         end)
  | OAbandon =>
    do r <- reserve e;
    match r with
    | Some (Ok i) => do _ <- skip i; Ret (RReserve (Ok tt))
    | Some (Err err) => Ret (RReserve (Err err))
    | None => Ret RPanic
    end
  | OCloseSend => do _ <- close_send e; Ret RUnit
  | OCloseRecv => do _ <- close_recv e; Ret RUnit
  | OTerminal => do b <- terminal e; Ret (RBool b)
  end.

Fixpoint exec_ops (e : Endpoint) (ops : list qop) : prog (qstate V) (list qres) :=
  match ops with
  | [] => Ret []
  | op :: ops => do r <- exec_op e op; do rs <- exec_ops e ops; Ret (r :: rs)
  end.
End Spec.
Arguments qop : clear implicits.
Arguments qres : clear implicits.
Arguments aqueue : clear implicits.

(** ** Representation *)

Section Repr.
Context {V : Type} (cap : nat).

(** The slot at distance [j] from the head. *)
Definition slot_repr (h : nat) (l : list (option V)) (j : nat) (s : Slot V) : Prop :=
  turn s = position cap (h + j) ∧
  match l !! j with
  | Some o => control s = avail o ∧ holds_value o s
  | None => control s = EMPTY
  end.

(** [q] holds the abstract queue [a] with [h] entries claimed so far. *)
Record represents (q : qstate V) (h : nat) (a : aqueue V) : Prop := {
  rep_len : length (buf q) = cap;
  rep_head : head q = position cap h;
  rep_tail : tail q = position cap (h + length (items a));
  rep_life : lifecycle q = alife a;
  rep_fit : (length (items a) ≤ cap)%nat;
  rep_slot j s : (j < cap)%nat → buf q !! ((h + j) mod cap)%nat = Some s →
    slot_repr h (items a) j s;
}.
End Repr.

(** ** Refinement *)

Section Refine.
Context {V : Type} (sf rf : Z) (own : nat → Z) (cap : nat) (Hok : setup_ok sf rf own cap) (t : nat).

#[local] Abbreviation e := (endpoint sf rf own cap t).
Implicit Types (q : qstate V) (a : aqueue V).

Lemma e_geometry : geometry_ok (lap_bits cap) cap e.
Proof. done. Qed.

Lemma index_position k : index_of e (position cap k) = Z.of_nat (k mod cap).
Proof.
  apply (pos_index (lap_bits cap)); [by apply (lap_bits_range sf rf own)|apply Hok|apply lap_bits_fit|done].
Qed.

Lemma advance_position k : advance e (position cap k) = position cap (S k).
Proof.
  apply (pos_advance (lap_bits cap)); [by apply (lap_bits_range sf rf own)|apply Hok|apply lap_bits_fit|done].
Qed.

Lemma lap_position k : wrapping_add (position cap k) (one_lap e) = position cap (k + cap).
Proof.
  apply (pos_lap (lap_bits cap)); [by apply (lap_bits_range sf rf own)|apply Hok|apply lap_bits_fit|done].
Qed.

Lemma position_inj k k' : (k ≤ k' ≤ k + cap)%nat → position cap k = position cap k' → k = k'.
Proof.
  apply (pos_inj (lap_bits cap)); [by apply (lap_bits_range sf rf own)|apply Hok|apply lap_bits_fit].
Qed.

Lemma rep_at q h a j : represents cap q h a → (j < cap)%nat →
  ∃ s, buf q !! ((h + j) mod cap)%nat = Some s ∧ slot_at ((h + j) mod cap) q = s ∧
    slot_repr cap h (items a) j s.
Proof.
  intros HR Hj. pose proof (idx_lt cap (setup_cap _ _ _ _ Hok) (h + j)).
  destruct (lookup_lt_is_Some_2 (buf q) ((h + j) mod cap)) as [s Hs].
  { by rewrite (rep_len _ _ _ _ HR). }
  exists s. split_and!; [done|by apply slot_at_lookup|by eapply rep_slot].
Qed.

(** Distances from the head and slot indices correspond. *)
Lemma rep_index h j j' : (j < cap)%nat → (j' < cap)%nat →
  ((h + j) mod cap = (h + j') mod cap)%nat → j = j'.
Proof.
  intros Hj Hj' E. apply (window_inj cap (setup_cap _ _ _ _ Hok) h) in E; lia.
Qed.

Lemma rep_full_or_free q h a :
  represents cap q h a → (length (items a) < cap)%nat →
  control (slot_at ((h + length (items a)) mod cap) q) = EMPTY ∧
  turn (slot_at ((h + length (items a)) mod cap) q) = position cap (h + length (items a)).
Proof.
  intros HR Hlt. destruct (rep_at _ _ _ _ HR Hlt) as (s & _ & -> & Ht & Hc).
  by rewrite lookup_ge_None_2 in Hc by lia.
Qed.

Lemma slot_at_set q i s : (i < length (buf q))%nat → slot_at i (set_slot i s q) = s.
Proof. intros Hi. unfold slot_at, set_slot. simpl. by rewrite list_lookup_insert_eq. Qed.

Lemma set_slot_twice q i s s' : set_slot i s (set_slot i s' q) = set_slot i s q.
Proof. unfold set_slot. simpl. by rewrite list_insert_insert_eq. Qed.

Lemma run_reserve q h a :
  represents cap q h a →
  run (reserve e) q =
    let i := ((h + length (items a)) mod cap)%nat in
    if negb (Z.lor (fstate (alife a) sf) (fstate (alife a) rf) =? 0) then (Some (Err Closed), q)
    else if bool_decide (length (items a) = cap) then (Some (Err Full), q)
    else (Some (Ok i),
          mkQ (head q) (position cap (h + S (length (items a)))) (lifecycle q)
            (buf (store_control i (owned PRODUCER false (own t)) q).2)).
Proof.
  intros HR. unfold reserve. rewrite run_bind. cbn -[fstate index_of advance Z.lor position].
  rewrite (rep_life _ _ _ _ HR). fold (fstate (alife a) sf) (fstate (alife a) rf).
  split_if; [done|]. cbn -[fstate index_of advance Z.lor position].
  rewrite (rep_tail _ _ _ _ HR), index_position, advance_position, Nat2Z.id.
  pose proof (idx_lt cap (setup_cap _ _ _ _ Hok) (h + length (items a))) as Hi.
  set (i := ((h + length (items a)) mod cap)%nat) in *.
  destruct (Z.ltb_spec (Z.of_nat i) (Z.of_nat cap)); [|lia]. cbn -[fstate position Z.lor].
  unfold cas_control. case_bool_decide as Hfull.
  - destruct (rep_at _ _ _ 0 HR (setup_cap _ _ _ _ Hok)) as (s & _ & Hat & _ & Hc).
    assert (i = (h + 0) mod cap)%nat as ->.
    { subst i. rewrite Hfull, Nat.add_0_r. by apply add_cap, Hok. }
    destruct (lookup_lt_is_Some_2 (items a) 0) as [o Ho]; [pose proof (setup_cap _ _ _ _ Hok); lia|].
    rewrite Ho in Hc. rewrite Hat. destruct (Z.eqb_spec (control s) EMPTY) as [E|_].
    { destruct o, Hc as [Hc _]; rewrite E in Hc; by apply (f_equal (Z.eqb 0)) in Hc. }
    cbn -[position]. rewrite (rep_head _ _ _ _ HR).
    change (lap_for (Z.of_nat cap)) with (one_lap e). rewrite lap_position, Hfull.
    by rewrite Z.eqb_refl.
  - pose proof (rep_fit _ _ _ _ HR) as Hfit.
    destruct (rep_full_or_free _ _ _ HR) as [Hc Ht]; [lia|]. fold i in Hc, Ht.
    rewrite Hc. cbn -[fstate position Z.lor]. unfold load_turn, store_control. cbn [snd].
    rewrite slot_at_set by (by rewrite (rep_len _ _ _ _ HR)).
    cbn -[fstate position Z.lor]. rewrite Ht, Z.eqb_refl. cbn -[fstate position Z.lor].
    rewrite (rep_tail _ _ _ _ HR), Z.eqb_refl. cbn -[fstate position Z.lor].
    rewrite (rep_life _ _ _ _ HR). fold (fstate (alife a) sf) (fstate (alife a) rf).
    rewrite Heqb. cbn -[fstate position Z.lor]. unfold cas_tail. cbn -[fstate position Z.lor].
    rewrite (rep_tail _ _ _ _ HR), Z.eqb_refl. cbn -[fstate position Z.lor].
    by rewrite Nat.add_succ_r, (rep_life _ _ _ _ HR).
Qed.
(** *** Effect of a push and of a pop on the representation *)

Lemma rep_push q h a o s q' :
  represents cap q h a → (length (items a) < cap)%nat →
  turn s = position cap (h + length (items a)) → control s = avail o → holds_value o s →
  q' = mkQ (head q) (position cap (h + S (length (items a)))) (lifecycle q)
         (<[((h + length (items a)) mod cap)%nat := s]> (buf q)) →
  represents cap q' h (mkA (items a ++ [o]) (alife a)).
Proof.
  intros HR Hlt Ht Hc Hv ->. destruct HR as [Hlen Hh Htl Hlf Hfit Hslot]. split; simpl; try done.
  - by rewrite length_insert.
  - by rewrite length_app, Nat.add_1_r.
  - rewrite length_app. simpl. lia.
  - intros j s' Hj [(E & <- & _)|[Hne Hs']]%list_lookup_insert_Some.
    + apply rep_index in E as <-; [|done|done]. split; [done|].
      by rewrite list_lookup_middle.
    + destruct (Hslot j s' Hj Hs') as [Hst Hsc]. split; [done|].
      destruct (decide (j < length (items a))%nat); [by rewrite lookup_app_l|].
      destruct (decide (j = length (items a))) as [->|]; [done|].
      rewrite lookup_ge_None_2 in Hsc by lia. by rewrite lookup_ge_None_2 by (rewrite length_app; simpl; lia).
Qed.

Lemma rep_pop q h o l life w q' :
  represents cap q h (mkA (o :: l) life) →
  q' = mkQ (position cap (S h)) (tail q) (lifecycle q)
         (<[(h mod cap)%nat := mkSlot (position cap (h + cap)) EMPTY w]> (buf q)) →
  represents cap q' (S h) (mkA l life).
Proof.
  intros HR ->. pose proof (setup_cap _ _ _ _ Hok).
  destruct HR as [Hlen Hh Htl Hlf Hfit Hslot]. simpl in *. split; simpl; try done.
  - by rewrite length_insert.
  - by rewrite <- Nat.add_succ_r.
  - lia.
  - intros j s Hj [(E & <- & _)|[Hne Hs]]%list_lookup_insert_Some.
    + assert (j = cap - 1)%nat as ->.
      { destruct (decide (j = cap - 1)%nat) as [|Hne]; [done|exfalso].
        rewrite <- (Nat.add_0_r h) in E at 1.
        rewrite <- Nat.add_succ_r in E. apply rep_index in E; lia. }
      unfold slot_repr. cbn [turn control]. replace (S h + (cap - 1))%nat with (h + cap)%nat by lia.
      by rewrite lookup_ge_None_2 by lia.
    + destruct (decide (j = cap - 1)%nat) as [->|].
      { destruct Hne. replace (S (h + (cap - 1)))%nat with (h + cap)%nat by lia.
        symmetry. by apply add_cap. }
      rewrite <- Nat.add_succ_r in Hs. destruct (Hslot (S j) s ltac:(lia) Hs) as [Ht Hc].
      split; [by rewrite Nat.add_succ_comm|done].
Qed.

Lemma rep_life_or q h l life bits :
  represents cap q h (mkA l life) →
  represents cap (fetch_or_life bits q).2 h (mkA l (Z.lor life bits)).
Proof. intros []; split; simpl in *; try done. congruence. Qed.

(** *** Operations *)

Lemma run_stage q i v : (i < length (buf q))%nat →
  run (stage i v) q =
    (tt, set_slot i (mkSlot (turn (slot_at i q))
       (owned PRODUCER true (wrap 8 (source_of (control (slot_at i q)) - 1))) (Some v)) q).
Proof.
  intros Hi. unfold stage, reserved_owner. simpl. unfold load_control, store_control. simpl.
  rewrite !slot_at_set by done. simpl. by rewrite set_slot_twice.
Qed.

Lemma reserve_spec_seq q h a o (fin : nat → prog (qstate V) (qres V)) r :
  represents cap q h a →
  (∀ i q', (i < length (buf q'))%nat → ∃ s, run (fin i) q' = (r, set_slot i s q') ∧
     turn s = turn (slot_at i q') ∧ control s = avail o ∧ holds_value o s) →
  ∃ q', match areserve sf rf cap o a with
    | (Ok _, a') => (∃ i q0, run (reserve e) q = (Some (Ok i), q0) ∧ run (fin i) q0 = (r, q')) ∧
        represents cap q' h a'
    | (Err err, a') => run (reserve e) q = (Some (Err err), q') ∧ represents cap q' h a'
    end.
Proof.
  intros HR Hfin. pose proof (run_reserve _ _ _ HR) as Hrun. unfold areserve. cbv zeta in Hrun.
  split_if; [by exists q|]. case_bool_decide as Hfull; [by exists q|].
  pose proof (rep_fit _ _ _ _ HR) as Hfit. set (i := ((h + length (items a)) mod cap)%nat) in *.
  assert (Hi : (i < cap)%nat) by apply idx_lt, Hok.
  destruct (rep_full_or_free _ _ _ HR) as [_ Ht]; [lia|]. fold i in Ht.
  edestruct (Hfin i) as (s & Hf & Hts & Hcs & Hvs); [|eexists; split; [exists i; eexists; split; [exact Hrun|exact Hf]|]].
  { simpl. rewrite length_insert. by rewrite (rep_len _ _ _ _ HR). }
  eapply (rep_push _ _ _ o s); [exact HR|lia| |done|done|].
  - rewrite Hts. unfold slot_at at 1. simpl.
    rewrite list_lookup_insert_eq by (by rewrite (rep_len _ _ _ _ HR)). done.
  - unfold set_slot. simpl. by rewrite list_insert_insert_eq.
Qed.
(** The head slot, before and after its claim. *)
Definition claimed_head q h : qstate V :=
  mkQ (position cap (S h)) (tail q) (lifecycle q)
    (<[(h mod cap)%nat := mkSlot (position cap (h + cap)) EMPTY (value (slot_at (h mod cap) q))]> (buf q)).

Lemma run_recycle q i n b : (i < length (buf q))%nat →
  run (recycle (mkClaim i n b)) q = (tt, set_slot i (mkSlot n EMPTY (value (slot_at i q))) q).
Proof.
  intros Hi. unfold recycle. simpl. unfold store_turn, store_control. simpl.
  rewrite !slot_at_set by done. simpl. by rewrite set_slot_twice.
Qed.

Lemma run_claim q h a o l :
  represents cap q h a → items a = o :: l → fstate (alife a) rf = 0 →
  ∃ q1, run (claim e) q =
      match o with
      | Some _ => (Some (Ok (mkClaim (h mod cap) (position cap (h + cap)) true)), q1)
      | None => (Some (Err ClaimBusy), claimed_head q h)
      end ∧
    run (recycle (mkClaim (h mod cap) (position cap (h + cap)) true)) q1 = (tt, claimed_head q h) ∧
    slot_at (h mod cap) q1 = mkSlot (position cap h) (owned CONSUMER true (own t)) (value (slot_at (h mod cap) q)).
Proof.
  intros HR Hit Hrf. pose proof (setup_cap _ _ _ _ Hok) as Hcap.
  destruct (rep_at _ _ _ 0 HR Hcap) as (s & Hs & Hat & Ht & Hc).
  rewrite Nat.add_0_r in Hs, Hat, Ht. rewrite Hit in Hc. simpl in Hc. destruct Hc as [Hc Hv].
  pose proof (idx_lt cap Hcap h) as Hi'. pose proof Hi' as Hi.
  rewrite <- (rep_len _ _ _ _ HR) in Hi at 2.
  set (i := (h mod cap)%nat) in *.
  exists (mkQ (position cap (S h)) (tail q) (lifecycle q)
    (<[i := mkSlot (turn s) (owned CONSUMER true (own t)) (value s)]> (buf q))).
  split_and!.
  - unfold claim. rewrite run_bind. cbn -[fstate index_of advance position].
    rewrite (rep_life _ _ _ _ HR). fold (fstate (alife a) rf). rewrite Hrf.
    cbn -[index_of advance position]. rewrite (rep_head _ _ _ _ HR), index_position, advance_position, Nat2Z.id.
    fold i. destruct (Z.ltb_spec (Z.of_nat i) (Z.of_nat cap)); [|lia].
    cbn -[position wrapping_add]. unfold load_control. rewrite Hat, Hc.
    assert (negb (avail o =? AVAILABLE) && negb (avail o =? Z.lor AVAILABLE COMPLETE) = false)
      as -> by (by destruct o).
    assert (negb (Z.land (avail o) COMPLETE =? 0) = bool_decide (is_Some o)) as -> by (by destruct o).
    cbn -[position wrapping_add]. unfold cas_control, store_control. rewrite Hat, Hc, Z.eqb_refl.
    cbn -[position wrapping_add]. unfold load_turn. rewrite slot_at_set by done.
    cbn -[position wrapping_add]. rewrite Ht, Z.eqb_refl. cbn -[position wrapping_add].
    rewrite (rep_head _ _ _ _ HR), Z.eqb_refl. cbn -[position wrapping_add]. unfold cas_head.
    cbn -[position wrapping_add]. rewrite (rep_head _ _ _ _ HR), Z.eqb_refl.
    cbn -[position wrapping_add]. change (lap_for (Z.of_nat cap)) with (one_lap e).
    rewrite lap_position. destruct o as [v|]; [by rewrite (rep_life _ _ _ _ HR)|].
    cbn -[position wrapping_add]. unfold claimed_head. fold i. rewrite Hat.
    unfold store_turn, store_control, set_slot, slot_at. simpl.
    rewrite !list_lookup_insert_eq by (rewrite ?length_insert; done).
    simpl. by rewrite !list_insert_insert_eq.
  - rewrite run_recycle by (simpl; by rewrite length_insert).
    unfold claimed_head. fold i. rewrite Hat. unfold set_slot, slot_at. simpl.
    rewrite list_lookup_insert_eq by done. simpl. by rewrite list_insert_insert_eq.
  - unfold slot_at. simpl. rewrite list_lookup_insert_eq by done. rewrite Hs. simpl. by rewrite Ht.
Qed.

Lemma run_claim_empty q h a :
  represents cap q h a → items a = [] → fstate (alife a) rf = 0 →
  run (claim e) q = (Some (Err ClaimEmpty), q).
Proof.
  intros HR Hit Hrf. pose proof (setup_cap _ _ _ _ Hok) as Hcap.
  destruct (rep_at _ _ _ 0 HR Hcap) as (s & Hs & Hat & Ht & Hc).
  rewrite Hit in Hc. simpl in Hc. rewrite Nat.add_0_r in Hat.
  pose proof (idx_lt cap Hcap h).
  unfold claim. rewrite run_bind. cbn -[fstate index_of advance position].
  rewrite (rep_life _ _ _ _ HR). fold (fstate (alife a) rf). rewrite Hrf.
  cbn -[index_of advance position]. rewrite (rep_head _ _ _ _ HR), index_position, Nat2Z.id.
  destruct (Z.ltb_spec (Z.of_nat (h mod cap)) (Z.of_nat cap)); [|lia].
  cbn -[position wrapping_add]. unfold load_control. rewrite Hat, Hc.
  change (negb (EMPTY =? AVAILABLE) && negb (EMPTY =? Z.lor AVAILABLE COMPLETE)) with true.
  cbn -[position]. by rewrite (rep_tail _ _ _ _ HR), Hit, Nat.add_0_r, Z.eqb_refl.
Qed.

(** Nobody is inside the queue, so a closed side always finishes. *)
Lemma run_all_not_based q h a b n m :
  represents cap q h a → b = PRODUCER ∨ b = CONSUMER → (n + m ≤ cap)%nat →
  run (all_not_based b (seq n m)) q = (true, q).
Proof.
  intros HR Hb. revert n. induction m as [|m IH]; intros n Hn; [done|]. simpl.
  assert (base (control (slot_at n q)) ≠ b) as Hne.
  { pose proof (setup_cap _ _ _ _ Hok) as Hcap.
    assert (∃ j, (j < cap)%nat ∧ ((h + j) mod cap)%nat = n) as (j & Hj & <-).
    { exists ((n + (cap - h mod cap)) mod cap)%nat. split; [by apply idx_lt|].
      pose proof (idx_lt cap Hcap h). rewrite Nat.Div0.add_mod_idemp_r.
      rewrite (Nat.div_mod_eq h cap) at 1.
      replace (cap * (h / cap) + h mod cap + (n + (cap - h mod cap)))%nat
        with (n + (S (h / cap)) * cap)%nat by nia.
      rewrite Nat.Div0.mod_add. apply Nat.mod_small. lia. }
    destruct (rep_at _ _ _ _ HR Hj) as (s & _ & -> & _ & Hc).
    destruct (items a !! j) as [o|]; [destruct Hc as [Hc _]; destruct o|]; rewrite Hc;
      by destruct Hb as [-> | ->]. }
  destruct (Z.eqb_spec (base (control (slot_at n q))) b); [done|]. apply IH. lia.
Qed.

Lemma run_finish q h a f b :
  represents cap q h a → b = PRODUCER ∨ b = CONSUMER →
  ∃ q', run (finish_field e f b) q = ((afinish f a).1, q') ∧ represents cap q' h (afinish f a).2.
Proof.
  intros HR Hb. unfold finish_field, afinish. rewrite run_bind. cbn -[fstate].
  rewrite (rep_life _ _ _ _ HR). fold (fstate (alife a) f). split_if; [|by exists q].
  rewrite Nat2Z.id, run_bind, (run_all_not_based _ _ _ _ _ _ HR Hb) by lia. simpl.
  eexists. split; [done|]. destruct a. by apply rep_life_or.
Qed.

Lemma run_terminal q h a :
  represents cap q h a →
  ∃ q', run (terminal e) q = ((aterminal sf rf a).1, q') ∧
    represents cap q' h (aterminal sf rf a).2.
Proof.
  intros HR. unfold terminal, recv_closed, send_closed, aterminal. cbv zeta.
  destruct (run_finish _ _ _ rf CONSUMER HR) as (q1 & Hr1 & HR1); [by right|].
  rewrite !run_bind. cbn [recv_field endpoint]. rewrite Hr1. destruct (afinish rf a) as [r a1]. cbn [run fst snd] in *.
  split_if; [by exists q1|].
  destruct (run_finish _ _ _ sf PRODUCER HR1) as (q2 & Hr2 & HR2); [by left|].
  rewrite !run_bind. cbn [send_field endpoint]. rewrite Hr2. destruct (afinish sf a1) as [s a2]. cbn [run fst snd] in *.
  split_if; [|by exists q2]. exists q2. split; [|done]. cbn -[position].
  rewrite (rep_head _ _ _ _ HR2), (rep_tail _ _ _ _ HR2).
  pose proof (rep_fit _ _ _ _ HR2) as Hfit. destruct (items a2) as [|o l]; simpl in *.
  - by rewrite Nat.add_0_r, Z.eqb_refl.
  - destruct (Z.eqb_spec (position cap (h + S (length l))) (position cap h)) as [E|]; [|done].
    symmetry in E. apply position_inj in E; lia.
Qed.
(** *** One operation *)

Lemma run_send q h a v :
  represents cap q h a →
  ∃ q', run (exec_op e (OSend v)) q = ((spec_op sf rf cap (OSend v) a).1, q') ∧
    represents cap q' h (spec_op sf rf cap (OSend v) a).2.
Proof.
  intros HR. cbn [exec_op spec_op]. unfold try_send. rewrite !run_bind.
  destruct (reserve_spec_seq q h a (Some v)
    (λ i, do _ <- stage i v; do _ <- publish i; Ret RUnit) RUnit HR) as (q' & Hq').
  { intros i q' Hi. eexists. split_and!; [|..].
    - rewrite run_bind, run_stage by done. cbn. unfold store_control.
      rewrite slot_at_set by done. by rewrite set_slot_twice.
    - done.
    - done.
    - done. }
  destruct (areserve sf rf cap (Some v) a) as [[[]|err] a'].
  - destruct Hq' as [(i & q0 & -> & Hr) HR']. exists q'. split; [|done].
    rewrite !run_bind in Hr. rewrite !run_bind. destruct (run (stage i v) q0) as [? q1].
    cbn in *. congruence.
  - destruct Hq' as [-> HR']. exists q'. split; [|done]. by destruct err.
Qed.

Lemma run_abandon q h a :
  represents cap q h a →
  ∃ q', run (exec_op e OAbandon) q = ((spec_op sf rf cap OAbandon a).1, q') ∧
    represents cap q' h (spec_op sf rf cap OAbandon a).2.
Proof.
  intros HR. cbn [exec_op spec_op]. rewrite run_bind.
  destruct (reserve_spec_seq q h a None (λ i, do _ <- skip i; Ret (RReserve (Ok tt)))
    (RReserve (Ok tt)) HR) as (q' & Hq').
  { intros i q' Hi. eexists. by split_and!. }
  destruct (areserve sf rf cap None a) as [[[]|err] a'].
  - destruct Hq' as [(i & q0 & -> & Hr) HR']. by exists q'.
  - destruct Hq' as [-> HR']. by exists q'.
Qed.

Lemma run_recv q h a :
  represents cap q h a →
  ∃ q' h', run (exec_op e ORecv) q = ((spec_op sf rf cap ORecv a).1, q') ∧
    represents cap q' h' (spec_op sf rf cap ORecv a).2.
Proof.
  intros HR. cbn [exec_op spec_op]. unfold try_recv. rewrite !run_bind.
  destruct (fstate (alife a) rf =? 0) eqn:Hrf; bools; cbn [negb].
  2: { exists q, h. split; [|done]. unfold claim. rewrite run_bind. cbn -[fstate].
       rewrite (rep_life _ _ _ _ HR). fold (fstate (alife a) rf).
       by destruct (Z.eqb_spec (fstate (alife a) rf) 0). }
  destruct (items a) as [|o l] eqn:Hit.
  - rewrite (run_claim_empty _ _ _ HR Hit Hrf), run_bind.
    destruct (run_terminal _ _ _ HR) as (q' & -> & HR').
    destruct (aterminal sf rf a) as [b a']. by exists q', h.
  - destruct (run_claim _ _ _ _ _ HR Hit Hrf) as (q1 & -> & Hrec & Hat).
    assert (HR' : represents cap (claimed_head q h) (S h) (mkA l (alife a))).
    { eapply (rep_pop _ _ o); [|done]. by destruct a; simpl in *; subst. }
    destruct o as [v|]; [|by exists (claimed_head q h), (S h)].
    exists (claimed_head q h), (S h). split; [|done].
    destruct (rep_at _ _ _ 0 HR (setup_cap _ _ _ _ Hok)) as (s & _ & Hs & _ & Hc).
    rewrite Hit in Hc. destruct Hc as [_ Hv]. rewrite Nat.add_0_r in Hs. simpl in Hv.
    unfold take. rewrite run_bind. cbn [run claim_slot read_value].
    rewrite Hat, run_bind, Hrec. cbn. by rewrite Hs, Hv.
Qed.

Lemma run_op q h a op :
  represents cap q h a →
  ∃ q' h', run (exec_op e op) q = ((spec_op sf rf cap op a).1, q') ∧
    represents cap q' h' (spec_op sf rf cap op a).2.
Proof.
  intros HR. destruct op as [v| | | | |].
  - destruct (run_send _ _ _ v HR) as (q' & ? & ?). eauto.
  - by apply run_recv with h.
  - destruct (run_abandon _ _ _ HR) as (q' & ? & ?). eauto.
  - eexists _, h. split; [done|]. destruct a. by apply rep_life_or.
  - eexists _, h. split; [done|]. destruct a. by apply rep_life_or.
  - cbn [exec_op spec_op]. rewrite run_bind. destruct (run_terminal _ _ _ HR) as (q' & -> & HR').
    destruct (aterminal sf rf a) as [b a']. by exists q', h.
Qed.

Lemma rep_new : represents cap (queue_new (Z.of_nat cap)) 0 (mkA (V:=V) [] 0).
Proof.
  assert (HI : inv (V:=V) (lap_bits cap) cap sf own (ginit cap) (queue_new (Z.of_nat cap))).
  { apply inv_init; first [by apply (lap_bits_range sf rf own)|apply Hok|apply lap_bits_fit]. }
  destruct HI as [HB _ HH HT HL _ HS _ _]. split; try done; [simpl; lia|].
  intros j s Hj Hs. simpl in Hs. pose proof (setup_cap _ _ _ _ Hok).
  rewrite Nat.mod_small in Hs by done.
  assert (Hw : slots (ginit (V:=V) cap) !! j = Some (Fr j None)).
  { simpl. by rewrite list_lookup_fmap, lookup_seq_lt. }
  destruct (HS _ _ _ Hw Hs) as (_ & _ & ? & ?). by split.
Qed.
End Refine.

(** C3: run by one caller at a time, the queue built by [Header::new] and
    [Slot::new] answers every sequence of sends, receives, abandoned
    reservations, closings and polls exactly as the abstract bounded FIFO does,
    and ends in a state that represents the abstract one. *)
Theorem queue_refines_fifo V sf rf own cap t (ops : list (qop V)) :
  setup_ok sf rf own cap →
  ∃ q h, run (exec_ops (endpoint sf rf own cap t) ops) (queue_new (Z.of_nat cap)) =
      ((spec_ops sf rf cap ops (mkA [] 0)).1, q) ∧
    represents cap q h (spec_ops sf rf cap ops (mkA [] 0)).2.
Proof.
  intros Hok. assert (H : ∀ q h a, represents cap q h a →
    ∃ q' h', run (exec_ops (endpoint sf rf own cap t) ops) q = ((spec_ops sf rf cap ops a).1, q') ∧
      represents cap q' h' (spec_ops sf rf cap ops a).2).
  { induction ops as [|op ops IH]; intros q h a HR; [exists q, h; by split|].
    cbn [exec_ops spec_ops]. rewrite run_bind.
    destruct (run_op sf rf own cap Hok t q h a op HR) as (q1 & h1 & -> & HR1).
    destruct (spec_op sf rf cap op a) as [r a1]. cbn [fst snd] in *. rewrite run_bind.
    destruct (IH _ _ _ HR1) as (q2 & h2 & -> & HR2).
    destruct (spec_ops sf rf cap ops a1) as [rs a2]. by exists q2, h2. }
  apply (H _ 0%nat). by apply (rep_new sf rf own).
Qed.

Lemma queue_refines_fifo_witness :
  let ops := [OSend 7; OAbandon; OSend 8; ORecv; ORecv; ORecv; OCloseSend; OSend 9; ORecv] in
  (spec_ops 0 6 2 ops (mkA [] 0)).1 =
    [RSend (Ok tt); RReserve (Ok tt); RSend (Err (SendFull 8)); RRecv (Ok 7);
     RRecv (Err RecvBusy); RRecv (Err RecvEmpty); RUnit; RSend (Err (Disconnected 9));
     RRecv (Err RecvDisconnected)] ∧
  ∃ q h, run (exec_ops (endpoint 0 6 demo_own 2 0) ops) (queue_new 2) =
      ((spec_ops 0 6 2 ops (mkA [] 0)).1, q) ∧
    represents 2 q h (spec_ops 0 6 2 ops (mkA [] 0)).2.
Proof.
  intros ops. split; [reflexivity|].
  exact (queue_refines_fifo Z 0 6 demo_own 2 0 ops demo_setup).
Defined.
