(* ===== verification/QueueEnd.v ===== *)
(** * How a queue's life ends

    A finished send side is final, and clients that all stop leave a queue that
    represents exactly the rest of their log. *)

From S2P Require Import Prelude Atomic Queue QueueInv QueueConc QueueFifo QueueSeq.

Section Final.
Context {V : Type} (sf rf : Z) (own : nat → Z) (cap : nat) (Hok : setup_ok sf rf own cap).

#[local] Abbreviation inv := (inv (V:=V) (lap_bits cap) cap sf own).
#[local] Abbreviation rely := (rely (V:=V) sf cap).
Implicit Types (g : gst V) (q : qstate V) (c : gcell V).

(** The slot carries message [o], or a skipped entry, and no producer works on
    it. *)
Definition published (o : option V) (s : Slot V) : Prop :=
  holds_value o s ∧ base (control s) ≠ PRODUCER ∧
  Z.land (control s) COMPLETE = (if o is Some _ then COMPLETE else 0).

(** Once finished, the log does not grow and its messages do not change. *)
Definition frozen (g0 : gst V) g : Prop :=
  finished sf g = true ∧ gT g = gT g0 ∧ (gH g0 ≤ gH g)%nat ∧
  ∀ k c0, cells g0 !! k = Some c0 → producing c0 = false →
    ∃ c, cells g !! k = Some c ∧ producing c = false ∧ payload c = payload c0.

Lemma frozen_set g0 g k c c' l h b :
  frozen g0 g → cells g !! k = Some c → (gH g ≤ h)%nat → b = glife g →
  (producing c = false → producing c' = false ∧ payload c' = payload c) →
  frozen g0 (mkG (<[k := c']> (cells g)) l h b).
Proof.
  intros (Hf & HT & HH & HC) Hk Hh -> Hc. split; [done|]. unfold gT in *. simpl.
  rewrite length_insert. split; [done|]. split; [lia|].
  intros k0 c0 Hk0 Hp0. destruct (HC _ _ Hk0 Hp0) as (c1 & Hc1 & Hp1 & Hpay).
  destruct (decide (k = k0)) as [->|Hne].
  - rewrite list_lookup_insert_eq by (by eapply lookup_lt_Some).
    assert (c1 = c) as -> by congruence. destruct (Hc Hp1). exists c'. split_and!; congruence.
  - rewrite list_lookup_insert_ne by done. eauto.
Qed.

Lemma frozen_stable t g0 : stable rely t (frozen g0).
Proof.
  apply stable_guar. intros t' g g' Hne Hg HF. pose proof HF as (Hf & HT & HH & HC).
  destruct Hg as [|i k o o' Hi Hs|i Hi Hf'|k c c' Hc Hs|p o Hc|i k p o Hc Hi|bits]; try done.
  - congruence.
  - eapply frozen_set; eauto. by destruct Hs.
  - eapply frozen_set; eauto.
  - eapply frozen_set; eauto.
  - split; [|done]. unfold finished in *. simpl. by rewrite Z.lor_spec, Hf.
Qed.

(** With the send side finished, an unclaimed cell is published. *)
Lemma finished_cell g q k :
  inv g q → finished sf g = true → (gH g ≤ k < gT g)%nat →
  ∃ c s, cells g !! k = Some c ∧ buf q !! (k mod cap)%nat = Some s ∧
    producing c = false ∧ published (payload c) s.
Proof.
  intros HI Hf Hk. destruct (lookup_lt_is_Some_2 (cells g) k) as [c Hc]; [unfold gT in *; lia|].
  destruct (inv_cell _ _ _ _ _ _ HI _ _ Hc) as [(? & ? & ? & ?)|Hs]; [lia|].
  destruct (inv_at _ _ _ _ _ _ (k mod cap)%nat HI) as (w & s & Hw & Hbuf & Hsl & _);
    [by eapply idx_bound|].
  rewrite Hs in Hw. injection Hw as <-. destruct Hsl as (_ & c1 & Hc1 & Hcell).
  assert (c1 = c) as -> by congruence. exists c, s. split_and!; try done.
  - destruct (producing c) eqn:E; [|done]. exfalso. apply (inv_fin _ _ _ _ _ _ HI Hf _ _ Hs).
    by exists c.
  - unfold published. assert (producing c = false) as Hp.
    { destruct (producing c) eqn:E; [|done]. exfalso.
      apply (inv_fin _ _ _ _ _ _ HI Hf _ _ Hs). by exists c. }
    unfold cell_ok in Hcell. cell_eval.
    destruct (st c) as [|v|v|o|t o|t o|t o|t o]; try done; try (destruct Hcell; lia);
      destruct Hcell as (_ & _ & Hv & ->); (split; [done|]).
    + by destruct o.
    + destruct (owned_fields CONSUMER (bool_decide (is_Some o)) (own t)) as (-> & _ & _ & -> & _);
        [by right|apply Hok|]. by destruct o.
Qed.
End Final.

(** C5: once [finish_field] has set the send side's finished bit, no
    interleaving of the clients moves the tail again, and every entry that is
    still unclaimed later holds the message (or the gap) it held then, with no
    producer working on it: what the receiver can still get is fixed. *)
Theorem send_closed_final V sf rf own cap (css : list (list (cmd V))) q1 ps1 q2 ps2 :
  setup_ok sf rf own cap →
  creach (start sf rf own cap css) (q1, ps1) →
  Z.testbit (lifecycle q1) (sf + 1) = true →
  creach (q1, ps1) (q2, ps2) →
  ∃ h1 h2 n : nat, (h1 ≤ h2 ≤ n)%nat ∧
    head q1 = position cap h1 ∧ head q2 = position cap h2 ∧
    tail q1 = position cap n ∧ tail q2 = position cap n ∧
    ∀ k, (h2 ≤ k < n)%nat → ∃ o s1 s2,
      buf q1 !! (k mod cap)%nat = Some s1 ∧ buf q2 !! (k mod cap)%nat = Some s2 ∧
      published o s1 ∧ published o s2.
Proof.
  intros Hok Hr1 Hfin Hr2. destruct (reach_ok _ _ _ _ Hok _ _ Hr1) as (g1 & Hg1 & _).
  pose proof (proj1 Hg1) as HI1. simpl in HI1.
  rewrite (inv_life _ _ _ _ _ _ HI1) in Hfin. fold (finished sf g1) in Hfin.
  eapply (rg_sound _ _ (rely_refl sf cap) (rely_trans sf cap)) in Hr2
    as (g2 & [HI2 _] & Hlook); [|intros; apply accounted_stable|exact Hg1].
  destruct (Hlook (length ps1)) as [HR _]; [by apply lookup_ge_None_2|].
  assert (HF : frozen sf g1 g2).
  { eapply frozen_stable; [exact HR|]. split_and!; [done|done|lia|eauto]. }
  destruct HF as (Hf2 & HT & HH & HC). pose proof (inv_order _ _ _ _ _ _ HI2) as Ho2.
  exists (gH g1), (gH g2), (gT g2). split; [lia|]. split; [apply HI1|]. split; [apply HI2|].
  split; [rewrite HT; apply HI1|]. split; [apply HI2|]. intros k Hk.
  destruct (finished_cell _ _ _ _ Hok g1 q1 k HI1 Hfin) as (c1 & s1 & Hc1 & Hs1 & Hp1 & Hpub1); [lia|].
  destruct (finished_cell _ _ _ _ Hok g2 q2 k HI2 Hf2) as (c2 & s2 & Hc2 & Hs2 & Hp2 & Hpub2); [lia|].
  destruct (HC _ _ Hc1 Hp1) as (c2' & Hc2' & _ & Hpay). assert (c2' = c2) as -> by congruence.
  exists (payload c1), s1, s2. rewrite Hpay in Hpub2. done.
Qed.

(** ** When every client has stopped *)

Section Stopped.
Context {V : Type} (sf rf : Z) (own : nat → Z) (cap : nat) (Hok : setup_ok sf rf own cap).
#[local] Abbreviation inv := (inv (V:=V) (lap_bits cap) cap sf own).

(** Nobody is inside the queue. *)
Definition idle (g : gst V) : Prop := ∀ t, ∃ S R, acct t None None S R g.

Lemma idle_holder g k c t : idle g → cells g !! k = Some c → holder c ≠ Some t.
Proof.
  intros Hid Hc Hh. destruct (Hid t) as (S & R & HA).
  by pose proof (acct_cell _ _ _ _ _ _ HA _ _ Hc Hh).
Qed.

Lemma idle_cell g q k c :
  inv g q → idle g → cells g !! k = Some c → (gH g ≤ k)%nat → ∃ o, st c = Ready o.
Proof.
  intros HI Hid Hc Hk.
  assert (Hn : ∀ t, holder c ≠ Some t) by (intros t; by eapply idle_holder).
  assert (taker c = None) as Ht.
  { eapply not_taken; [..|exact HI|exact Hk|exact Hc];
      first [by apply (lap_bits_range sf rf own)|apply Hok|apply lap_bits_fit]. }
  cell_eval. destruct (st c); eauto; by edestruct Hn.
Qed.

Lemma idle_represents g q :
  inv g q → idle g →
  represents cap q (gH g) (mkA (payload <$> drop (gH g) (cells g)) (lifecycle q)).
Proof.
  intros HI Hid. pose proof (inv_order _ _ _ _ _ _ HI) as Ho. pose proof (setup_cap _ _ _ _ Hok).
  split; simpl; [apply HI|apply HI| |done| |].
  - rewrite (inv_tail _ _ _ _ _ _ HI). rewrite length_fmap, length_drop. unfold gT in *.
    unfold position. f_equal. lia.
  - rewrite length_fmap, length_drop. unfold gT in *. lia.
  - intros j s Hj Hs. set (k := (gH g + j)%nat) in *.
    destruct (inv_at _ _ _ _ _ _ (k mod cap)%nat HI) as (w & s' & Hw & Hs' & Hsl & _);
      [by apply idx_lt|]. assert (s' = s) as -> by congruence.
    unfold slot_repr. rewrite list_lookup_fmap, lookup_drop. fold k.
    destruct (cells g !! k) as [c|] eqn:Hc.
    + destruct (inv_cell _ _ _ _ _ _ HI _ _ Hc) as [(? & ? & ? & ?)|Hoc]; [lia|].
      rewrite Hoc in Hw. injection Hw as <-. destruct Hsl as (_ & c' & Hc' & Hcell).
      assert (c' = c) as -> by congruence.
      destruct (idle_cell _ _ _ _ HI Hid Hc) as [o Ho']; [lia|].
      unfold cell_ok in Hcell. rewrite Ho' in Hcell. destruct Hcell as (_ & Ht & Hv & Hctl).
      split; [done|]. simpl. unfold payload. rewrite Ho'. done.
    + assert (gT g ≤ k)%nat by (by apply lookup_ge_None).
      assert (Hsame : ∀ k', (k' mod cap = k mod cap)%nat → (gH g ≤ k' < gH g + cap)%nat → k' = k).
      { intros k' E ?. apply (window_inj cap (setup_cap _ _ _ _ Hok) (gH g)); [done|lia|done]. }
      destruct w as [k' o|k'].
      * destruct Hsl as (E & Hk' & Ht & Hctl). rewrite (Hsame k') in Ht by (done || lia).
        split; [done|]. destruct o as [[t b]|]; [|done]. exfalso.
        destruct (Hid t) as (S & R & HA). by pose proof (acct_try _ _ _ _ _ _ HA _ _ _ Hw).
      * exfalso. destruct Hsl as (E & c & Hc' & Hcell). pose proof (lookup_lt_Some _ _ _ Hc').
        assert (gH g ≤ k')%nat as Hge.
        { assert (Hn : ∀ t, holder c ≠ Some t) by (intros t; by eapply idle_holder).
          unfold cell_ok in Hcell. cell_eval.
          destruct (st c); try done; try (by edestruct Hn). by destruct Hcell. }
        unfold gT in *. assert (k' = k) by (apply Hsame; [done|lia]). lia.
Qed.
End Stopped.

(** C6: when all clients have stopped, the queue is an idle bounded FIFO whose
    contents are exactly the entries of the log nobody claimed: every message
    a client sent was received once, by the client the log names, or is still
    in the queue, in order. *)
Theorem stopped_clients_leave_fifo V sf rf own cap (css : list (list (cmd V))) q ps :
  setup_ok sf rf own cap →
  creach (start sf rf own cap css) (q, ps) →
  (∀ t p, ps !! t = Some p → ∃ os, p = Ret os) →
  ∃ log takers,
    (∀ t os, ps !! t = Some (Ret os) → sent os = from t log ∧ got os = taken_by t log takers) ∧
    represents cap q (length takers) (mkA (snd <$> drop (length takers) log) (lifecycle q)).
Proof.
  intros Hok Hreach Hstop.
  destruct (reach_ok _ _ _ _ Hok _ _ Hreach) as (g & [HI Hwp] & Hlook).
  assert (Hid : idle g).
  { intros t. destruct (ps !! t) as [p|] eqn:Ht; [|eauto].
    destruct (Hstop _ _ Ht) as [os ->]. destruct (Hwp _ _ Ht) as [_ ?]. eauto. }
  simpl in *. destruct (takers_ok _ _ _ _ Hok _ _ 0%nat HI) as [Hlen _].
  exists (log_of g), (takers_of g). split.
  - intros t os Ht. destruct (Hwp _ _ Ht) as [Hp [_ _ HS HR]]. rewrite <- HS, <- HR, sent_from.
    split; [done|]. apply (takers_ok _ _ _ _ Hok _ _ t HI).
  - rewrite Hlen. unfold log_of. rewrite <- fmap_drop, <- list_fmap_compose.
    by apply (idle_represents sf rf own).
Qed.

(** ** Runs *)

Lemma send_closed_final_witness :
  let c := start 0 6 demo_own 2 [[CSend 7; CCloseSend; CPoll]; [CSend 8; CRecv; CRecv]] in
  let c1 := sched (replicate 30 0%nat) c in
  let c2 := sched (replicate 40 1%nat) c1 in
  head c2.1 = position 2 1 ∧
  ∃ h1 h2 n : nat, (h1 ≤ h2 ≤ n)%nat ∧
    head c1.1 = position 2 h1 ∧ head c2.1 = position 2 h2 ∧
    tail c1.1 = position 2 n ∧ tail c2.1 = position 2 n ∧
    ∀ k, (h2 ≤ k < n)%nat → ∃ o s1 s2,
      buf c1.1 !! (k mod 2)%nat = Some s1 ∧ buf c2.1 !! (k mod 2)%nat = Some s2 ∧
      published o s1 ∧ published o s2.
Proof.
  intros c c1 c2. split; [vm_compute; reflexivity|].
  apply (send_closed_final Z 0 6 demo_own 2 [[CSend 7; CCloseSend; CPoll]; [CSend 8; CRecv; CRecv]]
    c1.1 c1.2 c2.1 c2.2).
  - exact demo_setup.
  - rewrite <- surjective_pairing. apply sched_reach.
  - vm_compute. reflexivity.
  - rewrite <- !surjective_pairing. apply sched_reach.
Defined.

Lemma stopped_clients_leave_fifo_witness :
  ∃ log takers,
    (∀ t os, demo_end.2 !! t = Some (Ret os) → sent os = from t log ∧ got os = taken_by t log takers) ∧
    represents 2 demo_end.1 (length takers)
      (mkA (snd <$> drop (length takers) log) (lifecycle demo_end.1)).
Proof.
  apply (stopped_clients_leave_fifo Z 0 6 demo_own 2 demo_clients _ _ demo_setup demo_reach).
  assert (∃ os0 os1, demo_end.2 = [Ret os0; Ret os1]) as (os0 & os1 & ->)
    by (eexists _, _; vm_compute; reflexivity).
  intros [|[|t]] p; simpl; intros [= <-]; eauto.
Defined.
