(* ===== verification/QueueRepair.v ===== *)
(** * Repair of a slot whose holder died

    [repair_slot_with] run by a recoverer while the other clients pause, in any
    state the clients can have left: what it does to the slot, which message
    it releases, and that the survivors go on with the same FIFO.  Three crash
    points the routine does not resolve are exhibited at the end. *)

From S2P Require Import Prelude Atomic Queue QueueInv QueueConc QueueFifo.

Section Repair.
Context {V X : Type} (lapbits : Z) (cap : nat) (sf : Z) (own : nat → Z).
Context (release : V → Z → X → bool * X).
Context (Hlap : 0 ≤ lapbits < usize_bits - 1).
Context (Hcap : (0 < cap)%nat).
Context (Hfit : Z.of_nat cap < 2 ^ lapbits).
Context (Hown : ∀ t, 0 ≤ own t < PARTICIPANT_CAPACITY).

#[local] Abbreviation pos := (pos lapbits cap).
#[local] Abbreviation inv := (inv (V:=V) lapbits cap sf own).
Implicit Types (g : gst V) (q : qstate V) (c : gcell V).

(** The thread that holds slot [i]. *)
Definition slot_holder g (i : nat) : option nat :=
  match slots g !! i with
  | Some (Fr _ (Some (t, _))) => Some t
  | Some (Oc k) => c ← cells g !! k; holder c
  | _ => None
  end.

(** The message whose storage a holder that died leaves to be released. *)
Definition owed g (i : nat) : option V :=
  match slots g !! i with
  | Some (Oc k) =>
    c ← cells g !! k;
    match st c with
    | Staged v => Some v
    | Claimed _ o | Rewound _ o => o
    | _ => None
    end
  | _ => None
  end.

(** The slot resolved: an ungranted reservation is dropped, a granted one is
    skipped, an unfinished claim gives its cell back, a finished one is
    recycled. *)
Definition resolve (i : nat) g : gst V :=
  match slots g !! i with
  | Some (Fr k (Some _)) => set_gslot i (Fr k None) g
  | Some (Oc k) =>
    match cells g !! k with
    | Some (mkCell p (Reserved | Written _ | Staged _)) => set_cell k (mkCell p (Ready None)) g
    | Some (mkCell p (Trying _ o)) => set_cell k (mkCell p (Ready o)) g
    | Some (mkCell p (Claimed t o | Rewound t o)) =>
      mkG (<[k := mkCell p (Done t o)]> (cells g)) (<[i := Fr (k + cap) None]> (slots g))
          (gH g) (glife g)
    | _ => g
    end
  | _ => g
  end.

(** Crash points outside the three of the last section. *)
Definition repairable g (i : nat) : Prop :=
  match slots g !! i with
  | Some (Fr k (Some _)) => k = gT g
  | Some (Oc k) =>
    match cells g !! k with
    | Some (mkCell _ (Trying _ _)) => k = gH g
    | Some (mkCell _ (Rewound _ _)) => (k + cap)%nat ≠ gH g
    | _ => True
    end
  | _ => True
  end.

(** ** Control words under repair *)

Lemma repair_next_owned b d o dead live :
  b = PRODUCER ∨ b = CONSUMER → 0 ≤ o < PARTICIPANT_CAPACITY →
  0 ≤ dead < PARTICIPANT_CAPACITY → 0 ≤ live < PARTICIPANT_CAPACITY →
  if o =? dead then
    ∃ next, repair_next (owned b d o) dead live = inr next ∧ next ≠ owned b d o
  else repair_next (owned b d o) dead live = inl RepairNone.
Proof.
  intros Hb Ho Hd Hl. destruct (owned_fields b d o Hb Ho) as (_ & Hs & Hr & _).
  unfold repair_next. rewrite Hs, Hr.
  destruct (Z.eqb_spec 0 (live + 1)); [lia|]. destruct (Z.eqb_spec 0 (dead + 1)); [lia|].
  rewrite andb_false_r. destruct (Z.eqb_spec o dead) as [->|Hne].
  - rewrite Z.eqb_refl. cbn -[Z.lor Z.shiftl]. eexists. split; [done|]. intros E.
    apply (f_equal reaper_of) in E. rewrite Hr in E. unfold reaper_of in *.
    rewrite Z.land_lor_distr_l, Z.shiftr_lor, Hr, Z.lor_0_l in E.
    assert (Hall : all_below 63 (λ l, negb (Z.shiftr (Z.land (Z.shiftl (l + 1) REAPER_SHIFT)
      REAPER_MASK) REAPER_SHIFT =? 0)) = true) by reflexivity.
    apply (all_below_spec _ _ live) in Hall; [|done]. cbv beta in Hall. bools. done.
  - destruct (Z.eqb_spec (o + 1) (dead + 1)); [lia|]. done.
Qed.

(** The slot's word and holder under the invariant. *)
Lemma held_control g q i t :
  inv g q → (i < cap)%nat → slot_holder g i = Some t →
  ∃ b d, (b = PRODUCER ∨ b = CONSUMER) ∧ control (slot_at i q) = owned b d (own t).
Proof.
  intros HI Hi Hh. destruct (inv_at _ _ _ _ _ _ _ HI Hi) as (w & s & Hw & _ & Hsl & ->).
  unfold slot_holder in Hh. rewrite Hw in Hh. destruct w as [k [[t' b]|]|k]; [| done |].
  - injection Hh as ->. destruct Hsl as (_ & _ & _ & ->). by exists PRODUCER, false; auto.
  - destruct Hsl as (_ & c & Hc & [-> Hnd]%cell_ok_control). rewrite Hc in Hh. simpl in Hh.
    unfold cell_control, holder in *.
    destruct (st c); try done; injection Hh as <-; eauto.
Qed.

Lemma free_control g q i :
  inv g q → (i < cap)%nat → slot_holder g i = None →
  control (slot_at i q) = EMPTY ∨ control (slot_at i q) = AVAILABLE ∨
  control (slot_at i q) = Z.lor AVAILABLE COMPLETE.
Proof.
  intros HI Hi Hh. destruct (inv_at _ _ _ _ _ _ _ HI Hi) as (w & s & Hw & _ & Hsl & ->).
  unfold slot_holder in Hh. rewrite Hw in Hh. destruct w as [k [[t' b]|]|k]; [done| |].
  - destruct Hsl as (_ & _ & _ & ->). by left.
  - destruct Hsl as (_ & c & Hc & [-> Hnd]%cell_ok_control). rewrite Hc in Hh. simpl in Hh.
    unfold cell_control, holder in *. destruct (st c) as [| | |o| | | |t o]; try done.
    + right. destruct o; auto.
    + by destruct (Hnd t o).
Qed.

Lemma run_on_queue {A B} (f : qstate V → B * qstate V) (k : B → prog (qstate V * X) A) q x :
  run (Act (on_queue f) k) (q, x) = run (k (f q).1) ((f q).2, x).
Proof. simpl. unfold on_queue. simpl. by destruct (f q). Qed.

(** ** The recoverer's part of the routine

    [q1] is the queue after the recoverer has put its mark on the word. *)

Definition marked q (i : nat) (next : Z) : qstate V :=
  set_slot i (mkSlot (turn (slot_at i q)) next (value (slot_at i q))) q.

Definition repair_body (i : nat) (control : Z) : prog (qstate V * X) Repair :=
  if base control =? PRODUCER
  then repair_producer release i (Z.land control COMPLETE) (source_of control)
  else repair_consumer release (2 ^ lapbits) i (Z.land control COMPLETE) (source_of control).

Lemma run_repair g q i t live x :
  inv g q → (i < cap)%nat → slot_holder g i = Some t → 0 ≤ live < PARTICIPANT_CAPACITY →
  ∃ next,
    run (repair_slot_with release (2 ^ lapbits) (Z.of_nat cap) (Z.of_nat i) (own t) live) (q, x) =
    run (repair_body i (control (slot_at i q))) (marked q i next, x).
Proof.
  intros HI Hi Hh Hl. destruct (held_control _ _ _ _ HI Hi Hh) as (b & d & Hb & Hc).
  pose proof (Hown t) as Ho.
  destruct (owned_fields b d (own t) Hb Ho) as (Hbase & _ & _ & _ & Hcan).
  pose proof (repair_next_owned b d (own t) (own t) live Hb Ho Ho Hl) as Hn.
  rewrite Z.eqb_refl in Hn. destruct Hn as (next & Hn & Hne). exists next.
  unfold repair_slot_with.
  destruct (Z.leb_spec PARTICIPANT_CAPACITY (own t)); [lia|].
  destruct (Z.leb_spec PARTICIPANT_CAPACITY live); [lia|].
  destruct (Z.ltb_spec (Z.of_nat i) (Z.of_nat cap)); [|lia].
  cbn [orb negb]. rewrite run_on_queue. unfold load_control. cbn [fst snd]. rewrite Nat2Z.id, Hc, Hcan, Hbase, Hn.
  assert ((b =? PRODUCER) || (b =? CONSUMER) = true) as -> by (by destruct Hb as [-> | ->]).
  cbn [negb]. destruct (Z.eqb_spec next (owned b d (own t))); [done|].
  cbn [negb]. rewrite run_on_queue. unfold cas_control. rewrite Hc, Z.eqb_refl.
  cbn [fst snd]. unfold repair_body. by rewrite Hbase.
Qed.

Lemma marked_at q i next : (i < length (buf q))%nat →
  slot_at i (marked q i next) = mkSlot (turn (slot_at i q)) next (value (slot_at i q)).
Proof. intros Hi. unfold marked, set_slot, slot_at. simpl. by rewrite list_lookup_insert_eq. Qed.

Lemma marked_store q i next ctl : (i < length (buf q))%nat →
  (store_control i ctl (marked q i next)).2 = (store_control i ctl q).2.
Proof.
  intros Hi. unfold store_control. rewrite marked_at by done. unfold marked, set_slot. simpl.
  by rewrite list_insert_insert_eq.
Qed.

Lemma marked_turn q i next tn : (i < length (buf q))%nat →
  (store_control i EMPTY (store_turn i tn (marked q i next)).2).2 =
  (store_control i EMPTY (store_turn i tn q).2).2.
Proof.
  intros Hi. unfold store_control, store_turn. rewrite marked_at by done. unfold marked, set_slot, slot_at.
  simpl. rewrite !list_lookup_insert_eq by (rewrite ?length_insert; done). simpl.
  by rewrite !list_insert_insert_eq.
Qed.

(** *** The producer's arm *)

Lemma body_producer g q i next d x :
  inv g q → (i < cap)%nat →
  ∀ k t, turn (slot_at i q) = pos k → control (slot_at i q) = owned PRODUCER d (own t) →
  (k < gT g ≤ k + cap)%nat →
  (d = true → is_Some (value (slot_at i q))) →
  run (repair_body i (control (slot_at i q))) (marked q i next, x) =
    match (if d then value (slot_at i q) else None) with
    | Some v => let '(ok, x') := release v (own t) x in
        if ok then (Recovered, ((store_control i AVAILABLE q).2, x')) else (Corrupted, (marked q i next, x'))
    | None => (Recovered, ((store_control i AVAILABLE q).2, x))
    end.
Proof.
  intros HI Hi k t Ht Hc Hk Hv. pose proof (inv_buf _ _ _ _ _ _ HI) as Hlen.
  destruct (owned_fields PRODUCER d (own t) (or_introl eq_refl) (Hown t)) as (Hb & Hs & _ & Hcm & _).
  unfold repair_body. rewrite Hc, Hb, Hs, Hcm. cbn [Z.eqb PRODUCER Pos.eqb].
  unfold repair_producer. rewrite Z.add_simpl_r, !run_on_queue. unfold load_turn, load_tail. cbn [fst snd].
  rewrite marked_at by (by rewrite Hlen). cbn [turn].
  change (tail (marked q i next)) with (tail q).
  rewrite Ht, (inv_tail _ _ _ _ _ _ HI).
  destruct (pos_distance lapbits cap) with (k := k) (k' := gT g) as [Hd _]; [lia|done|done|done|].
  assert (2 ^ lapbits < half_range).
  { unfold half_range. rewrite Z.shiftl_1_l. apply Z.pow_lt_mono_r; lia. }
  destruct (Z.eqb_spec (wrapping_sub (pos (gT g)) (pos k)) 0); [lia|].
  destruct (Z.ltb_spec (wrapping_sub (pos (gT g)) (pos k)) half_range); [|lia].
  destruct d; [change (negb (COMPLETE =? 0)) with true | change (negb (0 =? 0)) with false]; cbv iota.
  - cbn [run]. unfold release_value. cbn [fst snd]. rewrite marked_at by (by rewrite Hlen).
    cbn [value]. destruct (Hv eq_refl) as [v ->].
    destruct (release v (own t) x) as [[] x']; [|done].
    by rewrite run_on_queue, marked_store by (by rewrite Hlen).
  - by rewrite run_on_queue, marked_store by (by rewrite Hlen).
Qed.

Lemma body_untried g q i next t x :
  inv g q → (i < cap)%nat →
  turn (slot_at i q) = pos (gT g) → control (slot_at i q) = owned PRODUCER false (own t) →
  run (repair_body i (control (slot_at i q))) (marked q i next, x) =
    (Recovered, ((store_control i EMPTY q).2, x)).
Proof.
  intros HI Hi Ht Hc. pose proof (inv_buf _ _ _ _ _ _ HI) as Hlen.
  destruct (owned_fields PRODUCER false (own t) (or_introl eq_refl) (Hown t)) as (Hb & Hs & _ & Hcm & _).
  unfold repair_body. rewrite Hc, Hb, Hs, Hcm. cbn [Z.eqb PRODUCER Pos.eqb].
  unfold repair_producer. rewrite !run_on_queue. unfold load_turn, load_tail. cbn [fst snd].
  rewrite marked_at by (by rewrite Hlen). cbn [turn].
  change (tail (marked q i next)) with (tail q).
  rewrite Ht, (inv_tail _ _ _ _ _ _ HI). unfold wrapping_sub. rewrite Z.sub_diag.
  cbn [negb Z.eqb wrap]. change (wrap usize_bits 0 =? 0) with true. cbv iota.
  by rewrite run_on_queue, marked_store by (by rewrite Hlen).
Qed.

(** *** The consumer's arm *)

Lemma body_restore g q i next t (o : option V) x :
  inv g q → (i < cap)%nat →
  turn (slot_at i q) = pos (gH g) →
  control (slot_at i q) = owned CONSUMER (bool_decide (is_Some o)) (own t) →
  run (repair_body i (control (slot_at i q))) (marked q i next, x) =
    (Recovered, ((store_control i (avail o) q).2, x)).
Proof.
  intros HI Hi Ht Hc. pose proof (inv_buf _ _ _ _ _ _ HI) as Hlen.
  destruct (owned_fields CONSUMER (bool_decide (is_Some o)) (own t)) as (Hb & Hs & _ & Hcm & _);
    [by right|apply Hown|].
  unfold repair_body. rewrite Hc, Hb, Hs, Hcm. cbn [Z.eqb PRODUCER CONSUMER Pos.eqb].
  unfold repair_consumer. rewrite !run_on_queue. unfold load_turn, load_head. cbn [fst snd].
  rewrite marked_at by (by rewrite Hlen). cbn [turn].
  change (head (marked q i next)) with (head q).
  rewrite Ht, (inv_head _ _ _ _ _ _ HI), Z.eqb_refl.
  rewrite run_on_queue, marked_store by (by rewrite Hlen).
  by destruct o.
Qed.

(** The release of a claimed message and the recycling of its slot, with the
    turn already rewound or not. *)
Lemma body_claimed g q i next t (o : option V) x tn :
  inv g q → (i < cap)%nat →
  control (slot_at i q) = owned CONSUMER (bool_decide (is_Some o)) (own t) →
  holds_value o (slot_at i q) → head q ≠ turn (slot_at i q) →
  (let d := wrapping_sub (head q) (turn (slot_at i q)) in
   tn = if negb (d =? 0) && (d <? half_range)
        then wrapping_add (turn (slot_at i q)) (2 ^ lapbits) else turn (slot_at i q)) →
  run (repair_body i (control (slot_at i q))) (marked q i next, x) =
    match o with
    | Some v => let '(ok, x') := release v (own t) x in
        if ok then (Recovered, ((store_control i EMPTY (store_turn i tn q).2).2, x'))
        else (Corrupted, (marked q i next, x'))
    | None => (Recovered, ((store_control i EMPTY (store_turn i tn q).2).2, x))
    end.
Proof.
  intros HI Hi Hc Hv Hht Htn. pose proof (inv_buf _ _ _ _ _ _ HI) as Hlen.
  destruct (owned_fields CONSUMER (bool_decide (is_Some o)) (own t)) as (Hb & Hs & _ & Hcm & _);
    [by right|apply Hown|].
  unfold repair_body. rewrite Hc, Hb, Hs, Hcm. cbn [Z.eqb PRODUCER CONSUMER Pos.eqb].
  unfold repair_consumer. rewrite Z.add_simpl_r, !run_on_queue.
  unfold load_turn, load_head. cbn [fst snd].
  rewrite marked_at by (by rewrite Hlen). cbn [turn].
  change (head (marked q i next)) with (head q).
  destruct (Z.eqb_spec (head q) (turn (slot_at i q))); [done|].
  assert (Hrec : ∀ x' : X, run (repair_recycle (2 ^ lapbits) i (head q) (turn (slot_at i q)))
    (marked q i next, x') = (Recovered, ((store_control i EMPTY (store_turn i tn q).2).2, x'))).
  { intros x'. unfold repair_recycle. rewrite Htn. split_if.
    - by rewrite !run_on_queue, marked_turn by (by rewrite Hlen).
    - rewrite run_on_queue, marked_store by (by rewrite Hlen). cbn [run].
      unfold store_turn, store_control, set_slot, slot_at. simpl.
      rewrite list_lookup_insert_eq by (by rewrite Hlen). simpl. by rewrite list_insert_insert_eq. }
  destruct o as [v|]; simpl in Hv.
  - change (negb ((if bool_decide (is_Some (Some v)) then COMPLETE else 0) =? 0)) with true. cbv iota.
    cbn [run]. unfold release_value. cbn [fst snd]. rewrite marked_at by (by rewrite Hlen).
    cbn [value]. rewrite Hv. destruct (release v (own t) x) as [[] x']; [apply Hrec|done].
  - apply Hrec.
Qed.

Lemma store_turn_id q i : (i < length (buf q))%nat → (store_turn i (turn (slot_at i q)) q).2 = q.
Proof.
  intros Hi. destruct (lookup_lt_is_Some_2 _ _ Hi) as [s Hs].
  unfold store_turn, set_slot. rewrite (slot_at_lookup _ _ _ Hs). simpl.
  destruct s, q. simpl in *. by rewrite list_insert_id.
Qed.

(** The queue after the repair of a claimed cell. *)
Lemma inv_recycled g q i k p t o tn :
  inv g q → slots g !! i = Some (Oc k) →
  cells g !! k = Some (mkCell p (Claimed t o)) ∧ tn = pos (k + cap) ∨
  cells g !! k = Some (mkCell p (Rewound t o)) ∧ tn = turn (slot_at i q) →
  inv (mkG (<[k := mkCell p (Done t o)]> (cells g)) (<[i := Fr (k + cap) None]> (slots g))
        (gH g) (glife g)) (store_control i EMPTY (store_turn i tn q).2).2.
Proof.
  intros HI Hi. pose proof (idx_bound _ _ _ _ _ _ _ _ HI Hi) as Hlt.
  assert (Hlap' : 0 ≤ lapbits < usize_bits) by lia.
  intros [[Hc ->]|[Hc ->]].
  - destruct (inv_at _ _ _ _ _ _ _ HI Hlt) as (w & s & Hw & Hs & Hsl & Hat).
    rewrite Hi in Hw. injection Hw as <-. destruct Hsl as (_ & c & Hc' & Hcell).
    rewrite Hc in Hc'. injection Hc' as <-. destruct Hcell as (? & ? & ? & ? & ?).
    assert (HI1 : inv (set_cell k (mkCell p (Rewound t o)) g) (store_turn i (pos (k + cap)) q).2).
    { unfold store_turn. rewrite Hat. eapply inv_set_cell; eauto. by split_and!. }
    eapply inv_done in HI1; [|done..|by apply list_lookup_insert_eq; eapply lookup_lt_Some].
    simpl in HI1. by rewrite list_insert_insert_eq in HI1.
  - rewrite store_turn_id by (by rewrite (inv_buf _ _ _ _ _ _ HI)). by eapply inv_done.
Qed.

(** The verdict: the message the dead holder owed goes to [release], and the
    slot is resolved unless [release] refuses. *)
Definition verdict (t : nat) (owed : option V) (x : X) (q' q'' : qstate V)
    : Repair * (qstate V * X) :=
  match owed with
  | Some v => let '(ok, x') := release v (own t) x in
      if ok then (Recovered, (q', x')) else (Corrupted, (q'', x'))
  | None => (Recovered, (q', x))
  end.

Lemma repair_slot_ok g q i t live x :
  inv g q → (i < cap)%nat → slot_holder g i = Some t → 0 ≤ live < PARTICIPANT_CAPACITY →
  repairable g i →
  ∃ q' q'',
    run (repair_slot_with release (2 ^ lapbits) (Z.of_nat cap) (Z.of_nat i) (own t) live) (q, x) =
      verdict t (owed g i) x q' q'' ∧
    inv (resolve i g) q'.
Proof.
  intros HI Hi Hh Hl Hrep. pose proof (inv_order _ _ _ _ _ _ HI) as Hord.
  assert (Hlap' : 0 ≤ lapbits < usize_bits) by lia.
  assert (Hhalf : 2 ^ lapbits < half_range).
  { unfold half_range. rewrite Z.shiftl_1_l. apply Z.pow_lt_mono_r; lia. }
  destruct (run_repair _ _ _ _ _ x HI Hi Hh Hl) as [next ->].
  destruct (inv_at _ _ _ _ _ _ _ HI Hi) as (w & s & Hw & Hs & Hsl & Hat).
  unfold slot_holder, repairable, owed, resolve in *. rewrite Hw in *.
  destruct w as [k [[t' b]|]|k]; [|done|].
  { injection Hh as ->. subst k. destruct Hsl as (_ & _ & Ht & Hc). rewrite <- Hat in Ht, Hc.
    eexists _, q. rewrite (body_untried g _ _ _ t) by done. split; [done|]. by eapply inv_try. }
  destruct Hsl as (_ & [p stc] & Hc & Hcell). rewrite Hc in *. simpl in Hh, Hrep |- *.
  pose proof (lookup_lt_Some _ _ _ Hc) as HkT. fold (gT g) in HkT.
  destruct stc as [|v|v|o|t' o|t' o|t' o|t' o]; try done; injection Hh as ->;
    cbn [cell_ok st prod] in Hcell; rewrite <- Hat in Hcell.
  - destruct Hcell as (? & Ht & Hctl). eexists _, q.
    rewrite (body_producer g _ _ _ false _ HI Hi k t) by (done || lia). split; [done|].
    eapply inv_set_cell; eauto. by split_and!.
  - destruct Hcell as (? & Ht & Hv & Hctl). eexists _, q.
    rewrite (body_producer g _ _ _ false _ HI Hi k t) by (done || lia). split; [done|].
    eapply inv_set_cell; eauto. by split_and!.
  - destruct Hcell as (? & Ht & Hv & Hctl). eexists _, _.
    rewrite (body_producer g _ _ _ true _ HI Hi k t), Hv by (done || lia || by rewrite Hv).
    split; [done|]. eapply inv_set_cell; eauto. by split_and!.
  - destruct Hcell as (? & Ht & Hv & Hctl). subst k. eexists _, q.
    rewrite (body_restore g _ _ _ t o) by done. split; [done|].
    eapply inv_set_cell; eauto. by split_and!.
  - destruct Hcell as (? & ? & Ht & Hv & Hctl). eexists _, _.
    destruct (pos_distance lapbits cap) with (k := k) (k' := gH g) as [Hd _]; [done|done|done|lia|].
    rewrite (body_claimed g _ _ _ t o _ (pos (k + cap)) HI Hi Hctl Hv).
    + split; [by destruct o|]. eapply inv_recycled; eauto.
    + rewrite Ht, (inv_head _ _ _ _ _ _ HI). intros E. symmetry in E.
      apply (pos_inj lapbits cap) in E; done || lia.
    + rewrite Ht, (inv_head _ _ _ _ _ _ HI). cbv zeta. split_if.
      * symmetry. by apply (pos_lap lapbits cap Hlap' Hcap Hfit (mkEndpoint 0 0 0 (2 ^ lapbits) (Z.of_nat cap))).
      * match goal with H : _ && _ = false |- _ => apply andb_false_iff in H as [?|?] end; bools; lia.
  - destruct Hcell as (? & ? & Ht & Hv & Hctl). eexists _, _.
    destruct (pos_distance lapbits cap) with (k := gH g) (k' := (k + cap)%nat) as [Hd Hd'];
      [done|done|done|lia|].
    rewrite (body_claimed g _ _ _ t o _ (turn (slot_at i q)) HI Hi Hctl Hv).
    + split; [by destruct o|]. eapply inv_recycled; eauto.
    + rewrite Ht, (inv_head _ _ _ _ _ _ HI). intros E.
      apply (pos_inj lapbits cap) in E; done || lia.
    + rewrite Ht, (inv_head _ _ _ _ _ _ HI). cbv zeta. split_if; [|done].
      assert (2 ^ usize_bits = 2 * half_range) by done. lia.
Qed.

(** A slot the dead participant does not hold is left alone. *)
Lemma repair_slot_other g q i dead live x :
  inv g q → (i < cap)%nat → 0 ≤ dead < PARTICIPANT_CAPACITY → 0 ≤ live < PARTICIPANT_CAPACITY →
  (∀ t, slot_holder g i = Some t → own t ≠ dead) →
  run (repair_slot_with release (2 ^ lapbits) (Z.of_nat cap) (Z.of_nat i) dead live) (q, x) =
    (RepairNone, (q, x)).
Proof.
  intros HI Hi Hd Hl Hn. unfold repair_slot_with.
  destruct (Z.leb_spec PARTICIPANT_CAPACITY dead); [lia|].
  destruct (Z.leb_spec PARTICIPANT_CAPACITY live); [lia|].
  destruct (Z.ltb_spec (Z.of_nat i) (Z.of_nat cap)); [|lia].
  cbn [orb negb]. rewrite run_on_queue. unfold load_control. cbn [fst snd]. rewrite Nat2Z.id.
  destruct (slot_holder g i) as [t|] eqn:Hh.
  - destruct (held_control _ _ _ _ HI Hi Hh) as (b & d & Hb & ->).
    destruct (owned_fields b d (own t) Hb (Hown t)) as (-> & _ & _ & _ & ->).
    pose proof (repair_next_owned b d (own t) dead live Hb (Hown t) Hd Hl) as Hnext.
    destruct (Z.eqb_spec (own t) dead); [by destruct (Hn t)|]. rewrite Hnext.
    by destruct Hb as [-> | ->].
  - destruct (free_control _ _ _ HI Hi Hh) as [-> | [-> | ->]]; done.
Qed.

(** Resolving a slot is something its holder could have done itself, so the
    other threads have already allowed for it. *)
Lemma resolve_guar g q i t :
  inv g q → slot_holder g i = Some t → rtc (guar (V:=V) sf cap t) g (resolve i g).
Proof.
  intros HI Hh. unfold slot_holder, resolve in *.
  destruct (slots g !! i) as [[k [[t' b]|]|k]|] eqn:Hw; try done.
  { injection Hh as ->. apply rtc_once. econstructor; [done|constructor]. }
  destruct (cells g !! k) as [[p s]|] eqn:Hc; [|done]. simpl in Hh. unfold holder in Hh. simpl in Hh.
  destruct s as [|v|v|o|t' o|t' o|t' o|t' o]; try done; injection Hh as ->.
  - apply rtc_once. econstructor; [done|constructor].
  - apply rtc_once. econstructor; [done|constructor].
  - apply rtc_once. econstructor; [done|constructor].
  - apply rtc_once. econstructor; [done|constructor].
  - eapply rtc_l; [eapply gu_cell; [done|apply cs_rewind]|]. apply rtc_once.
    rewrite <- (list_insert_insert_eq (cells g) k _ (mkCell p (Rewound t o))).
    eapply (gu_done sf cap t (set_cell k (mkCell p (Rewound t o)) g)); [|done].
    apply list_lookup_insert_eq. by eapply lookup_lt_Some.
  - apply rtc_once. by constructor.
Qed.

Lemma guar_rtc_rely t t' g g' : t' ≠ t → rtc (guar (V:=V) sf cap t) g g' → rely sf cap t' g g'.
Proof.
  intros Hne H. induction H as [|g g1 g2 Hg _ IH]; [apply rely_refl|].
  eapply rely_trans; [by eapply guar_rely|done].
Qed.
End Repair.

(** ** Theorems *)

(** The geometry of a queue whose laps stay below a quarter of a word. *)
Definition small (cap : nat) : Prop := Z.of_nat cap < 2 ^ (usize_bits - 2).

Lemma small_lap cap : small cap → 0 ≤ lap_bits cap < usize_bits - 1.
Proof.
  unfold small, lap_bits. intros H. split; [apply Z.log2_up_nonneg|].
  apply (Z.le_lt_trans _ (usize_bits - 2)); [|lia]. apply Z.log2_up_le_pow2; lia.
Qed.

(** C7: in every state the clients can reach, whoever died wherever, repairing
    a slot a dead participant holds (outside the crash points of
    [repairable]) gives a verdict of [Recovered], hands the message the dead
    holder owned, if there is one, to [release] exactly once with the dead
    participant's number, and leaves the queue in the state its holder would
    have left by dropping what it held; if [release] refuses, the verdict is
    [Corrupted].  A slot no dead participant holds is not touched. *)
Theorem repair_slot_resolves V X sf rf own cap (css : list (list (cmd V))) q ps
    (release : V → Z → X → bool * X) :
  setup_ok sf rf own cap → small cap →
  creach (start sf rf own cap css) (q, ps) →
  ∃ g, inv (lap_bits cap) cap sf own g q ∧
  ∀ i live x, (i < cap)%nat → 0 ≤ live < PARTICIPANT_CAPACITY →
    (∀ t, slot_holder g i = Some t → repairable cap g i →
      ∃ q' q'',
        run (repair_slot_with release (lap_for (Z.of_nat cap)) (Z.of_nat cap) (Z.of_nat i)
               (own t) live) (q, x) = verdict own release t (owed g i) x q' q'' ∧
        inv (lap_bits cap) cap sf own (resolve cap i g) q') ∧
    (∀ dead, 0 ≤ dead < PARTICIPANT_CAPACITY → (∀ t, slot_holder g i = Some t → own t ≠ dead) →
      run (repair_slot_with release (lap_for (Z.of_nat cap)) (Z.of_nat cap) (Z.of_nat i)
             dead live) (q, x) = (RepairNone, (q, x))).
Proof.
  intros Hok Hsm Hreach. destruct (reach_ok _ _ _ _ Hok _ _ Hreach) as (g & [HI _] & _).
  simpl in HI. exists g. split; [done|]. pose proof (small_lap _ Hsm). pose proof (lap_bits_fit cap).
  intros i live x Hi Hl. split.
  - intros t Hh Hr. apply (repair_slot_ok (lap_bits cap) cap sf own release); try done; apply Hok.
  - intros dead Hd Hn. eapply (repair_slot_other (lap_bits cap) cap sf own release); done || apply Hok.
Qed.

(** C8: after such a repair the survivors, from wherever they were, go on with
    one bounded FIFO: in every state they reach there is a log and a list of
    claimers as before, and every surviving client that finishes has sent and
    received exactly what the log says. *)
Theorem repair_keeps_fifo V X sf rf own cap (css : list (list (cmd V))) q ps
    (release : V → Z → X → bool * X) :
  setup_ok sf rf own cap → small cap →
  creach (start sf rf own cap css) (q, ps) →
  ∃ g, inv (lap_bits cap) cap sf own g q ∧
  ∀ i t live x q' x' os q2 ps2,
    (i < cap)%nat → 0 ≤ live < PARTICIPANT_CAPACITY →
    slot_holder g i = Some t → repairable cap g i →
    run (repair_slot_with release (lap_for (Z.of_nat cap)) (Z.of_nat cap) (Z.of_nat i)
           (own t) live) (q, x) = (Recovered, (q', x')) →
    creach (q', <[t := Ret os]> ps) (q2, ps2) →
    ∃ log takers,
      (length takers ≤ length log ≤ length takers + cap)%nat ∧
      head q2 = position cap (length takers) ∧ tail q2 = position cap (length log) ∧
      ∀ t' os', t' ≠ t → ps2 !! t' = Some (Ret os') →
        ¬ In Panicked os' ∧ sent os' = from t' log ∧ got os' = taken_by t' log takers.
Proof.
  intros Hok Hsm Hreach. destruct (reach_ok _ _ _ _ Hok _ _ Hreach) as (g & [HI Hwp] & _).
  simpl in HI, Hwp. exists g. split; [done|].
  intros i t live x q' x' os q2 ps2 Hi Hl Hh Hr Hrun Hreach2.
  set (Q := λ t' os' g, t' ≠ t → accounted (V:=V) t' os' g).
  assert (HQ : ∀ t' a, stable (rely sf cap) t' (Q t' a)).
  { intros t' a g1 g2 HR HQ1 Hne. eapply accounted_stable; [exact HR|by apply HQ1]. }
  pose proof (small_lap _ Hsm). pose proof (lap_bits_fit cap).
  destruct (repair_slot_ok (lap_bits cap) cap sf own release ltac:(done) (setup_cap _ _ _ _ Hok)
    ltac:(done) (setup_own _ _ _ _ Hok) g q i t live x HI Hi Hh Hl Hr) as (qa & qb & Hv & HI').
  assert (q' = qa) as ->.
  { change (lap_for (Z.of_nat cap)) with (2 ^ lap_bits cap) in Hrun. rewrite Hv in Hrun.
    unfold verdict in Hrun. destruct (owed g i) as [v|]; [|congruence].
    destruct (release v (own t) x) as [[] ?]; congruence. }
  assert (Hg : rg_ok (inv (lap_bits cap) cap sf own) (rely sf cap) Q (resolve cap i g)
    (qa, <[t := Ret os]> ps)).
  { split; [done|]. simpl. intros t' p [(-> & <- & _)|[Hne Hp]]%list_lookup_insert_Some.
    - apply wp_ret. intros Hne. by destruct Hne.
    - eapply (wp_stable _ _ (rely_trans sf cap)); [apply HQ| |].
      + eapply guar_rtc_rely; [by apply not_eq_sym|]. by eapply resolve_guar.
      + eapply wp_mono; [|by apply Hwp]. intros a g' Ha _. exact Ha. }
  eapply (rg_sound _ _ (rely_refl sf cap) (rely_trans sf cap)) in Hreach2
    as (g2 & [HI2 Hwp2] & _); [|exact HQ|exact Hg].
  simpl in *. destruct (takers_ok _ _ _ _ Hok _ _ 0%nat HI2) as [Hlen _].
  exists (log_of g2), (takers_of g2). rewrite Hlen.
  assert (length (log_of g2) = gT g2) as -> by apply length_fmap.
  do 3 (split; [apply HI2|]). intros t' os' Hne Ht'.
  destruct (Hwp2 _ _ Ht' Hne) as [Hp [_ _ HS HR]]. split_and!.
  - intros Hin. by apply (Hp _ Hin).
  - by rewrite <- HS, sent_from.
  - rewrite <- HR. by apply (takers_ok _ _ _ _ Hok _ _ t' HI2).
Qed.

(** ** Runs *)

(** A [release] that accepts and records every call. *)
Definition record (v dead : Z) (x : list (Z * Z)) : bool * list (Z * Z) := (true, (v, dead) :: x).

(** A sender that dies with a staged message, beside a live client. *)
Definition staged_crash : cfg (qstate Z) (list (out Z)) :=
  sched (replicate 12 0%nat) (start 0 6 demo_own 2 [[CSend 7]; [CSend 8; CRecv; CRecv]]).

Lemma staged_crash_reach :
  creach (start 0 6 demo_own 2 [[CSend 7]; [CSend 8; CRecv; CRecv]])
    (staged_crash.1, staged_crash.2).
Proof. rewrite <- surjective_pairing. apply sched_reach. Qed.

Lemma repair_slot_resolves_witness :
  (run (repair_slot_with record (lap_for 2) 2 0 0 1) (staged_crash.1, [])).1 = Recovered ∧
  (run (repair_slot_with record (lap_for 2) 2 0 0 1) (staged_crash.1, [])).2.2 = [(7, 0)] ∧
  ∃ g, inv (lap_bits 2) 2 0 demo_own g staged_crash.1 ∧
  ∀ i live x, (i < 2)%nat → 0 ≤ live < PARTICIPANT_CAPACITY →
    (∀ t, slot_holder g i = Some t → repairable 2 g i →
      ∃ q' q'',
        run (repair_slot_with record (lap_for 2) 2 (Z.of_nat i) (demo_own t) live)
          (staged_crash.1, x) = verdict demo_own record t (owed g i) x q' q'' ∧
        inv (lap_bits 2) 2 0 demo_own (resolve 2 i g) q') ∧
    (∀ dead, 0 ≤ dead < PARTICIPANT_CAPACITY → (∀ t, slot_holder g i = Some t → demo_own t ≠ dead) →
      run (repair_slot_with record (lap_for 2) 2 (Z.of_nat i) dead live) (staged_crash.1, x) =
        (RepairNone, (staged_crash.1, x))).
Proof.
  split; [vm_compute; reflexivity|]. split; [vm_compute; reflexivity|].
  exact (repair_slot_resolves Z _ 0 6 demo_own 2 _ _ _ record demo_setup ltac:(by_eval) staged_crash_reach).
Defined.

Lemma repair_keeps_fifo_witness :
  ∃ g, inv (lap_bits 2) 2 0 demo_own g staged_crash.1 ∧
  ∀ i t live x q' x' os q2 ps2,
    (i < 2)%nat → 0 ≤ live < PARTICIPANT_CAPACITY →
    slot_holder g i = Some t → repairable 2 g i →
    run (repair_slot_with record (lap_for 2) 2 (Z.of_nat i) (demo_own t) live)
      (staged_crash.1, x) = (Recovered, (q', x')) →
    creach (q', <[t := Ret os]> staged_crash.2) (q2, ps2) →
    ∃ log takers,
      (length takers ≤ length log ≤ length takers + 2)%nat ∧
      head q2 = position 2 (length takers) ∧ tail q2 = position 2 (length log) ∧
      ∀ t' os', t' ≠ t → ps2 !! t' = Some (Ret os') →
        ¬ In Panicked os' ∧ sent os' = from t' log ∧ got os' = taken_by t' log takers.
Proof.
  exact (repair_keeps_fifo Z _ 0 6 demo_own 2 _ _ _ record demo_setup ltac:(by_eval) staged_crash_reach).
Defined.

(** ** Crash points that are not resolved *)

(** A receiver that dies between the two stores of [Claim::recycle], on a
    queue of one slot. *)
Definition rewound_crash : cfg (qstate Z) (list (out Z)) :=
  sched (replicate 20 0%nat ++ replicate 9 1%nat) (start 0 6 demo_own 1 [[CSend 7]; [CRecv]]).

(** [repair_slot_with] takes a slot whose turn is already rewound for an
    unfinished claim when the head stands at that turn: it republishes the
    message instead of releasing it, the next receive claims past the tail, and
    from then on every send is refused as [Busy] on an empty queue. *)
Theorem repair_rewound_claim_wedges :
  let '(r, (q, released)) := run (repair_slot_with record (lap_for 1) 1 0 1 2) (rewound_crash.1, []) in
  let '(got, q') := run (try_recv (endpoint 0 6 demo_own 1 2)) q in
  let '(sent, q'') := run (try_send (endpoint 0 6 demo_own 1 0) 8) q' in
  r = Recovered ∧ released = [] ∧ got = Some (Ok (Some 7)) ∧
  head q' = position 1 2 ∧ tail q' = position 1 1 ∧ sent = Some (Err (SendBusy 8)) ∧ q'' = q'.
Proof. vm_compute. repeat split. Qed.

(** A receiver that slept over a lap takes the slot of a later, unclaimed
    message and dies before it looks at the turn. *)
Definition stale_claim_crash : cfg (qstate Z) (list (out Z)) :=
  sched (replicate 2 1%nat ++ replicate 60 0%nat ++ replicate 2 1%nat)
    (start 0 6 demo_own 2 [[CSend 7; CRecv; CSend 8; CSend 9]; [CRecv]]).

(** The repair of that slot releases the unclaimed message and empties its
    slot: the message is lost, and once the receivers reach its place every
    receive and every send is refused as [Busy]. *)
Theorem repair_stale_claim_loses_message :
  let '(r, (q, released)) := run (repair_slot_with record (lap_for 2) 2 0 1 2) (stale_claim_crash.1, []) in
  let '(got, q1) := run (try_recv (endpoint 0 6 demo_own 2 0)) q in
  let '(got', q2) := run (try_recv (endpoint 0 6 demo_own 2 0)) q1 in
  let '(sent, q3) := run (try_send (endpoint 0 6 demo_own 2 0) 10) q2 in
  let '(sent', q4) := run (try_send (endpoint 0 6 demo_own 2 0) 11) q3 in
  r = Recovered ∧ released = [(9, 1)] ∧ got = Some (Ok (Some 8)) ∧
  got' = Some (Err RecvBusy) ∧ sent = Some (Ok tt) ∧ sent' = Some (Err (SendBusy 11)) ∧
  (run (try_recv (endpoint 0 6 demo_own 2 0)) q4) = (Some (Err RecvBusy), q4).
Proof. vm_compute. repeat split. Qed.

(** A sender that slept over a lap takes a slot that waits for a later position
    and dies before it looks at the turn. *)
Definition stale_reserve_crash : cfg (qstate Z) (list (out Z)) :=
  sched (replicate 3 1%nat ++ replicate 30 0%nat ++ replicate 1 1%nat)
    (start 0 6 demo_own 2 [[CSend 7; CRecv]; [CSend 5]]).

(** The repair of that slot reports [Corrupted] for a state every step of
    which the code allows. *)
Theorem repair_stale_reserve_corrupted :
  (run (repair_slot_with record (lap_for 2) 2 0 1 2) (stale_reserve_crash.1, [])).1 = Corrupted.
Proof. vm_compute. reflexivity. Qed.
