(* ===== verification/Token.v ===== *)
(** * Tokens and shapes

    Models [src/src/token.rs]: the locator a queue carries, and the layouts of
    the sized values and slices it can stand for. *)

From S2P Require Import Prelude Alloc Schema.

Record Span := mkSpan { span_class : Z; span_slot : Z }.

Inductive Metadata := Sized | Slice (len : Z).

Inductive MetadataError := WrongKind | MetadataOverflow.

Record PoolToken := mkPoolToken {
  tok_pool : LayoutId;
  tok_id : Z;
  tok_span : Span;
  tok_generation : Z;
  metadata_kind : Z;
  metadata_len : Z;
}.

#[export] Instance Span_eq_dec : EqDecision Span.
Proof. solve_decision. Defined.
#[export] Instance Metadata_eq_dec : EqDecision Metadata.
Proof. solve_decision. Defined.
#[export] Instance PoolToken_eq_dec : EqDecision PoolToken.
Proof. solve_decision. Defined.

(** [PoolToken::new] *)
Definition PoolToken_new (pool : LayoutId) (span : Span) (generation : Z) (metadata : Metadata)
    (id : Z) : PoolToken :=
  let '(kind, len) := match metadata with Sized => (0, 0) | Slice len => (1, len) end in
  mkPoolToken pool id span generation kind len.

(** [PoolToken::metadata] *)
Definition token_metadata (t : PoolToken) : option Metadata :=
  if (metadata_kind t =? 0) && (metadata_len t =? 0) then Some Sized
  else if metadata_kind t =? 1 then Some (Slice (metadata_len t))
  else None.

(** [Token<H>]: a locator and a header. *)
Record Token (H : Type) := mkToken { token : PoolToken; token_header : H }.
Arguments mkToken {H} token token_header.
Arguments token {H} _.
Arguments token_header {H} _.

(** [Token::map] *)
Definition token_map {H T} (f : H → T) (t : Token H) : Token T :=
  mkToken (token t) (f (token_header t)).

(** [Shape]: what a type [T] makes of a token's metadata.  [Value elem] is a
    sized type of that layout, [Values elem] a slice of it. *)
Inductive Shape := Value (elem : Layout) | Values (elem : Layout).

Definition shape_layout (s : Shape) (metadata : Metadata) : result Layout MetadataError :=
  match s, metadata with
  | Value elem, Sized => Ok elem
  | Value _, Slice _ => Err WrongKind
  | Values elem, Slice len => ok_or (layout_array elem len) MetadataOverflow
  | Values _, Sized => Err WrongKind
  end.

(** ** Properties *)

Lemma token_metadata_new pool span generation metadata id :
  token_metadata (PoolToken_new pool span generation metadata id) = Some metadata.
Proof. by destruct metadata as [|len]. Qed.

(** The metadata a token was built with is what it yields, and the words of
    any token either yield the metadata they encode or none. *)
Theorem token_metadata_roundtrip pool span generation metadata id t :
  token_metadata (PoolToken_new pool span generation metadata id) = Some metadata ∧
  match token_metadata t with
  | Some m => PoolToken_new (tok_pool t) (tok_span t) (tok_generation t) m (tok_id t) = t
  | None => ∀ m, PoolToken_new (tok_pool t) (tok_span t) (tok_generation t) m (tok_id t) ≠ t
  end.
Proof.
  split; [apply token_metadata_new|].
  destruct t as [p i s g kind len]. unfold token_metadata. simpl.
  destruct (Z.eqb_spec kind 0) as [->|Hk].
  - destruct (Z.eqb_spec len 0) as [->|Hl]; simpl; [done|].
    intros [|n] E; injection E; congruence.
  - simpl. destruct (Z.eqb_spec kind 1) as [->|Hk1]; [done|].
    intros [|n] E; injection E; congruence.
Qed.

Lemma shape_layout_wf s m l :
  match s with Value elem | Values elem => layout_wf elem end →
  match m with Sized => True | Slice n => 0 ≤ n end →
  shape_layout s m = Ok l → layout_wf l.
Proof.
  destruct s as [elem|elem], m as [|n]; simpl; try done; intros Hw Hn H.
  - by injection H as <-.
  - unfold layout_array in H. split_if_in H; [|done]. injection H as <-.
    destruct Hw as [Ha [Hs _]]. split; [done|]. simpl. split; [nia|done].
Qed.
