(* ===== verification/Pool.v ===== *)
(** * The block pool: authority words and geometry

    Models the first half of [src/src/pool.rs]: the word that says who owns a
    block, block ranges, and the layout of a pool's storage in classes of
    control words and payload blocks. *)

From S2P Require Import Prelude Alloc Schema Token.

(** ** Authority words *)

Definition OWNER_BITS : Z := 6.
Definition OWNER_MASK : Z := Z.shiftl 1 OWNER_BITS - 1.
Definition ALLOCATED : Z := Z.shiftl 1 OWNER_BITS.
Definition GENERATION_SHIFT : Z := OWNER_BITS + 1.
Definition MAX_GENERATION : Z := Z.shiftr u32_max GENERATION_SHIFT.
Definition MIN_BLOCK : Z := 64.
Definition DEFAULT_MAX : Z := 64 * 1024.

(** [State], a [u32]; [<<] loses the bits shifted out. *)
Definition State_free (generation : Z) : Z := wrap 32 (Z.shiftl generation GENERATION_SHIFT).

Definition State_local (generation owner : Z) : option Z :=
  if (MAX_GENERATION <? generation) || (PARTICIPANT_CAPACITY <=? owner) then None
  else Some (Z.lor (Z.lor (wrap 32 (Z.shiftl generation GENERATION_SHIFT)) ALLOCATED) (owner + 1)).

Definition State_detached (generation : Z) : Z :=
  Z.lor (wrap 32 (Z.shiftl generation GENERATION_SHIFT)) ALLOCATED.

Definition State_generation (s : Z) : Z := Z.shiftr s GENERATION_SHIFT.

Definition State_owner (s : Z) : option Z :=
  let owner := Z.land s OWNER_MASK in if owner =? 0 then None else Some (owner - 1).

Definition State_allocated (s : Z) : bool := negb (Z.land s ALLOCATED =? 0).

Definition State_canonical (s : Z) : bool :=
  State_allocated s || match State_owner s with None => true | Some _ => false end.

(** ** Ranges and errors *)

Record BlockRange := mkBlockRange { range_min : Z; range_max : Z }.

Definition BlockRange_new (mn mx : Z) : result BlockRange unit :=
  let? mn := ok_or (checked_next_power_of_two (Z.max mn MIN_BLOCK)) tt in
  let? mx := ok_or (checked_next_power_of_two (Z.max mx MIN_BLOCK)) tt in
  if mn <=? mx then Ok (mkBlockRange mn mx) else Err tt.

Inductive PoolCreateError :=
| InvalidExtent
| RequiredExtent (required available : Z)
| PoolStorage.

Inductive PoolReserveError := BlockTooLarge | Unavailable.

Inductive AdoptError := AdoptPool | AdoptSpan | AdoptType | AdoptOwned.

#[export] Instance AdoptError_eq_dec : EqDecision AdoptError.
Proof. solve_decision. Defined.
#[export] Instance PoolReserveError_eq_dec : EqDecision PoolReserveError.
Proof. solve_decision. Defined.

(** ** Geometry *)

Record PoolInfo := mkPoolInfo { info_min : Z; info_base : Z; info_classes : Z }.

#[export] Instance PoolInfo_eq_dec : EqDecision PoolInfo.
Proof. solve_decision. Defined.

Record Class := mkClass { bytes : Z; slots : Z; controls : Z; payload_at : Z }.

(** [Class::control] and [Class::payload], as offsets from the storage's
    base; a control word has four bytes. *)
Definition Class_control (c : Class) (slot : Z) : Z := controls c + 4 * slot.
Definition Class_payload (c : Class) (slot : Z) : Z := payload_at c + slot * bytes c.

Record Geometry := mkGeometry { geo_layout : Layout; classes : list Class }.

Definition control_word : Layout := mkLayout 4 4.

Section Build.
(** The layout of [RcHeader<Storage>]. *)
Context (header : Layout).

Definition invalid {T} (o : option T) : result T PoolCreateError := ok_or o InvalidExtent.

(** One turn of the loop of [Geometry::build]: the class of index [index]. *)
Definition build_class (mn base index : Z) (layout : Layout) : result (Layout * Class) PoolCreateError :=
  let? bytes := invalid (checked_shl mn index) in
  let slots := Z.shiftr base (index / 2) in
  let? control := invalid (layout_array control_word slots) in
  let? next := invalid (extend layout control) in
  let? total := invalid (checked_mul bytes slots) in
  let? payload := invalid (from_size_align total bytes) in
  let? last := invalid (extend next.1 payload) in
  Ok (last.1, mkClass bytes slots next.2 last.2).

Fixpoint build_from (mn base index : Z) (n : nat) (layout : Layout)
    : result (Layout * list Class) PoolCreateError :=
  match n with
  | O => Ok (layout, [])
  | S n =>
    let? r := build_class mn base index layout in
    let? rest := build_from mn base (index + 1) n r.1 in
    Ok (rest.1, r.2 :: rest.2)
  end.

Definition build (mn count base : Z) : result Geometry PoolCreateError :=
  let? r := build_from mn base 0 (Z.to_nat count) header in
  Ok (mkGeometry (pad_to_align r.1) r.2).

Definition geometry_size (g : Geometry) : Z := size (geo_layout g).

(** The storage of [base] blocks in the first class stays within [bound]. *)
Definition fits (mn count bound base : Z) : bool :=
  match build mn count base with Ok g => geometry_size g <=? bound | Err _ => false end.

(** The binary search of [Geometry::create]; [fuel] bounds its turns. *)
Fixpoint search (mn count bound : Z) (fuel : nat) (low high : Z) : Z :=
  match fuel with
  | O => low
  | S fuel =>
    if low + 1 <? high then
      let middle := low + (high - low) / 2 in
      if fits mn count bound middle then search mn count bound fuel middle high
      else search mn count bound fuel low middle
    else low
  end.

(** The turns the search can take: the interval halves, and fits a word. *)
Definition search_fuel : nat := Z.to_nat usize_bits.

(** The loop of [Geometry::create] from [count] classes down. *)
Fixpoint create_from (mn bound : Z) (exact : bool) (count : nat) : result Geometry PoolCreateError :=
  match count with
  | O => Err InvalidExtent
  | S n =>
    let? minimum := invalid (checked_shl 64 (Z.of_nat n / 2)) in
    let? required := build mn (Z.of_nat count) minimum in
    if geometry_size required <=? bound then
      build mn (Z.of_nat count)
        (search mn (Z.of_nat count) bound search_fuel minimum (bound / (MIN_BLOCK + 1) + 1))
    else if exact || (Z.of_nat count =? 1) then
      Err (RequiredExtent (geometry_size required) bound)
    else create_from mn bound exact n
  end.

(** [Geometry::create]; [None] for [ilog2] of zero, which a [BlockRange] cannot
    hold. *)
Definition Geometry_create (bound : Z) (range : option BlockRange) : result Geometry PoolCreateError :=
  let exact := match range with Some _ => true | None => false end in
  let range := default (mkBlockRange MIN_BLOCK DEFAULT_MAX) range in
  let count := Z.log2 (range_max range) - Z.log2 (range_min range) + 1 in
  create_from (range_min range) bound exact (Z.to_nat count).

(** [Geometry::info]; [None] is the panic of [classes[0]] on no classes. *)
Definition geometry_info (g : Geometry) : option PoolInfo :=
  let! first := classes g !! 0%nat in
  Some (mkPoolInfo (bytes first) (slots first) (Z.of_nat (length (classes g)))).

(** [Geometry::recorded]: [u64] to [usize] is total on the target.  The outer
    [None] is a panic. *)
Definition recorded (info : PoolInfo) (extent : Z) : option (option Geometry) :=
  if negb (info_classes info <=? u32_max) then Some None else
  match build (info_min info) (info_classes info) (info_base info) with
  | Err _ => Some None
  | Ok g =>
    if negb (geometry_size g =? extent) then Some None else
    let! i := geometry_info g in
    Some (if bool_decide (i = info) then Some g else None)
  end.
End Build.
