(* ===== verification/PoolGeo.v ===== *)
(** * The geometry of a pool

    What [Geometry::build], [create] and [recorded] of [src/src/pool.rs]
    guarantee: blocks and control words that do not overlap, the largest pool
    that fits, and a record that brings the same geometry back. *)

From S2P Require Import Prelude Alloc Schema Token Pool.

(** [cs] are laid out one after the other from [lo], aligned, and end by [hi]. *)
Fixpoint laid_out (lo : Z) (cs : list Class) (hi : Z) : Prop :=
  match cs with
  | [] => lo ≤ hi
  | c :: cs =>
    lo ≤ controls c ∧ (4 | controls c) ∧ 0 ≤ slots c ∧ 0 < bytes c ∧
    controls c + 4 * slots c ≤ payload_at c ∧ (bytes c | payload_at c) ∧
    laid_out (payload_at c + bytes c * slots c) cs hi
  end.

(** The shared pieces of a pool: a control word or a block of a class. *)
Inductive piece := Word (i : nat) (slot : Z) | Block (i : nat) (slot : Z).

Definition extent (cs : list Class) (p : piece) : option (Z * Z) :=
  match p with
  | Word i slot =>
    let! c := cs !! i in
    if (0 <=? slot) && (slot <? slots c) then Some (Class_control c slot, 4) else None
  | Block i slot =>
    let! c := cs !! i in
    if (0 <=? slot) && (slot <? slots c) then Some (Class_payload c slot, bytes c) else None
  end.

Definition apart (a b : Z * Z) : Prop := a.1 + a.2 ≤ b.1 ∨ b.1 + b.2 ≤ a.1.

Section Geometry.
Context (header : Layout) (Hheader : layout_wf header).

Lemma control_array n l : 0 ≤ n → layout_array control_word n = Some l →
  l = mkLayout (4 * n) 4 ∧ layout_wf l.
Proof.
  intros Hn H. unfold layout_array in H. split_if_in H; [|done]. injection H as <-.
  split; [done|]. split; [done|]. simpl in *. lia.
Qed.

Lemma build_class_spec mn base index layout l c :
  layout_wf layout → 0 ≤ base → build_class mn base index layout = Ok (l, c) →
  layout_wf l ∧ slots c = Z.shiftr base (index / 2) ∧ bytes c = wrap usize_bits (Z.shiftl mn index) ∧
  is_power_of_two (bytes c) = true ∧
  size layout ≤ controls c ∧ (4 | controls c) ∧ 0 ≤ slots c ∧
  controls c + 4 * slots c ≤ payload_at c ∧ (bytes c | payload_at c) ∧
  size l = payload_at c + bytes c * slots c ∧
  align l = Z.max (Z.max (align layout) 4) (bytes c) ∧
  controls c = round_up (size layout) 4 ∧
  payload_at c = round_up (controls c + 4 * slots c) (bytes c).
Proof.
  intros Hl Hb H. unfold build_class, invalid in H.
  destruct (checked_shl mn index) as [by_|] eqn:Esh; [|done]. simpl in H.
  set (n := Z.shiftr base (index / 2)) in *.
  assert (Hn : 0 ≤ n) by (by apply Z.shiftr_nonneg).
  destruct (layout_array control_word n) as [ctl|] eqn:Ectl; [|done]. simpl in H.
  apply control_array in Ectl as [-> Hctl]; [|done].
  destruct (extend layout (mkLayout (4 * n) 4)) as [[next coff]|] eqn:Enext; [|done]. simpl in H.
  apply extend_spec in Enext as (Hnext & -> & Hsz & Hal & Hle & Hdiv); [|done..]. simpl in *.
  destruct (checked_mul by_ n) as [tot|] eqn:Etot; [|done]. simpl in H.
  unfold checked_mul in Etot. split_if_in Etot; [|done]. injection Etot as <-.
  destruct (from_size_align (by_ * n) by_) as [pay|] eqn:Epay; [|done]. simpl in H.
  assert (0 ≤ by_).
  { unfold checked_shl in Esh. split_if_in Esh; [|done]. injection Esh as <-. apply wrap_word. done. }
  apply from_size_align_spec in Epay as [-> Hpay]; [|nia].
  destruct (extend next (mkLayout (by_ * n) by_)) as [[last poff]|] eqn:Elast; [|done].
  apply extend_spec in Elast as (Hlast & -> & Hsz' & Hal' & Hle' & Hdiv'); [|done..]. simpl in *.
  injection H as -> <-. simpl.
  unfold checked_shl in Esh. split_if_in Esh; [|done]. injection Esh as <-.
  split_and!; try done; try lia; try apply Hpay; try congruence.
Qed.

Lemma build_from_laid_out mn base index n layout l cs :
  layout_wf layout → 0 ≤ base → build_from mn base index n layout = Ok (l, cs) →
  layout_wf l ∧ laid_out (size layout) cs (size l) ∧ length cs = n.
Proof.
  revert index layout l cs. induction n as [|n IH]; intros index layout l cs Hl Hb H; simpl in H.
  - injection H as <- <-. split_and!; try done. simpl. lia.
  - destruct (build_class mn base index layout) as [[l1 c]|] eqn:E1; [|done].
    apply build_class_spec in E1 as (Hl1 & Hs & Hby & Hp & H1 & H2 & H3 & H4 & H5 & H6 & _); [|done..].
    simpl in H. destruct (build_from mn base (index + 1) n l1) as [[l2 cs2]|] eqn:E2; [|done].
    injection H as <- <-. apply IH in E2 as (Hl2 & Hlo & Hlen); [|done..].
    split; [done|]. split; [|simpl; lia]. simpl. rewrite <- H6.
    split_and!; try done; by apply power_pos.
Qed.

Lemma laid_out_bounds lo cs hi : laid_out lo cs hi → lo ≤ hi.
Proof.
  revert lo. induction cs as [|c cs IH]; intros lo H; simpl in H; [done|].
  destruct H as (? & ? & ? & ? & ? & ? & H%IH). nia.
Qed.

(** Where a class of a chain sits. *)
Lemma laid_out_class lo cs hi i c :
  laid_out lo cs hi → cs !! i = Some c →
  lo ≤ controls c ∧ (4 | controls c) ∧ 0 ≤ slots c ∧ 0 < bytes c ∧
  controls c + 4 * slots c ≤ payload_at c ∧ (bytes c | payload_at c) ∧
  payload_at c + bytes c * slots c ≤ hi.
Proof.
  revert lo i. induction cs as [|c' cs IH]; intros lo [|i] H Hi; try done; simpl in *.
  - injection Hi as ->. destruct H as (? & ? & ? & ? & ? & ? & H%laid_out_bounds). by split_and!.
  - destruct H as (? & ? & ? & ? & ? & ? & H). apply (IH _ i H) in Hi as (? & ?). split; [nia|done].
Qed.

Lemma laid_out_order lo cs hi i j c d :
  laid_out lo cs hi → cs !! i = Some c → cs !! j = Some d → (i < j)%nat →
  payload_at c + bytes c * slots c ≤ controls d.
Proof.
  revert lo i j. induction cs as [|c' cs IH]; intros lo i j H Hi Hj Hij; [done|].
  simpl in H. destruct H as (? & ? & ? & ? & ? & ? & H). destruct j as [|j]; [lia|].
  destruct i as [|i]; simpl in *.
  - injection Hi as ->. by eapply laid_out_class in Hj as (? & _).
  - eapply IH; eauto. lia.
Qed.

Lemma extent_within lo cs hi p a :
  laid_out lo cs hi → extent cs p = Some a → lo ≤ a.1 ∧ a.1 + a.2 ≤ hi ∧ (a.2 | a.1) ∧ 0 < a.2.
Proof.
  intros Hlo. destruct p as [i s|i s]; simpl;
    (destruct (cs !! i) as [c|] eqn:Hc; [|done]); intros H; (split_if_in H; [|done]); injection H as <-;
    apply (laid_out_class _ _ _ _ _ Hlo) in Hc as (? & H4 & ? & ? & ? & Hb & ?); simpl.
  - unfold Class_control. split_and!; [nia|nia|apply Z.divide_add_r; [done|by exists s; lia]|lia].
  - unfold Class_payload. split_and!; [nia|nia|apply Z.divide_add_r; [done|by exists s]|done].
Qed.

(** Pieces of one class; the control words precede the blocks. *)
Lemma class_pieces_apart c s s' :
  0 ≤ slots c → 0 < bytes c → controls c + 4 * slots c ≤ payload_at c →
  0 ≤ s < slots c → 0 ≤ s' < slots c →
  (s ≠ s' → apart (Class_control c s, 4) (Class_control c s', 4)) ∧
  (s ≠ s' → apart (Class_payload c s, bytes c) (Class_payload c s', bytes c)) ∧
  apart (Class_control c s, 4) (Class_payload c s', bytes c).
Proof.
  intros. unfold apart, Class_control, Class_payload. simpl. split_and!.
  - lia.
  - intros Hne. assert (s + 1 ≤ s' ∨ s' + 1 ≤ s) as [?|?] by lia; [left|right]; nia.
  - left. nia.
Qed.

Lemma pieces_apart lo cs hi p p' a a' :
  laid_out lo cs hi → p ≠ p' → extent cs p = Some a → extent cs p' = Some a' → apart a a'.
Proof.
  intros Hlo Hne Ha Ha'.
  assert (Hsym : ∀ x y, apart x y → apart y x) by (intros x y [?|?]; [by right|by left]).
  assert (Hin : ∀ i c s q b, (q = Word i s ∨ q = Block i s) → cs !! i = Some c →
    extent cs q = Some b → 0 ≤ s < slots c ∧ controls c ≤ b.1 ∧
      b.1 + b.2 ≤ payload_at c + bytes c * slots c).
  { intros i c s q b Hq Hc Hb.
    destruct (laid_out_class _ _ _ _ _ Hlo Hc) as (? & _ & ? & ? & ? & _ & _).
    destruct Hq as [-> | ->]; simpl in Hb; rewrite Hc in Hb; (split_if_in Hb; [|done]);
      injection Hb as <-; simpl; unfold Class_control, Class_payload; nia. }
  assert (Hget : ∀ q b, extent cs q = Some b → ∃ i s c, (q = Word i s ∨ q = Block i s) ∧ cs !! i = Some c).
  { intros [i s|i s] b Hb; simpl in Hb; destruct (cs !! i) as [c|] eqn:Hc; try done; eauto 6. }
  destruct (Hget _ _ Ha) as (i & s & c & Hp & Hc). destruct (Hget _ _ Ha') as (j & s' & d & Hp' & Hd).
  destruct (Hin _ _ _ _ _ Hp Hc Ha) as (Hs & Hlo1 & Hhi1).
  destruct (Hin _ _ _ _ _ Hp' Hd Ha') as (Hs' & Hlo2 & Hhi2).
  destruct (Nat.lt_trichotomy i j) as [Hij|[->|Hij]].
  - pose proof (laid_out_order _ _ _ _ _ _ _ Hlo Hc Hd Hij). left. lia.
  - rewrite Hc in Hd. injection Hd as <-.
    destruct (laid_out_class _ _ _ _ _ Hlo Hc) as (_ & _ & ? & ? & ? & _ & _).
    destruct (class_pieces_apart c s s') as (Hww & Hbb & Hwb); [done..|].
    destruct (class_pieces_apart c s' s) as (_ & _ & Hbw); [done..|].
    destruct Hp as [-> | ->], Hp' as [-> | ->]; simpl in Ha, Ha'; rewrite Hc in Ha, Ha';
      (split_if_in Ha; [|done]); (split_if_in Ha'; [|done]); injection Ha as <-; injection Ha' as <-;
      auto; [apply Hww|apply Hbb]; congruence.
  - pose proof (laid_out_order _ _ _ _ _ _ _ Hlo Hd Hc Hij). right. lia.
Qed.
End Geometry.

(** The storage [Geometry::build] lays out: behind the header, every control
    word and every block of every class lies inside the storage, aligned to its
    own size, and no two of them overlap. *)
Theorem geometry_pieces_apart header mn count base g :
  layout_wf header → 0 ≤ base → build header mn count base = Ok g →
  ∀ p a, extent (classes g) p = Some a →
    size header ≤ a.1 ∧ a.1 + a.2 ≤ geometry_size g ∧ (a.2 | a.1) ∧
    ∀ p' a', p' ≠ p → extent (classes g) p' = Some a' → apart a a'.
Proof.
  intros Hh Hb H p a Ha. unfold build in H.
  destruct (build_from mn base 0 (Z.to_nat count) header) as [[l cs]|] eqn:E; [|done].
  injection H as <-. simpl in *. apply build_from_laid_out in E as (Hl & Hlo & _); [|done..].
  destruct (extent_within _ _ _ _ _ Hlo Ha) as (? & ? & ? & ?).
  destruct (round_up_spec (size l) (align l)) as [? _]; [apply power_pos, Hl|apply Hl|].
  unfold geometry_size. simpl. split_and!; [done|lia|done|].
  intros p' a' Hne Ha'. eapply pieces_apart; [exact Hlo|by apply not_eq_sym|done|done].
Qed.

(** ** Growing the base *)

Section Monotone.
Context (header : Layout) (Hheader : layout_wf header).

Lemma extend_mono self self' next next' l' off' :
  layout_wf self → layout_wf self' → layout_wf next → layout_wf next' →
  size self ≤ size self' → align self = align self' →
  size next ≤ size next' → align next = align next' →
  extend self' next' = Some (l', off') →
  ∃ l off, extend self next = Some (l, off) ∧ size l ≤ size l' ∧ align l = align l'.
Proof.
  intros Hs Hs' Hn Hn' H1 H2 H3 H4 H. pose proof H as Hspec.
  apply extend_spec in Hspec as (Hl' & -> & Hsz & Hal & _); [|done..].
  unfold extend in *. rewrite H2, H4.
  destruct (from_size_align (round_up (size self') (align next') + size next') _) as [x|] eqn:E; [|done].
  injection H as ->. unfold from_size_align in *. split_if_in E; [|done]. injection E as <-.
  pose proof (round_up_mono (size self) (size self') (align next') (power_pos _ (proj1 Hn')) H1).
  rewrite (proj2 (andb_true_iff _ _)); [|split; [done|apply Z.leb_le; simpl in *; lia]].
  eexists _, _. split; [done|]. simpl in *. split; [lia|done].
Qed.

Lemma build_class_mono mn base base' index layout layout' l' c' :
  layout_wf layout → layout_wf layout' → 0 ≤ base ≤ base' → 0 ≤ mn → 0 ≤ index →
  size layout ≤ size layout' → align layout = align layout' →
  build_class mn base' index layout' = Ok (l', c') →
  ∃ l c, build_class mn base index layout = Ok (l, c) ∧ size l ≤ size l' ∧ align l = align l'.
Proof.
  intros Hl Hl' Hb Hmn Hi Hsz Hal H. unfold build_class, invalid in *.
  destruct (checked_shl mn index) as [by_|] eqn:Esh; [|done]. simpl in *.
  assert (Hby : 0 ≤ by_).
  { unfold checked_shl in Esh. split_if_in Esh; [|done]. injection Esh as <-. by apply wrap_word. }
  set (n := Z.shiftr base (index / 2)) in *. set (n' := Z.shiftr base' (index / 2)) in *.
  assert (Hn : 0 ≤ n ≤ n').
  { split; [apply Z.shiftr_nonneg; lia|]. unfold n, n'.
    assert (0 ≤ index / 2) by (apply Z.div_pos; lia).
    rewrite !Z.shiftr_div_pow2 by done. apply Z.div_le_mono; [by apply pow2_pos|lia]. }
  destruct (layout_array control_word n') as [ctl'|] eqn:Ectl; [|done]. simpl in H.
  assert (Ec : layout_array control_word n = Some (mkLayout (4 * n) 4)).
  { unfold layout_array in *. simpl in *. split_if_in Ectl; [|done].
    destruct (Z.leb_spec (4 * n) (isize_max + 1 - 4)); [done|lia]. }
  rewrite Ec. simpl. apply control_array in Ectl as [-> Hctl']; [|lia].
  apply control_array in Ec as [_ Hctl]; [|lia].
  destruct (extend layout' (mkLayout (4 * n') 4)) as [[next' o']|] eqn:En; [|done]. simpl in H.
  pose proof En as En0. apply extend_spec in En0 as (Hnext' & _); [|done..].
  destruct (extend_mono layout layout' (mkLayout (4 * n) 4) (mkLayout (4 * n') 4) next' o')
    as (next & o & Ee & Hs1 & Ha1); [done..|simpl; lia|done|done|].
  rewrite Ee. simpl. apply extend_spec in Ee as (Hnext & _); [|done..].
  destruct (checked_mul by_ n') as [tot'|] eqn:Et; [|done]. simpl in H.
  unfold checked_mul in *. split_if_in Et; [|done]. injection Et as <-.
  destruct (Z.leb_spec (by_ * n) usize_max); [|nia]. simpl.
  destruct (from_size_align (by_ * n') by_) as [pay'|] eqn:Ep; [|done]. simpl in H.
  assert (Ep' : from_size_align (by_ * n) by_ = Some (mkLayout (by_ * n) by_)).
  { unfold from_size_align in *. split_if_in Ep; [|done].
    rewrite (proj2 (andb_true_iff _ _)); [done|]. split; [done|]. apply Z.leb_le. nia. }
  rewrite Ep'. simpl. apply from_size_align_spec in Ep as [-> Hp']; [|nia].
  apply from_size_align_spec in Ep' as [_ Hp]; [|nia].
  destruct (extend next' (mkLayout (by_ * n') by_)) as [[last' p']|] eqn:El; [|done].
  destruct (extend_mono next next' (mkLayout (by_ * n) by_) (mkLayout (by_ * n') by_) last' p')
    as (last & p & Ee & Hs2 & Ha2); [done..|simpl; nia|done|done|].
  rewrite Ee. simpl. injection H as <- _. eauto.
Qed.

Lemma build_from_mono mn base base' index n layout layout' l' cs' :
  layout_wf layout → layout_wf layout' → 0 ≤ base ≤ base' → 0 ≤ mn → 0 ≤ index →
  size layout ≤ size layout' → align layout = align layout' →
  build_from mn base' index n layout' = Ok (l', cs') →
  ∃ l cs, build_from mn base index n layout = Ok (l, cs) ∧ size l ≤ size l' ∧ align l = align l'.
Proof.
  revert index layout layout' l' cs'.
  induction n as [|n IH]; intros index layout layout' l' cs' Hl Hl' Hb Hmn Hi Hsz Hal H; simpl in *.
  - injection H as <- _. eauto.
  - destruct (build_class mn base' index layout') as [[l1' c']|] eqn:E1; [|done]. simpl in H.
    destruct (build_class_mono _ base _ _ layout _ _ _ Hl Hl' Hb Hmn Hi Hsz Hal E1)
      as (l1 & c & E & Hs1 & Ha1). rewrite E. simpl.
    apply build_class_spec in E1 as (Hl1' & _); [|done|lia].
    apply build_class_spec in E as (Hl1 & _); [|done|lia].
    destruct (build_from mn base' (index + 1) n l1') as [[l2' cs2']|] eqn:E2; [|done].
    injection H as <- _.
    destruct (IH (index + 1) l1 l1' l2' cs2') as (l2 & cs2 & -> & Hs2 & Ha2); [done..|lia|done|done|done|].
    simpl. eauto.
Qed.

Lemma fits_mono mn count bound base base' :
  0 ≤ base ≤ base' → 0 ≤ mn → fits header mn count bound base' = true →
  fits header mn count bound base = true.
Proof.
  intros Hb Hmn H. unfold fits, build in *.
  destruct (build_from mn base' 0 (Z.to_nat count) header) as [[l' cs']|] eqn:E; [|done].
  destruct (build_from_mono _ base base' 0 _ header header _ _ Hheader Hheader Hb Hmn ltac:(lia)
    ltac:(lia) eq_refl E) as (l & cs & El & Hsz & Hal).
  rewrite El. simpl in *. bools. apply Z.leb_le. unfold geometry_size in *. simpl in *.
  apply build_from_laid_out in E as (Hl' & _); [|done|lia].
  rewrite Hal. pose proof (round_up_mono (size l) (size l') (align l') (power_pos _ (proj1 Hl')) Hsz). lia.
Qed.

(** A base past the search interval cannot fit. *)
Lemma fits_bound mn count bound base :
  MIN_BLOCK ≤ mn ≤ usize_max → 0 < count → 0 ≤ base → fits header mn count bound base = true →
  base < bound / (MIN_BLOCK + 1) + 1.
Proof.
  intros Hmn Hc Hb H. unfold fits, build in H.
  destruct (Z.to_nat count) as [|n] eqn:En; [lia|]. simpl in H.
  destruct (build_class mn base 0 header) as [[l1 c]|] eqn:E1; [|done]. simpl in H.
  apply build_class_spec in E1 as (Hl1 & Hs & Hby & Hp & H1 & _ & H3 & H4 & _ & H6 & _); [|done..].
  destruct (build_from mn base (0 + 1) n l1) as [[l2 cs]|] eqn:E2; [|done].
  apply build_from_laid_out in E2 as (Hl2 & Hlo%laid_out_bounds & _); [|done..].
  simpl in H. bools. unfold geometry_size in H. simpl in H.
  destruct (round_up_spec (size l2) (align l2)) as [? _]; [apply power_pos, Hl2|apply Hl2|].
  assert (Hge : MIN_BLOCK ≤ bytes c).
  { rewrite Hby, Z.shiftl_0_r, wrap_small; [lia|]. unfold is_word, usize_max, MIN_BLOCK in *. lia. }
  rewrite Z.div_0_l, Z.shiftr_0_r in Hs by done. destruct Hheader as [_ ?].
  assert (base * (MIN_BLOCK + 1) ≤ bound) by (unfold MIN_BLOCK in *; nia).
  assert (base ≤ bound / (MIN_BLOCK + 1)); [|lia]. apply Z.div_le_lower_bound; [done|lia].
Qed.

(** The search ends at the last base that fits. *)
Lemma search_last mn count bound fuel low high :
  0 ≤ mn → 0 ≤ low < high → high - low ≤ 2 ^ Z.of_nat fuel →
  fits header mn count bound low = true → fits header mn count bound high = false →
  let r := search header mn count bound fuel low high in
  low ≤ r ∧ fits header mn count bound r = true ∧
  ∀ b, r < b → fits header mn count bound b = false.
Proof.
  intros Hmn. revert low high. induction fuel as [|fuel IH]; intros low high Hlh Hd Hlo Hhi; simpl.
  - assert (high = low + 1) as -> by (simpl in Hd; lia). split_and!; [lia|done|].
    intros b Hb. apply not_true_iff_false. intros Hf.
    by rewrite (fits_mono mn count bound (low + 1) b ltac:(lia) Hmn Hf) in Hhi.
  - rewrite Nat2Z.inj_succ, Z.pow_succ_r in Hd by lia.
    destruct (Z.ltb_spec (low + 1) high).
    + set (middle := low + (high - low) / 2).
      assert (low < middle < high ∧ middle - low ≤ 2 ^ Z.of_nat fuel ∧ high - middle ≤ 2 ^ Z.of_nat fuel)
        as (Hm & Hd1 & Hd2).
      { unfold middle. pose proof (Z.div_mod (high - low) 2 ltac:(lia)).
        pose proof (Z.mod_pos_bound (high - low) 2 ltac:(lia)). lia. }
      destruct (fits header mn count bound middle) eqn:Ef.
      * destruct (IH middle high) as (? & ? & ?); [lia|done|done|done|]. split_and!; [lia|done|done].
      * apply IH; [lia|done|done|done].
    + assert (high = low + 1) as -> by lia. split_and!; [lia|done|].
      intros b Hb. apply not_true_iff_false. intros Hf.
      by rewrite (fits_mono mn count bound (low + 1) b ltac:(lia) Hmn Hf) in Hhi.
Qed.

(** What a successful run of the loop of [create] answers. *)
Lemma create_from_spec mn bound exact n g :
  MIN_BLOCK ≤ mn ≤ usize_max → bound ≤ usize_max → (n ≤ 64)%nat →
  create_from header mn bound exact n = Ok g →
  ∃ count base, (0 < count ≤ n)%nat ∧ (exact = true → count = n) ∧ 0 ≤ base ∧
    build header mn (Z.of_nat count) base = Ok g ∧ geometry_size g ≤ bound ∧
    (∀ b, base < b → fits header mn (Z.of_nat count) bound b = false) ∧
    ∀ m, (count < m ≤ n)%nat →
      fits header mn (Z.of_nat m) bound (Z.shiftl 64 (Z.of_nat (m - 1) / 2)) = false.
Proof.
  intros Hmn Hbd. induction n as [|n IH]; intros Hn H; [done|].
  cbn [create_from] in H. unfold invalid, checked_shl in H.
  assert (Hhalf : 0 ≤ Z.of_nat n / 2 ≤ 31).
  { split; [apply Z.div_pos; lia|]. assert (Z.of_nat n / 2 ≤ 63 / 2) by (apply Z.div_le_mono; lia).
    change (63 / 2) with 31 in *. lia. }
  destruct (Z.ltb_spec (Z.of_nat n / 2) usize_bits); [|unfold usize_bits in *; lia].
  assert (Hmin : 0 < Z.shiftl 64 (Z.of_nat n / 2) ≤ 2 ^ 37).
  { rewrite Z.shiftl_mul_pow2 by lia.
    assert (1 ≤ 2 ^ (Z.of_nat n / 2)) by (apply (Z.pow_le_mono_r 2 0); lia).
    assert (2 ^ (Z.of_nat n / 2) ≤ 2 ^ 31) by (apply Z.pow_le_mono_r; lia).
    change (2 ^ 37) with (64 * 2 ^ 31). lia. }
  cbn [ok_or] in H. rewrite wrap_small in H by (unfold is_word; change (2 ^ usize_bits) with (2 ^ 64); lia).
  set (minimum := Z.shiftl 64 (Z.of_nat n / 2)) in *.
  destruct (build header mn (Z.of_nat (S n)) minimum) as [req|] eqn:Ereq; [|done].
  destruct (Z.leb_spec (geometry_size req) bound) as [Hle|Hgt].
  - assert (Hfit : fits header mn (Z.of_nat (S n)) bound minimum = true).
    { unfold fits. rewrite Ereq. by apply Z.leb_le. }
    set (high := bound / (MIN_BLOCK + 1) + 1) in *.
    pose proof (fits_bound mn (Z.of_nat (S n)) bound minimum Hmn ltac:(lia) ltac:(lia) Hfit) as Hlt.
    destruct (search_last mn (Z.of_nat (S n)) bound search_fuel minimum high) as (Hr & Hrf & Hrl).
    + unfold MIN_BLOCK in *; lia.
    + fold high in Hlt. lia.
    + change (2 ^ Z.of_nat search_fuel) with (usize_max + 1).
      assert (bound / (MIN_BLOCK + 1) ≤ usize_max / (MIN_BLOCK + 1)) by (by apply Z.div_le_mono).
      assert (usize_max / (MIN_BLOCK + 1) ≤ usize_max) by (by apply Z.leb_le). unfold high. lia.
    + done.
    + apply not_true_iff_false. intros Hf.
      pose proof (fits_bound mn (Z.of_nat (S n)) bound high Hmn ltac:(lia) ltac:(lia) Hf). unfold high in *. lia.
    + set (r := search header mn (Z.of_nat (S n)) bound search_fuel minimum high) in *.
      exists (S n), r. split; [lia|]. split; [done|]. split; [lia|]. split; [done|].
      split; [|split; [done|lia]].
      unfold fits in Hrf. rewrite H in Hrf. by bools.
  - destruct exact; [done|]. cbn [orb] in H. destruct (Z.eqb_spec (Z.of_nat (S n)) 1); [done|].
    apply IH in H as (count & base & Hc & He & Hb & Hbuild & Hsz & Hmax & Hless); [|lia].
    exists count, base. split; [lia|]. split; [done|]. do 4 (split; [done|]).
    intros m Hm. destruct (decide (m = S n)) as [->|]; [|apply Hless; lia].
    replace (S n - 1)%nat with n by lia. fold minimum. unfold fits. rewrite Ereq.
    apply Z.leb_gt. lia.
Qed.
End Monotone.

(** ** Creating and recording *)

Lemma next_power_spec x p : checked_next_power_of_two x = Some p → 0 < x →
  x ≤ p ≤ usize_max ∧ is_power_of_two p = true.
Proof.
  unfold checked_next_power_of_two. intros H Hx. split_if_in H; (split_if_in H; [|done]); injection H as <-.
  - split; [lia|done].
  - split; [|apply pow2_is_power, Z.log2_up_nonneg].
    split; [apply Z.log2_up_spec; lia|done].
Qed.

Lemma BlockRange_new_spec a b r :
  BlockRange_new a b = Ok r →
  MIN_BLOCK ≤ range_min r ≤ range_max r ∧ range_max r ≤ usize_max ∧
  a ≤ range_min r ∧ b ≤ range_max r ∧
  is_power_of_two (range_min r) = true ∧ is_power_of_two (range_max r) = true.
Proof.
  unfold BlockRange_new. intros H.
  destruct (checked_next_power_of_two (Z.max a MIN_BLOCK)) as [mn|] eqn:Ea; [|done]. simpl in H.
  destruct (checked_next_power_of_two (Z.max b MIN_BLOCK)) as [mx|] eqn:Eb; [|done]. simpl in H.
  split_if_in H; [|done]. injection H as <-. simpl.
  apply next_power_spec in Ea as [? ?]; [|unfold MIN_BLOCK; lia].
  apply next_power_spec in Eb as [? ?]; [|unfold MIN_BLOCK; lia].
  split_and!; try done; lia.
Qed.

(** The smallest block and the number of classes a range asks for. *)
Definition asked_min (range : option BlockRange) : Z :=
  range_min (default (mkBlockRange MIN_BLOCK DEFAULT_MAX) range).
Definition asked_classes (range : option BlockRange) : nat :=
  let r := default (mkBlockRange MIN_BLOCK DEFAULT_MAX) range in
  Z.to_nat (Z.log2 (range_max r) - Z.log2 (range_min r) + 1).

Definition range_ok (range : option BlockRange) : Prop :=
  match range with None => True | Some r => ∃ a b, BlockRange_new a b = Ok r end.

Lemma asked_bounds range : range_ok range →
  MIN_BLOCK ≤ asked_min range ≤ usize_max ∧ (asked_classes range ≤ 64)%nat.
Proof.
  destruct range as [r|]; [|vm_compute; repeat split; (discriminate || lia)].
  intros (a & b & H%BlockRange_new_spec). destruct H as (H1 & H2 & _). unfold asked_min, asked_classes. simpl.
  split; [lia|].
  assert (Z.log2 (range_max r) ≤ Z.log2 usize_max) by (apply Z.log2_le_mono; lia).
  change (Z.log2 usize_max) with 63 in *.
  assert (Z.log2 MIN_BLOCK ≤ Z.log2 (range_min r)) by (apply Z.log2_le_mono; lia).
  change (Z.log2 MIN_BLOCK) with 6 in *. lia.
Qed.

(** A pool that is created stays within its bound and is the largest there
    is: no larger base fits with its number of classes, the number of classes
    is the one asked for when a range is given, and otherwise no larger number
    fits even at its smallest base. *)
Theorem geometry_create_largest header bound range g :
  layout_wf header → range_ok range → bound ≤ usize_max →
  Geometry_create header bound range = Ok g →
  ∃ count base, (0 < count ≤ asked_classes range)%nat ∧
    (is_Some range → count = asked_classes range) ∧
    build header (asked_min range) (Z.of_nat count) base = Ok g ∧ 0 ≤ base ∧
    geometry_size g ≤ bound ∧
    (∀ b, base < b → fits header (asked_min range) (Z.of_nat count) bound b = false) ∧
    ∀ m, (count < m ≤ asked_classes range)%nat →
      fits header (asked_min range) (Z.of_nat m) bound (Z.shiftl 64 (Z.of_nat (m - 1) / 2)) = false.
Proof.
  intros Hh Hr Hb H. destruct (asked_bounds range Hr) as [Hmn Hn]. change (create_from header (asked_min range) bound
    (match range with Some _ => true | None => false end) (asked_classes range) = Ok g) in H.
  apply create_from_spec in H as (count & base & Hc & He & Hbase & Hbuild & Hsz & Hmax & Hless); try done.
  exists count, base. split_and!; try done; try lia.
  intros [r ->]. by apply He.
Qed.

Lemma geometry_create_largest_witness :
  (∃ g, Geometry_create (mkLayout 192 64) 1000000 None = Ok g ∧ length (classes g) = 7%nat) ∧
  ∃ g count base, (0 < count ≤ asked_classes None)%nat ∧
    (is_Some (@None BlockRange) → count = asked_classes None) ∧
    build (mkLayout 192 64) (asked_min None) (Z.of_nat count) base = Ok g ∧ 0 ≤ base ∧
    geometry_size g ≤ 1000000 ∧
    (∀ b, base < b → fits (mkLayout 192 64) (asked_min None) (Z.of_nat count) 1000000 b = false) ∧
    ∀ m, (count < m ≤ asked_classes None)%nat →
      fits (mkLayout 192 64) (asked_min None) (Z.of_nat m) 1000000
        (Z.shiftl 64 (Z.of_nat (m - 1) / 2)) = false.
Proof.
  assert (E : ∃ g, Geometry_create (mkLayout 192 64) 1000000 None = Ok g ∧ length (classes g) = 7%nat).
  { eexists. split; [vm_compute; reflexivity|reflexivity]. }
  split; [exact E|]. destruct E as (g & E & _). exists g.
  apply (geometry_create_largest (mkLayout 192 64) 1000000 None); [by_eval|done|by_eval|exact E].
Defined.

(** The record a pool leaves brings its geometry back: from the info a
    created pool writes and the extent of its storage, [recorded] yields the
    same geometry. *)
Theorem geometry_recorded_roundtrip header bound range g :
  layout_wf header → range_ok range → bound ≤ usize_max →
  Geometry_create header bound range = Ok g →
  ∃ info, geometry_info g = Some info ∧
    recorded header info (geometry_size g) = Some (Some g).
Proof.
  intros Hh Hr Hb H. destruct (asked_bounds range Hr) as [Hmn Hn]. change (create_from header (asked_min range) bound
    (match range with Some _ => true | None => false end) (asked_classes range) = Ok g) in H.
  apply create_from_spec in H as (count & base & Hc & _ & Hbase & Hbuild & _); [|try done..].
  assert (Hi : geometry_info g = Some (mkPoolInfo (asked_min range) base (Z.of_nat count))).
  { pose proof Hbuild as Hb2. unfold build in Hb2. rewrite Nat2Z.id in Hb2.
    destruct (build_from (asked_min range) base 0 count header) as [[l cs]|] eqn:E; [|done].
    injection Hb2 as <-. unfold geometry_info. simpl.
    pose proof E as E'. apply build_from_laid_out in E' as (_ & _ & Hlen); [|done..].
    destruct count as [|count]; [lia|]. cbn [build_from] in E.
    destruct (build_class (asked_min range) base 0 header) as [[l1 c]|] eqn:E1; [|done].
    apply build_class_spec in E1 as (_ & Hs & Hby & _); [|done..]. cbn [fst] in E.
    destruct (build_from (asked_min range) base (0 + 1) count l1) as [[l2 cs2]|]; [|done].
    injection E as <- <-. cbn [lookup list_lookup snd classes].
    rewrite Hlen, Hs, Hby, Z.div_0_l, Z.shiftl_0_r, Z.shiftr_0_r by done.
    rewrite wrap_small; [done|]. unfold is_word, usize_max, MIN_BLOCK in *. lia. }
  eexists. split; [exact Hi|]. unfold recorded. simpl.
  destruct (Z.leb_spec (Z.of_nat count) u32_max); [|unfold u32_max in *; lia]. simpl.
  rewrite Hbuild, Z.eqb_refl, Hi. simpl. by rewrite bool_decide_true.
Qed.

Lemma geometry_recorded_roundtrip_witness :
  ∃ g, Geometry_create (mkLayout 192 64) 300000 (Some (mkBlockRange 64 1024)) = Ok g ∧
  ∃ info, geometry_info g = Some info ∧ recorded (mkLayout 192 64) info (geometry_size g) = Some (Some g).
Proof.
  assert (E : ∃ g, Geometry_create (mkLayout 192 64) 300000 (Some (mkBlockRange 64 1024)) = Ok g).
  { eexists. vm_compute. reflexivity. }
  destruct E as (g & E). exists g. split; [exact E|].
  apply (geometry_recorded_roundtrip (mkLayout 192 64) 300000 (Some (mkBlockRange 64 1024)));
    [by_eval| |by_eval|exact E].
  exists 64, 1024. reflexivity.
Defined.

Lemma geometry_pieces_apart_witness :
  ∃ g, build (mkLayout 192 64) 64 3 128 = Ok g ∧
  ∀ p a, extent (classes g) p = Some a →
    192 ≤ a.1 ∧ a.1 + a.2 ≤ geometry_size g ∧ (a.2 | a.1) ∧
    ∀ p' a', p' ≠ p → extent (classes g) p' = Some a' → apart a a'.
Proof.
  assert (E : ∃ g, build (mkLayout 192 64) 64 3 128 = Ok g) by (eexists; vm_compute; reflexivity).
  destruct E as (g & E). exists g. split; [exact E|].
  apply (geometry_pieces_apart (mkLayout 192 64) 64 3 128 g); [by_eval|done|exact E].
Defined.
