(* ===== verification/PoolOps.v ===== *)
(** * The block pool: operations

    Models the second half of [src/src/pool.rs]: claiming a block, releasing
    it, handing it over through a token, and recovering the blocks of a dead
    participant.  Every load and compare-exchange of a control word is one
    action of a [prog]. *)

From S2P Require Import Prelude Atomic Alloc Schema Header Token Pool.

(** ** Shared state *)

(** The control words, by class and slot. *)
Abbreviation words := (list (list Z)).

Definition word_at (w : words) (c s : Z) : Z :=
  default 0 (w !! Z.to_nat c ≫= λ row, row !! Z.to_nat s).

Definition set_word (w : words) (c s v : Z) : words :=
  alter (λ row, <[Z.to_nat s := v]> row) (Z.to_nat c) w.

Definition load_word (c s : Z) (w : words) : Z * words := (word_at w c s, w).

(** [compare_exchange]: success, or the word observed. *)
Definition cas_word (c s old new : Z) (w : words) : result unit Z * words :=
  let seen := word_at w c s in
  if seen =? old then (Ok tt, set_word w c s new) else (Err seen, w).

(** [compare_exchange_weak], which fails spuriously when [spurious] says so. *)
Definition cas_weak (spurious : bool) (c s old new : Z) (w : words) : result unit Z * words :=
  if spurious then (Err (word_at w c s), w) else cas_word c s old new w.

(** ** Handles *)

Record PoolRef := mkPoolRef { pr_geometry : Geometry; pr_id : LayoutId; pr_owner : Z }.

Record Allocation := mkAllocation {
  al_class : Z;
  al_slot : Z;
  al_generation : Z;
  al_live : bool;
}.

#[export] Instance Allocation_eq_dec : EqDecision Allocation.
Proof. solve_decision. Defined.

(** [Allocation::empty] *)
Definition Allocation_empty : Allocation := mkAllocation 0 0 0 false.

(** ** Initialization *)

(** The control words [Storage::init] writes. *)
Definition init_words (g : Geometry) : words :=
  (λ c, replicate (Z.to_nat (slots c)) (State_free 0)) <$> classes g.

(** [Storage::init]; [None] is the panic of [recorded]. *)
Definition Storage_init (header : Layout) (info : PoolInfo) (extent : Z) : option (Status * words) :=
  let! g := recorded header info extent in
  Some (match g with
        | None => (Corrupted, [])
        | Some g => (Initialized, init_words g)
        end).

(** [Storage::attach] *)
Definition Storage_attach (header : Layout) (info : PoolInfo) (extent : Z) : option Status :=
  let! g := recorded header info extent in
  Some (match g with Some _ => Initialized | None => Corrupted end).

(** ** Claiming *)

(** A claimed block: the allocation and the offset of its bytes (for a
    zero-sized layout, the dangling address [align]). *)
Definition claimed : Type := Allocation * Z.

(** The inner loop of [PoolRef::claim] over the slots of class [index];
    [next] continues when none is taken. *)
Fixpoint probe (owner index : Z) (class : Class) (probes : list Z)
    (next : prog words (option (result claimed PoolReserveError)))
    : prog words (option (result claimed PoolReserveError)) :=
  match probes with
  | [] => next
  | slot :: probes =>
    act free <- load_word index slot;
    let generation := Z.min (State_generation free + 1) u32_max in
    match State_local generation owner with
    | None => probe owner index class probes next
    | Some local =>
      if State_canonical free && negb (State_allocated free)
         && (State_generation free <? MAX_GENERATION) then
        act won <- cas_word index slot free local;
        if is_ok won then
          Ret (Some (Ok (mkAllocation index slot generation true, Class_payload class slot)))
        else probe owner index class probes next
      else probe owner index class probes next
    end
  end.

(** The outer loop, over the classes from [index] on; a class without slots
    panics at the remainder. *)
Fixpoint probe_classes (owner index : Z) (cs : list Class)
    : prog words (option (result claimed PoolReserveError)) :=
  match cs with
  | [] => Ret (Some (Err Unavailable))
  | class :: cs =>
    if slots class =? 0 then Ret None else
    let start := (wrapping_mul index 0x9e37) mod slots class in
    let order := (λ i, (start + i) mod slots class) <$> seqZ 0 (slots class) in
    probe owner index class order (probe_classes owner (index + 1) cs)
  end.

(** [PoolRef::claim] *)
Definition claim (p : PoolRef) (layout : Layout)
    : prog words (option (result claimed PoolReserveError)) :=
  if size layout =? 0 then Ret (Some (Ok (Allocation_empty, align layout))) else
  match checked_next_power_of_two (Z.max (size layout) (align layout)) with
  | None => Ret (Some (Err BlockTooLarge))
  | Some needed =>
    match classes (pr_geometry p) !! 0%nat with
    | None => Ret None
    | Some first =>
      let preferred := Z.log2 (Z.max needed (bytes first)) - Z.log2 (bytes first) in
      if Z.of_nat (length (classes (pr_geometry p))) <=? preferred then
        Ret (Some (Err BlockTooLarge))
      else probe_classes (pr_owner p) preferred (drop (Z.to_nat preferred) (classes (pr_geometry p)))
    end
  end.

(** [PoolRef::reserve_slice] of [len] elements. *)
Definition reserve_slice (p : PoolRef) (elem : Layout) (len : Z)
    : prog words (option (result claimed PoolReserveError)) :=
  match layout_array elem len with
  | None => Ret (Some (Err BlockTooLarge))
  | Some layout => claim p layout
  end.

(** ** Releasing and handing over *)

(** [PoolRef::release]: the outcome of the exchange; [None] is a panic of the
    indexing or of [unwrap]. *)
Definition release (p : PoolRef) (class slot generation : Z) : prog words (option bool) :=
  match classes (pr_geometry p) !! Z.to_nat class, State_local generation (pr_owner p) with
  | Some _, Some local =>
    act r <- cas_word class slot local (State_free generation); Ret (Some (is_ok r))
  | _, _ => Ret None
  end.

(** [Drop for Allocation] *)
Definition drop_allocation (p : PoolRef) (a : Allocation) : prog words (option bool) :=
  if al_live a then release p (al_class a) (al_slot a) (al_generation a) else Ret (Some true).

(** [Allocation::detach] *)
Definition detach (p : PoolRef) (a : Allocation)
    : prog words (option (result Allocation AdoptError)) :=
  if negb (al_live a) then Ret (Some (Ok a)) else
  match classes (pr_geometry p) !! Z.to_nat (al_class a), State_local (al_generation a) (pr_owner p) with
  | Some _, Some local =>
    act r <- cas_word (al_class a) (al_slot a) local (State_detached (al_generation a));
    Ret (Some (if is_ok r then Ok (mkAllocation (al_class a) (al_slot a) (al_generation a) false)
               else Err AdoptOwned))
  | _, _ => Ret None
  end.

(** [Block::transfer_with]: the token that stands for an allocation. *)
Definition transfer_token (p : PoolRef) (a : Allocation) (m : Metadata) (id : Z) : PoolToken :=
  PoolToken_new (pr_id p) (mkSpan (al_class a) (al_slot a)) (al_generation a) m id.

(** [PoolRef::takeover] *)
Definition takeover (p : PoolRef) (t : PoolToken)
    : prog words (option (result Allocation AdoptError)) :=
  if tok_generation t =? 0 then
    Ret (Some (if bool_decide (tok_pool t = pr_id p) then Ok Allocation_empty else Err AdoptPool))
  else if MAX_GENERATION <? tok_generation t then Ret (Some (Err AdoptOwned))
  else if negb (bool_decide (tok_pool t = pr_id p)) then Ret (Some (Err AdoptPool))
  else
  match classes (pr_geometry p) !! Z.to_nat (span_class (tok_span t)) with
  | None => Ret (Some (Err AdoptSpan))
  | Some class =>
    if slots class <=? span_slot (tok_span t) then Ret (Some (Err AdoptSpan)) else
    match State_local (tok_generation t) (pr_owner p) with
    | None => Ret None
    | Some local =>
      act r <- cas_word (span_class (tok_span t)) (span_slot (tok_span t))
                 (State_detached (tok_generation t)) local;
      Ret (Some (if is_ok r then
        Ok (mkAllocation (span_class (tok_span t)) (span_slot (tok_span t)) (tok_generation t) true)
        else Err AdoptOwned))
    end
  end.

(** [PoolRef::adopt_id] for a type of shape [s]: the allocation and the offset
    of its bytes. *)
Definition adopt_id (p : PoolRef) (s : Shape) (t : PoolToken) (expected : Z)
    : prog words (option (result claimed AdoptError)) :=
  if negb (tok_id t =? expected) then Ret (Some (Err AdoptType)) else
  match token_metadata t with
  | None => Ret (Some (Err AdoptType))
  | Some m =>
    match shape_layout s m with
    | Err _ => Ret (Some (Err AdoptType))
    | Ok layout =>
      if size layout =? 0 then
        do r <- takeover p t;
        Ret (option_map (λ r, let? a := r in Ok (a, align layout)) r)
      else
      match classes (pr_geometry p) !! Z.to_nat (span_class (tok_span t)) with
      | None => Ret (Some (Err AdoptSpan))
      | Some class =>
        if (tok_generation t =? 0) || (slots class <=? span_slot (tok_span t))
           || (bytes class <? size layout) || (bytes class <? align layout)
        then Ret (Some (Err AdoptSpan))
        else
          do r <- takeover p t;
          Ret (option_map (λ r, let? a := r in Ok (a, Class_payload class (span_slot (tok_span t)))) r)
      end
    end
  end.

(** ** Recovery *)

(** The loop on one control word of [Storage::recover]; each element of
    [attempts] is one turn and says whether its exchange fails spuriously.
    [None] when the attempts run out. *)
Fixpoint recover_word (dead c s : Z) (attempts : list bool) (raw : Z) : prog words (option bool) :=
  if negb (State_canonical raw) then Ret (Some false)
  else if negb (State_allocated raw) || negb (bool_decide (State_owner raw = Some dead)) then
    Ret (Some true)
  else
  match attempts with
  | [] => Ret None
  | spurious :: attempts =>
    act r <- cas_weak spurious c s raw (State_free (State_generation raw));
    match r with
    | Ok _ => Ret (Some true)
    | Err observed => recover_word dead c s attempts observed
    end
  end.

(** [Storage::recover] over the given words. *)
Fixpoint recover_words (dead : Z) (attempts : list bool) (at_ : list (Z * Z)) : prog words (option bool) :=
  match at_ with
  | [] => Ret (Some true)
  | (c, s) :: rest =>
    act raw <- load_word c s;
    do r <- recover_word dead c s attempts raw;
    match r with
    | Some true => recover_words dead attempts rest
    | r => Ret r
    end
  end.

(** The control words of a geometry, class by class. *)
Definition all_words (g : Geometry) : list (Z * Z) :=
  concat (imap (λ i c, (λ s, (Z.of_nat i, s)) <$> seqZ 0 (slots c)) (classes g)).

Definition Storage_recover (header : Layout) (info : PoolInfo) (extent dead : Z) (attempts : list bool)
    : prog words (option bool) :=
  match recorded header info extent with
  | None => Ret None
  | Some None => Ret (Some false)
  | Some (Some g) => recover_words dead attempts (all_words g)
  end.

(** The loop of [release_token]. *)
Fixpoint release_word (generation : Z) (owner : option Z) (c s : Z) (attempts : list bool) (raw : Z)
    : prog words (option bool) :=
  if negb (State_canonical raw) || (State_generation raw <? generation) then Ret (Some false)
  else if (generation <? State_generation raw) || negb (State_allocated raw) then Ret (Some true)
  else if bool_decide (is_Some (State_owner raw)) && negb (bool_decide (State_owner raw = owner)) then
    Ret (Some false)
  else
  match attempts with
  | [] => Ret None
  | spurious :: attempts =>
    act r <- cas_weak spurious c s raw (State_free generation);
    match r with
    | Ok _ => Ret (Some true)
    | Err observed => release_word generation owner c s attempts observed
    end
  end.

(** [release_token]; [found] is what [inspect_layout] finds at the token's
    pool, the record and the extent of its storage. *)
Definition release_token (header : Layout) (found : option (PoolInfo * Z)) (t : PoolToken)
    (owner : option Z) (attempts : list bool) : prog words (option bool) :=
  if tok_generation t =? 0 then Ret (Some (bool_decide (is_Some found))) else
  if (MAX_GENERATION <? tok_generation t) || bool_decide (token_metadata t = None) then Ret (Some false)
  else
  match found with
  | None => Ret (Some false)
  | Some (info, extent) =>
    match recorded header info extent with
    | None => Ret None
    | Some None => Ret (Some false)
    | Some (Some g) =>
      match classes g !! Z.to_nat (span_class (tok_span t)) with
      | None => Ret (Some false)
      | Some class =>
        if slots class <=? span_slot (tok_span t) then Ret (Some false) else
        act raw <- load_word (span_class (tok_span t)) (span_slot (tok_span t));
        release_word (tok_generation t) owner (span_class (tok_span t)) (span_slot (tok_span t))
          attempts raw
      end
    end
  end.
