(* ===== verification/PoolConc.v ===== *)
(** * Exclusive authority over blocks

    Clients of one pool, interleaved at every atomic access, never hold the
    same block, and no release or hand-over of a held block can fail. *)

From S2P Require Import Prelude Atomic Alloc Schema Token Pool PoolOps.

(** ** Words and what they stand for *)

(** Who a control word says the block belongs to. *)
Inductive auth := Free | Local (owner : Z) | Detached.

Definition auth_bits (a : auth) : Z :=
  match a with Free => 0 | Detached => 64 | Local o => 65 + o end.

Definition auth_ok (a : auth) : Prop :=
  match a with Local o => 0 ≤ o < PARTICIPANT_CAPACITY | _ => True end.

Definition enc (g : Z) (a : auth) : Z := pack g 7 (auth_bits a).

Definition gen_ok (g : Z) : Prop := 0 ≤ g ≤ MAX_GENERATION.

Section Words.
Lemma auth_bits_range a : auth_ok a → 0 ≤ auth_bits a < 2 ^ 7.
Proof. destruct a; simpl; unfold PARTICIPANT_CAPACITY, usize_bits; lia. Qed.

Lemma gen_shift g : gen_ok g → wrap 32 (Z.shiftl g GENERATION_SHIFT) = Z.shiftl g 7.
Proof.
  intros Hg. apply wrap_small. unfold is_word, gen_ok in *.
  change MAX_GENERATION with (2 ^ 25 - 1) in Hg. change GENERATION_SHIFT with 7.
  rewrite Z.shiftl_mul_pow2 by lia. change (2 ^ 32) with (2 ^ 25 * 2 ^ 7). lia.
Qed.

Lemma enc_free g : gen_ok g → State_free g = enc g Free.
Proof.
  intros Hg. unfold State_free, enc, pack. rewrite gen_shift by done. simpl. by rewrite Z.lor_0_r.
Qed.

Lemma enc_detached g : gen_ok g → State_detached g = enc g Detached.
Proof. intros Hg. unfold State_detached, enc, pack. by rewrite gen_shift. Qed.

Lemma enc_local g o : gen_ok g → 0 ≤ o < PARTICIPANT_CAPACITY → State_local g o = Some (enc g (Local o)).
Proof.
  intros Hg Ho. unfold State_local. destruct (Z.ltb_spec MAX_GENERATION g); [unfold gen_ok in *; lia|].
  destruct (Z.leb_spec PARTICIPANT_CAPACITY o); [lia|]. simpl. f_equal.
  rewrite gen_shift by done. unfold enc, pack. rewrite <- Z.lor_assoc. f_equal.
  assert (Hall : all_below 63 (λ o, Z.lor ALLOCATED (o + 1) =? auth_bits (Local o)) = true) by reflexivity.
  apply (all_below_spec _ _ o) in Hall; [|done]. cbv beta in Hall. by bools.
Qed.

Lemma local_none g o : State_local g o = None ↔ MAX_GENERATION < g ∨ PARTICIPANT_CAPACITY ≤ o.
Proof.
  unfold State_local. destruct (Z.ltb_spec MAX_GENERATION g), (Z.leb_spec PARTICIPANT_CAPACITY o);
    simpl; split; intros; first [done | lia].
Qed.

Lemma enc_generation g a : auth_ok a → State_generation (enc g a) = g.
Proof.
  intros Ha. unfold State_generation. change GENERATION_SHIFT with 7.
  apply pack_hi; [lia|]. by apply auth_bits_range.
Qed.

Lemma enc_low g a m : auth_ok a → 0 ≤ m ≤ 7 →
  Z.land (enc g a) (Z.ones m) = Z.land (auth_bits a) (Z.ones m).
Proof.
  intros Ha Hm. pose proof (auth_bits_range a Ha). unfold enc.
  rewrite !Z.land_ones, pack_add by lia.
  replace (g * 2 ^ 7 + auth_bits a) with (auth_bits a + (g * 2 ^ (7 - m)) * 2 ^ m).
  - apply Z.mod_add. pose proof (pow2_pos m). lia.
  - rewrite <- Z.mul_assoc, <- Z.pow_add_r by lia. replace (7 - m + m) with 7 by lia. lia.
Qed.

Lemma enc_owner g a : auth_ok a →
  State_owner (enc g a) = match a with Local o => Some o | _ => None end.
Proof.
  intros Ha. unfold State_owner. change OWNER_MASK with (Z.ones 6). rewrite enc_low by (done || lia).
  destruct a as [|o|]; try reflexivity. simpl in Ha.
  assert (Hall : all_below 63 (λ o, Z.land (auth_bits (Local o)) (Z.ones 6) =? o + 1) = true) by reflexivity.
  apply (all_below_spec _ _ o) in Hall; [|done]. cbv beta in Hall. bools. rewrite Hall.
  destruct (Z.eqb_spec (o + 1) 0); [lia|]. f_equal. lia.
Qed.

Lemma enc_allocated g a : auth_ok a →
  State_allocated (enc g a) = match a with Free => false | _ => true end.
Proof.
  intros Ha. unfold State_allocated.
  assert (Z.land (enc g a) ALLOCATED = Z.land (Z.land (enc g a) (Z.ones 7)) ALLOCATED) as ->.
  { rewrite <- Z.land_assoc. f_equal. }
  rewrite enc_low by (done || lia).
  destruct a as [|o|]; try reflexivity. simpl in Ha.
  assert (Hall : all_below 63 (λ o, negb (Z.land (Z.land (auth_bits (Local o)) (Z.ones 7)) ALLOCATED =? 0)) = true)
    by reflexivity.
  by apply (all_below_spec _ _ o) in Hall.
Qed.

Lemma enc_canonical g a : auth_ok a → State_canonical (enc g a) = true.
Proof.
  intros Ha. unfold State_canonical. rewrite enc_allocated, enc_owner by done. by destruct a.
Qed.

Lemma enc_inj g a g' a' : auth_ok a → auth_ok a' → enc g a = enc g' a' → g = g' ∧ a = a'.
Proof.
  intros Ha Ha' E. pose proof (enc_owner g a Ha) as Ho. pose proof (enc_allocated g a Ha) as Hl.
  rewrite E, enc_owner in Ho by done. rewrite E, enc_allocated in Hl by done.
  split; [by rewrite <- (enc_generation g a Ha), E, enc_generation|].
  destruct a, a'; congruence.
Qed.
End Words.

(** A canonical authority word says exactly one thing: it is the word of
    its generation for a free block, a block detached in a token, or a block of
    one participant; the accessors give that generation and owner back; and a
    word with an owner and no allocation is not canonical. *)
Theorem state_word_meaning s :
  is_word 32 s →
  (State_canonical s = true ↔
    ∃ a, auth_ok a ∧ s = enc (State_generation s) a) ∧
  ∀ g a, gen_ok g → auth_ok a →
    State_canonical (enc g a) = true ∧ State_generation (enc g a) = g ∧
    State_owner (enc g a) = match a with Local o => Some o | _ => None end ∧
    match a with
    | Free => State_free g = enc g a
    | Detached => State_detached g = enc g a
    | Local o => State_local g o = Some (enc g a)
    end.
Proof.
  intros Hs. split.
  - split.
    + intros Hc. assert (Hlow : 0 ≤ Z.land s (Z.ones 7) < 2 ^ 7).
      { rewrite Z.land_ones by lia. by apply Z.mod_pos_bound. }
      assert (E : s = pack (State_generation s) 7 (Z.land s (Z.ones 7))).
      { symmetry. apply unpack_pack; [lia|apply Hs]. }
      set (lo := Z.land s (Z.ones 7)) in *.
      assert (Hlo : Z.land s OWNER_MASK = Z.land lo OWNER_MASK ∧ Z.land s ALLOCATED = Z.land lo ALLOCATED).
      { unfold lo. by rewrite <- !Z.land_assoc. }
      unfold State_canonical, State_allocated, State_owner in Hc. destruct Hlo as [Ho Hl].
      rewrite Ho, Hl in Hc.
      assert (Hall : all_below 128 (λ l,
        implb (negb (Z.land l ALLOCATED =? 0) || match (if Z.land l OWNER_MASK =? 0 then None
               else Some (Z.land l OWNER_MASK - 1)) with None => true | Some _ => false end)
          ((l =? 0) || (64 <=? l))) = true) by reflexivity.
      apply (all_below_spec _ _ lo) in Hall; [|done]. cbv beta in Hall. rewrite Hc in Hall. simpl in Hall.
      apply orb_true_iff in Hall as [H0|H0]; bools.
      * exists Free. split; [done|]. rewrite H0 in E. exact E.
      * destruct (decide (lo = 64)) as [E64|Hne].
        -- exists Detached. split; [done|]. rewrite E64 in E. exact E.
        -- exists (Local (lo - 65)). split; [simpl; unfold PARTICIPANT_CAPACITY, usize_bits; lia|].
           unfold enc. simpl. replace (65 + (lo - 65)) with lo by lia. exact E.
    + intros (a & Ha & ->). by apply enc_canonical.
  - intros g a Hg Ha. split_and!; [by apply enc_canonical|by apply enc_generation|by apply enc_owner|].
    destruct a; [by apply enc_free|by apply enc_local|by apply enc_detached].
Qed.

Lemma state_word_meaning_witness :
  is_word 32 (enc 7 (Local 3)) ∧ State_canonical (enc 7 (Local 3)) = true ∧
  ∃ a, auth_ok a ∧ enc 7 (Local 3) = enc (State_generation (enc 7 (Local 3))) a.
Proof.
  split; [by_eval|]. split; [reflexivity|].
  apply (proj1 (state_word_meaning (enc 7 (Local 3)) ltac:(by_eval))). reflexivity.
Defined.

(** ** Auxiliary state *)

Inductive holder_of := HFree | HToken | HThread (t : nat).

#[export] Instance holder_of_eq_dec : EqDecision holder_of.
Proof. solve_decision. Defined.

Record gword := mkGword { gen : Z; held_by : holder_of }.

Abbreviation ghost := (list (list gword)).

Definition look (G : ghost) (c s : Z) : option gword := G !! Z.to_nat c ≫= λ row, row !! Z.to_nat s.

Definition upd (G : ghost) (c s : Z) (w : gword) : ghost :=
  alter (λ row, <[Z.to_nat s := w]> row) (Z.to_nat c) G.

(** What thread [t] may do to a word in one action. *)
Inductive word_step (t : nat) : gword → gword → Prop :=
| ws_claim g : g < MAX_GENERATION → word_step t (mkGword g HFree) (mkGword (g + 1) (HThread t))
| ws_release g : word_step t (mkGword g (HThread t)) (mkGword g HFree)
| ws_detach g : word_step t (mkGword g (HThread t)) (mkGword g HToken)
| ws_take g : word_step t (mkGword g HToken) (mkGword g (HThread t)).

Inductive pguar (t : nat) (G : ghost) : ghost → Prop :=
| pg_id : pguar t G G
| pg_word c s w w' : look G c s = Some w → word_step t w w' → pguar t G (upd G c s w').

Definition prely (t : nat) : ghost → ghost → Prop := rely_of pguar t.

Lemma look_upd G c s w c' s' :
  is_Some (look G c s) → 0 ≤ c → 0 ≤ s → 0 ≤ c' → 0 ≤ s' →
  look (upd G c s w) c' s' = if decide (c' = c ∧ s' = s) then Some w else look G c' s'.
Proof.
  intros [w0 Hw0] Hc Hs Hc' Hs'. unfold look, upd in *.
  destruct (G !! Z.to_nat c) as [row|] eqn:Hrow; [|done]. simpl in Hw0.
  destruct (decide (c' = c)) as [->|Hne].
  - rewrite list_lookup_alter_eq, Hrow. simpl. destruct (decide (s' = s)) as [->|Hns].
    + rewrite list_lookup_insert_eq by (by eapply lookup_lt_Some). by rewrite decide_True.
    + rewrite list_lookup_insert_ne by lia. rewrite decide_False by tauto. done.
  - rewrite list_lookup_alter_ne by lia. by rewrite decide_False by tauto.
Qed.

Section Authority.
Context (geo : Geometry) (id : LayoutId) (own : nat → Z).
Context (Hown : ∀ t, 0 ≤ own t < PARTICIPANT_CAPACITY).

(** The pool as thread [t] sees it. *)
Definition pref (t : nat) : PoolRef := mkPoolRef geo id (own t).

Definition auth_of (h : holder_of) : auth :=
  match h with HFree => Free | HToken => Detached | HThread t => Local (own t) end.

Definition gword_enc (w : gword) : Z := enc (gen w) (auth_of (held_by w)).

Lemma auth_of_ok h : auth_ok (auth_of h).
Proof. destruct h; simpl; [done|done|apply Hown]. Qed.

Record pinv (G : ghost) (W : words) : Prop := {
  pinv_words : W = (λ row : list gword, gword_enc <$> row) <$> G;
  pinv_gen c s w : look G c s = Some w → gen_ok (gen w);
  pinv_shape c class : classes geo !! c = Some class →
    ∃ row, G !! c = Some row ∧ length row = Z.to_nat (slots class);
}.

Lemma pinv_word G W c s w : pinv G W → look G c s = Some w → word_at W c s = gword_enc w.
Proof.
  intros HI Hl. unfold word_at, look in *. rewrite (pinv_words _ _ HI).
  rewrite list_lookup_fmap. destruct (G !! Z.to_nat c) as [row|]; [|done]. simpl in *.
  rewrite list_lookup_fmap, Hl. done.
Qed.

Lemma pinv_slot G W c class s :
  pinv G W → classes geo !! Z.to_nat c = Some class → 0 ≤ s < slots class →
  is_Some (look G c s).
Proof.
  intros HI Hc Hs. destruct (pinv_shape _ _ HI _ _ Hc) as (row & Hrow & Hlen).
  unfold look. rewrite Hrow. simpl. apply lookup_lt_is_Some_2. lia.
Qed.

Lemma pinv_upd G W c s w w' :
  pinv G W → look G c s = Some w → gen_ok (gen w') →
  pinv (upd G c s w') (set_word W c s (gword_enc w')).
Proof.
  intros HI Hl Hg. destruct HI as [HW Hgen Hsh]. split.
  - rewrite HW. unfold set_word, upd. apply list_eq. intros i.
    destruct (decide (i = Z.to_nat c)) as [->|Hne].
    + rewrite list_lookup_alter_eq, !list_lookup_fmap, list_lookup_alter_eq.
      destruct (G !! Z.to_nat c) as [row|]; [|done]. simpl. by rewrite list_fmap_insert.
    + rewrite list_lookup_alter_ne, !list_lookup_fmap, list_lookup_alter_ne by done. done.
  - intros c' s' w1 Hw1. unfold look, upd in *.
    destruct (decide (Z.to_nat c' = Z.to_nat c)) as [E|Hne].
    + rewrite E, list_lookup_alter_eq in Hw1. destruct (G !! Z.to_nat c) as [row|] eqn:Hrow; [|done].
      simpl in Hw1. apply list_lookup_insert_Some in Hw1 as [(_ & <- & _)|[_ Hw1]]; [done|].
      apply (Hgen c s'). by rewrite Hrow.
    + rewrite list_lookup_alter_ne in Hw1 by done. by apply (Hgen c' s').
  - intros i class Hi. destruct (Hsh _ _ Hi) as (row & Hrow & Hlen). unfold upd.
    destruct (decide (i = Z.to_nat c)) as [->|Hne].
    + rewrite list_lookup_alter_eq, Hrow. simpl. eexists. split; [done|]. by rewrite length_insert.
    + rewrite list_lookup_alter_ne by done. eauto.
Qed.

(** ** What a thread holds *)

Definition mine (t : nat) (a : Allocation) (G : ghost) : Prop :=
  (0 ≤ al_class a ∧ gen_ok (al_generation a)) ∧ 0 ≤ al_slot a ∧
  is_Some (classes geo !! Z.to_nat (al_class a)) ∧
  look G (al_class a) (al_slot a) = Some (mkGword (al_generation a) (HThread t)).

Definition place (a : Allocation) : Z * Z := (al_class a, al_slot a).

(** [t] holds the live ones among [hs], all different. *)
Record holds (t : nat) (hs : list Allocation) (G : ghost) : Prop := {
  holds_mine a : a ∈ hs → al_live a = true → mine t a G;
  holds_apart : NoDup (place <$> filter (λ a, al_live a = true) hs);
}.

Lemma stable_pguar t (P : ghost → Prop) :
  (∀ t' G G', t' ≠ t → pguar t' G G' → P G → P G') → stable prely t P.
Proof. apply stable_of. Qed.

Lemma mine_upd t a G c s w w' :
  mine t a G → look G c s = Some w → held_by w ≠ HThread t → 0 ≤ c → 0 ≤ s → mine t a (upd G c s w').
Proof.
  intros ([Hc Hg] & Hs & Hcl & Hl) Hw Hne Hc' Hs'. split_and!; try done.
  rewrite look_upd; [|by eexists|done..]. rewrite decide_False; [done|].
  intros [E1 E2]. rewrite E1, E2, Hw in Hl. injection Hl as ->. by apply Hne.
Qed.

Lemma look_nat G c s w : look G c s = Some w →
  look G (Z.of_nat (Z.to_nat c)) (Z.of_nat (Z.to_nat s)) = Some w.
Proof. unfold look. by rewrite !Nat2Z.id. Qed.

Lemma upd_nat G c s w : upd G (Z.of_nat (Z.to_nat c)) (Z.of_nat (Z.to_nat s)) w = upd G c s w.
Proof. unfold upd. by rewrite !Nat2Z.id. Qed.

Lemma mine_stable t a : stable prely t (mine t a).
Proof.
  apply stable_pguar. intros t' G G' Hne Hg HM. destruct Hg as [|c s w w' Hl Hs]; [done|].
  rewrite <- upd_nat. eapply mine_upd; [done|by apply look_nat| |lia|lia].
  destruct Hs; simpl; congruence.
Qed.

(** Only a thread itself makes itself the holder of a word. *)
Lemma not_holder_stable t c s : stable prely t (λ G, ∀ g, look G c s ≠ Some (mkGword g (HThread t))).
Proof using.
  apply stable_pguar. intros t' G G' Hne Hg HP. destruct Hg as [|c' s' w w' Hl Hs]; [done|]. intros g.
  destruct (decide (Z.to_nat c' = Z.to_nat c ∧ Z.to_nat s' = Z.to_nat s)) as [[E1 E2]|Hd].
  - unfold look, upd in *. rewrite E1, list_lookup_alter_eq in *. destruct (G !! Z.to_nat c) as [row|]; [|done]. simpl in *. rewrite E2 in *.
    rewrite list_lookup_insert_eq by (by eapply lookup_lt_Some). destruct Hs; intros [=]; congruence.
  - specialize (HP g). unfold look, upd in *. destruct (decide (Z.to_nat c' = Z.to_nat c)) as [E1|Hn].
    + rewrite E1, list_lookup_alter_eq. destruct (G !! Z.to_nat c) as [row|]; [|done]. simpl in *. rewrite list_lookup_insert_ne; [done|tauto].
    + by rewrite list_lookup_alter_ne.
Qed.

Lemma holds_stable t hs : stable prely t (holds t hs).
Proof.
  intros G G' HR [Hm Ha]. split; [|done]. intros a Hin Hl. by eapply mine_stable; [|apply Hm].
Qed.

Lemma holds_nil t G : holds t [] G.
Proof. split; [by intros a ?%not_elem_of_nil|constructor]. Qed.

(** Two threads, or two live allocations of one, never meet at a block. *)
Lemma mine_apart t t' a a' G : t ≠ t' → mine t a G → mine t' a' G → place a ≠ place a'.
Proof.
  intros Hne (_ & _ & _ & Hl) (_ & _ & _ & Hl') E. injection E as E1 E2.
  rewrite E1, E2, Hl' in Hl. congruence.
Qed.

(** ** The operations, under interference *)

#[local] Abbreviation wp := (wp pinv prely).

(** A live allocation of a thread, at a word nobody else held. *)
Lemma holds_cons t hs G c s g w :
  holds t hs G → gen_ok g → 0 ≤ c → 0 ≤ s → is_Some (classes geo !! Z.to_nat c) →
  look G c s = Some w → held_by w ≠ HThread t →
  holds t (mkAllocation c s g true :: hs) (upd G c s (mkGword g (HThread t))).
Proof.
  intros [Hm Ha] Hg Hc Hs Hcl Hl Hne. split.
  - intros a [->|Hin]%elem_of_cons Hlive.
    + split_and!; try done. simpl. rewrite look_upd by (done || by eexists). by rewrite decide_True.
    + eapply mine_upd; eauto.
  - rewrite filter_cons_True by done. simpl. constructor; [|done].
    intros (a & E & Hin)%list_elem_of_fmap. apply list_elem_of_filter in Hin as [Hlive Hin].
    destruct (Hm a Hin Hlive) as (_ & _ & _ & Hl'). injection E as E1 E2.
    rewrite <- E1, <- E2, Hl in Hl'. injection Hl' as ->. by apply Hne.
Qed.

(** Giving up the [n]-th allocation. *)
Lemma holds_delete t hs G n a w :
  holds t hs G → hs !! n = Some a → al_live a = true → 
  holds t (delete n hs) (upd G (al_class a) (al_slot a) w).
Proof.
  intros [Hm Ha] Hn Hlive. pose proof (Hm a (list_elem_of_lookup_2 _ _ _ Hn) Hlive) as ([Hc _] & Hs & Hcl & Hl).
  rewrite delete_take_drop. rewrite <- (take_drop_middle _ _ _ Hn) in Ha.
  rewrite filter_app, filter_cons_True, fmap_app, fmap_cons in Ha by done.
  apply NoDup_app in Ha as (Ha1 & Hapart & Ha2). apply NoDup_cons in Ha2 as [Hnin Ha2]. split.
  - intros a' Hin Hlive'.
    assert (Hin' : a' ∈ hs).
    { rewrite <- (take_drop_middle _ _ _ Hn). rewrite elem_of_app, elem_of_cons.
      apply elem_of_app in Hin as [?|?]; auto. }
    destruct (Hm a' Hin' Hlive') as ([Hc' Hg'] & Hs' & Hcl' & Hl'). split_and!; try done.
    rewrite look_upd by (done || by eexists). rewrite decide_False; [done|].
    intros [E1 E2]. assert (E : place a' = place a) by (unfold place; congruence).
    apply elem_of_app in Hin as [Hin|Hin].
    + apply (Hapart (place a')); [|rewrite E; apply elem_of_cons; by left].
      apply list_elem_of_fmap_2. by apply list_elem_of_filter.
    + apply Hnin. rewrite <- E. apply list_elem_of_fmap_2. by apply list_elem_of_filter.
  - rewrite filter_app, fmap_app. apply NoDup_app. split_and!; [done| |done].
    intros x Hx Hx'. apply (Hapart x Hx). apply elem_of_cons. by right.
Qed.

Lemma gword_enc_free w : State_canonical (gword_enc w) && negb (State_allocated (gword_enc w)) = true →
  held_by w = HFree.
Proof.
  unfold gword_enc. pose proof (auth_of_ok (held_by w)) as Ha.
  rewrite enc_canonical, enc_allocated by done. by destruct (held_by w).
Qed.

Lemma gword_enc_inj w w' : gword_enc w = gword_enc w' → gen w = gen w' ∧
  auth_of (held_by w) = auth_of (held_by w').
Proof. apply enc_inj; apply auth_of_ok. Qed.

Definition claim_ok (t : nat) (hs : list Allocation) (r : option (result claimed PoolReserveError))
    (G : ghost) : Prop :=
  match r with
  | Some (Ok (a, _)) => holds t (a :: hs) G
  | Some (Err _) => holds t hs G
  | None => False
  end.

Lemma probe_spec t hs index class probes next G :
  0 ≤ index → classes geo !! Z.to_nat index = Some class →
  (∀ s, s ∈ probes → 0 ≤ s < slots class) →
  holds t hs G → (∀ G, holds t hs G → wp t next (claim_ok t hs) G) →
  wp t (probe (own t) index class probes next) (claim_ok t hs) G.
Proof.
  intros Hi Hcl Hin HH Hnext. revert G HH.
  induction probes as [|slot probes IH]; intros G HH; simpl; [by apply Hnext|].
  assert (Hs : 0 ≤ slot < slots class) by (apply Hin, elem_of_cons; by left).
  assert (IH' : ∀ G, holds t hs G → wp t (probe (own t) index class probes next) (claim_ok t hs) G).
  { apply IH. intros s ?. apply Hin, elem_of_cons. by right. }
  clear IH. eapply wp_read; [constructor|exact HH|apply holds_stable|done|]. clear G HH.
  intros G W HH HI. cbn [load_word fst].
  destruct (pinv_slot _ _ _ _ _ HI Hcl Hs) as [w Hw]. rewrite (pinv_word _ _ _ _ _ HI Hw).
  set (free := gword_enc w). destruct (State_local _ (own t)) as [local|] eqn:El; [|by apply IH'].
  destruct (State_canonical free && negb (State_allocated free) && (State_generation free <? MAX_GENERATION))
    eqn:Et; [|by apply IH'].
  apply andb_true_iff in Et as [Efree Egen].
  assert (Hfree : held_by w = HFree) by (by apply gword_enc_free). bools.
  assert (Hg : State_generation free = gen w) by apply enc_generation, auth_of_ok.
  rewrite Hg in *. pose proof (pinv_gen _ _ HI _ _ _ Hw) as Hgw.
  rewrite Z.min_l in * by (unfold gen_ok in *; change MAX_GENERATION with 33554431 in *; unfold u32_max; lia).
  assert (Hg1 : gen_ok (gen w + 1)) by (unfold gen_ok in *; lia).
  rewrite enc_local in El by (done || apply Hown). injection El as <-.
  eapply wp_act; [exact HH|apply holds_stable|]. clear G W HI Hw HH. intros G W HH HI.
  destruct (pinv_slot _ _ _ _ _ HI Hcl Hs) as [w' Hw']. unfold cas_word.
  rewrite (pinv_word _ _ _ _ _ HI Hw').
  destruct (Z.eqb_spec (gword_enc w') free) as [E|]; simpl.
  - apply gword_enc_inj in E as [Eg Ea]. rewrite Hfree in Ea. simpl in Ea.
    assert (Hf' : held_by w' = HFree) by (by destruct (held_by w')).
    exists (upd G index slot (mkGword (gen w + 1) (HThread t))). split_and!.
    + by apply (pinv_upd G W index slot w' (mkGword (gen w + 1) (HThread t))).
    + eapply pg_word; [done|]. destruct w' as [g' h']. simpl in *. subst. by constructor.
    + apply wp_ret. simpl. eapply holds_cons; eauto; [lia|]. by rewrite Hf'.
  - exists G. split_and!; [done|constructor|by apply IH'].
Qed.

Context (Hslots : ∀ c class, classes geo !! c = Some class → 0 < slots class).
Context (Hclasses : classes geo ≠ []).

Lemma probe_classes_spec t hs n cs G :
  cs = drop n (classes geo) → holds t hs G →
  wp t (probe_classes (own t) (Z.of_nat n) cs) (claim_ok t hs) G.
Proof.
  revert n G. induction cs as [|class cs IH]; intros n G Hcs HH; simpl; [by apply wp_ret|].
  assert (Hn : classes geo !! n = Some class).
  { rewrite <- (Nat.add_0_r n), <- lookup_drop, <- Hcs. done. }
  pose proof (Hslots _ _ Hn) as Hpos.
  destruct (Z.eqb_spec (slots class) 0); [lia|].
  apply probe_spec; [lia|by rewrite Nat2Z.id| |done|].
  - intros s (i & -> & _)%list_elem_of_fmap. by apply Z.mod_pos_bound.
  - clear G HH. intros G HH. replace (Z.of_nat n + 1) with (Z.of_nat (S n)) by lia.
    apply IH; [|done]. rewrite (drop_S _ _ _ Hn) in Hcs. by injection Hcs.
Qed.

Lemma pool_claim_spec t hs l G : holds t hs G → wp t (claim (pref t) l) (claim_ok t hs) G.
Proof.
  intros HH. unfold claim. split_if.
  { apply wp_ret. destruct HH as [Hm Ha]. split; [|by rewrite filter_cons_False].
    intros a [->|?]%elem_of_cons; [done|by apply Hm]. }
  destruct (checked_next_power_of_two _) as [needed|]; [|by apply wp_ret]. cbn [pr_geometry pref].
  destruct (classes geo !! 0%nat) as [first|] eqn:Ef.
  2: { by destruct (classes geo). }
  split_if; [by apply wp_ret|].
  set (n := Z.log2 (Z.max needed (bytes first)) - Z.log2 (bytes first)) in *.
  assert (0 ≤ n).
  { unfold n. assert (Z.log2 (bytes first) ≤ Z.log2 (Z.max needed (bytes first))); [|lia].
    apply Z.log2_le_mono. lia. }
  rewrite <- (Z2Nat.id n) at 1 by done. by apply probe_classes_spec.
Qed.

Lemma holds_forget t hs n a G :
  holds t hs G → hs !! n = Some a → al_live a = false → holds t (delete n hs) G.
Proof.
  intros [Hm Ha] Hn Hlive. rewrite delete_take_drop.
  assert (Hin : ∀ x, x ∈ take n hs ++ drop (S n) hs → x ∈ hs).
  { intros x Hx. rewrite <- (take_drop_middle _ _ _ Hn), elem_of_app, elem_of_cons.
    apply elem_of_app in Hx as [?|?]; auto. }
  split; [intros x Hx; by apply Hm, Hin|].
  rewrite <- (take_drop_middle _ _ _ Hn), filter_app, filter_cons_False in Ha by (by rewrite Hlive).
  by rewrite filter_app.
Qed.

(** An exchange on the word of a held allocation succeeds. *)
Lemma own_cas t hs n a h A (k : result unit Z → prog words A) Q G :
  holds t hs G → hs !! n = Some a → al_live a = true → h = HFree ∨ h = HToken →
  (∀ G, holds t (delete n hs) G → wp t (k (Ok tt)) Q G) →
  wp t (Act (cas_word (al_class a) (al_slot a) (enc (al_generation a) (Local (own t)))
               (enc (al_generation a) (auth_of h))) k) Q G.
Proof.
  intros HH Hn Hlive Hh HK. eapply wp_act; [exact HH|apply holds_stable|].
  clear G HH. intros G W HH HI.
  pose proof (holds_mine _ _ _ HH a (list_elem_of_lookup_2 _ _ _ Hn) Hlive) as ([Hc Hg] & Hs & _ & Hl).
  unfold cas_word. rewrite (pinv_word _ _ _ _ _ HI Hl).
  assert ((gword_enc (mkGword (al_generation a) (HThread t)) =? enc (al_generation a) (Local (own t)))
    = true) as -> by apply Z.eqb_refl. simpl. exists (upd G (al_class a) (al_slot a) (mkGword (al_generation a) h)).
  split_and!.
  - by apply (pinv_upd G W _ _ _ (mkGword (al_generation a) h) HI Hl).
  - eapply pg_word; [done|]. destruct Hh as [-> | ->]; constructor.
  - apply HK. by apply holds_delete.
Qed.

Lemma release_spec t hs n a G :
  holds t hs G → hs !! n = Some a →
  wp t (drop_allocation (pref t) a) (λ r G, r = Some true ∧ holds t (delete n hs) G) G.
Proof.
  intros HH Hn. unfold drop_allocation. destruct (al_live a) eqn:Hlive.
  2: { apply wp_ret. split; [done|]. by eapply holds_forget. }
  pose proof (holds_mine _ _ _ HH a (list_elem_of_lookup_2 _ _ _ Hn) Hlive) as ([Hc Hg] & Hs & [cl Hcl] & Hl).
  unfold release. cbn [pr_geometry pr_owner pref]. rewrite Hcl, enc_local, enc_free by (done || apply Hown).
  apply (own_cas t hs n a HFree); [done|done|done|by left|]. intros G' HH'. by apply wp_ret.
Qed.

Lemma detach_spec t hs n a G :
  holds t hs G → hs !! n = Some a →
  wp t (detach (pref t) a)
    (λ r G, ∃ a', r = Some (Ok a') ∧ al_live a' = false ∧ holds t (delete n hs) G) G.
Proof.
  intros HH Hn. unfold detach. destruct (al_live a) eqn:Hlive; simpl.
  2: { apply wp_ret. exists a. split_and!; [done|done|]. by eapply holds_forget. }
  pose proof (holds_mine _ _ _ HH a (list_elem_of_lookup_2 _ _ _ Hn) Hlive) as ([Hc Hg] & Hs & [cl Hcl] & Hl).
  rewrite Hcl, enc_local, enc_detached by (done || apply Hown).
  apply (own_cas t hs n a HToken); [done|done|done|by right|]. intros G' HH'. apply wp_ret. eauto.
Qed.

(** A token as it can arrive: its fields are unsigned words. *)
Definition token_ok (tok : PoolToken) : Prop :=
  0 ≤ tok_generation tok ∧ 0 ≤ span_class (tok_span tok) ∧ 0 ≤ span_slot (tok_span tok).

Lemma takeover_spec t hs tok G :
  token_ok tok → holds t hs G →
  wp t (takeover (pref t) tok)
    (λ r G, match r with
     | Some (Ok a) => holds t (a :: hs) G
     | Some (Err _) => holds t hs G
     | None => False
     end) G.
Proof.
  intros (Hg0 & Hc & Hs0) HH. unfold takeover. cbn [pr_geometry pr_owner pr_id pref].
  split_if.
  { apply wp_ret. case_bool_decide; [|done]. destruct HH as [Hm Ha].
    split; [|by rewrite filter_cons_False]. intros a [->|?]%elem_of_cons; [done|by apply Hm]. }
  split_if; [by apply wp_ret|]. split_if; [by apply wp_ret|].
  destruct (classes geo !! Z.to_nat (span_class (tok_span tok))) as [class|] eqn:Hcl; [|by apply wp_ret].
  split_if; [by apply wp_ret|].
  assert (Hg : gen_ok (tok_generation tok)) by (unfold gen_ok; lia).
  rewrite enc_local, enc_detached by (done || apply Hown).
  eapply wp_act; [exact HH|apply holds_stable|]. clear G HH. intros G W HH HI.
  destruct (pinv_slot _ _ _ _ (span_slot (tok_span tok)) HI Hcl) as [w Hw]; [lia|].
  unfold cas_word. rewrite (pinv_word _ _ _ _ _ HI Hw).
  destruct (Z.eqb_spec (gword_enc w) (enc (tok_generation tok) Detached)) as [E|]; simpl.
  - apply (gword_enc_inj w (mkGword (tok_generation tok) HToken)) in E as [Eg Ea]. simpl in *.
    destruct w as [g h]. simpl in *. assert (h = HToken) as -> by (by destruct h). subst g.
    eexists (upd G _ _ (mkGword (tok_generation tok) (HThread t))). split_and!.
    + by apply (pinv_upd G W _ _ _ (mkGword (tok_generation tok) (HThread t)) HI Hw).
    + eapply pg_word; [done|constructor].
    + apply wp_ret. eapply holds_cons; eauto.
  - exists G. split_and!; [done|constructor|by apply wp_ret].
Qed.
End Authority.

(** ** Clients *)

Inductive pcmd :=
| PClaim (l : Layout)      (** claim a block for [l] *)
| PDrop (n : nat)          (** drop the [n]-th allocation held *)
| PSend (n : nat)          (** detach it into a token *)
| PTake (t : PoolToken).   (** take over the block of a token *)

Inductive pout :=
| PClaimed (a : Allocation) | PRefused | PReleased | PSent (t : PoolToken)
| PTaken (a : Allocation) | PNotTaken | PNothing
| PLost     (** an exchange on a held block failed *)
| PPanicked.

Definition pexec (p : PoolRef) (c : pcmd) (hs : list Allocation)
    : prog words (pout * list Allocation) :=
  match c with
  | PClaim l =>
    do r <- claim p l;
    Ret (match r with
         | Some (Ok (a, _)) => (PClaimed a, a :: hs)
         | Some (Err _) => (PRefused, hs)
         | None => (PPanicked, hs)
         end)
  | PDrop n =>
    match hs !! n with
    | None => Ret (PNothing, hs)
    | Some a =>
      do r <- drop_allocation p a;
      Ret (match r with Some true => PReleased | Some false => PLost | None => PPanicked end, delete n hs)
    end
  | PSend n =>
    match hs !! n with
    | None => Ret (PNothing, hs)
    | Some a =>
      do r <- detach p a;
      Ret (match r with
           | Some (Ok _) => PSent (transfer_token p a Sized 0)
           | Some (Err _) => PLost
           | None => PPanicked
           end, delete n hs)
    end
  | PTake tok =>
    do r <- takeover p tok;
    Ret (match r with
         | Some (Ok a) => (PTaken a, a :: hs)
         | Some (Err _) => (PNotTaken, hs)
         | None => (PPanicked, hs)
         end)
  end.

Fixpoint pclient (p : PoolRef) (cs : list pcmd) (hs : list Allocation) (os : list pout)
    : prog words (list pout * list Allocation) :=
  match cs with
  | [] => Ret (os, hs)
  | c :: cs => do r <- pexec p c hs; pclient p cs r.2 (os ++ [r.1])
  end.

(** A freshly initialized pool and one client per command list. *)
Definition pstart (geo : Geometry) (id : LayoutId) (own : nat → Z) (css : list (list pcmd))
    : cfg words (list pout * list Allocation) :=
  (init_words geo, imap (λ t cs, pclient (mkPoolRef geo id (own t)) cs [] []) css).

Record pool_ok (geo : Geometry) (own : nat → Z) (css : list (list pcmd)) : Prop := {
  pool_own t : 0 ≤ own t < PARTICIPANT_CAPACITY;
  pool_slots c class : classes geo !! c = Some class → 0 < slots class;
  pool_classes : classes geo ≠ [];
  pool_tokens cs tok : cs ∈ css → PTake tok ∈ cs → token_ok tok;
}.

Section Exclusive.
Context (geo : Geometry) (id : LayoutId) (own : nat → Z).

Definition pdone (t : nat) (r : list pout * list Allocation) (G : ghost) : Prop :=
  (PLost ∉ r.1) ∧ (PPanicked ∉ r.1) ∧ holds geo t r.2 G.

Lemma pdone_snoc t os o hs G :
  (PLost ∉ os) ∧ (PPanicked ∉ os) → o ≠ PLost → o ≠ PPanicked → holds geo t hs G →
  pdone t (os ++ [o], hs) G.
Proof.
  intros [? ?] ? ? ?. split_and!; simpl; [..|done];
    rewrite elem_of_app, list_elem_of_singleton; intros [?|?]; congruence.
Qed.

Lemma pclient_spec css t cs hs os G :
  pool_ok geo own css → (∀ tok, PTake tok ∈ cs → token_ok tok) →
  (PLost ∉ os) ∧ (PPanicked ∉ os) → holds geo t hs G →
  wp (pinv geo own) prely t (pclient (mkPoolRef geo id (own t)) cs hs os) (pdone t) G.
Proof.
  intros Hok. destruct Hok. revert hs os G.
  induction cs as [|c cs IH]; intros hs os G Htok Hos HH; simpl.
  { apply wp_ret. by destruct Hos. }
  assert (Hnext : ∀ o hs G, o ≠ PLost → o ≠ PPanicked → holds geo t hs G →
    wp (pinv geo own) prely t (pclient (mkPoolRef geo id (own t)) cs hs (os ++ [o])) (pdone t) G).
  { intros o hs' G' Hl Hp HH'. apply IH; [intros; apply Htok, elem_of_cons; by right| |done].
    by destruct (pdone_snoc t os o hs' G' Hos Hl Hp HH') as (? & ? & _). }
  destruct c as [l|n|n|tok]; simpl.
  - eapply wp_seq; [|intros r G' HQ; exact HQ]. eapply wp_seq; [by eapply (pool_claim_spec geo id own)|].
    cbv beta. intros [[[a off]|]|] G' HQ; [| |done]; apply wp_ret; by apply Hnext.
  - destruct (hs !! n) as [a|] eqn:Hn; [|by apply Hnext].
    eapply wp_seq; [|intros r G' HQ; exact HQ]. eapply wp_seq; [by eapply (release_spec geo id own)|].
    cbv beta. intros r G' [-> HQ]. apply wp_ret. by apply Hnext.
  - destruct (hs !! n) as [a|] eqn:Hn; [|by apply Hnext].
    eapply wp_seq; [|intros r G' HQ; exact HQ]. eapply wp_seq; [by eapply (detach_spec geo id own)|].
    cbv beta. intros r G' (a' & -> & _ & HQ). apply wp_ret. by apply Hnext.
  - eapply wp_seq; [|intros r G' HQ; exact HQ].
    eapply wp_seq; [eapply (takeover_spec geo id own); try done; apply Htok, elem_of_cons; by left|].
    cbv beta. intros [[a|]|] G' HQ; [| |done]; apply wp_ret; by apply Hnext.
Qed.

Lemma pinv_init css : pool_ok geo own css → 
  pinv geo own ((λ c, replicate (Z.to_nat (slots c)) (mkGword 0 HFree)) <$> classes geo) (init_words geo).
Proof.
  intros Hok. split.
  - unfold init_words. rewrite <- list_fmap_compose. apply list_fmap_ext. intros _ c _.
    unfold compose. cbv beta. by rewrite fmap_replicate.
  - intros c s w Hw. unfold look in Hw. rewrite list_lookup_fmap in Hw.
    destruct (classes geo !! Z.to_nat c) as [class|]; [|done]. simpl in Hw.
    apply lookup_replicate in Hw as [-> _]. done.
  - intros c class Hc. rewrite list_lookup_fmap, Hc. simpl. eexists. split; [done|].
    by rewrite length_replicate.
Qed.
(** Blocks of finished clients: words as the handles say, all different, and
    no exchange on them failed. *)
Definition exclusive (W : words) (ps : list (prog words (list pout * list Allocation))) : Prop :=
  (∀ t os hs, ps !! t = Some (Ret (os, hs)) →
    (PLost ∉ os) ∧ (PPanicked ∉ os) ∧
    NoDup (place <$> filter (λ a, al_live a = true) hs) ∧
    ∀ a, a ∈ hs → al_live a = true →
      word_at W (al_class a) (al_slot a) = enc (al_generation a) (Local (own t))) ∧
  ∀ t t' os os' hs hs' a a', t ≠ t' →
    ps !! t = Some (Ret (os, hs)) → ps !! t' = Some (Ret (os', hs')) →
    a ∈ hs → al_live a = true → a' ∈ hs' → al_live a' = true → place a ≠ place a'.

Lemma pdone_exclusive G W ps :
  pinv geo own G W → (∀ t r, ps !! t = Some (Ret r) → pdone t r G) → exclusive W ps.
Proof.
  intros HI Hd. split.
  - intros t os hs Ht. destruct (Hd _ _ Ht) as (Hl & Hp & [Hm Ha]). split_and!; try done.
    intros a Hin Hlive. destruct (Hm a Hin Hlive) as (_ & _ & _ & Hlk).
    by rewrite (pinv_word _ _ _ _ _ _ _ HI Hlk).
  - intros t t' os os' hs hs' a a' Hne Ht Ht' Ha Hla Ha' Hla'.
    destruct (Hd _ _ Ht) as (_ & _ & Hh). destruct (Hd _ _ Ht') as (_ & _ & Hh').
    eapply mine_apart; [exact Hne|by apply (holds_mine _ _ _ _ Hh)|by apply (holds_mine _ _ _ _ Hh')].
Qed.

Lemma pdone_stable t r : stable prely t (pdone t r).
Proof. intros G G' HR (? & ? & ?). split_and!; try done. by eapply holds_stable. Qed.

(** The invariant and every client's specification, at every moment. *)
Lemma pool_reach css W ps : pool_ok geo own css → creach (pstart geo id own css) (W, ps) →
  ∃ G, rg_ok (pinv geo own) prely pdone G (W, ps).
Proof.
  intros Hok Hreach. eapply (rg_sound (pinv geo own) prely) with (Q := pdone) in Hreach as (G & HG & _); [by exists G|..].
  - apply rely_of_refl.
  - apply rely_of_trans.
  - apply pdone_stable.
  - split; [by eapply pinv_init|]. intros t p Hp. simpl in Hp.
    apply list_lookup_imap_Some in Hp as (cs & Hcs & ->).
    eapply pclient_spec; [done| |split; apply not_elem_of_nil|apply holds_nil].
    intros tok Htok. eapply pool_tokens; [done| |exact Htok]. by eapply list_elem_of_lookup_2.
Qed.
End Exclusive.

(** Any number of clients of one pool, interleaved in any way: no release
    and no hand-over of a block a client holds ever fails, nothing panics, and
    when clients stop, the blocks they still hold are all different, each with
    its word naming the holder's participant and generation. *)
Theorem pool_exclusive geo id own css W ps :
  pool_ok geo own css →
  creach (pstart geo id own css) (W, ps) →
  (∀ t os hs, ps !! t = Some (Ret (os, hs)) →
    (PLost ∉ os) ∧ (PPanicked ∉ os) ∧
    NoDup (place <$> filter (λ a, al_live a = true) hs) ∧
    ∀ a, a ∈ hs → al_live a = true →
      word_at W (al_class a) (al_slot a) = enc (al_generation a) (Local (own t))) ∧
  ∀ t t' os os' hs hs' a a', t ≠ t' →
    ps !! t = Some (Ret (os, hs)) → ps !! t' = Some (Ret (os', hs')) →
    a ∈ hs → al_live a = true → a' ∈ hs' → al_live a' = true → place a ≠ place a'.
Proof.
  intros Hok Hreach. destruct (pool_reach geo id own css W ps Hok Hreach) as (G & HI & Hwp).
  apply (pdone_exclusive geo own G W ps HI). intros t r Ht. by apply (Hwp _ _ Ht).
Qed.

(** Two classes of 64 and 128 bytes. *)
Definition demo_geo : Geometry :=
  mkGeometry (mkLayout 4096 64) [mkClass 64 2 192 256; mkClass 128 2 384 512].
Definition demo_pool : LayoutId := mkLayoutId (mkRegionId 1 2) 64.
Definition demo_token : PoolToken := PoolToken_new demo_pool (mkSpan 0 0) 1 Sized 0.

Lemma pool_exclusive_witness :
  let c := sched (concat (replicate 12 [0; 1]%nat))
    (pstart demo_geo demo_pool (λ t, Z.of_nat t mod 63)
       [[PClaim (mkLayout 8 8); PClaim (mkLayout 100 4); PSend 1]; [PClaim (mkLayout 8 8); PTake demo_token]]) in
  (∃ os hs os' hs', c.2 = [Ret (os, hs); Ret (os', hs')] ∧ length hs' = 2%nat) ∧
  ∀ t os hs, c.2 !! t = Some (Ret (os, hs)) →
    (PLost ∉ os) ∧ (PPanicked ∉ os) ∧
    NoDup (place <$> filter (λ a, al_live a = true) hs) ∧
    ∀ a, a ∈ hs → al_live a = true →
      word_at c.1 (al_class a) (al_slot a) = enc (al_generation a) (Local (Z.of_nat t mod 63)).
Proof.
  intros c. split.
  { eexists _, _, _, _. split; [vm_compute; reflexivity|reflexivity]. }
  eapply (pool_exclusive demo_geo demo_pool (λ t, Z.of_nat t mod 63)
    [[PClaim (mkLayout 8 8); PClaim (mkLayout 100 4); PSend 1]; [PClaim (mkLayout 8 8); PTake demo_token]]
    c.1 c.2).
  - split.
    + intros t. by apply Z.mod_pos_bound.
    + intros [|[|n]] class; simpl; intros [= <-]; done.
    + discriminate.
    + intros cs tok Hcs Htok.
      assert (tok = demo_token) as ->; [|by_eval].
      repeat (apply elem_of_cons in Hcs as [->|Hcs];
        [repeat (apply elem_of_cons in Htok as [E|Htok]; [by (injection E as ->) || discriminate E|]);
         by apply not_elem_of_nil in Htok|]).
      by apply not_elem_of_nil in Hcs.
  - rewrite <- surjective_pairing. apply sched_reach.
Defined.
