(* ===== verification/PoolSeq.v ===== *)
(** * Pool operations run alone

    What one caller gets from [claim], [Storage::recover] and
    [release_token] when nobody interferes, on every branch. *)

From S2P Require Import Prelude Atomic Alloc Schema Token Pool PoolGeo PoolOps PoolConc.

Section Words.
Implicit Types W : words.

Lemma word_set W c s v c' s' :
  0 ≤ c → 0 ≤ s → 0 ≤ c' → 0 ≤ s' → word_at W c s ≠ 0 ∨ is_Some (W !! Z.to_nat c ≫= λ r, r !! Z.to_nat s) →
  word_at (set_word W c s v) c' s' = if decide (c' = c ∧ s' = s) then v else word_at W c' s'.
Proof.
  intros Hc Hs Hc' Hs' Hin. unfold word_at, set_word in *.
  destruct (decide (c' = c)) as [->|Hne].
  - rewrite list_lookup_alter_eq. destruct (W !! Z.to_nat c) as [row|] eqn:Hrow; simpl in *.
    + destruct (decide (s' = s)) as [->|Hns].
      * rewrite decide_True by done. rewrite list_lookup_insert_eq; [done|].
        destruct Hin as [Hin|[x Hx]]; [|by eapply lookup_lt_Some].
        destruct (row !! Z.to_nat s) eqn:E; [by eapply lookup_lt_Some|done].
      * rewrite list_lookup_insert_ne by lia. by rewrite decide_False by tauto.
    + destruct Hin as [?|[? ?]]; done.
  - rewrite list_lookup_alter_ne by lia. by rewrite decide_False by tauto.
Qed.

(** ** Recovery *)

(** What recovery makes of a word. *)
Definition recovered (dead w : Z) : Z :=
  if State_allocated w && bool_decide (State_owner w = Some dead) then State_free (State_generation w)
  else w.

Definition recover_at (dead : Z) W (cs : Z * Z) : words :=
  let w := word_at W cs.1 cs.2 in
  if State_allocated w && bool_decide (State_owner w = Some dead)
  then set_word W cs.1 cs.2 (State_free (State_generation w)) else W.

Lemma run_recover_word dead c s attempts W :
  State_canonical (word_at W c s) = true → In false attempts →
  run (recover_word dead c s attempts (word_at W c s)) W = (Some true, recover_at dead W (c, s)).
Proof.
  intros Hcan Hin. unfold recover_at. cbn [fst snd].
  induction attempts as [|b attempts IH]; [done|]. cbn [recover_word]. rewrite Hcan. cbn [negb].
  destruct (State_allocated (word_at W c s)) eqn:Ha; [|done]. cbn [negb orb andb].
  case_bool_decide as Ho; [|done]. cbn [negb orb]. destruct b; cbn [run cas_weak].
  - by rewrite IH by (by destruct Hin).
  - unfold cas_word. by rewrite Z.eqb_refl.
Qed.

Lemma recover_at_word dead W cs c s :
  0 ≤ cs.1 → 0 ≤ cs.2 → 0 ≤ c → 0 ≤ s →
  word_at (recover_at dead W cs) c s =
    if decide (cs = (c, s)) then recovered dead (word_at W c s) else word_at W c s.
Proof.
  intros H1 H2 H3 H4. unfold recover_at, recovered. destruct cs as [c0 s0]. cbn [fst snd] in *.
  destruct (State_allocated (word_at W c0 s0) && bool_decide (State_owner (word_at W c0 s0) = Some dead)) eqn:E.
  - apply andb_true_iff in E as [Ea Eo]. rewrite word_set; [|done..|].
    + destruct (decide (c = c0 ∧ s = s0)) as [[-> ->]|Hne].
      * rewrite decide_True by done. by rewrite Ea, Eo.
      * rewrite decide_False; [done|]. intros Heq. injection Heq as -> ->. by apply Hne.
    + left. intros E0. by rewrite E0 in Ea.
  - destruct (decide ((c0, s0) = (c, s))) as [Ec|Ec]; [|reflexivity]. injection Ec as -> ->. by rewrite E.
Qed.

Lemma recovered_canonical dead w : State_canonical w = true → is_word 32 w →
  State_canonical (recovered dead w) = true ∧ is_word 32 (recovered dead w) ∧
  State_owner (recovered dead w) ≠ Some dead ∧ recovered dead (recovered dead w) = recovered dead w.
Proof.
  intros Hc Hw. unfold recovered.
  destruct (State_allocated w && bool_decide (State_owner w = Some dead)) eqn:E.
  - apply andb_true_iff in E as [Ha Ho].
    assert (Hg : gen_ok (State_generation w)).
    { unfold gen_ok, State_generation. change MAX_GENERATION with (2 ^ 25 - 1). change GENERATION_SHIFT with 7.
      rewrite Z.shiftr_div_pow2 by lia. destruct Hw as [Hw0 Hw1]. split; [by apply Z.div_pos|].
      assert (w / 2 ^ 7 < 2 ^ 25); [|lia]. apply Z.div_lt_upper_bound; [done|]. change (2 ^ 7 * 2 ^ 25) with (2 ^ 32). lia. }
    rewrite enc_free by done. rewrite enc_canonical, enc_owner, enc_allocated by done. simpl.
    split_and!; try done. apply pack_word; [lia|simpl; lia|].
    change (32 - 7) with 25. unfold gen_ok in Hg. change MAX_GENERATION with (2 ^ 25 - 1) in Hg. lia.
  - rewrite E. split_and!; try done. intros Ho. rewrite Ho, bool_decide_true, andb_true_r in E by done.
    unfold State_canonical in Hc. rewrite E, Ho in Hc. done.
Qed.
Lemma run_recover_words dead attempts l W :
  In false attempts →
  (∀ c s, (c, s) ∈ l → 0 ≤ c ∧ 0 ≤ s ∧
    is_word 32 (word_at W c s) ∧ State_canonical (word_at W c s) = true) →
  ∃ W', run (recover_words dead attempts l) W = (Some true, W') ∧
    ∀ c s, 0 ≤ c → 0 ≤ s →
      word_at W' c s = if decide ((c, s) ∈ l) then recovered dead (word_at W c s) else word_at W c s.
Proof.
  intros Hin. revert W. induction l as [|[c0 s0] l IH]; intros W Hok.
  { exists W. split; [done|]. intros c s _ _. by rewrite decide_False by (by apply not_elem_of_nil). }
  destruct (Hok c0 s0 ltac:(by left)) as (Hc0 & Hs0 & _ & Hcan0).
  destruct (IH (recover_at dead W (c0, s0))) as (W' & Hrun & HW').
  { intros c s Hcs. destruct (Hok c s ltac:(by right)) as (Hc & Hs & Hw & Hcan).
    split; [done|]. split; [done|]. rewrite recover_at_word by done.
    case_decide; [|done]. by destruct (recovered_canonical dead _ Hcan Hw) as (? & ? & _). }
  exists W'. split.
  { cbn [recover_words run load_word]. rewrite run_bind, run_recover_word by done. done. }
  intros c s Hc Hs. rewrite (HW' c s Hc Hs), recover_at_word by done.
  destruct (decide ((c0, s0) = (c, s))) as [[= -> ->]|Hne].
  - rewrite (decide_True (P := (c, s) ∈ (c, s) :: l)) by (by left).
    destruct (Hok c s ltac:(by left)) as (_ & _ & Hw & Hcan).
    destruct (recovered_canonical dead _ Hcan Hw) as (_ & _ & _ & Hid). by case_decide.
  - destruct (decide ((c, s) ∈ l)) as [Hl|Hl].
    + by rewrite decide_True by (by right).
    + rewrite decide_False; [done|]. intros Hc'. apply elem_of_cons in Hc' as [?|?]; congruence.
Qed.
End Words.

(** With nobody interfering and a weak exchange that does not fail forever,
    [Storage::recover] on canonical control words succeeds; afterwards no block
    belongs to the dead participant, each of its blocks is free at the same
    generation, and every other word is what it was. *)
Theorem storage_recover_frees_dead header info extent g dead attempts W :
  recorded header info extent = Some (Some g) → In false attempts →
  (∀ c s, (c, s) ∈ all_words g → 0 ≤ c ∧ 0 ≤ s ∧
    is_word 32 (word_at W c s) ∧ State_canonical (word_at W c s) = true) →
  ∃ W', run (Storage_recover header info extent dead attempts) W = (Some true, W') ∧
    ∀ c s, 0 ≤ c → 0 ≤ s →
      ((c, s) ∈ all_words g →
        word_at W' c s = recovered dead (word_at W c s) ∧ State_owner (word_at W' c s) ≠ Some dead) ∧
      ((c, s) ∉ all_words g → word_at W' c s = word_at W c s).
Proof.
  intros Hrec Hin Hok. unfold Storage_recover. rewrite Hrec.
  destruct (run_recover_words dead attempts _ W Hin Hok) as (W' & Hrun & HW'). exists W'. split; [done|]. intros c s Hc Hs.
  rewrite (HW' c s Hc Hs). split; intros Hcs.
  - rewrite decide_True by done. split; [done|]. destruct (Hok _ _ Hcs) as (_ & _ & ? & ?).
    by apply recovered_canonical.
  - by rewrite decide_False.
Qed.

Lemma storage_recover_frees_dead_witness :
  let info := mkPoolInfo 64 4 1 in
  let g := mkGeometry (mkLayout 512 64) [mkClass 64 4 192 256] in
  let W := [[enc 3 (Local 2); enc 5 Detached; enc 1 (Local 4); enc 9 Free]] in
  recorded (mkLayout 192 64) info 512 = Some (Some g) ∧
  ∃ W', run (Storage_recover (mkLayout 192 64) info 512 2 [true; false]) W = (Some true, W') ∧
    word_at W' 0 0 = enc 3 Free ∧ word_at W' 0 2 = enc 1 (Local 4).
Proof.
  intros info g W. assert (E : recorded (mkLayout 192 64) info 512 = Some (Some g)) by reflexivity.
  split; [exact E|].
  destruct (storage_recover_frees_dead (mkLayout 192 64) info 512 g 2 [true; false] W E) as (W' & Hrun & HW').
  - by right; left.
  - intros c s Hcs. assert (Hin : c = 0 ∧ (s = 0 ∨ s = 1 ∨ s = 2 ∨ s = 3)).
    { change (all_words g) with [(0, 0); (0, 1); (0, 2); (0, 3)] in Hcs.
      repeat (apply elem_of_cons in Hcs as [Hcs|Hcs]; [injection Hcs as -> ->; tauto|]).
      by apply not_elem_of_nil in Hcs. }
    destruct Hin as [-> [->|[->|[->| ->]]]]; by_eval.
  - exists W'. split; [exact Hrun|]. split.
    + rewrite (proj1 (proj1 (HW' 0 0 ltac:(lia) ltac:(lia)) ltac:(by left))). reflexivity.
    + rewrite (proj1 (proj1 (HW' 0 2 ltac:(lia) ltac:(lia)) ltac:(by right; right; left))). reflexivity.
Defined.

(** ** Claiming *)

(** A slot [claim] takes: free, well formed and with a generation left. *)
Definition takeable (W : words) (c s : Z) : bool :=
  let w := word_at W c s in
  State_canonical w && negb (State_allocated w) && (State_generation w <? MAX_GENERATION).

Definition taken (W : words) (owner c s : Z) : words :=
  set_word W c s (enc (State_generation (word_at W c s) + 1) (Local owner)).

Definition claimed_at (W : words) (class : Class) (c s : Z) : claimed :=
  (mkAllocation c s (State_generation (word_at W c s) + 1) true, Class_payload class s).

Section Claim.
Context (owner : Z) (Howner : 0 ≤ owner < PARTICIPANT_CAPACITY).
Implicit Types W : words.

Lemma generation_nonneg w : 0 ≤ w → 0 ≤ State_generation w.
Proof. intros Hw. unfold State_generation. by apply Z.shiftr_nonneg. Qed.

Lemma run_probe index class probes next W :
  (∀ s, s ∈ probes → 0 ≤ word_at W index s) →
  (∃ s, s ∈ probes ∧ takeable W index s = true ∧
    run (probe owner index class probes next) W =
      (Some (Ok (claimed_at W class index s)), taken W owner index s)) ∨
  (∀ s, s ∈ probes → takeable W index s = false) ∧
    run (probe owner index class probes next) W = run next W.
Proof.
  induction probes as [|s probes IH]; intros Hw.
  { right. split; [|done]. by intros s ?%not_elem_of_nil. }
  assert (IH' := IH ltac:(intros s' ?; apply Hw; by right)). clear IH.
  pose proof (generation_nonneg _ (Hw s ltac:(by left))) as Hg.
  assert (Hskip : run (probe owner index class (s :: probes) next) W =
    (if takeable W index s then
      (Some (Ok (claimed_at W class index s)), taken W owner index s)
     else run (probe owner index class probes next) W)).
  { cbn [probe run load_word]. unfold takeable.
    destruct (Z.ltb_spec (State_generation (word_at W index s)) MAX_GENERATION) as [Hlt|Hge].
    - assert (Hmin : Z.min (State_generation (word_at W index s) + 1) u32_max =
        State_generation (word_at W index s) + 1).
      { apply Z.min_l. change MAX_GENERATION with 33554431 in Hlt. change u32_max with 4294967295. lia. }
      rewrite Hmin, enc_local by (done || unfold gen_ok; lia).
      destruct (State_canonical _ && negb _); [|done]. cbn [andb run]. unfold cas_word at 1.
      rewrite Z.eqb_refl. cbn [is_ok run]. done.
    - rewrite andb_false_r. destruct (State_local _ owner) eqn:E; [|done].
      done. }
  rewrite Hskip. destruct (takeable W index s) eqn:Et.
  { left. exists s. split; [by left|]. done. }
  destruct IH' as [(s' & Hin & Ht & Hr)|[Hno Hr]].
  - left. exists s'. split; [by right|]. done.
  - right. split; [|done]. intros s' [->|?]%elem_of_cons; [done|by apply Hno].
Qed.

Lemma probe_order start n s : 0 ≤ s < n → s ∈ ((λ i, (start + i) mod n) <$> seqZ 0 n).
Proof.
  intros Hs. apply list_elem_of_fmap. exists ((s - start) mod n). split.
  - rewrite Zplus_mod_idemp_r. replace (start + (s - start)) with s by lia. by rewrite Z.mod_small.
  - apply elem_of_seqZ. pose proof (Z.mod_pos_bound (s - start) n ltac:(lia)). lia.
Qed.

Lemma probe_order_range start n s : s ∈ ((λ i, (start + i) mod n) <$> seqZ 0 n) → 0 ≤ s < n.
Proof.
  intros (i & -> & Hi)%list_elem_of_fmap. apply elem_of_seqZ in Hi. apply Z.mod_pos_bound. lia.
Qed.

Definition none_takeable W (i : nat) (class : Class) : Prop :=
  ∀ s, 0 ≤ s < slots class → takeable W (Z.of_nat i) s = false.

Lemma run_probe_classes cs W n :
  Forall (λ c, 0 < slots c) cs → (∀ c s, 0 ≤ word_at W c s) →
  (∃ i class s, cs !! i = Some class ∧ 0 ≤ s < slots class ∧ takeable W (Z.of_nat (n + i)) s = true ∧
    run (probe_classes owner (Z.of_nat n) cs) W =
      (Some (Ok (claimed_at W class (Z.of_nat (n + i)) s)), taken W owner (Z.of_nat (n + i)) s) ∧
    ∀ j class', (j < i)%nat → cs !! j = Some class' → none_takeable W (n + j) class') ∨
  run (probe_classes owner (Z.of_nat n) cs) W = (Some (Err Unavailable), W) ∧
    ∀ j class', cs !! j = Some class' → none_takeable W (n + j) class'.
Proof.
  intros Hs Hw. revert n. induction cs as [|class cs IH]; intros n; [by right|].
  apply Forall_cons in Hs as [Hpos Hs]. cbn [probe_classes].
  destruct (Z.eqb_spec (slots class) 0); [lia|].
  match goal with |- context [probe _ _ _ ?o ?nx] => set (order := o); set (next := nx) end.
  destruct (run_probe (Z.of_nat n) class order next W ltac:(intros; apply Hw)) as [(s & Hin & Ht & Hr)|[Hno Hr]].
  { left. exists 0%nat, class, s. rewrite Nat.add_0_r. apply probe_order_range in Hin.
    destruct Hin. split; [done|]. split; [done|]. split; [done|]. split; [done|]. intros; lia. }
  assert (Hnone : none_takeable W n class) by (intros s Hs'; apply Hno; by apply probe_order).
  rewrite Hr. unfold next. replace (Z.of_nat n + 1) with (Z.of_nat (S n)) by lia.
  destruct (IH Hs (S n)) as [(i & class' & s & Hi & Hs' & Ht & Hr' & Hmin)|[Hr' Hall]].
  - left. exists (S i), class', s. replace (n + S i)%nat with (S n + i)%nat by lia.
    split; [done|]. split; [done|]. split; [done|]. split; [done|].
    intros [|j] class'' Hj Hl; [rewrite Nat.add_0_r; by injection Hl as <-|].
    replace (n + S j)%nat with (S n + j)%nat by lia. apply Hmin; [lia|done].
  - right. split; [done|]. intros [|j] class'' Hl; [rewrite Nat.add_0_r; by injection Hl as <-|].
    replace (n + S j)%nat with (S n + j)%nat by lia. by apply Hall.
Qed.
End Claim.

(** Class [i] of a pool that starts at [mn] has blocks of [mn * 2 ^ i] bytes. *)
Lemma build_from_bytes mn base index n layout l cs i c :
  is_power_of_two mn = true → mn ≤ usize_max → 0 ≤ index → layout_wf layout → 0 ≤ base →
  build_from mn base index n layout = Ok (l, cs) → cs !! i = Some c →
  bytes c = 2 ^ (Z.log2 mn + index + Z.of_nat i).
Proof.
  intros Hmn Hmx Hidx Hl Hb. revert index Hidx layout Hl l cs i c.
  induction n as [|n IH]; intros index Hidx layout Hl l cs i c H Hi; simpl in H.
  { injection H as <- <-. done. }
  destruct (build_class mn base index layout) as [[l1 c1]|] eqn:E1; [|done]. simpl in H.
  destruct (build_from mn base (index + 1) n l1) as [[l2 cs2]|] eqn:E2; [|done]. simpl in H.
  injection H as <- <-. apply build_class_spec in E1 as (Hl1 & _ & Hbytes & Hpow & _); [|done..].
  destruct i as [|i]; simpl in Hi.
  - injection Hi as ->. rewrite Z.add_0_r, Hbytes. rewrite Hbytes in Hpow.
    apply pow2_form in Hmn as (k & Hk & ->). rewrite Z.log2_pow2 by done.
    rewrite Z.shiftl_mul_pow2, <- Z.pow_add_r in * by done.
    destruct (Z.lt_ge_cases (k + index) usize_bits) as [Hlt|Hge].
    + apply wrap_small. split; [apply Z.pow_nonneg; lia|]. by apply Z.pow_lt_mono_r; unfold usize_bits in *; lia.
    + exfalso. unfold wrap in Hpow. replace (k + index) with (k + index - usize_bits + usize_bits) in Hpow by lia.
      rewrite Z.pow_add_r, Z.mod_mul in Hpow by (unfold usize_bits in *; lia). done.
  - rewrite (IH (index + 1) ltac:(lia) l1 Hl1 l2 cs2 i c E2 Hi). f_equal. lia.
Qed.

Lemma next_power_least x : 0 < x ≤ 2 ^ (usize_bits - 1) →
  ∃ n, 0 ≤ n ∧ checked_next_power_of_two x = Some (2 ^ n) ∧ ∀ j, 0 ≤ j → x ≤ 2 ^ j ↔ n ≤ j.
Proof.
  intros [Hx Hmax]. unfold checked_next_power_of_two. exists (Z.log2_up x).
  assert (Hp : (if x <=? 1 then 1 else 2 ^ Z.log2_up x) = 2 ^ Z.log2_up x).
  { destruct (Z.leb_spec x 1); [|done]. by replace x with 1 by lia. }
  rewrite Hp. split; [apply Z.log2_up_nonneg|]. split.
  - assert (Hle : Z.log2_up x ≤ usize_bits - 1) by (by apply Z.log2_up_le_pow2).
    apply (Z.pow_le_mono_r 2) in Hle; [|lia].
    destruct (Z.leb_spec (2 ^ Z.log2_up x) usize_max) as [|Hgt]; [done|].
    unfold usize_max, usize_bits in *. change (2 ^ (64 - 1)) with 9223372036854775808 in *.
    change (2 ^ 64 - 1) with 18446744073709551615 in *. lia.
  - intros j Hj. by apply Z.log2_up_le_pow2.
Qed.

Lemma log2_max_pow2 n m : 0 ≤ n → 0 ≤ m →
  Z.log2 (2 ^ n `max` 2 ^ m) - Z.log2 (2 ^ m) = Z.max n m - m.
Proof.
  intros Hn Hm. rewrite (Z.log2_pow2 m) by done. f_equal. destruct (Z.max_spec n m) as [[? ->]|[? ->]].
  - rewrite Z.max_r by (apply Z.pow_le_mono_r; lia). by apply Z.log2_pow2.
  - rewrite Z.max_l by (apply Z.pow_le_mono_r; lia). by apply Z.log2_pow2.
Qed.

(** C20: [claim] alone, on a pool that was built with classes of doubling size.
    It succeeds exactly when some class whose blocks hold the layout has a
    slot to take, and then takes one in the smallest such class, at the next
    generation and at the block's offset, and changes no other word;
    [Unavailable] means every slot of every large enough class is in use,
    corrupted or spent, [BlockTooLarge] that no class is large enough; on both
    the words stay as they were. *)
Theorem claim_smallest_class header mn count base g id owner layout W :
  layout_wf header → 0 ≤ base → is_power_of_two mn = true → mn ≤ usize_max →
  build header mn count base = Ok g → classes g ≠ [] → Forall (λ c, 0 < slots c) (classes g) →
  0 ≤ owner < PARTICIPANT_CAPACITY → (∀ c s, 0 ≤ word_at W c s) →
  layout_wf layout → 0 < size layout →
  let need := Z.max (size layout) (align layout) in
  match run (claim (mkPoolRef g id owner) layout) W with
  | (Some (Ok r), W') =>
    ∃ (i : nat) class s, classes g !! i = Some class ∧ 0 ≤ s < slots class ∧
      size layout ≤ bytes class ∧ (align layout | bytes class) ∧
      takeable W (Z.of_nat i) s = true ∧
      r = claimed_at W class (Z.of_nat i) s ∧ W' = taken W owner (Z.of_nat i) s ∧
      ∀ j class', (j < i)%nat → classes g !! j = Some class' → need ≤ bytes class' →
        none_takeable W j class'
  | (Some (Err Unavailable), W') =>
    W' = W ∧ (∃ class, class ∈ classes g ∧ need ≤ bytes class) ∧
    ∀ j class', classes g !! j = Some class' → need ≤ bytes class' → none_takeable W j class'
  | (Some (Err BlockTooLarge), W') => W' = W ∧ ∀ class, class ∈ classes g → bytes class < need
  | (None, _) => False
  end.
Proof.
  intros Hh Hb Hmn Hmx Hbuild Hne Hslots Howner Hw [Hal Hsz] Hpos need.
  unfold build in Hbuild. destruct (build_from mn base 0 (Z.to_nat count) header) as [[l cs]|] eqn:E; [|done].
  injection Hbuild as <-. cbn [classes] in *.
  assert (Hbytes : ∀ i c, cs !! i = Some c → bytes c = 2 ^ (Z.log2 mn + Z.of_nat i)).
  { intros i c Hi. rewrite (build_from_bytes mn base 0 _ _ _ _ _ _ Hmn Hmx ltac:(lia) Hh Hb E Hi).
    f_equal. lia. }
  pose proof (power_pos _ Hal) as Halp. pose proof (Z.log2_nonneg mn) as Hlog.
  destruct (next_power_least need) as (n & Hn & Hnext & Hleast).
  { unfold need, isize_max in *. split; [lia|].
    assert (align layout ≤ 2 ^ (usize_bits - 1)); lia. }
  unfold claim. destruct (Z.eqb_spec (size layout) 0); [lia|].
  fold need. rewrite Hnext. cbn [pr_geometry pr_owner classes].
  destruct (cs !! 0%nat) as [first|] eqn:Hfirst; [|by destruct cs].
  rewrite (Hbytes _ _ Hfirst), Z.add_0_r.
  set (m := Z.log2 mn) in *.
  rewrite log2_max_pow2 by done.
  assert (Hfit : ∀ i c, cs !! i = Some c → need ≤ bytes c ↔ Z.max n m - m ≤ Z.of_nat i).
  { intros i c Hi. rewrite (Hbytes _ _ Hi), Hleast; lia. }
  destruct (Z.leb_spec (Z.of_nat (length cs)) (Z.max n m - m)) as [Hbig|Hfits].
  { cbn [run]. split; [done|]. intros class (i & Hi)%list_elem_of_lookup_1.
    pose proof (lookup_lt_Some _ _ _ Hi). destruct (Z.lt_ge_cases (bytes class) need) as [|Hge]; [done|].
    apply (Hfit _ _ Hi) in Hge. lia. }
  remember (Z.to_nat (Z.max n m - m)) as p eqn:Ep.
  assert (Hp : Z.max n m - m = Z.of_nat p) by lia. rewrite Hp.
  destruct (run_probe_classes owner Howner (drop p cs) W p) as [(i & class & s & Hi & Hs & Ht & Hr & Hmin)|[Hr Hall]];
    [by apply Forall_drop|done|..]; rewrite Hr.
  - rewrite lookup_drop in Hi. assert (Hneed : need ≤ bytes class) by (apply (Hfit _ _ Hi); lia).
    exists (p + i)%nat, class, s. split; [done|]. split; [done|]. split; [lia|]. split; [|split; [done|]].
    + apply power_divide; [done|rewrite (Hbytes _ _ Hi); apply pow2_is_power; lia|lia].
    + split; [done|]. split; [done|]. intros j class' Hj Hl Hge.
      apply (Hfit _ _ Hl) in Hge. replace j with (p + (j - p))%nat by lia. apply Hmin; [lia|].
      rewrite lookup_drop. by replace (p + (j - p))%nat with j by lia.
  - split; [done|]. split.
    + destruct (lookup_lt_is_Some_2 cs p ltac:(lia)) as [class Hc]. exists class.
      split; [by eapply list_elem_of_lookup_2|]. apply (Hfit _ _ Hc); lia.
    + intros j class' Hl Hge. apply (Hfit _ _ Hl) in Hge. replace j with (p + (j - p))%nat by lia. apply Hall.
      rewrite lookup_drop. by replace (p + (j - p))%nat with j by lia.
Qed.

Lemma claim_smallest_class_witness :
  let W := [[enc 3 (Local 2); enc 5 Detached]; [enc 1 Free; enc 9 Free]] in
  ∃ g, build (mkLayout 192 64) 64 2 2 = Ok g ∧
  ∃ i class s, classes g !! i = Some class ∧ 0 ≤ s < slots class ∧ 48 ≤ bytes class ∧
    run (claim (mkPoolRef g demo_pool 7) (mkLayout 48 16)) W =
      (Some (Ok (claimed_at W class (Z.of_nat i) s)), taken W 7 (Z.of_nat i) s).
Proof.
  intros W. assert (E : ∃ g, build (mkLayout 192 64) 64 2 2 = Ok g) by (eexists; vm_compute; reflexivity).
  destruct E as (g & E). exists g. split; [exact E|].
  assert (Hg : g = mkGeometry (mkLayout 768 128) [mkClass 64 2 192 256; mkClass 128 2 384 512]).
  { vm_compute in E. injection E as <-. reflexivity. }
  assert (Hw : ∀ c s, 0 ≤ word_at W c s).
  { intros c s. unfold word_at, W. destruct (Z.to_nat c) as [|[|c']]; [..|done]; simpl;
      destruct (Z.to_nat s) as [|[|s']]; simpl; by_eval. }
  pose proof (claim_smallest_class (mkLayout 192 64) 64 2 2 g demo_pool 7 (mkLayout 48 16) W ltac:(by_eval)
    ltac:(lia) ltac:(done) ltac:(by_eval) E ltac:(by rewrite Hg) ltac:(rewrite Hg; repeat constructor)
    ltac:(by_eval) Hw ltac:(by_eval) ltac:(done)) as H. cbv zeta in H.
  destruct (run (claim (mkPoolRef g demo_pool 7) (mkLayout 48 16)) W) as [[[r|e]|] W'] eqn:R.
  - destruct H as (i & class & s & Hi & Hs & Hsz & _ & _ & -> & -> & _). by exists i, class, s.
  - exfalso. rewrite Hg in R. vm_compute in R. discriminate.
  - done.
Defined.

(** ** Releasing what a token names *)

(** What [release_token] decides from the word it finds. *)
Definition release_verdict (generation : Z) (owner : option Z) (w : Z) : bool * bool :=
  if negb (State_canonical w) || (State_generation w <? generation) then (false, false)
  else if (generation <? State_generation w) || negb (State_allocated w) then (true, false)
  else if bool_decide (State_owner w = None) || bool_decide (State_owner w = owner) then (true, true)
  else (false, false).

Lemma run_release_word generation owner c s attempts W :
  In false attempts →
  run (release_word generation owner c s attempts (word_at W c s)) W =
    (Some (release_verdict generation owner (word_at W c s)).1,
     if (release_verdict generation owner (word_at W c s)).2 then set_word W c s (State_free generation) else W).
Proof.
  intros Hin. unfold release_verdict. induction attempts as [|b attempts IH]; [done|]. cbn [release_word].
  destruct (negb (State_canonical _) || _) eqn:E1; [done|].
  destruct ((generation <? _) || _) eqn:E2; [done|].
  assert (E3 : (bool_decide (is_Some (State_owner (word_at W c s))) &&
      negb (bool_decide (State_owner (word_at W c s) = owner))) =
    negb (bool_decide (State_owner (word_at W c s) = None) || bool_decide (State_owner (word_at W c s) = owner))).
  { rewrite negb_orb. f_equal. destruct (State_owner (word_at W c s)); [by rewrite bool_decide_true|done]. }
  rewrite E3. destruct (bool_decide (State_owner _ = None) || _) eqn:E4; [|done]. cbn [negb].
  destruct b; cbn [run cas_weak].
  - rewrite IH by (by destruct Hin). by rewrite ?E1, ?E2, ?E4.
  - unfold cas_word. by rewrite Z.eqb_refl.
Qed.

Lemma release_verdict_cases generation owner w :
  let frees := State_canonical w = true ∧ State_generation w = generation ∧
    State_allocated w = true ∧ (State_owner w = None ∨ State_owner w = owner) in
  let gone := State_canonical w = true ∧ (generation < State_generation w ∨
    State_generation w = generation ∧ State_allocated w = false) in
  (frees → release_verdict generation owner w = (true, true)) ∧
  (gone → release_verdict generation owner w = (true, false)) ∧
  (¬ frees → ¬ gone → release_verdict generation owner w = (false, false)).
Proof.
  intros frees gone. unfold release_verdict, frees, gone. clear frees gone.
  destruct (State_canonical w), (State_allocated w),
    (Z.ltb_spec (State_generation w) generation), (Z.ltb_spec generation (State_generation w));
    simpl; repeat case_bool_decide; simpl; split_and!; intros;
    try first [reflexivity | exfalso; intuition (lia || congruence)].
  all: assert (State_generation w = generation) by lia; tauto.
Qed.

Lemma free_word g : gen_ok g →
  State_canonical (State_free g) = true ∧ State_generation (State_free g) = g ∧
  State_allocated (State_free g) = false.
Proof.
  intros Hg. rewrite enc_free by done.
  by rewrite enc_canonical, enc_generation, enc_allocated.
Qed.

Lemma run_release_token header info extent g t class owner attempts W :
  1 ≤ tok_generation t ≤ MAX_GENERATION → token_metadata t ≠ None →
  recorded header info extent = Some (Some g) →
  classes g !! Z.to_nat (span_class (tok_span t)) = Some class →
  0 ≤ span_slot (tok_span t) < slots class → In false attempts →
  run (release_token header (Some (info, extent)) t owner attempts) W =
    let v := release_verdict (tok_generation t) owner
               (word_at W (span_class (tok_span t)) (span_slot (tok_span t))) in
    (Some v.1, if v.2 then set_word W (span_class (tok_span t)) (span_slot (tok_span t))
                             (State_free (tok_generation t)) else W).
Proof.
  intros Hg Hm Hrec Hc Hs Hin. unfold release_token.
  destruct (Z.eqb_spec (tok_generation t) 0); [lia|].
  destruct (Z.ltb_spec MAX_GENERATION (tok_generation t)); [lia|].
  rewrite bool_decide_false by done. cbn [orb]. rewrite Hrec, Hc.
  destruct (Z.leb_spec (slots class) (span_slot (tok_span t))); [lia|].
  cbn [run load_word]. by apply run_release_word.
Qed.

(** [release_token] alone frees the block of a token when the control word
    still has the token's generation and is detached or held by the
    participant named by [owner]; it reports success without a write when the
    block is already free or has moved on to a later generation, and failure
    without a write otherwise.  After a success, repeating it with any owner
    succeeds and changes nothing: a token frees its block once. *)
Theorem release_token_frees_once header info extent g t class owner owner' attempts W :
  1 ≤ tok_generation t ≤ MAX_GENERATION → token_metadata t ≠ None →
  recorded header info extent = Some (Some g) →
  0 ≤ span_class (tok_span t) → classes g !! Z.to_nat (span_class (tok_span t)) = Some class →
  0 ≤ span_slot (tok_span t) < slots class → In false attempts →
  let w := word_at W (span_class (tok_span t)) (span_slot (tok_span t)) in
  let W1 := set_word W (span_class (tok_span t)) (span_slot (tok_span t)) (State_free (tok_generation t)) in
  let rel o W := run (release_token header (Some (info, extent)) t o attempts) W in
  let frees := State_canonical w = true ∧ State_generation w = tok_generation t ∧
    State_allocated w = true ∧ (State_owner w = None ∨ State_owner w = owner) in
  let gone := State_canonical w = true ∧ (tok_generation t < State_generation w ∨
    State_generation w = tok_generation t ∧ State_allocated w = false) in
  (frees → rel owner W = (Some true, W1)) ∧ (gone → rel owner W = (Some true, W)) ∧
  (¬ frees → ¬ gone → rel owner W = (Some false, W)) ∧
  ((rel owner W).1 = Some true → rel owner' (rel owner W).2 = (Some true, (rel owner W).2)).
Proof.
  intros Hg Hm Hrec Hc0 Hc Hs Hin w W1 rel frees gone.
  assert (Hrun := λ o W, run_release_token header info extent g t class o attempts W Hg Hm Hrec Hc Hs Hin).
  destruct (release_verdict_cases (tok_generation t) owner w) as (Vf & Vg & Vn).
  unfold rel. rewrite !Hrun. fold w. cbv zeta. split_and!.
  - intros H. by rewrite Vf.
  - intros H. by rewrite Vg.
  - intros H H'. by rewrite Vn.
  - destruct (decide frees) as [Hf|Hf]; [|destruct (decide gone) as [Hgn|Hgn]; [|by rewrite Vn]].
    + rewrite Vf by done. intros _. cbn [fst snd]. fold W1.
      assert (E : word_at W1 (span_class (tok_span t)) (span_slot (tok_span t)) = State_free (tok_generation t)).
      { unfold W1. rewrite word_set; [by rewrite decide_True|lia..|]. left. intros E. fold w in E.
        destruct Hf as (_ & _ & Ha & _). by rewrite E in Ha. }
      rewrite E. destruct (free_word (tok_generation t)) as (E1 & E2 & E3); [unfold gen_ok; lia|].
      destruct (release_verdict_cases (tok_generation t) owner' (State_free (tok_generation t))) as (_ & Vg' & _).
      rewrite Vg' by (rewrite E2; auto). done.
    + rewrite Vg by done. intros _. cbn [fst snd]. fold w.
      destruct (release_verdict_cases (tok_generation t) owner' w) as (_ & Vg' & _). by rewrite Vg'.
Qed.

Lemma release_token_frees_once_witness :
  let info := mkPoolInfo 64 4 1 in
  let g := mkGeometry (mkLayout 512 64) [mkClass 64 4 192 256] in
  let W := [[enc 3 (Local 2); enc 5 Detached; enc 1 (Local 4); enc 9 Free]] in
  let t := PoolToken_new demo_pool (mkSpan 0 1) 5 Sized 77 in
  recorded (mkLayout 192 64) info 512 = Some (Some g) ∧
  run (release_token (mkLayout 192 64) (Some (info, 512)) t None [true; false]) W =
    (Some true, set_word W 0 1 (State_free 5)).
Proof.
  intros info g W t. assert (E : recorded (mkLayout 192 64) info 512 = Some (Some g)) by reflexivity.
  split; [exact E|].
  destruct (release_token_frees_once (mkLayout 192 64) info 512 g t (mkClass 64 4 192 256) None None
    [true; false] W) as (H & _);
    [by_eval|by_eval|exact E|by_eval|reflexivity|by_eval|by right; left|].
  apply H. exact (conj eq_refl (conj eq_refl (conj eq_refl (or_introl eq_refl)))).
Defined.
