(* ===== verification/PoolDeath.v ===== *)
(** * The death of a participant of a pool

    A participant stops at any access of any operation on the pool; another one
    runs [Storage::recover] for it while the survivors go on claiming, releasing
    and handing over blocks. *)

From S2P Require Import Prelude Atomic Alloc Schema Header Token Pool PoolOps PoolConc.

(** [Storage::recover] in the place of the client that died, with its answer as
    a client's: released, or failed. *)
Definition recovering (header : Layout) (info : PoolInfo) (extent dead : Z) (attempts : list bool)
    : prog words (list pout * list Allocation) :=
  do r <- Storage_recover header info extent dead attempts;
  Ret (match r with Some true => [PReleased] | Some false => [PLost] | None => [PPanicked] end, []).

Lemma all_words_in g c s : (c, s) ∈ all_words g →
  0 ≤ c ∧ ∃ class, classes g !! Z.to_nat c = Some class ∧ 0 ≤ s < slots class.
Proof.
  unfold all_words. intros (row & Hrow & Hin)%list_elem_of_In%in_concat. apply list_elem_of_In in Hrow, Hin.
  apply list_elem_of_lookup in Hrow as [i Hi]. apply list_lookup_imap_Some in Hi as (class & Hc & ->).
  apply list_elem_of_fmap in Hin as (s' & [= -> ->] & Hs%elem_of_seqZ). rewrite Nat2Z.id.
  split; [lia|]. exists class. split; [done|lia].
Qed.

Section Recovery.
Context (geo : Geometry) (own : nat → Z) (d : nat).
Context (Hown : ∀ t, 0 ≤ own t < PARTICIPANT_CAPACITY).
Context (Hdead : ∀ t, own t = own d → t = d).

#[local] Abbreviation wp := (wp (pinv geo own) prely).

Definition not_held (c s : Z) (G : ghost) : Prop := ∀ g, look G c s ≠ Some (mkGword g (HThread d)).

(** The dead client holds none of the words of [N]. *)
Definition none_held (N : list (Z * Z)) (G : ghost) : Prop :=
  ∀ c s, (c, s) ∈ N → 0 ≤ c → 0 ≤ s → not_held c s G.

Lemma none_held_stable N : stable prely d (none_held N).
Proof. intros G G' HR HN c s Hin Hc Hs. exact (not_holder_stable d c s G G' HR (HN c s Hin Hc Hs)). Qed.

Lemma none_held_cons N c s G : none_held N G → not_held c s G → none_held ((c, s) :: N) G.
Proof. intros HN Hn c' s' [[= -> ->]|Hin]%elem_of_cons; [done|by apply HN]. Qed.

Lemma none_held_release N c s w g G :
  look G c s = Some w → 0 ≤ c → 0 ≤ s → none_held N G →
  none_held ((c, s) :: N) (upd G c s (mkGword g HFree)).
Proof.
  intros Hl Hc Hs HN c' s' Hin Hc' Hs' g'. rewrite look_upd by (done || by eexists).
  case_decide as Hd; [congruence|]. apply HN; [|done|done].
  apply elem_of_cons in Hin as [[= -> ->]|Hin]; [|done]. by destruct Hd.
Qed.

(** The words that name the dead participant are those its client holds. *)
Lemma word_named w : State_allocated (gword_enc own w) &&
    bool_decide (State_owner (gword_enc own w) = Some (own d)) = bool_decide (held_by w = HThread d).
Proof.
  unfold gword_enc. pose proof (auth_of_ok own Hown (held_by w)) as Ha.
  rewrite enc_allocated, enc_owner by done. destruct (held_by w) as [| |t]; simpl; [done|done|].
  apply bool_decide_ext. split; [|by intros [= ->]]. intros [= E]. f_equal. by apply Hdead.
Qed.

Definition recovered_ok (N : list (Z * Z)) (r : option bool) (G : ghost) : Prop :=
  r = Some true ∧ none_held N G.

(** A word the dead client holds: only recovery itself changes it. *)
Lemma recover_held_spec c s class N a attempts G :
  In false attempts → classes geo !! Z.to_nat c = Some class → 0 ≤ s →
  a = mkAllocation c s (al_generation a) true → mine geo d a G → none_held N G →
  wp d (recover_word (own d) c s attempts (enc (al_generation a) (Local (own d))))
    (recovered_ok ((c, s) :: N)) G.
Proof using Hown.
  intros Hin Hcl Hs Ea Hm HN. revert G Hm HN. induction attempts as [|b attempts IH]; intros G Hm HN; [done|].
  cbn [recover_word]. assert (Hd : auth_ok (Local (own d))) by apply Hown.
  rewrite enc_canonical, enc_allocated, enc_owner, bool_decide_true by done. cbn [negb orb].
  eapply (wp_act _ _ (λ G, mine geo d a G ∧ none_held N G)); [by split|apply stable_conj; [apply mine_stable|apply none_held_stable]|].
  clear G Hm HN. intros G W [Hm HN] HI. pose proof Hm as ([Hc Hg] & _ & _ & Hl). rewrite Ea in Hl, Hc. cbn [al_class al_slot al_generation] in Hl, Hc.
  unfold cas_weak, cas_word. rewrite (pinv_word _ _ _ _ _ _ _ HI Hl).
  change (gword_enc own (mkGword (al_generation a) (HThread d))) with (enc (al_generation a) (Local (own d))).
  destruct b; cbn [fst snd].
  - exists G. split_and!; [done|constructor|]. apply IH; [|done|done]. by destruct Hin.
  - rewrite Z.eqb_refl. cbn [fst snd]. rewrite enc_generation, enc_free by done.
    exists (upd G c s (mkGword (al_generation a) HFree)). split_and!.
    + by apply (pinv_upd geo own G W c s _ (mkGword (al_generation a) HFree) HI Hl).
    + eapply pg_word; [done|constructor].
    + apply wp_ret. split; [done|]. by eapply none_held_release.
Qed.

Lemma recover_words_spec attempts N l G :
  In false attempts → (∀ c s, (c, s) ∈ l → 0 ≤ c ∧ ∃ class, classes geo !! Z.to_nat c = Some class ∧ 0 ≤ s < slots class) →
  none_held N G → wp d (recover_words (own d) attempts l) (recovered_ok (reverse l ++ N)) G.
Proof using Hown Hdead.
  intros Hin. revert N G. induction l as [|[c s] l IH]; intros N G Hl HN; cbn [recover_words]; [by apply wp_ret|].
  destruct (Hl c s ltac:(by left)) as (Hc & class & Hcl & Hs).
  eapply wp_read; [constructor|exact HN|apply none_held_stable|done|]. clear G HN. intros G W HN HI. cbn [load_word fst].
  destruct (pinv_slot _ _ _ _ _ _ _ HI Hcl Hs) as [w Hw]. rewrite (pinv_word _ _ _ _ _ _ _ HI Hw).
  apply (wp_seq _ _ _ _ _ (recovered_ok ((c, s) :: N))).
  - destruct (decide (held_by w = HThread d)) as [Eh|Hne].
    + pose proof (pinv_gen _ _ _ _ HI _ _ _ Hw) as Hg. destruct w as [g h]. cbn in Eh, Hg. subst h.
      eapply (recover_held_spec c s class N (mkAllocation c s g true)); [done|done|lia|done| |done].
      split_and!; [done|done|simpl; lia|by eexists|done].
    + pose proof (word_named w) as E. rewrite (bool_decide_false _ Hne) in E.
      assert (Hq : recover_word (own d) c s attempts (gword_enc own w) = Ret (Some true)).
      { assert (Hcan : State_canonical (gword_enc own w) = true) by apply enc_canonical, auth_of_ok, Hown.
        destruct attempts; cbn [recover_word]; rewrite Hcan, <- negb_andb, E; done. }
      rewrite Hq. apply wp_ret. split; [done|]. apply none_held_cons; [done|]. intros g. rewrite Hw. intros [= ->]. by apply Hne.
  - intros r G' [-> HN']. replace (reverse ((c, s) :: l) ++ N) with (reverse l ++ (c, s) :: N) by (by rewrite reverse_cons, <- app_assoc).
    apply IH; [|done]. intros c' s' Hin'. apply Hl. by right.
Qed.
End Recovery.

(** ** Clients that die and are recovered *)

Section Deaths.
Context (geo : Geometry) (id : LayoutId) (own : nat → Z).
Context (header : Layout) (info : PoolInfo) (extent : Z).

(** What the clients of a pool can come to, and which of them died: a client
    goes one access further, or dies where it is and its participant, which no
    other client has, is recovered in its place.  Recovery may die as well. *)
Inductive dreach (css : list (list pcmd)) : cfg words (list pout * list Allocation) → list nat → Prop :=
| dreach_start : dreach css (pstart geo id own css) []
| dreach_step c c' t D : dreach css c D → cstep t c c' → dreach css c' D
| dreach_death W ps d attempts D :
    dreach css (W, ps) D → In false attempts → (∀ t, own t = own d → t = d) →
    dreach css (W, <[d := recovering header info extent (own d) attempts]> ps) (d :: D).

Lemma dreach_run css c c' D : dreach css c D → creach c c' → dreach css c' D.
Proof. intros Hr. induction 1 as [|c1 c2 t _ IH Hs]; [done|]. by eapply dreach_step. Qed.

Lemma dreach_alone css c D d : dreach css c D → d ∈ D → ∀ t, own t = own d → t = d.
Proof.
  induction 1 as [|c c' t D _ IH _|W ps d' attempts D _ IH _ Hd]; [by intros ?%not_elem_of_nil|done|].
  intros [->|?]%elem_of_cons; [done|by apply IH].
Qed.

(** How clients end: a dead one as its recovery does. *)
Definition ddone (D : list nat) (t : nat) (r : list pout * list Allocation) (G : ghost) : Prop :=
  pdone geo t r G ∧ (t ∈ D → r = ([PReleased], []) ∧ none_held t (all_words geo) G).

Lemma ddone_stable D t r : stable prely t (ddone D t r).
Proof.
  intros G G' HR [Hp HD]. split; [by eapply pdone_stable|]. intros Ht.
  destruct (HD Ht) as [-> HN]. split; [done|]. by eapply none_held_stable.
Qed.

Context (Hgeo : recorded header info extent = Some (Some geo)).

Lemma recovering_spec css d attempts G :
  pool_ok geo own css → In false attempts → (∀ t, own t = own d → t = d) →
  wp (pinv geo own) prely d (recovering header info extent (own d) attempts)
    (λ r G, r = ([PReleased], []) ∧ none_held d (all_words geo) G) G.
Proof.
  intros Hok Hin Hd. unfold recovering, Storage_recover. rewrite Hgeo. eapply wp_seq.
  - apply (recover_words_spec geo own d (pool_own _ _ _ Hok) Hd attempts [] (all_words geo) G Hin);
      [apply all_words_in|]. by intros c s ?%not_elem_of_nil.
  - intros r G' [-> HN]. apply wp_ret. split; [done|]. intros c s Hcs. apply HN.
    by rewrite app_nil_r, elem_of_reverse.
Qed.

Lemma dreach_ok css c D : pool_ok geo own css → dreach css c D →
  ∃ G, rg_ok (pinv geo own) prely (ddone D) G c.
Proof.
  intros Hok Hr. induction Hr as [|c c' t D Hr [G HG] Hs|W ps d attempts D Hr [G [HI HG]] Hin Hd].
  - destruct (pool_reach geo id own css _ _ Hok (creach_refl (pstart geo id own css))) as (G & HI & Hwp).
    exists G. split; [done|]. intros t p Hp. eapply wp_mono; [|by apply Hwp].
    intros r G' Hdn. split; [done|]. by intros ?%not_elem_of_nil.
  - eapply rg_step in HG as (G' & HG' & _); [by exists G'|apply rely_of_refl|apply rely_of_trans|apply ddone_stable|done].
  - exists G. split; [done|]. cbn [snd] in *. intros t p Hp. apply list_lookup_insert_Some in Hp as [(<- & <- & _)|[Hne Hp]].
    + eapply wp_mono; [|by eapply recovering_spec]. intros r G' [-> HN]. split; [|done].
      split_and!; [set_solver|set_solver|apply holds_nil].
    + eapply wp_mono; [|by apply HG]. intros r G' [Hp' HD]. split; [done|].
      intros [->|?]%elem_of_cons; [done|by apply HD].
Qed.
End Deaths.

(** C21: clients of a pool interleave in any way and die at any access, their
    participants being recovered by [Storage::recover] while the others go on,
    a recovery dying and being repeated included.  A recovery that returns has
    succeeded, and from then on no block belongs to the participant; the
    survivors never lose a block, no release or hand-over of theirs fails, and
    the blocks they hold stay theirs alone. *)
Theorem pool_death_recovered geo id own header info extent css W ps D :
  pool_ok geo own css → recorded header info extent = Some (Some geo) →
  dreach geo id own header info extent css (W, ps) D →
  exclusive own W ps ∧
  ∀ d r, d ∈ D → ps !! d = Some (Ret r) →
    r = ([PReleased], []) ∧
    ∀ c s, (c, s) ∈ all_words geo → State_owner (word_at W c s) ≠ Some (own d).
Proof.
  intros Hok Hgeo Hr. destruct (dreach_ok _ _ _ _ _ _ Hgeo _ _ _ Hok Hr) as (G & HI & Hwp). split.
  - apply (pdone_exclusive geo own G W ps HI). intros t r Ht. by destruct (Hwp _ _ Ht).
  - intros d r HD Hd. destruct (Hwp _ _ Hd) as [_ HN]. destruct (HN HD) as [-> HN']. split; [done|].
    intros c s Hcs. destruct (all_words_in _ _ _ Hcs) as (Hc & class & Hcl & Hs).
    destruct (pinv_slot _ _ _ _ _ _ _ HI Hcl Hs) as [w Hw]. cbn [fst] in HI. rewrite (pinv_word _ _ _ _ _ _ _ HI Hw). intros Ho.
    pose proof (word_named own d (pool_own _ _ _ Hok) (dreach_alone _ _ _ _ _ _ _ _ _ _ Hr HD) w) as E.
    rewrite Ho, bool_decide_true, andb_true_r in E by done.
    assert (Ha : State_allocated (gword_enc own w) = true).
    { pose proof (enc_canonical (gen w) _ (auth_of_ok own (pool_own _ _ _ Hok) (held_by w))) as Hcan.
      fold (gword_enc own w) in Hcan. unfold State_canonical in Hcan. rewrite Ho in Hcan. by rewrite orb_false_r in Hcan. }
    rewrite Ha in E. symmetry in E. apply bool_decide_eq_true in E. destruct w as [g h]. cbn in E. subst h.
    by apply (HN' c s Hcs Hc ltac:(lia) g).
Qed.

(** Two clients of a pool with one class; the first dies holding one block, in
    the middle of claiming a second one. *)
Definition death_geo : Geometry := mkGeometry (mkLayout 512 64) [mkClass 64 4 192 256].
Definition death_own (t : nat) : Z := match t with O => 0 | _ => 1 end.
Definition death_css : list (list pcmd) :=
  [[PClaim (mkLayout 8 8); PClaim (mkLayout 8 8)]; [PClaim (mkLayout 8 8); PSend 0; PClaim (mkLayout 64 1)]].
Definition death_cfg (m : nat) : cfg words (list pout * list Allocation) :=
  let c := sched [0; 0; 1; 0; 1; 1]%nat (pstart death_geo demo_pool death_own death_css) in
  sched (concat (replicate m [1; 0]%nat))
    (c.1, <[0%nat := recovering (mkLayout 192 64) (mkPoolInfo 64 4 1) 512 (death_own 0) [true; false]]> c.2).

Lemma death_ok : pool_ok death_geo death_own death_css.
Proof.
  split.
  - intros [|t]; by_eval.
  - intros [|n] class; simpl; intros [= <-]; done.
  - discriminate.
  - intros cs tok Hcs Htok. repeat (apply elem_of_cons in Hcs as [->|Hcs]; [repeat (apply elem_of_cons in Htok as [Htok|Htok]; [discriminate|]); by apply not_elem_of_nil in Htok|]).
    by apply not_elem_of_nil in Hcs.
Qed.

Lemma death_reach m : dreach death_geo demo_pool death_own (mkLayout 192 64) (mkPoolInfo 64 4 1) 512 death_css (death_cfg m) [0%nat].
Proof.
  unfold death_cfg. cbv zeta. eapply dreach_run; [|apply sched_reach].
  apply (dreach_death _ _ _ _ _ _ _ _ _ 0 [true; false] []); [|by right; left|by intros [|t]].
  eapply dreach_run; [constructor|]. rewrite <- surjective_pairing. apply sched_reach.
Qed.

Lemma pool_death_recovered_witness :
  let c := death_cfg 12 in
  (∃ a, c.2 !! 1%nat = Some (Ret ([PClaimed (mkAllocation 0 1 1 true); PSent (PoolToken_new demo_pool (mkSpan 0 1) 1 Sized 0); PClaimed a], [a]))) ∧
  c.2 !! 0%nat = Some (Ret ([PReleased], [])) ∧
  exclusive death_own c.1 c.2 ∧
  ∀ cl s, (cl, s) ∈ all_words death_geo → State_owner (word_at c.1 cl s) ≠ Some 0.
Proof.
  intros c. assert (E0 : c.2 !! 0%nat = Some (Ret ([PReleased], []))) by (vm_compute; reflexivity).
  split; [eexists; vm_compute; reflexivity|]. split; [exact E0|].
  pose proof (death_reach 12) as Hr. fold c in Hr. destruct c as [W ps]. cbn [fst snd] in *.
  destruct (pool_death_recovered death_geo demo_pool death_own (mkLayout 192 64) (mkPoolInfo 64 4 1) 512
    death_css W ps [0%nat] death_ok ltac:(reflexivity) Hr) as [Hex Hd].
  split; [exact Hex|]. exact (proj2 (Hd 0%nat _ ltac:(by left) E0)).
Defined.

(** C22: the control words are well typed in every such run: each slot of each
    class has a word, it is canonical, and its generation is in range, so that
    the branches of the pool's operations for corrupted words are never taken
    and no generation wraps around. *)
Theorem pool_words_typed geo id own header info extent css W ps D c class s :
  pool_ok geo own css → recorded header info extent = Some (Some geo) →
  dreach geo id own header info extent css (W, ps) D →
  classes geo !! c = Some class → 0 ≤ s < slots class →
  ∃ row w, W !! c = Some row ∧ row !! Z.to_nat s = Some w ∧ length row = Z.to_nat (slots class) ∧
    is_word 32 w ∧ State_canonical w = true ∧ 0 ≤ State_generation w ≤ MAX_GENERATION.
Proof.
  intros Hok Hgeo Hr Hcl Hs. destruct (dreach_ok _ _ _ _ _ _ Hgeo _ _ _ Hok Hr) as (G & HI & _). cbn [fst] in HI.
  destruct (pinv_shape _ _ _ _ HI _ _ Hcl) as (row & Hrow & Hlen).
  destruct (lookup_lt_is_Some_2 row (Z.to_nat s)) as [w Hw]; [lia|].
  pose proof (auth_of_ok own (pool_own _ _ _ Hok) (held_by w)) as Ha.
  assert (Hg : gen_ok (gen w)).
  { apply (pinv_gen _ _ _ _ HI (Z.of_nat c) s). unfold look. by rewrite Nat2Z.id, Hrow. }
  exists (gword_enc own <$> row), (gword_enc own w). rewrite (pinv_words _ _ _ _ HI), !list_lookup_fmap, Hrow, Hw, length_fmap.
  unfold gword_enc. rewrite enc_canonical, enc_generation by done. split_and!; try done; [|apply Hg|apply Hg].
  apply pack_word; [lia|by apply auth_bits_range|]. unfold gen_ok in Hg. change MAX_GENERATION with (2 ^ (32 - 7) - 1) in Hg. lia.
Qed.

Lemma pool_words_typed_witness :
  let W := (death_cfg 3).1 in
  ∃ row w, W !! 0%nat = Some row ∧ row !! 2%nat = Some w ∧ length row = 4%nat ∧
    is_word 32 w ∧ State_canonical w = true ∧ 0 ≤ State_generation w ≤ MAX_GENERATION.
Proof.
  intros W. pose proof (death_reach 3) as Hr. unfold W. clear W. destruct (death_cfg 3) as [W ps]. cbn [fst].
  exact (pool_words_typed death_geo demo_pool death_own (mkLayout 192 64) (mkPoolInfo 64 4 1) 512 death_css W ps
    [0%nat] 0 (mkClass 64 4 192 256) 2 death_ok ltac:(reflexivity) Hr ltac:(reflexivity) ltac:(by_eval)).
Defined.
