(* ===== verification/PoolBlock.v ===== *)
(** * Blocks and their contents

    Models the typed half of [src/src/pool.rs] over the operations of [PoolOps]:
    reserving, filling, reading and handing over blocks, on the control words and
    the bytes of one pool.  A value is the bytes of its representation, and
    every byte is read and written by an action of its own. *)

From S2P Require Import Prelude Atomic Alloc Bytes Schema Header Token Pool PoolOps.

(** The control words, and the bytes of the storage by their offset. *)
Abbreviation pool_state := (words * gmap Z Z)%type.

Definition on_words {A} (p : prog words A) : prog pool_state A := on_part fst (λ w s, (w, s.2)) p.

(** ** Handles *)

(** [Vacant] and [Block]: the allocation, the pointer and what the pointer knows
    of its length. *)
Record Vacant := mkVacant { va_allocation : Allocation; va_at : Z; va_meta : Metadata }.
Record PoolBlock := mkPoolBlock { pb_allocation : Allocation; pb_at : Z; pb_meta : Metadata }.

(** [PoolRef::reserve] of a value of layout [l]. *)
Definition pool_reserve (p : PoolRef) (l : Layout) : prog pool_state (option (result Vacant PoolReserveError)) :=
  do r <- on_words (claim p l);
  Ret (option_map (λ r, let? c := r in Ok (mkVacant c.1 c.2 Sized)) r).

(** [Vacant::write] *)
Definition vacant_write (v : Vacant) (value : list Z) : prog pool_state PoolBlock :=
  do _ <- write_bytes (va_at v) value;
  Ret (mkPoolBlock (va_allocation v) (va_at v) (va_meta v)).

(** [PoolRef::put]; an error carries the value back. *)
Definition put (p : PoolRef) (l : Layout) (value : list Z) : prog pool_state (option (result PoolBlock (PoolReserveError * list Z))) :=
  do r <- pool_reserve p l;
  match r with
  | None => Ret None
  | Some (Ok v) => do b <- vacant_write v value; Ret (Some (Ok b))
  | Some (Err BlockTooLarge) => Ret (Some (Err (BlockTooLarge, value)))
  | Some (Err Unavailable) => Ret (Some (Err (Unavailable, value)))
  end.

(** [PoolRef::reserve_slice] and [PoolRef::reserve_bytes] *)
Definition vacant_slice (p : PoolRef) (elem : Layout) (len : Z) : prog pool_state (option (result Vacant PoolReserveError)) :=
  do r <- on_words (reserve_slice p elem len);
  Ret (option_map (λ r, let? c := r in Ok (mkVacant c.1 c.2 (Slice len))) r).

Definition reserve_bytes (p : PoolRef) (len : Z) : prog pool_state (option (result Vacant PoolReserveError)) :=
  vacant_slice p (mkLayout 1 1) len.

(** [Vacant::assume_all_init] *)
Definition assume_all_init (v : Vacant) : PoolBlock := mkPoolBlock (va_allocation v) (va_at v) (va_meta v).

(** [Vacant::assume_init] of the first [written] bytes. *)
Definition assume_init (v : Vacant) (written : Z) : result PoolBlock Vacant :=
  match va_meta v with
  | Slice len => if len <? written then Err v else Ok (mkPoolBlock (va_allocation v) (va_at v) (Slice written))
  | Sized => Err v
  end.

(** The loop of [PoolRef::init] over the elements from [index] on. *)
Fixpoint init_from (at_ esize : Z) (make : Z → list Z) (index : Z) (n : nat) : prog pool_state unit :=
  match n with
  | O => Ret tt
  | S n => do _ <- write_bytes (at_ + index * esize) (make index); init_from at_ esize make (index + 1) n
  end.

(** [PoolRef::init] *)
Definition pool_init (p : PoolRef) (elem : Layout) (len : Z) (make : Z → list Z) : prog pool_state (option (result PoolBlock PoolReserveError)) :=
  do r <- vacant_slice p elem len;
  match r with
  | None => Ret None
  | Some (Err e) => Ret (Some (Err e))
  | Some (Ok v) =>
    do _ <- init_from (va_at v) (size elem) make 0 (Z.to_nat len);
    Ret (Some (Ok (assume_all_init v)))
  end.

(** [PoolRef::copy] *)
Definition pool_copy (p : PoolRef) (elem : Layout) (values : list (list Z)) : prog pool_state (option (result PoolBlock PoolReserveError)) :=
  pool_init p elem (Z.of_nat (length values)) (λ index, values !!! Z.to_nat index).

(** [Deref] and [DerefMut] of a block: its bytes, all or from [off] on. *)
Definition block_read (b : PoolBlock) (len : nat) : prog pool_state (list Z) := read_bytes (pb_at b) len.
Definition block_write (b : PoolBlock) (off : Z) (bs : list Z) : prog pool_state unit := write_bytes (pb_at b + off) bs.

(** [Block::transfer_with]; [Block::transfer] and [Block::encode] choose [id]. *)
Definition block_token (p : PoolRef) (b : PoolBlock) (id : Z) : PoolToken := transfer_token p (pb_allocation b) (pb_meta b) id.

(** [PoolRef::adopt_id] with the pointer it builds. *)
Definition block_adopt (p : PoolRef) (s : Shape) (t : PoolToken) (expected : Z) : prog pool_state (option (result PoolBlock AdoptError)) :=
  do r <- on_words (adopt_id p s t expected);
  Ret (option_map (λ r, let? c := r in Ok (mkPoolBlock c.1 c.2 (default Sized (token_metadata t)))) r).

(** The drop of a block. *)
Definition block_drop (p : PoolRef) (b : PoolBlock) : prog pool_state (option bool) := on_words (drop_allocation p (pb_allocation b)).

(** The detachment of its allocation, on publication. *)
Definition block_detach (p : PoolRef) (b : PoolBlock) : prog pool_state (option (result Allocation AdoptError)) :=
  on_words (detach p (pb_allocation b)).
