(* ===== verification/PoolBlockConc.v ===== *)
(** * The bytes of blocks, under interference

    What a thread may rely on when the words and the bytes of a pool are shared:
    the blocks it holds keep what it put in them, and a block taken over holds
    what some thread sent with it.  The operations of [PoolBlock] are specified
    against that reliance. *)

From S2P Require Import Prelude Atomic Alloc Bytes Schema Header Token Pool PoolOps PoolGeo PoolConc PoolSeq PoolBlock.

(** ** Programs, action by action *)

(** Every action of [p] changes the state in a way [P] allows. *)
Inductive acts {S A} (P : (S → S) → Prop) : prog S A → Prop :=
| acts_ret a : acts P (Ret a)
| acts_act B (f : S → B * S) k : P (λ s, (f s).2) → (∀ b, acts P (k b)) → acts P (Act f k).

(** Every leaf of [p] satisfies [P]. *)
Inductive leaves {S A} (P : A → Prop) : prog S A → Prop :=
| leaves_ret a : P a → leaves P (Ret a)
| leaves_act B (f : S → B * S) k : (∀ b, leaves P (k b)) → leaves P (Act f k).

Lemma wp_leaves {S G A} (inv : G → S → Prop) rely t (p : prog S A) (P : A → Prop) Q g :
  leaves P p → wp inv rely t p Q g → wp inv rely t p (λ a g, Q a g ∧ P a) g.
Proof.
  intros HP. revert g. induction HP as [a Ha|B f k _ IH]; intros g Hwp; [by split|].
  intros g1 s HR HI. destruct (Hwp g1 s HR HI) as (g2 & ? & ? & ?). eauto.
Qed.

(** ** What the geometry must satisfy *)

Record geo_ok (geo : Geometry) : Prop := {
  go_laid : ∃ lo hi, laid_out lo (classes geo) hi;
  go_bytes : ∃ k, 0 ≤ k ∧ ∀ i class, classes geo !! i = Some class → bytes class = 2 ^ (k + Z.of_nat i);
  go_slots c class : classes geo !! c = Some class → 0 < slots class;
  go_classes : classes geo ≠ [];
}.

(** The answer of a claim: a block of a class that holds the layout, or none for
    an empty layout. *)
Definition claim_fits (geo : Geometry) (l : Layout) (r : option (result claimed PoolReserveError)) : Prop :=
  match r with
  | Some (Ok (a, off)) =>
    if al_live a then ∃ class, classes geo !! Z.to_nat (al_class a) = Some class ∧ off = Class_payload class (al_slot a) ∧ size l ≤ bytes class
    else size l = 0
  | _ => True
  end.

Section Claims.
Context (geo : Geometry) (id : LayoutId) (Hgeo : geo_ok geo).

Lemma probe_leaves l o index class ps next : classes geo !! Z.to_nat index = Some class → size l ≤ bytes class →
  leaves (claim_fits geo l) next → leaves (claim_fits geo l) (probe o index class ps next).
Proof using.
  intros Hc Hl Hn. induction ps as [|s ps IH]; simpl; [done|]. constructor. intros w.
  destruct (State_local _ _); [|done]. split_if; [|done]. constructor. intros won. destruct (is_ok won); [|done].
  constructor. simpl. eauto.
Qed.

Lemma probe_classes_leaves l o n cs : cs = drop n (classes geo) → (∀ i class, (n ≤ i)%nat → classes geo !! i = Some class → size l ≤ bytes class) →
  leaves (claim_fits geo l) (probe_classes o (Z.of_nat n) cs).
Proof using.
  intros Hcs Hl. revert n Hcs Hl. induction cs as [|class cs IH]; intros n Hcs Hl; simpl; [by constructor|].
  split_if; [by constructor|]. assert (Hn : classes geo !! n = Some class).
  { rewrite <- (Nat.add_0_r n), <- lookup_drop, <- Hcs. done. }
  apply probe_leaves; [by rewrite Nat2Z.id|by eapply Hl|]. replace (Z.of_nat n + 1) with (Z.of_nat (S n)) by lia.
  apply IH; [rewrite (drop_S _ _ _ Hn) in Hcs; by injection Hcs|]. intros i c Hi. apply Hl. lia.
Qed.

Lemma claim_leaves o l : 0 ≤ size l → leaves (claim_fits geo l) (claim (mkPoolRef geo id o) l).
Proof using Hgeo.
  intros Hl. unfold claim. destruct (Z.eqb_spec (size l) 0) as [E|Hne]; [by constructor|].
  destruct (checked_next_power_of_two _) as [needed|] eqn:En; [|by constructor]. cbn [pr_geometry pr_owner].
  destruct (classes geo !! 0%nat) as [first|] eqn:Ef; [|by constructor]. split_if; [by constructor|].
  destruct (go_bytes _ Hgeo) as (k & Hk & Hb). pose proof (Hb _ _ Ef) as Eb. rewrite Z.add_0_r in Eb.
  destruct (next_power_spec _ _ En) as [Hge Hp]; [lia|]. apply pow2_form in Hp as (n & Hn & ->). rewrite Eb, log2_max_pow2 in * by done.
  rewrite <- (Z2Nat.id (n `max` k - k)) at 1 by lia. apply probe_classes_leaves; [done|].
  intros i class Hi Hc. rewrite (Hb _ _ Hc). etrans; [|apply (Z.pow_le_mono_r 2 n); lia]. lia.
Qed.
End Claims.

(** ** Auxiliary state *)

(** A send: the thread, the block with its generation, and the bytes of the
    whole block at that moment. *)
Record send_entry := mkEntry { en_thread : nat; en_class : Z; en_slot : Z; en_generation : Z; en_bytes : list Z }.

Record dghost := mkDghost { dg : ghost; dm : gmap Z Z; dl : list send_entry }.

Section Data.
Context (geo : Geometry) (id : LayoutId) (own : nat → Z) (N : nat).
Context (Hown : ∀ t, 0 ≤ own t < PARTICIPANT_CAPACITY) (Hgeo : geo_ok geo).

#[local] Abbreviation pinv := (pinv geo own).
#[local] Abbreviation mine := (mine geo).

(** All the bytes of a block. *)
Definition full (m : gmap Z Z) (c s : Z) : list Z :=
  match classes geo !! Z.to_nat c with
  | Some class => (λ i, byte_at m (Class_payload class s + i)) <$> seqZ 0 (bytes class)
  | None => []
  end.

(** The bytes of a block in flight are the ones some thread sent. *)
Record dinv (D : dghost) (s : pool_state) : Prop := {
  di_pool : pinv (dg D) s.1;
  di_bytes : s.2 = dm D;
  di_flight c i g : 0 ≤ c → 0 ≤ i → look (dg D) c i = Some (mkGword g HToken) →
    ∃ e, e ∈ dl D ∧ (en_class e, en_slot e, en_generation e) = (c, i, g) ∧ full (dm D) c i = en_bytes e;
  di_threads e : e ∈ dl D → (en_thread e < N)%nat;
}.

Record drely (t : nat) (D D' : dghost) : Prop := {
  dr_pool : prely t (dg D) (dg D');
  dr_mine a : mine t a (dg D) → full (dm D') (al_class a) (al_slot a) = full (dm D) (al_class a) (al_slot a);
  dr_log e : e ∈ dl D → e ∈ dl D';
  dr_own e : e ∈ dl D' → en_thread e = t → e ∈ dl D;
}.

Lemma drely_refl t D : drely t D D.
Proof using. split; [apply rely_of_refl|done..]. Qed.

Lemma drely_trans t D1 D2 D3 : drely t D1 D2 → drely t D2 D3 → drely t D1 D3.
Proof using Hown.
  intros [P1 M1 L1 O1] [P2 M2 L2 O2]. split; [by eapply rely_of_trans| |eauto..].
  intros a Ha. rewrite M2, M1; [done|done|]. by eapply mine_stable.
Qed.

#[local] Abbreviation dwp := (wp dinv drely).

(** *** What a thread knows *)

(** A block it holds, and what is in it. *)
Definition keeps (t : nat) (D : dghost) (b : PoolBlock * list Z) : Prop :=
  let a := pb_allocation b.1 in
  if al_live a then
    mine t a (dg D) ∧ (∃ class, classes geo !! Z.to_nat (al_class a) = Some class ∧ (b.2 = [] ∨ pb_at b.1 = Class_payload class (al_slot a))) ∧
    b.2 = take (length b.2) (full (dm D) (al_class a) (al_slot a))
  else b.2 = [].

Definition keep_all (t : nat) (hs : list (PoolBlock * list Z)) (D : dghost) : Prop := ∀ b, b ∈ hs → keeps t D b.

Lemma keeps_rely t D D' b : drely t D D' → keeps t D b → keeps t D' b.
Proof using Hown.
  intros HR. unfold keeps. destruct (al_live _); [|done]. intros (Hm & Hc & Hb). split_and!; [|done|by rewrite (dr_mine _ _ _ HR)].
  eapply mine_stable; [apply HR|done].
Qed.

Lemma keep_all_stable t hs : stable drely t (keep_all t hs).
Proof using Hown. intros D D' HR Hk b Hb. by eapply keeps_rely; [|apply Hk]. Qed.

(** *** Holders *)

Lemma word_look G W c s : pinv G W → word_at W c s ≠ 0 → ∃ w, look G c s = Some w ∧ word_at W c s = gword_enc own w.
Proof using.
  intros HI Hw. unfold word_at, look in *. rewrite (pinv_words _ _ _ _ HI) in *. rewrite list_lookup_fmap in *.
  destruct (G !! Z.to_nat c) as [row|]; [|done]. simpl in *. rewrite list_lookup_fmap in *. destruct (row !! Z.to_nat s) as [w|]; [|done]. by exists w.
Qed.

Lemma enc_nonzero g a : gen_ok g → auth_ok a → a ≠ Free → enc g a ≠ 0.
Proof using. intros Hg Ha Hf E. apply (enc_inj g a 0 Free) in E as [_ ->]; done. Qed.

(** A thread's action that leaves the word of a block it holds leaves it the
    holder. *)
Lemma mine_kept t a G G' W W' : pinv G W → pinv G' W' → (∀ t', t' ≠ t → prely t' G G') → mine t a G →
  word_at W' (al_class a) (al_slot a) = word_at W (al_class a) (al_slot a) → mine t a G'.
Proof using Hown.
  intros HI HI' HR ([Hc Hg] & Hs & Hcl & Hl) Hw. split_and!; try done. rewrite (pinv_word _ _ _ _ _ _ _ HI Hl) in Hw.
  destruct (word_look _ _ (al_class a) (al_slot a) HI') as (w & Hl' & E).
  { rewrite Hw. apply enc_nonzero; [done|apply (auth_of_ok own Hown)|done]. }
  rewrite E in Hw. apply (gword_enc_inj own Hown) in Hw as [Hgen Ha]. destruct w as [g h]. simpl in *. subst g.
  destruct h as [| |t3]; [done|done|]. destruct (decide (t3 = t)) as [->|Hne]; [done|]. exfalso.
  apply (not_holder_stable t3 (al_class a) (al_slot a) _ _ (HR t3 Hne)) in Hl'; [done|]. intros g'. rewrite Hl. naive_solver.
Qed.

Lemma flight_word G W c s g : pinv G W → gen_ok g → look G c s = Some (mkGword g HToken) ↔ word_at W c s = enc g Detached.
Proof using Hown.
  intros HI Hg. split; [by intros ->%(pinv_word _ _ _ _ _ _ _ HI)|]. intros E.
  destruct (word_look _ _ c s HI) as (w & Hl & E'); [rewrite E; by apply enc_nonzero|].
  rewrite E' in E. apply (gword_enc_inj own Hown w (mkGword g HToken)) in E as [Hgen Ha]. destruct w as [g' h]. simpl in *. subst. by destruct h.
Qed.

(** *** Operations on the words *)

(** A change of the words that leaves those of the held blocks, and puts only
    what the log has in flight. *)
Definition gentle_at (t : nat) (hs : list (PoolBlock * list Z)) (m : gmap Z Z) (log : list send_entry) (W W' : words) : Prop :=
  ∀ c s, 0 ≤ c → 0 ≤ s → word_at W' c s = word_at W c s ∨
    (∀ g, gen_ok g → word_at W' c s = enc g Detached →
      ∃ e, e ∈ log ∧ (en_class e, en_slot e, en_generation e) = (c, s, g) ∧ full m c s = en_bytes e) ∧
    ∀ b, b ∈ hs → al_live (pb_allocation b.1) = true → (c, s) = place (pb_allocation b.1) → ∀ g, gen_ok g → word_at W c s ≠ enc g (Local (own t)).

Lemma words_step t D W m W' G' log hs : dinv D (W, m) → pinv G' W' → (∀ t', t' ≠ t → prely t' (dg D) G') →
  gentle_at t hs (dm D) log W W' → keep_all t hs D → (t < N)%nat →
  (∀ e, e ∈ dl D → e ∈ log) → (∀ e, e ∈ log → e ∈ dl D ∨ en_thread e = t) →
  let D' := mkDghost G' (dm D) log in
  dinv D' (W', m) ∧ (∀ t', t' ≠ t → drely t' D D') ∧ keep_all t hs D'.
Proof using Hown.
  intros HI HI' HR Hg Hk Ht Hlog Hnew D'. split_and!.
  - split; cbn [fst snd dg dm dl]; [done|apply HI| |intros e [?| ->]%Hnew; [by apply HI|done]]. intros c i g Hc Hi Hl.
    pose proof (pinv_gen _ _ _ _ HI' _ _ _ Hl) as Hgen. apply (flight_word _ _ _ _ _ HI' Hgen) in Hl.
    destruct (Hg c i Hc Hi) as [E|[Hn _]]; [|by apply Hn]. rewrite E in Hl. apply (flight_word _ _ _ _ _ (di_pool _ _ HI) Hgen) in Hl.
    destruct (di_flight _ _ HI _ _ _ Hc Hi Hl) as (e & He & Hkey & Hf). eauto.
  - intros t' Hne. split; [by apply HR|done|done|]. cbn [dl]. intros e [?|E]%Hnew ?; [done|congruence].
  - intros x Hx. pose proof (Hk x Hx) as Hkx. unfold keeps in *. cbn [D' dg dm]. destruct (al_live (pb_allocation x.1)) eqn:El; [|done].
    destruct Hkx as (Hm & Hc & Hb). split_and!; [|done|done]. eapply mine_kept; [apply HI|exact HI'|exact HR|done|]. cbn [fst].
    destruct Hm as ([Hc0 Hgen] & Hs0 & _ & Hl). destruct (Hg _ _ Hc0 Hs0) as [E|[_ Hfree]]; [done|]. exfalso.
    apply (Hfree x Hx El eq_refl _ Hgen). apply (pinv_word _ _ _ _ _ _ _ (di_pool _ _ HI) Hl).
Qed.

(** An action on the words that puts nothing in flight. *)
Definition gentle (t : nat) (hs : list (PoolBlock * list Z)) (f : words → words) : Prop :=
  ∀ G W, pinv G W → gentle_at t hs ∅ [] W (f W).

(** A specification on the words alone holds next to the bytes. *)
Lemma wp_words {A} t (p : prog words A) Q hs (R : list send_entry → Prop) D : (t < N)%nat →
  (∀ D D', drely t D D' → R (dl D) → R (dl D')) → acts (gentle t hs) p →
  wp pinv prely t p Q (dg D) → keep_all t hs D → R (dl D) →
  dwp t (on_words p) (λ a D, Q a (dg D) ∧ keep_all t hs D ∧ R (dl D)) D.
Proof using Hown.
  intros Ht HR Hacts. revert D. induction Hacts as [a|B f k Hf _ IH]; intros D Hwp Hk HRD; [by split_and!|].
  intros D1 [W m] Hrely HI. destruct (Hwp (dg D1) W (dr_pool _ _ _ Hrely) (di_pool _ _ HI)) as (G2 & HI2 & Hothers & Hwp2).
  cbn [fst snd]. pose proof (Hf _ _ (di_pool _ _ HI)) as Hg. cbn [fst] in Hg. cbv beta in Hg. destruct (f W) as [b W2] eqn:Ef. cbn [fst snd] in *.
  assert (Hk1 : keep_all t hs D1) by (by eapply keep_all_stable).
  destruct (words_step t D1 W m W2 G2 (dl D1) hs HI HI2 Hothers) as (H1 & H2 & H3); [|done|done|done|by left|].
  { intros c s Hc Hs. destruct (Hg c s Hc Hs) as [?|[Hn ?]]; [by left|right]. split; [|done]. intros g Hgen E. destruct (Hn g Hgen E) as (e & He & _). by apply elem_of_nil in He. }
  exists (mkDghost G2 (dm D1) (dl D1)). split_and!; [done|done|]. apply IH; cbn [dg dl]; [done|done|by eapply HR].
Qed.

(** *** Bytes *)

Lemma look_slot G W c s class : pinv G W → classes geo !! Z.to_nat c = Some class → is_Some (look G c s) → 0 ≤ s → s < slots class.
Proof using.
  intros HI Hc [w Hw] Hs. destruct (pinv_shape _ _ _ _ HI _ _ Hc) as (row & Hrow & Hlen). unfold look in Hw. rewrite Hrow in Hw. simpl in Hw.
  apply lookup_lt_Some in Hw. lia.
Qed.

(** A byte of one block is no byte of another. *)
Lemma full_other G W m c s c' s' class i v : pinv G W → classes geo !! Z.to_nat c = Some class → 0 ≤ i < bytes class →
  is_Some (look G c s) → is_Some (look G c' s') → 0 ≤ c → 0 ≤ s → 0 ≤ c' → 0 ≤ s' → (c, s) ≠ (c', s') →
  full (<[Class_payload class s + i := v]> m) c' s' = full m c' s'.
Proof using Hgeo.
  intros HI Hc Hi Hl Hl' Hc0 Hs0 Hc0' Hs0' Hne. unfold full. destruct (classes geo !! Z.to_nat c') as [class'|] eqn:Hc'; [|done].
  apply list_fmap_ext. intros n j Hj%list_elem_of_lookup_2%elem_of_seqZ. unfold byte_at. rewrite lookup_insert_ne; [done|]. intros E.
  destruct (go_laid _ Hgeo) as (lo & hi & Hlaid).
  pose proof (look_slot _ _ _ _ _ HI Hc Hl Hs0) as Hs1. pose proof (look_slot _ _ _ _ _ HI Hc' Hl' Hs0') as Hs1'.
  assert (Hx : ∀ c s class, classes geo !! Z.to_nat c = Some class → 0 ≤ s < slots class → extent (classes geo) (Block (Z.to_nat c) s) = Some (Class_payload class s, bytes class)).
  { intros c1 s1 class1 E1 [? ?]. simpl. rewrite E1. simpl. rewrite (proj2 (Z.leb_le 0 s1)), (proj2 (Z.ltb_lt s1 (slots class1))) by done. done. }
  assert (Hp : Block (Z.to_nat c) s ≠ Block (Z.to_nat c') s') by (intros [= E1 E2]; apply Hne; f_equal; lia).
  destruct (pieces_apart _ _ _ _ _ _ _ Hlaid Hp (Hx _ _ _ Hc (conj Hs0 Hs1)) (Hx _ _ _ Hc' (conj Hs0' Hs1'))) as [Ha|Ha]; cbn [fst snd] in Ha; lia.
Qed.

Lemma full_same m c s class i v : classes geo !! Z.to_nat c = Some class → 0 ≤ i < bytes class →
  full (<[Class_payload class s + i := v]> m) c s = <[Z.to_nat i := v]> (full m c s).
Proof using.
  intros Hc Hi. unfold full. rewrite Hc. apply list_eq. intros n.
  destruct (decide (n = Z.to_nat i)) as [->|Hne].
  - rewrite list_lookup_insert_eq by (rewrite length_fmap, length_seqZ; lia). rewrite list_lookup_fmap, lookup_seqZ_lt by lia. simpl.
    unfold byte_at. replace (Class_payload class s + (0 + Z.of_nat (Z.to_nat i))) with (Class_payload class s + i) by lia. by rewrite lookup_insert_eq.
  - rewrite list_lookup_insert_ne, !list_lookup_fmap by done. destruct (seqZ 0 (bytes class) !! n) as [j|] eqn:E; [|done].
    apply lookup_seqZ in E as [-> Hn]. simpl. unfold byte_at. rewrite lookup_insert_ne; [done|lia].
Qed.

(** *** What a thread owns *)

Definition owns (t : nat) (hs : list (PoolBlock * list Z)) (R : list send_entry → Prop) (D : dghost) : Prop :=
  holds geo t ((λ b, pb_allocation b.1) <$> hs) (dg D) ∧ keep_all t hs D ∧ R (dl D).

(** Knowledge of the log that the others do not take away. *)
Definition lasting (t : nat) (R : list send_entry → Prop) : Prop := ∀ D D', drely t D D' → R (dl D) → R (dl D').

Lemma owns_stable t hs R : lasting t R → stable drely t (owns t hs R).
Proof using Hown.
  intros HR D D' Hr (Hh & Hk & HRD). split_and!; [|by eapply keep_all_stable|by eapply HR].
  eapply holds_stable; [apply Hr|done].
Qed.

Lemma places_apart (hs : list (PoolBlock * list Z)) t G n m b b' : holds geo t ((λ b, pb_allocation b.1) <$> hs) G →
  hs !! n = Some b → hs !! m = Some b' → n ≠ m → al_live (pb_allocation b.1) = true → al_live (pb_allocation b'.1) = true →
  place (pb_allocation b.1) ≠ place (pb_allocation b'.1).
Proof using.
  intros [_ Hn] Hb Hb' Hne Hl Hl' E. rewrite (delete_Permutation hs n b Hb) in Hn. cbn [fmap list_fmap] in Hn. rewrite filter_cons_True in Hn by done.
  cbn [fmap list_fmap] in Hn. apply NoDup_cons in Hn as [Hx _]. apply Hx. rewrite E. apply list_elem_of_fmap. exists (pb_allocation b'.1). split; [done|].
  apply list_elem_of_filter. split; [done|]. apply list_elem_of_fmap. exists b'. split; [done|].
  destruct (decide (m < n)%nat); apply list_elem_of_lookup; [exists m; by rewrite list_lookup_delete_lt|exists (pred m)].
  rewrite list_lookup_delete_ge by lia. by replace (S (pred m)) with m by lia.
Qed.

Lemma kept_length t D b cs class : keeps t D (b, cs) → al_live (pb_allocation b) = true →
  classes geo !! Z.to_nat (al_class (pb_allocation b)) = Some class → Z.of_nat (length cs) ≤ Z.max 0 (bytes class).
Proof using.
  unfold keeps. cbn [fst snd]. intros Hk Hl Hc. rewrite Hl in Hk. destruct Hk as (_ & _ & E). apply (f_equal length) in E.
  rewrite length_take in E. unfold full in E. rewrite Hc, length_fmap, length_seqZ in E. lia.
Qed.

(** One byte of a block the thread holds. *)
Lemma byte_store_spec t hs R D n b cs i v {A} (k : prog pool_state A) Q : lasting t R → owns t hs R D → hs !! n = Some (b, cs) → (i < length cs)%nat →
  (∀ D, owns t (<[n := (b, <[i := v]> cs)]> hs) R D → dwp t k Q D) →
  dwp t (Act (store_byte (pb_at b + Z.of_nat i) v) (λ _, k)) Q D.
Proof using Hown Hgeo.
  intros HR Ho Hn Hi Hk D1 [W m] Hrely HI. apply (owns_stable _ _ _ HR _ _ Hrely) in Ho as (Hh & Hka & HRD). cbn [store_byte fst snd].
  pose proof (Hka _ (list_elem_of_lookup_2 _ _ _ Hn)) as Hb. destruct (al_live (pb_allocation b)) eqn:Hlive.
  2: { unfold keeps in Hb. cbn [fst snd] in Hb. rewrite Hlive in Hb. subst cs. simpl in Hi. lia. }
  assert (Hb' := Hb). unfold keeps in Hb'. cbn [fst snd] in Hb'. rewrite Hlive in Hb'. destruct Hb' as (Hm & (class & Hc & [->|Eat]) & Ecs); [simpl in Hi; lia|].
  pose proof (kept_length _ _ _ _ _ Hb Hlive Hc) as Hlen.
  assert (Hib : 0 ≤ Z.of_nat i < bytes class) by lia. destruct Hm as ([Hc0 Hg0] & Hs0 & _ & Hl). rewrite Eat.
  assert (Hoth : ∀ c s, is_Some (look (dg D1) c s) → 0 ≤ c → 0 ≤ s → place (pb_allocation b) ≠ (c, s) →
    full (<[Class_payload class (al_slot (pb_allocation b)) + Z.of_nat i := v]> (dm D1)) c s = full (dm D1) c s).
  { intros c s Hcs Hc1 Hs1 Hne. eapply full_other; [apply HI|done..]. }
  exists (mkDghost (dg D1) (<[Class_payload class (al_slot (pb_allocation b)) + Z.of_nat i := v]> (dm D1)) (dl D1)). split_and!.
  - split; cbn [fst snd dg dm dl]; [apply HI|f_equal; apply HI| |apply HI]. intros c s g Hc1 Hs1 Hl1. rewrite Hoth; [by apply (di_flight _ _ HI)|by eexists|done|done|].
    intros [= E1 E2]. rewrite <- E1, <- E2, Hl in Hl1. done.
  - intros t' Ht. split; [apply rely_of_refl| |done|done]. intros a ([Hc1 _] & Hs1 & _ & Hl1). cbn [dm]. apply Hoth; [by eexists|done|done|].
    intros [= E1 E2]. rewrite <- E1, <- E2, Hl in Hl1. congruence.
  - apply Hk. split_and!; cbn [dg dl]; [|intros x Hx|done].
    { rewrite list_fmap_insert, list_insert_id; [done|]. by rewrite list_lookup_fmap, Hn. }
    apply list_elem_of_lookup in Hx as [j Hj]. apply list_lookup_insert_Some in Hj as [(<- & <- & _)|[Hne Hj]]; unfold keeps; cbn [fst snd dg dm].
    + rewrite Hlive. split_and!; [by split_and!|eauto|]. rewrite full_same by done. rewrite Nat2Z.id, length_insert, take_insert_lt by done. by rewrite <- Ecs.
    + pose proof (Hka x (list_elem_of_lookup_2 _ _ _ Hj)) as Hx. unfold keeps in Hx. destruct (al_live (pb_allocation x.1)) eqn:Hlx; [|done].
      destruct Hx as (Hmx & Hcx & Ex). split_and!; [done|done|]. destruct Hmx as ([? _] & ? & _ & Hlx'). rewrite Hoth; [done|by eexists|done|done|].
      by apply (places_apart _ _ _ _ _ _ _ Hh Hn Hj).
Qed.

(** *** Runs of bytes *)

Lemma write_spec t R n b bs : lasting t R → ∀ hs D cs i, owns t hs R D → hs !! n = Some (b, cs) → (i + length bs ≤ length cs)%nat →
  dwp t (write_bytes (pb_at b + Z.of_nat i) bs) (λ _ D, owns t (<[n := (b, list_inserts i bs cs)]> hs) R D) D.
Proof using Hown Hgeo.
  intros HR. induction bs as [|v bs IH]; intros hs D cs i Ho Hn Hi; cbn [write_bytes].
  { apply wp_ret. by rewrite list_insert_id. }
  cbn [length] in Hi. eapply byte_store_spec; [done|done|done|lia|]. clear D Ho. intros D Ho.
  replace (pb_at b + Z.of_nat i + 1) with (pb_at b + Z.of_nat (S i)) by lia. eapply wp_mono; [|eapply (IH _ _ (<[i := v]> cs) (S i)); [done| |rewrite length_insert; lia]].
  - cbv beta. intros _ D'. rewrite list_insert_insert_eq. cbn [list_inserts]. by rewrite <- list_insert_inserts_lt by lia.
  - apply list_lookup_insert_eq. by eapply lookup_lt_Some.
Qed.

Lemma read_spec t hs R n b cs len : lasting t R → hs !! n = Some (b, cs) → ∀ i D, (i + len ≤ length cs)%nat → owns t hs R D →
  dwp t (read_bytes (pb_at b + Z.of_nat i) len) (λ r D, r = take len (drop i cs) ∧ owns t hs R D) D.
Proof using Hown.
  intros HR Hn. induction len as [|len IH]; intros i D Hi Ho; cbn [read_bytes]; [by apply wp_ret|].
  intros D1 [W m] Hrely HI. apply (owns_stable _ _ _ HR _ _ Hrely) in Ho. exists D1. split_and!; [done|intros; apply drely_refl|].
  cbn [load_byte fst snd]. pose proof Ho as (Hh & Hka & HRD). pose proof (Hka _ (list_elem_of_lookup_2 _ _ _ Hn)) as Hb.
  assert (Hv : cs !! i = Some (byte_at m (pb_at b + Z.of_nat i))).
  { unfold keeps in Hb. cbn [fst snd] in Hb. destruct (al_live (pb_allocation b)); [|subst cs; simpl in Hi; lia]. destruct Hb as (_ & (class & Hc & [->|Eat]) & E); [simpl in Hi; lia|]. rewrite Eat.
    assert (Hl : (length cs ≤ length (full (dm D1) (al_class (pb_allocation b)) (al_slot (pb_allocation b))))%nat) by (apply (f_equal length) in E; rewrite length_take in E; lia).
    rewrite E, lookup_take_lt by lia. unfold full in *. rewrite Hc in *. rewrite length_fmap, length_seqZ in Hl. rewrite list_lookup_fmap, lookup_seqZ_lt by lia.
    simpl. pose proof (di_bytes _ _ HI) as Em. cbn [snd] in Em. by rewrite Em. }
  replace (pb_at b + Z.of_nat i + 1) with (pb_at b + Z.of_nat (S i)) by lia. eapply wp_seq; [apply IH; [lia|done]|]. cbv beta. intros r D' [-> Ho']. apply wp_ret.
  split; [|done]. by rewrite (drop_S _ _ _ Hv).
Qed.

(** *** Claims and releases *)

Lemma cas_word_at W c s old new c' s' : 0 ≤ c → 0 ≤ s → 0 ≤ c' → 0 ≤ s' →
  word_at (cas_word c s old new W).2 c' s' = word_at W c' s' ∨
  (c', s') = (c, s) ∧ word_at W c s = old ∧ word_at (cas_word c s old new W).2 c' s' = new.
Proof using.
  intros Hc Hs Hc' Hs'. unfold cas_word. destruct (Z.eqb_spec (word_at W c s) old) as [E|]; [|by left]. cbn [snd].
  destruct (W !! Z.to_nat c ≫= λ row, row !! Z.to_nat s) as [w|] eqn:El.
  - rewrite word_set by (done || right; by eexists). case_decide as Hd; [right|by left]. destruct Hd as [-> ->]. by split_and!.
  - left. unfold set_word, word_at. destruct (W !! Z.to_nat c) as [row|] eqn:Er; simpl in El.
    all: f_equal; (destruct (decide (Z.to_nat c' = Z.to_nat c)) as [->|Hne]; [rewrite list_lookup_alter_eq, Er; simpl|by rewrite list_lookup_alter_ne]); try done.
    by rewrite list_insert_ge by (by apply lookup_ge_None).
Qed.

Lemma gentle_read t hs {B} (f : words → B * words) : (∀ W, (f W).2 = W) → gentle t hs (λ W, (f W).2).
Proof using. intros Hf G W _ c s _ _. left. by rewrite Hf. Qed.

Lemma word_known G W c s : pinv G W → ∃ w, gen_ok (gen w) ∧ word_at W c s = gword_enc own w.
Proof using.
  intros HI. destruct (decide (word_at W c s = 0)) as [E|Hne]; [by exists (mkGword 0 HFree)|].
  destruct (word_look _ _ _ _ HI Hne) as (w & Hl & E). exists w. split; [by eapply pinv_gen|done].
Qed.

Lemma probe_gentle t hs index class ps next : 0 ≤ index → (∀ s, s ∈ ps → 0 ≤ s) → acts (gentle t hs) next →
  acts (gentle t hs) (probe (own t) index class ps next).
Proof using Hown.
  intros Hi Hps Hn. induction ps as [|s ps IH]; simpl; [done|].
  assert (IH' : acts (gentle t hs) (probe (own t) index class ps next)) by (apply IH; intros; apply Hps, elem_of_cons; by right). clear IH.
  constructor; [by apply gentle_read|]. intros free. destruct (State_local _ _) as [local|] eqn:El; [|done].
  destruct (State_canonical free && negb (State_allocated free) && (State_generation free <? MAX_GENERATION)) eqn:Et; [|done].
  constructor; [|intros won; destruct (is_ok won); [constructor|done]].
  intros G W HI c' s' Hc' Hs'. destruct (cas_word_at W index s free local c' s') as [E|(E & Ef & En)]; [done|apply Hps, elem_of_cons; by left|done|done|by left|].
  right. injection E as -> ->. destruct (word_known _ _ index s HI) as (w & Hg & Ew). rewrite Ew in *. subst free.
  apply andb_true_iff in Et as [Et Hlt]. pose proof (gword_enc_free own Hown w Et) as Hfree. unfold gword_enc in *. rewrite enc_generation in * by apply (auth_of_ok own Hown).
  apply Z.ltb_lt in Hlt. rewrite Z.min_l in El by (unfold gen_ok in *; change MAX_GENERATION with 33554431 in *; unfold u32_max; lia).
  rewrite enc_local in El by (apply Hown || unfold gen_ok in *; lia). injection El as <-. split.
  - intros g _ Eg. rewrite En in Eg. by apply enc_inj in Eg as [_ ?]; [|apply (auth_of_ok own Hown (HThread t))|done].
  - intros _ _ _ _ g _ Eg. rewrite Hfree in Eg. by apply enc_inj in Eg as [_ ?]; [|done|apply (auth_of_ok own Hown (HThread t))].
Qed.

Lemma claim_gentle t hs l : acts (gentle t hs) (claim (mkPoolRef geo id (own t)) l).
Proof using Hown.
  unfold claim. split_if; [constructor|]. destruct (checked_next_power_of_two _); [|constructor]. cbn [pr_geometry pr_owner].
  destruct (classes geo !! 0%nat) as [first|]; [|constructor]. split_if; [constructor|].
  assert (Hp : ∀ cs index, 0 ≤ index → acts (gentle t hs) (probe_classes (own t) index cs)).
  { induction cs as [|class cs IH]; intros index Hi; simpl; [constructor|]. destruct (Z.eqb_spec (slots class) 0) as [|Hs]; [constructor|].
    apply probe_gentle; [done| |apply IH; lia]. intros s (i & -> & Hin)%list_elem_of_fmap. apply elem_of_seqZ in Hin. apply Z.mod_pos_bound. lia. }
  apply Hp. assert (Z.log2 (bytes first) ≤ Z.log2 (Z.max z (bytes first))); [apply Z.log2_le_mono; lia|lia].
Qed.

#[local] Abbreviation allocs := (fmap (λ b : PoolBlock * list Z, pb_allocation b.1)).
#[local] Abbreviation pref t := (mkPoolRef geo id (own t)).

(** A fresh block holds what it holds. *)
Lemma claim_data t hs R D l : (t < N)%nat → lasting t R → owns t hs R D → 0 ≤ size l →
  dwp t (on_words (claim (pref t) l)) (λ r D, match r with
    | Some (Ok (a, off)) => ∀ m, ∃ cs, Z.of_nat (length cs) = size l ∧ owns t ((mkPoolBlock a off m, cs) :: hs) R D
    | Some (Err _) => owns t hs R D
    | None => False
    end) D.
Proof using Hown Hgeo.
  intros Ht HR (Hh & Hk & HRD) Hl. eapply wp_mono; [|apply (wp_words t _ (λ r G, claim_ok geo t (allocs hs) r G ∧ claim_fits geo l r) hs R D Ht HR (claim_gentle t hs l))]; [| |done|done].
  2: { eapply wp_leaves; [by apply claim_leaves|]. apply (pool_claim_spec geo id own Hown); [apply Hgeo|apply Hgeo|done]. }
  cbv beta. intros [[[a off]|e]|] D' ([Hc Hf] & Hk' & HR'); [|by split_and!|done]. cbn in Hc, Hf. intros m. destruct (al_live a) eqn:El.
  - destruct Hf as (class & Hcl & -> & Hb). exists (take (Z.to_nat (size l)) (full (dm D') (al_class a) (al_slot a))).
    assert (Hlen : length (take (Z.to_nat (size l)) (full (dm D') (al_class a) (al_slot a))) = Z.to_nat (size l)).
    { rewrite length_take. unfold full. rewrite Hcl, length_fmap, length_seqZ. lia. }
    split; [lia|]. split_and!; [done| |done]. intros b [->|Hin]%elem_of_cons; [|by apply Hk']. unfold keeps. cbn [fst snd pb_allocation pb_at]. rewrite El.
    split_and!; [apply Hc; [apply elem_of_cons; by left|done]|eauto|by rewrite Hlen].
  - exists []. split; [done|]. split_and!; [done| |done]. intros b [->|Hin]%elem_of_cons; [|by apply Hk']. unfold keeps. cbn [fst snd pb_allocation]. by rewrite El.
Qed.

Lemma keep_delete t hs n D : keep_all t hs D → keep_all t (delete n hs) D.
Proof using.
  intros Hk x Hx. apply Hk. apply list_elem_of_lookup in Hx as [i Hi]. rewrite list_lookup_delete in Hi. case_decide; by eapply list_elem_of_lookup_2.
Qed.

(** A change of the word of one held block concerns no other. *)
Lemma others_apart t hs G n b cs x : holds geo t (allocs hs) G → hs !! n = Some (b, cs) → al_live (pb_allocation b) = true →
  x ∈ delete n hs → al_live (pb_allocation x.1) = true → place (pb_allocation b) ≠ place (pb_allocation x.1).
Proof using.
  intros Hh Hn Hl Hx Hlx. apply list_elem_of_lookup in Hx as [i Hi]. rewrite list_lookup_delete in Hi.
  assert (∃ j, j ≠ n ∧ hs !! j = Some x) as (j & Hj & Hxj) by (case_decide; [exists i|exists (S i)]; split; (done || lia)).
  by apply (places_apart hs t G n j (b, cs) x Hh Hn Hxj).
Qed.

Lemma drop_data t hs R D n b cs : (t < N)%nat → lasting t R → owns t hs R D → hs !! n = Some (b, cs) →
  dwp t (block_drop (pref t) b) (λ r D, r = Some true ∧ owns t (delete n hs) R D) D.
Proof using Hown Hgeo.
  intros Ht HR (Hh & Hk & HRD) Hn. unfold block_drop.
  eapply wp_mono; [|apply (wp_words t _ (λ r G, r = Some true ∧ holds geo t (delete n (allocs hs)) G) (delete n hs) R D Ht HR)].
  - cbv beta. intros r D' ([-> Hh'] & Hk' & HR'). split; [done|]. split_and!; [by rewrite list_fmap_delete|done|done].
  - unfold drop_allocation. destruct (al_live (pb_allocation b)) eqn:El; [|constructor].
    destruct (holds_mine _ _ _ _ Hh (pb_allocation b)) as ([Hc Hg] & Hs & [class Hcl] & Hl); [apply list_elem_of_fmap; exists (b, cs); split; [done|by eapply list_elem_of_lookup_2]|done|].
    unfold release. cbn [pr_geometry pr_owner]. rewrite Hcl, enc_local, enc_free by (done || apply Hown). constructor; [|constructor].
    intros G W HI c' s' Hc' Hs'. destruct (cas_word_at W (al_class (pb_allocation b)) (al_slot (pb_allocation b)) (enc (al_generation (pb_allocation b)) (Local (own t))) (enc (al_generation (pb_allocation b)) Free) c' s') as [E|(E & Ef & En)]; [done..|by left|].
    right. split; [intros g _ Eg; rewrite En in Eg; by apply enc_inj in Eg as [_ ?]|]. intros x Hx Hlx Epl. exfalso. rewrite E in Epl.
    by apply (others_apart t hs (dg D) n b cs x Hh Hn El Hx Hlx).
  - apply (release_spec geo id own Hown t (allocs hs) n (pb_allocation b)); [done|]. by rewrite list_lookup_fmap, Hn.
  - by apply keep_delete.
  - done.
Qed.

(** *** Hand-over *)

Definition entry_of (t : nat) (a : Allocation) (bs : list Z) : send_entry := mkEntry t (al_class a) (al_slot a) (al_generation a) bs.

(** Detaching a block logs what is in it. *)
Lemma detach_data t hs R (R' : list send_entry → Prop) D n b cs : (t < N)%nat → lasting t R → owns t hs R D → hs !! n = Some (b, cs) →
  (∀ L, R L → R' L) → (∀ L bs, R L → cs = take (length cs) bs → R' (L ++ [entry_of t (pb_allocation b) bs])) →
  dwp t (block_detach (pref t) b) (λ r D, (∃ a, r = Some (Ok a)) ∧ owns t (delete n hs) R' D) D.
Proof using Hown Hgeo.
  intros Ht HR Ho Hn Hmono Hlog. pose proof Ho as (Hh & Hk & HRD). set (a := pb_allocation b).
  assert (Hin : allocs hs !! n = Some a) by (by rewrite list_lookup_fmap, Hn).
  pose proof (detach_spec geo id own Hown t (allocs hs) n a (dg D) Hh Hin) as Hwp. unfold block_detach. fold a. revert Hwp. unfold detach. cbn [pr_geometry pr_owner PoolConc.pref].
  destruct (al_live a) eqn:El; cbn [negb].
  2: { intros (a' & [= <-] & _ & Hh'). apply wp_ret. split; [eauto|]. split_and!; [by rewrite list_fmap_delete|by apply keep_delete|by apply Hmono]. }
  destruct (holds_mine _ _ _ _ Hh a (list_elem_of_lookup_2 _ _ _ Hin) El) as ([Hc Hg] & Hs & [class Hcl] & _).
  rewrite Hcl, enc_local, enc_detached by (done || apply Hown). intros Hwp D1 [W m] Hrely HI. apply (owns_stable _ _ _ HR _ _ Hrely) in Ho as (Hh1 & Hk1 & HR1).
  destruct (Hwp (dg D1) W (dr_pool _ _ _ Hrely) (di_pool _ _ HI)) as (G2 & HI2 & Hothers & Hend). cbn [fst snd].
  pose proof (Hk1 _ (list_elem_of_lookup_2 _ _ _ Hn)) as Hb. unfold keeps in Hb. cbn [fst snd] in Hb. fold a in Hb. rewrite El in Hb. destruct Hb as (_ & _ & Ecs).
  pose proof (λ c' s', cas_word_at W (al_class a) (al_slot a) (enc (al_generation a) (Local (own t))) (enc (al_generation a) Detached) c' s' Hc Hs) as Hcas.
  destruct (cas_word _ _ _ _ W) as [r W2] eqn:Ew. cbn [fst snd] in *. set (e := entry_of t a (full (dm D1) (al_class a) (al_slot a))).
  destruct (words_step t D1 W m W2 G2 (dl D1 ++ [e]) (delete n hs) HI HI2 Hothers) as (H1 & H2 & H3); [|by apply keep_delete|done| | |].
  { intros c' s' Hc' Hs'. destruct (Hcas c' s' Hc' Hs') as [E|(E & Ef & En)]; [by left|right]. injection E as -> ->. split.
    - intros g Hgg Eg. rewrite En in Eg. apply enc_inj in Eg as [<- _]; [|done|done]. exists e. split; [apply elem_of_app; right; by apply elem_of_cons; left|done].
    - intros x Hx Hlx Epl. exfalso. by apply (others_apart t hs (dg D1) n b cs x Hh1 Hn El Hx Hlx). }
  { intros x ?. apply elem_of_app. by left. }
  { intros x [?|Hx]%elem_of_app; [by left|right]. apply list_elem_of_singleton in Hx. by subst. }
  exists (mkDghost G2 (dm D1) (dl D1 ++ [e])). split_and!; [done|done|]. destruct Hend as (a' & Er & _ & Hh2). cbn [on_words on_part].
  apply wp_ret. split; [eauto|]. split_and!; [by rewrite list_fmap_delete|done|]. cbn [dl]. by apply Hlog.
Qed.

(** A block taken over holds what some thread sent with it. *)
Lemma takeover_data t hs R D tok : (t < N)%nat → lasting t R → owns t hs R D → token_ok tok →
  dwp t (on_words (takeover (pref t) tok)) (λ r D, match r with
    | Some (Ok a) => holds geo t (a :: allocs hs) (dg D) ∧ keep_all t hs D ∧ R (dl D) ∧
        (al_class a, al_slot a, al_generation a) = (if al_live a then (span_class (tok_span tok), span_slot (tok_span tok), tok_generation tok) else (0, 0, 0)) ∧
        (al_live a = true → ∃ e, e ∈ dl D ∧ (en_class e, en_slot e, en_generation e) = (al_class a, al_slot a, al_generation a) ∧
          full (dm D) (al_class a) (al_slot a) = en_bytes e) ∧
        (al_live a = false → tok_generation tok = 0)
    | Some (Err _) => owns t hs R D
    | None => False
    end) D.
Proof using Hown Hgeo.
  intros Ht HR Ho Htok. pose proof Ho as (Hh & Hk & HRD). pose proof (takeover_spec geo id own Hown t (allocs hs) tok (dg D) Htok Hh) as Hwp.
  destruct Htok as (Hg0 & Hc & Hs). revert Hwp. unfold takeover. cbn [pr_geometry pr_owner pr_id PoolConc.pref].
  destruct (Z.eqb_spec (tok_generation tok) 0) as [E0|Hne0].
  { intros Hwp. apply wp_ret. case_bool_decide; [|done]. cbn [Allocation_empty al_live]. by split_and!. }
  destruct (Z.ltb_spec MAX_GENERATION (tok_generation tok)); [intros _; by apply wp_ret|]. split_if; [intros _; by apply wp_ret|].
  destruct (classes geo !! Z.to_nat (span_class (tok_span tok))) as [class|] eqn:Hcl; [|intros _; by apply wp_ret]. split_if; [intros _; by apply wp_ret|].
  assert (Hg : gen_ok (tok_generation tok)) by (unfold gen_ok; lia). rewrite enc_local, enc_detached by (done || apply Hown).
  intros Hwp D1 [W m] Hrely HI. apply (owns_stable _ _ _ HR _ _ Hrely) in Ho as (Hh1 & Hk1 & HR1).
  destruct (Hwp (dg D1) W (dr_pool _ _ _ Hrely) (di_pool _ _ HI)) as (G2 & HI2 & Hothers & Hend). cbn [fst snd].
  pose proof (λ c' s', cas_word_at W (span_class (tok_span tok)) (span_slot (tok_span tok)) (enc (tok_generation tok) Detached) (enc (tok_generation tok) (Local (own t))) c' s' Hc Hs) as Hcas.
  assert (Hok : (cas_word (span_class (tok_span tok)) (span_slot (tok_span tok)) (enc (tok_generation tok) Detached) (enc (tok_generation tok) (Local (own t))) W).1 = Ok tt →
    word_at W (span_class (tok_span tok)) (span_slot (tok_span tok)) = enc (tok_generation tok) Detached) by (unfold cas_word; clear; destruct (word_at W _ _ =? _) eqn:Eq; [by apply Z.eqb_eq in Eq|done]).
  destruct (cas_word _ _ _ _ W) as [r W2] eqn:Ew. cbn [fst snd] in *.
  destruct (words_step t D1 W m W2 G2 (dl D1) hs HI HI2 Hothers) as (H1 & H2 & H3); [|done|done|done|by left|].
  { intros c' s' Hc' Hs'. destruct (Hcas c' s' Hc' Hs') as [E|(E & Ef & En)]; [by left|right]. injection E as -> ->. split.
    - intros g _ Eg. rewrite En in Eg. by apply enc_inj in Eg as [_ ?]; [|apply (auth_of_ok own Hown (HThread t))|done].
    - intros _ _ _ _ g _ Eg. rewrite Ef in Eg. by apply enc_inj in Eg as [_ ?]; [|done|apply (auth_of_ok own Hown (HThread t))]. }
  exists (mkDghost G2 (dm D1) (dl D1)). split_and!; [done|done|]. cbn [on_words on_part]. destruct r as [[]|]; cbn [is_ok] in *; apply wp_ret; [|by split_and!].
  cbn [al_class al_slot al_generation al_live dl dg dm]. split_and!; [done|done|done|done| |done]. intros _.
  specialize (Hok eq_refl). apply (flight_word _ _ _ _ _ (di_pool _ _ HI) Hg) in Hok. destruct (di_flight _ _ HI _ _ _ Hc Hs Hok) as (e & He & Hkey & Hf). by exists e.
Qed.

(** An adopted block, of as many bytes as its layout has. *)
Lemma adopt_data t hs R D tok sh expected : (t < N)%nat → lasting t R → owns t hs R D → token_ok tok →
  (∀ m l, token_metadata tok = Some m → shape_layout sh m = Ok l → 0 ≤ size l) →
  dwp t (block_adopt (pref t) sh tok expected) (λ r D, match r with
    | Some (Ok b) => ∃ m l cs, token_metadata tok = Some m ∧ shape_layout sh m = Ok l ∧ Z.of_nat (length cs) = size l ∧ owns t ((b, cs) :: hs) R D ∧
        (cs = [] ∨ ∃ e, e ∈ dl D ∧ (en_class e, en_slot e, en_generation e) = (span_class (tok_span tok), span_slot (tok_span tok), tok_generation tok) ∧
          cs = take (length cs) (en_bytes e))
    | Some (Err _) => owns t hs R D
    | None => False
    end) D.
Proof using Hown Hgeo.
  intros Ht HR Ho Htok Hsize. unfold block_adopt. eapply wp_seq; [|cbv beta; intros r D' HQ; apply wp_ret; exact HQ]. unfold adopt_id. cbn [pr_geometry].
  split_if; [by apply wp_ret|]. destruct (token_metadata tok) as [m|] eqn:Em; [|by apply wp_ret].
  destruct (shape_layout sh m) as [l|] eqn:El; [|by apply wp_ret]. specialize (Hsize m l eq_refl El).
  pose proof (takeover_data t hs R D tok Ht HR Ho Htok) as Htake. destruct (Z.eqb_spec (size l) 0) as [E0|Hne].
  { eapply wp_on_part_seq; [exact Htake|]. cbv beta. intros [[a|]|] D' HQ; [|by apply wp_ret|done]. apply wp_ret. cbn [option_map fst snd].
    destruct HQ as (Hh & Hk & HRD & _). exists m, l, []. split_and!; [done|done|done| |by left].
    split_and!; [done| |done]. intros x [->|Hx]%elem_of_cons; [|by apply Hk].
    unfold keeps. cbn [fst snd pb_allocation pb_at]. destruct (al_live a) eqn:Ela; [|done].
    pose proof (holds_mine _ _ _ _ Hh a ltac:(apply elem_of_cons; by left) Ela) as Hm. split_and!; [done| |done]. destruct Hm as (_ & _ & [class Hcl] & _). exists class. eauto. }
  destruct (classes geo !! Z.to_nat (span_class (tok_span tok))) as [class|] eqn:Hcl; [|by apply wp_ret].
  destruct (_ || _) eqn:Eg; [by apply wp_ret|]. bools. eapply wp_on_part_seq; [exact Htake|]. cbv beta. intros [[a|]|] D' HQ; [|by apply wp_ret|done]. apply wp_ret. cbn [option_map fst snd].
  destruct HQ as (Hh & Hk & HRD & Hkey & Hsent & Hempty). destruct (al_live a) eqn:Ela; [|specialize (Hempty eq_refl); tauto]. injection Hkey as E1 E2 E3.
  exists m, l, (take (Z.to_nat (size l)) (full (dm D') (al_class a) (al_slot a))).
  assert (Hlen : length (take (Z.to_nat (size l)) (full (dm D') (al_class a) (al_slot a))) = Z.to_nat (size l)).
  { rewrite length_take. unfold full. rewrite E1, Hcl, length_fmap, length_seqZ. lia. }
  split_and!; [done|done|lia| |].
  - split_and!; [done| |done]. intros x [->|Hx]%elem_of_cons; [|by apply Hk]. unfold keeps. cbn [fst snd pb_allocation pb_at]. rewrite Ela.
    split_and!; [apply (holds_mine _ _ _ _ Hh a ltac:(apply elem_of_cons; by left) Ela)|exists class; rewrite E1, E2; eauto|by rewrite Hlen].
  - right. destruct (Hsent eq_refl) as (e & He & Hkey & Hf). exists e. split_and!; [done|by rewrite Hkey, E1, E2, E3|by rewrite Hlen, <- Hf].
Qed.

(** *** Values *)

Lemma init_spec t R n b make e : lasting t R → 0 ≤ e → ∀ cnt hs D cs k, owns t hs R D → hs !! n = Some (b, cs) → 0 ≤ k →
  (∀ i, k ≤ i < k + Z.of_nat cnt → Z.of_nat (length (make i)) = e) → (k + Z.of_nat cnt) * e ≤ Z.of_nat (length cs) →
  dwp t (init_from (pb_at b) e make k cnt) (λ _ D, owns t (<[n := (b, list_inserts (Z.to_nat (k * e)) (concat (make <$> seqZ k (Z.of_nat cnt))) cs)]> hs) R D) D.
Proof using Hown Hgeo.
  intros HR He. induction cnt as [|cnt IH]; intros hs D cs k Ho Hn Hk Hmake Hfit; cbn [init_from].
  { apply wp_ret. by rewrite list_insert_id. }
  pose proof (Hmake k ltac:(lia)) as Hlen. assert (0 ≤ k * e ∧ k * e + e ≤ Z.of_nat (length cs) ∧ (k + 1) * e = k * e + e) as (Hke & Hroom & Hsucc) by nia.
  rewrite <- (Z2Nat.id (k * e)) at 1 by done.
  eapply wp_seq; [apply (write_spec t R n b (make k) HR hs D cs); [done|done|lia]|]. cbv beta. clear D Ho. intros _ D Ho.
  eapply wp_mono; [|apply (IH _ D (list_inserts (Z.to_nat (k * e)) (make k) cs) (k + 1) Ho)].
  - cbv beta. intros _ D'. rewrite list_insert_insert_eq, (seqZ_cons k (Z.of_nat (S cnt))) by lia. replace (Z.pred (Z.of_nat (S cnt))) with (Z.of_nat cnt) by lia.
    cbn [fmap list_fmap concat]. rewrite list_inserts_app_l. replace (length (make k) + Z.to_nat (k * e))%nat with (Z.to_nat ((k + 1) * e)) by lia. done.
  - apply list_lookup_insert_eq. by eapply lookup_lt_Some.
  - lia.
  - intros i Hi. apply Hmake. lia.
  - rewrite length_inserts. nia.
Qed.

(** Fewer bytes of a block are kept as well. *)
Lemma owns_shrink t hs R D b b' cs k : owns t ((b, cs) :: hs) R D → pb_allocation b' = pb_allocation b → pb_at b' = pb_at b → owns t ((b', take k cs) :: hs) R D.
Proof using.
  intros (Hh & Hk & HRD) Ea Eat. split_and!; [by cbn [fmap list_fmap fst] in *; rewrite Ea| |done].
  intros x [->|Hx]%elem_of_cons; [|apply Hk, elem_of_cons; by right]. pose proof (Hk (b, cs) ltac:(apply elem_of_cons; by left)) as Hb.
  unfold keeps in *. cbn [fst snd] in *. rewrite Ea, Eat. destruct (al_live _); [|by rewrite Hb, take_nil].
  destruct Hb as (Hm & (class & Hc & Hat) & E). split_and!; [done| |].
  - exists class. split; [done|]. destruct Hat as [->|?]; [left; by rewrite take_nil|by right].
  - rewrite length_take. rewrite E at 1. rewrite take_take. by rewrite Nat.min_comm.
Qed.
End Data.
