(* ===== verification/PoolBlockRun.v ===== *)
(** * Blocks keep what their holders write

    Any number of participants reserve, fill, read, send and adopt blocks of one
    pool at the same time, each access of a word or a byte interleaved with the
    others'. *)

From S2P Require Import Prelude Atomic Alloc Bytes Schema Header Token Pool PoolOps PoolGeo PoolConc PoolSeq PoolBlock PoolBlockConc.

(** ** Clients *)

Inductive bcmd :=
| BPut (l : Layout) (value : list Z)
| BCopy (elem : Layout) (values : list (list Z))
| BFill (len : Z) (bs : list Z)
| BWrite (n off : nat) (bs : list Z)
| BRead (n : nat)
| BSend (n : nat) (s : Shape) (tid : Z)
| BTake (tok : PoolToken) (s : Shape) (expected : Z)
| BDrop (n : nat).

Inductive bout :=
| BMade | BRefused | BNothing | BPanicked
| BWritten | BSame | BDiffers
| BSent (tok : PoolToken) (s : Shape) (cs : list Z) | BTook (tok : PoolToken) (s : Shape) (cs : list Z)
| BDropped | BLost.

Abbreviation blocks := (list (PoolBlock * list Z)).

(** What a client makes of a block it asked for: it has [cs] in it, or nothing
    happened. *)
Definition made {E} (cs : list Z) (hs : blocks) (r : option (result PoolBlock E)) : bout * blocks :=
  match r with
  | Some (Ok b) => (BMade, (b, cs) :: hs)
  | Some (Err _) => (BRefused, hs)
  | None => (BPanicked, hs)
  end.

(** The bytes [cs] are a value of the shape [s]: what the type of a block says of
    its contents.  Only such a block can be sent as an [s]. *)
Definition typed (s : Shape) (m : Metadata) (cs : list Z) : bool :=
  match shape_layout s m with Ok l => Z.of_nat (length cs) =? size l | Err _ => false end.

(** One command.  A client remembers what it has in the blocks it holds. *)
Definition bexec (p : PoolRef) (c : bcmd) (hs : blocks) : prog pool_state (bout * blocks) :=
  match c with
  | BPut l value => do r <- put p l value; Ret (made value hs r)
  | BCopy elem values => do r <- pool_copy p elem values; Ret (made (concat values) hs r)
  | BFill len bs =>
    do r <- reserve_bytes p len;
    match r with
    | None => Ret (BPanicked, hs)
    | Some (Err _) => Ret (BRefused, hs)
    | Some (Ok v) =>
      do _ <- write_bytes (va_at v) bs;
      Ret (made bs hs (Some (assume_init v (Z.of_nat (length bs)))))
    end
  | BWrite n off bs =>
    match hs !! n with
    | None => Ret (BNothing, hs)
    | Some (b, cs) =>
      if bool_decide (off + length bs ≤ length cs)%nat then
        do _ <- block_write b (Z.of_nat off) bs; Ret (BWritten, <[n := (b, list_inserts off bs cs)]> hs)
      else Ret (BNothing, hs)
    end
  | BRead n =>
    match hs !! n with
    | None => Ret (BNothing, hs)
    | Some (b, cs) => do r <- block_read b (length cs); Ret (if bool_decide (r = cs) then BSame else BDiffers, hs)
    end
  | BSend n s tid =>
    match hs !! n with
    | None => Ret (BNothing, hs)
    | Some (b, cs) =>
      if typed s (pb_meta b) cs then
        do r <- block_detach p b;
        Ret (match r with Some (Ok _) => BSent (block_token p b tid) s cs | Some (Err _) => BLost | None => BPanicked end, delete n hs)
      else Ret (BNothing, hs)
    end
  | BTake tok s expected =>
    do r <- block_adopt p s tok expected;
    match r with
    | None => Ret (BPanicked, hs)
    | Some (Err _) => Ret (BRefused, hs)
    | Some (Ok b) =>
      match token_metadata tok with
      | Some m =>
        match shape_layout s m with
        | Ok l => do cs <- block_read b (Z.to_nat (size l)); Ret (BTook tok s cs, (b, cs) :: hs)
        | Err _ => Ret (BPanicked, hs)
        end
      | None => Ret (BPanicked, hs)
      end
    end
  | BDrop n =>
    match hs !! n with
    | None => Ret (BNothing, hs)
    | Some (b, _) => do r <- block_drop p b; Ret (match r with Some true => BDropped | Some false => BLost | None => BPanicked end, delete n hs)
    end
  end.

Fixpoint bclient (p : PoolRef) (cs : list bcmd) (hs : blocks) (os : list bout) : prog pool_state (list bout * blocks) :=
  match cs with
  | [] => Ret (os, hs)
  | c :: cs => do r <- bexec p c hs; bclient p cs r.2 (os ++ [r.1])
  end.

(** A freshly initialized pool over the bytes [m], one client per list. *)
Definition bstart (geo : Geometry) (id : LayoutId) (own : nat → Z) (m : gmap Z Z) (css : list (list bcmd)) : cfg pool_state (list bout * blocks) :=
  ((init_words geo, m), imap (λ t cs, bclient (mkPoolRef geo id (own t)) cs [] []) css).

(** ** Pools that are created *)

Lemma search_ge header mn count bound fuel : ∀ low high, low ≤ search header mn count bound fuel low high.
Proof.
  induction fuel as [|fuel IH]; intros low high; cbn [search]; [lia|]. destruct (Z.ltb_spec (low + 1) high); [|lia].
  pose proof (Z.div_pos (high - low) 2 ltac:(lia) ltac:(lia)). destruct (fits _ _ _ _ _); [|apply IH]. etrans; [|apply IH]. lia.
Qed.

Lemma create_from_room header mn bound exact n g : create_from header mn bound exact n = Ok g →
  ∃ count base, (0 < count ≤ n)%nat ∧ build header mn (Z.of_nat count) base = Ok g ∧ wrap usize_bits (Z.shiftl 64 (Z.of_nat (count - 1) / 2)) ≤ base.
Proof.
  induction n as [|n IH]; intros H; [done|]. cbn [create_from] in H. unfold invalid, checked_shl in H.
  destruct (_ <? usize_bits); [|done]. cbn [ok_or] in H. cbn beta iota in H. destruct (build _ _ _ _) as [req|]; [|done]. cbn beta iota in H.
  destruct (geometry_size req <=? bound).
  - eexists (S n), _. split_and!; [lia|lia|exact H|]. rewrite Nat.sub_succ, Nat.sub_0_r. apply search_ge.
  - destruct (exact || _); [done|]. destruct (IH H) as (count & base & ? & ?). exists count, base. split; [lia|done].
Qed.

Lemma build_from_slots mn base index n layout l cs i c : layout_wf layout → 0 ≤ base → build_from mn base index n layout = Ok (l, cs) → cs !! i = Some c →
  slots c = Z.shiftr base ((index + Z.of_nat i) / 2).
Proof.
  intros Hl Hb. revert index layout Hl l cs i. induction n as [|n IH]; intros index layout Hl l cs i H Hi; simpl in H; [by injection H as <- <-|].
  destruct (build_class mn base index layout) as [[l1 c1]|] eqn:E1; [|done]. simpl in H.
  destruct (build_from mn base (index + 1) n l1) as [[l2 cs2]|] eqn:E2; [|done]. simpl in H. injection H as <- <-.
  apply build_class_spec in E1 as (Hl1 & Hs & _); [|done..]. destruct i as [|i]; simpl in Hi; [injection Hi as <-; by rewrite Z.add_0_r|].
  rewrite (IH (index + 1) l1 Hl1 _ _ _ E2 Hi). do 2 f_equal. lia.
Qed.

(** Whatever range was asked for, the pool that is created is laid out in
    classes of doubling size, each with a slot. *)
Lemma create_geo_ok header bound range g : layout_wf header → range_ok range →
  Geometry_create header bound range = Ok g → geo_ok g.
Proof.
  intros Hh Hr H.
  assert (Hp : is_power_of_two (asked_min range) = true) by (destruct range as [r|]; [destruct Hr as (a & b & Hr%BlockRange_new_spec); apply Hr|done]).
  destruct (asked_bounds range Hr) as [Hmn Hn].
  change (create_from header (asked_min range) bound (match range with Some _ => true | None => false end) (asked_classes range) = Ok g) in H.
  apply create_from_room in H as (count & base & Hc & Hbuild & Hbase). unfold build in Hbuild.
  destruct (build_from (asked_min range) base 0 (Z.to_nat (Z.of_nat count)) header) as [[l cs]|] eqn:E; [|done]. injection Hbuild as <-. rewrite Nat2Z.id in E.
  assert (Hhalf : 0 ≤ Z.of_nat (count - 1) / 2 ≤ 31).
  { split; [apply Z.div_pos; lia|]. assert (Z.of_nat (count - 1) / 2 ≤ 63 / 2) by (apply Z.div_le_mono; lia). by change (63 / 2) with 31 in *. }
  assert (Hmin : 2 ^ (Z.of_nat (count - 1) / 2) ≤ base).
  { etrans; [|exact Hbase]. rewrite Z.shiftl_mul_pow2 by lia.
    assert (0 < 2 ^ (Z.of_nat (count - 1) / 2) ≤ 2 ^ 31) by (split; [apply Z.pow_pos_nonneg; lia|apply Z.pow_le_mono_r; lia]).
    rewrite wrap_small by (unfold is_word, usize_bits; change (2 ^ 64) with (2 ^ 31 * 8589934592); lia). lia. }
  assert (Hpos : 0 < base) by (pose proof (Z.pow_pos_nonneg 2 (Z.of_nat (count - 1) / 2)); lia).
  destruct (build_from_laid_out (asked_min range) base 0 count header l cs) as (_ & Hlaid & Hlen); [done|lia|done|].
  split; cbn [classes]; [eauto| | |].
  - exists (Z.log2 (asked_min range)). split; [apply Z.log2_nonneg|]. intros i class Hi.
    rewrite (build_from_bytes _ _ _ _ _ _ _ _ _ Hp (proj2 Hmn) (Z.le_refl 0) Hh (Z.lt_le_incl _ _ Hpos) E Hi). f_equal. lia.
  - intros i class Hi. rewrite (build_from_slots _ _ _ _ _ _ _ _ _ Hh (Z.lt_le_incl _ _ Hpos) E Hi), Z.shiftr_div_pow2 by (apply Z.div_pos; lia).
    pose proof (lookup_lt_Some _ _ _ Hi). apply Z.div_str_pos. split; [apply Z.pow_pos_nonneg; [lia|apply Z.div_pos; lia]|].
    etrans; [|exact Hmin]. apply Z.pow_le_mono_r; [lia|]. apply Z.div_le_mono; lia.
  - intros ->. simpl in Hlen. lia.
Qed.

(** A geometry some pool is created with. *)
Definition created (geo : Geometry) : Prop :=
  ∃ header bound range, layout_wf header ∧ range_ok range ∧ Geometry_create header bound range = Ok geo.

Lemma created_ok geo : created geo → geo_ok geo.
Proof. intros (header & bound & range & Hh & Hr & H). by eapply create_geo_ok. Qed.

(** What a command may ask for: values of the size of their layout, and tokens
    of unsigned words. *)
Definition bcmd_ok (c : bcmd) : Prop :=
  match c with
  | BPut l value => Z.of_nat (length value) = size l
  | BCopy elem values => 0 ≤ size elem ∧ ∀ v, v ∈ values → Z.of_nat (length v) = size elem
  | BFill len bs => Z.of_nat (length bs) ≤ len
  | BTake tok s _ => token_ok tok ∧ ∀ m l, token_metadata tok = Some m → shape_layout s m = Ok l → 0 ≤ size l
  | _ => True
  end.

Record blocks_ok (geo : Geometry) (own : nat → Z) (css : list (list bcmd)) : Prop := {
  bo_geo : created geo;
  bo_own t : 0 ≤ own t < PARTICIPANT_CAPACITY;
  bo_cmds cs c : cs ∈ css → c ∈ cs → bcmd_ok c;
}.

(** A token stands for a block in a generation. *)
Definition stands_for (tok : PoolToken) (e : send_entry) : Prop :=
  (en_class e, en_slot e, en_generation e) = (span_class (tok_span tok), span_slot (tok_span tok), tok_generation tok).

Section Clients.
Context (geo : Geometry) (id : LayoutId) (own : nat → Z) (N : nat) (Hgeo : geo_ok geo) (Hown : ∀ t, 0 ≤ own t < PARTICIPANT_CAPACITY).
#[local] Abbreviation dwp := (wp (dinv geo own N) (drely geo)).
#[local] Abbreviation owns := (owns geo).
#[local] Abbreviation pref t := (mkPoolRef geo id (own t)).

(** The token says a value of the shape [s] is [cs], the first bytes of what was
    sent in [e]. *)
Definition carries (tok : PoolToken) (s : Shape) (cs : list Z) (e : send_entry) : Prop :=
  stands_for tok e ∧ cs = take (length cs) (en_bytes e) ∧ ∃ m, token_metadata tok = Some m ∧ typed s m cs = true.

(** The log has what [t] sent, and all that [t] took. *)
Definition accounts (t : nat) (os : list bout) (L : list send_entry) : Prop :=
  (∀ e, e ∈ L → en_thread e = t → ∃ tok s cs, BSent tok s cs ∈ os ∧ carries tok s cs e) ∧
  (∀ tok s cs, BTook tok s cs ∈ os → cs = [] ∨ ∃ e, e ∈ L ∧ carries tok s cs e).

Lemma accounts_lasting t os : lasting geo t (accounts t os).
Proof using.
  intros D D' HR [H1 H2]. split.
  - intros e He Et. apply H1; [|done]. by apply (dr_own _ _ _ _ HR).
  - intros tok s cs Hin. destruct (H2 tok s cs Hin) as [?|(e & He & ?)]; [by left|right]. exists e. split; [by apply (dr_log _ _ _ _ HR)|done].
Qed.

(** An answer that says nothing of sends. *)
Lemma accounts_snoc t os o L : (∀ tok s cs, o ≠ BTook tok s cs) → accounts t os L → accounts t (os ++ [o]) L.
Proof using.
  intros Ho [H1 H2]. split.
  - intros e He Et. destruct (H1 e He Et) as (tok & s & cs & Hin & ?). exists tok, s, cs. split; [apply elem_of_app; by left|done].
  - intros tok s cs [Hin|Hin]%elem_of_app; [by apply H2|]. apply list_elem_of_singleton in Hin. by edestruct Ho.
Qed.

Definition fine (o : bout) : Prop := o ≠ BDiffers ∧ o ≠ BLost ∧ o ≠ BPanicked.

Lemma owns_snoc t hs os o D : (∀ tok s cs, o ≠ BTook tok s cs) → owns t hs (accounts t os) D → owns t hs (accounts t (os ++ [o])) D.
Proof using. intros Ho (Hh & Hk & HR). split_and!; [done|done|by apply accounts_snoc]. Qed.

(** Filling the block just claimed. *)
Lemma fill_head t hs R D b cs bs : lasting geo t R → owns t ((b, cs) :: hs) R D → (length bs ≤ length cs)%nat →
  dwp t (write_bytes (pb_at b) bs) (λ _ D, owns t ((b, list_inserts 0 bs cs) :: hs) R D) D.
Proof using Hown Hgeo.
  intros HR Ho Hlen. rewrite <- (Z.add_0_r (pb_at b)). change 0 with (Z.of_nat 0) at 1.
  apply (write_spec geo own N Hown Hgeo t R 0 b bs HR ((b, cs) :: hs) D cs 0); [done|done|lia].
Qed.

Section Made.
Context (t : nat) (hs : blocks) (R : list send_entry → Prop) (Ht : (t < N)%nat) (HR : lasting geo t R).

(** A block made with [cs] in it, or everything as it was. *)
Definition made_ok {E} (cs : list Z) (r : option (result PoolBlock E)) (D : dghost) : Prop :=
  match r with
  | Some (Ok b) => owns t ((b, cs) :: hs) R D
  | Some (Err _) => owns t hs R D
  | None => False
  end.

(** Room for a value, whatever is in it. *)
Lemma room_spec D l : owns t hs R D → 0 ≤ size l →
  dwp t (pool_reserve (pref t) l) (λ r D, match r with
    | Some (Ok v) => ∃ cs, Z.of_nat (length cs) = size l ∧ owns t ((assume_all_init v, cs) :: hs) R D
    | Some (Err _) => owns t hs R D
    | None => False
    end) D.
Proof using Hown Hgeo Ht HR.
  intros Ho Hl. unfold pool_reserve. eapply wp_seq; [by apply (claim_data geo id own N Hown Hgeo t hs R D l Ht HR Ho)|]. cbv beta. intros r D' HQ. apply wp_ret.
  destruct r as [[[a off]|e]|]; cbn [option_map fst snd]; [|done|done]. destruct (HQ Sized) as (cs & Hcs & Ho'). by exists cs.
Qed.

Lemma put_spec D l value : owns t hs R D → Z.of_nat (length value) = size l → dwp t (put (pref t) l value) (made_ok value) D.
Proof using Hown Hgeo Ht HR.
  intros Ho Hlen. unfold put. eapply wp_seq; [apply (room_spec D l Ho); lia|]. cbv beta. clear D Ho.
  intros [[v|e]|] D HQ; [|destruct e; by apply wp_ret|done]. destruct HQ as (cs & Hcs & Ho). unfold vacant_write.
  eapply (wp_seq _ _ t _ _ (λ b D, b = assume_all_init v ∧ owns t ((b, value) :: hs) R D)).
  - eapply wp_seq; [apply (fill_head _ _ _ _ (assume_all_init v) cs value HR Ho); lia|]. cbv beta. intros _ D2 Ho2. apply wp_ret.
    rewrite inserts_all in Ho2 by lia. by split.
  - cbv beta. intros b D2 [-> Ho2]. by apply wp_ret.
Qed.

(** A reserved slice, whatever is in it. *)
Lemma slice_spec D elem len : owns t hs R D → 0 ≤ size elem → 0 ≤ len →
  dwp t (vacant_slice (pref t) elem len) (λ r D, match r with
    | Some (Ok v) => ∃ cs, va_meta v = Slice len ∧ Z.of_nat (length cs) = size elem * len ∧ owns t ((assume_all_init v, cs) :: hs) R D
    | Some (Err _) => owns t hs R D
    | None => False
    end) D.
Proof using Hown Hgeo Ht HR.
  intros Ho He Hl. unfold vacant_slice, reserve_slice. destruct (layout_array elem len) as [l|] eqn:El; [|by apply wp_ret].
  unfold layout_array in El. split_if_in El; [|done]. injection El as <-.
  eapply wp_seq; [apply (claim_data geo id own N Hown Hgeo t hs R D _ Ht HR Ho); cbn [size]; nia|]. cbv beta. intros r D' HQ. apply wp_ret.
  destruct r as [[[a off]|e]|]; cbn [option_map fst snd]; [|done|done]. destruct (HQ (Slice len)) as (cs & Hcs & Ho'). by exists cs.
Qed.

Lemma copy_spec D elem values : owns t hs R D → 0 ≤ size elem → (∀ v, v ∈ values → Z.of_nat (length v) = size elem) →
  dwp t (pool_copy (pref t) elem values) (made_ok (concat values)) D.
Proof using Hown Hgeo Ht HR.
  intros Ho He Hv. unfold pool_copy, pool_init. eapply wp_seq; [apply slice_spec; [done|done|lia]|]. cbv beta. clear D Ho.
  intros [[v|]|] D HQ; [|by apply wp_ret|done]. destruct HQ as (cs & Hm & Hcs & Ho). rewrite Nat2Z.id.
  assert (Hmake : ∀ i, 0 ≤ i < 0 + Z.of_nat (length values) → Z.of_nat (length (values !!! Z.to_nat i)) = size elem).
  { intros i Hi. apply Hv. apply list_elem_of_lookup_total_2. lia. }
  eapply wp_seq; [apply (init_spec geo own N Hown Hgeo t R 0 (assume_all_init v) (λ i, values !!! Z.to_nat i) (size elem) HR He (length values) _ D cs 0 Ho); [done|done|done|lia]|].
  cbv beta. intros _ D' Ho'. apply wp_ret. cbn [made_ok]. cbn [list_insert insert] in Ho'.
  rewrite index_all in Ho'. rewrite inserts_all in Ho'; [done|]. apply Nat2Z.inj. rewrite Hcs. symmetry. rewrite (concat_length (size elem)) by done. lia.
Qed.

Lemma bytes_spec D len bs : owns t hs R D → Z.of_nat (length bs) ≤ len →
  dwp t (reserve_bytes (pref t) len) (λ r D, match r with
    | Some (Ok v) => dwp t (write_bytes (va_at v) bs) (λ _ D, made_ok bs (Some (assume_init v (Z.of_nat (length bs)))) D) D
    | Some (Err _) => owns t hs R D
    | None => False
    end) D.
Proof using Hown Hgeo Ht HR.
  intros Ho Hlen. eapply wp_mono; [|apply slice_spec; [done|done|lia]]. cbv beta. clear D Ho. intros [[v|]|] D HQ; [|done|done].
  destruct HQ as (cs & Hm & Hcs & Ho). cbn [size] in Hcs.
  eapply wp_mono; [|apply (fill_head _ _ _ _ (assume_all_init v) cs bs HR Ho); lia]. cbv beta. intros _ D' Ho'. cbn [made_ok]. unfold assume_init. rewrite Hm.
  destruct (Z.ltb_spec len (Z.of_nat (length bs))); [lia|]. rewrite <- (inserts_prefix bs cs) at 2 by lia. by eapply owns_shrink.
Qed.
End Made.

(** *** Commands *)

#[local] Abbreviation next t os := (λ (r : bout * blocks) D, fine r.1 ∧ owns t r.2 (accounts t (os ++ [r.1])) D).

Lemma made_next t hs os {E} cs (r : option (result PoolBlock E)) D : made_ok t hs (accounts t os) cs r D → next t os (made cs hs r) D.
Proof using. destruct r as [[b|]|]; cbn [made_ok made fst snd]; [..|done]; intros Ho; (split; [by repeat split|by apply owns_snoc]). Qed.

Lemma send_spec t os hs D n b s cs tid : (t < N)%nat → owns t hs (accounts t os) D → hs !! n = Some (b, cs) → typed s (pb_meta b) cs = true →
  dwp t (do r <- block_detach (pref t) b;
         Ret (match r with Some (Ok _) => BSent (block_token (pref t) b tid) s cs | Some (Err _) => BLost | None => BPanicked end, delete n hs)) (next t os) D.
Proof using Hown Hgeo.
  intros Ht Ho En Hty. pose proof (accounts_lasting t os) as HR. set (o := BSent (block_token (pref t) b tid) s cs).
  eapply wp_seq; [apply (detach_data geo id own N Hown Hgeo t hs _ (accounts t (os ++ [o])) D n b cs Ht HR Ho En)|].
  - intros L. by apply accounts_snoc.
  - intros L bs HL Ecs. apply (accounts_snoc _ _ o) in HL as [H1 H2]; [|done]. split.
    + intros e [He|He]%elem_of_app Et; [by apply H1|]. apply list_elem_of_singleton in He. subst e. exists (block_token (pref t) b tid), s, cs.
      split; [apply elem_of_app; right; by apply elem_of_cons; left|]. split_and!; [|done|].
      * unfold stands_for, block_token, transfer_token, PoolToken_new. by destruct (pb_meta b).
      * exists (pb_meta b). split; [apply token_metadata_new|done].
    + intros tok' s' cs' Hin. destruct (H2 tok' s' cs' Hin) as [?|(e & He & ?)]; [by left|right]. exists e. split; [apply elem_of_app; by left|done].
  - cbv beta. intros r D' [[a ->] Ho']. apply wp_ret. split; [by repeat split|done].
Qed.

Lemma take_block_spec t os hs D tok s expected : (t < N)%nat → bcmd_ok (BTake tok s expected) → owns t hs (accounts t os) D →
  dwp t (bexec (pref t) (BTake tok s expected) hs) (next t os) D.
Proof using Hown Hgeo.
  intros Ht Hc Ho. pose proof (accounts_lasting t os) as HR. cbn [bexec bcmd_ok] in *.
  destruct Hc as [Htok Hsize]. eapply wp_seq; [by apply (adopt_data geo id own N Hown Hgeo t hs _ D tok s expected Ht HR Ho Htok Hsize)|]. cbv beta. clear D Ho.
  intros [[b|]|] D HQ; [|apply wp_ret; split; [by repeat split|by apply owns_snoc]|done]. destruct HQ as (m & l & cs & Em & El & Hlen & Ho & Hsent). rewrite Em, El.
  unfold block_read. rewrite <- (Z.add_0_r (pb_at b)).
  assert (Hty : typed s m cs = true) by (unfold typed; rewrite El, Hlen; apply Z.eqb_refl).
  set (R' := λ L, accounts t os L ∧ (cs = [] ∨ ∃ e, e ∈ L ∧ carries tok s cs e)).
  assert (HR' : lasting geo t R').
  { intros D1 D2 Hr [H1 H2]. split; [by eapply accounts_lasting|]. destruct H2 as [?|(e & He & ?)]; [by left|right]. exists e. split; [by apply (dr_log _ _ _ _ Hr)|done]. }
  eapply wp_seq; [apply (read_spec geo own N Hown t ((b, cs) :: hs) R' 0 b cs (Z.to_nat (size l)) HR' eq_refl 0); [lia|]|].
  { destruct Ho as (? & ? & ?). split_and!; [done|done|]. split; [done|]. destruct Hsent as [?|(e & He & Hs & Ecs)]; [by left|right].
    exists e. split; [done|]. split_and!; [done|done|by exists m]. }
  cbv beta. intros r D' [-> Ho']. apply wp_ret. rewrite drop_0, take_ge by lia. split; [by repeat split|]. destruct Ho' as (Hh & Hk & [[H1 H2] Hs]). split_and!; [done|done|]. split.
  - intros e He Et. destruct (H1 e He Et) as (tok' & s' & cs' & Hin & ?). exists tok', s', cs'. split; [apply elem_of_app; by left|done].
  - intros tok' s' cs' [Hin|Hin]%elem_of_app; [by apply H2|]. apply list_elem_of_singleton in Hin. by injection Hin as -> -> ->.
Qed.

Lemma bexec_spec t os hs D c : (t < N)%nat → bcmd_ok c → owns t hs (accounts t os) D → dwp t (bexec (pref t) c hs) (next t os) D.
Proof using Hown Hgeo.
  intros Ht Hc Ho. pose proof (accounts_lasting t os) as HR. destruct c as [l value|elem values|len bs|n off bs|n|n s tid|tok s expected|n]; cbn [bexec bcmd_ok] in Hc |- *.
  - eapply wp_seq; [by apply (put_spec t hs _ Ht HR)|]. cbv beta. intros r D' HQ. apply wp_ret. by apply made_next.
  - eapply wp_seq; [by apply (copy_spec t hs _ Ht HR); [|apply Hc..]|]. cbv beta. intros r D' HQ. apply wp_ret. by apply made_next.
  - eapply wp_seq; [by apply (bytes_spec t hs _ Ht HR D len bs)|]. cbv beta. intros [[v|]|] D' HQ; [|apply wp_ret; split; [by repeat split|by apply owns_snoc]|done].
    eapply wp_seq; [exact HQ|]. cbv beta. intros _ D2 HQ2. apply wp_ret. by apply made_next.
  - assert (Hno : next t os (BNothing, hs) D) by (split; [by repeat split|by apply owns_snoc]). destruct (hs !! n) as [[b cs]|] eqn:En; [|by apply wp_ret].
    case_bool_decide; [|by apply wp_ret]. eapply wp_seq; [by apply (write_spec geo own N Hown Hgeo t _ n b bs HR hs D cs off)|]. cbv beta. intros _ D' Ho'. apply wp_ret.
    split; [by repeat split|by apply owns_snoc].
  - assert (Hno : next t os (BNothing, hs) D) by (split; [by repeat split|by apply owns_snoc]). destruct (hs !! n) as [[b cs]|] eqn:En; [|by apply wp_ret].
    unfold block_read. rewrite <- (Z.add_0_r (pb_at b)). eapply wp_seq; [by apply (read_spec geo own N Hown t hs _ n b cs (length cs) HR En 0)|].
    cbv beta. intros r D' [-> Ho']. apply wp_ret. rewrite drop_0, firstn_all, bool_decide_true by done. split; [by repeat split|by apply owns_snoc].
  - assert (Hno : next t os (BNothing, hs) D) by (split; [by repeat split|by apply owns_snoc]). destruct (hs !! n) as [[b cs]|] eqn:En; [|by apply wp_ret].
    destruct (typed s (pb_meta b) cs) eqn:Ety; [by apply send_spec|by apply wp_ret].
  - by apply take_block_spec.
  - assert (Hno : next t os (BNothing, hs) D) by (split; [by repeat split|by apply owns_snoc]). destruct (hs !! n) as [[b cs]|] eqn:En; [|by apply wp_ret].
    eapply wp_seq; [by apply (drop_data geo id own N Hown Hgeo t hs _ D n b cs Ht HR Ho En)|]. cbv beta. intros r D' [-> Ho']. apply wp_ret. split; [by repeat split|by apply owns_snoc].
Qed.
End Clients.

(** ** The pool, started *)

Section Started.
Context (geo : Geometry) (id : LayoutId) (own : nat → Z) (css : list (list bcmd)) (Hok : blocks_ok geo own css).
#[local] Abbreviation N := (length css).

Definition bdone (t : nat) (r : list bout * blocks) (D : dghost) : Prop :=
  Forall fine r.1 ∧ owns geo t r.2 (accounts t r.1) D.

Lemma bclient_spec t cs : (t < N)%nat → (∀ c, c ∈ cs → bcmd_ok c) → ∀ hs os D, Forall fine os → owns geo t hs (accounts t os) D →
  wp (dinv geo own N) (drely geo) t (bclient (mkPoolRef geo id (own t)) cs hs os) (bdone t) D.
Proof using Hok.
  intros Ht. induction cs as [|c cs IH]; intros Hcs hs os D Hf Ho; cbn [bclient]; [by apply wp_ret|].
  eapply wp_seq; [apply (bexec_spec geo id own N (created_ok _ (bo_geo _ _ _ Hok)) (bo_own _ _ _ Hok) t os hs D c Ht); [apply Hcs, elem_of_cons; by left|done]|].
  cbv beta. intros r D' [Hfine Ho']. apply IH; [intros; apply Hcs, elem_of_cons; by right| |done]. by apply Forall_app_2; [|constructor].
Qed.

Lemma bdone_stable t r : stable (drely geo) t (bdone t r).
Proof using Hok. intros D D' HR [Hf Ho]. split; [done|]. eapply (owns_stable geo own (bo_own _ _ _ Hok)); [apply accounts_lasting|done|done]. Qed.

Lemma dinv_init m : dinv geo own N (mkDghost ((λ c, replicate (Z.to_nat (slots c)) (mkGword 0 HFree)) <$> classes geo) m []) (init_words geo, m).
Proof using Hok.
  split; cbn [dg dm dl fst snd]; [|done| |by intros e ?%elem_of_nil].
  - apply (pinv_init geo own []). split; [apply Hok|apply (go_slots _ (created_ok _ (bo_geo _ _ _ Hok)))|apply (go_classes _ (created_ok _ (bo_geo _ _ _ Hok)))|by intros cs tok ?%elem_of_nil].
  - intros c i g _ _ Hl. unfold look in Hl. rewrite list_lookup_fmap in Hl. destruct (classes geo !! Z.to_nat c) as [class|]; [|done]. simpl in Hl.
    by apply lookup_replicate in Hl as [? _].
Qed.

(** Every state that is reached has an account of it. *)
Lemma bstart_sound m s ps : creach (bstart geo id own m css) (s, ps) →
  length ps = N ∧ ∃ D, dinv geo own N D s ∧ ∀ t r, ps !! t = Some (Ret r) → bdone t r D.
Proof using Hok.
  intros Hreach. split; [apply creach_length in Hreach; cbn in Hreach; by rewrite length_imap in Hreach|].
  eapply (rg_sound (dinv geo own N) (drely geo)) with (Q := bdone) in Hreach as (D & [HI Hwp] & _).
  - exists D. split; [done|]. intros t r Ht. apply (Hwp t _ Ht).
  - intros t D. apply drely_refl.
  - intros t D1 D2 D3. apply (drely_trans geo own (bo_own _ _ _ Hok)).
  - apply bdone_stable.
  - split; [apply dinv_init|]. intros t p Hp. cbn in Hp. apply list_lookup_imap_Some in Hp as (cs & Hcs & ->).
    apply bclient_spec; [by eapply lookup_lt_Some|intros c Hc; eapply (bo_cmds _ _ _ Hok); [by eapply list_elem_of_lookup_2|done]|constructor|].
    split_and!; [apply holds_nil|by intros b ?%elem_of_nil|]. split; [by intros e ?%elem_of_nil|by intros tok s' cs' ?%elem_of_nil].
Qed.

(** The bytes a block has in memory. *)
Lemma kept_bytes t D s b cs : dinv geo own N D s → keeps geo t D (b, cs) →
  (λ i, byte_at s.2 (pb_at b + i)) <$> seqZ 0 (Z.of_nat (length cs)) = cs.
Proof using.
  intros HI Hk. unfold keeps in Hk. cbn [fst snd] in Hk. destruct (al_live (pb_allocation b)); [|by subst cs].
  destruct Hk as (_ & (class & Hc & [->|Eat]) & E); [done|]. rewrite Eat, (di_bytes _ _ _ _ _ HI). apply list_eq. intros i.
  destruct (decide (i < length cs)%nat) as [Hi|Hi]; [|rewrite list_lookup_fmap, lookup_seqZ_ge, lookup_ge_None_2 by lia; done].
  assert (Hl := f_equal length E). rewrite length_take in Hl.
  assert (cs !! i = full geo (dm D) (al_class (pb_allocation b)) (al_slot (pb_allocation b)) !! i) as -> by (rewrite E, lookup_take_lt by lia; done).
  unfold full in *. rewrite Hc in *. rewrite length_fmap, length_seqZ in Hl. by rewrite !list_lookup_fmap, !lookup_seqZ_lt by lia.
Qed.
End Started.

Lemma takes_agree {A} (cs cs' bs : list A) : cs = take (length cs) bs → cs' = take (length cs') bs → cs `prefix_of` cs' ∨ cs' `prefix_of` cs.
Proof.
  assert (Hle : ∀ xs ys : list A, xs = take (length xs) bs → ys = take (length ys) bs → (length xs ≤ length ys)%nat → xs `prefix_of` ys).
  { intros xs ys E E' Hle. assert (take (length xs) ys = xs) as <-; [|apply prefix_take]. rewrite E', take_take, Nat.min_l by done. by symmetry. }
  intros E E'. destruct (Nat.le_ge_cases (length cs) (length cs')); [left|right]; auto.
Qed.

(** Two values of the same shape and metadata, at the head of the same bytes. *)
Lemma typed_agree s m cs cs' bs : typed s m cs = true → typed s m cs' = true → cs = take (length cs) bs → cs' = take (length cs') bs → cs = cs'.
Proof.
  unfold typed. destruct (shape_layout s m) as [l|]; [|done]. intros E%Z.eqb_eq E'%Z.eqb_eq -> ->. f_equal. rewrite <- E' in E. lia.
Qed.

(** C2: any number of participants put, copy and fill blocks of one pool, write
    and read them through their handles, send, adopt and drop them, interleaved
    byte by byte in any way. Reading a block always gives what its holder last put
    there, no release or hand-over of a held block fails, nothing panics, and the
    bytes of every held block stay in memory. A block is adopted only after some
    participant sent it in that very generation; adopted at the shape and with the
    metadata it was sent with it holds exactly the value that was sent. A token
    forged with other metadata gives a value that agrees with the one sent as far
    as both go: a shorter one is a part of it, a longer one goes on with what else
    the block has in memory. *)
Theorem blocks_keep_contents geo id own m css s ps :
  blocks_ok geo own css → creach (bstart geo id own m css) (s, ps) →
  ∀ t os hs, ps !! t = Some (Ret (os, hs)) →
    (BDiffers ∉ os) ∧ (BLost ∉ os) ∧ (BPanicked ∉ os) ∧
    (∀ b cs, (b, cs) ∈ hs → (λ i, byte_at s.2 (pb_at b + i)) <$> seqZ 0 (Z.of_nat (length cs)) = cs) ∧
    ∀ tok sh cs, BTook tok sh cs ∈ os → cs ≠ [] → ∃ t', (t' < length ps)%nat ∧
      ∀ os' hs', ps !! t' = Some (Ret (os', hs')) → ∃ tok' sh' cs', BSent tok' sh' cs' ∈ os' ∧
        tok_span tok' = tok_span tok ∧ tok_generation tok' = tok_generation tok ∧
        (token_metadata tok' = token_metadata tok → sh' = sh → cs = cs') ∧
        (cs `prefix_of` cs' ∨ cs' `prefix_of` cs).
Proof.
  intros Hok Hreach t os hs Ht. destruct (bstart_sound geo id own css Hok m s ps Hreach) as (Hlen & D & HI & Hdone).
  destruct (Hdone _ _ Ht) as [Hfine (Hh & Hk & [_ Htook])]. cbn [fst snd] in *. rewrite Forall_forall in Hfine.
  split_and!; [by intros ?%Hfine; destruct H|by intros ?%Hfine; destruct H as (_ & ? & _)|by intros ?%Hfine; destruct H as (_ & _ & ?)| |].
  - intros b cs Hin. by eapply kept_bytes; [|apply Hk].
  - intros tok sh cs Hin Hne. destruct (Htook tok sh cs Hin) as [?|(e & He & Hs & Ecs & m1 & Em & Hty)]; [done|]. exists (en_thread e). split; [rewrite Hlen; by eapply di_threads|].
    intros os' hs' Ht'. destruct (Hdone _ _ Ht') as [_ (_ & _ & [Hsent _])]. cbn [fst snd] in *.
    destruct (Hsent e He eq_refl) as (tok' & sh' & cs' & Hin' & Hs' & Ecs' & m2 & Em' & Hty').
    exists tok', sh', cs'. unfold stands_for in *. rewrite Hs in Hs'. injection Hs' as E1 E2 E3. split_and!; [done| |done| |by eapply takes_agree].
    + destruct (tok_span tok), (tok_span tok'). cbn in *. congruence.
    + intros E ->. rewrite Em, Em' in E. injection E as ->. by eapply typed_agree.
Qed.

(** ** Two participants *)

(** A pool of three classes, from 64 bytes on. *)
Definition demo_created : Geometry :=
  match Geometry_create (mkLayout 192 8) 65536 (Some (mkBlockRange 64 256)) with Ok g => g | Err _ => mkGeometry (mkLayout 0 1) [] end.

Definition demo_block_token : PoolToken := PoolToken_new demo_pool (mkSpan 0 0) 1 (Slice 3) 9.

(** The first sends three bytes it wrote and changed; the second fills a block of
    its own and adopts the first's. *)
Definition demo_blocks_css : list (list bcmd) :=
  [[BFill 10 [1; 2; 3]; BRead 0; BWrite 0 1 [7; 8]; BRead 0; BSend 0 (Values (mkLayout 1 1)) 9];
   [BPut (mkLayout 2 1) [5; 6]; BTake demo_block_token (Values (mkLayout 1 1)) 9; BRead 0; BRead 1]].

#[local] Abbreviation demo_end := (sched (replicate 40 0%nat ++ replicate 40 1%nat) (bstart demo_created demo_pool (λ t, Z.of_nat t mod 63) ∅ demo_blocks_css)).

Lemma blocks_keep_contents_witness :
  (∃ hs, (demo_end).2 !! 1%nat = Some (Ret ([BMade; BTook demo_block_token (Values (mkLayout 1 1)) [1; 7; 8]; BSame; BSame], hs))) ∧
  ∃ t' : nat, (t' < 2)%nat ∧ ∀ os' hs', (demo_end).2 !! t' = Some (Ret (os', hs')) → ∃ tok' sh' cs', BSent tok' sh' cs' ∈ os' ∧
    tok_span tok' = tok_span demo_block_token ∧ tok_generation tok' = tok_generation demo_block_token ∧
    (token_metadata tok' = token_metadata demo_block_token → sh' = Values (mkLayout 1 1) → [1; 7; 8] = cs') ∧ ([1; 7; 8] `prefix_of` cs' ∨ cs' `prefix_of` [1; 7; 8]).
Proof.
  assert (Hok : blocks_ok demo_created (λ t, Z.of_nat t mod 63) demo_blocks_css).
  { split.
    - exists (mkLayout 192 8), 65536, (Some (mkBlockRange 64 256)). split_and!; [by_eval|by exists 64, 256|vm_compute; reflexivity].
    - intros t. apply Z.mod_pos_bound. done.
    - assert (Hall : Forall (Forall bcmd_ok) demo_blocks_css).
      { repeat constructor; try done. intros m l Em El. cbn in Em. injection Em as <-. vm_compute in El. by injection El as <-. }
      intros cs c Hcs Hc. rewrite Forall_forall in Hall. specialize (Hall cs Hcs). rewrite Forall_forall in Hall. by apply Hall. }
  assert (Hrun : ∃ hs, (demo_end).2 !! 1%nat = Some (Ret ([BMade; BTook demo_block_token (Values (mkLayout 1 1)) [1; 7; 8]; BSame; BSame], hs))) by (eexists; vm_compute; reflexivity).
  assert (Hlen : length (demo_end).2 = 2%nat) by (vm_compute; reflexivity).
  pose proof (sched_reach (replicate 40 0%nat ++ replicate 40 1%nat) (bstart demo_created demo_pool (λ t, Z.of_nat t mod 63) ∅ demo_blocks_css)) as Hreach.
  split; [exact Hrun|]. destruct Hrun as [hs Hrun]. destruct (demo_end) as [s ps]. cbn [snd] in *.
  destruct (blocks_keep_contents demo_created demo_pool (λ t, Z.of_nat t mod 63) ∅ demo_blocks_css s ps Hok Hreach 1%nat _ hs Hrun) as (_ & _ & _ & _ & Htook).
  rewrite <- Hlen. apply Htook; [|done]. apply elem_of_cons. right. apply elem_of_cons. by left.
Defined.
