(* ===== verification/Channel.v ===== *)
(** * Channels: roles and their words

    Models the role half of [src/src/channel.rs]: the role word, the roles of a
    duplex and the operations on them, the geometry of a duplex, and ports with
    their byte form.  A role is adopted through its word: generation, owner and
    a terminal bit.  The queues of the two directions are in [Duplex]. *)

From S2P Require Import Prelude Atomic Alloc Bytes Schema Header Mem Heap Dir.

(** ** Role words *)

(** [usize::BITS.trailing_zeros()] *)
Definition ROLE_SLOT_BITS : Z := 6.
Definition ROLE_GENERATION_SHIFT : Z := 1 + ROLE_SLOT_BITS.
Definition ROLE_SLOT_MASK : Z := Z.shiftl (Z.shiftl 1 ROLE_SLOT_BITS - 1) 1.

(** [RoleWord::MAX_GENERATION] *)
Definition ROLE_MAX_GENERATION : Z := Z.shiftr usize_max ROLE_GENERATION_SHIFT.

(** [RoleWord::new] *)
Definition RoleWord_new (generation : Z) (participant : option Z) (terminal : bool) : option Z :=
  if ROLE_MAX_GENERATION <? generation then None else
  let word slot := Z.lor (Z.lor (Z.shiftl generation ROLE_GENERATION_SHIFT) (Z.shiftl slot 1)) (Z.b2z terminal) in
  match participant with
  | Some participant => if participant <? PARTICIPANT_CAPACITY then Some (word (participant + 1)) else None
  | None => Some (word 0)
  end.

(** [RoleWord::parts] *)
Definition RoleWord_parts (word : Z) : Z * option Z * bool :=
  let slot := Z.shiftr (Z.land word ROLE_SLOT_MASK) 1 in
  (Z.shiftr word ROLE_GENERATION_SHIFT, if slot =? 0 then None else Some (wrap 8 (slot - 1)), negb (Z.land word 1 =? 0)).

(** [RoleWord::next_unowned] *)
Definition next_unowned (word : Z) (terminal : bool) : option Z :=
  let '(generation, _, _) := RoleWord_parts word in
  let! generation := checked_add generation 1 in
  RoleWord_new generation None terminal.

(** [RoleWord::new(generation, None, true).unwrap()] of a generation read from
    a word. *)
Definition retired_word (generation : Z) : Z := default 0 (RoleWord_new generation None true).

(** The word that releases [word]: the next generation, or the terminal word
    of the last one. *)
Definition released_word (word : Z) : Z :=
  let '(generation, _, terminal) := RoleWord_parts word in
  if terminal then retired_word generation
  else default (retired_word generation) (next_unowned word false).

(** ** Accesses *)

(** [Duplex::roles] *)
Abbreviation roles := (list Z).

Definition role_at (i : Z) (w : roles) : Z := default 0 (w !! Z.to_nat i).
Definition set_role (i v : Z) (w : roles) : roles := <[Z.to_nat i := v]> w.

Definition load_role (i : Z) (w : roles) : Z * roles := (role_at i w, w).
Definition store_role (i v : Z) (w : roles) : unit * roles := (tt, set_role i v w).
Definition cas_role (i old new : Z) (w : roles) : result unit Z * roles :=
  if role_at i w =? old then (Ok tt, set_role i new w) else (Err (role_at i w), w).

(** [compare_exchange_weak], which fails spuriously when [spurious] says so. *)
Definition cas_role_weak (spurious : bool) (i old new : Z) (w : roles) : result unit Z * roles :=
  if spurious then (Err (role_at i w), w) else cas_role i old new w.

(** ** Release of a role

    The loops retry a weak exchange; each turn takes one element of [attempts],
    which says whether the exchange fails spuriously.  They answer [None] when
    still looping. *)

(** The loops of [recover_role] and of [Drop for Role], which release the word
    as long as [held] accepts it. *)
Fixpoint release_role (held : Z → bool) (i : Z) (attempts : list bool) (raw : Z) : prog roles (option unit) :=
  if negb (held raw) then Ret (Some tt) else
  match attempts with
  | [] => Ret None
  | spurious :: attempts =>
    act r <- cas_role_weak spurious i raw (released_word raw);
    match r with
    | Ok _ => Ret (Some tt)
    | Err observed => release_role held i attempts observed
    end
  end.

(** [owner != Some(dead)] *)
Definition owned_by (owner word : Z) : bool := bool_decide ((RoleWord_parts word).1.2 = Some owner).

Definition owned_in (generation owner word : Z) : bool :=
  ((RoleWord_parts word).1.1 =? generation) && owned_by owner word.

(** [recover_role] *)
Definition recover_role (i dead : Z) (attempts : list bool) : prog roles (option unit) :=
  act raw <- load_role i; release_role (owned_by dead) i attempts raw.

(** ** Identifiers and ports *)

(** [channel::Id] *)
Record ChannelId := mkChannelId { ch_inner : Id; ch_capacity : Z }.

Record Port := mkPort { port_id : ChannelId; port_role : Z; port_generation : Z }.

Definition PORT_BYTES : Z := 49.

(** [Port::from_parts] *)
Definition Port_from_parts (id : ChannelId) (role generation : Z) : option Port :=
  if (2 <=? role) || (generation =? 0) || (ROLE_MAX_GENERATION <? generation) then None
  else Some (mkPort id role generation).

(** [Port::to_bytes]; the role is written as a [u8]. *)
Definition Port_to_bytes (p : Port) : list Z :=
  Id_to_bytes (ch_inner (port_id p)) ++ to_le_bytes 8 (ch_capacity (port_id p)) ++
  [wrap 8 (port_role p)] ++ to_le_bytes 8 (port_generation p).

(** [Port::from_bytes] *)
Definition Port_from_bytes (bs : list Z) : option Port :=
  if negb (Z.of_nat (length bs) =? PORT_BYTES) then None else
  let! inner := Id_from_bytes (take 32 bs) in
  Port_from_parts (mkChannelId inner (from_le_bytes (take 8 (drop 32 bs)))) (default 0 (bs !! 40%nat))
    (from_le_bytes (take 8 (drop 41 bs))).

(** ** Geometry *)

Inductive DuplexGeometryError := ZeroCapacity | DuplexOverflow.

(** [channel::Geometry] *)
Record DuplexGeometry := mkDuplexGeometry { dg_layout : Layout; dg_slots : Z; dg_capacity : Z; dg_one_lap : Z }.

(** [Duplex::geometry] for slots of layout [slot] behind a header of layout
    [header]. *)
Definition duplex_geometry (header slot : Layout) (capacity : Z) : result DuplexGeometry DuplexGeometryError :=
  if capacity =? 0 then Err ZeroCapacity else
  let? count := ok_or (checked_mul capacity 2) DuplexOverflow in
  let? array := ok_or (layout_array slot count) DuplexOverflow in
  let? joint := ok_or (extend header array) DuplexOverflow in
  let? one_lap := ok_or (let! n := checked_add capacity 1 in checked_next_power_of_two n) DuplexOverflow in
  Ok (mkDuplexGeometry (pad_to_align joint.1) joint.2 capacity one_lap).

(** ** Role authority *)

Inductive InviteError := InviteOccupied | InviteTerminal | InviteBusy | InviteRetired.

Inductive RoleAdmitError := RoleStale | RoleOccupied | RoleTerminal | RoleOrphaned | RoleOpen.

(** [Role], what a [Channel] shares. *)
Record Role := mkRole {
  r_id : ChannelId;
  r_capacity : Z;
  r_one_lap : Z;
  r_index : Z;
  r_generation : Z;
  r_owner : Z;
}.

#[export] Instance ChannelId_eq_dec : EqDecision ChannelId.
Proof. solve_decision. Defined.
#[export] Instance Port_eq_dec : EqDecision Port.
Proof. solve_decision. Defined.
#[export] Instance RoleAdmitError_eq_dec : EqDecision RoleAdmitError.
Proof. solve_decision. Defined.
#[export] Instance InviteError_eq_dec : EqDecision InviteError.
Proof. solve_decision. Defined.
#[export] Instance Role_eq_dec : EqDecision Role.
Proof. solve_decision. Defined.

(** [Channel::from_parts] *)
Definition Channel_from_parts (g : DuplexGeometry) (id : ChannelId) (index generation owner : Z) : Role :=
  mkRole id (dg_capacity g) (dg_one_lap g) index generation owner.

(** [RoleWord::new(..).unwrap()] of a participant in the table. *)
Definition role_word (generation : Z) (participant : option Z) (terminal : bool) : Z :=
  default 0 (RoleWord_new generation participant terminal).

(** [Channel::creator] *)
Definition creator (g : DuplexGeometry) (id : ChannelId) (owner : Z) : prog roles (Role * Z) :=
  let generation := 1 in
  act_ (store_role 0 (role_word generation (Some owner) false));
  act_ (store_role 1 (role_word generation None false));
  Ret (Channel_from_parts g id 0 generation owner, generation).

(** The verdict on a role word that was not the one a port expects. *)
Definition adopt_error (generation observed : Z) : RoleAdmitError :=
  let '(observed_generation, observed_owner, terminal) := RoleWord_parts observed in
  if terminal then RoleTerminal
  else if negb (observed_generation =? generation) then RoleStale
  else match observed_owner with Some _ => RoleOccupied | None => RoleOpen end.

(** [Channel::adopt] by participant [owner], from the exchange on. *)
Definition adopt_word (g : DuplexGeometry) (port : Port) (owner expected claimed : Z) : prog roles (result Role RoleAdmitError) :=
  let index := port_role port in
  let generation := port_generation port in
  act r <- cas_role index expected claimed;
  match r with
  | Err observed => Ret (Err (adopt_error generation observed))
  | Ok _ =>
    act issuer <- load_role (1 - index);
    let '(_, issuer_owner, issuer_terminal) := RoleWord_parts issuer in
    if issuer_terminal || bool_decide (issuer_owner = None) then
      let released := default (retired_word generation) (next_unowned claimed false) in
      act_ (cas_role index claimed released);
      Ret (Err RoleOrphaned)
    else Ret (Ok (Channel_from_parts g (port_id port) index generation owner))
  end.

(** [Channel::adopt] of a duplex mapped at address [pointer] of region [rg],
    whose info records [capacity]. *)
Definition adopt (header slot : Layout) (rg : Region) (pointer capacity owner : Z) (port : Port)
    : prog roles (result Role RoleAdmitError) :=
  if 2 <=? port_role port then Ret (Err RoleOpen) else
  match duplex_geometry header slot capacity with
  | Err _ => Ret (Err RoleOpen)
  | Ok g =>
    match offset_of rg pointer (size (dg_layout g)) with
    | Err _ => Ret (Err RoleOpen)
    | Ok _ =>
      match RoleWord_new (port_generation port) None false, RoleWord_new (port_generation port) (Some owner) false with
      | None, _ => Ret (Err RoleStale)
      | Some _, None => Ret (Err RoleOpen)
      | Some expected, Some claimed => adopt_word g port owner expected claimed
      end
    end
  end.

(** [Channel::invite] *)
Definition invite (r : Role) : prog roles (result Port InviteError) :=
  act issuer <- load_role (r_index r);
  let '(issuer_generation, issuer_owner, issuer_terminal) := RoleWord_parts issuer in
  if negb (issuer_generation =? r_generation r) || negb (bool_decide (issuer_owner = Some (r_owner r))) || issuer_terminal
  then Ret (Err InviteTerminal) else
  let index := 1 - r_index r in
  act raw <- load_role index;
  let '(generation, owner, terminal) := RoleWord_parts raw in
  if terminal then Ret (Err InviteTerminal) else
  match owner with
  | Some _ => Ret (Err InviteOccupied)
  | None =>
    match next_unowned raw false with
    | None =>
      act c <- cas_role index raw (retired_word generation);
      Ret (Err (if is_ok c then InviteRetired else InviteBusy))
    | Some next =>
      act c <- cas_role index raw next;
      Ret (if is_ok c then Ok (mkPort (r_id r) index (RoleWord_parts next).1.1) else Err InviteBusy)
    end
  end.

(** [Drop for Role] *)
Definition drop_role (r : Role) (attempts : list bool) : prog roles (option unit) :=
  act raw <- load_role (r_index r); release_role (owned_in (r_generation r) (r_owner r)) (r_index r) attempts raw.

(** [Channel::peer_is_unowned] *)
Definition peer_is_unowned (r : Role) : prog roles bool :=
  act raw <- load_role (1 - r_index r); Ret (bool_decide ((RoleWord_parts raw).1.2 = None)).

(** The test of [Channel::into_closed_mapped]; [unique] is whether this is the
    last handle of the role. *)
Definition into_closed (r : Role) (unique : bool) : prog roles bool :=
  act raw <- load_role (r_index r);
  let '(_, owner, terminal) := RoleWord_parts raw in
  Ret (if negb (bool_decide (owner = None)) || negb terminal then false else unique).

(** The first loop of [Channel::close_with]: marks the role terminal.  [Ok true]
    goes on to close the queues, [Ok false] answers at once. *)
Fixpoint mark_terminal (r : Role) (attempts : list bool) (raw : Z) : prog roles (option (result bool unit)) :=
  let '(generation, owner, terminal) := RoleWord_parts raw in
  if negb (generation =? r_generation r) || negb (bool_decide (owner = Some (r_owner r))) then
    Ret (Some (if terminal && bool_decide (owner = None) then Ok false else Err tt))
  else if terminal then Ret (Some (Ok true))
  else
  match attempts with
  | [] => Ret None
  | spurious :: attempts =>
    act c <- cas_role_weak spurious (r_index r) raw (role_word generation owner true);
    match c with
    | Ok _ => Ret (Some (Ok true))
    | Err observed => mark_terminal r attempts observed
    end
  end.

(** The end of [Channel::close_with]. *)
Definition finish_close (r : Role) : prog roles (result unit unit) :=
  act c <- cas_role (r_index r) (role_word (r_generation r) (Some (r_owner r)) true) (role_word (r_generation r) None true);
  Ret (match c with
       | Ok _ => Ok tt
       | Err observed =>
         let '(_, owner, terminal) := RoleWord_parts observed in
         if terminal && bool_decide (owner = None) then Ok tt else Err tt
       end).
