(* ===== verification/ChannelGeo.v ===== *)
(** * Channels: words, ports and geometry

    Role words are in bijection with machine words; a port survives its byte
    form; the slots of a duplex lie behind its header. *)

From S2P Require Import Prelude Atomic Alloc Bytes Schema Header Mem Heap Dir DirSafe Channel.

(** ** Role words *)

Definition slot_field (p : option Z) : Z := match p with Some p => p + 1 | None => 0 end.

(** The word of its three parts. *)
Definition enc (generation : Z) (p : option Z) (terminal : bool) : Z := generation * 128 + slot_field p * 2 + Z.b2z terminal.

Definition part_ok (p : option Z) : Prop := match p with Some p => 0 ≤ p < PARTICIPANT_CAPACITY | None => True end.

#[export] Instance part_ok_dec p : Decision (part_ok p).
Proof. destruct p; unfold part_ok; apply _. Defined.

Lemma role_max : ROLE_MAX_GENERATION = 2 ^ 57 - 1.
Proof. done. Qed.

Lemma slot_field_range p : part_ok p → 0 ≤ slot_field p < 64.
Proof. destruct p; unfold part_ok, slot_field, PARTICIPANT_CAPACITY, usize_bits; lia. Qed.

Lemma role_new g p t : 0 ≤ g ≤ ROLE_MAX_GENERATION → part_ok p → RoleWord_new g p t = Some (enc g p t).
Proof.
  intros Hg Hp. unfold RoleWord_new. destruct (Z.ltb_spec ROLE_MAX_GENERATION g); [lia|].
  assert (Hw : ∀ s, 0 ≤ s < 64 → Z.lor (Z.lor (Z.shiftl g ROLE_GENERATION_SHIFT) (Z.shiftl s 1)) (Z.b2z t) = g * 128 + s * 2 + Z.b2z t).
  { intros s Hs. rewrite <- Z.lor_assoc. change (Z.lor (Z.shiftl s 1) (Z.b2z t)) with (pack s 1 (Z.b2z t)).
    assert (Ht : 0 ≤ Z.b2z t < 2) by (destruct t; cbn; lia).
    rewrite pack_add by (done || lia). change (Z.lor (Z.shiftl g ROLE_GENERATION_SHIFT) ?lo) with (pack g 7 lo).
    rewrite pack_add by (done || lia). change (2 ^ 7) with 128. change (2 ^ 1) with 2. lia. }
  pose proof (slot_field_range p Hp) as Hs. destruct p as [p|]; cbn [slot_field part_ok] in *; unfold enc.
  - destruct (Z.ltb_spec p PARTICIPANT_CAPACITY); [|lia]. by rewrite Hw.
  - by rewrite Hw.
Qed.

Lemma role_parts g p t : 0 ≤ g → part_ok p → RoleWord_parts (enc g p t) = (g, p, t).
Proof.
  intros Hg Hp. pose proof (slot_field_range p Hp) as Hs. unfold RoleWord_parts, enc.
  assert (Ht : 0 ≤ Z.b2z t < 2) by (destruct t; cbn; lia). set (s := slot_field p) in *. set (b := Z.b2z t) in *.
  assert (E1 : Z.shiftr (g * 128 + s * 2 + b) ROLE_GENERATION_SHIFT = g).
  { rewrite Z.shiftr_div_pow2 by done. change (2 ^ ROLE_GENERATION_SHIFT) with 128. symmetry. apply (Z.div_unique _ _ _ (s * 2 + b)); lia. }
  assert (E2 : Z.shiftr (Z.land (g * 128 + s * 2 + b) ROLE_SLOT_MASK) 1 = s).
  { rewrite Z.shiftr_land. change (Z.shiftr ROLE_SLOT_MASK 1) with (Z.ones 6). rewrite Z.land_ones, Z.shiftr_div_pow2 by done.
    change (2 ^ 1) with 2. change (2 ^ 6) with 64. replace ((g * 128 + s * 2 + b) / 2) with (g * 64 + s) by (apply (Z.div_unique _ _ _ b); lia).
    symmetry. apply (Z.mod_unique _ _ g); lia. }
  assert (E3 : Z.land (g * 128 + s * 2 + b) 1 = b).
  { change 1 with (Z.ones 1) at 1. rewrite Z.land_ones by done. change (2 ^ 1) with 2. symmetry. apply (Z.mod_unique _ _ (g * 64 + s)); lia. }
  rewrite E1, E2, E3. f_equal; [f_equal|by destruct t].
  unfold s in *. destruct p as [p|]; cbn [slot_field part_ok] in *; [|done]. unfold PARTICIPANT_CAPACITY, usize_bits in Hp.
  destruct (Z.eqb_spec (p + 1) 0); [lia|]. rewrite wrap_small; [f_equal; lia|]. unfold is_word. change (2 ^ 8) with 256. lia.
Qed.

(** Every machine word is the word of its parts. *)
Lemma role_enc w : is_word usize_bits w → ∃ g p t, w = enc g p t ∧ 0 ≤ g ≤ ROLE_MAX_GENERATION ∧ part_ok p.
Proof.
  intros [H0 H1]. rewrite role_max. unfold usize_bits in H1.
  pose proof (Z.div_mod w 128 ltac:(done)). pose proof (Z.mod_pos_bound w 128 ltac:(done)).
  pose proof (Z.div_mod (w mod 128) 2 ltac:(done)). pose proof (Z.mod_pos_bound (w mod 128) 2 ltac:(done)).
  set (s := w mod 128 / 2) in *. set (b := (w mod 128) mod 2) in *.
  exists (w / 128), (if s =? 0 then None else Some (s - 1)), (b =? 1).
  assert (Hs : slot_field (if s =? 0 then None else Some (s - 1)) = s) by (destruct (Z.eqb_spec s 0); cbn; lia).
  assert (Hb : Z.b2z (b =? 1) = b) by (destruct (Z.eqb_spec b 1); cbn; lia).
  split_and!; [unfold enc; rewrite Hs, Hb; lia|apply Z.div_pos; lia|change (2 ^ 64) with (2 ^ 57 * 128) in H1; lia|].
  unfold part_ok, PARTICIPANT_CAPACITY, usize_bits. destruct (Z.eqb_spec s 0); [done|]. lia.
Qed.

Lemma role_new_none g p t : 0 ≤ g → ¬ (g ≤ ROLE_MAX_GENERATION ∧ part_ok p) → (∀ q, p = Some q → 0 ≤ q) → RoleWord_new g p t = None.
Proof.
  intros Hg Hno Hq. unfold RoleWord_new. destruct (Z.ltb_spec ROLE_MAX_GENERATION g); [done|].
  destruct p as [q|]; [|by destruct Hno]. destruct (Z.ltb_spec q PARTICIPANT_CAPACITY); [|done].
  destruct Hno. split; [lia|]. split; [by apply Hq|done].
Qed.

Lemma enc_word g p t : 0 ≤ g ≤ ROLE_MAX_GENERATION → part_ok p → is_word usize_bits (enc g p t).
Proof.
  intros Hg Hp%slot_field_range. rewrite role_max in Hg. unfold is_word, enc, usize_bits. change (2 ^ 64) with (2 ^ 57 * 128).
  destruct t; cbn [Z.b2z]; lia.
Qed.

(** Role words are exactly the machine words: a word is built from a
    generation, an owner and a terminal bit just when the generation and the
    owner are in range, it gives back its parts, and every machine word is built
    from its parts. *)
Theorem role_word_roundtrip :
  (∀ g p t, 0 ≤ g → (∀ q, p = Some q → 0 ≤ q) →
    if bool_decide (g ≤ ROLE_MAX_GENERATION ∧ part_ok p)
    then ∃ w, RoleWord_new g p t = Some w ∧ is_word usize_bits w ∧ RoleWord_parts w = (g, p, t)
    else RoleWord_new g p t = None) ∧
  ∀ w, is_word usize_bits w → let '(g, p, t) := RoleWord_parts w in RoleWord_new g p t = Some w.
Proof.
  split.
  - intros g p t Hg Hq. case_bool_decide as Hok; [|by apply role_new_none]. destruct Hok as [Hm Hp].
    exists (enc g p t). split_and!; [by apply role_new|by apply enc_word|by apply role_parts].
  - intros w (g & p & t & -> & Hg & Hp)%role_enc. rewrite role_parts by (done || lia). by apply role_new.
Qed.

(** The word that a release leaves. *)
Lemma next_enc g p t b : 0 ≤ g ≤ ROLE_MAX_GENERATION → part_ok p →
  next_unowned (enc g p t) b = if g <? ROLE_MAX_GENERATION then Some (enc (g + 1) None b) else None.
Proof.
  intros Hg Hp. unfold next_unowned. rewrite role_parts by (done || lia). unfold checked_add.
  destruct (Z.leb_spec (g + 1) usize_max) as [_|Hbad]; [|rewrite role_max in Hg; unfold usize_max, usize_bits in Hbad; change (2 ^ 64) with (2 ^ 57 * 128) in Hbad; lia].
  destruct (Z.ltb_spec g ROLE_MAX_GENERATION); [by apply role_new; [lia|]|]. apply role_new_none; [lia| |done]. intros [? _]. lia.
Qed.

Lemma released_enc g p t : 0 ≤ g ≤ ROLE_MAX_GENERATION → part_ok p →
  released_word (enc g p t) = if t || (g =? ROLE_MAX_GENERATION) then enc g None true else enc (g + 1) None false.
Proof.
  intros Hg Hp. unfold released_word, retired_word. rewrite role_parts, role_new, next_enc by (done || lia). cbn [default].
  destruct t; [done|]. cbn [orb]. destruct (Z.ltb_spec g ROLE_MAX_GENERATION), (Z.eqb_spec g ROLE_MAX_GENERATION); done || lia.
Qed.

(** ** Ports *)

Definition port_wf (p : Port) : Prop :=
  id_wf (ch_inner (port_id p)) ∧ is_word 64 (ch_capacity (port_id p)) ∧ 0 ≤ port_role p < 2 ∧
  1 ≤ port_generation p ≤ ROLE_MAX_GENERATION.

Lemma Port_from_parts_spec id r g : 0 ≤ r → 0 ≤ g →
  Port_from_parts id r g = if bool_decide (r < 2 ∧ 1 ≤ g ≤ ROLE_MAX_GENERATION) then Some (mkPort id r g) else None.
Proof.
  intros Hr Hg. unfold Port_from_parts. case_bool_decide as H.
  - destruct (Z.leb_spec 2 r), (Z.eqb_spec g 0), (Z.ltb_spec ROLE_MAX_GENERATION g); done || lia.
  - destruct (Z.leb_spec 2 r), (Z.eqb_spec g 0), (Z.ltb_spec ROLE_MAX_GENERATION g); done || (destruct H; lia).
Qed.

(** The fields of forty-nine bytes. *)
Lemma port_fields (bs : list Z) : length bs = 49%nat →
  bs = take 32 bs ++ take 8 (drop 32 bs) ++ [default 0 (bs !! 40%nat)] ++ take 8 (drop 41 bs).
Proof.
  intros Hlen. destruct (lookup_lt_is_Some_2 bs 40) as [x Hx]; [lia|]. rewrite Hx. cbn [default].
  rewrite <- (take_drop 32 bs) at 1. f_equal. rewrite <- (take_drop 8 (drop 32 bs)) at 1. f_equal. rewrite drop_drop. cbn [Nat.add].
  rewrite (drop_S _ _ _ Hx). cbn [app]. f_equal. rewrite take_ge; [done|]. rewrite length_drop. lia.
Qed.

Lemma port_to_from p : port_wf p → Port_from_bytes (Port_to_bytes p) = Some p ∧ length (Port_to_bytes p) = 49%nat.
Proof.
  destruct id_bytes_spec as (Hto & _ & _). revert p.
  intros [[id cap] r g] (Hid & Hcap & Hr & Hg). cbn [ch_inner port_id ch_capacity port_role port_generation] in *. destruct (Hto id Hid) as [Eid Lid].
  unfold Port_to_bytes. cbn [ch_inner port_id ch_capacity port_role port_generation].
  assert (Hlen : length (Id_to_bytes id ++ to_le_bytes 8 cap ++ [wrap 8 r] ++ to_le_bytes 8 g) = 49%nat).
  { rewrite !length_app, Lid, !length_to_le_bytes. done. }
  split; [|done]. unfold Port_from_bytes. rewrite Hlen. change (negb (Z.of_nat 49 =? PORT_BYTES)) with false. cbv iota.
  rewrite take_app_length' by done. rewrite Eid. cbn [mbind option_bind].
  rewrite drop_app_length' by done. rewrite take_le.
  rewrite (lookup_app_r (Id_to_bytes id)) by (rewrite Lid; lia). rewrite Lid, (lookup_app_r (to_le_bytes 8 cap)) by (rewrite length_to_le_bytes; lia).
  rewrite length_to_le_bytes. cbn [Nat.sub app lookup list_lookup default].
  change 41%nat with (32 + (8 + 1))%nat. rewrite (drop_app_add' (Id_to_bytes id)) by done. rewrite drop_le_add. cbn [drop app].
  rewrite (take_ge (to_le_bytes 8 g)) by (by rewrite length_to_le_bytes).
  rewrite !from_to_le_bytes; [|rewrite role_max in Hg; unfold is_word; change (8 * Z.of_nat 8) with 64; change (2 ^ 64) with (2 ^ 57 * 128); lia|done].
  rewrite wrap_small by (unfold is_word; change (2 ^ 8) with 256; lia).
  change (Datatypes.id r) with r. rewrite Port_from_parts_spec by lia. by rewrite bool_decide_eq_true_2 by lia.
Qed.

Lemma port_from_to bs p : Forall is_byte bs → Port_from_bytes bs = Some p → Port_to_bytes p = bs ∧ port_wf p.
Proof.
  destruct id_bytes_spec as (_ & Hfrom & _). revert bs p.
  intros bs p Hb. unfold Port_from_bytes. destruct (Z.eqb_spec (Z.of_nat (length bs)) PORT_BYTES) as [E|]; [|done]. cbn [negb].
  assert (Hlen : length bs = 49%nat) by (unfold PORT_BYTES in E; lia). destruct (Id_from_bytes _) as [id|] eqn:Eid; [|done]. cbn [mbind option_bind].
  destruct (Hfrom _ _ (Forall_take _ 32 _ Hb) Eid) as [Etake Hid].
  assert (Hbyte : is_byte (default 0 (bs !! 40%nat))).
  { destruct (lookup_lt_is_Some_2 bs 40) as [x Hx]; [lia|]. rewrite Hx. by eapply Forall_lookup_1 in Hx. }
  assert (Hw : ∀ m, (8 + m ≤ 49)%nat → is_word 64 (from_le_bytes (take 8 (drop m bs))) ∧ to_le_bytes 8 (from_le_bytes (take 8 (drop m bs))) = take 8 (drop m bs)).
  { intros m Hm. assert (Hl : length (take 8 (drop m bs)) = 8%nat) by (rewrite length_take, length_drop; lia).
    assert (Hf : Forall is_byte (take 8 (drop m bs))) by by apply Forall_take, Forall_drop.
    split; [rewrite <- (Z.mul_comm 8 8 : 8 * Z.of_nat 8 = 64), <- Hl at 1; by apply from_le_bytes_word|by apply le_bytes_id]. }
  destruct (Hw 32%nat ltac:(lia)) as [Hw1 Hw2]. destruct (Hw 41%nat ltac:(lia)) as [Hw3 Hw4].
  unfold is_byte in Hbyte. rewrite Port_from_parts_spec by (try apply Hw3; lia). case_bool_decide as Hok; [|done]. intros [= <-].
  split; [|by split_and!; try done; cbn; lia]. unfold Port_to_bytes. cbn [ch_inner port_id ch_capacity port_role port_generation].
  rewrite Etake, Hw2, Hw4, wrap_small by (unfold is_word; change (2 ^ 8) with 256; lia). symmetry. by apply port_fields.
Qed.

(** A port survives its byte form; the strings accepted are the byte forms
    of ports, so that no other string of bytes carries a role. *)
Theorem port_bytes_roundtrip :
  (∀ p, port_wf p → Port_from_bytes (Port_to_bytes p) = Some p ∧ length (Port_to_bytes p) = 49%nat) ∧
  (∀ bs p, Forall is_byte bs → Port_from_bytes bs = Some p → Port_to_bytes p = bs ∧ port_wf p).
Proof. split; [apply port_to_from|apply port_from_to]. Qed.

(** ** Geometry *)

(** The slot [i] of direction [d], from the start of the duplex. *)
Definition slot_place (g : DuplexGeometry) (slot : Layout) (d i : Z) : Z := dg_slots g + (d * dg_capacity g + i) * size slot.

(** The lap of a capacity below [2^62]. *)
Lemma next_lap cap : 0 < cap ≤ 2 ^ 62 - 1 →
  (checked_add cap 1 ≫= checked_next_power_of_two) = Some (2 ^ Z.log2_up (cap + 1)).
Proof.
  intros Hc. assert (Hle : 2 ^ Z.log2_up (cap + 1) ≤ usize_max).
  { assert (H62 : Z.log2_up (cap + 1) ≤ 62) by (apply Z.log2_up_le_pow2; lia). apply (Z.pow_le_mono_r 2) in H62; [|done].
    unfold usize_max, usize_bits. change (2 ^ 64) with (2 ^ 62 * 4). lia. }
  unfold checked_add. destruct (Z.leb_spec (cap + 1) usize_max) as [_|Hbad].
  - cbn [mbind option_bind]. unfold checked_next_power_of_two. destruct (Z.leb_spec (cap + 1) 1); [lia|]. by destruct (Z.leb_spec (2 ^ Z.log2_up (cap + 1)) usize_max); [|lia].
  - unfold usize_max, usize_bits in Hbad. change (2 ^ 64) with (2 ^ 62 * 4) in Hbad. lia.
Qed.

Section Geometry.
Context (header slot : Layout) (Hh : layout_wf header) (Hs : layout_wf slot) (Hsz : 0 < size slot) (Hmul : (align slot | size slot)).

Definition slots_start : Z := round_up (size header) (align slot).

Lemma slots_start_spec : size header ≤ slots_start < size header + align slot ∧ (align slot | slots_start).
Proof using Hh Hs. destruct Hh as [Hp Hr], Hs as [Hq _]. by apply round_up_spec; [apply power_pos|lia]. Qed.

(** A geometry exists exactly for a capacity whose slots fit the largest
    layout. *)
Lemma duplex_geometry_spec cap : 0 ≤ cap ≤ usize_max →
  duplex_geometry header slot cap =
  if cap =? 0 then Err ZeroCapacity
  else if slots_start + 2 * cap * size slot <=? isize_max + 1 - Z.max (align header) (align slot)
  then Ok (mkDuplexGeometry (pad_to_align (mkLayout (slots_start + 2 * cap * size slot) (Z.max (align header) (align slot))))
             slots_start cap (2 ^ Z.log2_up (cap + 1)))
  else Err DuplexOverflow.
Proof using Hh Hs Hsz.
  intros Hc. pose proof slots_start_spec as [Hst _]. unfold duplex_geometry. destruct (Z.eqb_spec cap 0) as [|Hne]; [done|].
  set (n := 2 * cap * size slot). set (al := Z.max (align header) (align slot)).
  assert (Hal : is_power_of_two al = true) by (apply power_max; [apply Hh|apply Hs]).
  assert (Earr : layout_array slot (cap * 2) = if n <=? isize_max + 1 - align slot then Some (mkLayout n (align slot)) else None).
  { unfold layout_array, n. by replace (size slot * (cap * 2)) with (2 * cap * size slot) by lia. }
  assert (Eext : extend header (mkLayout n (align slot)) = if slots_start + n <=? isize_max + 1 - al then Some (mkLayout (slots_start + n) al, slots_start) else None).
  { change (extend header _) with (match from_size_align (slots_start + n) al with Some l => Some (l, slots_start) | None => None end).
    unfold from_size_align. rewrite Hal. cbn [andb]. by destruct (slots_start + n <=? isize_max + 1 - al). }
  destruct Hh as [Hp Hr], Hs as [Hq Hr']. destruct (Z.leb_spec (slots_start + n) (isize_max + 1 - al)) as [Hfit|Hfit].
  - assert (Hcap : cap ≤ 2 ^ 62 - 1).
    { pose proof (power_pos _ Hal). assert (2 * cap ≤ n) by (unfold n; nia). unfold isize_max, usize_bits in Hfit. change (2 ^ (64 - 1)) with (2 ^ 62 * 2) in Hfit. lia. }
    unfold checked_mul. destruct (Z.leb_spec (cap * 2) usize_max) as [_|Hbad]; [|unfold usize_max, usize_bits in Hbad; change (2 ^ 64) with (2 ^ 62 * 4) in Hbad; lia].
    cbn [ok_or]. rewrite Earr. destruct (Z.leb_spec n (isize_max + 1 - align slot)); [|unfold al in Hfit; lia]. cbn [ok_or]. rewrite Eext. cbn [ok_or fst snd].
    change (let! m := checked_add cap 1 in checked_next_power_of_two m) with (checked_add cap 1 ≫= checked_next_power_of_two). by rewrite next_lap by lia.
  - unfold checked_mul. destruct (cap * 2 <=? usize_max); [|done]. cbn [ok_or]. rewrite Earr.
    destruct (n <=? isize_max + 1 - align slot); [|done]. cbn [ok_or]. by rewrite Eext.
Qed.

Lemma lap_range cap : 0 < cap → cap < 2 ^ Z.log2_up (cap + 1) ≤ 2 * cap.
Proof using.
  intros Hc. pose proof (Z.log2_up_spec (cap + 1) ltac:(lia)) as [Hlo Hhi]. assert (Hpos : 0 < Z.log2_up (cap + 1)) by (apply Z.log2_up_pos; lia).
  set (k := Z.log2_up (cap + 1)) in *. assert (E : 2 ^ k = 2 * 2 ^ Z.pred k) by (rewrite <- Z.pow_succ_r by lia; f_equal; lia). lia.
Qed.

(** Different positions of an array are apart. *)
Lemma array_apart (s a b : Z) : 0 < s → a ≠ b → a * s + s ≤ b * s ∨ b * s + s ≤ a * s.
Proof using. intros Hs' Hne. destruct (Z.lt_total a b) as [?|[?|?]]; [left; nia|done|right; nia]. Qed.

Lemma padded_wf n al : is_power_of_two al = true → 0 ≤ n ≤ isize_max + 1 - al → layout_wf (pad_to_align (mkLayout n al)) ∧ (al | round_up n al) ∧ n ≤ round_up n al.
Proof using.
  intros Hp Hn. pose proof (power_pos _ Hp) as Hpos. destruct (round_up_spec n al Hpos (proj1 Hn)) as [Hr Hd]. split_and!; [|done|lia].
  unfold pad_to_align, layout_wf. cbn [size align]. split; [done|]. split; [lia|].
  destruct (pow2_form _ Hp) as (j & Hj & ->). unfold isize_max, usize_bits in *.
  assert (Hj63 : j ≤ 63) by (apply (Z.pow_le_mono_r_iff 2); [done|done|change (2 ^ (64 - 1)) with (2 ^ 63) in Hn; lia]).
  assert (E : 2 ^ (64 - 1) = 2 ^ (63 - j) * 2 ^ j) by (rewrite <- Z.pow_add_r by lia; f_equal; lia).
  unfold round_up. assert (H : (n + 2 ^ j - 1) / 2 ^ j < 2 ^ (63 - j)) by (apply Z.div_lt_upper_bound; [done|lia]). nia.
Qed.

(** The geometry of a channel.  It is refused exactly for the capacity zero
    and when its slots do not fit a layout; otherwise the slots of the two
    directions lie behind the header, aligned, inside the layout and apart from
    each other, the layout is one the heap accepts, and a lap has room for one
    position more than there are slots. *)
Theorem duplex_slots_apart cap : 0 ≤ cap ≤ usize_max →
  match duplex_geometry header slot cap with
  | Err ZeroCapacity => cap = 0
  | Err DuplexOverflow => 0 < cap ∧ isize_max + 1 - Z.max (align header) (align slot) < slots_start + 2 * cap * size slot
  | Ok g =>
    layout_wf (dg_layout g) ∧ (align (dg_layout g) | size (dg_layout g)) ∧ dg_capacity g = cap ∧
    cap < dg_one_lap g ≤ 2 * cap ∧ is_power_of_two (dg_one_lap g) = true ∧
    ∀ d i, 0 ≤ d < 2 → 0 ≤ i < cap →
      size header ≤ slot_place g slot d i ∧ slot_place g slot d i + size slot ≤ size (dg_layout g) ∧ slot_place g slot d i mod align slot = 0 ∧
      ∀ d' i', 0 ≤ d' < 2 → 0 ≤ i' < cap → (d, i) ≠ (d', i') →
        slot_place g slot d i + size slot ≤ slot_place g slot d' i' ∨ slot_place g slot d' i' + size slot ≤ slot_place g slot d i
  end.
Proof using Hh Hs Hsz Hmul.
  intros Hc. rewrite duplex_geometry_spec by done. destruct (Z.eqb_spec cap 0) as [|Hne]; [done|].
  destruct (Z.leb_spec (slots_start + 2 * cap * size slot) (isize_max + 1 - Z.max (align header) (align slot))) as [Hfit|Hfit]; [|by split; [lia|]].
  pose proof slots_start_spec as [Hst Hdv]. destruct Hh as [Hp Hr], Hs as [Hq Hr']. pose proof (power_max _ _ Hp Hq) as Hal.
  destruct (padded_wf (slots_start + 2 * cap * size slot) _ Hal) as (Hwf & Hd & Hle); [nia|].
  cbn [dg_layout dg_capacity dg_one_lap]. unfold slot_place. cbn [dg_slots dg_capacity pad_to_align size align].
  split_and!; [done|done|done|by apply lap_range; lia|by apply lap_range; lia|apply pow2_is_power, Z.log2_up_nonneg|].
  intros d i Hd' Hi. split_and!; [nia|nia| |].
  - apply Z.mod_divide; [pose proof (power_pos _ Hq); lia|]. apply Z.divide_add_r; [done|by apply Z.divide_mul_r].
  - intros d' i' Hd'' Hi' Hneq. destruct (array_apart (size slot) (d * cap + i) (d' * cap + i') Hsz); [|lia..].
    intros E. apply Hneq. assert (d = d') by nia. subst. f_equal. lia.
Qed.

End Geometry.

Lemma duplex_slots_apart_witness : ∃ g, duplex_geometry (mkLayout 320 64) (mkLayout 192 64) 3 = Ok g ∧
  dg_one_lap g = 4 ∧ slot_place g (mkLayout 192 64) 0 2 + 192 ≤ slot_place g (mkLayout 192 64) 1 0.
Proof.
  pose proof (duplex_slots_apart (mkLayout 320 64) (mkLayout 192 64) ltac:(by_eval) ltac:(by_eval) ltac:(by_eval) ltac:(by exists 3) 3 ltac:(by_eval)) as H.
  assert (E : ∃ g, duplex_geometry (mkLayout 320 64) (mkLayout 192 64) 3 = Ok g ∧ dg_one_lap g = 4) by (eexists; split; vm_compute; reflexivity).
  destruct E as (g & E & El). rewrite E in H. exists g. split; [exact E|]. split; [exact El|].
  destruct H as (_ & _ & Ec & _ & _ & H). destruct (H 0 2 ltac:(lia) ltac:(lia)) as (_ & _ & _ & H'). destruct (H' 1 0 ltac:(lia) ltac:(lia) ltac:(done)) as [Hd|Hd]; [exact Hd|].
  revert Hd. unfold slot_place. rewrite Ec. cbn [size]. lia.
Defined.
