(* ===== verification/Duplex.v ===== *)
(** * Duplexes: two queues and two roles

    Models the rest of [src/src/channel.rs]: the shared body of a channel, its
    initialization and admission, the endpoints of the two directions, closing a
    channel, and the recovery of a dead participant.  A direction is a queue of
    [Queue] on its part of the duplex; the lifecycle byte is shared by both. *)

From Stdlib Require Import String.
From S2P Require Import Prelude Atomic Alloc Bytes Schema Header Mem Heap Dir Channel Queue.

(** ** State *)

(** The cursors and the slots of one direction. *)
Record half (V : Type) := mkHalf { hf_head : Z; hf_tail : Z; hf_slots : list (Slot V) }.
Arguments mkHalf {V}. Arguments hf_head {V}. Arguments hf_tail {V}. Arguments hf_slots {V}.

(** [Duplex] with the slots behind it: the first half of them belongs to the
    left direction. *)
Record Duplex (V : Type) := mkDuplex { dx_lifecycle : Z; dx_roles : roles; dx_left : half V; dx_right : half V }.
Arguments mkDuplex {V}. Arguments dx_lifecycle {V}. Arguments dx_roles {V}. Arguments dx_left {V}. Arguments dx_right {V}.

Section State.
Context {V : Type}.
Implicit Types dx : Duplex V.

Definition half_at (d : Z) dx : half V := if d =? 0 then dx_left dx else dx_right dx.

(** The queue of direction [d]. *)
Definition queue_of (d : Z) dx : qstate V :=
  mkQ (hf_head (half_at d dx)) (hf_tail (half_at d dx)) (dx_lifecycle dx) (hf_slots (half_at d dx)).

Definition put_queue (d : Z) (q : qstate V) dx : Duplex V :=
  let h := mkHalf (head q) (tail q) (buf q) in
  if d =? 0 then mkDuplex (lifecycle q) (dx_roles dx) h (dx_right dx)
  else mkDuplex (lifecycle q) (dx_roles dx) (dx_left dx) h.

Definition put_roles (w : roles) dx : Duplex V := mkDuplex (dx_lifecycle dx) w (dx_left dx) (dx_right dx).

Definition half_new (capacity : Z) : half V := mkHalf 0 0 (Slot_new <$> seqZ 0 capacity).

(** [Duplex::blank] with the slots [Layout::init] writes. *)
Definition Duplex_blank (capacity : Z) : Duplex V := mkDuplex 0 [0; 0] (half_new capacity) (half_new capacity).
End State.

(** ** The layout *)

Definition Duplex_SCHEMA (token : SchemaKey) : SchemaKey := compose_schema (mkSchemaKey (schema_id "evering.duplex") 5) token.
Definition DuplexInfo_SCHEMA : SchemaKey := mkSchemaKey (schema_id "evering.duplex.info") 1.
Definition Duplex_MAGIC : Z := 0xD0A1.

Section LayoutImpl.
Context (V : Type) (header slot body : Layout) (token : SchemaKey).

Definition duplex_storage (conf : Z) : option Layout := dg_layout <$> res_ok (duplex_geometry header slot conf).

Definition duplex_info (conf : Z) (_ : LayoutContext) : Z :=
  match duplex_geometry header slot conf with Ok _ => conf | Err _ => 0 end.

(** [<Duplex as Layout>::init]; nothing is written for a refused geometry. *)
Definition duplex_init (conf : Z) : option (Duplex V * Status) :=
  Some (match duplex_geometry header slot conf with
        | Ok g => (Duplex_blank (dg_capacity g), Initialized)
        | Err _ => (Duplex_blank 0, Header.Corrupted)
        end).

Definition duplex_attach (_ : Duplex V) (conf : Z) : option Status :=
  Some (match duplex_geometry header slot conf with Ok _ => Initialized | Err _ => Header.Corrupted end).

(** A duplex whose header and slots have the given layouts. *)
Definition Duplex_Layout : SharedLayout (Duplex V) := {|
  Config := Z;
  Info := Z;
  SCHEMA := Duplex_SCHEMA token;
  MAGIC := Duplex_MAGIC;
  INFO_SCHEMA := DuplexInfo_SCHEMA;
  body_layout := body;
  info_layout := mkLayout 8 8;
  header_layout := header;
  storage := duplex_storage;
  info := duplex_info;
  init := duplex_init;
  attach := duplex_attach;
|}.
End LayoutImpl.

(** ** Endpoints *)

(** [routes]: the lifecycle fields of a direction. *)
Definition route_send_field (d : Z) : Z := if d =? 0 then 0 else 4.
Definition route_recv_field (d : Z) : Z := if d =? 0 then 6 else 2.

(** [Endpoint] of a role in a direction, as the queue sees it. *)
Definition endpoint_of (r : Role) (d : Z) : Endpoint :=
  mkEndpoint (route_send_field d) (route_recv_field d) (r_owner r) (r_one_lap r) (r_capacity r).

(** [Channel::split]: the directions it sends and receives in. *)
Definition split_tx (r : Role) : Z := r_index r.
Definition split_rx (r : Role) : Z := 1 - r_index r.

Inductive ChannelCloseError := CloseBusy | CloseEvidence.
Inductive ReceiveError := ReceiveEmpty | ReceiveBusy | ReceiveClosed.

#[export] Instance ChannelCloseError_eq_dec : EqDecision ChannelCloseError.
Proof. solve_decision. Defined.
#[export] Instance ReceiveError_eq_dec : EqDecision ReceiveError.
Proof. solve_decision. Defined.

Section Ops.
(** Beside the duplex, the state [X] on which tokens are released. *)
Context {V X : Type}.
Abbreviation S := (Duplex V * X)%type.

Definition on_roles {A} (p : prog roles A) : prog S A :=
  on_part (λ s, dx_roles s.1) (λ w s, (put_roles w s.1, s.2)) p.

Definition on_queue {A} (d : Z) (p : prog (qstate V) A) : prog S A :=
  on_part (λ s, queue_of d s.1) (λ q s, (put_queue d q s.1, s.2)) p.

(** [Rx::claim] *)
Definition rx_claim (r : Role) (d : Z) : prog S (option (result Claim ReceiveError)) :=
  do c <- on_queue d (claim (endpoint_of r d));
  match c with
  | None => Ret None
  | Some (Ok c) => Ret (Some (Ok c))
  | Some (Err ClaimEmpty) =>
    do t <- on_queue d (terminal (endpoint_of r d));
    Ret (Some (Err (if t then ReceiveClosed else ReceiveEmpty)))
  | Some (Err ClaimBusy) => Ret (Some (Err ReceiveBusy))
  | Some (Err ClaimClosed) => Ret (Some (Err ReceiveClosed))
  end.

(** [Tx::close], [Tx::is_close], [Rx::close], [Rx::is_close] *)
Definition tx_close (r : Role) (d : Z) : prog S unit := on_queue d (close_send (endpoint_of r d)).
Definition tx_is_close (r : Role) (d : Z) : prog S bool :=
  do st <- on_queue d (field_state (send_field (endpoint_of r d))); Ret (negb (st =? 0)).
Definition rx_close (r : Role) (d : Z) : prog S unit := on_queue d (close_recv (endpoint_of r d)).
Definition rx_is_close (r : Role) (d : Z) : prog S bool :=
  do st <- on_queue d (field_state (recv_field (endpoint_of r d))); Ret (negb (st =? 0)).

(** *** Closing *)

Context (release : V → X → bool * X).

(** Hands the item of a claim to [release]. *)
Definition release_item (d : Z) (c : Claim) (s : S) : bool * S :=
  match value (slot_at (claim_slot c) (queue_of d s.1)) with
  | Some v => let '(ok, x) := release v s.2 in (ok, (s.1, x))
  | None => (true, s)
  end.

(** The loop of [Channel::close_with] that drains one direction; [None] when it
    is still looping or panics. *)
Fixpoint drain (r : Role) (d : Z) (fuel : nat) : prog S (option (result unit ChannelCloseError)) :=
  match fuel with
  | O => Ret None
  | Datatypes.S fuel =>
    do c <- on_queue d (claim (endpoint_of r d));
    match c with
    | None => Ret None
    | Some (Ok c) =>
      act ok <- release_item d c;
      if ok then do _ <- on_queue d (take c); drain r d fuel
      else Ret (Some (Err CloseEvidence))
    | Some (Err ClaimEmpty) =>
      do closed <- on_queue d (send_closed (endpoint_of r d));
      if negb closed then Ret (Some (Err CloseBusy)) else
      do empty <- on_queue d is_empty;
      Ret (Some (if negb empty then Err CloseBusy else Ok tt))
    | Some (Err _) => Ret (Some (Err CloseBusy))
    end
  end.

(** The receiving side of one direction is closed. *)
Definition shut (r : Role) (d : Z) : prog S bool :=
  do _ <- on_queue d (close_recv (endpoint_of r d));
  on_queue d (recv_closed (endpoint_of r d)).

(** [Channel::close_with], once the role is terminal. *)
Definition close_queues (r : Role) (fuel : nat) : prog S (option (result unit ChannelCloseError)) :=
  do _ <- on_queue 0 (close_send (endpoint_of r 0));
  do _ <- on_queue 1 (close_send (endpoint_of r 1));
  do a <- drain r 0 fuel;
  match a with
  | Some (Ok _) =>
    do b <- drain r 1 fuel;
    match b with
    | Some (Ok _) =>
      do c <- shut r 0;
      if negb c then Ret (Some (Err CloseBusy)) else
      do c <- shut r 1;
      if negb c then Ret (Some (Err CloseBusy)) else
      do f <- on_roles (finish_close r);
      Ret (Some (map_err (λ _, CloseBusy) f))
    | b => Ret b
    end
  | a => Ret a
  end.

(** [Channel::close_with] *)
Definition close_with (r : Role) (attempts : list bool) (fuel : nat) : prog S (option (result unit ChannelCloseError)) :=
  do m <- on_roles (act raw <- load_role (r_index r); mark_terminal r attempts raw);
  match m with
  | None => Ret None
  | Some (Err _) => Ret (Some (Err CloseBusy))
  | Some (Ok false) => Ret (Some (Ok tt))
  | Some (Ok true) => close_queues r fuel
  end.
End Ops.

(** ** Recovery *)

Section Recover.
Context {V X : Type} (release : V → Z → X → bool * X).
Abbreviation S := (Duplex V * X)%type.

(** [repair_slot_with] on a slot of direction [d]. *)
Definition repair_in (d lap cap index dead live : Z) : prog S Repair :=
  on_part (λ s, (queue_of d s.1, s.2)) (λ qx s, (put_queue d qx.1 s.1, qx.2)) (repair_slot_with release lap cap index dead live).

(** The slots of one direction; whether none is in the way. *)
Fixpoint repair_slots (d lap cap dead live : Z) (indices : list Z) : prog S bool :=
  match indices with
  | [] => Ret true
  | index :: indices =>
    do r <- repair_in d lap cap index dead live;
    match r with
    | RepairBusy _ | Queue.Corrupted => Ret false
    | _ => repair_slots d lap cap dead live indices
    end
  end.

(** [<Duplex as Layout>::recover] of a duplex of [extent] bytes whose info
    records [capacity]; [None] when a role's loop is still turning. *)
Definition duplex_recover (header slot : Layout) (capacity extent dead live : Z) (attempts : list bool) : prog S (option bool) :=
  match duplex_geometry header slot capacity with
  | Err _ => Ret (Some false)
  | Ok g =>
    if negb (size (dg_layout g) =? extent) then Ret (Some false) else
    do a <- repair_slots 0 (dg_one_lap g) capacity dead live (seqZ 0 capacity);
    if negb a then Ret (Some false) else
    do b <- repair_slots 1 (dg_one_lap g) capacity dead live (seqZ 0 capacity);
    if negb b then Ret (Some false) else
    do x <- on_roles (recover_role 0 dead attempts);
    match x with
    | None => Ret None
    | Some _ => do y <- on_roles (recover_role 1 dead attempts); Ret (const true <$> y)
    end
  end.
End Recover.
