(* ===== verification/RoleConc.v ===== *)
(** * Roles under concurrency

    Any number of threads adopt ports, invite, close and drop the roles of one
    duplex, and operate its queues, interleaved at every access.  They die
    anywhere, and [Duplex::recover] runs for the participant of the dead one.  A
    role is adopted at most once per generation, the generations of the dead
    included, and whoever holds it keeps its authority until it gives it up. *)

From S2P Require Import Prelude Atomic Alloc Schema Header Mem Heap Dir Channel ChannelGeo Queue Duplex.

(** ** Auxiliary state *)

(** The parts of a role word. *)
Definition rword : Type := Z * option Z * bool.

Definition rw (w : rword) : Z := let '(g, p, t) := w in enc g p t.

Definition rw_ok (w : rword) : Prop := let '(g, p, _) := w in 0 ≤ g ≤ ROLE_MAX_GENERATION ∧ part_ok p.

Lemma rw_inj x y : rw_ok x → rw_ok y → rw x = rw y → x = y.
Proof.
  destruct x as [[g p] t], y as [[g' p'] t']. intros [Hg Hp] [Hg' Hp'] E. cbn [rw] in E.
  pose proof (role_parts g p t ltac:(lia) Hp) as H1. rewrite E, role_parts in H1 by (done || lia). congruence.
Qed.

(** The two words, and every claim so far: role, generation and thread. *)
Record rg := mkRg { rg_words : list rword; rg_claims : list (Z * Z * nat) }.

(** What releasing leaves of a word. *)
Definition released (w : rword) : rword :=
  let '(g, _, t) := w in if t || (g =? ROLE_MAX_GENERATION) then (g, None, true) else (g + 1, None, false).

(** [w] at role [i] was never claimed in its generation, or is not open. *)
Definition open_fresh (claims : list (Z * Z * nat)) (i : Z) (w : rword) : Prop :=
  ∀ g t, (i, g, t) ∈ claims → g ≤ w.1.1 ∧ (g = w.1.1 → w.1.2 = None → w.2 = true).

Section Roles.
Context (own : nat → Z).

Record role_inv (a : rg) (w : roles) : Prop := {
  ri_words : w = rw <$> rg_words a;
  ri_len : length (rg_words a) = 2%nat;
  ri_ok : Forall rw_ok (rg_words a);
  ri_nodup : NoDup ((λ c, c.1) <$> rg_claims a);
  ri_owned i g o tm : rg_words a !! Z.to_nat i = Some (g, Some o, tm) → 0 ≤ i → ∃ t, own t = o ∧ (i, g, t) ∈ rg_claims a;
  ri_fresh i x : rg_words a !! Z.to_nat i = Some x → 0 ≤ i → open_fresh (rg_claims a) i x;
}.

(** What thread [t] does to the word of role [i]. *)
Inductive word_step (t : nat) (claims : list (Z * Z * nat)) (i : Z) : rword → rword → Prop :=
| ws_invite g : word_step t claims i (g, None, false) (released (g, None, false))
| ws_release g o tm : (i, g, t) ∈ claims → word_step t claims i (g, Some o, tm) (released (g, Some o, tm))
| ws_mark g o : (i, g, t) ∈ claims → word_step t claims i (g, Some o, false) (g, Some o, true)
| ws_recover g tm : (∀ t', own t' = own t → t' = t) → word_step t claims i (g, Some (own t), tm) (released (g, Some (own t), tm)).

Inductive role_guar (t : nat) : rg → rg → Prop :=
| rs_skip a : role_guar t a a
| rs_step ws claims i x y : 0 ≤ i → ws !! Z.to_nat i = Some x → word_step t claims i x y →
    role_guar t (mkRg ws claims) (mkRg (<[Z.to_nat i := y]> ws) claims)
| rs_claim ws claims i g : 0 ≤ i → ws !! Z.to_nat i = Some (g, None, false) → (∀ t', (i, g, t') ∉ claims) →
    role_guar t (mkRg ws claims) (mkRg (<[Z.to_nat i := (g, Some (own t), false)]> ws) (claims ++ [(i, g, t)])).

(** ** Preservation *)

Lemma released_ok w : rw_ok w → rw_ok (released w).
Proof using.
  destruct w as [[g p] t]. intros [Hg _]. unfold released. destruct t; cbn [orb]; [by split|].
  destruct (Z.eqb_spec g ROLE_MAX_GENERATION); split; done || lia.
Qed.

Lemma released_rw w : rw_ok w → released_word (rw w) = rw (released w).
Proof using. destruct w as [[g p] t]. intros [Hg Hp]. unfold rw, released. rewrite released_enc by done. by destruct (t || _). Qed.

Lemma word_step_ok t claims i x y : rw_ok x → word_step t claims i x y → rw_ok y.
Proof using. intros Hx Hs. destruct Hs; [by apply released_ok|by apply released_ok|by destruct Hx|by apply released_ok]. Qed.

Lemma released_fresh claims i x : open_fresh claims i x → open_fresh claims i (released x).
Proof using.
  destruct x as [[g p] t]. intros Hf g' t' Hin. destruct (Hf g' t' Hin) as [Hle _]. cbn [fst snd] in *. unfold released.
  destruct (t || (g =? ROLE_MAX_GENERATION)); cbn [fst snd]; split; done || lia.
Qed.

Lemma word_step_fresh t claims i x y : word_step t claims i x y → open_fresh claims i x → open_fresh claims i y.
Proof using.
  intros Hs Hf. destruct Hs; [by apply released_fresh|by apply released_fresh| |by apply released_fresh].
  intros g' t' Hin. destruct (Hf g' t' Hin). by split.
Qed.

Lemma released_open x : (released x).1.2 = None.
Proof using. destruct x as [[g p] b]. unfold released. by destruct (b || _). Qed.

(** A step that leaves an owner finds it. *)
Lemma word_step_owned t claims i x g o tm : word_step t claims i x (g, Some o, tm) → ∃ b, x = (g, Some o, b).
Proof using.
  intros Hs. remember (g, Some o, tm) as y eqn:Ey. destruct Hs as [g0|g0 o0 tm0 _|g0 o0 _|g0 tm0 _]; [..|injection Ey as -> -> _; by exists false|];
    pose proof (f_equal (λ w : rword, w.1.2) Ey) as E2; cbv beta in E2; rewrite released_open in E2; discriminate E2.
Qed.

Lemma word_at a w i x : role_inv a w → rg_words a !! Z.to_nat i = Some x → role_at i w = rw x ∧ rw_ok x.
Proof using.
  intros [-> _ Hok _ _ _] Hx. unfold role_at. rewrite list_lookup_fmap, Hx. split; [done|]. by eapply Forall_lookup_1.
Qed.

Lemma inv_step a w i x y t : role_inv a w → 0 ≤ i → rg_words a !! Z.to_nat i = Some x → word_step t (rg_claims a) i x y →
  role_inv (mkRg (<[Z.to_nat i := y]> (rg_words a)) (rg_claims a)) (set_role i (rw y) w).
Proof using.
  intros HI Hi Hx Hs. pose proof (word_at _ _ _ _ HI Hx) as [_ Hxok]. destruct HI as [-> Hlen Hok Hnd Hof Hf]. split; cbn [rg_words rg_claims].
  - unfold set_role. by rewrite list_fmap_insert.
  - by rewrite length_insert.
  - apply Forall_insert; [done|]. by eapply word_step_ok.
  - done.
  - intros j g o tm Hz Hj. destruct (decide (j = i)) as [->|Hne].
    + rewrite list_lookup_insert_eq in Hz by (by eapply lookup_lt_Some). injection Hz as ->. apply word_step_owned in Hs as [b ->]. by eapply Hof.
    + rewrite list_lookup_insert_ne in Hz by lia. by eapply Hof.
  - intros j z Hz Hj. destruct (decide (j = i)) as [->|Hne].
    + rewrite list_lookup_insert_eq in Hz by (by eapply lookup_lt_Some). injection Hz as <-. eapply word_step_fresh; [done|by apply Hf].
    + rewrite list_lookup_insert_ne in Hz by lia. by apply Hf.
Qed.

Lemma claims_nodup_snoc (claims : list (Z * Z * nat)) i g t : NoDup ((λ c, c.1) <$> claims) → (∀ t', (i, g, t') ∉ claims) → NoDup ((λ c, c.1) <$> (claims ++ [(i, g, t)])).
Proof using.
  intros Hnd Hno. rewrite fmap_app. apply NoDup_app. split_and!; [done| |apply NoDup_singleton].
  intros c ((c', t') & -> & Hin)%list_elem_of_fmap. cbn. intros ->%list_elem_of_singleton. by apply (Hno t').
Qed.

Lemma roles_inv_claim a w i g t : part_ok (Some (own t)) → role_inv a w → 0 ≤ i → rg_words a !! Z.to_nat i = Some (g, None, false) →
  (∀ t', (i, g, t') ∉ rg_claims a) ∧
  role_inv (mkRg (<[Z.to_nat i := (g, Some (own t), false)]> (rg_words a)) (rg_claims a ++ [(i, g, t)])) (set_role i (enc g (Some (own t)) false) w).
Proof using.
  intros Hown HI Hi Hx. pose proof (word_at _ _ _ _ HI Hx) as [_ [Hg _]]. destruct HI as [-> Hlen Hok Hnd Hof Hf].
  assert (Hno : ∀ t', (i, g, t') ∉ rg_claims a).
  { intros t' Hin. destruct (Hf _ _ Hx Hi _ _ Hin) as [_ Hbad]. by specialize (Hbad eq_refl eq_refl). }
  split; [done|]. split; cbn [rg_words rg_claims].
  - unfold set_role. by rewrite list_fmap_insert.
  - by rewrite length_insert.
  - by apply Forall_insert.
  - by apply claims_nodup_snoc.
  - intros j g' o tm Hz Hj. destruct (decide (j = i)) as [->|Hne].
    + rewrite list_lookup_insert_eq in Hz by (by eapply lookup_lt_Some). injection Hz as <- <- <-. exists t. split; [done|]. apply elem_of_app. right. by left.
    + rewrite list_lookup_insert_ne in Hz by lia. destruct (Hof j g' o tm Hz Hj) as (t' & ? & ?). exists t'. split; [done|]. apply elem_of_app. by left.
  - intros j z Hz Hj g' t' [Hin|E%list_elem_of_singleton]%elem_of_app; destruct (decide (j = i)) as [->|Hne].
    + rewrite list_lookup_insert_eq in Hz by (by eapply lookup_lt_Some). injection Hz as <-. by destruct (Hf _ _ Hx Hi _ _ Hin).
    + rewrite list_lookup_insert_ne in Hz by lia. by apply (Hf j z Hz Hj g' t').
    + rewrite list_lookup_insert_eq in Hz by (by eapply lookup_lt_Some). injection Hz as <-. injection E as -> _. cbn. by split.
    + congruence.
Qed.

(** ** Assertions of a thread *)

(** A word that its generation's claimant [o] still rules, or closed. *)
Definition authority (g o : Z) (w : rword) : Prop := w.1.1 = g ∧ (w.1.2 = Some o ∨ w.1.2 = None ∧ w.2 = true).

(** [t] claimed the role and keeps its authority. *)
Definition keeps (t : nat) (a : rg) (r : Role) : Prop :=
  (0 ≤ r_index r < 2 ∧ 0 ≤ r_generation r ≤ ROLE_MAX_GENERATION) ∧ r_owner r = own t ∧ (r_index r, r_generation r, t) ∈ rg_claims a ∧
  ∃ x, rg_words a !! Z.to_nat (r_index r) = Some x ∧ authority (r_generation r) (own t) x.

(** Claims are made once, [t] holds [rs] and made the claims [es]. *)
Record holds (t : nat) (rs : list Role) (es : list (Z * Z)) (a : rg) : Prop := {
  hd_once : NoDup ((λ c, c.1) <$> rg_claims a);
  hd_keeps : Forall (keeps t a) rs;
  hd_distinct : NoDup ((λ r, (r_index r, r_generation r)) <$> rs);
  hd_events : NoDup es;
  hd_claims e : e ∈ es → (e, t) ∈ rg_claims a;
}.

Lemma claims_once (claims : list (Z * Z * nat)) e t t' : NoDup ((λ c, c.1) <$> claims) → (e, t) ∈ claims → (e, t') ∈ claims → t = t'.
Proof using.
  intros Hnd [i Hi]%list_elem_of_lookup [j Hj]%list_elem_of_lookup.
  assert (i = j) as ->; [|congruence]. eapply (NoDup_lookup _ _ _ e Hnd); by rewrite list_lookup_fmap, ?Hi, ?Hj.
Qed.

Lemma keeps_step t t' a i x y r : t ≠ t' → NoDup ((λ c, c.1) <$> rg_claims a) →
  0 ≤ i → rg_words a !! Z.to_nat i = Some x → word_step t' (rg_claims a) i x y → keeps t a r → keeps t (mkRg (<[Z.to_nat i := y]> (rg_words a)) (rg_claims a)) r.
Proof using.
  intros Hne Hnd Hi Hx Hs (Hr & Ho & Hc & z & Hz & Hgen & Hauth). do 3 (split; [done|]). cbn [rg_words].
  destruct (decide (r_index r = i)) as [<-|]; [|exists z; rewrite list_lookup_insert_ne by lia; by split].
  rewrite Hx in Hz. injection Hz as <-. exists y. rewrite list_lookup_insert_eq by (by eapply lookup_lt_Some). split; [done|]. exfalso.
  destruct Hs as [g|g o tm Hin|g o Hin|g tm Halone]; cbn [fst snd] in *; subst.
  - by destruct Hauth as [?|[_ ?]].
  - apply Hne. by eapply claims_once.
  - apply Hne. by eapply claims_once.
  - destruct Hauth as [[= E]|[? _]]; [|done]. by apply Hne, Halone.
Qed.

Lemma keeps_claim t t' a i g r : NoDup ((λ c, c.1) <$> rg_claims a) → 0 ≤ i → rg_words a !! Z.to_nat i = Some (g, None, false) →
  keeps t a r → keeps t (mkRg (<[Z.to_nat i := (g, Some (own t'), false)]> (rg_words a)) (rg_claims a ++ [(i, g, t')])) r.
Proof using.
  intros Hnd Hi Hx (Hr & Ho & Hc & z & Hz & Hgen & Hauth). do 2 (split; [done|]). split; [apply elem_of_app; by left|]. cbn [rg_words].
  destruct (decide (r_index r = i)) as [<-|]; [|exists z; rewrite list_lookup_insert_ne by lia; by split].
  exfalso. assert (Some z = Some (g, None, false)) as [= ->] by (rewrite <- Hz; exact Hx). by destruct Hauth as [?|[_ ?]].
Qed.

Lemma role_stable t rs es : stable (rely_of role_guar) t (holds t rs es).
Proof using.
  apply stable_of. intros t' a a' Hne Hg [Hnd Hk Hds He Hc]. destruct Hg as [a|ws claims i x y Hi Hx Hs|ws claims i g Hi Hx Hno]; [done|..].
  - split; [done| |done|done|done]. eapply Forall_impl; [done|]. intros r. by apply (keeps_step t t' (mkRg ws claims) i x y).
  - split; cbn [rg_claims] in *; [by apply claims_nodup_snoc| |done|done|intros e He'; apply elem_of_app; left; by apply Hc].
    eapply Forall_impl; [done|]. intros r. by apply (keeps_claim t t' (mkRg ws claims) i g).
Qed.

(** ** Programs on the words *)

Abbreviation rwp t p Q a := (wp role_inv (rely_of role_guar) t p Q a).

Section Thread.
Context (t : nat) (Hown : part_ok (Some (own t))).

(** Accesses of a thread that relies on [P]. *)
Section Access.
Context (P : rg → Prop) (HP : stable (rely_of role_guar) t P).

Lemma role_read_at i A (k : Z → prog roles A) Q a : P a →
  (∀ a' raw, P a' → (0 ≤ i < 2 → ∃ x, rw_ok x ∧ raw = rw x ∧ rg_words a' !! Z.to_nat i = Some x) → rwp t (k raw) Q a') →
  rwp t (Act (load_role i) k) Q a.
Proof using HP.
  intros Hh Hk. apply (wp_read _ _ rs_skip P); [done|done|done|].
  intros a' w Hh' HI. apply Hk; [done|]. intros Hi. destruct (lookup_lt_is_Some_2 (rg_words a') (Z.to_nat i)) as [x Hx]; [destruct HI as [_ -> _ _ _ _]; lia|].
  destruct (word_at _ _ _ _ HI Hx). exists x. by split_and!.
Qed.

(** An exchange of the word [x] at role [i]: it fails, or it is a step. *)
Lemma role_cas_at sp i A x new (k : result unit Z → prog roles A) Q a : 0 ≤ i < 2 → rw_ok x → P a →
  (∀ a' w, P a' → role_inv a' w → rg_words a' !! Z.to_nat i = Some x →
    ∃ a'', role_guar t a' a'' ∧ role_inv a'' (set_role i new w) ∧ rwp t (k (Ok tt)) Q a'') →
  (∀ a' raw, P a' → (∃ y, rw_ok y ∧ raw = rw y ∧ rg_words a' !! Z.to_nat i = Some y) → rwp t (k (Err raw)) Q a') →
  rwp t (Act (cas_role_weak sp i (rw x) new) k) Q a.
Proof using HP.
  intros Hi Hx Hh Hok Herr. apply (wp_act _ _ P); [done|done|]. intros a' w Hh' HI.
  destruct (lookup_lt_is_Some_2 (rg_words a') (Z.to_nat i)) as [y Hy]; [destruct HI as [_ -> _ _ _ _]; lia|].
  destruct (word_at _ _ _ _ HI Hy) as [Hw Hyok]. unfold cas_role_weak, cas_role. rewrite Hw.
  assert (Hfail : ∃ a2, role_inv a2 w ∧ role_guar t a' a2 ∧ rwp t (k (Err (rw y))) Q a2).
  { exists a'. split_and!; [done|constructor|]. apply Herr; [done|eauto]. }
  destruct sp; [done|]. destruct (Z.eqb_spec (rw y) (rw x)) as [E|]; cbn [fst snd]; [|done].
  destruct (Hok a' w) as (a'' & Hg & Hi'' & Hk); [done|done| |by exists a'']. rewrite Hy. f_equal. by apply rw_inj.
Qed.

(** The releasing loop, when each release is a step that leads to [post]. *)
Lemma role_release_spec held i (post : option unit → rg → Prop) : 0 ≤ i < 2 →
  (∀ x a', rw_ok x → held (rw x) = true → P a' → rg_words a' !! Z.to_nat i = Some x →
    word_step t (rg_claims a') i x (released x) ∧ post (Some tt) (mkRg (<[Z.to_nat i := released x]> (rg_words a')) (rg_claims a'))) →
  (∀ x a', rw_ok x → held (rw x) = false → P a' → rg_words a' !! Z.to_nat i = Some x → post (Some tt) a') →
  (∀ a', P a' → post None a') →
  ∀ attempts a, P a → rwp t (act raw <- load_role i; release_role held i attempts raw) post a.
Proof using HP.
  intros Hi Hstep Hfree Hnone attempts a Hh. eapply role_read_at; [done|]. clear a Hh. intros a raw Hh Hraw. destruct (Hraw Hi) as (x & Hx & -> & Hl). clear Hraw.
  revert x a Hx Hl Hh. induction attempts as [|sp attempts IH]; intros x a Hx Hl Hh; cbn [release_role]; destruct (held (rw x)) eqn:E; cbn [negb];
    try (apply wp_ret; first [by eapply Hfree|by apply Hnone]).
  eapply role_cas_at; [done|done|done| |].
  - intros a' w Hh' HI Hl'. destruct (Hstep x a' Hx E Hh' Hl') as [Hs Hp]. rewrite released_rw by done.
    eexists. split_and!; [|by eapply (inv_step _ _ _ _ _ t); [done|lia|done|done]|by apply wp_ret]. destruct a'. by apply (rs_step t _ _ i x); [lia|..].
  - intros a' raw' Hh' (y & Hy & -> & Hl'). by apply IH.
Qed.
End Access.

Lemma role_read i A (k : Z → prog roles A) Q rs es a : holds t rs es a →
  (∀ a' raw, holds t rs es a' → (0 ≤ i < 2 → ∃ x, rw_ok x ∧ raw = rw x ∧ rg_words a' !! Z.to_nat i = Some x) → rwp t (k raw) Q a') →
  rwp t (Act (load_role i) k) Q a.
Proof using. apply role_read_at, role_stable. Qed.

Lemma role_cas sp i A x new (k : result unit Z → prog roles A) Q rs es a : 0 ≤ i < 2 → rw_ok x → holds t rs es a →
  (∀ a' w, holds t rs es a' → role_inv a' w → rg_words a' !! Z.to_nat i = Some x →
    ∃ a'', role_guar t a' a'' ∧ role_inv a'' (set_role i new w) ∧ rwp t (k (Ok tt)) Q a'') →
  (∀ a' raw, holds t rs es a' → (∃ y, rw_ok y ∧ raw = rw y) → rwp t (k (Err raw)) Q a') →
  rwp t (Act (cas_role_weak sp i (rw x) new) k) Q a.
Proof using.
  intros Hi Hx Hh Hok Herr. apply (role_cas_at (holds t rs es) (role_stable t rs es)); [done..|]. intros a' raw Hh' (y & ? & ? & _). apply Herr; [done|by exists y].
Qed.

(** A step of [t] on the word of a role it holds. *)
Lemma own_step r rest es a x y : holds t (r :: rest) es a → rg_words a !! Z.to_nat (r_index r) = Some x →
  let a' := mkRg (<[Z.to_nat (r_index r) := y]> (rg_words a)) (rg_claims a) in
  holds t rest es a' ∧ (authority (r_generation r) (own t) y → holds t (r :: rest) es a').
Proof using.
  intros [Hnd [Hr Hk]%Forall_cons Hds He Hc] Hx a'. pose proof Hds as Hds'. rewrite fmap_cons in Hds'. apply NoDup_cons in Hds' as [Hnew Hds'].
  destruct Hr as (Hr0 & Hro & Hrc & z & Hz & Hg & _). assert (z = x) as -> by (rewrite Hz in Hx; by injection Hx).
  assert (Hrest : Forall (keeps t a') rest).
  { apply Forall_forall. intros r' Hin. pose proof (proj1 (Forall_forall _ _) Hk r' Hin) as (Hr0' & Hro' & Hrc' & z' & Hz' & Hg' & Hau).
    do 3 (split; [done|]). cbn [a' rg_words]. destruct (decide (r_index r' = r_index r)) as [E|].
    - exfalso. apply Hnew. apply list_elem_of_fmap. exists r'. split; [|done]. rewrite E, Hz in Hz'. injection Hz' as <-. congruence.
    - exists z'. rewrite list_lookup_insert_ne by lia. by split. }
  split; [by split|]. intros Hauth. split; try done. apply Forall_cons. split; [|done]. do 3 (split; [done|]).
  exists y. split; [|done]. cbn [a' rg_words]. apply list_lookup_insert_eq. by eapply lookup_lt_Some.
Qed.

(** A step of [t] on a word it does not hold. *)
Lemma foreign_step rs es a i x y : holds t rs es a → 0 ≤ i → rg_words a !! Z.to_nat i = Some x → (∀ t', word_step t' (rg_claims a) i x y) →
  holds t rs es (mkRg (<[Z.to_nat i := y]> (rg_words a)) (rg_claims a)).
Proof using.
  intros [Hnd Hk Hds He Hc] Hi Hx Hs. split; try done. eapply Forall_impl; [done|]. intros r.
  by apply (keeps_step t (S t) a i x y); [lia|..].
Qed.

Lemma holds_tail r rest es a : holds t (r :: rest) es a → holds t rest es a.
Proof using. intros [Hnd [_ Hk]%Forall_cons Hds He Hc]. rewrite fmap_cons in Hds. apply NoDup_cons in Hds as [_ Hds]. by split. Qed.

Lemma holds_range r rest es a : holds t (r :: rest) es a → 0 ≤ r_index r < 2 ∧ 0 ≤ r_generation r ≤ ROLE_MAX_GENERATION.
Proof using. by intros [_ [(? & _) _]%Forall_cons _ _ _]. Qed.

Lemma parts_rw x : rw_ok x → RoleWord_parts (rw x) = x.
Proof using. destruct x as [[g p] b]. intros [Hg Hp]. apply role_parts; [lia|done]. Qed.

Lemma owned_by_rw o x : rw_ok x → owned_by o (rw x) = true → x.1.2 = Some o.
Proof using. intros Hx. unfold owned_by. rewrite parts_rw by done. by intros ?%bool_decide_eq_true. Qed.

Lemma drop_spec r rest es attempts a : holds t (r :: rest) es a → rwp t (drop_role r attempts) (λ _ a, holds t rest es a) a.
Proof using.
  intros Hh0. destruct (holds_range _ _ _ _ Hh0) as [Hi _]. revert Hh0. unfold drop_role.
  apply (role_release_spec (holds t (r :: rest) es) (role_stable t _ es)); [done| |intros x a' _ _ Hh _; by eapply holds_tail|apply holds_tail].
  intros x a' Hx Hheld Hh Hl. unfold owned_in in Hheld. apply andb_true_iff in Hheld as [Hg%Z.eqb_eq Ho%owned_by_rw]; [|done].
  rewrite parts_rw in Hg by done. split; [|by eapply own_step].
  pose proof (hd_keeps _ _ _ _ Hh) as Hk. apply Forall_cons in Hk as [(_ & _ & Hc & _) _]. destruct x as [[g p] b]. cbn in Hg, Ho. subst. by constructor.
Qed.

(** *** Recovery in the place of a thread that died *)

(** No word of the roles [js] has the participant of [t]. *)
Definition cleared (js : list Z) (a : rg) : Prop :=
  ∀ j x, j ∈ js → rg_words a !! Z.to_nat j = Some x → x.1.2 ≠ Some (own t).

(** The recovery of [t]: nothing is held, and [js] are cleared. *)
Definition recovering_at (js : list Z) (a : rg) : Prop := holds t [] [] a ∧ cleared js a.

Lemma holds_none a w : role_inv a w → holds t [] [] a.
Proof using. intros [_ _ _ Hnd _ _]. split; [done|constructor|constructor|constructor|by intros e ?%elem_of_nil]. Qed.

Context (Halone : ∀ t', own t' = own t → t' = t).

Lemma cleared_stable js : stable (rely_of role_guar) t (cleared js).
Proof using Halone.
  apply stable_of. intros t' a a' Hne Hg Hc j z Hj. destruct Hg as [a|ws claims i x y Hi Hx Hs|ws claims i g Hi Hx Hno]; [by apply Hc|..]; cbn [rg_words]; intros Hz.
  - apply list_lookup_insert_Some in Hz as [(E & <- & _)|[_ Hz]]; [|by apply (Hc j z)]. destruct y as [[g' [o|]] tm]; [|done].
    apply word_step_owned in Hs as [b ->]. rewrite E in Hx. by apply (Hc j _ Hj Hx).
  - apply list_lookup_insert_Some in Hz as [(E & <- & _)|[_ Hz]]; [|by apply (Hc j z)]. cbn. intros [= E2]. by apply Hne, Halone.
Qed.

Lemma recovering_stable js : stable (rely_of role_guar) t (recovering_at js).
Proof using Halone. apply stable_conj; [apply role_stable|apply cleared_stable]. Qed.

Lemma recover_spec i js attempts a : 0 ≤ i < 2 → recovering_at js a →
  rwp t (recover_role i (own t) attempts) (λ r a, holds t [] [] a ∧ (r = Some tt → recovering_at (i :: js) a)) a.
Proof using Halone.
  intros Hi. apply (role_release_spec _ (recovering_stable js)); [done|..].
  - intros [[g p] b] a' Hx Ho%owned_by_rw [Hh Hc] Hl; [|done]. cbn in Ho. subst p. assert (Hs : ∀ cl, word_step t cl i (g, Some (own t), b) (released (g, Some (own t), b))) by (intros; by apply ws_recover).
    split; [done|]. assert (Hh2 : holds t [] [] (mkRg (<[Z.to_nat i := released (g, Some (own t), b)]> (rg_words a')) (rg_claims a'))).
    { destruct Hh as [Hnd _ _ _ _]. split; [done|constructor|constructor|constructor|by intros e ?%elem_of_nil]. }
    split; [done|]. intros _. split; [done|]. intros j z Hj Hz. cbn [rg_words] in Hz. apply list_lookup_insert_Some in Hz as [(E & <- & _)|[Hne Hz]].
    + by rewrite released_open.
    + apply elem_of_cons in Hj as [->|Hj]; [done|by apply (Hc j z)].
  - intros x a' Hx Ho [Hh Hc] Hl. split; [done|]. intros _. split; [done|]. intros j z Hj Hz. apply elem_of_cons in Hj as [->|Hj]; [|by apply (Hc j z)].
    assert (E : Some z = Some x) by (etrans; [symmetry; exact Hz|exact Hl]). injection E as ->. unfold owned_by in Ho. rewrite parts_rw in Ho by done. by apply bool_decide_eq_false in Ho.
  - intros a' [Hh _]. by split.
Qed.

Lemma invite_spec r rs es a : 0 ≤ r_index r < 2 → holds t rs es a → rwp t (invite r) (λ _ a, holds t rs es a) a.
Proof using.
  intros Hi Hh. unfold invite. eapply role_read; [done|]. clear a Hh. intros a issuer Hh _.
  destruct (RoleWord_parts issuer) as [[ig io] itm]. destruct (_ || itm); [by apply wp_ret|].
  eapply role_read; [done|]. clear a Hh. intros a raw Hh Hraw. destruct (Hraw ltac:(lia)) as (x & Hx & -> & _). rewrite parts_rw by done.
  destruct x as [[g p] b]. destruct b; [by apply wp_ret|]. destruct p as [o|]; [by apply wp_ret|].
  assert (Hstep : ∀ A (k : result unit Z → prog roles A) Q new, new = rw (released (g, None, false)) →
    (∀ res a', holds t rs es a' → rwp t (k res) Q a') → rwp t (Act (cas_role_weak false (1 - r_index r) (rw (g, None, false)) new) k) Q a).
  { intros A k Q new -> Hk. eapply role_cas; [lia|done|done| |by intros; apply Hk].
    intros a' w Hh' HI Hl. assert (Hs : ∀ t', word_step t' (rg_claims a') (1 - r_index r) (g, None, false) (released (g, None, false))) by constructor.
    eexists. split_and!; [|by eapply (inv_step _ _ _ _ _ t); [done|lia|done|done]|apply Hk; by eapply foreign_step; [|lia|..]]. destruct a'. by eapply rs_step; [lia|..]. }
  rewrite <- released_rw in Hstep by done. cbn [rw] in *. destruct Hx as [Hg _]. rewrite released_enc in Hstep by done. cbn [orb] in Hstep.
  rewrite next_enc by done. destruct (Z.ltb_spec g ROLE_MAX_GENERATION) as [Hlt|Hge].
  - apply (Hstep _ _ _ (enc (g + 1) None false)); [destruct (Z.eqb_spec g ROLE_MAX_GENERATION); [lia|done]|]. intros res a' Hh'. by apply wp_ret.
  - apply (Hstep _ _ _ (retired_word g)); [|intros res a' Hh'; by apply wp_ret]. unfold retired_word. rewrite role_new by done. destruct (Z.eqb_spec g ROLE_MAX_GENERATION); [done|lia].
Qed.

(** The claim that a held role stands for. *)
Lemma holds_claim r rest es a : holds t (r :: rest) es a → r_owner r = own t ∧ (r_index r, r_generation r, t) ∈ rg_claims a.
Proof using. intros [_ [(_ & Ho & Hc & _) _]%Forall_cons _ _ _]. by split. Qed.

(** A step of [t] on its role, which stays its own. *)
Lemma role_cas_owned sp r rest es A x y (k : result unit Z → prog roles A) Q a : 0 ≤ r_index r < 2 → rw_ok x → holds t (r :: rest) es a →
  (∀ a', holds t (r :: rest) es a' → word_step t (rg_claims a') (r_index r) x y) → authority (r_generation r) (own t) y →
  (∀ a', holds t (r :: rest) es a' → rwp t (k (Ok tt)) Q a') →
  (∀ a' raw, holds t (r :: rest) es a' → (∃ y, rw_ok y ∧ raw = rw y) → rwp t (k (Err raw)) Q a') →
  rwp t (Act (cas_role_weak sp (r_index r) (rw x) (rw y)) k) Q a.
Proof using.
  intros Hi Hx Hh Hs Hau Hok Herr. eapply role_cas; [done|done|done| |done]. intros a' w Hh' HI Hl.
  eexists. split_and!; [|by eapply (inv_step _ _ _ _ _ t); [done|lia|done|by apply Hs]|apply Hok; by apply (own_step _ _ _ _ x)].
  specialize (Hs a' Hh'). destruct a'. by eapply rs_step; [lia|..].
Qed.

Lemma mark_spec r rest es attempts a : holds t (r :: rest) es a →
  rwp t (act raw <- load_role (r_index r); mark_terminal r attempts raw) (λ _ a, holds t (r :: rest) es a) a.
Proof using Hown.
  intros Hh. destruct (holds_range _ _ _ _ Hh) as [Hi _]. eapply role_read; [done|]. clear a Hh. intros a raw Hh Hraw. destruct (Hraw Hi) as (x & Hx & -> & _). clear Hraw.
  revert x a Hx Hh. induction attempts as [|sp attempts IH]; intros [[g p] b] a Hx Hh; cbn [mark_terminal]; rewrite parts_rw by done;
    destruct (Z.eqb_spec g (r_generation r)) as [Hg|]; cbn [negb orb]; try (by apply wp_ret); case_bool_decide as Ho; cbn [negb]; try (by apply wp_ret); destruct b; try (by apply wp_ret).
  destruct (holds_claim _ _ _ _ Hh) as [Hro _]. assert (Hg' : 0 ≤ g ≤ ROLE_MAX_GENERATION) by apply Hx.
  replace (role_word g p true) with (rw (g, p, true)) by (unfold role_word; rewrite Ho, Hro, role_new by done; by rewrite <- Hro).
  apply (role_cas_owned sp r rest es _ (g, p, false) (g, p, true)); [done|done|done| |split; [done|left; cbn; congruence]|by intros; apply wp_ret|].
  - intros a' Hh'. rewrite Ho, Hg. apply ws_mark. by destruct (holds_claim _ _ _ _ Hh').
  - intros a' raw' Hh' (y & Hy & ->). by apply IH.
Qed.

Lemma finish_spec r rest es a : holds t (r :: rest) es a →
  rwp t (finish_close r) (λ _ a, holds t (r :: rest) es a) a.
Proof using Hown.
  intros Hh. destruct (holds_range _ _ _ _ Hh) as [Hi Hg]. destruct (holds_claim _ _ _ _ Hh) as [Hro _]. unfold finish_close, role_word. rewrite Hro, !role_new by done. cbn [default].
  apply (role_cas_owned false r rest es _ (r_generation r, Some (own t), true) (r_generation r, None, true)); [done|done|done| |split; [done|by right]|..].
  - intros a' Hh'. apply (ws_release t _ _ (r_generation r) (own t) true). by destruct (holds_claim _ _ _ _ Hh').
  - intros. by apply wp_ret.
  - intros. by apply wp_ret.
Qed.

(** Adoption: the claim is recorded, and given back when the issuer has gone. *)
Lemma adopt_word_spec g port rs es a : 0 ≤ port_role port < 2 → 0 ≤ port_generation port ≤ ROLE_MAX_GENERATION → holds t rs es a →
  rwp t (adopt_word g port (own t) (enc (port_generation port) None false) (enc (port_generation port) (Some (own t)) false))
    (λ r a, match r with
            | Ok r => r_index r = port_role port ∧ r_generation r = port_generation port ∧ holds t (r :: rs) ((r_index r, r_generation r) :: es) a
            | Err _ => holds t rs es a
            end) a.
Proof using Hown.
  intros Hi Hg Hh. unfold adopt_word. set (gen := port_generation port) in *. set (i := port_role port) in *.
  set (r := Channel_from_parts g (port_id port) i gen (own t)).
  apply (role_cas false i _ (gen, None, false) _ _ _ rs es); [done|done|done| |by intros; apply wp_ret]. clear a Hh.
  intros a w Hh HI Hl. destruct (roles_inv_claim a w i gen t Hown HI ltac:(lia) Hl) as [Hno HI'].
  eexists. split_and!; [|exact HI'|]; [destruct a; by apply rs_claim; [lia|..]|].
  assert (Hnew : holds t (r :: rs) ((i, gen) :: es) (mkRg (<[Z.to_nat i := (gen, Some (own t), false)]> (rg_words a)) (rg_claims a ++ [(i, gen, t)]))).
  { destruct Hh as [Hnd Hk Hds He Hc]. assert (Hin : (i, gen, t) ∈ rg_claims a ++ [(i, gen, t)]) by (apply elem_of_app; right; by left).
    split; cbn [rg_claims]; [by apply claims_nodup_snoc| | | |].
    - apply Forall_cons. split.
      + split; [by cbn|]. split_and!; [done|done|]. exists (gen, Some (own t), false). split; [apply list_lookup_insert_eq; by eapply lookup_lt_Some|]. split; [done|by left].
      + eapply Forall_impl; [done|]. intros r'. apply keeps_claim; [done|lia|done].
    - rewrite fmap_cons. apply NoDup_cons. split; [|done]. intros (r' & E & Hr')%list_elem_of_fmap. cbn in E.
      pose proof (proj1 (Forall_forall _ _) Hk r' Hr') as (_ & _ & Hc' & _). injection E as E1 E2. rewrite <- E1, <- E2 in Hc'. by apply (Hno t).
    - apply NoDup_cons. split; [|done]. intros Hin'%Hc. by apply (Hno t).
    - intros e [->|He']%elem_of_cons; [done|apply elem_of_app; left; by apply Hc]. }
  eapply role_read; [exact Hnew|]. intros a' issuer Hh' _. destruct (RoleWord_parts issuer) as [[ig io] itm].
  destruct (itm || bool_decide (io = None)); [|by apply wp_ret].
  assert (Hsub : ∀ a2, holds t rs ((i, gen) :: es) a2 → holds t rs es a2).
  { intros a2 [Hnd Hk Hds [_ He]%NoDup_cons Hc]. split; try done. intros e He'. apply Hc. by right. }
  assert (Edef : default (retired_word gen) (next_unowned (enc gen (Some (own t)) false) false) = rw (released (gen, Some (own t), false))).
  { rewrite <- released_rw by done. cbn [rw]. unfold released_word. by rewrite role_parts by (done || lia). }
  rewrite Edef. apply (role_cas false i _ (gen, Some (own t), false) _ _ _ (r :: rs) ((i, gen) :: es)); [done|done|done| |].
  - intros a2 w2 Hh2 HI2 Hl2. assert (Hs : word_step t (rg_claims a2) i (gen, Some (own t), false) (released (gen, Some (own t), false))).
    { apply ws_release. by destruct (holds_claim _ _ _ _ Hh2). }
    eexists. split_and!; [|by eapply (inv_step _ _ _ _ _ t); [done|lia|done|done]|]; [destruct a2; by eapply rs_step; [lia|..]|].
    apply wp_ret, Hsub. by apply (own_step r rs _ a2 (gen, Some (own t), false)).
  - intros a2 raw Hh2 _. apply wp_ret, Hsub. by eapply holds_tail.
Qed.

Lemma adopt_spec header slot rg pointer cap port rs es a : 0 ≤ port_role port → 0 ≤ port_generation port → holds t rs es a →
  rwp t (adopt header slot rg pointer cap (own t) port)
    (λ r a, match r with
            | Ok r => holds t (r :: rs) ((r_index r, r_generation r) :: es) a
            | Err _ => holds t rs es a
            end) a.
Proof using Hown.
  intros Hi Hg Hh. unfold adopt. destruct (Z.leb_spec 2 (port_role port)); [by apply wp_ret|].
  destruct (duplex_geometry header slot cap) as [g|]; [|by apply wp_ret]. destruct (offset_of _ _ _); [|by apply wp_ret].
  destruct (Z.le_gt_cases (port_generation port) ROLE_MAX_GENERATION) as [Hm|Hm].
  - rewrite !role_new by done. eapply wp_mono; [|by apply adopt_word_spec]. by intros [r|] a'; [intros (_ & _ & ?)|].
  - rewrite role_new_none; [by apply wp_ret|done|lia|done].
Qed.
End Thread.
End Roles.

(** ** Programs on a duplex *)

Section Lift.
Context {V X : Type} {G : Type} (rinv : G → roles → Prop) (rely : nat → G → G → Prop).
Context (rely_trans : ∀ t g1 g2 g3, rely t g1 g2 → rely t g2 g3 → rely t g1 g3).
Abbreviation S := (Duplex V * X)%type.
Abbreviation dinv := (λ (g : G) (s : S), rinv g (dx_roles s.1)).

(** A program on the roles, run on the duplex. *)
Lemma wp_on_roles {A} t (p : prog roles A) Q g : wp rinv rely t p Q g → wp dinv rely t (on_roles p) Q g.
Proof using.
  revert g. induction p as [a|B f k IH]; intros g Hp; [done|]. intros g1 s HR HI.
  destruct (Hp g1 (dx_roles s.1) HR HI) as (g2 & HI2 & Ho & Hk). exists g2. unfold on_roles in *.
  destruct (f (dx_roles s.1)) as [b w]. by split_and!; [..|apply IH].
Qed.

(** A program that leaves the roles alone. *)
Inductive quiet {A} : prog S A → Prop :=
| quiet_ret a : quiet (Ret a)
| quiet_act B (f : S → B * S) k : (∀ s, dx_roles (f s).2.1 = dx_roles s.1) → (∀ b, quiet (k b)) → quiet (Act f k).

Lemma quiet_bind {A B} (p : prog S A) (k : A → prog S B) : quiet p → (∀ a, quiet (k a)) → quiet (bind p k).
Proof using. intros Hp Hk. induction Hp as [a|C f c Hf _ IH]; [apply Hk|]. by constructor. Qed.

Lemma quiet_queue {A} d (p : prog (qstate V) A) : quiet (on_queue (X := X) d p).
Proof using.
  induction p as [a|B f k IH]; [constructor|]. apply quiet_act; [|apply IH]. intros s. destruct (f _) as [b q]. cbn. unfold put_queue. by destruct (d =? 0).
Qed.

Context (rely_refl : ∀ t g, rely t g g).

Lemma wp_quiet {A} t (p : prog S A) (P : G → Prop) g : quiet p → stable rely t P → P g → wp dinv rely t p (λ _, P) g.
Proof using rely_refl rely_trans.
  intros Hp HP. revert g. induction Hp as [a|B f k Hf _ IH]; intros g Hg; [done|]. intros g1 s HR HI. exists g1. rewrite Hf. split_and!; [done|done|].
  apply IH. by eapply HP.
Qed.
End Lift.

(** ** Clients *)

Inductive ccmd (V : Type) :=
| CAdopt (pointer capacity : Z) (port : Port)             (** adopt a port, issued or forged *)
| CInvite (n : nat)                                       (** invite to the [n]-th role held *)
| CClose (n : nat) (attempts : list bool) (fuel : nat)    (** close it *)
| CDrop (n : nat) (attempts : list bool)                  (** drop it *)
| CQueue (d : Z) (p : prog (qstate V) unit).              (** anything on the queue of [d] *)
Arguments CAdopt {V}. Arguments CInvite {V}. Arguments CClose {V}. Arguments CDrop {V}. Arguments CQueue {V}.

(** How a thread ends: with the roles and generations it adopted and the roles it
    holds; or, dead, with what the recovery in its place answered. *)
Inductive cend :=
| CDone (es : list (Z * Z)) (rs : list Role)
| CRecovered (answer : option bool).

Section Clients.
Context {V X : Type} (release : V → X → bool * X) (reclaim : V → Z → X → bool * X) (header slot : Layout) (area : Region) (own : nat → Z).
Abbreviation S := (Duplex V * X)%type.

(** One command: the role and generation it adopts, and the roles held then. *)
Definition cexec (t : nat) (c : ccmd V) (rs : list Role) : prog S (list (Z * Z) * list Role) :=
  match c with
  | CAdopt pointer capacity port =>
    do r <- on_roles (adopt header slot area pointer capacity (own t) port);
    Ret (match r with Ok r => ([(r_index r, r_generation r)], r :: rs) | Err _ => ([], rs) end)
  | CInvite n =>
    match rs !! n with
    | Some r => do _ <- on_roles (invite r); Ret ([], rs)
    | None => Ret ([], rs)
    end
  | CClose n attempts fuel =>
    match rs !! n with
    | Some r => do _ <- close_with release r attempts fuel; Ret ([], rs)
    | None => Ret ([], rs)
    end
  | CDrop n attempts =>
    match rs !! n with
    | Some r => do _ <- on_roles (drop_role r attempts); Ret ([], delete n rs)
    | None => Ret ([], rs)
    end
  | CQueue d p => do _ <- on_queue d p; Ret ([], rs)
  end.

Fixpoint cclient (t : nat) (cs : list (ccmd V)) (rs : list Role) (es : list (Z * Z)) : prog S cend :=
  match cs with
  | [] => Ret (CDone es rs)
  | c :: cs => do r <- cexec t c rs; cclient t cs r.2 (r.1 ++ es)
  end.

(** A duplex its creator has set up, thread 0 with the creator's role. *)
Definition cstart (g : DuplexGeometry) (id : ChannelId) (dx : Duplex V) (x : X) (css : list (list (ccmd V))) : cfg S cend :=
  let '((r, _), w) := run (creator g id (own 0%nat)) (dx_roles dx) in
  ((put_roles w dx, x), imap (λ t cs, if (t =? 0)%nat then cclient t cs [r] [(0, 1)] else cclient t cs [] []) css).

(** Indices and generations are unsigned. *)
Definition ccmd_ok (c : ccmd V) : Prop :=
  match c with
  | CAdopt _ _ port => 0 ≤ port_role port ∧ 0 ≤ port_generation port
  | _ => True
  end.

(** [Duplex::recover] in the place of a thread that died. *)
Definition crecover (capacity extent dead live : Z) (attempts : list bool) : prog S cend :=
  do r <- duplex_recover reclaim header slot capacity extent dead live attempts; Ret (CRecovered r).

(** What the threads can come to, and which died with which role words: a thread
    goes one access further, or dies where it is and its participant, which no
    other thread has, is recovered in its place.  Recovery may die as well. *)
Inductive rreach (g : DuplexGeometry) (id : ChannelId) (dx : Duplex V) (x : X) (css : list (list (ccmd V))) : cfg S cend → list (nat * roles) → Prop :=
| rreach_start : rreach g id dx x css (cstart g id dx x css) []
| rreach_step c c' t D : rreach g id dx x css c D → cstep t c c' → rreach g id dx x css c' D
| rreach_death s ps d capacity extent live attempts D :
    rreach g id dx x css (s, ps) D → (∀ t, own t = own d → t = d) →
    rreach g id dx x css (s, <[d := crecover capacity extent (own d) live attempts]> ps) ((d, dx_roles s.1) :: D).

Lemma rreach_run g id dx x css c c' D : rreach g id dx x css c D → creach c c' → rreach g id dx x css c' D.
Proof using. intros Hr. induction 1 as [|c1 c2 t _ IH Hs]; [done|]. by eapply rreach_step. Qed.

Section Thread.
Context (t : nat) (Hown : part_ok (Some (own t))).
Abbreviation dinv := (λ (a : rg) (s : S), role_inv own a (dx_roles s.1)).
Abbreviation cwp p Q a := (wp dinv (rely_of (role_guar own)) t p Q a).

Lemma holds_perm rs rs' es a : rs ≡ₚ rs' → holds own t rs es a → holds own t rs' es a.
Proof using. intros Hp [Hnd Hk Hds He Hc]. split; [done|by rewrite <- Hp|by rewrite <- Hp|done|done]. Qed.

Lemma cwp_quiet {A} (p : prog S A) rs es a : quiet p → holds own t rs es a → cwp p (λ _ a, holds own t rs es a) a.
Proof using. intros Hq Hh. apply wp_quiet; [intros; by eapply rely_of_trans|intros; apply rely_of_refl|done|apply role_stable|done]. Qed.

Lemma quiet_drain r d fuel : quiet (drain (V := V) (X := X) release r d fuel).
Proof using.
  induction fuel as [|fuel IH]; cbn [drain]; [constructor|]. apply quiet_bind; [apply quiet_queue|]. intros [[c|[| |]]|]; [| |constructor|constructor|constructor].
  - apply quiet_act.
    + intros s. unfold release_item. destruct (value _) as [v|]; [|done]. by destruct (release v s.2).
    + intros []; [|constructor]. apply quiet_bind; [apply quiet_queue|done].
  - apply quiet_bind; [apply quiet_queue|]. intros []; cbn [negb]; [|constructor]. apply quiet_bind; [apply quiet_queue|constructor].
Qed.

Lemma role_close_spec r rest es attempts fuel a : holds own t (r :: rest) es a → cwp (close_with release r attempts fuel) (λ _ a, holds own t (r :: rest) es a) a.
Proof using Hown.
  set (P := λ a, holds own t (r :: rest) es a). assert (Hq : ∀ A (p : prog S A) (k : A → prog S (option (result unit ChannelCloseError))) a,
    P a → quiet p → (∀ x a, P a → cwp (k x) (λ _, P) a) → cwp (bind p k) (λ _, P) a).
  { intros A p k a1 Ha Hp Hk. eapply wp_seq; [by apply cwp_quiet|]. intros x a2 Ha2. by apply Hk. }
  intros Hh. unfold close_with. eapply wp_seq; [apply wp_on_roles; by apply mark_spec|]. intros [[[]|[]]|] a1 H1; try (by apply wp_ret).
  unfold close_queues. apply Hq; [done|apply quiet_queue|]. intros _ a2 H2. apply Hq; [done|apply quiet_queue|]. intros _ a3 H3.
  apply Hq; [done|apply quiet_drain|]. intros [[[]|]|] a4 H4; try (by apply wp_ret). apply Hq; [done|apply quiet_drain|]. intros [[[]|]|] a5 H5; try (by apply wp_ret).
  assert (Hs : ∀ d, quiet (shut (V := V) (X := X) r d)) by (intros d; apply quiet_bind; [apply quiet_queue|intros; apply quiet_queue]).
  apply Hq; [done|apply Hs|]. intros [] a6 H6; cbn [negb]; [|by apply wp_ret]. apply Hq; [done|apply Hs|]. intros [] a7 H7; cbn [negb]; [|by apply wp_ret].
  eapply wp_seq; [apply wp_on_roles; by apply finish_spec|]. intros res a8 H8. by apply wp_ret.
Qed.

Lemma cexec_spec c rs es a : ccmd_ok c → holds own t rs es a →
  cwp (cexec t c rs) (λ r a, holds own t r.2 (r.1 ++ es) a) a.
Proof using Hown.
  intros Hok Hh. destruct c as [pointer cap port|n|n attempts fuel|n attempts|d p]; cbn [cexec ccmd_ok] in *.
  - eapply wp_seq; [apply wp_on_roles; apply adopt_spec; try done; apply Hok|]. intros [r|] a' Hh'; by apply wp_ret.
  - destruct (rs !! n) as [r|] eqn:E; [|by apply wp_ret]. eapply wp_seq; [apply wp_on_roles; apply invite_spec; [|done]|intros ? a' Hh'; by apply wp_ret].
    destruct Hh as [_ Hk _ _ _]. by destruct (Forall_lookup_1 _ _ _ _ Hk E) as ([? _] & _).
  - destruct (rs !! n) as [r|] eqn:E; [|by apply wp_ret]. pose proof (delete_Permutation rs n r E) as Hp.
    eapply wp_seq; [apply role_close_spec; by eapply holds_perm|]. intros ? a' Hh'. apply wp_ret. by eapply holds_perm.
  - destruct (rs !! n) as [r|] eqn:E; [|by apply wp_ret]. pose proof (delete_Permutation rs n r E) as Hp.
    eapply wp_seq; [apply wp_on_roles; apply drop_spec; by eapply holds_perm|]. intros ? a' Hh'. by apply wp_ret.
  - eapply wp_seq; [apply cwp_quiet; [apply quiet_queue|done]|]. intros ? a' Hh'. by apply wp_ret.
Qed.

Lemma cclient_spec cs rs es a : Forall ccmd_ok cs → holds own t rs es a →
  cwp (cclient t cs rs es) (λ r a, match r with CDone es rs => holds own t rs es a | CRecovered _ => False end) a.
Proof using Hown.
  revert rs es a. induction cs as [|c cs IH]; intros rs es a Hok Hh; cbn [cclient]; [by apply wp_ret|].
  apply Forall_cons in Hok as [Hc Hok]. eapply wp_seq; [by apply cexec_spec|]. intros r a' Hh'. by apply IH.
Qed.

Lemma quiet_repair_slots d lap cap dead live indices : quiet (repair_slots (X := X) reclaim d lap cap dead live indices).
Proof using.
  induction indices as [|index indices IH]; cbn [repair_slots]; [constructor|]. apply quiet_bind.
  - unfold repair_in. induction (repair_slot_with _ _ _ _ _ _) as [a|B f k IHp]; [constructor|]. apply quiet_act; [|apply IHp].
    intros s. destruct (f _) as [b q]. cbn. unfold put_queue. by destruct (d =? 0).
  - intros []; try constructor; apply IH.
Qed.

(** A recovery that answers true leaves neither role with the dead. *)
Lemma duplex_recover_spec capacity extent live attempts a : (∀ t', own t' = own t → t' = t) → holds own t [] [] a →
  cwp (crecover capacity extent (own t) live attempts)
    (λ r a, ∃ b, r = CRecovered b ∧ holds own t [] [] a ∧ (b = Some true → recovering_at own t [1; 0] a)) a.
Proof using.
  intros Halone Hh. unfold crecover. eapply (wp_seq _ _ t _ _ (λ b a, holds own t [] [] a ∧ (b = Some true → recovering_at own t [1; 0] a))).
  2: { intros b a' [H1 H2]. apply wp_ret. by exists b. }
  unfold duplex_recover. destruct (duplex_geometry header slot capacity) as [g|]; [|by apply wp_ret]. destruct (negb _); [by apply wp_ret|].
  eapply wp_seq; [apply cwp_quiet; [apply quiet_repair_slots|done]|]. clear a Hh. intros [] a Hh; cbn [negb]; [|by apply wp_ret].
  eapply wp_seq; [apply cwp_quiet; [apply quiet_repair_slots|done]|]. clear a Hh. intros [] a Hh; cbn [negb]; [|by apply wp_ret].
  eapply wp_seq; [apply wp_on_roles, (recover_spec own t Halone 0 [])|]; [lia|by split; [|intros j z ?%elem_of_nil]|]. clear a Hh. intros [[]|] a [Hh Hc]; [|by apply wp_ret].
  eapply wp_seq; [apply wp_on_roles, (recover_spec own t Halone 1 [0])|]; [lia|by apply Hc|]. clear a Hh Hc. intros [[]|] a [Hh Hc]; apply wp_ret; [|by split].
  split; [done|]. intros _. by apply Hc.
Qed.
End Thread.

(** The words a creator leaves. *)
Lemma start_inv (dx : Duplex V) g id : length (dx_roles dx) = 2%nat → part_ok (Some (own 0%nat)) →
  role_inv own (mkRg [(1, Some (own 0%nat), false); (1, None, false)] [(0, 1, 0%nat)]) (run (creator g id (own 0%nat)) (dx_roles dx)).2.
Proof.
  intros Hlen Ho. destruct (dx_roles dx) as [|w0 [|w1 [|? ?]]]; try discriminate Hlen. cbn. unfold set_role, role_word. rewrite !role_new by done. cbn.
  split; [done|done|repeat (apply Forall_cons; split; [by split|]); done|apply NoDup_singleton| |].
  { intros i g' o tm Hx Hi. destruct (Z.to_nat i) as [|[|n]] eqn:En; [injection Hx as <- <- <-|discriminate Hx|discriminate Hx]. exists 0%nat. split; [done|]. assert (i = 0) as -> by lia. by left. }
  intros i x Hx Hi g' t' [= -> -> ->]%list_elem_of_singleton. injection Hx as <-. cbn. by split.
Qed.

Lemma start_holds g id : part_ok (Some (own 0%nat)) →
  holds own 0 [Channel_from_parts g id 0 1 (own 0%nat)] [(0, 1)] (mkRg [(1, Some (own 0%nat), false); (1, None, false)] [(0, 1, 0%nat)]).
Proof.
  intros Ho. split; [apply NoDup_singleton| |apply NoDup_singleton|apply NoDup_singleton|intros e ->%list_elem_of_singleton; by left].
  apply Forall_cons. split; [|done]. split; [done|]. split; [done|]. split; [by left|]. eexists. split; [done|]. split; [done|by left].
Qed.

(** How a thread ends: a dead one as its recovery does. *)
Definition rdone (D : list (nat * roles)) (t : nat) (r : cend) (a : rg) : Prop :=
  match r with
  | CDone es rs => (t ∉ D.*1) ∧ holds own t rs es a
  | CRecovered b => (∀ t', own t' = own t → t' = t) ∧ (b = Some true → cleared own t [1; 0] a)
  end.

Lemma rdone_stable D t r : stable (rely_of (role_guar own)) t (rdone D t r).
Proof using.
  intros a a' HR. destruct r as [es rs|b]; cbn [rdone]; intros [H1 H2]; (split; [done|]); [by eapply role_stable|].
  intros E. eapply cleared_stable; [exact H1|exact HR|by apply H2].
Qed.

(** Every role of a dead thread was claimed by it. *)
Definition deaths (D : list (nat * roles)) (a : rg) : Prop :=
  ∀ d w i, (d, w) ∈ D → 0 ≤ i < 2 → owned_by (own d) (role_at i w) = true → (i, (RoleWord_parts (role_at i w)).1.1, d) ∈ rg_claims a.

Lemma deaths_lasting D t : stable (rely_of (role_guar own)) t (deaths D).
Proof using.
  apply stable_of. intros t' a a' _ Hg Hd d w i H1 H2 H3. specialize (Hd d w i H1 H2 H3).
  destruct Hg; [done|done|]. cbn [rg_claims] in *. apply elem_of_app. by left.
Qed.

Section Reach.
Context (g : DuplexGeometry) (id : ChannelId) (dx : Duplex V) (x : X) (css : list (list (ccmd V))).
Context (Hown : ∀ t, (t < length css)%nat → 0 ≤ own t < PARTICIPANT_CAPACITY) (Hcs : Forall (Forall ccmd_ok) css) (Hlen : length (dx_roles dx) = 2%nat).
Context (Hsome : (0 < length css)%nat).
Abbreviation dinv := (λ (a : rg) (s : S), role_inv own a (dx_roles s.1)).

Lemma start_ok : ∃ a, rg_ok dinv (rely_of (role_guar own)) (rdone []) a (cstart g id dx x css).
Proof using Hown Hcs Hlen Hsome.
  pose proof (Hown 0%nat Hsome) as Ho0. set (a0 := mkRg [(1, Some (own 0%nat), false); (1, None, false)] [(0, 1, 0%nat)]). exists a0.
  cbn in Hlen |- *. split; [by apply (start_inv dx g id)|]. intros t p Hp. cbn [snd] in Hp. apply list_lookup_imap_Some in Hp as (cs & Hcs' & ->).
  pose proof (lookup_lt_Some _ _ _ Hcs') as Ht. pose proof (Hown t Ht) as Ho.
  assert (Hcl : ∀ rs es, holds own t rs es a0 → wp dinv (rely_of (role_guar own)) t (cclient t cs rs es) (rdone [] t) a0).
  { intros rs es Hh. eapply wp_mono; [|apply cclient_spec; [done|by eapply Forall_lookup_1|done]].
    intros [es' rs'|b] a' Hr; [|done]. split; [by intros ?%elem_of_nil|done]. }
  destruct (Nat.eqb_spec t 0) as [->|Hne]; apply Hcl; [by apply start_holds|]. split; [apply NoDup_singleton|constructor|constructor|constructor|by intros e ?%elem_of_nil].
Qed.

Lemma rreach_ok c D : rreach g id dx x css c D → ∃ a, rg_ok dinv (rely_of (role_guar own)) (rdone D) a c ∧ deaths D a.
Proof using Hown Hcs Hlen Hsome.
  intros Hr. induction Hr as [|c c' t D Hr (a & HG & Hd) Hs|s ps d capacity extent live attempts D Hr (a & [HI HG] & Hd) Halone].
  - destruct start_ok as [a Ha]. exists a. split; [done|]. by intros d w i ?%elem_of_nil.
  - eapply rg_step in HG as (a' & HG' & HR); [|intros; apply rely_of_refl|intros; by eapply rely_of_trans|apply rdone_stable|done].
    exists a'. split; [done|]. eapply (deaths_lasting D (Datatypes.S t)); [apply HR; lia|done].
  - exists a. split.
    + split; [done|]. cbn [snd] in *. intros t p Hp. apply list_lookup_insert_Some in Hp as [(<- & <- & _)|[Hne Hp]].
      * eapply wp_mono; [|apply duplex_recover_spec; [done|by eapply holds_none]]. intros r a' (b & -> & _ & Hc). split; [done|]. by intros E; apply Hc.
      * eapply wp_mono; [|by apply HG]. intros [es rs|b] a' H; [|done]. destruct H as [Hn Hh]. split; [|done]. rewrite fmap_cons. intros [?|?]%elem_of_cons; [|done]. by apply Hne.
    + intros d' w i [[= -> ->]|Hin]%elem_of_cons Hi Ho; [|by apply Hd]. cbn [fst] in HI.
      destruct (lookup_lt_is_Some_2 (rg_words a) (Z.to_nat i)) as [[[gen p] tm] Hz]; [destruct HI as [_ -> _ _ _ _]; lia|].
      destruct (word_at _ _ _ _ _ HI Hz) as [E Hok]. rewrite E in *. pose proof (owned_by_rw _ _ Hok Ho) as Ep. rewrite parts_rw by done. cbn in Ep. subst p.
      destruct (ri_owned _ _ _ HI i gen (own d) tm Hz ltac:(lia)) as (t & Et & Hc). by rewrite (Halone t Et) in Hc.
Qed.
End Reach.

(** C9: any number of threads adopt ports (issued or forged), invite, close and
    drop the roles of one channel and operate its queues, interleaved at every
    access; threads die at any access, and [Duplex::recover] runs for their
    participants, a recovery that dies and is repeated included.  No role is
    adopted twice in the same generation, by whomever, nor in a generation in
    which a thread that died had it; whoever holds a role rules its word, or has
    closed it; two threads never hold the same role; and a recovery that answers
    true leaves no role with the dead participant. *)
Theorem roles_exclusive g id (dx : Duplex V) (x : X) css s ps D :
  (∀ t, (t < length css)%nat → 0 ≤ own t < PARTICIPANT_CAPACITY) →
  Forall (Forall ccmd_ok) css → length (dx_roles dx) = 2%nat → rreach g id dx x css (s, ps) D →
  (∀ t es rs, ps !! t = Some (Ret (CDone es rs)) →
    NoDup es ∧
    (∀ r, r ∈ rs → let '(gen, owner, terminal) := RoleWord_parts (role_at (r_index r) (dx_roles s.1)) in
      gen = r_generation r ∧ (owner = Some (own t) ∨ owner = None ∧ terminal = true)) ∧
    (∀ t' es' rs', t ≠ t' → ps !! t' = Some (Ret (CDone es' rs')) →
      (∀ e, e ∈ es → e ∉ es') ∧ ∀ r r', r ∈ rs → r' ∈ rs' → r_index r ≠ r_index r') ∧
    ∀ d w i, (d, w) ∈ D → 0 ≤ i < 2 → owned_by (own d) (role_at i w) = true → (i, (RoleWord_parts (role_at i w)).1.1) ∉ es) ∧
  ∀ d i, ps !! d = Some (Ret (CRecovered (Some true))) → 0 ≤ i < 2 → owned_by (own d) (role_at i (dx_roles s.1)) = false.
Proof.
  intros Hown Hcs Hlen Hreach.
  assert (Hn : length ps = length css). { change ps with (s, ps).2. induction Hreach as [|c c' t D Hr IH Hs|s' ps' d ? ? ? ? D Hr IH _]; [cbn; by rewrite length_imap| |cbn; by rewrite length_insert].
    destruct Hs. cbn in *. by rewrite length_insert. }
  assert (Hsome : (0 < length css)%nat ∨ length ps = 0%nat) by lia.
  destruct Hsome as [Hsome|Hsome]; [|split; [intros t es rs Ht%lookup_lt_Some|intros d i Ht%lookup_lt_Some]; lia].
  destruct (rreach_ok g id dx x css Hown Hcs Hlen Hsome _ _ Hreach) as (a & [HI Hwp'] & Hdeaths). cbn [fst snd] in *.
  assert (Hwp : ∀ t es rs, ps !! t = Some (Ret (CDone es rs)) → (t ∉ D.*1) ∧ holds own t rs es a) by (intros t es rs Ht; apply (Hwp' _ _ Ht)). split.
  - intros t es rs Ht. destruct (Hwp _ _ _ Ht) as [Hlive [Hnd Hk Hds He Hc]]. split_and!; [done|..].
    + intros r (_ & _ & _ & z & Hz & Hg & Hau)%(proj1 (Forall_forall _ _) Hk). destruct (word_at _ _ _ _ _ HI Hz) as [-> Hok]. rewrite parts_rw by done. by destruct z as [[]].
    + intros t' es' rs' Hne Ht'. destruct (Hwp _ _ _ Ht') as [_ [_ Hk' _ _ Hc']]. split.
      * intros e Hin Hin'. apply Hne. eapply claims_once; [done|by apply Hc|by apply Hc'].
      * intros r r' (_ & _ & Hcl & z & Hz & Hg & _)%(proj1 (Forall_forall _ _) Hk) (_ & _ & Hcl' & z' & Hz' & Hg' & _)%(proj1 (Forall_forall _ _) Hk') E.
        rewrite <- E in *. assert (z' = z) as -> by (rewrite Hz in Hz'; by injection Hz'). apply Hne. eapply claims_once; [done|exact Hcl|]. by rewrite <- Hg, Hg'.
    + intros d w i Hin Hi Ho He'. apply Hlive. apply list_elem_of_fmap. exists (d, w). split; [|done]. cbn.
      eapply claims_once; [exact Hnd|by apply Hc, He'|by apply Hdeaths].
  - intros d i Hd Hi. destruct (Hwp' _ _ Hd) as [_ Hc]. specialize (Hc eq_refl).
    destruct (lookup_lt_is_Some_2 (rg_words a) (Z.to_nat i)) as [z Hz]; [destruct HI as [_ -> _ _ _ _]; lia|]. destruct (word_at _ _ _ _ _ HI Hz) as [-> Hok].
    unfold owned_by. rewrite parts_rw by done. apply bool_decide_eq_false. apply (Hc i z); [|done]. assert (i = 0 ∨ i = 1) as [-> | ->] by lia; [right|]; by left.
Qed.
End Clients.

(** A creator that invites twice, and two participants that adopt: the first
    takes the role in generation 2 and dies, and the second gets it in
    generation 4. *)
Definition demo_channel : ChannelId := mkChannelId (mkId (mkRegionId 1 2) 0 0 1) 3.
Definition demo_port (generation : Z) : Port := mkPort demo_channel 1 generation.
Definition demo_map : Region := mkRegion (mkMap 4096 65536 3) (mkMember 0 1) (mkRegionId 1 2) true.

Definition demo_ccmds : list (list (ccmd Z)) :=
  [[CInvite 0; CInvite 0]; [CAdopt 8192 3 (demo_port 2)]; [CAdopt 8192 3 (demo_port 4)]].

Definition demo_duplex : DuplexGeometry := mkDuplexGeometry (mkLayout 1472 64) 320 3 4.
Definition drop_any (_ : Z) (_ : unit) : bool * unit := (true, tt).
Definition reclaim_any (_ _ : Z) (_ : unit) : bool * unit := (true, tt).

#[local] Abbreviation demo_start := (cstart drop_any (mkLayout 320 64) (mkLayout 192 64) demo_map Z.of_nat demo_duplex demo_channel (Duplex_blank 3) tt demo_ccmds).

Definition demo_death := sched [0; 0; 0; 1]%nat demo_start.

Definition demo_roles := sched (replicate 60 1%nat ++ [0; 0; 0; 2; 2]%nat)
  (demo_death.1, <[1%nat := crecover reclaim_any (mkLayout 320 64) (mkLayout 192 64) 3 1472 (Z.of_nat 1) 2 [true; false]]> demo_death.2).

Lemma demo_roles_reach :
  rreach drop_any reclaim_any (mkLayout 320 64) (mkLayout 192 64) demo_map Z.of_nat demo_duplex demo_channel (Duplex_blank 3) tt demo_ccmds
    demo_roles [(1%nat, dx_roles demo_death.1.1)].
Proof.
  unfold demo_roles. eapply rreach_run; [|apply sched_reach]. apply (rreach_death _ _ _ _ _ _ _ _ _ _ _ _ _ 1 3 1472 2 [true; false]); [|intros t E; apply Nat2Z.inj; exact E].
  eapply rreach_run; [constructor|]. rewrite <- surjective_pairing. apply sched_reach.
Qed.

Lemma roles_exclusive_witness :
  demo_roles.2 !! 2%nat = Some (Ret (CDone [(1, 4)] [mkRole demo_channel 3 4 1 4 2])) ∧ demo_roles.2 !! 1%nat = Some (Ret (CRecovered (Some true))) ∧
    owned_by 1 (role_at 1 (dx_roles demo_death.1.1)) = true ∧ owned_by 1 (role_at 1 (dx_roles demo_roles.1.1)) = false ∧
    (1, (RoleWord_parts (role_at 1 (dx_roles demo_death.1.1))).1.1) ∉ [(1, 4)].
Proof.
  destruct (roles_exclusive drop_any reclaim_any (mkLayout 320 64) (mkLayout 192 64) demo_map Z.of_nat demo_duplex demo_channel (Duplex_blank 3) tt demo_ccmds
    demo_roles.1 demo_roles.2 [(1%nat, dx_roles demo_death.1.1)]) as [Hlive Hdead].
  - intros t Ht. cbn in Ht. unfold PARTICIPANT_CAPACITY, usize_bits. lia.
  - repeat first [apply Forall_nil_2|apply Forall_cons; split]; cbn; done || lia.
  - reflexivity.
  - rewrite <- surjective_pairing. exact demo_roles_reach.
  - assert (E2 : demo_roles.2 !! 2%nat = Some (Ret (CDone [(1, 4)] [mkRole demo_channel 3 4 1 4 2]))) by (vm_compute; reflexivity).
    assert (E1 : demo_roles.2 !! 1%nat = Some (Ret (CRecovered (Some true)))) by (vm_compute; reflexivity).
    assert (Eo : owned_by 1 (role_at 1 (dx_roles demo_death.1.1)) = true) by (vm_compute; reflexivity).
    split; [exact E2|]. split; [exact E1|]. split; [exact Eo|]. split; [exact (Hdead 1%nat 1 E1 ltac:(lia))|].
    destruct (Hlive 2%nat _ _ E2) as (_ & _ & _ & Hd). apply (Hd 1%nat _ 1); [by left|lia|exact Eo].
Defined.
