(* ===== verification/DuplexSeq.v ===== *)
(** * Duplexes operated by one caller at a time

    The two directions of a duplex behave as two independent bounded FIFOs,
    although they share one lifecycle byte; closing a channel releases what is
    still queued and ends both directions and the role. *)

From S2P Require Import Prelude Atomic Alloc Schema Header Mem Heap Dir Channel ChannelGeo.
From S2P Require Import Queue QueueInv QueueConc QueueFifo QueueSeq Duplex.

(** ** Parts of a state *)

Section Parts.
Context {V X : Type}.

Lemma queue_of_put d (q : qstate V) dx : queue_of d (put_queue d q dx) = q.
Proof. unfold queue_of, put_queue, half_at. destruct (d =? 0), q; done. Qed.

Lemma run_dir {A} d (p : prog (qstate V) A) (dx : Duplex V) (x : X) :
  run (on_queue d p) (dx, x) = ((run p (queue_of d dx)).1, (put_queue d (run p (queue_of d dx)).2 dx, x)).
Proof.
  unfold on_queue. rewrite run_on_part; [done|..].
  - intros q [dx' x']. apply queue_of_put.
  - intros [[l w [] []] x']. unfold put_queue, queue_of, half_at. cbn. by destruct (d =? 0).
  - intros q q' [dx' x']. cbn. unfold put_queue. by destruct (d =? 0).
Qed.

Lemma run_on_roles {A} (p : prog roles A) (dx : Duplex V) (x : X) :
  run (on_roles p) (dx, x) = ((run p (dx_roles dx)).1, (put_roles (run p (dx_roles dx)).2 dx, x)).
Proof. unfold on_roles. rewrite run_on_part; [done|done|by intros [[] ?]|done]. Qed.
End Parts.

(** ** Abstract duplexes *)

Section Abstract.
Context {V : Type}.

(** What each direction holds, and the lifecycle byte of both. *)
Record aduplex := mkAD { ad_left : list (option V); ad_right : list (option V); ad_life : Z }.

Definition ad_items (d : Z) (a : aduplex) : list (option V) := if d =? 0 then ad_left a else ad_right a.

Definition ad_put (d : Z) (q : aqueue V) (a : aduplex) : aduplex :=
  if d =? 0 then mkAD (items q) (ad_right a) (alife q) else mkAD (ad_left a) (items q) (alife q).

Definition dir_of (d : Z) (a : aduplex) : aqueue V := mkA (ad_items d a) (ad_life a).

(** The duplex holds [a]. *)
Definition drep (cap : nat) (dx : Duplex V) (a : aduplex) : Prop :=
  ∃ hl hr, represents cap (queue_of 0 dx) hl (mkA (ad_left a) (ad_life a)) ∧ represents cap (queue_of 1 dx) hr (mkA (ad_right a) (ad_life a)).

Lemma rep_with_life cap (q : qstate V) h l life life' :
  represents cap q h (mkA l life) → represents cap (mkQ (head q) (tail q) life' (buf q)) h (mkA l life').
Proof. intros []. by split. Qed.

Lemma drep_at cap dx a d : drep cap dx a → ∃ h, represents cap (queue_of d dx) h (dir_of d a).
Proof. intros (hl & hr & Hl & Hr). unfold dir_of, ad_items, queue_of, half_at in *. destruct (d =? 0); eauto. Qed.

Lemma drep_put cap dx a d q h a' : drep cap dx a → represents cap q h a' → drep cap (put_queue d q dx) (ad_put d a' a).
Proof.
  intros (hl & hr & Hl & Hr) Hq. pose proof (rep_life _ _ _ _ Hq) as Hlife. unfold put_queue, ad_put. destruct a' as [l life]. cbn [items alife] in *. destruct (d =? 0).
  - exists h, hr. split; [destruct q; by cbn in *|]. cbn [ad_right ad_life]. rewrite <- Hlife. by apply (rep_with_life cap (queue_of 1 dx) hr _ (ad_life a)).
  - exists hl, h. split; [|destruct q; by cbn in *]. cbn [ad_left ad_life]. rewrite <- Hlife. by apply (rep_with_life cap (queue_of 0 dx) hl _ (ad_life a)).
Qed.
End Abstract.
Arguments aduplex : clear implicits.

(** ** A role of the duplex *)

(** The role has the capacity and the lap of the duplex. *)
Record role_fits (cap : nat) (r : Role) : Prop := {
  rf_cap : (0 < cap)%nat;
  rf_fit : Z.of_nat cap < 2 ^ (usize_bits - 1);
  rf_capacity : r_capacity r = Z.of_nat cap;
  rf_lap : r_one_lap r = lap_for (Z.of_nat cap);
  rf_owner : 0 ≤ r_owner r < PARTICIPANT_CAPACITY;
}.

Lemma endpoint_fits cap r d : role_fits cap r →
  setup_ok (route_send_field d) (route_recv_field d) (λ _, r_owner r) cap ∧
  endpoint_of r d = endpoint (route_send_field d) (route_recv_field d) (λ _, r_owner r) cap 0.
Proof.
  intros [Hc Hf Ecap Elap Ho]. split; [|unfold endpoint_of, endpoint; by rewrite Ecap, Elap].
  split; [done|done|..|done]; unfold route_send_field, route_recv_field; by destruct (d =? 0).
Qed.

Lemma duplex_op {V X} cap r d (op : qop V) dx (x : X) a : role_fits cap r → drep cap dx a →
  let '(res, q) := spec_op (route_send_field d) (route_recv_field d) cap op (dir_of d a) in
  ∃ dx', run (on_queue d (exec_op (endpoint_of r d) op)) (dx, x) = (res, (dx', x)) ∧ drep cap dx' (ad_put d q a) ∧ dx_roles dx' = dx_roles dx.
Proof.
  intros Hr Ha. destruct (endpoint_fits cap r d Hr) as [Hok ->]. destruct (drep_at _ _ _ d Ha) as [h Hq].
  destruct (run_op _ _ _ _ Hok 0 _ h _ op Hq) as (q' & h' & E & Hq'). rewrite run_dir, E. destruct (spec_op _ _ _ _ _) as [res qa]. cbn [fst snd] in *.
  exists (put_queue d q' dx). split; [done|]. split; [by eapply drep_put|]. unfold put_queue. by destruct (d =? 0).
Qed.

(** ** The shared byte *)

Section Frame.
Context {V : Type} (sf rf : Z) (Hsf : 0 ≤ sf) (Hrf : 0 ≤ rf) (other : Z).
Context (Hos : fstate other sf = 0) (Hor : fstate other rf = 0).

(** The abstract queue with the bits of the other direction added. *)
Definition with_other (a : aqueue V) : aqueue V := mkA (items a) (Z.lor (alife a) other).

Lemma fstate_lor l l' f : fstate (Z.lor l l') f = Z.lor (fstate l f) (fstate l' f).
Proof using. unfold fstate. by rewrite Z.shiftr_lor, Z.land_lor_distr_l. Qed.

Lemma fstate_other (a : aqueue V) f : fstate other f = 0 → fstate (alife (with_other a)) f = fstate (alife a) f.
Proof using. intros Hf. cbn [alife with_other]. by rewrite fstate_lor, Hf, Z.lor_0_r. Qed.

Lemma or_other l bits : Z.lor (Z.lor l other) bits = Z.lor (Z.lor l bits) other.
Proof using. by rewrite <- !Z.lor_assoc, (Z.lor_comm other). Qed.

Lemma afinish_other f (a : aqueue V) : fstate other f = 0 → afinish f (with_other a) = ((afinish f a).1, with_other (afinish f a).2).
Proof using. intros Hf. unfold afinish. rewrite fstate_other by done. destruct (_ =? 1); [|done]. unfold with_other. cbn. by rewrite or_other. Qed.

Lemma aterminal_other (a : aqueue V) : aterminal sf rf (with_other a) = ((aterminal sf rf a).1, with_other (aterminal sf rf a).2).
Proof using Hos Hor.
  unfold aterminal. rewrite afinish_other by done. destruct (afinish rf a) as [r a1]. cbn [fst snd]. destruct (r =? 3); [done|].
  rewrite afinish_other by done. destruct (afinish sf a1) as [s a2]. cbn [fst snd]. by destruct (s =? 3).
Qed.

Lemma areserve_other cap o (a : aqueue V) : areserve sf rf cap o (with_other a) = ((areserve sf rf cap o a).1, with_other (areserve sf rf cap o a).2).
Proof using Hos Hor. unfold areserve. rewrite !fstate_other by done. cbn [items with_other]. destruct (negb _); [done|]; by case_bool_decide. Qed.

(** The bits of the other direction make no difference. *)
Lemma spec_op_other cap op (a : aqueue V) : spec_op sf rf cap op (with_other a) = ((spec_op sf rf cap op a).1, with_other (spec_op sf rf cap op a).2).
Proof using Hos Hor.
  destruct op; cbn [spec_op].
  - rewrite areserve_other. by destruct (areserve _ _ _ _ a).
  - rewrite fstate_other by done. destruct (negb _); [done|]. cbn [items with_other]. destruct (items a) as [|[v|] l]; [|done|done].
    rewrite aterminal_other. by destruct (aterminal _ _ a).
  - rewrite areserve_other. by destruct (areserve _ _ _ _ a).
  - cbn [fst snd]. unfold with_other. cbn [items alife]. by rewrite or_other.
  - cbn [fst snd]. unfold with_other. cbn [items alife]. by rewrite or_other.
  - rewrite aterminal_other. by destruct (aterminal _ _ a).
Qed.

(** An operation leaves a field alone that none of its bits reaches. *)
Lemma spec_op_field cap op (a : aqueue V) f :
  (∀ b, b = 1 ∨ b = 2 → fstate (Z.shiftl b sf) f = 0 ∧ fstate (Z.shiftl b rf) f = 0) →
  fstate (alife (spec_op sf rf cap op a).2) f = fstate (alife a) f.
Proof using.
  intros Hb. assert (Hor' : ∀ l b g, b = 1 ∨ b = 2 → g = sf ∨ g = rf → fstate (Z.lor l (Z.shiftl b g)) f = fstate l f).
  { intros l b g Hb' Hg. rewrite fstate_lor. destruct (Hb b Hb') as [H1 H2]. destruct Hg as [->| ->]; rewrite ?H1, ?H2; apply Z.lor_0_r. }
  assert (Hfin : ∀ g a, g = sf ∨ g = rf → fstate (alife (afinish (V := V) g a).2) f = fstate (alife a) f).
  { intros g a' Hg. unfold afinish. destruct (_ =? 1); [|done]. cbn. by apply Hor'; [right|]. }
  assert (Hter : ∀ a, fstate (alife (aterminal (V := V) sf rf a).2) f = fstate (alife a) f).
  { intros a'. unfold aterminal. pose proof (Hfin rf a' ltac:(by right)) as H1. destruct (afinish rf a') as [r a1]. destruct (r =? 3); [done|].
    pose proof (Hfin sf a1 ltac:(by left)) as H2. destruct (afinish sf a1) as [s a2]. destruct (s =? 3); cbn in *; congruence. }
  assert (Hres : ∀ o a, fstate (alife (areserve (V := V) sf rf cap o a).2) f = fstate (alife a) f) by (intros o a'; unfold areserve; destruct (negb _); [done|]; by case_bool_decide).
  destruct op; cbn [spec_op].
  - pose proof (Hres (Some v) a) as E. by destruct (areserve _ _ _ _ a).
  - destruct (negb _); [done|]. destruct (items a) as [|[v|] l]; [|done|done]. pose proof (Hter a) as E. by destruct (aterminal _ _ a).
  - pose proof (Hres None a) as E. by destruct (areserve _ _ _ _ a).
  - by apply Hor'; [left|left].
  - by apply Hor'; [left|right].
  - pose proof (Hter a) as E. by destruct (aterminal _ _ a).
Qed.
End Frame.

(** ** Refinement *)

Section Refine.
Context {V X : Type} (cap : nat).

(** An operation of a role in a direction. *)
Record dop := mkDop { dop_role : Role; dop_dir : Z; dop_op : qop V }.

Fixpoint dexec_ops (ops : list dop) : prog (Duplex V * X) (list (qres V)) :=
  match ops with
  | [] => Ret []
  | o :: ops =>
    do r <- on_queue (dop_dir o) (exec_op (endpoint_of (dop_role o) (dop_dir o)) (dop_op o));
    do rs <- dexec_ops ops; Ret (r :: rs)
  end.

(** Two queues that know nothing of each other. *)
Fixpoint dspec_ops (ops : list dop) (left right : aqueue V) : list (qres V) * (aqueue V * aqueue V) :=
  match ops with
  | [] => ([], (left, right))
  | o :: ops =>
    let d := dop_dir o in
    let '(r, q) := spec_op (route_send_field d) (route_recv_field d) cap (dop_op o) (if d =? 0 then left else right) in
    let '(rs, a) := dspec_ops ops (if d =? 0 then q else left) (if d =? 0 then right else q) in
    (r :: rs, a)
  end.

Definition dop_ok (o : dop) : Prop := role_fits cap (dop_role o) ∧ (dop_dir o = 0 ∨ dop_dir o = 1).

(** The duplex holds two queues, each with its own bits of the byte. *)
Record holds_two (dx : Duplex V) (left right : aqueue V) : Prop := {
  ht_rep : drep cap dx (mkAD (items left) (items right) (Z.lor (alife left) (alife right)));
  ht_left : fstate (alife left) 4 = 0 ∧ fstate (alife left) 2 = 0;
  ht_right : fstate (alife right) 0 = 0 ∧ fstate (alife right) 6 = 0;
}.

(** The fields of the two directions are apart. *)
Lemma fields_apart b f g : b = 1 ∨ b = 2 → (f = 0 ∨ f = 6) ∧ (g = 4 ∨ g = 2) ∨ (f = 4 ∨ f = 2) ∧ (g = 0 ∨ g = 6) → fstate (Z.shiftl b f) g = 0.
Proof using. by intros [->| ->] [[[->| ->] [->| ->]]|[[->| ->] [->| ->]]]. Qed.

Lemma duplex_step o dx (x : X) left right : dop_ok o → holds_two dx left right →
  let d := dop_dir o in
  let '(r, q) := spec_op (route_send_field d) (route_recv_field d) cap (dop_op o) (if d =? 0 then left else right) in
  ∃ dx', run (on_queue d (exec_op (endpoint_of (dop_role o) d) (dop_op o))) (dx, x) = (r, (dx', x)) ∧
    holds_two dx' (if d =? 0 then q else left) (if d =? 0 then right else q) ∧ dx_roles dx' = dx_roles dx.
Proof using.
  intros [Hr Hd] [Hrep [Hl4 Hl2] [Hr0 Hr6]] d. pose proof (duplex_op cap (dop_role o) d (dop_op o) dx x _ Hr Hrep) as Hop. unfold d in *. destruct Hd as [E|E]; rewrite E in *.
  - change (dir_of 0 _) with (with_other (alife right) left) in Hop. cbn [route_send_field route_recv_field Z.eqb] in *.
    rewrite spec_op_other in Hop by done. pose proof (λ f H, spec_op_field 0 6 cap (dop_op o) left f H) as Hf.
    destruct (spec_op 0 6 cap (dop_op o) left) as [res q]. cbn [fst snd] in *. destruct Hop as (dx' & Erun & Hrep' & Ero). exists dx'. split_and!; [done| |done].
    split; [exact Hrep'| |done]. split; rewrite Hf by (intros b Hb; split; apply fields_apart; auto); done.
  - replace (dir_of 1 _) with (with_other (alife left) right) in Hop by (unfold with_other, dir_of; cbn; by rewrite Z.lor_comm).
    cbn [route_send_field route_recv_field Z.eqb] in *. rewrite spec_op_other in Hop by done. pose proof (λ f H, spec_op_field 4 2 cap (dop_op o) right f H) as Hf.
    destruct (spec_op 4 2 cap (dop_op o) right) as [res q]. cbn [fst snd] in *. destruct Hop as (dx' & Erun & Hrep' & Ero). exists dx'. split_and!; [done| |done].
    split; [unfold ad_put in Hrep'; cbn in Hrep'; by rewrite Z.lor_comm in Hrep'|done|]. split; rewrite Hf by (intros b Hb; split; apply fields_apart; auto); done.
Qed.

Lemma blank_two : (0 < cap)%nat → Z.of_nat cap < 2 ^ (usize_bits - 1) → holds_two (Duplex_blank (Z.of_nat cap)) (mkA [] 0) (mkA [] 0).
Proof using.
  intros Hc Hf. split; [|done|done]. assert (Hok : setup_ok 0 6 (λ _, 0) cap) by (by split).
  exists 0%nat, 0%nat. split; apply (rep_new _ _ _ _ Hok).
Qed.
Lemma run_duplex_ops (ops : list dop) (x : X) : Forall dop_ok ops → ∀ dx l r, holds_two dx l r →
  ∃ dx', run (dexec_ops ops) (dx, x) = ((dspec_ops ops l r).1, (dx', x)) ∧ dx_roles dx' = dx_roles dx ∧ holds_two dx' (dspec_ops ops l r).2.1 (dspec_ops ops l r).2.2.
Proof using.
  intros Hops. induction ops as [|o ops IH]; intros dx l r Hh; cbn [dexec_ops dspec_ops]; [by exists dx|].
  apply Forall_cons in Hops as [Ho Hops]. pose proof (duplex_step o dx x l r Ho Hh) as Hs. cbv zeta in Hs.
  destruct (spec_op _ _ _ _ _) as [res q]. destruct Hs as (dx1 & E1 & H1 & R1). rewrite run_bind, E1.
  destruct (IH Hops dx1 _ _ H1) as (dx2 & E2 & R2 & H2). rewrite run_bind, E2. destruct (dspec_ops _ _ _) as [rs [a0 a1]]. cbn in *.
  exists dx2. split_and!; [done|congruence|done].
Qed.
End Refine.
Arguments dop : clear implicits.

(** C10: run by one caller at a time, the two directions of a fresh channel answer
    every sequence of operations, by whichever role, as two bounded FIFOs that
    know nothing of each other: sharing the lifecycle byte and the roles makes no
    difference. *)
Theorem duplex_refines_two_fifos {V X} cap (ops : list (dop V)) (x : X) :
  (0 < cap)%nat → Z.of_nat cap < 2 ^ (usize_bits - 1) → Forall (dop_ok cap) ops →
  ∃ dx, run (dexec_ops ops) (Duplex_blank (Z.of_nat cap), x) = ((dspec_ops cap ops (mkA [] 0) (mkA [] 0)).1, (dx, x)) ∧
    dx_roles dx = [0; 0] ∧
    let '(l, r) := (dspec_ops cap ops (mkA [] 0) (mkA [] 0)).2 in drep cap dx (mkAD (items l) (items r) (Z.lor (alife l) (alife r))).
Proof.
  intros Hc Hf Hops.
  destruct (run_duplex_ops cap ops x Hops _ _ _ (blank_two cap Hc Hf)) as (dx & E & R & Hh). exists dx. split_and!; [done|done|]. destruct (dspec_ops _ _ _ _) as [rs [a0 a1]]. apply Hh.
Qed.

(** The two roles of a channel of three slots a direction. *)
Definition demo_role (i : Z) : Role := mkRole (mkChannelId (mkId (mkRegionId 1 2) 0 0 1) 3) 3 4 i 1 (7 + i).

Lemma demo_role_fits i : 0 ≤ i < 2 → role_fits 3 (demo_role i).
Proof. intros Hi. split; [lia|done|done|done|cbn; unfold PARTICIPANT_CAPACITY, usize_bits; lia]. Qed.

Lemma duplex_refines_two_fifos_witness :
  let ops := [mkDop (demo_role 0) 0 (OSend 5); mkDop (demo_role 1) 1 (OSend 6); mkDop (demo_role 1) 0 ORecv; mkDop (demo_role 1) 1 OCloseSend;
              mkDop (demo_role 0) 0 (OSend 8); mkDop (demo_role 0) 1 ORecv; mkDop (demo_role 0) 1 ORecv] in
  (dspec_ops 3 ops (mkA [] 0) (mkA [] 0)).1 = [RSend (Ok tt); RSend (Ok tt); RRecv (Ok 5); RUnit; RSend (Ok tt); RRecv (Ok 6); RRecv (Err RecvDisconnected)] ∧
  ∃ dx, run (dexec_ops ops) (Duplex_blank 3, tt) = ((dspec_ops 3 ops (mkA [] 0) (mkA [] 0)).1, (dx, tt)).
Proof.
  intros ops. split; [reflexivity|]. destruct (duplex_refines_two_fifos 3 ops tt) as (dx & E & _).
  - lia.
  - reflexivity.
  - repeat first [apply Forall_nil_2|apply Forall_cons; split]; (split; [apply demo_role_fits; lia|cbn; lia]).
  - exists dx. exact E.
Defined.
