(* ===== verification/DuplexClose.v ===== *)
(** * Closing and recovering a duplex

    [close_with] by one caller: what it answers, what it releases and what it
    leaves.  [recover]: what no longer belongs to a dead participant when it
    answers true. *)

From S2P Require Import Prelude Atomic Alloc Schema Header Mem Heap Dir Channel ChannelGeo.
From S2P Require Import Queue QueueInv QueueConc QueueFifo QueueSeq Duplex DuplexSeq.

(** ** The role *)

Lemma role_at_set i v w : 0 ≤ i → (Z.to_nat i < length w)%nat → role_at i (set_role i v w) = v.
Proof. intros Hi Hl. unfold role_at, set_role. by rewrite list_lookup_insert_eq. Qed.

Lemma set_role_twice i v v' w : set_role i v (set_role i v' w) = set_role i v w.
Proof. unfold set_role. apply list_insert_insert_eq. Qed.

Lemma set_role_same i w : (Z.to_nat i < length w)%nat → set_role i (role_at i w) w = w.
Proof. intros Hl. unfold set_role, role_at. destruct (lookup_lt_is_Some_2 w (Z.to_nat i) Hl) as [v E]. rewrite E. by apply list_insert_id. Qed.

(** Marking a role one rules, with an exchange that is not spurious among the
    attempts. *)
Lemma run_mark r b attempts w : 0 ≤ r_generation r ≤ ROLE_MAX_GENERATION → part_ok (Some (r_owner r)) → (Z.to_nat (r_index r) < length w)%nat →
  role_at (r_index r) w = enc (r_generation r) (Some (r_owner r)) b → false ∈ attempts →
  run (act raw <- load_role (r_index r); mark_terminal r attempts raw) w =
    (Some (Ok true), set_role (r_index r) (enc (r_generation r) (Some (r_owner r)) true) w).
Proof.
  intros Hg Ho Hl Hw Hatt. rewrite run_act. cbn [load_role fst snd]. rewrite Hw. destruct b.
  { destruct attempts; cbn [mark_terminal]; rewrite role_parts, Z.eqb_refl, bool_decide_eq_true_2 by (done || lia); cbn [negb orb run]; rewrite <- Hw, set_role_same; done. }
  induction attempts as [|sp attempts IH]; [by apply elem_of_nil in Hatt|]. cbn [mark_terminal].
  rewrite role_parts, Z.eqb_refl, bool_decide_eq_true_2 by (done || lia). cbn [negb orb]. rewrite run_act. unfold cas_role_weak. destruct sp.
  - cbn [fst snd]. rewrite Hw. apply IH. by apply elem_of_cons in Hatt as [?|?].
  - unfold cas_role. rewrite Hw, Z.eqb_refl. cbn [fst snd run]. unfold role_word. by rewrite role_new.
Qed.

Lemma run_finish_close r w : 0 ≤ r_generation r ≤ ROLE_MAX_GENERATION → part_ok (Some (r_owner r)) →
  role_at (r_index r) w = enc (r_generation r) (Some (r_owner r)) true →
  run (finish_close r) w = (Ok tt, set_role (r_index r) (enc (r_generation r) None true) w).
Proof. intros Hg Ho Hw. unfold finish_close, role_word. rewrite !role_new by done. cbn [default]. rewrite run_act. unfold cas_role. by rewrite Hw, Z.eqb_refl. Qed.

(** ** Draining *)

Section Drain.
Context {V X : Type} (release : V → X → bool * X) (cap : nat) (r : Role) (Hfit : role_fits cap r).

(** What draining a list of entries does: the entries before the first
    abandoned one or the first that cannot be released. *)
Fixpoint adrain (l : list (option V)) (x : X) : option ChannelCloseError * list (option V) * X :=
  match l with
  | [] => (None, [], x)
  | None :: l => (Some CloseBusy, l, x)
  | Some v :: l =>
    let '(ok, x) := release v x in
    if ok then adrain l x else (Some CloseEvidence, Some v :: l, x)
  end.

Lemma put_queue_roles d (q : qstate V) dx : dx_roles (put_queue d q dx) = dx_roles dx.
Proof using. unfold put_queue. by destruct (d =? 0). Qed.

Lemma put_queue_twice d (q q' : qstate V) dx : put_queue d q (put_queue d q' dx) = put_queue d q dx.
Proof using. unfold put_queue. by destruct (d =? 0). Qed.

(** The claim of the entry at the head, in a direction still received from. *)
Lemma run_drain_claim d (dx : Duplex V) (x : X) a o l : drep cap dx a → ad_items d a = o :: l → fstate (ad_life a) (route_recv_field d) = 0 →
  match o with
  | None => ∃ dx', run (on_queue d (claim (endpoint_of r d))) (dx, x) = (Some (Err ClaimBusy), (dx', x)) ∧ drep cap dx' (ad_put d (mkA l (ad_life a)) a) ∧ dx_roles dx' = dx_roles dx
  | Some v => ∃ c dx1 dx', run (on_queue d (claim (endpoint_of r d))) (dx, x) = (Some (Ok c), (dx1, x)) ∧ dx_roles dx1 = dx_roles dx ∧
      value (slot_at (claim_slot c) (queue_of d dx1)) = Some v ∧
      (∀ x' : X, run (on_queue d (take c)) (dx1, x') = (Some v, (dx', x'))) ∧ drep cap dx' (ad_put d (mkA l (ad_life a)) a) ∧ dx_roles dx' = dx_roles dx
  end.
Proof using Hfit.
  intros Ha Hit Hrf. destruct (endpoint_fits cap r d Hfit) as [Hok ->]. destruct (drep_at _ _ _ d Ha) as [h Hq].
  destruct (run_claim _ _ _ _ Hok 0 _ h _ o l Hq Hit Hrf) as (q1 & E & Hrec & Hat).
  assert (Hq' : represents cap (claimed_head cap (queue_of d dx) h) (S h) (mkA l (ad_life a))).
  { eapply (rep_pop _ _ _ _ Hok _ _ o); [|done]. unfold dir_of in Hq. by rewrite Hit in Hq. }
  destruct (rep_at _ _ _ _ Hok _ _ _ 0 Hq (setup_cap _ _ _ _ Hok)) as (s & _ & Hs & _ & Hc). cbn [items dir_of] in Hc. rewrite Hit in Hc. destruct Hc as [_ Hv]. rewrite Nat.add_0_r in Hs.
  destruct o as [v|]; rewrite run_dir, E; cbn [fst snd].
  - cbn [holds_value] in Hv. eexists _, _, _. split; [done|]. rewrite put_queue_roles, queue_of_put. cbn [claim_slot]. rewrite Hat, Hs. split; [done|]. split; [done|].
    split; [intros x'; rewrite run_dir, queue_of_put; unfold take; cbn [run read_value claim_slot]; rewrite run_bind, Hrec, Hat, Hs; cbn [run fst snd value]; by rewrite Hv, put_queue_twice|].
    rewrite put_queue_roles. split; [by eapply drep_put|done].
  - eexists. split; [done|]. rewrite put_queue_roles. split; [by eapply drep_put|done].
Qed.

Definition life_after (d life : Z) : Z := alife (afinish (V := V) (route_send_field d) (mkA [] life)).2.

(** An empty direction closed for sending. *)
Lemma run_drain_empty d (dx : Duplex V) (x : X) a fuel : drep cap dx a → ad_items d a = [] → fstate (ad_life a) (route_recv_field d) = 0 →
  fstate (ad_life a) (route_send_field d) = 1 ∨ fstate (ad_life a) (route_send_field d) = 3 →
  ∃ dx', run (drain release r d (S fuel)) (dx, x) = (Some (Ok tt), (dx', x)) ∧ drep cap dx' (ad_put d (mkA [] (life_after d (ad_life a))) a) ∧ dx_roles dx' = dx_roles dx.
Proof using Hfit.
  intros Ha Hit Hrf Hsf. cbn [drain]. rewrite run_bind, run_dir. destruct (endpoint_fits cap r d Hfit) as [Hok ->]. destruct (drep_at _ _ _ d Ha) as [h Hq].
  rewrite (run_claim_empty _ _ _ _ Hok 0 _ _ _ Hq) by done. cbn [fst snd]. rewrite run_bind, run_dir, queue_of_put. unfold send_closed. rewrite run_bind.
  destruct (run_finish _ _ _ _ Hok 0 _ _ _ (route_send_field d) PRODUCER Hq) as (q' & E & Hq'); [by left|]. cbn [send_field endpoint]. rewrite E.
  assert (Est : (afinish (route_send_field d) (dir_of d a)).1 = 3).
  { unfold afinish, dir_of. cbn [alife]. destruct Hsf as [->| ->]; done. }
  assert (Eit : items (afinish (route_send_field d) (dir_of d a)).2 = []) by (unfold afinish, dir_of; cbn [alife items]; rewrite Hit; by destruct (_ =? 1)).
  rewrite Est. cbn [run fst snd Z.eqb Pos.eqb negb]. rewrite run_bind, run_dir, queue_of_put.
  assert (Eempty : run (is_empty (T := V)) q' = (true, q')).
  { unfold is_empty. cbn [run load_head load_tail]. rewrite (rep_head _ _ _ _ Hq'), (rep_tail _ _ _ _ Hq'), Eit. cbn [length]. by rewrite Nat.add_0_r, Z.eqb_refl. }
  rewrite Eempty. cbn [run fst snd negb]. rewrite !put_queue_twice. eexists. split; [done|]. rewrite put_queue_roles. split; [|done].
  replace (mkA [] (life_after d (ad_life a))) with (afinish (route_send_field d) (dir_of d a)).2; [by eapply drep_put|].
  unfold life_after, afinish, dir_of. cbn [alife items]. rewrite Hit. by destruct (_ =? 1).
Qed.

(** A close that stopped at the head of direction [d], whose message it claimed
    and could not release: taking that claim is all that is missing. *)
Definition evidence (d : Z) (dx : Duplex V) (a : aduplex V) : Prop :=
  match ad_items d a with
  | Some v :: l => ∃ c dx', (∀ x : X, run (on_queue d (take c)) (dx, x) = (Some v, (dx', x))) ∧ drep cap dx' (ad_put d (mkA l (ad_life a)) a)
  | _ => False
  end.

Lemma ad_items_put d (q : aqueue V) a : ad_items d (ad_put d q a) = items q.
Proof using. unfold ad_put, ad_items. by destruct (d =? 0). Qed.

Lemma ad_life_put d (q : aqueue V) a : ad_life (ad_put d q a) = alife q.
Proof using. unfold ad_put. by destruct (d =? 0). Qed.

Lemma ad_put_twice d (q q' : aqueue V) a : ad_put d q (ad_put d q' a) = ad_put d q a.
Proof using. unfold ad_put. by destruct (d =? 0). Qed.

(** How one direction is drained. *)
Lemma run_drain d (dx : Duplex V) (x : X) a fuel : drep cap dx a → fstate (ad_life a) (route_recv_field d) = 0 →
  fstate (ad_life a) (route_send_field d) = 1 ∨ fstate (ad_life a) (route_send_field d) = 3 → (length (ad_items d a) < fuel)%nat →
  let '(e, l, x') := adrain (ad_items d a) x in
  ∃ dx', run (drain release r d fuel) (dx, x) = (Some (match e with None => Ok tt | Some e => Err e end), (dx', x')) ∧ dx_roles dx' = dx_roles dx ∧
    match e with
    | None => drep cap dx' (ad_put d (mkA [] (life_after d (ad_life a))) a)
    | Some CloseBusy => drep cap dx' (ad_put d (mkA l (ad_life a)) a)
    | Some CloseEvidence => evidence d dx' (ad_put d (mkA l (ad_life a)) a)
    end.
Proof using Hfit.
  remember (ad_items d a) as l0 eqn:Hit. revert dx x a fuel Hit. induction l0 as [|o l0 IH]; intros dx x a fuel Hit Ha Hrf Hsf Hfuel; (destruct fuel as [|fuel]; [cbn in Hfuel; lia|]); cbn [adrain].
  { destruct (run_drain_empty d dx x a fuel Ha (eq_sym Hit) Hrf Hsf) as (dx' & ? & ? & ?). by exists dx'. }
  pose proof (run_drain_claim d dx x a o l0 Ha (eq_sym Hit) Hrf) as Hc. destruct o as [v|].
  - destruct Hc as (c & dx1 & dx2 & E1 & R1 & Ev & E2 & Ha2 & R2). cbn [drain]. rewrite run_bind, E1, run_act. unfold release_item. cbn [fst snd]. rewrite Ev.
    destruct (release v x) as [ok x1]. cbn [fst snd]. destruct ok.
    2: { exists dx1. split_and!; [done|done|]. unfold evidence. rewrite ad_items_put. cbn [items]. exists c, dx2. by rewrite ad_life_put, ad_put_twice. }
    rewrite run_bind, E2. set (a2 := ad_put d (mkA l0 (ad_life a)) a) in *.
    assert (Hit2 : l0 = ad_items d a2) by (unfold a2; by rewrite ad_items_put).
    assert (Hl2 : ad_life a2 = ad_life a) by apply ad_life_put.
    assert (Hput : ∀ q, ad_put d q a2 = ad_put d q a) by (intros q; apply ad_put_twice).
    pose proof (IH dx2 x1 a2 fuel Hit2 Ha2) as Hrec. rewrite Hl2 in Hrec. specialize (Hrec Hrf Hsf ltac:(cbn in Hfuel; lia)). destruct (adrain l0 x1) as [[e l] x'].
    destruct Hrec as (dx' & E' & R' & Hm). exists dx'. split_and!; [done|congruence|]. by destruct e as [[]|]; rewrite ?Hput in Hm.
  - destruct Hc as (dx' & E1 & Ha1 & R1). cbn [drain]. rewrite run_bind, E1. by exists dx'.
Qed.

(** Closing the receiving side of a direction. *)
Lemma run_shut d (dx : Duplex V) (x : X) a : drep cap dx a → fstate (Z.lor (ad_life a) (Z.shiftl 1 (route_recv_field d))) (route_recv_field d) = 1 →
  ∃ dx', run (shut r d) (dx, x) = (true, (dx', x)) ∧ dx_roles dx' = dx_roles dx ∧
    drep cap dx' (ad_put d (mkA (ad_items d a) (Z.lor (Z.lor (ad_life a) (Z.shiftl 1 (route_recv_field d))) (Z.shiftl 2 (route_recv_field d)))) a).
Proof using Hfit.
  intros Ha H1. unfold shut. rewrite run_bind. destruct (endpoint_fits cap r d Hfit) as [Hok ->]. destruct (drep_at _ _ _ d Ha) as [h Hq].
  rewrite run_dir. unfold close_recv, close_field. cbn [run fst snd recv_field endpoint].
  pose proof (rep_life_or cap _ _ _ _ (Z.shiftl 1 (route_recv_field d)) Hq) as Hq1. unfold fetch_or_life in *. cbn [fst snd] in *.
  rewrite run_dir, queue_of_put. unfold recv_closed. rewrite run_bind.
  destruct (run_finish _ _ _ _ Hok 0 _ _ _ (route_recv_field d) CONSUMER Hq1) as (q' & E & Hq'); [by right|]. cbn [recv_field endpoint]. rewrite E.
  unfold afinish in *. cbn [alife items] in *. rewrite H1 in *. cbn [Z.eqb Pos.eqb fst snd run] in *. rewrite put_queue_twice.
  eexists. split; [done|]. rewrite put_queue_roles. split; [done|]. by eapply drep_put.
Qed.
(** The lifecycle bytes: each of the four fields is open, closing or closed. *)
Definition all_lives : list Z :=
  sa ← [0; 1; 3]; ra ← [0; 1; 3]; sb ← [0; 1; 3]; rb ← [0; 1; 3]; [sa + 4 * ra + 16 * sb + 64 * rb].

(** Those of a duplex neither side of which stopped receiving. *)
Definition open_lives : list Z := [0; 1; 3; 16; 17; 19; 48; 49; 51].

(** Both directions closed for sending. *)
Definition closing_life (life : Z) : Z := Z.lor (Z.lor life (Z.shiftl 1 (route_send_field 0))) (Z.shiftl 1 (route_send_field 1)).

Definition receiving (d life : Z) : bool := fstate life (route_recv_field d) =? 0.

(** What closing a duplex answers, what it leaves queued, and what it does to the
    state items are released on. *)
Definition aclose (a : aduplex V) (x : X) : option ChannelCloseError * aduplex V * X :=
  let life := closing_life (ad_life a) in
  if negb (receiving 0 life) then (Some CloseBusy, mkAD (ad_left a) (ad_right a) life, x) else
  match adrain (ad_left a) x with
  | (Some e, l, x) => (Some e, mkAD l (ad_right a) life, x)
  | (None, _, x) =>
    let life := life_after 0 life in
    if negb (receiving 1 life) then (Some CloseBusy, mkAD [] (ad_right a) life, x) else
    match adrain (ad_right a) x with
    | (Some e, l, x) => (Some e, mkAD [] l life, x)
    | (None, _, x) => (None, mkAD [] [] 255, x)
    end
  end.

(** The duplex holds what the close left, but for the message it has claimed. *)
Definition close_leaves (dx : Duplex V) (e : option ChannelCloseError) (a : aduplex V) : Prop :=
  match e with
  | Some CloseEvidence => evidence (match ad_left a with [] => 1 | _ => 0 end) dx a
  | _ => drep cap dx a
  end.

(** A direction drained to the end is empty, one with evidence is not. *)
Lemma adrain_done l x : let '(e, l', _) := adrain l x in (e = None → l' = []) ∧ (e = Some CloseEvidence → l' ≠ []).
Proof using.
  revert x. induction l as [|[v|] l IH]; intros x; cbn [adrain]; [done| |done].
  destruct (release v x) as [[] x1]; [|done]. apply IH.
Qed.

(** Closing a direction for sending. *)
Lemma run_close_send d (dx : Duplex V) (x : X) a : drep cap dx a →
  ∃ dx', run (on_queue d (close_send (endpoint_of r d))) (dx, x) = (tt, (dx', x)) ∧ dx_roles dx' = dx_roles dx ∧
    drep cap dx' (mkAD (ad_left a) (ad_right a) (Z.lor (ad_life a) (Z.shiftl 1 (route_send_field d)))).
Proof using.
  intros Ha. destruct (drep_at _ _ _ d Ha) as [h Hq]. rewrite run_dir. unfold close_send, close_field. cbn [run fst snd].
  pose proof (rep_life_or cap _ _ _ _ (Z.shiftl 1 (send_field (endpoint_of r d))) Hq) as Hq1. eexists. split; [done|]. rewrite put_queue_roles. split; [done|].
  pose proof (drep_put _ _ _ d _ _ _ Ha Hq1) as Hd. unfold ad_put, ad_items in Hd. cbn [items alife] in Hd. destruct a, (d =? 0); exact Hd.
Qed.

(** What the byte goes through, direction by direction. *)
Lemma lives_walk life : life ∈ all_lives →
  let L := closing_life life in let L' := life_after 0 L in
  (fstate L (route_send_field 0) = 1 ∨ fstate L (route_send_field 0) = 3) ∧ (fstate L' (route_send_field 1) = 1 ∨ fstate L' (route_send_field 1) = 3) ∧
  (receiving 0 L = true → receiving 1 L' = true → life_after 1 L' = 51).
Proof using.
  revert life. apply Forall_forall. cbv zeta. apply (bool_decide_unpack _). vm_compute. done.
Qed.

Lemma lives_open life : life ∈ open_lives → life ∈ all_lives ∧ let L := closing_life life in let L' := life_after 0 L in
  receiving 0 L = true ∧ receiving 1 L' = true ∧ L ∈ open_lives ∧ L' ∈ open_lives.
Proof using.
  revert life. apply Forall_forall. cbv zeta. apply (bool_decide_unpack _). vm_compute. done.
Qed.

(** The end of a close. *)
Lemma run_close_end (dx : Duplex V) (x : X) : 0 ≤ r_generation r ≤ ROLE_MAX_GENERATION →
  drep cap dx (mkAD [] [] 51) → role_at (r_index r) (dx_roles dx) = enc (r_generation r) (Some (r_owner r)) true →
  ∃ dx', run (do c <- shut r 0; if negb c then Ret (Some (Err CloseBusy)) else do c <- shut r 1; if negb c then Ret (Some (Err CloseBusy)) else
              do f <- on_roles (finish_close r); Ret (Some (map_err (λ _, CloseBusy) f))) (dx, x) = (Some (Ok tt), (dx', x)) ∧
    dx_roles dx' = set_role (r_index r) (enc (r_generation r) None true) (dx_roles dx) ∧ drep cap dx' (mkAD [] [] 255).
Proof using Hfit.
  intros Hg Ha Hw. destruct (run_shut 0 dx x _ Ha ltac:(done)) as (dx1 & E1 & R1 & Ha1). rewrite run_bind, E1. cbn [negb].
  destruct (run_shut 1 dx1 x _ Ha1 ltac:(done)) as (dx2 & E2 & R2 & Ha2). rewrite run_bind, E2. cbn [negb].
  rewrite run_bind, run_on_roles, R2, R1, (run_finish_close r) by (done || apply Hfit). cbn [fst snd run map_err]. eexists. split; [done|]. split; [done|]. exact Ha2.
Qed.

Lemma run_claim_closed d (dx : Duplex V) (x : X) a : drep cap dx a → fstate (ad_life a) (route_recv_field d) ≠ 0 →
  run (on_queue d (claim (endpoint_of r d))) (dx, x) = (Some (Err ClaimClosed), (dx, x)).
Proof using.
  intros Ha Hrf. destruct (drep_at _ _ _ d Ha) as [h Hq]. rewrite run_dir. unfold claim. rewrite run_bind. cbn -[fstate queue_of put_queue route_recv_field].
  rewrite (rep_life _ _ _ _ Hq). fold (fstate (ad_life a) (route_recv_field d)). cbn [alife dir_of]. fold (fstate (ad_life a) (route_recv_field d)).
  destruct (Z.eqb_spec (fstate (ad_life a) (route_recv_field d)) 0); [done|]. cbn [negb run fst snd]. f_equal. f_equal.
  destruct dx as [? ? [] []]. unfold put_queue, queue_of, half_at. cbn. by destruct (d =? 0).
Qed.

(** A direction that stopped receiving is not drained. *)
Lemma run_drain_closed d (dx : Duplex V) (x : X) a fuel : drep cap dx a → receiving d (ad_life a) = false →
  run (drain release r d (S fuel)) (dx, x) = (Some (Err CloseBusy), (dx, x)).
Proof using.
  intros Ha Hrf%Z.eqb_neq. cbn [drain]. rewrite run_bind. by rewrite (run_claim_closed d dx x a Ha Hrf).
Qed.

Lemma run_close_queues (dx : Duplex V) (x : X) a fuel : 0 ≤ r_generation r ≤ ROLE_MAX_GENERATION → drep cap dx a → ad_life a ∈ all_lives →
  (length (ad_left a) < fuel)%nat → (length (ad_right a) < fuel)%nat → role_at (r_index r) (dx_roles dx) = enc (r_generation r) (Some (r_owner r)) true →
  let '(e, a', x') := aclose a x in
  ∃ dx', run (close_queues release r fuel) (dx, x) = (Some (match e with None => Ok tt | Some e => Err e end), (dx', x')) ∧
    dx_roles dx' = match e with Some _ => dx_roles dx | None => set_role (r_index r) (enc (r_generation r) None true) (dx_roles dx) end ∧ close_leaves dx' e a'.
Proof using Hfit.
  intros Hg Ha Hlife Hfl Hfr Hw. unfold close_queues. destruct (run_close_send 0 dx x a Ha) as (dx1 & E1 & R1 & Ha1). rewrite run_bind, E1.
  destruct (run_close_send 1 dx1 x _ Ha1) as (dx2 & E2 & R2 & Ha2). rewrite run_bind, E2. cbn [ad_left ad_right ad_life] in Ha2. fold (closing_life (ad_life a)) in Ha2.
  destruct (lives_walk _ Hlife) as (Hs0 & Hs1 & E51). unfold aclose. set (life := closing_life (ad_life a)) in *. clearbody life.
  destruct (receiving 0 life) eqn:Er0; cbn [negb].
  2: { destruct fuel as [|fuel]; [lia|]. rewrite run_bind, (run_drain_closed 0 dx2 x _ fuel Ha2 Er0). exists dx2. split_and!; [done|congruence|exact Ha2]. }
  pose proof (run_drain 0 dx2 x _ fuel Ha2 (proj1 (Z.eqb_eq _ _) Er0) Hs0 Hfl) as Hd. change (ad_items 0 _) with (ad_left a) in Hd.
  pose proof (adrain_done (ad_left a) x) as Hs. destruct (adrain (ad_left a) x) as [[e l] x1]. destruct Hs as [Hs Hs']. destruct Hd as (dx3 & E3 & R3 & Ha3). rewrite run_bind, E3.
  destruct e as [e|]; [exists dx3; split_and!; [done|congruence|]|].
  { destruct e; [exact Ha3|]. cbn [close_leaves ad_left]. destruct l; [by destruct Hs'|exact Ha3]. }
  cbn [ad_put Z.eqb items alife ad_right ad_left ad_life] in Ha3. destruct (receiving 1 (life_after 0 life)) eqn:Er1; cbn [negb].
  2: { destruct fuel as [|fuel]; [lia|]. rewrite run_bind, (run_drain_closed 1 dx3 x1 _ fuel Ha3 Er1). exists dx3. split_and!; [done|congruence|exact Ha3]. }
  pose proof (run_drain 1 dx3 x1 _ fuel Ha3 (proj1 (Z.eqb_eq _ _) Er1) Hs1 Hfr) as Hd. change (ad_items 1 _) with (ad_right a) in Hd.
  destruct (adrain (ad_right a) x1) as [[e l'] x2]. destruct Hd as (dx4 & E4 & R4 & Ha4). rewrite run_bind, E4.
  destruct e as [e|]; [exists dx4; split_and!; [done|congruence|]|].
  { destruct e; exact Ha4. }
  cbn [ad_put Z.eqb items alife ad_right ad_left ad_life] in Ha4. rewrite E51 in Ha4 by done.
  destruct (run_close_end dx4 x2 Hg Ha4) as (dx5 & E5 & R5 & Ha5); [congruence|]. exists dx5. split_and!; [exact E5|congruence|exact Ha5].
Qed.

(** The word of the role, which its owner may have marked terminal. *)
Record role_held (w : roles) (b : bool) : Prop := {
  rh_index : (Z.to_nat (r_index r) < length w)%nat;
  rh_nonneg : 0 ≤ r_index r;
  rh_generation : 0 ≤ r_generation r ≤ ROLE_MAX_GENERATION;
  rh_word : role_at (r_index r) w = enc (r_generation r) (Some (r_owner r)) b;
}.

Lemma run_close_with (dx : Duplex V) (x : X) a b attempts fuel : drep cap dx a → ad_life a ∈ all_lives → role_held (dx_roles dx) b → false ∈ attempts → (cap < fuel)%nat →
  let '(e, a', x') := aclose a x in
  ∃ dx', run (close_with release r attempts fuel) (dx, x) = (Some (match e with None => Ok tt | Some e => Err e end), (dx', x')) ∧
    dx_roles dx' = set_role (r_index r) (enc (r_generation r) (match e with Some _ => Some (r_owner r) | None => None end) true) (dx_roles dx) ∧ close_leaves dx' e a'.
Proof using Hfit.
  intros Ha Hlife [Hi Hi0 Hg Hw] Hatt Hfuel. unfold close_with. rewrite run_bind, run_on_roles, (run_mark r b) by (done || apply Hfit). cbn [fst snd].
  set (w := set_role _ _ _). set (dx0 := put_roles w dx). assert (Ha0 : drep cap dx0 a) by exact Ha.
  destruct Ha as (hl & hr & Hl & Hr). pose proof (rep_fit _ _ _ _ Hl) as Hlen1. pose proof (rep_fit _ _ _ _ Hr) as Hlen2. cbn [items] in *.
  pose proof (run_close_queues dx0 x a fuel Hg Ha0 Hlife ltac:(lia) ltac:(lia)) as Hq. destruct (aclose a x) as [[e a'] x'].
  destruct Hq as (dx' & E & R & Hlv); [by apply role_at_set|]. exists dx'. split_and!; [exact E| |exact Hlv]. rewrite R. unfold dx0, w. cbn [dx_roles put_roles].
  destruct e; [done|]. apply set_role_twice.
Qed.

(** A role that somebody else has, or nobody. *)
Lemma run_close_foreign (dx : Duplex V) (x : X) attempts fuel : let '(generation, owner, terminal) := RoleWord_parts (role_at (r_index r) (dx_roles dx)) in
  generation ≠ r_generation r ∨ owner ≠ Some (r_owner r) →
  run (close_with release r attempts fuel) (dx, x) = (Some (if terminal && bool_decide (owner = None) then Ok tt else Err CloseBusy), (dx, x)).
Proof using.
  destruct (RoleWord_parts _) as [[generation owner] terminal] eqn:Ew. intros Hne. unfold close_with. rewrite run_bind, run_on_roles, run_act. cbn [load_role fst snd].
  assert (Hm : mark_terminal r attempts (role_at (r_index r) (dx_roles dx)) = Ret (Some (if terminal && bool_decide (owner = None) then Ok false else Err tt))).
  { destruct attempts; cbn [mark_terminal]; rewrite Ew; (destruct (Z.eqb_spec generation (r_generation r)); [|done]; case_bool_decide; [by destruct Hne|done]). }
  rewrite Hm. cbn [run fst snd]. replace (put_roles (dx_roles dx) dx) with dx by (by destruct dx). by destruct (terminal && _).
Qed.
End Drain.

(** C12: [close_with] when no slot of the queues is in use, whatever the lifecycle
    byte and the role word.  When the role is not its caller's, nothing changes,
    and the answer is [Ok] for a role that is closed, [Busy] otherwise.  Its owner
    marks it terminal and closes both directions for sending; the queued messages
    go to [release], the left direction first, in the order they were sent.  It
    stops with [Busy] at a direction nobody receives from any more, leaving its
    messages, and at the first abandoned entry, which is dropped; and with
    [Evidence] at the first message that cannot be released, which stays claimed
    at the head of its direction; the role is then still owned.  Otherwise it
    answers [Ok], both directions are closed for good and empty, and the role is
    unowned and terminal. *)
Theorem close_releases_all {V X} (release : V → X → bool * X) cap r (dx : Duplex V) (x : X) a attempts fuel :
  role_fits cap r → drep cap dx a → ad_life a ∈ all_lives → false ∈ attempts → (cap < fuel)%nat →
  (let '(generation, owner, terminal) := RoleWord_parts (role_at (r_index r) (dx_roles dx)) in
    generation ≠ r_generation r ∨ owner ≠ Some (r_owner r) →
    run (close_with release r attempts fuel) (dx, x) = (Some (if terminal && bool_decide (owner = None) then Ok tt else Err CloseBusy), (dx, x))) ∧
  ∀ b, role_held r (dx_roles dx) b →
    let '(e, a', x') := aclose release a x in
    ∃ dx', run (close_with release r attempts fuel) (dx, x) = (Some (match e with None => Ok tt | Some e => Err e end), (dx', x')) ∧
      dx_roles dx' = set_role (r_index r) (enc (r_generation r) (match e with Some _ => Some (r_owner r) | None => None end) true) (dx_roles dx) ∧
      close_leaves (X := X) cap dx' e a'.
Proof. intros Hfit Ha Hlife Hatt Hfuel. split; [apply run_close_foreign|]. intros b Hrole. by apply (run_close_with release cap r Hfit dx x a b). Qed.

(** ** Retried *)

Section Retry.
Context {V X : Type} (release : V → X → bool * X) (cap : nat) (r : Role) (Hfit : role_fits cap r).
Context (Hrel : ∀ v x, (release v x).1 = true).

(** Closing again while the answer is [Busy], as [Session::remove] asks its
    caller to. *)
Fixpoint close_retry (attempts : list bool) (fuel n : nat) : prog (Duplex V * X) (option (result unit ChannelCloseError)) :=
  match n with
  | O => Ret None
  | S n =>
    do c <- close_with release r attempts fuel;
    match c with
    | Some (Err CloseBusy) => close_retry attempts fuel n
    | c => Ret c
    end
  end.

(** Everything in [l] released, in order. *)
Definition released_all (l : list (option V)) (x : X) : X := foldl (λ x v, (release v x).2) x (omap id l).

Lemma released_cons v l x : released_all (Some v :: l) x = released_all l (release v x).2.
Proof using. done. Qed.

Lemma released_app l l' x : released_all (l ++ l') x = released_all l' (released_all l x).
Proof using. unfold released_all. by rewrite omap_app, foldl_app. Qed.

Lemma adrain_all l x : let '(e, l', x') := adrain release l x in
  released_all l' x' = released_all l x ∧ match e with None => l' = [] | Some CloseBusy => (length l' < length l)%nat | Some CloseEvidence => False end.
Proof using Hrel.
  revert x. induction l as [|[v|] l IH]; intros x; cbn [adrain]; [done| |by split; [|cbn; lia]]. rewrite released_cons.
  specialize (Hrel v x). destruct (release v x) as [ok x1]. cbn [fst snd] in *. subst ok. specialize (IH x1). destruct (adrain release l x1) as [[e l'] x'].
  destruct IH as [IH1 IH2]. split; [done|]. destruct e as [[]|]; cbn; [lia|done|done].
Qed.

Lemma aclose_all a x : ad_life a ∈ open_lives → let '(e, a', x') := aclose release a x in
  released_all (ad_left a' ++ ad_right a') x' = released_all (ad_left a ++ ad_right a) x ∧
  match e with
  | None => a' = mkAD [] [] 255
  | Some CloseBusy => (length (ad_left a' ++ ad_right a') < length (ad_left a ++ ad_right a))%nat ∧ ad_life a' ∈ open_lives
  | Some CloseEvidence => False
  end.
Proof using Hrel.
  intros Hlife. destruct (lives_open (V := V) _ Hlife) as (_ & R0 & R1 & O0 & O1). unfold aclose. rewrite R0, R1. cbn [negb].
  rewrite (released_app (ad_left a)). pose proof (adrain_all (ad_left a) x) as H1. destruct (adrain release (ad_left a) x) as [[e l] x1]. destruct H1 as [H1 H2].
  destruct e as [[]|]; [cbn [ad_left ad_right ad_life]; rewrite released_app, H1; split; [done|rewrite !length_app; by split; [lia|]]|done|].
  pose proof (adrain_all (ad_right a) x1) as H3. destruct (adrain release (ad_right a) x1) as [[e l'] x2]. destruct H3 as [H3 H4]. subst l. change (released_all [] x1) with x1 in H1.
  destruct e as [[]|]; [cbn [ad_left ad_right ad_life app]; rewrite H3, <- H1; split; [done|rewrite length_app; by split; [lia|]]|done|].
  subst l'. cbn [ad_left ad_right app]. change (released_all [] x2) with x2 in *. split; [congruence|done].
Qed.

Lemma run_close_retry attempts fuel : false ∈ attempts → (cap < fuel)%nat → ∀ n (dx : Duplex V) x a b,
  drep cap dx a → ad_life a ∈ open_lives → role_held r (dx_roles dx) b → (length (ad_left a ++ ad_right a) < n)%nat →
  ∃ dx', run (close_retry attempts fuel n) (dx, x) = (Some (Ok tt), (dx', released_all (ad_left a ++ ad_right a) x)) ∧
    dx_roles dx' = set_role (r_index r) (enc (r_generation r) None true) (dx_roles dx) ∧ drep cap dx' (mkAD [] [] 255).
Proof using Hfit Hrel.
  intros Hatt Hfuel. induction n as [|n IH]; intros dx x a b Ha Hlife Hrole Hn; [lia|]. cbn [close_retry].
  pose proof (run_close_with release cap r Hfit dx x a b attempts fuel Ha (proj1 (lives_open (V := V) _ Hlife)) Hrole Hatt Hfuel) as Hc. pose proof (aclose_all a x Hlife) as Hal.
  destruct (aclose release a x) as [[e a'] x']. destruct Hc as (dx1 & E & R & Hlv). destruct Hal as [Hx He]. rewrite run_bind, E. destruct e as [[]|]; [|done|].
  - destruct He as [He Hlife1]. destruct Hrole as [Hi Hi0 Hg Hw].
    destruct (IH dx1 x' _ true Hlv Hlife1) as (dx2 & E2 & R2 & Ha2); [|lia|].
    { split; [|done|done|]; rewrite R; [unfold set_role; by rewrite length_insert|by apply role_at_set]. }
    exists dx2. rewrite Hx in E2. split_and!; [exact E2| |exact Ha2]. by rewrite R2, R, set_role_twice.
  - subst a'. exists dx1. cbn [ad_left ad_right app] in Hx. change (released_all [] x') with x' in Hx. subst x'. by split_and!.
Qed.
End Retry.

(** A removal retried after [Busy], as its caller is asked to, comes to an end:
    when messages can be released, closing more often than there are entries
    answers [Ok], with every queued message released exactly once, in order, both
    directions closed for good and empty and the role retired. *)
Theorem close_retry_finishes {V X} (release : V → X → bool * X) cap r attempts fuel n (dx : Duplex V) (x : X) a b :
  role_fits cap r → (∀ v x, (release v x).1 = true) → false ∈ attempts → (cap < fuel)%nat →
  drep cap dx a → ad_life a ∈ open_lives → role_held r (dx_roles dx) b → (length (ad_left a ++ ad_right a) < n)%nat →
  ∃ dx', run (close_retry release r attempts fuel n) (dx, x) = (Some (Ok tt), (dx', released_all release (ad_left a ++ ad_right a) x)) ∧
    dx_roles dx' = set_role (r_index r) (enc (r_generation r) None true) (dx_roles dx) ∧ drep cap dx' (mkAD [] [] 255).
Proof. intros Hfit Hrel Hatt Hfuel. by apply run_close_retry. Qed.

(** ** A channel that stopped receiving *)

Section Stuck.
Context {V X : Type} (release : V → X → bool * X) (cap : nat) (r : Role) (Hfit : role_fits cap r).

(** Bits added to the byte never reopen a field. *)
Lemma field_stays life bits f : fstate life f ≠ 0 → fstate (Z.lor life bits) f ≠ 0.
Proof using. intros Hf E. rewrite fstate_lor in E. apply Z.lor_eq_0_iff in E. tauto. Qed.

Lemma run_close_stuck (dx : Duplex V) (x : X) a b attempts fuel : drep cap dx a → fstate (ad_life a) (route_recv_field 0) ≠ 0 → role_held r (dx_roles dx) b → false ∈ attempts →
  ∃ dx' life, run (close_with release r attempts (S fuel)) (dx, x) = (Some (Err CloseBusy), (dx', x)) ∧ drep cap dx' (mkAD (ad_left a) (ad_right a) life) ∧
    fstate life (route_recv_field 0) ≠ 0 ∧ role_held r (dx_roles dx') true.
Proof using Hfit.
  intros Ha Hrf [Hi Hi0 Hg Hw] Hatt. unfold close_with. rewrite run_bind, run_on_roles, (run_mark r b) by (done || apply Hfit). cbn [fst snd].
  set (w := set_role _ _ _). set (dx0 := put_roles w dx). assert (Ha0 : drep cap dx0 a) by exact Ha. unfold close_queues.
  destruct (run_close_send cap r 0 dx0 x a Ha0) as (dx1 & E1 & R1 & Ha1). rewrite run_bind, E1.
  destruct (run_close_send cap r 1 dx1 x _ Ha1) as (dx2 & E2 & R2 & Ha2). rewrite run_bind, E2. cbn [ad_left ad_right ad_life] in Ha2.
  assert (Hrf' : fstate (Z.lor (Z.lor (ad_life a) (Z.shiftl 1 (route_send_field 0))) (Z.shiftl 1 (route_send_field 1))) (route_recv_field 0) ≠ 0) by by do 2 apply field_stays.
  cbn [drain]. rewrite !run_bind, (run_claim_closed cap r 0 dx2 x _ Ha2) by done. cbn [run]. eexists _, _. split_and!; [done|exact Ha2|exact Hrf'|].
  rewrite R2, R1. cbn [dx_roles dx0 put_roles]. unfold w. split; [unfold set_role; by rewrite length_insert|done|done|by apply role_at_set].
Qed.
End Stuck.

(** Once the receiving side of the left direction is closed, by [Rx::close] or
    by the close of the other role, the owner of a role cannot close it: however
    often it is retried the answer is [Busy], nothing is released, and the role
    stays owned. *)
Theorem close_stuck_after_receiver_closed {V X} (release : V → X → bool * X) cap r attempts fuel n (dx : Duplex V) (x : X) a b :
  role_fits cap r → false ∈ attempts → drep cap dx a → fstate (ad_life a) (route_recv_field 0) ≠ 0 → role_held r (dx_roles dx) b →
  ∃ dx', run (close_retry release r attempts (S fuel) n) (dx, x) = (None, (dx', x)) ∧ ∃ b', role_held r (dx_roles dx') b'.
Proof.
  intros Hfit Hatt. revert dx a b. induction n as [|n IH]; intros dx a b Ha Hrf Hrole; cbn [close_retry]; [exists dx; eauto|].
  destruct (run_close_stuck release cap r Hfit dx x a b attempts fuel Ha Hrf Hrole Hatt) as (dx1 & life & E & Ha1 & Hrf1 & Hrole1).
  rewrite run_bind, E. by apply (IH dx1 _ true Ha1).
Qed.

(** A channel with two messages and an abandoned entry to the right role, and one
    message to the left, owned by both roles. *)
Definition demo_ops_queued : list (dop Z) :=
  [mkDop (demo_role 0) 0 (OSend 5); mkDop (demo_role 0) 0 OAbandon; mkDop (demo_role 0) 0 (OSend 6); mkDop (demo_role 1) 1 (OSend 9)].
Definition demo_words : roles := [enc 1 (Some 7) false; enc 1 (Some 8) false].
Definition collect (v : Z) (x : list Z) : bool * list Z := (true, v :: x).

Lemma demo_queued : ∃ dx : Duplex Z, drep 3 dx (mkAD [Some 5; None; Some 6] [Some 9] 0) ∧ dx_roles dx = demo_words.
Proof.
  destruct (run_duplex_ops 3 demo_ops_queued tt) with (dx := Duplex_blank (V := Z) 3) (l := mkA (V := Z) [] 0) (r := mkA (V := Z) [] 0) as (dx & _ & _ & Hh).
  - repeat first [apply Forall_nil_2|apply Forall_cons; split]; (split; [apply demo_role_fits; lia|cbn; lia]).
  - apply (blank_two 3); [lia|done].
  - exists (put_roles demo_words dx). split; [apply Hh|done].
Qed.

Lemma demo_held i b : 0 ≤ i < 2 → role_at i demo_words = enc 1 (Some (7 + i)) b → role_held (demo_role i) demo_words b.
Proof. intros Hi Hw. split; [cbn; lia|cbn; lia|by_eval|done]. Qed.

(** One that gives up on the message 6. *)
Definition collect_but_six (v : Z) (x : list Z) : bool * list Z := if v =? 6 then (false, x) else (true, v :: x).

Lemma close_releases_all_witness : ∃ dx dx' : Duplex Z, drep 3 dx (mkAD [Some 5; None; Some 6] [Some 9] 0) ∧
  run (close_with collect (demo_role 0) [true; false] 4) (dx, []) = (Some (Err CloseBusy), (dx', [5])) ∧ role_at 0 (dx_roles dx') = enc 1 (Some 7) true ∧
  ∃ dx2 : Duplex Z, run (close_with collect_but_six (demo_role 0) [false] 4) (dx', [5]) = (Some (Err CloseEvidence), (dx2, [5])) ∧
    evidence (X := list Z) 3 0 dx2 (mkAD [Some 6] [Some 9] 17).
Proof.
  destruct demo_queued as (dx & Ha & Hw). exists dx.
  destruct (close_releases_all collect 3 (demo_role 0) dx [] _ [true; false] 4 (demo_role_fits 0 ltac:(lia)) Ha ltac:(by_eval) ltac:(by_eval) ltac:(lia)) as [_ Hmine].
  destruct (Hmine false) as (dx' & E & R & Ha'); [rewrite Hw; by apply demo_held|]. exists dx'. split; [exact Ha|]. split; [exact E|].
  assert (Ew : dx_roles dx' = [enc 1 (Some 7) true; enc 1 (Some 8) false]) by (rewrite R, Hw; reflexivity). split; [by rewrite Ew|].
  destruct (close_releases_all collect_but_six 3 (demo_role 0) dx' [5] _ [false] 4 (demo_role_fits 0 ltac:(lia)) Ha' ltac:(by_eval) ltac:(by_eval) ltac:(lia)) as [_ Hmine'].
  destruct (Hmine' true) as (dx2 & E2 & _ & Hev); [rewrite Ew; split; [cbn; lia|cbn; lia|by_eval|reflexivity]|]. exists dx2. by split.
Defined.

Lemma close_retry_finishes_witness : ∃ dx dx' : Duplex Z, drep 3 dx (mkAD [Some 5; None; Some 6] [Some 9] 0) ∧
  run (close_retry collect (demo_role 0) [true; false] 4 5) (dx, []) = (Some (Ok tt), (dx', [9; 6; 5])) ∧ drep 3 dx' (mkAD [] [] 255).
Proof.
  destruct demo_queued as (dx & Ha & Hw). exists dx.
  destruct (close_retry_finishes collect 3 (demo_role 0) [true; false] 4 5 dx [] _ false (demo_role_fits 0 ltac:(lia)) ltac:(done) ltac:(by_eval) ltac:(lia) Ha) as (dx' & E & _ & Ha').
  - by_eval.
  - rewrite Hw. by apply demo_held.
  - cbn. lia.
  - exists dx'. by split_and!.
Defined.

(** The other role, after the first one closed. *)
Lemma close_stuck_after_receiver_closed_witness : ∃ dx dx1 dx' : Duplex Z,
  run (close_retry collect (demo_role 0) [false] 4 5) (dx, []) = (Some (Ok tt), (dx1, [9; 6; 5])) ∧
  run (close_retry collect (demo_role 1) [false] 4 100) (dx1, [9; 6; 5]) = (None, (dx', [9; 6; 5])).
Proof.
  destruct demo_queued as (dx & Ha & Hw). exists dx.
  destruct (run_close_retry collect 3 (demo_role 0) (demo_role_fits 0 ltac:(lia)) ltac:(done) [false] 4 ltac:(by_eval) ltac:(lia) 5 dx [] _ false Ha) as (dx1 & E & R & Ha1).
  - by_eval.
  - rewrite Hw. by apply demo_held.
  - cbn. lia.
  - exists dx1. destruct (close_stuck_after_receiver_closed collect 3 (demo_role 1) [false] 3 100 dx1 [9; 6; 5] _ false (demo_role_fits 1 ltac:(lia)) ltac:(by_eval) Ha1) as (dx' & E' & _).
    + by_eval.
    + rewrite R, Hw. split; [unfold set_role; rewrite length_insert; cbn; lia|cbn; lia|by_eval|reflexivity].
    + exists dx'. split; [exact E|exact E'].
Defined.
