(* ===== verification/DuplexRecover.v ===== *)
(** * Recovering a duplex

    [<Duplex as Layout>::recover] run by one caller: what it answers, and what no
    longer belongs to the dead participant when it answers true. *)

From S2P Require Import Prelude Atomic Alloc Schema Header Mem Heap Dir Channel ChannelGeo.
From S2P Require Import Queue QueueInv QueueConc QueueFifo QueueSeq Duplex DuplexSeq DuplexClose.

(** ** One slot *)

(** Whether a control word names neither a source nor a reaper [dead]. *)
Definition word_clear (dead control : Z) : bool :=
  negb ((base control =? PRODUCER) || (base control =? CONSUMER)) ||
  negb (source_of control =? dead + 1) && negb (reaper_of control =? dead + 1).

Section Slot.
Context {V X : Type} (release : V → Z → X → bool * X).
Implicit Types q : qstate V.

(** [q'] differs from [q] in slot [i] at most. *)
Record touched (i : nat) q q' : Prop := {
  to_len : length (buf q') = length (buf q);
  to_other j : j ≠ i → slot_at j q' = slot_at j q;
}.

Lemma touched_refl i q : touched i q q.
Proof using. done. Qed.

Lemma touched_trans i q1 q2 q3 : touched i q1 q2 → touched i q2 q3 → touched i q1 q3.
Proof using. intros [L1 O1] [L2 O2]. split; [congruence|]. intros j Hj. by rewrite O2, O1. Qed.

Lemma touched_set i s q : touched i q (set_slot i s q).
Proof using.
  split; unfold set_slot, slot_at; cbn [buf]; [by rewrite length_insert|]. intros j Hj. by rewrite list_lookup_insert_ne.
Qed.

Lemma set_slot_at i s q : (i < length (buf q))%nat → slot_at i (set_slot i s q) = s.
Proof using. intros Hi. unfold set_slot, slot_at. cbn [buf]. by rewrite list_lookup_insert_eq. Qed.

(** A routine on slot [i] that answers [Recovered] with the slot at rest, or
    [Corrupted]. *)
Definition resolves (i : nat) q (s : Repair * (qstate V * X)) : Prop :=
  touched i q s.2.1 ∧ match s.1 with
  | Recovered => ∀ dead, word_clear dead (control (slot_at i s.2.1)) = true
  | Queue.Corrupted => True
  | _ => False
  end.

Lemma run_q {A B} (f : qstate V → B * qstate V) (k : B → prog (qstate V * X) A) q x :
  run (Act (Queue.on_queue f) k) (q, x) = run (k (f q).1) ((f q).2, x).
Proof using. rewrite run_act. unfold Queue.on_queue. cbn [fst snd]. by destruct (f q). Qed.

Lemma run_release {A} (P : A * (qstate V * X) → Prop) i owner (k : bool → prog (qstate V * X) A) q x :
  (∀ b x', P (run (k b) (q, x'))) → P (run (Act (release_value release i owner) k) (q, x)).
Proof using. intros HP. rewrite run_act. unfold release_value. cbn [fst snd]. destruct (value _) as [v|]; [|apply HP]. destruct (release v owner x) as [ok x']. apply HP. Qed.

Lemma resolves_store i c q q0 x : (i < length (buf q))%nat → touched i q0 q → (∀ dead, word_clear dead c = true) → resolves i q0 (run (act_ Queue.on_queue (store_control i c); Ret Recovered) (q, x)).
Proof using.
  intros Hi Ht Hc. rewrite run_q. cbn [run fst snd store_control]. split; cbn [fst snd].
  - eapply touched_trans; [done|]. apply touched_set.
  - by rewrite set_slot_at.
Qed.

Lemma run_producer i complete source q q0 x : (i < length (buf q))%nat → touched i q0 q → resolves i q0 (run (repair_producer release i complete source) (q, x)).
Proof using.
  intros Hi Ht. unfold repair_producer. rewrite !run_q. cbn [load_turn load_tail fst snd].
  repeat case_match; try done; try (by apply resolves_store).
  apply run_release. intros [] x'; [by apply resolves_store|done].
Qed.

Lemma run_recycled lap i head turn q q0 x : (i < length (buf q))%nat → touched i q0 q → resolves i q0 (run (repair_recycle lap i head turn) (q, x)).
Proof using.
  intros Hi Ht. unfold repair_recycle. case_match; [|by apply resolves_store]. rewrite run_q. cbn [store_turn fst snd]. apply resolves_store; [|eapply touched_trans; [done|apply touched_set]|done].
  unfold set_slot. cbn [buf]. by rewrite length_insert.
Qed.

Lemma run_consumer lap i complete source q q0 x : (i < length (buf q))%nat → touched i q0 q → complete = 0 ∨ complete = COMPLETE →
  resolves i q0 (run (repair_consumer release lap i complete source) (q, x)).
Proof using.
  intros Hi Ht Hc. unfold repair_consumer. rewrite !run_q. cbn [load_turn load_head fst snd].
  case_match; [apply resolves_store; [done|done|by destruct Hc as [->| ->]]|]. case_match; [|by apply run_recycled].
  apply run_release. intros [] x'; [by apply run_recycled|done].
Qed.

Lemma complete_bit c : Z.land c COMPLETE = 0 ∨ Z.land c COMPLETE = COMPLETE.
Proof using.
  change COMPLETE with (2 ^ Z.log2 COMPLETE). set (k := Z.log2 COMPLETE). assert (0 ≤ k) by done. destruct (Z.testbit c k) eqn:E.
  - right. apply Z.bits_inj'. intros n Hn. rewrite Z.land_spec, Z.pow2_bits_eqb by done. destruct (Z.eqb_spec k n) as [<-|]; [by rewrite E|by rewrite andb_false_r].
  - left. apply Z.bits_inj'. intros n Hn. rewrite Z.land_spec, Z.pow2_bits_eqb, Z.bits_0 by done. destruct (Z.eqb_spec k n) as [<-|]; [by rewrite E|by rewrite andb_false_r].
Qed.

Lemma cas_observed i c n q : c = control (slot_at i q) → (cas_control i c n q).1 = true ∧ touched i q (cas_control i c n q).2.
Proof using. intros ->. unfold cas_control. rewrite Z.eqb_refl. split; [done|apply touched_set]. Qed.

(** A slot the repair of which is not in the way of the recovery names the dead
    participant no longer. *)
Lemma run_repair_slot lap (cap : nat) (i : nat) dead live q x : length (buf q) = cap →
  let s := run (repair_slot_with release lap (Z.of_nat cap) (Z.of_nat i) dead live) (q, x) in
  touched i q s.2.1 ∧ match s.1 with RepairBusy _ | Queue.Corrupted => True | _ => word_clear dead (control (slot_at i s.2.1)) = true end.
Proof using.
  intros Hlen s. unfold s, repair_slot_with. destruct (_ || _); [done|]. destruct (Z.ltb_spec (Z.of_nat i) (Z.of_nat cap)) as [Hi|]; [|done]. cbn [negb].
  rewrite run_q, Nat2Z.id. cbn [load_control fst snd]. set (c := control (slot_at i q)). destruct (canonical c); [|done]. cbn [negb].
  destruct ((base c =? PRODUCER) || (base c =? CONSUMER)) eqn:Eb; cbn [negb]; [|split; [done|]; cbn; unfold word_clear; fold c; by rewrite Eb].
  assert (Hfin : ∀ q1, length (buf q1) = cap → touched i q q1 → resolves i q (run (if base c =? PRODUCER then repair_producer release i (Z.land c COMPLETE) (source_of c)
    else repair_consumer release lap i (Z.land c COMPLETE) (source_of c)) (q1, x))).
  { intros q1 Hl Ht. case_match; [apply run_producer; [lia|done]|apply run_consumer; [lia|done|apply complete_bit]]. }
  assert (Hres : ∀ p : Repair * (qstate V * X), resolves i q p → touched i q p.2.1 ∧ match p.1 with RepairBusy _ | Queue.Corrupted => True | _ => word_clear dead (control (slot_at i p.2.1)) = true end).
  { intros [[] p] [Ht Hp]; cbn [fst snd] in *; by split. }
  unfold repair_next. repeat match goal with |- context [if ?b then inr _ else _] => destruct b eqn:? end.
  1-3: (match goal with |- context [if negb (?n =? ?m) then _ else _] => destruct (negb (n =? m)) end;
        [|by apply Hres, Hfin]; rewrite run_q; match goal with |- context [cas_control ?i ?c ?n ?q] => destruct (cas_observed i c n q eq_refl) as [-> Hcas] end; apply Hres, Hfin; [by rewrite (to_len _ _ _ Hcas)|done]).
  destruct (source_of c =? dead + 1) eqn:?; [done|]. split; [done|]. cbn [run fst snd]. unfold word_clear. fold c. rewrite Eb. cbn [negb orb].
  by repeat match goal with H : (_ =? _) = false |- _ => rewrite H; clear H end.
Qed.
End Slot.

(** ** One direction *)

Section Direction.
Context {V X : Type} (release : V → Z → X → bool * X).

Definition slot_word (d : Z) (j : nat) (dx : Duplex V) : Z := control (slot_at j (queue_of d dx)).

Lemma run_repair_in d lap cap index dead live (dx : Duplex V) (x : X) :
  run (repair_in release d lap cap index dead live) (dx, x) =
    let '(res, (q, x')) := run (repair_slot_with release lap cap index dead live) (queue_of d dx, x) in (res, (put_queue d q dx, x')).
Proof using.
  unfold repair_in. rewrite run_on_part.
  - cbn [fst snd]. by destruct (run _ _) as [res [q x']].
  - intros [q x'] [dx' y]. cbn. by rewrite queue_of_put.
  - intros [[l w [] []] y]. cbn. unfold put_queue, queue_of, half_at. by destruct (d =? 0).
  - intros [q x'] [q' y'] [dx' y]. cbn. by rewrite put_queue_twice.
Qed.

(** [dx'] differs from [dx] in the slots [ns] of direction [d] at most, which
    name the dead participant no longer when [b] is true. *)
Record swept (d : Z) (cap : nat) (dead : Z) (ns : list nat) (b : bool) (dx dx' : Duplex V) : Prop := {
  sw_len : length (buf (queue_of d dx')) = cap;
  sw_roles : dx_roles dx' = dx_roles dx;
  sw_half d' : (d' =? 0) ≠ (d =? 0) → half_at d' dx' = half_at d' dx;
  sw_other j : j ∉ ns → slot_at j (queue_of d dx') = slot_at j (queue_of d dx);
  sw_clear j : b = true → j ∈ ns → word_clear dead (slot_word d j dx') = true;
}.

Lemma swept_one d cap dead i q (dx : Duplex V) : length (buf (queue_of d dx)) = cap → touched i (queue_of d dx) q → swept d cap dead [i] false dx (put_queue d q dx).
Proof using.
  intros Hl [Hl' Ho]. split; rewrite ?queue_of_put; [congruence|apply put_queue_roles| | |done].
  - intros d' Hd. unfold put_queue, half_at. by destruct (d' =? 0), (d =? 0).
  - intros j Hj. apply Ho. intros ->. apply Hj, list_elem_of_here.
Qed.

Lemma swept_stop d cap dead i ns (dx dx' : Duplex V) : swept d cap dead [i] false dx dx' → swept d cap dead (i :: ns) false dx dx'.
Proof using. intros []. split; [done|done|done| |done]. intros j [Hj _]%not_elem_of_cons. apply sw_other0. by rewrite list_elem_of_singleton. Qed.

Lemma swept_more d cap dead i ns b (dx dx1 dx' : Duplex V) : swept d cap dead [i] false dx dx1 → word_clear dead (slot_word d i dx1) = true →
  swept d cap dead ns b dx1 dx' → swept d cap dead (i :: ns) b dx dx'.
Proof using.
  intros [Hl1 Hr1 Hh1 Ho1 _] Hc [Hl2 Hr2 Hh2 Ho2 Hc2]. split; [done|congruence|intros d' Hd; by rewrite Hh2, Hh1| |].
  - intros j [Hj1 Hj2]%not_elem_of_cons. rewrite Ho2, Ho1; [done|by rewrite list_elem_of_singleton|done].
  - intros j Hb Hj. destruct (decide (j ∈ ns)) as [Hin|Hout]; [by apply Hc2|]. apply elem_of_cons in Hj as [->|Hj]; [|done].
    unfold slot_word in *. by rewrite Ho2.
Qed.

(** The repair of the slots [ns] of a direction. *)
Lemma run_repair_slots d lap (cap : nat) dead live (ns : list nat) : ∀ (dx : Duplex V) (x : X), length (buf (queue_of d dx)) = cap →
  let s := run (repair_slots release d lap (Z.of_nat cap) dead live (Z.of_nat <$> ns)) (dx, x) in swept d cap dead ns s.1 dx s.2.1.
Proof using.
  induction ns as [|i ns IH]; intros dx x Hlen; cbn [fmap list_fmap repair_slots].
  { cbn [run fst snd]. split; [done|done|done|done|]. intros j _ Hj. by apply elem_of_nil in Hj. }
  rewrite run_bind, run_repair_in. pose proof (run_repair_slot release lap cap i dead live (queue_of d dx) x Hlen) as Hs. cbv zeta in Hs.
  destruct (run (repair_slot_with _ _ _ _ _ _) _) as [res [q x1]]. cbn [fst snd] in Hs. destruct Hs as [Ht Hres].
  pose proof (swept_one d cap dead i q dx Hlen Ht) as Hsw. assert (Hw : slot_word d i (put_queue d q dx) = control (slot_at i q)) by (unfold slot_word; by rewrite queue_of_put).
  specialize (IH (put_queue d q dx) x1 (sw_len _ _ _ _ _ _ _ Hsw)). rewrite <- Hw in Hres.
  destruct res; first [by apply swept_stop|eapply swept_more; done].
Qed.

(** A slot at rest: held by nobody. *)
Definition at_rest (c : Z) : bool := canonical c && negb ((base c =? PRODUCER) || (base c =? CONSUMER)).

Lemma run_repair_slots_rest d lap (cap : nat) dead live (ns : list nat) (dx : Duplex V) (x : X) : dead < PARTICIPANT_CAPACITY → live < PARTICIPANT_CAPACITY →
  (∀ i, i ∈ ns → (i < cap)%nat ∧ at_rest (slot_word d i dx) = true) →
  run (repair_slots release d lap (Z.of_nat cap) dead live (Z.of_nat <$> ns)) (dx, x) = (true, (dx, x)).
Proof using.
  intros Hd Hl. induction ns as [|i ns IH]; intros Hrest; cbn [fmap list_fmap repair_slots]; [done|].
  destruct (Hrest i) as [Hi Hc]; [apply list_elem_of_here|]. rewrite run_bind, run_repair_in. unfold repair_slot_with.
  destruct (Z.leb_spec PARTICIPANT_CAPACITY dead); [lia|]. destruct (Z.leb_spec PARTICIPANT_CAPACITY live); [lia|]. destruct (Z.ltb_spec (Z.of_nat i) (Z.of_nat cap)); [|lia].
  cbn [orb negb]. rewrite run_q, Nat2Z.id. cbn [load_control fst snd]. fold (slot_word d i dx). unfold at_rest in Hc. apply andb_prop in Hc as [-> ->]. cbn [negb run].
  replace (put_queue d (queue_of d dx) dx) with dx; [apply IH; intros j Hj; apply Hrest; by apply list_elem_of_further|].
  destruct dx as [l w [] []]. unfold put_queue, queue_of, half_at. cbn. by destruct (d =? 0).
Qed.
End Direction.

(** ** Roles *)

Lemma owned_by_enc dead g p t : 0 ≤ g → part_ok p → owned_by dead (enc g p t) = bool_decide (p = Some dead).
Proof. intros Hg Hp. unfold owned_by. by rewrite role_parts. Qed.

(** [recover_role] with an exchange that is not spurious among the attempts. *)
Lemma run_recover_role i dead attempts w : 0 ≤ i → (Z.to_nat i < length w)%nat → is_word usize_bits (role_at i w) → false ∈ attempts →
  run (recover_role i dead attempts) w = (Some tt, if owned_by dead (role_at i w) then set_role i (released_word (role_at i w)) w else w).
Proof.
  intros Hi Hl Hw Hatt. unfold recover_role. rewrite run_act. cbn [load_role fst snd]. induction attempts as [|sp attempts IH]; [by apply elem_of_nil in Hatt|].
  cbn [release_role]. destruct (owned_by dead (role_at i w)) eqn:Eo; cbn [negb]; [|done]. rewrite run_act. unfold cas_role_weak. destruct sp.
  - cbn [fst snd]. apply IH. by apply elem_of_cons in Hatt as [?|?].
  - unfold cas_role. by rewrite Z.eqb_refl.
Qed.

Lemma recovered_unowned dead w : is_word usize_bits w → owned_by dead w = true → owned_by dead (released_word w) = false.
Proof.
  intros (g & p & t & -> & Hg & Hp)%role_enc. rewrite released_enc by done. intros _. destruct (t || (g =? ROLE_MAX_GENERATION)) eqn:E; apply owned_by_enc; try done; lia.
Qed.

Lemma released_is_word w : is_word usize_bits w → is_word usize_bits (released_word w).
Proof.
  intros (g & p & t & -> & Hg & Hp)%role_enc. rewrite released_enc by done. destruct (t || (g =? ROLE_MAX_GENERATION)) eqn:E; [by apply enc_word|].
  apply orb_false_iff in E as [_ E]. apply Z.eqb_neq in E. apply enc_word; [lia|done].
Qed.

(** Two machine words. *)
Definition role_words (w : roles) : Prop := ∃ a b, w = [a; b] ∧ is_word usize_bits a ∧ is_word usize_bits b.

(** The word a recovery leaves for [w]. *)
Definition recovered_role (dead w : Z) : Z := if owned_by dead w then released_word w else w.

Lemma recovered_role_clear dead w : is_word usize_bits w → owned_by dead (recovered_role dead w) = false ∧ is_word usize_bits (recovered_role dead w).
Proof. intros Hw. unfold recovered_role. destruct (owned_by dead w) eqn:E; [by split; [apply recovered_unowned|apply released_is_word]|done]. Qed.

Lemma run_recover_roles {V X} dead attempts (dx : Duplex V) (x : X) a b : dx_roles dx = [a; b] → is_word usize_bits a → is_word usize_bits b → false ∈ attempts →
  run (do r <- on_roles (recover_role 0 dead attempts);
       match r with None => Ret None | Some _ => do y <- on_roles (recover_role 1 dead attempts); Ret (const true <$> y) end) (dx, x) =
    (Some true, (put_roles [recovered_role dead a; recovered_role dead b] dx, x)).
Proof.
  intros Hw Ha Hb Hatt. rewrite run_bind, run_on_roles, Hw, run_recover_role by (done || cbn; lia). cbn [fst snd].
  rewrite run_bind, run_on_roles. cbn [dx_roles put_roles].
  assert (E0 : (if owned_by dead (role_at 0 [a; b]) then set_role 0 (released_word (role_at 0 [a; b])) [a; b] else [a; b]) = [recovered_role dead a; b])
    by (unfold recovered_role; change (role_at 0 [a; b]) with a; by destruct (owned_by dead a)).
  set (w := [recovered_role dead a; b]) in *.
  assert (E1 : (if owned_by dead (role_at 1 w) then set_role 1 (released_word (role_at 1 w)) w else w) = [recovered_role dead a; recovered_role dead b])
    by (change (role_at 1 w) with b; unfold w; rewrite (eq_refl : recovered_role dead b = if owned_by dead b then released_word b else b); by destruct (owned_by dead b)).
  rewrite E0, run_recover_role, E1 by (done || cbn; lia). reflexivity.
Qed.

(** ** The recovery *)

(** A duplex of [cap] slots a direction. *)
Record duplex_shape {V} (cap : nat) (dx : Duplex V) : Prop := {
  ds_left : length (buf (queue_of 0 dx)) = cap;
  ds_right : length (buf (queue_of 1 dx)) = cap;
  ds_roles : role_words (dx_roles dx);
}.

(** Nothing of the duplex is held by [dead]: no slot is, under its own name or
    as the reaper of another, and no role. *)
Definition duplex_clear {V} (cap : nat) (dead : Z) (dx : Duplex V) : Prop :=
  (∀ d j, d = 0 ∨ d = 1 → (j < cap)%nat → word_clear dead (slot_word d j dx) = true) ∧ ∀ i, i = 0 ∨ i = 1 → owned_by dead (role_at i (dx_roles dx)) = false.

Lemma seqZ_nats n : seqZ 0 (Z.of_nat n) = Z.of_nat <$> seq 0 n.
Proof. unfold seqZ. rewrite Nat2Z.id. apply list_fmap_ext. intros i k _. lia. Qed.

(** Slots of a queue that holds an abstract one are at rest. *)
Lemma represents_rest {V} cap (q : qstate V) h a i : represents cap q h a → (i < cap)%nat → at_rest (control (slot_at i q)) = true.
Proof.
  intros HR Hi. set (j := ((i + (cap - h mod cap)) mod cap)%nat). assert (Hj : (j < cap)%nat) by (apply Nat.mod_upper_bound; lia).
  assert (E : ((h + j) mod cap)%nat = i).
  { unfold j. rewrite Nat.Div0.add_mod_idemp_r. pose proof (Nat.mod_upper_bound h cap ltac:(lia)). pose proof (Nat.div_mod h cap ltac:(lia)).
    replace (h + (i + (cap - h mod cap)))%nat with (i + (h / cap + 1) * cap)%nat by nia. rewrite Nat.Div0.mod_add. by apply Nat.mod_small. }
  destruct (lookup_lt_is_Some_2 (buf q) i) as [s Hs]; [by rewrite (rep_len _ _ _ _ HR)|].
  assert (Es : slot_at i q = s) by (unfold slot_at; by rewrite Hs). rewrite Es. rewrite <- E in Hs. destruct (rep_slot _ _ _ _ HR j s Hj Hs) as [_ Hc].
  destruct (items a !! j) as [o|]; [destruct Hc as [-> _]; by destruct o|by rewrite Hc].
Qed.

Section Recovery.
Context {V X : Type} (release : V → Z → X → bool * X) (cap : nat) (header slot : Layout) (g : DuplexGeometry).
Context (Hg : duplex_geometry header slot (Z.of_nat cap) = Ok g).

Lemma run_duplex_recover dead live attempts (dx : Duplex V) (x : X) : duplex_shape cap dx → false ∈ attempts →
  ∃ b dx' x', run (duplex_recover release header slot (Z.of_nat cap) (size (dg_layout g)) dead live attempts) (dx, x) = (Some b, (dx', x')) ∧
    duplex_shape cap dx' ∧ (b = true → duplex_clear cap dead dx').
Proof using Hg.
  intros [Hl Hr (w0 & w1 & Hw & Hw0 & Hw1)] Hatt. unfold duplex_recover. rewrite Hg, Z.eqb_refl, seqZ_nats. cbn [negb]. rewrite run_bind.
  pose proof (run_repair_slots release 0 (dg_one_lap g) cap dead live (seq 0 cap) dx x Hl) as S0. cbv zeta in S0. destruct (run (repair_slots _ 0 _ _ _ _ _) _) as [b0 [dx1 x1]]. cbn [fst snd] in S0.
  assert (Hr1 : length (buf (queue_of 1 dx1)) = cap) by (unfold queue_of in *; cbn [buf] in *; by rewrite (sw_half _ _ _ _ _ _ _ S0 1) by done).
  destruct b0; cbn [negb]; [|exists false, dx1, x1; split_and!; [done| |done]; split; [apply S0|done|rewrite (sw_roles _ _ _ _ _ _ _ S0), Hw; by exists w0, w1]].
  rewrite run_bind. pose proof (run_repair_slots release 1 (dg_one_lap g) cap dead live (seq 0 cap) dx1 x1 Hr1) as S1. cbv zeta in S1. destruct (run (repair_slots _ 1 _ _ _ _ _) _) as [b1 [dx2 x2]]. cbn [fst snd] in S1.
  assert (Hq0 : hf_slots (half_at 0 dx2) = hf_slots (half_at 0 dx1)) by by rewrite (sw_half _ _ _ _ _ _ _ S1 0).
  assert (Hl2 : length (buf (queue_of 0 dx2)) = cap) by (pose proof (sw_len _ _ _ _ _ _ _ S0) as E; unfold queue_of in *; cbn [buf] in *; by rewrite Hq0).
  assert (Hw2 : dx_roles dx2 = [w0; w1]) by (rewrite (sw_roles _ _ _ _ _ _ _ S1), (sw_roles _ _ _ _ _ _ _ S0); done).
  destruct b1; cbn [negb]; [|exists false, dx2, x2; split_and!; [done| |done]; split; [done|apply S1|rewrite Hw2; by exists w0, w1]].
  rewrite (run_recover_roles dead attempts dx2 x2 w0 w1) by done. destruct (recovered_role_clear dead w0 Hw0) as [C0 W0]. destruct (recovered_role_clear dead w1 Hw1) as [C1 W1].
  eexists _, _, _. split_and!; [done|split; [done|apply S1|by exists (recovered_role dead w0), (recovered_role dead w1)]|]. intros _. split.
  - intros d j Hd Hj. assert (Hin : j ∈ seq 0 cap) by (apply elem_of_seq; lia). destruct Hd as [->| ->]; [|by apply (sw_clear _ _ _ _ _ _ _ S1 j)].
    pose proof (sw_clear _ _ _ _ _ _ _ S0 j eq_refl Hin) as Hc. unfold slot_word, slot_at, queue_of in *. cbn [buf] in *. change (half_at 0 (put_roles _ dx2)) with (half_at 0 dx2). by rewrite Hq0.
  - intros i [->| ->]; done.
Qed.

Lemma run_duplex_recover_rest dead live attempts (dx : Duplex V) (x : X) a : duplex_shape cap dx → false ∈ attempts → drep cap dx a →
  dead < PARTICIPANT_CAPACITY → live < PARTICIPANT_CAPACITY →
  ∃ dx', run (duplex_recover release header slot (Z.of_nat cap) (size (dg_layout g)) dead live attempts) (dx, x) = (Some true, (dx', x)) ∧ drep cap dx' a ∧
    dx_roles dx' = recovered_role dead <$> dx_roles dx.
Proof using Hg.
  intros [Hl Hr (w0 & w1 & Hw & Hw0 & Hw1)] Hatt Ha Hd Hv. unfold duplex_recover. rewrite Hg, Z.eqb_refl, seqZ_nats. cbn [negb].
  assert (Hrest : ∀ d i, i ∈ seq 0 cap → (i < cap)%nat ∧ at_rest (slot_word d i dx) = true).
  { intros d i Hi%elem_of_seq. split; [lia|]. destruct (drep_at _ _ _ d Ha) as [h Hq]. eapply represents_rest; [done|lia]. }
  rewrite run_bind, run_repair_slots_rest by (done || apply Hrest). cbn [negb]. rewrite run_bind, run_repair_slots_rest by (done || apply Hrest). cbn [negb].
  rewrite (run_recover_roles dead attempts dx x w0 w1) by done. eexists. split_and!; [done|exact Ha|by rewrite Hw].
Qed.
End Recovery.

(** ** Again *)

Section Again.
Context {V X : Type} (release : V → Z → X → bool * X).

(** A slot that does not name the dead participant is left alone. *)
Lemma run_repair_clear lap cap index dead live (q : qstate V) (x : X) : word_clear dead (control (slot_at (Z.to_nat index) q)) = true →
  (run (repair_slot_with release lap cap index dead live) (q, x)).2 = (q, x).
Proof using.
  intros Hc. unfold repair_slot_with. destruct (_ || _); [done|]. destruct (negb (index <? cap)); [done|]. rewrite run_q. cbn [load_control fst snd].
  set (c := control _) in *. destruct (canonical c); [|done]. cbn [negb]. unfold word_clear in Hc. destruct ((base c =? PRODUCER) || (base c =? CONSUMER)); [|done]. cbn [negb orb] in *.
  apply andb_prop in Hc as [Hs Hr]. apply negb_true_iff in Hs, Hr. unfold repair_next. rewrite Hs, Hr. done.
Qed.

Lemma run_repair_slots_clear d lap cap dead live ns (dx : Duplex V) (x : X) : (∀ i, i ∈ ns → word_clear dead (slot_word d (Z.to_nat i) dx) = true) →
  (run (repair_slots release d lap cap dead live ns) (dx, x)).2 = (dx, x).
Proof using.
  induction ns as [|i ns IH]; intros Hc; cbn [repair_slots]; [done|]. rewrite run_bind, run_repair_in.
  pose proof (run_repair_clear lap cap i dead live (queue_of d dx) x (Hc i (list_elem_of_here _ _))) as Hr. destruct (run (repair_slot_with _ _ _ _ _ _) _) as [res [q x1]]. cbn [snd] in Hr. injection Hr as -> ->.
  replace (put_queue d (queue_of d dx) dx) with dx by (destruct dx as [? ? [] []]; unfold put_queue, queue_of, half_at; cbn; by destruct (d =? 0)).
  assert (IH' := IH (λ j Hj, Hc j (list_elem_of_further _ _ _ Hj))). by destruct res.
Qed.

Lemma run_recover_role_clear i dead attempts w : owned_by dead (role_at i w) = false → run (recover_role i dead attempts) w = (Some tt, w).
Proof using. intros Ho. unfold recover_role. rewrite run_act. cbn [load_role fst snd]. destruct attempts; cbn [release_role]; by rewrite Ho. Qed.

(** Recovering a channel again changes nothing. *)
Lemma duplex_recover_again cap header slot extent dead live attempts (dx : Duplex V) (x : X) : duplex_clear cap dead dx →
  (run (duplex_recover release header slot (Z.of_nat cap) extent dead live attempts) (dx, x)).2 = (dx, x).
Proof using.
  intros [Hs Hr]. unfold duplex_recover. destruct (duplex_geometry _ _ _) as [g|]; [|done]. destruct (negb _); [done|].
  assert (Hd : ∀ d i, d = 0 ∨ d = 1 → i ∈ seqZ 0 (Z.of_nat cap) → word_clear dead (slot_word d (Z.to_nat i) dx) = true) by (intros d i Hd Hi%elem_of_seqZ; apply Hs; [done|lia]).
  rewrite run_bind. pose proof (run_repair_slots_clear 0 (dg_one_lap g) (Z.of_nat cap) dead live _ dx x (λ i, Hd 0 i ltac:(by left))) as E. destruct (run (repair_slots _ 0 _ _ _ _ _) _) as [b s]. cbn [snd] in E. subst s.
  destruct b; [|done]. cbn [negb]. rewrite run_bind. pose proof (run_repair_slots_clear 1 (dg_one_lap g) (Z.of_nat cap) dead live _ dx x (λ i, Hd 1 i ltac:(by right))) as E.
  destruct (run (repair_slots _ 1 _ _ _ _ _) _) as [b s]. cbn [snd] in E. subst s. destruct b; [|done]. cbn [negb].
  rewrite run_bind, run_on_roles, run_recover_role_clear by (apply Hr; by left). cbn [fst snd]. replace (put_roles (dx_roles dx) dx) with dx by (by destruct dx).
  rewrite run_bind, run_on_roles, run_recover_role_clear by (apply Hr; by right). cbn [fst snd]. by destruct dx.
Qed.
End Again.

(** C13: the recovery of a channel always comes to an answer, and when the answer
    is true nothing of the channel is held by the dead participant any more: no
    slot of either direction names it as its producer, its consumer or its
    reaper, and it owns neither role.  On a channel no operation was cut short
    in, the answer is true, and the queued entries are left as they are. *)
Theorem duplex_recover_releases {V X} (release : V → Z → X → bool * X) cap header slot g dead live attempts (dx : Duplex V) (x : X) :
  duplex_geometry header slot (Z.of_nat cap) = Ok g → duplex_shape cap dx → false ∈ attempts →
  ∃ b dx' x', run (duplex_recover release header slot (Z.of_nat cap) (size (dg_layout g)) dead live attempts) (dx, x) = (Some b, (dx', x')) ∧
    duplex_shape cap dx' ∧ (b = true → duplex_clear cap dead dx') ∧
    ∀ a, drep cap dx a → dead < PARTICIPANT_CAPACITY → live < PARTICIPANT_CAPACITY →
      b = true ∧ x' = x ∧ drep cap dx' a ∧ dx_roles dx' = recovered_role dead <$> dx_roles dx.
Proof.
  intros Hg Hs Hatt. destruct (run_duplex_recover release cap header slot g Hg dead live attempts dx x Hs Hatt) as (b & dx' & x' & E & Hs' & Hc).
  exists b, dx', x'. split_and!; [done|done|done|]. intros a Ha Hd Hl.
  destruct (run_duplex_recover_rest release cap header slot g Hg dead live attempts dx x a Hs Hatt Ha Hd Hl) as (dx1 & E1 & Ha1 & R1).
  rewrite E in E1. simplify_eq. by split_and!.
Qed.

(** A channel one role of which died with a message reserved in the left
    direction and a claim open in the right one. *)
Definition demo_crashed : Duplex Z :=
  mkDuplex 0 [enc 1 (Some 7) false; enc 1 (Some 8) false]
    (mkHalf 0 1 [mkSlot 0 (owned PRODUCER true 7) (Some 5); Slot_new 1; Slot_new 2])
    (mkHalf 4 4 [mkSlot 0 (owned CONSUMER true 7) (Some 9); Slot_new 1; Slot_new 2]).

Lemma duplex_recover_releases_witness : ∃ dx',
  run (duplex_recover (λ v dead x, (true, (v, dead) :: x)) (mkLayout 320 64) (mkLayout 192 64) 3 1472 7 8 [true; false]) (demo_crashed, []) = (Some true, (dx', [(9, 7); (5, 7)])) ∧
  duplex_clear 3 7 dx'.
Proof.
  assert (E : ∃ g, duplex_geometry (mkLayout 320 64) (mkLayout 192 64) (Z.of_nat 3) = Ok g ∧ size (dg_layout g) = 1472) by (eexists; split; vm_compute; reflexivity).
  destruct E as (g & E & Es).
  destruct (duplex_recover_releases (λ v dead x, (true, (v, dead) :: x)) 3 (mkLayout 320 64) (mkLayout 192 64) g 7 8 [true; false] demo_crashed [] E) as (b & dx' & x' & R & _ & Hc & _).
  - split; [reflexivity|reflexivity|]. eexists _, _. split; [reflexivity|]. split; by_eval.
  - by_eval.
  - rewrite Es in R. assert (Hb : ∃ dx1, (Some true, (dx1, [(9, 7); (5, 7)])) = (Some b, (dx', x'))) by (eexists; rewrite <- R; vm_compute; reflexivity).
    destruct Hb as [dx1 Hb]. injection Hb as <- -> <-. exists dx'. split; [exact R|exact (Hc eq_refl)].
Defined.
