(* ===== verification/Transfer.v ===== *)
(** * Transfers: blocks handed over through channels

    Models the sending and the receiving of blocks in [src/src/channel.rs]
    ([Tx], [TransferReserved], [TransferStaged], [Received]) on a duplex of
    [Duplex] and the control words of one pool of [PoolOps]. *)

From S2P Require Import Prelude Atomic Alloc Bytes Schema Header Mem Heap Dir Token Pool PoolOps.
From S2P Require Import Channel Queue Duplex.

(** [pool::Transfer]: an allocation and the token that stands for it. *)
Record Transfer (H : Type) := mkTransfer { tr_allocation : Allocation; tr_token : Token H }.
Arguments mkTransfer {H}. Arguments tr_allocation {H}. Arguments tr_token {H}.

Section Transfers.
Context {H : Type}.
Abbreviation S := (Duplex (Token H) * words)%type.

Definition on_pool {A} (p : prog words A) : prog S A := on_part snd (λ w s, (s.1, w)) p.

(** ** Sending *)

(** [Tx::reserve] *)
Definition tx_reserve (r : Role) (d : Z) : prog S (option (result nat ReserveError)) :=
  on_queue d (reserve (endpoint_of r d)).

(** [TransferReserved::stage] *)
Definition transfer_stage (d : Z) (i : nat) (v : Transfer H) : prog S unit := on_queue d (stage i (tr_token v)).

(** [TransferStaged::publish]; [None] is its panic. *)
Definition transfer_publish (p : PoolRef) (d : Z) (i : nat) (a : Allocation) : prog S (option unit) :=
  do detached <- on_pool (detach p a);
  match detached with
  | Some (Ok _) => do _ <- on_queue d (publish i); Ret (Some tt)
  | _ => Ret None
  end.

(** [TransferStaged::cancel] *)
Definition transfer_cancel (d : Z) (i : nat) (a : Allocation) : prog S (option (Transfer H)) :=
  do t <- on_queue d (cancel i); Ret (mkTransfer a <$> t).

(** [Tx::try_send]; an error carries the transfer back. *)
Definition tx_try_send (p : PoolRef) (r : Role) (d : Z) (v : Transfer H)
    : prog S (option (result unit (TrySendError (Transfer H)))) :=
  do reserved <- tx_reserve r d;
  match reserved with
  | None => Ret None
  | Some (Ok i) =>
    do _ <- transfer_stage d i v;
    do published <- transfer_publish p d i (tr_allocation v);
    Ret (const (Ok tt) <$> published)
  | Some (Err Closed) => Ret (Some (Err (Disconnected v)))
  | Some (Err Full) => Ret (Some (Err (SendFull v)))
  | Some (Err Busy) => Ret (Some (Err (SendBusy v)))
  end.

(** ** Receiving

    A [Received] is its claim.  Dropping one does nothing to the queue; an
    error of [adopt], [discard] or [admit] gives it back. *)

(** [Received::adopt] as a type of shape [s] whose identity is [expected]. *)
Definition received_adopt (p : PoolRef) (d : Z) (c : Claim) (s : Shape) (expected : Z)
    : prog S (option (result (H * claimed) AdoptError)) :=
  do item <- on_queue d (item c);
  match item with
  | None => Ret None
  | Some t =>
    do block <- on_pool (adopt_id p s (token t) expected);
    match block with
    | None => Ret None
    | Some (Err error) => Ret (Some (Err error))
    | Some (Ok block) =>
      do taken <- on_queue d (take c);
      Ret ((λ t, Ok (token_header t, block)) <$> taken)
    end
  end.

(** [Received::discard] *)
Definition received_discard (p : PoolRef) (d : Z) (c : Claim) : prog S (option (result H AdoptError)) :=
  do item <- on_queue d (item c);
  match item with
  | None => Ret None
  | Some t =>
    do allocation <- on_pool (takeover p (token t));
    match allocation with
    | None => Ret None
    | Some (Err error) => Ret (Some (Err error))
    | Some (Ok allocation) =>
      do taken <- on_queue d (take c);
      do dropped <- on_pool (drop_allocation p allocation);
      Ret (match dropped with None => None | Some _ => (λ t, Ok (token_header t)) <$> taken end)
    end
  end.

(** [Received::type_id] *)
Definition received_type_id (d : Z) (c : Claim) : prog S (option Z) :=
  do item <- on_queue d (item c); Ret ((λ t, tok_id (token t)) <$> item).

(** [Received::admit]: the header of an encoded message is not handed out. *)
Definition received_admit (p : PoolRef) (d : Z) (c : Claim) (s : Shape) (expected : Z)
    : prog S (option (result claimed AdoptError)) :=
  do r <- received_adopt p d c s expected;
  Ret (match r with
       | None => None
       | Some (Err error) => Some (Err error)
       | Some (Ok (_, block)) => Some (Ok block)
       end).
End Transfers.
