(* ===== verification/TransferSeq.v ===== *)
(** * Transfers run by one caller at a time

    Blocks travel through a channel as entries of two FIFOs: each is held by one
    role, or on its way in one direction, and never both or twice. *)

From S2P Require Import Prelude Atomic Alloc Bytes Schema Header Mem Heap Dir Queue QueueInv QueueConc QueueFifo QueueSeq.
From S2P Require Import Token Pool PoolOps PoolConc PoolSeq Channel ChannelGeo Duplex DuplexSeq DuplexClose Transfer.

(** ** Claiming an entry *)

Section Claim.
Context {V X : Type} (cap : nat) (r : Role) (Hfit : role_fits cap r).

(** What [Rx::claim] answers, and the duplex once the entry is taken. *)
Definition aclaim (d : Z) (a : aduplex V) : result V ReceiveError * aduplex V :=
  if negb (fstate (ad_life a) (route_recv_field d) =? 0) then (Err ReceiveClosed, a) else
  match ad_items d a with
  | [] => let '(b, q) := aterminal (route_send_field d) (route_recv_field d) (dir_of d a) in (Err (if b then ReceiveClosed else ReceiveEmpty), ad_put d q a)
  | None :: l => (Err ReceiveBusy, ad_put d (mkA l (ad_life a)) a)
  | Some v :: l => (Ok v, ad_put d (mkA l (ad_life a)) a)
  end.

(** [c] is the claim of [v], taking which leads from [dx] to [dx']. *)
Definition claims_item (d : Z) (c : Claim) (v : V) (dx dx' : Duplex V) : Prop :=
  ∀ x : X, run (on_queue d (item c)) (dx, x) = (Some v, (dx, x)) ∧ run (on_queue d (Queue.take c)) (dx, x) = (Some v, (dx', x)).

Lemma put_queue_same d (dx : Duplex V) : put_queue d (queue_of d dx) dx = dx.
Proof using. destruct dx as [? ? [] []]. unfold put_queue, queue_of, half_at. cbn. by destruct (d =? 0). Qed.

Lemma run_rx_claim d (dx : Duplex V) (x : X) a : drep cap dx a →
  let '(res, a') := aclaim d a in
  ∃ dx', drep cap dx' a' ∧ dx_roles dx' = dx_roles dx ∧
  match res with
  | Err e => run (rx_claim r d) (dx, x) = (Some (Err e), (dx', x))
  | Ok v => ∃ c dx1, run (rx_claim r d) (dx, x) = (Some (Ok c), (dx1, x)) ∧ claims_item d c v dx1 dx'
  end.
Proof using Hfit.
  intros Ha. unfold aclaim, rx_claim. rewrite run_bind. destruct (Z.eqb_spec (fstate (ad_life a) (route_recv_field d)) 0) as [Hrf|Hrf]; cbn [negb].
  2: { rewrite (run_claim_closed cap r d dx x a Ha Hrf). by exists dx. }
  destruct (ad_items d a) as [|[v|] l] eqn:Hit.
  - destruct (endpoint_fits cap r d Hfit) as [Hok ->]. destruct (drep_at _ _ _ d Ha) as [h Hq]. rewrite run_dir, (run_claim_empty _ _ _ _ Hok 0 _ _ _ Hq) by done.
    cbn [fst snd]. rewrite put_queue_same, run_bind, run_dir. destruct (run_terminal _ _ _ _ Hok 0 _ _ _ Hq) as (q' & -> & Hq').
    destruct (aterminal _ _ _) as [b q]. cbn [fst snd run] in *. eexists. split_and!; [by eapply drep_put|apply put_queue_roles|done].
  - destruct (run_drain_claim cap r Hfit d dx x a _ _ Ha Hit Hrf) as (c & dx1 & dx' & E & R1 & Ev & Et & Ha' & R').
    exists dx'. split_and!; [done|done|]. exists c, dx1. rewrite E. split; [done|]. intros y. split; [|apply Et].
    rewrite run_dir. unfold item. cbn [run read_value fst snd]. by rewrite put_queue_same, Ev.
  - destruct (run_drain_claim cap r Hfit d dx x a _ _ Ha Hit Hrf) as (dx' & E & Ha' & R'). exists dx'. rewrite E. by split_and!.
Qed.

(** Reserving an entry for [v], then writing and publishing it. *)
Lemma run_tx_reserve d (dx : Duplex V) (x : X) a v : drep cap dx a →
  match areserve (route_send_field d) (route_recv_field d) cap (Some v) (dir_of d a) with
  | (Err e, _) => run (on_queue d (reserve (endpoint_of r d))) (dx, x) = (Some (Err e), (dx, x))
  | (Ok _, q) => ∃ i dx0 dx1 dx', run (on_queue d (reserve (endpoint_of r d))) (dx, x) = (Some (Ok i), (dx0, x)) ∧
      run (on_queue d (stage i v)) (dx0, x) = (tt, (dx1, x)) ∧ (∀ y : X, run (on_queue d (publish i)) (dx1, y) = (tt, (dx', y))) ∧
      drep cap dx' (ad_put d q a) ∧ dx_roles dx' = dx_roles dx
  end.
Proof using Hfit.
  intros Ha. destruct (endpoint_fits cap r d Hfit) as [Hok ->]. destruct (drep_at _ _ _ d Ha) as [h Hq]. rewrite run_dir.
  pose proof (run_reserve _ _ _ _ Hok 0 _ _ _ Hq) as Hres. cbv zeta in Hres.
  destruct (reserve_spec_seq _ _ _ _ Hok 0 _ h _ (Some v) (λ i, do _ <- stage i v; do _ <- publish i; Ret RUnit) RUnit Hq) as (q' & Hq').
  { intros i q' Hi. eexists. split_and!; [|..].
    - rewrite run_bind, run_stage by done. cbn. unfold store_control. rewrite QueueSeq.slot_at_set by done. by rewrite set_slot_twice.
    - done.
    - done.
    - done. }
  unfold areserve in *. destruct (negb _); [rewrite Hres; cbn [fst snd]; by rewrite put_queue_same|].
  case_bool_decide; [rewrite Hres; cbn [fst snd]; by rewrite put_queue_same|]. destruct Hq' as [(i & q0 & E0 & E1) Hrep]. rewrite E0. cbn [fst snd].
  rewrite !run_bind in E1. destruct (run (stage i v) q0) as [[] q1] eqn:Es. rewrite run_bind in E1. destruct (run (publish i) q1) as [[] q2] eqn:Ep. cbn [run] in E1. injection E1 as <-.
  exists i. eexists _, (put_queue d q1 dx), (put_queue d q2 dx). split; [done|]. rewrite run_dir, queue_of_put, Es. cbn [fst snd]. rewrite put_queue_twice. split; [done|].
  split; [intros y; rewrite run_dir, queue_of_put, Ep; cbn [fst snd]; by rewrite put_queue_twice|]. split; [by eapply drep_put|apply put_queue_roles].
Qed.
End Claim.

(** ** Blocks and their control words *)

(** A block, and what its control word says of it. *)
Record blk := mkBlk { b_class : Z; b_slot : Z; b_generation : Z; b_auth : auth }.

Definition b_span (b : blk) : Z * Z := (b_class b, b_slot b).

Section Blocks.
Context (g : Geometry).

Record blk_ok (W : words) (b : blk) : Prop := {
  bo_class : ∃ class, classes g !! Z.to_nat (b_class b) = Some class ∧ b_slot b < slots class;
  bo_nonneg : 0 ≤ b_class b ∧ 0 ≤ b_slot b;
  bo_generation : 1 ≤ b_generation b ≤ MAX_GENERATION;
  bo_auth : auth_ok (b_auth b) ∧ b_auth b ≠ Free;
  bo_word : word_at W (b_class b) (b_slot b) = PoolConc.enc (b_generation b) (b_auth b);
}.

(** Different blocks, each with the word that says so. *)
Definition words_ok (W : words) (bs : list blk) : Prop := Forall (blk_ok W) bs ∧ NoDup (b_span <$> bs).

#[export] Instance words_ok_proper W : Proper ((≡ₚ) ==> iff) (words_ok W).
Proof using. intros bs bs' E. unfold words_ok. by rewrite E. Qed.

Lemma blk_word_nonzero W b : blk_ok W b → word_at W (b_class b) (b_slot b) ≠ 0.
Proof using.
  intros [_ _ Hg [Ha Hf] ->] E. apply (f_equal State_allocated) in E. rewrite enc_allocated in E by done. by destruct (b_auth b).
Qed.

Lemma word_set_blk W b v c s : blk_ok W b → 0 ≤ c → 0 ≤ s →
  word_at (set_word W (b_class b) (b_slot b) v) c s = if decide ((c, s) = b_span b) then v else word_at W c s.
Proof using.
  intros Hb Hc Hs. pose proof (blk_word_nonzero W b Hb). destruct (bo_nonneg _ _ Hb). rewrite word_set by (done || by left).
  destruct b as [c' s' gen au]. unfold b_span. cbn [b_class b_slot]. repeat case_decide; try done; naive_solver.
Qed.

(** Writing the word of one block leaves the others alone. *)
Lemma words_ok_drop W b bs v : words_ok W (b :: bs) → words_ok (set_word W (b_class b) (b_slot b) v) bs.
Proof using.
  intros [[Hb Hbs]%Forall_cons [Hno Hnd]%NoDup_cons]. split; [|done]. apply Forall_forall. intros b' Hb'. pose proof (proj1 (Forall_forall _ _) Hbs b' Hb') as [Hc Hn Hg Ha Hw].
  split; [done..|]. rewrite (word_set_blk W b) by (done || apply Hn). rewrite decide_False; [done|]. intros E. apply Hno. fold (b_span b') in E. rewrite <- E. by apply list_elem_of_fmap_2.
Qed.

(** A block changes hands. *)
Lemma words_ok_hand W b bs au : words_ok W (b :: bs) → auth_ok au → au ≠ Free →
  words_ok (set_word W (b_class b) (b_slot b) (PoolConc.enc (b_generation b) au)) (mkBlk (b_class b) (b_slot b) (b_generation b) au :: bs).
Proof using.
  intros Hw Hau Hf. pose proof (words_ok_drop W b bs (PoolConc.enc (b_generation b) au) Hw) as [Hbs _]. destruct Hw as [[Hb _]%Forall_cons Hnd].
  split; [|exact Hnd]. apply Forall_cons. split; [|done]. destruct Hb as [Hc Hn Hg Ha Hw] eqn:E. split; [done..|]. cbn [b_class b_slot b_generation b_auth].
  rewrite (word_set_blk W b) by (done || apply Hn). by rewrite decide_True.
Qed.
End Blocks.

(** ** The abstract world *)

Section World.
Context {H : Type} (cap : nat) (g : Geometry) (id : LayoutId) (role : Z → Role).

(** The pool as the participant of role [i] refers to it. *)
Definition pref (i : Z) : PoolRef := mkPoolRef g id (r_owner (role i)).

(** What is queued in each direction, and the blocks each role holds. *)
Record world := mkWorld { w_queues : aduplex (Token H); w_held : list (Z * Allocation) }.

Definition held_blk (h : Z * Allocation) : blk := mkBlk (al_class h.2) (al_slot h.2) (al_generation h.2) (Local (r_owner (role h.1))).
Definition token_blk (t : PoolToken) : blk := mkBlk (span_class (tok_span t)) (span_slot (tok_span t)) (tok_generation t) Detached.
Definition alloc_of (t : PoolToken) : Allocation := mkAllocation (span_class (tok_span t)) (span_slot (tok_span t)) (tok_generation t) true.

Definition in_flight (a : aduplex (Token H)) : list (Token H) := omap Datatypes.id (ad_left a ++ ad_right a).

Definition blocks (w : world) : list blk := (held_blk <$> w_held w) ++ ((λ t, token_blk (token t)) <$> in_flight (w_queues w)).

(** The duplex and the control words hold the world [w]. *)
Record winv (dx : Duplex (Token H)) (W : words) (w : world) : Prop := {
  wi_rep : drep cap dx (w_queues w);
  wi_words : words_ok g W (blocks w);
  wi_live : Forall (λ h, al_live h.2 = true ∧ (h.1 = 0 ∨ h.1 = 1)) (w_held w);
  wi_pool : Forall (λ t, tok_pool (token t) = id) (in_flight (w_queues w));
}.

(** *** Operations *)

Inductive wop :=
| WSend (i : Z) (a : Allocation) (m : Metadata) (tid : Z) (h : H)
| WAdopt (i : Z) (s : Shape) (expected : Z)
| WDiscard (i : Z).

Inductive wres :=
| ResSend (r : result unit ReserveError)
| ResAdopt (r : result (H * claimed) ReceiveError)
| ResDiscard (r : result H ReceiveError)
| ResRefused (e : AdoptError) (h : option H)
| ResPanic.

(** The transfer of a held block. *)
Definition transfer_of (i : Z) (a : Allocation) (m : Metadata) (tid : Z) (h : H) : Transfer H :=
  mkTransfer a (mkToken (transfer_token (pref i) a m tid) h).

(** A message that cannot be adopted is given back, and discarded. *)
Definition wexec (op : wop) : prog (Duplex (Token H) * words) wres :=
  match op with
  | WSend i a m tid h =>
    do r <- tx_try_send (pref i) (role i) (split_tx (role i)) (transfer_of i a m tid h);
    Ret (match r with
         | Some (Ok _) => ResSend (Ok tt)
         | Some (Err (SendFull _)) => ResSend (Err Full)
         | Some (Err (SendBusy _)) => ResSend (Err Busy)
         | Some (Err (Disconnected _)) => ResSend (Err Closed)
         | None => ResPanic
         end)
  | WAdopt i s expected =>
    do c <- rx_claim (role i) (split_rx (role i));
    match c with
    | None => Ret ResPanic
    | Some (Err e) => Ret (ResAdopt (Err e))
    | Some (Ok c) =>
      do r <- received_adopt (pref i) (split_rx (role i)) c s expected;
      match r with
      | None => Ret ResPanic
      | Some (Ok b) => Ret (ResAdopt (Ok b))
      | Some (Err e) =>
        do r <- received_discard (pref i) (split_rx (role i)) c;
        Ret (match r with Some (Ok h) => ResRefused e (Some h) | Some (Err _) => ResRefused e None | None => ResPanic end)
      end
    end
  | WDiscard i =>
    do c <- rx_claim (role i) (split_rx (role i));
    match c with
    | None => Ret ResPanic
    | Some (Err e) => Ret (ResDiscard (Err e))
    | Some (Ok c) =>
      do r <- received_discard (pref i) (split_rx (role i)) c;
      Ret (match r with Some (Ok h) => ResDiscard (Ok h) | Some (Err e) => ResRefused e None | None => ResPanic end)
    end
  end.

(** The offset of a block's bytes. *)
Definition blk_payload (b : blk) : Z := match classes g !! Z.to_nat (b_class b) with Some class => Class_payload class (b_slot b) | None => 0 end.

(** What a receiver of shape [s] and identity [expected] makes of a message:
    where its bytes are, or why it is not for it. *)
Definition fit (t : PoolToken) (s : Shape) (expected : Z) : result Z AdoptError :=
  if negb (tok_id t =? expected) then Err AdoptType else
  match token_metadata t with
  | None => Err AdoptType
  | Some m =>
    match shape_layout s m with
    | Err _ => Err AdoptType
    | Ok l =>
      if size l =? 0 then Ok (align l) else
      match classes g !! Z.to_nat (span_class (tok_span t)) with
      | Some class => if (size l <=? bytes class) && (align l <=? bytes class) then Ok (blk_payload (token_blk t)) else Err AdoptSpan
      | None => Err AdoptSpan
      end
    end
  end.

(** Two FIFOs of blocks. *)
Definition wspec (op : wop) (w : world) : wres * world :=
  match op with
  | WSend i a m tid h =>
    let d := i in
    let '(r, q) := areserve (route_send_field d) (route_recv_field d) cap (Some (tr_token (transfer_of i a m tid h))) (dir_of d (w_queues w)) in
    (ResSend r, if is_ok r then mkWorld (ad_put d q (w_queues w)) (list_difference (w_held w) [(i, a)]) else w)
  | WAdopt i s expected =>
    let '(r, q) := aclaim (1 - i) (w_queues w) in
    match r with
    | Err e => (ResAdopt (Err e), mkWorld q (w_held w))
    | Ok t =>
      match fit (token t) s expected with
      | Ok at_ => (ResAdopt (Ok (token_header t, (alloc_of (token t), at_))), mkWorld q ((i, alloc_of (token t)) :: w_held w))
      | Err e => (ResRefused e (Some (token_header t)), mkWorld q (w_held w))
      end
    end
  | WDiscard i =>
    let '(r, q) := aclaim (1 - i) (w_queues w) in
    (ResDiscard (match r with Ok t => Ok (token_header t) | Err e => Err e end), mkWorld q (w_held w))
  end.

(** A role sends blocks it holds. *)
Definition wok (op : wop) (w : world) : Prop :=
  match op with
  | WSend i a _ _ _ => (i = 0 ∨ i = 1) ∧ (i, a) ∈ w_held w
  | WAdopt i _ _ | WDiscard i => i = 0 ∨ i = 1
  end.

(** *** The queues *)

Lemma in_flight_put d q a : in_flight (ad_put d q a) ≡ₚ omap Datatypes.id (items q) ++ omap Datatypes.id (ad_items (if d =? 0 then 1 else 0) a).
Proof using. unfold in_flight, ad_put, ad_items. destruct (d =? 0); cbn [Z.eqb ad_left ad_right]; rewrite omap_app; [done|]. by rewrite Permutation_app_comm. Qed.

Lemma in_flight_at d a : in_flight a ≡ₚ omap Datatypes.id (ad_items d a) ++ omap Datatypes.id (ad_items (if d =? 0 then 1 else 0) a).
Proof using. rewrite <- (in_flight_put d (dir_of d a)). unfold in_flight, ad_put, dir_of, ad_items. cbn [items alife]. by destruct (d =? 0). Qed.

Lemma in_flight_push d life a t : in_flight (ad_put d (mkA (ad_items d a ++ [Some t]) life) a) ≡ₚ t :: in_flight a.
Proof using. rewrite in_flight_put, (in_flight_at d a). cbn [items]. rewrite omap_app. cbn [omap list_omap Datatypes.id]. symmetry. rewrite <- app_assoc. apply Permutation_middle. Qed.

Lemma in_flight_pop d life a o l : ad_items d a = o :: l → in_flight a ≡ₚ option_list o ++ in_flight (ad_put d (mkA l life) a).
Proof using. intros E. rewrite in_flight_put, (in_flight_at d a), E. cbn [items]. by destruct o. Qed.

Lemma aterminal_items {V} sf rf (q : aqueue V) : items (aterminal sf rf q).2 = items q.
Proof using.
  unfold aterminal, afinish. repeat (case_match; simplify_eq; try done).
Qed.

(** What a claim leaves in flight. *)
Lemma in_flight_claim d a : in_flight a ≡ₚ match (aclaim d a).1 with Ok t => [t] | Err _ => [] end ++ in_flight (aclaim d a).2.
Proof using.
  unfold aclaim. destruct (negb _); [done|]. destruct (ad_items d a) as [|[t|] l] eqn:E; cbn [fst snd app].
  - pose proof (aterminal_items (route_send_field d) (route_recv_field d) (dir_of d a)) as Ei. destruct (aterminal _ _ _) as [b q]. cbn [fst snd] in *.
    rewrite in_flight_put, Ei. apply in_flight_at.
  - by rewrite (in_flight_pop d (ad_life a) a _ _ E).
  - by rewrite (in_flight_pop d (ad_life a) a _ _ E).
Qed.

(** *** Handing over *)

Context (Hrole : ∀ i, i = 0 ∨ i = 1 → role_fits cap (role i) ∧ r_index (role i) = i).

Lemma role_auth i : i = 0 ∨ i = 1 → auth_ok (Local (r_owner (role i))).
Proof using Hrole. intros Hi. destruct (Hrole i Hi) as [[] _]. done. Qed.

Lemma run_on_pool {A} (p : prog words A) (dx : Duplex (Token H)) W : run (on_pool p) (dx, W) = ((run p W).1, (dx, (run p W).2)).
Proof using. unfold on_pool. rewrite run_on_part; [done|done|by intros []|done]. Qed.

Lemma run_detach i a W bs : i = 0 ∨ i = 1 → al_live a = true → words_ok g W (held_blk (i, a) :: bs) →
  ∃ W' a', run (detach (pref i) a) W = (Some (Ok a'), W') ∧ words_ok g W' (mkBlk (al_class a) (al_slot a) (al_generation a) Detached :: bs).
Proof using Hrole.
  intros Hi Hlive Hw. pose proof (words_ok_hand g W _ bs Detached Hw ltac:(done) ltac:(done)) as Hw'. destruct Hw as [[[[class [Hc _]] _ Hg _ Hword] _]%Forall_cons _].
  cbn [held_blk b_class b_slot b_generation b_auth fst snd] in *. unfold detach. rewrite Hlive. cbn [negb pref pr_geometry pr_owner]. rewrite Hc, enc_local by (by apply role_auth || by split; lia).
  rewrite run_act. unfold cas_word. rewrite Hword, Z.eqb_refl. cbn [fst snd run is_ok]. rewrite enc_detached by (split; lia). eauto.
Qed.

Lemma run_takeover i t W bs : i = 0 ∨ i = 1 → tok_pool t = id → words_ok g W (token_blk t :: bs) →
  ∃ W', run (takeover (pref i) t) W = (Some (Ok (alloc_of t)), W') ∧ words_ok g W' (held_blk (i, alloc_of t) :: bs).
Proof using Hrole.
  intros Hi Hp Hw. pose proof (words_ok_hand g W _ bs (Local (r_owner (role i))) Hw ltac:(by apply role_auth) ltac:(done)) as Hw'.
  destruct Hw as [[[[class [Hc Hs]] _ Hg _ Hword] _]%Forall_cons _]. cbn [token_blk b_class b_slot b_generation b_auth] in *. unfold takeover.
  destruct (Z.eqb_spec (tok_generation t) 0); [lia|]. destruct (Z.ltb_spec MAX_GENERATION (tok_generation t)); [lia|]. cbn [pref pr_id pr_geometry pr_owner].
  rewrite bool_decide_eq_true_2 by done. cbn [negb]. rewrite Hc. destruct (Z.leb_spec (slots class) (span_slot (tok_span t))); [lia|].
  rewrite enc_local by (by apply role_auth || by split; lia). rewrite run_act, enc_detached by (split; lia). unfold cas_word. rewrite Hword, Z.eqb_refl.
  cbn [fst snd run is_ok]. eexists. split; [done|exact Hw'].
Qed.

Lemma run_adopt_id i t s expected W bs : i = 0 ∨ i = 1 → tok_pool t = id → words_ok g W (token_blk t :: bs) →
  match fit t s expected with
  | Ok at_ => ∃ W', run (adopt_id (pref i) s t expected) W = (Some (Ok (alloc_of t, at_)), W') ∧ words_ok g W' (held_blk (i, alloc_of t) :: bs)
  | Err e => run (adopt_id (pref i) s t expected) W = (Some (Err e), W)
  end.
Proof using Hrole.
  intros Hi Hp Hw. destruct (run_takeover i t W bs Hi Hp Hw) as (W' & E & Hw'). unfold fit, adopt_id, blk_payload. destruct (negb _); [done|].
  cbn [token_blk b_class b_slot]. destruct (token_metadata t) as [m|]; [|done]. destruct (shape_layout s m) as [l|]; [|done]. cbn [pref pr_geometry].
  destruct Hw as [[[[class [Hc Hs]] _ Hg _ _] _]%Forall_cons _]. cbn [token_blk b_class b_slot b_generation] in *. rewrite Hc in *.
  destruct (size l =? 0); [exists W'; by rewrite run_bind, E|]. destruct (Z.eqb_spec (tok_generation t) 0); [lia|]. destruct (Z.leb_spec (slots class) (span_slot (tok_span t))); [lia|].
  destruct (Z.ltb_spec (bytes class) (size l)), (Z.leb_spec (size l) (bytes class)); try lia; [done|]. cbn [orb andb].
  destruct (Z.ltb_spec (bytes class) (align l)), (Z.leb_spec (align l) (bytes class)); try lia; [done|]. exists W'. by rewrite run_bind, E.
Qed.

(** Dropping a block frees it. *)
Lemma run_drop i t W bs : i = 0 ∨ i = 1 → words_ok g W (held_blk (i, alloc_of t) :: bs) →
  ∃ W', run (drop_allocation (pref i) (alloc_of t)) W = (Some true, W') ∧ words_ok g W' bs.
Proof using Hrole.
  intros Hi Hw. pose proof (λ v, words_ok_drop g W _ bs v Hw) as Hw'. destruct Hw as [[[[class [Hc _]] _ Hg _ Hword] _]%Forall_cons _].
  cbn [held_blk alloc_of b_class b_slot b_generation b_auth fst snd al_class al_slot al_generation] in *. unfold drop_allocation, release. cbn [alloc_of al_live al_class al_slot al_generation pref pr_geometry pr_owner].
  rewrite Hc, enc_local by (by apply role_auth || by split; lia). rewrite run_act. unfold cas_word. rewrite Hword, Z.eqb_refl. cbn [fst snd run is_ok]. eauto.
Qed.
(** *** One operation *)

(** The blocks of a world without one that is held. *)
Lemma held_split (l : list (Z * Allocation)) x : NoDup l → x ∈ l → l ≡ₚ x :: list_difference l [x].
Proof using.
  induction l as [|y l IH]; intros Hnd Hx; [by apply elem_of_nil in Hx|]. apply NoDup_cons in Hnd as [Hy Hnd]. cbn [list_difference].
  destruct (decide (y = x)) as [->|Hne].
  - case_decide as Hin; [|by destruct Hin; apply list_elem_of_here]. f_equiv. clear -Hy. induction l as [|z l IH]; [done|]. apply not_elem_of_cons in Hy as [Hz Hy]. cbn [list_difference].
    case_decide as Hin; [apply list_elem_of_singleton in Hin; congruence|]. f_equiv. by apply IH.
  - case_decide as Hin; [by apply list_elem_of_singleton in Hin|]. apply elem_of_cons in Hx as [->|Hx]; [done|]. rewrite (IH Hnd Hx) at 1. apply perm_swap.
Qed.

(** The token of a transfer stands for its block. *)
Lemma token_of_alloc i a m tid h : let t := token (tr_token (transfer_of i a m tid h)) in
  token_blk t = mkBlk (al_class a) (al_slot a) (al_generation a) Detached ∧ tok_pool t = id.
Proof using. by destruct m. Qed.

Lemma held_nodup W w : words_ok g W (blocks w) → NoDup (w_held w).
Proof using. intros [_ Hnd]. unfold blocks in Hnd. rewrite fmap_app in Hnd. apply NoDup_app in Hnd as [Hnd _]. do 2 apply NoDup_fmap_1 in Hnd. exact Hnd. Qed.

Lemma sim_send dx W w i a m tid h : winv dx W w → wok (WSend i a m tid h) w →
  ∃ dx' W', run (wexec (WSend i a m tid h)) (dx, W) = ((wspec (WSend i a m tid h) w).1, (dx', W')) ∧ winv dx' W' (wspec (WSend i a m tid h) w).2.
Proof using Hrole.
  intros [Hrep Hwords Hlive Hpool] [Hi Hheld]. destruct (Hrole i Hi) as [Hfit Hidx]. cbn [wexec wspec]. unfold tx_try_send, tx_reserve, split_tx. rewrite Hidx, !run_bind.
  pose proof (run_tx_reserve cap (role i) Hfit i dx W (w_queues w) (tr_token (transfer_of i a m tid h)) Hrep) as Hres. unfold areserve in *.
  destruct (negb _); [rewrite Hres; by exists dx, W|]. case_bool_decide; [rewrite Hres; by exists dx, W|].
  destruct Hres as (j & dx0 & dx1 & dx' & E0 & E1 & E2 & Hrep' & _). rewrite E0. cbn [transfer_stage transfer_publish]. unfold transfer_stage, transfer_publish. rewrite run_bind, E1, !run_bind, run_on_pool.
  pose proof (held_split _ _ (held_nodup _ _ Hwords) Hheld) as Hperm.
  assert (Hb : blocks w ≡ₚ held_blk (i, a) :: (held_blk <$> list_difference (w_held w) [(i, a)]) ++ ((λ t, token_blk (token t)) <$> in_flight (w_queues w))) by (unfold blocks; by rewrite Hperm at 1).
  rewrite Hb in Hwords. pose proof (proj1 (Forall_forall _ _) Hlive _ Hheld) as [Hl _]. destruct (run_detach i a W _ Hi Hl Hwords) as (W' & a' & Ed & Hw'). cbn [tr_allocation transfer_of]. rewrite Ed. cbn [fst snd].
  rewrite run_bind, E2. exists dx', W'. split; [done|]. cbn [fst snd is_ok]. cbn [items dir_of] in Hrep'. split; [exact Hrep'| | |]; cbn [w_queues w_held items dir_of].
  - unfold blocks. cbn [w_queues w_held]. rewrite in_flight_push. cbn [fmap list_fmap]. rewrite <- Permutation_middle, (proj1 (token_of_alloc i a m tid h)). exact Hw'.
  - apply Forall_forall. intros x Hx. apply list_elem_of_difference in Hx as [Hx _]. by apply (proj1 (Forall_forall _ _) Hlive).
  - rewrite in_flight_push. apply Forall_cons. split; [apply token_of_alloc|done].
Qed.

(** The blocks once an entry is claimed. *)
Lemma claim_blocks d w t q : aclaim d (w_queues w) = (Ok t, q) →
  blocks w ≡ₚ token_blk (token t) :: blocks (mkWorld q (w_held w)) ∧ in_flight (w_queues w) ≡ₚ t :: in_flight q.
Proof using.
  intros E. pose proof (in_flight_claim d (w_queues w)) as Hf. rewrite E in Hf. cbn [fst snd app] in Hf. split; [|done].
  unfold blocks. cbn [w_queues w_held]. rewrite Hf. cbn [fmap list_fmap]. by rewrite <- Permutation_middle.
Qed.

Lemma claim_none d w e q dx' W : aclaim d (w_queues w) = (Err e, q) → drep cap dx' q → (∀ dx, winv dx W w → winv dx' W (mkWorld q (w_held w))).
Proof using.
  intros E Hrep dx [_ Hwords Hlive Hpool]. pose proof (in_flight_claim d (w_queues w)) as Hf. rewrite E in Hf. cbn [fst snd app] in Hf.
  split; cbn [w_queues w_held]; [done| |done|by rewrite <- Hf]. unfold blocks in *. cbn [w_queues w_held]. by rewrite <- Hf.
Qed.

(** Discarding the claimed message [t]. *)
Lemma run_discard i d c (t : Token H) dx1 dx' W bs : i = 0 ∨ i = 1 → claims_item (X := words) d c t dx1 dx' → tok_pool (token t) = id → words_ok g W (token_blk (token t) :: bs) →
  ∃ W', run (received_discard (pref i) d c) (dx1, W) = (Some (Ok (token_header t)), (dx', W')) ∧ words_ok g W' bs.
Proof using Hrole.
  intros Hi Hit Hp Hwords. unfold received_discard. destruct (Hit W) as [Ei _]. rewrite run_bind, Ei, run_bind, run_on_pool.
  destruct (run_takeover i (token t) W _ Hi Hp Hwords) as (W1 & Ea & Hw1). rewrite Ea. cbn [fst snd]. destruct (Hit W1) as [_ Et]. rewrite run_bind, Et, run_bind, run_on_pool.
  destruct (run_drop i (token t) W1 _ Hi Hw1) as (W' & Ed & Hw'). rewrite Ed. by exists W'.
Qed.

Lemma sim_adopt dx W w i s expected : winv dx W w → wok (WAdopt i s expected) w →
  ∃ dx' W', run (wexec (WAdopt i s expected)) (dx, W) = ((wspec (WAdopt i s expected) w).1, (dx', W')) ∧ winv dx' W' (wspec (WAdopt i s expected) w).2.
Proof using Hrole.
  intros Hinv Hi. cbn [wok] in Hi. destruct (Hrole i Hi) as [Hfit Hidx]. cbn [wexec wspec]. unfold split_rx. rewrite Hidx, run_bind.
  pose proof (run_rx_claim cap (role i) Hfit (1 - i) dx W _ (wi_rep _ _ _ Hinv)) as Hcl. destruct (aclaim (1 - i) (w_queues w)) as [[t|e] q] eqn:Ecl; destruct Hcl as (dx' & Hrep' & _ & Hcl).
  2: { rewrite Hcl. exists dx', W. split; [done|]. by eapply claim_none. }
  destruct Hcl as (c & dx1 & Ec & Hit). rewrite Ec, run_bind.
  destruct Hinv as [_ Hwords Hlive Hpool]. destruct (claim_blocks _ _ _ _ Ecl) as [Hb Hf]. rewrite Hb in Hwords. rewrite Hf in Hpool. apply Forall_cons in Hpool as [Hp Hpool].
  pose proof (run_adopt_id i (token t) s expected W _ Hi Hp Hwords) as Ha. destruct (run_discard i (1 - i) c t dx1 dx' W _ Hi Hit Hp Hwords) as (Wd & Ed & Hwd).
  unfold received_adopt. destruct (Hit W) as [Ei _]. rewrite run_bind, Ei, run_bind, run_on_pool. destruct (fit (token t) s expected) as [at_|e].
  - destruct Ha as (W' & Ea & Hw'). rewrite Ea. cbn [fst snd]. destruct (Hit W') as [_ Et]. rewrite run_bind, Et.
    exists dx', W'. split; [done|]. split; cbn [w_queues w_held fst snd]; [done|exact Hw'|by apply Forall_cons|done].
  - rewrite Ha. cbn [fst snd run]. rewrite run_bind, Ed. exists dx', Wd. split; [done|]. by split.
Qed.

Lemma sim_discard dx W w i : winv dx W w → wok (WDiscard i) w →
  ∃ dx' W', run (wexec (WDiscard i)) (dx, W) = ((wspec (WDiscard i) w).1, (dx', W')) ∧ winv dx' W' (wspec (WDiscard i) w).2.
Proof using Hrole.
  intros Hinv Hi. cbn [wok] in Hi. destruct (Hrole i Hi) as [Hfit Hidx]. cbn [wexec wspec]. unfold split_rx. rewrite Hidx, run_bind.
  pose proof (run_rx_claim cap (role i) Hfit (1 - i) dx W _ (wi_rep _ _ _ Hinv)) as Hcl. destruct (aclaim (1 - i) (w_queues w)) as [[t|e] q] eqn:Ecl; destruct Hcl as (dx' & Hrep' & _ & Hcl).
  2: { rewrite Hcl. exists dx', W. split; [done|]. by eapply claim_none. }
  destruct Hcl as (c & dx1 & Ec & Hit). rewrite Ec, run_bind.
  destruct Hinv as [_ Hwords Hlive Hpool]. destruct (claim_blocks _ _ _ _ Ecl) as [Hb Hf]. rewrite Hb in Hwords. rewrite Hf in Hpool. apply Forall_cons in Hpool as [Hp Hpool].
  destruct (run_discard i (1 - i) c t dx1 dx' W _ Hi Hit Hp Hwords) as (W' & Ed & Hw'). rewrite Ed. exists dx', W'. split; [done|]. by split.
Qed.

(** *** Sequences *)

Fixpoint wexec_ops (ops : list wop) : prog (Duplex (Token H) * words) (list wres) :=
  match ops with
  | [] => Ret []
  | op :: ops => do r <- wexec op; do rs <- wexec_ops ops; Ret (r :: rs)
  end.

Fixpoint wspec_ops (ops : list wop) (w : world) : list wres * world :=
  match ops with
  | [] => ([], w)
  | op :: ops => let '(r, w) := wspec op w in let '(rs, w) := wspec_ops ops w in (r :: rs, w)
  end.

Fixpoint woks (ops : list wop) (w : world) : Prop :=
  match ops with
  | [] => True
  | op :: ops => wok op w ∧ woks ops (wspec op w).2
  end.

Lemma sim_ops ops : ∀ dx W w, winv dx W w → woks ops w →
  ∃ dx' W', run (wexec_ops ops) (dx, W) = ((wspec_ops ops w).1, (dx', W')) ∧ winv dx' W' (wspec_ops ops w).2.
Proof using Hrole.
  induction ops as [|op ops IH]; intros dx W w Hinv Hok; cbn [wexec_ops wspec_ops]; [by exists dx, W|]. destruct Hok as [Hop Hok].
  assert (Hs : ∃ dx' W', run (wexec op) (dx, W) = ((wspec op w).1, (dx', W')) ∧ winv dx' W' (wspec op w).2) by (destruct op; [by apply sim_send|by apply sim_adopt|by apply sim_discard]).
  destruct Hs as (dx1 & W1 & E1 & Hinv1). rewrite run_bind, E1. destruct (wspec op w) as [r w1]. cbn [fst snd] in *.
  destruct (IH dx1 W1 w1 Hinv1 Hok) as (dx2 & W2 & E2 & Hinv2). rewrite run_bind, E2. destruct (wspec_ops ops w1) as [rs w2]. by exists dx2, W2.
Qed.
End World.

(** C11: blocks of a pool travel through a channel as entries of two FIFOs.  For
    every sequence in which the two roles send blocks they hold, receive messages
    as values of any type and discard messages: nothing panics; a send answers as
    the bounded queue does and on success gives the block away; a receiver gets the
    very block of the oldest message, with its header and where its bytes are, when
    the identity, the shape and the size fit, and the error [adopt] has for the
    first that does not otherwise, after which the message it is given back can be
    discarded; a discard frees the block; and after every sequence each block is
    held by exactly one role or queued exactly once, with the control word that
    says so. *)
Theorem transfers_refine {H} cap g id role (ops : list (wop (H := H))) dx W w :
  (∀ i, i = 0 ∨ i = 1 → role_fits cap (role i) ∧ r_index (role i) = i) → winv cap g id role dx W w → woks cap g id role ops w →
  ∃ dx' W', run (wexec_ops g id role ops) (dx, W) = ((wspec_ops cap g id role ops w).1, (dx', W')) ∧ winv cap g id role dx' W' (wspec_ops cap g id role ops w).2.
Proof. intros Hrole Hinv Hok. by apply sim_ops. Qed.

(** A pool of four blocks, two of them held. *)
Definition demo_geometry4 : Geometry := mkGeometry (mkLayout 640 64) [mkClass 64 4 320 384].
Definition demo_pool_words : words := [[PoolConc.enc 1 (Local 7); PoolConc.enc 1 (Local 8); 0; 0]].
Definition demo_blocks : list (Z * Allocation) := [(0, mkAllocation 0 0 1 true); (1, mkAllocation 0 1 1 true)].
Definition demo_pool_id : LayoutId := mkLayoutId (mkRegionId 1 2) 4096.

Lemma demo_world : winv 3 demo_geometry4 demo_pool_id demo_role (Duplex_blank (V := Token Z) 3) demo_pool_words (mkWorld (mkAD [] [] 0) demo_blocks).
Proof.
  split.
  - apply (blank_two 3); [lia|done].
  - split; [|by_eval]. repeat (apply Forall_cons; split); [..|apply Forall_nil_2]; (split; [eexists; split; [reflexivity|reflexivity]|by_eval|by_eval|split; [apply (role_auth 3 demo_role); [intros i Hi; split; [apply demo_role_fits; lia|reflexivity]|by auto]|done]|reflexivity]).
  - by_eval.
  - apply Forall_nil_2.
Qed.

(** A block sent to and fro, and discarded at the end; and one too small for what
    the receiver takes it for. *)
Definition demo_transfers : list (wop (H := Z)) :=
  [WSend 0 (mkAllocation 0 0 1 true) Sized 77 5; WAdopt 1 (Value (mkLayout 48 8)) 77; WSend 1 (mkAllocation 0 0 1 true) (Slice 2) 78 6; WDiscard 0; WDiscard 0;
   WSend 1 (mkAllocation 0 1 1 true) (Slice 9) 78 4; WAdopt 0 (Values (mkLayout 8 8)) 78].

Lemma transfers_refine_witness : ∃ dx' W',
  run (wexec_ops demo_geometry4 demo_pool_id demo_role demo_transfers) (Duplex_blank (V := Token Z) 3, demo_pool_words) =
    ([ResSend (Ok tt); ResAdopt (Ok (5, (mkAllocation 0 0 1 true, 384))); ResSend (Ok tt); ResDiscard (Ok 6); ResDiscard (Err ReceiveEmpty);
      ResSend (Ok tt); ResRefused AdoptSpan (Some 4)], (dx', W')).
Proof.
  destruct (transfers_refine 3 demo_geometry4 demo_pool_id demo_role demo_transfers (Duplex_blank (V := Token Z) 3) demo_pool_words (mkWorld (mkAD [] [] 0) demo_blocks)) as (dx' & W' & E & _).
  - intros i Hi. split; [apply demo_role_fits; lia|reflexivity].
  - exact demo_world.
  - cbn [woks demo_transfers]. split_and!; cbn [wok]; first [left; reflexivity|right; reflexivity|by_eval|vm_compute; reflexivity|exact I].
  - exists dx', W'. exact E.
Defined.
