(* ===== verification/Session.v ===== *)
(** * Sessions

    Models [src/src/session.rs] on the directory, the heap, the root header and
    the layouts behind the directory: creating, adopting and removing a channel,
    and reaping a dead participant.  The memory the layouts' bodies live in is a
    state of its own; how it is reached is an argument. *)

From S2P Require Import Prelude Atomic Alloc Bytes Schema Header Mem Heap TalcGeo Talc TalcInit TalcSpec HeapConc Dir.
From S2P Require Import Queue Channel Duplex.

(** ** Errors *)

Inductive ChannelCreateError := InvalidCapacity | Exhausted.

(** [session::AdmitError]; each case hands the port back. *)
Inductive ChannelAdmitError :=
| AdmitWrongRegion (p : Port) | AdmitStale (p : Port) | AdmitOccupied (p : Port)
| AdmitTerminal (p : Port) | AdmitOrphaned (p : Port) | AdmitOpen (p : Port).

(** [RemoveError]; each case hands the channel back. *)
Inductive RemoveError := RemoveBusy | RemoveEvidence.

(** The match of [Session::adopt] on a refusal. *)
Definition role_admit_error (port : Port) (e : RoleAdmitError) : ChannelAdmitError :=
  match e with
  | RoleStale => AdmitStale port
  | RoleOccupied => AdmitOccupied port
  | RoleTerminal => AdmitTerminal port
  | RoleOrphaned => AdmitOrphaned port
  | RoleOpen => AdmitOpen port
  end.

(** ** State *)

(** What a session reaches: the directory with the heap behind it, the
    membership word of the heap's header, the header of the directory, the root,
    and the bodies of the layouts. *)
Record session (H D B : Type) `{SharedLayout D} := mkSession {
  ss_world : world H;
  ss_heap_members : Z;
  ss_header : RcHeader D;
  ss_root : Root;
  ss_bodies : B;
}.
Arguments mkSession {H D B _}. Arguments ss_world {H D B _}. Arguments ss_heap_members {H D B _}.
Arguments ss_header {H D B _}. Arguments ss_root {H D B _}. Arguments ss_bodies {H D B _}.

Section Session.
Context {H D B : Type} `{HO : HeapOps H} `{HD : SharedLayout D}.
(** The caller's view, as in [Dir]. *)
Context (rg : Region) (heap_base : Z) (heap_region : RegionId) (usable_lower usable_length : Z).
Abbreviation S := (session H D B).

Definition on_dir {A} (p : prog (world H) A) : prog S A :=
  on_part ss_world (λ w s, mkSession w (ss_heap_members s) (ss_header s) (ss_root s) (ss_bodies s)) p.

(** The heap's handle shares the mutation word and the heap with the
    directory. *)
Definition on_heap {A} (p : prog (shared H) A) : prog S A :=
  on_part (λ s, mkShared (w_mutation (ss_world s)) (ss_heap_members s) (w_heap (ss_world s)))
    (λ h s, let w := ss_world s in
       mkSession (mkWorld (w_dir w) (w_slabs w) (w_headers w) (sh_mutation h) (sh_heap h)) (sh_members h)
         (ss_header s) (ss_root s) (ss_bodies s)) p.

Definition on_dir_header {A} (p : prog (RcHeader D) A) : prog S A :=
  on_part ss_header (λ h s, mkSession (ss_world s) (ss_heap_members s) h (ss_root s) (ss_bodies s)) p.

Definition on_root {A} (p : prog Root A) : prog S A :=
  on_part ss_root (λ r s, mkSession (ss_world s) (ss_heap_members s) (ss_header s) r (ss_bodies s)) p.

(** ** Recovery *)

(** [RecoveryHandler] *)
Record RecoveryHandler := mkHandler {
  rh_schema : SchemaKey;
  rh_profile : AbiProfile;
  rh_run : Id → RecordedLayout → Z → Z → prog S (option bool);
}.

(** [RecoveryHandler::of] of a layout [T] whose [Layout::recover] is
    [recover]. *)
Definition handler_of {T} `{HT : SharedLayout T} (on_header : ∀ A, Z → prog (RcHeader T) A → prog S A)
    (recover : Info → Z → Z → Z → prog S (option bool)) : RecoveryHandler :=
  mkHandler (SCHEMA (T := T)) NATIVE (recover_layout rg (@on_dir) on_header recover).

Definition handles (recorded : RecordedLayout) (h : RecoveryHandler) : bool :=
  bool_decide (rh_schema h = rl_schema recorded) && bool_decide (rh_profile h = rl_profile recorded).

(** The visitor of [Session::scan_recovery]: exactly one handler has to match. *)
Definition recover_visit (handlers : list RecoveryHandler) (dead live : Z) (id : Id) (recorded : RecordedLayout)
    : prog S (option bool) :=
  match List.filter (handles recorded) handlers with
  | [h] => rh_run h id recorded dead live
  | _ => Ret (Some false)
  end.

(** [Session::scan_recovery]; [handlers] are the built-in ones and the
    caller's. *)
Definition scan_recovery (handlers : list RecoveryHandler) (fuel : nat) (dead live : Z) : prog S (option bool) :=
  do r <- scan rg (@on_dir) (recover_visit handlers dead live) fuel;
  Ret (match r with
       | None => None
       | Some (Ok complete) => Some complete
       | Some (Err _) => Some false
       end).

(** The end of [Recovery::reap_with], the transaction settled. *)
Definition reap_settled (handlers : list RecoveryHandler) (fuel : nat) (member : Member) : prog S (option bool) :=
  let dead := member_slot member in
  let live := member_slot (rg_member rg) in
  do finished <- on_heap (finish_recovery dead);
  if negb finished then Ret (Some false) else
  do first <- scan_recovery handlers fuel dead live;
  match first with
  | Some true =>
    do second <- scan_recovery handlers fuel dead live;
    match second with
    | Some true =>
      do _ <- on_dir_header (recover_member dead);
      do member_left <- on_dir_header (has_member dead);
      if member_left then Ret (Some false) else
      do released <- on_root (release_dead member);
      Ret (Some released)
    | second => Ret second
    end
  | first => Ret first
  end.

(** [Recovery::reap_with]: whether the participant was reaped; otherwise the
    authority is handed back. *)
Definition reap_with (debug : bool) (handlers : list RecoveryHandler) (fuel : nat) (member : Member)
    : prog S (option bool) :=
  if bool_decide (member = rg_member rg) then Ret (Some false) else
  let dead := member_slot member in
  do owner <- on_dir transaction_owner;
  match owner with
  | None => reap_settled handlers fuel member
  | Some owner =>
    if negb (owner =? dead) then Ret (Some false) else
    do r <- on_dir (recover rg heap_base heap_region debug fuel dead);
    match r with
    | None => Ret None
    | Some (Err _) => Ret (Some false)
    | Some (Ok _) => reap_settled handlers fuel member
    end
  end.

(** [Session::assume_dead] *)
Definition assume_dead (peer : Member) : prog S (option Member) := on_root (Region_mark_dead peer).

(** ** Channels *)

Section Channels.
Context {V X : Type} (token : SchemaKey) (header slot body : Layout).
(** The duplex of an identifier with the state tokens are released on, and the
    header at an offset. *)
Context (on_duplex : ∀ A, Id → prog (Duplex V * X) A → prog S A).
Arguments on_duplex {A}.

#[local] Instance duplex_layout : SharedLayout (Duplex V) := Duplex_Layout V header slot body token.
Context (on_header : ∀ A, Z → prog (RcHeader (Duplex V)) A → prog S A).
Arguments on_header {A}.

(** [Session::create_channel]; [zeroed] is a header of zero bytes. *)
Definition create_channel (zeroed : RcHeader (Duplex V)) (fuel : nat) (capacity : Z)
    : prog S (option (result (Role * Port) ChannelCreateError)) :=
  match duplex_geometry header slot capacity with
  | Err _ => Ret (Some (Err InvalidCapacity))
  | Ok g =>
    do created <- on_dir (create_in rg heap_base heap_region zeroed fuel capacity (dg_layout g));
    match created with
    | None => Ret None
    | Some (Err _) => Ret (Some (Err Exhausted))
    | Some (Ok inner) =>
      let id := mkChannelId inner capacity in
      do c <- on_duplex inner (on_roles (creator g id (member_slot (rg_member rg))));
      Ret (Some (Ok (c.1, mkPort id 1 c.2)))
    end
  end.

(** [Session::adopt]: a refused channel drops its mapping, which leaves the header. *)
Definition session_adopt (port : Port) : prog S (option (result Role ChannelAdmitError)) :=
  let inner := ch_inner (port_id port) in
  if negb (bool_decide (id_region inner = rg_region rg)) then Ret (Some (Err (AdmitWrongRegion port))) else
  do opened <- open rg (@on_dir) (@on_header) inner (ch_capacity (port_id port) : Config (T := Duplex V));
  match opened with
  | None => Ret None
  | Some (Err _) => Ret (Some (Err (AdmitOpen port)))
  | Some (Ok offset) =>
    do capacity <- on_header offset (act i <- (λ h, (h_info h, h)); Ret i);
    do r <- on_duplex inner (on_roles (adopt header slot rg (map_start (rg_map rg) + offset) capacity (member_slot (rg_member rg)) port));
    match r with
    | Ok role => Ret (Some (Ok role))
    | Err e => do _ <- on_header offset (leave (member_slot (rg_member rg))); Ret (Some (Err (role_admit_error port e)))
    end
  end.

(** [Session::remove] of the channel of role [r], mapped at [offset]; [unique]
    is whether this is its only handle. *)
Definition remove (release : V → X → bool * X) (r : Role) (offset : Z) (unique : bool) (attempts : list bool) (fuel : nat)
    : prog S (option (result unit RemoveError)) :=
  let inner := ch_inner (r_id r) in
  if negb unique then Ret (Some (Err RemoveBusy)) else
  do matches <- on_dir (id_matches rg inner (mkLayoutId (rg_region rg) offset));
  if negb matches then Ret (Some (Err RemoveBusy)) else
  do closed <- on_duplex inner (close_with release r attempts fuel);
  match closed with
  | None => Ret None
  | Some (Err CloseBusy) => Ret (Some (Err RemoveBusy))
  | Some (Err CloseEvidence) => Ret (Some (Err RemoveEvidence))
  | Some (Ok _) =>
    do unowned <- on_duplex inner (on_roles (peer_is_unowned r));
    if negb unowned then Ret (Some (Err RemoveBusy)) else
    do parts <- on_duplex inner (on_roles (into_closed r unique));
    if negb parts then Ret (Some (Err RemoveBusy)) else
    match duplex_geometry header slot (ch_capacity (r_id r)) with
    | Err _ => Ret None
    | Ok g =>
      do removed <- on_dir (remove_in rg heap_base heap_region usable_lower usable_length inner (rg_region rg) offset header (dg_layout g));
      Ret (match removed with
           | None => None
           | Some (Ok _) => Some (Ok tt)
           | Some (Err _) => Some (Err RemoveBusy)
           end)
    end
  end.
End Channels.
End Session.
