(* ===== verification/SessionSafe.v ===== *)
(** * What a session guarantees

    A removal frees the storage of a channel only once the channel is closed and
    nobody owns a role of it; a participant is reaped only once nothing that is
    published is held by it any more. *)

From S2P Require Import Prelude Atomic Alloc Bytes Schema Header HeaderConc Mem Heap TalcGeo Talc TalcInit TalcSpec HeapConc Dir DirWalk.
From S2P Require Import Channel ChannelGeo Queue QueueInv QueueConc QueueFifo QueueSeq Duplex DuplexSeq DuplexClose Session.

(** ** Parts of a session *)

Section Parts.
Context {H D B : Type} `{HO : HeapOps H} `{HD : SharedLayout D}.
Abbreviation S := (session H D B).

Definition with_world (w : world H) (s : S) : S := mkSession w (ss_heap_members s) (ss_header s) (ss_root s) (ss_bodies s).
Definition with_bodies (b : B) (s : S) : S := mkSession (ss_world s) (ss_heap_members s) (ss_header s) (ss_root s) b.

Lemma run_on_dir {A} (p : prog (world H) A) (s : S) : run (on_dir p) s = ((run p (ss_world s)).1, with_world (run p (ss_world s)).2 s).
Proof using. unfold on_dir. rewrite run_on_part; [done|done|by intros []|done]. Qed.

Lemma run_on_dir_header {A} (p : prog (RcHeader D) A) (s : S) :
  run (on_dir_header p) s = ((run p (ss_header s)).1, mkSession (ss_world s) (ss_heap_members s) (run p (ss_header s)).2 (ss_root s) (ss_bodies s)).
Proof using. unfold on_dir_header. rewrite run_on_part; [done|done|by intros []|done]. Qed.

Lemma run_on_root {A} (p : prog Root A) (s : S) :
  run (on_root p) s = ((run p (ss_root s)).1, mkSession (ss_world s) (ss_heap_members s) (ss_header s) (run p (ss_root s)).2 (ss_bodies s)).
Proof using. unfold on_root. rewrite run_on_part; [done|done|by intros []|done]. Qed.

Lemma run_on_heap {A} (p : prog (shared H) A) (s : S) :
  let h := mkShared (w_mutation (ss_world s)) (ss_heap_members s) (w_heap (ss_world s)) in
  let w := ss_world s in
  run (on_heap p) s = ((run p h).1, mkSession (mkWorld (w_dir w) (w_slabs w) (w_headers w) (sh_mutation (run p h).2) (sh_heap (run p h).2))
    (sh_members (run p h).2) (ss_header s) (ss_root s) (ss_bodies s)).
Proof using. unfold on_heap. rewrite run_on_part; [done|by intros [] []|by intros [[] ?]|done]. Qed.

Lemma run_reads_dir {A} (p : prog (world H) A) (s : S) : reads p → run (on_dir p) s = ((run p (ss_world s)).1, s).
Proof using. intros Hp. rewrite run_on_dir, (reads_run p) by done. by destruct s. Qed.
End Parts.

(** ** Removal *)

Section Remove.
Context {H D V X : Type} `{HO : HeapOps H} `{HD : SharedLayout D}.
Context (rg : Region) (heap_base : Z) (heap_region : RegionId) (usable_lower usable_length : Z) (header slot : Layout).
Abbreviation S := (session H D (Duplex V * X)).

(** The one channel of the session. *)
Definition on_channel A (_ : Id) (p : prog (Duplex V * X) A) : prog S A := on_part ss_bodies (λ b s, with_bodies b s) p.

Lemma run_on_channel {A} id (p : prog (Duplex V * X) A) (s : S) : run (on_channel A id p) s = ((run p (ss_bodies s)).1, with_bodies (run p (ss_bodies s)).2 s).
Proof using. unfold on_channel. rewrite run_on_part; [done|done|by intros []|done]. Qed.

(** The role of [r] is closed and nobody owns the other one. *)
Definition channel_over (r : Role) (s : S) : Prop :=
  let w := dx_roles (ss_bodies s).1 in
  (RoleWord_parts (role_at (r_index r) w)).1.2 = None ∧ (RoleWord_parts (role_at (r_index r) w)).2 = true ∧ (RoleWord_parts (role_at (1 - r_index r) w)).1.2 = None.

Lemma run_read_roles {A} id (p : prog roles A) (s : S) : reads p → run (on_channel A id (on_roles p)) s = ((run p (dx_roles (ss_bodies s).1)).1, s).
Proof using.
  intros Hp. rewrite run_on_channel. destruct s as [w m h ro [dx x]]. cbn [ss_bodies fst snd]. rewrite run_on_roles, (reads_run p) by done. cbn [fst snd]. unfold with_bodies. cbn. by destruct dx.
Qed.

Lemma reads_peer r : reads (peer_is_unowned r).
Proof using. constructor; [done|]. intros raw. constructor. Qed.

Lemma reads_into_closed r unique : reads (into_closed r unique).
Proof using. constructor; [done|]. intros raw. destruct (RoleWord_parts raw) as [[g o] t]. constructor. Qed.

(** [Session::remove] frees the storage of a channel, or touches the directory
    at all, only when the handle is the only one of its role, the role is closed
    and unowned, and nobody owns the other role; whatever the state of the channel
    was, its tokens included. *)
Theorem remove_after_close (release : V → X → bool * X) r offset unique attempts fuel (s s' : S) res :
  run (remove rg heap_base heap_region usable_lower usable_length header slot on_channel release r offset unique attempts fuel) s = (res, s') →
  ss_world s' ≠ ss_world s ∨ res = Some (Ok tt) → unique = true ∧ channel_over r s'.
Proof using.
  unfold remove. destruct unique; cbn [negb]; [|intros [= <- <-] [?|?]; done]. rewrite run_bind, run_reads_dir by (apply reads_bind; [apply reads_id_offset|intros; constructor]).
  destruct (run (id_matches _ _ _) _).1; cbn [negb]; [|intros [= <- <-] [?|?]; done]. rewrite run_bind, run_on_channel. set (s1 := with_bodies _ s).
  destruct (run (close_with _ _ _ _) _).1 as [[[]|[]]|]; try (intros [= <- <-] [?|?]; done).
  rewrite run_bind, run_read_roles by apply reads_peer. unfold peer_is_unowned. rewrite run_act. cbn [load_role fst snd run].
  case_bool_decide as Hpeer; cbn [negb]; [|intros [= <- <-] [?|?]; done]. rewrite run_bind, run_read_roles by apply reads_into_closed. unfold into_closed. rewrite run_act. cbn [load_role fst snd].
  destruct (RoleWord_parts (role_at (r_index r) (dx_roles (ss_bodies s1).1))) as [[g o] t] eqn:Eown. cbn [run fst].
  destruct (negb (bool_decide (o = None)) || negb t) eqn:Eo; cbn [negb]; [intros [= <- <-] [?|?]; done|]. apply orb_false_iff in Eo as [Eo Et].
  apply negb_false_iff, bool_decide_eq_true in Eo. apply negb_false_iff in Et. destruct (duplex_geometry _ _ _) as [gm|]; [|intros [= <- <-] [?|?]; done].
  rewrite run_bind, run_on_dir. intros [= <- <-] _. split; [done|]. unfold channel_over. cbn [ss_bodies with_world]. rewrite Eown. by subst.
Qed.
End Remove.

(** ** Reaping *)

(** What the handlers of a recovery promise of [clear], which says that a layout
    is no longer held by the dead participant: a handler that answers true has
    cleared its layout, and whatever it answers it undoes no other's work, keeps
    the layouts well-formed and leaves the directory, its header, the heap's
    words and the root alone. *)
Class RecoveryLaws {H D B : Type} `{HO : HeapOps H} `{HD : SharedLayout D}
    (handlers : list (RecoveryHandler (H := H) (D := D) (B := B))) (dead live : Z) (inv : B → Prop) (clear : Id → RecordedLayout → world H → B → Prop) := {
  rl_clear h id recorded s s' : h ∈ handlers → handles recorded h = true → inv (ss_bodies s) →
    run (rh_run h id recorded dead live) s = (Some true, s') → clear id recorded (ss_world s') (ss_bodies s');
  rl_keeps h id recorded s id' recorded' : h ∈ handlers → inv (ss_bodies s) → clear id' recorded' (ss_world s) (ss_bodies s) →
    let s' := (run (rh_run h id recorded dead live) s).2 in clear id' recorded' (ss_world s') (ss_bodies s');
  rl_frame h id recorded s : h ∈ handlers →
    let s' := (run (rh_run h id recorded dead live) s).2 in
    w_dir (ss_world s') = w_dir (ss_world s) ∧ w_slabs (ss_world s') = w_slabs (ss_world s) ∧ w_headers (ss_world s') = w_headers (ss_world s) ∧
    ss_heap_members s' = ss_heap_members s ∧ ss_header s' = ss_header s ∧ ss_root s' = ss_root s ∧ (inv (ss_bodies s) → inv (ss_bodies s'));
}.

Section Reap.
Context {H D B : Type} `{HO : HeapOps H} `{HD : SharedLayout D}.
Context (rg : Region) (heap_base : Z) (heap_region : RegionId).
Context (handlers : list (RecoveryHandler (H := H) (D := D) (B := B))) (dead live : Z) (inv : B → Prop) (clear : Id → RecordedLayout → world H → B → Prop).
Context {HL : RecoveryLaws handlers dead live inv clear}.
Abbreviation S := (session H D B).

(** What a scan leaves alone, and what it does not undo. *)
Record scanned (s s' : S) : Prop := {
  sc_dir : w_dir (ss_world s') = w_dir (ss_world s);
  sc_slabs : w_slabs (ss_world s') = w_slabs (ss_world s);
  sc_headers : w_headers (ss_world s') = w_headers (ss_world s);
  sc_members : ss_heap_members s' = ss_heap_members s;
  sc_header : ss_header s' = ss_header s;
  sc_root : ss_root s' = ss_root s;
  sc_inv : inv (ss_bodies s) → inv (ss_bodies s');
  sc_clear id recorded : inv (ss_bodies s) → clear id recorded (ss_world s) (ss_bodies s) → clear id recorded (ss_world s') (ss_bodies s');
}.

Lemma scanned_refl s : scanned s s.
Proof using. done. Qed.

Lemma scanned_trans s1 s2 s3 : scanned s1 s2 → scanned s2 s3 → scanned s1 s3.
Proof using. intros [] []. split; try congruence; auto. Qed.

Lemma scanned_slab s s' r : scanned s s' → slab_at (ss_world s') r = slab_at (ss_world s) r.
Proof using. intros [Hd Hs _ _ _ _ _ _]. destruct r; cbn; [by rewrite Hd|by rewrite Hs]. Qed.

Lemma scanned_entry s s' r i : scanned s s' → entry_at (ss_world s') r i = entry_at (ss_world s) r i.
Proof using. intros Hs. unfold entry_at. by rewrite (scanned_slab s s'). Qed.

(** The visitor: one handler, or a refusal. *)
Lemma visit_scanned id recorded s : let '(b, s') := run (recover_visit handlers dead live id recorded) s in
  scanned s s' ∧ (inv (ss_bodies s) → b = Some true → clear id recorded (ss_world s') (ss_bodies s')).
Proof using HL.
  unfold recover_visit. destruct (List.filter (handles recorded) handlers) as [|h [|h' l]] eqn:E; [by split..| |by split].
  assert (Hh : h ∈ handlers ∧ handles recorded h = true). { rewrite list_elem_of_In. apply filter_In. rewrite E. by left. }
  destruct Hh as [Hh Hhandles].
  pose proof (rl_frame (inv := inv) (clear := clear) h id recorded s Hh) as Hf. pose proof (λ id' recorded', rl_keeps (inv := inv) (clear := clear) h id recorded s id' recorded' Hh) as Hk. cbv zeta in *.
  destruct (run _ s) as [b s'] eqn:Er. cbn [snd] in *. destruct Hf as (H1 & H2 & H3 & H4 & H5 & H6 & H7). split; [by split|]. intros Hinv ->. by eapply (rl_clear (inv := inv)).
Qed.

(** Published, with the word [word]. *)
Definition published_word (word : Z) : bool := Z.land word STATE_MASK =? PUBLISHED.

Definition id_of (index i word : Z) : Id := mkId (rg_region rg) index i (Z.shiftr word STATE_BITS).

(** What the header behind an entry records. *)
Definition records (w : world H) (r : SlabRef) (i : Z) (recorded : RecordedLayout) : Prop :=
  let offset := (load_offset r i w).1 in
  ∃ address, ref_at rg RECORD_LAYOUT offset = Ok address ∧ recorded_at address (load_record offset w).1 = Ok recorded.

Lemma scanned_records s s' r i recorded : scanned s s' → records (ss_world s') r i recorded ↔ records (ss_world s) r i recorded.
Proof using. intros Hs. unfold records, load_offset, load_record. cbn [fst]. by rewrite (scanned_entry s s' r i Hs), (sc_headers _ _ Hs). Qed.

Abbreviation entries_done r index todo s s' :=
  (∀ i, i ∈ todo → let word := e_state (entry_at (ss_world s) r i) in published_word word = true →
    ∃ recorded, records (ss_world s) r i recorded ∧ clear (id_of index i word) recorded (ss_world s') (ss_bodies s')).

Lemma scan_entries_done r index todo next s s' : inv (ss_bodies s) → run (scan_entries rg (@on_dir _ _ _ _) (recover_visit handlers dead live) r index todo next) s = (Some (Ok true), s') →
  ∃ s1, run next s1 = (Some (Ok true), s') ∧ scanned s s1 ∧ entries_done r index todo s s1.
Proof using HL.
  revert s. induction todo as [|i todo IH]; intros s Hinv; cbn [scan_entries].
  { intros E. exists s. split_and!; [done|done|]. intros i Hi. by apply elem_of_nil in Hi. }
  rewrite run_bind, run_on_dir. cbn [run load_state fst snd]. replace (with_world (ss_world s) s) with s by (by destruct s).
  set (word := e_state (entry_at (ss_world s) r i)).
  assert (Hskip : published_word word = false → run (scan_entries rg (@on_dir _ _ _ _) (recover_visit handlers dead live) r index todo next) s = (Some (Ok true), s') →
    ∃ s1, run next s1 = (Some (Ok true), s') ∧ scanned s s1 ∧ entries_done r index (i :: todo) s s1).
  { intros Hno E. destruct (IH s Hinv E) as (s1 & E1 & Hs1 & Hd). exists s1. split_and!; [done|done|]. intros j [->|Hj]%elem_of_cons; [|by apply Hd]. cbv zeta. fold word. by rewrite Hno. }
  destruct (Z.eqb_spec (Z.land word STATE_MASK) PUBLISHED) as [Hp|Hp].
  - rewrite Hp. cbn [Z.eqb PUBLISHED VACANT QUARANTINED Pos.eqb orb]. rewrite run_bind, run_on_dir. cbn [run load_offset fst snd]. replace (with_world (ss_world s) s) with s by (by destruct s).
    destruct (ref_at _ _ _) as [address|] eqn:Eaddr; [|done]. rewrite run_bind, run_on_dir. cbn [run load_record fst snd]. replace (with_world (ss_world s) s) with s by (by destruct s).
    destruct (recorded_at _ _) as [recorded|] eqn:Erec; [|done]. destruct (offset_of _ _ _); [|done]. rewrite run_bind.
    pose proof (visit_scanned (id_of index i word) recorded s) as Hv. destruct (run (recover_visit _ _ _ (id_of index i word) recorded) s) as [b s0] eqn:Ev. unfold id_of in Ev. rewrite Ev.
    destruct Hv as [Hs0 Hc0]. destruct b as [[]|]; [|done|done]. intros E. pose proof (sc_inv _ _ Hs0 Hinv) as Hinv0. destruct (IH s0 Hinv0 E) as (s1 & E1 & Hs1 & Hd). exists s1. split_and!; [done|by eapply scanned_trans|].
    intros j [->|Hj]%elem_of_cons; cbv zeta.
    + intros _. exists recorded. split; [by exists address|]. apply (sc_clear _ _ Hs1 _ _ Hinv0). by apply Hc0.
    + rewrite <- (scanned_entry s s0 r j Hs0). intros Hw. destruct (Hd j Hj Hw) as (rec & Hrec & Hcl). exists rec. split; [by apply (scanned_records s s0)|done].
  - assert (Hno : published_word word = false) by (unfold published_word; by apply Z.eqb_neq). destruct ((_ =? VACANT) || _); [by apply Hskip|done].
Qed.
(** Every published entry of the slabs [rs] is clear. *)
Definition all_clear (rs : list SlabRef) (index : Z) (s0 s : S) : Prop :=
  ∀ k r i, rs !! k = Some r → 0 ≤ i < CAPACITY → let word := e_state (entry_at (ss_world s0) r i) in
    published_word word = true → ∃ recorded, records (ss_world s0) r i recorded ∧ clear (id_of (index + Z.of_nat k) i word) recorded (ss_world s) (ss_bodies s).

Lemma chain_scanned s s' r rs : scanned s s' → chain rg (ss_world s) r rs ↔ chain rg (ss_world s') r rs.
Proof using. intros Hs. split; apply chain_links; intros r'; by rewrite (scanned_slab s s'). Qed.

(** Whatever a scan answers, it leaves the directory alone. *)
Lemma scan_entries_frame r index todo next : (∀ s, scanned s (run next s).2) →
  ∀ s, scanned s (run (scan_entries rg (@on_dir _ _ _ _) (recover_visit handlers dead live) r index todo next) s).2.
Proof using HL.
  intros Hnext. induction todo as [|i todo IH]; intros s; cbn [scan_entries]; [apply Hnext|]. rewrite run_bind, run_on_dir. cbn [run load_state fst snd].
  replace (with_world (ss_world s) s) with s by (by destruct s). destruct (_ || _); [apply IH|]. destruct (_ =? PUBLISHED); [|done]. rewrite run_bind, run_on_dir. cbn [run load_offset fst snd].
  replace (with_world (ss_world s) s) with s by (by destruct s). destruct (ref_at _ _ _) as [address|]; [|done]. rewrite run_bind, run_on_dir. cbn [run load_record fst snd].
  replace (with_world (ss_world s) s) with s by (by destruct s). destruct (recorded_at _ _) as [recorded|]; [|done]. destruct (offset_of _ _ _); [|done]. rewrite run_bind.
  match goal with |- context [recover_visit _ _ _ ?id recorded] => pose proof (visit_scanned id recorded s) as Hv; destruct (run (recover_visit _ _ _ id recorded) s) as [b s0] end.
  destruct Hv as [Hs0 _]. destruct b as [[]|]; [|done|done]. eapply scanned_trans; [done|apply IH].
Qed.

Lemma scan_frame fuel : ∀ r index s, scanned s (run (scan_from rg (@on_dir _ _ _ _) (recover_visit handlers dead live) fuel r index) s).2.
Proof using HL.
  induction fuel as [|fuel IH]; intros r index s; cbn [scan_from]; [done|]. apply scan_entries_frame. intros s1. rewrite run_bind, run_reads_dir by apply reads_next_slab.
  destruct (run (next_slab _ _) _).1 as [[r'|]|]; [|done|done]. destruct (_ <? _); [done|apply IH].
Qed.

Lemma scan_recovery_frame fuel s : scanned s (run (scan_recovery rg handlers fuel dead live) s).2.
Proof using HL. unfold scan_recovery. rewrite run_bind. pose proof (scan_frame fuel SRoot 0 s) as Hf. unfold scan. by destruct (run (scan_from _ _ _ _ _ _) s). Qed.

Lemma scan_from_done fuel : ∀ r rs index s s', inv (ss_bodies s) → chain rg (ss_world s) r rs →
  run (scan_from rg (@on_dir _ _ _ _) (recover_visit handlers dead live) fuel r index) s = (Some (Ok true), s') → scanned s s' ∧ all_clear rs index s s'.
Proof using HL.
  induction fuel as [|fuel IH]; intros r rs index s s' Hinv Hch; cbn [scan_from]; [done|]. intros E. apply scan_entries_done in E as (s1 & E1 & Hs1 & Hd1); [|done]. pose proof (sc_inv _ _ Hs1 Hinv) as Hinv1.
  pose proof (proj1 (chain_scanned _ _ _ _ Hs1) Hch) as Hch1. destruct (run_next_slab rg _ _ _ Hch1) as [En E0]. rewrite run_bind, run_reads_dir, En in E1 by apply reads_next_slab. cbn [fst] in E1.
  assert (Hhead : ∀ s2 i, scanned s1 s2 → 0 ≤ i < CAPACITY → let word := e_state (entry_at (ss_world s) r i) in
    published_word word = true → ∃ recorded, records (ss_world s) r i recorded ∧ clear (id_of (index + Z.of_nat 0) i word) recorded (ss_world s2) (ss_bodies s2)).
  { intros s2 i Hs2 Hi word Hw. rewrite Z.add_0_r. destruct (Hd1 i) as (rec & Hrec & Hcl); [apply elem_of_seqZ; unfold CAPACITY in *; lia|done|].
    exists rec. split; [done|]. by apply (sc_clear _ _ Hs2 _ _ Hinv1). }
  destruct (chain_nonempty _ _ _ _ Hch1) as [rs' ->]. destruct rs' as [|r1 rs']; cbn [lookup list_lookup] in E1.
  - injection E1 as <-. split; [done|]. intros [|k] r' i Hk Hi; [|done]. injection Hk as <-. by apply Hhead.
  - destruct (u32_max <? index + 1); [done|]. destruct (IH r1 (r1 :: rs') (index + 1) s1 s' Hinv1 (chain_tail _ _ _ _ _ Hch1) E1) as [Hs2 Hd2]. split; [by eapply scanned_trans|].
    intros [|k] r' i Hk Hi; cbn [lookup list_lookup] in Hk; [injection Hk as <-; by apply Hhead|]. cbv zeta. rewrite <- (scanned_entry s s1 r' i Hs1).
    intros Hw. destruct (Hd2 k r' i Hk Hi Hw) as (rec & Hrec & Hcl). exists rec. split; [by apply (scanned_records s s1)|]. by replace (index + Z.of_nat (Datatypes.S k)) with (index + 1 + Z.of_nat k) by lia.
Qed.

Lemma scan_recovery_done fuel rs s s' : inv (ss_bodies s) → chain rg (ss_world s) SRoot rs → run (scan_recovery rg handlers fuel dead live) s = (Some true, s') → scanned s s' ∧ all_clear rs 0 s s'.
Proof using HL.
  intros Hinv Hch. unfold scan_recovery. rewrite run_bind. destruct (run (scan _ _ _ _) s) as [res s1] eqn:E. cbn [run]. destruct res as [[[]|]|]; try done. intros [= <-]. by eapply scan_from_done.
Qed.

(** Nothing a session knows of is held by [member] any more, and its place in
    the root was given up in the state [s']. *)
Record reaped (member : Member) (s s' : S) : Prop := {
  rp_layouts rs : chain rg (ss_world s') SRoot rs → all_clear rs 0 s' s';
  rp_heap : Z.land (ss_heap_members s') (slot_bit (member_slot member)) = 0;
  rp_header : Z.land (h_members (ss_header s')) (slot_bit (member_slot member)) = 0;
  rp_root : run (release_dead member) (ss_root s) = (true, ss_root s');
}.

(** A recovery of the heap that succeeds ends the membership. *)
Lemma finish_recovery_member d (h h' : shared H) : run (finish_recovery d) h = (true, h') → Z.land (sh_members h') (slot_bit d) = 0.
Proof using.
  assert (Hf : ∀ h1, run (forget_member d) h1 = (true, h') → Z.land (sh_members h') (slot_bit d) = 0).
  { intros h1. unfold forget_member. rewrite !run_act. cbn [run fst snd]. intros [= E <-]. by apply Z.eqb_eq. }
  unfold finish_recovery. rewrite run_act. cbn [fst snd]. destruct (load_word h).1; [apply Hf| |apply Hf]. destruct (negb _); [done|]. rewrite run_act.
  destruct (poison_word d _).1; [apply Hf|]. rewrite run_act. case_bool_decide; [apply Hf|done].
Qed.

Lemma all_clear_move rs s s' : scanned s s' → all_clear rs 0 s s' → all_clear rs 0 s' s'.
Proof using.
  intros Hs Ha k r i Hk Hi. cbv zeta. rewrite (scanned_entry s s' r i Hs). intros Hw. destruct (Ha k r i Hk Hi Hw) as (rec & Hrec & Hcl).
  exists rec. split; [by apply (scanned_records s s')|done].
Qed.

Lemma reap_settled_done fuel member s s' : member_slot member = dead → member_slot (rg_member rg) = live → inv (ss_bodies s) →
  run (reap_settled rg handlers fuel member) s = (Some true, s') → reaped member s s'.
Proof using HL.
  intros Hdead Hlive Hinv. unfold reap_settled. rewrite run_bind, run_on_heap. cbv zeta. destruct (run (finish_recovery _) _) as [ok h] eqn:Eh. cbn [fst snd].
  destruct ok; cbn [negb]; [|done]. apply finish_recovery_member in Eh. set (s1 := mkSession _ _ _ _ _). rewrite run_bind, Hdead, Hlive in *.
  destruct (run (scan_recovery _ _ _ _ _) s1) as [b1 s2] eqn:E1. destruct b1 as [[]|]; try done. rewrite run_bind. destruct (run (scan_recovery _ _ _ _ _) s2) as [b2 s3] eqn:E2.
  destruct b2 as [[]|]; try done. rewrite run_bind, run_on_dir_header. unfold recover_member. rewrite run_act. cbn [run fetch_and_members fst snd].
  rewrite run_bind, run_on_dir_header. unfold has_member. rewrite run_act. cbn [run load_members fst snd ss_header]. case_match eqn:Em; [done|]. apply negb_false_iff, Z.eqb_eq in Em.
  rewrite run_bind, run_on_root. cbn [ss_root run fst snd]. intros [= Er <-].
  pose proof (scan_recovery_frame fuel s1) as Hs2. rewrite E1 in Hs2. pose proof (scan_recovery_frame fuel s2) as Hs3. rewrite E2 in Hs3. cbn [snd] in *.
  pose proof (scanned_trans _ _ _ Hs2 Hs3) as Hs13. split; cbn [ss_world ss_heap_members ss_header ss_root].
  - intros rs Hch. destruct (scan_recovery_done fuel rs s2 s3 (sc_inv _ _ Hs2 Hinv) (proj2 (chain_scanned _ _ _ _ Hs3) Hch) E2) as [_ Ha]. exact (all_clear_move _ _ _ Hs3 Ha).
  - by rewrite Hdead, (sc_members _ _ Hs13).
  - by rewrite Hdead.
  - rewrite (sc_root _ _ Hs13) in *. cbn [s1 ss_root] in *. destruct (run (release_dead member) (ss_root s)) as [b ro] eqn:Ero. cbn [fst snd] in *. by subst.
Qed.
(** A dead participant is reaped, its place in the root given up for others,
    only when it is not the caller, no other participant's transaction was under
    way, and, in the state left behind, every layout published in the directory
    has been cleared of it by the handler of its schema, and it is a member of
    neither the heap nor the directory. *)
Theorem reap_with_clears debug fuel member (s s' : S) : member_slot member = dead → member_slot (rg_member rg) = live → inv (ss_bodies s) →
  run (reap_with rg heap_base heap_region debug handlers fuel member) s = (Some true, s') →
  member ≠ rg_member rg ∧ (word_owner (transaction (w_dir (ss_world s))) = None ∨ word_owner (transaction (w_dir (ss_world s))) = Some dead) ∧ reaped member s s'.
Proof using HL.
  intros Hdead Hlive Hinv. unfold reap_with. case_bool_decide as Hme; [done|]. rewrite run_bind, run_reads_dir by (constructor; [done|intros; constructor]).
  unfold transaction_owner. rewrite run_act. cbn [run load_transaction fst snd]. destruct (word_owner (transaction (w_dir (ss_world s)))) as [owner|] eqn:Eo.
  - destruct (Z.eqb_spec owner (member_slot member)) as [->|]; cbn [negb]; [|done]. rewrite run_bind, run_on_dir. destruct (run (recover _ _ _ _ _ _) _) as [res w]. cbn [fst snd].
    destruct res as [[v|]|]; [|done|done]. intros E. split_and!; [done|right; congruence|]. by apply reap_settled_done in E as [].
  - intros E. split_and!; [done|by left|]. by eapply reap_settled_done.
Qed.
End Reap.
