(* ===== verification/SessionOpen.v ===== *)
(** * Opening a session

    Models the construction of a session in [src/src/session.rs] and the parts of
    [src/src/mem.rs] it drives: the admission of the region's root, the headers of
    the directory and the heap placed behind it, and what is given back when a
    step fails. *)

From Stdlib Require Import String.
From S2P Require Import Prelude Atomic Alloc Bytes Schema Header HeaderConc RootConc Mem Heap.
From S2P Require Import TalcGeo Talc TalcHeap TalcInit TalcSpec TalcSafe TalcConf HeapConc Dir.

(** ** Layouts *)

Definition unit_layout : Layout := mkLayout 0 1.
Definition unit_SCHEMA : SchemaKey := mkSchemaKey (schema_id "evering.unit") 1.

(** A word per participant. *)
Definition Root_body : Layout := repr_c (replicate (Z.to_nat PARTICIPANT_CAPACITY) u64_layout).
Definition root_header : Layout := RcHeader_layout unit_layout Root_body.

(** Four words, the pending [Meta], and the first slab. *)
Definition Directory_body : Layout := repr_c [u64_layout; u64_layout; u64_layout; u64_layout; mkLayout 16 8; SLAB_LAYOUT].
Definition dir_header : Layout := RcHeader_layout unit_layout Directory_body.

(** [<Root as Layout>] *)
#[export] Instance Root_Layout : SharedLayout Root := {|
  Config := unit;
  Info := unit;
  SCHEMA := Root_SCHEMA;
  MAGIC := Root_MAGIC;
  INFO_SCHEMA := unit_SCHEMA;
  body_layout := Root_body;
  info_layout := unit_layout;
  header_layout := root_header;
  storage := λ _, Some root_header;
  info := λ _ _, tt;
  init := λ _, Some (Root_init, Initialized);
  attach := λ _ _, Some Initialized;
|}.

(** [<Directory as Layout>]; [uninit] is the pending [Meta] that [init] leaves
    as it is. *)
#[export] Instance Directory_Layout (uninit : Meta) : SharedLayout Directory := {|
  Config := unit;
  Info := unit;
  SCHEMA := Directory_SCHEMA;
  MAGIC := Directory_MAGIC;
  INFO_SCHEMA := unit_SCHEMA;
  body_layout := Directory_body;
  info_layout := unit_layout;
  header_layout := dir_header;
  storage := λ _, Some dir_header;
  info := λ _ _, tt;
  init := λ _, Some (Directory_init uninit, Initialized);
  attach := λ _ _, Some Initialized;
|}.

(** ** The shared area *)

(** The three headers of a session, the heap's at the address [addr] of the
    caller's mapping, over the memory [mem]. *)
Section Area.
Context (uninit : Meta) (addr : Z) (mem : gmap Z Z).
#[local] Instance dir_inst : SharedLayout Directory := Directory_Layout uninit.
#[local] Instance heap_inst : SharedLayout TalckMeta := TalckMeta_Layout addr mem.

Record area := mkArea { ar_root : RcHeader Root; ar_dir : RcHeader Directory; ar_heap : RcHeader TalckMeta }.

Definition on_root_header {A} (p : prog (RcHeader Root) A) : prog area A :=
  on_part ar_root (λ h s, mkArea h (ar_dir s) (ar_heap s)) p.
Definition on_directory {A} (p : prog (RcHeader Directory) A) : prog area A :=
  on_part ar_dir (λ h s, mkArea (ar_root s) h (ar_heap s)) p.
Definition on_heap_header {A} (p : prog (RcHeader TalckMeta) A) : prog area A :=
  on_part ar_heap (λ h s, mkArea (ar_root s) (ar_dir s) h) p.

Definition on_inner {T} `{SharedLayout T} {A} (p : prog T A) : prog (RcHeader T) A := on_part h_inner with_inner p.

(** *** Regions *)

(** [Region::new] *)
Definition region_new (m : Map) (admission : RegionAdmission) : prog (RcHeader Root) (option (result (Region * Z) MemError)) :=
  match reserve m root_header 0 with
  | Err e => Ret (Some (Err e))
  | Ok (at_, offset) =>
    let pointer := map_start m + at_ in
    do region <- match admission with
                 | Create id | Expect id => Ret (Ok id)
                 | Discover => do d <- published_region_at (T := Root) pointer; Ret (ok_or d MemInvalidHeader)
                 end;
    match region with
    | Err e => Ret (Some (Err e))
    | Ok region =>
      match permits m WRITE with
      | Err e => Ret (Some (Err e))
      | Ok _ =>
        do r <- admit_layout (T := Root) pointer tt (mkLayoutContext region 0 (may_init admission)) None;
        match r with
        | Done (Ok _) =>
          do joined <- on_inner join;
          Ret (Some (match joined with
                     | None => Err ParticipantExhausted
                     | Some member => Ok (mkRegion m member region (may_init admission), offset)
                     end))
        | Done (Err e) => Ret (Some (Err (admit_error e)))
        | Unwound | Spinning => Ret None
        end
      end
    end
  end.

(** [Drop for Region]: the participant leaves the root; the mapping goes with
    it. *)
Definition drop_region (rg : Region) : prog area bool := on_root_header (on_inner (Region_detach rg)).

(** *** Composition *)

(** [Build::commit_reserved] with the admission it runs, once nothing stands in
    its way; [None] is a panic of the admission. *)
Definition commit_header {T} `{HT : SharedLayout T} (on : prog (RcHeader T) admission → prog area admission)
    (rg : Region) (conf : Config) (offset next : Z) (b : Build) : prog area (option (result Z MemError * Build)) :=
  match commit_reserved rg header_layout (λ _, Ok tt) offset next b with
  | (Err e, b) => Ret (Some (Err e, b))
  | (Ok _, _) =>
    do r <- on (admit_layout (T := T) (map_start (rg_map rg) + offset) conf (mkLayoutContext (rg_region rg) offset (rg_allow_init rg))
                  (Some (member_slot (rg_member rg))));
    Ret (match r with Done r => Some (commit_reserved rg header_layout (λ _, r) offset next b) | Unwound | Spinning => None end)
  end.

(** [Build::push] *)
Definition push_header {T} `{HT : SharedLayout T} (on : prog (RcHeader T) admission → prog area admission)
    (rg : Region) (conf : Config) (b : Build) : prog area (option (result Z MemError * Build)) :=
  match build_reserve rg header_layout b with
  | Err e => Ret (Some (Err e, b))
  | Ok (offset, next) => commit_header on rg conf offset next b
  end.

(** [Session]: the region, the offset of the directory's header, and the heap. *)
Record opened := mkOpened { so_region : Region; so_dir : Z; so_alloc : MapTalc }.

(** Gives the directory's handle back, then the region. *)
Definition drop_dir (rg : Region) : prog area bool :=
  do _ <- on_directory (leave (member_slot (rg_member rg))); drop_region rg.

(** [Session::from_config]; a failure drops what was built so far. *)
Definition from_config (rg : Region) (b : Build) (conf : TalcConfig) : prog area (option (result opened MemError)) :=
  do d <- push_header (T := Directory) (@on_directory admission) rg tt b;
  match d with
  | None => do _ <- drop_region rg; Ret None
  | Some (Err e, _) => do _ <- drop_region rg; Ret (Some (Err e))
  | Some (Ok dir, b) =>
    match build_reserve rg talck_header b with
    | Err e => do _ <- drop_dir rg; Ret (Some (Err e))
    | Ok (offset, next) =>
      match with_bound (remaining_after rg next) conf with
      | None => do _ <- drop_dir rg; Ret None
      | Some conf =>
        do a <- commit_header (T := TalckMeta) (@on_heap_header admission) rg conf offset next b;
        match a with
        | None => do _ <- drop_dir rg; Ret None
        | Some (Err e, _) => do _ <- drop_dir rg; Ret (Some (Err e))
        | Some (Ok offset, _) =>
          do h <- on_heap_header (act h <- (λ h, (h, h)); Ret h);
          Ret (Some (Ok (mkOpened rg dir (from_handle addr mem rg offset h))))
        end
      end
    end
  end.

(** [Session::from] and [Session::from_geometry] *)
Definition session_from (rg : Region) (b : Build) : prog area (option (result opened MemError)) :=
  from_config rg b (Config_new (map_len (rg_map rg))).
Definition session_from_geometry (rg : Region) (b : Build) (g : HeapGeometry) : prog area (option (result opened MemError)) :=
  from_config rg b (with_geometry g (Config_new (map_len (rg_map rg)))).

(** *** Admission *)

Inductive SessionError (E : Type) :=
| SessionSource (e : E)
| SessionPermissionDenied (requested : Z)
| SessionInsufficientSpace (requested allocated : Z)
| SessionBusy
| SessionClosed
| SessionDuplicateAttachment
| SessionInvalidHeader
| SessionLayoutMismatch (field : LayoutField)
| SessionPoisoned
| SessionOverflow
| SessionParticipantExhausted.
#[global] Arguments SessionSource {E}. #[global] Arguments SessionPermissionDenied {E}. #[global] Arguments SessionInsufficientSpace {E}.
#[global] Arguments SessionBusy {E}. #[global] Arguments SessionClosed {E}. #[global] Arguments SessionDuplicateAttachment {E}.
#[global] Arguments SessionInvalidHeader {E}. #[global] Arguments SessionLayoutMismatch {E}. #[global] Arguments SessionPoisoned {E}.
#[global] Arguments SessionOverflow {E}. #[global] Arguments SessionParticipantExhausted {E}.

(** [SessionError::admission] *)
Definition session_error {E} (e : MemError) : SessionError E :=
  match e with
  | PermissionDenied requested => SessionPermissionDenied requested
  | UnenoughSpace requested allocated => SessionInsufficientSpace requested allocated
  | MemContention => SessionBusy
  | LayoutClosed => SessionClosed
  | DuplicateAttachment => SessionDuplicateAttachment
  | MemInvalidHeader => SessionInvalidHeader
  | LayoutMismatch field => SessionLayoutMismatch field
  | PoisonedComposition => SessionPoisoned
  | ArithmeticOverflow => SessionOverflow
  | ParticipantExhausted => SessionParticipantExhausted
  end.

(** [Session::admit]; [mapped] is what the source answers. *)
Definition session_admit {E} (mapped : result Map E) (admission : RegionAdmission) (geometry : option HeapGeometry)
    : prog area (option (result opened (SessionError E))) :=
  match mapped with
  | Err e => Ret (Some (Err (SessionSource e)))
  | Ok m =>
    do a <- on_root_header (region_new m admission);
    match a with
    | None => Ret None
    | Some (Err e) => Ret (Some (Err (session_error e)))
    | Some (Ok (rg, offset)) =>
      let b := mkBuild offset false in
      do s <- match geometry with Some g => session_from_geometry rg b g | None => session_from rg b end;
      Ret (map_err session_error <$> s)
    end
  end.

(** [Session::create_with], [Session::create] and [Session::open] *)
Definition create_with {E} (mapped : result Map E) (region : RegionId) (heap : option HeapGeometry) : prog area (option (result opened (SessionError E))) :=
  session_admit mapped (Create region) heap.
Definition session_create {E} (mapped : result Map E) (region : RegionId) : prog area (option (result opened (SessionError E))) :=
  create_with mapped region None.
Definition session_open {E} (mapped : result Map E) (region : RegionId) : prog area (option (result opened (SessionError E))) :=
  session_admit mapped (Expect region) None.

(** The drop of a session: its directory, its heap, then the region. *)
Definition session_drop (s : opened) : prog area bool :=
  let slot := member_slot (rg_member (so_region s)) in
  do _ <- on_directory (leave slot);
  do _ <- on_heap_header (leave slot);
  drop_region (so_region s).
End Area.
Arguments mkArea {uninit addr mem}. Arguments ar_root {uninit addr mem}. Arguments ar_dir {uninit addr mem}. Arguments ar_heap {uninit addr mem}.
