(* ===== verification/SessionAgree.v ===== *)
(** * Sessions that agree

    What a participant opens is what another one created: the same directory and
    the same heap, whatever the addresses their mappings start at; unless the heap
    was created with a geometry of its own. *)

From S2P Require Import Prelude Atomic Alloc Bytes Schema Header HeaderConc RootConc Mem Heap.
From S2P Require Import TalcGeo Talc TalcHeap TalcInit TalcSpec TalcSafe TalcConf HeapConc Dir SessionOpen.

(** ** Placement in an aligned mapping *)

(** A writable mapping that starts at a multiple of eight. *)
Record page_map (m : Map) : Prop := {
  pm_ok : map_ok m;
  pm_write : contains (map_access m) WRITE = true;
  pm_start : (8 | map_start m);
}.

Lemma reserve_aligned m t off : page_map m → layout_wf t → align t = 8 → 8 ≤ size t → 0 ≤ off → (8 | off) →
  off + size t ≤ map_len m → reserve m t off = Ok (off, off + size t).
Proof.
  intros [(Hs & Hl & Hm) Hw Hp] [Hpow Hsz] Ha H8 Ho Hd Hfit. unfold reserve, permits, overflow. rewrite Hw, Ha. cbn [negb].
  assert (Hx : ∀ x y, x + y ≤ usize_max → checked_add x y = Some (x + y)) by (intros x y ?; unfold checked_add; by rewrite (proj2 (Z.leb_le _ _))).
  assert (Hy : ∀ x y, y ≤ x → checked_sub x y = Some (x - y)) by (intros x y ?; unfold checked_sub; by rewrite (proj2 (Z.leb_le _ _))).
  rewrite Hx by lia. cbn [ok_or]. rewrite Hx by lia. cbn [ok_or].
  change (Z.land ?p (wnot usize_bits (8 - 1))) with (align_down p 8). rewrite align_down_spec by (done || unfold is_word, usize_max in *; lia).
  assert (E : (map_start m + off + (8 - 1)) / 8 * 8 = map_start m + off).
  { destruct Hp as [a Ea], Hd as [c Ec]. replace (map_start m + off + (8 - 1)) with (7 + (a + c) * 8) by lia. rewrite Z.div_add by done. change (7 / 8) with 0. lia. }
  rewrite E, Hx by lia. cbn [ok_or]. rewrite Hy by lia. cbn [ok_or]. rewrite Hy by lia. cbn [ok_or].
  replace (map_start m + off + size t - map_start m) with (off + size t) by lia. destruct (Z.ltb_spec (map_len m) (off + size t)); [lia|]. do 2 f_equal. lia.
Qed.

Lemma reserve_at m t off at_ next : page_map m → layout_wf t → align t = 8 → 0 ≤ off → (8 | off) →
  reserve m t off = Ok (at_, next) → at_ = off ∧ next = off + size t ∧ off + size t ≤ map_len m.
Proof.
  intros [Hm Hw Hp] Hwf Ha Ho Hd E. destruct (map_reserve_spec _ _ _ _ _ Hm Hwf Ho E) as (_ & Hat & Hal & -> & Hn). rewrite Ha in *.
  apply Z.mod_divide in Hal; [|done]. destruct Hp as [a Ea], Hd as [b Eb], Hal as [c Ec]. rewrite Ea in Ec. assert (at_ = off) by lia. by subst.
Qed.

(** ** Admission, alone *)

Section Admit.
Context {T : Type} `{HT : SharedLayout T} (region : RegionId) (offset : Z).
#[local] Abbreviation published := (published region offset).

(** A fresh header is published. *)
Lemma run_admit_publish addr conf slot (h : RcHeader T) l body :
  storage conf = Some l → rec_status (h_record h) = Status_u8 Uninitialized → init conf = Some (body, Initialized) →
  run (admit_layout addr conf (mkLayoutContext region offset true) slot) h =
    (Done (Ok tt), published conf l body (match slot with None => 0 | Some slot => slot_bit slot end)).
Proof using.
  intros Hst Hs Hi. unfold admit_layout. rewrite Hst. cbn [admit_loop]. rewrite run_act. change ((load_status h).2) with h. change ((load_status h).1) with (Status_from_u8 (rec_status (h_record h))). rewrite Hs.
  change (Status_from_u8 (Status_u8 Uninitialized)) with Uninitialized. cbn match. cbn [allow_init negb]. rewrite run_act. unfold cas_status at 1 3. rewrite Hs, Z.eqb_refl. cbn [fst snd].
  unfold initialize. rewrite !run_act. cbn [fst snd]. rewrite Hi. rewrite run_act. cbn [fst snd]. rewrite bool_decide_true by done. by rewrite run_act.
Qed.

(** It was published only if its body was initialized. *)
Lemma run_admit_made addr conf slot (h h' : RcHeader T) l :
  storage conf = Some l → rec_status (h_record h) = Status_u8 Uninitialized →
  run (admit_layout addr conf (mkLayoutContext region offset true) slot) h = (Done (Ok tt), h') →
  ∃ body, init conf = Some (body, Initialized) ∧ h' = published conf l body (match slot with None => 0 | Some slot => slot_bit slot end).
Proof using.
  intros Hst Hs Hr. pose proof (run_admit_fresh addr conf (mkLayoutContext region offset true) slot h l Hst eq_refl Hs) as Hf.
  pose proof (λ body, run_admit_publish addr conf slot h l body Hst Hs) as Hp. rewrite Hr in *.
  destruct (init conf) as [[body []]|]; try by destruct Hf. exists body. split; [done|]. by specialize (Hp body eq_refl) as [= ->].
Qed.

(** A published header is attached to by those that agree with it. *)
Lemma run_admit_attach addr conf conf' slot allow l body m :
  inspect_fields addr (mkLayoutContext region offset allow) (published conf l body m) = Ok (info conf (mkLayoutContext region offset true)) →
  storage conf' = Some l → attach body conf' = Some Initialized →
  Z.land m CLOSED = 0 → (∀ s, slot = Some s → Z.land m (slot_bit s) = 0) →
  run (admit_layout addr conf' (mkLayoutContext region offset allow) slot) (published conf l body m) =
    if bool_decide (info conf (mkLayoutContext region offset true) = info conf' (mkLayoutContext region offset allow))
    then (Done (Ok tt), published conf l body (match slot with None => m | Some s => Z.lor m (slot_bit s) end))
    else (Done (Err (Mismatch FInfo)), published conf l body m).
Proof using.
  intros Hins Hst' Hatt Hc Hm. unfold admit_layout. rewrite Hst'. cbn [admit_loop]. rewrite run_act. cbn [load_status fst snd]. change (Status_from_u8 _) with Initialized. cbn match.
  unfold attach_to. rewrite run_act. cbn [fst snd]. unfold mismatch_at. rewrite Hins, Hst'.
  cbn [HeaderConc.published h_record rec_extent rec_extent_align]. rewrite !bool_decide_true by done. cbn [negb]. unfold ctx. case_bool_decide; cbn [negb]; [|done].
  unfold claim. destruct slot as [s|]; cbn [bind].
  2: { rewrite run_act. cbn [fst snd HeaderConc.published h_inner]. by rewrite Hatt. }
  rewrite run_act. cbn [load_members fst snd HeaderConc.published h_members]. rewrite Hc, (Hm s eq_refl). cbn [Z.eqb negb bind].
  rewrite run_act. unfold cas_members. cbn [HeaderConc.published h_members]. rewrite Z.eqb_refl. cbn [fst snd bind]. rewrite run_act. cbn [fst snd with_members h_inner HeaderConc.published]. by rewrite Hatt.
Qed.
End Admit.

(** ** The parts of an area *)

Section Parts.
Context (uninit : Meta) (addr : Z) (mem : gmap Z Z).
#[local] Existing Instances dir_inst heap_inst.
#[local] Abbreviation S := (area uninit addr mem).

Lemma run_on_root_header {A} (p : prog (RcHeader Root) A) (s : S) :
  run (on_root_header uninit addr mem p) s = ((run p (ar_root s)).1, mkArea (run p (ar_root s)).2 (ar_dir s) (ar_heap s)).
Proof using. unfold on_root_header. rewrite run_on_part; [done|done|by intros []|done]. Qed.

Lemma run_on_directory {A} (p : prog (RcHeader Directory) A) (s : S) :
  run (on_directory uninit addr mem p) s = ((run p (ar_dir s)).1, mkArea (ar_root s) (run p (ar_dir s)).2 (ar_heap s)).
Proof using. unfold on_directory. rewrite run_on_part; [done|done|by intros []|done]. Qed.

Lemma run_on_heap_header {A} (p : prog (RcHeader TalckMeta) A) (s : S) :
  run (on_heap_header uninit addr mem p) s = ((run p (ar_heap s)).1, mkArea (ar_root s) (ar_dir s) (run p (ar_heap s)).2).
Proof using. unfold on_heap_header. rewrite run_on_part; [done|done|by intros []|done]. Qed.

Lemma run_on_inner {T} `{SharedLayout T} {A} (p : prog T A) (h : RcHeader T) :
  run (on_inner p) h = ((run p (h_inner h)).1, with_inner (run p (h_inner h)).2 h).
Proof using. unfold on_inner. rewrite run_on_part; [done|done|by intros []|done]. Qed.

(** What an admission answers is what the composition answers. *)
Lemma run_commit_header {T} `{HT : SharedLayout T} on rg conf offset next b (s : S) :
  contains (map_access (rg_map rg)) WRITE = true → poisoned b = false → reserve (rg_map rg) header_layout (b_offset b) = Ok (offset, next) →
  run (commit_header uninit addr mem (T := T) on rg conf offset next b) s =
    let '(r, s') := run (on (admit_layout (T := T) (map_start (rg_map rg) + offset) conf (mkLayoutContext (rg_region rg) offset (rg_allow_init rg)) (Some (member_slot (rg_member rg))))) s in
    (match r with
     | Done (Ok _) => Some (Ok offset, mkBuild next false)
     | Done (Err e) => Some (Err (admit_error e), poison b)
     | _ => None
     end, s').
Proof using.
  intros Hw Hp Hr. assert (Hc : ∀ r, commit_reserved rg header_layout (λ _, r) offset next b =
    match r with Ok _ => (Ok offset, mkBuild next false) | Err e => (Err (admit_error e), poison b) end).
  { intros r. unfold commit_reserved. rewrite Hp, Hr, !Z.eqb_refl. cbn [negb orb]. unfold commit, permits. rewrite Hw. cbn [negb]. by destruct r. }
  unfold commit_header. rewrite Hc, run_bind. destruct (run (on _) s) as [[[|]| |] s']; cbn [run]; by rewrite ?Hc.
Qed.
End Parts.

(** ** Where things are *)

Definition DIR_AT : Z := 640.
Definition HEAP_AT : Z := 1344.
Definition HEAP_END : Z := 1536.

Lemma root_header_is : root_header = mkLayout DIR_AT 8.
Proof. vm_compute. reflexivity. Qed.
Lemma dir_header_is : dir_header = mkLayout (HEAP_AT - DIR_AT) 8.
Proof. vm_compute. reflexivity. Qed.
Lemma talck_header_is : talck_header = mkLayout (HEAP_END - HEAP_AT) 8.
Proof. vm_compute. reflexivity. Qed.

(** The participants' words after one and two of them joined. *)
Definition root_one : Root := <[0%nat := 5]> Root_init.
Definition root_two : Root := <[1%nat := 5]> root_one.
Definition root_left : Root := <[1%nat := 4]> root_one.

Lemma join_first : run join Root_init = (Some (mkMember 0 1), root_one).
Proof. vm_compute. reflexivity. Qed.
Lemma join_second : run join root_one = (Some (mkMember 1 1), root_two).
Proof. vm_compute. reflexivity. Qed.
Lemma leave_second : run (root_leave (mkMember 1 1)) root_two = (true, root_left).
Proof. vm_compute. reflexivity. Qed.

(** The configuration a session asks for. *)
Definition session_conf (len : Z) (og : option HeapGeometry) : TalcConfig :=
  match og with Some g => with_geometry g (Config_new len) | None => Config_new len end.

Section Create.
Context (uninit : Meta) (m : Map) (mem : gmap Z Z) (id : RegionId) (Hm : page_map m).
#[local] Abbreviation addr := (map_start m + HEAP_AT).
#[local] Abbreviation S := (area uninit addr mem).
#[local] Instance dir_here : SharedLayout Directory := dir_inst uninit.
#[local] Instance heap_here : SharedLayout TalckMeta := heap_inst addr mem.

(** The area of a session whose root, directory and heap have these members. *)
Definition root_made (root : Root) : RcHeader Root := published (T := Root) id 0 tt root_header root 0.
Definition dir_made (d : Directory) (members : Z) : RcHeader Directory := published (T := Directory) id DIR_AT tt dir_header d members.
Definition heap_made (conf : TalcConfig) (t : TalckMeta) (members : Z) : RcHeader TalckMeta := published (T := TalckMeta) id HEAP_AT conf talck_header t members.

Definition composed (root : Root) (d : Directory) (dir_members : Z) (conf : TalcConfig) (t : TalckMeta) (heap_members : Z) : S :=
  mkArea (root_made root) (dir_made d dir_members) (heap_made conf t heap_members).

(** Nothing was ever written. *)
Definition blank (s : S) : Prop :=
  rec_status (h_record (ar_root s)) = Status_u8 Uninitialized ∧ rec_status (h_record (ar_dir s)) = Status_u8 Uninitialized ∧
  rec_status (h_record (ar_heap s)) = Status_u8 Uninitialized.

Lemma map_writes : permits m WRITE = Ok tt.
Proof using Hm. unfold permits. by rewrite (pm_write _ Hm). Qed.

(** The three headers, one behind the other. *)
Lemma placed t off : t = root_header ∧ off = 0 ∨ t = dir_header ∧ off = DIR_AT ∨ t = talck_header ∧ off = HEAP_AT →
  match reserve m t off with
  | Ok (at_, next) => at_ = off ∧ next = off + size t ∧ off + size t ≤ map_len m
  | Err _ => map_len m < off + size t
  end.
Proof using Hm.
  intros Ht. assert (layout_wf t ∧ align t = 8 ∧ 8 ≤ size t ∧ 0 ≤ off ∧ (8 | off)) as (Hwf & Ha & Hs & Ho & Hd).
  { rewrite root_header_is, dir_header_is, talck_header_is in Ht. destruct Ht as [[-> ->]|[[-> ->]|[-> ->]]]; split_and!; try by_eval; [by exists 0|by exists 80|by exists 168]. }
  destruct (reserve m t off) as [[at_ next]|] eqn:E; [by eapply reserve_at|].
  destruct (Z.lt_ge_cases (map_len m) (off + size t)); [done|]. by rewrite reserve_aligned in E.
Qed.

Lemma fits t off : HEAP_END ≤ map_len m → t = root_header ∧ off = 0 ∨ t = dir_header ∧ off = DIR_AT ∨ t = talck_header ∧ off = HEAP_AT →
  reserve m t off = Ok (off, off + size t).
Proof using Hm.
  intros Hl Ht. pose proof (placed t off Ht) as Hp. destruct (reserve m t off) as [[at_ next]|]; [by destruct Hp as (-> & -> & _)|].
  rewrite root_header_is, dir_header_is, talck_header_is in Ht. unfold HEAP_END, HEAP_AT, DIR_AT in *. destruct Ht as [[-> ->]|[[-> ->]|[-> ->]]]; cbn [size] in Hp; lia.
Qed.

Lemma run_region_new og_allow adm (h : RcHeader Root) : adm = Create id ∧ og_allow = true ∨ adm = Expect id ∧ og_allow = false →
  run (region_new m adm) h =
    match reserve m root_header 0 with
    | Err e => (Some (Err e), h)
    | Ok _ =>
      let '(r, h) := run (admit_layout (T := Root) (map_start m) tt (mkLayoutContext id 0 og_allow) None) h in
      match r with
      | Done (Ok _) =>
        let '(j, w) := run join (h_inner h) in
        (Some (match j with None => Err ParticipantExhausted | Some member => Ok (mkRegion m member id og_allow, DIR_AT) end), with_inner w h)
      | Done (Err e) => (Some (Err (admit_error e)), h)
      | _ => (None, h)
      end
    end.
Proof using Hm.
  intros Hadm. unfold region_new. pose proof (placed root_header 0 ltac:(by left)) as Hp. destruct (reserve m root_header 0) as [[at_ next]|e]; [|done].
  destruct Hp as (-> & -> & _). rewrite root_header_is. cbn [size]. rewrite Z.add_0_r, Z.add_0_l, run_bind.
  assert (Hr : run (match adm with Create i | Expect i => Ret (Ok i) | Discover => do d <- published_region_at (T := Root) (map_start m); Ret (ok_or d MemInvalidHeader) end) h = (Ok id, h) ∧ may_init adm = og_allow)
    by (by destruct Hadm as [[-> ->]|[-> ->]]).
  destruct Hr as [-> ->]. rewrite map_writes, run_bind. destruct (run (admit_layout _ _ _ _) h) as [[[]| |] h1]; [|done..].
  rewrite run_bind, run_on_inner. by destruct (run join (h_inner h1)).
Qed.

Lemma run_session_from rg b og (s : S) : rg_map rg = m →
  run (match og with Some g => session_from_geometry uninit addr mem rg b g | None => session_from uninit addr mem rg b end) s =
    run (from_config uninit addr mem rg b (session_conf (map_len m) og)) s.
Proof using. intros E. unfold session_from_geometry, session_from, session_conf. rewrite E. by destruct og. Qed.

Lemma remaining rg : rg_map rg = m → HEAP_END ≤ map_len m → remaining_after rg HEAP_END = map_len m - HEAP_END.
Proof using. intros E Hl. unfold remaining_after, saturating_sub. rewrite E. lia. Qed.

(** What the heap's admission answers decides, once the directory's answered. *)
Lemma run_from_config rg conf (s : S) hd : rg_map rg = m →
  run (admit_layout (T := Directory) (map_start m + DIR_AT) tt (mkLayoutContext (rg_region rg) DIR_AT (rg_allow_init rg)) (Some (member_slot (rg_member rg)))) (ar_dir s) =
    (Done (Ok tt), hd) →
  run (from_config uninit addr mem rg (mkBuild DIR_AT false) conf) s =
    match reserve m dir_header DIR_AT, reserve m talck_header HEAP_AT with
    | Ok _, Ok _ =>
      match with_bound (map_len m - HEAP_END) conf with
      | Some conf =>
        let '(r, hh) := run (admit_layout (T := TalckMeta) addr conf (mkLayoutContext (rg_region rg) HEAP_AT (rg_allow_init rg)) (Some (member_slot (rg_member rg)))) (ar_heap s) in
        let s := mkArea (ar_root s) hd hh in
        match r with
        | Done (Ok _) => (Some (Ok (mkOpened rg DIR_AT (from_handle addr mem rg HEAP_AT hh))), s)
        | Done (Err e) => (Some (Err (admit_error e)), (run (drop_dir uninit addr mem rg) s).2)
        | _ => (None, (run (drop_dir uninit addr mem rg) s).2)
        end
      | None => (None, (run (drop_dir uninit addr mem rg) (mkArea (ar_root s) hd (ar_heap s))).2)
      end
    | Err e, _ => (Some (Err e), (run (drop_region uninit addr mem rg) s).2)
    | _, Err e => (Some (Err e), (run (drop_dir uninit addr mem rg) (mkArea (ar_root s) hd (ar_heap s))).2)
    end.
Proof using Hm.
  unfold dir_here, heap_here. intros Em Ha. unfold from_config, push_header. rewrite run_bind. unfold build_reserve at 1. cbn [poisoned b_offset]. rewrite Em.
  pose proof (placed dir_header DIR_AT ltac:(by right; left)) as Hd. change (header_layout (T := Directory)) with dir_header.
  destruct (reserve m dir_header DIR_AT) as [[at_ next]|] eqn:Er; [|cbn [run]; rewrite run_bind; by destruct (run (drop_region _ _ _ _) _)].
  destruct Hd as (-> & -> & _). rewrite (run_commit_header _ _ _ (T := Directory)) by (rewrite ?Em; done || apply Hm). rewrite Em, run_on_directory, Ha. cbn [fst snd ar_root ar_dir ar_heap].
  unfold build_reserve. cbn [poisoned b_offset]. rewrite Em, dir_header_is. cbn [size]. replace (DIR_AT + (HEAP_AT - DIR_AT)) with HEAP_AT by lia.
  pose proof (placed talck_header HEAP_AT ltac:(by right; right)) as Hd.
  destruct (reserve m talck_header HEAP_AT) as [[at_ next]|] eqn:Er'; [|rewrite run_bind; by destruct (run (drop_dir _ _ _ _) _)].
  destruct Hd as (-> & -> & Hlen). rewrite talck_header_is in Hlen |- *. cbn [size] in *. replace (HEAP_AT + (HEAP_END - HEAP_AT)) with HEAP_END in * by lia.
  rewrite remaining by done. destruct (with_bound _ _) as [conf'|] eqn:Ew; [|rewrite run_bind; by destruct (run (drop_dir _ _ _ _) _)].
  rewrite run_bind, (run_commit_header _ _ _ (T := TalckMeta)) by (rewrite ?Em; done || apply Hm). rewrite Em, run_on_heap_header. cbn [ar_root ar_dir ar_heap].
  lazymatch goal with |- context [let '(_, _) := run ?p ?x in _] => generalize (run p x) end. intros [[[]| |] hh]; cbn [fst snd]; rewrite run_bind.
  2-4: by destruct (run (drop_dir _ _ _ _) _).
  by rewrite run_on_heap_header.
Qed.

(** What creating a session leaves, when it succeeds. *)
Lemma create_inv {E} (s : S) og o s' : blank s → run (create_with uninit addr mem (E := E) (Ok m) id og) s = (Some (Ok o), s') →
  ∃ conf t, HEAP_END ≤ map_len m ∧ with_bound (map_len m - HEAP_END) (session_conf (map_len m) og) = Some conf ∧
    talck_init (talc_base addr) mem conf = Some (t, Initialized) ∧ s' = composed root_one (Directory_init uninit) 1 conf t 1 ∧
    o = mkOpened (mkRegion m (mkMember 0 1) id true) DIR_AT (mkMapTalc HEAP_AT 0 (ti_geometry (talck_info conf (mkLayoutContext id HEAP_AT true)))).
Proof using Hm.
  intros (Hb1 & Hb2 & Hb3). unfold create_with, session_admit. rewrite run_bind, run_on_root_header, (run_region_new true) by (by left).
  destruct (reserve m root_header 0) as [p|]; [|done]. rewrite (run_admit_publish (T := Root) (HT := Root_Layout) id 0 (map_start m) tt None (ar_root s) root_header Root_init) by done.
  cbn [fst snd published h_inner]. rewrite join_first. cbn [fst snd]. rewrite run_bind, run_session_from by done.
  rewrite (run_from_config _ _ _ (dir_made (Directory_init uninit) 1)) by (done || by apply (run_admit_publish (T := Directory) (HT := dir_here) id DIR_AT)).
  cbn [ar_heap ar_root rg_region rg_allow_init rg_member member_slot].
  destruct (reserve m dir_header DIR_AT) as [|]; [|done]. pose proof (placed talck_header HEAP_AT ltac:(by right; right)) as Hd.
  destruct (reserve m talck_header HEAP_AT) as [[at_ next]|] eqn:Er; [|done]. destruct Hd as (_ & _ & Hlen).
  destruct (with_bound _ _) as [conf|] eqn:Ew; [|done].
  lazymatch goal with |- context [run ?p (ar_heap s)] => destruct (run p (ar_heap s)) as [[[[]|]| |] hh] eqn:Eh; [|done..] end.
  destruct (run_admit_made (T := TalckMeta) (HT := heap_here) _ _ _ _ _ _ _ _ eq_refl Hb3 Eh) as (tk & Ei & ->).
  cbn [run]. intros [= <- <-]. exists conf, tk. rewrite talck_header_is in Hlen. cbn [size] in Hlen. split_and!; [lia|done..].
Qed.

(** The three layouts keep what the trait promises. *)
Lemma root_trait : trait_ok (HT := Root_Layout) (map_start m) id 0.
Proof using Hm.
  split; [|reflexivity| |]. 2: { vm_compute. split; split; (reflexivity || discriminate). } 2: by_eval. intros conf l [= <-]. split; [by_eval|split; [by_eval|]]. rewrite root_header_is. apply Z.mod_divide; [done|]. apply Hm.
Qed.

Lemma dir_trait : trait_ok (HT := dir_here) (map_start m + DIR_AT) id DIR_AT.
Proof using Hm.
  split; [|reflexivity| |]. 2: { vm_compute. split; split; (reflexivity || discriminate). } 2: by_eval. intros conf l [= <-]. split; [by_eval|split; [by_eval|]]. rewrite dir_header_is. apply Z.mod_divide; [done|].
  apply Z.divide_add_r; [apply Hm|by exists 80].
Qed.

Lemma heap_trait : trait_ok (HT := heap_here) addr id HEAP_AT.
Proof using Hm.
  split; [|reflexivity| |]. 2: { vm_compute. split; split; (reflexivity || discriminate). } 2: by_eval. intros conf l [= <-]. split; [by_eval|split; [by_eval|]]. rewrite talck_header_is. apply Z.mod_divide; [done|].
  apply Z.divide_add_r; [apply Hm|by exists 168].
Qed.

(** Attaching to each of them. *)
Lemma run_root_attach root : run (admit_layout (T := Root) (map_start m) tt (mkLayoutContext id 0 false) None) (root_made root) = (Done (Ok tt), root_made root).
Proof using Hm. unfold root_made. by rewrite (run_admit_attach (HT := Root_Layout) id 0 (map_start m) tt tt None false root_header root 0 (inspect_published _ _ _ root_trait _ _ _ _ false eq_refl)). Qed.

Lemma run_dir_attach d md slot : Z.land md CLOSED = 0 → Z.land md (slot_bit slot) = 0 →
  run (admit_layout (T := Directory) (map_start m + DIR_AT) tt (mkLayoutContext id DIR_AT false) (Some slot)) (dir_made d md) =
    (Done (Ok tt), dir_made d (Z.lor md (slot_bit slot))).
Proof using Hm.
  intros Hc Hs. unfold dir_made. rewrite (run_admit_attach (HT := dir_here) id DIR_AT (map_start m + DIR_AT) tt tt (Some slot) false dir_header d md (inspect_published _ _ _ dir_trait _ _ _ _ false eq_refl) eq_refl eq_refl Hc) by (by intros ? [= <-]).
  by rewrite bool_decide_true.
Qed.

Lemma run_heap_attach conf conf' t mh slot : Z.land mh CLOSED = 0 → Z.land mh (slot_bit slot) = 0 →
  run (admit_layout (T := TalckMeta) addr conf' (mkLayoutContext id HEAP_AT false) (Some slot)) (heap_made conf t mh) =
    if bool_decide (talck_info conf (mkLayoutContext id HEAP_AT true) = talck_info conf' (mkLayoutContext id HEAP_AT false))
    then (Done (Ok tt), heap_made conf t (Z.lor mh (slot_bit slot))) else (Done (Err (Mismatch FInfo)), heap_made conf t mh).
Proof using Hm.
  intros Hc Hs. unfold heap_made. rewrite (run_admit_attach (HT := heap_here) id HEAP_AT addr conf conf' (Some slot) false talck_header t mh (inspect_published _ _ _ heap_trait _ _ _ _ false eq_refl) eq_refl eq_refl Hc) by (by intros ? [= <-]).
  done.
Qed.

(** Opening a session, whatever its participants did since it was created. *)
Lemma run_session_open {E} root d md conf t mh mb root' :
  HEAP_END < map_len m → c_forward conf = 0 → c_size conf = map_len m - HEAP_END →
  run join root = (Some mb, root') → Z.land md CLOSED = 0 → Z.land md (slot_bit (member_slot mb)) = 0 →
  Z.land mh CLOSED = 0 → Z.land mh (slot_bit (member_slot mb)) = 0 →
  run (session_open uninit addr mem (E := E) (Ok m) id) (composed root d md conf t mh) =
    if bool_decide (ti_geometry (talck_info conf (mkLayoutContext id HEAP_AT true)) = ti_geometry (talck_info (Config_new (map_len m - HEAP_END)) (mkLayoutContext id HEAP_AT false)))
    then (Some (Ok (mkOpened (mkRegion m mb id false) DIR_AT (mkMapTalc HEAP_AT (member_slot mb) (ti_geometry (talck_info conf (mkLayoutContext id HEAP_AT true)))))),
          composed root' d (Z.lor md (slot_bit (member_slot mb))) conf t (Z.lor mh (slot_bit (member_slot mb))))
    else (Some (Err (SessionLayoutMismatch FInfo)),
          composed (run (root_leave mb) root').2 d (Z.land (Z.lor md (slot_bit (member_slot mb))) (wnot usize_bits (slot_bit (member_slot mb)))) conf t mh).
Proof using Hm.
  intros Hlen Hf Hsz Hj Hd1 Hd2 Hh1 Hh2. unfold session_open, session_admit. rewrite run_bind, run_on_root_header, (run_region_new false) by (by right).
  rewrite fits by (lia || by left). unfold composed. cbn [ar_root]. rewrite run_root_attach. change (h_inner (root_made root)) with root. rewrite Hj. cbn [fst snd].
  rewrite run_bind, (run_session_from _ _ None) by done. cbn [session_conf ar_dir ar_heap].
  rewrite (run_from_config _ _ _ (dir_made d (Z.lor md (slot_bit (member_slot mb))))) by (done || by apply run_dir_attach).
  rewrite (fits dir_header), (fits talck_header) by (first [lia | solve [right; left; done] | solve [right; right; done]]).
  assert (with_bound (map_len m - HEAP_END) (Config_new (map_len m)) = Some (Config_new (map_len m - HEAP_END))) as ->.
  { unfold with_bound. cbn [Config_new c_forward c_size c_geometry]. unfold HEAP_END in *. destruct (Z.ltb_spec 0 (map_len m - 1536)); [|lia]. cbn [negb].
    rewrite Z.min_r by lia. unfold checked_sub. destruct (Z.leb_spec 0 (map_len m - 1536)); [|lia]. by rewrite Z.sub_0_r. }
  cbn [ar_heap ar_root rg_region rg_allow_init rg_member]. rewrite run_heap_attach by done.
  rewrite (bool_decide_ext (talck_info conf _ = _) (ti_geometry (talck_info conf (mkLayoutContext id HEAP_AT true)) = ti_geometry (talck_info (Config_new (map_len m - HEAP_END)) (mkLayoutContext id HEAP_AT false)))).
  2: { unfold talck_info. rewrite Hf, Hsz. cbn [ti_geometry Config_new c_forward c_size]. split; [by intros [= ->]|by intros ->]. }
  case_bool_decide; cbn [run fst snd]; [done|]. unfold drop_dir, drop_region. rewrite run_bind, run_on_directory, run_on_root_header, run_on_inner. done.
Qed.
End Create.

(** ** Two mappings of one area *)

(** What another mapping, in which the heap's header is at [a2], shows. *)
Definition seen_from {uninit mem} (a1 a2 : Z) (s : area uninit a1 mem) : area uninit a2 mem :=
  let h := ar_heap s in
  mkArea (ar_root s) (ar_dir s)
    (mkRcHeader (H := heap_inst a2 mem) (h_record h) (h_members h) (h_region h) (h_offset h) (h_header_size h) (h_header_align h)
       (h_info_schema h) (h_info_revision h) (h_info_size h) (h_info_align h) (h_body_size h) (h_body_align h) (h_info h) (h_inner h)).

(** The geometry a heap of [size] bytes has when none is asked for. *)
Definition default_geometry (size : Z) : HeapGeometry := match auto size with Ok g => g | Err _ => fallback_geometry end.

Section Agree.
Context (uninit : Meta) (mem : gmap Z Z) (id : RegionId) (m1 m2 : Map).
Context (Hm1 : page_map m1) (Hm2 : page_map m2) (Hlen : map_len m1 = map_len m2).
#[local] Abbreviation a1 := (map_start m1 + HEAP_AT).
#[local] Abbreviation a2 := (map_start m2 + HEAP_AT).

Lemma bounded len og conf : with_bound (len - HEAP_END) (session_conf len og) = Some conf →
  HEAP_END < len ∧ c_forward conf = 0 ∧ c_size conf = len - HEAP_END ∧ c_geometry conf = og.
Proof using.
  unfold with_bound. assert (c_forward (session_conf len og) = 0 ∧ c_size (session_conf len og) = len ∧ c_geometry (session_conf len og) = og) as (-> & -> & ->) by (by destruct og).
  unfold HEAP_END, checked_sub. destruct (Z.ltb_spec 0 (len - 1536)); [|done]. cbn [negb]. rewrite Z.min_r by lia. destruct (Z.leb_spec 0 (len - 1536)); [|done].
  intros [= <-]. cbn [c_forward c_size c_geometry]. split_and!; [lia|done|lia|done].
Qed.

(** The geometry of a heap that was created: the one asked for, or the default. *)
Lemma created_geometry base conf t : talck_init base mem conf = Some (t, Initialized) → 
  ti_geometry (talck_info conf (mkLayoutContext id HEAP_AT true)) = match c_geometry conf with Some g => g | None => default_geometry (c_size conf) end.
Proof using.
  unfold talck_init, talck_claim, claim_conf, talck_info, conf_geometry, default_geometry. cbn [ti_geometry]. destruct (c_geometry conf) as [g|]; [|done].
  by destruct (validate g (c_size conf)).
Qed.

(** C14: a session that was created can be opened by a second participant whose
    mapping has the same length, wherever it starts, exactly if its heap has the
    geometry the length alone determines; it then has the same directory, the same
    heap and the same geometry, under a slot of its own. A session whose creator
    asked for another geometry refuses every opener with a mismatch of the heap's
    information. A refused opener, and one that drops its session, leave every
    membership as it was. *)
Theorem open_after_create {E} (s : area uninit a1 mem) og o s' :
  blank uninit m1 mem s → run (create_with uninit a1 mem (E := E) (Ok m1) id og) s = (Some (Ok o), s') →
  let '(r, s2) := run (session_open uninit a2 mem (E := E) (Ok m2) id) (seen_from a1 a2 s') in
  let size := map_len m1 - HEAP_END in
  mt_geometry (so_alloc o) = match og with Some g => g | None => default_geometry size end ∧
  if bool_decide (mt_geometry (so_alloc o) = default_geometry size) then
    ∃ o2, r = Some (Ok o2) ∧ so_dir o2 = so_dir o ∧ mt_header (so_alloc o2) = mt_header (so_alloc o) ∧
      mt_geometry (so_alloc o2) = mt_geometry (so_alloc o) ∧ mt_owner (so_alloc o2) ≠ mt_owner (so_alloc o) ∧
      h_inner (ar_dir s2) = h_inner (ar_dir s') ∧ h_inner (ar_heap s2) = h_inner (ar_heap s') ∧
      h_members (ar_dir s2) = 3 ∧ h_members (ar_heap s2) = 3 ∧
      let s3 := (run (session_drop uninit a2 mem o2) s2).2 in
      ar_dir s3 = ar_dir s' ∧ h_inner (ar_heap s3) = h_inner (ar_heap s') ∧ h_members (ar_heap s3) = 1 ∧ h_inner (ar_root s3) = root_left
  else
    r = Some (Err (SessionLayoutMismatch FInfo)) ∧ ar_dir s2 = ar_dir s' ∧ h_inner (ar_heap s2) = h_inner (ar_heap s') ∧
      h_members (ar_heap s2) = 1 ∧ h_inner (ar_root s2) = root_left.
Proof using Hm1 Hm2 Hlen.
  intros Hb Hc. destruct (create_inv uninit m1 mem id Hm1 s og o s' Hb Hc) as (conf & t & Hend & Hw & Hi & -> & ->).
  destruct (bounded _ _ _ Hw) as (Hlt & Hf & Hsz & Hg). change (seen_from a1 a2 _) with (composed uninit m2 mem id root_one (Directory_init uninit) 1 conf t 1).
  rewrite (run_session_open uninit m2 mem id Hm2 root_one _ _ _ _ _ (mkMember 1 1) root_two) by (rewrite <- ?Hlen; done || by apply join_second).
  cbn [so_alloc mt_geometry]. rewrite (created_geometry _ _ _ Hi), Hg, Hsz, <- Hlen.
  change (ti_geometry (talck_info (Config_new (map_len m1 - HEAP_END)) (mkLayoutContext id HEAP_AT false))) with (default_geometry (map_len m1 - HEAP_END)).
  case_bool_decide; (split; [done|]).
  - eexists. split; [done|]. unfold session_drop, drop_region. rewrite !run_bind, run_on_directory. cbn match. rewrite run_bind, run_on_heap_header, run_on_root_header, run_on_inner. by split_and!.
  - by split_and!.
Qed.
End Agree.

(** ** A session of 16 KiB *)

Definition demo_map (start : Z) : Map := mkMap start 16384 3.

Definition demo_blank : area Meta_null (4096 + HEAP_AT) ∅ :=
  let none := mkRecord 0 0 (0, 0, 0) [] [] [] [] [] in
  mkArea (mkRcHeader (H := Root_Layout) none 0 (mkRegionId 0 0) 0 0 0 0 0 0 0 0 0 tt Root_init)
    (mkRcHeader (H := dir_inst Meta_null) none 0 (mkRegionId 0 0) 0 0 0 0 0 0 0 0 0 tt (Directory_init Meta_null))
    (mkRcHeader (H := heap_inst (4096 + HEAP_AT) ∅) none 0 (mkRegionId 0 0) 0 0 0 0 0 0 0 0 0 (mkTalcInfo fallback_geometry 0 0) (TalckMeta_null ∅)).

(** Fewer linear bins than the default of this length. *)
Definition small_geometry : HeapGeometry := match Geometry_new 14848 6 8 1 with Ok g => g | Err _ => fallback_geometry end.

#[local] Abbreviation demo_create og := (run (create_with Meta_null (4096 + HEAP_AT) ∅ (E := unit) (Ok (demo_map 4096)) (mkRegionId 1 2) og) demo_blank).
#[local] Abbreviation demo_open s := (run (session_open Meta_null (65536 + HEAP_AT) ∅ (E := unit) (Ok (demo_map 65536)) (mkRegionId 1 2)) (seen_from (4096 + HEAP_AT) (65536 + HEAP_AT) s)).

Lemma demo_page start : start = 4096 ∨ start = 65536 → page_map (demo_map start).
Proof. intros [-> | ->]; split; try done; [by exists 512|by exists 8192]. Qed.

(** Created with the default geometry a second mapping opens it; created with
    another one it does not. *)
Lemma open_after_create_witness :
  (∃ o, (demo_create None).1 = Some (Ok o) ∧ ∃ o2, (demo_open (demo_create None).2).1 = Some (Ok o2) ∧ mt_geometry (so_alloc o2) = mt_geometry (so_alloc o)) ∧
  (∃ o, (demo_create (Some small_geometry)).1 = Some (Ok o) ∧ (demo_open (demo_create (Some small_geometry)).2).1 = Some (Err (SessionLayoutMismatch FInfo))).
Proof.
  pose proof (demo_page 4096 (or_introl eq_refl)) as H1. pose proof (demo_page 65536 (or_intror eq_refl)) as H2.
  assert (∀ og, og = None ∨ og = Some small_geometry → ∃ o, (demo_create og).1 = Some (Ok o) ∧
    mt_geometry (so_alloc o) = match og with Some g => g | None => default_geometry (16384 - HEAP_END) end) as Hrun.
  { intros og [-> | ->]; (eexists; split; [vm_compute; reflexivity|vm_compute; reflexivity]). }
  split.
  - destruct (Hrun None ltac:(by left)) as (o & Eo & Eg). exists o. split; [done|].
    destruct (demo_create None) as [r s'] eqn:Ec. cbn [fst snd] in *. subst r.
    pose proof (open_after_create Meta_null ∅ (mkRegionId 1 2) (demo_map 4096) (demo_map 65536) H1 H2 eq_refl demo_blank None o s' ltac:(by split_and!) Ec) as Ho.
    cbn [demo_map map_start map_len] in Ho. destruct (demo_open s') as [r s2]. cbn [fst]. destruct Ho as [_ Ho]. rewrite bool_decide_true in Ho by done.
    destruct Ho as (o2 & -> & _ & _ & Hg & _). exists o2. split; [reflexivity|exact Hg].
  - destruct (Hrun (Some small_geometry) ltac:(by right)) as (o & Eo & Eg). exists o. split; [done|].
    destruct (demo_create (Some small_geometry)) as [r s'] eqn:Ec. cbn [fst snd] in *. subst r.
    pose proof (open_after_create Meta_null ∅ (mkRegionId 1 2) (demo_map 4096) (demo_map 65536) H1 H2 eq_refl demo_blank _ o s' ltac:(by split_and!) Ec) as Ho.
    cbn [demo_map map_start map_len] in Ho. destruct (demo_open s') as [r s2]. cbn [fst]. destruct Ho as [_ Ho]. rewrite Eg, bool_decide_false in Ho by (vm_compute; discriminate).
    destruct Ho as [-> _]. reflexivity.
Defined.
