(* ===== verification/SessionPool.v ===== *)
(** * Pools of a session

    Models how a session creates and opens pools: [pool::create] and [pool::open]
    of [src/src/pool.rs], [MapDirectory::open_recorded] and
    [MapDirectory::inspect_layout] of [src/src/dir.rs], and the layout of a
    pool's storage. *)

From Stdlib Require Import String.
From S2P Require Import Prelude Atomic Alloc Bytes Schema Header Mem Heap TalcGeo Talc TalcInit TalcSpec TalcConf HeapConc Dir.
From S2P Require Import Session Token Pool PoolOps.

(** ** The layout *)

(** [pool::Config] *)
Record PoolConfig := mkPoolConfig { pc_info : PoolInfo; pc_layout : Layout }.

Definition PoolInfo_layout : Layout := mkLayout 24 8.
Definition Storage_layout : Layout := mkLayout 0 1.
Definition Storage_SCHEMA : SchemaKey := mkSchemaKey (schema_id "evering.pool") 1.
Definition PoolInfo_SCHEMA : SchemaKey := mkSchemaKey (schema_id "evering.pool.info") 1.
Definition Storage_MAGIC : Z := 0xB100.

Definition storage_header : Layout := RcHeader_layout PoolInfo_layout Storage_layout.

(** [<Storage as Layout>]; the body stands for the control words behind it. *)
#[export] Instance Storage_Layout : SharedLayout words := {|
  Config := PoolConfig;
  Info := PoolInfo;
  SCHEMA := Storage_SCHEMA;
  MAGIC := Storage_MAGIC;
  INFO_SCHEMA := PoolInfo_SCHEMA;
  body_layout := Storage_layout;
  info_layout := PoolInfo_layout;
  header_layout := storage_header;
  storage := λ c, Some (pc_layout c);
  info := λ c _, pc_info c;
  init := λ c, let! r := Storage_init storage_header (pc_info c) (size (pc_layout c)) in Some (r.2, r.1);
  attach := λ _ c, Storage_attach storage_header (pc_info c) (size (pc_layout c));
|}.

(** [Geometry::config]; [None] is the panic of [info]. *)
Definition geometry_config (g : Geometry) : option PoolConfig :=
  let! i := geometry_info g in Some (mkPoolConfig i (geo_layout g)).

(** ** Layouts found by what they record *)

Section Recorded.
Context {H S T : Type} `{HO : HeapOps H} `{HT : SharedLayout T} (rg : Region).
Context (on_dir : ∀ A, prog (world H) A → prog S A) (on_header : ∀ A, Z → prog (RcHeader T) A → prog S A).
Arguments on_dir {A}. Arguments on_header {A}.

(** [MapDirectory::open_recorded]; the outer [None] is a panic. *)
Definition open_recorded {U} (id : Id) (discover : Info → Z → option (option (Config * U))) : prog S (option (option (Z * U))) :=
  do o <- on_dir (id_offset rg id);
  match o with
  | Err _ => Ret (Some None)
  | Ok offset =>
    match ref_at rg RECORD_LAYOUT offset with
    | Err _ => Ret (Some None)
    | Ok address =>
      do rec <- on_dir (act rec <- load_record offset; Ret rec);
      match recorded_at address rec with
      | Err _ => Ret (Some None)
      | Ok recorded =>
        match offset_of rg address (rl_extent recorded), ref_at rg header_layout offset with
        | Ok _, Ok address =>
          do seen <- on_header offset (inspect_at address (mkLayoutContext (rg_region rg) offset false));
          match seen with
          | Err _ => Ret (Some None)
          | Ok info =>
            match discover info (rl_extent recorded) with
            | None => Ret None
            | Some None => Ret (Some None)
            | Some (Some (conf, value)) =>
              do r <- on_header offset (admit_at rg offset conf false);
              Ret (match r with
                   | None => None
                   | Some (Err _) => Some None
                   | Some (Ok _) => Some (Some (offset, value))
                   end)
            end
          end
        | _, _ => Ret (Some None)
        end
      end
    end
  end.

(** The visitor of [MapDirectory::inspect_layout]: the last match is kept. *)
Definition inspect_visit (layout : LayoutId) (id : Id) (recorded : RecordedLayout) : prog (S * option (Id * RecordedLayout)) (option bool) :=
  if bool_decide (is_Some (mismatch T recorded)) then Ret (Some true) else
  do o <- on_part fst (λ s p, (s, p.2)) (on_dir (id_offset rg id));
  match o with
  | Ok offset =>
    if offset =? layout_offset layout then act_ (λ p, (tt, (p.1, Some (id, recorded)))); Ret (Some true) else Ret (Some true)
  | Err _ => Ret (Some true)
  end.

(** [MapDirectory::inspect_layout]: the offset, the info and the extent of the
    layout, for the caller to inspect; [None] runs out of fuel. *)
Definition inspect_layout (layout : LayoutId) (fuel : nat) : prog (S * option (Id * RecordedLayout)) (option (option (Z * Info * Z))) :=
  let on {A} (p : prog S A) := on_part fst (λ s p, (s, p.2)) p in
  if negb (bool_decide (layout_region layout = rg_region rg)) then Ret (Some None) else
  do scanned <- scan rg (λ A p, on (on_dir p)) (inspect_visit layout) fuel;
  match scanned with
  | None => Ret None
  | Some (Err _) => Ret (Some None)
  | Some (Ok _) =>
    act found <- (λ p, (p.2, p));
    match found with
    | None => Ret (Some None)
    | Some (id, recorded) =>
      do o <- on (on_dir (id_offset rg id));
      match o with
      | Err _ => Ret (Some None)
      | Ok offset =>
        match ref_at rg header_layout offset with
        | Err _ => Ret (Some None)
        | Ok address =>
          do seen <- on (on_header offset (inspect_at address (mkLayoutContext (rg_region rg) offset false)));
          Ret (Some (match seen with Ok info => Some (offset, info, rl_extent recorded) | Err _ => None end))
        end
      end
    end
  end.
End Recorded.

(** ** Pools *)

(** [Pool]; its mapping is the header its identifier leads to. *)
Record MapPool := mkMapPool { mp_id : Id; mp_geometry : Geometry }.

Section Pools.
Context {H D B : Type} `{HO : HeapOps H} `{HD : SharedLayout D}.
Context (rg : Region) (heap_base : Z) (heap_region : RegionId).
Abbreviation S := (session H D B).
Context (on_header : ∀ A, Z → prog (RcHeader words) A → prog S A).
Arguments on_header {A}.

(** [pool::create] *)
Definition pool_create (zeroed : RcHeader words) (fuel : nat) (bound : Z) (range : option BlockRange)
    : prog S (option (result MapPool PoolCreateError)) :=
  match Geometry_create storage_header bound range with
  | Err e => Ret (Some (Err e))
  | Ok g =>
    match geometry_config g with
    | None => Ret None
    | Some conf =>
      do created <- on_dir (create_in rg heap_base heap_region zeroed fuel conf (pc_layout conf));
      Ret (match created with
           | None => None
           | Some (Err _) => Some (Err PoolStorage)
           | Some (Ok id) => Some (Ok (mkMapPool id g))
           end)
    end
  end.

(** [pool::open] *)
Definition pool_open (id : Id) : prog S (option (option MapPool)) :=
  do r <- open_recorded rg (@on_dir H D B HD) (@on_header) id
    (λ info extent,
       match recorded storage_header info extent with
       | None => None
       | Some None => Some None
       | Some (Some g) => match geometry_config g with None => None | Some conf => Some (Some (conf, g)) end
       end);
  Ret (match r with
       | None => None
       | Some None => Some None
       | Some (Some (_, g)) => Some (Some (mkMapPool id g))
       end).

(** [Session::create_pool] and [Session::open_pool] *)
Definition create_pool (zeroed : RcHeader words) (fuel : nat) (extent : Z) (range : option BlockRange) : prog S (option (result MapPool PoolCreateError)) :=
  pool_create zeroed fuel extent range.

Inductive OpenPoolError := PoolUnavailable (id : Id).

Definition open_pool (id : Id) : prog S (option (result MapPool OpenPoolError)) :=
  do r <- pool_open id; Ret (option_map (λ p, ok_or p (PoolUnavailable id)) r).
End Pools.
