(* ===== verification/PoolOpen.v ===== *)
(** * Opening a pool

    Opening finds the geometry the creator chose, and depends on where the
    opener's mapping starts. *)

From S2P Require Import Prelude Alloc TalcGeo Talc TalcInit TalcSpec TalcSafe TalcConf.
From S2P Require Import Atomic Bytes Schema Header HeaderConc Mem Heap HeapConc Dir DirWalk.
From S2P Require Import Token Pool PoolOps PoolGeo Queue Channel ChannelGeo Duplex Session SessionSafe SessionOpen SessionAgree SessionPool.

Lemma storage_header_is : storage_header = mkLayout 160 8.
Proof. vm_compute. reflexivity. Qed.

(** ** The storage of a pool *)

(** The storage is aligned to the largest block. *)
Lemma build_from_align mn base index n layout l cs : layout_wf layout → 0 ≤ base → build_from mn base index n layout = Ok (l, cs) →
  align layout ≤ align l ∧ ∀ c, c ∈ cs → bytes c ≤ align l.
Proof.
  intros Hl Hb. revert index layout Hl l cs. induction n as [|n IH]; intros index layout Hl l cs H; simpl in H.
  { injection H as <- <-. split; [lia|]. by intros c ?%elem_of_nil. }
  destruct (build_class mn base index layout) as [[l1 c1]|] eqn:E1; [|done]. simpl in H.
  destruct (build_from mn base (index + 1) n l1) as [[l2 cs2]|] eqn:E2; [|done]. simpl in H. injection H as <- <-.
  apply build_class_spec in E1 as (Hl1 & _ & _ & _ & _ & _ & _ & _ & _ & _ & Hal & _); [|done..]. destruct (IH _ _ Hl1 _ _ E2) as [Hle Hall].
  split; [lia|]. intros c [->|Hc]%elem_of_cons; [lia|by apply Hall].
Qed.

Lemma created_storage bound range g : range_ok range → bound ≤ usize_max → Geometry_create storage_header bound range = Ok g →
  ∃ conf, geometry_config g = Some conf ∧ pc_layout conf = geo_layout g ∧ recorded storage_header (pc_info conf) (size (geo_layout g)) = Some (Some g) ∧
    layout_wf (geo_layout g) ∧ size storage_header ≤ size (geo_layout g) ∧ (align storage_header ≤ align (geo_layout g)) ∧ ∀ c, c ∈ classes g → bytes c ≤ align (geo_layout g).
Proof.
  intros Hr Hb H. assert (Hwf : layout_wf storage_header) by by_eval.
  destruct (geometry_recorded_roundtrip _ _ _ _ Hwf Hr Hb H) as (info & Hi & Hrec). exists (mkPoolConfig info (geo_layout g)).
  unfold geometry_config. rewrite Hi. split_and!; [done|done|done|..].
  all: destruct (geometry_create_largest _ _ _ _ Hwf Hr Hb H) as (count & base & _ & _ & Hbuild & Hbase & _); unfold build in Hbuild.
  all: destruct (build_from (asked_min range) base 0 (Z.to_nat (Z.of_nat count)) storage_header) as [[l cs]|] eqn:E; [|discriminate Hbuild]; injection Hbuild as <-; cbn [geo_layout classes].
  all: destruct (build_from_align _ _ _ _ _ _ _ Hwf Hbase E) as [Hle Hall]; apply build_from_laid_out in E as (Hl & Hlaid & _); [|done..].
  all: destruct l as [n al]; destruct Hl as [Hp Hn]; cbn [size align] in *; destruct (padded_wf n al Hp Hn) as (Hwf' & _ & Hge); apply laid_out_bounds in Hlaid; cbn [fst pad_to_align size align] in *.
  - done.
  - lia.
  - done.
  - done.
Qed.

Section Open.
Context {H D : Type} `{HO : HeapOps H} `{HD : SharedLayout D} (rg : Region).
Abbreviation S := (session H D (RcHeader words)).

(** A session with one pool. *)
Definition on_pool_header A (_ : Z) (p : prog (RcHeader words) A) : prog S A := on_part ss_bodies with_bodies p.

Lemma run_on_pool_header {A} o (p : prog (RcHeader words) A) (s : S) :
  run (on_pool_header A o p) s = ((run p (ss_bodies s)).1, with_bodies (run p (ss_bodies s)).2 s).
Proof using. unfold on_pool_header. rewrite run_on_part; [done|done|by intros []|done]. Qed.

Lemma ref_at_fits u offset : page_map (rg_map rg) → 0 ≤ offset → 0 ≤ size u → offset + size u ≤ map_len (rg_map rg) → 0 < align u → (map_start (rg_map rg) + offset) mod align u = 0 →
  ref_at rg u offset = Ok (map_start (rg_map rg) + offset).
Proof using.
  intros [(Hs & Hl & Hm) _ _] Ho Hz Hfit _ Ha. unfold ref_at, checked_add. rewrite (proj2 (Z.leb_le _ _)) by lia. cbn [ok_or].
  destruct (Z.ltb_spec (map_len (rg_map rg)) (offset + size u)); [lia|]. by rewrite Ha.
Qed.

Lemma offset_of_fits n offset : page_map (rg_map rg) → 0 ≤ offset → 0 ≤ n → offset + n ≤ map_len (rg_map rg) → offset_of rg (map_start (rg_map rg) + offset) n = Ok offset.
Proof using.
  intros [(Hs & Hl & Hm) _ _] Ho Hn Hfit. unfold offset_of, checked_sub, checked_add. rewrite (proj2 (Z.leb_le _ _)) by lia. cbn [ok_or].
  replace (map_start (rg_map rg) + offset - map_start (rg_map rg)) with offset by lia. rewrite (proj2 (Z.leb_le _ _)) by lia. cbn [ok_or]. by rewrite (proj2 (Z.leb_le _ _)) by lia.
Qed.

Lemma admit_target_fits l offset : page_map (rg_map rg) → 0 ≤ offset → 0 ≤ size l → offset + size l ≤ map_len (rg_map rg) → (map_start (rg_map rg) + offset) mod align l = 0 →
  admit_target rg (Some l) offset false = Ok (map_start (rg_map rg) + offset, mkLayoutContext (rg_region rg) offset false).
Proof using.
  intros [(Hs & Hl & Hm) Hw _] Ho Hz Hfit Ha. unfold admit_target, permits, checked_add. rewrite Hw. cbn [negb ok_or]. rewrite (proj2 (Z.leb_le _ _)) by lia. cbn [ok_or].
  destruct (Z.ltb_spec (map_len (rg_map rg)) (offset + size l)); [lia|]. by rewrite Ha.
Qed.

(** The header of a pool, published. *)
Definition pool_made (offset : Z) (conf : PoolConfig) (W : words) (m : Z) : RcHeader words :=
  published (HT := Storage_Layout) (rg_region rg) offset conf (pc_layout conf) W m.

Lemma storage_keys : key_wf Storage_SCHEMA ∧ is_word 16 Storage_MAGIC.
Proof using. split; [|by_eval]. vm_compute. split; split; (reflexivity || discriminate). Qed.

(** C15: a participant opens a pool another one created, its header admitted to
    and recorded in the directory. If the header's address in the opener's mapping
    is a multiple of the largest block it becomes a member and has the creator's
    geometry, class by class; otherwise the pool is unavailable and nothing
    changes, although the header is mapped, published and agreed on. *)
Theorem open_pool_aligned bound range g conf offset id W m (s : S) :
  range_ok range → bound ≤ usize_max → Geometry_create storage_header bound range = Ok g → geometry_config g = Some conf →
  page_map (rg_map rg) → 0 ≤ offset → (8 | offset) → offset + size (geo_layout g) ≤ map_len (rg_map rg) →
  (run (id_offset rg id) (ss_world s)).1 = Ok offset → ss_bodies s = pool_made offset conf W m →
  (load_record offset (ss_world s)).1 = h_record (ss_bodies s) →
  Z.land m CLOSED = 0 → Z.land m (slot_bit (member_slot (rg_member rg))) = 0 →
  run (open_pool rg on_pool_header id) s =
    if (map_start (rg_map rg) + offset) mod align (geo_layout g) =? 0 then
      (Some (Ok (mkMapPool id g)), with_bodies (pool_made offset conf W (Z.lor m (slot_bit (member_slot (rg_member rg))))) s)
    else (Some (Err (PoolUnavailable id)), s).
Proof using.
  intros Hr Hb Hg Hconf Hm Ho Hd Hfit Hid Hbody Hrec Hc Hs. destruct (created_storage _ _ _ Hr Hb Hg) as (conf' & Hconf' & Hlay & Hback & Hwf & Hsz & Hal & _).
  rewrite Hconf in Hconf'. injection Hconf' as <-. set (l := geo_layout g) in *. rewrite storage_header_is in Hsz, Hal. cbn [size align] in Hsz, Hal.
  destruct storage_keys as [Hk1 Hk2]. assert (H8 : (map_start (rg_map rg) + offset) mod 8 = 0) by (apply Z.mod_divide; [done|]; apply Z.divide_add_r; [apply Hm|done]).
  unfold open_pool, pool_open. rewrite run_bind, run_bind. unfold open_recorded. rewrite run_bind, run_reads_dir, Hid by apply reads_id_offset. cbn [fst snd].
  rewrite ref_at_fits by (try done; cbn [size RECORD_LAYOUT align]; unfold RECORD_SIZE; try lia; apply Z.mod_1_r).
  rewrite run_bind, run_reads_dir by (constructor; [done|constructor]). rewrite run_act. cbn [run fst snd]. rewrite Hrec, Hbody. unfold pool_made at 1.
  rewrite (recorded_made (HT := Storage_Layout)), Hlay by (rewrite ?Hlay; try done; unfold RECORD_SIZE; lia). fold l.
  destruct (Z.eqb_spec ((map_start (rg_map rg) + offset) mod align l) 0) as [Ha|Ha]; [|done]. cbn [rl_extent].
  rewrite offset_of_fits by (done || lia). rewrite ref_at_fits by (try done; change (header_layout (T := words)) with storage_header; rewrite storage_header_is; cbn [size align]; try lia; done).
  rewrite run_bind, run_on_pool_header. unfold inspect_at at 1 2. rewrite run_act. cbn [run fst snd].
  assert (Hins : ∀ m, inspect_fields (map_start (rg_map rg) + offset) (mkLayoutContext (rg_region rg) offset false) (pool_made offset conf W m) = Ok (pc_info conf)).
  { intros m'. unfold pool_made. rewrite Hlay. apply (inspect_made (HT := Storage_Layout) (map_start (rg_map rg) + offset) (rg_region rg) offset conf l W m' false Hwf); [unfold RECORD_SIZE; lia|done..]. }
  rewrite Hbody, Hins, Hback, Hconf. rewrite run_bind, run_on_pool_header. unfold admit_at. change (storage (T := words) (conf : Config (SharedLayout := Storage_Layout))) with (Some (pc_layout conf)).
  assert (Hadm : run (admit_layout (HT := Storage_Layout) (map_start (rg_map rg) + offset) conf (mkLayoutContext (rg_region rg) offset false) (Some (member_slot (rg_member rg)))) (pool_made offset conf W m) =
    (Done (Ok tt), pool_made offset conf W (Z.lor m (slot_bit (member_slot (rg_member rg)))))).
  { unfold pool_made at 1. rewrite (run_admit_attach (HT := Storage_Layout) (rg_region rg) offset (map_start (rg_map rg) + offset) conf conf (Some (member_slot (rg_member rg))) false (pc_layout conf) W m (Hins m) eq_refl).
    - by rewrite bool_decide_true.
    - cbn [attach Storage_Layout]. unfold Storage_attach. rewrite Hlay. by rewrite Hback.
    - done.
    - by intros ? [= <-]. }
  rewrite Hlay, admit_target_fits by (done || lia). cbn [ss_bodies with_bodies].
  rewrite run_bind, Hadm. done.
Qed.
End Open.

(** ** A pool of four megabytes *)

(** The default range gives it blocks up to 16 KiB. *)
Definition demo_large : Geometry := match Geometry_create storage_header 4194304 None with Ok g => g | Err _ => mkGeometry (mkLayout 0 1) [] end.
Definition demo_large_conf : PoolConfig := default (mkPoolConfig (mkPoolInfo 0 0 0) (mkLayout 0 1)) (geometry_config demo_large).

(** A mapping of eight megabytes that starts at a page. *)
Definition demo_at (start : Z) : Region := mkRegion (mkMap start 8388608 3) (mkMember 1 1) (mkRegionId 1 2) false.
Definition demo_large_id : Id := mkId (mkRegionId 1 2) 0 0 1.

(** The directory with the pool 64 KiB into the region, its creator a member. *)
Definition demo_pool_header : RcHeader words := pool_made (demo_at 65536) 65536 demo_large_conf (init_words demo_large) 1.
Definition demo_pool_dir : Directory :=
  let d := Directory_init Meta_null in
  mkDirectory (transaction d) 0 0 (pending_kind d) Meta_null
    (mkSlab 0 (<[0%nat := mkEntry (Z.lor (Z.shiftl 1 STATE_BITS) PUBLISHED) 65536]> (s_entries (root_slab d)))).

#[local] Instance demo_talc : HeapOps talc_heap := talc_ops 12288 demo_geometry demo_lo demo_hi.

Definition demo_pool_session : session talc_heap Root (RcHeader words) :=
  mkSession (mkWorld demo_pool_dir ∅ {[65536 := (h_record demo_pool_header, 1)]} MUTATION_CLEAN demo_heap) 0
    (mkRcHeader (H := Root_Layout) (mkRecord 0 0 (0, 0, 0) [] [] [] [] []) 0 (mkRegionId 0 0) 0 0 0 0 0 0 0 0 0 tt Root_init) Root_init demo_pool_header.

#[local] Abbreviation demo_open_at start := (run (open_pool (demo_at start) on_pool_header demo_large_id) demo_pool_session).1.

(** A second participant opens it where its mapping starts at the same place
    modulo 16 KiB, and not one page further. *)
Lemma open_pool_aligned_witness :
  (demo_open_at 131072 = Some (Ok (mkMapPool demo_large_id demo_large)) ∧ length (classes demo_large) = 9%nat) ∧
  demo_open_at (131072 + 4096) = Some (Err (PoolUnavailable demo_large_id)).
Proof.
  assert (Hall : ∀ start, start = 131072 ∨ start = 131072 + 4096 →
    run (open_pool (demo_at start) on_pool_header demo_large_id) demo_pool_session =
      if (map_start (rg_map (demo_at start)) + 65536) mod align (geo_layout demo_large) =? 0 then
        (Some (Ok (mkMapPool demo_large_id demo_large)), with_bodies (pool_made (demo_at start) 65536 demo_large_conf (init_words demo_large) (Z.lor 1 (slot_bit 1))) demo_pool_session)
      else (Some (Err (PoolUnavailable demo_large_id)), demo_pool_session)).
  { assert (Hg : Geometry_create storage_header 4194304 None = Ok demo_large) by (vm_compute; reflexivity).
    assert (Hconf : geometry_config demo_large = Some demo_large_conf) by (vm_compute; reflexivity).
    assert (Hfit : 65536 + size (geo_layout demo_large) ≤ 8388608) by by_eval.
    intros start Hst.
    assert (Hpm : page_map (rg_map (demo_at start))).
    { split; [destruct Hst as [-> | ->]; by_eval|reflexivity|]. destruct Hst as [-> | ->]; [by exists 16384|by exists 16896]. }
    assert (Hid : (run (id_offset (demo_at start) demo_large_id) (ss_world demo_pool_session)).1 = Ok 65536) by (destruct Hst as [-> | ->]; vm_compute; reflexivity).
    refine (open_pool_aligned (demo_at start) 4194304 None demo_large demo_large_conf 65536 demo_large_id (init_words demo_large) 1 demo_pool_session
      I _ Hg Hconf Hpm _ _ Hfit Hid _ _ _ _); [by_eval|by_eval|by exists 8192|reflexivity|reflexivity|reflexivity|reflexivity]. }
  assert (H1 : (131072 + 65536) mod align (geo_layout demo_large) = 0) by (vm_compute; reflexivity).
  assert (H2 : ((131072 + 4096 + 65536) mod align (geo_layout demo_large) =? 0) = false) by (vm_compute; reflexivity).
  split; [split; [|vm_compute; reflexivity]|].
  - rewrite (Hall 131072) by (by left). cbn [demo_at rg_map map_start]. rewrite H1. reflexivity.
  - rewrite (Hall (131072 + 4096)) by (by right). cbn [demo_at rg_map map_start]. rewrite H2. reflexivity.
Defined.
