(* ===== verification/SessionRecover.v ===== *)
(** * Reaping a participant of channels and pools

    The handler of [RecoveryHandler::of::<Duplex<H>>()] keeps what a session asks
    of its handlers: this is where the recovery of a duplex meets the reaping of
    its dead participant.

    Then a session with a channel and the pool its messages lie in.  The handlers of
    [RecoveryHandler::of::<Duplex<H>>()] and [of::<Storage>()] together keep what a
    session asks of its handlers: the channel gives the blocks of a dead
    participant's messages back to the pool with [release_token], the pool frees
    the blocks the participant holds, and neither undoes the other's work. *)

From S2P Require Import Prelude Alloc TalcGeo Talc TalcInit TalcSpec TalcSafe.
From S2P Require Import Atomic Bytes Schema Header HeaderConc Mem Heap HeapConc Dir DirWalk DirSafe.
From S2P Require Import Channel ChannelGeo Queue QueueInv QueueConc QueueFifo QueueSeq Duplex DuplexSeq DuplexClose DuplexRecover Session SessionSafe.
From S2P Require Import Token Pool PoolGeo PoolOps PoolConc PoolSeq SessionPool.

(** ** The channel *)

Section Handler.
Context {H D V X : Type} `{HO : HeapOps H} `{HD : SharedLayout D}.
Context (rg : Region) (token : SchemaKey) (header slot body : Layout) (cap : nat) (g : DuplexGeometry).
Context (Hg : duplex_geometry header slot (Z.of_nat cap) = Ok g).
Context (release : V → Z → X → bool * X) (attempts : list bool) (Hatt : false ∈ attempts) (dead live : Z).

#[local] Instance channel_layout : SharedLayout (Duplex V) := Duplex_Layout V header slot body token.
Abbreviation B := (RcHeader (Duplex V) * X)%type.
Abbreviation S := (session H D B).

(** A session with one channel: its header, and the state tokens are released
    on. *)
Definition on_channel_header A (_ : Z) (p : prog (RcHeader (Duplex V)) A) : prog S A :=
  on_part (λ s, (ss_bodies s).1) (λ h s, with_bodies (h, (ss_bodies s).2) s) p.

Definition channel_recover (info extent dead live : Z) : prog S (option bool) :=
  on_part (λ s, (h_inner (ss_bodies s).1, (ss_bodies s).2)) (λ b s, with_bodies (with_inner b.1 (ss_bodies s).1, b.2) s)
    (duplex_recover release header slot info extent dead live attempts).

Definition channel_handler : RecoveryHandler (H := H) (D := D) (B := B) := handler_of rg on_channel_header channel_recover.

(** The channel has the capacity its header records. *)
Definition channel_inv (b : B) : Prop := duplex_shape cap (h_inner b.1) ∧ h_info b.1 = Z.of_nat cap.

(** Nothing of the channel is held by the dead participant, which is no longer a
    member of it. *)
Definition channel_clear (_ : Id) (_ : world H) (b : B) : Prop :=
  duplex_clear cap dead (h_inner b.1) ∧ Z.land (h_members b.1) (slot_bit dead) = 0.

Lemma run_on_channel_header {A} o (p : prog (RcHeader (Duplex V)) A) (s : S) :
  run (on_channel_header A o p) s = ((run p (ss_bodies s).1).1, with_bodies ((run p (ss_bodies s).1).2, (ss_bodies s).2) s).
Proof using. unfold on_channel_header. rewrite run_on_part; [done|done|by intros [? ? ? ? []]|done]. Qed.

Lemma run_channel_recover info extent (s : S) :
  run (channel_recover info extent dead live) s =
    let '(b, (dx, x)) := run (duplex_recover release header slot info extent dead live attempts) (h_inner (ss_bodies s).1, (ss_bodies s).2) in
    (b, with_bodies (with_inner dx (ss_bodies s).1, x) s).
Proof using.
  unfold channel_recover. rewrite run_on_part; [by destruct (run _ _) as [b [dx x]]|by intros [] []|by intros [? ? ? ? [[] ?]]|by intros [] [] [? ? ? ? [[] ?]]].
Qed.

(** What the handler does: nothing, or a recovery, and then the membership. *)
Definition handled (recorded : RecordedLayout) (b : option bool) (s s' : S) : Prop :=
  let '(h, x) := ss_bodies s in
  (s' = s ∧ b ≠ Some true) ∨
  ∃ res dx x', run (duplex_recover release header slot (h_info h) (rl_extent recorded) dead live attempts) (h_inner h, x) = (res, (dx, x')) ∧
    ((b ≠ Some true ∧ s' = with_bodies (with_inner dx h, x') s) ∨
     (res = Some true ∧ let m := Z.land (h_members h) (wnot usize_bits (slot_bit dead)) in
      s' = with_bodies (with_members m (with_inner dx h), x') s ∧ (b = Some true → Z.land m (slot_bit dead) = 0))).

Lemma run_channel_handler id recorded (s : S) :
  let '(b, s') := run (rh_run channel_handler id recorded dead live) s in handled recorded b s s'.
Proof using.
  cbn [channel_handler handler_of rh_run]. unfold recover_layout, handled. destruct s as [w hm hd ro [h x]]. cbn [ss_bodies]. set (s := mkSession w hm hd ro (h, x)).
  case_bool_decide; [left; done|]. rewrite run_bind, run_reads_dir by apply reads_id_offset. destruct (run (id_offset _ _) _).1 as [offset|]; [|by left]. destruct (ref_at _ _ _) as [address|]; [|by left].
  rewrite run_bind, run_on_channel_header. unfold inspect_at. cbn [run fst snd ss_bodies s]. destruct (inspect_fields _ _ _) as [info|] eqn:Ei; [|by left].
  assert (Hi : info = h_info h). { revert Ei. unfold inspect_fields. repeat case_match; try done. by intros [= <-]. }
  subst info. change (with_bodies (h, x) (mkSession w hm hd ro (h, x))) with s. rewrite run_bind, run_channel_recover. cbn [ss_bodies s fst snd].
  destruct (run (duplex_recover _ _ _ _ _ _ _ _) _) as [res [dx x']] eqn:Er.
  destruct res as [[]|]; [|cbn [run]; right; exists (Some false), dx, x'; by split; [|left]|cbn [run]; right; exists None, dx, x'; by split; [|left]]. rewrite run_bind, run_on_channel_header. unfold recover_member. rewrite run_act. cbn [run fetch_and_members fst snd ss_bodies with_bodies].
  rewrite run_bind, run_on_channel_header. unfold has_member. rewrite run_act. cbn [run load_members fst snd ss_bodies with_bodies]. right. exists (Some true), dx, x'. split; [done|]. right. split; [done|]. split; [done|].
  intros [= E]. by apply negb_true_iff, negb_false_iff, Z.eqb_eq in E.
Qed.
(** A recovery keeps the shape, and clears the channel when it answers true. *)
Lemma recover_kept extent (dx : Duplex V) (x : X) res dx' x' : duplex_shape cap dx →
  run (duplex_recover release header slot (Z.of_nat cap) extent dead live attempts) (dx, x) = (res, (dx', x')) →
  duplex_shape cap dx' ∧ (res = Some true → duplex_clear cap dead dx').
Proof using Hg Hatt.
  intros Hs E. destruct (decide (extent = size (dg_layout g))) as [->|Hne].
  - destruct (run_duplex_recover release cap header slot g Hg dead live attempts dx x Hs Hatt) as (b & dx1 & x1 & E1 & Hs1 & Hc1). rewrite E in E1. simplify_eq. split; [done|]. intros [= ->]. by apply Hc1.
  - unfold duplex_recover in E. rewrite Hg in E. rewrite (proj2 (Z.eqb_neq _ _)) in E by done. cbn [negb run] in E. by simplify_eq.
Qed.

Lemma members_stay m : Z.land m (slot_bit dead) = 0 → Z.land (Z.land m (wnot usize_bits (slot_bit dead))) (slot_bit dead) = 0.
Proof using. intros E. by rewrite <- Z.land_assoc, (Z.land_comm (wnot _ _)), Z.land_assoc, E. Qed.

Lemma handled_frame recorded b (s s' : S) : handled recorded b s s' →
  ss_world s' = ss_world s ∧ ss_heap_members s' = ss_heap_members s ∧ ss_header s' = ss_header s ∧ ss_root s' = ss_root s.
Proof using. unfold handled. destruct (ss_bodies s) as [h x]. by intros [[-> _]|(res & dx & x' & _ & [[_ ->]|(_ & -> & _)])]. Qed.

Lemma handled_inv recorded b (s s' : S) : handled recorded b s s' → channel_inv (ss_bodies s) → channel_inv (ss_bodies s').
Proof using Hg Hatt.
  unfold handled. destruct (ss_bodies s) as [h x] eqn:Eb. intros [[-> _]|(res & dx & x' & E & Hs')] [Hs Hi]; [by rewrite Eb|]. cbn [fst] in *. rewrite Hi in E.
  destruct (recover_kept _ _ _ _ _ _ Hs E) as [Hs1 _]. by destruct Hs' as [[_ ->]|(_ & -> & _)].
Qed.

Lemma handled_clears recorded (s s' : S) : handled recorded (Some true) s s' → channel_inv (ss_bodies s) → channel_clear (mkId (mkRegionId 0 0) 0 0 0) (ss_world s') (ss_bodies s').
Proof using Hg Hatt.
  unfold handled. destruct (ss_bodies s) as [h x] eqn:Eb. intros [[_ ?]|(res & dx & x' & E & Hs')] [Hs Hi]; [done|]. cbn [fst] in *. rewrite Hi in E.
  destruct (recover_kept _ _ _ _ _ _ Hs E) as [_ Hc]. destruct Hs' as [[? _]|(-> & -> & Hm)]; [done|]. split; [by apply Hc|by apply Hm].
Qed.

Lemma handled_keeps recorded b (s s' : S) id : handled recorded b s s' → channel_inv (ss_bodies s) → channel_clear id (ss_world s) (ss_bodies s) → channel_clear id (ss_world s') (ss_bodies s').
Proof using.
  unfold handled. destruct (ss_bodies s) as [h x] eqn:Eb. intros [[-> _]|(res & dx & x' & E & Hs')] [_ Hi] [Hc Hm]; [by rewrite Eb|]. cbn [fst] in *. rewrite Hi in E.
  pose proof (duplex_recover_again release cap header slot (rl_extent recorded) dead live attempts (h_inner h) x Hc) as Ea. rewrite E in Ea. cbn [snd] in Ea. injection Ea as -> ->.
  destruct Hs' as [[_ ->]|(_ & -> & _)]; [by split|]. split; [done|]. by apply members_stay.
Qed.

(** The recovery of channels keeps the laws of a session's handlers. *)
#[export] Instance channel_laws : RecoveryLaws [channel_handler] dead live channel_inv (λ id _, channel_clear id).
Proof using Hg Hatt.
  split.
  - intros h id recorded s s' ->%list_elem_of_singleton _ Hinv E. pose proof (run_channel_handler id recorded s) as Hh. rewrite E in Hh. exact (handled_clears _ _ _ Hh Hinv).
  - intros h id recorded s id' recorded' ->%list_elem_of_singleton Hinv Hc. pose proof (run_channel_handler id recorded s) as Hh. cbv zeta. destruct (run _ s) as [b s']. by eapply handled_keeps.
  - intros h id recorded s ->%list_elem_of_singleton. pose proof (run_channel_handler id recorded s) as Hh. cbv zeta. destruct (run _ s) as [b s']. cbn [snd].
    destruct (handled_frame _ _ _ _ Hh) as (E1 & E2 & E3 & E4). rewrite E1. split_and!; try done. by apply (handled_inv _ _ _ _ Hh).
Qed.
End Handler.

(** ** Examples *)

#[local] Instance demo_ops : HeapOps talc_heap := talc_ops 12288 demo_geometry demo_lo demo_hi.
#[local] Abbreviation demo_duplex := (channel_layout (V := Z) (mkSchemaKey 7 1) (mkLayout 320 64) (mkLayout 192 64) (mkLayout 192 64)).

(** A header of zero bytes, and the directory with a channel of three slots a
    direction in it. *)
Definition demo_zeroed : @RcHeader (Duplex Z) demo_duplex :=
  @mkRcHeader (Duplex Z) demo_duplex (mkRecord 0 0 (0, 0, 0) [0; 0] [0; 0; 0; 0] (replicate 8 0) (replicate 8 0) (replicate 8 0)) 0 (mkRegionId 0 0) 0 0 0 0 0 0 0 0 0
    0 (Duplex_blank 3).

Definition demo_with_channel : world talc_heap :=
  (run (create_in (HT := demo_duplex) (demo_region 8) 8192 demo_id demo_zeroed 4 3 (mkLayout 1472 64)) demo_dir).2.

#[local] Existing Instance demo_layout.

(** The header of the channel as its creator left it, both participants in it. *)
Definition demo_channel_header (dx : Duplex Z) : @RcHeader (Duplex Z) demo_duplex :=
  with_members (HT := demo_duplex) (slot_bit 7 + slot_bit 8)
    (with_inner (HT := demo_duplex) dx (run (@admit_at (Duplex Z) demo_duplex (demo_region 8) 8704 3 true) demo_zeroed).2).

(** Participant 7 is dead, participant 8 alive. *)
Definition demo_root : Root := <[8%nat := member_word (mkMember 8 1) MEMBER_LIVE]> (<[7%nat := member_word (mkMember 7 1) MEMBER_DEAD]> (replicate 63 0)).

Definition demo_session {B} (b : B) : session talc_heap Z B :=
  mkSession demo_with_channel (slot_bit 7 + slot_bit 8) (with_members (T := Z) (slot_bit 7 + slot_bit 8) demo_header) demo_root b.

Definition demo_release (v d : Z) (x : list (Z * Z)) : bool * list (Z * Z) := (true, (v, d) :: x).

Definition demo_handler : RecoveryHandler (H := talc_heap) (D := Z) :=
  channel_handler (V := Z) (demo_region 8) (mkSchemaKey 7 1) (mkLayout 320 64) (mkLayout 192 64) (mkLayout 192 64) demo_release [false].

Lemma demo_channel_geometry : ∃ g, duplex_geometry (mkLayout 320 64) (mkLayout 192 64) (Z.of_nat 3) = Ok g.
Proof. eexists. vm_compute. reflexivity. Qed.

(** Participant 8 reaps participant 7. *)
#[local] Abbreviation demo_reap :=
  (run (reap_with (demo_region 8) 8192 demo_id true [demo_handler] 4 (mkMember 7 1)) (demo_session (demo_channel_header demo_crashed, []))).

Lemma reap_with_clears_witness : ∃ s', demo_reap = (Some true, s') ∧ (ss_bodies s').2 = [(9, 7); (5, 7)] ∧ Z.land (h_members (ss_header s')) (slot_bit 7) = 0.
Proof.
  destruct demo_channel_geometry as [g Hg].
  assert (Eb : demo_reap.1 = Some true ∧ (ss_bodies demo_reap.2).2 = [(9, 7); (5, 7)]) by (split; vm_compute; reflexivity).
  pose proof (channel_laws (H := talc_heap) (D := Z) (demo_region 8) (mkSchemaKey 7 1) (mkLayout 320 64) (mkLayout 192 64) (mkLayout 192 64) 3 g Hg demo_release [false] ltac:(by_eval) 7 8) as HL.
  destruct demo_reap as [b s'] eqn:E. cbn [fst snd] in Eb. destruct Eb as [Eb Ex]. subst b.
  destruct (reap_with_clears (demo_region 8) 8192 demo_id [demo_handler] 7 8 _ _ (HL := HL) true 4 (mkMember 7 1) (demo_session (demo_channel_header demo_crashed, [])) s') as (_ & _ & Hr).
  - reflexivity.
  - reflexivity.
  - split; [|vm_compute; reflexivity]. split; [vm_compute; reflexivity|vm_compute; reflexivity|]. eexists _, _. split; [vm_compute; reflexivity|]. split; by_eval.
  - exact E.
  - exists s'. split; [reflexivity|]. split; [exact Ex|exact (rp_header _ _ _ _ _ Hr)].
Defined.

(** The owner of the left role removes the channel nobody else adopted. *)
Definition demo_owner : Role := mkRole (mkChannelId (mkId demo_id 0 0 1) 3) 3 4 0 1 8.

#[local] Abbreviation demo_removed :=
  (run (remove (H := talc_heap) (D := Z) (demo_region 8) 8192 demo_id 24 65536 (mkLayout 320 64) (mkLayout 192 64) on_channel collect demo_owner 8704 true [false] 4)
    (demo_session (put_roles [ChannelGeo.enc 1 (Some 8) false; ChannelGeo.enc 1 None false] (Duplex_blank 3), []))).

Lemma remove_after_close_witness : ∃ s', demo_removed = (Some (Ok tt), s') ∧ channel_over demo_owner s'.
Proof.
  assert (Eb : demo_removed.1 = Some (Ok tt)) by (vm_compute; reflexivity). destruct demo_removed as [b s'] eqn:E. cbn [fst] in Eb. subst b. exists s'. split; [reflexivity|].
  apply (remove_after_close (demo_region 8) 8192 demo_id 24 65536 (mkLayout 320 64) (mkLayout 192 64) collect demo_owner 8704 true [false] 4 _ _ _ E). right. reflexivity.
Defined.

(** ** Programs that keep an assertion *)

(** Every action of [p] keeps [P]. *)
Inductive keeps {S A} (P : S → Prop) : prog S A → Prop :=
| keeps_ret a : keeps P (Ret a)
| keeps_act B (f : S → B * S) k : (∀ s, P s → P (f s).2) → (∀ b, keeps P (k b)) → keeps P (Act f k).

Lemma keeps_bind {S A B} (P : S → Prop) (p : prog S A) (k : A → prog S B) : keeps P p → (∀ a, keeps P (k a)) → keeps P (bind p k).
Proof. intros Hp Hk. induction Hp as [|C f c Hf _ IH]; simpl; [done|by constructor]. Qed.

Lemma keeps_run {S A} (P : S → Prop) (p : prog S A) s : keeps P p → P s → P (run p s).2.
Proof. intros Hp. revert s. induction Hp as [|C f c Hf _ IH]; intros s Hs; [done|]. rewrite run_act. by apply IH, Hf. Qed.

Lemma keeps_on_part {S T A} (P : S → Prop) (Q : T → Prop) (get : S → T) put (p : prog T A) :
  (∀ s, P s → Q (get s)) → (∀ t s, P s → Q t → P (put t s)) → keeps Q p → keeps P (on_part get put p).
Proof.
  intros Hg Hp Hk. induction Hk as [|B f k Hf _ IH]; simpl; [constructor|]. constructor; [|done]. intros s Hs.
  pose proof (Hf (get s) (Hg s Hs)) as Ht. destruct (f (get s)) as [b t]. cbn in *. by apply Hp.
Qed.

(** The repair of a channel changes the state beside it by releases alone. *)
Section Beside.
Context {V X : Type} (release : V → Z → X → bool * X) (P : X → Prop).
Hypothesis released : ∀ v d x, P x → P (release v d x).2.

Lemma keeps_on_queue {B} (f : qstate V → B * qstate V) : ∀ s, P s.2 → P (Queue.on_queue f s).2.2.
Proof using. intros [q x] Hx. unfold Queue.on_queue. cbn. by destruct (f q). Qed.

Lemma keeps_release i owner : ∀ s, P s.2 → P (release_value release i owner s).2.2.
Proof using released.
  intros [q x] Hx. unfold release_value. cbn [fst snd]. destruct (value _) as [v|]; [|done]. pose proof (released v owner x Hx) as Hr. by destruct (release v owner x).
Qed.

Lemma repair_slot_keeps lap cap index dead live : keeps (λ s, P s.2) (repair_slot_with release lap cap index dead live).
Proof using released.
  unfold repair_slot_with, repair_producer, repair_consumer, repair_recycle.
  repeat first [ apply keeps_ret | apply keeps_act; [first [apply keeps_on_queue | apply keeps_release]|intros ?] | case_match | progress cbv zeta ].
Qed.

Lemma duplex_recover_keeps header slot capacity extent dead live attempts :
  keeps (λ s, P s.2) (duplex_recover release header slot capacity extent dead live attempts).
Proof using released.
  assert (Hslots : ∀ d lap l, keeps (λ s, P s.2) (repair_slots release d lap capacity dead live l)).
  { intros d lap l. induction l as [|i l IH]; [constructor|]. cbn [repair_slots]. apply keeps_bind; [|intros []; first [done|constructor]].
    unfold repair_in. apply (keeps_on_part _ (λ s, P s.2)); [by intros [] ?|by intros [] [] ? ?|apply repair_slot_keeps]. }
  assert (Hroles : ∀ i, keeps (λ s : Duplex V * X, P s.2) (on_roles (recover_role i dead attempts))).
  { intros i. apply (keeps_on_part _ (λ _, True)); [done|by intros ? []|]. generalize (recover_role i dead attempts). intros p. induction p; constructor; auto. }
  unfold duplex_recover. destruct (duplex_geometry _ _ _); [|constructor]. destruct (negb _); [constructor|].
  apply keeps_bind; [apply Hslots|]. intros []; [|constructor]. cbn [negb]. apply keeps_bind; [apply Hslots|]. intros []; [|constructor]. cbn [negb].
  apply keeps_bind; [apply Hroles|]. intros [|]; [|constructor]. apply keeps_bind; [apply Hroles|]. constructor.
Qed.
End Beside.

(** ** The pool *)

Lemma word_at_set W c s v c' s' : word_at (set_word W c s v) c' s' = v ∨ word_at (set_word W c s v) c' s' = word_at W c' s'.
Proof.
  unfold word_at, set_word. destruct (decide (Z.to_nat c' = Z.to_nat c)) as [->|Hne]; [|right; by rewrite list_lookup_alter_ne].
  rewrite list_lookup_alter_eq. destruct (W !! Z.to_nat c) as [row|]; [cbn|by right].
  destruct (decide (Z.to_nat s' = Z.to_nat s)) as [->|Hne]; [|right; by rewrite list_lookup_insert_ne].
  destruct (decide (Z.to_nat s < length row)%nat); [left; by rewrite list_lookup_insert_eq|right; by rewrite list_insert_ge by lia].
Qed.

(** Every control word is canonical. *)
Definition words_typed (W : words) : Prop := ∀ c s, is_word 32 (word_at W c s) ∧ State_canonical (word_at W c s) = true.

(** [dead] holds none of the blocks of the geometry [g]. *)
Definition words_clear (dead : Z) (g : Geometry) (W : words) : Prop := ∀ c s, (c, s) ∈ all_words g → State_owner (word_at W c s) ≠ Some dead.

(** A free word of a generation a word can have. *)
Lemma free_of_word w : is_word 32 w → 
  is_word 32 (State_free (State_generation w)) ∧ State_canonical (State_free (State_generation w)) = true ∧ State_owner (State_free (State_generation w)) = None.
Proof.
  intros Hw. assert (Hg : gen_ok (State_generation w)).
  { unfold gen_ok, State_generation. change MAX_GENERATION with (2 ^ 25 - 1). change GENERATION_SHIFT with 7.
    rewrite Z.shiftr_div_pow2 by lia. destruct Hw as [Hw0 Hw1]. split; [by apply Z.div_pos|].
    assert (w / 2 ^ 7 < 2 ^ 25); [|lia]. apply Z.div_lt_upper_bound; [done|]. change (2 ^ 7 * 2 ^ 25) with (2 ^ 32). lia. }
  split; [apply wrap_word; lia|]. rewrite enc_free by done. by rewrite enc_canonical, enc_owner.
Qed.

Section Pool.
Context (attempts : list bool) (Hatt : In false attempts).

(** Releasing a word leaves the words typed and clear. *)
Lemma release_word_keeps generation owner c s W :
  let W' := (run (release_word generation owner c s attempts (word_at W c s)) W).2 in
  words_typed W → words_typed W' ∧ ∀ dead g, words_clear dead g W → words_clear dead g W'.
Proof using Hatt.
  intros W' Ht. unfold W'. rewrite run_release_word by done. cbn [snd]. destruct (release_verdict generation owner (word_at W c s)).2 eqn:Ev; [|done].
  assert (Hgen : generation = State_generation (word_at W c s)).
  { unfold release_verdict in Ev. destruct (Z.ltb_spec (State_generation (word_at W c s)) generation); [by rewrite orb_true_r in Ev|].
    destruct (Z.ltb_spec generation (State_generation (word_at W c s))); [|lia]. by destruct (negb _). }
  destruct (free_of_word (word_at W c s)) as (Hf1 & Hf2 & Hf3); [apply Ht|]. rewrite Hgen. split.
  - intros c' s'. destruct (word_at_set W c s (State_free (State_generation (word_at W c s))) c' s') as [-> | ->]; [done|apply Ht].
  - intros dead g Hc c' s' Hin. destruct (word_at_set W c s (State_free (State_generation (word_at W c s))) c' s') as [-> | ->]; [by rewrite Hf3|by apply Hc].
Qed.

Lemma release_token_keeps header found t owner W :
  let W' := (run (release_token header found t owner attempts) W).2 in
  words_typed W → words_typed W' ∧ ∀ dead g, words_clear dead g W → words_clear dead g W'.
Proof using Hatt.
  intros W' Ht. unfold W', release_token. repeat (case_match; try (by split)). rewrite run_act. by apply release_word_keeps.
Qed.

(** Recovering a pool leaves its words typed, clears them when it answers true,
    and keeps them clear. *)
Lemma all_words_nonneg g c s : (c, s) ∈ all_words g → 0 ≤ c ∧ 0 ≤ s.
Proof using.
  unfold all_words. intros Hin. apply list_elem_of_In, in_concat in Hin as (l & Hl%list_elem_of_In & Hin%list_elem_of_In).
  apply list_elem_of_lookup in Hl as [k Hk]. apply list_lookup_imap_Some in Hk as (cl & _ & ->). apply list_elem_of_fmap in Hin as (s' & [= -> ->] & Hs%elem_of_seqZ). lia.
Qed.

Lemma word_at_max W c s : word_at W c s = word_at W (Z.max 0 c) (Z.max 0 s).
Proof using. unfold word_at. by replace (Z.to_nat (Z.max 0 c)) with (Z.to_nat c) by lia; replace (Z.to_nat (Z.max 0 s)) with (Z.to_nat s) by lia. Qed.

Lemma storage_recover_keeps header info extent dead W r W' : words_typed W → run (Storage_recover header info extent dead attempts) W = (r, W') →
  words_typed W' ∧ (r = Some true → ∀ g, recorded header info extent = Some (Some g) → words_clear dead g W') ∧ (∀ g, words_clear dead g W → words_clear dead g W').
Proof using Hatt.
  intros Ht. unfold Storage_recover. destruct (recorded header info extent) as [[g|]|] eqn:Eg; [|by intros [= <- <-]..].
  destruct (run_recover_words dead attempts (all_words g) W Hatt) as (W1 & Hrun & HW).
  { intros c s Hin. destruct (all_words_nonneg g c s Hin). split_and!; [done|done|apply Ht|apply Ht]. }
  rewrite Hrun. intros [= <- <-].
  assert (Hword : ∀ c s, is_word 32 (word_at W1 c s) ∧ State_canonical (word_at W1 c s) = true ∧
    (State_owner (word_at W c s) ≠ Some dead → State_owner (word_at W1 c s) ≠ Some dead)).
  { intros c s. rewrite (word_at_max W1), (word_at_max W), HW by lia. destruct (Ht (Z.max 0 c) (Z.max 0 s)) as [Hw Hcan]. case_decide; [|done].
    destruct (recovered_canonical dead _ Hcan Hw) as (H1 & H2 & H3 & _). done. }
  split_and!.
  - intros c s. by destruct (Hword c s) as (H1 & H2 & _).
  - intros _ g' [= <-] c s Hin. destruct (all_words_nonneg g c s Hin). rewrite HW by done. rewrite decide_True by done.
    destruct (Ht c s) as [Hw Hcan]. by destruct (recovered_canonical dead _ Hcan Hw) as (_ & _ & H3 & _).
  - intros g' Hc c s Hin. by apply Hword, Hc.
Qed.
End Pool.

(** ** A session with a channel and its pool *)

Section Both.
Context {H D V : Type} `{HO : HeapOps H} `{HD : SharedLayout D}.
Context (rg : Region) (token : SchemaKey) (header slot body : Layout) (cap : nat) (g : DuplexGeometry).
Context (Hg : duplex_geometry header slot (Z.of_nat cap) = Ok g).
Context (tok : V → PoolToken) (pool_id : LayoutId) (pool_extent : Z).
Context (attempts : list bool) (Hatt : false ∈ attempts) (dead live : Z).

Abbreviation channel_layout := (channel_layout (V := V) token header slot body).
Abbreviation B := (@RcHeader (Duplex V) channel_layout * RcHeader words)%type.
Abbreviation S := (session H D B).

(** The callback of [Duplex::recover]: [release_token] finds the pool when the
    token names it.  With one pool in the session that is what its scan over the
    published layouts answers; the accesses to the pool are those of
    [release_token], run without another participant's between them. *)
Definition release_to_pool (v : V) (owner : Z) (pool : RcHeader words) : bool * RcHeader words :=
  let found := if bool_decide (tok_pool (tok v) = pool_id) then Some (h_info pool, pool_extent) else None in
  let r := run (release_token storage_header found (tok v) (Some owner) attempts) (h_inner pool) in
  (default false r.1, with_inner r.2 pool).

Definition both_channel_handler : RecoveryHandler (H := H) (D := D) (B := B) := channel_handler rg token header slot body release_to_pool attempts.

Definition on_pool_header A (_ : Z) (p : prog (RcHeader words) A) : prog S A :=
  on_part (λ s, (ss_bodies s).2) (λ h s, with_bodies ((ss_bodies s).1, h) s) p.

(** [Storage::recover] in its place in the session. *)
Definition pool_recover (info : PoolInfo) (extent dead live : Z) : prog S (option bool) :=
  on_part (λ s, h_inner (ss_bodies s).2) (λ W s, with_bodies ((ss_bodies s).1, with_inner W (ss_bodies s).2) s)
    (Storage_recover storage_header info extent dead attempts).

Definition pool_handler : RecoveryHandler (H := H) (D := D) (B := B) := handler_of rg on_pool_header pool_recover.

(** The channel is well-formed and the words of the pool are canonical. *)
Definition both_inv (b : B) : Prop := channel_inv token header slot body cap b ∧ words_typed (h_inner b.2).

(** Nothing of the pool is held by the dead participant, by the geometry that its
    record has. *)
Definition pool_clear (recorded' : RecordedLayout) (b : B) : Prop :=
  (∀ g, recorded storage_header (h_info b.2) (rl_extent recorded') = Some (Some g) → words_clear dead g (h_inner b.2)) ∧
  Z.land (h_members b.2) (slot_bit dead) = 0.

(** The layout an entry records is the channel or the pool, and it is clear. *)
Definition both_clear (id : Id) (recorded' : RecordedLayout) (w : world H) (b : B) : Prop :=
  (rl_schema recorded' = SCHEMA (SharedLayout := channel_layout) ∧ channel_clear (H := H) token header slot body cap dead id w b) ∨
  (rl_schema recorded' = Storage_SCHEMA ∧ pool_clear recorded' b).

Lemma run_on_pool_part {A} o (p : prog (RcHeader words) A) (s : S) :
  run (on_pool_header A o p) s = ((run p (ss_bodies s).2).1, with_bodies ((ss_bodies s).1, (run p (ss_bodies s).2).2) s).
Proof using. unfold on_pool_header. rewrite run_on_part; [done|done|by intros [? ? ? ? []]|done]. Qed.

Lemma run_pool_recover info extent (s : S) :
  run (pool_recover info extent dead live) s =
    let '(b, W) := run (Storage_recover storage_header info extent dead attempts) (h_inner (ss_bodies s).2) in
    (b, with_bodies ((ss_bodies s).1, with_inner W (ss_bodies s).2) s).
Proof using.
  unfold pool_recover. rewrite run_on_part; [by destruct (run _ _)|by intros ? []|by intros [? ? ? ? [? []]]|by intros ? ? [? ? ? ? [? []]]].
Qed.

(** What the handler of the pool does: nothing, or a recovery, and then the
    membership. *)
Definition pool_handled (recorded' : RecordedLayout) (b : option bool) (s s' : S) : Prop :=
  let '(ch, ph) := ss_bodies s in
  (s' = s ∧ b ≠ Some true) ∨
  ∃ res W, run (Storage_recover storage_header (h_info ph) (rl_extent recorded') dead attempts) (h_inner ph) = (res, W) ∧
    ((b ≠ Some true ∧ s' = with_bodies (ch, with_inner W ph) s) ∨
     (res = Some true ∧ let m := Z.land (h_members ph) (wnot usize_bits (slot_bit dead)) in
      s' = with_bodies (ch, with_members m (with_inner W ph)) s ∧ (b = Some true → Z.land m (slot_bit dead) = 0))).

Lemma run_pool_handler id recorded' (s : S) : let '(b, s') := run (rh_run pool_handler id recorded' dead live) s in pool_handled recorded' b s s'.
Proof using.
  cbn [pool_handler handler_of rh_run]. unfold recover_layout, pool_handled. destruct s as [w hm hd ro [ch ph]]. cbn [ss_bodies]. set (s := mkSession w hm hd ro (ch, ph)).
  case_bool_decide; [left; done|]. rewrite run_bind, run_reads_dir by apply reads_id_offset. destruct (run (id_offset _ _) _).1 as [offset|]; [|by left]. destruct (ref_at _ _ _) as [address|]; [|by left].
  rewrite run_bind, run_on_pool_part. unfold inspect_at. cbn [run fst snd ss_bodies s]. destruct (inspect_fields _ _ _) as [info|] eqn:Ei; [|by left].
  assert (Hi : info = h_info ph). { revert Ei. unfold inspect_fields. repeat case_match; try done. by intros [= <-]. }
  subst info. change (with_bodies (ch, ph) (mkSession w hm hd ro (ch, ph))) with s. rewrite run_bind, run_pool_recover. cbn [ss_bodies s fst snd].
  destruct (run (Storage_recover _ _ _ _ _) _) as [res W] eqn:Er.
  destruct res as [[]|]; [|cbn [run]; right; exists (Some false), W; by split; [|left]|cbn [run]; right; exists None, W; by split; [|left]].
  rewrite run_bind, run_on_pool_part. unfold recover_member. rewrite run_act. cbn [run fetch_and_members fst snd ss_bodies with_bodies].
  rewrite run_bind, run_on_pool_part. unfold has_member. rewrite run_act. cbn [run load_members fst snd ss_bodies with_bodies]. right. exists (Some true), W. split; [done|]. right. split; [done|]. split; [done|].
  intros [= E]. by apply negb_true_iff, negb_false_iff, Z.eqb_eq in E.
Qed.

(** The handler of the pool leaves the channel alone and the pool typed, clears
    it when it answers true, and keeps it clear. *)
Lemma pool_handled_done recorded' b (s s' : S) : pool_handled recorded' b s s' → words_typed (h_inner (ss_bodies s).2) →
  ss_world s' = ss_world s ∧ ss_heap_members s' = ss_heap_members s ∧ ss_header s' = ss_header s ∧ ss_root s' = ss_root s ∧
  (ss_bodies s').1 = (ss_bodies s).1 ∧ words_typed (h_inner (ss_bodies s').2) ∧
  (b = Some true → pool_clear recorded' (ss_bodies s')) ∧ (∀ r, pool_clear r (ss_bodies s) → pool_clear r (ss_bodies s')).
Proof using Hatt.
  unfold pool_handled. destruct (ss_bodies s) as [ch ph] eqn:Eb. intros [[-> Hne]|(res & W & Hrun & Hs')] Ht; [by rewrite Eb|]. cbn [snd] in Ht.
  apply list_elem_of_In in Hatt as Hin. destruct (storage_recover_keeps attempts Hin _ _ _ _ _ _ _ Ht Hrun) as (Ht' & Hc1 & Hc2).
  destruct Hs' as [[Hb ->]|(-> & -> & Hm)]; cbn; split_and!; try done.
  - intros r [Hcl Hmem]. split; [|done]. intros g' Hg'. apply Hc2, Hcl, Hg'.
  - intros ->. split; [|by apply Hm]. intros g' Hg'. by apply Hc1.
  - intros r [Hcl Hmem]. split; [intros g' Hg'; apply Hc2, Hcl, Hg'|]. by apply members_stay.
Qed.

Lemma release_to_pool_keeps (P : RcHeader words → Prop) v d ph :
  (∀ W, words_typed W → (∀ dead g, words_clear dead g (h_inner ph) → words_clear dead g W) → P (with_inner W ph)) →
  words_typed (h_inner ph) → P (release_to_pool v d ph).2.
Proof using Hatt.
  intros HP Ht. unfold release_to_pool. cbn [snd]. apply list_elem_of_In in Hatt as Hin.
  destruct (release_token_keeps attempts Hin storage_header (if bool_decide (tok_pool (tok v) = pool_id) then Some (h_info ph, pool_extent) else None) (tok v) (Some d) (h_inner ph) Ht) as [H1 H2].
  by apply HP.
Qed.

(** The recovery of the channel keeps the words of the pool typed and clear. *)
Lemma channel_keeps_pool recorded' b (s s' : S) : handled token header slot body release_to_pool attempts dead live recorded' b s s' → words_typed (h_inner (ss_bodies s).2) →
  words_typed (h_inner (ss_bodies s').2) ∧ ∀ r, pool_clear r (ss_bodies s) → pool_clear r (ss_bodies s').
Proof using Hatt.
  unfold handled. destruct (ss_bodies s) as [ch ph] eqn:Eb. intros [[-> _]|(res & dx & ph' & Hrun & Hs')] Ht; [by rewrite Eb|]. cbn [snd] in Ht.
  set (P := λ p : RcHeader words, words_typed (h_inner p) ∧ h_info p = h_info ph ∧ h_members p = h_members ph ∧ ∀ d g0, words_clear d g0 (h_inner ph) → words_clear d g0 (h_inner p)).
  assert (HP : ∀ v d p, P p → P (release_to_pool v d p).2).
  { intros v d p (H1 & H2 & H3 & H4). apply release_to_pool_keeps; [|done]. intros W HW HC. split_and!; [done|done|done|]. intros d0 g0 Hc. by apply HC, H4. }
  pose proof (keeps_run _ _ (h_inner ch, ph) (duplex_recover_keeps release_to_pool P HP header slot (h_info ch) (rl_extent recorded') dead live attempts)) as Hk.
  rewrite Hrun in Hk. cbn [snd] in Hk. destruct Hk as (H1 & H2 & H3 & H4); [by split_and!|].
  assert (Hb : ∃ ch', ss_bodies s' = (ch', ph')) by (destruct Hs' as [[_ ->]|(_ & -> & _)]; by eexists). destruct Hb as [ch' ->]. cbn [snd]. split; [done|].
  intros r [Hcl Hmem]. unfold pool_clear in *. cbn [snd] in *. rewrite H2, H3. split; [|done]. intros g0 Hg0. by apply H4, Hcl.
Qed.

(** The two handlers together keep the laws of a session's handlers. *)
#[export] Instance both_laws : RecoveryLaws [both_channel_handler; pool_handler] dead live both_inv both_clear.
Proof using Hg Hatt.
  pose proof (channel_laws (H := H) (D := D) rg token header slot body cap g Hg release_to_pool attempts Hatt dead live) as CL.
  assert (Hch : both_channel_handler ∈ [both_channel_handler]) by left.
  split.
  - intros h id rec s s' Hin Hh [Hi Ht] E. pose proof Hh as Hh0. unfold handles in Hh. apply andb_true_iff in Hh as [Hh _]. apply bool_decide_eq_true in Hh.
    apply elem_of_cons in Hin as [->| ->%list_elem_of_singleton]; [left|right]; (split; [exact (eq_sym Hh)|]).
    + exact (rl_clear (RecoveryLaws := CL) both_channel_handler id rec s s' Hch Hh0 Hi E).
    + pose proof (run_pool_handler id rec s) as Hp. rewrite E in Hp. destruct (pool_handled_done _ _ _ _ Hp Ht) as (_ & _ & _ & _ & _ & _ & Hc & _). by apply Hc.
  - intros h id rec s id' rec' Hin [Hi Ht] Hc. apply elem_of_cons in Hin as [->| ->%list_elem_of_singleton]; cbv zeta.
    + pose proof (rl_keeps (RecoveryLaws := CL) both_channel_handler id rec s id' rec' Hch Hi) as Hk. cbv zeta in Hk.
      pose proof (run_channel_handler rg token header slot body release_to_pool attempts dead live id rec s) as Hr. fold both_channel_handler in Hr.
      destruct (run (rh_run both_channel_handler id rec dead live) s) as [b s']. cbn [snd] in *. destruct (channel_keeps_pool _ _ _ _ Hr Ht) as [_ Hpk].
      destruct Hc as [[E Hc]|[E Hp]]; [left|right]; (split; [done|]); [by apply Hk|by apply Hpk].
    + pose proof (run_pool_handler id rec s) as Hr. destruct (run (rh_run pool_handler id rec dead live) s) as [b s']. cbn [snd].
      destruct (pool_handled_done _ _ _ _ Hr Ht) as (_ & _ & _ & _ & E5 & _ & _ & Hpk). 
      destruct Hc as [[E Hc]|[E Hp]]; [left|right]; (split; [done|]); [unfold channel_clear in *; by rewrite E5|by apply Hpk].
  - intros h id rec s Hin. apply elem_of_cons in Hin as [->| ->%list_elem_of_singleton]; cbv zeta.
    + pose proof (rl_frame (RecoveryLaws := CL) both_channel_handler id rec s Hch) as Hf. cbv zeta in Hf.
      pose proof (run_channel_handler rg token header slot body release_to_pool attempts dead live id rec s) as Hr. fold both_channel_handler in Hr.
      destruct (run (rh_run both_channel_handler id rec dead live) s) as [b s']. cbn [snd] in *. destruct Hf as (F1 & F2 & F3 & F4 & F5 & F6 & F7). split_and!; try done.
      intros [Hi Ht]. split; [by apply F7|]. by apply (channel_keeps_pool _ _ _ _ Hr).
    + pose proof (run_pool_handler id rec s) as Hr. destruct (run (rh_run pool_handler id rec dead live) s) as [b s']. cbn [snd].
      assert (Hworld : ss_world s' = ss_world s ∧ ss_heap_members s' = ss_heap_members s ∧ ss_header s' = ss_header s ∧ ss_root s' = ss_root s).
      { unfold pool_handled in Hr. destruct (ss_bodies s) as [ch ph]. by destruct Hr as [[-> _]|(res & W & _ & [[_ ->]|(_ & -> & _)])]. }
      destruct Hworld as (-> & -> & -> & ->). split_and!; try done. intros [Hi Ht]. destruct (pool_handled_done _ _ _ _ Hr Ht) as (_ & _ & _ & _ & E5 & E6 & _).
      split; [|done]. unfold channel_inv in *. by rewrite E5.
Qed.

(** C16: a dead participant of a session with a channel and its pool is reaped,
    its place in the root given up for others, only when it is not the caller, no
    other participant's transaction was under way, and, in the state left behind,
    every layout published in the directory is the channel or the pool and is
    free of it: no slot of the channel and no role names it, no block of the pool
    is its own, and it is a member of neither, nor of the heap and the directory. *)
Theorem reap_frees_dead heap_base heap_region debug fuel member (s s' : S) :
  member_slot member = dead → member_slot (rg_member rg) = live → both_inv (ss_bodies s) →
  run (reap_with rg heap_base heap_region debug [both_channel_handler; pool_handler] fuel member) s = (Some true, s') →
  member ≠ rg_member rg ∧ (word_owner (transaction (w_dir (ss_world s))) = None ∨ word_owner (transaction (w_dir (ss_world s))) = Some dead) ∧
  (∀ rs k r i, chain rg (ss_world s') SRoot rs → rs !! k = Some r → 0 ≤ i < CAPACITY → published_word (e_state (entry_at (ss_world s') r i)) = true →
    ∃ layout, records rg (ss_world s') r i layout ∧
      (rl_schema layout = SCHEMA (SharedLayout := channel_layout) ∧
        duplex_clear cap dead (h_inner (ss_bodies s').1) ∧ Z.land (h_members (ss_bodies s').1) (slot_bit dead) = 0 ∨
       rl_schema layout = Storage_SCHEMA ∧
        (∀ geo c sl, recorded storage_header (h_info (ss_bodies s').2) (rl_extent layout) = Some (Some geo) → (c, sl) ∈ all_words geo →
          State_owner (word_at (h_inner (ss_bodies s').2) c sl) ≠ Some dead) ∧ Z.land (h_members (ss_bodies s').2) (slot_bit dead) = 0)) ∧
  Z.land (ss_heap_members s') (slot_bit dead) = 0 ∧ Z.land (h_members (ss_header s')) (slot_bit dead) = 0 ∧
  run (release_dead member) (ss_root s) = (true, ss_root s').
Proof using Hg Hatt.
  intros Hdead Hlive Hinv Hrun. destruct (reap_with_clears rg heap_base heap_region _ dead live both_inv both_clear debug fuel member s s' Hdead Hlive Hinv Hrun) as (H1 & H2 & [R1 R2 R3 R4]).
  rewrite Hdead in *. split_and!; [done|done| |done|done|done]. intros rs k r i Hch Hk Hi Hp. destruct (R1 rs Hch k r i Hk Hi Hp) as (layout & Hrec & Hc).
  exists layout. split; [done|]. destruct Hc as [[E [Hc Hm]]|[E [Hc Hm]]]; [left; by split_and!|right]. split_and!; [done| |done]. intros geo c sl Hgeo. by apply (Hc geo).
Qed.
End Both.

(** ** An example *)

#[local] Abbreviation demo_channel := (channel_layout (V := Z) (mkSchemaKey 7 1) (mkLayout 320 64) (mkLayout 192 64) (mkLayout 192 64)).

(** A pool of four blocks beside the channel of three slots a direction. *)
Definition demo_small_conf : PoolConfig := mkPoolConfig (mkPoolInfo 64 4 1) (mkLayout 448 64).
Definition demo_zero_pool : RcHeader words :=
  mkRcHeader (H := Storage_Layout) (mkRecord 0 0 (0, 0, 0) [0; 0] [0; 0; 0; 0] (replicate 8 0) (replicate 8 0) (replicate 8 0)) 0 (mkRegionId 0 0) 0 0 0 0 0 0 0 0 0 (mkPoolInfo 0 0 0) [].
Definition demo_with_both : world talc_heap :=
  (run (create_in (HT := Storage_Layout) (demo_region 8) 8192 demo_id demo_zero_pool 4 demo_small_conf (pc_layout demo_small_conf)) demo_with_channel).2.

(** The first block is participant 7's own, the last one participant 8's, and the
    other two are in messages. *)
Definition demo_words : words := [[PoolConc.enc 1 (Local 7); PoolConc.enc 1 Detached; PoolConc.enc 1 Detached; PoolConc.enc 1 (Local 8)]].
Definition demo_pool_made : RcHeader words :=
  with_members (T := words) (slot_bit 7 + slot_bit 8) (with_inner (T := words) demo_words (run (admit_at (T := words) (demo_region 8) 10240 demo_small_conf true) demo_zero_pool).2).

(** Participant 7 died while it was sending the message of block 1 and had claimed
    the message of block 2. *)
Definition demo_broken : Duplex Z :=
  mkDuplex 0 [ChannelGeo.enc 1 (Some 7) false; ChannelGeo.enc 1 (Some 8) false]
    (mkHalf 0 1 [mkSlot 0 (owned PRODUCER true 7) (Some 1); Slot_new 1; Slot_new 2])
    (mkHalf 4 4 [mkSlot 0 (owned CONSUMER true 7) (Some 2); Slot_new 1; Slot_new 2]).

Definition demo_pool_key : LayoutId := mkLayoutId demo_id 10240.
Definition demo_tok (v : Z) : PoolToken := mkPoolToken demo_pool_key 0 (mkSpan 0 v) 1 1 3.

Definition demo_both : session talc_heap Z (@RcHeader (Duplex Z) demo_channel * RcHeader words) :=
  mkSession demo_with_both (slot_bit 7 + slot_bit 8) (with_members (T := Z) (slot_bit 7 + slot_bit 8) demo_header) demo_root
    (demo_channel_header demo_broken, demo_pool_made).

#[local] Abbreviation demo_handlers :=
  [both_channel_handler (H := talc_heap) (D := Z) (demo_region 8) (mkSchemaKey 7 1) (mkLayout 320 64) (mkLayout 192 64) (mkLayout 192 64) demo_tok demo_pool_key 448 [true; false];
   pool_handler (demo_region 8) (mkSchemaKey 7 1) (mkLayout 320 64) (mkLayout 192 64) (mkLayout 192 64) [true; false]].
#[local] Abbreviation demo_reap_both := (run (reap_with (demo_region 8) 8192 demo_id true demo_handlers 4 (mkMember 7 1)) demo_both).

Lemma demo_words_typed : words_typed demo_words.
Proof.
  intros c s. unfold word_at. destruct (Z.to_nat c) as [|n], (Z.to_nat s) as [|[|[|[|m]]]]; cbn; split; by_eval.
Qed.

(** Participant 8 reaps participant 7: the block it held and those of its two
    messages are free, and the block of participant 8 is still its own. *)
Lemma reap_frees_dead_witness : ∃ s', demo_reap_both = (Some true, s') ∧
  h_inner (ss_bodies s').2 = [[PoolConc.enc 1 Free; PoolConc.enc 1 Free; PoolConc.enc 1 Free; PoolConc.enc 1 (Local 8)]] ∧ Z.land (h_members (ss_header s')) (slot_bit 7) = 0.
Proof.
  destruct demo_channel_geometry as [g Hg].
  assert (Eb : demo_reap_both.1 = Some true ∧ h_inner (ss_bodies demo_reap_both.2).2 = [[PoolConc.enc 1 Free; PoolConc.enc 1 Free; PoolConc.enc 1 Free; PoolConc.enc 1 (Local 8)]]) by (split; vm_compute; reflexivity).
  destruct demo_reap_both as [b s'] eqn:E. cbn [fst snd] in Eb. destruct Eb as [Eb Ew]. subst b.
  destruct (reap_frees_dead (H := talc_heap) (D := Z) (demo_region 8) (mkSchemaKey 7 1) (mkLayout 320 64) (mkLayout 192 64) (mkLayout 192 64) 3 g Hg demo_tok demo_pool_key 448 [true; false] ltac:(by_eval) 7 8
    8192 demo_id true 4 (mkMember 7 1) demo_both s') as (_ & _ & _ & _ & Hm & _).
  - reflexivity.
  - reflexivity.
  - split; [|exact demo_words_typed]. split; [|vm_compute; reflexivity]. split; [vm_compute; reflexivity|vm_compute; reflexivity|]. eexists _, _. split; [vm_compute; reflexivity|]. split; by_eval.
  - exact E.
  - exists s'. split; [reflexivity|]. split; [exact Ew|exact Hm].
Defined.
