(* ===== verification/Notify.v ===== *)
(** * Notification and waiting

    Models [src/src/notify.rs] on the transfers of [Transfer], with the waiter of
    [src/src/runtime.rs].  The native events are an argument; [Events] has those of
    each system.

    An asynchronous routine is what one poll of its future does: it runs to its
    end or is suspended where it waits, and is polled again from there. *)

From S2P Require Import Prelude Atomic Alloc Bytes Schema Header Mem Heap Dir Token Pool PoolOps.
From S2P Require Import Channel Queue Duplex Transfer.

(** ** Vocabulary *)

Definition LOCAL_RETRY_LIMIT : Z := 32.

(** [core::task::Poll] *)
Inductive Poll (A : Type) := Pending | Ready (a : A).
Arguments Pending {A}. Arguments Ready {A}.

Record Committed (T E : Type) := mkCommitted { cm_value : T; cm_notified : result unit E }.
Arguments mkCommitted {T E}. Arguments cm_value {T E}. Arguments cm_notified {T E}.

(** [Committed::into_parts] *)
Definition into_parts {T E} (c : Committed T E) : T * result unit E := (cm_value c, cm_notified c).

(** [Committed::into_value], where a notification cannot fail. *)
Definition into_value {T} (c : Committed T Empty_set) : T :=
  match cm_notified c with
  | Ok _ => cm_value c
  | Err never => match never with end
  end.

Inductive ProgressError (E : Type) := ProgressBusy | ProgressClosed | ProgressWait (e : E).
Arguments ProgressBusy {E}. Arguments ProgressClosed {E}. Arguments ProgressWait {E}.

(** ** Signals

    [Signals]: what a participant notifies with and waits on, as programs on the
    state [N] of the events.  [wait] is one poll of [Wait::wait]; [None] when its
    turns end before it does. *)
Record Signals (N EN EW : Type) := mkSignals {
  notify : prog N (result unit EN);
  wait : prog N (option (Poll (result unit EW)));
}.
Arguments mkSignals {N EN EW}. Arguments notify {N EN EW}. Arguments wait {N EN EW}.

(** [Signals::none], of the [Notify] of the unit type: there is nothing to wait
    on. *)
Definition none {N} : prog N (result unit Empty_set) := Ret (Ok tt).

(** ** Futures that wait between attempts *)

Section Progress.
Context {S N A EN EW : Type} (sg : Signals N EN EW).

(** Programs on the channel and programs on the events. *)
Definition on_chan {B} (p : prog S B) : prog (S * N) B := on_part fst (λ s x, (s, x.2)) p.
Definition on_event {B} (p : prog N B) : prog (S * N) B := on_part snd (λ n x, (x.1, n)) p.

(** Why an attempt did not succeed: the peer or this side closed, a local
    contention, or nothing to be had before the peer acts. *)
Inductive Setback := SetClosed | SetBusy | SetWait.

Context (attempt : prog S (option (result A Setback))).

(** The future of [Signals::reserve] and [Signals::claim], from a [retry]
    of the loop on; [fuel] bounds its turns.  The outer [None] is a panic or the
    end of the fuel. *)
Fixpoint progress (fuel : nat) (retries : Z) : prog (S * N) (option (Poll (result A (ProgressError EW)))) :=
  match fuel with
  | O => Ret None
  | Datatypes.S fuel =>
    do r <- on_chan attempt;
    match r with
    | None => Ret None
    | Some (Ok a) => Ret (Some (Ready (Ok a)))
    | Some (Err SetClosed) => Ret (Some (Ready (Err ProgressClosed)))
    | Some (Err SetBusy) =>
      if retries =? LOCAL_RETRY_LIMIT - 1 then Ret (Some (Ready (Err ProgressBusy)))
      else progress fuel (retries + 1)
    | Some (Err SetWait) =>
      do w <- on_event (wait sg);
      match w with
      | None => Ret None
      | Some Pending => Ret (Some Pending)
      | Some (Ready (Err e)) => Ret (Some (Ready (Err (ProgressWait e))))
      | Some (Ready (Ok _)) => progress fuel 0
      end
    end
  end.

(** A suspended future is polled again. *)
Definition resume (fuel : nat) : prog (S * N) (option (Poll (result A (ProgressError EW)))) :=
  do w <- on_event (wait sg);
  match w with
  | None => Ret None
  | Some Pending => Ret (Some Pending)
  | Some (Ready (Err e)) => Ret (Some (Ready (Err (ProgressWait e))))
  | Some (Ready (Ok _)) => progress fuel 0
  end.
End Progress.

(** ** Operations *)

Section Operations.
Context {H N EN EW : Type} (sg : Signals N EN EW).
Abbreviation C := (Duplex (Token H) * words)%type.

(** [committed] *)
Definition committed {T} (value : T) : prog (C * N) (Committed T EN) :=
  do notified <- on_event (notify sg); Ret (mkCommitted value notified).

Definition commit_ok {T E} (r : option (result T E)) : prog (C * N) (option (result (Committed T EN) E)) :=
  match r with
  | None => Ret None
  | Some (Err e) => Ret (Some (Err e))
  | Some (Ok v) => do c <- committed v; Ret (Some (Ok c))
  end.

(** [Signals::try_send] *)
Definition signals_try_send (p : PoolRef) (r : Role) (d : Z) (v : Transfer H)
    : prog (C * N) (option (result (Committed unit EN) (TrySendError (Transfer H)))) :=
  do sent <- on_chan (tx_try_send p r d v); commit_ok sent.

(** The match of [Signals::reserve] on [Tx::reserve]. *)
Definition reserve_setback (e : ReserveError) : Setback :=
  match e with Closed => SetClosed | Busy => SetBusy | Full => SetWait end.

Definition attempt_reserve (r : Role) (d : Z) : prog C (option (result nat Setback)) :=
  do i <- tx_reserve r d; Ret (map_err reserve_setback <$> i).

(** [Signals::reserve]: a [Permit] is the slot it reserved. *)
Definition signals_reserve (r : Role) (d : Z) (fuel : nat) : prog (C * N) (option (Poll (result nat (ProgressError EW)))) :=
  progress sg (attempt_reserve r d) fuel 0.

(** The match of [Signals::claim] on [Rx::claim]. *)
Definition claim_setback (e : ReceiveError) : Setback :=
  match e with ReceiveClosed => SetClosed | ReceiveBusy => SetBusy | ReceiveEmpty => SetWait end.

Definition attempt_claim (r : Role) (d : Z) : prog C (option (result Claim Setback)) :=
  do c <- rx_claim r d; Ret (map_err claim_setback <$> c).

(** [Signals::claim] *)
Definition signals_claim (r : Role) (d : Z) (fuel : nat) : prog (C * N) (option (Poll (result Claim (ProgressError EW)))) :=
  progress sg (attempt_claim r d) fuel 0.

(** [Signals::adopt], [Signals::admit], [Signals::discard] *)
Definition signals_adopt (p : PoolRef) (d : Z) (c : Claim) (s : Shape) (expected : Z)
    : prog (C * N) (option (result (Committed (H * claimed) EN) AdoptError)) :=
  do r <- on_chan (received_adopt p d c s expected); commit_ok r.

Definition signals_admit (p : PoolRef) (d : Z) (c : Claim) (s : Shape) (expected : Z)
    : prog (C * N) (option (result (Committed claimed EN) AdoptError)) :=
  do r <- on_chan (received_admit p d c s expected); commit_ok r.

Definition signals_discard (p : PoolRef) (d : Z) (c : Claim)
    : prog (C * N) (option (result (Committed H EN) AdoptError)) :=
  do r <- on_chan (received_discard p d c); commit_ok r.

(** [Signals::close_tx], [Signals::close_rx] *)
Definition signals_close_tx (r : Role) (d : Z) : prog (C * N) (Committed unit EN) :=
  do _ <- on_chan (tx_close r d); committed tt.

Definition signals_close_rx (r : Role) (d : Z) : prog (C * N) (Committed unit EN) :=
  do _ <- on_chan (rx_close r d); committed tt.

(** [Permit::send]; [None] is the panic of publishing. *)
Definition permit_send (p : PoolRef) (d : Z) (i : nat) (v : Transfer H) : prog (C * N) (option (Committed unit EN)) :=
  do _ <- on_chan (transfer_stage d i v);
  do published <- on_chan (transfer_publish p d i (tr_allocation v));
  match published with
  | None => Ret None
  | Some _ => do c <- committed tt; Ret (Some c)
  end.

(** [Permit::rollback]: the reservation is dropped. *)
Definition permit_rollback (d : Z) (i : nat) : prog C unit := on_queue d (skip i).

(** [Permit::cancel] *)
Definition permit_cancel (d : Z) (i : nat) : prog (C * N) (Committed unit EN) :=
  do _ <- on_chan (permit_rollback d i); committed tt.

(** The drop of a permit neither sent nor cancelled. *)
Definition permit_drop (d : Z) (i : nat) : prog (C * N) unit :=
  do _ <- on_chan (permit_rollback d i); do _ <- on_event (notify sg); Ret tt.
End Operations.

(** ** Native events

    What [os::event] gives on each system, and the runtime of [src/src/runtime.rs]
    waits on: [ev_ring] is [<Ring as Notify>::notify], one system call and what is
    made of its answer, [ev_clear] is [Event::clear], [None] when its turns end
    first, and [ev_readable] whether the runtime finds the event readable. *)

Inductive Errno := EAGAIN | EPIPE | Errno_other (code : Z).

Record EventOps (K : Type) := mkEventOps {
  ev_ring : K → result unit Errno * K;
  ev_clear : prog K (option (result unit Errno));
  ev_readable : K → bool;
}.
Arguments mkEventOps {K}. Arguments ev_ring {K}. Arguments ev_clear {K}. Arguments ev_readable {K}.

(** [<Wait as notify::Wait>::wait] of the runtime, polled once. *)
Definition Wait_poll {K} (ops : EventOps K) : prog K (option (Poll (result unit Errno))) :=
  act readable <- (λ k, (ev_readable ops k, k));
  if readable then do c <- ev_clear ops; Ret (Ready <$> c) else Ret (Some Pending).

(** What the runtime relies on of an event: after a ring that was answered with
    success it is readable, and no ring makes it less so. *)
Class EventLaws {K} (ops : EventOps K) := {
  ring_readable k : is_ok (ev_ring ops k).1 = true → ev_readable ops (ev_ring ops k).2 = true;
  ring_keeps k : ev_readable ops k = true → ev_readable ops (ev_ring ops k).2 = true;
}.

(** A participant of a channel waits on its own event and rings its peer's; the
    pair holds the events of role 0 and of role 1. *)
Definition event_of {K} (i : Z) (n : K * K) : K := if i =? 0 then n.1 else n.2.
Definition put_event {K} (i : Z) (k : K) (n : K * K) : K * K := if i =? 0 then (k, n.2) else (n.1, k).

Definition peer_signals {K} (ops : EventOps K) (i : Z) : Signals (K * K) Errno Errno :=
  mkSignals (on_part (event_of (1 - i)) (put_event (1 - i)) (act r <- ev_ring ops; Ret r))
            (on_part (event_of i) (put_event i) (Wait_poll ops)).
