(* ===== verification/Events.v ===== *)
(** * Native events

    Models the events of [src/src/os/eventfd.rs], [src/src/os/pipe.rs] and
    [src/src/os/event.rs]: a sticky latch that one participant rings and another
    waits on and clears.  The kernel object behind each is an argument with its
    documented behaviour; each discharges [EventLaws] and [StickyLaws]. *)

From S2P Require Import Prelude Atomic Alloc Bytes Schema Header Mem Heap Dir Token Pool PoolOps.
From S2P Require Import Channel Queue Duplex Transfer Notify.

(** ** What clearing promises *)

(** Clearing alone, with turns enough for what [ev_unread] says is there, comes to
    an end; a success leaves the event unreadable. *)
Class StickyLaws {K} (ops : nat → EventOps K) := {
  ev_unread : K → nat;
  sticky_readable n m k : ev_readable (ops n) k = ev_readable (ops m) k;
  sticky_ring n m k : ev_ring (ops n) k = ev_ring (ops m) k;
  clear_ends n k : (ev_unread k < n)%nat → (run (ev_clear (ops n)) k).1 ≠ None;
  clear_dark n k : (run (ev_clear (ops n)) k).1 = Some (Ok tt) → ev_readable (ops n) (run (ev_clear (ops n)) k).2 = false;
}.

(** ** An eventfd *)

(** Writing and reading an eventfd, and whether it is readable. *)
Record CounterOps (K : Type) := mkCounterOps {
  efd_write : Z → K → result Z Errno * K;
  efd_read : K → result Z Errno * K;
  efd_readable : K → bool;
}.
Arguments mkCounterOps {K}. Arguments efd_write {K}. Arguments efd_read {K}. Arguments efd_readable {K}.

(** After a write of one that succeeded, or that found the counter full, it is
    readable; no write makes it less so; a read that succeeds or would block
    leaves it at zero. *)
Class CounterLaws {K} (ops : CounterOps K) := {
  write_readable k : match (efd_write ops 1 k).1 with Ok _ | Err EAGAIN => efd_readable ops (efd_write ops 1 k).2 = true | Err _ => True end;
  write_keeps k : efd_readable ops k = true → efd_readable ops (efd_write ops 1 k).2 = true;
  read_empties k : match (efd_read ops k).1 with Ok _ | Err EAGAIN => efd_readable ops (efd_read ops k).2 = false | Err _ => True end;
}.

Section Eventfd.
Context {K : Type} (ops : CounterOps K).

(** [<Ring as Notify>::notify] *)
Definition Ring_notify (k : K) : result unit Errno * K :=
  let '(r, k') := efd_write ops 1 k in
  (match r with Ok _ | Err EAGAIN => Ok tt | Err error => Err error end, k').

(** [Event::clear] *)
Definition Event_clear : prog K (option (result unit Errno)) :=
  act r <- efd_read ops;
  Ret (Some (match r with Ok _ | Err EAGAIN => Ok tt | Err error => Err error end)).

Definition eventfd : EventOps K := mkEventOps Ring_notify Event_clear (efd_readable ops).

#[export] Instance eventfd_laws `{CL : !CounterLaws ops} : EventLaws eventfd.
Proof using.
  split; intros k; cbn; unfold Ring_notify; pose proof (write_readable k) as H1; pose proof (write_keeps k) as H2;
    destruct (efd_write ops 1 k) as [[|[]] k']; done.
Qed.

#[export, refine] Instance eventfd_sticky `{CL : !CounterLaws ops} : StickyLaws (λ _, eventfd) := { ev_unread _ := 0%nat }.
Proof using.
  - done.
  - done.
  - intros n k _. cbn. by destruct (efd_read ops k).
  - intros n k. cbn. pose proof (read_empties k) as Hr. by destruct (efd_read ops k) as [[|[]] k'].
Defined.
End Eventfd.

(** ** A pair of stream sockets *)

(** Writing bytes at one end and reading up to some number of them at the
    other, and whether the reading end is readable. *)
Record StreamOps (K : Type) := mkStreamOps {
  so_write : list Z → K → result Z Errno * K;
  so_read : nat → K → result (list Z) Errno * K;
  so_readable : K → bool;
}.
Arguments mkStreamOps {K}. Arguments so_write {K}. Arguments so_read {K}. Arguments so_readable {K}.

(** [so_unread] bytes wait to be read.  A write of a byte that succeeds, or finds
    no room, leaves some; a read takes no more than it asked for; one that would
    block found none. *)
Class StreamLaws {K} (ops : StreamOps K) := {
  so_unread : K → nat;
  stream_readable k : match (so_write ops [1] k).1 with Ok _ | Err EAGAIN => so_readable ops (so_write ops [1] k).2 = true | Err _ => True end;
  stream_keeps k : so_readable ops k = true → so_readable ops (so_write ops [1] k).2 = true;
  read_takes n k : match so_read ops n k with
    | (Ok l, k') => (length l ≤ n)%nat ∧ so_unread k = (length l + so_unread k')%nat
    | (Err EAGAIN, k') => so_readable ops k' = false
    | (Err _, _) => True
    end;
}.

Section Pipe.
Context {K : Type} (ops : StreamOps K).

(** [<Ring as Notify>::notify] *)
Definition pipe_notify (k : K) : result unit Errno * K :=
  let '(r, k') := so_write ops [1] k in
  (match r with Ok _ => Ok tt | Err EAGAIN => Ok tt | Err error => Err error end, k').

(** The loop of [Event::clear]. *)
Fixpoint pipe_clear (fuel : nat) : prog K (option (result unit Errno)) :=
  match fuel with
  | O => Ret None
  | S fuel =>
    act r <- so_read ops 64;
    match r with
    | Ok [] => Ret (Some (Err EPIPE))
    | Ok _ => pipe_clear fuel
    | Err EAGAIN => Ret (Some (Ok tt))
    | Err error => Ret (Some (Err error))
    end
  end.

Definition pipe (fuel : nat) : EventOps K := mkEventOps pipe_notify (pipe_clear fuel) (so_readable ops).

Context `{SL : !StreamLaws ops}.

#[export] Instance pipe_laws fuel : EventLaws (pipe fuel).
Proof using SL.
  split; intros k; cbn; unfold pipe_notify; pose proof (stream_readable k) as H1; pose proof (stream_keeps k) as H2;
    destruct (so_write ops [1] k) as [[|[]] k']; done.
Qed.

(** A turn of the loop takes a byte at least. *)
Lemma pipe_clear_run fuel k :
  ((so_unread k < fuel)%nat → (run (pipe_clear fuel) k).1 ≠ None) ∧
  ((run (pipe_clear fuel) k).1 = Some (Ok tt) → so_readable ops (run (pipe_clear fuel) k).2 = false).
Proof using SL.
  revert k. induction fuel as [|fuel IH]; intros k; [split; [lia|done]|]. cbn [pipe_clear]. rewrite run_act.
  pose proof (read_takes 64 k) as Hr. destruct (so_read ops 64 k) as [[[|b l]|[]] k']; cbn [fst snd].
  - done.
  - destruct Hr as [_ Hr]. cbn [length] in Hr. destruct (IH k') as [IH1 IH2]. split; [intros Hf; apply IH1; lia|done].
  - done.
  - done.
  - done.
Qed.

#[export, refine] Instance pipe_sticky : StickyLaws pipe := { ev_unread := so_unread }.
Proof using SL.
  - done.
  - done.
  - intros n k. apply pipe_clear_run.
  - intros n k. apply pipe_clear_run.
Defined.
End Pipe.

(** ** A manual-reset event *)

(** [SetEvent], [ResetEvent] and [GetLastError]; a call that fails is [false]. *)
Record ObjectOps (K : Type) := mkObjectOps {
  eo_set : K → bool * K;
  eo_reset : K → bool * K;
  eo_error : K → Z;
  eo_signaled : K → bool;
}.
Arguments mkObjectOps {K}. Arguments eo_set {K}. Arguments eo_reset {K}. Arguments eo_error {K}. Arguments eo_signaled {K}.

Class ObjectLaws {K} (ops : ObjectOps K) := {
  set_signals k : if (eo_set ops k).1 then eo_signaled ops (eo_set ops k).2 = true else (eo_set ops k).2 = k;
  reset_clears k : if (eo_reset ops k).1 then eo_signaled ops (eo_reset ops k).2 = false else (eo_reset ops k).2 = k;
}.

Section Object.
Context {K : Type} (ops : ObjectOps K).

(** [<Ring as Notify>::notify] *)
Definition object_notify (k : K) : result unit Errno * K :=
  let '(r, k') := eo_set ops k in
  (if negb r then Err (Errno_other (eo_error ops k')) else Ok tt, k').

(** [Event::clear] *)
Definition object_clear : prog K (option (result unit Errno)) :=
  act r <- eo_reset ops;
  if negb r then act e <- (λ k, (eo_error ops k, k)); Ret (Some (Err (Errno_other e))) else Ret (Some (Ok tt)).

Definition event_object : EventOps K := mkEventOps object_notify object_clear (eo_signaled ops).

#[export] Instance object_laws `{OL : !ObjectLaws ops} : EventLaws event_object.
Proof using.
  split; intros k; cbn; unfold object_notify; pose proof (set_signals k) as H1; destruct (eo_set ops k) as [[] k']; cbn in *; try done. by subst.
Qed.

#[export, refine] Instance object_sticky `{OL : !ObjectLaws ops} : StickyLaws (λ _, event_object) := { ev_unread _ := 0%nat }.
Proof using.
  - done.
  - done.
  - intros n k _. cbn. by destruct (eo_reset ops k) as [[] k'].
  - intros n k. cbn. pose proof (reset_clears k) as Hr. by destruct (eo_reset ops k) as [[] k'].
Defined.
End Object.

(** ** Making an event *)

(** [eventfd], [dup], [socketpair], [set_nonblocking], the drop of a descriptor,
    and [CreateEventW], where 0 is the null handle. *)
Class MakeOps (K : Type) := {
  sys_eventfd : K → result Z Errno * K;
  sys_dup : Z → K → result Z Errno * K;
  sys_pair : K → result (Z * Z) Errno * K;
  sys_nonblocking : Z → K → result unit Errno * K;
  sys_close : Z → K → unit * K;
  sys_create_event : K → Z * K;
  sys_last_error : K → Z;
}.

(** [handles] are the open ones of the process; what a call opens was not open. *)
Class MakeLaws (K : Type) `{MakeOps K} := {
  handles : K → gset Z;
  eventfd_opens k : match sys_eventfd k with
    | (Ok d, k') => (d ∉ handles k) ∧ handles k' = {[d]} ∪ handles k
    | (Err _, k') => handles k' = handles k
    end;
  dup_opens d k : match sys_dup d k with
    | (Ok d', k') => (d' ∉ handles k) ∧ handles k' = {[d']} ∪ handles k
    | (Err _, k') => handles k' = handles k
    end;
  pair_opens k : match sys_pair k with
    | (Ok (a, b), k') => a ≠ b ∧ (a ∉ handles k) ∧ (b ∉ handles k) ∧ handles k' = {[a; b]} ∪ handles k
    | (Err _, k') => handles k' = handles k
    end;
  nonblocking_keeps d k : handles (sys_nonblocking d k).2 = handles k;
  sys_closes d k : handles (sys_close d k).2 = handles k ∖ {[d]};
  create_opens k : let '(h, k') := sys_create_event k in
    if h =? 0 then handles k' = handles k else (h ∉ handles k) ∧ handles k' = {[h]} ∪ handles k;
}.

Section Make.
Context {K : Type} `{MO : MakeOps K}.

(** [event] of [eventfd.rs]: the ring's and the event's descriptor. *)
Definition eventfd_event : prog K (result (Z * Z) Errno) :=
  act made <- sys_eventfd;
  match made with
  | Err e => Ret (Err e)
  | Ok owned =>
    act cloned <- sys_dup owned;
    match cloned with
    | Err e => act_ sys_close owned; Ret (Err e)
    | Ok ring => Ret (Ok (ring, owned))
    end
  end.

(** [event] of [pipe.rs] *)
Definition pipe_event : prog K (result (Z * Z) Errno) :=
  act made <- sys_pair;
  match made with
  | Err e => Ret (Err e)
  | Ok (ring, event) =>
    act r1 <- sys_nonblocking ring;
    match r1 with
    | Err e => act_ sys_close event; act_ sys_close ring; Ret (Err e)
    | Ok _ =>
      act r2 <- sys_nonblocking event;
      match r2 with
      | Err e => act_ sys_close event; act_ sys_close ring; Ret (Err e)
      | Ok _ => Ret (Ok (ring, event))
      end
    end
  end.

(** [event] of [event.rs]: one handle with two local owners. *)
Definition object_event : prog K (result (Z * Z) Errno) :=
  act handle <- sys_create_event;
  if handle =? 0 then act e <- (λ k, (sys_last_error k, k)); Ret (Err (Errno_other e)) else Ret (Ok (handle, handle)).
End Make.

(** Making an event opens exactly the handles it returns, none of which was open,
    and a failure at any step leaves none open. *)
Theorem event_owns {K} `{ML : MakeLaws K} (p : prog K (result (Z * Z) Errno)) k :
  p = eventfd_event ∨ p = pipe_event ∨ p = object_event →
  match run p k with
  | (Ok (ring, event), k') => (ring ∉ handles k) ∧ (event ∉ handles k) ∧ handles k' = {[ring; event]} ∪ handles k
  | (Err _, k') => handles k' = handles k
  end.
Proof.
  intros [->|[->| ->]].
  - unfold eventfd_event. rewrite run_act. pose proof (eventfd_opens k) as H1. destruct (sys_eventfd k) as [[d|e] k1]; [|done]. cbn [fst snd]. destruct H1 as [Hd H1].
    rewrite run_act. pose proof (dup_opens d k1) as H2. destruct (sys_dup d k1) as [[d'|e] k2]; cbn [fst snd].
    + destruct H2 as [Hd' H2]. rewrite H1 in Hd', H2. cbn [run]. clear -Hd Hd' H2. set_solver.
    + rewrite run_act. cbn [run]. rewrite sys_closes, H2, H1. clear -Hd. set_solver.
  - assert (Hc : ∀ a b (k0 k1 : K), (a ∉ handles k0) → (b ∉ handles k0) → handles k1 = {[a; b]} ∪ handles k0 →
      handles (run (act_ sys_close b; act_ sys_close a; Ret tt) k1).2 = handles k0).
    { intros a b k0 k1 Ha Hb E. rewrite !run_act. cbn [run snd]. rewrite !sys_closes, E. clear -Ha Hb. set_solver. }
    unfold pipe_event. rewrite run_act. pose proof (pair_opens k) as H1. destruct (sys_pair k) as [[[a b]|e] k1]; [|done]. cbn [fst snd]. destruct H1 as (_ & Ha & Hb & H1).
    rewrite run_act. pose proof (nonblocking_keeps a k1) as H2. destruct (sys_nonblocking a k1) as [[[]|e] k2]; cbn [fst snd] in *; rewrite H1 in H2.
    2: { pose proof (Hc a b k k2 Ha Hb H2) as Hd. rewrite !run_act in *. exact Hd. }
    rewrite run_act. pose proof (nonblocking_keeps b k2) as H3. destruct (sys_nonblocking b k2) as [[[]|e] k3]; cbn [fst snd] in *; rewrite H2 in H3; [done|].
    pose proof (Hc a b k k3 Ha Hb H3) as Hd. rewrite !run_act in *. exact Hd.
  - unfold object_event. rewrite run_act. pose proof (create_opens k) as H1. destruct (sys_create_event k) as [h k1]. cbn [fst snd].
    destruct (h =? 0); [by rewrite run_act|]. destruct H1 as [Hh H1]. cbn [run]. rewrite H1. clear -Hh. set_solver.
Qed.

(** A process as its open handles, which opens the next ones that are free. *)
#[export] Instance table_ops : MakeOps (gset Z) := {
  sys_eventfd k := let d := fresh k in (Ok d, {[d]} ∪ k);
  sys_dup d k := if bool_decide (d ∈ k) then let d' := fresh k in (Ok d', {[d']} ∪ k) else (Err (Errno_other 9), k);
  sys_pair k := let a := fresh k in let b := fresh ({[a]} ∪ k) in (Ok (a, b), {[a; b]} ∪ k);
  sys_nonblocking d k := (if bool_decide (d ∈ k) then Ok tt else Err (Errno_other 9), k);
  sys_close d k := (tt, k ∖ {[d]});
  sys_create_event k := let h := fresh ({[0]} ∪ k) in (h, {[h]} ∪ k);
  sys_last_error k := 0;
}.

#[export, refine] Instance table_laws : MakeLaws (gset Z) := { handles k := k }.
Proof.
  - intros k. cbn. split; [apply is_fresh|done].
  - intros d k. cbn. case_bool_decide; [|done]. split; [apply is_fresh|done].
  - intros k. cbn. pose proof (is_fresh k) as Ha. pose proof (is_fresh ({[fresh k]} ∪ k)) as Hb. apply not_elem_of_union in Hb as [Hb1 Hb2].
    split_and!; [|done|done|done]. intros E. apply Hb1. by apply elem_of_singleton.
  - done.
  - done.
  - intros k. cbn. pose proof (is_fresh ({[0]} ∪ k)) as Hh. apply not_elem_of_union in Hh as [H0 Hh].
    destruct (Z.eqb_spec (fresh ({[0]} ∪ k)) 0) as [E|]; [|done]. exfalso. apply H0. by apply elem_of_singleton.
Defined.

Lemma event_owns_witness :
  let k := {[0; 1; 2]} : gset Z in
  ∃ ring event k', run pipe_event k = (Ok (ring, event), k') ∧ handles k' = {[ring; event]} ∪ k.
Proof.
  intros k. assert (E : ∃ ring event k', run pipe_event k = (Ok (ring, event), k')) by (eexists _, _, _; vm_compute; reflexivity).
  destruct E as (ring & event & k' & E). exists ring, event, k'. split; [exact E|].
  pose proof (event_owns pipe_event k ltac:(right; left; reflexivity)) as H. rewrite E in H. exact (proj2 (proj2 H)).
Defined.

(** ** Sticky and coalesced *)

(** The state after some rings, if all were answered with success. *)
Fixpoint rings {K} (ops : EventOps K) (n : nat) (k : K) : option K :=
  match n with
  | O => Some k
  | S n => let '(r, k') := ev_ring ops k in if is_ok r then rings ops n k' else None
  end.

(** An event of any of the three systems is a sticky latch: after any positive
    number of rings it is readable, clearing it once, with turns for what is
    unread, comes to an end, and if it succeeds it is no longer readable, however
    often it was rung. *)
Theorem events_sticky {K} (ops : nat → EventOps K) `{EL : ∀ n, EventLaws (ops n)} `{SL : !StickyLaws ops} n k k' :
  rings (ops 0%nat) (S n) k = Some k' →
  ev_readable (ops 0%nat) k' = true ∧
  ∀ fuel, (ev_unread (ops := ops) k' < fuel)%nat →
    ∃ r, (run (ev_clear (ops fuel)) k').1 = Some r ∧
      (r = Ok tt → ev_readable (ops 0%nat) (run (ev_clear (ops fuel)) k').2 = false).
Proof.
  intros Hr. split.
  - cbn [rings] in Hr. pose proof (ring_readable (ops := ops 0%nat) k) as H1. destruct (ev_ring (ops 0%nat) k) as [r k1]. cbn [fst snd] in H1. destruct (is_ok r); [|done].
    specialize (H1 eq_refl). clear k r. revert k1 Hr H1. induction n as [|n IH]; intros k1 Hr H1; cbn [rings] in Hr; [by injection Hr as <-|].
    pose proof (ring_keeps (ops := ops 0%nat) k1 H1) as H2. destruct (ev_ring (ops 0%nat) k1) as [r k2]. destruct (is_ok r); [|done]. by eapply IH.
  - intros fuel Hf. pose proof (clear_ends fuel k' Hf) as He. pose proof (clear_dark fuel k') as Hd.
    destruct (run (ev_clear (ops fuel)) k') as [[r|] k2]; [|done]. exists r. split; [done|]. intros ->.
    rewrite (sticky_readable 0 fuel). by apply Hd.
Qed.

(** ** Kernel objects that keep the laws *)

(** The counter of an eventfd, nonblocking: a write that would pass its largest
    value is refused, a read empties it. *)
Definition COUNTER_MAX : N := 2 ^ 64 - 2.

Definition counter_ops : CounterOps N := {|
  efd_write := λ v c, if (COUNTER_MAX <? c + Z.to_N v)%N then (Err EAGAIN, c) else (Ok 8, (c + Z.to_N v)%N);
  efd_read := λ c, if (c =? 0)%N then (Err EAGAIN, c) else (Ok (Z.of_N c), 0%N);
  efd_readable := λ c, negb (c =? 0)%N;
|}.

#[export] Instance counter_laws : CounterLaws counter_ops.
Proof.
  split; intros c; cbn [counter_ops efd_write efd_read efd_readable]; [..|by destruct (N.eqb_spec c 0) as [->|]];
    change (Z.to_N 1) with 1%N; destruct (N.ltb_spec COUNTER_MAX (c + 1)) as [Hc|Hc];
    unfold COUNTER_MAX in *; cbn [fst snd]; destruct (N.eqb_spec c 0), (N.eqb_spec (c + 1) 0); done || lia.
Qed.

(** The buffer of a nonblocking stream socket, with room for some bytes. *)
Definition STREAM_ROOM : nat := 128.

Definition buffer_ops : StreamOps (list Z) := {|
  so_write := λ bytes b, if (STREAM_ROOM <=? length b)%nat then (Err EAGAIN, b) else (Ok (Z.of_nat (length bytes)), b ++ bytes);
  so_read := λ n b, match b with [] => (Err EAGAIN, b) | _ => (Ok (firstn n b), skipn n b) end;
  so_readable := λ b, negb (bool_decide (b = []));
|}.

#[export, refine] Instance buffer_laws : StreamLaws buffer_ops := { so_unread := length }.
Proof.
  - intros b. cbn [buffer_ops so_write so_readable]. destruct b as [|x b]; [done|]. by destruct (STREAM_ROOM <=? length (x :: b))%nat.
  - intros b. cbn [buffer_ops so_write so_readable]. destruct b as [|x b]; [done|]. by destruct (STREAM_ROOM <=? length (x :: b))%nat.
  - intros n b. cbn [buffer_ops so_read]. destruct b as [|x b]; [done|]. rewrite length_firstn, length_skipn. lia.
Defined.

(** A manual-reset event. *)
Definition flag_ops : ObjectOps bool := {|
  eo_set := λ _, (true, true); eo_reset := λ _, (true, false); eo_error := λ _, 0; eo_signaled := λ k, k |}.

#[export] Instance flag_laws : ObjectLaws flag_ops.
Proof. by split; intros k. Qed.

(** A hundred rings of each, cleared once. *)
Lemma events_sticky_witness :
  (∃ c, rings (eventfd counter_ops) 100 0%N = Some c ∧ efd_readable counter_ops c = true) ∧
  (∃ b, rings (pipe buffer_ops 0) 200 [] = Some b ∧ length b = 128%nat ∧ so_readable buffer_ops b = true ∧
     ∃ r, (run (pipe_clear buffer_ops 129) b).1 = Some r) ∧
  ∃ f, rings (event_object flag_ops) 100 false = Some f ∧ eo_signaled flag_ops f = true.
Proof.
  assert (E1 : rings (eventfd counter_ops) 100 0%N = Some 100%N) by (vm_compute; reflexivity).
  assert (E2 : ∃ b, rings (pipe buffer_ops 0) 200 [] = Some b ∧ length b = 128%nat) by (eexists; split; vm_compute; reflexivity).
  assert (E3 : rings (event_object flag_ops) 100 false = Some true) by (vm_compute; reflexivity).
  destruct E2 as (b & E2 & El). split; [|split].
  - exists 100%N. split; [exact E1|]. exact (proj1 (events_sticky (λ _, eventfd counter_ops) 99 0%N 100%N E1)).
  - exists b. split; [exact E2|]. split; [exact El|]. destruct (events_sticky (pipe buffer_ops) 199 [] b E2) as [Hr Hc]. split; [exact Hr|].
    destruct (Hc 129%nat) as (r & Er & _); [|by exists r]. change (ev_unread (ops := pipe buffer_ops) b) with (length b). rewrite El. lia.
  - exists true. split; [exact E3|]. exact (proj1 (events_sticky (λ _, event_object flag_ops) 99 false true E3)).
Defined.
