(* ===== verification/NotifyWake.v ===== *)
(** * No wake-up is lost

    Participants of a channel that wait on their events and ring each other's,
    interleaved at every access: what a waiting participant waits for has not
    happened, or its event is lit, or somebody is about to ring it. *)

From S2P Require Import Prelude Atomic Alloc Bytes Schema Header Mem Heap Dir Token Pool PoolOps.
From S2P Require Import Channel Queue Duplex Transfer Notify.

(** ** Programs that commit at one access *)

Section Commits.
Context {S : Type} (quiet moved : S → S → Prop).

(** Every access of the program is quiet, but for one that may move: then the
    program ends with an answer in [ok], and only then. *)
Inductive commits {A} (ok : A → Prop) : prog S A → Prop :=
| commits_ret a : ¬ ok a → commits ok (Ret a)
| commits_quiet B (f : S → B * S) k : (∀ s, quiet s (f s).2) → (∀ b, commits ok (k b)) → commits ok (Act f k)
| commits_move (f : S → bool * S) k a :
    (∀ s, if (f s).1 then moved s (f s).2 else quiet s (f s).2) → k true = Ret a → ok a → commits ok (k false) → commits ok (Act f k).

(** A program all of whose accesses are quiet. *)
Definition still {A} : prog S A → Prop := commits (λ _, False).

Lemma commits_bind {A B} (ok : B → Prop) (p : prog S A) (k : A → prog S B) :
  still p → (∀ a, commits ok (k a)) → commits ok (bind p k).
Proof using.
  intros Hp Hk. induction Hp as [a _|C f c Hf _ IH|f c a _ _ []]; cbn [bind]; [done|by constructor].
Qed.
End Commits.

Lemma still_bind {S A B} (quiet : S → S → Prop) moved (p : prog S A) (k : A → prog S B) :
  still quiet moved p → (∀ a, still quiet moved (k a)) → still quiet moved (bind p k).
Proof. apply commits_bind. Qed.

Lemma commits_on_part {S T A} (quiet moved : S → S → Prop) (quiet' moved' : T → T → Prop) (get : S → T) put (ok : A → Prop) p :
  (∀ s t, quiet' (get s) t → quiet s (put t s)) → (∀ s t, moved' (get s) t → moved s (put t s)) →
  commits quiet' moved' ok p → commits quiet moved ok (on_part get put p).
Proof.
  intros Hq Hm Hp. induction Hp as [a|B f k Hf _ IH|f k a Hf Ha Hok _ IH]; cbn [on_part]; [by constructor|..].
  - constructor; [|done]. intros s. specialize (Hf (get s)). destruct (f (get s)). by apply Hq.
  - eapply (commits_move _ _ _ _ _ a); [|by rewrite Ha|done|done].
    intros s. specialize (Hf (get s)). destruct (f (get s)) as [[] t]; [by apply Hm|by apply Hq].
Qed.

(** A part that nothing quiet depends on. *)
Lemma still_on_part {S T A} (quiet moved : S → S → Prop) (get : S → T) put (p : prog T A) :
  (∀ s t, quiet s (put t s)) → still quiet moved (on_part get put p).
Proof. intros Hq. induction p as [a|B f k IH]; cbn [on_part]; [exact (commits_ret _ _ _ _ (λ F, F))|]. apply commits_quiet; [|exact IH]. intros s. destruct (f (get s)). apply Hq. Qed.

Lemma on_part_act {S T A B} (get : S → T) put (f : T → B * T) (k : B → prog T A) :
  on_part get put (Act f k) = Act (λ s, let '(b, t) := f (get s) in (b, put t s)) (λ b, on_part get put (k b)).
Proof. done. Qed.

(** ** Waiting, owing and waking *)

Section Wake.
(** The cursor only the waiter [w] moves, the one the others move, when the two
    give it something to do, and whether its event is lit. *)
Context {D N : Type} (mine theirs : D → Z) (ready : Z → Z → bool) (lit : N → bool) (w : nat).

(** What the waiter's cursor is, who moved the other cursor and has not rung
    since, and whether the waiter saw that there is nothing to do and waits. *)
Record wk := mkWk { wk_mine : Z; wk_owing : gset nat; wk_asleep : bool }.

Record winv (x : wk) (s : D * N) : Prop := {
  wi_mine : wk_mine x = mine s.1;
  wi_self : w ∉ wk_owing x;
  wi_wake : wk_asleep x = true → ready (mine s.1) (theirs s.1) = true → lit s.2 = true ∨ wk_owing x ≠ ∅;
}.

Definition wguar (t : nat) (x x' : wk) : Prop :=
  if decide (t = w) then wk_owing x' = wk_owing x
  else wk_mine x' = wk_mine x ∧ wk_asleep x' = wk_asleep x ∧ ∀ t', t' ≠ t → (t' ∈ wk_owing x' ↔ t' ∈ wk_owing x).

Abbreviation rely := (rely_of wguar).
Abbreviation wp := (wp winv rely).

Lemma wguar_refl t x : wguar t x x.
Proof using. unfold wguar. by case_decide. Qed.

Definition owes (t : nat) (b : bool) (x : wk) : Prop := bool_decide (t ∈ wk_owing x) = b.

Lemma owes_stable t b : stable rely t (owes t b).
Proof using.
  apply stable_of. intros t' x x' Hne Hg. unfold owes, wguar in *. case_decide; [by rewrite Hg|].
  destruct Hg as (_ & _ & Ho). intros <-. apply bool_decide_ext, Ho. done.
Qed.

(** What the waiter knows of its own cursor and state. *)
Definition waiter (m : Z) (b : bool) (x : wk) : Prop := wk_mine x = m ∧ wk_asleep x = b.

Lemma waiter_stable m b : stable rely w (waiter m b).
Proof using.
  apply stable_of. intros t' x x' Hne Hg [<- <-]. unfold wguar in Hg. rewrite decide_False in Hg by done. by destruct Hg as (? & ? & _).
Qed.

Definition sleeps (x : wk) : Prop := wk_asleep x = true.

Lemma sleeps_stable : stable rely w sleeps.
Proof using. intros x x' HR Hs. by apply (waiter_stable (wk_mine x) true x x' HR). Qed.

(** Accesses that move no cursor and put out no light; those that move the others'. *)
Definition quiet (s s' : D * N) : Prop :=
  mine s'.1 = mine s.1 ∧ theirs s'.1 = theirs s.1 ∧ (lit s.2 = true → lit s'.2 = true).
Definition moved (s s' : D * N) : Prop := mine s'.1 = mine s.1.

Lemma winv_quiet x s s' : winv x s → quiet s s' → winv x s'.
Proof using.
  intros [Hm Hs Hw] (Em & Et & El). split; [by rewrite Em|done|]. rewrite Em, Et. intros Ha Hr. destruct (Hw Ha Hr); [left; by apply El|by right].
Qed.

Lemma wp_quiet_act t (P : wk → Prop) A B (f : D * N → B * (D * N)) (k : B → prog (D * N) A) Q x :
  P x → stable rely t P → (∀ s, quiet s (f s).2) → (∀ b x', P x' → wp t (k b) Q x') → wp t (Act f k) Q x.
Proof using.
  intros HP Hst Hf Hk. apply (wp_act _ _ P); [done|done|]. intros x1 s HP1 HI. exists x1.
  split_and!; [by eapply winv_quiet|apply wguar_refl|by apply Hk].
Qed.

Lemma wp_still t (P : wk → Prop) {A} (p : prog (D * N) A) x :
  stable rely t P → still quiet moved p → P x → wp t p (λ _, P) x.
Proof using.
  intros Hst Hp. revert x. induction Hp as [a _|B f k Hf _ IH|f k a _ _ []]; intros x HP; [by apply wp_ret|].
  by apply (wp_quiet_act t P).
Qed.

(** A thread other than the waiter owes a ring once it committed. *)
Lemma wp_commits t b {A} (ok : A → Prop) `{!∀ a, Decision (ok a)} (p : prog (D * N) A) x :
  t ≠ w → commits quiet moved ok p → owes t b x → wp t p (λ a, owes t (b || bool_decide (ok a))) x.
Proof using.
  intros Hne Hp. revert x. induction Hp as [a Ha|B f k Hf _ IH|f k a Hf Ha Hok _ IH]; intros x Ho.
  - apply wp_ret. by rewrite bool_decide_false, orb_false_r.
  - by apply (wp_quiet_act t (owes t b)); [|apply owes_stable|..].
  - apply (wp_act _ _ (owes t b)); [done|apply owes_stable|]. intros x1 s Ho1 HI. specialize (Hf s). destruct (f s) as [[] s'] eqn:E; cbn [fst snd] in *.
    + exists (mkWk (wk_mine x1) ({[t]} ∪ wk_owing x1) (wk_asleep x1)). split_and!.
      * destruct HI as [Hm Hs _]. split; cbn; [by rewrite Hf|set_solver|]. intros _ _. right. set_solver.
      * unfold wguar. rewrite decide_False by done. cbn. split_and!; [done|done|]. set_solver.
      * rewrite Ha. apply wp_ret. rewrite (bool_decide_true (ok a)), orb_true_r by done. unfold owes. cbn. rewrite bool_decide_true; set_solver.
    + exists x1. split_and!; [by eapply winv_quiet|apply wguar_refl|by apply IH].
Qed.

(** Ringing settles what is owed. *)
Lemma wp_ring t b A B (f : D * N → B * (D * N)) (k : B → prog (D * N) A) (heard : B → bool) Q x :
  t ≠ w → owes t b x → (∀ s, quiet s (f s).2) → (∀ s, heard (f s).1 = true → lit (f s).2.2 = true) →
  (∀ a x', owes t (b && negb (heard a)) x' → wp t (k a) Q x') → wp t (Act f k) Q x.
Proof using.
  intros Hne Ho Hf Hl Hk. apply (wp_act _ _ (owes t b)); [done|apply owes_stable|]. intros x1 s Ho1 HI. specialize (Hl s).
  destruct (heard (f s).1) eqn:Eh.
  - exists (mkWk (wk_mine x1) (wk_owing x1 ∖ {[t]}) (wk_asleep x1)). split_and!.
    + destruct HI as [Hm Hs _]. split; cbn; [by rewrite (proj1 (Hf s))|set_solver|]. intros _ _. left. by apply Hl.
    + unfold wguar. rewrite decide_False by done. cbn. split_and!; [done|done|]. set_solver.
    + apply Hk. rewrite Eh, andb_false_r. unfold owes. cbn. rewrite bool_decide_false; set_solver.
  - exists x1. split_and!; [by eapply winv_quiet|apply wguar_refl|]. apply Hk. by rewrite Eh, andb_true_r.
Qed.

(** The waiter, awake, does as it likes. *)
Lemma wp_awake {A} (p : prog (D * N) A) x : wp w p (λ _ _, True) x.
Proof using.
  revert x. induction p as [a|B f k IH]; intros x; [by apply wp_ret|]. intros x1 s _ HI.
  exists (mkWk (mine (f s).2.1) (wk_owing x1) false). split_and!; [by split; [|apply HI|]|..|apply IH].
  intros t' Ht. apply (rely_of_guar wguar t' w); [done|]. unfold wguar. by rewrite decide_True.
Qed.

(** All it can answer is in [phi]. *)
Fixpoint answers {T A} (phi : A → Prop) (p : prog T A) : Prop :=
  match p with Ret a => phi a | Act f k => ∀ b, answers phi (k b) end.

Lemma answers_bind {T A B} (phi : B → Prop) (p : prog T A) (k : A → prog T B) : (∀ a, answers phi (k a)) → answers phi (bind p k).
Proof using. intros Hk. induction p as [a|C f c IH]; cbn; [done|auto]. Qed.

Lemma wp_answers {T A} (phi : A → Prop) get put (p : prog T A) x : answers phi p → wp w (on_part get put p) (λ a _, phi a) x.
Proof using.
  revert x. induction p as [a|B f k IH]; intros x Hp; [by apply wp_ret|]. intros x1 s _ HI.
  set (s' := (let '(b, t) := f (get s) in (b, put t s))).
  exists (mkWk (mine s'.2.1) (wk_owing x1) false). split_and!; [by split; [|apply HI|]|..|by apply IH].
  intros t' Ht. apply (rely_of_guar wguar t' w); [done|]. unfold wguar. by rewrite decide_True.
Qed.

(** An access of the waiter after which it knows its cursor. *)
Lemma wp_look A B (f : D * N → B * (D * N)) (k : B → prog (D * N) A) Q x :
  (∀ s x', waiter (mine (f s).2.1) false x' → wp w (k (f s).1) Q x') → wp w (Act f k) Q x.
Proof using.
  intros Hk x1 s _ HI. exists (mkWk (mine (f s).2.1) (wk_owing x1) false). split_and!; [by split; [|apply HI|]|..|by apply Hk].
  intros t' Ht. apply (rely_of_guar wguar t' w); [done|]. unfold wguar. by rewrite decide_True.
Qed.

(** An access at which the waiter finds nothing to do, and falls asleep. *)
Lemma wp_sleep A B (f : D * N → B * (D * N)) (k : B → prog (D * N) A) m Q x :
  waiter m false x → (∀ s, (f s).2 = s) →
  (∀ s, m = mine s.1 → (∀ x', waiter m false x' → wp w (k (f s).1) Q x') ∨
    (ready m (theirs s.1) = false ∧ ∀ x', sleeps x' → wp w (k (f s).1) Q x')) →
  wp w (Act f k) Q x.
Proof using.
  intros Hw Hf Hk. apply (wp_act _ _ (waiter m false)); [done|apply waiter_stable|]. intros x1 s [Hm Ha] HI. rewrite Hf. pose proof (wi_mine _ _ HI) as Hm'.
  destruct (Hk s) as [Hgo|[Hr Hgo]]; [congruence|..].
  - exists x1. split_and!; [done|apply wguar_refl|]. by apply Hgo.
  - exists (mkWk m (wk_owing x1) true). split_and!; [|unfold wguar; by rewrite decide_True|by apply Hgo].
    split; cbn; [congruence|apply HI|]. replace (mine s.1) with m by congruence. congruence.
Qed.

(** A part of a part. *)
Lemma wp_part_part {T U X} t (get : D * N → T) put (get' : T → U) put' (p : prog U X) Q x :
  wp t (on_part (λ s, get' (get s)) (λ u s, put (put' u (get s)) s) p) Q x → wp t (on_part get put (on_part get' put' p)) Q x.
Proof using.
  revert x. induction p as [a|B f k IH]; intros x Hp; [done|]. cbn [on_part] in *. intros x1 s HR HI.
  destruct (Hp x1 s HR HI) as (x2 & Hx). exists x2. destruct (f (get' (get s))) as [b u]. destruct Hx as (? & ? & ?). split_and!; [done|done|]. by apply IH.
Qed.
End Wake.
