(* ===== verification/NotifyConc.v ===== *)
(** * Clients that wait

    Clients of a channel that use [Signals], and the theorem that a receiver
    asleep in [Signals::claim] with its event clear has nothing left to claim. *)

From S2P Require Import Prelude Atomic Alloc Bytes Schema Header Mem Heap Dir Token Pool PoolOps.
From S2P Require Import Channel Queue Duplex Transfer Notify NotifyWake.

(** ** Clients *)

Section Clients.
Context {H K : Type} (ops : EventOps K).
Abbreviation C := (Duplex (Token H) * words)%type.

(** What becomes of a permit, and of a claim. *)
Inductive permit_use := UseSend (v : Transfer H) | UseCancel.
Inductive claim_use := UseAdopt (s : Shape) (expected : Z) | UseDiscard.

(** A future is polled with [fuel] turns, and [polls] times more while it is
    pending. *)
Inductive ncmd :=
| NSend (v : Transfer H)
| NReserve (fuel polls : nat) (u : permit_use)
| NClaim (fuel polls : nat) (u : claim_use)
| NCloseTx
| NCloseRx.

(** [NWaits]: the future of a claim or of a reservation is still pending. *)
Inductive nout := NDone | NRefused | NUnheard | NWaits (claiming : bool) | NPanicked.

#[export] Instance nout_eq_dec : EqDecision nout.
Proof. solve_decision. Defined.

Fixpoint polled {A} (polls : nat) (again : prog (C * (K * K)) (option (Poll A))) (r : option (Poll A)) : prog (C * (K * K)) (option (Poll A)) :=
  match polls, r with
  | Datatypes.S polls, Some Pending => do r <- again; polled polls again r
  | _, _ => Ret r
  end.

Definition told {T} (c : Committed T Errno) : nout := match cm_notified c with Ok _ => NDone | Err _ => NUnheard end.

Definition outcome {T E} (r : option (result (Committed T Errno) E)) : nout :=
  match r with None => NPanicked | Some (Err _) => NRefused | Some (Ok c) => told c end.

Section Role.
Context (p : PoolRef) (r : Role).
#[local] Abbreviation sg := (peer_signals ops (r_index r)).
#[local] Abbreviation tx := (split_tx r).
#[local] Abbreviation rx := (split_rx r).

Definition nexec (c : ncmd) : prog (C * (K * K)) nout :=
  match c with
  | NSend v =>
    do s <- signals_try_send sg p r tx v;
    Ret (outcome s)
  | NReserve fuel polls u =>
    do f <- signals_reserve sg r tx fuel;
    do f <- polled polls (resume sg (attempt_reserve r tx) fuel) f;
    match f with
    | None => Ret NPanicked
    | Some Pending => Ret (NWaits false)
    | Some (Ready (Err _)) => Ret NRefused
    | Some (Ready (Ok i)) =>
      match u with
      | UseSend v => do s <- permit_send sg p tx i v; Ret (match s with None => NPanicked | Some c => told c end)
      | UseCancel => do c <- permit_cancel sg tx i; Ret (told c)
      end
    end
  | NClaim fuel polls u =>
    do f <- signals_claim sg r rx fuel;
    do f <- polled polls (resume sg (attempt_claim r rx) fuel) f;
    match f with
    | None => Ret NPanicked
    | Some Pending => Ret (NWaits true)
    | Some (Ready (Err _)) => Ret NRefused
    | Some (Ready (Ok cl)) =>
      match u with
      | UseAdopt s expected =>
        do a <- signals_adopt sg p rx cl s expected;
        Ret (outcome a)
      | UseDiscard =>
        do a <- signals_discard sg p rx cl;
        Ret (outcome a)
      end
    end
  | NCloseTx => do c <- signals_close_tx sg r tx; Ret (told c)
  | NCloseRx => do c <- signals_close_rx sg r rx; Ret (told c)
  end.

(** A client stops at a future that stays pending. *)
Fixpoint nclient (cs : list ncmd) (os : list nout) : prog (C * (K * K)) (list nout) :=
  match cs with
  | [] => Ret os
  | c :: cs =>
    do o <- nexec c;
    match o with
    | NWaits _ => Ret (os ++ [o])
    | _ => nclient cs (os ++ [o])
    end
  end.
End Role.

(** Every client of a channel in the state [s], with its commands. *)
Definition nstart (role : nat → Role) (pool : nat → PoolRef) (s : C * (K * K)) (css : list (list ncmd)) : cfg (C * (K * K)) (list nout) :=
  (s, imap (λ t cs, nclient (pool t) (role t) cs []) css).

(** Everything a client did was heard of. *)
Definition heard (os : list nout) : bool := forallb (λ o, bool_decide (o ≠ NUnheard) && bool_decide (o ≠ NPanicked)) os.
End Clients.
Arguments ncmd : clear implicits.

(** ** Queue routines and the cursors *)

(** What leaves both cursors alone, and what leaves the head alone. *)
Definition qquiet {V} (q q' : qstate V) : Prop := head q' = head q ∧ tail q' = tail q.
Definition qmoved {V} (q q' : qstate V) : Prop := head q' = head q.

Ltac q_quiet := intros ?; unfold qquiet, fetch_or_life, cas_control, cas_head, cas_tail; repeat case_match; done.

(** Walks a routine, access by access. *)
Ltac commit_steps :=
  repeat first
    [ apply commits_ret; solve [ exact (λ F, F) | by intros [? ?] ]
    | apply commits_quiet; [q_quiet|intros ?]
    | match goal with |- commits _ _ _ (if ?b then _ else _) => destruct b end ].

Section Routines.
Context {V : Type}.
#[local] Abbreviation still := (still (S := qstate V) qquiet qmoved).

Lemma stage_still i (v : V) : still (stage i v).
Proof using. unfold stage, reserved_owner. cbn [bind]. commit_steps. Qed.

Lemma publish_still i : still (publish i).
Proof using. unfold publish. commit_steps. Qed.

Lemma skip_still i : still (skip i).
Proof using. unfold skip. commit_steps. Qed.

Lemma close_field_still f : still (close_field f).
Proof using. unfold close_field. commit_steps. Qed.

Lemma all_not_based_still b l : still (all_not_based b l).
Proof using. induction l as [|i l IH]; cbn; [commit_steps|]. apply commits_quiet; [q_quiet|]. intros c. destruct (_ =? _); [commit_steps|done]. Qed.

Lemma finish_field_still e f b : still (finish_field e f b).
Proof using.
  unfold finish_field, field_state. cbn [bind]. apply commits_quiet; [q_quiet|]. intros l. destruct (_ =? _); [|commit_steps].
  apply still_bind; [apply all_not_based_still|]. intros []; cbn [bind]; commit_steps.
Qed.

Lemma terminal_still e : still (terminal e).
Proof using.
  unfold terminal, recv_closed, send_closed, is_empty.
  apply still_bind; [apply still_bind; [apply finish_field_still|intros ?; commit_steps]|]. intros []; [commit_steps|].
  apply still_bind; [apply still_bind; [apply finish_field_still|intros ?; commit_steps]|]. intros []; commit_steps.
Qed.

(** A reservation is granted by its last access. *)
Definition granted (r : option (result nat ReserveError)) : Prop := ∃ i, r = Some (Ok i).

#[export] Instance granted_dec r : Decision (granted r).
Proof using. destruct r as [[i|e]|]; [left; by exists i|right; by intros [? ?]|right; by intros [? ?]]. Defined.

Lemma reserve_commits e : commits (S := qstate V) qquiet qmoved granted (reserve e).
Proof using.
  unfold reserve, state, field_state, reserve_undo. cbn [bind]. commit_steps.
  eapply (commits_move _ _ _ _ _ (Some (Ok _))); [|done|by eexists|commit_steps].
  intros q. unfold cas_tail. by destruct (tail q =? _).
Qed.
End Routines.

(** ** A receiver and its senders *)

Section Receiver.
(** The participant of role [rho] is the one client [w]; any number of clients
    play the other role. *)
Context {H K : Type} (ops : EventOps K) `{EL : !EventLaws ops}.
Context (rho : Z) (Hrho : rho = 0 ∨ rho = 1) (w : nat) (role : nat → Role) (pool : nat → PoolRef).
Context (Hw : r_index (role w) = rho) (Hothers : ∀ t, t ≠ w → r_index (role t) = 1 - rho).
#[local] Abbreviation C := (Duplex (Token H) * words)%type.

(** The direction [w] receives in, and its cursors. *)
#[local] Abbreviation dd := (1 - rho).
Definition rx_head (c : C) : Z := hf_head (half_at dd c.1).
Definition rx_tail (c : C) : Z := hf_tail (half_at dd c.1).
Definition rx_ready (m t : Z) : bool := negb (t =? m).
Definition rx_lit (n : K * K) : bool := ev_readable ops (event_of rho n).

#[local] Abbreviation rely := (rely_of (wguar w)).
#[local] Abbreviation wp := (wp (winv rx_head rx_tail rx_ready rx_lit w) rely).
#[local] Abbreviation quiet := (quiet rx_head rx_tail rx_lit).
#[local] Abbreviation moved := (moved (N := K * K) rx_head).

Definition cquiet (c c' : C) : Prop := rx_head c' = rx_head c ∧ rx_tail c' = rx_tail c.
Definition cmoved (c c' : C) : Prop := rx_head c' = rx_head c.

Lemma half_put d d' (q : qstate (Token H)) dx :
  half_at d (put_queue d' q dx) = if bool_decide ((d =? 0) = (d' =? 0)) then mkHalf (head q) (tail q) (buf q) else half_at d dx.
Proof using. unfold half_at, put_queue. destruct (d =? 0) eqn:E, (d' =? 0) eqn:E'; done. Qed.

Lemma queue_commits {A} (ok : A → Prop) (p : prog (qstate (Token H)) A) :
  commits qquiet qmoved ok p → commits cquiet cmoved ok (on_queue dd p).
Proof using.
  unfold on_queue. apply commits_on_part; intros [dx W] q; unfold qquiet, qmoved, cquiet, cmoved, rx_head, rx_tail, queue_of; cbn;
    rewrite half_put, bool_decide_true by done; done.
Qed.

(** The other direction, and the pool. *)
Lemma reverse_still {A} (p : prog (qstate (Token H)) A) : still cquiet cmoved (on_queue rho p).
Proof using Hrho.
  apply still_on_part. intros [dx W] q. unfold cquiet, rx_head, rx_tail. cbn. rewrite half_put, bool_decide_false; [done|].
  destruct Hrho as [E|E]; by rewrite E.
Qed.

Lemma pool_still {A} (p : prog words A) : still cquiet cmoved (on_pool p).
Proof using. by apply still_on_part. Qed.

Lemma chan_commits {A} (ok : A → Prop) (p : prog C A) : commits cquiet cmoved ok p → commits quiet moved ok (on_chan p).
Proof using. apply commits_on_part; [|done]. intros [c n] c' [? ?]. by split_and!. Qed.

Lemma event_still {A} (p : prog K A) : still quiet moved (on_event (on_part (event_of dd) (put_event dd) p)).
Proof using Hrho.
  unfold on_event. eapply (commits_on_part _ _ (λ n n', rx_lit n = true → rx_lit n' = true) (λ _ _, True)); [by intros [c n]|by intros [c n]|].
  apply still_on_part. intros [k0 k1] k. unfold rx_lit, event_of, put_event. destruct Hrho as [E|E]; by rewrite E.
Qed.

(** *** The senders *)

Section Other.
Context (t : nat) (Hne : t ≠ w).
#[local] Abbreviation r := (role t).
#[local] Abbreviation sg := (peer_signals ops (r_index r)).
#[local] Abbreviation owes := (owes t).

Lemma tx_dir : split_tx r = dd.
Proof using Hne Hothers. by apply Hothers. Qed.

Lemma rx_dir : split_rx r = rho.
Proof using Hne Hothers. unfold split_rx. rewrite Hothers by done. lia. Qed.

Lemma wp_chan_still {A} b (p : prog C A) x : still cquiet cmoved p → owes b x → wp t (on_chan p) (λ _, owes b) x.
Proof using. intros Hp Ho. apply wp_still; [apply owes_stable|by apply chan_commits|done]. Qed.

Lemma wait_still : still quiet moved (on_event (S := C) (wait sg)).
Proof using Hrho Hne Hothers. rewrite Hothers by done. apply event_still. Qed.

(** A ring that is heard settles everything. *)
Lemma committed_spec {T} (v : T) b x : owes b x →
  wp t (committed sg v) (λ c, owes (b && bool_decide (told c = NUnheard))) x.
Proof using EL Hne Hothers.
  intros Ho. rewrite Hothers by done. unfold committed, on_event. cbn [notify peer_signals]. cbn [on_part bind].
  replace (1 - (1 - rho)) with rho by lia. set (f := λ x0 : C * (K * K), _).
  assert (Hf : ∀ s, (f s).1 = (ev_ring ops (event_of rho s.2)).1 ∧ (f s).2.1 = s.1 ∧ rx_lit (f s).2.2 = ev_readable ops (ev_ring ops (event_of rho s.2)).2).
  { intros s. unfold f, rx_lit, event_of, put_event. destruct (rho =? 0), (ev_ring ops _); done. }
  eapply (wp_ring _ _ _ _ w t b _ _ f _ is_ok); [done|done|..].
  - intros s. destruct (Hf s) as (_ & E & El). unfold NotifyWake.quiet. rewrite E, El. split_and!; [done|done|apply ring_keeps].
  - intros s. destruct (Hf s) as (-> & _ & ->). exact (ring_readable (event_of rho s.2)).
  - intros a x' Ho'. apply wp_ret. unfold told. cbn. by destruct a.
Qed.

(** What is owed after an answer [o], from [b] before. *)
Definition settled (b : bool) (o : nout) (x : wk) : Prop := ∃ b', owes b' x ∧ (heard [o] = true → b = false → b' = false).

Lemma settled_same b o x : owes b x → settled b o x.
Proof using. intros Ho. by exists b. Qed.

Lemma settled_lost b o x b' : heard [o] = false → owes b' x → settled b o x.
Proof using. intros E Ho. exists b'. rewrite E. done. Qed.

Lemma committed_settles {T} (v : T) b b' x : owes b' x → wp t (committed sg v) (λ c, settled b (told c)) x.
Proof using EL Hne Hothers.
  intros Ho. eapply wp_mono, committed_spec; [|done]. intros c x' Hc. eexists. split; [exact Hc|].
  intros Hh _. cbn in Hh. rewrite andb_true_r in Hh. apply andb_true_iff in Hh as [Hh _]. bools. rewrite bool_decide_false by done. apply andb_false_r.
Qed.

(** The end of a routine that may commit: [r] is its answer, and a refusal owes
    nothing new. *)
Lemma commit_ok_spec {T E} (r : option (result T E)) b b' x :
  owes b' x → (match r with Some (Err _) => b' = b | _ => True end) → wp t (commit_ok sg r) (λ s, settled b (outcome s)) x.
Proof using EL Hne Hothers.
  intros Ho Hr. destruct r as [[v|e]|]; cbn [commit_ok].
  - eapply wp_seq; [by eapply (committed_settles _ b)|]. cbv beta. intros c x' Hx. by apply wp_ret.
  - subst b'. by apply wp_ret, settled_same.
  - apply wp_ret. by eapply settled_lost.
Qed.

Lemma tx_reserve_spec b x : owes b x → wp t (on_chan (tx_reserve r dd)) (λ a, owes (b || bool_decide (granted a))) x.
Proof using Hne.
  intros Ho. unfold tx_reserve. apply wp_commits; [done| |done]. apply chan_commits, queue_commits, reserve_commits.
Qed.

Lemma publish_transfer_spec i a b x : owes b x → wp t (on_chan (transfer_publish (H := H) (pool t) dd i a)) (λ _, owes b) x.
Proof using.
  intros Ho. apply wp_chan_still; [|done]. unfold transfer_publish. apply still_bind; [apply pool_still|].
  intros [[]|]; [|commit_steps..]. apply still_bind; [apply queue_commits, publish_still|]. intros ?. commit_steps.
Qed.

Lemma try_send_spec v b x : owes b x →
  wp t (on_chan (tx_try_send (H := H) (pool t) r dd v)) (λ s x, ∃ b', owes b' x ∧ match s with Some (Err _) => b' = b | _ => True end) x.
Proof using Hne.
  intros Ho. unfold tx_try_send. eapply wp_on_part_seq; [by apply tx_reserve_spec|]. cbv beta. clear x Ho. intros a x Ho.
  destruct a as [[i|[]]|]; [|apply wp_ret; eexists; split; [exact Ho|by rewrite bool_decide_false, orb_false_r by (by intros [? ?])]..|apply wp_ret; by eexists].
  eapply wp_on_part_seq; [eapply wp_chan_still, Ho; apply queue_commits, stage_still|]. cbv beta. clear x Ho. intros _ x Ho.
  eapply wp_on_part_seq; [by apply publish_transfer_spec|]. cbv beta. clear x Ho. intros s x Ho. apply wp_ret. eexists. split; [exact Ho|]. by destruct s.
Qed.

(** *** Futures *)

(** The future was granted a slot. *)
Definition got_slot {E} (f : option (Poll (result nat E))) : bool := match f with Some (Ready (Ok _)) => true | _ => false end.

Lemma attempt_reserve_spec b x : owes b x →
  wp t (on_chan (attempt_reserve r dd)) (λ a, owes (b || match a with Some (Ok _) => true | _ => false end)) x.
Proof using Hne.
  intros Ho. unfold attempt_reserve. eapply wp_on_part_seq; [by apply tx_reserve_spec|]. cbv beta. clear x Ho. intros a x Ho. apply wp_ret.
  destruct a as [[i|e]|]; cbn; [rewrite bool_decide_true in Ho by (by eexists)|rewrite bool_decide_false in Ho by (by intros [? ?])..]; done.
Qed.

Lemma wait_spec b x : owes b x → wp t (on_event (S := C) (wait sg)) (λ _, owes b) x.
Proof using Hrho Hne Hothers. intros Ho. apply wp_still; [apply owes_stable|apply wait_still|done]. Qed.

Lemma progress_reserve_spec fuel n b x : owes b x →
  wp t (progress sg (attempt_reserve r dd) fuel n) (λ f, owes (b || got_slot f)) x.
Proof using Hrho Hne Hothers.
  revert n x. induction fuel as [|fuel IH]; intros n x Ho; cbn [progress]; [apply wp_ret; by rewrite orb_false_r|].
  eapply wp_seq; [by apply attempt_reserve_spec|]. cbv beta. clear x Ho. intros a x Ho.
  destruct a as [[i|[]]|]; try (by apply wp_ret); rewrite orb_false_r in Ho.
  - destruct (_ =? _); [apply wp_ret; by rewrite orb_false_r|by apply IH].
  - eapply wp_seq; [by apply wait_spec|]. cbv beta. clear x Ho. intros [[|[[]|e]]|] x Ho; first [by apply IH|apply wp_ret; by rewrite orb_false_r].
Qed.

Lemma resume_reserve_spec fuel b x : owes b x → wp t (resume sg (attempt_reserve r dd) fuel) (λ f, owes (b || got_slot f)) x.
Proof using Hrho Hne Hothers.
  intros Ho. unfold resume. eapply wp_seq; [by apply wait_spec|]. cbv beta. clear x Ho.
  intros [[|[[]|e]]|] x Ho; first [by apply progress_reserve_spec|apply wp_ret; by rewrite orb_false_r].
Qed.

Lemma polled_reserve_spec fuel n f b x : owes (b || got_slot f) x →
  wp t (polled n (resume sg (attempt_reserve r dd) fuel) f) (λ f, owes (b || got_slot f)) x.
Proof using Hrho Hne Hothers.
  revert f x. induction n as [|n IH]; intros f x Ho; cbn [polled]; [by apply wp_ret|]. destruct f as [[|a]|]; [|by apply wp_ret..].
  eapply wp_seq; [apply resume_reserve_spec; by rewrite orb_false_r in Ho|]. cbv beta. auto.
Qed.

(** Receiving in the other direction leaves this one alone. *)
Lemma attempt_claim_still : still cquiet cmoved (attempt_claim r rho).
Proof using Hrho.
  unfold attempt_claim, rx_claim. apply still_bind; [|intros ?; commit_steps]. apply still_bind; [apply reverse_still|].
  intros [[c|[]]|]; try commit_steps. apply still_bind; [apply reverse_still|]. intros ?. commit_steps.
Qed.

Lemma progress_still fuel n : still quiet moved (progress sg (attempt_claim r rho) fuel n).
Proof using Hrho Hne Hothers.
  revert n. induction fuel as [|fuel IH]; intros n; cbn [progress]; [commit_steps|].
  apply still_bind; [apply chan_commits, attempt_claim_still|]. intros [[c|[]]|]; try commit_steps.
  - destruct (_ =? _); [commit_steps|apply IH].
  - apply still_bind; [apply wait_still|]. intros [[|[[]|]]|]; [commit_steps|apply IH|commit_steps..].
Qed.

Lemma polled_still fuel n f : still quiet moved (polled n (resume sg (attempt_claim r rho) fuel) f).
Proof using Hrho Hne Hothers.
  revert f. induction n as [|n IH]; intros f; cbn [polled]; [commit_steps|]. destruct f as [[|a]|]; [|commit_steps..].
  apply still_bind; [|apply IH]. unfold resume. apply still_bind; [apply wait_still|]. intros [[|[[]|]]|]; [commit_steps|apply progress_still|commit_steps..].
Qed.

Lemma adopt_still c s expected : still cquiet cmoved (received_adopt (H := H) (pool t) rho c s expected).
Proof using Hrho.
  unfold received_adopt. apply still_bind; [apply reverse_still|]. intros [v|]; [|commit_steps]. apply still_bind; [apply pool_still|].
  intros [[a|e]|]; [|commit_steps..]. apply still_bind; [apply reverse_still|]. intros ?. commit_steps.
Qed.

Lemma discard_still c : still cquiet cmoved (received_discard (H := H) (pool t) rho c).
Proof using Hrho.
  unfold received_discard. apply still_bind; [apply reverse_still|]. intros [v|]; [|commit_steps]. apply still_bind; [apply pool_still|].
  intros [[a|e]|]; [|commit_steps..]. apply still_bind; [apply reverse_still|]. intros ?. apply still_bind; [apply pool_still|]. intros ?. commit_steps.
Qed.

(** *** Commands *)

Lemma permit_spec i u b b' x : owes b' x →
  wp t (match u with
        | UseSend v => do s <- permit_send sg (pool t) dd i v; Ret (match s with None => NPanicked | Some c => told c end)
        | UseCancel => do c <- permit_cancel (H := H) sg dd i; Ret (told c)
        end) (settled b) x.
Proof using EL Hne Hothers.
  intros Ho. destruct u as [v|].
  - unfold permit_send. apply wp_bind. eapply wp_seq; [eapply wp_chan_still, Ho; apply queue_commits, stage_still|]. cbv beta. clear x Ho. intros _ x Ho.
    eapply wp_seq; [by apply publish_transfer_spec|]. cbv beta. clear x Ho. intros [[]|] x Ho; [|apply wp_ret, wp_ret; by eapply settled_lost].
    eapply wp_seq; [by eapply committed_settles|]. cbv beta. intros c x' Hc. by apply wp_ret, wp_ret.
  - unfold permit_cancel. eapply wp_bind, wp_seq; [eapply wp_chan_still, Ho; apply queue_commits, skip_still|]. cbv beta. clear x Ho. intros _ x Ho.
    eapply wp_mono, (committed_settles _ b), Ho. intros c x' Hc. by apply wp_ret.
Qed.

Lemma wake_close_spec (p : prog C unit) b x : still cquiet cmoved p → owes b x →
  wp t (do c <- (do _ <- on_chan p; committed sg tt); Ret (told c)) (settled b) x.
Proof using EL Hne Hothers.
  intros Hp Ho. eapply wp_bind, wp_seq; [by eapply wp_chan_still, Ho|]. cbv beta. clear x Ho. intros _ x Ho.
  eapply wp_mono, (committed_settles _ b), Ho. intros c x' Hc. by apply wp_ret.
Qed.

Lemma nexec_spec c b x : owes b x → wp t (nexec ops (pool t) r c) (settled b) x.
Proof using EL Hrho Hne Hothers.
  intros Ho. destruct c as [v|fuel n u|fuel n u| |]; cbn [nexec]; rewrite ?tx_dir, ?rx_dir.
  - unfold signals_try_send. eapply wp_bind, wp_seq; [by apply try_send_spec|]. cbv beta. clear x Ho. intros s x (b' & Ho & Hs).
    eapply wp_mono, (commit_ok_spec s b); [|done..]. intros a x' Hx. by apply wp_ret.
  - unfold signals_reserve. eapply wp_seq; [by apply progress_reserve_spec|]. cbv beta. clear x Ho. intros f x Ho.
    eapply wp_seq; [by apply polled_reserve_spec|]. cbv beta. clear x Ho f. intros [[|[i|e]]|] x Ho.
    + apply wp_ret. apply settled_same. by rewrite orb_false_r in Ho.
    + by eapply permit_spec.
    + apply wp_ret, settled_same. by rewrite orb_false_r in Ho.
    + apply wp_ret. by eapply settled_lost.
  - unfold signals_claim. eapply wp_seq; [eapply wp_still, Ho; [apply owes_stable|apply progress_still]|]. cbv beta. clear x Ho. intros f x Ho.
    eapply wp_seq; [eapply wp_still, Ho; [apply owes_stable|apply polled_still]|]. cbv beta. clear x Ho f.
    intros [[|[cl|e]]|] x Ho; [by apply wp_ret, settled_same| |by apply wp_ret, settled_same..].
    destruct u as [sh ex|]; unfold signals_adopt, signals_discard; apply wp_bind.
    + eapply wp_seq; [eapply wp_chan_still, Ho; apply adopt_still|]. cbv beta. clear x Ho. intros s x Ho.
      eapply wp_mono, (commit_ok_spec s b); [|done|by destruct s as [[]|]]. intros a x' Hx. by apply wp_ret.
    + eapply wp_seq; [eapply wp_chan_still, Ho; apply discard_still|]. cbv beta. clear x Ho. intros s x Ho.
      eapply wp_mono, (commit_ok_spec s b); [|done|by destruct s as [[]|]]. intros a x' Hx. by apply wp_ret.
  - apply wake_close_spec; [|done]. apply queue_commits, close_field_still.
  - apply wake_close_spec; [|done]. apply reverse_still.
Qed.

(** *** Clients *)

Definition accounted (os : list nout) (x : wk) : Prop := ∃ b, owes b x ∧ (heard os = true → b = false).

Lemma wake_accounted_stable os : stable rely t (accounted os).
Proof using. intros x x' HR (b & Ho & Hb). exists b. split; [by eapply owes_stable|done]. Qed.

Lemma nclient_spec cs os x : accounted os x → wp t (nclient ops (pool t) r cs os) accounted x.
Proof using EL Hrho Hne Hothers.
  revert os x. induction cs as [|c cs IH]; intros os x (b & Ho & Hb); cbn [nclient]; [apply wp_ret; by exists b|].
  eapply wp_seq; [by apply nexec_spec|]. cbv beta. clear x Ho. intros o x (b' & Ho & Hb').
  assert (accounted (os ++ [o]) x). { exists b'. split; [done|]. unfold heard. rewrite forallb_app. intros [? ?]%andb_true_iff. auto. }
  destruct o; [by apply IH..|by apply wp_ret|by apply IH].
Qed.
End Other.

(** *** The receiver *)

Section Waiter.
#[local] Abbreviation r := (role w).
#[local] Abbreviation sg := (peer_signals ops (r_index r)).

Lemma put_queue_of d (dx : Duplex (Token H)) : put_queue d (queue_of d dx) dx = dx.
Proof using. destruct dx as [? ? [] []]. unfold put_queue, queue_of, half_at. cbn. by destruct (d =? 0). Qed.

(** The access that shows the queue empty is the one the receiver sleeps from. *)
Lemma claim_sleeps e x : wp w (on_chan (on_queue dd (claim e))) (λ a x, a = Some (Err ClaimEmpty) → sleeps x) x.
Proof using.
  unfold on_chan, on_queue. apply wp_part_part. unfold claim, field_state, claim_undo, recycle. cbn [bind].
  rewrite on_part_act. apply wp_look. intros s0 x0 _. destruct (negb _); [by apply wp_ret|].
  rewrite on_part_act. apply wp_look. clear x. intros s x Hx. destruct s as [[dx W] n]. cbn [load_head fst snd] in *.
  assert (Hm : waiter (head (queue_of dd dx)) false x). { revert Hx. unfold rx_head. cbn. by rewrite half_put, bool_decide_true. }
  clear Hx. set (h := head (queue_of dd dx)) in *. destruct (negb _); [by apply wp_ret|].
  rewrite on_part_act. apply (wp_quiet_act _ _ _ _ w w (waiter h false)); [done|apply waiter_stable|..].
  { intros [[dx' W'] n']. unfold NotifyWake.quiet, rx_head, rx_tail. cbn. by rewrite half_put, bool_decide_true. }
  clear x Hm. intros av x Hm. destruct (negb _ && negb _).
  2: { eapply wp_mono, (wp_answers _ _ _ _ _ (λ a, a ≠ Some (Err ClaimEmpty))); [by intros a x' Ha ?|]. cbn. repeat (done || intros ? || case_match). }
  rewrite on_part_act. apply (wp_sleep _ _ _ _ w _ _ _ _ h); [done|..].
  { intros [[dx' W'] n']. cbn. by rewrite put_queue_of. }
  intros [[dx' W'] n'] Eh. cbn [load_tail fst snd]. unfold rx_ready. change (rx_tail (dx', W')) with (tail (queue_of dd dx')).
  destruct (tail (queue_of dd dx') =? h); [right|left; intros x' _; by apply wp_ret].
  split; [done|]. intros x' Hs. by apply wp_ret.
Qed.

Lemma attempt_claim_sleeps x : wp w (on_chan (attempt_claim r dd)) (λ a x, a = Some (Err SetWait) → sleeps x) x.
Proof using.
  unfold attempt_claim, rx_claim. eapply wp_on_part_seq; [eapply wp_on_part_seq; [apply claim_sleeps|]|].
  - cbv beta. intros a x' Ha. instantiate (1 := λ a x, a = Some (Err ReceiveEmpty) → sleeps x).
    destruct a as [[c|[]]|]; try by apply wp_ret.
    eapply wp_on_part_seq; [eapply wp_still, Ha; [apply sleeps_stable|apply chan_commits, queue_commits, terminal_still|done]|].
    cbv beta. intros b x1 Hs. by apply wp_ret.
  - cbv beta. intros a x' Ha. apply wp_ret. destruct a as [[c|[]]|]; cbn; try done. intros _. by apply Ha.
Qed.

(** A pending future sleeps. *)
Definition pending_sleeps {A} (f : option (Poll A)) (x : wk) : Prop := f = Some Pending → sleeps x.

Lemma wait_sleeps {A} (k : prog (C * (K * K)) (option (Poll (result A (ProgressError Errno))))) x :
  sleeps x → (∀ x, wp w k pending_sleeps x) →
  wp w (do w <- on_event (wait sg);
        match w with
        | None => Ret None
        | Some Pending => Ret (Some Pending)
        | Some (Ready (Err e)) => Ret (Some (Ready (Err (ProgressWait e))))
        | Some (Ready (Ok _)) => k
        end) pending_sleeps x.
Proof using Hw.
  intros Hs Hk. apply wp_bind. unfold on_event. cbn [wait peer_signals]. apply wp_part_part. unfold Wait_poll. rewrite on_part_act.
  apply (wp_quiet_act _ _ _ _ w w sleeps); [done|apply sleeps_stable|..].
  { intros [c n]. cbn. unfold NotifyWake.quiet, rx_lit, event_of, put_event. cbn. rewrite Hw. by destruct (rho =? 0). }
  clear x Hs. intros [] x Hs; [|apply wp_ret, wp_ret; by intros _].
  eapply wp_mono, (wp_answers _ _ _ _ _ (λ a, a ≠ Some Pending)); [|apply answers_bind; by intros [[]|]].
  cbv beta. intros [[|[[]|]]|] x' Ha; [done|apply Hk|by apply wp_ret..].
Qed.

Lemma progress_sleeps fuel n x : wp w (progress sg (attempt_claim r dd) fuel n) pending_sleeps x.
Proof using Hw.
  revert n x. induction fuel as [|fuel IH]; intros n x; cbn [progress]; [by apply wp_ret|].
  eapply wp_seq; [apply attempt_claim_sleeps|]. cbv beta. clear x. intros a x Ha.
  destruct a as [[c|[]]|]; try by apply wp_ret.
  - destruct (_ =? _); [by apply wp_ret|apply IH].
  - apply wait_sleeps; [by apply Ha|]. intros x'. apply IH.
Qed.

Lemma polled_sleeps fuel n f x : pending_sleeps f x → wp w (polled n (resume sg (attempt_claim r dd) fuel) f) pending_sleeps x.
Proof using Hw.
  revert f x. induction n as [|n IH]; intros f x Hf; cbn [polled]; [by apply wp_ret|]. destruct f as [[|a]|]; [|by apply wp_ret..].
  eapply wp_seq; [|intros f' x'; apply IH]. unfold resume. apply wait_sleeps; [by apply Hf|]. intros x'. apply progress_sleeps.
Qed.

Lemma told_awake {T} (c : Committed T Errno) : told c ≠ NWaits true.
Proof using. unfold told. by destruct (cm_notified c). Qed.

Lemma outcome_awake {T E} (c : option (result (Committed T Errno) E)) : outcome c ≠ NWaits true.
Proof using. destruct c as [[c|e]|]; [apply told_awake|done..]. Qed.

(** Anything but a pending claim. *)
Ltac awake := eapply wp_seq; [apply wp_awake|]; cbv beta; intros ? ? _; try (apply wp_ret; by intros ?%told_awake || by intros ?%outcome_awake).

Lemma nexec_sleeps c x : wp w (nexec (H := H) ops (pool w) r c) (λ o x, o = NWaits true → sleeps x) x.
Proof using Hw.
  destruct c as [v|fuel n u|fuel n u| |]; cbn [nexec].
  - awake.
  - awake. awake. repeat case_match; try (by apply wp_ret); awake. apply wp_ret. case_match; [by intros ?%told_awake|done].
  - assert (split_rx r = dd) as -> by (unfold split_rx; by rewrite Hw). eapply wp_seq; [apply progress_sleeps|]. cbv beta. intros f x' Hf. eapply wp_seq; [by apply polled_sleeps|].
    cbv beta. clear. intros f x Hf. repeat case_match; try (by apply wp_ret); [|awake..]. apply wp_ret. intros _. by apply Hf.
  - awake.
  - awake.
Qed.

(** A client that ends asleep in a claim. *)
Definition ends_asleep (os : list nout) (x : wk) : Prop := last os = Some (NWaits true) → sleeps x.

Lemma nclient_sleeps cs os x : last os ≠ Some (NWaits true) → wp w (nclient ops (pool w) r cs os) ends_asleep x.
Proof using Hw.
  revert os x. induction cs as [|c cs IH]; intros os x Hos; cbn [nclient]; [apply wp_ret; by intros ?|].
  eapply wp_seq; [apply nexec_sleeps|]. cbv beta. intros o x' Ho.
  assert (ends_asleep (os ++ [o]) x'). { unfold ends_asleep. rewrite last_snoc. intros [= ->]. by apply Ho. }
  destruct o; [apply IH; by rewrite last_snoc..|by apply wp_ret|apply IH; by rewrite last_snoc].
Qed.
End Waiter.

(** *** Every interleaving *)

Definition client_end (t : nat) (os : list nout) (x : wk) : Prop := if decide (t = w) then ends_asleep os x else accounted t os x.

Lemma client_end_stable t os : stable rely t (client_end t os).
Proof using.
  unfold client_end. case_decide as E; [subst t|apply wake_accounted_stable]. intros x x' HR Ha Hl. eapply sleeps_stable; [exact HR|by apply Ha].
Qed.

Lemma nreach_ok s0 css c : creach (nstart ops role pool s0 css) c →
  ∃ x, rg_ok (winv rx_head rx_tail rx_ready rx_lit w) rely client_end x c ∧ ∀ t, c.2 !! t = None → t ∉ wk_owing x.
Proof using EL Hrho Hw Hothers.
  intros Hreach. pose proof (creach_length _ _ Hreach) as Hlen.
  eapply (rg_sound (winv rx_head rx_tail rx_ready rx_lit w) rely) with (Q := client_end) (g := mkWk (rx_head s0.1) ∅ false) in Hreach
    as (x & Hx & Hlook); [|apply rely_of_refl|apply rely_of_trans|intros; apply client_end_stable|].
  - exists x. split; [done|]. intros t Ht. destruct (Hlook t) as [HR _]; [apply lookup_ge_None_2; rewrite <- Hlen; by apply lookup_ge_None_1|].
    assert (Ho : owes t false x). { eapply owes_stable; [exact HR|]. by apply bool_decide_false, not_elem_of_empty. } unfold owes in Ho. by bools.
  - split; [split; cbn; [done|set_solver|done]|]. intros t p Hp. cbn in Hp. apply list_lookup_imap_Some in Hp as (cs & _ & ->).
    unfold client_end. destruct (decide (t = w)) as [->|Hne]; [by apply nclient_sleeps|].
    apply nclient_spec; [done|]. exists false. split; [|done]. unfold owes. cbn. by apply bool_decide_false, not_elem_of_empty.
Qed.
End Receiver.

(** C4: no wake-up is lost.  The participant of one role is one task that waits on
    its own event; any number of clients play the other role and ring it.
    In every interleaving, once the clients of the other role have returned and
    were heard, a participant asleep in [Signals::claim] whose event is clear has
    claimed every reservation that was granted in its direction. *)
Theorem claim_wakes {H K} (ops : EventOps K) `{EL : !EventLaws ops} rho w role pool (s0 : Duplex (Token H) * words * (K * K)) css dx W n ps os :
  rho = 0 ∨ rho = 1 → r_index (role w) = rho → (∀ t, t ≠ w → r_index (role t) = 1 - rho) →
  creach (nstart ops role pool s0 css) ((dx, W, n), ps) →
  ps !! w = Some (Ret os) → last os = Some (NWaits true) →
  (∀ t p, t ≠ w → ps !! t = Some p → ∃ os, p = Ret os ∧ heard os = true) →
  ev_readable ops (event_of rho n) = false →
  hf_tail (half_at (split_rx (role w)) dx) = hf_head (half_at (split_rx (role w)) dx).
Proof.
  intros Hrho Hw Hothers Hreach Hsleep Hlast Hdone Hdark. destruct (nreach_ok _ _ Hrho _ _ _ Hw Hothers _ _ _ Hreach) as (x & [HI Hwp] & Hnone).
  pose proof (Hwp _ _ Hsleep) as Hs. change (client_end w w os x) in Hs. unfold client_end in Hs. rewrite decide_True in Hs by done. specialize (Hs Hlast).
  assert (Hempty : wk_owing x = ∅).
  { apply set_eq. intros t. split; [|set_solver]. intros Ht. exfalso. destruct (decide (t = w)) as [->|Hne]; [by destruct HI|].
    destruct (ps !! t) as [p|] eqn:E; [|by apply (Hnone t)]. destruct (Hdone t p Hne E) as (os' & -> & Hh). specialize (Hwp _ _ E).
    change (client_end w t os' x) in Hwp. unfold client_end in Hwp. rewrite decide_False in Hwp by done. destruct Hwp as (b & Ho & Hb).
    rewrite (Hb Hh) in Ho. unfold owes in Ho. by bools. }
  pose proof (wi_wake _ _ _ _ _ _ _ HI Hs) as Hwake. cbn in Hwake. unfold rx_ready, rx_lit in Hwake.
  replace (split_rx (role w)) with (1 - rho) by (unfold split_rx; by rewrite Hw).
  destruct (Z.eqb_spec (rx_tail rho (dx, W)) (rx_head rho (dx, W))) as [E|E]; [done|].
  destruct Hwake as [?|?]; [done|congruence|done].
Qed.

(** ** Runs

    A run in which a receiver is woken, and two schedules that leave a participant
    asleep although what it waits for has happened: both are changes of the shared
    state that nobody announces. *)

From S2P Require Import PoolConc Events.

(** ** A channel of one slot *)

Definition run_role (t : nat) : Role := mkRole (mkChannelId (mkId (mkRegionId 1 2) 0 0 1) 1) 1 2 (if bool_decide (t = 0%nat) then 1 else 0) 1 (7 + Z.of_nat t).
Definition run_geometry : Geometry := mkGeometry (mkLayout 640 64) [mkClass 64 4 320 384].
Definition run_pool (t : nat) : PoolRef := mkPoolRef run_geometry (mkLayoutId (mkRegionId 1 2) 4096) (7 + Z.of_nat t).
Definition run_words : words := [[PoolConc.enc 1 (Local 8); PoolConc.enc 1 (Local 9); 0; 0]].

(** The block a client owns, to be transferred. *)
Definition run_transfer (t : nat) : Transfer Z :=
  let a := mkAllocation 0 (Z.of_nat t - 1) 1 true in mkTransfer a (mkToken (transfer_token (run_pool t) a Sized 77) 5).

Abbreviation run_start := (nstart (eventfd counter_ops) run_role run_pool ((Duplex_blank (V := Token Z) 1, run_words), (0%N, 0%N))).

(** Client 0 receives; the others send. *)
Definition run_of (order : list nat) (css : list (list (ncmd Z))) := sched order (run_start css).

Lemma run_reach order css : creach (run_start css) (run_of order css).
Proof. apply sched_reach. Qed.

(** *** A receiver is woken *)

Definition woken_clients : list (list (ncmd Z)) := [[NClaim 40 3 UseDiscard; NClaim 40 1 UseDiscard]; [NSend (run_transfer 1)]].
Definition woken_order : list nat := replicate 40 1%nat ++ replicate 200 0%nat.

Lemma run_role_others t : t ≠ 0%nat → r_index (run_role t) = 1 - 1.
Proof. intros Ht. unfold run_role. cbn [r_index]. by rewrite bool_decide_false. Qed.

Lemma claim_wakes_witness :
  (run_of woken_order woken_clients).2 = [Ret [NDone; NWaits true]; Ret [NDone]] ∧
  (let dx := (run_of woken_order woken_clients).1.1.1 in hf_tail (half_at 0 dx) = hf_head (half_at 0 dx)).
Proof.
  split; [vm_compute; reflexivity|].
  pose proof (run_reach woken_order woken_clients) as Hr.
  assert (Hp : (run_of woken_order woken_clients).2 = [Ret [NDone; NWaits true]; Ret [NDone]]) by (vm_compute; reflexivity).
  assert (He : ev_readable (eventfd counter_ops) (event_of 1 (run_of woken_order woken_clients).1.2) = false) by (vm_compute; reflexivity).
  destruct (run_of woken_order woken_clients) as [[[dx W] n] ps]. cbn [fst snd] in *. subst ps.
  apply (claim_wakes (eventfd counter_ops) 1 0 run_role run_pool _ _ dx W n _ [NDone; NWaits true] (or_intror eq_refl) eq_refl run_role_others Hr eq_refl eq_refl); [|exact He].
  intros [|[|t]] p Ht Hl; [done|injection Hl as <-; by eexists|done].
Defined.

(** *** A sender is not woken

    The sender reserves the only slot and cancels; the receiver, told of it,
    recycles the slot inside [Signals::claim] and tells nobody. *)

Definition stranded_sender : list (list (ncmd Z)) := [[NClaim 40 3 UseDiscard]; [NReserve 40 0 UseCancel; NReserve 40 3 (UseSend (run_transfer 1))]].
Definition stranded_sender_order : list nat := replicate 100 1%nat ++ replicate 200 0%nat.

(** A cancelled permit strands its sender.  On a channel of one slot a
    sender cancels a permit and asks for another while its peer claims: both end
    up waiting, both events are clear, and yet a reservation would succeed. *)
Theorem cancelled_permit_strands_sender : ∃ s,
  creach (run_start stranded_sender) (s, [Ret [NWaits true]; Ret [NDone; NWaits false]]) ∧ s.2 = (0%N, 0%N) ∧
  (run (on_chan (tx_reserve (run_role 1) (split_tx (run_role 1)))) s).1 = Some (Ok 0%nat).
Proof.
  exists (run_of stranded_sender_order stranded_sender).1. split; [|vm_compute; done].
  replace (_, _) with (run_of stranded_sender_order stranded_sender); [apply run_reach|]. rewrite (surjective_pairing (run_of _ _)) at 1. f_equal; vm_compute; reflexivity.
Qed.

(** *** A receiver does not learn of a close

    A sender between taking the slot and moving the tail keeps the receiver from
    seeing the end; it then finds the direction closed, gives the slot back and
    tells nobody. *)

Definition stranded_receiver : list (list (ncmd Z)) := [[NClaim 40 3 UseDiscard]; [NSend (run_transfer 1)]; [NCloseTx]].
Definition stranded_receiver_order : list nat := replicate 4 1%nat ++ replicate 10 2%nat ++ replicate 200 0%nat ++ replicate 20 1%nat.

(** A refused sender can strand the receiver.  While one client sends and
    another closes the direction and rings, every client can return with the
    receiver still waiting and its event clear, although a claim would answer
    that the direction is closed. *)
Theorem refused_sender_strands_receiver : ∃ s,
  creach (run_start stranded_receiver) (s, [Ret [NWaits true]; Ret [NRefused]; Ret [NDone]]) ∧ s.2 = (0%N, 0%N) ∧
  (run (on_chan (rx_claim (run_role 0) (split_rx (run_role 0)))) s).1 = Some (Err ReceiveClosed).
Proof.
  exists (run_of stranded_receiver_order stranded_receiver).1. split; [|vm_compute; done].
  replace (_, _) with (run_of stranded_receiver_order stranded_receiver); [apply run_reach|]. rewrite (surjective_pairing (run_of _ _)) at 1. f_equal; vm_compute; reflexivity.
Qed.
