(* ===== verification/Boxed.v ===== *)
(** * Boxes in the general heap

    Models [src/src/boxed.rs] and [GeneralHeap] of [src/src/session.rs] over the
    operations of [HeapConc]: values that a participant puts in the shared heap,
    reads and writes in place, and releases.  A value is the bytes of its
    representation, which lie in the memory the allocator works in
    ([HeapBytes]).  The allocator's work under the mutation word is one access
    here ([at_once]): [HeapConc] has its serialisation and the deaths in the
    middle of it, and [HeapBytesLaws], which the heap of [TalcSafe] meets, that it
    writes no byte of a live block. *)

From S2P Require Import Prelude Atomic Alloc Bytes Mem Heap TalcGeo Talc TalcInit TalcSpec TalcSafe HeapConc.

(** ** Pointers *)

(** A place in the heap, from its base, or an address that is no place. *)
Inductive box_ptr := At (offset : Z) | Dangling (address : Z).

(** [Talc::pointer], [Meta::as_nonnull]: of no block it is [NonNull::<u8>::dangling]. *)
Definition box_pointer (m : Meta) : box_ptr := if Meta_is_null m then Dangling 1 else At (start_offset (view m)).

(** [PBox]; the layout is the one of the value behind the pointer. *)
Record PBox := mkPBox { bx_ptr : box_ptr; bx_meta : Meta; bx_layout : Layout }.

(** [PBox::null]: [NonNull::<T>::dangling]. *)
Definition PBox_null (l : Layout) : PBox := mkPBox (Dangling (align l)) Meta_null l.

(** [PBox::from_meta] and [PBox::from_meta_slice] *)
Definition from_meta (m : Meta) (l : Layout) : PBox := mkPBox (box_pointer m) m l.

(** ** Operations *)

Abbreviation box_state H := (shared H).

Section Boxes.
Context {H : Type} `{HO : HeapOps H} `{HB : HeapBytes H} (owner : Z).

(** An access to a byte of the heap. *)
Definition load_heap_byte (at_ : Z) (s : box_state H) : Z * box_state H := (heap_byte at_ (sh_heap s), s).
Definition store_heap_byte (at_ v : Z) (s : box_state H) : unit * box_state H := (tt, set_heap (set_heap_byte at_ v (sh_heap s)) s).

Fixpoint write_heap (at_ : Z) (bs : list Z) : prog (box_state H) unit :=
  match bs with
  | [] => Ret tt
  | b :: bs => act_ (store_heap_byte at_ b); write_heap (at_ + 1) bs
  end.

Fixpoint read_heap (at_ : Z) (n : nat) : prog (box_state H) (list Z) :=
  match n with
  | O => Ret []
  | S n => act b <- load_heap_byte at_; do bs <- read_heap (at_ + 1) n; Ret (b :: bs)
  end.

(** [GeneralHeap::uninit] *)
Definition uninit (l : Layout) : prog (box_state H) (result PBox MutationError) :=
  if size l =? 0 then Ret (Ok (PBox_null l)) else
  do r <- allocate_with at_once owner l;
  Ret (let? m := r in Ok (from_meta m l)).

(** [GeneralHeap::uninit_slice] *)
Definition uninit_slice (elem : Layout) (len : Z) : prog (box_state H) (result PBox MutationError) :=
  match layout_array elem len with
  | None => Ret (Err LayoutOverflow)
  | Some l =>
    if size l =? 0 then Ret (Ok (from_meta Meta_null l)) else
    do r <- allocate_with at_once owner l;
    Ret (let? m := r in Ok (from_meta m l))
  end.

(** Accesses through the pointer, from [off] on; a dangling pointer is of a value
    without bytes. *)
Definition box_store (b : PBox) (off : Z) (bs : list Z) : prog (box_state H) unit :=
  match bx_ptr b with At o => write_heap (o + off) bs | Dangling _ => Ret tt end.
Definition box_load (b : PBox) (n : nat) : prog (box_state H) (list Z) :=
  match bx_ptr b with At o => read_heap o n | Dangling _ => Ret [] end.

(** [PBox::write] *)
Definition box_write (b : PBox) (value : list Z) : prog (box_state H) PBox :=
  do _ <- box_store b 0 value; Ret b.

(** [GeneralHeap::put]; an error carries the value back. *)
Definition heap_put (l : Layout) (value : list Z) : prog (box_state H) (result PBox (MutationError * list Z)) :=
  do slot <- uninit l;
  match slot with
  | Err error => Ret (Err (error, value))
  | Ok slot => do b <- box_write slot value; Ret (Ok b)
  end.

(** The loop of [GeneralHeap::init]. *)
Fixpoint fill_from (b : PBox) (esize : Z) (make : Z → list Z) (index : Z) (n : nat) : prog (box_state H) unit :=
  match n with
  | O => Ret tt
  | S n => do _ <- box_store b (index * esize) (make index); fill_from b esize make (index + 1) n
  end.

(** [GeneralHeap::init] *)
Definition heap_init (elem : Layout) (len : Z) (make : Z → list Z) : prog (box_state H) (result PBox MutationError) :=
  do values <- uninit_slice elem len;
  match values with
  | Err e => Ret (Err e)
  | Ok b => do _ <- fill_from b (size elem) make 0 (Z.to_nat len); Ret (Ok b)
  end.

(** [GeneralHeap::copy] *)
Definition heap_copy (elem : Layout) (values : list (list Z)) : prog (box_state H) (result PBox MutationError) :=
  heap_init elem (Z.of_nat (length values)) (λ index, values !!! Z.to_nat index).

(** [PBox::release]: a box that cannot be released is given back. *)
Definition box_release (b : PBox) : prog (box_state H) (result unit PBox) :=
  if size (bx_layout b) =? 0 then Ret (Ok tt) else
  do r <- release_with at_once owner (bx_meta b) (size (bx_layout b));
  Ret (match r with Ok _ => Ok tt | Err m => Err (mkPBox (bx_ptr b) m (bx_layout b)) end).

(** [Drop for PBox]: whether the block was released, which nobody learns. *)
Definition box_drop (b : PBox) : prog (box_state H) bool :=
  if size (bx_layout b) =? 0 then Ret true else
  do r <- release_with at_once owner (bx_meta b) (size (bx_layout b));
  Ret (is_ok r).
End Boxes.
