(* ===== verification/BoxedConc.v ===== *)
(** * Boxes under interference

    What a participant may rely on when the heap and its bytes are shared: the
    boxes it holds keep what it wrote in them. The operations of [Boxed] are
    specified against that reliance, over any heap with the laws of [HeapLaws] and
    [HeapBytesLaws]. *)

From S2P Require Import Prelude Atomic Alloc Bytes Mem Heap TalcGeo Talc TalcInit TalcSpec TalcSafe HeapConc Boxed.

(** ** What a participant has *)

Abbreviation boxes := (list (PBox * list Z)).

(** The blocks behind boxes. *)
Definition box_block (b : PBox) : list Meta := if size (bx_layout b) =? 0 then [] else [bx_meta b].
Definition metas (bs : list PBox) : list Meta := bs ≫= box_block.

(** A box and what is in it. *)
Definition box_ok (b : PBox * list Z) : Prop :=
  if size (bx_layout b.1) =? 0 then b.2 = [] else
  bx_ptr b.1 = At (moff (bx_meta b.1)) ∧ mlen (bx_meta b.1) = size (bx_layout b.1) ∧ Z.of_nat (length b.2) = size (bx_layout b.1).

Definition content {H} `{HB : HeapBytes H} (h : H) (b : PBox * list Z) : Prop :=
  ∀ i v, b.2 !! i = Some v → heap_byte (moff (bx_meta b.1) + Z.of_nat i) h = v.

Lemma metas_perm bs bs' : bs ≡ₚ bs' → metas bs ≡ₚ metas bs'.
Proof. unfold metas. by intros ->. Qed.

Lemma metas_cons b bs : metas (b :: bs) = box_block b ++ metas bs.
Proof. done. Qed.

Lemma fst_delete (hs : boxes) n b cs : hs !! n = Some (b, cs) → hs.*1 ≡ₚ b :: (delete n hs).*1.
Proof. intros Hn. pose proof (delete_Permutation hs n _ Hn) as E. by rewrite E at 1. Qed.

Section Data.
Context {H : Type} `{BL : HeapBytesLaws H} (slot : nat → Z) (N : nat).
Context (Hslot : ∀ t, (t < N)%nat → 0 ≤ slot t < PARTICIPANT_CAPACITY).
Abbreviation hg := (hg (H := H)).

Lemma held_perm t ms ms' (g : hg) : ms ≡ₚ ms' → held t ms g → held t ms' g.
Proof using. intros E [Hn Hm Ha Ho]. split; [by rewrite <- E|intros m; rewrite <- E; apply Hm|intros o n; rewrite <- E; apply Ha|done]. Qed.

(** ** Auxiliary state *)

(** The heap is what is in memory, the bytes of the boxes included. *)
Record binv (g : hg) (s : box_state H) : Prop := { bi_heap : ginv slot N g s; bi_now : current g = settled g }.

(** A participant leaves the blocks of others, and the bytes in them. *)
Record bguar (t : nat) (g g' : hg) : Prop := {
  bu_keep : others_keep t (owned g) (owned g');
  bu_holder : holder g' = holder g ∨ holder g = None ∧ holder g' = Some t ∨ holder g = Some t ∧ holder g' = None;
  bu_bytes t' p n x : t' ≠ t → owned g !! p = Some (t', n) → p ≤ x < p + n → heap_byte x (settled g') = heap_byte x (settled g);
}.

Abbreviation bwp t p Q g := (wp binv (rely_of bguar) t p Q g).

(** What [t] holds, whether or not it is mutating. *)
Abbreviation at_rest g := (mkHg None (settled g) (settled g) (owned g)).

Record bheld (t : nat) (hs : boxes) (lost : list Meta) (g : hg) : Prop := {
  bh_held : held t (metas hs.*1 ++ lost) g;
  bh_ok : Forall box_ok hs;
  bh_content : Forall (content (settled g)) hs;
}.

Lemma bguar_skip t g : bguar t g g.
Proof using. split; [done|by left|done]. Qed.

(** The block of a box with bytes is its holder's. *)
Lemma box_owned t hs lost o (h : H) (b : PBox * list Z) : held t (metas hs.*1 ++ lost) (mkHg None h h o) → Forall box_ok hs → b ∈ hs → b.2 ≠ [] →
  o !! moff (bx_meta b.1) = Some (t, Z.of_nat (length b.2)).
Proof using.
  intros Hh Hok Hb Hne. pose proof (proj1 (Forall_forall _ _) Hok b Hb) as Hbok. unfold box_ok in Hbok. destruct (size (bx_layout b.1) =? 0) eqn:Ez; [done|].
  destruct Hbok as (_ & Hml & Hlen). rewrite Hlen, <- Hml. apply (hl_mine _ _ _ Hh). apply elem_of_app. left. unfold metas. apply list_elem_of_bind.
  exists b.1. split; [unfold box_block; rewrite Ez; by left|]. by apply list_elem_of_fmap_2.
Qed.

Lemma held_at t ms (g : hg) : held t ms g → held t ms (at_rest g).
Proof using. intros [Hn Hm Ha Ho]. by split. Qed.

(** Others leave what [t] holds, *)
Lemma rest_stable t t' ms g g' : t' ≠ t → bguar t' g g' → held t ms (at_rest g) → held t ms (at_rest g').
Proof using.
  intros Ht [Hk _ _] [Hn Hm Ha Ho]. cbn [owned holder] in *.
  split; cbn [owned holder]; [done| | |done]; intros; [apply (Hk t); [congruence|by apply Hm]|apply Ha, (Hk t); [congruence|done]].
Qed.

(** and its bytes. *)
Lemma content_stable t t' hs lost g g' : t' ≠ t → bguar t' g g' → held t (metas hs.*1 ++ lost) (at_rest g) →
  Forall box_ok hs → Forall (content (settled g)) hs → Forall (content (settled g')) hs.
Proof using.
  intros Ht Hk Hh Hok Hc. apply Forall_forall. intros b Hb i v Hi. assert (Hne : b.2 ≠ []) by (intros E; by rewrite E in Hi).
  rewrite (bu_bytes _ _ _ Hk t (moff (bx_meta b.1)) (Z.of_nat (length b.2))); [by apply (proj1 (Forall_forall _ _) Hc b Hb)|congruence|by eapply box_owned|].
  apply lookup_lt_Some in Hi. lia.
Qed.

Lemma bheld_stable t hs lost : stable (rely_of bguar) t (bheld t hs lost).
Proof using.
  apply stable_of. intros t' g g' Ht Hg [Hh Hok Hc]. pose proof (rest_stable _ _ _ _ _ Ht Hg (held_at _ _ _ Hh)) as [Hn Hm Ha _]. split; [|done|].
  - split; [done..|]. pose proof (hl_out _ _ _ Hh). destruct (bu_holder _ _ _ Hg) as [->|[[_ ->]|[_ ->]]]; congruence.
  - eapply content_stable; [exact Ht|exact Hg|by apply held_at|done|done].
Qed.

(** [t] has the mutation word; what it holds and what is in it. *)
Definition binside (t : nat) (ms : list Meta) (hs : boxes) (g : hg) : Prop :=
  holder g = Some t ∧ held t ms (at_rest g) ∧ (∃ lost, ms ≡ₚ metas hs.*1 ++ lost) ∧ Forall box_ok hs ∧ Forall (content (settled g)) hs.

Lemma binside_stable t ms hs : stable (rely_of bguar) t (binside t ms hs).
Proof using.
  apply stable_of. intros t' g g' Ht Hg (Hho & Hh & (lost & E) & Hok & Hc). split_and!; [|by eapply rest_stable|by exists lost|done|].
  - destruct (bu_holder _ _ _ Hg) as [->|[[? _]|[? _]]]; congruence.
  - eapply content_stable; [exact Ht|exact Hg|by eapply held_perm|done|done].
Qed.

(** What a mutation leaves of the bytes: all but those of the blocks in [ex], which
    are the holder's. *)
Definition step_bytes {A} (t : nat) (ms : list Meta) (f : H → A * H) (ex : list Z) : Prop :=
  (∀ p, p ∈ ex → p ∈ (λ m, moff m) <$> ms) ∧
  ∀ h o p t' n x, good N h o → held t ms (mkHg None h h o) → o !! p = Some (t', n) → p ∉ ex → p ≤ x < p + n → heap_byte x (f h).2 = heap_byte x h.

(** A guarded mutation keeps everyone's blocks and their bytes; [left] are the boxes
    it does not release. *)
Lemma guarded_bytes {A C} t hs lost left_ lost' (f : H → A * H) (x : MutationError → C) (y : A → C) R ex Q g : (t < N)%nat → bheld t hs lost g →
  step_ok N t (metas hs.*1 ++ lost) f R → step_bytes t (metas hs.*1 ++ lost) f ex →
  metas hs.*1 ++ lost ≡ₚ metas left_.*1 ++ lost' → (∀ b, b ∈ left_ → b ∈ hs ∧ (b.2 = [] ∨ moff (bx_meta b.1) ∉ ex)) →
  (∀ a ms', R a ms' → ∃ lost'', ms' ≡ₚ metas left_.*1 ++ lost'') → (∀ e g, bheld t hs lost g → Q (x e) g) →
  (∀ a ms' g, R a ms' → good N (settled g) (owned g) → held t ms' g → Forall (content (settled g)) left_ → Q (y a) g) →
  bwp t (act c <- claim_word (slot t); match c with
    | Err e => Ret (x e)
    | Ok _ => do r <- at_once f; act_ (store_word MUTATION_CLEAN); Ret (y r)
    end) Q g.
Proof using Hslot.
  intros Ht Hh Hf [Hex Hb] Hperm Hleft HR Hx Hy. apply (wp_act _ _ (bheld t hs lost)); [done|apply bheld_stable|]. clear g Hh.
  intros [ho h c o] s Hh [[Hgood Hheap Hword] Hnow]. cbn [settled current owned holder] in *. symmetry in Hnow. destruct Hnow.
  destruct ho as [t'|].
  { destruct Hword as [Hw Ht']. pose proof (Hslot t' Ht') as Hs'. unfold claim_word, mutation_claim, mutation_owner_word in *. rewrite Hw.
    unfold MUTATION_CLEAN, PARTICIPANT_CAPACITY, usize_bits in *. change MUTATION_POISONED with 18446744073709551615.
    destruct (Z.eqb_spec (slot t' + 1) 0); [lia|]. destruct (Z.eqb_spec (slot t' + 1) 18446744073709551615); [lia|]. cbn [fst snd].
    exists (mkHg (Some t') h h o). split_and!; [by split; [split|]|apply bguar_skip|by apply Hx]. }
  destruct Hword as [Hw _]. unfold claim_word, mutation_claim. rewrite Hw. cbn [Z.eqb MUTATION_CLEAN fst snd].
  exists (mkHg (Some t) h h o). split_and!; [by split; [split|]|split; [done|right; by left|done]|].
  destruct Hh as [Hh Hok Hc]. cbn [settled] in *.
  cbn [at_once bind]. apply (wp_act _ _ (binside t (metas hs.*1 ++ lost) hs)); [by split_and!; [|apply (held_at _ _ (mkHg None h h o))|exists lost|..]|apply binside_stable|].
  clear h o s Hgood Hheap Hw Hh Hc. intros [ho h c o] s (Hho & Hh & _ & _ & Hc) [[Hgood Hheap Hword] Hnow]. cbn [settled current owned holder fst snd] in *. subst ho. symmetry in Hnow. destruct Hnow.
  destruct (Hf h o Hgood Hh) as (o' & ms' & Hg' & Hk & Hh' & HRa). rewrite Hheap. set (r := f h) in *.
  assert (Hothers : ∀ t' p n z, t' ≠ t → o !! p = Some (t', n) → p ≤ z < p + n → heap_byte z r.2 = heap_byte z h).
  { intros t' p n z Hne Hp Hz. apply (Hb h o p t' n z Hgood Hh Hp); [|done]. intros (m & -> & Hm)%Hex%list_elem_of_fmap.
    pose proof (hl_mine _ _ _ Hh m Hm) as Hp'. cbn [owned] in Hp'. congruence. }
  assert (Hcl : Forall (content r.2) left_).
  { apply Forall_forall. intros b Hbl i v Hi. destruct (Hleft b Hbl) as [Hbh [E|Hni]]; [by rewrite E in Hi|].
    assert (Hne : b.2 ≠ []) by (intros E; by rewrite E in Hi). pose proof (box_owned t hs lost o h b Hh Hok Hbh Hne) as Ho.
    unfold r. rewrite (Hb h o (moff (bx_meta b.1)) t (Z.of_nat (length b.2))); [by apply (proj1 (Forall_forall _ _) Hc b Hbh)|done|done|done|done|].
    apply lookup_lt_Some in Hi. lia. }
  exists (mkHg (Some t) r.2 r.2 o'). split_and!; [by split; [split|]|split; [done|by left|exact Hothers]|]. destruct (HR _ _ HRa) as [lost'' E'].
  apply (wp_act _ _ (binside t ms' left_)); [split_and!; [done|exact Hh'|by exists lost''| |done]|apply binside_stable|].
  { apply Forall_forall. intros b Hbl. by apply (proj1 (Forall_forall _ _) Hok), Hleft. }
  clear s Hheap Hword Hcl. intros [ho h1 c1 o1] s (Hho & Hh1 & _ & _ & Hc1) [[Hgood1 Hheap1 Hword1] Hnow1]. cbn [settled current owned holder fst snd] in *. subst ho. symmetry in Hnow1. destruct Hnow1.
  exists (mkHg None h1 h1 o1). split_and!; [by split; [split|]|split; [done|right; by right|done]|]. by eapply Hy.
Qed.

(** ** Bytes *)

(** Two boxes of one participant are two blocks. *)
Lemma boxes_apart t (hs : boxes) lost (g : hg) n n' b b' : held t (metas hs.*1 ++ lost) g → Forall box_ok hs → hs !! n = Some b → hs !! n' = Some b' → n ≠ n' →
  b.2 ≠ [] → b'.2 ≠ [] → moff (bx_meta b.1) ≠ moff (bx_meta b'.1).
Proof using.
  intros Hh Hok Hn Hn' Hne Hb Hb' E. pose proof (hl_nodup _ _ _ Hh) as Hd.
  assert (Hblk : ∀ x, x ∈ hs → x.2 ≠ [] → box_block x.1 = [bx_meta x.1]).
  { intros x Hx Hx2. pose proof (proj1 (Forall_forall _ _) Hok x Hx) as Hxok. unfold box_ok, box_block in *. by destruct (_ =? 0). }
  destruct b as [b cs]. rewrite (metas_perm _ _ (fst_delete hs n b cs Hn)) in Hd. rewrite metas_cons in Hd.
  pose proof (Hblk (b, cs) (list_elem_of_lookup_2 _ _ _ Hn) Hb) as Eb. cbn [fst] in Eb. rewrite Eb in Hd. cbn [app fmap list_fmap] in Hd. apply NoDup_cons in Hd as [Hx _]. apply Hx. cbn [fst] in E. rewrite E.
  apply (list_elem_of_fmap_2 (λ m, moff m)). apply elem_of_app. left. apply list_elem_of_bind. exists b'.1.
  assert (Hin : b' ∈ delete n hs).
  { destruct (decide (n' < n)%nat); apply list_elem_of_lookup; [exists n'; by rewrite list_lookup_delete_lt|exists (pred n')].
    rewrite list_lookup_delete_ge by lia. by replace (S (pred n')) with n' by lia. }
  split; [rewrite Hblk; [by left|by eapply list_elem_of_lookup_2|done]|by apply list_elem_of_fmap_2].
Qed.

Lemma box_at t hs lost B n b cs : bheld t hs lost B → hs !! n = Some (b, cs) → cs ≠ [] →
  bx_ptr b = At (moff (bx_meta b)) ∧ owned B !! moff (bx_meta b) = Some (t, Z.of_nat (length cs)).
Proof using.
  intros [Hh Hok _] Hn Hne. pose proof (list_elem_of_lookup_2 _ _ _ Hn) as Hin. split; [|by apply (box_owned t hs lost _ (settled B) (b, cs)); [apply held_at|..]].
  pose proof (proj1 (Forall_forall _ _) Hok _ Hin) as Hb. unfold box_ok in Hb. cbn [fst snd] in Hb. destruct (_ =? 0); [done|apply Hb].
Qed.

Lemma store_box_spec {A} t hs lost n b cs i v (k : prog (box_state H) A) Q g : bheld t hs lost g → hs !! n = Some (b, cs) → (i < length cs)%nat → is_byte v →
  (∀ g, bheld t (<[n := (b, <[i := v]> cs)]> hs) lost g → bwp t k Q g) →
  bwp t (act_ (store_heap_byte (moff (bx_meta b) + Z.of_nat i) v); k) Q g.
Proof using BL.
  intros Hh Hn Hi Hv Hk. apply (wp_act _ _ (bheld t hs lost)); [done|apply bheld_stable|]. clear g Hh.
  intros [ho h c o] s Hb [[Hgood Hheap Hword] Hnow]. cbn [settled current owned holder] in *. symmetry in Hnow. destruct Hnow. assert (Hne : cs ≠ []) by (intros ->; simpl in Hi; lia).
  destruct (box_at _ _ _ _ _ _ _ Hb Hn Hne) as [_ Ho]. cbn [owned] in Ho. pose proof (gd_apart _ _ _ Hgood) as Hap.
  set (x := moff (bx_meta b) + Z.of_nat i). assert (Hx : moff (bx_meta b) ≤ x < moff (bx_meta b) + Z.of_nat (length cs)) by (unfold x; lia).
  destruct (set_byte_wf x v h (moff (bx_meta b)) (Z.of_nat (length cs)) (gd_wf _ _ _ Hgood)) as [Hwf' Hbl']; [by rewrite (gd_blocks _ _ _ Hgood), lookup_fmap, Ho|done|].
  assert (Hw : wrap 8 v = v) by (by apply wrap_small). assert (Hset : ∀ z, heap_byte z (set_heap_byte x v h) = if z =? x then v else heap_byte z h) by (intros z; by rewrite byte_set, Hw).
  assert (Hgood' : good N (set_heap_byte x v h) o) by (destruct Hgood; split; [done|by rewrite Hbl'|done|done]).
  exists (mkHg ho (set_heap_byte x v h) (set_heap_byte x v h) o). cbn [store_heap_byte fst snd]. rewrite Hheap. split_and!.
  { split; [split|]; cbn [settled current owned holder]; [done|done| |done]. destruct ho; [done|]. split; [apply Hword|done]. }
  { split; cbn [settled owned holder]; [done|by left|]. intros t' p len z Ht Hp Hz. rewrite Hset, (proj2 (Z.eqb_neq _ _)); [done|]. intros ->.
    destruct (Hap _ _ _ _ _ _ Ho Hp) as [E'|Hd]; [rewrite E' in Ho; congruence|lia]. }
  apply Hk. destruct Hb as [Hh Hok Hc]. cbn [settled] in Hc. split; cbn [settled].
  - rewrite list_fmap_insert, list_insert_id; [by destruct Hh; split|]. by rewrite list_lookup_fmap, Hn.
  - apply Forall_insert; [done|]. pose proof (proj1 (Forall_forall _ _) Hok _ (list_elem_of_lookup_2 _ _ _ Hn)) as Hb. unfold box_ok in *. cbn [fst snd] in *.
    destruct (_ =? 0); [done|]. by rewrite length_insert.
  - apply Forall_lookup_2. intros n' b' Hn' j w Hj. rewrite Hset. apply list_lookup_insert_Some in Hn' as [(<- & <- & _)|[Hne' Hn']]; cbn [fst snd] in *.
    + apply list_lookup_insert_Some in Hj as [(<- & <- & _)|[Hij Hj]]; [by rewrite Z.eqb_refl|].
      rewrite (proj2 (Z.eqb_neq _ _)) by (unfold x; lia). by apply (proj1 (Forall_forall _ _) Hc _ (list_elem_of_lookup_2 _ _ _ Hn) j w).
    + assert (Hb' : b'.2 ≠ []) by (intros E; by rewrite E in Hj).
      pose proof (boxes_apart t hs lost _ n n' (b, cs) b' Hh Hok Hn Hn' Hne' Hne Hb') as Hoff. cbn [fst] in Hoff.
      pose proof (box_owned t hs lost o h b' (held_at _ _ _ Hh) Hok (list_elem_of_lookup_2 _ _ _ Hn') Hb') as Ho'.
      pose proof (lookup_lt_Some _ _ _ Hj). rewrite (proj2 (Z.eqb_neq _ _)); [by apply (proj1 (Forall_forall _ _) Hc _ (list_elem_of_lookup_2 _ _ _ Hn') j w)|].
      unfold x. intros E. destruct (Hap _ _ _ _ _ _ Ho Ho') as [?|Hd]; [done|lia].
Qed.

Lemma write_box_spec t lost n b bs : ∀ hs B cs i, bheld t hs lost B → hs !! n = Some (b, cs) → (i + length bs ≤ length cs)%nat → Forall is_byte bs →
  bwp t (write_heap (moff (bx_meta b) + Z.of_nat i) bs) (λ _ B, bheld t (<[n := (b, list_inserts i bs cs)]> hs) lost B) B.
Proof using BL.
  induction bs as [|v bs IH]; intros hs B cs i Ho Hn Hi Hbs; cbn [write_heap].
  { apply wp_ret. by rewrite list_insert_id. }
  apply Forall_cons in Hbs as [Hv Hbs]. cbn [length] in Hi. eapply store_box_spec; [done|done|lia|done|]. clear B Ho. intros B Ho.
  replace (moff (bx_meta b) + Z.of_nat i + 1) with (moff (bx_meta b) + Z.of_nat (S i)) by lia. eapply wp_mono; [|eapply (IH _ _ (<[i := v]> cs) (S i)); [done| |rewrite length_insert; lia|done]].
  - cbv beta. intros _ B'. rewrite list_insert_insert_eq. cbn [list_inserts]. by rewrite <- list_insert_inserts_lt by lia.
  - apply list_lookup_insert_eq. by eapply lookup_lt_Some.
Qed.

Lemma box_store_spec t hs lost n b cs off bs B : bheld t hs lost B → hs !! n = Some (b, cs) → (off + length bs ≤ length cs)%nat → Forall is_byte bs →
  bwp t (box_store b (Z.of_nat off) bs) (λ _ B, bheld t (<[n := (b, list_inserts off bs cs)]> hs) lost B) B.
Proof using BL.
  intros Hh Hn Hl Hbs. unfold box_store. destruct (decide (cs = [])) as [->|Hne].
  - destruct bs; [|simpl in Hl; lia]. cbn [list_inserts write_heap]. rewrite list_insert_id by done. by destruct (bx_ptr b).
  - destruct (box_at _ _ _ _ _ _ _ Hh Hn Hne) as [-> _]. by apply write_box_spec.
Qed.

Lemma read_box_spec t hs lost n b cs len : hs !! n = Some (b, cs) → ∀ i B, (i + len ≤ length cs)%nat → bheld t hs lost B →
  bwp t (read_heap (moff (bx_meta b) + Z.of_nat i) len) (λ r B, r = take len (drop i cs) ∧ bheld t hs lost B) B.
Proof using.
  intros Hn. induction len as [|len IH]; intros i B Hi Hh; cbn [read_heap]; [by apply wp_ret|].
  apply (wp_act _ _ (bheld t hs lost)); [done|apply bheld_stable|]. clear B Hh. intros B s Hb HI. exists B. split_and!; [done|apply bguar_skip|].
  cbn [load_heap_byte fst snd]. destruct (lookup_lt_is_Some_2 cs i) as [v Hv]; [lia|].
  pose proof (proj1 (Forall_forall _ _) (bh_content _ _ _ _ Hb) _ (list_elem_of_lookup_2 _ _ _ Hn) i v Hv) as Hc.
  destruct HI as [[_ Eh _] En]. rewrite <- En, <- Eh in Hc. cbn [fst snd] in Hc. rewrite Hc.
  replace (moff (bx_meta b) + Z.of_nat i + 1) with (moff (bx_meta b) + Z.of_nat (S i)) by lia. eapply wp_seq; [apply IH; [lia|done]|]. cbv beta. intros r B' [-> Ho']. apply wp_ret.
  split; [|done]. by rewrite (drop_S _ _ _ Hv).
Qed.

Lemma box_load_spec t hs lost n b cs B : bheld t hs lost B → hs !! n = Some (b, cs) →
  bwp t (box_load b (length cs)) (λ r B, r = cs ∧ bheld t hs lost B) B.
Proof using.
  intros Hh Hn. unfold box_load. destruct (decide (cs = [])) as [->|Hne]; [by destruct (bx_ptr b)|]. destruct (box_at _ _ _ _ _ _ _ Hh Hn Hne) as [-> _].
  pose proof (read_box_spec t hs lost n b cs (length cs) Hn 0 B ltac:(lia) Hh) as Hr. rewrite Z.add_0_r, drop_0, firstn_all in Hr. exact Hr.
Qed.

(** ** Making boxes *)

Lemma step_ok_answer {A} t ms (f : H → A * H) R (P : A → Prop) : step_ok N t ms f R → (∀ h, P (f h).1) → step_ok N t ms f (λ a ms', R a ms' ∧ P a).
Proof using. intros Hf HP h o Hg Hh. destruct (Hf h o Hg Hh) as (o' & ms' & ? & ? & ? & ?). exists o', ms'. by split_and!. Qed.

(** A box without bytes is no block. *)
Lemma bheld_empty t hs lost b B : size (bx_layout b) = 0 → bheld t hs lost B → bheld t ((b, []) :: hs) lost B.
Proof using.
  intros Hz [Hh Hok Hc]. split; [|constructor; [|done]|constructor; [|done]].
  - cbn [fmap list_fmap fst]. rewrite metas_cons. unfold box_block. by rewrite (proj2 (Z.eqb_eq _ _) Hz).
  - unfold box_ok. cbn [fst snd]. by rewrite (proj2 (Z.eqb_eq _ _) Hz).
  - by intros [|i] v Hi.
Qed.

(** A box made, with something in it, or everything as it was. *)
Definition made_box {E} (t : nat) (hs : boxes) (lost : list Meta) (l : Layout) (r : result PBox E) (B : hg) : Prop :=
  match r with
  | Ok b => ∃ cs, Z.of_nat (length cs) = size l ∧ bheld t ((b, cs) :: hs) lost B
  | Err _ => bheld t hs lost B
  end.

Lemma alloc_box_spec t hs lost l B : (t < N)%nat → bheld t hs lost B → layout_wf l → 0 < size l →
  bwp t (do r <- allocate_with at_once (slot t) l; Ret (let? m := r in Ok (from_meta m l))) (made_box t hs lost l) B.
Proof using Hslot BL.
  intros Ht Hh Hl Hs.
  assert (Hbytes : step_bytes t (metas hs.*1 ++ lost) (alloc_answer l) []).
  { split; [by intros p ?%elem_of_nil|]. intros h o p t' n x [Hwf Hb _ _] _ Hp _ Hx. unfold alloc_answer. destruct (talc_allocate l h) as [[q h']|] eqn:E; [|done].
    eapply alloc_keeps; [done|done|done|exact E| |exact Hx]. by rewrite Hb, lookup_fmap, Hp. }
  assert (Hstep : step_ok N t (metas hs.*1 ++ lost) (alloc_answer l)
    (λ r ms', ms' = match r with Ok m => m :: metas hs.*1 ++ lost | Err _ => metas hs.*1 ++ lost end ∧ match r with Ok m => mlen m = size l | Err _ => True end)).
  { apply (step_ok_answer t _ _ (λ r ms', ms' = match r with Ok m => m :: metas hs.*1 ++ lost | Err _ => _ end) (λ r, match r with Ok m => mlen m = size l | Err _ => True end)); [by apply alloc_step|].
    intros h. unfold alloc_answer. by destruct (talc_allocate l h) as [[o h']|]. }
  eapply wp_seq.
  - apply (guarded_bytes t hs lost hs lost (alloc_answer l) Err id _ [] (λ r B, made_box t hs lost l (let? m := r in Ok (from_meta m l)) B) B Ht Hh Hstep Hbytes);
      [done|intros b Hb; split; [done|right; apply not_elem_of_nil]| |by intros e B'|].
    { intros [m|e] ms' [-> _]; [exists (m :: lost); apply Permutation_middle|by exists lost]. }
    intros [m|e] ms' B' [-> Hm] Hgood Hheld Hc; [|split; [done|apply (bh_ok _ _ _ _ Hh)|done]].
    cbn [id made_box]. pose proof (hl_mine _ _ _ Hheld m ltac:(apply elem_of_cons; by left)) as Ho. destruct (gd_size _ _ _ Hgood _ _ _ Ho) as (_ & Hp & Hn).
    exists ((λ i, heap_byte (moff m + i) (settled B')) <$> seqZ 0 (size l)). split; [rewrite length_fmap, length_seqZ; lia|].
    assert (Hptr : box_pointer m = At (moff m)) by (unfold box_pointer, Meta_is_null, is_null; rewrite !(proj2 (Z.eqb_neq _ _)) by lia; done).
    split; [|constructor; [|apply (bh_ok _ _ _ _ Hh)]|constructor; [|done]].
    + cbn [fmap list_fmap fst]. rewrite metas_cons. unfold box_block. cbn [from_meta bx_layout bx_meta]. by rewrite (proj2 (Z.eqb_neq _ _)) by lia.
    + unfold box_ok. cbn [fst snd from_meta bx_layout bx_meta bx_ptr]. rewrite (proj2 (Z.eqb_neq _ _)) by lia. rewrite Hptr, length_fmap, length_seqZ. split_and!; [done|done|lia].
    + intros i v. cbn [fst snd from_meta bx_meta]. rewrite list_lookup_fmap. intros (j & Hj & ->)%fmap_Some. apply lookup_seqZ in Hj as [-> _]. done.
  - cbv beta. intros r B' HQ. by apply wp_ret.
Qed.

Lemma uninit_spec t hs lost l B : (t < N)%nat → bheld t hs lost B → layout_wf l → 0 ≤ size l → bwp t (uninit (slot t) l) (made_box t hs lost l) B.
Proof using Hslot BL.
  intros Ht Hh Hl Hs. unfold uninit. destruct (Z.eqb_spec (size l) 0) as [Hz|Hz]; [|apply alloc_box_spec; (done || lia)].
  apply wp_ret. exists []. split; [by rewrite Hz|]. by apply bheld_empty.
Qed.

Lemma uninit_slice_spec t hs lost elem n B : (t < N)%nat → bheld t hs lost B → layout_wf elem → 0 ≤ size elem → 0 ≤ n →
  bwp t (uninit_slice (slot t) elem n) (made_box t hs lost (mkLayout (size elem * n) (align elem))) B.
Proof using Hslot BL.
  intros Ht Hh Hl Hs Hn. unfold uninit_slice. destruct (layout_array elem n) as [l|] eqn:El; [|by apply wp_ret].
  unfold layout_array in El. destruct (Z.leb_spec (size elem * n) (isize_max + 1 - align elem)) as [Hfit|]; [|done]. injection El as <-. cbn [size].
  destruct (Z.eqb_spec (size elem * n) 0) as [Hz|Hz].
  - apply wp_ret. exists []. split; [by rewrite Hz|]. by apply bheld_empty.
  - apply alloc_box_spec; [done|done| |cbn [size]; nia]. split; [apply Hl|]. cbn [size align]. nia.
Qed.

Lemma put_box_spec t hs lost l value B : (t < N)%nat → bheld t hs lost B → layout_wf l → Z.of_nat (length value) = size l → Forall is_byte value →
  bwp t (heap_put (slot t) l value) (λ r B, match r with Ok b => bheld t ((b, value) :: hs) lost B | Err e => e.2 = value ∧ bheld t hs lost B end) B.
Proof using Hslot BL.
  intros Ht Hh Hl Hv Hby. unfold heap_put. eapply wp_seq; [apply (uninit_spec t hs lost l B Ht Hh Hl); lia|]. cbv beta. clear B Hh.
  intros [b|e] B Hm; [|by apply wp_ret]. destruct Hm as (cs & Hcs & Hh). unfold box_write.
  eapply (wp_seq _ _ t _ _ (λ b' B, b' = b ∧ bheld t ((b, value) :: hs) lost B)).
  - change 0 with (Z.of_nat 0). eapply wp_seq; [apply (box_store_spec t ((b, cs) :: hs) lost 0 b cs 0 value B Hh); [done|lia|done]|].
    cbv beta. intros _ B2 Ho2. apply wp_ret. rewrite inserts_all in Ho2 by lia. by split.
  - cbv beta. intros b' B2 [-> Ho2]. by apply wp_ret.
Qed.

Lemma fill_box_spec t lost n b make e : 0 ≤ e → ∀ cnt hs B cs k, bheld t hs lost B → hs !! n = Some (b, cs) → 0 ≤ k →
  (∀ i, k ≤ i < k + Z.of_nat cnt → Z.of_nat (length (make i)) = e ∧ Forall is_byte (make i)) → (k + Z.of_nat cnt) * e ≤ Z.of_nat (length cs) →
  bwp t (fill_from b e make k cnt) (λ _ B, bheld t (<[n := (b, list_inserts (Z.to_nat (k * e)) (concat (make <$> seqZ k (Z.of_nat cnt))) cs)]> hs) lost B) B.
Proof using BL.
  intros He. induction cnt as [|cnt IH]; intros hs B cs k Ho Hn Hk Hmake Hfit; cbn [fill_from].
  { apply wp_ret. by rewrite list_insert_id. }
  pose proof (Hmake k ltac:(lia)) as [Hlen Hby]. assert (0 ≤ k * e ∧ k * e + e ≤ Z.of_nat (length cs) ∧ (k + 1) * e = k * e + e) as (Hke & Hroom & Hsucc) by nia.
  rewrite <- (Z2Nat.id (k * e)) at 1 by done.
  eapply wp_seq; [apply (box_store_spec t hs lost n b cs _ (make k) B Ho Hn); [lia|done]|]. cbv beta. clear B Ho. intros _ B Ho.
  eapply wp_mono; [|apply (IH _ B (list_inserts (Z.to_nat (k * e)) (make k) cs) (k + 1) Ho)].
  - cbv beta. intros _ B'. rewrite list_insert_insert_eq, (seqZ_cons k (Z.of_nat (S cnt))) by lia. replace (Z.pred (Z.of_nat (S cnt))) with (Z.of_nat cnt) by lia.
    cbn [fmap list_fmap concat]. rewrite list_inserts_app_l. replace (length (make k) + Z.to_nat (k * e))%nat with (Z.to_nat ((k + 1) * e)) by lia. done.
  - apply list_lookup_insert_eq. by eapply lookup_lt_Some.
  - lia.
  - intros i Hi. apply Hmake. lia.
  - rewrite length_inserts. nia.
Qed.

Lemma copy_box_spec t hs lost elem values B : (t < N)%nat → bheld t hs lost B → layout_wf elem → (∀ v, v ∈ values → Z.of_nat (length v) = size elem ∧ Forall is_byte v) →
  bwp t (heap_copy (slot t) elem values) (λ r B, match r with Ok b => bheld t ((b, concat values) :: hs) lost B | Err _ => bheld t hs lost B end) B.
Proof using Hslot BL.
  intros Ht Hh Hl Hv. assert (He : 0 ≤ size elem) by apply Hl. unfold heap_copy, heap_init. eapply wp_seq; [apply uninit_slice_spec; [done|done|done|done|lia]|]. cbv beta. clear B Hh.
  intros [b|e] B Hm; [|by apply wp_ret]. destruct Hm as (cs & Hcs & Hh). cbn [size] in Hcs. rewrite Nat2Z.id.
  assert (Hmake : ∀ i, 0 ≤ i < 0 + Z.of_nat (length values) → Z.of_nat (length (values !!! Z.to_nat i)) = size elem ∧ Forall is_byte (values !!! Z.to_nat i)).
  { intros i Hi. apply Hv. apply list_elem_of_lookup_total_2. lia. }
  eapply wp_seq; [apply (fill_box_spec t lost 0 b (λ i, values !!! Z.to_nat i) (size elem) He (length values) _ B cs 0 Hh); [done|done|done|lia]|].
  cbv beta. intros _ B' Ho'. apply wp_ret. cbn [list_insert insert] in Ho'. rewrite index_all in Ho'. rewrite inserts_all in Ho'; [done|].
  apply Nat2Z.inj. rewrite Hcs, (concat_length (size elem)) by (intros v Hin; by apply Hv). done.
Qed.

(** ** Releasing boxes *)

Lemma release_box_spec t hs lost n b cs B : (t < N)%nat → bheld t hs lost B → hs !! n = Some (b, cs) → size (bx_layout b) ≠ 0 →
  bwp t (release_with at_once (slot t) (bx_meta b) (size (bx_layout b)))
    (λ r B, match r with Ok _ => bheld t (delete n hs) lost B | Err m => m = bx_meta b ∧ bheld t hs lost B end) B.
Proof using Hslot BL.
  intros Ht Hh Hn Hz. assert (Hperm : metas hs.*1 ++ lost ≡ₚ bx_meta b :: metas (delete n hs).*1 ++ lost).
  { rewrite (metas_perm _ _ (fst_delete hs n b cs Hn)), metas_cons. unfold box_block. by rewrite (proj2 (Z.eqb_neq _ _) Hz). }
  assert (Hml : mlen (bx_meta b) = size (bx_layout b)).
  { pose proof (proj1 (Forall_forall _ _) (bh_ok _ _ _ _ Hh) _ (list_elem_of_lookup_2 _ _ _ Hn)) as Hb. unfold box_ok in Hb. cbn [fst] in Hb. rewrite (proj2 (Z.eqb_neq _ _) Hz) in Hb. apply Hb. }
  assert (Hin : bx_meta b ∈ metas hs.*1 ++ lost) by (rewrite Hperm; apply elem_of_cons; by left).
  assert (Hbytes : step_bytes t (metas hs.*1 ++ lost) (λ h, (tt, talc_deallocate (moff (bx_meta b)) (mlen (bx_meta b)) h)) [moff (bx_meta b)]).
  { split; [intros p ->%list_elem_of_singleton; by apply (list_elem_of_fmap_2 (λ m, moff m))|]. intros h o p t' m x [Hwf Hb _ _] Hheld Hp Hni Hx. cbn [snd].
    pose proof (hl_mine _ _ _ Hheld _ Hin) as Hq. cbn [owned] in Hq.
    eapply free_keeps; [done|by rewrite Hb, lookup_fmap, Hq|by rewrite Hb, lookup_fmap, Hp| |exact Hx]. intros ->. apply Hni. by left. }
  apply list_elem_of_lookup in Hin as [i Hi].
  assert (Hdel : ∀ ms', ms' = delete i (metas hs.*1 ++ lost) → ms' ≡ₚ metas (delete n hs).*1 ++ lost).
  { intros ms' ->. apply (Permutation_cons_inv (a := bx_meta b)). rewrite <- Hperm. symmetry. by apply delete_Permutation. }
  unfold release_with. rewrite <- Hml.
  apply (guarded_bytes t hs lost (delete n hs) (bx_meta b :: lost) _ (λ _, Err (bx_meta b)) (λ _, Ok tt) _ [moff (bx_meta b)] _ B Ht Hh (free_step N t _ i _ Hi) Hbytes).
  - rewrite Hperm. apply Permutation_middle.
  - intros b' Hb'. apply list_elem_of_lookup in Hb' as [n' Hn']. rewrite list_lookup_delete in Hn'.
    assert (∃ n2, hs !! n2 = Some b' ∧ n ≠ n2) as (n2 & Hn2 & Hne) by (destruct (decide (n' < n)%nat); [exists n'|exists (S n')]; (split; [done|lia])).
    split; [by eapply list_elem_of_lookup_2|]. destruct (decide (b'.2 = [])) as [|Hb2]; [by left|right]. rewrite list_elem_of_singleton. intros E.
    assert (Hcs : cs ≠ []).
    { intros ->. pose proof (proj1 (Forall_forall _ _) (bh_ok _ _ _ _ Hh) _ (list_elem_of_lookup_2 _ _ _ Hn)) as Hb. unfold box_ok in Hb. cbn [fst snd length] in Hb.
      rewrite (proj2 (Z.eqb_neq _ _) Hz) in Hb. lia. }
    by apply (boxes_apart t hs lost B n n2 (b, cs) b' (bh_held _ _ _ _ Hh) (bh_ok _ _ _ _ Hh) Hn Hn2 Hne Hcs Hb2).
  - intros [] ms' E. exists lost. by apply Hdel.
  - by intros e B' HB.
  - intros [] ms' B' E _ Hheld Hc. split; [|apply Forall_delete, (bh_ok _ _ _ _ Hh)|done]. eapply held_perm; [|exact Hheld]. by apply Hdel.
Qed.

(** A box that was not released is nobody's. *)
Lemma lose_box t hs lost n b cs B : bheld t hs lost B → hs !! n = Some (b, cs) → size (bx_layout b) ≠ 0 → bheld t (delete n hs) (bx_meta b :: lost) B.
Proof using.
  intros [Hh Hok Hc] Hn Hz. split; [|by apply Forall_delete|by apply Forall_delete]. eapply held_perm; [|exact Hh].
  rewrite (metas_perm _ _ (fst_delete hs n b cs Hn)), metas_cons. unfold box_block. rewrite (proj2 (Z.eqb_neq _ _) Hz). cbn [app]. apply Permutation_middle.
Qed.

Lemma forget_box t hs lost n b cs B : bheld t hs lost B → hs !! n = Some (b, cs) → size (bx_layout b) = 0 → bheld t (delete n hs) lost B.
Proof using.
  intros [Hh Hok Hc] Hn Hz. split; [|by apply Forall_delete|by apply Forall_delete]. eapply held_perm; [|exact Hh].
  rewrite (metas_perm _ _ (fst_delete hs n b cs Hn)), metas_cons. unfold box_block. by rewrite (proj2 (Z.eqb_eq _ _) Hz).
Qed.
End Data.
