(* ===== verification/BoxedRun.v ===== *)
(** * Boxes keep what their holders write

    Any number of participants put, copy, read, write, release and drop boxes of
    one general heap at the same time, each access of the mutation word or of a
    byte, and the allocator's work under the word, interleaved with the others'. *)

From S2P Require Import Prelude Atomic Alloc Bytes Mem Heap TalcGeo Talc TalcInit TalcSpec TalcSafe HeapConc Boxed BoxedConc.

(** ** Clients *)

Inductive xcmd :=
| XPut (l : Layout) (value : list Z)
| XCopy (elem : Layout) (values : list (list Z))
| XWrite (n off : nat) (bs : list Z)
| XRead (n : nat)
| XRelease (n : nat)
| XDrop (n : nat).

Inductive xout := XMade | XRefused | XNothing | XWritten | XSame | XDiffers | XReleased | XKept | XDropped.

(** What a client has: its boxes with what it put in them, and the blocks of the
    boxes it dropped that were not released. *)
Abbreviation holding := (boxes * list Meta)%type.

Definition xcmd_ok (c : xcmd) : Prop :=
  match c with
  | XPut l value => layout_wf l ∧ Z.of_nat (length value) = size l ∧ Forall is_byte value
  | XCopy elem values => layout_wf elem ∧ ∀ v, v ∈ values → Z.of_nat (length v) = size elem ∧ Forall is_byte v
  | XWrite _ _ bs => Forall is_byte bs
  | _ => True
  end.

Section Clients.
Context {H : Type} `{HO : HeapOps H} `{HB : HeapBytes H}.

Definition xexec (owner : Z) (c : xcmd) (st : holding) : prog (box_state H) (xout * holding) :=
  let '(hs, lost) := st in
  match c with
  | XPut l value =>
    do r <- heap_put owner l value;
    Ret (match r with Ok b => (XMade, ((b, value) :: hs, lost)) | Err _ => (XRefused, (hs, lost)) end)
  | XCopy elem values =>
    do r <- heap_copy owner elem values;
    Ret (match r with Ok b => (XMade, ((b, concat values) :: hs, lost)) | Err _ => (XRefused, (hs, lost)) end)
  | XWrite n off bs =>
    match hs !! n with
    | None => Ret (XNothing, (hs, lost))
    | Some (b, cs) =>
      if bool_decide (off + length bs ≤ length cs)%nat then
        do _ <- box_store b (Z.of_nat off) bs; Ret (XWritten, (<[n := (b, list_inserts off bs cs)]> hs, lost))
      else Ret (XNothing, (hs, lost))
    end
  | XRead n =>
    match hs !! n with
    | None => Ret (XNothing, (hs, lost))
    | Some (b, cs) => do r <- box_load b (length cs); Ret (if bool_decide (r = cs) then XSame else XDiffers, (hs, lost))
    end
  | XRelease n =>
    match hs !! n with
    | None => Ret (XNothing, (hs, lost))
    | Some (b, cs) =>
      do r <- box_release owner b;
      Ret (match r with Ok _ => (XReleased, (delete n hs, lost)) | Err b => (XKept, (<[n := (b, cs)]> hs, lost)) end)
    end
  | XDrop n =>
    match hs !! n with
    | None => Ret (XNothing, (hs, lost))
    | Some (b, cs) =>
      do freed <- box_drop owner b;
      Ret (XDropped, (delete n hs, if freed then lost else bx_meta b :: lost))
    end
  end.

Fixpoint xclient (owner : Z) (cs : list xcmd) (st : holding) (os : list xout) : prog (box_state H) (list xout * holding) :=
  match cs with
  | [] => Ret (os, st)
  | c :: cs => do r <- xexec owner c st; xclient owner cs r.2 (os ++ [r.1])
  end.

(** A clean heap and one client per command list. *)
Definition xstart (h : H) (members : Z) (slot : nat → Z) (css : list (list xcmd)) : cfg (box_state H) (list xout * holding) :=
  (mkShared MUTATION_CLEAN members h, imap (λ t cs, xclient (slot t) cs ([], []) []) css).
End Clients.

Section Run.
Context {H : Type} `{BL : HeapBytesLaws H} (slot : nat → Z) (N : nat).
Context (Hslot : ∀ t, (t < N)%nat → 0 ≤ slot t < PARTICIPANT_CAPACITY).
Abbreviation bwp t p Q B := (wp (binv slot N) (rely_of bguar) t p Q B).

Definition xfine (t : nat) (r : xout * holding) (B : hg (H := H)) : Prop := r.1 ≠ XDiffers ∧ bheld t r.2.1 r.2.2 B.

Lemma xexec_spec t c hs lost B : (t < N)%nat → xcmd_ok c → bheld t hs lost B → bwp t (xexec (slot t) c (hs, lost)) (xfine t) B.
Proof using Hslot BL.
  intros Ht Hc Hh. destruct c as [l value|elem values|n off bs|n|n|n]; cbn [xexec xcmd_ok] in *.
  - destruct Hc as (? & ? & ?). eapply wp_seq; [by eapply put_box_spec|]. cbv beta. intros [b|e] B' HQ; apply wp_ret; by split; [|apply HQ].
  - destruct Hc. eapply wp_seq; [by eapply copy_box_spec|]. cbv beta. intros [b|e] B' HQ; apply wp_ret; by split.
  - destruct (hs !! n) as [[b cs]|] eqn:Hn; [|by apply wp_ret]. case_bool_decide as Hl; [|by apply wp_ret].
    eapply wp_seq; [by eapply box_store_spec|]. cbv beta. intros _ B' HQ. apply wp_ret. by split.
  - destruct (hs !! n) as [[b cs]|] eqn:Hn; [|by apply wp_ret]. eapply wp_seq; [by eapply box_load_spec|]. cbv beta. intros r B' [-> HQ]. apply wp_ret.
    rewrite bool_decide_true by done. by split.
  - destruct (hs !! n) as [[b cs]|] eqn:Hn; [|by apply wp_ret]. unfold box_release. destruct (Z.eqb_spec (size (bx_layout b)) 0) as [Hz|Hz].
    + apply wp_ret. split; [done|]. by eapply forget_box.
    + eapply (wp_seq _ _ t _ _ (λ (r : result unit PBox) B, match r with Ok _ => bheld t (delete n hs) lost B | Err b' => b' = b ∧ bheld t hs lost B end)).
      * eapply wp_seq; [by eapply release_box_spec|]. cbv beta. intros [[]|m] B' HQ; apply wp_ret; [done|]. destruct HQ as [-> HQ]. split; [by destruct b|done].
      * cbv beta. intros [[]|b'] B' HQ; apply wp_ret; [by split|]. destruct HQ as [-> HQ]. split; [done|]. cbn [fst snd]. by rewrite list_insert_id.
  - destruct (hs !! n) as [[b cs]|] eqn:Hn; [|by apply wp_ret]. unfold box_drop. destruct (Z.eqb_spec (size (bx_layout b)) 0) as [Hz|Hz].
    + apply wp_ret. split; [done|]. by eapply forget_box.
    + eapply (wp_seq _ _ t _ _ (λ (freed : bool) B, if freed then bheld t (delete n hs) lost B else bheld t (delete n hs) (bx_meta b :: lost) B)).
      * eapply wp_seq; [by eapply release_box_spec|]. cbv beta. intros [[]|m] B' HQ; apply wp_ret; [done|]. destruct HQ as [-> HQ]. by eapply lose_box.
      * cbv beta. intros [] B' HQ; apply wp_ret; by split.
Qed.

Definition xdone (t : nat) (r : list xout * holding) (B : hg (H := H)) : Prop := (XDiffers ∉ r.1) ∧ bheld t r.2.1 r.2.2 B.

Lemma xclient_spec t cs hs lost os B : (t < N)%nat → Forall xcmd_ok cs → XDiffers ∉ os → bheld t hs lost B → bwp t (xclient (slot t) cs (hs, lost) os) (xdone t) B.
Proof using Hslot BL.
  intros Ht. revert hs lost os B. induction cs as [|c cs IH]; intros hs lost os B Hcs Hos Hh; cbn [xclient]; [by apply wp_ret|].
  apply Forall_cons in Hcs as [Hc Hcs]. eapply wp_seq; [by apply xexec_spec|]. intros [o [hs' lost']] B' [Hd Hh']. apply IH; [done| |done].
  rewrite not_elem_of_app. split; [done|]. cbn [fst]. rewrite list_elem_of_singleton. by apply not_eq_sym.
Qed.
End Run.

(** C27: participants put, copy, write, read, release and drop boxes of one heap
    in any interleaving, the bytes of the boxes lying in the memory the allocator
    works in.  Whatever a participant reads through a box is what it put there;
    the boxes of those who are done never overlap, and the heap's memory holds
    what their holders put in them; and when all are done the heap is well formed
    and its live blocks are exactly those behind the boxes still held and behind
    the boxes dropped while another participant had the heap. *)
Theorem boxes_keep_contents {H} `{BL : HeapBytesLaws H} slot h members css s ps :
  (∀ t, (t < length css)%nat → 0 ≤ slot t < PARTICIPANT_CAPACITY) → heap_wf h → blocks h = ∅ → Forall (Forall xcmd_ok) css →
  creach (xstart h members slot css) (s, ps) →
  (∀ t os hs lost, ps !! t = Some (Ret (os, (hs, lost))) → (XDiffers ∉ os) ∧
    ∀ i b cs j v, hs !! i = Some (b, cs) → cs !! j = Some v →
      heap_byte (moff (bx_meta b) + Z.of_nat j) (sh_heap s) = v ∧
      ∀ t' os' hs' lost' i' b' cs', ps !! t' = Some (Ret (os', (hs', lost'))) → hs' !! i' = Some (b', cs') → (t, i) = (t', i') ∨ cs' = [] ∨
        moff (bx_meta b) + Z.of_nat (length cs) ≤ moff (bx_meta b') ∨ moff (bx_meta b') + Z.of_nat (length cs') ≤ moff (bx_meta b)) ∧
  ((∀ t p, ps !! t = Some p → ∃ r, p = Ret r) →
    sh_mutation s = MUTATION_CLEAN ∧ heap_wf (sh_heap s) ∧
    ∀ o n, blocks (sh_heap s) !! o = Some n ↔ ∃ t os hs lost, ps !! t = Some (Ret (os, (hs, lost))) ∧ Meta_from o n ∈ metas hs.*1 ++ lost).
Proof.
  intros Hslot Hwf Hb Hcs Hreach. pose proof (creach_length _ _ Hreach) as Hlen. cbn in Hlen. rewrite length_imap in Hlen.
  eapply (rg_sound (binv slot (length css)) (rely_of bguar)) with (Q := xdone) (g := mkHg None h h ∅) in Hreach as (B & [[HI En] Hwp] & _).
  - cbn [fst snd] in *. assert (Hd : ∀ t os hs lost, ps !! t = Some (Ret (os, (hs, lost))) → (XDiffers ∉ os) ∧ bheld t hs lost B) by (intros t os hs lost Ht; exact (Hwp _ _ Ht)). split.
    + intros t os hs lost Hp. destruct (Hd _ _ _ _ Hp) as [Hos Hh]. split; [done|]. intros i b cs j v Hi Hj. assert (Hne : cs ≠ []) by (by intros ->).
      split; [rewrite (gi_heap _ _ _ _ HI), En; exact (proj1 (Forall_forall _ _) (bh_content _ _ _ _ Hh) _ (list_elem_of_lookup_2 _ _ _ Hi) j v Hj)|].
      intros t' os' hs' lost' i' b' cs' Hp' Hi'. destruct (Hd _ _ _ _ Hp') as [_ Hh']. destruct (decide (cs' = [])) as [->|Hne']; [auto|].
      destruct (box_at _ _ _ _ _ _ _ Hh Hi Hne) as [_ Ho]. destruct (box_at _ _ _ _ _ _ _ Hh' Hi' Hne') as [_ Ho'].
      destruct (gd_apart _ _ _ (gi_good _ _ _ _ HI) _ _ _ _ _ _ Ho Ho') as [E|?]; [|auto]. left. rewrite E, Ho' in Ho. injection Ho as -> _. f_equal.
      rewrite Hp in Hp'. injection Hp' as <- <- <-. destruct (decide (i = i')) as [|Hii]; [done|]. exfalso.
      by apply (boxes_apart _ _ _ _ _ _ (b, cs) (b', cs') (bh_held _ _ _ _ Hh) (bh_ok _ _ _ _ Hh) Hi Hi' Hii Hne Hne').
    + intros Hall. destruct (all_done slot (length css) (λ t ms, ∃ os hs lost, ps !! t = Some (Ret (os, (hs, lost))) ∧ ms = metas hs.*1 ++ lost) s B) as (Hw & Hwf' & Hbl); [|done| |].
      { intros t ms (os & hs & lost & Hp & ->). by apply (Hd _ _ _ _ Hp). }
      { intros t Ht. destruct (lookup_lt_is_Some_2 ps t) as [p Hp]; [lia|]. destruct (Hall _ _ Hp) as [[os [hs lost]] ->]. eauto 7. }
      split_and!; [done|done|]. intros o n. rewrite Hbl. naive_solver.
  - apply rely_of_refl.
  - apply rely_of_trans.
  - intros t r. unfold xdone. apply stable_conj; [by intros ????|apply bheld_stable].
  - split; [split; [split; [split|..]|]|]; cbn [fst snd settled owned current holder]; [done|by rewrite Hb, fmap_empty|by intros ??? ??? ?%lookup_empty_Some|by intros ??? ?%lookup_empty_Some|done|done|done|].
    intros t p Hp. cbn in Hp. apply list_lookup_imap_Some in Hp as (cs & Hcst & ->).
    apply (xclient_spec slot (length css) Hslot); [by eapply lookup_lt_Some|by eapply Forall_lookup_1|by intros ?%elem_of_nil|].
    split; [|constructor..]. split; cbn [owned holder]; [constructor|by intros x ?%elem_of_nil|by intros ?? ?%lookup_empty_Some|done].
Qed.

(** Two clients of a heap of 4096 bytes: the first puts eight bytes, reads them
    and drops the box while the second has the heap. *)
Definition demo_boxes : list (list xcmd) :=
  [[XPut (mkLayout 8 8) [1; 2; 3; 4; 5; 6; 7; 8]; XRead 0; XDrop 0]; [XCopy (mkLayout 2 2) [[9; 10]; [11; 12]]; XWrite 0 1 [77]; XRead 0]].

Lemma demo_boxes_ok : Forall (Forall xcmd_ok) demo_boxes.
Proof.
  constructor; [|constructor; [|constructor]].
  - constructor; [split; [by_eval|split; [reflexivity|by_eval]]|]. constructor; [exact I|]. constructor; [exact I|constructor].
  - constructor; [split; [by_eval|]|]; [|constructor; [by_eval|]; constructor; [exact I|constructor]].
    intros v Hv. apply elem_of_cons in Hv as [->|Hv]; [split; [reflexivity|by_eval]|]. apply elem_of_cons in Hv as [->|Hv]; [split; [reflexivity|by_eval]|by apply elem_of_nil in Hv].
Qed.

#[local] Instance demo_ops : HeapOps talc_heap := talc_ops 12288 demo_geometry demo_lo demo_hi.
#[local] Instance demo_laws : HeapLaws talc_heap :=
  talc_laws 12288 demo_geometry demo_lo demo_hi (proj1 (ready_wf _ _ _ _ demo_ready)) (ready_area _ _ _ _ demo_ready).
#[local] Instance demo_bytes_laws : HeapBytesLaws talc_heap :=
  talc_bytes_laws 12288 demo_geometry demo_lo demo_hi (proj1 (ready_wf _ _ _ _ demo_ready)) (ready_area _ _ _ _ demo_ready).

Definition demo_boxed := sched (replicate 19 0 ++ [1; 0] ++ replicate 11 1)%nat (xstart demo_heap 3 Z.of_nat demo_boxes).

Lemma boxes_keep_contents_witness :
  (∃ b, demo_boxed.2 = [Ret ([XMade; XSame; XDropped], ([], [Meta_from 496 8])); Ret ([XMade; XWritten; XSame], ([(b, [9; 77; 11; 12])], []))] ∧
    heap_byte (moff (bx_meta b) + 1) (sh_heap demo_boxed.1) = 77) ∧
  blocks (sh_heap demo_boxed.1) !! 496 = Some 8.
Proof.
  assert (E : ∃ b, demo_boxed.2 = [Ret ([XMade; XSame; XDropped], ([], [Meta_from 496 8])); Ret ([XMade; XWritten; XSame], ([(b, [9; 77; 11; 12])], []))]) by (eexists; vm_compute; reflexivity).
  destruct E as (b & E).
  destruct (boxes_keep_contents (H := talc_heap) Z.of_nat demo_heap 3 demo_boxes demo_boxed.1 demo_boxed.2) as [Hkeep Hall].
  - intros t Ht. cbn in Ht. unfold PARTICIPANT_CAPACITY, usize_bits. lia.
  - apply (reachable_wf _ _ _ _ ∅ demo_ready), rtc_refl.
  - reflexivity.
  - exact demo_boxes_ok.
  - rewrite <- surjective_pairing. apply sched_reach.
  - split.
    + exists b. split; [exact E|]. destruct (Hkeep 1%nat [XMade; XWritten; XSame] [(b, [9; 77; 11; 12])] []) as [_ Hb]; [by rewrite E|].
      exact (proj1 (Hb 0%nat b [9; 77; 11; 12] 1%nat 77 eq_refl eq_refl)).
    + destruct Hall as (_ & _ & Hbl).
      * intros t p Hp. rewrite E in Hp. destruct t as [|[|t]]; [injection Hp as <-; eauto|injection Hp as <-; eauto|discriminate Hp].
      * apply Hbl. exists 0%nat, [XMade; XSame; XDropped], [], [Meta_from 496 8]. rewrite E. split; [reflexivity|by left].
Defined.

(** ** Boxes without bytes *)

(** A slice without bytes, of elements of any alignment, is boxed at address one,
    where a value without bytes is boxed at its alignment. Neither touches the
    heap. *)
Theorem empty_slice_at_one {H} `{HO : HeapOps H} owner elem n l s : size elem * n = 0 → 0 < align elem ≤ isize_max →
  run (uninit_slice owner elem n) s = (Ok (mkPBox (Dangling 1) Meta_null (mkLayout 0 (align elem))), s) ∧
  (size l = 0 → run (uninit owner l) s = (Ok (mkPBox (Dangling (align l)) Meta_null l), s)).
Proof.
  intros Hz Ha. unfold uninit_slice, uninit, layout_array. rewrite Hz. rewrite (proj2 (Z.leb_le 0 _)) by lia. split; [done|]. intros ->. done.
Qed.
