(* ===== verification/Process.v ===== *)
(** * Supervised processes

    Models [src/src/process.rs]: the bytes a new process is started with, and
    the supervisor that owns one child process and is the evidence of its end.
    The child is [std::process::Child]; what the code relies on of it is the
    class [ChildLaws]. *)

From Stdlib Require Import String.
From S2P Require Import Prelude Bytes.

(** ** Bootstrap bytes *)

Definition MAX_BOOTSTRAP : Z := 4096.
Definition MAX_RESOURCES : Z := 8.

(** [b"EVR1"] *)
Definition HANDOFF_MAGIC : list Z := [69; 86; 82; 49].

Record Bootstrap := mkBootstrap { bs_bytes : list Z }.
Record TooLarge := mkTooLarge { tl_len : Z; tl_max : Z }.

(** [slice.len()] *)
Definition len {A} (l : list A) : Z := Z.of_nat (length l).

Definition Bootstrap_new (bytes : list Z) : result Bootstrap TooLarge :=
  if MAX_BOOTSTRAP <? len bytes then Err (mkTooLarge (len bytes) MAX_BOOTSTRAP) else Ok (mkBootstrap bytes).

(** What [Bootstrap::new] made. *)
Definition bootstrap_wf (b : Bootstrap) : Prop := len (bs_bytes b) ≤ MAX_BOOTSTRAP ∧ Forall is_byte (bs_bytes b).

(** [std::io::Error] as the code makes and passes it on. *)
Inductive io_error :=
| OsError (code : Z)
| InvalidData (message : string)
| InvalidInput (message : string)
| WriteZero (message : string)
| PermissionDenied (message : string)
| TimedOut.

(** ** The child *)

(** [Child::try_wait], [Child::wait] and [Child::kill]; [C] is the child with
    the operating system around it, [X] its exit status. *)
Class ChildOps (C X : Type) := {
  child_try_wait : C → result (option X) io_error * C;
  child_wait : C → result X io_error * C;
  child_kill : C → result unit io_error * C;
}.

(** [reaped c] is the status collected of the process; from then on its
    process number may be that of another process.  The status is collected by a
    call that answers it, kept by the child, and answered again. *)
Class ChildLaws (C X : Type) `{ChildOps C X} := {
  reaped : C → option X;
  try_wait_reaps c : match child_try_wait c with
    | (Ok st, c') => reaped c' = st ∧ (reaped c = None ∨ reaped c = st)
    | (Err _, c') => reaped c = None ∧ reaped c' = None
    end;
  wait_reaps c : match child_wait c with
    | (Ok x, c') => reaped c' = Some x ∧ (reaped c = None ∨ reaped c = Some x)
    | (Err _, c') => reaped c = None ∧ reaped c' = None
    end;
  kill_keeps c : reaped (child_kill c).2 = reaped c;
}.

(** ** The supervisor *)

Section Supervisor.
Context {C X : Type} `{CO : ChildOps C X}.

(** [Supervisor]; an [Exit] is a reference to the status it holds. *)
Record Supervisor := mkSupervisor { sv_child : C; sv_status : option X }.

(** [Supervisor::spawn] of a command that started. *)
Definition spawn (child : C) : Supervisor := mkSupervisor child None.

(** [Supervisor::try_wait] *)
Definition try_wait (s : Supervisor) : result (option X) io_error * Supervisor :=
  match sv_status s with
  | Some x => (Ok (Some x), s)
  | None =>
    let '(r, c) := child_try_wait (sv_child s) in
    match r with
    | Err e => (Err e, mkSupervisor c None)
    | Ok st => (Ok st, mkSupervisor c st)
    end
  end.

(** [Supervisor::wait] *)
Definition wait (s : Supervisor) : result X io_error * Supervisor :=
  match sv_status s with
  | Some x => (Ok x, s)
  | None =>
    let '(r, c) := child_wait (sv_child s) in
    match r with
    | Err e => (Err e, mkSupervisor c None)
    | Ok x => (Ok x, mkSupervisor c (Some x))
    end
  end.

(** [Supervisor::kill_wait] *)
Definition kill_wait (s : Supervisor) : result X io_error * Supervisor :=
  match sv_status s with
  | Some x => (Ok x, s)
  | None =>
    let '(r, c) := child_try_wait (sv_child s) in
    match r with
    | Err e => (Err e, mkSupervisor c None)
    | Ok (Some x) => (Ok x, mkSupervisor c (Some x))
    | Ok None =>
      let '(r, c) := child_kill c in
      match r with
      | Err kill =>
        let '(r, c) := child_try_wait c in
        match r with
        | Err e => (Err e, mkSupervisor c None)
        | Ok (Some x) => (Ok x, mkSupervisor c (Some x))
        | Ok None => (Err kill, mkSupervisor c None)
        end
      | Ok _ =>
        let '(r, c) := child_wait c in
        match r with
        | Err e => (Err e, mkSupervisor c None)
        | Ok x => (Ok x, mkSupervisor c (Some x))
        end
      end
    end
  end.

(** [Drop for Supervisor] *)
Definition supervisor_drop (s : Supervisor) : Supervisor :=
  match sv_status s with
  | Some _ => s
  | None =>
    let '(r, c) := child_try_wait (sv_child s) in
    match r with
    | Ok (Some x) => mkSupervisor c (Some x)
    | Ok None =>
      let c := (child_kill c).2 in
      let '(r, c) := child_wait c in
      mkSupervisor c (res_ok r)
    | Err _ =>
      let c := (child_kill c).2 in
      mkSupervisor (child_wait c).2 None
    end
  end.
End Supervisor.
Arguments Supervisor C X : clear implicits.

(** ** Every use of a supervisor *)

Inductive sup_call := CallTryWait | CallWait | CallKillWait.

Section Calls.
Context {C X : Type} `{CO : ChildOps C X}.

(** The answer of a call: whether it gave the evidence of an end. *)
Definition sup_step (o : sup_call) (s : Supervisor C X) : result (option X) io_error * Supervisor C X :=
  match o with
  | CallTryWait => try_wait s
  | CallWait => let '(r, s) := wait s in (match r with Ok x => Ok (Some x) | Err e => Err e end, s)
  | CallKillWait => let '(r, s) := kill_wait s in (match r with Ok x => Ok (Some x) | Err e => Err e end, s)
  end.

Fixpoint sup_run (os : list sup_call) (s : Supervisor C X) : list (result (option X) io_error) * Supervisor C X :=
  match os with
  | [] => ([], s)
  | o :: os => let '(r, s) := sup_step o s in let '(rs, s) := sup_run os s in (r :: rs, s)
  end.
End Calls.

(** ** What is asked of the child

    The calls made on a child, each with the status collected before it. *)

Inductive child_call := AskTryWait | AskWait (ok : bool) | AskKill.

Section Logged.
Context {C X : Type} `{CL : ChildLaws C X}.

Definition logged : Type := C * list (option X * child_call).
Definition unasked (c : C) : logged := (c, []).

#[export] Instance logged_ops : ChildOps logged X := {|
  child_try_wait := λ c, let '(r, c') := child_try_wait c.1 in (r, (c', c.2 ++ [(reaped c.1, AskTryWait)]));
  child_wait := λ c, let '(r, c') := child_wait c.1 in (r, (c', c.2 ++ [(reaped c.1, AskWait (is_ok r))]));
  child_kill := λ c, let '(r, c') := child_kill c.1 in (r, (c', c.2 ++ [(reaped c.1, AskKill)]));
|}.

#[export] Program Instance logged_laws : ChildLaws logged X := {| reaped := λ c, reaped c.1 |}.
Next Obligation. intros [c l]. simpl. pose proof (try_wait_reaps c) as Hr. by destruct (child_try_wait c) as [[st|e] c']. Qed.
Next Obligation. intros [c l]. simpl. pose proof (wait_reaps c) as Hr. by destruct (child_wait c) as [[st|e] c']. Qed.
Next Obligation. intros [c l]. simpl. pose proof (kill_keeps c) as Hr. by destruct (child_kill c) as [r c']. Qed.
End Logged.
Arguments logged C X : clear implicits.

(** ** The evidence of an end *)

Section Final.
Context {C X : Type} `{CL : ChildLaws C X}.
Abbreviation S := (Supervisor (logged C X) X).

(** The status held is the one collected, and the child was only asked before
    that. *)
Definition sup_ok (s : S) : Prop := sv_status s = reaped (sv_child s) ∧ Forall (λ e, e.1 = None) (sv_child s).2.

Lemma asked_try_wait (c : logged C X) : reaped c = None → Forall (λ e, e.1 = None) c.2 →
  match child_try_wait c with
  | (Ok st, c') => reaped c' = st ∧ Forall (λ e, e.1 = None) c'.2
  | (Err _, c') => reaped c' = None ∧ Forall (λ e, e.1 = None) c'.2
  end.
Proof.
  intros Hn Hl. pose proof (try_wait_reaps c) as Hr. destruct c as [c l]. simpl in *.
  destruct (child_try_wait c) as [[st|e] c']; simpl in *; (split; [tauto|]); apply Forall_app; by split; [|constructor].
Qed.

Lemma asked_wait (c : logged C X) : reaped c = None → Forall (λ e, e.1 = None) c.2 →
  match child_wait c with
  | (Ok x, c') => reaped c' = Some x ∧ Forall (λ e, e.1 = None) c'.2
  | (Err _, c') => reaped c' = None ∧ Forall (λ e, e.1 = None) c'.2 ∧ last c'.2 = Some (None, AskWait false)
  end.
Proof.
  intros Hn Hl. pose proof (wait_reaps c) as Hr. destruct c as [c l]. simpl in *.
  destruct (child_wait c) as [[x|e] c']; simpl in *; (split; [tauto|]); rewrite ?last_snoc, ?Hn, Forall_app; [|split; [|done]]; by split; [|constructor].
Qed.

Lemma asked_kill (c : logged C X) : reaped c = None → Forall (λ e, e.1 = None) c.2 →
  reaped (child_kill c).2 = None ∧ Forall (λ e, e.1 = None) (child_kill c).2.2.
Proof.
  intros Hn Hl. pose proof (kill_keeps c) as Hr. destruct c as [c l]. simpl in *.
  destruct (child_kill c) as [r c']; simpl in *. split; [congruence|]. apply Forall_app; by split; [|constructor].
Qed.

Lemma sup_step_ok o s : sup_ok s →
  match sup_step o s with
  | (Ok (Some x), s') => sup_ok s' ∧ sv_status s' = Some x ∧ (sv_status s = Some x → s' = s)
  | (_, s') => sup_ok s' ∧ sv_status s = None
  end.
Proof.
  destruct s as [c [x|]]; intros [Hs Hl]; cbn [sv_status sv_child] in *; [by destruct o|]. symmetry in Hs.
  pose proof (asked_try_wait c Hs Hl) as Ht. pose proof (asked_wait c Hs Hl) as Hw.
  destruct o; unfold sup_step, try_wait, wait, kill_wait; cbn [sv_status sv_child].
  - destruct (child_try_wait c) as [[[x|]|e] c']; unfold sup_ok; cbn; naive_solver.
  - destruct (child_wait c) as [[x|e] c']; unfold sup_ok; cbn; naive_solver.
  - destruct (child_try_wait c) as [[[x|]|e] c1]; [unfold sup_ok; cbn; naive_solver| |unfold sup_ok; cbn; naive_solver].
    destruct Ht as [Ht1 Ht2]. destruct (asked_kill c1 Ht1 Ht2) as [Hk1 Hk2]. destruct (child_kill c1) as [[[]|k] c2]; cbn [snd] in *.
    + pose proof (asked_wait c2 Hk1 Hk2) as Hw2. destruct (child_wait c2) as [[x|e] c3]; unfold sup_ok; cbn; naive_solver.
    + pose proof (asked_try_wait c2 Hk1 Hk2) as Hw2. destruct (child_try_wait c2) as [[[x|]|e] c3]; unfold sup_ok; cbn; naive_solver.
Qed.

Lemma sup_run_ended os (s : S) x : sv_status s = Some x → sup_run os s = (replicate (length os) (Ok (Some x)), s).
Proof.
  intros Hs. induction os as [|o os IH]; [done|]. cbn [sup_run length replicate].
  assert (E : sup_step o s = (Ok (Some x), s)) by (destruct o; unfold sup_step, try_wait, wait, kill_wait; by rewrite Hs). by rewrite E, IH.
Qed.

Lemma sup_run_ok os s : sup_ok s → sup_ok (sup_run os s).2 ∧ ∀ x, Ok (Some x) ∈ (sup_run os s).1 → sv_status (sup_run os s).2 = Some x.
Proof.
  revert s. induction os as [|o os IH]; intros s Hok; cbn [sup_run fst snd]; [split; [done|]; intros x Hx; by apply elem_of_nil in Hx|].
  pose proof (sup_step_ok o s Hok) as Hstep. destruct (sup_step o s) as [r s1] eqn:E.
  assert (H1 : sup_ok s1) by (destruct r as [[x|]|e]; apply Hstep). specialize (IH s1 H1). destruct (sup_run os s1) as [rs s2] eqn:E2. cbn [fst snd] in *.
  split; [apply IH|]. intros x [<-|Hx]%elem_of_cons; [|by apply IH].
  destruct Hstep as (_ & Hx & _). rewrite (sup_run_ended os s1 x Hx) in E2. by injection E2 as <- <-.
Qed.

Lemma drop_asked (s : S) : sup_ok s →
  Forall (λ e, e.1 = None) (sv_child (supervisor_drop s)).2 ∧
  (reaped (sv_child (supervisor_drop s)) = None → last (sv_child (supervisor_drop s)).2 = Some (None, AskWait false)).
Proof.
  destruct s as [c [x|]]; intros [Hs Hl]; unfold supervisor_drop; cbn [sv_status sv_child] in *; [split; [done|congruence]|]. symmetry in Hs.
  pose proof (asked_try_wait c Hs Hl) as Ht. destruct (child_try_wait c) as [[[x|]|e] c1]; cbn [sv_child].
  - split; [apply Ht|]. destruct Ht as [-> _]. congruence.
  - destruct (asked_kill c1 (proj1 Ht) (proj2 Ht)) as [Hk1 Hk2]. pose proof (asked_wait _ Hk1 Hk2) as Hw.
    destruct (child_wait _) as [[x|e'] c2]; cbn [sv_child]; naive_solver.
  - destruct (asked_kill c1 (proj1 Ht) (proj2 Ht)) as [Hk1 Hk2]. pose proof (asked_wait _ Hk1 Hk2) as Hw.
    destruct (child_wait _) as [[x|e'] c2]; cbn [sv_child snd]; naive_solver.
Qed.

(** C39: the evidence a supervisor gives is final.  Once a call answers an exit
    status, the process has ended with it, and every later call answers the same
    status without asking the system again; over the supervisor's whole life,
    its drop included, the process is never waited for or killed after its
    status was collected, when its number may be that of another process; and
    a dropped supervisor leaves no running child unless waiting for it failed. *)
Theorem supervisor_evidence_final os (c : C) : reaped c = None →
  let '(answers, s) := sup_run os (spawn (unasked c)) in
  (∀ x, Ok (Some x) ∈ answers → reaped (sv_child s) = Some x ∧ ∀ os', sup_run os' s = (replicate (length os') (Ok (Some x)), s)) ∧
  Forall (λ e, e.1 = None) (sv_child (supervisor_drop s)).2 ∧
  (reaped (sv_child (supervisor_drop s)) = None → last (sv_child (supervisor_drop s)).2 = Some (None, AskWait false)).
Proof.
  intros Hc. assert (H0 : sup_ok (spawn (unasked c))) by (split; [exact (eq_sym Hc)|constructor]). pose proof (sup_run_ok os _ H0) as [Hok Hev].
  destruct (sup_run os (spawn (unasked c))) as [answers s]. cbn [fst snd] in *. split; [|exact (drop_asked s Hok)].
  intros x Hx. specialize (Hev x Hx). split; [destruct Hok as [Hs _]; congruence|]. intros os'. by apply sup_run_ended.
Qed.
End Final.

(** ** A child that ends when it is killed *)

(** The turns it still runs, and the status collected of it. *)
Definition demo_child : Type := nat * option Z.

Definition demo_collect (c : demo_child) : Z * demo_child :=
  match c.2 with Some x => (x, c) | None => (9, (0%nat, Some 9)) end.

#[local] Instance demo_child_ops : ChildOps demo_child Z := {|
  child_try_wait := λ c,
    match c with
    | (S n, None) => (Ok None, (n, None))
    | _ => let '(x, c) := demo_collect c in (Ok (Some x), c)
    end;
  child_wait := λ c, let '(x, c) := demo_collect c in (Ok x, c);
  child_kill := λ c, (Ok tt, (0%nat, c.2));
|}.

#[local] Program Instance demo_child_laws : ChildLaws demo_child Z := {| reaped := snd |}.
Next Obligation. intros [[|n] [x|]]; simpl; auto. Qed.
Next Obligation. intros [n [x|]]; simpl; auto. Qed.
Next Obligation. done. Qed.

(** It is polled, killed and waited for. *)
Lemma supervisor_evidence_final_witness :
  let '(answers, s) := sup_run [CallTryWait; CallKillWait; CallWait] (spawn (unasked ((5%nat, None) : demo_child))) in
  answers = [Ok None; Ok (Some 9); Ok (Some 9)] ∧ reaped (sv_child s) = Some 9 ∧
  (sv_child (supervisor_drop s)).2 = [(None, AskTryWait); (None, AskTryWait); (None, AskKill); (None, AskWait true)].
Proof.
  pose proof (supervisor_evidence_final [CallTryWait; CallKillWait; CallWait] ((5%nat, None) : demo_child) eq_refl) as H.
  destruct (sup_run _ _) as [answers s] eqn:E. assert (Ea : answers = [Ok None; Ok (Some 9); Ok (Some 9)]) by (vm_compute in E; congruence).
  split; [done|]. split; [|vm_compute in E; injection E as <- <-; reflexivity].
  destruct H as [H _]. apply (H 9). rewrite Ea. right. left.
Defined.
