(* ===== verification/HandoffUnix.v ===== *)
(** * Handing descriptors to another process, on Unix

    Models [src/src/os/unix/process.rs] and [src/src/os/unix/handoff.rs]: one
    datagram carries the bootstrap bytes and, beside them, the descriptors.  The
    system calls and the [nix] crate are the class [SocketOps]; what the code
    relies on of them is [SocketLaws]. *)

From Stdlib Require Import String.
From S2P Require Import Prelude Atomic Bytes Process.

#[local] Open Scope string_scope.
#[local] Open Scope list_scope.
#[local] Open Scope Z_scope.

(** ** The system *)

Inductive ControlMessage := ScmRights (fds : list Z) | OtherControl.

(** The descriptors of all [ScmRights] messages. *)
Fixpoint rights (cs : list ControlMessage) : list Z :=
  match cs with
  | [] => []
  | ScmRights fds :: cs => fds ++ rights cs
  | OtherControl :: cs => rights cs
  end.

(** [nix::sys::socket::RecvMsg]: the bytes received, the buffer they are in, the
    flags [MSG_TRUNC] and [MSG_CTRUNC], and what [cmsgs] answers. *)
Record RecvMsg := mkRecvMsg {
  rm_bytes : Z; rm_buffer : list Z; rm_trunc : bool; rm_ctrunc : bool;
  rm_cmsgs : result (list ControlMessage) Z }.

Definition ENOBUFS : Z := 105.

(** [sendmsg], [recvmsg] with a buffer and room for some descriptors, [fcntl]
    with [FD_CLOEXEC], the drop of an owned descriptor, [UnixDatagram::pair],
    [::bind], [::unbound] and [::connect], [fstat], the clock against the deadline, and
    [fs::remove_file]. *)
Class SocketOps (K : Type) := {
  sendmsg : Z → list Z → list ControlMessage → K → result Z Z * K;
  recvmsg : Z → nat → nat → K → result RecvMsg Z * K;
  set_cloexec : Z → K → result unit Z * K;
  close_fd : Z → K → unit * K;
  datagram_pair : K → result (Z * Z) io_error * K;
  datagram_bind : string → K → result Z io_error * K;
  datagram_unbound : K → result Z io_error * K;
  datagram_connect : Z → string → K → result unit io_error * K;
  fstat_size : Z → K → result Z Z * K;
  before_deadline : K → bool * K;
  remove_file : string → K → unit * K;
}.

(** [open_fds] are the descriptors of the calling process.  [recvmsg] opens the
    descriptors it installs; [cmsgs] lists them, and refuses when some did not
    fit, in which case those that did are open all the same. *)
Class SocketLaws (K : Type) `{SocketOps K} := {
  open_fds : K → gset Z;
  recvmsg_opens s n m k : match recvmsg s n m k with
    | (Err _, k') => open_fds k' = open_fds k
    | (Ok r, k') =>
        length (rm_buffer r) = n ∧ 0 ≤ rm_bytes r ≤ Z.of_nat n ∧ Forall is_byte (rm_buffer r) ∧
        ∃ fds, NoDup fds ∧ list_to_set fds ## open_fds k ∧ open_fds k' = open_fds k ∪ list_to_set fds ∧
          if rm_ctrunc r then rm_cmsgs r = Err ENOBUFS else ∃ cs, rm_cmsgs r = Ok cs ∧ rights cs = fds
    end;
  sendmsg_keeps s b c k : open_fds (sendmsg s b c k).2 = open_fds k;
  set_cloexec_keeps fd k : open_fds (set_cloexec fd k).2 = open_fds k;
  close_closes fd k : open_fds (close_fd fd k).2 = open_fds k ∖ {[fd]};
  pair_opens k : match datagram_pair k with
    | (Ok (l, r), k') => l ≠ r ∧ (l ∉ open_fds k) ∧ (r ∉ open_fds k) ∧ open_fds k' = open_fds k ∪ {[l; r]}
    | (Err _, k') => open_fds k' = open_fds k
    end;
  bind_opens a k : match datagram_bind a k with
    | (Ok fd, k') => (fd ∉ open_fds k) ∧ open_fds k' = open_fds k ∪ {[fd]}
    | (Err _, k') => open_fds k' = open_fds k
    end;
  unbound_opens k : match datagram_unbound k with
    | (Ok fd, k') => (fd ∉ open_fds k) ∧ open_fds k' = open_fds k ∪ {[fd]}
    | (Err _, k') => open_fds k' = open_fds k
    end;
  connect_keeps fd a k : open_fds (datagram_connect fd a k).2 = open_fds k;
  fstat_keeps fd k : open_fds (fstat_size fd k).2 = open_fds k;
  clock_keeps k : open_fds (before_deadline k).2 = open_fds k;
  remove_keeps a k : open_fds (remove_file a k).2 = open_fds k;
}.

(** ** The code *)

Definition HEADER : Z := 8.

(** The bytes [Socket::send] puts on the wire. *)
Definition datagram (b : Bootstrap) (count : Z) : list Z :=
  HANDOFF_MAGIC ++ to_le_bytes 2 (wrap 16 (len (bs_bytes b))) ++ to_le_bytes 2 (wrap 16 count) ++ bs_bytes b.

(** [Offer] *)
Record Offer := mkOffer { of_bootstrap : Bootstrap; of_resources : list Z }.

Section Socket.
Context {K : Type} `{SO : SocketOps K}.

(** [Socket::pair] and [Socket::bind] *)
Definition socket_pair : prog K (result (Z * Z) io_error) := act r <- datagram_pair; Ret r.

Definition socket_bind (path : string) : prog K (result Z io_error) := act r <- datagram_bind path; Ret r.

(** [Socket::connect] *)
Definition socket_connect (path : string) : prog K (result Z io_error) :=
  act opened <- datagram_unbound;
  match opened with
  | Err e => Ret (Err e)
  | Ok fd =>
    act done <- datagram_connect fd path;
    match done with
    | Err e => act_ close_fd fd; Ret (Err e)
    | Ok _ => Ret (Ok fd)
    end
  end.

(** [Socket::send] *)
Definition socket_send (socket : Z) (bootstrap : Bootstrap) (resources : list Z) : prog K (result unit io_error) :=
  if MAX_RESOURCES <? len resources then Ret (Err (InvalidInput "too many resources")) else
  let bytes := datagram bootstrap (len resources) in
  act sent <- sendmsg socket bytes (match resources with [] => [] | _ => [ScmRights resources] end);
  match sent with
  | Err e => Ret (Err (OsError e))
  | Ok n => Ret (if negb (n =? len bytes) then Err (WriteZero "partial control datagram") else Ok tt)
  end.

(** The drop of a vector of owned descriptors. *)
Fixpoint close_all (fds : list Z) : prog K unit :=
  match fds with
  | [] => Ret tt
  | fd :: fds => act_ close_fd fd; close_all fds
  end.

(** The loop of [Socket::recv] over the descriptors. *)
Fixpoint cloexec_all (fds : list Z) : prog K (result unit io_error) :=
  match fds with
  | [] => Ret (Ok tt)
  | fd :: fds =>
    act r <- set_cloexec fd;
    match r with
    | Err e => Ret (Err (OsError e))
    | Ok _ => cloexec_all fds
    end
  end.

(** The checks of [Socket::recv] on what arrived. *)
Definition check_datagram (m : RecvMsg) (resources : list Z) (expected : Z) : result unit io_error :=
  let count := rm_bytes m in
  let bytes := rm_buffer m in
  if rm_trunc m || rm_ctrunc m then Err (InvalidData "truncated control datagram") else
  if (count <? HEADER) || negb (bool_decide (take 4 bytes = HANDOFF_MAGIC)) then Err (InvalidData "malformed control header") else
  let length := from_le_bytes (take 2 (drop 4 bytes)) in
  let declared := from_le_bytes (take 2 (drop 6 bytes)) in
  if (MAX_BOOTSTRAP <? length) || negb (count =? HEADER + length) then Err (InvalidData "malformed bootstrap length") else
  if (MAX_RESOURCES <? declared) || negb (declared =? expected) || negb (len resources =? expected) then Err (InvalidData "resource count mismatch") else
  Ok tt.

(** [Socket::recv] *)
Definition socket_recv (socket expected : Z) : prog K (result Offer io_error) :=
  if MAX_RESOURCES <? expected then Ret (Err (InvalidInput "too many expected resources")) else
  act received <- recvmsg socket (Z.to_nat (HEADER + MAX_BOOTSTRAP)) (Z.to_nat MAX_RESOURCES);
  match received with
  | Err e => Ret (Err (OsError e))
  | Ok m =>
    match rm_cmsgs m with
    | Err e => Ret (Err (OsError e))
    | Ok controls =>
      let resources := rights controls in
      match check_datagram m resources expected with
      | Err e => do _ <- close_all resources; Ret (Err e)
      | Ok _ =>
        do marked <- cloexec_all resources;
        match marked with
        | Err e => do _ <- close_all resources; Ret (Err e)
        | Ok _ =>
          match Bootstrap_new (take (Z.to_nat (rm_bytes m - HEADER)) (drop (Z.to_nat HEADER) (rm_buffer m))) with
          | Err _ => do _ <- close_all resources; Ret (Err (InvalidData "bootstrap too large"))
          | Ok b => Ret (Ok (mkOffer b resources))
          end
        end
      end
    end
  end.

(** ** The handoff *)

(** [ReceivedResources]: the mapping is the descriptor and its size. *)
Record ReceivedResources := mkReceived { rr_bootstrap : Bootstrap; rr_mapping : Z * Z; rr_event : Z; rr_ring : Z }.

(** The loop of [Handoff::send]; [None] runs out of turns. *)
Fixpoint connect_until (fuel : nat) (address : string) : prog K (option (result Z io_error)) :=
  match fuel with
  | O => Ret None
  | S fuel =>
    do r <- socket_connect address;
    match r with
    | Ok socket => Ret (Some (Ok socket))
    | Err e =>
      act early <- before_deadline;
      if early then connect_until fuel address else Ret (Some (Err e))
    end
  end.

(** [Handoff::send], which consumes the handoff: its drop removes the file. *)
Definition handoff_send (fuel : nat) (address : string) (bootstrap : Bootstrap) (mapping event ring : Z) : prog K (option (result unit io_error)) :=
  do c <- connect_until fuel address;
  match c with
  | None => Ret None
  | Some (Err e) => act_ remove_file address; Ret (Some (Err e))
  | Some (Ok socket) =>
    do r <- socket_send socket bootstrap [mapping; event; ring];
    act_ close_fd socket;
    act_ remove_file address;
    Ret (Some r)
  end.

(** [Handoff::receive]; [None] is the panic of [Vec::remove]. *)
Definition handoff_receive (address : string) : prog K (option (result ReceivedResources io_error)) :=
  do bound <- socket_bind address;
  match bound with
  | Err e => Ret (Some (Err e))
  | Ok socket =>
    do offer <- socket_recv socket 3;
    act_ close_fd socket;
    match offer with
    | Err e => Ret (Some (Err e))
    | Ok o =>
      match of_resources o with
      | mapping :: rest =>
        act size <- fstat_size mapping;
        match size with
        | Err e => act_ close_fd mapping; do _ <- close_all rest; Ret (Some (Err (OsError e)))
        | Ok n =>
          match rest with
          | event :: ring :: rest =>
            do _ <- close_all rest;
            Ret (Some (Ok (mkReceived (of_bootstrap o) (mapping, n) event ring)))
          | _ => Ret None
          end
        end
      | [] => Ret None
      end
    end
  end.
End Socket.

(** ** What arrives *)

Lemma datagram_length b count : length (datagram b count) = (8 + length (bs_bytes b))%nat.
Proof. unfold datagram, HANDOFF_MAGIC. by rewrite !length_app, !length_to_le_bytes. Qed.

(** A buffer with a header in it. *)
Lemma header_split (buffer : list Z) : (8 ≤ length buffer)%nat →
  buffer = take 4 buffer ++ take 2 (drop 4 buffer) ++ take 2 (drop 6 buffer) ++ drop 8 buffer.
Proof. intros H. do 8 (destruct buffer as [|? buffer]; [simpl in H; lia|]). done. Qed.

Lemma word_bytes (bs : list Z) : length bs = 2%nat → Forall is_byte bs → to_le_bytes 2 (wrap 16 (from_le_bytes bs)) = bs ∧ is_word 16 (from_le_bytes bs).
Proof.
  intros Hl Hb. pose proof (from_le_bytes_word bs Hb) as Hw. rewrite Hl in Hw. split; [|done].
  rewrite wrap_small by done. pose proof (to_from_le_bytes bs Hb) as E. by rewrite Hl in E.
Qed.

(** The checks pass exactly on what [Socket::send] puts on the wire. *)
Lemma check_datagram_ok m fds expected :
  length (rm_buffer m) = Z.to_nat (HEADER + MAX_BOOTSTRAP) → 0 ≤ rm_bytes m ≤ HEADER + MAX_BOOTSTRAP → Forall is_byte (rm_buffer m) →
  check_datagram m fds expected = Ok tt ↔
  rm_trunc m = false ∧ rm_ctrunc m = false ∧ len fds = expected ∧ expected ≤ MAX_RESOURCES ∧
  ∃ b, bootstrap_wf b ∧ take (Z.to_nat (rm_bytes m)) (rm_buffer m) = datagram b expected.
Proof.
  intros Hl Hc Hb. set (buffer := rm_buffer m) in *. set (count := rm_bytes m) in *.
  assert (Hs : buffer = take 4 buffer ++ take 2 (drop 4 buffer) ++ take 2 (drop 6 buffer) ++ drop 8 buffer) by (apply header_split; rewrite Hl; unfold HEADER, MAX_BOOTSTRAP; lia).
  assert (L : ∀ i, (i ≤ 6)%nat → length (take 2 (drop i buffer)) = 2%nat) by (intros i Hi; rewrite length_take, length_drop, Hl; unfold HEADER, MAX_BOOTSTRAP; lia).
  destruct (word_bytes (take 2 (drop 4 buffer)) (L 4%nat ltac:(lia)) ltac:(by apply Forall_take, Forall_drop)) as [E4 W4].
  destruct (word_bytes (take 2 (drop 6 buffer)) (L 6%nat ltac:(lia)) ltac:(by apply Forall_take, Forall_drop)) as [E6 W6].
  unfold check_datagram. fold buffer count. split.
  - destruct (rm_trunc m), (rm_ctrunc m); cbn [orb]; try discriminate.
    destruct (Z.ltb_spec count HEADER) as [|Hh]; cbn [orb]; [discriminate|]. case_bool_decide as Hm; cbn [negb]; [|discriminate].
    destruct (Z.ltb_spec MAX_BOOTSTRAP (from_le_bytes (take 2 (drop 4 buffer)))) as [|Hlen]; cbn [orb]; [discriminate|].
    destruct (Z.eqb_spec count (HEADER + from_le_bytes (take 2 (drop 4 buffer)))) as [Hcount|]; cbn [negb]; [|discriminate].
    destruct (Z.ltb_spec MAX_RESOURCES (from_le_bytes (take 2 (drop 6 buffer)))) as [|Hr]; cbn [orb]; [discriminate|].
    destruct (Z.eqb_spec (from_le_bytes (take 2 (drop 6 buffer))) expected) as [Hd|]; cbn [negb orb]; [|discriminate].
    destruct (Z.eqb_spec (len fds) expected) as [He|]; cbn [negb]; [|discriminate]. intros _.
    do 3 (split; [done|]). split; [lia|]. exists (mkBootstrap (take (Z.to_nat (count - HEADER)) (drop 8 buffer))).
    assert (Hlb : length (take (Z.to_nat (count - HEADER)) (drop 8 buffer)) = Z.to_nat (count - HEADER)) by (rewrite length_take, length_drop, Hl; unfold HEADER in *; lia).
    unfold HEADER, MAX_BOOTSTRAP in *.
    split; [split; cbn [bs_bytes]; [unfold len; rewrite Hlb; unfold MAX_BOOTSTRAP; lia|by apply Forall_take, Forall_drop]|].
    unfold datagram. cbn [bs_bytes]. unfold len. rewrite Hlb, <- Hm, <- Hd. rewrite Z2Nat.id by lia.
    replace (count - 8) with (from_le_bytes (take 2 (drop 4 buffer))) by lia. rewrite E4, E6. rewrite Hs at 1.
    rewrite !app_assoc. rewrite take_app_ge by (rewrite !length_app, !L, length_take, Hl by lia; lia). f_equal. f_equal.
    rewrite !length_app, !L, length_take, Hl by lia. lia.
  - intros (-> & -> & Hf & He & b & [Hb1 Hb2] & E). cbn [orb].
    assert (Hcount : count = HEADER + len (bs_bytes b)).
    { pose proof (f_equal length E) as El. rewrite datagram_length, length_take, Hl in El. unfold HEADER, MAX_BOOTSTRAP, len in *. lia. }
    assert (E' : buffer = datagram b expected ++ drop (Z.to_nat count) buffer) by (rewrite <- E; by rewrite take_drop).
    assert (Hx : 0 ≤ len fds) by (unfold len; lia). unfold HEADER, MAX_RESOURCES, MAX_BOOTSTRAP, len in *.
    rewrite (proj2 (Z.ltb_ge count 8)) by lia. rewrite E'. unfold datagram, HANDOFF_MAGIC. rewrite <- !app_assoc. cbn [app take drop]. rewrite bool_decide_true by done. cbn [orb negb].
    rewrite (wrap_small 16 (len (bs_bytes b))), (wrap_small 16 expected) by (unfold is_word, len in *; lia).
    pose proof (from_to_le_bytes 2 (len (bs_bytes b)) ltac:(unfold is_word, len; simpl; lia)) as F1. pose proof (from_to_le_bytes 2 expected ltac:(unfold is_word; simpl; lia)) as F2.
    cbn [to_le_bytes app take drop] in *. rewrite !take_0, F1, F2. unfold len.
    rewrite !(proj2 (Z.ltb_ge _ _)) by lia. rewrite (proj2 (Z.eqb_eq count _)), Z.eqb_refl, (proj2 (Z.eqb_eq (Z.of_nat (length fds)) _)) by lia. done.
Qed.

(** ** Who owns the descriptors *)

Section Owned.
Context {K : Type} `{SL : SocketLaws K}.

Lemma close_all_closes fds k : open_fds (run (close_all fds) k).2 = open_fds k ∖ list_to_set fds.
Proof using SL.
  revert k. induction fds as [|fd fds IH]; intros k; cbn [close_all]; [set_solver|].
  rewrite run_act, IH, close_closes. set_solver.
Qed.

Lemma cloexec_all_keeps fds k : open_fds (run (cloexec_all fds) k).2 = open_fds k.
Proof using SL.
  revert k. induction fds as [|fd fds IH]; intros k; cbn [cloexec_all]; [done|].
  rewrite run_act. destruct (set_cloexec fd k).1; cbn [run snd]; rewrite ?IH; apply set_cloexec_keeps.
Qed.

Lemma open_then_close (O L : gset Z) fd : fd ∉ O → L ## O ∪ {[fd]} → (O ∪ {[fd]} ∪ L) ∖ {[fd]} = O ∪ L.
Proof using. clear. set_solver. Qed.

Lemma close_one_by_one (O : gset Z) fd fds : list_to_set (fd :: fds) ## O → ((O ∪ list_to_set (fd :: fds)) ∖ {[fd]}) ∖ list_to_set fds = O.
Proof using. clear. cbn [list_to_set]. set_solver. Qed.

(** Where control messages were cut off: the call, and what it installed. *)
Definition cut_off (socket : Z) (k k' : K) : Prop :=
  ∃ m, recvmsg socket (Z.to_nat (HEADER + MAX_BOOTSTRAP)) (Z.to_nat MAX_RESOURCES) k = (Ok m, k') ∧ rm_ctrunc m = true.

(** [Socket::recv] gives the descriptors of an offer and no others to its
    caller, or closes all that came, unless some did not fit. *)
Lemma socket_recv_owns socket expected k :
  match run (socket_recv socket expected) k with
  | (Ok o, k') => len (of_resources o) = expected ∧ NoDup (of_resources o) ∧ list_to_set (of_resources o) ## open_fds k ∧ open_fds k' = open_fds k ∪ list_to_set (of_resources o)
  | (Err e, k') => open_fds k' = open_fds k ∨ (e = OsError ENOBUFS ∧ cut_off socket k k')
  end.
Proof using SL.
  unfold socket_recv. destruct (Z.ltb_spec MAX_RESOURCES expected) as [|He]; [by left|]. rewrite run_act.
  pose proof (recvmsg_opens socket (Z.to_nat (HEADER + MAX_BOOTSTRAP)) (Z.to_nat MAX_RESOURCES) k) as Hr.
  destruct (recvmsg _ _ _ k) as [[m|e] k1] eqn:E; cbn [fst snd]; [|by left].
  destruct Hr as (Hl & Hc & Hb & fds & Hn & Hd & Ho & Hcut). destruct (rm_ctrunc m) eqn:Et.
  { rewrite Hcut. right. split; [done|]. by exists m. }
  destruct Hcut as (cs & -> & <-).
  assert (Hback : ∀ k2 e, open_fds k2 = open_fds k1 → let '(r, k') := run (do _ <- close_all (rights cs); Ret (Err e)) k2 in @eq (result Offer io_error) r (Err e) ∧ open_fds k' = open_fds k).
  { intros k2 e H2. rewrite run_bind. destruct (run (close_all (rights cs)) k2) as [[] k3] eqn:E3. cbn [run]. split; [done|].
    pose proof (close_all_closes (rights cs) k2) as Hcl. rewrite E3 in Hcl. cbn [snd] in Hcl. rewrite Hcl, H2, Ho. set_solver. }
  destruct (check_datagram m (rights cs) expected) as [[]|e] eqn:Ec; [|specialize (Hback k1 e eq_refl); destruct (run _ k1); destruct Hback as [-> ?]; by left].
  apply check_datagram_ok in Ec; [|done|unfold HEADER, MAX_BOOTSTRAP in *; lia|done]. destruct Ec as (_ & _ & Hf & _ & b & [Hwf _] & Ed).
  rewrite run_bind. pose proof (cloexec_all_keeps (rights cs) k1) as Hk. destruct (run (cloexec_all (rights cs)) k1) as [[u|e] k2]; cbn [snd] in Hk.
  - destruct (Bootstrap_new _) as [b'|]; [|specialize (Hback k2 (InvalidData "bootstrap too large") Hk); destruct (run _ k2); destruct Hback as [-> ?]; by left].
    cbn [run of_resources]. by rewrite Hk, Ho.
  - specialize (Hback k2 e Hk). destruct (run _ k2); destruct Hback as [-> ?]; by left.
Qed.

(** C36: [Socket::recv] accepts exactly what [Socket::send] puts on the wire: it
    answers an offer when the datagram that arrived is whole, is the byte form of
    the offer's bootstrap and of the number of descriptors asked for, and as many
    descriptors came with it, which are then marked close-on-exec; the offer
    has those bytes and those descriptors. *)
Theorem recv_accepts_sent socket expected b fds k k' :
  run (socket_recv socket expected) k = (Ok (mkOffer b fds), k') ↔
  expected ≤ MAX_RESOURCES ∧ ∃ m k1 cs,
    recvmsg socket (Z.to_nat (HEADER + MAX_BOOTSTRAP)) (Z.to_nat MAX_RESOURCES) k = (Ok m, k1) ∧ rm_cmsgs m = Ok cs ∧ rights cs = fds ∧
    rm_trunc m = false ∧ rm_ctrunc m = false ∧ bootstrap_wf b ∧ take (Z.to_nat (rm_bytes m)) (rm_buffer m) = datagram b expected ∧
    len fds = expected ∧ run (cloexec_all fds) k1 = (Ok tt, k').
Proof using SL.
  unfold socket_recv. destruct (Z.ltb_spec MAX_RESOURCES expected) as [|He]; [split; [discriminate|lia]|]. rewrite run_act.
  pose proof (recvmsg_opens socket (Z.to_nat (HEADER + MAX_BOOTSTRAP)) (Z.to_nat MAX_RESOURCES) k) as Hr.
  destruct (recvmsg _ _ _ k) as [[m|e] k1] eqn:E; cbn [fst snd]; [|split; [discriminate|intros (_ & ? & ? & ? & [=] & _)]].
  destruct Hr as (Hl & Hc & Hb & _). assert (Hc' : 0 ≤ rm_bytes m ≤ HEADER + MAX_BOOTSTRAP) by (unfold HEADER, MAX_BOOTSTRAP in *; lia).
  assert (Hboot : ∀ b', bootstrap_wf b' → take (Z.to_nat (rm_bytes m)) (rm_buffer m) = datagram b' expected →
    Bootstrap_new (take (Z.to_nat (rm_bytes m - HEADER)) (drop (Z.to_nat HEADER) (rm_buffer m))) = Ok b').
  { intros b' [Hb1 Hb2] Ed. assert (Hn : Z.to_nat (rm_bytes m) = (8 + length (bs_bytes b'))%nat).
    { pose proof (f_equal length Ed) as El. rewrite datagram_length, length_take, Hl in El. unfold HEADER, MAX_BOOTSTRAP in *. lia. }
    rewrite <- (take_drop (Z.to_nat (rm_bytes m)) (rm_buffer m)), Ed. unfold HEADER in *. rewrite drop_app_le by (rewrite datagram_length; lia).
    unfold datagram. cbn [HANDOFF_MAGIC to_le_bytes app drop]. change (Z.to_nat 8) with 8%nat. cbn [drop]. replace (Z.to_nat (rm_bytes m - 8)) with (length (bs_bytes b')) by lia.
    rewrite take_app_length. unfold Bootstrap_new. rewrite (proj2 (Z.ltb_ge _ _)) by done. by destruct b'. }
  split.
  - destruct (rm_cmsgs m) as [cs|] eqn:Em; [|discriminate]. destruct (check_datagram m (rights cs) expected) as [[]|e] eqn:Ec; [|rewrite run_bind; destruct (run _ k1); discriminate].
    apply check_datagram_ok in Ec; [|done..]. destruct Ec as (H1 & H2 & H3 & H4 & b' & Hwf & Ed).
    rewrite run_bind. destruct (run (cloexec_all (rights cs)) k1) as [[[]|e] k2] eqn:Ek; [|rewrite run_bind; destruct (run _ k2); discriminate].
    rewrite (Hboot b' Hwf Ed). intros [= <- <- <-]. split; [done|]. exists m, k1, cs. repeat (split; [done|]). done.
  - intros (_ & m' & k1' & cs & [= <- <-] & -> & <- & Ht1 & Ht2 & Hwf & Ed & Hf & Ek).
    assert (Ec : check_datagram m (rights cs) expected = Ok tt) by (apply check_datagram_ok; [done..|]; repeat (split; [done|]); by exists b).
    rewrite Ec, run_bind, Ek, (Hboot b Hwf Ed). done.
Qed.

(** C37: [Handoff::receive] takes what was sent or leaves nothing behind.  It
    never panics; when it answers the three resources they are three descriptors
    that were not open, and nothing else is open that was not; when it fails
    the process has the descriptors it had, except when more descriptors
    were sent than there is room for: those that fitted stay open and nobody owns
    them. *)
Theorem handoff_receive_owns address k :
  match run (handoff_receive address) k with
  | (None, _) => False
  | (Some (Ok r), k') =>
      let fds := [(rr_mapping r).1; rr_event r; rr_ring r] in
      NoDup fds ∧ list_to_set fds ## open_fds k ∧ open_fds k' = open_fds k ∪ list_to_set fds
  | (Some (Err e), k') => open_fds k' = open_fds k ∨
      (e = OsError ENOBUFS ∧ ∃ socket k1 k2, datagram_bind address k = (Ok socket, k1) ∧ cut_off socket k1 k2 ∧ k' = (close_fd socket k2).2)
  end.
Proof using SL.
  unfold handoff_receive, socket_bind. cbn [bind]. rewrite run_act. pose proof (bind_opens address k) as Hb. destruct (datagram_bind address k) as [[socket|e] k1] eqn:E; cbn [fst snd]; [|by left].
  destruct Hb as [Hfresh Ho]. rewrite run_bind. pose proof (socket_recv_owns socket 3 k1) as Hr. destruct (run (socket_recv socket 3) k1) as [[o|e] k2].
  - destruct Hr as (Hl & Hn & Hd & Hk2). rewrite run_act. destruct o as [b fds]. cbn [of_resources of_bootstrap] in *. unfold len in Hl.
    do 3 (destruct fds as [|? fds]; [simpl in Hl; lia|]). destruct fds; [|simpl in Hl; lia]. clear Hl.
    assert (Hk3 : open_fds (close_fd socket k2).2 = open_fds k ∪ list_to_set [z; z0; z1]) by (rewrite close_closes, Hk2, Ho; apply open_then_close; [done|by rewrite <- Ho]).
    assert (Hd' : list_to_set [z; z0; z1] ## open_fds k) by (rewrite Ho in Hd; revert Hd; generalize (list_to_set [z; z0; z1] : gset Z), (open_fds k); clear; set_solver).
    rewrite run_act. pose proof (fstat_keeps z (close_fd socket k2).2) as Hf. destruct (fstat_size _ _) as [[n|e] k4]; cbn [fst snd] in *.
    + cbn [run rr_mapping rr_event rr_ring fst close_all bind]. by rewrite Hf, Hk3.
    + rewrite run_act, run_bind. pose proof (close_all_closes [z0; z1] (close_fd z k4).2) as Hc. destruct (run (close_all [z0; z1]) _) as [u k6]. cbn [run snd] in *.
      left. rewrite Hc, close_closes, Hf, Hk3. by apply close_one_by_one.
  - rewrite run_act. cbn [run]. destruct Hr as [Hk2|[-> Hcut]]; [left; rewrite close_closes, Hk2, Ho; revert Hfresh; generalize (open_fds k); clear; set_solver|right]. split; [done|]. exists socket, k1, k2. done.
Qed.
(** [Handoff::send] keeps no descriptor of its own. *)
Lemma connect_opens address k :
  match run (socket_connect address) k with
  | (Ok fd, k') => (fd ∉ open_fds k) ∧ open_fds k' = open_fds k ∪ {[fd]}
  | (Err _, k') => open_fds k' = open_fds k
  end.
Proof using SL.
  unfold socket_connect. rewrite run_act. pose proof (unbound_opens k) as Hu. destruct (datagram_unbound k) as [[fd|e] k1]; cbn [fst snd]; [|done].
  rewrite run_act. pose proof (connect_keeps fd address k1) as Hc. destruct (datagram_connect fd address k1) as [[u|e] k2]; cbn [fst snd] in *; [cbn [run]; by rewrite Hc|].
  rewrite run_act. cbn [run]. rewrite close_closes, Hc. destruct Hu as [Hf ->]. revert Hf. generalize (open_fds k). clear. set_solver.
Qed.

Lemma handoff_send_keeps fuel address b mapping event ring k r k' :
  run (handoff_send fuel address b mapping event ring) k = (Some r, k') → open_fds k' = open_fds k.
Proof using SL.
  unfold handoff_send. rewrite run_bind.
  assert (Hloop : ∀ k, match run (connect_until fuel address) k with
    | (Some (Ok fd), k') => (fd ∉ open_fds k) ∧ open_fds k' = open_fds k ∪ {[fd]}
    | (_, k') => open_fds k' = open_fds k
    end).
  { induction fuel as [|fuel IH]; intros k0; cbn [connect_until]; [done|]. rewrite run_bind. pose proof (connect_opens address k0) as Hc.
    destruct (run (socket_connect address) k0) as [[fd|e] k1]; [done|]. rewrite run_act. pose proof (clock_keeps k1) as Hk.
    destruct (before_deadline k1) as [[] k2]; cbn [fst snd] in *; [|by rewrite <- Hc].
    specialize (IH k2). by rewrite Hk, Hc in IH. }
  specialize (Hloop k). destruct (run (connect_until fuel address) k) as [[[fd|e]|] k1]; [| |discriminate].
  - rewrite run_bind. assert (Hs : open_fds (run (socket_send fd b [mapping; event; ring]) k1).2 = open_fds k1).
    { unfold socket_send. change (MAX_RESOURCES <? len [mapping; event; ring]) with false. cbn iota zeta. rewrite run_act.
      pose proof (sendmsg_keeps fd (datagram b (len [mapping; event; ring])) [ScmRights [mapping; event; ring]] k1) as Hs.
      destruct (sendmsg _ _ _ k1) as [[n|e] k2]; exact Hs. }
    destruct (run (socket_send _ _ _) k1) as [r1 k2]. cbn [snd] in Hs. rewrite !run_act. cbn [run]. intros [= _ <-].
    rewrite remove_keeps, close_closes, Hs. destruct Hloop as [Hf ->]. revert Hf. generalize (open_fds k). clear. set_solver.
  - rewrite run_act. cbn [run]. intros [= _ <-]. by rewrite remove_keeps.
Qed.
End Owned.

(** ** A system with one datagram on the way *)

(** The open descriptors, and the datagrams with the number of descriptors each
    carries; a new descriptor is one above all that are open. *)
Record demo_kernel := mkDemoKernel { dk_open : list Z; dk_queue : list (list Z * nat) }.

Definition demo_next (k : demo_kernel) : Z := 1 + foldr Z.max 0 (dk_open k).
Definition demo_open (n : nat) (k : demo_kernel) : list Z := seqZ (demo_next k) (Z.of_nat n).

Lemma demo_next_fresh k fd : fd ∈ dk_open k → fd < demo_next k.
Proof.
  unfold demo_next. induction (dk_open k) as [|x l IH]; intros H; [by apply elem_of_nil in H|].
  apply elem_of_cons in H as [->|H]; cbn [foldr]; [lia|]. specialize (IH H). lia.
Qed.

Lemma demo_open_fresh n k : list_to_set (demo_open n k) ## (list_to_set (dk_open k) : gset Z).
Proof.
  intros fd H1 H2. apply elem_of_list_to_set, elem_of_seqZ in H1. apply elem_of_list_to_set, demo_next_fresh in H2. lia.
Qed.

(** The bytes that fit, in a buffer of [n] zeroes. *)
Definition demo_fill (n : nat) (bytes : list Z) : list Z :=
  map (λ b, b mod 256) (take n bytes) ++ replicate (n - length (take n bytes)) 0.

#[local] Instance demo_socket : SocketOps demo_kernel := {|
  sendmsg := λ _ bytes controls k, (Ok (len bytes), mkDemoKernel (dk_open k) (dk_queue k ++ [(bytes, length (rights controls))]));
  recvmsg := λ _ n room k,
    match dk_queue k with
    | [] => (Err 11, k)
    | (bytes, carried) :: rest =>
      let fds := demo_open (Nat.min carried room) k in
      let cut := (room <? carried)%nat in
      (Ok (mkRecvMsg (Z.of_nat (Nat.min n (length bytes))) (demo_fill n bytes) (n <? length bytes)%nat cut (if cut then Err ENOBUFS else Ok [ScmRights fds])),
       mkDemoKernel (dk_open k ++ fds) rest)
    end;
  set_cloexec := λ _ k, (Ok tt, k);
  close_fd := λ fd k, (tt, mkDemoKernel (filter (λ x, x ≠ fd) (dk_open k)) (dk_queue k));
  datagram_pair := λ k, (Ok (demo_next k, demo_next k + 1), mkDemoKernel (demo_next k :: demo_next k + 1 :: dk_open k) (dk_queue k));
  datagram_bind := λ _ k, (Ok (demo_next k), mkDemoKernel (demo_next k :: dk_open k) (dk_queue k));
  datagram_unbound := λ k, (Ok (demo_next k), mkDemoKernel (demo_next k :: dk_open k) (dk_queue k));
  datagram_connect := λ _ _ k, (Ok tt, k);
  fstat_size := λ _ k, (Ok 4096, k);
  before_deadline := λ k, (false, k);
  remove_file := λ _ k, (tt, k);
|}.

#[local] Program Instance demo_socket_laws : SocketLaws demo_kernel := {| open_fds := λ k, list_to_set (dk_open k) |}.
Next Obligation.
  intros s n room [op [|[bytes carried] rest]]; simpl; [done|].
  set (fds := demo_open (carried `min` room) _). split.
  { unfold demo_fill. rewrite length_app, length_map, length_replicate. rewrite length_take. lia. }
  split; [lia|]. split.
  { apply Forall_app. split; [apply Forall_map, Forall_forall; intros b _; by apply Z.mod_pos_bound|]. by apply Forall_replicate. }
  exists fds. split; [apply NoDup_seqZ|]. split; [apply (demo_open_fresh _ (mkDemoKernel op _))|]. split; [by rewrite list_to_set_app_L|].
  destruct (room <? carried)%nat; [done|]. exists [ScmRights fds]. split; [done|]. simpl. by rewrite app_nil_r.
Qed.
Next Obligation. done. Qed.
Next Obligation. done. Qed.
Next Obligation. intros fd [op q]. simpl. apply set_eq. intros x. rewrite elem_of_difference, !elem_of_list_to_set, list_elem_of_filter. set_solver. Qed.
Next Obligation.
  intros k. simpl. split_and!; [lia| | |set_solver]; intros H%elem_of_list_to_set%demo_next_fresh; lia.
Qed.
Next Obligation. intros a k. simpl. split; [|set_solver]. intros H%elem_of_list_to_set%demo_next_fresh. lia. Qed.
Next Obligation. intros k. simpl. split; [|set_solver]. intros H%elem_of_list_to_set%demo_next_fresh. lia. Qed.
Next Obligation. done. Qed.
Next Obligation. done. Qed.
Next Obligation. done. Qed.
Next Obligation. done. Qed.

Definition demo_bytes : Bootstrap := mkBootstrap [7; 200; 13].
Definition demo_sent : demo_kernel := (run (socket_send 1 demo_bytes [1; 2; 3]) (mkDemoKernel [1; 2; 3] [])).2.

(** What was sent is received. *)
Lemma recv_accepts_sent_witness :
  run (socket_recv 1 3) demo_sent = (Ok (mkOffer demo_bytes [4; 5; 6]), mkDemoKernel [1; 2; 3; 4; 5; 6] []).
Proof.
  apply (recv_accepts_sent 1 3 demo_bytes [4; 5; 6] demo_sent). split; [by_eval|].
  eexists _, _, [ScmRights [4; 5; 6]]. split; [vm_compute; reflexivity|]. split; [reflexivity|]. split; [reflexivity|]. split; [reflexivity|]. split; [reflexivity|].
  split; [by_eval|]. split; [vm_compute; reflexivity|]. split; reflexivity.
Defined.

(** Three descriptors arrive, and nine leave eight of them open. *)
Lemma handoff_receive_owns_witness :
  open_fds (run (handoff_receive "a") demo_sent).2 = open_fds demo_sent ∪ {[5; 6; 7]} ∧
  run (handoff_receive "a") (mkDemoKernel [1] [(datagram demo_bytes 3, 9%nat)]) = (Some (Err (OsError ENOBUFS)), mkDemoKernel [1; 3; 4; 5; 6; 7; 8; 9; 10] []).
Proof.
  pose proof (handoff_receive_owns "a" demo_sent) as H.
  assert (E : run (handoff_receive "a") demo_sent = (Some (Ok (mkReceived demo_bytes (5, 4096) 6 7)), mkDemoKernel [1; 2; 3; 5; 6; 7] [])) by (vm_compute; reflexivity).
  rewrite E in *. split; [|vm_compute; reflexivity]. destruct H as (_ & _ & H). exact H.
Defined.
