(* ===== verification/HandoffWindows.v ===== *)
(** * Handing handles to another process, on Windows

    Models [src/src/os/windows/process.rs] and [src/src/os/windows/handoff.rs]:
    the parent duplicates its handles into the child and sends their numbers in
    one message of a named pipe.  The system calls are the class [PipeOps]; what
    the code relies on of them is [PipeLaws]. *)

From Stdlib Require Import String.
From S2P Require Import Prelude Atomic Bytes Process HandoffUnix.

#[local] Open Scope string_scope.
#[local] Open Scope list_scope.
#[local] Open Scope Z_scope.

(** ** The system *)

Definition ERROR_PIPE_CONNECTED : Z := 535.
Definition ERROR_PIPE_LISTENING : Z := 536.

(** [GetCurrentProcess] *)
Definition current_process : Z := -1.

(** [DuplicateHandle] from a process, a handle of it and the process it goes to,
    with or without [DUPLICATE_CLOSE_SOURCE]; [CloseHandle]; [WriteFile] with what
    was written; [ReadFile] with the bytes read; [ConnectNamedPipe],
    [SetNamedPipeHandleState] and [GetNamedPipeClientProcessId]; [CreateFileW] on a
    pipe's name; the clock against the deadline; the last error.  [None] and
    [false] are failures. *)
Class PipeOps (K : Type) := {
  duplicate_handle : Z → Z → Z → bool → K → option Z * K;
  close_handle : Z → K → unit * K;
  write_file : Z → list Z → K → option Z * K;
  read_file : Z → nat → K → option (list Z) * K;
  connect_pipe : Z → K → bool * K;
  set_pipe_mode : Z → K → bool * K;
  client_process_id : Z → K → option Z * K;
  open_pipe : string → K → option Z * K;
  pipe_before_deadline : K → bool * K;
  last_error : K → Z;
}.

(** What of the system the laws speak of: the caller's process id; which objects
    are processes; the object behind each handle of each process; the messages
    each process was sent; the process at the client's end of a pipe. *)
Class PipeView (K : Type) := {
  me : Z;
  process_object : Z → option Z;
  table : K → Z → gmap Z Z;
  received : K → Z → list (list Z);
  pipe_client : K → Z → option Z;
}.

Section View.
Context {K : Type} `{PipeView K}.

(** The process a handle of the caller denotes. *)
Definition denotes (k : K) (h : Z) : option Z := if h =? current_process then Some me else table k me !! h ≫= process_object.

Definition same_tables (k k' : K) : Prop := ∀ q, table k' q = table k q.
Definition same_received (k k' : K) : Prop := ∀ q, received k' q = received k q.
Definition same_clients (k k' : K) : Prop := ∀ p, pipe_client k' p = pipe_client k p.

(** The handle tables once process [s] has lost the handle [h]. *)
Definition closed_in (s h : Z) (t : Z → gmap Z Z) (q : Z) : gmap Z Z := if q =? s then delete h (t q) else t q.

(** [DuplicateHandle]: on success the target process has a new handle on the
    object the source handle denotes; [DUPLICATE_CLOSE_SOURCE] closes the source even
    on failure. *)
Definition duplicated (s h t : Z) (close : bool) (r : option Z) (k k' : K) : Prop :=
  let from := if close then closed_in s h (table k) else table k in
  match r with
  | Some d => ∃ o, table k s !! h = Some o ∧ is_word 64 d ∧ from t !! d = None ∧ ∀ q, table k' q = if q =? t then <[d := o]> (from q) else from q
  | None => ∀ q, table k' q = from q
  end.
End View.

Class PipeLaws (K : Type) `{PipeOps K, PipeView K} := {
  duplicate_handle_law sp h tp close k : let '(r, k') := duplicate_handle sp h tp close k in
    same_received k k' ∧ same_clients k k' ∧
    match denotes k sp, denotes k tp with
    | Some s, Some t => duplicated s h t close r k k'
    | _, _ => r = None ∧ same_tables k k'
    end;
  close_handle_law h k : let k' := (close_handle h k).2 in same_received k k' ∧ same_clients k k' ∧ ∀ q, table k' q = closed_in me h (table k) q;
  write_file_law p b k : let '(r, k') := write_file p b k in
    same_tables k k' ∧ same_clients k k' ∧ (∀ q, pipe_client k p ≠ Some q → received k' q = received k q) ∧
    (∀ q, pipe_client k p = Some q →
      match r with
      | Some n => 0 ≤ n ≤ len b ∧ received k' q = received k q ++ [take (Z.to_nat n) b]
      | None => received k' q = received k q
      end);
  client_process_id_law p k : let '(r, k') := client_process_id p k in
    same_tables k k' ∧ same_received k k' ∧ (∀ q, r = Some q → pipe_client k' p = Some q);
  connect_pipe_law p k : same_tables k (connect_pipe p k).2 ∧ same_received k (connect_pipe p k).2;
  set_pipe_mode_law p k : same_tables k (set_pipe_mode p k).2 ∧ same_received k (set_pipe_mode p k).2;
  pipe_clock_law k : same_tables k (pipe_before_deadline k).2 ∧ same_received k (pipe_before_deadline k).2;
}.

(** ** The code *)

Definition MAX_MESSAGE : Z := HEADER + MAX_BOOTSTRAP + MAX_RESOURCES * 8.

(** The message [Socket::send] writes. *)
Definition message (b : Bootstrap) (remote : list Z) : list Z :=
  HANDOFF_MAGIC ++ to_le_bytes 2 (wrap 16 (len (bs_bytes b))) ++ to_le_bytes 2 (wrap 16 (len remote)) ++ bs_bytes b ++ concat (map (to_le_bytes 8) remote).

(** [slice::chunks_exact] *)
Fixpoint chunks_from (fuel n : nat) (bytes : list Z) : list (list Z) :=
  match fuel with
  | O => []
  | S fuel => if (length bytes <? n)%nat then [] else take n bytes :: chunks_from fuel n (drop n bytes)
  end.
Definition chunks_exact (n : nat) (bytes : list Z) : list (list Z) := chunks_from (length bytes) n bytes.

Section Pipe.
Context {K : Type} `{PO : PipeOps K}.

Definition get_last_error : prog K io_error := act e <- (λ k, (last_error k, k)); Ret (OsError e).

(** [rollback] *)
Fixpoint rollback (target : Z) (remote : list Z) : prog K unit :=
  match remote with
  | [] => Ret tt
  | handle :: remote =>
    act local <- duplicate_handle target handle current_process true;
    match local with
    | Some l => act_ close_handle l; rollback target remote
    | None => rollback target remote
    end
  end.

(** The loop of [Socket::send] over the resources: [false] when one could not be
    duplicated, with those that were. *)
Fixpoint duplicate_all (target : Z) (resources remote : list Z) : prog K (bool * list Z) :=
  match resources with
  | [] => Ret (true, remote)
  | resource :: resources =>
    act duplicated <- duplicate_handle current_process resource target false;
    match duplicated with
    | None => Ret (false, remote)
    | Some d => duplicate_all target resources (remote ++ [d])
    end
  end.

(** [Socket::send]; [target] is [child.handle()]. *)
Definition pipe_send (pipe target : Z) (bootstrap : Bootstrap) (resources : list Z) : prog K (result unit io_error) :=
  if MAX_RESOURCES <? len resources then Ret (Err (InvalidInput "too many resources")) else
  do duplicated <- duplicate_all target resources [];
  let '(all, remote) := duplicated in
  if negb all then do _ <- rollback target remote; do e <- get_last_error; Ret (Err e) else
  let bytes := message bootstrap remote in
  act written <- write_file pipe bytes;
  match written with
  | Some n =>
    if negb (n =? len bytes) then do _ <- rollback target remote; do e <- get_last_error; Ret (Err e) else Ret (Ok tt)
  | None => do _ <- rollback target remote; do e <- get_last_error; Ret (Err e)
  end.

(** The drop of a vector of owned handles. *)
Fixpoint close_handles (handles : list Z) : prog K unit :=
  match handles with
  | [] => Ret tt
  | handle :: handles => act_ close_handle handle; close_handles handles
  end.

(** [Socket::recv]: the buffer is zeroes behind what was read. *)
Definition pipe_recv (pipe expected : Z) : prog K (result Offer io_error) :=
  if MAX_RESOURCES <? expected then Ret (Err (InvalidInput "too many expected resources")) else
  act got <- read_file pipe (Z.to_nat MAX_MESSAGE);
  match got with
  | None => do e <- get_last_error; Ret (Err e)
  | Some bytes =>
    let read := len bytes in
    let message := bytes ++ replicate (Z.to_nat (MAX_MESSAGE - read)) 0 in
    if (read <? HEADER) || negb (bool_decide (take 4 message = HANDOFF_MAGIC)) then Ret (Err (InvalidData "malformed control header")) else
    let length := from_le_bytes (take 2 (drop 4 message)) in
    let declared := from_le_bytes (take 2 (drop 6 message)) in
    if (MAX_BOOTSTRAP <? length) || (MAX_RESOURCES <? declared) then Ret (Err (InvalidData "control bounds exceeded")) else
    let needed := HEADER + length + declared * 8 in
    if negb (read =? needed) then Ret (Err (InvalidData "malformed control length")) else
    let resources := map from_le_bytes (chunks_exact 8 (drop (Z.to_nat (HEADER + length)) message)) in
    if negb (declared =? expected) then do _ <- close_handles resources; Ret (Err (InvalidData "resource count mismatch")) else
    match Bootstrap_new (take (Z.to_nat length) (drop (Z.to_nat HEADER) message)) with
    | Err _ => do _ <- close_handles resources; Ret (Err (InvalidData "bootstrap too large"))
    | Ok b => Ret (Ok (mkOffer b resources))
    end
  end.

(** The loop of [Listener::accept]; [None] runs out of turns. *)
Fixpoint connect_loop (fuel : nat) (pipe : Z) : prog K (option (result unit io_error)) :=
  match fuel with
  | O => Ret None
  | S fuel =>
    act connected <- connect_pipe pipe;
    if connected then Ret (Some (Ok tt)) else
    act code <- (λ k, (last_error k, k));
    if code =? ERROR_PIPE_CONNECTED then Ret (Some (Ok tt)) else
    if code =? ERROR_PIPE_LISTENING then
      act early <- pipe_before_deadline;
      if early then connect_loop fuel pipe else Ret (Some (Err TimedOut))
    else do e <- get_last_error; Ret (Some (Err e))
  end.

(** [Listener::accept] of the listener on [pipe], which is closed when it fails. *)
Definition listener_accept (fuel : nat) (pipe child : Z) : prog K (option (result Z io_error)) :=
  let fail e := act_ close_handle pipe; Ret (Some (Err e)) in
  do c <- connect_loop fuel pipe;
  match c with
  | None => Ret None
  | Some (Err e) => fail e
  | Some (Ok _) =>
    act moded <- set_pipe_mode pipe;
    if negb moded then do e <- get_last_error; fail e else
    act process <- client_process_id pipe;
    match process with
    | None => do e <- get_last_error; fail e
    | Some process =>
      if negb (process =? child) then fail (PermissionDenied "control peer is not the retained child") else Ret (Some (Ok pipe))
    end
  end.

(** [Handoff::send]; [child] and [target] are the child's [id()] and [handle()]. *)
Definition win_handoff_send (fuel : nat) (pipe child target : Z) (bootstrap : Bootstrap) (mapping event ring : Z) : prog K (option (result unit io_error)) :=
  do a <- listener_accept fuel pipe child;
  match a with
  | None => Ret None
  | Some (Err e) => Ret (Some (Err e))
  | Some (Ok pipe) =>
    do r <- pipe_send pipe target bootstrap [mapping; event; ring];
    act_ close_handle pipe;
    Ret (Some r)
  end.

(** [Socket::connect] *)
Definition pipe_connect (name : string) : prog K (result Z io_error) :=
  act opened <- open_pipe name;
  match opened with
  | None => do e <- get_last_error; Ret (Err e)
  | Some pipe => Ret (Ok pipe)
  end.

(** [Handoff::receive]; [None] is the panic of [Vec::remove]. *)
Definition win_handoff_receive (address : string) : prog K (option (result (Bootstrap * Z * Z * Z) io_error)) :=
  do opened <- pipe_connect address;
  match opened with
  | Err e => Ret (Some (Err e))
  | Ok pipe =>
    do offer <- pipe_recv pipe 3;
    act_ close_handle pipe;
    match offer with
    | Err e => Ret (Some (Err e))
    | Ok o =>
      match of_resources o with
      | mapping :: event :: ring :: rest =>
        do _ <- close_handles rest;
        Ret (Some (Ok (of_bootstrap o, mapping, event, ring)))
      | _ => Ret None
      end
    end
  end.
End Pipe.

(** ** Who owns the handles *)

Section Owned.
Context {K : Type} {PO : PipeOps K} {PV : PipeView K} {PL : PipeLaws K}.

Lemma run_last_error {A} (p : io_error → prog K A) k : run (do e <- get_last_error; p e) k = run (p (OsError (last_error k))) k.
Proof using. done. Qed.

(** All processes have the handles and
    the messages they had. *)
Definition untouched (k k' : K) : Prop := same_tables k k' ∧ same_received k k'.

Lemma untouched_trans k1 k2 k3 : untouched k1 k2 → untouched k2 k3 → untouched k1 k3.
Proof using. intros [H1 H2] [H3 H4]. split; intros q; [by rewrite H3|by rewrite H4]. Qed.

Lemma denotes_same k k' h : table k' me = table k me → denotes k' h = denotes k h.
Proof using. unfold denotes. by intros ->. Qed.

Section Target.
Context (target child : Z) (Hme : child ≠ me).

Lemma denotes_open k : denotes k target = Some child → target ≠ current_process ∧ is_Some (table k me !! target).
Proof using Hme.
  unfold denotes. destruct (Z.eqb_spec target current_process); [intros [= ?]; congruence|]. destruct (table k me !! target); [done|discriminate].
Qed.

Lemma closed_in_other s h t q : q ≠ s → closed_in s h t q = t q.
Proof using. unfold closed_in. intros H. by rewrite (proj2 (Z.eqb_neq _ _)). Qed.

Lemma closed_in_self s h t : closed_in s h t s = delete h (t s).
Proof using. unfold closed_in. by rewrite Z.eqb_refl. Qed.

(** One turn of [rollback]. *)
Lemma took_back d k : denotes k target = Some child →
  let '(r, k1) := duplicate_handle target d current_process true k in
  let k2 := match r with Some l => (close_handle l k1).2 | None => k1 end in
  same_received k k2 ∧ same_clients k k2 ∧ (∀ q, table k2 q = closed_in child d (table k) q).
Proof using Hme PL.
  intros Hd. pose proof (duplicate_handle_law target d current_process true k) as H. destruct (duplicate_handle _ _ _ _ k) as [r k1].
  destruct H as (Hr & Hc & H). rewrite Hd in H. change (denotes k current_process) with (Some me) in H. unfold duplicated in H. destruct r as [l|]; [|done].
  destruct H as (o & Ho & _ & Hf & Ht). destruct (close_handle_law l k1) as (Hr2 & Hc2 & Ht2).
  split; [intros q; by rewrite Hr2|]. split; [intros p; by rewrite Hc2|]. intros q. rewrite Ht2. unfold closed_in at 1.
  destruct (Z.eqb_spec q me) as [->|Hq]; rewrite Ht; [rewrite Z.eqb_refl; by rewrite delete_insert_id|]. by rewrite (proj2 (Z.eqb_neq _ _)).
Qed.

(** [rollback] takes the handles away from the child. *)
Lemma rollback_closes remote k : denotes k target = Some child → let k' := (run (rollback target remote) k).2 in
  same_received k k' ∧ same_clients k k' ∧ (∀ q, q ≠ child → table k' q = table k q) ∧
  ∀ h, table k' child !! h = if decide (h ∈ remote) then None else table k child !! h.
Proof using Hme PL.
  revert k. induction remote as [|d remote IH]; intros k Hd k'; unfold k'; clear k'; cbn [rollback].
  - cbn [run snd]. split; [done|]. split; [done|]. split; [done|]. intros h. by rewrite decide_False by apply not_elem_of_nil.
  - rewrite run_act. pose proof (took_back d k Hd) as H. destruct (duplicate_handle _ _ _ _ k) as [r k1]. cbn [fst snd].
    set (k2 := match r with Some l => (close_handle l k1).2 | None => k1 end) in *.
    replace (run _ k1) with (run (rollback target remote) k2) by (unfold k2; destruct r; [by rewrite run_act|done]). destruct H as (Hr & Hc & Ht).
    destruct (IH k2) as (Hr' & Hc' & Ho' & Ht'). { rewrite <- Hd. apply denotes_same. by rewrite Ht, closed_in_other. }
    split; [intros q; by rewrite Hr'|]. split; [intros p; by rewrite Hc'|]. split; [intros q Hq; by rewrite Ho', Ht, closed_in_other|].
    intros h. rewrite Ht', Ht, closed_in_self. destruct (decide (h = d)) as [->|Hn].
    + rewrite lookup_delete_eq. destruct (decide (d ∈ remote)); by destruct (decide _) as [|[]%not_elem_of_cons].
    + rewrite lookup_delete_ne by done. apply decide_ext. rewrite elem_of_cons. clear -Hn. intuition.
Qed.

(** What the child has gained of [resources]: new handles, on the objects of
    those resources when all were duplicated. *)
Definition gained (resources : list Z) (all : bool) (new : list (Z * Z)) (k k' : K) : Prop :=
  NoDup new.*1 ∧ (∀ d, d ∈ new.*1 → table k child !! d = None) ∧ Forall (is_word 64) new.*1 ∧
  (∀ q, q ≠ child → table k' q = table k q) ∧ table k' child = list_to_map new ∪ table k child ∧
  (all = true → Forall2 (λ h p, table k me !! h = Some p.2) resources new).

Lemma duplicate_all_opens resources before k : denotes k target = Some child →
  let '((all, remote), k') := run (duplicate_all target resources before) k in
  same_received k k' ∧ same_clients k k' ∧ ∃ new, remote = before ++ new.*1 ∧ gained resources all new k k'.
Proof using Hme PL.
  revert before k. induction resources as [|h resources IH]; intros before k Hd; cbn [duplicate_all].
  - cbn [run]. do 2 (split; [done|]). exists []. rewrite app_nil_r. split; [done|]. split; [constructor|]. split; [intros d Hi; by apply elem_of_nil in Hi|].
    split; [constructor|]. split; [done|]. split; [by rewrite list_to_map_nil, (left_id_L ∅ _)|by constructor].
  - rewrite run_act. pose proof (duplicate_handle_law current_process h target false k) as H. destruct (duplicate_handle _ _ _ _ k) as [r k1]. cbn [fst snd].
    destruct H as (Hr & Hc & H). change (denotes k current_process) with (Some me) in H. rewrite Hd in H. unfold duplicated in H. destruct r as [d|].
    + destruct H as (o & Ho & Hw & Hf & Ht). assert (Hmt : table k1 me = table k me) by (rewrite Ht; by rewrite (proj2 (Z.eqb_neq _ _))).
      assert (Hct : table k1 child = <[d := o]> (table k child)) by (rewrite Ht; by rewrite Z.eqb_refl).
      specialize (IH (before ++ [d]) k1). rewrite (denotes_same k k1) in IH by done. specialize (IH Hd). destruct (run _ k1) as [[all remote] k'].
      destruct IH as (Hr' & Hc' & new & -> & Hn & Hfr & Hws & Hoth & Htab & Hall).
      assert (Hfresh : ∀ x, x ∈ new.*1 → x ≠ d ∧ table k child !! x = None).
      { intros x Hx. specialize (Hfr x Hx). rewrite Hct in Hfr. apply lookup_insert_None in Hfr as [? ?]. by split. }
      assert (Hdn : d ∉ new.*1) by (intros Hx; by destruct (Hfresh d Hx)).
      split; [intros q; by rewrite Hr'|]. split; [intros p; by rewrite Hc'|]. exists ((d, o) :: new). cbn [fmap list_fmap fst].
      split; [by rewrite <- app_assoc|]. split; [by constructor|]. split; [intros x [->|Hx]%elem_of_cons; [done|by apply Hfresh]|]. split; [by constructor|].
      split; [intros q Hq; rewrite Hoth, Ht by done; by rewrite (proj2 (Z.eqb_neq _ _))|].
      split; [rewrite Htab, Hct, list_to_map_cons, <- insert_union_l; symmetry; apply insert_union_r; by apply not_elem_of_list_to_map_1|].
      intros ->. constructor; [done|]. rewrite <- Hmt. by apply Hall.
    + cbn [run]. do 2 (split; [done|]). exists []. rewrite app_nil_r. split; [done|]. split; [constructor|]. split; [intros d Hi; by apply elem_of_nil in Hi|].
      split; [constructor|]. split; [done|]. split; [by rewrite H, list_to_map_nil, (left_id_L ∅ _)|done].
Qed.

(** [rollback] after [duplicate_all] leaves the tables as they were. *)
Lemma rollback_gained resources all new k k1 : denotes k1 target = Some child → gained resources all new k k1 →
  let k' := (run (rollback target new.*1) k1).2 in same_tables k k' ∧ same_received k1 k' ∧ same_clients k1 k'.
Proof using Hme PL.
  intros Hd (_ & Hf & _ & Ho & Ht & _) k'. destruct (rollback_closes new.*1 k1 Hd) as (Hr & Hc & Ho' & Ht'). split; [|done]. intros q.
  destruct (decide (q = child)) as [->|Hq]; [|by unfold k'; rewrite Ho', Ho]. apply map_eq. intros h. unfold k'. rewrite Ht', Ht.
  destruct (decide (h ∈ new.*1)) as [Hi|Hi]; [by rewrite Hf|]. by rewrite lookup_union_r by by apply not_elem_of_list_to_map_1.
Qed.

(** The child's messages when no whole message has reached it. *)
Definition no_message (k k' : K) : Prop :=
  received k' child = received k child ∨ ∃ m n, 0 ≤ n < len m ∧ received k' child = received k child ++ [take (Z.to_nat n) m].

(** What a successful send leaves: the child has gained a handle on the object of
    each resource, and has been sent their numbers. *)
Definition handed (b : Bootstrap) (resources : list Z) (k k' : K) : Prop :=
  ∃ new, gained resources true new k k' ∧ received k' child = received k child ++ [message b new.*1].

Lemma pipe_send_owns pipe b resources k : denotes k target = Some child → pipe_client k pipe = Some child →
  let '(r, k') := run (pipe_send pipe target b resources) k in
  (∀ q, q ≠ child → received k' q = received k q) ∧
  match r with
  | Ok _ => handed b resources k k'
  | Err _ => same_tables k k' ∧ no_message k k'
  end.
Proof using Hme PL.
  intros Hd Hcl. unfold pipe_send. destruct (MAX_RESOURCES <? len resources); [by split; [|split; [|left]]|]. rewrite run_bind. pose proof (duplicate_all_opens resources [] k Hd) as Ha.
  destruct (run (duplicate_all target resources []) k) as [[all remote] k1]. destruct Ha as (Hr & Hc & new & -> & Hg). cbn [app].
  assert (Hd1 : denotes k1 target = Some child) by (rewrite <- Hd; apply denotes_same; by apply Hg).
  assert (Hback : ∀ k2, same_tables k1 k2 → no_message k k2 → (∀ q, q ≠ child → received k2 q = received k q) →
    let '(r, k') := run (do _ <- rollback target new.*1; do e <- get_last_error; Ret (Err e)) k2 in
    ∃ e, @eq (result unit io_error) r (Err e) ∧ (∀ q, q ≠ child → received k' q = received k q) ∧ same_tables k k' ∧ no_message k k').
  { intros k2 H2t H2m H2r. rewrite run_bind. assert (Hg2 : gained resources all new k k2). { destruct Hg as (?&?&?&Ho&Ht&?). unfold gained. rewrite (H2t child). split_and!; try done. intros q ?. by rewrite H2t, Ho. }
    destruct (rollback_gained resources all new k k2) as (Hb1 & Hb2 & _); [by rewrite (denotes_same k1)|done|].
    destruct (run (rollback _ _) k2) as [u k3]. cbn [run get_last_error bind snd] in *.
    eexists. split; [done|]. split; [intros q Hq; by rewrite Hb2, H2r|]. split; [done|]. unfold no_message. by rewrite Hb2. }
  destruct all; cbn [negb].
  - rewrite run_act. pose proof (write_file_law pipe (message b new.*1) k1) as Hw. destruct (write_file _ _ k1) as [r k2]. cbn [fst snd].
    destruct Hw as (Hw1 & _ & Hw3 & Hw4). rewrite (Hc pipe), Hcl in Hw3, Hw4. specialize (Hw4 child eq_refl). rewrite Hr in Hw4.
    assert (Hoth : ∀ q, q ≠ child → received k2 q = received k q) by (intros q Hq; rewrite Hw3, Hr; congruence).
    destruct r as [n|].
    + destruct Hw4 as [Hn Hw4]. destruct (Z.eqb_spec n (len (message b new.*1))) as [->|Hne]; cbn [negb].
      * cbn [run]. split; [done|]. exists new. split; [|rewrite Hw4; unfold len; by rewrite Nat2Z.id, firstn_all].
        destruct Hg as (?&?&?&Ho&Ht&?). unfold gained. rewrite (Hw1 child). split_and!; try done. intros q ?. by rewrite Hw1, Ho.
      * specialize (Hback k2 Hw1). assert (Hm : no_message k k2) by (right; eexists _, n; split; [|done]; lia).
        specialize (Hback Hm Hoth). destruct (run _ k2). by destruct Hback as (e & -> & ?).
    + specialize (Hback k2 Hw1 (or_introl Hw4) Hoth). destruct (run _ k2). by destruct Hback as (e & -> & ?).
  - assert (Hm : no_message k k1) by (left; apply Hr). specialize (Hback k1 (λ q, eq_refl) Hm (λ q _, Hr q)). destruct (run _ k1). by destruct Hback as (e & -> & ?).
Qed.
End Target.

Lemma connect_loop_keeps fuel pipe k : untouched k (run (connect_loop fuel pipe) k).2.
Proof using PL.
  revert k. induction fuel as [|fuel IH]; intros k; cbn [connect_loop]; [done|]. rewrite run_act.
  pose proof (connect_pipe_law pipe k) as Hc. destruct (connect_pipe pipe k) as [[] k1]; cbn [fst snd] in *; [done|]. rewrite run_act. cbn [fst snd].
  destruct (_ =? ERROR_PIPE_CONNECTED); [done|]. destruct (_ =? ERROR_PIPE_LISTENING); [|done]. rewrite run_act.
  pose proof (pipe_clock_law k1) as Hk. destruct (pipe_before_deadline k1) as [[] k2]; cbn [fst snd] in *; [|exact (untouched_trans _ _ _ Hc Hk)].
  exact (untouched_trans _ _ _ (untouched_trans _ _ _ Hc Hk) (IH k2)).
Qed.

(** The handles after the listener was closed. *)
Definition without (pipe : Z) (k k' : K) : Prop := ∀ q, table k' q = closed_in me pipe (table k) q.

Lemma close_without pipe k k1 : untouched k k1 → let k' := (close_handle pipe k1).2 in without pipe k k' ∧ same_received k k'.
Proof using PL.
  intros [H1 H2]. destruct (close_handle_law pipe k1) as (H3 & _ & H4). split; intros q; [rewrite H4; unfold closed_in; by rewrite H1|by rewrite H3].
Qed.

Lemma listener_accept_child fuel pipe child k :
  match run (listener_accept fuel pipe child) k with
  | (Some (Ok p), k') => p = pipe ∧ untouched k k' ∧ pipe_client k' pipe = Some child
  | (Some (Err _), k') => without pipe k k' ∧ same_received k k'
  | (None, k') => untouched k k'
  end.
Proof using PL.
  unfold listener_accept. rewrite run_bind. pose proof (connect_loop_keeps fuel pipe k) as Hc.
  destruct (run (connect_loop fuel pipe) k) as [[[u|e]|] k1]; cbn [snd] in Hc; [|rewrite run_act; by apply close_without|done].
  rewrite run_act. pose proof (set_pipe_mode_law pipe k1) as Hm. destruct (set_pipe_mode pipe k1) as [[] k2]; cbn [fst snd negb] in *;
    [|rewrite run_last_error, run_act; apply close_without; exact (untouched_trans _ _ _ Hc Hm)].
  rewrite run_act. pose proof (client_process_id_law pipe k2) as Hp. destruct (client_process_id pipe k2) as [r k3] eqn:E; cbn [fst snd] in *.
  destruct Hp as (Hp1 & Hp2 & Hp3). pose proof (untouched_trans _ _ _ (untouched_trans _ _ _ Hc Hm) (conj Hp1 Hp2)) as Hs. destruct r as [p|].
  - destruct (Z.eqb_spec p child) as [->|]; cbn [negb]; [|rewrite run_act; by apply close_without].
    cbn [run]. split; [done|]. split; [done|]. by apply Hp3.
  - rewrite run_last_error, run_act. by apply close_without.
Qed.

(** C38: [Handoff::send], called with a child's id and process handle and an
    open listener.  When it succeeds the child has gained exactly three handles,
    on the objects of the mapping, the event and the ring in this order, all
    new to it, and has been sent the message with the bootstrap bytes and their
    three numbers; when it fails, in any of its steps, the child has the handles it
    had before and no whole message.  The parent has lost the pipe
    and nothing else, and every other process has the handles and the messages it
    had.  What the processes do themselves meanwhile is not part of the run. *)
Theorem win_send_to_child fuel pipe child target b mapping event ring k :
  child ≠ me → denotes k target = Some child → target ≠ pipe →
  let '(r, k') := run (win_handoff_send fuel pipe child target b mapping event ring) k in
  (∀ q, q ≠ child → received k' q = received k q) ∧ (∀ q, q ≠ child → q ≠ me → table k' q = table k q) ∧
  match r with
  | Some (Ok _) => table k' me = delete pipe (table k me) ∧ ∃ om oe orr m e r,
      table k me !! mapping = Some om ∧ table k me !! event = Some oe ∧ table k me !! ring = Some orr ∧
      NoDup [m; e; r] ∧ Forall (λ d, is_word 64 d ∧ table k child !! d = None) [m; e; r] ∧
      table k' child = <[m := om]> (<[e := oe]> (<[r := orr]> (table k child))) ∧
      received k' child = received k child ++ [message b [m; e; r]]
  | Some (Err _) => without pipe k k' ∧ no_message child k k'
  | None => untouched k k'
  end.
Proof using PL.
  intros Hme Hd Hpt. unfold win_handoff_send. rewrite run_bind. pose proof (listener_accept_child fuel pipe child k) as Ha.
  destruct (run (listener_accept fuel pipe child) k) as [[[p|e]|] k1].
  - destruct Ha as (-> & [Hs1 Hs2] & Hcl). rewrite run_bind. pose proof (pipe_send_owns target child Hme pipe b [mapping; event; ring] k1) as Hp.
    rewrite (denotes_same k) in Hp by done. specialize (Hp Hd Hcl). destruct (run (pipe_send _ _ _ _) k1) as [r k2]. rewrite run_act; cbn [run].
    destruct Hp as [Hoth Hp]. destruct (close_handle_law pipe k2) as (Hr3 & _ & Ht3). set (k3 := (close_handle pipe k2).2) in *.
    split; [intros q Hq; by rewrite Hr3, Hoth, Hs2|]. destruct r as [u|e].
    + destruct Hp as (new & (Hn & Hf & Hw & Ho & Ht & Hall) & Hrc). split; [intros q Hq Hq2; by rewrite Ht3, closed_in_other, Ho, Hs1|].
      split; [by rewrite Ht3, closed_in_self, Ho, Hs1|]. specialize (Hall eq_refl). rewrite Hs1 in Hall.
      apply Forall2_cons_inv_l in Hall as ([m om] & l1 & Hm & Hall & ->). apply Forall2_cons_inv_l in Hall as ([e oe] & l2 & He & Hall & ->).
      apply Forall2_cons_inv_l in Hall as ([r orr] & l3 & Hri & Hall & ->). apply Forall2_nil_inv_l in Hall as ->. cbn [fmap list_fmap fst snd] in *.
      exists om, oe, orr, m, e, r. do 4 (split; [done|]). split.
      { apply Forall_forall. intros d Hdi. rewrite <- (Hs1 child). split; [by eapply Forall_forall in Hw|by apply Hf]. }
      split; [|by rewrite Hr3, Hrc, Hs2]. rewrite Ht3, closed_in_other, Ht, Hs1 by done. rewrite !list_to_map_cons, list_to_map_nil, <- !insert_union_l. by rewrite (left_id_L ∅ _).
    + destruct Hp as [Hp Hno]. split; [intros q Hq Hq2; by rewrite Ht3, closed_in_other, Hp, Hs1|].
      split; [intros q; rewrite Ht3; unfold closed_in; by rewrite Hp, Hs1|]. unfold no_message in *. by rewrite Hr3, <- Hs2.
  - destruct Ha as [Ha1 Ha2]. cbn [run]. split; [done|]. split; [intros q _ Hq; by rewrite Ha1, closed_in_other|]. split; [done|]. left. apply Ha2.
  - destruct Ha as [Ha1 Ha2]. cbn [run]. split; [done|]. split; [done|]. by split.
Qed.
End Owned.

(** ** What arrives *)

Lemma chunks_from_fuel n f1 f2 bytes : (0 < n)%nat → (length bytes ≤ f1)%nat → (length bytes ≤ f2)%nat → chunks_from f1 n bytes = chunks_from f2 n bytes.
Proof.
  intros Hn. revert f2 bytes. induction f1 as [|f1 IH]; intros f2 bytes H1 H2; destruct f2 as [|f2]; cbn [chunks_from]; [done| | |].
  - by rewrite (proj2 (Nat.ltb_lt (length bytes) n)) by lia.
  - by rewrite (proj2 (Nat.ltb_lt (length bytes) n)) by lia.
  - destruct (Nat.ltb_spec (length bytes) n) as [|Hl]; [done|]. f_equal. apply IH; rewrite length_drop; lia.
Qed.

Lemma chunks_exact_app n c rest : (0 < n)%nat → length c = n → chunks_exact n (c ++ rest) = c :: chunks_exact n rest.
Proof.
  intros Hn <-. unfold chunks_exact. rewrite length_app. destruct (length c + length rest)%nat as [|f] eqn:E; [lia|]. cbn [chunks_from].
  rewrite length_app, (proj2 (Nat.ltb_ge _ _)) by lia. rewrite take_app_length, drop_app_length. f_equal. apply chunks_from_fuel; lia.
Qed.

Lemma chunks_exact_words hs rest : chunks_exact 8 (concat (map (to_le_bytes 8) hs) ++ rest) = map (to_le_bytes 8) hs ++ chunks_exact 8 rest.
Proof.
  induction hs as [|h hs IH]; [done|]. cbn [map concat]. rewrite <- app_assoc, chunks_exact_app, IH by (lia || apply length_to_le_bytes). done.
Qed.

Lemma chunks_exact_zeroes z : chunks_exact 8 (replicate z 0) = replicate (z / 8) (replicate 8 0).
Proof.
  induction (lt_wf z) as [z _ IH]. destruct (decide (z < 8)%nat) as [Hz|Hz].
  - rewrite Nat.div_small by done. unfold chunks_exact. rewrite length_replicate. destruct z; [done|]. cbn [chunks_from]. by rewrite length_replicate, (proj2 (Nat.ltb_lt _ 8)).
  - replace z with (8 + (z - 8))%nat at 1 by lia. rewrite replicate_add, chunks_exact_app, IH by (lia || apply length_replicate).
    replace z with (1 * 8 + (z - 8))%nat at 2 by lia. rewrite Nat.div_add_l by lia. done.
Qed.

Lemma length_words hs : length (concat (map (to_le_bytes 8) hs)) = (8 * length hs)%nat.
Proof. induction hs as [|h hs IH]; [done|]. cbn [map concat length]. rewrite length_app, length_to_le_bytes, IH. lia. Qed.

Lemma message_length b hs : length (message b hs) = (8 + length (bs_bytes b) + 8 * length hs)%nat.
Proof. unfold message, HANDOFF_MAGIC. rewrite !length_app, !length_to_le_bytes, length_words. simpl. lia. Qed.

(** The resources made of the buffer behind the bootstrap bytes. *)
Lemma padded_resources hs z : Forall (is_word 64) hs →
  map from_le_bytes (chunks_exact 8 (concat (map (to_le_bytes 8) hs) ++ replicate z 0)) = hs ++ replicate (z / 8) 0.
Proof.
  intros Hh. rewrite chunks_exact_words, chunks_exact_zeroes, map_app. f_equal.
  - rewrite map_map. induction Hh as [|h hs Hw _ IH]; [done|]. cbn [map]. rewrite from_to_le_bytes by done. by rewrite IH.
  - assert (Hz : from_le_bytes (replicate 8 0) = 0) by done. revert Hz. generalize (replicate 8 0). intros c Hz.
    induction (z / 8)%nat as [|n IH]; [done|]. cbn [replicate map]. by rewrite IH, Hz.
Qed.

Section Received.
Context {K : Type} `{PO : PipeOps K}.

(** [Socket::recv] on a message [Socket::send] wrote. *)
Lemma run_pipe_recv pipe b handles k k1 :
  bootstrap_wf b → Forall (is_word 64) handles → len handles ≤ MAX_RESOURCES →
  read_file pipe (Z.to_nat MAX_MESSAGE) k = (Some (message b handles), k1) →
  run (pipe_recv pipe (len handles)) k =
    (Ok (mkOffer b (handles ++ replicate (Z.to_nat ((MAX_MESSAGE - HEADER - len (bs_bytes b)) / 8 - len handles)) 0)), k1).
Proof using.
  intros [Hb1 Hb2] Hh Hn Hread. unfold pipe_recv. rewrite (proj2 (Z.ltb_ge _ _)) by done. rewrite run_act, Hread. cbn [fst snd].
  assert (Hlen : len (message b handles) = HEADER + len (bs_bytes b) + len handles * 8) by (unfold len, HEADER; rewrite message_length; lia).
  assert (Hp : 0 ≤ len handles ∧ 0 ≤ len (bs_bytes b)) by (unfold len; lia). rewrite Hlen.
  set (z := Z.to_nat (MAX_MESSAGE - (HEADER + len (bs_bytes b) + len handles * 8))). rewrite (proj2 (Z.ltb_ge (_ + _) _)) by (unfold HEADER; lia).
  assert (E : message b handles ++ replicate z 0 = HANDOFF_MAGIC ++ to_le_bytes 2 (len (bs_bytes b)) ++ to_le_bytes 2 (len handles) ++ bs_bytes b ++ concat (map (to_le_bytes 8) handles) ++ replicate z 0).
  { unfold message. rewrite !wrap_small by (unfold is_word, MAX_BOOTSTRAP, MAX_RESOURCES in *; lia). by rewrite <- !app_assoc. }
  rewrite E. set (body := concat _ ++ _).
  assert (F : ∀ x, 0 ≤ x ≤ MAX_BOOTSTRAP → from_le_bytes (to_le_bytes 2 x) = x) by (intros x Hx; apply from_to_le_bytes; unfold is_word, MAX_BOOTSTRAP in *; simpl; lia).
  pose proof (F (len (bs_bytes b)) ltac:(lia)) as F1. pose proof (F (len handles) ltac:(unfold MAX_BOOTSTRAP, MAX_RESOURCES in *; lia)) as F2.
  unfold HANDOFF_MAGIC. cbn [to_le_bytes app take drop] in *. rewrite bool_decide_true by done. cbn [orb negb]. rewrite !take_0, F1, F2.
  rewrite !(proj2 (Z.ltb_ge _ _)) by done. rewrite !Z.eqb_refl. cbn [orb negb].
  replace (Z.to_nat (HEADER + len (bs_bytes b))) with (8 + length (bs_bytes b))%nat by (unfold HEADER, len; lia).
  change (Z.to_nat HEADER) with 8%nat. cbn [Nat.add drop]. replace (Z.to_nat (len (bs_bytes b))) with (length (bs_bytes b)) by (unfold len; lia). rewrite drop_0, take_app_length, drop_app_length. unfold Bootstrap_new.
  rewrite (proj2 (Z.ltb_ge _ _)) by done. cbn [run]. unfold body. rewrite padded_resources by done. replace (mkBootstrap (bs_bytes b)) with b by (by destruct b).
  do 5 f_equal. unfold z. rewrite <- (Nat2Z.id (_ / 8)). f_equal. rewrite Nat2Z.inj_div.
  assert (0 ≤ MAX_MESSAGE - (HEADER + len (bs_bytes b) + len handles * 8)) by (unfold MAX_MESSAGE, MAX_RESOURCES, MAX_BOOTSTRAP in *; lia). rewrite Z2Nat.id by done.
  replace (MAX_MESSAGE - (HEADER + len (bs_bytes b) + len handles * 8)) with (MAX_MESSAGE - HEADER - len (bs_bytes b) + (- len handles) * 8) by lia.
  rewrite Z.div_add by lia. lia.
Qed.

(** [Socket::recv] on the message [Socket::send] wrote, asked for as many
    resources as were sent: the offer has the bootstrap bytes and the handles that
    were sent, followed by null handles, one for every eight bytes of the
    buffer that the message does not fill, where exactly the handles sent were
    promised.  [Handoff::receive] takes the first three, and so those that were
    sent. *)
Theorem pipe_recv_pads pipe b handles k k1 :
  bootstrap_wf b → Forall (is_word 64) handles → len handles ≤ MAX_RESOURCES →
  read_file pipe (Z.to_nat MAX_MESSAGE) k = (Some (message b handles), k1) →
  run (pipe_recv pipe (len handles)) k =
    (Ok (mkOffer b (handles ++ replicate (Z.to_nat ((MAX_MESSAGE - HEADER - len (bs_bytes b)) / 8 - len handles)) 0)), k1) ∧
  (∀ mapping event ring address k0, handles = [mapping; event; ring] → open_pipe address k0 = (Some pipe, k) →
    (run (win_handoff_receive address) k0).1 = Some (Ok (b, mapping, event, ring))).
Proof using.
  intros Hb Hh Hn Hread. split; [by apply run_pipe_recv|]. intros m e r address k0 -> Ho.
  unfold win_handoff_receive, pipe_connect. cbn [bind]. rewrite run_act, Ho. cbn [fst snd bind]. rewrite run_bind. change 3 with (len [m; e; r]).
  rewrite (run_pipe_recv pipe b [m; e; r] k k1) by done. rewrite run_act. cbn [of_resources of_bootstrap app]. rewrite run_bind. by destruct (run (close_handles _) _).
Qed.
End Received.

(** ** A system with one child *)

(** The objects behind the handles of the parent and of the child, the messages the
    child has been sent and the process at the other end. *)
Record demo_pipe := mkDemoPipe { dp_own : gmap Z Z; dp_peer : gmap Z Z; dp_queue : list (list Z); dp_client : Z }.

(** The parent is process 1 and the child process 77, which is object 1077. *)
#[local] Instance demo_pipe_view : PipeView demo_pipe := {|
  me := 1;
  process_object := λ o, if o =? 1077 then Some 77 else None;
  table := λ k q, if q =? 1 then dp_own k else if q =? 77 then dp_peer k else ∅;
  received := λ k q, if q =? dp_client k then dp_queue k else [];
  pipe_client := λ k _, Some (dp_client k);
|}.

(** A number above every handle of the table. *)
Definition demo_above (t : gmap Z Z) : Z := 1 + foldr Z.max 0 (map_to_list t).*1.

Lemma demo_above_new (t : gmap Z Z) : t !! demo_above t = None.
Proof.
  destruct (t !! demo_above t) as [o|] eqn:E; [|done]. exfalso. apply elem_of_map_to_list, (list_elem_of_fmap_2 fst) in E. cbn [fst] in E.
  revert E. unfold demo_above. generalize ((map_to_list t).*1). intros l. assert (H : ∀ x, x ∈ l → x ≤ foldr Z.max 0 l).
  { induction l as [|y l IH]; intros x Hx; [by apply elem_of_nil in Hx|]. apply elem_of_cons in Hx as [->|Hx]; cbn [foldr]; [lia|]. specialize (IH x Hx). lia. }
  intros E. specialize (H _ E). lia.
Qed.

Lemma demo_above_pos t : 0 ≤ demo_above t.
Proof. unfold demo_above. induction ((map_to_list t).*1); simpl; lia. Qed.

Definition demo_set (q : Z) (t : gmap Z Z) (k : demo_pipe) : demo_pipe :=
  if q =? 1 then mkDemoPipe t (dp_peer k) (dp_queue k) (dp_client k) else mkDemoPipe (dp_own k) t (dp_queue k) (dp_client k).

Definition demo_duplicate (sp h tp : Z) (close : bool) (k : demo_pipe) : option Z * demo_pipe :=
  match denotes k sp, denotes k tp with
  | Some s, Some t =>
    let k1 := if close then demo_set s (delete h (table k s)) k else k in
    let d := demo_above (table k1 t) in
    match table k s !! h with
    | Some o => if d <? 2 ^ 64 then (Some d, demo_set t (<[d := o]> (table k1 t)) k1) else (None, k1)
    | None => (None, k1)
    end
  | _, _ => (None, k)
  end.

#[local] Instance demo_pipe_ops : PipeOps demo_pipe := {|
  duplicate_handle := demo_duplicate;
  close_handle := λ h k, (tt, demo_set 1 (delete h (dp_own k)) k);
  write_file := λ _ bytes k, (Some (len bytes), mkDemoPipe (dp_own k) (dp_peer k) (dp_queue k ++ [bytes]) (dp_client k));
  read_file := λ _ _ k,
    match dp_queue k with
    | [] => (None, k)
    | bytes :: rest => (Some bytes, mkDemoPipe (dp_own k) (dp_peer k) rest (dp_client k))
    end;
  connect_pipe := λ _ k, (true, k);
  set_pipe_mode := λ _ k, (true, k);
  client_process_id := λ _ k, (Some (dp_client k), k);
  open_pipe := λ _ k, (Some 1, k);
  pipe_before_deadline := λ k, (false, k);
  last_error := λ _, 0;
|}.

Lemma demo_set_table q t k p : q = 1 ∨ q = 77 → table (demo_set q t k) p = if p =? q then t else table k p.
Proof.
  intros [->| ->]; unfold demo_set; cbn [Z.eqb Pos.eqb table demo_pipe_view dp_own dp_peer].
  - destruct (p =? 1); reflexivity.
  - destruct (Z.eqb_spec p 77) as [->|]; [reflexivity|]. destruct (p =? 1); reflexivity.
Qed.

Lemma demo_set_rest q t k : same_received k (demo_set q t k) ∧ same_clients k (demo_set q t k).
Proof. unfold demo_set. destruct (q =? 1); done. Qed.

Lemma demo_denotes k h q : denotes k h = Some q → q = 1 ∨ q = 77.
Proof.
  unfold denotes. destruct (h =? _); [intros [= <-]; by left|]. destruct (table k me !! h) as [o|]; [|done]. simpl. destruct (o =? 1077); [|done]. intros [= <-]. by right.
Qed.

Lemma demo_close_source s h k close : s = 1 ∨ s = 77 → let k1 := if close : bool then demo_set s (delete h (table k s)) k else k in
  same_received k k1 ∧ same_clients k k1 ∧ ∀ q, table k1 q = (if close then closed_in s h (table k) else table k) q.
Proof.
  intros Hs. destruct close; cbv zeta; [|done]. destruct (demo_set_rest s (delete h (table k s)) k) as [H1 H2]. split; [done|]. split; [done|].
  intros q. rewrite demo_set_table by done. unfold closed_in. by destruct (Z.eqb_spec q s) as [->|].
Qed.

#[local] Program Instance demo_pipe_laws : PipeLaws demo_pipe.
Next Obligation.
  intros sp h tp close k. cbn [duplicate_handle demo_pipe_ops]. unfold demo_duplicate.
  destruct (denotes k sp) as [s|] eqn:Es; [|done]. destruct (denotes k tp) as [t|] eqn:Et; [|done].
  apply demo_denotes in Es, Et. destruct (demo_close_source s h k close Es) as (H1 & H2 & H3).
  set (k1 := if close then demo_set s (delete h (table k s)) k else k) in *. unfold duplicated.
  destruct (table k s !! h) as [o|]; [|done]. destruct (Z.ltb_spec (demo_above (table k1 t)) (2 ^ 64)) as [Hlt|]; [|done].
  destruct (demo_set_rest t (<[demo_above (table k1 t) := o]> (table k1 t)) k1) as [H4 H5].
  split; [intros q; rewrite H4; apply H1|]. split; [intros q; rewrite H5; apply H2|]. exists o. split; [done|].
  split; [split; [apply demo_above_pos|done]|]. rewrite <- (H3 t). split; [apply demo_above_new|].
  intros q. rewrite demo_set_table by done. rewrite <- (H3 q). destruct (Z.eqb_spec q t) as [->|]; reflexivity.
Qed.
Next Obligation.
  intros h k. cbn [close_handle demo_pipe_ops snd]. destruct (demo_set_rest 1 (delete h (dp_own k)) k) as [H1 H2]. split; [done|]. split; [done|].
  intros q. rewrite demo_set_table by by left. unfold closed_in. cbn [me demo_pipe_view]. destruct (Z.eqb_spec q 1) as [->|]; reflexivity.
Qed.
Next Obligation.
  intros p b k. simpl. split; [done|]. split; [done|]. split; intros q.
  - intros Hq. rewrite (proj2 (Z.eqb_neq q _)); [done|congruence].
  - intros [= ->]. rewrite !Z.eqb_refl. split; [unfold len; lia|]. unfold len. by rewrite Nat2Z.id, firstn_all.
Qed.
Next Obligation. done. Qed.
Next Obligation. done. Qed.
Next Obligation. done. Qed.
Next Obligation. done. Qed.

(** Handles 1, 2 and 3 on the objects 11, 12 and 13, the pipe 4 and the child's
    process handle 5. *)
Definition demo_parent : demo_pipe := mkDemoPipe (list_to_map [(1, 11); (2, 12); (3, 13); (4, 14); (5, 1077)]) {[1 := 21]} [] 77.

(** Process 77 gets handles on the objects 11, 12 and 13; when another process
    is at the other end, nobody gets any. *)
Lemma win_send_to_child_witness :
  (let '(r, k') := run (win_handoff_send 1 4 77 5 demo_bytes 1 2 3) demo_parent in
   r = Some (Ok tt) ∧ dp_own k' = delete 4 (dp_own demo_parent) ∧ dp_queue k' = [message demo_bytes [2; 3; 4]] ∧
   dp_peer k' = list_to_map [(1, 21); (2, 11); (3, 12); (4, 13)]) ∧
  (let k := mkDemoPipe (dp_own demo_parent) (dp_peer demo_parent) [] 78 in
   let '(r, k') := run (win_handoff_send 1 4 77 5 demo_bytes 1 2 3) k in
   r = Some (Err (PermissionDenied "control peer is not the retained child")) ∧ without 4 k k' ∧ no_message 77 k k').
Proof.
  split; [vm_compute; split_and!; reflexivity|]. cbv zeta.
  set (k := mkDemoPipe (dp_own demo_parent) (dp_peer demo_parent) [] 78).
  assert (E : (run (win_handoff_send 1 4 77 5 demo_bytes 1 2 3) k).1 = Some (Err (PermissionDenied "control peer is not the retained child"))) by (vm_compute; reflexivity).
  pose proof (win_send_to_child 1 4 77 5 demo_bytes 1 2 3 k) as H. assert (Hd : denotes k 5 = Some 77) by (vm_compute; reflexivity).
  specialize (H ltac:(discriminate) Hd ltac:(discriminate)). destruct (run (win_handoff_send 1 4 77 5 demo_bytes 1 2 3) k) as [r k']. cbn [fst] in E. subst r.
  destruct H as (_ & _ & H). split; [reflexivity|exact H].
Defined.

(** Three handles were sent; 519 arrive. *)
Lemma pipe_recv_pads_witness :
  match (run (pipe_recv 1 3) (mkDemoPipe ∅ ∅ [message demo_bytes [2; 3; 4]] 77)).1 with
  | Ok o => of_bootstrap o = demo_bytes ∧ take 4 (of_resources o) = [2; 3; 4; 0] ∧ len (of_resources o) = 519
  | Err _ => False
  end ∧
  (run (win_handoff_receive "a") (mkDemoPipe ∅ ∅ [message demo_bytes [2; 3; 4]] 77)).1 = Some (Ok (demo_bytes, 2, 3, 4)).
Proof.
  destruct (pipe_recv_pads 1 demo_bytes [2; 3; 4] (mkDemoPipe ∅ ∅ [message demo_bytes [2; 3; 4]] 77) (mkDemoPipe ∅ ∅ [] 77)) as [H1 H2]; [by_eval|by_eval|by_eval|reflexivity|].
  change 3 with (len [2; 3; 4]) at 1. rewrite H1. split; [vm_compute; auto|]. by apply H2.
Defined.
