(* ===== verification/Ready.v ===== *)
(** * Waiting for a Windows event in a future

    Models [runtime::imp::Ready] of [src/src/runtime.rs] (Windows): a future that
    registers a callback on the event, is polled by its executor, and is dropped
    at any time, while a thread of the system's pool runs the callback once.
    [RegisterWaitForSingleObject] runs the callback at most once after the event
    is signalled; [UnregisterWaitEx] with [INVALID_HANDLE_VALUE] returns when no
    callback runs or will run; it is taken to succeed, its result being ignored by
    the code.  The event is reset by [Wait::wait] alone, after its future is
    ready, so that during the life of one future it stays signalled; two waits on
    one event at a time are not modelled.  Both threads move one access at a
    time. *)

From S2P Require Import Prelude.

(** The callback [wake]: not called yet, between its accesses, over, or never to
    be called. A waker is named by the poll that left it. *)
Inductive callback :=
| CbWaiting
| CbEntered
| CbStarted
| CbFired
| CbTook (w : option nat)
| CbWoke
| CbDone
| CbNever.

(** The owner: between polls with the answer of the last one, in a poll before it
    stores its waker and before it looks again, unregistered, and dropped. *)
Inductive answer := NotPolled | Pending (poll : nat) | ReadyOk | ReadyErr.

Inductive owner :=
| Resting (a : answer)
| Polled (poll : nat)
| Stored (poll : nat)
| Unregistered
| Dropped.

#[export] Instance answer_eq_dec : EqDecision answer.
Proof. solve_decision. Defined.
#[export] Instance owner_eq_dec : EqDecision owner.
Proof. solve_decision. Defined.

(** [State] with the count of its [Arc], and [Ready]. *)
Record ready_future := mkReady {
  fired : bool; started : bool; waker : option nat; arcs : Z;
  rd_error : bool; rd_wait : bool;
  rd_owner : owner; rd_callback : callback; woken : list nat; signalled : bool }.

(** [Ready::new]: one count for the future and one for the callback, given back
    when the registration fails. *)
Definition ready_new (registered signal : bool) : ready_future :=
  if registered then mkReady false false None 2 false true (Resting NotPolled) CbWaiting [] signal
  else mkReady false false None 1 true false (Resting NotPolled) CbNever [] signal.

Definition with_owner (o : owner) (r : ready_future) : ready_future :=
  mkReady (fired r) (started r) (waker r) (arcs r) (rd_error r) (rd_wait r) o (rd_callback r) (woken r) (signalled r).
Definition with_callback (c : callback) (r : ready_future) : ready_future :=
  mkReady (fired r) (started r) (waker r) (arcs r) (rd_error r) (rd_wait r) (rd_owner r) c (woken r) (signalled r).
Definition with_error (e : bool) (r : ready_future) : ready_future :=
  mkReady (fired r) (started r) (waker r) (arcs r) e (rd_wait r) (rd_owner r) (rd_callback r) (woken r) (signalled r).
Definition with_waker (w : option nat) (r : ready_future) : ready_future :=
  mkReady (fired r) (started r) w (arcs r) (rd_error r) (rd_wait r) (rd_owner r) (rd_callback r) (woken r) (signalled r).
Definition set_started (r : ready_future) : ready_future :=
  mkReady (fired r) true (waker r) (arcs r) (rd_error r) (rd_wait r) (rd_owner r) (rd_callback r) (woken r) (signalled r).
Definition set_fired (r : ready_future) : ready_future :=
  mkReady true (started r) (waker r) (arcs r) (rd_error r) (rd_wait r) (rd_owner r) (rd_callback r) (woken r) (signalled r).
Definition set_signalled (r : ready_future) : ready_future :=
  mkReady (fired r) (started r) (waker r) (arcs r) (rd_error r) (rd_wait r) (rd_owner r) (rd_callback r) (woken r) true.
Definition do_wake (w : option nat) (r : ready_future) : ready_future :=
  mkReady (fired r) (started r) (waker r) (arcs r) (rd_error r) (rd_wait r) (rd_owner r) (rd_callback r) (woken r ++ option_list w) (signalled r).
(** A drop of the [Arc]. *)
Definition drop_arc (r : ready_future) : ready_future :=
  mkReady (fired r) (started r) (waker r) (arcs r - 1) (rd_error r) (rd_wait r) (rd_owner r) (rd_callback r) (woken r) (signalled r).

(** [wake], one access at a time: it is called when the event is signalled,
    stores [started] and [fired], takes the waker, wakes it, and drops its
    count last. *)
Inductive wake_step (r : ready_future) : ready_future → Prop :=
| wake_called : rd_callback r = CbWaiting → signalled r = true → wake_step r (with_callback CbEntered r)
| wake_started : rd_callback r = CbEntered → wake_step r (with_callback CbStarted (set_started r))
| wake_fired : rd_callback r = CbStarted → wake_step r (with_callback CbFired (set_fired r))
| wake_took : rd_callback r = CbFired → wake_step r (with_callback (CbTook (waker r)) (with_waker None r))
| wake_woke w : rd_callback r = CbTook w → wake_step r (with_callback CbWoke (do_wake w r))
| wake_dropped : rd_callback r = CbWoke → wake_step r (with_callback CbDone (drop_arc r)).

(** [Future::poll]: the error is taken; [fired] is read; the waker is stored;
    [fired] is read again. *)
Inductive poll_step (r : ready_future) : ready_future → Prop :=
| poll_error a : rd_owner r = Resting a → rd_error r = true → poll_step r (with_owner (Resting ReadyErr) (with_error false r))
| poll_fired a : rd_owner r = Resting a → rd_error r = false → fired r = true → poll_step r (with_owner (Resting ReadyOk) r)
| poll_unfired a n : rd_owner r = Resting a → rd_error r = false → fired r = false → poll_step r (with_owner (Polled n) r)
| poll_store n : rd_owner r = Polled n → poll_step r (with_owner (Stored n) (with_waker (Some n) r))
| poll_again n : rd_owner r = Stored n → poll_step r (with_owner (Resting (if fired r then ReadyOk else Pending n)) r).

(** [Drop for Ready]: nothing is undone without a registration; otherwise it
    unregisters, which waits for a callback that runs, and drops the callback's
    count if the callback has not started. The future's own count goes last. *)
Inductive drop_step (r : ready_future) : ready_future → Prop :=
| drop_null a : rd_owner r = Resting a → rd_wait r = false → drop_step r (with_owner Dropped (drop_arc r))
| drop_unregister a : rd_owner r = Resting a → rd_wait r = true → rd_callback r = CbWaiting →
    drop_step r (with_owner Unregistered (with_callback CbNever r))
| drop_wait a : rd_owner r = Resting a → rd_wait r = true → rd_callback r = CbDone → drop_step r (with_owner Unregistered r)
| drop_release : rd_owner r = Unregistered →
    drop_step r (with_owner Dropped (drop_arc (if started r then r else drop_arc r))).

Inductive ready_step (r : ready_future) : ready_future → Prop :=
| step_wake r' : wake_step r r' → ready_step r r'
| step_poll r' : poll_step r r' → ready_step r r'
| step_drop r' : drop_step r r' → ready_step r r'
| step_signal : ready_step r (set_signalled r).

(** ** Invariant *)

(** The callback has passed the access that sets the flag. *)
Definition cb_started (c : callback) : bool :=
  match c with CbStarted | CbFired | CbTook _ | CbWoke | CbDone => true | _ => false end.
Definition cb_fired (c : callback) : bool :=
  match c with CbFired | CbTook _ | CbWoke | CbDone => true | _ => false end.
(** It has not taken the waker. *)
Definition cb_untaken (c : callback) : bool :=
  match c with CbTook _ | CbWoke | CbDone => false | _ => true end.
(** The counts of the callback, of the future, and of the registration that was
    undone before the callback was called. *)
Definition cb_holds (c : callback) : Z :=
  match c with CbDone | CbNever => 0 | _ => 1 end.
Definition owner_holds (o : owner) : Z := match o with Dropped => 0 | _ => 1 end.
Definition left_over (o : owner) (c : callback) : Z := match o, c with Unregistered, CbNever => 1 | _, _ => 0 end.

Record ready_ok (r : ready_future) : Prop := {
  ok_started : started r = cb_started (rd_callback r);
  ok_fired : fired r = cb_fired (rd_callback r);
  ok_arcs : arcs r = owner_holds (rd_owner r) + cb_holds (rd_callback r) + left_over (rd_owner r) (rd_callback r);
  ok_signal : rd_callback r = CbWaiting ∨ rd_callback r = CbNever ∨ signalled r = true;
  ok_wait : rd_wait r = false → rd_callback r = CbNever;
  ok_over : match rd_owner r with
    | Unregistered => rd_wait r = true ∧ (rd_callback r = CbNever ∨ rd_callback r = CbDone)
    | Dropped => rd_callback r = CbNever ∨ rd_callback r = CbDone
    | _ => rd_callback r = CbNever → rd_wait r = false
    end;
  ok_waker : match rd_owner r with
    | Stored n => cb_untaken (rd_callback r) = true → waker r = Some n
    | Resting (Pending n) =>
        if cb_untaken (rd_callback r) then waker r = Some n else n ∈ woken r ∨ rd_callback r = CbTook (Some n)
    | Resting ReadyOk => fired r = true
    | _ => True
    end;
}.

Lemma ready_new_ok registered signal : ready_ok (ready_new registered signal).
Proof. destruct registered; split; simpl; auto; congruence. Qed.

#[local] Ltac ready_cases r :=
  destruct r as [fi st wk ar er wt ow cb wn si]; simpl in *; subst; split; simpl in *.

Lemma wake_step_ok r r' : ready_ok r → wake_step r r' → ready_ok r'.
Proof.
  intros [H1 H2 H3 H4 H5 H6 H7] Hs. destruct Hs as [Hc Hg|Hc|Hc|Hc|w Hc|Hc]; ready_cases r; auto; try (destruct ow; simpl in *; lia);
    try (destruct ow as [[]| | | |]; simpl in *; intuition congruence).
  destruct ow as [[]| | | |]; simpl in *; auto; try intuition congruence.
  left. destruct H7 as [H7|[= ->]]; apply elem_of_app; [by left|right; by left].
Qed.

Lemma poll_step_ok r r' : ready_ok r → poll_step r r' → ready_ok r'.
Proof.
  intros [H1 H2 H3 H4 H5 H6 H7] Hs. destruct Hs as [a Ho He|a Ho He Hf|a n Ho He Hf|n Ho|n Ho]; ready_cases r; auto; try congruence.
  destruct cb; simpl in *; auto.
Qed.

Lemma drop_step_ok r r' : ready_ok r → drop_step r r' → ready_ok r'.
Proof.
  intros [H1 H2 H3 H4 H5 H6 H7] Hs. destruct Hs as [a Ho Hw|a Ho Hw Hc|a Ho Hw Hc|Ho].
  - ready_cases r; auto; try (rewrite H5 by done; simpl; lia); auto.
  - ready_cases r; auto; try congruence.
  - ready_cases r; auto.
  - destruct r as [fi st wk ar er wt ow cb wn si]; simpl in *; subst. destruct H6 as [-> [-> | ->]]; split; simpl in *; auto; try congruence; lia.
Qed.

Lemma ready_step_ok r r' : ready_ok r → ready_step r r' → ready_ok r'.
Proof.
  intros Hr [r1 H|r1 H|r1 H|]; [by eapply wake_step_ok|by eapply poll_step_ok|by eapply drop_step_ok|].
  destruct Hr as [H1 H2 H3 H4 H5 H6 H7]. ready_cases r; auto.
Qed.

Lemma ready_reach_ok registered signal r : rtc ready_step (ready_new registered signal) r → ready_ok r.
Proof. intros H. remember (ready_new registered signal) as r0. assert (H0 : ready_ok r0) by (subst; apply ready_new_ok). clear Heqr0. induction H; eauto using ready_step_ok. Qed.

(** The accesses the callback still makes. *)
Definition wake_rank (c : callback) : nat :=
  match c with CbWaiting => 6 | CbEntered => 5 | CbStarted => 4 | CbFired => 3 | CbTook _ => 2 | CbWoke => 1 | CbDone | CbNever => 0 end.

Lemma wake_next r : rd_callback r ≠ CbNever → signalled r = true → rd_callback r = CbDone ∨
  ∃ r', wake_step r r' ∧ (wake_rank (rd_callback r') < wake_rank (rd_callback r))%nat ∧ rd_callback r' ≠ CbNever ∧ signalled r' = true ∧ rd_owner r' = rd_owner r.
Proof.
  intros Hn Hs. destruct (rd_callback r) eqn:Ec; [right..|by left|done]; eexists;
    (split; [by eauto using wake_step|]); simpl; (split; [lia|]); by split.
Qed.

(** The callback, left to itself, runs to its end and wakes the last poll. *)
Lemma wake_finishes r n : ready_ok r → rd_callback r ≠ CbNever → signalled r = true → rd_owner r = Resting (Pending n) →
  ∃ r', rtc wake_step r r' ∧ rd_callback r' = CbDone ∧ n ∈ woken r'.
Proof.
  remember (wake_rank (rd_callback r)) as k eqn:Hk. revert r Hk. induction (lt_wf k) as [k _ IH]. intros r -> Hr Hn Hs Ho.
  destruct (wake_next r Hn Hs) as [Hd|(r1 & H1 & H2 & H3 & H4 & H5)].
  - exists r. split; [constructor|]. split; [done|]. pose proof (ok_waker _ Hr) as Hw. rewrite Ho, Hd in Hw. destruct Hw; [done|discriminate].
  - destruct (IH _ H2 r1 eq_refl (wake_step_ok _ _ Hr H1) H3 H4 ltac:(congruence)) as (r2 & H6 & H7). exists r2. split; [by eapply rtc_l|done].
Qed.

(** C40: the future that waits for a Windows event, in any interleaving of its
    polls, its drop and the callback of the pool.  It answers ready only when
    the event was signalled; once the event is signalled, the last poll that
    answered pending is woken by the callback alone; and the state it shares
    with the callback is freed exactly when the future has been dropped, by then
    neither of them can touch it again. *)
Theorem ready_wakes_and_frees registered signal r : rtc ready_step (ready_new registered signal) r →
  (rd_owner r = Resting ReadyOk → signalled r = true) ∧
  (∀ n, rd_owner r = Resting (Pending n) → rd_wait r = true → signalled r = true →
     ∃ r', rtc wake_step r r' ∧ rd_callback r' = CbDone ∧ n ∈ woken r') ∧
  0 ≤ arcs r ∧ (arcs r = 0 ↔ rd_owner r = Dropped) ∧ (rd_owner r = Dropped → ∀ r', ¬ wake_step r r').
Proof.
  intros Hreach. pose proof (ready_reach_ok _ _ _ Hreach) as Hr. split.
  { intros Ho. pose proof (ok_waker _ Hr) as Hw. rewrite Ho in Hw. destruct (ok_signal _ Hr) as [Hc|[Hc|Hc]]; [| |done]; rewrite (ok_fired _ Hr), Hc in Hw; discriminate. }
  pose proof (ok_over _ Hr) as Hover. split.
  { intros n Ho Hw Hs. apply wake_finishes; [done| |done|done]. rewrite Ho in Hover. intros Hc. rewrite Hover in Hw by done. discriminate. }
  pose proof (ok_arcs _ Hr) as Ha. assert (Hh : 0 ≤ cb_holds (rd_callback r)) by (destruct (rd_callback r); simpl; lia).
  assert (Hl : 0 ≤ left_over (rd_owner r) (rd_callback r)) by (destruct (rd_owner r), (rd_callback r); simpl; lia).
  destruct (decide (rd_owner r = Dropped)) as [Ho|Ho].
  - rewrite Ho in *. cbn [owner_holds] in Ha. split; [lia|]. split; [split; [done|]; intros _; destruct Hover as [Hc|Hc]; rewrite Hc in Ha; simpl in Ha; lia|].
    intros _ r' Hs. destruct Hs; destruct Hover; congruence.
  - assert (1 ≤ arcs r) by (destruct (rd_owner r); simpl in *; [lia..|done]). split; [lia|]. split; [split; [lia|done]|done].
Qed.

(** The callback runs between the two looks of the first poll. *)
Definition demo_race : ready_future :=
  mkReady true true (Some 0%nat) 1 false true (Resting ReadyOk) CbDone [] true.
(** It runs after the first poll. *)
Definition demo_late : ready_future :=
  mkReady false true (Some 0%nat) 2 false true (Resting (Pending 0)) CbStarted [] true.

Lemma ready_wakes_and_frees_witness :
  signalled demo_race = true ∧ ∃ r', rtc wake_step demo_late r' ∧ rd_callback r' = CbDone ∧ 0%nat ∈ woken r'.
Proof.
  split.
  - assert (Hreach : rtc ready_step (ready_new true true) demo_race).
    { eapply rtc_l; [apply step_poll, (poll_unfired _ NotPolled 0); reflexivity|].
      eapply rtc_l; [apply step_wake, wake_called; reflexivity|]. eapply rtc_l; [apply step_wake, wake_started; reflexivity|].
      eapply rtc_l; [apply step_wake, wake_fired; reflexivity|]. eapply rtc_l; [apply step_wake, wake_took; reflexivity|].
      eapply rtc_l; [apply step_poll, (poll_store _ 0); reflexivity|]. eapply rtc_l; [apply step_wake, (wake_woke _ None); reflexivity|].
      eapply rtc_l; [apply step_wake, wake_dropped; reflexivity|].
      eapply rtc_l; [apply step_poll, (poll_again _ 0); reflexivity|]. apply rtc_refl. }
    exact (proj1 (ready_wakes_and_frees true true demo_race Hreach) eq_refl).
  - assert (Hreach : rtc ready_step (ready_new true false) demo_late).
    { eapply rtc_l; [apply step_poll, (poll_unfired _ NotPolled 0); reflexivity|].
      eapply rtc_l; [apply step_poll, (poll_store _ 0); reflexivity|]. eapply rtc_l; [apply step_poll, (poll_again _ 0); reflexivity|].
      eapply rtc_l; [apply step_signal|]. eapply rtc_l; [apply step_wake, wake_called; reflexivity|]. eapply rtc_l; [apply step_wake, wake_started; reflexivity|]. apply rtc_refl. }
    exact (proj1 (proj2 (ready_wakes_and_frees true false demo_late Hreach)) 0%nat eq_refl eq_refl eq_refl).
Defined.
