(* ===== verification/MapUnix.v ===== *)
(** * Mappings of files, on Unix

    Models [src/src/os/unix.rs], and the owner of a mapping of [src/src/mem.rs]:
    shared memory objects, mapping them, and releasing the mapping.  The system
    calls are the class [FileOps]; what the code relies on of them is
    [FileLaws]. *)

From Stdlib Require Import Ascii String.
From S2P Require Import Prelude Atomic Alloc Schema Header Mem.

#[local] Open Scope string_scope.
#[local] Open Scope list_scope.
#[local] Open Scope Z_scope.

(** ** The system *)

(** The flags of the two calls of [open]. *)
Inductive OFlag := CreateExclusive | ReadWrite.

(** [Path::exists], [memfd_create] with or without sealing, [open], [unlink],
    [fstat], [ftruncate], [dup], [mmap] at a hint with a length, protection,
    flags, descriptor and offset, [munmap], and the drop of an [OwnedFd]. *)
Class FileOps (K : Type) := {
  path_exists : string → K → bool * K;
  memfd_create : string → bool → K → result Z Z * K;
  open_file : string → OFlag → K → result Z Z * K;
  unlink : string → K → result unit Z * K;
  fstat : Z → K → result Z Z * K;
  ftruncate : Z → Z → K → result unit Z * K;
  dup : Z → K → result Z Z * K;
  mmap : option Z → Z → Z → Z → Z → Z → K → result Z Z * K;
  munmap : Z → Z → K → result unit Z * K;
  close : Z → K → unit * K;
}.

Definition EINVAL : Z := 22.
Definition MAP_SHARED : Z := 1.
Definition MAP_FIXED : Z := 16.
Definition PROT_READ : Z := 1.
Definition PROT_WRITE : Z := 2.
Definition PROT_EXEC : Z := 4.

(** [file_of] is the file behind a descriptor, [size_of] the length of a file,
    [named] the file of a path, and [maps] the mappings of the process: at an
    address, a length of a file.  A call that fails changes nothing. *)
Class FileLaws (K : Type) `{FileOps K} := {
  file_of : K → Z → option Z;
  size_of : K → Z → Z;
  named : K → string → option Z;
  maps : K → gmap Z (Z * Z);
  exists_keeps p k : (path_exists p k).2 = k;
  memfd_law name sealing k : match memfd_create name sealing k with
    | (Ok fd, k') => file_of k fd = None ∧ named k' = named k ∧ maps k' = maps k ∧
        ∃ f, size_of k' f = 0 ∧ (∀ fd', file_of k fd' ≠ Some f) ∧
          (∀ fd', file_of k' fd' = if decide (fd' = fd) then Some f else file_of k fd') ∧
          ∀ g, g ≠ f → size_of k' g = size_of k g
    | (Err _, k') => k' = k
    end;
  open_law p o k : match open_file p o k with
    | (Ok fd, k') => file_of k fd = None ∧ maps k' = maps k ∧
        ∃ f, (∀ fd', file_of k' fd' = if decide (fd' = fd) then Some f else file_of k fd') ∧
          match o with
          | ReadWrite => named k p = Some f ∧ named k' = named k ∧ size_of k' = size_of k
          | CreateExclusive => named k p = None ∧ size_of k' f = 0 ∧ (∀ fd', file_of k fd' ≠ Some f) ∧
              (∀ q, named k' q = if decide (q = p) then Some f else named k q) ∧
              ∀ g, g ≠ f → size_of k' g = size_of k g
          end
    | (Err _, k') => k' = k
    end;
  fstat_law fd k : (fstat fd k).2 = k ∧ match (fstat fd k).1 with
    | Ok n => ∃ f, file_of k fd = Some f ∧ n = size_of k f ∧ 0 ≤ n ≤ isize_max
    | Err _ => True
    end;
  ftruncate_law fd n k : match ftruncate fd n k with
    | (Ok _, k') => 0 ≤ n ∧ file_of k' = file_of k ∧ named k' = named k ∧ maps k' = maps k ∧
        ∃ f, file_of k fd = Some f ∧ ∀ g, size_of k' g = if decide (g = f) then n else size_of k g
    | (Err _, k') => k' = k
    end;
  dup_law fd k : match dup fd k with
    | (Ok fd', k') => file_of k fd' = None ∧ named k' = named k ∧ size_of k' = size_of k ∧ maps k' = maps k ∧
        ∀ fd'', file_of k' fd'' = if decide (fd'' = fd') then file_of k fd else file_of k fd''
    | (Err _, k') => k' = k
    end;
  mmap_law start n prot flags fd off k : match mmap start n prot flags fd off k with
    | (Ok a, k') => file_of k' = file_of k ∧ named k' = named k ∧ size_of k' = size_of k ∧
        ∃ f, file_of k fd = Some f ∧ 0 < n ∧ maps k' !! a = Some (n, f) ∧
          (∀ a' n' f', maps k !! a' = Some (n', f') → 0 < n' ∧ (a + n ≤ a' ∨ a' + n' ≤ a → maps k' !! a' = Some (n', f'))) ∧
          (Z.land flags MAP_FIXED = 0 → maps k' = <[a := (n, f)]> (maps k) ∧
            ∀ a' n' f', maps k !! a' = Some (n', f') → a + n ≤ a' ∨ a' + n' ≤ a)
    | (Err _, k') => k' = k
    end;
  munmap_law a n f k : maps k !! a = Some (n, f) →
    ∃ k', munmap a n k = (Ok tt, k') ∧ maps k' = delete a (maps k) ∧
      file_of k' = file_of k ∧ named k' = named k ∧ size_of k' = size_of k;
  close_law fd k : let k' := (close fd k).2 in
    named k' = named k ∧ size_of k' = size_of k ∧ maps k' = maps k ∧
    ∀ fd', file_of k' fd' = if decide (fd' = fd) then None else file_of k fd';
}.

(** ** Objects *)

(** [usize as off_t] *)
Definition as_off_t (n : Z) : Z := if n <=? isize_max then n else n - 2 ^ usize_bits.

(** [Path::join]: an absolute name replaces the base. *)
Definition path_join (base name : string) : string :=
  match name with
  | String "/"%char _ => name
  | _ => (base ++ "/" ++ name)%string
  end.

Inductive FdKind := MemFd | Shm | FromFd.

(** [UnixFd<F>]: [owned] says whether [F] is [OwnedFd]. *)
Record UnixFd := mkUnixFd { fd : Z; owned : bool; fd_size : Z; fd_kind : FdKind }.

(** [FdMap<F>] *)
Record FdMap := mkFdMap { fm_fd : UnixFd; fm_start : option Z; fm_flags : Z }.

(** [UnixFd::borrow] *)
Definition borrow (u : UnixFd) : UnixFd := mkUnixFd (fd u) false (fd_size u) (fd_kind u).

(** [UnixFd::mapping] *)
Definition mapping (u : UnixFd) : FdMap := mkFdMap u None MAP_SHARED.

(** [FdMap::at] *)
Definition map_at (m : FdMap) (address : Z) : FdMap := mkFdMap (fm_fd m) (Some address) (fm_flags m).

(** [FdMap::with_flags] *)
Definition with_flags (m : FdMap) (flags : Z) : FdMap := mkFdMap (fm_fd m) (fm_start m) flags.

(** [From<Access> for ProtFlags] *)
Definition prot_of (value : Z) : Z :=
  let prot := 0 in
  let prot := if contains value READ then Z.lor prot PROT_READ else prot in
  let prot := if contains value WRITE then Z.lor prot PROT_WRITE else prot in
  if contains value EXEC then Z.lor prot PROT_EXEC else prot.

Section Files.
Context {K : Type} `{FO : FileOps K}.

(** The function [shm_path] *)
Definition shm_path (name : string) : prog K string :=
  act there <- path_exists "/dev/shm";
  Ret (path_join (if there then "/dev/shm" else "/tmp") name).

(** The drop of a descriptor of type [F]. *)
Definition drop_unix (u : UnixFd) : prog K unit :=
  if owned u then act_ close (fd u); Ret tt else Ret tt.

(** The common end of [memfd] and [shm_create]. *)
Definition sized (file size : Z) (kind : FdKind) : prog K (result UnixFd Z) :=
  act cut <- ftruncate file (as_off_t size);
  match cut with
  | Err e => act_ close file; Ret (Err e)
  | Ok _ => Ret (Ok (mkUnixFd file true size kind))
  end.

(** The common end of [shm_open] and [from_fd]. *)
Definition measured (file : Z) (kind : FdKind) : prog K (result UnixFd Z) :=
  act stat <- fstat file;
  match stat with
  | Err e => act_ close file; Ret (Err e)
  | Ok st_size => Ret (Ok (mkUnixFd file true (wrap usize_bits st_size) kind))
  end.

(** [UnixFd::memfd] *)
Definition memfd (name : string) (size : Z) (sealing : bool) : prog K (result UnixFd Z) :=
  act created <- memfd_create name sealing;
  match created with Err e => Ret (Err e) | Ok file => sized file size MemFd end.

(** [UnixFd::shm_create] *)
Definition shm_create (name : string) (size : Z) : prog K (result UnixFd Z) :=
  do path <- shm_path name;
  act opened <- open_file path CreateExclusive;
  match opened with Err e => Ret (Err e) | Ok file => sized file size Shm end.

(** [UnixFd::shm_open] *)
Definition shm_open (name : string) : prog K (result UnixFd Z) :=
  do path <- shm_path name;
  act opened <- open_file path ReadWrite;
  match opened with Err e => Ret (Err e) | Ok file => measured file Shm end.

(** [UnixFd::shm_unlink] *)
Definition shm_unlink (name : string) : prog K (result unit Z) :=
  do path <- shm_path name;
  act done <- unlink path; Ret done.

(** [UnixFd::from_fd] *)
Definition from_fd (file : Z) : prog K (result UnixFd Z) := measured file FromFd.

(** [UnixFd::dup] *)
Definition dup_fd (u : UnixFd) : prog K (result UnixFd Z) :=
  act r <- dup (fd u);
  Ret (let? file := r in Ok (mkUnixFd file true (fd_size u) (fd_kind u))).

(** ** Mapping *)

(** The growth of the file in [FdMap::map]. *)
Definition grow_to (file len : Z) : prog K (result unit Z) :=
  act stat <- fstat file;
  match stat with
  | Err e => Ret (Err e)
  | Ok fsize =>
    let rsize := as_off_t len in
    if fsize <? rsize then act cut <- ftruncate file rsize; Ret cut else Ret (Ok tt)
  end.

(** [NonZeroUsize::new] *)
Definition nonzero (n : Z) : option Z := if n =? 0 then None else Some n.

(** [Source::map] of [FdMap], which consumes the descriptor. *)
Definition fd_map (m : FdMap) (r : Request) : prog K (result Map Z) :=
  do grown <- grow_to (fd (fm_fd m)) (req_len r);
  do mapped <- match grown, nonzero (req_len r) with
    | Err e, _ => Ret (Err e)
    | Ok _, None => Ret (Err EINVAL)
    | Ok _, Some size =>
      act at_ <- mmap (fm_start m ≫= nonzero) size (prot_of (req_access r)) (fm_flags m) (fd (fm_fd m)) 0;
      Ret (let? a := at_ in Ok (mkMap a size (req_access r)))
    end;
  do _ <- drop_unix (fm_fd m);
  Ret mapped.

(** [Source::map] of [UnixFd] *)
Definition unix_map (u : UnixFd) (r : Request) : prog K (result Map Z) := fd_map (mapping u) r.

(** The function [release] *)
Definition release_map (start len : Z) : prog K bool :=
  act r <- munmap start len; Ret (is_ok r).
End Files.

(** ** What a mapping is backed by *)

Lemma as_off_t_small n : 0 ≤ n ≤ isize_max → as_off_t n = n.
Proof. intros Hn. unfold as_off_t. by destruct (Z.leb_spec n isize_max); [|lia]. Qed.

Section Laws.
Context {K : Type} `{FL : FileLaws K}.

Lemma run_drop_unix u k : let k' := (run (drop_unix u) k).2 in
  named k' = named k ∧ size_of k' = size_of k ∧ maps k' = maps k ∧
  ∀ fd', file_of k' fd' = if decide (owned u = true ∧ fd' = fd u) then None else file_of k fd'.
Proof.
  unfold drop_unix. destruct (owned u).
  - rewrite run_act. destruct (close_law (fd u) k) as (E1 & E2 & E3 & E4). split_and!; try done.
    intros fd'. cbn [run snd]. rewrite E4. by repeat case_decide; try tauto.
  - cbn. split_and!; [done..|]. intros fd'. case_decide; naive_solver.
Qed.

(** Growing a file: on success it has the length asked for, and was not cut. *)
Lemma run_grow_to u n k f : 0 ≤ n ≤ isize_max → file_of k u = Some f →
  match run (grow_to u n) k with
  | (Ok _, k') => file_of k' = file_of k ∧ named k' = named k ∧ maps k' = maps k ∧
      ∀ g, size_of k' g = if decide (g = f) then Z.max n (size_of k f) else size_of k g
  | (Err _, k') => k' = k
  end.
Proof.
  intros Hn Hf. unfold grow_to. rewrite run_act. destruct (fstat_law u k) as [Hk Hs].
  destruct (fstat u k) as [st k1]. cbn [fst snd] in *. subst k1. destruct st as [fsize|e]; [|done].
  destruct Hs as (f' & Hf' & -> & _). rewrite Hf in Hf'. injection Hf' as <-. rewrite as_off_t_small by done.
  destruct (Z.ltb_spec (size_of k f) n) as [Hlt|Hge].
  - rewrite run_act. pose proof (ftruncate_law u n k) as Ht. destruct (ftruncate u n k) as [[[]|e] k']; cbn [fst snd run].
    + destruct Ht as (_ & E1 & E2 & E3 & f' & Hf' & E4). rewrite Hf in Hf'. injection Hf' as <-.
      split_and!; [done..|]. intros g. rewrite E4. case_decide; lia.
    + done.
  - cbn [run]. split_and!; [done..|]. intros g. case_decide; [subst; lia|done].
Qed.

(** A mapping that does not overlap [mp]. *)
Definition apart (mp : Map) (a n : Z) : Prop := map_start mp + map_len mp ≤ a ∨ a + n ≤ map_start mp.

(** [FdMap::map] alone. *)
Lemma run_fd_map m r k f :
  0 ≤ req_len r ≤ isize_max → file_of k (fd (fm_fd m)) = Some f →
  let '(res, k') := run (fd_map m r) k in
  (∀ d, file_of k' d = if decide (owned (fm_fd m) = true ∧ d = fd (fm_fd m)) then None else file_of k d) ∧
  named k' = named k ∧
  match res with
  | Err _ => maps k' = maps k
  | Ok mp =>
    map_len mp = req_len r ∧ map_access mp = req_access r ∧ 0 < req_len r ∧
    maps k' !! map_start mp = Some (map_len mp, f) ∧
    (∀ a n g, maps k !! a = Some (n, g) → 0 < n ∧ (apart mp a n → maps k' !! a = Some (n, g))) ∧
    (Z.land (fm_flags m) MAP_FIXED = 0 →
      maps k' = <[map_start mp := (map_len mp, f)]> (maps k) ∧ ∀ a n g, maps k !! a = Some (n, g) → apart mp a n) ∧
    ∀ g, size_of k' g = if decide (g = f) then Z.max (req_len r) (size_of k f) else size_of k g
  end.
Proof.
  intros Hn Hf. unfold fd_map. rewrite run_bind. pose proof (run_grow_to (fd (fm_fd m)) _ k f Hn Hf) as Hg.
  destruct (run (grow_to _ _) k) as [[[]|e] k1].
  2: { subst k1. cbn [bind]. rewrite run_bind. destruct (run_drop_unix (fm_fd m) k) as (E1 & E2 & E3 & E4).
       destruct (run (drop_unix (fm_fd m)) k). cbn in *. by split_and!. }
  destruct Hg as (G1 & G2 & G3 & G4). change (nonzero (req_len r)) with (if req_len r =? 0 then None else Some (req_len r)).
  destruct (Z.eqb_spec (req_len r) 0) as [E0|Hnz].
  { cbn [bind]. rewrite run_bind. destruct (run_drop_unix (fm_fd m) k1) as (E1 & E2 & E3 & E4).
    destruct (run (drop_unix (fm_fd m)) k1). cbn in *. rewrite G1 in E4. split_and!; [done|congruence|congruence]. }
  cbn [bind]. rewrite run_act. pose proof (mmap_law (fm_start m ≫= nonzero) (req_len r) (prot_of (req_access r)) (fm_flags m) (fd (fm_fd m)) 0 k1) as Hm.
  destruct (mmap _ _ _ _ _ _ k1) as [[a|e] k2]; cbn [fst snd bind]; rewrite run_bind.
  - destruct Hm as (M1 & M2 & M3 & f' & Hf' & _ & M4 & M5 & M6). rewrite G1, Hf in Hf'. injection Hf' as <-.
    destruct (run_drop_unix (fm_fd m) k2) as (E1 & E2 & E3 & E4). destruct (run (drop_unix (fm_fd m)) k2) as [[] k3]. cbn in *.
    rewrite G3 in M6, M5. split_and!; [by rewrite M1, G1 in E4|congruence|done|done|lia|congruence| | |].
    + intros a' n g Hl. destruct (M5 _ _ _ Hl) as [Hp Hk]. split; [done|]. rewrite E3. exact Hk.
    + intros Hx. rewrite E3. exact (M6 Hx).
    + intros g. by rewrite E2, M3, G4.
  - subst k2. destruct (run_drop_unix (fm_fd m) k1) as (E1 & E2 & E3 & E4). destruct (run (drop_unix (fm_fd m)) k1). cbn in *.
    rewrite G1 in E4. split_and!; [done|congruence|congruence].
Qed.

Lemma run_release_map a n f k : maps k !! a = Some (n, f) →
  (run (release_map a n) k).1 = true ∧ maps (run (release_map a n) k).2 = delete a (maps k).
Proof. intros Hl. unfold release_map. rewrite run_act. destruct (munmap_law a n f k Hl) as (k' & -> & E & _). done. Qed.

(** An object that cannot be given its size stays behind: [shm_create] reports
    the error and closes the file, but its name remains, so that creating it
    again fails. *)
Theorem shm_create_leaves_name name size k :
  isize_max < size ≤ usize_max →
  let path := (run (shm_path name) k).1 in
  is_ok (open_file path CreateExclusive k).1 = true →
  let '(r, k') := run (shm_create name size) k in
  is_ok r = false ∧ named k path = None ∧ named k' path ≠ None ∧
  ((run (shm_path name) k').1 = path → ∀ size', is_ok (run (shm_create name size') k').1 = false).
Proof.
  intros Hs path Hopen.
  assert (Hpath : ∀ k', (run (shm_path name) k').2 = k') by (intros k'; unfold shm_path; rewrite run_act; apply exists_keeps).
  assert (Hcreate : ∀ sz k', run (shm_create name sz) k' = run (act opened <- open_file (run (shm_path name) k').1 CreateExclusive;
      match opened with Err e => Ret (Err e) | Ok file => sized file sz Shm end) k').
  { intros sz k'. unfold shm_create. rewrite run_bind. specialize (Hpath k'). destruct (run (shm_path name) k') as [p k1]. by cbn in *; subst k1. }
  rewrite Hcreate. fold path. rewrite run_act. pose proof (open_law path CreateExclusive k) as Ho.
  destruct (open_file path CreateExclusive k) as [[file|e] k1]; [|done]. cbn [fst snd] in *.
  destruct Ho as (_ & _ & f & _ & Hnone & _ & _ & Hnamed & _).
  unfold sized. rewrite run_act. pose proof (ftruncate_law file (as_off_t size) k1) as Ht.
  assert (Hneg : as_off_t size < 0).
  { unfold as_off_t. destruct (Z.leb_spec size isize_max); [lia|]. unfold usize_max in Hs. lia. }
  destruct (ftruncate file (as_off_t size) k1) as [[[]|e] k2]; [destruct Ht; lia|]. subst k2. cbn [fst snd]. rewrite run_act. cbn [run].
  destruct (close_law file k1) as (E1 & _). assert (Hat : named (close file k1).2 path = Some f) by (by rewrite E1, Hnamed, decide_True).
  split_and!; [done|done|by rewrite Hat|]. intros Ep sz. rewrite Hcreate, Ep, run_act.
  pose proof (open_law path CreateExclusive (close file k1).2) as Ho'.
  destruct (open_file path CreateExclusive (close file k1).2) as [[file'|e'] k3]; [|done].
  destruct Ho' as (_ & _ & f' & _ & Hn' & _). by rewrite Hat in Hn'.
Qed.
End Laws.

(** ** A small system *)

(** Descriptors and lengths of files, names, and mappings. *)
Record fs := mkFs { fs_fds : gmap Z Z; fs_sizes : gmap Z Z; fs_names : list (string * Z); fs_maps : gmap Z (Z * Z) }.

Definition fs_named (k : fs) (p : string) : option Z := snd <$> find (λ x, bool_decide (x.1 = p)) (fs_names k).
Definition fs_size (k : fs) (f : Z) : Z := default 0 (fs_sizes k !! f).

Definition new_fd (k : fs) : Z := fresh (dom (fs_fds k) : gset Z).
Definition new_file (k : fs) : Z := fresh (list_to_set (C := gset Z) ((snd <$> map_to_list (fs_fds k)) ++ (snd <$> fs_names k))).

Definition fs_create (names : Z → list (string * Z)) (k : fs) : result Z Z * fs :=
  let d := new_fd k in
  let f := new_file k in
  (Ok d, mkFs (<[d := f]> (fs_fds k)) (<[f := 0]> (fs_sizes k)) (names f) (fs_maps k)).

Definition fs_open (d f : Z) (k : fs) : fs := mkFs (<[d := f]> (fs_fds k)) (fs_sizes k) (fs_names k) (fs_maps k).

(** Behind every mapping. *)
Definition free_at (m : gmap Z (Z * Z)) : Z := foldr (λ '(a, (n, _)) acc, Z.max acc (a + n)) 4096 (map_to_list m).

#[export] Instance fs_ops : FileOps fs := {
  path_exists p k := (bool_decide (p = "/dev/shm"), k);
  memfd_create _ _ k := fs_create (λ _, fs_names k) k;
  open_file p o k :=
    match o, fs_named k p with
    | ReadWrite, None => (Err 2, k)
    | ReadWrite, Some f => (Ok (new_fd k), fs_open (new_fd k) f k)
    | CreateExclusive, Some _ => (Err 17, k)
    | CreateExclusive, None => fs_create (λ f, (p, f) :: fs_names k) k
    end;
  unlink p k :=
    if bool_decide (fs_named k p = None) then (Err 2, k)
    else (Ok tt, mkFs (fs_fds k) (fs_sizes k) (filter (λ x, x.1 ≠ p) (fs_names k)) (fs_maps k));
  fstat d k :=
    match fs_fds k !! d with
    | None => (Err 9, k)
    | Some f => if (0 <=? fs_size k f) && (fs_size k f <=? isize_max) then (Ok (fs_size k f), k) else (Err 75, k)
    end;
  ftruncate d n k :=
    match fs_fds k !! d with
    | None => (Err 9, k)
    | Some f => if n <? 0 then (Err EINVAL, k)
                else (Ok tt, mkFs (fs_fds k) (<[f := n]> (fs_sizes k)) (fs_names k) (fs_maps k))
    end;
  dup d k :=
    match fs_fds k !! d with
    | None => (Err 9, k)
    | Some f => (Ok (new_fd k), fs_open (new_fd k) f k)
    end;
  mmap start n _ flags d _ k :=
    match fs_fds k !! d with
    | None => (Err 9, k)
    | Some f =>
      if (n <=? 0) || negb (bool_decide (map_Forall (λ _ x, 0 < x.1) (fs_maps k))) then (Err EINVAL, k)
      else if negb (Z.land flags MAP_FIXED =? 0) then
        let a := default 0 start in
        (Ok a, mkFs (fs_fds k) (fs_sizes k) (fs_names k) (<[a := (n, f)]> (filter (λ x, a + n ≤ x.1 ∨ x.1 + x.2.1 ≤ a) (fs_maps k))))
      else (Ok (free_at (fs_maps k)), mkFs (fs_fds k) (fs_sizes k) (fs_names k) (<[free_at (fs_maps k) := (n, f)]> (fs_maps k)))
    end;
  munmap a n k :=
    match fs_maps k !! a with
    | Some (n', _) => if n =? n' then (Ok tt, mkFs (fs_fds k) (fs_sizes k) (fs_names k) (delete a (fs_maps k))) else (Err EINVAL, k)
    | None => (Err EINVAL, k)
    end;
  close d k := (tt, mkFs (delete d (fs_fds k)) (fs_sizes k) (fs_names k) (fs_maps k));
}.

Lemma new_fd_closed k : fs_fds k !! new_fd k = None.
Proof. apply (not_elem_of_dom (D := gset Z)). exact (is_fresh (dom (fs_fds k) : gset Z)). Qed.

Lemma new_file_unused k : (∀ d, fs_fds k !! d ≠ Some (new_file k)) ∧ ∀ p, fs_named k p ≠ Some (new_file k).
Proof.
  pose proof (is_fresh (list_to_set (C := gset Z) ((snd <$> map_to_list (fs_fds k)) ++ (snd <$> fs_names k)))) as Hf.
  fold (new_file k) in Hf. rewrite elem_of_list_to_set, elem_of_app in Hf. split.
  - intros d Hd. apply Hf. left. apply list_elem_of_fmap. exists (d, new_file k). split; [done|]. by apply elem_of_map_to_list.
  - intros p Hp. apply Hf. right. unfold fs_named in Hp. destruct (find _ _) as [x|] eqn:E; [|done]. injection Hp as <-.
    apply find_some in E as [E _]. apply list_elem_of_In in E. by apply list_elem_of_fmap_2.
Qed.

Lemma fs_size_insert k f n g : default 0 (<[f := n]> (fs_sizes k) !! g) = if decide (g = f) then n else fs_size k g.
Proof. rewrite lookup_insert. unfold fs_size. repeat case_decide; naive_solver. Qed.

Lemma free_at_behind m a n f : m !! a = Some (n, f) → a + n ≤ free_at m.
Proof.
  intros Hl%elem_of_map_to_list. unfold free_at. induction (map_to_list m) as [|[a' [n' f']] l IH]; [by apply not_elem_of_nil in Hl|].
  cbn [foldr]. apply elem_of_cons in Hl as [[= <- <- <-]|Hl]; [lia|]. specialize (IH Hl). lia.
Qed.

#[export, refine] Instance fs_laws : FileLaws fs := {
  file_of k d := fs_fds k !! d;
  size_of := fs_size;
  named := fs_named;
  maps := fs_maps;
}.
Proof.
  - done.
  - intros name sealing k. cbn. split_and!; [apply new_fd_closed|done|done|]. exists (new_file k). destruct (new_file_unused k) as [Hn _].
    split_and!; [unfold fs_size; cbn; by rewrite lookup_insert_eq|done| |].
    + intros d. rewrite lookup_insert. repeat case_decide; naive_solver.
    + intros g Hg. unfold fs_size at 1. cbn. rewrite fs_size_insert. by rewrite decide_False.
  - intros p o k. cbn. destruct o, (fs_named k p) as [f|] eqn:Hp; try done; cbn.
    + destruct (new_file_unused k) as [Hn _]. split_and!; [apply new_fd_closed|done|]. exists (new_file k). split_and!; [|done| |done| |].
      * intros d. rewrite lookup_insert. repeat case_decide; naive_solver.
      * unfold fs_size. cbn. by rewrite lookup_insert_eq.
      * intros q. unfold fs_named. cbn. repeat case_decide; try case_bool_decide; naive_solver.
      * intros g Hg. unfold fs_size at 1. cbn. rewrite fs_size_insert. by rewrite decide_False.
    + split_and!; [apply new_fd_closed|done|]. exists f. split_and!; [|done|done|done].
      intros d. rewrite lookup_insert. repeat case_decide; naive_solver.
  - intros d k. cbn. destruct (fs_fds k !! d) as [f|]; [|done]. destruct (Z.leb_spec 0 (fs_size k f)), (Z.leb_spec (fs_size k f) isize_max); cbn; try done.
    split; [done|]. by exists f.
  - intros d n k. cbn. destruct (fs_fds k !! d) as [f|] eqn:Hd; [|done]. destruct (Z.ltb_spec n 0); [done|]. split_and!; try done.
    exists f. split; [done|]. intros g. unfold fs_size at 1. cbn. apply fs_size_insert.
  - intros d k. cbn. destruct (fs_fds k !! d) as [f|] eqn:Hd; [|done]. split_and!; try done; [apply new_fd_closed|].
    intros d'. cbn. rewrite lookup_insert. repeat case_decide; naive_solver.
  - intros start n prot flags d off k. cbn. destruct (fs_fds k !! d) as [f|] eqn:Hd; [|done].
    destruct (Z.leb_spec n 0); [done|]. cbn [orb]. case_bool_decide as Hall; cbn [negb]; [|done].
    destruct (Z.land flags MAP_FIXED =? 0) eqn:Hfix; cbn [negb]; (split_and!; [done|done|done|]).
    2: { exists f. split_and!; [done|done|cbn; by rewrite lookup_insert_eq| |intros E; by rewrite E in Hfix].
      intros a' n' f' Hl. pose proof (Hall _ _ Hl) as Hp. cbn in Hp. split; [done|]. intros Ha. cbn. rewrite lookup_insert_ne by lia. by apply map_lookup_filter_Some. }
    + exists f. assert (Hap : ∀ a' n' f', fs_maps k !! a' = Some (n', f') → 0 < n' ∧ a' + n' ≤ free_at (fs_maps k)).
      { intros a' n' f' Hl. pose proof (Hall _ _ Hl) as Hp. split; [exact Hp|]. exact (free_at_behind _ _ _ _ Hl). }
      split_and!; [done|done|cbn; by rewrite lookup_insert_eq| |].
      * intros a' n' f' Hl. destruct (Hap _ _ _ Hl). split; [done|]. intros _. cbn. by rewrite lookup_insert_ne by lia.
      * intros _. split; [done|]. intros a' n' f' Hl. right. by apply (Hap _ _ _ Hl).
  - intros a n f k Hl. cbn in *. rewrite Hl, Z.eqb_refl. eexists. split; [done|]. done.
  - intros d k. cbn. split_and!; [done..|]. intros d'. destruct (decide (d' = d)) as [->|]; [by rewrite lookup_delete_eq|by rewrite lookup_delete_ne].
Defined.
