(* ===== verification/MapConc.v ===== *)
(** * Mappings that stay backed

    Participants map one file, each with the length it wants; [FdMap::map] grows
    the file first when it is too short.  A mapping is usable as long as the
    file is at least as long. *)

From Stdlib Require Import String.
From S2P Require Import Prelude Atomic Alloc Schema Header Mem MapUnix.

#[local] Open Scope Z_scope.

(** A participant that maps: what it maps, its request, and the file behind its
    descriptor. *)
Record mapper := mkMapper { mp_map : FdMap; mp_request : Request; mp_file : Z }.

Section Mappers.
Context {K : Type} `{FL : FileLaws K}.
Context (k0 : K) (cap : Z → Z) (ms : list mapper).

Definition mp_fd (m : mapper) : Z := fd (fm_fd (mp_map m)).

(** Each participant has a descriptor of its own.  Those whose request does not
    fit a file as it is at first all ask for one length [cap] of it. *)
Record mappers_ok : Prop := {
  ok_open m : m ∈ ms → file_of k0 (mp_fd m) = Some (mp_file m);
  ok_apart : NoDup (mp_fd <$> ms);
  ok_len m : m ∈ ms → 0 ≤ req_len (mp_request m) ≤ isize_max;
  ok_cap f : size_of k0 f ≤ cap f;
  ok_fits m : m ∈ ms → req_len (mp_request m) ≤ size_of k0 (mp_file m) ∨ req_len (mp_request m) = cap (mp_file m);
}.

Context (Hok : mappers_ok).

(** A file has its first length or the one it is grown to. *)
Definition minv (g : K) (s : K) : Prop :=
  s = g ∧ ∀ f, size_of g f = size_of k0 f ∨ size_of g f = cap f.

(** A participant closes no descriptor but its own, and only grows files. *)
Definition mguar (t : nat) (g g' : K) : Prop :=
  (∀ d, (∀ m, ms !! t = Some m → mp_fd m ≠ d) → file_of g' d = file_of g d) ∧
  ∀ f, size_of g' f = size_of g f ∨ size_of g' f = cap f.

Definition mrely : nat → K → K → Prop := rely_of mguar.

Lemma mguar_refl t g : mguar t g g.
Proof. split; auto. Qed.

#[local] Abbreviation wp := (wp minv mrely).

(** Lengths that are safe to map. *)
Definition backed (f n : Z) (g : K) : Prop := n ≤ size_of g f.

Lemma backed_stable t m : m ∈ ms → stable mrely t (backed (mp_file m) (req_len (mp_request m))).
Proof.
  intros Hm. apply stable_of. intros t' g g' _ [_ Hs] Hb. unfold backed in *.
  destruct (Hs (mp_file m)) as [-> | ->]; [done|]. destruct (ok_fits Hok m Hm) as [Hf| ->]; [|done].
  pose proof (ok_cap Hok (mp_file m)). lia.
Qed.

Lemma open_stable t m : ms !! t = Some m → stable mrely t (λ g, file_of g (mp_fd m) = Some (mp_file m)).
Proof.
  intros Hm. apply stable_of. intros t' g g' Ht [Hf _] Ho. rewrite Hf; [done|].
  intros m' Hm' E. apply Ht. apply (NoDup_lookup (mp_fd <$> ms) t' t (mp_fd m) (ok_apart Hok)); rewrite list_lookup_fmap; [by rewrite Hm', <- E|by rewrite Hm].
Qed.

Lemma grow_spec t m g : ms !! t = Some m → file_of g (mp_fd m) = Some (mp_file m) →
  wp t (grow_to (mp_fd m) (req_len (mp_request m)))
    (λ r g, file_of g (mp_fd m) = Some (mp_file m) ∧ (is_ok r = true → backed (mp_file m) (req_len (mp_request m)) g)) g.
Proof.
  intros Hm Ho. assert (Hin : m ∈ ms) by (by eapply list_elem_of_lookup_2). unfold grow_to.
  eapply (wp_act _ _ (λ g, file_of g (mp_fd m) = Some (mp_file m))); [done|by apply open_stable|].
  clear g Ho. intros g s Ho [-> Hs]. destruct (fstat_law (mp_fd m) g) as [Ek Hst]. exists g.
  rewrite Ek. split_and!; [done|apply mguar_refl|]. destruct (fstat (mp_fd m) g).1 as [n|e]; [|apply wp_ret; split; [done|done]].
  destruct Hst as (f & Hf & -> & _). rewrite Ho in Hf. injection Hf as <-. rewrite as_off_t_small by (by apply (ok_len Hok)).
  destruct (Z.ltb_spec (size_of g (mp_file m)) (req_len (mp_request m))) as [Hlt|Hge]; [|apply wp_ret; split; [done|by intros _; unfold backed; lia]].
  assert (Ecap : req_len (mp_request m) = cap (mp_file m)).
  { destruct (ok_fits Hok m Hin) as [Hf|]; [|done]. pose proof (ok_cap Hok (mp_file m)). destruct (Hs (mp_file m)); lia. }
  eapply (wp_act _ _ (λ g, file_of g (mp_fd m) = Some (mp_file m))); [done|by apply open_stable|].
  clear g Hs Ho Ek Hlt. intros g s' Ho [-> Hs]. pose proof (ftruncate_law (mp_fd m) (req_len (mp_request m)) g) as Ht.
  destruct (ftruncate _ _ g) as [[[]|e] k']; cbn [fst snd].
  - destruct Ht as (_ & E1 & _ & _ & f & Hf & E2). rewrite Ho in Hf. injection Hf as <-. exists k'.
    assert (Hsz : ∀ f, size_of k' f = size_of g f ∨ size_of k' f = cap f).
    { intros f. rewrite E2. case_decide; [subst; by right|by left]. }
    split_and!; [split; [done|]|split; [by rewrite E1|done]|apply wp_ret].
    + intros f. destruct (Hsz f) as [-> | ->]; [done|by right].
    + rewrite E1. split; [done|]. intros _. unfold backed. rewrite E2, decide_True by done. lia.
  - subst k'. exists g. split_and!; [done|apply mguar_refl|apply wp_ret]. by split.
Qed.

Lemma unix_drop_spec t m g (r : result Map Z) (P : K → Prop) : ms !! t = Some m → stable mrely t P → (∀ g g', P g → size_of g' = size_of g → P g') → P g →
  wp t (do _ <- drop_unix (fm_fd (mp_map m)); Ret r) (λ r' g, r' = r ∧ P g) g.
Proof.
  intros Hm HP Hsz HPg. unfold drop_unix. destruct (owned _); [|by apply wp_ret]. cbn [bind].
  eapply (wp_act _ _ P); [done|done|]. clear g HPg. intros g s HPg [-> Hs]. destruct (close_law (fd (fm_fd (mp_map m))) g) as (_ & E1 & _ & E2).
  eexists. split_and!; [split; [done|by rewrite E1]|split|apply wp_ret; split; [done|by eapply Hsz]].
  - intros d Hd. rewrite E2, decide_False; [done|]. intros ->. by apply (Hd m Hm).
  - intros f. rewrite E1. by left.
Qed.

(** What a participant has when it is done. *)
Definition mdone (t : nat) (r : result Map Z) (g : K) : Prop :=
  ∀ m mp, ms !! t = Some m → r = Ok mp →
    map_len mp = req_len (mp_request m) ∧ map_access mp = req_access (mp_request m) ∧ backed (mp_file m) (map_len mp) g.

Lemma map_spec t m g : ms !! t = Some m → file_of g (mp_fd m) = Some (mp_file m) →
  wp t (fd_map (mp_map m) (mp_request m)) (mdone t) g.
Proof.
  intros Hm Ho. assert (Hin : m ∈ ms) by (by eapply list_elem_of_lookup_2). unfold fd_map. eapply wp_seq; [by apply grow_spec|].
  clear g Ho. intros gr g [Ho Hb]. set (q := mp_request m) in *.
  eapply (wp_seq _ _ _ _ _ (λ r g, ∀ mp, r = Ok mp → mp = mkMap (map_start mp) (req_len q) (req_access q) ∧ backed (mp_file m) (req_len q) g)).
  - destruct gr as [[]|e]; [|by apply wp_ret]. unfold nonzero at 1. destruct (Z.eqb_spec (req_len q) 0); [by apply wp_ret|].
    eapply (wp_act _ _ (backed (mp_file m) (req_len q))); [by apply Hb|by apply backed_stable|].
    clear g Ho Hb. intros g s Hb [-> Hs].
    match goal with |- context [mmap ?a ?b ?c ?d ?e ?f g] => pose proof (mmap_law a b c d e f g) as Hl; destruct (mmap a b c d e f g) as [[a0|e0] k'] end; cbn [fst snd].
    + destruct Hl as (E1 & _ & E2 & _). exists k'. split_and!; [split; [done|by rewrite E2]|split; [by rewrite E1|intros f; rewrite E2; by left]|].
      apply wp_ret. intros mp [= <-]. split; [done|]. unfold backed. by rewrite E2.
    + subst k'. exists g. split_and!; [done|apply mguar_refl|]. by apply wp_ret.
  - clear g Ho Hb. intros r g Hr. destruct r as [mp|e].
    + destruct (Hr mp eq_refl) as [Emp Hb]. eapply wp_mono; [|apply (unix_drop_spec t m g (Ok mp) (backed (mp_file m) (req_len q))); [done|by apply backed_stable| |done]].
      * intros r g' [-> Hb'] m' mp' Hm' [= <-]. rewrite Hm in Hm'. injection Hm' as <-. rewrite Emp. done.
      * intros g1 g2 Hb1 E. unfold backed in *. by rewrite E.
    + eapply wp_mono; [|apply (unix_drop_spec t m g (Err e) (λ _, True)); done]. by intros r g' [-> _] m' mp' _ [=].
Qed.

Lemma mdone_stable t r : stable mrely t (mdone t r).
Proof.
  intros g g' HR Hd m mp Hm ->. destruct (Hd m mp Hm eq_refl) as (E1 & E2 & Hb). split_and!; [done|done|].
  rewrite E1 in *. eapply backed_stable; [by eapply list_elem_of_lookup_2|exact HR|done].
Qed.
End Mappers.

(** C33: participants that map files with [FdMap::map], interleaved at every
    system call.  When all that must grow a file ask for the same length of it,
    a mapping that was returned has the length and access asked for, and its
    whole extent lies in the file at every later moment. *)
Theorem mappings_stay_backed {K} `{FL : FileLaws K} (k0 : K) cap ms k ps :
  mappers_ok k0 cap ms →
  creach (k0, (λ m, fd_map (mp_map m) (mp_request m)) <$> ms) (k, ps) →
  ∀ t m mp, ms !! t = Some m → ps !! t = Some (Ret (Ok mp)) →
    map_len mp = req_len (mp_request m) ∧ map_access mp = req_access (mp_request m) ∧
    map_len mp ≤ size_of k (mp_file m).
Proof.
  intros Hok Hr t m mp Hm Ht.
  eapply (rg_sound (minv k0 cap) (mrely cap ms)) with (Q := mdone ms) in Hr as (g & [[Eg _] Hwp] & _).
  - cbn in Eg. subst g. exact (Hwp _ _ Ht m mp Hm eq_refl).
  - apply rely_of_refl.
  - apply rely_of_trans.
  - intros t' r. by eapply mdone_stable.
  - split; [split; [done|by left]|]. intros t' p Hp. cbn in Hp. rewrite list_lookup_fmap in Hp. destruct (ms !! t') as [m'|] eqn:Hm'; [|done]. injection Hp as <-.
    eapply map_spec; [done|done|]. apply (ok_open _ _ _ Hok). by eapply list_elem_of_lookup_2.
Qed.

(** Two participants with descriptors of one empty file. *)
Definition race_start : fs := mkFs {[3 := 7; 4 := 7]} {[7 := 0]} [] ∅.
Definition race_mapper (d n : Z) : mapper := mkMapper (mapping (mkUnixFd d true 0 FromFd)) (mkRequest n (Z.lor READ WRITE)) 7.
Definition race_cfg (n n' : Z) : cfg fs (result Map Z) :=
  (race_start, (λ m, fd_map (mp_map m) (mp_request m)) <$> [race_mapper 3 n; race_mapper 4 n']).

(** One looks at the empty file; the other grows it and maps all of it; the
    first then sets it to its own, shorter, length. *)
Definition race_schedule : list nat := [0; 1; 1; 1; 1; 0; 0; 0]%nat.

Lemma mappings_stay_backed_witness :
  let c := sched race_schedule (race_cfg 8192 8192) in
  c.2 = [Ret (Ok (mkMap 12288 8192 3)); Ret (Ok (mkMap 4096 8192 3))] ∧
  8192 ≤ size_of c.1 7.
Proof.
  intros c. assert (E : c.2 = [Ret (Ok (mkMap 12288 8192 3)); Ret (Ok (mkMap 4096 8192 3))]) by (vm_compute; reflexivity).
  split; [exact E|]. pose proof (sched_reach race_schedule (race_cfg 8192 8192)) as Hr. fold c in Hr.
  destruct c as [k ps]. cbn [fst snd] in *.
  assert (Hok : mappers_ok race_start (λ f, if decide (f = 7) then 8192 else 0) [race_mapper 3 8192; race_mapper 4 8192]).
  { split.
    - intros m [->|[->|[]%not_elem_of_nil]%elem_of_cons]%elem_of_cons; reflexivity.
    - by_eval.
    - intros m [->|[->|[]%not_elem_of_nil]%elem_of_cons]%elem_of_cons; by_eval.
    - intros f. cbn. unfold fs_size. cbn. destruct (decide (f = 7)) as [->|Hne]; [by_eval|]. by rewrite lookup_singleton_ne.
    - intros m [->|[->|[]%not_elem_of_nil]%elem_of_cons]%elem_of_cons; right; reflexivity. }
  exact (proj2 (proj2 (mappings_stay_backed race_start _ _ k ps Hok Hr 1%nat (race_mapper 4 8192) (mkMap 4096 8192 3) eq_refl ltac:(by rewrite E)))).
Defined.

(** Participants that ask for different lengths race: [FdMap::map] reads the
    length and then sets its own, so the longer mapping is returned and the file
    is cut under it. *)
Theorem map_race_cuts :
  ∃ k ps mp, creach (race_cfg 4096 8192) (k, ps) ∧ ps !! 1%nat = Some (Ret (Ok mp)) ∧ map_len mp = 8192 ∧
    maps k !! map_start mp = Some (8192, 7) ∧ size_of k 7 = 4096.
Proof.
  exists (sched race_schedule (race_cfg 4096 8192)).1, (sched race_schedule (race_cfg 4096 8192)).2, (mkMap 4096 8192 3).
  split; [rewrite <- surjective_pairing; apply sched_reach|]. vm_compute. tauto.
Qed.
