(* ===== verification/RegionMap.v ===== *)
(** * The owner of a mapping

    Models [Map] and the life of a [Region] of [src/src/mem.rs] together with the
    mapping it owns: a mapping is released when its region is dropped, or when
    the region cannot be made, and once. *)

From Stdlib Require Import String.
From S2P Require Import Prelude Atomic Alloc Bytes Schema Header HeaderConc RootConc Mem SessionOpen MapUnix.

#[local] Open Scope Z_scope.

(** [Map] with its [release], which is taken when it is called. *)
Record OwnedMap := mkOwnedMap { om_map : Map; om_release : bool }.

(** [Map::from_raw_parts] *)
Definition from_raw_parts (start len access : Z) : OwnedMap := mkOwnedMap (mkMap start len access) true.

(** [Region] with the fields that its end changes. *)
Record RegionOwner := mkRegionOwner { ro_region : Region; ro_map : option OwnedMap; ro_detached : bool }.

Section Owner.
(** [release] is the function a [Source] passes to [from_raw_parts]. *)
Context {K : Type} (release : Z → Z → prog K bool).

(** [Drop for Map] *)
Definition map_drop (m : OwnedMap) : prog K unit :=
  if om_release m then do _ <- release (map_start (om_map m)) (map_len (om_map m)); Ret tt else Ret tt.

(** [Map::close], which drops what is left of the map; [None] is the panic. *)
Definition map_close (m : OwnedMap) : prog K (option bool) :=
  if om_release m then
    do r <- release (map_start (om_map m)) (map_len (om_map m));
    do _ <- map_drop (mkOwnedMap (om_map m) false);
    Ret (Some r)
  else Ret None.

(** [Region::unmap] *)
Definition region_unmap (r : RegionOwner) : prog K (option bool * RegionOwner) :=
  match ro_map r with
  | None => Ret (Some true, r)
  | Some m => do done <- map_close m; Ret (done, mkRegionOwner (ro_region r) None (ro_detached r))
  end.

(** [Region::detach] *)
Definition region_detach (r : RegionOwner) : prog (RcHeader Root) RegionOwner :=
  if ro_detached r then Ret r else
  do _ <- on_inner (Region_detach (ro_region r));
  Ret (mkRegionOwner (ro_region r) (ro_map r) true).

Abbreviation world := (RcHeader Root * K)%type.
Definition on_root {A} (p : prog (RcHeader Root) A) : prog world A := on_part fst (λ h w, (h, w.2)) p.
Definition on_system {A} (p : prog K A) : prog world A := on_part snd (λ k w, (w.1, k)) p.

(** [Drop for Region], and the drop of its fields. *)
Definition region_drop (r : RegionOwner) : prog world (option unit) :=
  do r <- on_root (region_detach r);
  do u <- on_system (region_unmap r);
  match u with
  | (None, _) => Ret None
  | (Some _, r) =>
    do _ <- match ro_map r with None => Ret tt | Some m => on_system (map_drop m) end;
    Ret (Some tt)
  end.

(** [Region::new], which owns the mapping: it is dropped when the region cannot
    be made, also when the admission panics. *)
Definition region_open (m : OwnedMap) (admission : RegionAdmission) : prog world (option (result (RegionOwner * Z) MemError)) :=
  do made <- on_root (region_new (om_map m) admission);
  match made with
  | Some (Ok (rg, offset)) => Ret (Some (Ok (mkRegionOwner rg (Some m) false, offset)))
  | Some (Err e) => do _ <- on_system (map_drop m); Ret (Some (Err e))
  | None => do _ <- on_system (map_drop m); Ret None
  end.

Lemma run_root_part {A} (p : prog (RcHeader Root) A) h k : run (on_root p) (h, k) = ((run p h).1, ((run p h).2, k)).
Proof. unfold on_root. by rewrite run_on_part by (intros; by try match goal with x : world |- _ => destruct x end). Qed.

Lemma run_system_part {A} (p : prog K A) h k : run (on_system p) (h, k) = ((run p k).1, (h, (run p k).2)).
Proof. unfold on_system. by rewrite run_on_part by (intros; by try match goal with x : world |- _ => destruct x end). Qed.

(** A mapping and its release, in what a region does with it. *)
Definition freed (m : Map) (k : K) : K := (run (release (map_start m) (map_len m)) k).2.

Lemma run_map_drop m k : (run (map_drop (mkOwnedMap m true)) k).2 = freed m k.
Proof. unfold map_drop, freed. cbn [om_release om_map]. rewrite run_bind. by destruct (run (release _ _) k). Qed.

(** Opening either keeps the mapping, which the owner then has, or frees it. *)
Lemma run_region_open m admission h k :
  let '(r, (_, k')) := run (region_open (mkOwnedMap m true) admission) (h, k) in
  match r with
  | Some (Ok (o, _)) => k' = k ∧ ro_map o = Some (mkOwnedMap m true) ∧ ro_detached o = false
  | _ => k' = freed m k
  end.
Proof.
  unfold region_open. rewrite run_bind, run_root_part. cbn [om_map]. destruct (run (region_new m admission) h) as [[[[rg off]|e]|] h']; cbn [fst snd].
  - done.
  - rewrite run_bind, run_system_part. cbn [run]. apply run_map_drop.
  - rewrite run_bind, run_system_part. cbn [run]. apply run_map_drop.
Qed.

Lemma run_region_detach o h : ro_detached o = false →
  run (region_detach o) h = (mkRegionOwner (ro_region o) (ro_map o) true, (run (on_inner (Region_detach (ro_region o))) h).2).
Proof. intros Hd. unfold region_detach. rewrite Hd, run_bind. by destruct (run (on_inner _) h). Qed.

Lemma run_region_unmap rg m d k :
  ∃ r, run (region_unmap (mkRegionOwner rg (Some (mkOwnedMap m true)) d)) k = ((Some r, mkRegionOwner rg None d), freed m k).
Proof.
  unfold region_unmap, map_close, freed. cbn [ro_map om_release om_map ro_region ro_detached]. rewrite run_bind, run_bind.
  destruct (run (release _ _) k) as [r k']. by exists r.
Qed.

(** Dropping a region leaves the root and frees the mapping, in this order. *)
Lemma run_region_drop o m h k :
  ro_map o = Some (mkOwnedMap m true) → ro_detached o = false →
  run (region_drop o) (h, k) = (Some tt, ((run (on_inner (Region_detach (ro_region o))) h).2, freed m k)).
Proof.
  intros Hm Hd. unfold region_drop. rewrite run_bind, run_root_part, run_region_detach, Hm by done. cbn [fst snd].
  rewrite run_bind, run_system_part. destruct (run_region_unmap (ro_region o) m true k) as [r ->]. done.
Qed.
End Owner.

(** What is left once the mapping [mp] was released: all but it; the mappings
    that it did not overlap; without [MAP_FIXED] the mappings of before. *)
Definition released {K} `{FL : FileLaws K} (m : FdMap) (mp : Map) (k k1 k' : K) : Prop :=
  maps k' = delete (map_start mp) (maps k1) ∧
  (∀ a n g, maps k !! a = Some (n, g) → apart mp a n → maps k' !! a = Some (n, g)) ∧
  (Z.land (fm_flags m) MAP_FIXED = 0 → maps k' = maps k).


(** [FdMap::at] and [with_flags] are safe to call: with [MAP_FIXED] a mapping that
    another region owns is replaced, and the drop of the new one leaves nothing
    where that region still is. *)
Definition fixed_fs : fs := mkFs {[3 := 7]} {[7 := 4096]} [] {[8192 := (4096, 5)]}.

Theorem fixed_replaces :
  let m := with_flags (map_at (mapping (mkUnixFd 3 true 100 FromFd)) 8192) (Z.lor 1 MAP_FIXED) in
  let '(res, k1) := run (fd_map m (mkRequest 4096 (Z.lor READ WRITE))) fixed_fs in
  maps fixed_fs !! 8192 = Some (4096, 5) ∧ res = Ok (mkMap 8192 4096 3) ∧ maps k1 !! 8192 = Some (4096, 7) ∧
  maps (run (map_drop release_map (mkOwnedMap (mkMap 8192 4096 3) true)) k1).2 = ∅.
Proof. vm_compute. repeat split. Qed.

(** A region made in a new mapping of a file that had to grow, and dropped; and
    one that is asked for where there is none. *)
Definition blank_root : RcHeader Root :=
  mkRcHeader (H := Root_Layout) (mkRecord 0 0 (0, 0, 0) [] [] [] [] []) 0 (mkRegionId 0 0) 0 0 0 0 0 0 0 0 0 tt Root_init.
Definition region_fs : fs := mkFs {[3 := 7]} {[7 := 100]} [] {[4096 := (4096, 5)]}.

