(* ===== verification/MapWindows.v ===== *)
(** * Mappings of sections, on Windows

    Models [src/src/os/windows.rs]: anonymous sections and views of them.  The
    system calls are the class [SectionOps]; what the code relies on of them is
    [SectionLaws]. *)

From Stdlib Require Import String.
From S2P Require Import Prelude Atomic Alloc Bytes Schema Header Mem Process RegionMap.

#[local] Open Scope string_scope.
#[local] Open Scope list_scope.
#[local] Open Scope Z_scope.

(** ** The system *)

Definition PAGE_READONLY : Z := 0x02.
Definition PAGE_READWRITE : Z := 0x04.
Definition PAGE_EXECUTE_READ : Z := 0x20.
Definition PAGE_EXECUTE_READWRITE : Z := 0x40.
Definition FILE_MAP_WRITE : Z := 0x02.
Definition FILE_MAP_READ : Z := 0x04.
Definition FILE_MAP_EXECUTE : Z := 0x20.

(** [CreateFileMappingW] with a protection and the two words of a size,
    [MapViewOfFile], [UnmapViewOfFile], [CloseHandle] and [GetLastError]; a null
    handle and a null view are 0. *)
Class SectionOps (K : Type) := {
  create_section : Z → Z → Z → K → Z * K;
  map_view : Z → Z → Z → Z → Z → K → Z * K;
  unmap_view : Z → K → bool * K;
  close_handle : Z → K → unit * K;
  last_error : K → Z * K;
}.

(** What a view may ask of a section with a protection: reading always, writing
    and executing only when the protection has it. *)
Definition view_allowed (protection access : Z) : bool :=
  (negb (contains access FILE_MAP_WRITE) || (protection =? PAGE_READWRITE) || (protection =? PAGE_EXECUTE_READWRITE)) &&
  (negb (contains access FILE_MAP_EXECUTE) || (protection =? PAGE_EXECUTE_READ) || (protection =? PAGE_EXECUTE_READWRITE)).

(** [section_of] is the size and protection of the section of a handle,
    [views] the views of the process: at an address, a length. *)
Class SectionLaws (K : Type) `{SectionOps K} := {
  section_of : K → Z → option (Z * Z);
  views : K → gmap Z Z;
  create_law p hi lo k : let '(h, k') := create_section p hi lo k in
    views k' = views k ∧
    if h =? 0 then section_of k' = section_of k
    else section_of k h = None ∧ ∀ h', section_of k' h' = if decide (h' = h) then Some (hi * 2 ^ 32 + lo, p) else section_of k h';
  map_law h access hi lo n k : let '(a, k') := map_view h access hi lo n k in
    section_of k' = section_of k ∧
    if a =? 0 then views k' = views k
    else views k' = <[a := n]> (views k) ∧ views k !! a = None ∧
      ∃ size p, section_of k h = Some (size, p) ∧ view_allowed p access = true ∧ hi * 2 ^ 32 + lo + n ≤ size;
  unmap_law a k : is_Some (views k !! a) →
    ∃ k', unmap_view a k = (true, k') ∧ views k' = delete a (views k) ∧ section_of k' = section_of k;
  close_law h k : views (close_handle h k).2 = views k ∧
    ∀ h', section_of (close_handle h k).2 h' = if decide (h' = h) then None else section_of k h';
  error_law k : (last_error k).2 = k;
}.

(** ** The code *)

(** [Section<F>]: [s_owned] says whether [F] is [OwnedHandle]. *)
Record Section_ := mkSection { s_handle : Z; s_owned : bool }.

Section Sections.
Context {K : Type} `{SO : SectionOps K}.

(** The protection of [Section::anonymous]. *)
Definition protection_of (access : Z) : Z :=
  match contains access EXEC, contains access WRITE with
  | true, true => PAGE_EXECUTE_READWRITE
  | true, false => PAGE_EXECUTE_READ
  | false, true => PAGE_READWRITE
  | false, false => PAGE_READONLY
  end.

(** [Section::anonymous] *)
Definition section_anonymous (size access : Z) : prog K (result Section_ io_error) :=
  if (size =? 0) || negb (contains access READ) then
    Ret (Err (InvalidInput "section requires nonzero readable extent"))
  else
  act handle <- create_section (protection_of access) (wrap 32 (Z.shiftr size 32)) (wrap 32 size);
  if handle =? 0 then act e <- last_error; Ret (Err (OsError e))
  else Ret (Ok (mkSection handle true)).

(** [Section::borrow] *)
Definition section_borrow (s : Section_) : Section_ := mkSection (s_handle s) false.

(** The access [Section::map] asks for. *)
Definition view_access (access : Z) : Z :=
  let a := FILE_MAP_READ in
  let a := if contains access WRITE then Z.lor a FILE_MAP_WRITE else a in
  if contains access EXEC then Z.lor a FILE_MAP_EXECUTE else a.

(** The drop of a handle of type [F]. *)
Definition drop_section (s : Section_) : prog K unit :=
  if s_owned s then act_ close_handle (s_handle s); Ret tt else Ret tt.

(** [Source::map] of [Section], which consumes the handle. *)
Definition section_map (s : Section_) (r : Request) : prog K (result Map io_error) :=
  do mapped <-
    if (req_len r =? 0) || negb (contains (req_access r) READ) then
      Ret (Err (InvalidInput "mapping requires nonzero readable extent"))
    else
    act view <- map_view (s_handle s) (view_access (req_access r)) 0 0 (req_len r);
    if view =? 0 then act e <- last_error; Ret (Err (OsError e))
    else Ret (Ok (mkMap view (req_len r) (req_access r)));
  do _ <- drop_section s;
  Ret mapped.

(** The function [release] *)
Definition release_view (start len : Z) : prog K bool := act r <- unmap_view start; Ret r.
End Sections.

(** ** What it does *)

(** The size passed in two words is the size. *)
Lemma size_words n : 0 ≤ n ≤ usize_max → wrap 32 (Z.shiftr n 32) * 2 ^ 32 + wrap 32 n = n.
Proof.
  intros Hn. unfold usize_max in Hn. change usize_bits with 64 in Hn. rewrite Z.shiftr_div_pow2 by lia. unfold wrap.
  rewrite (Z.mod_small (n / 2 ^ 32)).
  - pose proof (Z.div_mod n (2 ^ 32) ltac:(done)). lia.
  - split; [by apply Z.div_pos; lia|]. apply Z.div_lt_upper_bound; [done|]. change (2 ^ 32 * 2 ^ 32) with (2 ^ 64). lia.
Qed.

(** A protection allows exactly what the access it was made for contains. *)
Lemma protection_allows made asked :
  view_allowed (protection_of made) (view_access asked) =
  (negb (contains asked WRITE) || contains made WRITE) && (negb (contains asked EXEC) || contains made EXEC).
Proof. unfold protection_of, view_access. by destruct (contains made WRITE), (contains made EXEC), (contains asked WRITE), (contains asked EXEC). Qed.

Section Laws.
Context {K : Type} `{SL : SectionLaws K}.

Lemma run_drop_section s k : views (run (drop_section s) k).2 = views k.
Proof. unfold drop_section. destruct (s_owned s); [|done]. rewrite run_act. by destruct (close_law (s_handle s) k). Qed.

Lemma run_section_map s r k size p : section_of k (s_handle s) = Some (size, p) →
  match run (section_map s r) k with
  | (Err _, k') => views k' = views k
  | (Ok m, k') =>
    map_len m = req_len r ∧ map_access m = req_access r ∧ contains (req_access r) READ = true ∧
    map_len m ≤ size ∧ view_allowed p (view_access (req_access r)) = true ∧
    views k !! map_start m = None ∧ views k' = <[map_start m := map_len m]> (views k)
  end.
Proof.
  intros Hs. unfold section_map. rewrite run_bind. destruct ((req_len r =? 0) || _) eqn:Eg.
  { cbn [run]. rewrite run_bind. pose proof (run_drop_section s k) as E. by destruct (run (drop_section s) k). }
  apply orb_false_iff in Eg as [_ Er]. apply negb_false_iff in Er. rewrite run_act.
  pose proof (map_law (s_handle s) (view_access (req_access r)) 0 0 (req_len r) k) as Hm.
  destruct (map_view _ _ _ _ _ k) as [a k1]. cbn [fst snd]. destruct Hm as [_ Hm]. destruct (Z.eqb_spec a 0).
  - rewrite run_act. cbn [run]. rewrite error_law, run_bind. pose proof (run_drop_section s k1) as E. destruct (run (drop_section s) k1). cbn in *. congruence.
  - destruct Hm as (E1 & E2 & size' & p' & Hs' & Ha & Hl). rewrite Hs in Hs'. injection Hs' as <- <-. cbn [run]. rewrite run_bind.
    pose proof (run_drop_section s k1) as E. destruct (run (drop_section s) k1). cbn in *. split_and!; try done; congruence.
Qed.

Lemma run_release_view m k : is_Some (views k !! map_start m) → views (freed release_view m k) = delete (map_start m) (views k).
Proof. intros Hl. unfold freed, release_view. rewrite run_act. destruct (unmap_law _ _ Hl) as (k' & -> & E & _). done. Qed.
End Laws.

(** An anonymous section has the size asked for and never more rights than the
    access it was made with; a mapping of it that is returned is new, of the
    length and access asked for, lies within the section and asks for no right
    the section was not made with; a failed mapping leaves no view; and whether
    the region in it is refused, panics, or is made and dropped, the views of
    the process are then those it had before. *)
Theorem section_released {K} `{SL : SectionLaws K} size made (r : Request) (k k1 : K) s :
  0 ≤ size ≤ usize_max → run (section_anonymous size made) k = (Ok s, k1) →
  views k1 = views k ∧ section_of k1 (s_handle s) = Some (size, protection_of made) ∧
  match run (section_map s r) k1 with
  | (Err _, k2) => views k2 = views k
  | (Ok m, k2) =>
    map_len m = req_len r ∧ map_access m = req_access r ∧ map_len m ≤ size ∧
    (contains (map_access m) WRITE = true → contains made WRITE = true) ∧
    (contains (map_access m) EXEC = true → contains made EXEC = true) ∧
    views k2 = <[map_start m := map_len m]> (views k) ∧
    ∀ admission h,
      let '(opened, (h3, k3)) := run (region_open release_view (mkOwnedMap m true) admission) (h, k2) in
      match opened with
      | Some (Ok (o, _)) => k3 = k2 ∧ ∀ h',
          let '(done, (_, k4)) := run (region_drop release_view o) (h', k3) in done = Some tt ∧ views k4 = views k
      | _ => views k3 = views k
      end
  end.
Proof.
  intros Hn Hmade. unfold section_anonymous in Hmade. destruct ((size =? 0) || _); [done|]. rewrite run_act in Hmade.
  pose proof (create_law (protection_of made) (wrap 32 (Z.shiftr size 32)) (wrap 32 size) k) as Hc.
  destruct (create_section _ _ _ k) as [h k0]. cbn [fst snd] in Hmade. destruct Hc as [Ev Hc].
  destruct (Z.eqb_spec h 0); [by rewrite run_act in Hmade|]. injection Hmade as <- <-. cbn [s_handle]. destruct Hc as [_ Hc].
  assert (Hs : section_of k0 h = Some (size, protection_of made)) by (by rewrite Hc, decide_True, size_words).
  split; [done|]. split; [done|]. pose proof (run_section_map (mkSection h true) r k0 size (protection_of made) Hs) as Hm.
  destruct (run (section_map (mkSection h true) r) k0) as [[m|e] k2]; [|congruence].
  destruct Hm as (El & Ea & _ & Hle & Hal & Hnew & Eviews). rewrite protection_allows in Hal. apply andb_true_iff in Hal as [Hw Hx].
  rewrite Ea. split_and!; [done|done|done| | |congruence|].
  - intros E. by rewrite E in Hw.
  - intros E. by rewrite E in Hx.
  - intros admission hd. assert (Hfree : views (freed release_view m k2) = views k).
    { rewrite run_release_view by (rewrite Eviews, lookup_insert_eq; by eexists). by rewrite Eviews, delete_insert_id, Ev by done. }
    pose proof (run_region_open release_view m admission hd k2) as Ho.
    destruct (run (region_open _ _ _) _) as [[[[o off]|e]|] [h3 k3]]; [|by subst k3..]. destruct Ho as (-> & Hom & Hd). split; [done|]. intros h'.
    by rewrite (run_region_drop _ _ m h' k2 Hom Hd).
Qed.

(** ** A small system *)

Record sys := mkSys { sy_sections : gmap Z (Z * Z); sy_views : gmap Z Z }.

(** A number that is not null and not in use. *)
Definition unused {A} (m : gmap Z A) : Z := fresh ({[0]} ∪ dom m : gset Z).

Lemma unused_spec {A} (m : gmap Z A) : unused m ≠ 0 ∧ m !! unused m = None.
Proof.
  assert (Hf : unused m ∉ ({[0]} ∪ dom m : gset Z)) by (unfold unused; apply is_fresh).
  apply not_elem_of_union in Hf as [H0 Hd]. split; [by intros E; apply H0, elem_of_singleton|]. by apply (not_elem_of_dom (D := gset Z)).
Qed.

#[export] Instance sys_ops : SectionOps sys := {
  create_section p hi lo k := let h := unused (sy_sections k) in (h, mkSys (<[h := (hi * 2 ^ 32 + lo, p)]> (sy_sections k)) (sy_views k));
  map_view h access hi lo n k :=
    match sy_sections k !! h with
    | Some (size, p) =>
      if view_allowed p access && (hi * 2 ^ 32 + lo + n <=? size) then
        let a := unused (sy_views k) in (a, mkSys (sy_sections k) (<[a := n]> (sy_views k)))
      else (0, k)
    | None => (0, k)
    end;
  unmap_view a k := if decide (is_Some (sy_views k !! a)) then (true, mkSys (sy_sections k) (delete a (sy_views k))) else (false, k);
  close_handle h k := (tt, mkSys (delete h (sy_sections k)) (sy_views k));
  last_error k := (5, k);
}.

#[export, refine] Instance sys_laws : SectionLaws sys := {
  section_of k h := sy_sections k !! h;
  views := sy_views;
}.
Proof.
  - intros p hi lo k. cbn. split; [done|]. destruct (unused_spec (sy_sections k)) as [H0 Hn]. destruct (Z.eqb_spec (unused (sy_sections k)) 0); [done|].
    split; [done|]. intros h'. rewrite lookup_insert. repeat case_decide; naive_solver.
  - intros h access hi lo n k. cbn. destruct (sy_sections k !! h) as [[size p]|] eqn:Hs; [|done].
    destruct (view_allowed p access) eqn:Ha; cbn [andb]; [|done]. destruct (Z.leb_spec (hi * 2 ^ 32 + lo + n) size); [|done].
    destruct (unused_spec (sy_views k)) as [H0 Hn]. split; [done|]. destruct (Z.eqb_spec (unused (sy_views k)) 0); [done|].
    split_and!; [done|done|]. by exists size, p.
  - intros a k Hs. cbn in *. rewrite decide_True by done. by eexists.
  - intros h k. cbn. split; [done|]. intros h'. destruct (decide (h' = h)) as [->|]; [by rewrite lookup_delete_eq|by rewrite lookup_delete_ne].
  - done.
Defined.

Lemma section_released_witness :
  let k := mkSys ∅ {[9 := 100]} in
  ∃ s k1 m k2, run (section_anonymous (2 ^ 33 + 5) (Z.lor READ WRITE)) k = (Ok s, k1) ∧
    section_of k1 (s_handle s) = Some (2 ^ 33 + 5, PAGE_READWRITE) ∧
    run (section_map (section_borrow s) (mkRequest (2 ^ 33) (Z.lor READ WRITE))) k1 = (Ok m, k2) ∧
    map_len m = 2 ^ 33 ∧ is_ok (run (section_map s (mkRequest 64 (Z.lor READ EXEC))) k1).1 = false ∧
    views (run (section_map s (mkRequest 64 (Z.lor READ EXEC))) k1).2 = views k.
Proof.
  intros k. assert (E : ∃ s k1, run (section_anonymous (2 ^ 33 + 5) (Z.lor READ WRITE)) k = (Ok s, k1)) by (eexists _, _; vm_compute; reflexivity).
  destruct E as (s & k1 & E).
  destruct (section_released (2 ^ 33 + 5) (Z.lor READ WRITE) (mkRequest 64 (Z.lor READ EXEC)) k k1 s ltac:(by_eval) E) as (_ & Hs & Hm).
  exists s, k1. vm_compute in E. injection E as <- <-.
  eexists _, _. split; [vm_compute; reflexivity|]. split; [exact Hs|]. split; [vm_compute; reflexivity|]. split; [reflexivity|].
  split; [vm_compute; reflexivity|]. vm_compute. reflexivity.
Defined.
