(* ===== verification/HandoffBind.v ===== *)
(** * The names of handoffs

    Models how [Handoff::bind] of [src/src/os/unix/handoff.rs] and [Listener::bind]
    of [src/src/os/windows/process.rs] choose the name at which a child is met: the
    process, and a serial number from a counter that the threads of the process
    share.  Names of handoffs never meet, however threads and processes
    interleave. *)

From Stdlib Require Import String Ascii.
From stdpp Require Import strings pretty functions.
From S2P Require Import Prelude Atomic Bytes Process HandoffUnix HandoffWindows MapUnix MapWindows.

#[local] Open Scope string_scope.
#[local] Open Scope list_scope.
#[local] Open Scope Z_scope.

(** ** Names *)

(** A number as [{}] formats it. *)
Definition decimal (n : Z) : string := pretty (Z.to_N n).

(** [Path::join] of a directory and a relative name. *)
Definition dir_join (base name : string) : string :=
  match String.length base with
  | O => name
  | S n => match String.get n base with
           | Some "/"%char => (base +:+ name)
           | _ => (base +:+ "/" +:+ name)
           end
  end.

(** The names of [Handoff::bind] and of [Listener::bind]. *)
Definition socket_name (temp : string) (process serial : Z) : string :=
  dir_join temp ("evering-" +:+ decimal process +:+ "-" +:+ decimal serial +:+ ".sock").

Definition pipe_name (process serial : Z) : string :=
  "\\.\pipe\evering-" +:+ decimal process +:+ "-" +:+ decimal serial.

Definition bytes_of_string (s : string) : list Z := (λ c, Z.of_N (N_of_ascii c)) <$> String.list_ascii_of_string s.

(** ** The code *)

(** The counters [NEXT] of the processes, and the system. *)
Record world K := mkWorld { next : Z → Z; system : K }.
Arguments mkWorld {K}.
Arguments next {K}.
Arguments system {K}.

(** [NEXT.fetch_add(1)] of a process. *)
Definition fetch_add {K} (process : Z) (w : world K) : Z * world K :=
  (next w process, mkWorld (<[process := wrapping_add (next w process) 1]> (next w)) (system w)).

Definition on_system {K B} (f : K → B * K) (w : world K) : B * world K :=
  let '(b, k) := f (system w) in (b, mkWorld (next w) k).

(** [Handoff::bind] on Unix *)
Definition unix_bind {K} `{SocketOps K} (temp : string) (process : Z) : prog (world K) (result string io_error) :=
  act serial <- fetch_add process;
  let address := socket_name temp process serial in
  if utf8 (bytes_of_string address) then
    act_ on_system (remove_file address);
    Ret (Ok address)
  else Ret (Err (InvalidData "")).

(** The drop of a [Handoff] *)
Definition handoff_drop {K} `{SocketOps K} (address : string) : prog K unit := act_ remove_file address; Ret tt.

(** [CreateNamedPipeW] with [FILE_FLAG_FIRST_PIPE_INSTANCE]; [None] is
    [INVALID_HANDLE_VALUE]. *)
Class NamedPipeOps (K : Type) := { create_pipe : string → Z → K → option Z * K }.

(** [Listener::bind]: the handle and the name. *)
Definition listener_bind {K} `{PipeOps K, NamedPipeOps K} (process : Z) : prog (world K) (result (Z * string) io_error) :=
  act serial <- fetch_add process;
  let name := pipe_name process serial in
  act handle <- on_system (create_pipe name MAX_MESSAGE);
  match handle with
  | None => act e <- on_system (λ k, (HandoffWindows.last_error k, k)); Ret (Err (OsError e))
  | Some handle => Ret (Ok (handle, name))
  end.

(** [Handoff::bind] on Windows: the listener and the address *)
Definition win_bind {K} `{PipeOps K, NamedPipeOps K} (process : Z) : prog (world K) (result (Z * string) io_error) :=
  do bound <- listener_bind process;
  match bound with
  | Err e => Ret (Err e)
  | Ok (handle, name) => Ret (Ok (handle, name))
  end.

(** [shared] of both systems *)
Definition unix_shared {K} `{FileOps K} (name : string) (size : Z) : prog K (result UnixFd io_error) :=
  do made <- memfd name size false;
  Ret (match made with Ok u => Ok u | Err e => Err (OsError e) end).

Definition win_shared {K} `{SectionOps K} (size access : Z) : prog K (result Section_ io_error) := section_anonymous size access.

(** ** Names tell processes and serials apart *)

Definition is_digit (c : ascii) : bool := (48 <=? Z.of_N (N_of_ascii c)) && (Z.of_N (N_of_ascii c) <=? 57).

Fixpoint all_digits (s : string) : bool :=
  match s with
  | EmptyString => true
  | String c s => is_digit c && all_digits s
  end.

Lemma pretty_go_digits x s : all_digits s = true → all_digits (pretty_N_go x s) = true.
Proof.
  revert s. induction (N.lt_wf_0 x) as [x _ IH]; intros s Hs. assert (x = 0 ∨ 0 < x)%N as [->|Hx] by lia; [by rewrite pretty_N_go_0|].
  rewrite pretty_N_go_step by done. apply IH; [by apply N.div_lt|]. cbn. rewrite Hs, andb_true_r. unfold pretty_N_char. by repeat case_match.
Qed.

Lemma decimal_digits n : all_digits (decimal n) = true.
Proof. unfold decimal, pretty, pretty_N. case_decide; [done|]. by apply pretty_go_digits. Qed.

Lemma decimal_inj n m : 0 ≤ n → 0 ≤ m → decimal n = decimal m → n = m.
Proof. unfold decimal. intros Hn Hm E. apply (inj (pretty (A := N))) in E. lia. Qed.

(** Digits end at the first other character. *)
Lemma digits_end s1 s2 c r1 r2 : is_digit c = false → all_digits s1 = true → all_digits s2 = true → s1 +:+ String c r1 = s2 +:+ String c r2 → s1 = s2 ∧ r1 = r2.
Proof.
  intros Hc. revert s2. induction s1 as [|a s1 IH]; intros [|b s2] H1 H2 E; cbn in *.
  - by injection E.
  - injection E as <- _. by rewrite Hc in H2.
  - injection E as -> _. by rewrite Hc in H1.
  - apply andb_true_iff in H1 as [_ H1]. apply andb_true_iff in H2 as [_ H2]. injection E as -> E. by destruct (IH s2 H1 H2 E) as [-> ->].
Qed.

Lemma dir_join_inj temp a b : dir_join temp a = dir_join temp b → a = b.
Proof.
  unfold dir_join. destruct (String.length temp); [done|].
  assert (H1 : temp +:+ a = temp +:+ b → a = b) by apply (inj (String.append temp)).
  assert (H2 : temp +:+ "/" +:+ a = temp +:+ "/" +:+ b → a = b).
  { intros E. apply (inj (String.append temp)) in E. by apply (inj (String.append "/")) in E. }
  destruct (String.get n temp) as [[[] [] [] [] [] [] [] []]|]; try exact H1; exact H2.
Qed.

Lemma socket_name_inj temp p s p' s' : 0 ≤ p → 0 ≤ s → 0 ≤ p' → 0 ≤ s' → socket_name temp p s = socket_name temp p' s' → p = p' ∧ s = s'.
Proof.
  intros Hp Hs Hp' Hs' E. apply dir_join_inj in E. apply (inj (String.append "evering-")) in E.
  destruct (digits_end (decimal p) (decimal p') "-" (decimal s +:+ ".sock") (decimal s' +:+ ".sock")) as [E1 E2]; [done|apply decimal_digits|apply decimal_digits|done|].
  destruct (digits_end (decimal s) (decimal s') "." "sock" "sock") as [E3 _]; [done|apply decimal_digits|apply decimal_digits|done|].
  split; by apply decimal_inj.
Qed.

Lemma pipe_name_inj p s p' s' : 0 ≤ p → 0 ≤ s → 0 ≤ p' → 0 ≤ s' → pipe_name p s = pipe_name p' s' → p = p' ∧ s = s'.
Proof.
  intros Hp Hs Hp' Hs' E. apply (inj (String.append "\\.\pipe\evering-")) in E.
  destruct (digits_end (decimal p) (decimal p') "-" (decimal s) (decimal s')) as [E1 E2]; [done|apply decimal_digits|apply decimal_digits|done|].
  split; by apply decimal_inj.
Qed.

(** ** Serial numbers, whoever interleaves *)

Section Serials.
Context {K : Type} (process : nat → Z) (threads : nat).
Hypothesis few_threads : Z.of_nat threads < 2 ^ 64.

(** For each process, the threads in the order in which they took a serial. *)
Abbreviation log := (Z → list nat).

Definition numbered (g : log) (w : world K) : Prop :=
  ∀ p, next w p = Z.of_nat (length (g p)) ∧ NoDup (g p) ∧ Forall (λ t, (t < threads)%nat) (g p).

Definition takes (t : nat) (g g' : log) : Prop :=
  g' = g ∨ (t ∉ g (process t)) ∧ g' = <[process t := g (process t) ++ [t]]> g.

(** [t] has no serial yet, and has the [i]th. *)
Definition waits (t : nat) (g : log) : Prop := t ∉ g (process t).
Definition holds (t i : nat) (g : log) : Prop := g (process t) !! i = Some t.

Lemma waits_stable t : stable (rely_of takes) t (waits t).
Proof using.
  apply stable_of. intros t' g g' Hne [->|[_ ->]]; [done|]. unfold waits. destruct (decide (process t = process t')) as [E|E].
  - rewrite E, fn_lookup_insert. rewrite not_elem_of_app, list_elem_of_singleton. naive_solver.
  - by rewrite fn_lookup_insert_ne.
Qed.

Lemma serial_stable t i : stable (rely_of takes) t (holds t i).
Proof using.
  apply stable_of. intros t' g g' Hne [->|[_ ->]]; [done|]. unfold holds. destruct (decide (process t = process t')) as [E|E].
  - rewrite E, fn_lookup_insert. intros Hi. by apply lookup_app_l_Some.
  - by rewrite fn_lookup_insert_ne.
Qed.

Lemma log_bound g w p : numbered g w → (length (g p) ≤ threads)%nat.
Proof using.
  intros Hn. destruct (Hn p) as (_ & Hd & Hf). rewrite <- (length_seq threads 0). apply submseteq_length, NoDup_submseteq; [done|].
  intros t Ht. rewrite Forall_forall in Hf. apply elem_of_seq. specialize (Hf t Ht). lia.
Qed.

(** A thread takes the next serial of its process. *)
Lemma wp_fetch {A} t (k : Z → prog (world K) A) Q g : (t < threads)%nat → waits t g →
  (∀ i g', holds t i g' → wp numbered (rely_of takes) t (k (Z.of_nat i)) Q g') → wp numbered (rely_of takes) t (Act (fetch_add (process t)) k) Q g.
Proof using few_threads.
  intros Ht Hw Hk. apply (wp_act numbered takes (waits t)); [done|apply waits_stable|]. intros g1 s Hw1 Hn.
  pose (g2 := <[process t := g1 (process t) ++ [t]]> g1).
  assert (Hn2 : numbered g2 (fetch_add (process t) s).2); [|exists g2; split_and!; [done|by right|]].
  { assert (Hb : ∀ p, NoDup (g2 p) ∧ Forall (λ t, (t < threads)%nat) (g2 p)).
    { intros p. destruct (Hn p) as (_ & Hd & Hf). unfold g2. destruct (decide (process t = p)) as [<-|E]; [|by rewrite fn_lookup_insert_ne].
      rewrite fn_lookup_insert. split; [|by apply Forall_app; split; [|constructor]]. apply NoDup_app. split_and!; [done|intros x Hx ->%list_elem_of_singleton; done|apply NoDup_singleton]. }
    intros p. split; [|apply Hb]. destruct (Hn p) as (Hl & _). unfold fetch_add. cbn [snd next]. unfold g2. destruct (decide (process t = p)) as [<-|E]; [|by rewrite !fn_lookup_insert_ne].
    rewrite !fn_lookup_insert, Hl, length_app. cbn [length]. unfold wrapping_add. rewrite wrap_small; [lia|].
    assert (Hlen : (length (g2 (process t)) ≤ threads)%nat).
    { destruct (Hb (process t)) as [Hd2 Hf2]. rewrite <- (length_seq threads 0). apply submseteq_length, NoDup_submseteq; [done|].
      intros x Hx. rewrite Forall_forall in Hf2. apply elem_of_seq. specialize (Hf2 x Hx). lia. }
    unfold g2 in Hlen. rewrite fn_lookup_insert, length_app in Hlen. cbn [length] in Hlen. unfold is_word. change usize_bits with 64. lia. }
  cbn [fetch_add fst]. destruct (Hn (process t)) as (-> & _). apply Hk. unfold holds, g2. rewrite fn_lookup_insert, lookup_app_r, Nat.sub_diag by done. done.
Qed.

(** What is done to the system moves no counter. *)
Lemma wp_system {A B} t i (f : K → B * K) (k : B → prog (world K) A) Q g : holds t i g →
  (∀ b g', holds t i g' → wp numbered (rely_of takes) t (k b) Q g') → wp numbered (rely_of takes) t (Act (on_system f) k) Q g.
Proof using.
  intros Hh Hk. apply (wp_act numbered takes (holds t i)); [done|apply serial_stable|]. intros g1 s Hh1 Hn. exists g1.
  unfold on_system. destruct (f (system s)) as [b k']. split_and!; [exact Hn|by left|by apply Hk].
Qed.

(** Any program that takes a serial and answers a name made of it. *)
Lemma names_apart {A} (name : Z → Z → string) (named : A → option string) ps w c :
  (∀ p s p' s', 0 ≤ p → 0 ≤ s → 0 ≤ p' → 0 ≤ s' → name p s = name p' s' → p = p' ∧ s = s') →
  (∀ t, 0 ≤ process t) → (∀ p, next w p = 0) → length ps = threads →
  (∀ t p g, ps !! t = Some p → waits t g → wp numbered (rely_of takes) t p (λ a g, ∃ i, holds t i g ∧ ∀ s, named a = Some s → s = name (process t) (Z.of_nat i)) g) →
  creach (w, ps) c → ∀ t t' a a' s s', t ≠ t' → c.2 !! t = Some (Ret a) → c.2 !! t' = Some (Ret a') → named a = Some s → named a' = Some s' → s ≠ s'.
Proof using.
  intros Hinj Hp Hw Hl Hwp Hc t t' a a' s s' Hne Ht Ht' Hs Hs' ->.
  set (Q := λ t (a : A) (g : log), ∃ i, holds t i g ∧ ∀ s, named a = Some s → s = name (process t) (Z.of_nat i)).
  destruct (rg_sound numbered (rely_of takes) (rely_of_refl takes) (rely_of_trans takes) Q (λ _, []) (w, ps) c) as (g & [Hn Hall] & _); [| |done|].
  - intros t0 a0 g g' HR (i & Hi & Hsn). exists i. split; [by eapply serial_stable|done].
  - split; [|intros t0 p Hp0; apply Hwp; [done|apply not_elem_of_nil]]. intros p. split_and!; [apply Hw|constructor|constructor].
  - destruct (Hall t _ Ht) as (i & Hi & E). destruct (Hall t' _ Ht') as (i' & Hi' & E'). pose proof (eq_trans (eq_sym (E _ Hs)) (E' _ Hs')) as En.
    apply Hinj in En as [Ep Ei]; [|apply Hp|lia|apply Hp|lia]. apply Nat2Z.inj in Ei as ->. unfold holds in *. rewrite Ep in Hi. congruence.
Qed.
End Serials.

(** Any number of threads of any number of processes that bind handoffs at
    the same time, interleaved at every access of their counters and of the file
    system, get names that differ, so that no child can answer at the address of
    another: on Unix in one temporary directory, and the pipes of Windows. *)
Theorem handoff_names_apart {K} `{SocketOps K, PipeOps K, NamedPipeOps K} (process : nat → Z) (temp : string) (count : nat) (w : world K) :
  Z.of_nat count < 2 ^ 64 → (∀ t, 0 ≤ process t) → (∀ p, next w p = 0) →
  (∀ c t t' a a', creach (w, (λ t, unix_bind temp (process t)) <$> seq 0 count) c → t ≠ t' →
    c.2 !! t = Some (Ret (Ok a)) → c.2 !! t' = Some (Ret (Ok a')) → a ≠ a') ∧
  (∀ c t t' h h' a a', creach (w, (λ t, win_bind (process t)) <$> seq 0 count) c → t ≠ t' →
    c.2 !! t = Some (Ret (Ok (h, a))) → c.2 !! t' = Some (Ret (Ok (h', a'))) → a ≠ a').
Proof.
  intros Hfew Hp Hw. split.
  - intros c t t' a a' Hc Hne Ht Ht'.
    eapply (names_apart process count (socket_name temp) (λ r : result string io_error, match r with Ok s => Some s | Err _ => None end) ((λ t, unix_bind temp (process t)) <$> seq 0 count) w c); [apply socket_name_inj|done|done|by rewrite length_fmap, length_seq| |exact Hc|exact Hne|exact Ht|exact Ht'|done|done].
    intros t0 p g Ht0 Hg. apply list_lookup_fmap_Some in Ht0 as (i & -> & [-> Hi]%lookup_seq). cbn [Nat.add] in *. apply (wp_fetch process count Hfew); [done|done|]. intros i0 g1 Hh1.
    cbv beta zeta. destruct (utf8 _); [|apply wp_ret; by exists i0]. apply (wp_system process count t0 i0); [done|]. intros _ g2 Hh2. apply wp_ret. exists i0. split; [done|]. by intros s [= <-].
  - intros c t t' h h' a a' Hc Hne Ht Ht'.
    eapply (names_apart process count pipe_name (λ r : result (Z * string) io_error, match r with Ok (_, s) => Some s | Err _ => None end) ((λ t, win_bind (process t)) <$> seq 0 count) w c); [apply pipe_name_inj|done|done|by rewrite length_fmap, length_seq| |exact Hc|exact Hne|exact Ht|exact Ht'|done|done].
    intros t0 p g Ht0 Hg. apply list_lookup_fmap_Some in Ht0 as (i & -> & [-> Hi]%lookup_seq). cbn [Nat.add] in *. apply (wp_fetch process count Hfew); [done|done|]. intros i0 g1 Hh1.
    apply (wp_system process count t0 i0); [done|]. intros [handle|] g2 Hh2.
    + apply wp_ret. exists i0. split; [done|]. by intros s [= <-].
    + apply (wp_system process count t0 i0); [done|]. intros e g3 Hh3. apply wp_ret. by exists i0.
Qed.

(** ** A system that does nothing *)

#[local] Instance idle_socket : SocketOps unit := {|
  sendmsg := λ _ bytes _ k, (Ok (len bytes), k);
  recvmsg := λ _ _ _ k, (Err 11, k);
  set_cloexec := λ _ k, (Ok tt, k);
  close_fd := λ _ k, (tt, k);
  datagram_pair := λ k, (Err (OsError 24), k);
  datagram_bind := λ _ k, (Err (OsError 24), k);
  datagram_unbound := λ k, (Err (OsError 24), k);
  datagram_connect := λ _ _ k, (Ok tt, k);
  fstat_size := λ _ k, (Ok 0, k);
  before_deadline := λ k, (false, k);
  remove_file := λ _ k, (tt, k);
|}.

#[local] Instance idle_pipe : PipeOps unit := {|
  duplicate_handle := λ _ _ _ _ k, (None, k);
  HandoffWindows.close_handle := λ _ k, (tt, k);
  write_file := λ _ _ k, (None, k);
  read_file := λ _ _ k, (None, k);
  connect_pipe := λ _ k, (true, k);
  set_pipe_mode := λ _ k, (true, k);
  client_process_id := λ _ k, (None, k);
  open_pipe := λ _ k, (None, k);
  pipe_before_deadline := λ k, (false, k);
  HandoffWindows.last_error := λ _, 0;
|}.

#[local] Instance idle_named : NamedPipeOps unit := {| create_pipe := λ _ _ k, (Some 7, k) |}.

Definition idle_world : world unit := mkWorld (λ _, 0) tt.

(** Two threads of process 41 and one of process 4, which all have taken their
    serial before any goes on. *)
Definition demo_process (t : nat) : Z := match t with 2%nat => 4 | _ => 41 end.
Definition demo_binds : list (prog (world unit) (result string io_error)) := (λ t, unix_bind "/tmp" (demo_process t)) <$> seq 0 3.
Definition demo_bound := sched [2; 1; 0; 0; 1; 2]%nat (idle_world, demo_binds).

Lemma handoff_names_apart_witness :
  demo_bound.2 !! 0%nat = Some (Ret (Ok "/tmp/evering-41-1.sock")) ∧ demo_bound.2 !! 1%nat = Some (Ret (Ok "/tmp/evering-41-0.sock")) ∧
  demo_bound.2 !! 2%nat = Some (Ret (Ok "/tmp/evering-4-0.sock")) ∧ "/tmp/evering-41-1.sock" ≠ "/tmp/evering-4-0.sock".
Proof.
  assert (E0 : demo_bound.2 !! 0%nat = Some (Ret (Ok "/tmp/evering-41-1.sock"))) by (vm_compute; reflexivity).
  assert (E2 : demo_bound.2 !! 2%nat = Some (Ret (Ok "/tmp/evering-4-0.sock"))) by (vm_compute; reflexivity).
  split; [exact E0|]. split; [vm_compute; reflexivity|]. split; [exact E2|].
  destruct (handoff_names_apart demo_process "/tmp" 3 idle_world) as [Hu _]; [reflexivity|intros [|[|[|]]]; by_eval|reflexivity|].
  apply (Hu demo_bound 0%nat 2%nat); [apply sched_reach|by_eval|exact E0|exact E2].
Defined.
