(* ===== verification/Index.v ===== *)
(** * The index example: files and wire formats

    Models the first half of [src/examples/index.rs], a program on top of the
    library: what a worker computes of a file, and the bytes the coordinator and
    its workers exchange: the bootstrap of a worker, a job and its outcome. *)

From S2P Require Import Prelude Atomic Alloc Bytes Schema Header Mem Heap Dir DirSafe Channel ChannelGeo Process.

(** The messages of the program's errors, other than those of the library. *)
Inductive index_error :=
| BootMismatch | InvalidPoolId | InvalidJobPort | InvalidResultPort
| NotUtf8Path | ShortJob | NotUtf8 | ShortOutcome
| DuplicateOutcome | MissingOutcome | WorkerFailed | LibraryError.

(** ** Indexing a file *)

(** [Index]; the text of an error is its bytes. *)
Record Index := mkIndex { ix_bytes : Z; ix_lines : Z; ix_checksum : Z; ix_error : option (list Z) }.

#[export] Instance Index_eq_dec : EqDecision Index.
Proof. solve_decision. Defined.

(** The body of the loop over the bytes read: the index and the last byte.  The
    sums are taken as in a build without overflow checks. *)
Definition count_byte (s : Index * option Z) (byte : Z) : Index * option Z :=
  let '(index, _) := s in
  (mkIndex (ix_bytes index) (wrapping_add (ix_lines index) (Z.b2z (byte =? 10)))
     (wrapping_mul (Z.lxor (ix_checksum index) byte) 0x100000001b3) (ix_error index), Some byte).

(** Files: [File::open], [read] into a buffer of some length, and the drop. *)
Class ReadOps (K E : Type) := {
  open_path : list Z → K → result Z E * K;
  read_file : Z → nat → K → result (list Z) E * K;
  close_file : Z → K → unit * K;
}.

Section Inspect.
Context {K E : Type} `{RO : ReadOps K E}.

(** The loop of [inspect_inner]; [None] runs out of turns. *)
Fixpoint inspect_loop (fuel : nat) (file : Z) (s : Index * option Z) : prog K (option (result (Index * option Z) E)) :=
  match fuel with
  | O => Ret None
  | S fuel =>
    act r <- read_file file (Z.to_nat (64 * 1024));
    match r with
    | Err e => Ret (Some (Err e))
    | Ok [] => Ret (Some (Ok s))
    | Ok chunk =>
      let index := s.1 in
      let index := mkIndex (wrapping_add (ix_bytes index) (len chunk)) (ix_lines index) (ix_checksum index) (ix_error index) in
      inspect_loop fuel file (fold_left count_byte chunk (index, s.2))
    end
  end.

(** [inspect_inner], which closes the file on every path. *)
Definition inspect_inner (fuel : nat) (path : list Z) : prog K (option (result Index E)) :=
  act opened <- open_path path;
  match opened with
  | Err e => Ret (Some (Err e))
  | Ok file =>
    do r <- inspect_loop fuel file (mkIndex 0 0 0xcbf29ce484222325 None, None);
    act_ close_file file;
    Ret (match r with
         | None => None
         | Some (Err e) => Some (Err e)
         | Some (Ok (index, last)) =>
           let more := match last with Some byte => negb (byte =? 10) | None => false end in
           Some (Ok (mkIndex (ix_bytes index) (wrapping_add (ix_lines index) (Z.b2z more)) (ix_checksum index) (ix_error index)))
         end)
  end.

(** [inspect]; [describe] is the text of an error and the path it is about. *)
Definition inspect (describe : list Z → E → list Z) (fuel : nat) (path : list Z) : prog K (option Index) :=
  do r <- inspect_inner fuel path;
  Ret (match r with
       | None => None
       | Some (Ok index) => Some index
       | Some (Err error) => Some (mkIndex 0 0 0 (Some (describe path error)))
       end).
End Inspect.

(** ** Wire formats *)

Definition EXTENT : Z := 16 * 1024 * 1024.
Definition BOOT_MAGIC : Z := 0x4556494e44580001.

(** [encode_boot]; [None] is the panic of [unwrap]. *)
Definition encode_boot (worker : Z) (pool : Id) (job out : Port) : option Bootstrap :=
  match Bootstrap_new (concat (to_le_bytes 8 <$> [BOOT_MAGIC; worker; EXTENT]) ++ Id_to_bytes pool ++ Port_to_bytes job ++ Port_to_bytes out) with
  | Ok b => Some b
  | Err _ => None
  end.

Definition slice (a b : nat) (bs : list Z) : list Z := take (b - a) (drop a bs).

(** [decode_boot] *)
Definition decode_boot (boot : Bootstrap) (expected : Z) : result (Id * Port * Port) index_error :=
  let bytes := bs_bytes boot in
  let pool := 24%nat in
  let job := (pool + Z.to_nat ID_BYTES)%nat in
  let out := (job + Z.to_nat PORT_BYTES)%nat in
  let read offset := from_le_bytes (slice offset (offset + 8) bytes) in
  if negb (bool_decide (length bytes = (out + Z.to_nat PORT_BYTES)%nat)) || negb (read 0%nat =? BOOT_MAGIC)
     || negb (read 8%nat =? expected) || negb (read 16%nat =? EXTENT)
  then Err BootMismatch else
  let? p := ok_or (Id_from_bytes (slice pool job bytes)) InvalidPoolId in
  let? j := ok_or (Port_from_bytes (slice job out bytes)) InvalidJobPort in
  let? o := ok_or (Port_from_bytes (drop out bytes)) InvalidResultPort in
  Ok (p, j, o).

(** The function [job] *)
Definition job (id : Z) (path : list Z) : result (list Z) index_error :=
  if utf8 path then Ok (to_le_bytes 8 id ++ path) else Err NotUtf8Path.

(** [read_job] *)
Definition read_job (body : list Z) : result (Z * list Z) index_error :=
  if len body <? 8 then Err ShortJob else
  let id := from_le_bytes (take 8 body) in
  let path := drop 8 body in
  if utf8 path then Ok (id, path) else Err NotUtf8.

(** [encode_outcome] *)
Definition encode_outcome (id : Z) (index : Index) : list Z :=
  concat (to_le_bytes 8 <$> [id; ix_bytes index; ix_lines index; ix_checksum index]) ++
  [match ix_error index with Some _ => 1 | None => 0 end] ++ default [] (ix_error index).

(** [read_outcome] *)
Definition read_outcome (body : list Z) : result (Z * Index) index_error :=
  if len body <? 33 then Err ShortOutcome else
  let number offset := from_le_bytes (slice offset (offset + 8) body) in
  let? error := if default 0 (body !! 32%nat) =? 0 then Ok None
                else if utf8 (drop 33 body) then Ok (Some (drop 33 body)) else Err NotUtf8 in
  Ok (number 0%nat, mkIndex (number 8%nat) (number 16%nat) (number 24%nat) error).

(** ** What the index of a file is *)

(** The lines of a text, a last one without its end included. *)
Fixpoint lines_of (bs : list Z) : list (list Z) :=
  match bs with
  | [] => []
  | b :: bs =>
    if b =? 10 then [] :: lines_of bs
    else match lines_of bs with [] => [[b]] | l :: ls => (b :: l) :: ls end
  end.

(** FNV-1a, on 64 bits. *)
Definition fnv1a (bs : list Z) : Z := fold_left (λ h b, wrapping_mul (Z.lxor h b) 0x100000001b3) bs 0xcbf29ce484222325.

Definition index_of (content : list Z) : Index := mkIndex (len content) (len (lines_of content)) (fnv1a content) None.

(** [contents] is what a path names, [remaining] what is still to be read of an
    open file.  A read takes the next bytes, as many as it likes up to the room
    it has, but none only at the end. *)
Class ReadLaws (K E : Type) `{ReadOps K E} := {
  contents : K → list Z → option (list Z);
  remaining : K → Z → option (list Z);
  open_law path k : match open_path path k with
    | (Ok f, k') => is_Some (contents k path) ∧ remaining k' f = contents k path
    | (Err _, _) => True
    end;
  read_law f n k c : remaining k f = Some c → (0 < n)%nat →
    match read_file f n k with
    | (Ok chunk, k') => ∃ rest, c = chunk ++ rest ∧ remaining k' f = Some rest ∧ (length chunk ≤ n)%nat ∧ (chunk = [] → rest = [])
    | (Err _, _) => True
    end;
}.

Definition newlines (bs : list Z) : Z := Z.of_nat (length (filter (λ b, b = 10) bs)).

Lemma newlines_app p q : newlines (p ++ q) = newlines p + newlines q.
Proof. unfold newlines. rewrite filter_app, length_app. lia. Qed.

Lemma newlines_one b : newlines [b] = Z.b2z (b =? 10).
Proof. unfold newlines. destruct (Z.eqb_spec b 10) as [->|Hne]; [done|]. rewrite filter_cons_False by done. done. Qed.

Lemma newlines_bound p : 0 ≤ newlines p ≤ len p.
Proof. unfold newlines, len. pose proof (length_filter (λ b, b = 10) p). lia. Qed.

(** A line ends at a line feed or is the last one. *)
Lemma lines_count bs : len (lines_of bs) = newlines bs + match last bs with Some b => Z.b2z (negb (b =? 10)) | None => 0 end.
Proof.
  induction bs as [|b bs IH]; [done|]. change (b :: bs) with ([b] ++ bs). rewrite newlines_app, newlines_one. cbn [lines_of app].
  destruct bs as [|b' bs]; [cbn; by destruct (b =? 10)|]. rewrite last_cons_cons.
  destruct (b =? 10); [unfold len in *; cbn [length Z.b2z]; lia|].
  assert (Hl : len (match lines_of (b' :: bs) with [] => [[b]] | l :: ls => (b :: l) :: ls end) = len (lines_of (b' :: bs))).
  { unfold len. cbn [lines_of]. destruct (b' =? 10); [done|]. by destruct (lines_of bs). }
  rewrite Hl, IH. cbn [Z.b2z]. lia.
Qed.

Lemma lines_bound bs : (length (lines_of bs) ≤ length bs)%nat.
Proof. induction bs as [|b bs IH]; [done|]. cbn. destruct (b =? 10); [cbn; lia|]. destruct (lines_of bs); cbn in *; lia. Qed.

Section Streams.
(** The index after the bytes [p]. *)
Definition indexed (p : list Z) : Index * option Z := (mkIndex (len p) (newlines p) (fnv1a p) None, last p).

Lemma count_bytes n p chunk : len p + len chunk ≤ n → n < 2 ^ 64 →
  fold_left count_byte chunk (mkIndex n (newlines p) (fnv1a p) None, last p) =
  (mkIndex n (newlines (p ++ chunk)) (fnv1a (p ++ chunk)) None, last (p ++ chunk)).
Proof.
  intros Hn Hw. revert p Hn. induction chunk as [|b chunk IH]; intros p Hn; [by rewrite app_nil_r|].
  cbn [fold_left count_byte ix_bytes ix_lines ix_checksum ix_error].
  assert (E : wrapping_add (newlines p) (Z.b2z (b =? 10)) = newlines (p ++ [b])).
  { rewrite newlines_app, newlines_one. unfold wrapping_add. apply wrap_small. pose proof (newlines_bound p). unfold len in Hn. cbn [length] in Hn.
    unfold is_word, len in *. change usize_bits with 64. destruct (b =? 10); cbn [Z.b2z]; lia. }
  rewrite E. assert (Ef : wrapping_mul (Z.lxor (fnv1a p) b) 0x100000001b3 = fnv1a (p ++ [b])) by (unfold fnv1a; by rewrite fold_left_app).
  rewrite Ef. replace (p ++ b :: chunk) with ((p ++ [b]) ++ chunk) by (by rewrite <- app_assoc). rewrite <- IH.
  - by rewrite last_snoc.
  - unfold len in *. rewrite length_app. cbn [length] in *. lia.
Qed.

Context {K E : Type} `{RL : ReadLaws K E}.

Lemma run_inspect_loop fuel f p rest k : remaining k f = Some rest → (length rest < fuel)%nat → len (p ++ rest) < 2 ^ 64 →
  ∃ r, (run (inspect_loop fuel f (indexed p)) k).1 = Some r ∧ ∀ s, r = Ok s → s = indexed (p ++ rest).
Proof.
  revert p rest k. induction fuel as [|fuel IH]; intros p rest k Hr Hf Hl; [lia|]. cbn [inspect_loop]. rewrite run_act.
  pose proof (read_law f (Z.to_nat (64 * 1024)) k rest Hr ltac:(lia)) as Hread.
  destruct (read_file f _ k) as [[chunk|e] k']; cbn [fst snd]; [|by eexists].
  destruct Hread as (rest' & -> & Hr' & _ & Hend). destruct chunk as [|b chunk].
  - rewrite (Hend eq_refl), app_nil_r. eexists. split; [done|]. by intros s [= <-].
  - remember (b :: chunk) as c. cbn [indexed fst snd ix_bytes ix_lines ix_checksum ix_error].
    assert (Hadd : wrapping_add (len p) (len c) = len (p ++ c)).
    { unfold wrapping_add, len in *. rewrite !length_app in *. rewrite Nat2Z.inj_add. apply wrap_small. unfold is_word. change usize_bits with 64. lia. }
    rewrite Hadd, count_bytes.
    + fold (indexed (p ++ c)). rewrite app_assoc. apply IH; [done| |by rewrite <- app_assoc]. subst c. rewrite length_app in Hf. cbn [length] in Hf. lia.
    + unfold len. rewrite length_app. lia.
    + unfold len in *. rewrite !length_app in *. lia.
Qed.
End Streams.

(** C19: [inspect_inner] reads a file of any content in chunks of any lengths the
    system chooses, comes to an end within one turn per byte and one more, and
    answers an error or the index of the whole content: its length, the number
    of its lines, a last one without its end included, and its FNV-1a hash. *)
Theorem inspect_any_chunks {K E} `{RL : ReadLaws K E} path content (k : K) fuel :
  contents k path = Some content → len content < 2 ^ 64 → (length content < fuel)%nat →
  ∃ r, (run (inspect_inner (E := E) fuel path) k).1 = Some r ∧
    ∀ index, r = Ok index → index = index_of content.
Proof.
  intros Hc Hl Hf. unfold inspect_inner. rewrite run_act. pose proof (open_law path k) as Ho. destruct (open_path path k) as [[f|e] k1]; cbn [fst snd]; [|by eexists].
  destruct Ho as [_ Ho]. rewrite Hc in Ho. rewrite run_bind.
  destruct (run_inspect_loop fuel f [] content k1 Ho Hf Hl) as (r & Er & Hr). change (indexed []) with (mkIndex 0 0 0xcbf29ce484222325 None, @None Z) in Er.
  destruct (run (inspect_loop fuel f _) k1) as [r' k2]. cbn [fst] in Er. subst r'. rewrite run_act. cbn [run fst]. destruct r as [s|e]; [|by eexists].
  rewrite (Hr s eq_refl). cbn [indexed ix_bytes ix_lines ix_checksum ix_error app]. eexists. split; [done|]. intros index [= <-].
  unfold index_of. f_equal. pose proof (lines_count content) as Hlines. pose proof (lines_bound content) as Hb.
  assert (Hmore : Z.b2z match last content with Some byte => negb (byte =? 10) | None => false end =
    match last content with Some b => Z.b2z (negb (b =? 10)) | None => 0 end) by (by destruct (last content)).
  rewrite Hmore, Hlines. unfold wrapping_add. apply wrap_small. rewrite <- Hlines. unfold is_word, len in *. change usize_bits with 64. lia.
Qed.

(** ** Round trips *)

(** Words of eight bytes one after the other. *)
Definition words_le (ws : list Z) : list Z := concat (to_le_bytes 8 <$> ws).

Lemma words_length ws : length (words_le ws) = (8 * length ws)%nat.
Proof. unfold words_le. induction ws as [|w ws IH]; [done|]. cbn [fmap list_fmap concat]. rewrite length_app, length_to_le_bytes, IH. cbn [length]. lia. Qed.

Lemma words_slice ws i w rest : ws !! i = Some w → slice (8 * i) (8 * i + 8) (words_le ws ++ rest) = to_le_bytes 8 w.
Proof.
  unfold slice. replace (8 * i + 8 - 8 * i)%nat with 8%nat by lia. revert i. induction ws as [|v ws IH]; intros i Hi; [done|].
  unfold words_le in *. cbn [fmap list_fmap concat]. rewrite <- app_assoc. destruct i as [|i].
  - injection Hi as ->. apply take_le.
  - replace (8 * S i)%nat with (8 + 8 * i)%nat by lia. rewrite drop_le_add. by apply IH.
Qed.

Lemma words_drop ws n rest : n = (8 * length ws)%nat → drop n (words_le ws ++ rest) = rest.
Proof. intros ->. apply drop_app_length'. by rewrite words_length. Qed.

Lemma slice_take a b n (bs rest : list Z) : drop a bs = rest → (b - a)%nat = n → slice a b bs = take n rest.
Proof. by intros <- <-. Qed.

(** Eight bytes are the word they are read as. *)
Lemma slice_word a bs : Forall is_byte bs → (a + 8 ≤ length bs)%nat → to_le_bytes 8 (from_le_bytes (slice a (a + 8) bs)) = slice a (a + 8) bs.
Proof. intros Hb Ha. apply le_bytes_id; unfold slice; [rewrite length_take, length_drop; lia|by apply Forall_take, Forall_drop]. Qed.

Lemma boot_words : is_word 64 BOOT_MAGIC ∧ is_word 64 EXTENT.
Proof. split; by_eval. Qed.

(** The test and the parts of [decode_boot]. *)
Lemma decode_boot_unfold bs w : decode_boot (mkBootstrap bs) w =
  if negb (bool_decide (length bs = 154%nat)) || negb (from_le_bytes (slice 0 8 bs) =? BOOT_MAGIC)
     || negb (from_le_bytes (slice 8 16 bs) =? w) || negb (from_le_bytes (slice 16 24 bs) =? EXTENT) then Err BootMismatch else
  let? p := ok_or (Id_from_bytes (slice 24 56 bs)) InvalidPoolId in
  let? j := ok_or (Port_from_bytes (slice 56 105 bs)) InvalidJobPort in
  let? o := ok_or (Port_from_bytes (drop 105 bs)) InvalidResultPort in
  Ok (p, j, o).
Proof. reflexivity. Qed.

Lemma boot_read worker pool jb ob : is_word 64 worker → id_wf pool → port_wf jb → port_wf ob →
  ∃ b, encode_boot worker pool jb ob = Some b ∧
    decode_boot b worker = Ok (pool, jb, ob) ∧ ∀ other, other ≠ worker → decode_boot b other = Err BootMismatch.
Proof.
  intros Hw Hp Hj Ho. destruct id_bytes_spec as (Hid & _ & _). destruct boot_words as [Hm He].
  destruct (Hid _ Hp) as [Ep Lp]. destruct (port_to_from _ Hj) as [Ej Lj]. destruct (port_to_from _ Ho) as [Eo Lo].
  unfold encode_boot. fold (words_le [BOOT_MAGIC; worker; EXTENT]). set (rest := Id_to_bytes pool ++ Port_to_bytes jb ++ Port_to_bytes ob).
  set (ws := words_le [BOOT_MAGIC; worker; EXTENT]).
  assert (L : length (ws ++ rest) = 154%nat) by (unfold ws, rest; rewrite !length_app, words_length, Lp, Lj, Lo; done).
  assert (D : drop 24 (ws ++ rest) = rest) by (by apply words_drop).
  assert (D5 : drop 56 (ws ++ rest) = Port_to_bytes jb ++ Port_to_bytes ob).
  { change 56%nat with (24 + 32)%nat. rewrite <- drop_drop, D. unfold rest. by apply drop_app_length'. }
  assert (D6 : drop 105 (ws ++ rest) = Port_to_bytes ob).
  { change 105%nat with (56 + 49)%nat. rewrite <- drop_drop, D5. by apply drop_app_length'. }
  assert (Hdec : ∀ w, decode_boot (mkBootstrap (ws ++ rest)) w = if worker =? w then Ok (pool, jb, ob) else Err BootMismatch).
  { intros w. rewrite decode_boot_unfold, L, D6, (slice_take 24 56 32 _ _ D eq_refl), (slice_take 56 105 49 _ _ D5 eq_refl).
    unfold rest at 4. rewrite !take_app_length' by done.
    rewrite (words_slice [BOOT_MAGIC; worker; EXTENT] 0 BOOT_MAGIC rest eq_refl : slice 0 8 (ws ++ rest) = _),
      (words_slice [BOOT_MAGIC; worker; EXTENT] 1 worker rest eq_refl : slice 8 16 (ws ++ rest) = _),
      (words_slice [BOOT_MAGIC; worker; EXTENT] 2 EXTENT rest eq_refl : slice 16 24 (ws ++ rest) = _), !from_to_le_bytes by done.
    rewrite bool_decide_true, !Z.eqb_refl, Ep, Ej, Eo by done. by destruct (worker =? w). }
  unfold Bootstrap_new, len. rewrite L. eexists. split; [done|]. rewrite Hdec, Z.eqb_refl. split; [done|].
  intros other Hne. rewrite Hdec. by destruct (Z.eqb_spec worker other).
Qed.

Lemma boot_accepted worker bs pool jb ob : Forall is_byte bs →
  decode_boot (mkBootstrap bs) worker = Ok (pool, jb, ob) → encode_boot worker pool jb ob = Some (mkBootstrap bs).
Proof.
  intros Hb. destruct id_bytes_spec as (_ & Hid & _). rewrite decode_boot_unfold. case_bool_decide as L; [|done].
  destruct (Z.eqb_spec (from_le_bytes (slice 0 8 bs)) BOOT_MAGIC) as [E1|]; [|done].
  destruct (Z.eqb_spec (from_le_bytes (slice 8 16 bs)) worker) as [E2|]; [|done]. destruct (Z.eqb_spec (from_le_bytes (slice 16 24 bs)) EXTENT) as [E3|]; [|done]. cbn [negb orb].
  assert (Hs : ∀ a b, Forall is_byte (slice a b bs)) by (intros; unfold slice; by apply Forall_take, Forall_drop).
  destruct (Id_from_bytes (slice 24 56 bs)) as [p|] eqn:Ep; [|done]. cbn [ok_or].
  destruct (Port_from_bytes (slice 56 105 bs)) as [j|] eqn:Ej; [|done]. cbn [ok_or].
  destruct (Port_from_bytes (drop 105 bs)) as [o|] eqn:Eo; [|done]. cbn [ok_or]. intros [= <- <- <-].
  apply Hid in Ep as [Ep _]; [|apply Hs]. apply port_from_to in Ej as [Ej _]; [|apply Hs]. apply port_from_to in Eo as [Eo _]; [|by apply Forall_drop].
  unfold encode_boot. cbn [fmap list_fmap concat]. rewrite Ep, Ej, Eo, <- E1, <- E2, <- E3.
  rewrite (slice_word 0 bs Hb ltac:(lia) : to_le_bytes 8 (from_le_bytes (slice 0 8 bs)) = slice 0 8 bs),
    (slice_word 8 bs Hb ltac:(lia) : to_le_bytes 8 (from_le_bytes (slice 8 16 bs)) = slice 8 16 bs),
    (slice_word 16 bs Hb ltac:(lia) : to_le_bytes 8 (from_le_bytes (slice 16 24 bs)) = slice 16 24 bs), app_nil_r, <- !app_assoc.
  assert (Hj : ∀ a b, (a ≤ b)%nat → slice a b bs ++ drop b bs = drop a bs).
  { intros a b Hab. unfold slice. replace b with (a + (b - a))%nat at 2 by lia. rewrite <- drop_drop. apply take_drop. }
  rewrite !Hj, drop_0 by lia. unfold Bootstrap_new, len. by rewrite L.
Qed.

(** The bootstrap of a worker is read back by that worker and refused by every
    other; and what a worker accepts is the bootstrap of the parts it reads. *)
Theorem boot_roundtrip worker :
  is_word 64 worker →
  (∀ pool jb ob, id_wf pool → port_wf jb → port_wf ob → ∃ b, encode_boot worker pool jb ob = Some b ∧
    decode_boot b worker = Ok (pool, jb, ob) ∧ ∀ other, other ≠ worker → decode_boot b other = Err BootMismatch) ∧
  (∀ bs pool jb ob, Forall is_byte bs → decode_boot (mkBootstrap bs) worker = Ok (pool, jb, ob) →
    encode_boot worker pool jb ob = Some (mkBootstrap bs)).
Proof. intros Hw. split; [intros pool jb ob; by apply boot_read|apply boot_accepted]. Qed.

(** A job is read back as it was. *)
Lemma job_read id path body : is_word 64 id → job id path = Ok body → read_job body = Ok (id, path).
Proof.
  intros Hid. unfold job, read_job. destruct (utf8 path) eqn:Eu; [|done]. intros E. assert (body = to_le_bytes 8 id ++ path) as -> by congruence. unfold len. rewrite length_app, length_to_le_bytes.
  destruct (Z.ltb_spec (Z.of_nat (8 + length path)) 8); [lia|]. rewrite take_le, drop_le, Eu. by rewrite from_to_le_bytes.
Qed.

Lemma job_accepted id path body : Forall is_byte body → read_job body = Ok (id, path) → job id path = Ok body.
Proof.
  intros Hb. unfold job, read_job. destruct (Z.ltb_spec (len body) 8) as [|Hl]; [done|]. destruct (utf8 (drop 8 body)) eqn:Eu; [|done]. intros [= <- <-]. rewrite Eu.
  rewrite le_bytes_id; [by rewrite take_drop| |by apply Forall_take]. unfold len in Hl. rewrite length_take. lia.
Qed.

Definition index_wf (i : Index) : Prop :=
  is_word 64 (ix_bytes i) ∧ is_word 64 (ix_lines i) ∧ is_word 64 (ix_checksum i) ∧ ∀ e, ix_error i = Some e → utf8 e = true.

(** An outcome is read back as it was, with the text of its error. *)
Lemma outcome_read id i : is_word 64 id → index_wf i → read_outcome (encode_outcome id i) = Ok (id, i).
Proof.
  intros Hid (H1 & H2 & H3 & H4). destruct i as [n l c e]. unfold encode_outcome. cbn [ix_bytes ix_lines ix_checksum ix_error] in *.
  fold (words_le [id; n; l; c]). set (flag := match e with Some _ => 1 | None => 0 end). set (text := default [] e). set (ws := words_le [id; n; l; c]).
  assert (Hw : length ws = 32%nat) by apply words_length.
  unfold read_outcome. cbv zeta. cbn [Nat.add].
  rewrite (words_slice [id; n; l; c] 0 id ([flag] ++ text) eq_refl : slice 0 8 (ws ++ _) = _), (words_slice [id; n; l; c] 1 n ([flag] ++ text) eq_refl : slice 8 16 (ws ++ _) = _),
    (words_slice [id; n; l; c] 2 l ([flag] ++ text) eq_refl : slice 16 24 (ws ++ _) = _), (words_slice [id; n; l; c] 3 c ([flag] ++ text) eq_refl : slice 24 32 (ws ++ _) = _), !from_to_le_bytes by done.
  rewrite lookup_app_r by lia. rewrite Hw. cbn [Nat.sub app lookup list_lookup default].
  change 33%nat with (32 + 1)%nat. rewrite (drop_app_add' ws) by done. cbn [drop].
  unfold len. rewrite length_app, Hw. cbn [length]. destruct (Z.ltb_spec (Z.of_nat (32 + S (length text))) 33); [lia|].
  unfold flag, text. destruct e as [e|]; [|done]. rewrite drop_0. change (default [] (Some e)) with e. by rewrite (H4 e eq_refl).
Qed.

(** Jobs and outcomes survive the wire: a job is read back exactly from the body
    it was made into, and an outcome with the numbers and the error text it was
    made of. *)
Theorem messages_roundtrip :
  (∀ id path body, is_word 64 id → Forall is_byte body → job id path = Ok body ↔ read_job body = Ok (id, path)) ∧
  (∀ id i, is_word 64 id → index_wf i → read_outcome (encode_outcome id i) = Ok (id, i)).
Proof. split; [intros id path body Hid Hb; split; [by apply job_read|by apply job_accepted]|apply outcome_read]. Qed.

(** ** A small file system *)

(** One file, read three bytes at a time at most; descriptor 0 is what is left
    of it. *)
Record one_file := mkOneFile { of_path : list Z; of_content : list Z; of_rest : option (list Z) }.

#[export] Instance one_file_ops : ReadOps one_file Z := {
  open_path p k := if bool_decide (p = of_path k) then (Ok 0, mkOneFile (of_path k) (of_content k) (Some (of_content k))) else (Err 2, k);
  read_file f n k :=
    match of_rest k with
    | Some rest => (Ok (take (n `min` 3)%nat rest), mkOneFile (of_path k) (of_content k) (Some (drop (n `min` 3)%nat rest)))
    | None => (Err 9, k)
    end;
  close_file f k := (tt, mkOneFile (of_path k) (of_content k) None);
}.

#[export, refine] Instance one_file_laws : ReadLaws one_file Z := {
  contents k p := if bool_decide (p = of_path k) then Some (of_content k) else None;
  remaining k f := of_rest k;
}.
Proof.
  - intros p k. cbn. case_bool_decide; [|done]. split; [by eexists|done].
  - intros f n k c Hc Hn. cbn. rewrite Hc. exists (drop (n `min` 3)%nat c). split_and!; [by rewrite take_drop|done|rewrite length_take; lia|].
    intros E. apply (f_equal length) in E. rewrite length_take in E. apply nil_length_inv. cbn in E. rewrite length_drop. lia.
Defined.

(** Two lines, the second without its end. *)
Definition demo_text : list Z := [97; 98; 10; 99; 100; 101; 102].

Lemma inspect_any_chunks_witness :
  let k := mkOneFile [47; 120] demo_text None in
  (run (inspect_inner (E := Z) 8 [47; 120]) k).1 = Some (Ok (index_of demo_text)) ∧ ix_lines (index_of demo_text) = 2 ∧ ix_bytes (index_of demo_text) = 7.
Proof.
  intros k. assert (Hc : contents (E := Z) k [47; 120] = Some demo_text) by reflexivity.
  destruct (inspect_any_chunks (E := Z) [47; 120] demo_text k 8 Hc ltac:(by_eval) ltac:(by_eval)) as (r & Er & Hr).
  assert (Hok : ∃ i, r = Ok i) by (vm_compute in Er; injection Er as <-; by eexists).
  destruct Hok as [i ->]. rewrite (Hr i eq_refl) in Er. split; [exact Er|]. split; reflexivity.
Defined.

Definition demo_port (role : Z) : Port := mkPort (mkChannelId (mkId (mkRegionId 1 2) 0 3 1) 4) role 1.

Lemma boot_roundtrip_witness :
  let pool := mkId (mkRegionId 1 2) 0 7 1 in
  ∃ b, encode_boot 1 pool (demo_port 1) (demo_port 0) = Some b ∧ decode_boot b 1 = Ok (pool, demo_port 1, demo_port 0) ∧ decode_boot b 0 = Err BootMismatch.
Proof.
  intros pool. destruct (proj1 (boot_roundtrip 1 ltac:(by_eval)) pool (demo_port 1) (demo_port 0)) as (b & E1 & E2 & E3); [by_eval|repeat split; by_eval|repeat split; by_eval|].
  exists b. split; [exact E1|]. split; [exact E2|]. by apply E3.
Defined.
