(* ===== verification/IndexRun.v ===== *)
(** * The index example: the coordinator and its workers

    Models the second half of [src/examples/index.rs]: the loops of [coordinator]
    and [worker] as processes that interleave at every operation on what they
    share.  The channels are the queues of bounded length the library promises
    them to be: a slot is reserved, then published or abandoned, and a message is
    claimed, then taken out by its admission, each in a step of its own; a
    notification is a step after the commit it tells of; an event is a latch that
    the end of a wait puts out.  There are two of them, one for the coordinator
    and one for all the workers.  Every call of the library that can fail may do
    so, in a step of its own: the process then returns with the error, dropping
    what it has.  Left out are the set-up of the session and the processes and the
    blocks that carry the messages.

    The invariant, whatever the order of the steps and whatever fails: every job
    sent is in one place only, the queue of its worker, the worker, the queue of
    the results, or the output; and the coordinator answers the index of every path
    in the order of the paths, or an error that has its reason. *)

From S2P Require Import Prelude Bytes Process Index.

(** ** What the processes share *)

(** The slot behind the messages of a queue. *)
Inductive slot := Vacant | Reserved | Abandoned.

(** One direction of a channel: the messages published, the slot behind them, and
    whether the sender has closed it. *)
Record lane := mkLane { items : list (list Z); next : slot; closed : bool }.

Definition CHANNEL : nat := 4.

Inductive claimed := Claimed | ClaimClosed | ClaimBusy | ClaimEmpty.

(** What [claim] answers, and the queue then: it is busy when the slot it meets is
    not published, and clears one that was abandoned. *)
Definition lane_claim (l : lane) : claimed * lane :=
  match items l, next l with
  | _ :: _, _ => (Claimed, l)
  | [], Reserved => (ClaimBusy, l)
  | [], Abandoned => (ClaimBusy, mkLane [] Vacant (closed l))
  | [], Vacant => (if closed l then ClaimClosed else ClaimEmpty, l)
  end.

(** [None]: the queue is full. *)
Definition lane_reserve (l : lane) : option lane :=
  if (length (items l) <? CHANNEL)%nat then Some (mkLane (items l) Reserved (closed l)) else None.

Definition lane_publish (body : list Z) (l : lane) : lane := mkLane (items l ++ [body]) Vacant (closed l).
Definition lane_cancel (l : lane) : lane := mkLane (items l) Abandoned (closed l).
Definition lane_take (l : lane) : lane := mkLane (tail (items l)) (next l) (closed l).
Definition lane_close (l : lane) : lane := mkLane (items l) (next l) true.

(** ** Where a process is *)

(** A worker: the claim and how often it met a slot not published, the waits, what
    follows a commit and has its notification still to send. *)
Inductive wpc :=
| WClaim (retries : nat) | WWait | WAdmit | WRingAdmit (body : list Z)
| WReserve (id : Z) (index : Index) | WRoom (id : Z) (index : Index) | WPublish (id : Z) (index : Index) | WRingSent
| WClose | WRingClose | WExit (success : bool).

(** The coordinator: the head of its loop, the send, the pass over the peers and
    whether it has made progress, the wait, and the three loops at the end. *)
Inductive cpc :=
| CTop | CReserve | CRoom | CPublish | CRingSent
| CScan (i : nat) (progress : bool) | CAdmit (i : nat) | CRingAdmit (i : nat) (body : list Z) | CWait
| CClose (i : nat) | CRingClose (i : nat) | CReap (i : nat) | CRemove (i : nat)
| CDone (answer : result (list Index) index_error).

(** [Peer], and the worker of it. *)
Record Peer := mkPeer { p_jobs : lane; p_results : lane; p_pc : wpc }.

Record world := mkWorld {
  c_pc : cpc;
  c_sent : nat;
  c_received : nat;
  c_output : list (option Index);
  peers : list Peer;
  (* the event of the coordinator, and the one event of all the workers *)
  c_lit : bool;
  w_lit : bool;
}.

Definition WORKERS : nat := 2.
Definition RETRY_LIMIT : nat := 32.

Definition goto (pc : cpc) (w : world) : world := mkWorld pc (c_sent w) (c_received w) (c_output w) (peers w) (c_lit w) (w_lit w).
Definition put_peer (i : nat) (p : Peer) (w : world) : world :=
  mkWorld (c_pc w) (c_sent w) (c_received w) (c_output w) (<[i := p]> (peers w)) (c_lit w) (w_lit w).
Definition light_coordinator (b : bool) (w : world) : world := mkWorld (c_pc w) (c_sent w) (c_received w) (c_output w) (peers w) b (w_lit w).
Definition light_workers (b : bool) (w : world) : world := mkWorld (c_pc w) (c_sent w) (c_received w) (c_output w) (peers w) (c_lit w) b.

(** The end of [coordinator]: the outcomes in the order of the paths. *)
Fixpoint collect (output : list (option Index)) : result (list Index) index_error :=
  match output with
  | [] => Ok []
  | None :: _ => Err MissingOutcome
  | Some ix :: output => let? rest := collect output in Ok (ix :: rest)
  end.

Section Run.
(** The paths, and what [inspect] answers for one. *)
Context (paths : list (list Z)) (index_path : list Z → Index).

Definition window : nat := WORKERS * 2.

(** The beginning: every worker is about to claim, as it is after its set-up. *)
Definition init : world :=
  mkWorld CTop 0 0 (replicate (length paths) None)
    (replicate WORKERS (mkPeer (mkLane [] Vacant false) (mkLane [] Vacant false) (WClaim 0))) false false.

(** The peer the next job is for. *)
Definition target (w : world) : nat := (c_sent w mod length (peers w))%nat.

(** A return of [coordinator] with the slot it has reserved: the permit that is
    dropped abandons the slot and notifies. *)
Definition drop_permit (p : Peer) (e : index_error) (w : world) : world :=
  goto (CDone (Err e)) (light_workers true (put_peer (target w) (mkPeer (lane_cancel (p_jobs p)) (p_results p) (p_pc p)) w)).

(** One step of [coordinator] in which no call of the library fails; [None] when it
    is blocked or at its end. *)
Definition coord_step (w : world) : option world :=
  let n := length paths in
  match c_pc w with
  | CTop =>
    Some (if (c_sent w <? n)%nat || (c_received w <? c_sent w)%nat
          then goto (if (c_sent w <? n)%nat && (c_sent w - c_received w <? window)%nat then CReserve else CScan 0 false) w
          else goto (CClose 0) w)
  | CReserve =>
    p ← peers w !! target w;
    Some (match lane_reserve (p_jobs p) with
          | Some l => goto CPublish (put_peer (target w) (mkPeer l (p_results p) (p_pc p)) w)
          | None => goto CRoom w
          end)
  | CRoom => if c_lit w then Some (goto CReserve (light_coordinator false w)) else None
  | CPublish =>
    p ← peers w !! target w;
    path ← paths !! c_sent w;
    Some (match job (Z.of_nat (c_sent w)) path with
          | Ok body => goto CRingSent (put_peer (target w) (mkPeer (lane_publish body (p_jobs p)) (p_results p) (p_pc p)) w)
          | Err e => drop_permit p e w
          end)
  | CRingSent => Some (mkWorld CTop (S (c_sent w)) (c_received w) (c_output w) (peers w) (c_lit w) true)
  | CScan i progress =>
    match peers w !! i with
    | None => Some (goto (if progress then CTop else CWait) w)
    | Some p =>
      let '(c, l) := lane_claim (p_results p) in
      Some (goto (match c with Claimed => CAdmit i | _ => CScan (S i) progress end) (put_peer i (mkPeer (p_jobs p) l (p_pc p)) w))
    end
  | CAdmit i =>
    p ← peers w !! i;
    body ← head (items (p_results p));
    Some (goto (CRingAdmit i body) (put_peer i (mkPeer (p_jobs p) (lane_take (p_results p)) (p_pc p)) w))
  | CRingAdmit i body =>
    let w := light_workers true w in
    Some (match read_outcome body with
          | Err e => goto (CDone (Err e)) w
          | Ok (id, index) =>
            match c_output w !! Z.to_nat id with
            | Some None => mkWorld (CScan (S i) true) (c_sent w) (S (c_received w)) (<[Z.to_nat id := Some index]> (c_output w)) (peers w) (c_lit w) (w_lit w)
            | _ => goto (CDone (Err DuplicateOutcome)) w
            end
          end)
  | CWait => if c_lit w then Some (goto CTop (light_coordinator false w)) else None
  | CClose i =>
    match peers w !! i with
    | None => Some (goto (CReap 0) w)
    | Some p => Some (goto (CRingClose i) (put_peer i (mkPeer (lane_close (p_jobs p)) (p_results p) (p_pc p)) w))
    end
  | CRingClose i => Some (goto (CClose (S i)) (light_workers true w))
  | CReap i =>
    match peers w !! i with
    | None => Some (goto (CRemove 0) w)
    | Some p =>
      match p_pc p with
      | WExit success => Some (goto (if success then CReap (S i) else CDone (Err WorkerFailed)) w)
      | _ => None
      end
    end
  | CRemove i =>
    match peers w !! i with
    | None => Some (goto (CDone (collect (c_output w))) w)
    | Some _ => Some (goto (CRemove (S i)) w)
    end
  | CDone _ => None
  end.

(** What a call of the library that fails does to [coordinator]: a reservation that
    is refused or whose wait fails, a copy into the pool, a notification after its
    commit, an admission, a wait, a child that cannot be waited for, a channel that
    is not removed.  [None]: the step makes no such call. *)
Definition coord_error (w : world) : option world :=
  match c_pc w with
  | CPublish => p ← peers w !! target w; Some (drop_permit p LibraryError w)
  | CReserve | CRoom | CRingSent | CAdmit _ | CRingAdmit _ _ | CWait | CRingClose _ | CReap _ | CRemove _ => Some (goto (CDone (Err LibraryError)) w)
  | CTop | CScan _ _ | CClose _ | CDone _ => None
  end.

(** One step of the [i]th [worker] in which no call of the library fails. *)
Definition worker_step (i : nat) (w : world) : option world :=
  p ← peers w !! i;
  let stay pc := put_peer i (mkPeer (p_jobs p) (p_results p) pc) w in
  match p_pc p with
  | WClaim retries =>
    let '(c, l) := lane_claim (p_jobs p) in
    Some (put_peer i (mkPeer l (p_results p)
      (match c with
       | Claimed => WAdmit
       | ClaimClosed => WClose
       | ClaimBusy => if (retries =? RETRY_LIMIT - 1)%nat then WExit false else WClaim (S retries)
       | ClaimEmpty => WWait
       end)) w)
  | WWait => if w_lit w then Some (light_workers false (stay (WClaim 0))) else None
  | WAdmit => body ← head (items (p_jobs p)); Some (put_peer i (mkPeer (lane_take (p_jobs p)) (p_results p) (WRingAdmit body)) w)
  | WRingAdmit body =>
    Some (light_coordinator true (stay (match read_job body with
                                        | Ok (id, path) => WReserve id (index_path path)
                                        | Err _ => WExit false
                                        end)))
  | WReserve id index =>
    Some (match lane_reserve (p_results p) with
          | Some l => put_peer i (mkPeer (p_jobs p) l (WPublish id index)) w
          | None => stay (WRoom id index)
          end)
  | WRoom id index => if w_lit w then Some (light_workers false (stay (WReserve id index))) else None
  | WPublish id index => Some (put_peer i (mkPeer (p_jobs p) (lane_publish (encode_outcome id index) (p_results p)) WRingSent) w)
  | WRingSent => Some (light_coordinator true (stay (WClaim 0)))
  | WClose => Some (put_peer i (mkPeer (p_jobs p) (lane_close (p_results p)) WRingClose) w)
  | WRingClose => Some (light_coordinator true (stay (WExit true)))
  | WExit _ => None
  end.

(** What a call of the library that fails does to the [i]th [worker]. *)
Definition worker_error (i : nat) (w : world) : option world :=
  p ← peers w !! i;
  match p_pc p with
  | WPublish _ _ => Some (light_coordinator true (put_peer i (mkPeer (p_jobs p) (lane_cancel (p_results p)) (WExit false)) w))
  | WWait | WAdmit | WRingAdmit _ | WReserve _ _ | WRoom _ _ | WRingSent | WRingClose => Some (put_peer i (mkPeer (p_jobs p) (p_results p) (WExit false)) w)
  | WClaim _ | WClose | WExit _ => None
  end.

(** A step of the program, of the coordinator or of a worker; [errs]: whether calls
    of the library fail. *)
Inductive step (errs : bool) (w : world) : world → Prop :=
| step_coordinator w' : coord_step w = Some w' → step errs w w'
| step_worker i w' : worker_step i w = Some w' → step errs w w'
| step_coordinator_error w' : errs = true → coord_error w = Some w' → step errs w w'
| step_worker_error i w' : errs = true → worker_error i w = Some w' → step errs w w'.

End Run.

(** ** What is under way *)

(** The number of a job and of an outcome. *)
Definition job_id (body : list Z) : nat := match read_job body with Ok (id, _) => Z.to_nat id | Err _ => 0 end.
Definition outcome_id (body : list Z) : nat := match read_outcome body with Ok (id, _) => Z.to_nat id | Err _ => 0 end.

Definition held (pc : wpc) : list nat :=
  match pc with
  | WRingAdmit body => [job_id body]
  | WReserve id _ | WRoom id _ | WPublish id _ => [Z.to_nat id]
  | _ => []
  end.

Definition peer_flight (p : Peer) : list nat :=
  (job_id <$> items (p_jobs p)) ++ held (p_pc p) ++ (outcome_id <$> items (p_results p)).

Definition coord_flight (pc : cpc) : list nat := match pc with CRingAdmit _ body => [outcome_id body] | _ => [] end.

Definition flight (w : world) : list nat := coord_flight (c_pc w) ++ concat (peer_flight <$> peers w).

(** The positions that have their outcome. *)
Definition stored (output : list (option Index)) : list nat :=
  filter (λ k, is_Some (mjoin (output !! k))) (seq 0 (length output)).

(** The jobs published, one of which may not be counted yet. *)
Definition issued (w : world) : nat := match c_pc w with CRingSent => S (c_sent w) | _ => c_sent w end.

Lemma elem_of_stored output k : k ∈ stored output ↔ ∃ ix, output !! k = Some (Some ix).
Proof.
  unfold stored. rewrite list_elem_of_filter, elem_of_seq. split.
  - intros [[ix E] _]. exists ix. by destruct (output !! k) as [[?|]|]; simplify_eq/=.
  - intros [ix E]. rewrite E. split; [by eexists|]. apply lookup_lt_Some in E. lia.
Qed.

Lemma NoDup_stored output : NoDup (stored output).
Proof. apply NoDup_filter, NoDup_seq. Qed.

Lemma stored_insert output k ix : output !! k = Some None → stored (<[k := Some ix]> output) ≡ₚ k :: stored output.
Proof.
  intros Hk. apply NoDup_Permutation; [apply NoDup_stored|constructor; [|apply NoDup_stored]|].
  - intros [ix' E]%elem_of_stored. congruence.
  - intros j. rewrite elem_of_stored, elem_of_cons, elem_of_stored. destruct (decide (j = k)) as [->|Hne].
    + rewrite list_lookup_insert_eq by (by eapply lookup_lt_Some). naive_solver.
    + rewrite list_lookup_insert_ne by done. naive_solver.
Qed.

Lemma stored_replicate n : stored (replicate n None) = [].
Proof. apply elem_of_nil_inv; intros k [ix [E _]%lookup_replicate]%elem_of_stored. done. Qed.

(** Every position has its outcome: the coordinator collects them. *)
Lemma collect_all output answer : length output = length answer →
  (∀ k ix, answer !! k = Some ix → output !! k = Some (Some ix)) → collect output = Ok answer.
Proof.
  revert answer. induction output as [|o output IH]; intros [|ix answer] Hl Hk; try done.
  pose proof (Hk 0%nat ix eq_refl) as [= ->]. cbn. rewrite (IH answer); [done|by injection Hl|]. intros k ix' E. by apply (Hk (S k)).
Qed.

(** What is under way when one peer changes. *)
Lemma flights_split (l : list Peer) i p : l !! i = Some p →
  ∃ rest, concat (peer_flight <$> l) ≡ₚ peer_flight p ++ rest ∧
    ∀ p', concat (peer_flight <$> <[i := p']> l) ≡ₚ peer_flight p' ++ rest.
Proof.
  intros Hi. exists (concat (peer_flight <$> take i l) ++ concat (peer_flight <$> drop (S i) l)).
  assert (H : ∀ p', concat (peer_flight <$> take i l ++ p' :: drop (S i) l) ≡ₚ
    peer_flight p' ++ concat (peer_flight <$> take i l) ++ concat (peer_flight <$> drop (S i) l)).
  { intros p'. rewrite fmap_app, concat_app. cbn. rewrite !app_assoc. f_equiv. apply Permutation_app_comm. }
  split; [by rewrite <- H, (take_drop_middle _ _ _ Hi)|]. intros p'. rewrite insert_take_drop by (by eapply lookup_lt_Some). apply H.
Qed.

(** ** The invariant *)

(** The slot the coordinator has at the [i]th peer, whether it has closed its jobs,
    and whether it has seen the end of its worker. *)
Definition jobs_slot (pc : cpc) (sent i : nat) : slot := match pc with CPublish => if (i =? sent mod WORKERS)%nat then Reserved else Vacant | _ => Vacant end.

Definition jobs_closed (pc : cpc) (i : nat) : bool :=
  match pc with
  | CClose j => (i <? j)%nat
  | CRingClose j => (i <=? j)%nat
  | CReap _ | CRemove _ | CDone _ => true
  | _ => false
  end.

Definition reaped (pc : cpc) (i : nat) : bool :=
  match pc with
  | CReap j => (i <? j)%nat
  | CRemove _ | CDone (Ok _) => true
  | _ => false
  end.

(** A worker has left with an error. *)
Definition failed (w : world) : Prop := ∃ i p, peers w !! i = Some p ∧ p_pc p = WExit false.

(** A worker leaves for good. *)
Lemma failed_put w w' i p p' : peers w !! i = Some p → peers w' = <[i := p']> (peers w) → (p_pc p = WExit false → p_pc p' = WExit false) → failed w → failed w'.
Proof.
  intros Hp Ep Hk (j & q & Hq & E). destruct (decide (j = i)) as [->|Hne].
  - exists i, p'. rewrite Ep, list_lookup_insert_eq by (by eapply lookup_lt_Some). split; [done|]. apply Hk. congruence.
  - exists j, q. by rewrite Ep, list_lookup_insert_ne.
Qed.

Section Safe.
Context (paths : list (list Z)) (index_path : list Z → Index) (errs : bool).

Abbreviation n := (length paths).
Abbreviation cstep := (coord_step paths).
Abbreviation wstep := (worker_step index_path).

Definition answers : list Index := index_path <$> paths.

(** The job of a path and the outcome of one. *)
Definition is_job (body : list Z) : Prop := ∃ path, paths !! job_id body = Some path ∧ read_job body = Ok (Z.of_nat (job_id body), path).

Definition is_answer (id : Z) (index : Index) : Prop := 0 ≤ id ∧ answers !! Z.to_nat id = Some index.

Definition is_outcome (body : list Z) : Prop := ∃ index, read_outcome body = Ok (Z.of_nat (outcome_id body), index) ∧ is_answer (Z.of_nat (outcome_id body)) index.

Definition worker_ok (p : Peer) : Prop :=
  match p_pc p with
  | WAdmit => items (p_jobs p) ≠ []
  | WRingAdmit body => is_job body
  | WReserve id index | WPublish id index => is_answer id index
  | WRoom _ _ => False
  | WClose | WRingClose | WExit true => closed (p_jobs p) = true ∧ items (p_jobs p) = []
  | WClaim _ | WWait | WRingSent | WExit false => True
  end.

Record peer_ok (pc : cpc) (sent i : nat) (p : Peer) : Prop := {
  ok_jobs : Forall is_job (items (p_jobs p));
  ok_results : Forall is_outcome (items (p_results p));
  ok_slot : next (p_jobs p) = jobs_slot pc sent i;
  ok_closed : closed (p_jobs p) = jobs_closed pc i;
  ok_reaped : reaped pc i = true → p_pc p = WExit true;
  ok_worker : worker_ok p;
}.

Definition coord_ok (w : world) : Prop :=
  match c_pc w with
  | CTop => True
  | CReserve | CPublish => (c_sent w < n)%nat ∧ (c_sent w < c_received w + window)%nat
  | CRingSent => (c_received w ≤ c_sent w < n)%nat ∧ (c_sent w < c_received w + window)%nat
  | CRoom => False
  | CScan i progress => (i ≤ WORKERS)%nat ∧ (progress = false → (c_received w < c_sent w)%nat)
  | CAdmit i => ∃ p, peers w !! i = Some p ∧ items (p_results p) ≠ []
  | CRingAdmit i body => (i < WORKERS)%nat ∧ is_outcome body
  | CWait => (c_received w < c_sent w)%nat
  | CClose i | CReap i | CRemove i => (i ≤ WORKERS)%nat ∧ c_sent w = n ∧ c_received w = n
  | CRingClose i => (i < WORKERS)%nat ∧ c_sent w = n ∧ c_received w = n
  | CDone answer => answer = Ok answers
  end.

(** As long as the coordinator has met no error: what it has sent is under way,
    stored, or lost by a worker that has failed. *)
Record inv (w : world) : Prop := {
  inv_peers : length (peers w) = WORKERS;
  inv_output : length (c_output w) = n;
  inv_values k ix : c_output w !! k = Some (Some ix) → answers !! k = Some ix;
  inv_flight : ∃ lost, flight w ++ stored (c_output w) ++ lost ≡ₚ seq 0 (issued w) ∧ (lost = [] ∨ failed w);
  inv_received : length (stored (c_output w)) = c_received w;
  inv_issued : (issued w ≤ n)%nat ∧ (issued w ≤ c_received w + window)%nat;
  inv_coord : coord_ok w;
  inv_peer i p : peers w !! i = Some p → peer_ok (c_pc w) (c_sent w) i p;
}.

(** Why the coordinator answers an error. *)
Definition excused (e : index_error) (w : world) : Prop :=
  match e with
  | NotUtf8Path => Exists (λ path, utf8 path = false) paths
  | WorkerFailed => failed w
  | LibraryError => errs = true
  | _ => False
  end.

(** The coordinator has answered an error: the outcomes it stored were right. *)
Definition gave_up (w : world) : Prop :=
  ∃ e, c_pc w = CDone (Err e) ∧ excused e w ∧ ∀ k ix, c_output w !! k = Some (Some ix) → answers !! k = Some ix.

Definition safe (w : world) : Prop := inv w ∨ gave_up w.

Lemma init_inv : inv (init paths).
Proof.
  constructor; cbn -[window stored].
  - done.
  - by rewrite length_replicate.
  - intros k ix [E _]%lookup_replicate. done.
  - exists []. unfold flight. cbn -[stored]. rewrite stored_replicate. by split; [|left].
  - by rewrite stored_replicate.
  - lia.
  - done.
  - intros i p Hp. change (replicate WORKERS (mkPeer (mkLane [] Vacant false) (mkLane [] Vacant false) (WClaim 0)) !! i = Some p) in Hp.
    by apply lookup_replicate in Hp as [-> _].
Qed.

(** Everything under way counts. *)
Lemma flight_count w : inv w → (length (flight w) + c_received w ≤ issued w)%nat ∧ (¬ failed w → length (flight w) + c_received w = issued w)%nat.
Proof.
  intros I. destruct (inv_flight w I) as (lost & E & Hl). apply Permutation_length in E. rewrite !length_app, length_seq, (inv_received w I) in E.
  split; [lia|]. intros Hf. destruct Hl as [->|?]; [|done]. cbn in E. lia.
Qed.

Lemma peer_flight_count w i p : inv w → peers w !! i = Some p → (length (peer_flight p) + c_received w ≤ issued w)%nat.
Proof.
  intros I Hp. destruct (flight_count w I) as [Hc _]. destruct (flights_split _ _ _ Hp) as (rest & E & _). unfold flight in Hc. rewrite length_app, E, length_app in Hc. lia.
Qed.

Lemma peer_flight_length p : length (peer_flight p) = (length (items (p_jobs p)) + length (held (p_pc p)) + length (items (p_results p)))%nat.
Proof. unfold peer_flight. rewrite !length_app, !length_fmap. lia. Qed.

Lemma flight_nodup w : inv w → NoDup (flight w ++ stored (c_output w)).
Proof.
  intros I. destruct (inv_flight w I) as (lost & E & _). assert (HN : NoDup (flight w ++ stored (c_output w) ++ lost)) by (rewrite E; apply NoDup_seq).
  rewrite app_assoc in HN. by apply NoDup_app in HN as [? _].
Qed.

(** A number under way is a path's that has no outcome yet. *)
Lemma flight_fresh w k : inv w → k ∈ flight w → (k < n)%nat ∧ c_output w !! k = Some None.
Proof.
  intros I Hk. destruct (inv_flight w I) as (lost & E & _). assert (Hs : k ∈ seq 0 (issued w)) by (rewrite <- E; apply elem_of_app; by left).
  apply elem_of_seq in Hs. destruct (inv_issued w I) as [Hn _]. split; [lia|].
  destruct (c_output w !! k) as [[ix|]|] eqn:Eo; [exfalso| done|apply lookup_ge_None in Eo; rewrite (inv_output w I) in Eo; lia].
  pose proof (flight_nodup w I) as HN. apply NoDup_app in HN as (_ & Hd & _). apply (Hd k Hk), elem_of_stored. by eexists.
Qed.

(** ** Every step keeps it *)

(** The numbers of the jobs are words, as the lengths of vectors are; an index fits
    the wire, as its fields do. *)
Hypothesis few_paths : len paths < 2 ^ 64.
Hypothesis index_path_wf : ∀ path, index_wf (index_path path).

Lemma id_word k : (k < n)%nat → is_word 64 (Z.of_nat k).
Proof using few_paths. unfold is_word, len in *. lia. Qed.

Lemma job_made k path : paths !! k = Some path → match job (Z.of_nat k) path with Ok body => is_job body ∧ job_id body = k | Err e => e = NotUtf8Path ∧ utf8 path = false end.
Proof using few_paths.
  intros Hp. unfold job. destruct (utf8 path) eqn:Hu; [|done].
  assert (Hr : read_job (to_le_bytes 8 (Z.of_nat k) ++ path) = Ok (Z.of_nat k, path)).
  { apply job_read; [apply id_word; by eapply lookup_lt_Some|]. unfold job. by rewrite Hu. }
  assert (Hid : job_id (to_le_bytes 8 (Z.of_nat k) ++ path) = k) by (unfold job_id; rewrite Hr; lia).
  split; [|done]. exists path. by rewrite Hid.
Qed.

Lemma outcome_made id index : is_answer id index → is_outcome (encode_outcome id index) ∧ outcome_id (encode_outcome id index) = Z.to_nat id.
Proof using few_paths index_path_wf.
  intros [Hid Ha]. pose proof (lookup_lt_Some _ _ _ Ha) as Hl. unfold answers in Ha, Hl. rewrite length_fmap in Hl.
  assert (Hr : read_outcome (encode_outcome id index) = Ok (id, index)).
  { apply outcome_read; [rewrite <- (Z2Nat.id id Hid); by apply id_word|].
    apply list_lookup_fmap_Some in Ha as (path & -> & _). apply index_path_wf. }
  assert (Hi : outcome_id (encode_outcome id index) = Z.to_nat id) by (unfold outcome_id; by rewrite Hr).
  split; [|done]. exists index. rewrite Hi, Z2Nat.id by done. by split.
Qed.

(** *** Workers *)

(** A worker changes its own peer and nothing of the coordinator's; what it drops,
    it drops when it fails. *)
Lemma inv_worker w w' i p p' dropped : inv w → peers w !! i = Some p → (∀ ok, p_pc p ≠ WExit ok) →
  c_pc w' = c_pc w → c_sent w' = c_sent w → c_received w' = c_received w → c_output w' = c_output w → peers w' = <[i := p']> (peers w) →
  peer_flight p' ++ dropped ≡ₚ peer_flight p → (dropped = [] ∨ p_pc p' = WExit false) → (items (p_results p) ≠ [] → items (p_results p') ≠ []) →
  (reaped (c_pc w) i = false → peer_ok (c_pc w) (c_sent w) i p') → inv w'.
Proof.
  intros I Hp Hlive Epc Es Er Eo Ep Hf Hd Hres Hok'. destruct (flights_split _ _ _ Hp) as (rest & E1 & E2).
  assert (Hok : peer_ok (c_pc w) (c_sent w) i p').
  { apply Hok'. destruct (reaped (c_pc w) i) eqn:E; [|done]. apply (ok_reaped _ _ _ _ (inv_peer w I i p Hp)) in E. by apply Hlive in E. }
  assert (Ei : issued w' = issued w) by (unfold issued; by rewrite Epc, Es). destruct I. constructor; rewrite ?Epc, ?Es, ?Er, ?Eo, ?Ep, ?Ei; try done.
  - by rewrite length_insert.
  - destruct inv_flight0 as (lost & E & Hl). exists (dropped ++ lost). split.
    + rewrite <- E. unfold flight. rewrite Epc, Ep, E1, E2, <- Hf, <- !app_assoc. do 2 f_equiv. rewrite !app_assoc. f_equiv. rewrite <- !app_assoc.
      rewrite (Permutation_app_comm dropped), <- !app_assoc. done.
    + assert (Hq : p_pc p' = WExit false → failed w') by (intros E'; exists i, p'; rewrite Ep, list_lookup_insert_eq by (by eapply lookup_lt_Some); done).
      destruct Hd as [->|Hd]; [|right; by apply Hq]. destruct Hl as [->|Hl]; [by left|]. right. eapply failed_put; [done|done| |done]. intros E'. by apply Hlive in E'.
  - unfold coord_ok in *. rewrite Epc, Es, Er. destruct (c_pc w); try done. destruct inv_coord0 as (q & Hq & Hn). rewrite Ep.
    destruct (decide (i0 = i)) as [->|Hne]; [|exists q; by rewrite list_lookup_insert_ne].
    exists p'. rewrite list_lookup_insert_eq by (by eapply lookup_lt_Some). split; [done|]. apply Hres. congruence.
  - intros j q [(-> & -> & _)|[_ Hq]]%list_lookup_insert_Some; [done|by apply inv_peer0].
Qed.

(** The step of a worker that moves on with its lanes as they are. *)
Lemma inv_stay w w' i p pc' dropped : inv w → peers w !! i = Some p → (∀ ok, p_pc p ≠ WExit ok) →
  c_pc w' = c_pc w → c_sent w' = c_sent w → c_received w' = c_received w → c_output w' = c_output w →
  peers w' = <[i := mkPeer (p_jobs p) (p_results p) pc']> (peers w) → held pc' ++ dropped = held (p_pc p) → (dropped = [] ∨ pc' = WExit false) →
  worker_ok (mkPeer (p_jobs p) (p_results p) pc') → inv w'.
Proof.
  intros I Hp Hne Epc Es Er Eo Ep Hh Hd Hok. eapply (inv_worker w w' i p _ dropped); try done.
  - unfold peer_flight. cbn. rewrite <- Hh, <- !app_assoc. do 2 f_equiv. apply Permutation_app_comm.
  - intros Hr. destruct (inv_peer w I i p Hp). constructor; try done. intros Hr'. congruence.
Qed.

(** A worker that holds a job finds room for its outcome. *)
Lemma results_room w i p : inv w → peers w !! i = Some p → held (p_pc p) ≠ [] → (length (items (p_results p)) <? CHANNEL)%nat = true.
Proof.
  intros I Hp Hh. apply Nat.ltb_lt. pose proof (peer_flight_count w i p I Hp) as H. rewrite peer_flight_length in H. destruct (inv_issued w I) as [_ Hi].
  assert (length (held (p_pc p)) ≠ 0%nat) by (by destruct (held (p_pc p))). unfold window, WORKERS, CHANNEL in *. lia.
Qed.

(** A claim of the jobs, as long as the coordinator has abandoned none. *)
Lemma claim_same l : next l ≠ Abandoned → (lane_claim l).2 = l.
Proof. intros Hn. unfold lane_claim. destruct (items l), (next l) eqn:E; try done. Qed.

Lemma worker_inv w w' i : inv w → wstep i w = Some w' → inv w'.
Proof using few_paths index_path_wf.
  intros I. unfold worker_step. destruct (peers w !! i) as [p|] eqn:Hp; [cbn [mbind option_bind]|done].
  pose proof (inv_peer w I i p Hp) as Hpeer. pose proof (ok_worker _ _ _ _ Hpeer) as Hok. unfold worker_ok in Hok.
  assert (Hstay : ∀ w'' pc', peers w'' = <[i := mkPeer (p_jobs p) (p_results p) pc']> (peers w) → (∀ ok, p_pc p ≠ WExit ok) → held pc' = held (p_pc p) →
    worker_ok (mkPeer (p_jobs p) (p_results p) pc') → c_pc w'' = c_pc w → c_sent w'' = c_sent w → c_received w'' = c_received w → c_output w'' = c_output w → inv w'').
  { intros w'' pc' ? ? Hh **. eapply (inv_stay w w'' i p pc' []); try done; [by rewrite app_nil_r|by left]. }
  destruct (p_pc p) as [r| | |body|id index|id index|id index| | | |ok] eqn:Epc; intros Hs.
  - assert (Hsl : next (p_jobs p) ≠ Abandoned) by (rewrite (ok_slot _ _ _ _ Hpeer); unfold jobs_slot; repeat case_match; congruence).
    pose proof (claim_same _ Hsl) as Ecl. destruct (lane_claim (p_jobs p)) as [c l] eqn:El. cbn [snd] in Ecl. subst l. apply (inj Some) in Hs. subst w'.
    eapply Hstay; try done; [destruct c; try done; by destruct (r =? _)%nat|]. unfold worker_ok. cbn [p_pc p_jobs]. unfold lane_claim in El.
    destruct (items (p_jobs p)) as [|b js] eqn:Ej, (next (p_jobs p)) eqn:En; try done; injection El as <-; try done; [destruct (closed (p_jobs p)); done|by destruct (r =? _)%nat].
  - destruct (w_lit w); [|done]. apply (inj Some) in Hs. subst w'. by eapply Hstay.
  - destruct (items (p_jobs p)) as [|b js] eqn:Ej; [done|]. cbn in Hs. apply (inj Some) in Hs. subst w'.
    destruct Hpeer as [Hj Hr Hres Hcl Hreap _]. rewrite Ej in Hj. apply Forall_cons in Hj as [Hb Hj].
    eapply (inv_worker w _ i p _ []); try done; [by rewrite Epc| |by left|intros Hre; constructor; try done].
    + rewrite app_nil_r. unfold peer_flight. cbn. rewrite Ej, Epc. cbn. by rewrite Permutation_middle.
    + cbn. by rewrite Ej.
    + by rewrite Hre.
  - destruct Hok as (path & Hpath & Hread). rewrite Hread in Hs. apply (inj Some) in Hs. subst w'. eapply Hstay; try done.
    + cbn. by rewrite Nat2Z.id.
    + cbn. split; [lia|]. rewrite Nat2Z.id. unfold answers. by rewrite list_lookup_fmap, Hpath.
  - unfold lane_reserve in Hs. rewrite (results_room w i p I Hp) in Hs by (by rewrite Epc). apply (inj Some) in Hs. subst w'.
    eapply (inv_worker w _ i p _ []); try done; [by rewrite Epc|rewrite app_nil_r; unfold peer_flight; cbn; by rewrite Epc|by left|]. intros Hre. destruct Hpeer. constructor; try done. by rewrite Hre.
  - done.
  - apply (inj Some) in Hs. subst w'. destruct (outcome_made id index Hok) as [Ho Eo]. eapply (inv_worker w _ i p _ []); try done; [by rewrite Epc| |by left| |].
    + rewrite app_nil_r. unfold peer_flight. cbn -[outcome_id encode_outcome]. rewrite Epc, fmap_app. cbn -[outcome_id encode_outcome]. rewrite Eo. f_equiv. by rewrite <- Permutation_cons_append.
    + cbn. by destruct (items (p_results p)).
    + intros Hre. destruct Hpeer. constructor; try done; cbn; [by apply Forall_app; split; [|constructor]|]. by rewrite Hre.
  - apply (inj Some) in Hs. subst w'. by eapply Hstay.
  - apply (inj Some) in Hs. subst w'. eapply (inv_worker w _ i p _ []); try done; [by rewrite Epc|rewrite app_nil_r; unfold peer_flight; cbn; by rewrite Epc|by left|].
    intros Hre. destruct Hpeer. constructor; try done. by rewrite Hre.
  - apply (inj Some) in Hs. subst w'. by eapply Hstay.
  - done.
Qed.

Lemma worker_error_inv w w' i : inv w → worker_error i w = Some w' → inv w'.
Proof.
  intros I. unfold worker_error. destruct (peers w !! i) as [p|] eqn:Hp; [cbn [mbind option_bind]|done]. intros Hs.
  assert (Hstay : ∀ w'', peers w'' = <[i := mkPeer (p_jobs p) (p_results p) (WExit false)]> (peers w) → (∀ ok, p_pc p ≠ WExit ok) →
    c_pc w'' = c_pc w → c_sent w'' = c_sent w → c_received w'' = c_received w → c_output w'' = c_output w → inv w'').
  { intros w'' ? ? **. eapply (inv_stay w w'' i p (WExit false) (held (p_pc p))); try done. by right. }
  destruct (p_pc p) as [r| | |body|id index|id index|id index| | | |ok] eqn:Epc; try done; apply (inj Some) in Hs; subst w'; try (by apply Hstay).
  eapply (inv_worker w _ i p _ [Z.to_nat id]); try done; [by rewrite Epc| |by right|].
  - unfold peer_flight. cbn. rewrite Epc. cbn. rewrite <- app_assoc. f_equiv. by rewrite <- Permutation_cons_append.
  - intros Hre. destruct (inv_peer w I i p Hp). constructor; try done. by rewrite Hre.
Qed.

(** *** The coordinator *)

(** A step of the coordinator that leaves the lanes alone. *)
Lemma inv_goto w w' : inv w → peers w' = peers w → c_output w' = c_output w → c_received w' = c_received w → issued w' = issued w →
  coord_flight (c_pc w') = coord_flight (c_pc w) → coord_ok w' →
  (∀ i, (i < WORKERS)%nat → jobs_slot (c_pc w') (c_sent w') i = jobs_slot (c_pc w) (c_sent w) i ∧ jobs_closed (c_pc w') i = jobs_closed (c_pc w) i) →
  (∀ i p, peers w !! i = Some p → reaped (c_pc w') i = true → p_pc p = WExit true) → inv w'.
Proof.
  intros I Ep Eo Er Ei Ef Hc Hj Hr. destruct I. constructor; rewrite ?Ep, ?Eo, ?Er, ?Ei; try done.
  - unfold flight, failed in *. by rewrite Ep, Ef.
  - intros i p Hp. destruct (inv_peer0 i p Hp). destruct (Hj i) as [E1 E2]; [rewrite <- inv_peers0; by eapply lookup_lt_Some|].
    constructor; rewrite ?E1, ?E2; try done. by apply (Hr i).
Qed.

(** A step of the coordinator on the lanes of one peer; [added] is the job it
    publishes. *)
Lemma inv_put w w' i p p' added : inv w → peers w !! i = Some p → peers w' = <[i := p']> (peers w) → p_pc p' = p_pc p →
  c_output w' = c_output w → c_received w' = c_received w → c_sent w' = c_sent w →
  coord_flight (c_pc w') ++ peer_flight p' ≡ₚ (coord_flight (c_pc w) ++ peer_flight p) ++ added → seq 0 (issued w') = seq 0 (issued w) ++ added →
  ((issued w' ≤ n)%nat ∧ (issued w' ≤ c_received w + window)%nat) → coord_ok w' →
  (∀ j, j ≠ i → jobs_slot (c_pc w') (c_sent w) j = jobs_slot (c_pc w) (c_sent w) j ∧ jobs_closed (c_pc w') j = jobs_closed (c_pc w) j) →
  (∀ j, reaped (c_pc w') j = false) → peer_ok (c_pc w') (c_sent w) i p' → inv w'.
Proof.
  intros I Hp Ep Epp Eo Er Es Hf Hq Hi Hc Hj Hr Hok. destruct (flights_split _ _ _ Hp) as (rest & E1 & E2). destruct I.
  constructor; rewrite ?Ep, ?Eo, ?Er, ?Es; try done.
  - by rewrite length_insert.
  - destruct inv_flight0 as (lost & E & Hl). exists lost. split; [|destruct Hl as [->|Hl]; [by left|]; right; eapply failed_put; [done|done|by rewrite Epp|done]].
    rewrite Hq, <- E. unfold flight. rewrite Ep, E1, E2, !app_assoc, Hf, <- !app_assoc. do 2 f_equiv. rewrite !app_assoc. rewrite (Permutation_app_comm _ added), <- !app_assoc. done.
  - intros j q [(-> & -> & _)|[Hne Hq']]%list_lookup_insert_Some; [done|]. destruct (inv_peer0 j q Hq'), (Hj j) as [F1 F2]; [done|].
    constructor; rewrite ?F1, ?F2; try done. by rewrite Hr.
Qed.

(** Every path has its outcome when as many have come back. *)
Lemma all_collected w : inv w → c_sent w = n → c_received w = n → c_pc w ≠ CRingSent → collect (c_output w) = Ok answers.
Proof.
  intros I Hs Hr Hne. assert (Hi : issued w = n) by (unfold issued; by destruct (c_pc w)).
  destruct (inv_flight w I) as (lost & Hp & _). pose proof (Permutation_length Hp) as Hl. rewrite !length_app, length_seq, Hi, (inv_received w I), Hr in Hl.
  assert (E : flight w = []) by (apply nil_length_inv; lia). assert (El : lost = []) by (apply nil_length_inv; lia).
  rewrite E, El, Hi, app_nil_r in Hp. cbn [app] in Hp. apply collect_all.
  - unfold answers. rewrite length_fmap. apply (inv_output w I).
  - intros k ix Hk. pose proof (lookup_lt_Some _ _ _ Hk) as Hlt. unfold answers in Hlt. rewrite length_fmap in Hlt.
    assert (Hst : k ∈ stored (c_output w)) by (rewrite Hp; apply elem_of_seq; lia). apply elem_of_stored in Hst as [ix' Ho].
    pose proof (inv_values w I k ix' Ho). congruence.
Qed.

(** The coordinator answers an error. *)
Lemma gives_up w w' e : inv w → c_pc w' = CDone (Err e) → c_output w' = c_output w → excused e w' → safe w'.
Proof. intros I Epc Eo He. right. exists e. split_and!; [done|done|]. rewrite Eo. apply (inv_values w I). Qed.

Ltac move_on w Epc := left; apply (inv_goto w); try done; try (by rewrite Epc); try (by unfold issued; rewrite Epc).

Lemma coord_send_safe w w' : inv w → match c_pc w with CTop | CReserve | CRoom | CPublish | CRingSent => True | _ => False end → cstep w = Some w' → safe w'.
Proof using few_paths.
  intros I. pose proof (inv_coord w I) as Hc. pose proof (inv_issued w I) as Hi. destruct (flight_count w I) as [Hfl _].
  unfold coord_step, coord_ok, issued, target in *. destruct (c_pc w) eqn:Epc; try done; intros _ Hs.
  - apply (inj Some) in Hs. subst w'. destruct (Nat.ltb_spec (c_sent w) n) as [Hlt|Hge]; cbn [orb andb].
    + destruct (Nat.ltb_spec (c_sent w - c_received w) window); move_on w Epc;
        unfold coord_ok; cbn; unfold window, WORKERS in *; lia.
    + destruct (Nat.ltb_spec (c_received w) (c_sent w)); move_on w Epc; unfold coord_ok; cbn; lia.
  - rewrite (inv_peers w I) in Hs. set (i := (c_sent w mod WORKERS)%nat) in *. destruct (peers w !! i) as [p|] eqn:Hp; [|done]. cbn in Hs.
    pose proof (peer_flight_count w i p I Hp) as Hpf. rewrite peer_flight_length in Hpf. unfold issued in Hpf. rewrite Epc in Hpf. unfold lane_reserve in Hs.
    destruct (Nat.ltb_spec (length (items (p_jobs p))) CHANNEL) as [_|]; [|unfold window, WORKERS, CHANNEL in *; lia]. apply (inj Some) in Hs. subst w'. left.
    eapply (inv_put w _ i p _ []); try done; rewrite ?Epc; cbn -[Nat.modulo WORKERS]; unfold issued; cbn -[Nat.modulo WORKERS]; rewrite ?Epc, ?app_nil_r; try done.
    + intros j Hne. fold i. by destruct (Nat.eqb_spec j i).
    + destruct (inv_peer w I i p Hp). rewrite Epc in *. constructor; try done. cbn -[Nat.modulo WORKERS]. fold i. by rewrite Nat.eqb_refl.
  - rewrite (inv_peers w I) in Hs. set (i := (c_sent w mod WORKERS)%nat) in *. destruct (peers w !! i) as [p|] eqn:Hp; [|done]. cbn [mbind option_bind] in Hs.
    destruct (paths !! c_sent w) as [path|] eqn:Hpath; [|done]. cbn [mbind option_bind] in Hs. pose proof (job_made _ _ Hpath) as Hj.
    destruct (job (Z.of_nat (c_sent w)) path) as [body|e]; apply (inj Some) in Hs; subst w'.
    2: { destruct Hj as [-> Hu]. eapply (gives_up w); try done. cbn. apply Exists_exists. exists path. split; [by eapply list_elem_of_lookup_2|done]. }
    destruct Hj as [Hb Hid]. left. eapply (inv_put w _ i p _ [c_sent w]); try done; rewrite ?Epc; unfold issued; cbn [c_pc goto c_sent put_peer]; rewrite ?Epc.
    + unfold peer_flight. cbn [coord_flight p_jobs p_pc p_results lane_publish items]. rewrite fmap_app. cbn [fmap list_fmap app]. rewrite Hid.
      rewrite <- !app_assoc, (Permutation_app_comm [c_sent w]), <- !app_assoc. done.
    + by rewrite seq_S.
    + unfold coord_ok. cbn -[window]. lia.
    + intros j Hne. cbn -[Nat.modulo WORKERS]. fold i. by destruct (Nat.eqb_spec j i).
    + destruct (inv_peer w I i p Hp). rewrite Epc in *. constructor; try done. cbn. by apply Forall_app; split; [|constructor].
      unfold worker_ok in *. cbn. destruct (p_pc p) as [| | | | | | | | | |[]]; try done; try (by rewrite ok_closed0 in ok_worker0; destruct ok_worker0). by destruct (items (p_jobs p)).
  - apply (inj Some) in Hs. subst w'. move_on w Epc.
Qed.

(** The outcome at hand goes to its place, which is free. *)
Lemma inv_store w w' i body index : inv w → c_pc w = CRingAdmit i body → is_answer (Z.of_nat (outcome_id body)) index →
  c_pc w' = CScan (S i) true → c_sent w' = c_sent w → c_received w' = S (c_received w) → c_output w' = <[outcome_id body := Some index]> (c_output w) → peers w' = peers w →
  c_output w !! outcome_id body = Some None ∧ inv w'.
Proof.
  intros I Epc Hans E1 E2 E3 E4 E5. assert (Hfl : outcome_id body ∈ flight w) by (unfold flight; rewrite Epc; cbn; left).
  destruct (flight_fresh w _ I Hfl) as [Hk Hfree]. split; [done|]. pose proof (inv_coord w I) as Hc. unfold coord_ok in Hc. rewrite Epc in Hc.
  assert (Ei : issued w' = issued w) by (unfold issued; by rewrite E1, Epc, E2). pose proof (stored_insert _ _ index Hfree) as Hst.
  destruct I. constructor; rewrite ?E2, ?E3, ?E4, ?E5, ?Ei; try done.
  - by rewrite length_insert.
  - intros k ix [(<- & [= <-] & _)|[_ Hx]]%list_lookup_insert_Some; [destruct Hans as [_ Ha]; by rewrite Nat2Z.id in Ha|by apply inv_values0].
  - destruct inv_flight0 as (lost & E & Hl). exists lost. split; [|unfold failed in *; rewrite E5; exact Hl].
    rewrite <- E, Hst. unfold flight. rewrite E1, E5, Epc. cbn -[outcome_id]. symmetry. apply Permutation_middle.
  - rewrite Hst. cbn [length]. by rewrite inv_received0.
  - lia.
  - unfold coord_ok. rewrite E1. split; [lia|done].
  - intros j q Hq. destruct (inv_peer0 j q Hq). rewrite E1. rewrite Epc in *. by constructor.
Qed.

Lemma coord_pass_safe w w' : inv w → match c_pc w with CScan _ _ | CAdmit _ | CRingAdmit _ _ | CWait => True | _ => False end → cstep w = Some w' → safe w'.
Proof.
  intros I. pose proof (inv_coord w I) as Hc. unfold coord_step, coord_ok in *. destruct (c_pc w) as [| | | | |i progress|i|i body| | | | | | ] eqn:Epc; try done; intros _ Hs.
  - destruct Hc as [Hi Hp]. destruct (peers w !! i) as [p|] eqn:Hlk.
    + destruct (lane_claim (p_results p)) as [c l] eqn:Ecl. apply (inj Some) in Hs. subst w'. pose proof (lookup_lt_Some _ _ _ Hlk) as Hl. rewrite (inv_peers w I) in Hl.
      assert (Eil : items l = items (p_results p) ∧ (c = Claimed → items (p_results p) ≠ [])).
      { unfold lane_claim in Ecl. destruct (items (p_results p)) as [|b rs] eqn:Ei, (next (p_results p)), (closed (p_results p)); simplify_eq; by rewrite ?Ei. }
      destruct Eil as [Ei Hcl]. pose proof (inv_peer w I i p Hlk) as [Hj Hr Hsl Hclo Hreap Hok]. rewrite Epc in *.
      left. eapply (inv_put w _ i p _ []); try done; rewrite ?Epc; unfold issued; cbn [goto put_peer c_pc c_sent c_received]; rewrite ?Epc, ?app_nil_r; try done.
      * unfold peer_flight. cbn [p_jobs p_pc p_results]. rewrite Ei. by destruct c.
      * by destruct c.
      * pose proof (inv_issued w I) as Hi'. unfold issued in Hi'. rewrite Epc in Hi'. by destruct c.
      * unfold coord_ok. cbn. destruct c; try (split; [lia|done]). eexists. rewrite list_lookup_insert_eq by (by eapply lookup_lt_Some). split; [done|]. cbn. rewrite Ei. by apply Hcl.
      * intros j _. by destruct c.
      * by destruct c.
      * constructor; cbn; rewrite ?Ei; try done; by destruct c.
    + apply (inj Some) in Hs. subst w'. destruct progress; move_on w Epc. unfold coord_ok; cbn. auto.
  - destruct Hc as (p & Hp & Hne). rewrite Hp in Hs. cbn [mbind option_bind] in Hs. destruct (items (p_results p)) as [|b rs] eqn:Er; [done|]. cbn [head mbind option_bind] in Hs.
    apply (inj Some) in Hs. subst w'. pose proof (inv_peer w I i p Hp) as [Hj Hr Hres Hcl Hreap Hok]. rewrite Er in Hr. apply Forall_cons in Hr as [Hb Hr].
    pose proof (lookup_lt_Some _ _ _ Hp) as Hl. rewrite (inv_peers w I) in Hl. rewrite Epc in *. left.
    eapply (inv_put w _ i p _ []); try done; rewrite ?Epc; unfold issued; cbn [goto put_peer c_pc c_sent c_received]; rewrite ?Epc, ?app_nil_r; try done.
    + unfold peer_flight. cbn -[outcome_id job_id]. rewrite Er. cbn -[outcome_id job_id]. by rewrite !app_assoc, Permutation_middle.
    + pose proof (inv_issued w I) as Hi. unfold issued in Hi. by rewrite Epc in Hi.
    + constructor; try done. cbn. by rewrite Er.
  - destruct Hc as [Hi (index & Hread & Hans)]. rewrite Hread in Hs. rewrite Nat2Z.id in Hs. cbn [light_workers c_output] in Hs.
    destruct (inv_store w (mkWorld (CScan (S i) true) (c_sent w) (S (c_received w)) (<[outcome_id body := Some index]> (c_output w)) (peers w) (c_lit w) true) i body index) as [Hfree I']; try done.
    rewrite Hfree in Hs. apply (inj Some) in Hs. subst w'. by left.
  - destruct (c_lit w); [|done]. apply (inj Some) in Hs. subst w'. move_on w Epc.
Qed.

Lemma coord_end_safe w w' : inv w → match c_pc w with CClose _ | CRingClose _ | CReap _ | CRemove _ | CDone _ => True | _ => False end → cstep w = Some w' → safe w'.
Proof.
  intros I. pose proof (inv_coord w I) as Hc. assert (Hex : ∀ i, peers w !! i = None → (WORKERS ≤ i)%nat) by (intros i Hi; rewrite <- (inv_peers w I); by apply lookup_ge_None).
  assert (Hlt : ∀ i p, peers w !! i = Some p → (i < WORKERS)%nat) by (intros i p Hi; rewrite <- (inv_peers w I); by eapply lookup_lt_Some).
  unfold coord_step, coord_ok in *. destruct (c_pc w) as [| | | | | | | | |i|i|i|i|] eqn:Epc; try done; intros _ Hs.
  - destruct (peers w !! i) as [p|] eqn:Hp; apply (inj Some) in Hs; subst w'.
    + pose proof (inv_peer w I i p Hp) as [Hj Hr Hres Hcl Hreap Hok]. rewrite Epc in *. apply Hlt in Hp as Hl. left.
      eapply (inv_put w _ i p _ []); try done; rewrite ?Epc; unfold issued; cbn [goto put_peer c_pc c_sent c_received]; rewrite ?Epc, ?app_nil_r; try done.
      * pose proof (inv_issued w I) as Hi. unfold issued in Hi. by rewrite Epc in Hi.
      * unfold coord_ok. cbn. lia.
      * intros j Hne. split; [done|]. unfold jobs_closed. destruct (Nat.leb_spec j i), (Nat.ltb_spec j i); try done; lia.
      * constructor; try done; cbn; [by rewrite Nat.leb_refl|]. unfold worker_ok in *. cbn. destruct (p_pc p) as [| | | | | | | | | |[]]; try done; by destruct Hok.
    + apply Hex in Hp. move_on w Epc; [unfold coord_ok; cbn; lia|].
      rewrite Epc. intros j Hj. split; [done|]. unfold jobs_closed. destruct (Nat.ltb_spec j i); [done|lia].
  - apply (inj Some) in Hs; subst w'. move_on w Epc.
  - destruct (peers w !! i) as [p|] eqn:Hp.
    + pose proof (ok_worker _ _ _ _ (inv_peer w I i p Hp)) as Hok. unfold worker_ok in Hok. destruct (p_pc p) as [| | | | | | | | | |[]] eqn:Ep; try done; apply (inj Some) in Hs; subst w'.
      * apply Hlt in Hp as Hl. move_on w Epc; [unfold coord_ok; cbn; lia|].
        intros j q Hq Hr. change ((j <? S i)%nat = true) in Hr. apply Nat.ltb_lt in Hr. destruct (decide (j = i)) as [->|Hne]; [congruence|]. apply (ok_reaped _ _ _ _ (inv_peer w I j q Hq)). rewrite Epc. apply Nat.ltb_lt. lia.
      * eapply (gives_up w); try done. by exists i, p.
    + apply Hex in Hp. apply (inj Some) in Hs; subst w'. move_on w Epc; [unfold coord_ok; cbn; lia|].
      intros j q Hq _. apply (ok_reaped _ _ _ _ (inv_peer w I j q Hq)). rewrite Epc. apply Nat.ltb_lt. apply Hlt in Hq. lia.
  - assert (Hre : ∀ j q, peers w !! j = Some q → p_pc q = WExit true) by (intros j q Hq; apply (ok_reaped _ _ _ _ (inv_peer w I j q Hq)); by rewrite Epc).
    destruct (peers w !! i) as [p|] eqn:Hp; apply (inj Some) in Hs; subst w'.
    + apply Hlt in Hp as Hl. move_on w Epc; [unfold coord_ok; cbn; lia|]. intros j q Hq _. by apply (Hre j).
    + rewrite (all_collected w I) by (first [by rewrite Epc|tauto]). move_on w Epc. intros j q Hq _. by apply (Hre j).
Qed.

Lemma coord_safe w w' : inv w → cstep w = Some w' → safe w'.
Proof using few_paths.
  intros I Hs. destruct (c_pc w) eqn:E;
    first [apply (coord_send_safe w); [done|by rewrite E|done] | apply (coord_pass_safe w); [done|by rewrite E|done] | apply (coord_end_safe w); [done|by rewrite E|done]].
Qed.

Lemma coord_error_safe w w' : errs = true → inv w → coord_error w = Some w' → safe w'.
Proof.
  intros He I Hs. assert (E : c_pc w' = CDone (Err LibraryError) ∧ c_output w' = c_output w).
  { unfold coord_error in Hs. destruct (c_pc w); try done; try (apply (inj Some) in Hs; by subst w'). destruct (peers w !! _); [|done]. apply (inj Some) in Hs. by subst w'. }
  by eapply (gives_up w); [done|apply E..|].
Qed.

(** The workers of a coordinator that has answered an error. *)
Lemma gave_up_worker w w' i p p' : gave_up w → peers w !! i = Some p → peers w' = <[i := p']> (peers w) → (∀ ok, p_pc p ≠ WExit ok) →
  c_pc w' = c_pc w → c_output w' = c_output w → gave_up w'.
Proof.
  intros (e & Epc & He & Hv) Hp Ep Hne E1 E2. exists e. rewrite E1, E2. split_and!; [done| |done].
  destruct e; try done. eapply failed_put; [done|done| |done]. intros E. by apply Hne in E.
Qed.

(** What every step of a worker does. *)
Lemma worker_peer i w w' : wstep i w = Some w' ∨ worker_error i w = Some w' → ∃ p p', peers w !! i = Some p ∧ peers w' = <[i := p']> (peers w) ∧ (∀ ok, p_pc p ≠ WExit ok) ∧
  c_pc w' = c_pc w ∧ c_output w' = c_output w.
Proof.
  unfold worker_step, worker_error. destruct (peers w !! i) as [p|] eqn:Hp; [cbn [mbind option_bind]|by intros [|]]. intros Hs. exists p.
  assert (Hput : ∀ p' w'', w' = w'' → peers w'' = <[i := p']> (peers w) → c_pc w'' = c_pc w → c_output w'' = c_output w → (∀ ok, p_pc p ≠ WExit ok) →
    ∃ p', Some p = Some p ∧ peers w' = <[i := p']> (peers w) ∧ (∀ ok, p_pc p ≠ WExit ok) ∧ c_pc w' = c_pc w ∧ c_output w' = c_output w) by (intros p' w'' -> **; by exists p').
  destruct (p_pc p) as [r| | |body|id index|id index|id index| | | |ok] eqn:Epc; destruct Hs as [Hs|Hs]; try done.
  all: try (destruct (lane_claim (p_jobs p)) as [c l]). all: try (destruct (w_lit w); [|done]). all: try (destruct (lane_reserve (p_results p))).
  all: try (destruct (head (items (p_jobs p))); [|done]). all: cbn [mbind option_bind] in Hs; apply (inj Some) in Hs; symmetry in Hs; by eapply Hput; [exact Hs|..].
Qed.

Lemma step_safe w w' : safe w → step paths index_path errs w w' → safe w'.
Proof using few_paths index_path_wf.
  intros [I|Hg] Hs.
  - destruct Hs as [w' Hs|i w' Hs|w' He Hs|i w' He Hs]; [by apply (coord_safe w)|left; by eapply worker_inv|by eapply coord_error_safe|left; by eapply worker_error_inv].
  - right. pose proof Hg as (e & Epc & _). destruct Hs as [w' Hs|i w' Hs|w' He Hs|i w' He Hs].
    + unfold coord_step in Hs. by rewrite Epc in Hs.
    + destruct (worker_peer i w w' (or_introl Hs)) as (p & p' & ? & ? & ? & ? & ?). by eapply gave_up_worker.
    + unfold coord_error in Hs. by rewrite Epc in Hs.
    + destruct (worker_peer i w w' (or_intror Hs)) as (p & p' & ? & ? & ? & ? & ?). by eapply gave_up_worker.
Qed.

Lemma run_safe w : rtc (step paths index_path errs) (init paths) w → safe w.
Proof using few_paths index_path_wf.
  intros Hr. assert (H : ∀ w0, safe w0 → rtc (step paths index_path errs) w0 w → safe w).
  { clear Hr. intros w0 I Hr. induction Hr as [|w1 w2 w3 Hs _ IH]; [done|]. by apply IH, (step_safe w1). }
  by apply (H (init paths)); [left; apply init_inv|].
Qed.

(** The coordinator never counts more outcomes than jobs. *)
Lemma received_sent w : inv w → (c_received w ≤ c_sent w ≤ c_received w + window)%nat.
Proof.
  intros I. destruct (flight_count w I) as [Hf _]. pose proof (inv_coord w I) as Hc. destruct (inv_issued w I) as [_ Hi]. unfold issued, coord_ok in *. destruct (c_pc w); lia.
Qed.
End Safe.

