(* ===== verification/IndexLive.v ===== *)
(** * The index example: every run comes to a halt

    Every run of the coordinator and its workers is finite, in a number of steps
    that is linear in the number of paths, whatever fails.  It comes to a halt when
    the coordinator has answered, and else only in two ways: a worker has failed,
    and its outcome never comes; or a worker sleeps although it has a job or is told
    to end, because the other one took the notification from the event they share.
    The two are possible, as runs of the program show. *)

From S2P Require Import Prelude Bytes Process Index IndexRun.

(** ** A measure *)

Lemma sum_insert {A} (f : A → nat) (l : list A) i p p' : l !! i = Some p →
  (sum_list_with f (<[i := p']> l) + f p = sum_list_with f l + f p')%nat.
Proof.
  revert i. induction l as [|x l IH]; intros [|i] Hi; try done; [injection Hi as ->; cbn; lia|].
  specialize (IH i Hi). change (f x + sum_list_with f (<[i := p']> l) + f p = f x + sum_list_with f l + f p')%nat. lia.
Qed.

(** What a worker can still do from where it is, a lit event, a job in a queue
    and an outcome in one. *)
Definition wrank (pc : wpc) : nat :=
  match pc with
  | WClaim retries => 92 - retries
  | WWait => 1
  | WAdmit => 55
  | WRingAdmit _ => 310
  | WReserve _ _ => 270
  | WRoom _ _ => 265
  | WPublish _ _ => 260
  | WRingSent => 130
  | WClose => 50
  | WRingClose => 40
  | WExit _ => 0
  end.

Definition crank (pc : cpc) : nat :=
  match pc with
  | CTop => 328
  | CReserve => 327
  | CRoom => 0
  | CPublish => 326
  | CRingSent => 430
  | CScan i progress => 322 + 2 * (WORKERS - i) + (if progress then 10 else 0)
  | CAdmit _ => 323
  | CRingAdmit _ _ => 440
  | CWait => 320
  | CClose i => 20 + 150 * (WORKERS - i)
  | CRingClose i => 10 + 150 * (WORKERS - i)
  | CReap i => 10 + (WORKERS - i)
  | CRemove i => 5 + (WORKERS - i)
  | CDone _ => 0
  end.

Definition peer_rank (p : Peer) : nat := wrank (p_pc p) + 320 * length (items (p_jobs p)) + 120 * length (items (p_results p)).

(** The jobs not yet sent; a coordinator that has answered sends none. *)
Definition unsent (paths : list (list Z)) (w : world) : nat := match c_pc w with CDone _ => 0 | _ => length paths - issued w end.

Definition lights (w : world) : nat := (if c_lit w then 30 else 0) + (if w_lit w then 100 else 0).

Definition measure (paths : list (list Z)) (w : world) : nat := 440 * unsent paths w + crank (c_pc w) + sum_list_with peer_rank (peers w) + lights w.

Section Live.
Context (paths : list (list Z)) (index_path : list Z → Index) (errs : bool).

Abbreviation n := (length paths).
Abbreviation cstep := (coord_step paths).
Abbreviation wstep := (worker_step index_path).
Abbreviation invariant := (inv paths index_path).

Hypothesis few_paths : len paths < 2 ^ 64.
Hypothesis index_path_wf : ∀ path, index_wf (index_path path).

(** No worker has tried more often than it may. *)
Definition patient (w : world) : Prop := ∀ i p r, peers w !! i = Some p → p_pc p = WClaim r → (r < RETRY_LIMIT)%nat.

Lemma patient_put w w' i p' : patient w → peers w' = <[i := p']> (peers w) → (∀ r, p_pc p' = WClaim r → (r < RETRY_LIMIT)%nat) → patient w'.
Proof using. intros Hw Ep Hp j q r Hq. rewrite Ep in Hq. apply list_lookup_insert_Some in Hq as [(_ & <- & _)|[_ Hq]]; [apply Hp|by apply (Hw j)]. Qed.

(** The measure of a step that changes one peer. *)
Lemma measure_put w w' i p p' : peers w !! i = Some p → peers w' = <[i := p']> (peers w) →
  (440 * unsent paths w' + crank (c_pc w') + peer_rank p' + lights w' < 440 * unsent paths w + crank (c_pc w) + peer_rank p + lights w)%nat →
  (measure paths w' < measure paths w)%nat.
Proof using. intros Hp Ep Hlt. unfold measure. rewrite Ep. pose proof (sum_insert peer_rank _ _ _ p' Hp). lia. Qed.

Lemma measure_worker w w' i p p' : peers w !! i = Some p → peers w' = <[i := p']> (peers w) → c_pc w' = c_pc w → c_sent w' = c_sent w →
  (peer_rank p' + lights w' < peer_rank p + lights w)%nat → (measure paths w' < measure paths w)%nat.
Proof using. intros Hp Ep Ec Es Hlt. eapply measure_put; [done|done|]. unfold unsent, issued. rewrite Ec, Es. lia. Qed.

Ltac worker_weigh Epc :=
  eapply measure_worker; [eassumption|reflexivity|reflexivity|reflexivity|];
  unfold peer_rank, lights; cbn [light_coordinator light_workers put_peer c_lit w_lit p_pc p_jobs p_results lane_take lane_publish lane_cancel lane_close items];
  rewrite Epc; cbn [wrank].

Lemma claim_items l c l' : lane_claim l = (c, l') → items l' = items l.
Proof using. unfold lane_claim. destruct (items l) eqn:E, (next l), (closed l); intros [= <- <-]; by rewrite ?E. Qed.

Lemma worker_measure w w' i : patient w → wstep i w = Some w' ∨ worker_error i w = Some w' → (measure paths w' < measure paths w)%nat ∧ patient w'.
Proof using.
  intros Hpat. unfold worker_step, worker_error. destruct (peers w !! i) as [p|] eqn:Hp; [cbn [mbind option_bind]|by intros [|]].
  assert (Hpp : ∀ w'' p', peers w'' = <[i := p']> (peers w) → (∀ r, p_pc p' = WClaim r → (r < RETRY_LIMIT)%nat) → patient w'') by (intros w'' p'; by apply patient_put).
  assert (H0 : (0 < RETRY_LIMIT)%nat) by (unfold RETRY_LIMIT; lia).
  assert (Hl : ((if c_lit w then 30 else 0) ≤ 30)%nat) by (by destruct (c_lit w); lia).
  destruct (p_pc p) as [r| | |body|id index|id index|id index| | | |ok] eqn:Epc; intros [Hs|Hs]; try done.
  - destruct (lane_claim (p_jobs p)) as [c l] eqn:El. pose proof (claim_items _ _ _ El) as Ei. apply (inj Some) in Hs. subst w'. pose proof (Hpat i p r Hp Epc) as Hr. unfold RETRY_LIMIT in *. split.
    + worker_weigh Epc. rewrite Ei. destruct c; cbn [wrank]; try lia. destruct (r =? _)%nat; cbn [wrank]; lia.
    + eapply Hpp; [reflexivity|]. cbn [p_pc]. intros r' E. destruct c; try discriminate E. destruct (Nat.eqb_spec r (32 - 1)); [discriminate E|]. injection E as <-. lia.
  - destruct (w_lit w) eqn:El; [|done]. apply (inj Some) in Hs. subst w'. split; [worker_weigh Epc; rewrite El; lia|eapply Hpp; [reflexivity|]]. cbn. intros r [= <-]. done.
  - apply (inj Some) in Hs. subst w'. split; [worker_weigh Epc; lia|by eapply Hpp].
  - destruct (items (p_jobs p)) as [|b js] eqn:Ej; [done|]. cbn in Hs. apply (inj Some) in Hs. subst w'. split; [worker_weigh Epc; rewrite Ej; cbn [tail tl length]; lia|by eapply Hpp].
  - apply (inj Some) in Hs. subst w'. split; [worker_weigh Epc; lia|by eapply Hpp].
  - apply (inj Some) in Hs. subst w'. split; [worker_weigh Epc; destruct (read_job body) as [[]|]; cbn [wrank]; lia|eapply Hpp; [reflexivity|]]. cbn. by destruct (read_job body) as [[]|].
  - apply (inj Some) in Hs. subst w'. split; [worker_weigh Epc; lia|by eapply Hpp].
  - apply (inj Some) in Hs. subst w'. unfold lane_reserve. destruct (_ <? _)%nat; (split; [worker_weigh Epc; lia|by eapply Hpp]).
  - apply (inj Some) in Hs. subst w'. split; [worker_weigh Epc; lia|by eapply Hpp].
  - destruct (w_lit w) eqn:El; [|done]. apply (inj Some) in Hs. subst w'. split; [worker_weigh Epc; rewrite El; lia|by eapply Hpp].
  - apply (inj Some) in Hs. subst w'. split; [worker_weigh Epc; lia|by eapply Hpp].
  - apply (inj Some) in Hs. subst w'. split; [worker_weigh Epc; rewrite length_app; cbn [length]; lia|by eapply Hpp].
  - apply (inj Some) in Hs. subst w'. split; [worker_weigh Epc; lia|by eapply Hpp].
  - apply (inj Some) in Hs. subst w'. split; [worker_weigh Epc; lia|eapply Hpp; [reflexivity|]]. cbn. intros r [= <-]. done.
  - apply (inj Some) in Hs. subst w'. split; [worker_weigh Epc; lia|by eapply Hpp].
  - apply (inj Some) in Hs. subst w'. split; [worker_weigh Epc; lia|by eapply Hpp].
  - apply (inj Some) in Hs. subst w'. split; [worker_weigh Epc; lia|by eapply Hpp].
  - apply (inj Some) in Hs. subst w'. split; [worker_weigh Epc; lia|by eapply Hpp].
Qed.

(** The measure of a step of the coordinator that leaves the peers alone. *)
Lemma measure_goto w w' : peers w' = peers w →
  (440 * unsent paths w' + crank (c_pc w') + lights w' < 440 * unsent paths w + crank (c_pc w) + lights w)%nat →
  (measure paths w' < measure paths w)%nat.
Proof using. intros Ep Hlt. unfold measure. rewrite Ep. lia. Qed.

Ltac weigh Epc := unfold unsent, issued, lights; cbn [goto put_peer drop_permit light_coordinator light_workers c_pc c_sent c_lit w_lit]; rewrite ?Epc; cbn [crank]; unfold WORKERS in *.

Lemma coord_measure w w' : invariant w → cstep w = Some w' → (measure paths w' < measure paths w)%nat.
Proof using.
  intros I. pose proof (inv_coord _ _ w I) as Hc. pose proof (inv_issued _ _ w I) as Hi.
  assert (Hlt : ∀ i p, peers w !! i = Some p → (i < WORKERS)%nat) by (intros i p Hp; rewrite <- (inv_peers _ _ w I); by eapply lookup_lt_Some).
  assert (Hl : ((if w_lit w then 100 else 0) ≤ 100)%nat) by (by destruct (w_lit w); lia).
  unfold coord_step, coord_ok in *. destruct (c_pc w) as [| | | | |i progress|i|i body| |i|i|i|i|answer] eqn:Epc; intros Hs; try done.
  - apply (inj Some) in Hs. subst w'. destruct (_ || _); [destruct (_ && _)|]; (apply measure_goto; [done|]; weigh Epc; lia).
  - destruct (peers w !! _) as [p|] eqn:Hp; [|done]. cbn [mbind option_bind] in Hs. pose proof (peer_flight_count _ _ w _ p I Hp) as Hf. rewrite peer_flight_length in Hf.
    unfold lane_reserve in Hs. unfold issued in Hf. rewrite Epc in Hf. destruct (Nat.ltb_spec (length (items (p_jobs p))) CHANNEL) as [_|]; [|unfold window, WORKERS, CHANNEL in *; lia].
    apply (inj Some) in Hs. subst w'. eapply measure_put; [done|done|]. weigh Epc. unfold peer_rank. cbn [p_pc p_jobs p_results items]. lia.
  - destruct (peers w !! _) as [p|] eqn:Hp; [|done]. cbn [mbind option_bind] in Hs. destruct (paths !! c_sent w) as [path|] eqn:Hpath; [|done]. cbn [mbind option_bind] in Hs.
    destruct (job _ path) as [body|e]; apply (inj Some) in Hs; subst w'; (eapply measure_put; [done|done|]); weigh Epc; unfold peer_rank; cbn [p_pc p_jobs p_results lane_publish lane_cancel items]; [rewrite length_app; cbn [length]|]; lia.
  - apply (inj Some) in Hs. subst w'. apply measure_goto; [done|]. weigh Epc. lia.
  - destruct (peers w !! i) as [p|] eqn:Hp.
    + destruct (lane_claim (p_results p)) as [c l] eqn:El. pose proof (claim_items _ _ _ El) as Ei. apply (inj Some) in Hs; subst w'. apply Hlt in Hp as Hw.
      eapply measure_put; [done|done|]. weigh Epc. unfold peer_rank. cbn [p_pc p_jobs p_results]. rewrite Ei. destruct c, progress; cbn [crank]; unfold WORKERS; lia.
    + apply (inj Some) in Hs; subst w'. destruct progress; (apply measure_goto; [done|]; weigh Epc; lia).
  - destruct Hc as (p & Hp & Hne). rewrite Hp in Hs. cbn [mbind option_bind] in Hs. destruct (items (p_results p)) as [|b rs] eqn:Er; [done|]. cbn [head mbind option_bind] in Hs.
    apply (inj Some) in Hs. subst w'. eapply measure_put; [done|done|]. weigh Epc. unfold peer_rank. cbn [p_pc p_jobs p_results lane_take items]. rewrite Er. cbn [tail tl length]. lia.
  - destruct Hc as [Hw (index & Hread & Hans)]. rewrite Hread in Hs. rewrite Nat2Z.id in Hs.
    assert (Hfl : outcome_id body ∈ flight w) by (unfold flight; rewrite Epc; cbn -[outcome_id]; left).
    destruct (flight_fresh _ _ w _ I Hfl) as [_ Hfree]. cbn [light_workers c_output] in Hs. rewrite Hfree in Hs. apply (inj Some) in Hs. subst w'.
    apply measure_goto; [done|]. weigh Epc. lia.
  - destruct (c_lit w) eqn:El; [|done]. apply (inj Some) in Hs. subst w'. apply measure_goto; [done|]. weigh Epc. rewrite El. lia.
  - destruct (peers w !! i) as [p|] eqn:Hp; apply (inj Some) in Hs; subst w'.
    + apply Hlt in Hp as Hw. eapply measure_put; [done|done|]. weigh Epc. unfold peer_rank. cbn [p_pc p_jobs p_results lane_close items]. lia.
    + apply measure_goto; [done|]. weigh Epc. lia.
  - apply (inj Some) in Hs; subst w'. apply measure_goto; [done|]. weigh Epc. lia.
  - destruct (peers w !! i) as [p|] eqn:Hp; [|by apply (inj Some) in Hs; subst w'; apply measure_goto; [done|]; weigh Epc; lia].
    apply Hlt in Hp. destruct (p_pc p) as [| | | | | | | | | |[]]; try done; apply (inj Some) in Hs; subst w'; (apply measure_goto; [done|]; weigh Epc; lia).
  - destruct (peers w !! i) as [p|] eqn:Hp; apply (inj Some) in Hs; subst w'; [apply Hlt in Hp|]; (apply measure_goto; [done|]; weigh Epc; lia).
Qed.

Lemma coord_error_measure w w' : invariant w → coord_error w = Some w' → (measure paths w' < measure paths w)%nat.
Proof using.
  intros I. pose proof (inv_coord _ _ w I) as Hc. assert (Hl : ((if w_lit w then 100 else 0) ≤ 100)%nat) by (by destruct (w_lit w); lia).
  unfold coord_error, coord_ok in *. destruct (c_pc w) as [| | | | |i progress|i|i body| |i|i|i|i|answer] eqn:Epc; intros Hs; try done;
    try (apply (inj Some) in Hs; subst w'; apply measure_goto; [done|]; weigh Epc; lia).
  destruct (peers w !! _) as [p|] eqn:Hp; [|done]. cbn [mbind option_bind] in Hs. apply (inj Some) in Hs. subst w'.
  eapply measure_put; [done|done|]. weigh Epc. unfold peer_rank. cbn [p_pc p_jobs p_results lane_cancel items]. lia.
Qed.

(** A step of the coordinator leaves the workers where they are. *)
Lemma coord_patient w w' : patient w → cstep w = Some w' ∨ coord_error w = Some w' → patient w'.
Proof using.
  intros Hpat Hs. assert (Hpc : ∀ i q, peers w' !! i = Some q → ∃ p, peers w !! i = Some p ∧ p_pc q = p_pc p); [|intros i q r Hq E; destruct (Hpc i q Hq) as (p & Hp & Ep); apply (Hpat i p); congruence].
  assert (Hput : ∀ j p p', peers w !! j = Some p → p_pc p' = p_pc p → peers w' = <[j := p']> (peers w) → ∀ i q, peers w' !! i = Some q → ∃ p, peers w !! i = Some p ∧ p_pc q = p_pc p).
  { intros j p p' Hp E Ep i q Hq. rewrite Ep in Hq. apply list_lookup_insert_Some in Hq as [(<- & <- & _)|[_ Hq]]; [by exists p|by exists q]. }
  assert (Hsame : peers w' = peers w → ∀ i q, peers w' !! i = Some q → ∃ p, peers w !! i = Some p ∧ p_pc q = p_pc p) by (intros -> i q Hq; by exists q).
  unfold coord_step, coord_error, mbind, option_bind in Hs. destruct (c_pc w) as [| | | | |i progress|i|i body| |i|i|i|i|answer]; destruct Hs as [Hs|Hs]; try done;
    repeat match type of Hs with
    | context [lane_claim ?l] => destruct (lane_claim l)
    | context [match ?x with _ => _ end] => let E := fresh "E" in destruct x eqn:E; try done
    end; apply (inj Some) in Hs; subst w'; first [by apply Hsame|eapply Hput; [eassumption| |reflexivity]; reflexivity].
Qed.

(** ** No notification to the coordinator is lost *)

(** The peers the coordinator has found without results in the pass that it ends
    with a wait. *)
Definition quiet (pc : cpc) (i : nat) : bool :=
  match pc with
  | CScan j false => (i <? j)%nat
  | CWait => true
  | _ => false
  end.

(** With its event out, the coordinator has seen every outcome, or a notification
    is about to come, or the worker that owed it has failed. *)
Definition wake (w : world) : Prop := ∀ i p, peers w !! i = Some p → quiet (c_pc w) i = true → c_lit w = false →
  items (p_results p) = [] ∨ p_pc p = WRingSent ∨ p_pc p = WExit false.

Lemma init_wake : wake (init paths).
Proof using. intros i p Hp. done. Qed.

(** What a step of a worker does to what wakes the coordinator. *)
Lemma worker_effect w w' i : wstep i w = Some w' ∨ worker_error i w = Some w' → ∃ p p', peers w !! i = Some p ∧ peers w' = <[i := p']> (peers w) ∧ c_pc w' = c_pc w ∧
  (c_lit w' = false → c_lit w = false) ∧ p_pc p ≠ WExit false ∧
  (c_lit w' = false → items (p_results p') = items (p_results p) ∧ p_pc p ≠ WRingSent ∨ p_pc p' = WRingSent ∨ p_pc p' = WExit false).
Proof using.
  unfold worker_step, worker_error. destruct (peers w !! i) as [p|] eqn:Hp; [cbn [mbind option_bind]|by intros [|]]. intros Hs. exists p.
  destruct (p_pc p) as [r| | |body|id index|id index|id index| | | |ok] eqn:Epc; destruct Hs as [Hs|Hs]; try done.
  all: try (destruct (lane_claim (p_jobs p)) as [c l]). all: try (destruct (w_lit w); [|done]). all: try (destruct (head (items (p_jobs p))); [|done]). all: cbn [mbind option_bind] in Hs.
  all: try (destruct (lane_reserve (p_results p)) eqn:El). all: apply (inj Some) in Hs; subst w'; eexists; split_and!; try done.
  all: cbn [put_peer light_coordinator light_workers c_lit p_pc p_results items lane_close]; intros _; first [by left|by right; left|by right; right|idtac].
  left. unfold lane_reserve in El. destruct (_ <? _)%nat; [|done]. by injection El as <-.
Qed.

Lemma worker_wake w w' i : wake w → wstep i w = Some w' ∨ worker_error i w = Some w' → wake w'.
Proof using.
  intros Hc Hs. destruct (worker_effect w w' i Hs) as (p & p' & Hp & Ep & Epc & Hcl & Hlive & Hres).
  intros j q Hq; rewrite Ep in Hq; rewrite Epc; apply list_lookup_insert_Some in Hq as [(<- & -> & _)|[Hne Hq]]; intros Hquiet Hl.
  - destruct (Hres Hl) as [[E Hn]|E]; [|by right]. rewrite E. destruct (Hc _ _ Hp Hquiet (Hcl Hl)) as [|[|]]; [by left|done|done].
  - by apply (Hc j q Hq Hquiet), Hcl.
Qed.

(** A step to where the coordinator is not about to wait. *)
Lemma wake_busy w : (∀ i, quiet (c_pc w) i = false) → wake w.
Proof using. intros Hq i p _. by rewrite Hq. Qed.

Lemma coord_wake w w' : wake w → cstep w = Some w' ∨ coord_error w = Some w' → wake w'.
Proof using.
  intros Hc. unfold coord_step, coord_error, mbind, option_bind. destruct (c_pc w) as [| | | | |i progress|i|i body| |i|i|i|i|answer] eqn:Epc; intros [Hs|Hs]; try done;
    try (repeat match type of Hs with context [match ?x with _ => _ end] => destruct x; try done end; apply (inj Some) in Hs; subst w'; by apply wake_busy).
  destruct (peers w !! i) as [p|] eqn:Hp; [destruct (lane_claim (p_results p)) as [c l] eqn:Ecl|]; apply (inj Some) in Hs; subst w'.
  - destruct c, progress; try (by apply wake_busy); intros j q Hq; cbn [goto put_peer peers c_pc c_lit] in *; intros Hquiet Hl; change ((j <? S i)%nat = true) in Hquiet; apply Nat.ltb_lt in Hquiet;
      (apply list_lookup_insert_Some in Hq as [(<- & <- & _)|[Hne Hq]]; cbn [p_results p_pc];
        [left; rewrite (claim_items _ _ _ Ecl); unfold lane_claim in Ecl; by destruct (items (p_results p))|apply (Hc j q Hq); [|done]; rewrite Epc; apply Nat.ltb_lt; lia]).
  - destruct progress; [by apply wake_busy|]. intros j q Hq _ Hl. apply (Hc j q Hq); [|done]. rewrite Epc. apply Nat.ltb_lt. apply lookup_ge_None in Hp. apply lookup_lt_Some in Hq. cbn in Hq. lia.
Qed.

(** ** Where a run comes to a halt *)

(** A worker sleeps although it has a job or is told to end: the event is out. *)
Definition asleep (w : world) : Prop :=
  w_lit w = false ∧ ∃ i p, peers w !! i = Some p ∧ p_pc p = WWait ∧ (items (p_jobs p) ≠ [] ∨ closed (p_jobs p) = true).

(** What the coordinator and a worker can be blocked at. *)
Lemma coord_moves w : invariant w → is_Some (cstep w) ∨ (c_pc w = CWait ∧ c_lit w = false) ∨
  (∃ i p, c_pc w = CReap i ∧ peers w !! i = Some p ∧ ∀ ok, p_pc p ≠ WExit ok) ∨ ∃ answer, c_pc w = CDone answer.
Proof using.
  intros I. pose proof (inv_coord _ _ w I) as Hok. pose proof (inv_peers _ _ w I) as Hlen. unfold coord_step, coord_ok, target in *. cbv zeta.
  destruct (c_pc w) as [| | | | |i progress|i|i body| |i|i|i|i|answer] eqn:Epc; try (by left).
  - left. rewrite Hlen. destruct (lookup_lt_is_Some_2 (peers w) (c_sent w mod WORKERS)%nat) as [p ->]; [rewrite Hlen; apply Nat.mod_upper_bound; done|]. cbn. by eexists.
  - left. rewrite Hlen. destruct (lookup_lt_is_Some_2 (peers w) (c_sent w mod WORKERS)%nat) as [p ->]; [rewrite Hlen; apply Nat.mod_upper_bound; done|]. cbn.
    destruct (lookup_lt_is_Some_2 paths (c_sent w)) as [path ->]; [lia|]. by eexists.
  - left. destruct (peers w !! i) as [p|]; [destruct (lane_claim _)|]; by eexists.
  - left. destruct Hok as (p & -> & Hne). cbn. destruct (items (p_results p)); [done|]. by eexists.
  - destruct (c_lit w); [left; by eexists|right; by left].
  - left. destruct (peers w !! i); by eexists.
  - destruct (peers w !! i) as [p|] eqn:Hp; [|left; by eexists]. destruct (p_pc p) eqn:E; try (left; by eexists); (right; right; left; exists i, p; rewrite E; done).
  - left. destruct (peers w !! i); by eexists.
  - right. right. right. by eexists.
Qed.

Lemma worker_moves w i p : invariant w → peers w !! i = Some p →
  is_Some (wstep i w) ∨ (p_pc p = WWait ∧ w_lit w = false) ∨ ∃ ok, p_pc p = WExit ok.
Proof using.
  intros I Hp. pose proof (ok_worker _ _ _ _ _ _ (inv_peer _ _ w I i p Hp)) as Hok. unfold worker_step, worker_ok in *. rewrite Hp. cbn [mbind option_bind].
  destruct (p_pc p) as [r| | |body|id index|id index|id index| | | |ok] eqn:Epc; try done; try (left; by eexists); [| | |right; right; by eexists].
  - left. destruct (lane_claim _). by eexists.
  - destruct (w_lit w); [left; by eexists|]. right. by left.
  - left. destruct (items (p_jobs p)); [done|]. by eexists.
Qed.

(** With nothing to send or to receive the coordinator waits for a worker, which
    can go on, has failed, or is asleep. *)
Lemma halts w : invariant w → wake w → (∀ w', ¬ step paths index_path false w w') →
  (∃ answer, c_pc w = CDone answer) ∨ (c_pc w = CWait ∧ (failed w ∨ asleep w)) ∨ ((∃ i, c_pc w = CReap i) ∧ asleep w).
Proof using.
  intros I Hc Hstuck. assert (Hw : ∀ i w', wstep i w ≠ Some w') by (intros i w' Hs; by apply (Hstuck w'), (step_worker _ _ _ _ i)).
  destruct (coord_moves w I) as [[w' Hs]|[Hblocked|[Hreap|Hdone]]]; [by destruct (Hstuck w'); constructor| | |by left]; right.
  - left. destruct Hblocked as [Epc Hl]. split; [done|]. pose proof (inv_coord _ _ w I) as Hlt. unfold coord_ok in Hlt. rewrite Epc in Hlt.
    destruct (inv_flight _ _ w I) as (lost & Hperm & [->|Hf]); [|by left]. apply Permutation_length in Hperm. rewrite app_nil_r, length_app, length_seq, (inv_received _ _ w I) in Hperm.
    unfold issued in Hperm. rewrite Epc in Hperm.
    destruct (flight w) as [|k fl] eqn:Efl; [cbn in Hperm; lia|]. assert (Hk : k ∈ concat (peer_flight <$> peers w)).
    { unfold flight in Efl. rewrite Epc in Efl. cbn [coord_flight app] in Efl. rewrite Efl. left. }
    apply list_elem_of_In, in_concat in Hk as (ks & Hks%list_elem_of_In & Hk%list_elem_of_In). apply list_elem_of_fmap in Hks as (p & -> & [i Hp]%list_elem_of_lookup).
    destruct (inv_peer _ _ w I i p Hp) as [_ _ _ Hcl _ Hok]. rewrite Epc in Hcl. destruct (worker_moves w i p I Hp) as [[w' Hs]|[[Ewait Hb]|[ok Eexit]]].
    + by destruct (Hw i w').
    + right. split; [done|]. exists i, p. split_and!; [done|done|left]. intros E1.
      destruct (Hc i p Hp) as [E2|[E2|E2]]; [by rewrite Epc|done| |congruence|congruence]. unfold peer_flight in Hk. rewrite E1, E2, Ewait in Hk. by apply not_elem_of_nil in Hk.
    + unfold worker_ok in Hok. rewrite Eexit, Hcl in Hok. destruct ok; [by destruct Hok|]. left. by exists i, p.
  - right. destruct Hreap as (i & p & Epc & Hp & Hne). split; [by exists i|]. destruct (inv_peer _ _ w I i p Hp) as [_ _ _ Hcl _ _]. rewrite Epc in Hcl.
    destruct (worker_moves w i p I Hp) as [[w' Hs]|[[Ewait Hb]|[ok Eexit]]]; [by destruct (Hw i w')| |by destruct (Hne ok)].
    split; [done|]. exists i, p. split_and!; [done|done|]. by right.
Qed.

(** ** All runs *)

Abbreviation go := (step paths index_path errs).

Definition live (w : world) : Prop := safe paths index_path errs w ∧ wake w ∧ patient w.

Lemma go_keeps w w' : live w → go w w' → live w' ∧ (measure paths w' < measure paths w)%nat.
Proof using few_paths index_path_wf.
  intros (I & W & P) Hs. pose proof (step_safe _ _ _ few_paths index_path_wf _ _ I Hs) as I'.
  assert (Hcoord : ∀ e, c_pc w = CDone e → cstep w = None ∧ coord_error w = None) by (intros e E; unfold coord_step, coord_error; by rewrite E).
  assert (Hi : (∀ e, c_pc w ≠ CDone (Err e)) → invariant w) by (intros Hne; destruct I as [I|(e & E & _)]; [done|by destruct (Hne e)]).
  destruct Hs as [w' Hs|i w' Hs|w' He Hs|i w' He Hs].
  - assert (Iw : invariant w) by (apply Hi; intros e E; destruct (Hcoord _ E); congruence).
    split; [split_and!; [done|by eapply coord_wake; [|left]|by eapply coord_patient; [|left]]|by apply coord_measure].
  - destruct (worker_measure w w' i P (or_introl Hs)) as [Hm P']. split; [split_and!; [done|by eapply worker_wake; [|left]|done]|done].
  - assert (Iw : invariant w) by (apply Hi; intros e E; destruct (Hcoord _ E); congruence).
    split; [split_and!; [done|by eapply coord_wake; [|right]|by eapply coord_patient; [|right]]|by apply coord_error_measure].
  - destruct (worker_measure w w' i P (or_intror Hs)) as [Hm P']. split; [split_and!; [done|by eapply worker_wake; [|right]|done]|done].
Qed.

Lemma init_live : live (init paths).
Proof using.
  split_and!; [left; apply init_inv|apply init_wake|]. intros i p r Hp. change (replicate WORKERS (mkPeer (mkLane [] Vacant false) (mkLane [] Vacant false) (WClaim 0)) !! i = Some p) in Hp.
  apply lookup_replicate in Hp as [-> _]. cbn. intros [= <-]. unfold RETRY_LIMIT. lia.
Qed.

Lemma run_keeps k w : nsteps go k (init paths) w → live w ∧ (k + measure paths w ≤ measure paths (init paths))%nat.
Proof using few_paths index_path_wf.
  assert (H : ∀ w0, live w0 → nsteps go k w0 w → live w ∧ (k + measure paths w ≤ measure paths w0)%nat); [|apply H, init_live].
  induction k as [|k IH]; intros w0 I Hn; inversion Hn as [|? ? w1 ? Hs Hn']; subst; [by split; [|lia]|].
  destruct (go_keeps w0 w1 I Hs) as [I1 Hm]. destruct (IH w1 I1 Hn') as [I2 Hm2]. split; [done|lia].
Qed.
End Live.

Lemma measure_init paths : measure paths (init paths) = (440 * length paths + 512)%nat.
Proof. unfold measure, unsent, issued, lights. cbn [init c_pc c_sent c_lit w_lit peers]. rewrite Nat.sub_0_r. cbn [replicate WORKERS sum_list_with]. unfold peer_rank. cbn. lia. Qed.


(** ** Runs *)

Section Sched.
Context (paths : list (list Z)) (index_path : list Z → Index).

(** The steps of a schedule: [0] is the coordinator, [S i] the [i]th worker. *)
Definition turn (who : nat) (w : world) : option world :=
  match who with
  | O => coord_step paths w
  | S i => worker_step index_path i w
  end.

Fixpoint turns (whos : list nat) (w : world) : option world :=
  match whos with
  | [] => Some w
  | who :: whos => w' ← turn who w; turns whos w'
  end.

Lemma turns_run errs whos w w' : turns whos w = Some w' → rtc (step paths index_path errs) w w'.
Proof.
  revert w. induction whos as [|who whos IH]; intros w; cbn; [by intros [= ->]|]. destruct (turn who w) as [w1|] eqn:E; [cbn; intros Hr|done].
  eapply rtc_l; [|by apply IH]. destruct who as [|i]; cbn in E; [by constructor|by apply (step_worker _ _ _ _ i)].
Qed.

(** Nobody can go on. *)
Definition halted (w : world) : bool :=
  bool_decide (length (peers w) = WORKERS) && negb (bool_decide (is_Some (coord_step paths w))) &&
  forallb (λ i, negb (bool_decide (is_Some (worker_step index_path i w)))) (seq 0 WORKERS).

Lemma halted_stuck w : halted w = true → ∀ w', ¬ step paths index_path false w w'.
Proof.
  unfold halted. rewrite !andb_true_iff, forallb_forall. intros [[Hl Hc] Hw] w' [w1 Hs|i w1 Hs|w1 He _|i w1 He _]; [|..|done|done].
  - apply negb_true_iff, bool_decide_eq_false in Hc. by destruct Hc; eexists.
  - apply bool_decide_eq_true in Hl. assert (Hi : (i < WORKERS)%nat).
    { rewrite <- Hl. unfold worker_step in Hs. destruct (peers w !! i) eqn:E; [|done]. by eapply lookup_lt_Some. }
    specialize (Hw i). rewrite in_seq in Hw. specialize (Hw ltac:(lia)). apply negb_true_iff, bool_decide_eq_false in Hw. by destruct Hw; eexists.
Qed.
End Sched.

(** Two files, [a] and [b]. *)
Definition demo_paths : list (list Z) := [[97]; [98]].
Definition demo_index (path : list Z) : Index := mkIndex (len path mod 2 ^ 64) 1 7 None.
Definition demo_turns (whos : list nat) : option world := turns demo_paths demo_index whos (init demo_paths).
Abbreviation demo_step := (step demo_paths demo_index).

Lemma demo_run errs whos w : demo_turns whos = Some w → rtc (demo_step errs) (init demo_paths) w.
Proof. unfold demo_turns. intros E. exact (turns_run _ _ errs _ _ _ E). Qed.

Lemma demo_index_wf path : index_wf (demo_index path).
Proof. split_and!; [apply Z.mod_pos_bound; lia|by_eval|by_eval|done]. Qed.

(** A whole run. *)
Definition full_run : list nat :=
  (replicate 12 0 ++ replicate 3 1 ++ replicate 5 0 ++ replicate 3 1 ++ replicate 11 0 ++ replicate 3 1 ++ replicate 3 2 ++ replicate 5 0 ++
  replicate 3 2 ++ replicate 13 0 ++ replicate 4 1 ++ replicate 1 0 ++ replicate 3 2 ++ replicate 5 0)%nat.

(** Both workers find their queues empty and wait; both jobs are sent before one
    of them wakes.  The first takes the only light, does its job and waits again;
    the coordinator admits the outcome and lights the event, which the first
    worker takes once more. *)
Definition lost_wakeup : list nat := ([1; 2] ++ replicate 9 0 ++ replicate 8 1 ++ replicate 12 0 ++ replicate 2 1 ++ replicate 2 0)%nat.

(** The coordinator reserves a slot; before it publishes, the worker meets the slot
    as often as it may and leaves.  The second worker does the second job. *)
Definition given_up : list nat := (replicate 2 0 ++ replicate 32 1 ++ replicate 10 0 ++ replicate 9 2 ++ replicate 11 0 ++ replicate 2 2)%nat.

(** A schedule after which nobody can go on, and what is the case then. *)
Lemma demo_halt (P : world → Prop) errs whos :
  match demo_turns whos with Some w => halted demo_paths demo_index w = true ∧ P w | None => False end →
  ∃ w, rtc (demo_step errs) (init demo_paths) w ∧ (∀ w', ¬ demo_step false w w') ∧ P w.
Proof.
  destruct (demo_turns whos) as [w|] eqn:E; [|by intros []]. intros [Hh HP]. exists w. split_and!; [exact (demo_run _ _ _ E)|by apply halted_stuck|done].
Qed.

Lemma full_run_ends errs : ∃ w, rtc (demo_step errs) (init demo_paths) w ∧ (∀ w', ¬ demo_step false w w') ∧ c_pc w = CDone (Ok [mkIndex 1 1 7 None; mkIndex 1 1 7 None]).
Proof. apply (demo_halt _ errs full_run). vm_compute. by split. Qed.

(** The program gives its workers one event.  A run can come to a halt with the
    coordinator waiting for an outcome, the second job in its queue and its worker
    waiting: the first worker has taken every notification of it. *)
Theorem shared_event_hangs : ∃ w, rtc (demo_step false) (init demo_paths) w ∧ (∀ w', ¬ demo_step false w w') ∧
  c_pc w = CWait ∧ c_received w = 1%nat ∧ ∃ p, peers w !! 1%nat = Some p ∧ p_pc p = WWait ∧ length (items (p_jobs p)) = 1%nat.
Proof. apply (demo_halt _ false lost_wakeup). vm_compute. split_and!; [reflexivity|reflexivity|reflexivity|]. eexists. by split_and!. Qed.

(** Between the reservation of a slot and its publication the coordinator makes the
    job and copies it into the pool; a worker that claims in the meantime gives up
    after 32 attempts and leaves with an error.  Nobody does its job: the
    coordinator, which looks at its workers only at the end, waits for ever. *)
Theorem reserved_slot_fails_worker : ∃ w, rtc (demo_step false) (init demo_paths) w ∧ (∀ w', ¬ demo_step false w w') ∧
  c_pc w = CWait ∧ c_received w = 1%nat ∧ ∃ p, peers w !! 0%nat = Some p ∧ p_pc p = WExit false ∧ length (items (p_jobs p)) = 1%nat.
Proof. apply (demo_halt _ false given_up). vm_compute. split_and!; [reflexivity|reflexivity|reflexivity|]. eexists. by split_and!. Qed.


